(* ===== verification/_CoqProject ===== *)
-Q . S2P
Prelude.v
Text.v
IntCodec.v
Canon.v
CanonLaws.v
Calendar.v
Outcome.v
Witness.v
Encoding.v
Decimal.v
DecimalMath.v
Values.v
FloatMath.v
Parsing.v
KernelTerm.v
KernelPrim.v
Certificate.v
KernelCheck.v
KernelMeta.v
KernelTyping.v
KernelBudget.v
KernelSound.v
Derivation.v
Publication.v
Elaborate.v
Settlement.v
Journal.v
Commit.v
SatProfile.v
SatCertificate.v
SatCheck.v
Saturation.v
SatLasso.v
SatDriver.v
SatClosure.v
Bisimulation.v
SatBehaves.v
Engine.v
Regimes.v
Deliberation.v
Auditing.v
AuditBundle.v
BundleCodec.v
BundleCheck.v
Trie.v
TrieLaws.v
TrieMap.v
DecodedCache.v
TrieStore.v
NodeCodec.v
TrieLazy.v
TriePersist.v
TriePage.v
L3Value.v
Evidence.v
L3Eval.v
L3Laws.v
Syntax.v
L3Lower.v
L3Scope.v
L3Run.v
