(* ===== verification/Prelude.v ===== *)
(** Verification of the BrixMS settlement core.

    * The program

    BrixMS settles configurations: regimes offer candidate steps, a governance
    predicate filters them, a keyed calendar selects one, and the commit boundary
    records it in a hash-chained journal. The trusted part is four crates under
    src/crates/, each building on the ones before, and a bridge over them:

    - brix-canon: the canonical byte encoding, digests and typed identities on
      which every identity of the system rests;
    - brix-semantic: outcomes and authorities, witnesses, derivations with a
      verification tag, judgements and the fence that publishes them;
    - brix-kernel: the proof kernel, a bidirectional checker of proof terms with
      its primitive relations and its certificate envelope;
    - soc-core: the settlement oracle (calendar, providers, admissibility, commit,
      journal), the incremental engine, the audit checker, and saturation, which
      hides administrative steps;
    - soc-regimes: particular providers of candidates, and the deliberation over named
      candidates;
    - brix-syntax: the tree of a program;
    - brix-lower: the programs that settle decisions: their lowering to plans, values, contracts,
      evaluator and runner;
    - brix-elaborate: the boundary over which audited settlement evidence becomes a proof
      that the kernel checks.

    * Files

    Prelude.v (this file) holds the result and state monads, [outcome] for loops
    that may panic or run out of fuel, [iterate], and the shared lemmas.

    brix-canon/src:
    - IntCodec.v: int_codec.rs.
    - Canon.v: lib.rs, the writer, the reader, digests and typed ids. A writer is
      the bytes written; a reader is a buffer and a position.
    - CanonLaws.v: lib.rs, the unordered forms and [PrefixFree], the interface the
      hashing layers are proved against.
    - Decimal.v: decimal.rs, exact decimals. DecimalMath.v: decimal_math.rs.
      Values.v: quantity.rs, float.rs, strict_ieee.rs but its arithmetic, which is
      FloatMath.v.
    - Encoding.v, Parsing.v: no code of their own; how encodings compose, and
      readers that accept exactly a grammar.

    brix-semantic/src:
    - Outcome.v: outcome.rs. Witness.v: id.rs, generator.rs, witness.rs.
    - Derivation.v: decomposition.rs, generator_semantics.rs, tree.rs.
    - Publication.v: evidence.rs, dependency.rs, realizes.rs, quiescent.rs,
      context.rs, judgement.rs, publication.rs.

    brix-kernel/src:
    - KernelTerm.v: term.rs. KernelPrim.v: prim_schema.rs, prim_registry.rs.
      Certificate.v: certificate.rs. KernelCheck.v: check.rs, verdict.rs.
    - KernelMeta.v, KernelTyping.v, KernelBudget.v, KernelSound.v: the checker's discipline,
      the declarative rules, what a budget can do, and the rules' interpretation.

    brix-elaborate/src:
    - Elaborate.v: lib.rs, tree_proof.rs.

    soc-core/src:
    - Calendar.v: calendar.rs. Settlement.v: intern.rs, exec.rs, history.rs,
      witness_provider.rs, adm.rs, cost.rs, oracle.rs. Journal.v: journal.rs.
      Commit.v: commit.rs. Engine.v: delta.rs, engine.rs. Auditing.v: audit.rs,
      audit_receipt.rs. AuditBundle.v, BundleCheck.v: audit_bundle.rs; BundleCodec.v:
      its codec.
    - SatProfile.v, Saturation.v: saturate/mod.rs. SatCertificate.v, SatCheck.v:
      saturate/certificate.rs. SatDriver.v: saturate/driver.rs and adequacy.rs.
      SatClosure.v: saturate/closure.rs. Bisimulation.v: saturate/bisimulation.rs.
      SatLasso.v, SatBehaves.v: what the layer promises.
    - Trie.v, TrieMap.v, DecodedCache.v, TrieStore.v: store.rs, the radix trie, the map
      types and their trait, the cache of decoded nodes, the store-aware operations.
      TrieLaws.v, NodeCodec.v, TrieLazy.v, TriePersist.v, TriePage.v: what they promise.

    soc-regimes/src:
    - Regimes.v: literal.rs, and the lowered candidates and the regime of
      finite_frontier.rs. Deliberation.v: the rest of finite_frontier.rs.

    brix-lower/src:
    - L3Value.v, Evidence.v, L3Eval.v: l3_v2.rs, its values, schemas and patterns; its
      evidence registry (with the claim of evidence.rs); its evaluator. L3Laws.v: what the
      evaluator promises. Text.v: the standard library's string functions these use.
    - L3Lower.v: l3_v2.rs, the lowering of modules to plans and the check that matches are
      exhaustive. L3Run.v: its runner of plans. L3Scope.v: what lowering's scopes promise the
      evaluator. Syntax.v: brix-syntax/src/ast.rs.

    * How code is rendered

    Structs are records, enums are inductive types with the source's constructors,
    [Result] is [result], [Option] is [option]. A fixed-width integer is a [Z] in
    its range, with the cast, the wrapping or the saturating operation written out; a
    [usize] index or count is a [nat] where the code does not compute with it, and a [Z]
    with the wrap-around of the release profile where it does (the object variables of
    kernel terms); debug assertions and debug overflow checks are compiled out. A [BTreeMap] is a [gmap], a [BTreeSet] a [gset]; where
    the code iterates, the order is the sorted order of the keys. A function with a
    mutable receiver takes and returns the state; a function that may panic returns
    [option], and [None] is the panic. A trait with one method is a function type,
    one with several is a record or a class. Closures with state (keyers) are state
    transformers.

    * Fuel and bounds

    - The checker runs on fuel [max_steps]; each level consumes a step before it
      recurses, so fuel equal to the steps left is exact
      ([KernelMeta.checker_total_and_balanced]).
    - The numeric tower's worklists run on [TOWER_FUEL], the number of tower
      elements plus one ([KernelPrim.edge_path_spec]).
    - [run_from] runs on [max_ticks], the bound the code loops to.
    - The saturated step runs on [max_hidden_steps + 1] iterations, because each one
      but the last adds an administrative step ([Saturation.sat_step_exact]); the
      saturated run and the closure check on [max_visible_steps + 1]
      ([SatDriver.run_saturated_exact], [SatClosure.closure_sound]); the comparison
      on [max_pairs + 1] ([Bisimulation.check_saturated_exact]).
    - Decimal digits are read off on 39 steps, Euclid's algorithm runs on 257
      ([DecimalMath.decimal_division_exact]).
    - A store-aware trie operation runs on [STORE_FUEL], 66 levels: a branch consumes a
      nibble of the 64 of a hash ([TrieLazy.store_ops_faithful]). The eviction loop runs
      on the slots and entries of the cache ([DecodedCache.cache_bounded]).
    - The evaluator runs on the recursion depth its budget allows and one more level, or,
      without a budget and so without helpers, on the height of the expression, or on as
      many levels as fit the stack of the thread it runs on, a parameter ([NativeStack]): the
      end of this fuel is the overflow of that stack ([L3Laws.evaluation_returns]); the walk over a value on its number of nodes. The runner's
      loop runs once for each rule and once to stop ([L3Run.run_exact]).
    Each of these theorems states that [OutOfFuel] does not occur, that of the evaluator on a
    stack that fits its recursion. Elsewhere the stack is not modelled: a recursion over a finite
    input is taken to fit it.

    * What is shown

    - Encoding: the integer codec and every reader accept exactly the bytes their
      writers produce; the unordered forms are canonical; certificates, saturation
      certificates, receipts and decimals have one encoding each. Identities that
      are digests determine what they identify, or two of the messages hashed for them,
      which each statement names, collide.
    - Numbers: equal decimals are equal values, and the order of their encodings is the order
      of the numbers; arithmetic is exact or an error that is characterised; the keys of
      floats have the order of their values, and binary64 operations round the exact result to
      nearest, ties to even.
    - Programs: every evaluation returns, within its limits, on a stack that fits it; budgets refuse evaluations and
      change none; the steps reported are the least limit; values stay well formed, and
      contracts decide their types; list forms are the list functions they are named
      after; no program makes an authority that was not admitted.
    - Authority: a judgement is published exactly by the sole authority of its
      outcome on support that can bear it; a verification tag is earned by replay
      only; replay accepts exactly the chains of registered generators.
    - Kernel: the checker accepts exactly the declarative rules, it is total and
      restores its stack, and accepted propositions are true in every lawful
      interpretation, without [Unpack] or with constants fresh as the ADR demands, where no
      motive is captured and no index wraps around. Three theorems show that the checker
      accepts false propositions otherwise.
    - Elaboration: what is submitted to the kernel for audited evidence has a derivation, so it is
      never rejected, only out of budget; a proof is accounted for leaf by leaf, and an
      untrusted term is accepted exactly when it is one that would have been built.
    - Settlement: the calendar's undo log refines the copying reference; a tick
      commits the least key; a run is sound and its journal replays and binds; the
      incremental view is the naive oracle's; the audit and its receipt are exact.
    - Transport: a bundle decodes exactly when its work is within the limits that its
      encoder checks; a snapshot binds its journal; the verifier accepts what the producer
      emits, and only receipts it reproduces.
    - Saturation: the saturated step is exact and, for honest presentations, decides
      whether the administrative steps end; its certificates verify and a verified
      certificate is a re-derived claim; hiding changes nothing but what is shown; a
      closed predicate is an invariant; the comparison decides bisimilarity within
      its bound.
    - Regimes: both regimes are tables, which discharge the engine's contract
      ([TableIndex]); the engine over any mix of them, registered over one interner, computes
      the naive view, and what the literal regime commits replays. Deliberation selects the
      least admitted candidate or faults, its explanations agree with its outcome, and the
      settlement loop commits what was deliberated.
    - Programs: lowering resolves every name, which evaluation then never finds unbound, and
      orders every dependency; a match that passes
      is matched by some arm; an evaluation ends, within its budgets, which only refuse, and its
      values are well formed; authority comes from the registry alone; a run of a plan is a
      derivation, and of a lowered plan one pass over its rules.
    - Storage: the trie is the finite map, one trie and one root digest for its
      bindings; a stored node is read back and nothing else verifies in its place;
      a trie reopened from its root digest behaves as the original or reports an
      error, and reports none once persisted, if no bucket is larger than the reader admits;
      its pages enumerate its bindings; the cache
      stays within its bytes.

    * Parameters

    [Canon.Blake3] is the hash (external crate blake3), used only through the length
    of its output and, where a law needs it, through injectivity on the bytes that
    occur; [Canon.UnicodeNfc] is the normalisation of external crate
    unicode-normalization, used through idempotence. Providers, governance,
    keyers, profiles, audit contexts and world-delta indices are traits of the code
    and arguments of the model; the laws a theorem needs of them are named where it
    is stated ([HonestIndex], [honest], [Behaves]). A node store is the class
    [NodeStore], of which the theorems assume nothing but what they name; keys and
    values are types with a canonical form and a codec ([CanonCodec]). The sizes of the
    compiler's layout and the texts of derived Debug implementations are the classes
    [ValueLayout], [DebugText] and [DebugTy], of which nothing is assumed.

    * Not modelled

    Pure I/O and presentation (Debug and Display texts other than those that are
    hashed), wall-clock and performance counters, and the tests. Within these
    crates: prim_pinned.rs (a generated table), soc-core's store/file.rs (the file system
    backend of the node store).
    Outside them: brix-syntax's lexer, parser and printer, the rest of brix-lower (the v1 profile,
    finite decisions, relations, inputs, worlds), soc-regimes' type checker, brix-kb and brix-cli use the trusted crates and are not needed to state what those promise.
*)
From stdpp Require Export base list gmap sets strings numbers pretty sorting.
From Stdlib Require Export ZArith Lia.
From Stdlib Require Strings.String Strings.Ascii.

Declare Scope brix_scope.
Delimit Scope brix_scope with brix.
Open Scope brix_scope.

(** * Results and state-passing computations *)

(** Rust's [Result<A, E>]. *)
Inductive result (E A : Type) : Type :=
  | Ok (a : A)
  | Err (e : E).
Arguments Ok {E A} a.
Arguments Err {E A} e.

#[export] Instance result_eq_dec {E A} `{EqDecision E} `{EqDecision A} :
  EqDecision (result E A).
Proof. solve_decision. Defined.

#[export] Instance result_ret {E} : MRet (result E) := λ A a, Ok a.
#[export] Instance result_bind {E} : MBind (result E) := λ A B f m,
  match m with Ok a => f a | Err e => Err e end.

(** [opt.ok_or(e)]. *)
Definition ok_or {E A} (o : option A) (e : E) : result E A :=
  match o with Some a => Ok a | None => Err e end.

(** [res.map_err(f)]. *)
Definition map_err {E F A} (f : E → F) (m : result E A) : result F A :=
  match m with Ok a => Ok a | Err e => Err (f e) end.

Definition is_ok {E A} (m : result E A) : bool :=
  match m with Ok _ => true | Err _ => false end.

(** A computation over a mutable state [S] that may fail: the state reached is
    returned on the error path as well, as it is in Rust with a [&mut S]. *)
Definition ST (S E A : Type) : Type := S → result E A * S.

#[export] Instance ST_ret {S E} : MRet (ST S E) := λ A a s, (Ok a, s).
#[export] Instance ST_bind {S E} : MBind (ST S E) := λ A B f m s,
  match m s with
  | (Ok a, s') => f a s'
  | (Err e, s') => (Err e, s')
  end.
Definition ST_throw {S E A} (e : E) : ST S E A := λ s, (Err e, s).
Definition ST_lift {S E A} (m : result E A) : ST S E A := λ s, (m, s).

Lemma ST_bind_Ok {S E A B} (m : ST S E A) (f : A → ST S E B) s b s' :
  (m ≫= f) s = (Ok b, s') →
  ∃ a s1, m s = (Ok a, s1) ∧ f a s1 = (Ok b, s').
Proof.
  unfold mbind, ST_bind. destruct (m s) as [[a|e] s1]; [eauto|discriminate].
Qed.

Lemma result_bind_Ok {E A B} (m : result E A) (f : A → result E B) b :
  m ≫= f = Ok b → ∃ a, m = Ok a ∧ f a = Ok b.
Proof. destruct m as [a|e]; [eauto|discriminate]. Qed.

Lemma ok_or_Ok {E A} (o : option A) (e : E) a : ok_or o e = Ok a ↔ o = Some a.
Proof. destruct o; simpl; split; congruence. Qed.

(** Case analysis on the outermost match of a hypothesis or goal. *)
Ltac case_result H :=
  repeat match type of H with
  | context [match ?m with _ => _ end] =>
    lazymatch m with
    | context [match _ with _ => _ end] => fail
    | _ => destruct m eqn:?; try discriminate H
    end
  end.

(** * Bytes *)

Abbreviation bytes := (list Z).

Definition is_byte (b : Z) : Prop := (0 ≤ b < 256)%Z.
Abbreviation are_bytes := (Forall is_byte).

#[export] Instance is_byte_dec b : Decision (is_byte b).
Proof. unfold is_byte. apply _. Defined.

(** [s.as_bytes()] for an ASCII literal. *)
Definition bytes_of_string (s : string) : bytes :=
  (λ c, Z.of_N (Ascii.N_of_ascii c)) <$> String.list_ascii_of_string s.

Lemma bytes_of_string_are_bytes s : are_bytes (bytes_of_string s).
Proof.
  unfold bytes_of_string. rewrite Forall_fmap. apply Forall_true. intros c.
  pose proof (Ascii.N_ascii_bounded c). unfold is_byte; simpl. lia.
Qed.

#[export] Instance bytes_of_string_inj : Inj (=) (=) bytes_of_string.
Proof.
  intros s1 s2 H. unfold bytes_of_string in H.
  rewrite <-(String.string_of_list_ascii_of_string s1), <-(String.string_of_list_ascii_of_string s2).
  f_equal. revert H. generalize (String.list_ascii_of_string s1), (String.list_ascii_of_string s2).
  intros l1. induction l1 as [|c1 l1 IH]; intros [|c2 l2] H; simplify_eq/=; [done|].
  f_equal; [|by apply IH].
  assert (Ascii.N_of_ascii c1 = Ascii.N_of_ascii c2) as Hc by lia.
  by rewrite <-(Ascii.ascii_N_embedding c1), Hc, Ascii.ascii_N_embedding.
Qed.

(** The bitwise complement [!b] of a byte. *)
Definition byte_not (b : Z) : Z := (255 - b)%Z.

(** [slice.get(a..b)]. *)
Definition slice_get {A} (l : list A) (a b : nat) : option (list A) :=
  if decide (a ≤ b ∧ b ≤ length l) then Some (take (b - a) (drop a l)) else None.

(** ** Machine integers *)

Definition u8_ok (v : Z) : Prop := (0 ≤ v < 2^8)%Z.
Definition u64_ok (v : Z) : Prop := (0 ≤ v < 2^64)%Z.
Definition i64_ok (v : Z) : Prop := (- 2^63 ≤ v < 2^63)%Z.
Definition u128_ok (v : Z) : Prop := (0 ≤ v < 2^128)%Z.
Definition i128_ok (v : Z) : Prop := (- 2^127 ≤ v < 2^127)%Z.

#[export] Instance u64_ok_dec v : Decision (u64_ok v).
Proof. unfold u64_ok. apply _. Defined.
#[export] Instance i64_ok_dec v : Decision (i64_ok v).
Proof. unfold i64_ok. apply _. Defined.
#[export] Instance u128_ok_dec v : Decision (u128_ok v).
Proof. unfold u128_ok. apply _. Defined.
#[export] Instance i128_ok_dec v : Decision (i128_ok v).
Proof. unfold i128_ok. apply _. Defined.
#[export] Instance u8_ok_dec v : Decision (u8_ok v).
Proof. unfold u8_ok. apply _. Defined.

(** A checked operation: [Some] exactly when the exact result is representable. *)
Definition checked (ok : Z → Prop) `{∀ v, Decision (ok v)} (v : Z) : option Z :=
  if decide (ok v) then Some v else None.

Lemma checked_Some ok `{∀ v, Decision (ok v)} v w :
  checked ok v = Some w ↔ w = v ∧ ok v.
Proof. unfold checked. case_decide; split; intros; [by simplify_eq|by destruct_and?; subst|done|by destruct_and?]. Qed.

Lemma checked_ok ok `{∀ v, Decision (ok v)} v : ok v → checked ok v = Some v.
Proof. intros. unfold checked. by rewrite decide_True. Qed.

(** Evaluates the literal powers of a goal, which [lia] does not do. *)
Ltac eval_pows :=
  repeat match goal with
  | H : context [Z.pow (Zpos ?a) (Zpos ?b)] |- _ =>
    let v := eval vm_compute in (Z.pow (Zpos a) (Zpos b)) in
    change (Z.pow (Zpos a) (Zpos b)) with v in H
  | |- context [Z.pow (Zpos ?a) (Zpos ?b)] =>
    let v := eval vm_compute in (Z.pow (Zpos a) (Zpos b)) in
    change (Z.pow (Zpos a) (Zpos b)) with v
  end.

(** Range side conditions at the machine widths. *)
Ltac int_lia :=
  unfold u8_ok, u64_ok, i64_ok, u128_ok, i128_ok, is_byte in *; eval_pows; lia.

(** Big-endian bytes of a number, [n] bytes wide ([to_be_bytes]). *)
Fixpoint to_be_bytes (n : nat) (v : Z) : bytes :=
  match n with
  | O => []
  | S n' => to_be_bytes n' (v / 256)%Z ++ [(v mod 256)%Z]
  end.

(** The loop [for b in l { v = (v << 8) | b }] at width 128, starting from [v]. *)
Definition from_be_bytes (v : Z) (l : bytes) : Z :=
  fold_left (λ v b, Z.lor (Z.shiftl v 8 mod 2^128) b)%Z l v.

(** The number a big-endian byte string denotes. *)
Definition be_value (v : Z) (l : bytes) : Z :=
  fold_left (λ v b, v * 256 + b)%Z l v.

Arguments from_be_bytes : simpl never.
Arguments be_value : simpl never.

Lemma length_to_be_bytes n v : length (to_be_bytes n v) = n.
Proof. revert v. induction n; intros v; simpl; [done|]. rewrite length_app, IHn. simpl. lia. Qed.

Lemma to_be_bytes_are_bytes n v : are_bytes (to_be_bytes n v).
Proof.
  revert v. induction n; intros v; simpl; [constructor|].
  apply Forall_app; split; [apply IHn|]. constructor; [|constructor].
  unfold is_byte. apply Z.mod_pos_bound. lia.
Qed.

Lemma be_value_app v l1 l2 : be_value v (l1 ++ l2) = be_value (be_value v l1) l2.
Proof. apply fold_left_app. Qed.

Lemma be_value_acc v l :
  be_value v l = (v * 256 ^ Z.of_nat (length l) + be_value 0 l)%Z.
Proof.
  unfold be_value. revert v. induction l as [|b l IH]; intros v; cbn [fold_left length]; [lia|].
  rewrite IH, (IH (0 * 256 + b)%Z).
  rewrite Nat2Z.inj_succ, Z.pow_succ_r by lia. lia.
Qed.

Lemma be_value_cons b l :
  be_value 0 (b :: l) = (b * 256 ^ Z.of_nat (length l) + be_value 0 l)%Z.
Proof. change (be_value 0 (b :: l)) with (be_value (0 * 256 + b) l). by rewrite be_value_acc. Qed.

Lemma be_value_bound l :
  are_bytes l → (0 ≤ be_value 0 l < 256 ^ Z.of_nat (length l))%Z.
Proof.
  induction 1 as [|b l Hb Hl IH]; [by cbn|].
  rewrite be_value_cons. cbn [length]. rewrite Nat2Z.inj_succ, Z.pow_succ_r by lia.
  unfold is_byte in Hb. nia.
Qed.

Lemma be_value_to_be_bytes n v :
  be_value 0 (to_be_bytes n v) = (v mod 256 ^ Z.of_nat n)%Z.
Proof.
  revert v. induction n; intros v; cbn [to_be_bytes].
  - by rewrite Z.mod_1_r.
  - rewrite be_value_app, IHn. unfold be_value. cbn [fold_left].
    rewrite Nat2Z.inj_succ, Z.pow_succ_r by lia.
    assert (0 < 256 ^ Z.of_nat n)%Z by (apply Z.pow_pos_nonneg; lia).
    rewrite (Z.rem_mul_r v 256 (256 ^ Z.of_nat n)) by lia. ring.
Qed.

Lemma to_be_bytes_be_value l :
  are_bytes l → to_be_bytes (length l) (be_value 0 l) = l.
Proof.
  induction l as [|b l IH] using rev_ind; [done|].
  intros [Hl Hb]%Forall_app. rewrite Forall_singleton in Hb.
  rewrite length_app, Nat.add_1_r. cbn [to_be_bytes].
  rewrite be_value_app. set (v := be_value 0 l) in *.
  change (be_value v [b]) with (v * 256 + b)%Z. unfold is_byte in Hb.
  rewrite Z.div_add_l by lia. rewrite (Z.div_small b) by lia. rewrite Z.add_0_r, IH by done.
  rewrite Z.add_comm, Z_mod_plus_full, Z.mod_small by lia. done.
Qed.

Lemma from_be_bytes_value l :
  are_bytes l → length l ≤ 16 → from_be_bytes 0 l = be_value 0 l.
Proof.
  induction l as [|b l IH] using rev_ind; [done|].
  rewrite length_app, Forall_app, Forall_singleton. intros [Hl Hb] Hlen.
  unfold from_be_bytes, be_value. rewrite !fold_left_app. cbn [fold_left].
  fold (from_be_bytes 0 l) (be_value 0 l). rewrite IH by (done || (simpl in Hlen; lia)).
  pose proof (be_value_bound l Hl) as Hv. unfold is_byte in Hb. simpl in Hlen.
  assert (256 ^ Z.of_nat (length l) ≤ 256 ^ 15)%Z by (apply Z.pow_le_mono_r; lia).
  rewrite Z.shiftl_mul_pow2 by lia. rewrite Z.mod_small by int_lia.
  rewrite <-Z.add_lor_land.
  change 256%Z with (2 ^ 8)%Z.
  replace (Z.land (be_value 0 l * 2 ^ 8) b) with 0%Z; [lia|].
  apply Z.bits_inj'. intros i Hi. rewrite Z.bits_0, Z.land_spec.
  destruct (decide (i < 8)%Z).
  - by rewrite Z.mul_pow2_bits_low.
  - rewrite (Z.bits_above_log2 b); [by rewrite andb_false_r|lia|].
    destruct (decide (b = 0)%Z) as [->|]; [simpl; lia|].
    apply Z.log2_lt_pow2; [lia|].
    assert (2 ^ 8 ≤ 2 ^ i)%Z by (apply Z.pow_le_mono_r; lia). int_lia.
Qed.

(** * Total orders ([Ord]) *)

Class Ord (A : Type) := cmp : A → A → comparison.

(** What [Ord] promises: a total order that is consistent with equality. *)
Class OrdLaws (A : Type) `{Ord A} : Prop := {
  cmp_eq x y : cmp x y = Eq ↔ x = y;
  cmp_antisym x y : cmp y x = CompOpp (cmp x y);
  cmp_lt_trans x y z : cmp x y = Lt → cmp y z = Lt → cmp x z = Lt
}.

Definition lt_of {A} `{Ord A} (x y : A) : Prop := cmp x y = Lt.
Definition le_of {A} `{Ord A} (x y : A) : Prop := cmp x y ≠ Gt.

#[export] Instance Ord_Z : Ord Z := Z.compare.
#[export] Instance OrdLaws_Z : OrdLaws Z.
Proof.
  split; unfold cmp, Ord_Z.
  - intros. apply Z.compare_eq_iff.
  - intros. apply Z.compare_antisym.
  - intros x y z. rewrite !Z.compare_lt_iff. lia.
Qed.

(** Slices and vectors compare lexicographically, a proper prefix first. *)
Fixpoint lex_compare {A} `{Ord A} (l1 l2 : list A) : comparison :=
  match l1, l2 with
  | [], [] => Eq
  | [], _ :: _ => Lt
  | _ :: _, [] => Gt
  | x :: l1', y :: l2' =>
    match cmp x y with Eq => lex_compare l1' l2' | c => c end
  end.
#[export] Instance Ord_list {A} `{Ord A} : Ord (list A) := lex_compare.

(** Tuples and structs compare their components in order. *)
Definition pair_compare {A B} `{Ord A} `{Ord B} (p q : A * B) : comparison :=
  match cmp p.1 q.1 with Eq => cmp p.2 q.2 | c => c end.
#[export] Instance Ord_pair {A B} `{Ord A} `{Ord B} : Ord (A * B) := pair_compare.

(** An order obtained through a projection (a newtype's derived [Ord]). *)
Definition cmp_on {A B} `{Ord B} (f : A → B) (x y : A) : comparison := cmp (f x) (f y).

Section ord_laws.
Context {A : Type} `{OrdLaws A}.

Lemma cmp_refl (x : A) : cmp x x = Eq.
Proof. by apply cmp_eq. Qed.

Lemma cmp_gt_lt (x y : A) : cmp x y = Gt ↔ cmp y x = Lt.
Proof. rewrite (cmp_antisym x y). destruct (cmp x y); simpl; intuition congruence. Qed.

Lemma cmp_lt_irrefl (x : A) : cmp x x ≠ Lt.
Proof. rewrite cmp_refl. done. Qed.

Lemma lt_le_of (x y : A) : lt_of x y → le_of x y.
Proof. unfold lt_of, le_of. intros ->. done. Qed.

Lemma le_of_cases (x y : A) : le_of x y ↔ lt_of x y ∨ x = y.
Proof.
  unfold le_of, lt_of. rewrite <-(cmp_eq x y).
  destruct (cmp x y); simpl; intuition congruence.
Qed.

Lemma le_of_trans (x y z : A) : le_of x y → le_of y z → le_of x z.
Proof.
  rewrite !le_of_cases. intros [?| ->] [?| ->]; auto.
  left. by eapply cmp_lt_trans.
Qed.

Lemma le_of_total (x y : A) : le_of x y ∨ le_of y x.
Proof.
  unfold le_of. rewrite (cmp_antisym x y).
  destruct (cmp x y); simpl; intuition congruence.
Qed.

Lemma le_of_antisym (x y : A) : le_of x y → le_of y x → x = y.
Proof.
  unfold le_of. rewrite (cmp_antisym x y), <-cmp_eq.
  destruct (cmp x y); simpl; intuition congruence.
Qed.
End ord_laws.

#[export] Instance OrdLaws_list {A} `{OrdLaws A} : OrdLaws (list A).
Proof.
  split; unfold cmp, Ord_list.
  - intros l1. induction l1 as [|x l1 IH]; intros [|y l2]; simpl; try naive_solver.
    destruct (cmp x y) eqn:E.
    + apply cmp_eq in E as ->. rewrite IH. naive_solver.
    + split; [done|]. intros [= -> ->]. by rewrite cmp_refl in E.
    + split; [done|]. intros [= -> ->]. by rewrite cmp_refl in E.
  - intros l1. induction l1 as [|x l1 IH]; intros [|y l2]; simpl; try done.
    rewrite (cmp_antisym x y). destruct (cmp x y); simpl; [apply IH|done|done].
  - intros l1. induction l1 as [|x l1 IH]; intros [|y l2] [|z l3]; simpl; try done.
    destruct (cmp x y) eqn:E1; [| |done].
    + apply cmp_eq in E1 as ->. destruct (cmp y z); [apply IH|done|done].
    + intros _. destruct (cmp y z) eqn:E2; [| |done].
      * apply cmp_eq in E2 as <-. by rewrite E1.
      * by rewrite (cmp_lt_trans _ _ _ E1 E2).
Qed.

#[export] Instance OrdLaws_pair {A B} `{OrdLaws A} `{OrdLaws B} : OrdLaws (A * B).
Proof.
  split; unfold cmp, Ord_pair, pair_compare.
  - intros [a b] [a' b']; simpl. destruct (cmp a a') eqn:E.
    + apply cmp_eq in E as ->. rewrite cmp_eq. naive_solver.
    + split; [done|]. intros [= -> ->]. by rewrite cmp_refl in E.
    + split; [done|]. intros [= -> ->]. by rewrite cmp_refl in E.
  - intros [a b] [a' b']; simpl. rewrite (cmp_antisym a a').
    destruct (cmp a a'); simpl; [apply cmp_antisym|done|done].
  - intros [a b] [a' b'] [a'' b'']; simpl.
    destruct (cmp a a') eqn:E1; [| |done].
    + apply cmp_eq in E1 as ->. destruct (cmp a' a''); [apply cmp_lt_trans|done|done].
    + intros _. destruct (cmp a' a'') eqn:E2; [| |done].
      * apply cmp_eq in E2 as <-. by rewrite E1.
      * by rewrite (cmp_lt_trans _ _ _ E1 E2).
Qed.

Lemma OrdLaws_on {A B} `{OrdLaws B} (f : A → B) `{!Inj (=) (=) f} :
  @OrdLaws A (cmp_on f).
Proof.
  split; unfold cmp, cmp_on.
  - intros. rewrite cmp_eq. split; [apply (inj f)|congruence].
  - intros. apply cmp_antisym.
  - intros. by eapply cmp_lt_trans.
Qed.

(** Lexicographic comparison skips a common prefix. *)
Lemma lex_compare_app {A} `{OrdLaws A} (p l1 l2 : list A) :
  lex_compare (p ++ l1) (p ++ l2) = lex_compare l1 l2.
Proof. induction p as [|x p IH]; simpl; [done|]. by rewrite cmp_refl. Qed.

(** Two strings that differ inside their first components are already decided
    there, whatever follows. *)
Lemma lex_compare_app_decided {A} `{OrdLaws A} (l1 l2 r1 r2 : list A) :
  length l1 = length l2 →
  lex_compare (l1 ++ r1) (l2 ++ r2) =
    match lex_compare l1 l2 with Eq => lex_compare r1 r2 | c => c end.
Proof.
  revert l2. induction l1 as [|x l1 IH]; intros [|y l2] Hlen; simplify_eq/=; [done|].
  destruct (cmp x y); [by apply IH|done|done].
Qed.

(** Strings neither of which starts with the other are decided before their
    ends. *)
Lemma lex_compare_not_prefix {A} `{OrdLaws A} (l1 l2 r1 r2 : list A) :
  lex_compare l1 l2 ≠ Eq →
  (∀ s, l1 ≠ l2 ++ s) → (∀ s, l2 ≠ l1 ++ s) →
  lex_compare (l1 ++ r1) (l2 ++ r2) = lex_compare l1 l2.
Proof.
  revert l2. induction l1 as [|x l1 IH]; intros [|y l2] Hne H1 H2; simpl in *.
  - done.
  - exfalso. by apply (H2 (y :: l2)).
  - exfalso. by apply (H1 (x :: l1)).
  - destruct (cmp x y) eqn:E; [|done..]. apply cmp_eq in E as ->.
    apply IH; [done|intros s ->..]; naive_solver.
Qed.

(** * Sorting ([sort], [sort_by]: stable) and [dedup] *)

Section sort_by.
Context {A : Type} (c : A → A → comparison).

Fixpoint insert_by (x : A) (l : list A) : list A :=
  match l with
  | [] => [x]
  | y :: l' => match c x y with Gt => y :: insert_by x l' | _ => x :: l end
  end.

Fixpoint sort_by (l : list A) : list A :=
  match l with [] => [] | x :: l' => insert_by x (sort_by l') end.

Lemma insert_by_perm x l : insert_by x l ≡ₚ x :: l.
Proof.
  induction l as [|y l IH]; simpl; [done|]. destruct (c x y); [done..|].
  rewrite IH. apply Permutation_swap.
Qed.

Lemma sort_by_perm l : sort_by l ≡ₚ l.
Proof. induction l as [|x l IH]; simpl; [done|]. by rewrite insert_by_perm, IH. Qed.

(** Elements the comparison does not separate keep their relative order. *)
Lemma insert_by_filter (P : A → Prop) `{∀ a, Decision (P a)} x l :
  (∀ y z, P y → P z → c y z = Eq) →
  filter P (insert_by x l) = filter P (x :: l).
Proof.
  intros HP. induction l as [|y l IH]; [done|]. simpl insert_by.
  destruct (c x y) eqn:E; [done..|].
  rewrite (filter_cons P y), IH, !filter_cons. repeat case_decide; try done.
  exfalso. assert (c x y = Eq) by (by apply HP). congruence.
Qed.

Lemma sort_by_stable (P : A → Prop) `{∀ a, Decision (P a)} l :
  (∀ y z, P y → P z → c y z = Eq) → filter P (sort_by l) = filter P l.
Proof.
  intros HP. induction l as [|x l IH]; simpl; [done|].
  rewrite insert_by_filter by done. by rewrite !filter_cons, IH.
Qed.
End sort_by.

(** [Vec::sort]. *)
Definition sort {A} `{Ord A} (l : list A) : list A := sort_by cmp l.

(** [Vec::dedup_by]: each element is compared with the last one kept. *)
Fixpoint dedup_from {A} (same : A → A → bool) (prev : A) (l : list A) : list A :=
  match l with
  | [] => []
  | x :: l' =>
    if same x prev then dedup_from same prev l' else x :: dedup_from same x l'
  end.
Definition dedup_by {A} (same : A → A → bool) (l : list A) : list A :=
  match l with [] => [] | x :: l' => x :: dedup_from same x l' end.
Definition dedup {A} `{EqDecision A} (l : list A) : list A :=
  dedup_by (λ x y, bool_decide (x = y)) l.

Abbreviation sorted := (StronglySorted le_of).
Abbreviation strictly_sorted := (StronglySorted lt_of).

Lemma dedup_from_elem {A} (same : A → A → bool) x prev l :
  x ∈ dedup_from same prev l → x ∈ l.
Proof.
  revert prev. induction l as [|y l IH]; intros prev; simpl; [done|].
  rewrite elem_of_cons. destruct (same y prev); [eauto|].
  rewrite elem_of_cons. intros [?|?]; eauto.
Qed.

Section sort_laws.
Context {A B : Type} `{OrdLaws B} (f : A → B).

Lemma insert_by_sorted x l :
  sorted (f <$> l) → sorted (f <$> insert_by (cmp_on f) x l).
Proof.
  induction l as [|y l IH]; simpl; intros Hs; [by repeat constructor|].
  apply StronglySorted_inv in Hs as [Hs Hy]. unfold cmp_on at 1.
  destruct (cmp (f x) (f y)) eqn:E.
  1,2: constructor; [by constructor|].
  1,2: assert (le_of (f x) (f y)) by (unfold le_of; congruence).
  1,2: constructor; [done|]; eapply Forall_impl; [exact Hy|];
       intros; by eapply le_of_trans.
  simpl. constructor; [by apply IH|].
  rewrite insert_by_perm. simpl. constructor; [|done].
  apply lt_le_of. by apply cmp_gt_lt in E.
Qed.

Lemma sort_by_sorted l : sorted (f <$> sort_by (cmp_on f) l).
Proof. induction l; simpl; [constructor|]. by apply insert_by_sorted. Qed.

Lemma sort_by_id l : sorted (f <$> l) → sort_by (cmp_on f) l = l.
Proof.
  induction l as [|x l IH]; [done|]. intros [Hs Hx]%StronglySorted_inv. cbn [sort_by]. rewrite IH by done.
  destruct l as [|y l]; [done|]. apply Forall_cons in Hx as [Hx _]. unfold le_of in Hx. cbn. unfold cmp_on.
  by destruct (cmp (f x) (f y)).
Qed.

Context `{EqDecision B}.
#[local] Abbreviation same := (λ x y : A, bool_decide (f x = f y)).

Lemma dedup_from_keys prev l k :
  k ∈ f <$> prev :: dedup_from same prev l ↔ k ∈ f <$> prev :: l.
Proof.
  revert prev. induction l as [|y l IH]; intros prev; simpl; [done|].
  case_bool_decide as E; simpl.
  - specialize (IH prev). rewrite !fmap_cons in IH. rewrite IH, E. set_solver.
  - specialize (IH y). rewrite !fmap_cons in IH. rewrite elem_of_cons, IH. set_solver.
Qed.

(** Removing repeated keys from a list sorted by key leaves it strictly
    sorted. *)
Lemma dedup_from_strict prev l :
  sorted (f <$> prev :: l) →
  strictly_sorted (f <$> prev :: dedup_from same prev l).
Proof.
  revert prev. induction l as [|y l IH]; intros prev Hs; simpl.
  { repeat constructor. }
  apply StronglySorted_inv in Hs as [Hs Hp].
  apply Forall_cons in Hp as [Hpy Hp].
  case_bool_decide as E; simpl.
  - apply IH. apply StronglySorted_inv in Hs as [Hs _]. simpl. by constructor.
  - specialize (IH y Hs). constructor; [done|].
    assert (lt_of (f prev) (f y)) as Hlt.
    { apply le_of_cases in Hpy as [?|?]; [done|congruence]. }
    constructor; [done|].
    apply StronglySorted_inv in IH as [_ IH].
    eapply Forall_impl; [exact IH|]. intros z. by apply cmp_lt_trans.
Qed.

Lemma dedup_by_strict l :
  sorted (f <$> l) → strictly_sorted (f <$> dedup_by same l).
Proof. destruct l; [constructor|]. apply dedup_from_strict. Qed.

Lemma dedup_by_keys l k : k ∈ f <$> dedup_by same l ↔ k ∈ f <$> l.
Proof. destruct l; [done|]. apply dedup_from_keys. Qed.

(** [dedup_by] keeps the first of each run of equal keys. *)
Lemma dedup_from_first prev l x :
  sorted (f <$> prev :: l) →
  x ∈ prev :: dedup_from same prev l ↔
  head (filter (λ y, f y = f x) (prev :: l)) = Some x.
Proof.
  revert prev. induction l as [|y l IH]; intros prev Hs.
  { cbn [dedup_from]. rewrite filter_cons. case_decide as E; simpl; set_solver. }
  apply StronglySorted_inv in Hs as [Hs Hp]. fold (fmap (M:=list) f) in *.
  cbn [dedup_from]. case_bool_decide as E.
  - rewrite IH.
    + rewrite !filter_cons. repeat case_decide; simpl in *; (done || congruence).
    + apply StronglySorted_inv in Hs as [Hs _]. constructor; [done|].
      by apply Forall_cons in Hp as [_ Hp].
  - rewrite elem_of_cons, (IH y Hs), (filter_cons _ prev).
    case_decide as E'; simpl.
    + split; [intros [ ->|Hh]; [done|]|intros [= ->]; by left]. exfalso.
      apply head_Some_elem_of, list_elem_of_filter in Hh as [_ Hx].
      assert (lt_of (f prev) (f y)) as Hlt.
      { apply Forall_cons in Hp as [Hpy _]. apply le_of_cases in Hpy as [?|?]; [done|congruence]. }
      assert (le_of (f y) (f x)) as Hle.
      { apply elem_of_cons in Hx as [ ->|Hx]; [unfold le_of; by rewrite cmp_refl|].
        apply StronglySorted_inv in Hs as [_ Hy]. rewrite Forall_forall in Hy.
        apply Hy. by apply list_elem_of_fmap_2. }
      rewrite E' in Hlt. apply le_of_cases in Hle as [Hle|Hle].
      * apply (cmp_lt_irrefl (f x)). by eapply cmp_lt_trans.
      * rewrite Hle in Hlt. by apply (cmp_lt_irrefl (f x)).
    + split; [intros [ ->|?]; [done|done]|by right].
Qed.

Lemma dedup_by_first l x :
  sorted (f <$> l) →
  x ∈ dedup_by same l ↔ head (filter (λ y, f y = f x) l) = Some x.
Proof. destruct l as [|y l]; simpl; [set_solver|]. apply dedup_from_first. Qed.
End sort_laws.

(** The reverse order ([std::cmp::Reverse]). *)
Definition cmp_flip {A} `{Ord A} : Ord A := λ x y, cmp y x.
Lemma OrdLaws_flip {A} `{OrdLaws A} : @OrdLaws A cmp_flip.
Proof.
  split; unfold cmp, cmp_flip; intros x y.
  - change (cmp y x = Eq ↔ x = y). rewrite cmp_eq. naive_solver.
  - apply (cmp_antisym y x).
  - intros z H1 H2. exact (cmp_lt_trans z y x H2 H1).
Qed.

Lemma StronglySorted_snoc {A} (R : A → A → Prop) l x :
  StronglySorted R l → Forall (λ y, R y x) l → StronglySorted R (l ++ [x]).
Proof.
  induction 1 as [|y l Hl IH Hy]; simpl; intros Hx; [by repeat constructor|].
  apply Forall_cons in Hx as [Hyx Hx]. constructor; [by apply IH|].
  apply Forall_app. split; [done|]. by constructor.
Qed.

Lemma StronglySorted_reverse {A} (R : A → A → Prop) l :
  StronglySorted R l → StronglySorted (flip R) (reverse l).
Proof.
  induction 1 as [|x l Hl IH Hx]; [constructor|]. rewrite reverse_cons.
  apply StronglySorted_snoc; [done|]. by apply Forall_reverse.
Qed.

Lemma strictly_sorted_unique {A} `{OrdLaws A} (l1 l2 : list A) :
  strictly_sorted l1 → strictly_sorted l2 → (∀ x, x ∈ l1 ↔ x ∈ l2) → l1 = l2.
Proof.
  revert l2. induction l1 as [|x l1 IH]; intros [|y l2] Hs1 Hs2 Heq.
  - done.
  - exfalso. specialize (Heq y). set_solver.
  - exfalso. specialize (Heq x). set_solver.
  - apply StronglySorted_inv in Hs1 as [Hs1 Hx].
    apply StronglySorted_inv in Hs2 as [Hs2 Hy].
    rewrite Forall_forall in Hx, Hy.
    assert (x = y) as <-.
    { assert (x ∈ y :: l2) as [ ->|Hx2]%elem_of_cons by (apply Heq; set_solver); [done|].
      assert (y ∈ x :: l1) as [ ->|Hy1]%elem_of_cons by (apply Heq; set_solver); [done|].
      exfalso. apply (cmp_lt_irrefl x). eapply cmp_lt_trans; [by apply Hx|by apply Hy]. }
    f_equal. apply IH; [done..|]. intros z.
    split; intros Hz.
    + assert (z ∈ x :: l2) as [ ->|]%elem_of_cons by (apply Heq; set_solver); [|done].
      exfalso. by eapply cmp_lt_irrefl, Hx.
    + assert (z ∈ x :: l1) as [ ->|]%elem_of_cons by (apply Heq; set_solver); [|done].
      exfalso. by eapply cmp_lt_irrefl, Hy.
Qed.

(** * Slices *)

Lemma slice_get_Some {A} (l : list A) a b s :
  slice_get l a b = Some s ↔
  a ≤ b ∧ b ≤ length l ∧ s = take (b - a) (drop a l).
Proof. unfold slice_get. case_decide; split; intros; naive_solver. Qed.

Lemma slice_get_cons_app {A} (x : A) (l r : list A) :
  slice_get (x :: l ++ r) 1 (1 + length l) = Some l.
Proof.
  apply slice_get_Some. simpl. rewrite length_app, Nat.sub_0_r, drop_0, take_app_length.
  split_and!; [lia|lia|done].
Qed.

Lemma byte_not_involutive (l : bytes) : byte_not <$> (byte_not <$> l) = l.
Proof.
  rewrite <-list_fmap_compose. rewrite <-(list_fmap_id l) at 2.
  apply list_fmap_ext. intros i b _. unfold byte_not. simpl. lia.
Qed.

Lemma byte_not_are_bytes (l : bytes) : are_bytes l → are_bytes (byte_not <$> l).
Proof.
  intros H. rewrite Forall_fmap. eapply Forall_impl; [exact H|].
  intros b. unfold is_byte, byte_not. simpl. lia.
Qed.

(** Complementing equally long byte strings reverses their order. *)
Lemma lex_compare_byte_not (l1 l2 : bytes) :
  length l1 = length l2 →
  lex_compare (byte_not <$> l1) (byte_not <$> l2) = CompOpp (lex_compare l1 l2).
Proof.
  revert l2. induction l1 as [|a l1 IH]; intros [|b l2] Hlen; simplify_eq/=; [done|].
  unfold cmp, Ord_Z, byte_not.
  replace (Z.compare (255 - a) (255 - b)) with (CompOpp (Z.compare a b)).
  - destruct (Z.compare a b); simpl; [by apply IH|done|done].
  - destruct (Z.compare_spec a b), (Z.compare_spec (255 - a) (255 - b)); done || lia.
Qed.

(** Iteration over a [BTreeMap]: the entries in key order. *)
Definition btree_iter {K V} `{Countable K} `{Ord K} (m : gmap K V) : list (K * V) :=
  sort_by (cmp_on fst) (map_to_list m).

Lemma btree_iter_elem {K V} `{Countable K} `{Ord K} (m : gmap K V) k v :
  (k, v) ∈ btree_iter m ↔ m !! k = Some v.
Proof. unfold btree_iter. by rewrite sort_by_perm, elem_of_map_to_list. Qed.

(** A [BTreeSet]'s iteration order. *)
Definition set_iter {A} `{Countable A} `{Ord A} (s : gset A) : list A := sort_by cmp (elements s).

Lemma elem_set_iter {A} `{Countable A} `{Ord A} (s : gset A) x : x ∈ set_iter s ↔ x ∈ s.
Proof. unfold set_iter. by rewrite sort_by_perm, elem_of_elements. Qed.
Lemma set_iter_nodup {A} `{Countable A} `{Ord A} (s : gset A) : NoDup (set_iter s).
Proof. unfold set_iter. rewrite sort_by_perm. apply NoDup_elements. Qed.
Lemma length_set_iter {A} `{Countable A} `{Ord A} (s : gset A) : length (set_iter s) = size s.
Proof. unfold set_iter. by rewrite sort_by_perm. Qed.

(** [u64::saturating_add]. *)
Definition saturating_add (a b : Z) : Z := Z.min (a + b) (2^64 - 1).

(** [x |> f |> g] applies the writers in program order. *)
Notation "x |> f" := (f x) (at level 62, left associativity, only parsing) : brix_scope.

(** * Loops *)

(** What a loop that may panic comes to; [OutOfFuel] is no outcome of the program. *)
Inductive outcome (A : Type) : Type :=
  | Done (a : A)
  | Panicked
  | OutOfFuel.
Arguments Done {A} a.
Arguments Panicked {A}.
Arguments OutOfFuel {A}.

(** A [loop] whose body returns ([inl]) or goes on ([inr]). *)
Fixpoint iterate {S A} (body : S → option (A + S)) (fuel : nat) (s : S) : outcome A :=
  match fuel with
  | O => OutOfFuel
  | Datatypes.S fuel' =>
    match body s with
    | None => Panicked
    | Some (inl a) => Done a
    | Some (inr s') => iterate body fuel' s'
    end
  end.

(** Partial correctness by an invariant, and termination by a measure. *)
Lemma iterate_spec {S A} (body : S → option (A + S)) (inv : S → Prop) (m : S → nat) fuel s :
  inv s → m s < fuel →
  (∀ s s', inv s → body s = Some (inr s') → inv s' ∧ m s' < m s) →
  ∃ t, inv t ∧
    ((∃ a, body t = Some (inl a) ∧ iterate body fuel s = Done a) ∨
     (body t = None ∧ iterate body fuel s = Panicked)).
Proof.
  intros Hs Hm Hstep. revert s Hs Hm. induction fuel as [|fuel IH]; intros s Hs Hm; [lia|].
  cbn [iterate]. destruct (body s) as [[a|s']|] eqn:E.
  - exists s. eauto.
  - destruct (Hstep s s' Hs E) as [Hs' Hm']. apply IH; [done|lia].
  - exists s. eauto.
Qed.

(** More fuel than enough changes nothing. *)
Lemma iterate_mono {S A} (body : S → option (A + S)) n m s :
  iterate body n s ≠ OutOfFuel → n ≤ m → iterate body m s = iterate body n s.
Proof.
  revert m s. induction n as [|n IH]; intros m s Hn Hm; [done|]. destruct m as [|m]; [lia|].
  cbn [iterate] in *. destruct (body s) as [[|s']|]; [done| |done]. apply IH; [done|lia].
Qed.

(** Two loops whose bodies keep a relation. *)
Lemma iterate_rel {S T A B} (body : S → option (A + S)) (body' : T → option (B + T))
    (R : S → T → Prop) (Q : A → B → Prop) fuel s t :
  (∀ s t, R s t → match body s, body' t with
    | None, None => True
    | Some (inl a), Some (inl b) => Q a b
    | Some (inr s'), Some (inr t') => R s' t'
    | _, _ => False end) →
  R s t →
  match iterate body fuel s, iterate body' fuel t with
  | Done a, Done b => Q a b
  | Panicked, Panicked | OutOfFuel, OutOfFuel => True
  | _, _ => False
  end.
Proof.
  intros Hbody. revert s t. induction fuel as [|fuel IH]; intros s t HR; [done|]. cbn [iterate].
  specialize (Hbody s t HR). destruct (body s) as [[a|s']|], (body' t) as [[b|t']|]; try done. by apply IH.
Qed.
