(* ===== verification/Text.v ===== *)
(** The string operations of the language that the lowered programs use. A [String] is its UTF-8
    bytes, one [ascii] each. *)
From S2P Require Import Prelude.

(** [s.starts_with(p)], [s.strip_prefix(p)]. *)
Definition starts_with (p s : string) : bool := String.prefix p s.
Definition skip (n : nat) (s : string) : string := String.substring n (String.length s - n) s.
Definition strip_prefix (p s : string) : option string := if starts_with p s then Some (skip (String.length p) s) else None.

(** [s.split_once(p)] and [s.rsplit_once(p)]: at the first and at the last occurrence. *)
Fixpoint split_at_first (p s : string) : option (string * string) :=
  if starts_with p s then Some (EmptyString, skip (String.length p) s) else
  match s with
  | EmptyString => None
  | String c s' => '(l, r) ← split_at_first p s'; Some (String c l, r)
  end.
Fixpoint split_at_last (p s : string) : option (string * string) :=
  match s with
  | EmptyString => None
  | String c s' =>
    match split_at_last p s' with
    | Some (l, r) => Some (String c l, r)
    | None => if starts_with p s then Some (EmptyString, skip (String.length p) s) else None
    end
  end.

(** [s.contains(p)] of a pattern that is not empty. *)
Definition contains (p s : string) : bool := bool_decide (is_Some (split_at_first p s)).

(** [s.rsplit(p).next()]: what follows the last occurrence. *)
Definition last_segment (p s : string) : string := default s (snd <$> split_at_last p s).

(** [s.to_ascii_lowercase()]. *)
Definition lower_ascii (c : Ascii.ascii) : Ascii.ascii :=
  let n := Ascii.nat_of_ascii c in if bool_decide (65 ≤ n ≤ 90) then Ascii.ascii_of_nat (n + 32) else c.
Fixpoint to_ascii_lowercase (s : string) : string :=
  match s with EmptyString => EmptyString | String c s' => String (lower_ascii c) (to_ascii_lowercase s') end.

(** [s.is_ascii()]. *)
Definition is_ascii_string (s : string) : bool := forallb (λ b, bool_decide (b < 128)%Z) (bytes_of_string s).

(** ** [str::trim] *)

(** The encodings of the code points of the Unicode property White_Space. *)
Definition white_space : list bytes :=
  [[9]; [10]; [11]; [12]; [13]; [32]; [0xc2; 0x85]; [0xc2; 0xa0]; [0xe1; 0x9a; 0x80]]%Z ++
  ((λ b, [0xe2; 0x80; b]) <$> [0x80; 0x81; 0x82; 0x83; 0x84; 0x85; 0x86; 0x87; 0x88; 0x89; 0x8a; 0xa8; 0xa9; 0xaf])%Z ++
  [[0xe2; 0x81; 0x9f]; [0xe3; 0x80; 0x80]]%Z.
Definition string_of_bytes (l : bytes) : string := String.string_of_list_ascii ((λ b, Ascii.ascii_of_N (Z.to_N b)) <$> l).
Definition white_strings : list string := string_of_bytes <$> white_space.

Definition trim_start_once (s : string) : option string :=
  foldr (λ w acc, match strip_prefix w s with Some r => Some r | None => acc end) None white_strings.
Fixpoint trim_start_fuel (fuel : nat) (s : string) : string :=
  match fuel with
  | O => s
  | S fuel' => match trim_start_once s with Some r => trim_start_fuel fuel' r | None => s end
  end.
Definition trim_start (s : string) : string := trim_start_fuel (String.length s) s.

Definition strip_suffix (p s : string) : option string :=
  let n := String.length s - String.length p in
  if bool_decide (String.length p ≤ String.length s ∧ skip n s = p) then Some (String.substring 0 n s) else None.
Definition trim_end_once (s : string) : option string :=
  foldr (λ w acc, match strip_suffix w s with Some r => Some r | None => acc end) None white_strings.
Fixpoint trim_end_fuel (fuel : nat) (s : string) : string :=
  match fuel with
  | O => s
  | S fuel' => match trim_end_once s with Some r => trim_end_fuel fuel' r | None => s end
  end.
Definition trim_end (s : string) : string := trim_end_fuel (String.length s) s.
Definition trim (s : string) : string := trim_end (trim_start s).

(** Strings compare by their bytes. *)
#[export] Instance Ord_string : Ord string := cmp_on bytes_of_string.
#[export] Instance OrdLaws_string : OrdLaws string := OrdLaws_on bytes_of_string.
