(* ===== verification/IntCodec.v ===== *)
(** Order-preserving minimal-length integers
    (src/crates/brix-canon/src/int_codec.rs).

    [encode_uint]/[encode_int] write a number after a length (category) byte,
    [decode_uint]/[decode_int] read one back and report the bytes consumed.
    Proved: every value round-trips and the encoding delimits itself; only the
    minimal encoding of a value is accepted; the byte order of two encodings is
    the numeric order of their values. *)
From S2P Require Import Prelude.

(** Errors from canonical decoding. *)
Inductive CanonError : Type :=
  | UnexpectedEof
  | NonMinimalInt
  | BadLength.

#[export] Instance CanonError_eq_dec : EqDecision CanonError.
Proof. solve_decision. Defined.

Definition INT_ZERO_CATEGORY : Z := 128.
Definition MAX_MAG_LEN : nat := 16.

(** [&be[first..]] for the position of the first non-zero byte of the 16-byte
    big-endian image; the position exists when the value is non-zero. *)
Definition minimal_magnitude (v : Z) : bytes :=
  let be := to_be_bytes 16 v in
  match list_find (λ b, b ≠ 0%Z) be with
  | Some (first, _) => drop first be
  | None => []
  end.

Definition encode_uint (v : Z) : bytes :=
  if decide (v = 0%Z) then [0%Z]
  else
    let mag := minimal_magnitude v in
    Z.of_nat (length mag) :: mag.

Definition decode_uint (buf : bytes) : result CanonError (Z * nat) :=
  len ← ok_or (head buf) UnexpectedEof;
  if decide (len = 0%Z) then Ok (0%Z, 1)
  else if decide (Z.of_nat MAX_MAG_LEN < len)%Z then Err BadLength
  else
    let len := Z.to_nat len in
    mag ← ok_or (slice_get buf 1 (1 + len)) UnexpectedEof;
    if decide (head mag = Some 0%Z) then Err NonMinimalInt
    else Ok (from_be_bytes 0 mag, 1 + len).

Definition encode_int (v : Z) : bytes :=
  if decide (v = 0%Z) then [INT_ZERO_CATEGORY]
  else
    let mag_bytes := minimal_magnitude (Z.abs v) in
    let len := Z.of_nat (length mag_bytes) in
    if decide (v < 0)%Z
    then (INT_ZERO_CATEGORY - len)%Z :: (byte_not <$> mag_bytes)
    else (INT_ZERO_CATEGORY + len)%Z :: mag_bytes.

Definition decode_int (buf : bytes) : result CanonError (Z * nat) :=
  cat ← ok_or (head buf) UnexpectedEof;
  if decide (cat = INT_ZERO_CATEGORY) then Ok (0%Z, 1)
  else if decide (INT_ZERO_CATEGORY < cat)%Z then
    let len := Z.to_nat (cat - INT_ZERO_CATEGORY) in
    if decide (len = 0 ∨ MAX_MAG_LEN < len) then Err BadLength
    else
      mag ← ok_or (slice_get buf 1 (1 + len)) UnexpectedEof;
      if decide (head mag = Some 0%Z) then Err NonMinimalInt
      else
        v ← ok_or (checked i128_ok (from_be_bytes 0 mag)) BadLength;
        Ok (v, 1 + len)
  else
    let len := Z.to_nat (INT_ZERO_CATEGORY - cat) in
    if decide (len = 0 ∨ MAX_MAG_LEN < len) then Err BadLength
    else
      comp ← ok_or (slice_get buf 1 (1 + len)) UnexpectedEof;
      if decide (head comp = Some 255%Z) then Err NonMinimalInt
      else
        let mag := from_be_bytes 0 (byte_not <$> comp) in
        v ← (if decide (mag = 2^127)%Z then Ok (- 2^127)%Z
             else m ← ok_or (checked i128_ok mag) BadLength; Ok (- m)%Z);
        Ok (v, 1 + len).

(** ** The minimal magnitude *)

(** What a minimal magnitude is: at most 16 bytes, no leading zero. *)
Definition minimal (l : bytes) : Prop :=
  are_bytes l ∧ 1 ≤ length l ≤ 16 ∧ head l ≠ Some 0%Z.

Lemma drop_zeros_value l :
  match list_find (λ b, b ≠ 0%Z) l with
  | Some (i, b) => be_value 0 (drop i l) = be_value 0 l ∧
                   head (drop i l) = Some b ∧ b ≠ 0%Z ∧ i < length l
  | None => be_value 0 l = 0%Z
  end.
Proof.
  induction l as [|b l IH]; [done|]. simpl. case_decide as Hb.
  - simpl. repeat split; [done|lia].
  - subst b. destruct (list_find _ l) as [[i c]|]; simpl in *;
      rewrite !be_value_cons; [|lia].
    destruct IH as (IH1 & IH2 & IH3 & IH4). repeat split; [lia|done|done|lia].
Qed.

Lemma minimal_magnitude_spec v :
  (0 < v < 2^128)%Z →
  minimal (minimal_magnitude v) ∧ be_value 0 (minimal_magnitude v) = v.
Proof.
  intros Hv. unfold minimal_magnitude.
  pose proof (drop_zeros_value (to_be_bytes 16 v)) as H.
  rewrite be_value_to_be_bytes in H.
  rewrite Z.mod_small in H by (change (256 ^ Z.of_nat 16)%Z with (2^128)%Z; lia).
  destruct (list_find _ _) as [[i b]|]; [|lia].
  destruct H as (H1 & H2 & H3 & H4). rewrite length_to_be_bytes in H4.
  split; [split_and!|done].
  - apply Forall_drop, to_be_bytes_are_bytes.
  - rewrite length_drop, length_to_be_bytes. lia.
  - rewrite length_drop, length_to_be_bytes. lia.
  - rewrite H2. congruence.
Qed.

(** A minimal byte string of [n] bytes denotes a number of exactly [n] bytes. *)
Lemma minimal_bounds l :
  minimal l →
  (256 ^ Z.of_nat (length l - 1) ≤ be_value 0 l < 256 ^ Z.of_nat (length l))%Z.
Proof.
  intros (Hb & Hlen & Hhd). split; [|by apply be_value_bound].
  destruct l as [|b l]; [simpl in Hlen; lia|].
  apply Forall_cons in Hb as [Hb Hl]. rewrite be_value_cons.
  pose proof (be_value_bound l Hl) as Hv.
  assert (1 ≤ b)%Z by (unfold is_byte in Hb; assert (b ≠ 0)%Z by (simpl in Hhd; congruence); lia).
  simpl length. rewrite Nat.sub_0_r || replace (S (length l) - 1) with (length l) by lia. nia.
Qed.

Lemma minimal_range l : minimal l → (0 < be_value 0 l < 2^128)%Z.
Proof.
  intros Hm. pose proof (minimal_bounds l Hm) as [H1 H2]. destruct Hm as (_ & Hlen & _).
  assert (0 < 256 ^ Z.of_nat (length l - 1))%Z by (apply Z.pow_pos_nonneg; lia).
  assert (256 ^ Z.of_nat (length l) ≤ 256 ^ 16)%Z by (apply Z.pow_le_mono_r; lia).
  change (256 ^ 16)%Z with (2 ^ 128)%Z in *. lia.
Qed.

(** Longer minimal strings denote larger numbers. *)
Lemma minimal_length_lt l1 l2 :
  minimal l1 → minimal l2 → length l1 < length l2 →
  (be_value 0 l1 < be_value 0 l2)%Z.
Proof.
  intros H1 H2 Hlen. pose proof (minimal_bounds l1 H1). pose proof (minimal_bounds l2 H2).
  assert (256 ^ Z.of_nat (length l1) ≤ 256 ^ Z.of_nat (length l2 - 1))%Z
    by (apply Z.pow_le_mono_r; lia). lia.
Qed.

(** At equal length the byte order of big-endian strings is numeric order. *)
Lemma lex_compare_be_value l1 l2 :
  are_bytes l1 → are_bytes l2 → length l1 = length l2 →
  lex_compare l1 l2 = Z.compare (be_value 0 l1) (be_value 0 l2).
Proof.
  revert l2. induction l1 as [|a l1 IH]; intros [|b l2] H1 H2 Hlen; simplify_eq/=; [done|].
  apply Forall_cons in H1 as [Ha H1], H2 as [Hb H2].
  rewrite !be_value_cons. pose proof (be_value_bound l1 H1). pose proof (be_value_bound l2 H2).
  unfold cmp at 1, Ord_Z. rewrite <-Hlen in *. unfold is_byte in *.
  destruct (Z.compare_spec a b) as [->|Hab|Hab].
  - rewrite IH by done. symmetry. rewrite Z.add_compare_mono_l. done.
  - symmetry. apply Z.compare_lt_iff. nia.
  - symmetry. apply Z.compare_gt_iff. nia.
Qed.

Lemma minimal_inj l1 l2 :
  minimal l1 → minimal l2 → be_value 0 l1 = be_value 0 l2 → l1 = l2.
Proof.
  intros H1 H2 Heq.
  destruct (decide (length l1 = length l2)) as [Hlen|Hlen].
  - apply cmp_eq. change (lex_compare l1 l2 = Eq).
    rewrite lex_compare_be_value by (done || apply H1 || apply H2).
    by apply Z.compare_eq_iff.
  - assert (length l1 < length l2 ∨ length l2 < length l1) as [?|?] by lia.
    + pose proof (minimal_length_lt l1 l2 H1 H2). lia.
    + pose proof (minimal_length_lt l2 l1 H2 H1). lia.
Qed.

Lemma minimal_magnitude_be_value l :
  minimal l → minimal_magnitude (be_value 0 l) = l.
Proof.
  intros Hm. destruct (minimal_magnitude_spec (be_value 0 l)) as [H1 H2];
    [by apply minimal_range|]. by apply minimal_inj.
Qed.

(** Minimal magnitudes compare by length first, then bytewise. *)
Lemma minimal_compare l1 l2 :
  minimal l1 → minimal l2 →
  match Z.compare (Z.of_nat (length l1)) (Z.of_nat (length l2)) with
  | Eq => lex_compare l1 l2
  | c => c
  end = Z.compare (be_value 0 l1) (be_value 0 l2).
Proof.
  intros H1 H2.
  destruct (Z.compare_spec (Z.of_nat (length l1)) (Z.of_nat (length l2))) as [He|He|He].
  - apply lex_compare_be_value; [apply H1|apply H2|lia].
  - symmetry. apply Z.compare_lt_iff. apply minimal_length_lt; [done..|lia].
  - symmetry. apply Z.compare_gt_iff. apply minimal_length_lt; [done..|lia].
Qed.

(** ** Unsigned integers *)

Lemma encode_uint_are_bytes v : u128_ok v → are_bytes (encode_uint v).
Proof.
  intros Hv. unfold encode_uint. case_decide; [by repeat constructor|].
  destruct (minimal_magnitude_spec v) as [[Hb Hm] _]; [int_lia|].
  constructor; [unfold is_byte; lia|done].
Qed.

Lemma decode_uint_encode v rest :
  u128_ok v → decode_uint (encode_uint v ++ rest) = Ok (v, length (encode_uint v)).
Proof.
  intros Hv. unfold encode_uint. case_decide as Hz; [by subst|].
  destruct (minimal_magnitude_spec v) as [Hm Hval]; [int_lia|].
  destruct Hm as (Hb & Hlen & Hhd). set (mag := minimal_magnitude v) in *.
  unfold decode_uint. cbn [head app ok_or mbind result_bind].
  rewrite decide_False by lia. unfold MAX_MAG_LEN. rewrite decide_False by lia.
  rewrite Nat2Z.id, slice_get_cons_app. cbn [ok_or mbind result_bind].
  rewrite decide_False by done. rewrite from_be_bytes_value, Hval by (done || lia). done.
Qed.

(** What the shared magnitude reader returns is a minimal magnitude. *)
Lemma slice_minimal cat buf len mag :
  are_bytes buf → len ≠ 0 → len ≤ 16 →
  slice_get (cat :: buf) 1 (1 + len) = Some mag →
  head mag ≠ Some 0%Z →
  minimal mag ∧ length mag = len ∧ take len buf = mag ∧ len ≤ length buf.
Proof.
  intros Hb Hne Hle (_ & Hlen & ->)%slice_get_Some Hhd.
  rewrite Nat.add_comm, Nat.add_sub in *. simpl in *.
  rewrite drop_0 in *. assert (length (take len buf) = len) by (rewrite length_take; lia).
  split_and!; [split_and!| |..]; try done; try lia. by apply Forall_take.
Qed.

Lemma decode_uint_sound buf v n :
  are_bytes buf → decode_uint buf = Ok (v, n) →
  u128_ok v ∧ n ≤ length buf ∧ take n buf = encode_uint v.
Proof.
  intros Hb H. unfold decode_uint in H.
  destruct buf as [|len buf]; [done|]. cbn [head ok_or mbind result_bind] in H.
  apply Forall_cons in Hb as [Hl Hb]. unfold is_byte in Hl.
  case_decide as H0; [subst; simplify_eq|].
  { split_and!; [int_lia|simpl; lia|done]. }
  case_decide as H1; [done|]. unfold MAX_MAG_LEN in *.
  apply result_bind_Ok in H as (mag & Hmag & H). apply ok_or_Ok in Hmag.
  case_decide as H2; [done|]. simplify_eq/=.
  destruct (slice_minimal len buf (Z.to_nat len) mag) as (Hm & Hlen & Htake & Hle);
    [done|lia|lia|done|done|].
  rewrite from_be_bytes_value by (apply Hm || lia).
  pose proof (minimal_range mag Hm). split_and!; [int_lia|lia|].
  unfold encode_uint. rewrite decide_False by lia.
  rewrite minimal_magnitude_be_value by done. rewrite Hlen, Z2Nat.id by lia. by f_equal.
Qed.

Lemma encode_uint_compare a b :
  u128_ok a → u128_ok b → lex_compare (encode_uint a) (encode_uint b) = Z.compare a b.
Proof.
  intros Ha Hb. unfold encode_uint.
  case_decide as Ea; case_decide as Eb.
  - by subst.
  - subst a. destruct (minimal_magnitude_spec b) as [(_ & Hlen & _) _]; [int_lia|].
    cbn [lex_compare]. unfold cmp, Ord_Z.
    rewrite (proj2 (Z.compare_lt_iff 0 _)) by lia. symmetry. apply Z.compare_lt_iff. int_lia.
  - subst b. destruct (minimal_magnitude_spec a) as [(_ & Hlen & _) _]; [int_lia|].
    cbn [lex_compare]. unfold cmp, Ord_Z.
    rewrite (proj2 (Z.compare_gt_iff _ 0)) by lia. symmetry. apply Z.compare_gt_iff. int_lia.
  - destruct (minimal_magnitude_spec a) as [Hma Hva]; [int_lia|].
    destruct (minimal_magnitude_spec b) as [Hmb Hvb]; [int_lia|].
    set (la := minimal_magnitude a) in *. set (lb := minimal_magnitude b) in *.
    cbn [lex_compare]. unfold cmp at 1, Ord_Z. rewrite <-Hva, <-Hvb.
    by apply minimal_compare.
Qed.

(** ** Signed integers *)

Lemma encode_int_are_bytes v : i128_ok v → are_bytes (encode_int v).
Proof.
  intros Hv. unfold encode_int, INT_ZERO_CATEGORY. case_decide; [by repeat constructor|].
  destruct (minimal_magnitude_spec (Z.abs v)) as [[Hb Hm] _]; [int_lia|].
  case_decide; (constructor; [unfold is_byte; lia|]); [by apply byte_not_are_bytes|done].
Qed.

Lemma head_byte_not (l : bytes) b : head (byte_not <$> l) = Some b ↔ head l = Some (255 - b)%Z.
Proof.
  destruct l as [|x l]; simpl; [done|]. unfold byte_not.
  split; intros [= ?]; f_equal; lia.
Qed.

Lemma decode_int_encode v rest :
  i128_ok v → decode_int (encode_int v ++ rest) = Ok (v, length (encode_int v)).
Proof.
  intros Hv. unfold encode_int. case_decide as Hz; [by subst|].
  destruct (minimal_magnitude_spec (Z.abs v)) as [Hm Hval]; [int_lia|].
  destruct Hm as (Hb & Hlen & Hhd). set (mag := minimal_magnitude (Z.abs v)) in *.
  unfold INT_ZERO_CATEGORY, MAX_MAG_LEN.
  case_decide as Hneg; unfold decode_int, INT_ZERO_CATEGORY, MAX_MAG_LEN;
    cbn [head app ok_or mbind result_bind].
  - rewrite decide_False by lia. rewrite decide_False by lia.
    replace (Z.to_nat (128 - (128 - Z.of_nat (length mag)))) with (length mag) by lia.
    rewrite decide_False by lia.
    pose proof (slice_get_cons_app (128 - Z.of_nat (length mag))%Z (byte_not <$> mag) rest)
      as Hslice. rewrite length_fmap in Hslice. rewrite Hslice. cbn [ok_or mbind result_bind].
    rewrite decide_False by (rewrite head_byte_not; done).
    rewrite byte_not_involutive, from_be_bytes_value, Hval by (done || lia).
    rewrite length_cons, length_fmap.
    case_decide; cbn [mbind result_bind]; [do 2 f_equal; lia|].
    rewrite checked_ok by int_lia. cbn. do 2 f_equal. lia.
  - rewrite decide_False by lia. rewrite decide_True by lia.
    replace (Z.to_nat (128 + Z.of_nat (length mag) - 128)) with (length mag) by lia.
    rewrite decide_False by lia. rewrite slice_get_cons_app. cbn [ok_or mbind result_bind].
    rewrite decide_False by done.
    rewrite from_be_bytes_value, Hval by (done || lia).
    rewrite checked_ok by int_lia. cbn. do 2 f_equal. lia.
Qed.

Lemma decode_int_sound buf v n :
  are_bytes buf → decode_int buf = Ok (v, n) →
  i128_ok v ∧ n ≤ length buf ∧ take n buf = encode_int v.
Proof.
  intros Hb H. unfold decode_int, INT_ZERO_CATEGORY, MAX_MAG_LEN in H.
  destruct buf as [|cat buf]; [done|]. cbn [head ok_or mbind result_bind] in H.
  apply Forall_cons in Hb as [Hc Hb]. unfold is_byte in Hc.
  case_decide as H0; [subst; simplify_eq|].
  { split_and!; [int_lia|simpl; lia|done]. }
  case_decide as H1; (case_decide as H2; [done|]);
    apply result_bind_Ok in H as (mag & Hmag & H); apply ok_or_Ok in Hmag;
    (case_decide as H3; [done|]); apply result_bind_Ok in H as (w & Hw & H); simplify_eq.
  - destruct (slice_minimal cat buf (Z.to_nat (cat - 128)) mag)
      as (Hm & Hlen & Htake & Hle); [done|lia|lia|done|done|].
    apply ok_or_Ok, checked_Some in Hw as [-> Hok].
    rewrite from_be_bytes_value in * by (apply Hm || lia).
    pose proof (minimal_range mag Hm).
    split_and!; [done|simpl; lia|]. unfold encode_int.
    rewrite decide_False, decide_False, Z.abs_eq by lia.
    rewrite minimal_magnitude_be_value by done. unfold INT_ZERO_CATEGORY.
    simpl. rewrite Hlen, Htake. f_equal. lia.
  - pose proof Hmag as Hcomp.
    apply slice_get_Some in Hmag as (_ & Hle & Hmag). simpl in Hle, Hmag.
    rewrite Nat.sub_0_r, drop_0 in Hmag.
    set (len := Z.to_nat (128 - cat)) in *.
    assert (Hlen : length mag = len) by (rewrite Hmag, length_take; lia).
    assert (Hm : minimal (byte_not <$> mag)).
    { split_and!; rewrite ?length_fmap; try lia.
      - apply byte_not_are_bytes. rewrite Hmag. by apply Forall_take.
      - rewrite head_byte_not. done. }
    rewrite from_be_bytes_value in Hw by (apply Hm || (rewrite length_fmap; lia)).
    pose proof (minimal_range _ Hm) as Hr.
    assert (v = - be_value 0 (byte_not <$> mag) ∧ i128_ok v)%Z as [-> Hok].
    { case_decide as H4; [simplify_eq; split; [lia|int_lia]|].
      apply result_bind_Ok in Hw as (m & Hm' & Hw).
      apply ok_or_Ok, checked_Some in Hm' as [-> ?]. simplify_eq. split; [done|int_lia]. }
    split_and!; [done|simpl; lia|]. unfold encode_int.
    rewrite decide_False, decide_True, Z.abs_opp, Z.abs_eq by lia.
    rewrite minimal_magnitude_be_value, byte_not_involutive, length_fmap, Hlen by done.
    unfold INT_ZERO_CATEGORY. simpl. rewrite <-Hmag. f_equal. lia.
Qed.

(** The head of a signed encoding separates the signs. *)
Lemma encode_int_category v :
  i128_ok v →
  ∃ cat tl, encode_int v = cat :: tl ∧
    Z.compare cat INT_ZERO_CATEGORY = Z.compare v 0.
Proof.
  intros Hv. unfold encode_int. case_decide as H0; [subst; by eexists _, _|].
  destruct (minimal_magnitude_spec (Z.abs v)) as [(_ & Hlen & _) _]; [int_lia|].
  case_decide; eexists _, _; (split; [done|]).
  - rewrite (proj2 (Z.compare_lt_iff v 0)) by done. apply Z.compare_lt_iff. lia.
  - rewrite (proj2 (Z.compare_gt_iff v 0)) by lia. apply Z.compare_gt_iff. lia.
Qed.

Lemma encode_int_compare_signs a b :
  i128_ok a → i128_ok b → Z.compare a 0 ≠ Z.compare b 0 →
  lex_compare (encode_int a) (encode_int b) = Z.compare a b.
Proof.
  intros Ha Hb Hs. destruct (encode_int_category a Ha) as (ca & ta & -> & Ea).
  destruct (encode_int_category b Hb) as (cb & tb & -> & Eb).
  cbn [lex_compare]. unfold cmp at 1, Ord_Z.
  revert Hs Ea Eb.
  destruct (Z.compare_spec a 0), (Z.compare_spec b 0),
    (Z.compare_spec ca INT_ZERO_CATEGORY), (Z.compare_spec cb INT_ZERO_CATEGORY);
    intros Hs Ea Eb; try congruence;
    destruct (Z.compare_spec a b), (Z.compare_spec ca cb); done || lia.
Qed.

Lemma encode_int_compare a b :
  i128_ok a → i128_ok b → lex_compare (encode_int a) (encode_int b) = Z.compare a b.
Proof.
  intros Ha Hb. destruct (decide (Z.compare a 0 = Z.compare b 0)) as [Hs|Hs];
    [|by apply encode_int_compare_signs].
  unfold encode_int. destruct (decide (a = 0)%Z) as [->|Ha0].
  { rewrite decide_True by (symmetry in Hs; by apply Z.compare_eq_iff in Hs).
    symmetry in Hs. by apply Z.compare_eq_iff in Hs as ->. }
  rewrite (decide_False (P := b = 0%Z))
    by (intros ->; by apply Z.compare_eq_iff in Hs).
  destruct (minimal_magnitude_spec (Z.abs a)) as [Hma Hva]; [int_lia|].
  destruct (minimal_magnitude_spec (Z.abs b)) as [Hmb Hvb].
  { assert (b ≠ 0)%Z by (intros ->; by apply Z.compare_eq_iff in Hs). int_lia. }
  pose proof (minimal_compare _ _ Hma Hmb) as Hcmp. rewrite Hva, Hvb in Hcmp.
  set (la := minimal_magnitude (Z.abs a)) in *. set (lb := minimal_magnitude (Z.abs b)) in *.
  case_decide as Hna; case_decide as Hnb.
  - cbn [lex_compare]. unfold cmp at 1, Ord_Z, INT_ZERO_CATEGORY.
    replace (Z.compare a b) with (CompOpp (Z.compare (Z.abs a) (Z.abs b)))
      by (destruct (Z.compare_spec a b), (Z.compare_spec (Z.abs a) (Z.abs b)); done || lia).
    rewrite <-Hcmp.
    destruct (Z.compare_spec (Z.of_nat (length la)) (Z.of_nat (length lb))),
      (Z.compare_spec (128 - Z.of_nat (length la)) (128 - Z.of_nat (length lb)));
      try done; try lia.
    apply lex_compare_byte_not. lia.
  - rewrite (proj2 (Z.compare_lt_iff a 0) Hna) in Hs. symmetry in Hs.
    apply Z.compare_lt_iff in Hs. done.
  - rewrite (proj2 (Z.compare_lt_iff b 0) Hnb) in Hs.
    apply Z.compare_lt_iff in Hs. done.
  - cbn [lex_compare]. unfold cmp at 1, Ord_Z, INT_ZERO_CATEGORY.
    rewrite !Z.abs_eq in Hcmp by lia. rewrite <-Hcmp.
    destruct (Z.compare_spec (Z.of_nat (length la)) (Z.of_nat (length lb))),
      (Z.compare_spec (128 + Z.of_nat (length la)) (128 + Z.of_nat (length lb)));
      done || lia.
Qed.

(** The encodings are injective and delimit themselves. *)
Lemma encode_uint_prefix a b r1 r2 :
  u128_ok a → u128_ok b →
  encode_uint a ++ r1 = encode_uint b ++ r2 → a = b ∧ r1 = r2.
Proof.
  intros Ha Hb Heq. pose proof (decode_uint_encode a r1 Ha) as H1.
  rewrite Heq, decode_uint_encode in H1 by done.
  injection H1 as -> _. by apply app_inv_head in Heq.
Qed.

Lemma encode_int_prefix a b r1 r2 :
  i128_ok a → i128_ok b →
  encode_int a ++ r1 = encode_int b ++ r2 → a = b ∧ r1 = r2.
Proof.
  intros Ha Hb Heq. pose proof (decode_int_encode a r1 Ha) as H1.
  rewrite Heq, decode_int_encode in H1 by done.
  injection H1 as -> _. by apply app_inv_head in Heq.
Qed.

(** * Properties *)

(** The integer codec has exactly one encoding per value: [decode_uint] and
    [decode_int] accept a buffer precisely when it starts with the encoding of an
    in-range integer, and they return that integer and the number of its bytes;
    every other buffer is an error. *)
Theorem int_codec_exact (buf : bytes) v n :
  are_bytes buf →
  (decode_uint buf = Ok (v, n) ↔
     u128_ok v ∧ n = length (encode_uint v) ∧ ∃ rest, buf = encode_uint v ++ rest) ∧
  (decode_int buf = Ok (v, n) ↔
     i128_ok v ∧ n = length (encode_int v) ∧ ∃ rest, buf = encode_int v ++ rest).
Proof.
  intros Hb. split; split.
  - intros H. apply decode_uint_sound in H as (Hv & Hn & Ht); [|done].
    split_and!; [done| |exists (drop n buf); by rewrite <-Ht, take_drop].
    rewrite <-Ht, length_take. lia.
  - intros (Hv & -> & rest & ->). by apply decode_uint_encode.
  - intros H. apply decode_int_sound in H as (Hv & Hn & Ht); [|done].
    split_and!; [done| |exists (drop n buf); by rewrite <-Ht, take_drop].
    rewrite <-Ht, length_take. lia.
  - intros (Hv & -> & rest & ->). by apply decode_int_encode.
Qed.

Lemma int_codec_exact_witness :
  are_bytes [126; 254; 255; 7]%Z ∧ decode_int [126; 254; 255; 7]%Z = Ok ((-256)%Z, 3).
Proof.
  assert (are_bytes [126; 254; 255; 7]%Z) as Hb by (repeat constructor; done).
  split; [exact Hb|].
  apply (proj2 (int_codec_exact [126; 254; 255; 7]%Z (-256)%Z 3 Hb)).
  split; [int_lia|split; [reflexivity|exists [7%Z]; reflexivity]].
Defined.

(** The byte order of encoded integers is their numeric order, whatever
    follows the encodings: sorting canonical bytes sorts the numbers. *)
Theorem int_codec_order a b (r1 r2 : bytes) :
  a ≠ b →
  (u128_ok a → u128_ok b →
     lex_compare (encode_uint a ++ r1) (encode_uint b ++ r2) = Z.compare a b) ∧
  (i128_ok a → i128_ok b →
     lex_compare (encode_int a ++ r1) (encode_int b ++ r2) = Z.compare a b).
Proof.
  intros Hne. assert (Z.compare a b ≠ Eq) as Hc by (rewrite Z.compare_eq_iff; done).
  split; intros Ha Hb.
  - rewrite <-encode_uint_compare in * by done. apply lex_compare_not_prefix; [done| |].
    + intros s Hs. pose proof (encode_uint_prefix a b [] s Ha Hb) as Hp.
      rewrite app_nil_r in Hp. naive_solver.
    + intros s Hs. pose proof (encode_uint_prefix b a [] s Hb Ha) as Hp.
      rewrite app_nil_r in Hp. naive_solver.
  - rewrite <-encode_int_compare in * by done. apply lex_compare_not_prefix; [done| |].
    + intros s Hs. pose proof (encode_int_prefix a b [] s Ha Hb) as Hp.
      rewrite app_nil_r in Hp. naive_solver.
    + intros s Hs. pose proof (encode_int_prefix b a [] s Hb Ha) as Hp.
      rewrite app_nil_r in Hp. naive_solver.
Qed.

Lemma int_codec_order_witness :
  lex_compare (encode_int (-300) ++ [1%Z]) (encode_int 5 ++ []) = Lt.
Proof. apply (int_codec_order (-300)%Z 5%Z [1%Z] []); [done|int_lia..]. Defined.
