(* ===== verification/Canon.v ===== *)
(** Canonical encoding and identity (src/crates/brix-canon/src/lib.rs).

    [CanonWriter] is the byte string written so far: each [write_*] method
    returns the longer string. [CanonReader] is a buffer and a position, its
    methods are [ST] computations. [Canonical] is the trait; what the hashing
    layers rely on is [PrefixFree]: distinct values have distinct, self-delimiting
    encodings. BLAKE3 and Unicode NFC are external: the classes [Blake3] and
    [UnicodeNfc] stand for them. *)
From S2P Require Import Prelude IntCodec.

(** ** Digests *)

(** The external hash function and what its documentation promises. *)
Class Blake3 := blake3 : bytes → bytes.
Class Blake3Laws `{Blake3} : Prop := {
  blake3_length m : length (blake3 m) = 32;
  blake3_are_bytes m : are_bytes (blake3 m)
}.

(** A concrete function with these properties, for examples: the first 32
    bytes of the message. *)
Definition demo_hash : Blake3 := λ m, (λ b, b mod 256)%Z <$> take 32 (m ++ replicate 32 0%Z).

#[export] Instance demo_hash_laws : @Blake3Laws demo_hash.
Proof.
  split; intros m; unfold blake3, demo_hash.
  - rewrite length_fmap, length_take, length_app, length_replicate. lia.
  - rewrite Forall_fmap. apply Forall_true. intros b. unfold is_byte. simpl.
    apply Z.mod_pos_bound. lia.
Qed.

(** Two different messages with one hash: what every identity argument of the
    system reduces a confusion of two values to. *)
Definition collision `{Blake3} (m1 m2 : bytes) : Prop :=
  m1 ≠ m2 ∧ blake3 m1 = blake3 m2.

(** Two of the messages [M] collide. *)
Definition collision_among `{Blake3} (M : list bytes) : Prop :=
  ∃ m1 m2, m1 ∈ M ∧ m2 ∈ M ∧ collision m1 m2.

Definition CANON_VERSION : string := "canon/1".

Inductive Domain : Type := Node | Edge | Claim | Snapshot | Value | State.

#[export] Instance Domain_eq_dec : EqDecision Domain.
Proof. solve_decision. Defined.

Definition tag (d : Domain) : string :=
  match d with
  | Node => "node"
  | Edge => "edge"
  | Claim => "claim"
  | Snapshot => "snapshot"
  | Value => "value"
  | State => "state"
  end.

Record Digest : Type := mkDigest { as_bytes : bytes }.

(** The type [[u8; 32]]. *)
Definition digest_ok (d : Digest) : Prop :=
  length (as_bytes d) = 32 ∧ are_bytes (as_bytes d).

#[export] Instance Digest_eq_dec : EqDecision Digest.
Proof. solve_decision. Defined.
#[export] Instance Digest_countable : Countable Digest.
Proof. apply (inj_countable' as_bytes mkDigest). by intros []. Defined.
#[export] Instance as_bytes_inj : Inj (=) (=) as_bytes.
Proof. intros [] []; simpl. congruence. Qed.
#[export] Instance Ord_Digest : Ord Digest := cmp_on as_bytes.
#[export] Instance OrdLaws_Digest : OrdLaws Digest := OrdLaws_on as_bytes.

(** The bytes hashed for a payload: [CANON_VERSION ++ ":" ++ tag ++ ":" ++ payload]. *)
Definition domain_message (d : Domain) (payload : bytes) : bytes :=
  bytes_of_string CANON_VERSION ++ bytes_of_string ":" ++
  bytes_of_string (tag d) ++ bytes_of_string ":" ++ payload.

Definition digest_of `{Blake3} (d : Domain) (payload : bytes) : Digest :=
  mkDigest (blake3 (domain_message d payload)).

Definition from_digit (d : Z) : Ascii.ascii :=
  Ascii.ascii_of_N (Z.to_N (if decide (d < 10)%Z then 48 + d else 87 + d)%Z).

Definition to_hex (d : Digest) : string :=
  fold_right (λ b s, String.String (from_digit (Z.shiftr b 4))
                       (String.String (from_digit (Z.land b 15)) s))
    EmptyString (as_bytes d).

Lemma digest_of_ok `{Blake3Laws} d p : digest_ok (digest_of d p).
Proof. split; simpl; [apply blake3_length|apply blake3_are_bytes]. Qed.

Lemma domain_message_inj d1 d2 p1 p2 :
  domain_message d1 p1 = domain_message d2 p2 → d1 = d2 ∧ p1 = p2.
Proof.
  unfold domain_message. intros H. do 2 apply app_inv_head in H.
  destruct d1, d2; simpl in H; simplify_eq; done.
Qed.

(** Distinct domains or payloads have distinct digests, or BLAKE3 collides on
    their two messages. *)
Lemma digest_of_binds `{Blake3} d1 d2 p1 p2 :
  digest_of d1 p1 = digest_of d2 p2 →
  (d1 = d2 ∧ p1 = p2) ∨ collision (domain_message d1 p1) (domain_message d2 p2).
Proof.
  intros [= Heq].
  destruct (decide (domain_message d1 p1 = domain_message d2 p2)) as [He|Hne].
  - left. by apply domain_message_inj.
  - by right.
Qed.

(** The message hashed for a payload in the domain of values, the domain of every
    identity but a node's, an edge's, a claim's and a snapshot's. *)
Definition message (payload : bytes) : bytes := domain_message Value payload.

Lemma collision_in `{Blake3} p1 p2 P : collision (message p1) (message p2) → p1 ∈ P → p2 ∈ P →
  collision_among (message <$> P).
Proof. intros Hc H1 H2. exists (message p1), (message p2). split_and!; [by apply list_elem_of_fmap_2..|done]. Qed.

Lemma collision_mono `{Blake3} P1 P2 : P1 ⊆ P2 → collision_among (message <$> P1) → collision_among (message <$> P2).
Proof.
  intros Hs (m1 & m2 & (p1 & -> & H1)%list_elem_of_fmap & (p2 & -> & H2)%list_elem_of_fmap & Hc).
  eapply collision_in; [exact Hc|auto..].
Qed.

(** ** Typed identities *)

(** The newtypes over [Digest] that [typed_id!] and [digest_id!] declare: one
    family indexed by the identity's name, so that two of them are never
    confused. *)
Inductive IdKind : Type :=
  | KNode | KEdge | KClaim | KSnapshot
  | KConfig | KContext | KGenerator | KGeneratorRegistry | KGeneratorSemanticsV1
  | KWitness | KRegime | KProposition | KEvidence | KVerifier | KCertificate
  | KJudgement | KDependency | KDecomposition | KTreeDerivation
  | KPrimitiveRelation | KSchema
  | KObservationProfile | KPresentation | KQuiescenceCertificate | KDivergenceCertificate.

Record Id (k : IdKind) : Type := mkId { digest : Digest }.
Arguments mkId {k} digest.
Arguments digest {k} i.

#[export] Instance Id_eq_dec k : EqDecision (Id k).
Proof. solve_decision. Defined.
#[export] Instance Id_countable k : Countable (Id k).
Proof. apply (inj_countable' digest mkId). by intros []. Defined.
#[export] Instance digest_inj k : Inj (=) (=) (digest (k := k)).
Proof. intros [] []; simpl. congruence. Qed.
#[export] Instance Ord_Id k : Ord (Id k) := cmp_on digest.
#[export] Instance OrdLaws_Id k : OrdLaws (Id k) := OrdLaws_on digest.

Definition id_ok {k} (i : Id k) : Prop := digest_ok (digest i).

(** Identities to instantiate the theorems with. *)
Definition demo_id {k} (b : Z) : Id k := mkId (mkDigest (replicate 32 b)).
Lemma demo_id_ok {k} b : is_byte b → id_ok (demo_id (k := k) b).
Proof. intros Hb. split; [apply length_replicate|]. by apply Forall_replicate. Qed.

Abbreviation NodeId := (Id KNode).
Abbreviation EdgeId := (Id KEdge).
Abbreviation ClaimId := (Id KClaim).
Abbreviation SnapshotId := (Id KSnapshot).

(** The hash domain an identity is minted in. *)
Definition id_domain (k : IdKind) : Domain :=
  match k with
  | KNode => Node | KEdge => Edge | KClaim => Claim | KSnapshot => Snapshot
  | _ => Value
  end.

(** [XId::from_canon]. *)
Definition from_canon `{Blake3} {k} (payload : bytes) : Id k :=
  mkId (digest_of (id_domain k) payload).

Lemma from_canon_ok `{Blake3Laws} {k} p : id_ok (from_canon (k := k) p).
Proof. apply digest_of_ok. Qed.

(** ** [CanonWriter] *)

(** The NFC normalisation of the [unicode_normalization] crate, on UTF-8 bytes. *)
Class UnicodeNfc := nfc : bytes → bytes.

Definition is_ascii (s : bytes) : bool := forallb (λ b, b <? 128)%Z s.

Definition nfc_cow `{UnicodeNfc} (s : bytes) : bytes :=
  if is_ascii s then s else nfc s.

Abbreviation CanonWriter := bytes.

Definition write_raw (b : bytes) (w : CanonWriter) : CanonWriter := w ++ b.
Definition write_uint (v : Z) (w : CanonWriter) : CanonWriter := w ++ encode_uint v.
Definition write_uint128 (v : Z) (w : CanonWriter) : CanonWriter := w ++ encode_uint v.
Definition write_int (v : Z) (w : CanonWriter) : CanonWriter := w ++ encode_int v.
Definition write_int128 (v : Z) (w : CanonWriter) : CanonWriter := w ++ encode_int v.
Definition write_bytes (b : bytes) (w : CanonWriter) : CanonWriter :=
  w |> write_uint (Z.of_nat (length b)) |> write_raw b.
Definition write_str (s : bytes) (w : CanonWriter) : CanonWriter := write_bytes s w.
Definition write_ident `{UnicodeNfc} (s : bytes) (w : CanonWriter) : CanonWriter :=
  write_bytes (nfc_cow s) w.
Definition write_tag (t : string) (w : CanonWriter) : CanonWriter :=
  write_bytes (bytes_of_string t) w.
Definition write_bool (b : bool) (w : CanonWriter) : CanonWriter :=
  w ++ [if b then 1%Z else 0%Z].
Definition write_unit (w : CanonWriter) : CanonWriter := w ++ [0%Z].
(** A [char] is its Unicode scalar value. *)
Definition write_char (c : Z) (w : CanonWriter) : CanonWriter := write_uint c w.
Definition write_enum (ordinal : Z) (payload : CanonWriter → CanonWriter)
    (w : CanonWriter) : CanonWriter :=
  w |> write_uint ordinal |> payload.

(** [for e in items { step(e) }]. *)
Definition write_each {A} (step : A → CanonWriter → CanonWriter) (items : list A)
    (w : CanonWriter) : CanonWriter :=
  fold_left (λ w e, step e w) items w.

(** The fields of a record in the order they are written. *)
Definition record_entries `{UnicodeNfc} (fields : list (bytes * bytes)) :
    list (bytes * bytes) :=
  sort_by (cmp_on fst) ((λ '(name, value), (nfc_cow name, value)) <$> fields).

Definition write_record `{UnicodeNfc} (fields : list (bytes * bytes))
    (w : CanonWriter) : CanonWriter :=
  let entries := record_entries fields in
  w |> write_uint (Z.of_nat (length entries))
    |> write_each (λ '(name, value) w, w |> write_bytes name |> write_raw value) entries.

Definition write_list (elements : list bytes) (w : CanonWriter) : CanonWriter :=
  w |> write_uint (Z.of_nat (length elements)) |> write_each write_bytes elements.

(** Sorted and deduplicated elements. *)
Definition set_items (elements : list bytes) : list bytes := dedup (sort elements).

Definition write_set (elements : list bytes) (w : CanonWriter) : CanonWriter :=
  let items := set_items elements in
  w |> write_uint (Z.of_nat (length items)) |> write_each write_bytes items.

(** Entries sorted by key, the last of equal keys kept: sort, reverse,
    deduplicate by key, reverse. *)
Definition map_items (entries : list (bytes * bytes)) : list (bytes * bytes) :=
  let items := sort_by (cmp_on fst) entries in
  reverse (dedup_by (λ a b, bool_decide (a.1 = b.1)) (reverse items)).

Definition write_map (entries : list (bytes * bytes)) (w : CanonWriter) : CanonWriter :=
  let items := map_items entries in
  w |> write_uint (Z.of_nat (length items))
    |> write_each (λ '(k, v) w, w |> write_bytes k |> write_bytes v) items.

(** The multiplicities of the elements ([*counts.entry(e).or_insert(0) += 1]). *)
Definition bag_counts (elements : list bytes) : gmap bytes Z :=
  fold_left (λ counts e, <[e := (default 0 (counts !! e) + 1)%Z]> counts) elements ∅.

Definition write_bag (elements : list bytes) (w : CanonWriter) : CanonWriter :=
  let counts := bag_counts elements in
  w |> write_uint (Z.of_nat (size counts))
    |> write_each (λ '(e, m) w, w |> write_bytes e |> write_uint m) (btree_iter counts).

(** The bytes [write_bytes] appends. *)
Definition frame (b : bytes) : bytes := encode_uint (Z.of_nat (length b)) ++ b.

Lemma write_bytes_app b w : write_bytes b w = w ++ frame b.
Proof. unfold write_bytes, write_raw, write_uint, frame. by rewrite app_assoc. Qed.

Lemma write_each_app {A} (step : A → CanonWriter → CanonWriter) (enc : A → bytes) items w :
  (∀ e w, step e w = w ++ enc e) →
  write_each step items w = w ++ concat (enc <$> items).
Proof.
  intros Hs. unfold write_each. revert w.
  induction items as [|e items IH]; intros w; simpl; [by rewrite app_nil_r|].
  by rewrite IH, Hs, app_assoc.
Qed.

(** The bytes [write_list] appends. *)
Definition frames (l : list bytes) : bytes :=
  encode_uint (Z.of_nat (length l)) ++ concat (frame <$> l).

Lemma write_list_app l w : write_list l w = w ++ frames l.
Proof.
  unfold write_list, frames, write_uint.
  rewrite (write_each_app _ frame) by (intros; apply write_bytes_app).
  by rewrite app_assoc.
Qed.

Lemma write_set_app l w : write_set l w = w ++ frames (set_items l).
Proof. apply write_list_app. Qed.

Lemma write_map_app l w :
  write_map l w = w ++ encode_uint (Z.of_nat (length (map_items l))) ++
    concat ((λ e, frame e.1 ++ frame e.2) <$> map_items l).
Proof.
  unfold write_map, write_uint.
  rewrite (write_each_app _ (λ e, frame e.1 ++ frame e.2)).
  - by rewrite app_assoc.
  - intros [k v] w'. by rewrite !write_bytes_app, app_assoc.
Qed.

Create Rewrite HintDb canon.
#[export] Hint Rewrite write_bytes_app write_list_app write_set_app write_map_app : canon.

(** ** [CanonReader] *)

Record CanonReader : Type := mkReader { rbuf : bytes; rpos : nat }.

Definition reader_new (buf : bytes) : CanonReader := mkReader buf 0.

(** Positions never pass the end of the buffer: what keeps [&buf[pos..]] from
    panicking. *)
Definition reader_ok (r : CanonReader) : Prop :=
  rpos r ≤ length (rbuf r) ∧ are_bytes (rbuf r) ∧ (Z.of_nat (length (rbuf r)) < 2^63)%Z.

(** The unread bytes. *)
Definition remaining (r : CanonReader) : bytes := drop (rpos r) (rbuf r).

Definition reader_is_empty (r : CanonReader) : bool :=
  bool_decide (length (rbuf r) ≤ rpos r).

Abbreviation Reader A := (ST CanonReader CanonError A).

Definition advance (n : nat) : Reader unit :=
  λ r, (Ok tt, mkReader (rbuf r) (rpos r + n)).

Definition read_u8 : Reader Z := λ r,
  match rbuf r !! rpos r with
  | Some b => (Ok b, mkReader (rbuf r) (rpos r + 1))
  | None => (Err UnexpectedEof, r)
  end.

(** The common shape of the integer readers: decode at the position, move past
    the bytes consumed, then convert to the target width. *)
Definition read_with (dec : bytes → result CanonError (Z * nat)) : Reader Z := λ r,
  match dec (remaining r) with
  | Ok (v, n) => (advance n ;; mret v) r
  | Err e => (Err e, r)
  end.

Definition read_uint : Reader Z :=
  v ← read_with decode_uint; ST_lift (ok_or (checked u64_ok v) BadLength).
Definition read_uint128 : Reader Z := read_with decode_uint.
Definition read_int : Reader Z :=
  v ← read_with decode_int; ST_lift (ok_or (checked i64_ok v) BadLength).
Definition read_int128 : Reader Z := read_with decode_int.

Definition read_bool : Reader bool :=
  b ← read_u8;
  if decide (b = 0%Z) then mret false
  else if decide (b = 1%Z) then mret true
  else ST_throw BadLength.

(** [buf.get(pos..end)] for an end computed with [checked_add] on [usize]. *)
Definition read_slice (len : Z) : Reader bytes := λ r,
  let end_ := (Z.of_nat (rpos r) + len)%Z in
  if decide (end_ < 2^64 ∧ end_ ≤ Z.of_nat (length (rbuf r)))%Z then
    (Ok (take (Z.to_nat len) (remaining r)), mkReader (rbuf r) (Z.to_nat end_))
  else (Err BadLength, r).

Definition read_bytes : Reader bytes := len ← read_uint; read_slice len.
Definition read_raw (n : Z) : Reader bytes := read_slice n.

(** [CanonDecode::from_canon_bytes] for a reader of the type. *)
Definition from_canon_bytes {A} (canon_read : Reader A) (buf : bytes) : result CanonError A :=
  match canon_read (reader_new buf) with
  | (Ok val, r) => if reader_is_empty r then Ok val else Err BadLength
  | (Err e, _) => Err e
  end.

Definition read_digest : Reader Digest :=
  b ← read_bytes;
  if decide (length b = 32) then mret (mkDigest b) else ST_throw BadLength.

(** ** What readers return *)

(** [rd] reads exactly the bytes [enc] and returns [a], wherever they stand. *)
Definition reads {A} (rd : Reader A) (enc : bytes) (a : A) : Prop :=
  ∀ r rest, reader_ok r → remaining r = enc ++ rest →
  rd r = (Ok a, mkReader (rbuf r) (rpos r + length enc)).

(** [rd] preserves [reader_ok] and never rewinds, errors included; the buffer
    is never changed. *)
Definition reader_safe {A} (rd : Reader A) : Prop :=
  ∀ r, reader_ok r →
  reader_ok (rd r).2 ∧ rbuf (rd r).2 = rbuf r ∧ rpos r ≤ rpos (rd r).2.

(** Whatever [rd] accepts is the encoding of what it returns. *)
Definition reads_only {A} (rd : Reader A) (enc : A → bytes) : Prop :=
  ∀ r a r', reader_ok r → rd r = (Ok a, r') →
  remaining r = enc a ++ remaining r' ∧ rpos r' = rpos r + length (enc a).

Lemma remaining_advance r n :
  remaining (mkReader (rbuf r) (rpos r + n)) = drop n (remaining r).
Proof. unfold remaining. simpl. by rewrite drop_drop. Qed.

Lemma length_remaining r : length (remaining r) = length (rbuf r) - rpos r.
Proof. apply length_drop. Qed.

Lemma remaining_are_bytes r : reader_ok r → are_bytes (remaining r).
Proof. intros (_ & Hb & _). by apply Forall_drop. Qed.

Lemma reader_ok_advance r n :
  reader_ok r → n ≤ length (remaining r) → reader_ok (mkReader (rbuf r) (rpos r + n)).
Proof.
  intros (Hp & Hb & Hl) Hn. rewrite length_remaining in Hn.
  split_and!; simpl; [lia|done|done].
Qed.

Lemma reads_advance {A} (rd : Reader A) enc a r rest :
  reads rd enc a → reader_ok r → remaining r = enc ++ rest →
  ∃ r', rd r = (Ok a, r') ∧ reader_ok r' ∧ remaining r' = rest ∧
        rbuf r' = rbuf r ∧ rpos r' = rpos r + length enc.
Proof.
  intros Hr Hok Hrem. eexists. split; [by eapply Hr|].
  split_and!; [|by rewrite remaining_advance, Hrem, drop_app_length|done|done].
  apply reader_ok_advance; [done|]. rewrite Hrem, length_app. lia.
Qed.

Lemma reads_ret {A} (a : A) : reads (mret a) [] a.
Proof. intros [b p] rest _ _. simpl. unfold mret, ST_ret. by rewrite Nat.add_0_r. Qed.

(** Sequencing readers reads the concatenation. *)
Lemma reads_bind {A B} (rd : Reader A) (f : A → Reader B) e1 e2 a b :
  reads rd e1 a → reads (f a) e2 b → reads (rd ≫= f) (e1 ++ e2) b.
Proof.
  intros H1 H2 r rest Hok Hrem. rewrite <-app_assoc in Hrem.
  destruct (reads_advance _ _ _ _ _ H1 Hok Hrem) as (r' & Hr' & Hok' & Hrem' & Hb & Hp).
  unfold mbind, ST_bind. rewrite Hr'. rewrite (H2 r' rest) by done.
  by rewrite Hb, Hp, length_app, Nat.add_assoc.
Qed.

Lemma reads_bind_last {A B} (rd : Reader A) (f : A → Reader B) e a b :
  reads rd e a → reads (f a) [] b → reads (rd ≫= f) e b.
Proof. intros H1 H2. rewrite <-(app_nil_r e). by eapply reads_bind. Qed.

Lemma reads_lift_ok {A} (o : option A) (e : CanonError) a :
  o = Some a → reads (ST_lift (ok_or o e)) [] a.
Proof.
  intros -> [b p] rest _ _. unfold ST_lift. simpl. by rewrite Nat.add_0_r.
Qed.

Lemma read_with_reads dec enc v :
  (∀ rest, dec (enc ++ rest) = Ok (v, length enc)) → reads (read_with dec) enc v.
Proof. intros Hd r rest _ Hrem. unfold read_with. by rewrite Hrem, Hd. Qed.

Lemma read_uint_reads v : u64_ok v → reads read_uint (encode_uint v) v.
Proof.
  intros Hv. unfold read_uint. eapply reads_bind_last.
  - apply read_with_reads. intros. apply decode_uint_encode. int_lia.
  - apply reads_lift_ok. by apply checked_ok.
Qed.

Lemma read_uint128_reads v : u128_ok v → reads read_uint128 (encode_uint v) v.
Proof. intros Hv. apply read_with_reads. intros. by apply decode_uint_encode. Qed.

Lemma read_int_reads v : i64_ok v → reads read_int (encode_int v) v.
Proof.
  intros Hv. unfold read_int. eapply reads_bind_last.
  - apply read_with_reads. intros. apply decode_int_encode. int_lia.
  - apply reads_lift_ok. by apply checked_ok.
Qed.

Lemma read_int128_reads v : i128_ok v → reads read_int128 (encode_int v) v.
Proof. intros Hv. apply read_with_reads. intros. by apply decode_int_encode. Qed.

Lemma read_u8_reads b : reads read_u8 [b] b.
Proof.
  intros r rest Hok Hrem. unfold read_u8.
  replace (rbuf r !! rpos r) with (Some b); [done|].
  rewrite <-(Nat.add_0_r (rpos r)), <-lookup_drop. fold (remaining r). by rewrite Hrem.
Qed.

Lemma read_bool_reads (b : bool) : reads read_bool [if b then 1%Z else 0%Z] b.
Proof.
  unfold read_bool. eapply reads_bind_last; [apply read_u8_reads|].
  destruct b; apply reads_ret.
Qed.

Lemma read_slice_reads b : reads (read_slice (Z.of_nat (length b))) b b.
Proof.
  intros r rest (Hp & Hb & Hl) Hrem. unfold read_slice.
  assert (length b ≤ length (rbuf r) - rpos r)
    by (rewrite <-length_remaining, Hrem, length_app; lia).
  rewrite decide_True by int_lia.
  rewrite Hrem, Nat2Z.id, take_app_length. do 2 f_equal. lia.
Qed.

Lemma read_bytes_reads b :
  (Z.of_nat (length b) < 2^64)%Z → reads read_bytes (frame b) b.
Proof.
  intros Hl. unfold read_bytes, frame. eapply reads_bind.
  - apply read_uint_reads. int_lia.
  - apply read_slice_reads.
Qed.

Lemma read_digest_reads d : digest_ok d → reads read_digest (frame (as_bytes d)) d.
Proof.
  intros [Hl _]. unfold read_digest. eapply reads_bind_last.
  - apply read_bytes_reads. rewrite Hl. int_lia.
  - rewrite decide_True by done. destruct d. apply reads_ret.
Qed.

(** Round trip through a complete buffer. *)
Lemma from_canon_bytes_reads {A} (rd : Reader A) enc a :
  reads rd enc a → are_bytes enc → (Z.of_nat (length enc) < 2^63)%Z →
  from_canon_bytes rd enc = Ok a.
Proof.
  intros Hr Hb Hl. unfold from_canon_bytes.
  rewrite (Hr (reader_new enc) []).
  - unfold reader_is_empty. simpl. by rewrite bool_decide_true.
  - split_and!; simpl; [lia|done|done].
  - by rewrite app_nil_r.
Qed.

(** ** Reader safety and canonicity *)

Lemma reader_safe_bind {A B} (rd : Reader A) (f : A → Reader B) :
  reader_safe rd → (∀ a, reader_safe (f a)) → reader_safe (rd ≫= f).
Proof.
  intros H1 H2 r Hok. unfold mbind, ST_bind.
  destruct (H1 r Hok) as (Hok1 & Hb1 & Hp1).
  destruct (rd r) as [[a|e] r']; simpl in *; [|done].
  destruct (H2 a r' Hok1) as (Hok2 & Hb2 & Hp2).
  split_and!; [done|congruence|lia].
Qed.

Lemma reader_safe_pure {A} (res : result CanonError A) : reader_safe (λ r, (res, r)).
Proof. intros r Hok. simpl. split_and!; [done..|lia]. Qed.

Lemma reader_safe_with dec :
  (∀ buf v n, are_bytes buf → dec buf = Ok (v, n) → n ≤ length buf) →
  reader_safe (read_with dec).
Proof.
  intros Hd r Hok. unfold read_with.
  destruct (dec (remaining r)) as [[v n]|e] eqn:E; simpl; [|split_and!; [done..|lia]].
  apply Hd in E; [|by apply remaining_are_bytes].
  split_and!; [by apply reader_ok_advance|done|lia].
Qed.

Lemma reader_safe_u8 : reader_safe read_u8.
Proof.
  intros r Hok. unfold read_u8. destruct (rbuf r !! rpos r) eqn:E; simpl;
    [|split_and!; [done..|lia]].
  apply lookup_lt_Some in E. split_and!; [|done|lia].
  apply reader_ok_advance; [done|]. rewrite length_remaining. lia.
Qed.

Lemma reader_safe_slice len : (0 ≤ len)%Z → reader_safe (read_slice len).
Proof.
  intros Hlen r (Hp & Hb & Hl). unfold read_slice. case_decide; simpl;
    (split_and!; [split_and!; simpl; [lia|done|done]|done|lia]).
Qed.

Lemma read_uint_range r v r' : reader_ok r → read_uint r = (Ok v, r') → u64_ok v.
Proof.
  intros _ H. unfold read_uint in H. apply ST_bind_Ok in H as (v' & r1 & _ & H).
  unfold ST_lift in H. injection H as H _.
  by apply ok_or_Ok, checked_Some in H as [-> ?].
Qed.

Lemma reader_safe_uint : reader_safe read_uint.
Proof.
  apply reader_safe_bind; [|intros; apply reader_safe_pure].
  apply reader_safe_with. intros ???? H. by apply decode_uint_sound in H as (_ & ? & _).
Qed.

Lemma reader_safe_int : reader_safe read_int.
Proof.
  apply reader_safe_bind; [|intros; apply reader_safe_pure].
  apply reader_safe_with. intros ???? H. by apply decode_int_sound in H as (_ & ? & _).
Qed.

Lemma reader_safe_bytes : reader_safe read_bytes.
Proof.
  intros r Hok. destruct (reader_safe_uint r Hok) as (Hok1 & Hb1 & Hp1).
  unfold read_bytes, mbind, ST_bind.
  destruct (read_uint r) as [[len|e] r1] eqn:E; simpl in *; [|done].
  apply read_uint_range in E; [|done].
  destruct (reader_safe_slice len ltac:(int_lia) r1 Hok1) as (Hok2 & Hb2 & Hp2).
  split_and!; [done|congruence|lia].
Qed.

Lemma reads_only_with dec enc :
  (∀ buf v n, are_bytes buf → dec buf = Ok (v, n) →
     n ≤ length buf ∧ take n buf = enc v) →
  reads_only (read_with dec) enc.
Proof.
  intros Hd r v r' Hok H. unfold read_with in H.
  destruct (dec (remaining r)) as [[w n]|e] eqn:E; [|done].
  injection H as -> <-. apply Hd in E as [Hn Ht]; [|by apply remaining_are_bytes].
  rewrite remaining_advance, <-Ht, take_drop. split; [done|].
  simpl. rewrite length_take. lia.
Qed.

Lemma reads_only_checked (rd : Reader Z) enc ok `{∀ v, Decision (ok v)} :
  reads_only rd enc →
  reads_only (v ← rd; ST_lift (ok_or (checked ok v) BadLength)) enc.
Proof.
  intros Hr r v r' Hok H'. apply ST_bind_Ok in H' as (w & r1 & Hw & H').
  unfold ST_lift in H'. injection H' as H' ->.
  apply ok_or_Ok, checked_Some in H' as [-> _]. by apply Hr.
Qed.

Lemma read_uint_only : reads_only read_uint encode_uint.
Proof.
  apply reads_only_checked, reads_only_with. intros ???? H.
  by apply decode_uint_sound in H as (_ & ? & ?).
Qed.

Lemma read_int_only : reads_only read_int encode_int.
Proof.
  apply reads_only_checked, reads_only_with. intros ???? H.
  by apply decode_int_sound in H as (_ & ? & ?).
Qed.

Lemma read_bytes_only : reads_only read_bytes frame.
Proof.
  intros r b r' Hok H. unfold read_bytes in H.
  apply ST_bind_Ok in H as (len & r1 & Hlen & H).
  pose proof (read_uint_range _ _ _ Hok Hlen) as Hr.
  destruct (reader_safe_uint r Hok) as ((Hp1 & _) & Hb1 & _). rewrite Hlen in *. simpl in *.
  destruct (read_uint_only r len r1 Hok Hlen) as [Hrem Hpos].
  unfold read_slice in H. case_decide as Hd; [|done]. injection H as <- <-.
  assert (Hle : Z.to_nat len ≤ length (remaining r1)) by (rewrite length_remaining; int_lia).
  unfold frame. rewrite length_take, Nat.min_l, Z2Nat.id by int_lia.
  rewrite <-app_assoc, Hrem. split.
  - f_equal. rewrite <-(take_drop (Z.to_nat len) (remaining r1)) at 1. f_equal.
    replace (Z.to_nat (Z.of_nat (rpos r1) + len)) with (rpos r1 + Z.to_nat len) by int_lia.
    by rewrite remaining_advance.
  - simpl. rewrite length_app, length_take, Nat.min_l, Nat.add_assoc, <-Hpos by done. int_lia.
Qed.

Lemma read_int_range r v r' : reader_ok r → read_int r = (Ok v, r') → i64_ok v.
Proof.
  intros _ H. unfold read_int in H. apply ST_bind_Ok in H as (v' & r1 & _ & H).
  unfold ST_lift in H. injection H as H _.
  by apply ok_or_Ok, checked_Some in H as [-> ?].
Qed.

(** A reader that reads every encoding, only encodings, and only values in
    range, succeeds exactly on them. *)
Lemma reads_exact {A} (rd : Reader A) (enc : A → bytes) (ok : A → Prop) r r' a :
  (∀ a, ok a → reads rd (enc a) a) → reader_safe rd → reads_only rd enc →
  (∀ r a r', reader_ok r → rd r = (Ok a, r') → ok a) →
  reader_ok r →
  rd r = (Ok a, r') ↔
  ok a ∧ r' = mkReader (rbuf r) (rpos r + length (enc a)) ∧
  ∃ rest, remaining r = enc a ++ rest.
Proof.
  intros Hr Hs Ho Hw Hok. split.
  - intros H. destruct (Ho _ _ _ Hok H) as [Hrem Hp].
    destruct (Hs r Hok) as (_ & Hb & _). rewrite H in Hb. simpl in Hb.
    split_and!; [by eapply Hw|destruct r'; simpl in *; congruence|by eexists].
  - intros (Ha & -> & rest & Hrest). by eapply Hr.
Qed.

(** Reading is exact and stays inside the buffer. Each reader succeeds
    precisely on the bytes its writer produces, consuming exactly those; when it
    fails it leaves the position inside the buffer, so that no later slice can be
    out of range. *)
Theorem canon_reader_exact (r r' : CanonReader) :
  reader_ok r →
  (∀ v, read_uint r = (Ok v, r') ↔
     u64_ok v ∧ r' = mkReader (rbuf r) (rpos r + length (encode_uint v)) ∧
     ∃ rest, remaining r = encode_uint v ++ rest) ∧
  (∀ v, read_int r = (Ok v, r') ↔
     i64_ok v ∧ r' = mkReader (rbuf r) (rpos r + length (encode_int v)) ∧
     ∃ rest, remaining r = encode_int v ++ rest) ∧
  (∀ b, read_bytes r = (Ok b, r') ↔
     r' = mkReader (rbuf r) (rpos r + length (frame b)) ∧
     ∃ rest, remaining r = frame b ++ rest) ∧
  (∀ e, read_uint r = (Err e, r') ∨ read_int r = (Err e, r') ∨ read_bytes r = (Err e, r') →
     reader_ok r' ∧ rbuf r' = rbuf r).
Proof.
  intros Hok. split_and!.
  - intros v. apply (reads_exact _ _ u64_ok); [apply read_uint_reads|apply reader_safe_uint|
      apply read_uint_only|intros ???; apply read_uint_range|done].
  - intros v. apply (reads_exact _ _ i64_ok); [apply read_int_reads|apply reader_safe_int|
      apply read_int_only|intros ???; apply read_int_range|done].
  - intros b. rewrite (reads_exact read_bytes frame (λ b, Z.of_nat (length b) < 2^63)%Z).
    + split; [intuition|]. intros (-> & rest & Hrest). split_and!; [|done|by exists rest].
      destruct Hok as (_ & _ & Hl). pose proof (length_remaining r) as Hr.
      rewrite Hrest in Hr. unfold frame in Hr. rewrite !length_app in Hr. lia.
    + intros c Hc. apply read_bytes_reads. int_lia.
    + apply reader_safe_bytes.
    + apply read_bytes_only.
    + intros r0 c r1 Hok0 Hc. destruct (read_bytes_only _ _ _ Hok0 Hc) as [Hrem _].
      destruct Hok0 as (_ & _ & Hl). pose proof (length_remaining r0) as Hr.
      rewrite Hrem in Hr. unfold frame in Hr. rewrite !length_app in Hr. lia.
    + done.
  - intros e [H|[H|H]].
    + destruct (reader_safe_uint r Hok) as (? & ? & _). rewrite H in *. done.
    + destruct (reader_safe_int r Hok) as (? & ? & _). rewrite H in *. done.
    + destruct (reader_safe_bytes r Hok) as (? & ? & _). rewrite H in *. done.
Qed.

Lemma canon_reader_exact_witness :
  read_bytes (reader_new [1; 2; 9; 8; 5]%Z) = (Ok [9; 8]%Z, mkReader [1; 2; 9; 8; 5]%Z 4).
Proof.
  assert (reader_ok (reader_new [1; 2; 9; 8; 5]%Z)) as Hok
    by (split_and!; [simpl; lia|repeat constructor; done|simpl; int_lia]).
  apply (proj1 (proj2 (proj2 (canon_reader_exact _ _ Hok)))).
  split; [reflexivity|exists [5%Z]; reflexivity].
Defined.
