(* ===== verification/CanonLaws.v ===== *)
(** What canonical encoding promises (src/crates/brix-canon/src/lib.rs).

    [Canonical] is the trait, with its instances for the containers.
    [PrefixFree] is the interface the hashing layers are proved against: the
    encodings of two values, whatever follows them, agree only when the values
    do. The unordered forms ([write_set], [write_map], [write_bag],
    [write_record]) are functions of the collection they stand for, and determine
    it. *)
From S2P Require Import Prelude IntCodec Canon.

Class Canonical (A : Type) := canon_write : A → CanonWriter → CanonWriter.
#[export] Hint Mode Canonical ! : typeclass_instances.

Definition canon_bytes {A} `{Canonical A} (a : A) : bytes := canon_write a [].

Definition canon_digest `{Blake3} {A} `{Canonical A} (a : A) (d : Domain) : Digest :=
  digest_of d (canon_bytes a).

#[export] Instance Canonical_list {A} `{Canonical A} : Canonical (list A) := λ l,
  write_list (canon_bytes <$> l).
#[export] Instance Canonical_option {A} `{Canonical A} : Canonical (option A) := λ o w,
  match o with
  | None => write_uint 0 w
  | Some v => w |> write_uint 1 |> canon_write v
  end.
#[export] Instance Canonical_gset {A} `{Countable A} `{Canonical A} : Canonical (gset A) := λ s,
  write_set (canon_bytes <$> elements s).
#[export] Instance Canonical_gmap {K V} `{Countable K} `{Canonical K} `{Canonical V} :
  Canonical (gmap K V) := λ m,
  write_map ((λ e : K * V, (canon_bytes e.1, canon_bytes e.2)) <$> map_to_list m).

(** Writing appends, and what is appended does not depend on the writer. *)
Class CanonAppends (A : Type) `{Canonical A} : Prop :=
  canon_appends (a : A) w : canon_write a w = w ++ canon_bytes a.

Lemma canon_appends_of {A} `{Canonical A} (enc : A → bytes) :
  (∀ a w, canon_write a w = w ++ enc a) → CanonAppends A ∧ ∀ a : A, canon_bytes a = enc a.
Proof.
  intros Hw. assert (∀ a : A, canon_bytes a = enc a) as Hb.
  { intros a. unfold canon_bytes. by rewrite Hw. }
  split; [|done]. intros a w. by rewrite Hb, Hw.
Qed.

#[export] Instance CanonAppends_list {A} `{Canonical A} : CanonAppends (list A).
Proof. apply (canon_appends_of (λ l, frames (canon_bytes <$> l))). intros. apply write_list_app. Qed.

#[export] Instance CanonAppends_option {A} `{CanonAppends A} : CanonAppends (option A).
Proof.
  apply (canon_appends_of (λ o, match o with
    | None => encode_uint 0 | Some v => encode_uint 1 ++ canon_bytes v end)).
  intros [a|] w; [|done]. unfold canon_write, Canonical_option, write_uint.
  by rewrite (canon_appends (A:=A)), app_assoc.
Qed.

(** ** Self-delimiting encodings *)

Class PrefixFree {A} (wf : A → Prop) (enc : A → bytes) : Prop :=
  prefix_free x y r1 r2 :
    wf x → wf y → enc x ++ r1 = enc y ++ r2 → x = y ∧ r1 = r2.

(** Lengths a [Vec] can have. *)
Definition len_ok {A} (l : list A) : Prop := (Z.of_nat (length l) < 2^63)%Z.

Lemma frame_are_bytes b : are_bytes b → len_ok b → are_bytes (frame b).
Proof.
  intros Hb Hl. unfold frame. apply Forall_app. split; [|done].
  apply encode_uint_are_bytes. unfold len_ok in Hl. int_lia.
Qed.

#[export] Instance prefix_free_uint : PrefixFree u128_ok encode_uint.
Proof. intros x y r1 r2 Hx Hy H. by apply encode_uint_prefix in H. Qed.

#[export] Instance prefix_free_uint64 : PrefixFree u64_ok encode_uint.
Proof. intros x y r1 r2 Hx Hy H. apply encode_uint_prefix in H; [done|int_lia..]. Qed.

#[export] Instance prefix_free_int : PrefixFree i128_ok encode_int.
Proof. intros x y r1 r2 Hx Hy H. by apply encode_int_prefix in H. Qed.

#[export] Instance prefix_free_frame : PrefixFree len_ok frame.
Proof.
  unfold len_ok, frame. intros x y r1 r2 Hx Hy H. rewrite <-!app_assoc in H.
  apply encode_uint_prefix in H as [Hl H]; [|int_lia..].
  apply app_inj_1 in H as [-> ->]; [done|lia].
Qed.

#[export] Instance prefix_free_pair {A B} wfA wfB (eA : A → bytes) (eB : B → bytes)
    `{!PrefixFree wfA eA} `{!PrefixFree wfB eB} :
  PrefixFree (λ p, wfA p.1 ∧ wfB p.2) (λ p, eA p.1 ++ eB p.2).
Proof.
  intros [a1 b1] [a2 b2] r1 r2 [Ha1 Hb1] [Ha2 Hb2] H. simpl in *.
  rewrite <-!app_assoc in H.
  apply prefix_free in H as [-> H]; [|done..].
  by apply prefix_free in H as [-> ->].
Qed.

(** A count followed by the items. *)
Definition enc_list {A} (enc : A → bytes) (l : list A) : bytes :=
  encode_uint (Z.of_nat (length l)) ++ concat (enc <$> l).

#[export] Instance prefix_free_list {A} wf (enc : A → bytes) `{!PrefixFree wf enc} :
  PrefixFree (λ l, len_ok l ∧ Forall wf l) (enc_list enc).
Proof.
  unfold len_ok, enc_list. intros l1 l2 r1 r2 [Hl1 Hw1] [Hl2 Hw2] H.
  rewrite <-!app_assoc in H. apply encode_uint_prefix in H as [Hl H]; [|int_lia..].
  apply Nat2Z.inj in Hl. clear Hl1 Hl2. revert l2 Hl Hw2 H.
  induction Hw1 as [|x l1 Hx _ IH]; intros [|y l2] Hl Hw2 H; simplify_eq/=; [done|].
  apply Forall_cons in Hw2 as [Hy Hw2]. rewrite <-!app_assoc in H.
  apply prefix_free in H as [-> H]; [|done..].
  by destruct (IH l2 Hl Hw2 H) as [-> ->].
Qed.

#[export] Instance prefix_free_frames :
  PrefixFree (λ l, len_ok l ∧ Forall len_ok l) frames.
Proof. apply (prefix_free_list len_ok frame). Qed.

Lemma prefix_free_inj {A} wf (enc : A → bytes) `{!PrefixFree wf enc} x y :
  wf x → wf y → enc x = enc y → x = y.
Proof.
  intros Hx Hy H. destruct (prefix_free x y [] [] Hx Hy); [|done]. by rewrite !app_nil_r.
Qed.

(** Peels a prefix-free component off both sides of [H]; side conditions stay. *)
Ltac canon_peel H :=
  rewrite <-?app_assoc in H;
  first [ apply prefix_free_frame in H
        | apply prefix_free_uint in H
        | apply prefix_free_int in H ];
  [ destruct H as [? H] | .. ].

(** ** The unordered forms *)

(** The map a sequence of insertions builds. *)
Definition map_of (l : list (bytes * bytes)) : gmap bytes bytes :=
  fold_left (λ m e, <[e.1:=e.2]> m) l ∅.

Lemma set_items_elem l x : x ∈ set_items l ↔ x ∈ l.
Proof.
  unfold set_items, dedup, sort.
  pose proof (dedup_by_keys (A := bytes) id (sort_by cmp l) x) as H.
  rewrite !list_fmap_id in H. rewrite H. by rewrite sort_by_perm.
Qed.

Lemma set_items_sorted l : strictly_sorted (set_items l).
Proof.
  pose proof (sort_by_sorted (A := bytes) id l) as Hs.
  pose proof (dedup_by_strict (A := bytes) id (sort l)) as H. rewrite !list_fmap_id in H.
  apply H. rewrite list_fmap_id in Hs. exact Hs.
Qed.

Lemma set_items_eq l1 l2 : set_items l1 = set_items l2 ↔ ∀ x, x ∈ l1 ↔ x ∈ l2.
Proof.
  split.
  - intros H x. by rewrite <-(set_items_elem l1), H, set_items_elem.
  - intros H. apply strictly_sorted_unique; [apply set_items_sorted..|].
    intros x. by rewrite !set_items_elem.
Qed.

Lemma map_of_snoc l k v : map_of (l ++ [(k, v)]) = <[k:=v]> (map_of l).
Proof. unfold map_of. by rewrite fold_left_app. Qed.

Lemma map_of_last l k :
  map_of l !! k = snd <$> head (filter (λ e, e.1 = k) (reverse l)).
Proof.
  induction l as [|[k' v] l IH] using rev_ind; [done|].
  rewrite map_of_snoc, reverse_snoc, filter_cons. cbn [fst].
  destruct (decide (k' = k)) as [ ->|Hne].
  - by rewrite lookup_insert_eq.
  - by rewrite lookup_insert_ne.
Qed.

Lemma map_items_elem l k v : (k, v) ∈ map_items l ↔ map_of l !! k = Some v.
Proof.
  unfold map_items. rewrite elem_of_reverse.
  rewrite (@dedup_by_first _ _ cmp_flip OrdLaws_flip fst).
  - cbn [fst]. rewrite filter_reverse, sort_by_stable, <-filter_reverse, map_of_last.
    + destruct (head _) as [[k' v']|] eqn:E; simpl; [|done].
      apply head_Some_elem_of, list_elem_of_filter in E as [Hk _]. simpl in Hk. naive_solver.
    + intros y z Hy Hz. unfold cmp_on. rewrite Hy, Hz. apply cmp_refl.
  - rewrite fmap_reverse. apply StronglySorted_reverse, sort_by_sorted.
Qed.

Lemma map_items_sorted l : strictly_sorted (fst <$> map_items l).
Proof.
  unfold map_items. rewrite fmap_reverse.
  apply (StronglySorted_reverse (@lt_of _ cmp_flip)).
  apply (@dedup_by_strict _ _ cmp_flip OrdLaws_flip fst).
  rewrite fmap_reverse. apply StronglySorted_reverse, sort_by_sorted.
Qed.

(** Lists with strictly sorted keys are determined by their entries. *)
Lemma sorted_entries_unique {K V} `{OrdLaws K} (l1 l2 : list (K * V)) :
  strictly_sorted (fst <$> l1) → strictly_sorted (fst <$> l2) →
  (∀ k v, (k, v) ∈ l1 ↔ (k, v) ∈ l2) → l1 = l2.
Proof.
  intros Hs1 Hs2 Heq.
  assert (fst <$> l1 = fst <$> l2) as Hf.
  { apply strictly_sorted_unique; [done..|]. intros k. rewrite !list_elem_of_fmap.
    split; intros ([k' v] & -> & Hin); exists (k', v); naive_solver. }
  clear Hs2. revert l2 Hf Heq.
  induction l1 as [|[k v] l1 IH]; intros [|[k2 v2] l2] Hf Heq; simplify_eq/=; [done|].
  apply StronglySorted_inv in Hs1 as [Hs1 Hk].
  assert (∀ w (l : list (K * V)), fst <$> l = fst <$> l1 → (k2, w) ∉ l) as Hnin.
  { intros w l Hl Hin. rewrite <-Hl, Forall_forall in Hk.
    eapply (cmp_lt_irrefl k2), Hk. by apply (list_elem_of_fmap_2 fst) in Hin. }
  assert (v2 = v) as ->.
  { assert ((k2, v) ∈ (k2, v2) :: l2) as [?|?]%elem_of_cons by (apply Heq; set_solver);
      [congruence|]. exfalso. by eapply Hnin; [|done]. }
  f_equal. apply IH; [done..|]. intros k w.
  specialize (Heq k w). rewrite !elem_of_cons in Heq.
  split; intros Hin.
  - destruct Heq as [[[= -> ->]|?] _]; [by right|exfalso|done]. by eapply (Hnin _ l1).
  - destruct Heq as [_ [[= -> ->]|?]]; [by right|exfalso|done]. by eapply (Hnin _ l2).
Qed.

Lemma map_items_eq l1 l2 : map_items l1 = map_items l2 ↔ map_of l1 = map_of l2.
Proof.
  split.
  - intros H. apply map_eq. intros k. apply option_eq. intros v.
    by rewrite <-!map_items_elem, H.
  - intros H. apply sorted_entries_unique; [apply map_items_sorted..|].
    intros k v. by rewrite !map_items_elem, H.
Qed.

(** Multiplicities. *)
Definition occurrences (l : list bytes) (x : bytes) : nat := length (filter (x =.) l).

Lemma bag_counts_snoc l x :
  bag_counts (l ++ [x]) = <[x := (default 0 (bag_counts l !! x) + 1)%Z]> (bag_counts l).
Proof. unfold bag_counts. by rewrite fold_left_app. Qed.

Lemma occurrences_0 (x : bytes) l : x ∉ l → filter (x =.) l = [].
Proof.
  induction l as [|y l IH]; [done|]. rewrite not_elem_of_cons, filter_cons.
  intros [Hy Hl]. rewrite decide_False by done. by apply IH.
Qed.

Lemma bag_counts_lookup l x :
  bag_counts l !! x =
    if decide (x ∈ l) then Some (Z.of_nat (occurrences l x)) else None.
Proof.
  unfold occurrences. induction l as [|y l IH] using rev_ind; [done|].
  rewrite bag_counts_snoc, filter_app, filter_cons, filter_nil.
  destruct (decide (x = y)) as [ ->|Hne].
  - rewrite lookup_insert_eq, decide_True by set_solver. rewrite length_app, IH. simpl.
    case_decide as Hin; simpl; f_equal; [lia|].
    by rewrite occurrences_0.
  - rewrite lookup_insert_ne, IH by done. rewrite app_nil_r.
    destruct (decide (x ∈ l)) as [Hin|Hin];
      [rewrite decide_True by set_solver|rewrite decide_False by set_solver]; done.
Qed.

Lemma bag_counts_eq l1 l2 : bag_counts l1 = bag_counts l2 ↔ l1 ≡ₚ l2.
Proof.
  split.
  - intros H. apply (Permutation_count_occ (decide_rel (=@{bytes}))). intros x.
    pose proof (f_equal (lookup x) H) as Hx. rewrite !bag_counts_lookup in Hx.
    assert (∀ l, count_occ (decide_rel (=@{bytes})) l x = occurrences l x) as Hc.
    { intros l. unfold occurrences. induction l as [|y l IH]; [done|].
      rewrite filter_cons. destruct (decide (x = y)) as [<-|Hne].
      - rewrite count_occ_cons_eq by done. simpl. by rewrite IH.
      - by rewrite count_occ_cons_neq by done. }
    rewrite !Hc.
    assert (∀ l, x ∉ l → occurrences l x = 0) as Hz.
    { intros l Hl. unfold occurrences. by rewrite occurrences_0. }
    repeat case_decide; simplify_eq; [lia|by rewrite !Hz].
  - intros H. apply map_eq. intros x. rewrite !bag_counts_lookup. unfold occurrences.
    assert (x ∈ l1 ↔ x ∈ l2) as Hin by (by rewrite H).
    assert (length (filter (x =.) l1) = length (filter (x =.) l2)) as -> by (by rewrite H).
    repeat case_decide; tauto.
Qed.

Lemma btree_iter_sorted {K V} `{Countable K} `{OrdLaws K} (m : gmap K V) :
  strictly_sorted (fst <$> btree_iter m).
Proof.
  assert (sorted (fst <$> btree_iter m)) as Hs by apply sort_by_sorted.
  assert (NoDup (fst <$> btree_iter m)) as Hn.
  { unfold btree_iter. rewrite sort_by_perm. apply NoDup_fst_map_to_list. }
  induction Hs as [|k l Hl IH Hk]; [constructor|].
  apply NoDup_cons in Hn as [Hkl Hn]. constructor; [by apply IH|].
  rewrite Forall_forall in *. intros x Hx.
  specialize (Hk x Hx). apply le_of_cases in Hk as [?| ->]; done.
Qed.

Lemma btree_iter_inj {K V} `{Countable K} `{OrdLaws K} (m1 m2 : gmap K V) :
  btree_iter m1 = btree_iter m2 → m1 = m2.
Proof.
  intros Heq. apply map_eq. intros k. apply option_eq. intros v.
  by rewrite <-!btree_iter_elem, Heq.
Qed.

Lemma length_btree_iter {K V} `{Countable K} `{Ord K} (m : gmap K V) :
  length (btree_iter m) = size m.
Proof. unfold btree_iter. by rewrite sort_by_perm, length_map_to_list. Qed.

Definition bag_entry (e : bytes * Z) : bytes := frame e.1 ++ encode_uint e.2.

Lemma write_bag_app l w :
  write_bag l w = w ++ enc_list bag_entry (btree_iter (bag_counts l)).
Proof.
  unfold write_bag, write_uint, enc_list.
  rewrite (write_each_app _ bag_entry), length_btree_iter, app_assoc; [done|].
  intros [e m] w'. unfold bag_entry. by rewrite write_bytes_app, app_assoc.
Qed.

Lemma dedup_by_sub {A} same (l : list A) :
  length (dedup_by same l) ≤ length l ∧ ∀ x, x ∈ dedup_by same l → x ∈ l.
Proof.
  destruct l as [|x l]; simpl; [done|].
  assert (length (dedup_from same x l) ≤ length l); [|split; [lia|]].
  2: { intros y. rewrite !elem_of_cons. intros [?|Hy]; [by left|right].
       by eapply dedup_from_elem. }
  revert x. induction l as [|y l IH]; intros x; simpl; [lia|].
  case_match; simpl; [specialize (IH x); lia|specialize (IH y); lia].
Qed.

(** Sizes for which the length prefixes are in range. *)
Definition entries_ok (l : list (bytes * bytes)) : Prop :=
  len_ok l ∧ Forall (λ e, len_ok e.1 ∧ len_ok e.2) l.

Lemma map_items_ok l : entries_ok l → entries_ok (map_items l).
Proof.
  intros [Hl Hf]. unfold map_items, entries_ok, len_ok in *.
  set (s := reverse (sort_by (cmp_on fst) l)).
  destruct (dedup_by_sub (λ a b : bytes * bytes, bool_decide (a.1 = b.1)) s) as [Hlen Hsub].
  assert (s ≡ₚ l) as Hp by (unfold s; by rewrite reverse_Permutation, sort_by_perm).
  split.
  - rewrite length_reverse. rewrite Hp in Hlen at 2. lia.
  - rewrite Forall_reverse. rewrite Forall_forall in *. intros e He. apply Hf.
    rewrite <-Hp. by apply Hsub.
Qed.

Lemma set_items_ok l :
  len_ok l → Forall len_ok l → len_ok (set_items l) ∧ Forall len_ok (set_items l).
Proof.
  intros Hl Hf. unfold len_ok in *. split.
  - unfold set_items, dedup. destruct (dedup_by_sub (λ x y : bytes, bool_decide (x = y)) (sort l))
      as [Hlen _]. unfold sort in *. rewrite (sort_by_perm cmp l) in Hlen at 2. lia.
  - rewrite Forall_forall in Hf. apply Forall_forall. intros x Hx. apply Hf. by apply set_items_elem.
Qed.

Definition bag_ok (l : list (bytes * Z)) : Prop :=
  len_ok l ∧ Forall (λ e, len_ok e.1 ∧ u64_ok e.2) l.

Lemma bag_counts_size l : size (bag_counts l) ≤ length l.
Proof.
  induction l as [|x l IH] using rev_ind; [done|].
  rewrite bag_counts_snoc, length_app. simpl. rewrite map_size_insert. destruct (bag_counts l !! x); simpl; lia.
Qed.

Lemma bag_entries_ok l :
  len_ok l → Forall len_ok l → bag_ok (btree_iter (bag_counts l)).
Proof.
  intros Hl Hf.
  assert (∀ e, e ∈ btree_iter (bag_counts l) →
    e.1 ∈ l ∧ (0 ≤ e.2 ≤ Z.of_nat (length l))%Z) as He.
  { intros [x m] Hx. apply btree_iter_elem in Hx. rewrite bag_counts_lookup in Hx.
    case_decide; simplify_eq/=. split; [done|].
    unfold occurrences. pose proof (length_filter (x =.) l). lia. }
  split.
  - unfold len_ok in *. rewrite length_btree_iter. pose proof (bag_counts_size l). lia.
  - rewrite Forall_forall in Hf. apply Forall_forall. intros e Hin. destruct (He e Hin) as [H1 H2].
    split; [by apply Hf|]. unfold len_ok in Hl. int_lia.
Qed.

Lemma write_map_inj l1 l2 w :
  entries_ok l1 → entries_ok l2 → write_map l1 w = write_map l2 w → map_of l1 = map_of l2.
Proof.
  intros H1 H2. rewrite !write_map_app, <-map_items_eq. intros H%app_inv_head.
  apply (prefix_free_inj _ (enc_list (λ e, frame e.1 ++ frame e.2)) _ _
           (map_items_ok _ H1) (map_items_ok _ H2) H).
Qed.

Lemma map_of_nodup l k v : NoDup l.*1 → map_of l !! k = Some v ↔ (k, v) ∈ l.
Proof.
  induction l as [|[k' v'] l IH] using rev_ind; intros Hnd.
  - unfold map_of. simpl. rewrite lookup_empty. by rewrite elem_of_nil.
  - rewrite fmap_app in Hnd. apply NoDup_app in Hnd as (Hnd & Hk & _).
    rewrite map_of_snoc, elem_of_app, list_elem_of_singleton.
    destruct (decide (k = k')) as [->|Hne].
    + rewrite lookup_insert_eq. split; [naive_solver|]. intros [Hin|Hin]; [|congruence].
      destruct (Hk k'); [|constructor]. by apply (list_elem_of_fmap_2 fst) in Hin.
    + rewrite lookup_insert_ne, IH by done. naive_solver.
Qed.

(** * Properties *)

(** The unordered encodings are canonical. The bytes of [write_set] are
    those of the set of its elements, the bytes of [write_map] those of the map
    with the last value of each key, the bytes of [write_bag] those of the
    multiset: two collections get the same bytes exactly when they are equal as
    such, in whatever order they are iterated. *)
Theorem unordered_forms_canonical w :
  (∀ l1 l2, len_ok l1 → Forall len_ok l1 → len_ok l2 → Forall len_ok l2 →
     write_set l1 w = write_set l2 w ↔ ∀ x, x ∈ l1 ↔ x ∈ l2) ∧
  (∀ l1 l2, entries_ok l1 → entries_ok l2 →
     write_map l1 w = write_map l2 w ↔ map_of l1 = map_of l2) ∧
  (∀ l1 l2, len_ok l1 → Forall len_ok l1 → len_ok l2 → Forall len_ok l2 →
     write_bag l1 w = write_bag l2 w ↔ l1 ≡ₚ l2).
Proof.
  split_and!.
  - intros l1 l2 Hl1 Hf1 Hl2 Hf2. rewrite !write_set_app, <-set_items_eq.
    split; [|by intros ->]. intros H%app_inv_head.
    by apply (prefix_free_inj _ _ _ _ (set_items_ok _ Hl1 Hf1) (set_items_ok _ Hl2 Hf2)).
  - intros l1 l2 H1 H2. rewrite !write_map_app, <-map_items_eq.
    split; [|by intros ->]. rewrite <-!write_map_app, map_items_eq. by apply write_map_inj.
  - intros l1 l2 Hl1 Hf1 Hl2 Hf2. rewrite !write_bag_app, <-bag_counts_eq.
    split; [|by intros ->]. intros H%app_inv_head. apply btree_iter_inj.
    exact (prefix_free_inj _ (enc_list bag_entry) _ _
             (bag_entries_ok _ Hl1 Hf1) (bag_entries_ok _ Hl2 Hf2) H).
Qed.

Lemma unordered_forms_canonical_witness :
  write_map [([1%Z], [2%Z]); ([0%Z], []); ([1%Z], [3%Z])] [] =
  write_map [([1%Z], [3%Z]); ([0%Z], [])] [].
Proof.
  apply (proj1 (proj2 (unordered_forms_canonical [])));
    [split; [unfold len_ok; simpl; int_lia|repeat constructor; unfold len_ok; simpl; int_lia]..|].
  vm_compute. reflexivity.
Defined.

(** An identity binds its content. Two typed identities with one digest were
    minted from the same canonical bytes in the same hash domain, or their two
    domain-separated messages are a BLAKE3 collision; in particular a node, an
    edge, a claim and a snapshot identity over one payload never agree otherwise. *)
Theorem identity_binds `{Blake3} (k1 k2 : IdKind) (p1 p2 : bytes) :
  digest (from_canon (k := k1) p1) = digest (from_canon (k := k2) p2) →
  (id_domain k1 = id_domain k2 ∧ p1 = p2) ∨
  collision (domain_message (id_domain k1) p1) (domain_message (id_domain k2) p2).
Proof. apply digest_of_binds. Qed.

Lemma identity_binds_witness :
  (id_domain KNode = id_domain KNode ∧ [7%Z] = [7%Z]) ∨
  @collision demo_hash (domain_message Node [7%Z]) (domain_message Node [7%Z]).
Proof. apply (@identity_binds demo_hash KNode KNode [7%Z] [7%Z]). reflexivity. Defined.
