(* ===== verification/Calendar.v ===== *)
(** The keyed calendar (src/crates/soc-core/src/calendar.rs).

    [Key] is the ordered triple, [Frontier] the unique-key deliberation map.
    [apply_delta] works in place under [RollbackOverlay], whose [Drop] undoes what
    was done unless the overlay was committed; [naive_apply_delta] is the
    code's own reference, which copies the map. *)
From S2P Require Import Prelude IntCodec Canon CanonLaws.

Record Key : Type := mkKey {
  phase : Z;
  priority : Z;
  tiebreak : Digest
}.

#[export] Instance Key_eq_dec : EqDecision Key.
Proof. solve_decision. Defined.

(** The fields in declaration order, the order of the derived [Ord]. *)
Definition key_fields (k : Key) : Z * (Z * Digest) := (phase k, (priority k, tiebreak k)).

#[export] Instance key_fields_inj : Inj (=) (=) key_fields.
Proof. intros [] []; unfold key_fields; simpl. congruence. Qed.
#[export] Instance Key_countable : Countable Key.
Proof.
  apply (inj_countable' key_fields (λ f, mkKey f.1 f.2.1 f.2.2)). by intros [].
Defined.
#[export] Instance Ord_Key : Ord Key := cmp_on key_fields.
#[export] Instance OrdLaws_Key : OrdLaws Key := OrdLaws_on key_fields.

Definition key_ok (k : Key) : Prop :=
  u64_ok (phase k) ∧ u64_ok (priority k) ∧ digest_ok (tiebreak k).

#[export] Instance Canonical_Key : Canonical Key := λ k w,
  w |> write_uint (phase k) |> write_uint (priority k) |> write_bytes (as_bytes (tiebreak k)).

Definition read_key : Reader Key :=
  phase ← read_uint;
  priority ← read_uint;
  tiebreak_bytes ← read_bytes;
  if decide (length tiebreak_bytes ≠ 32) then ST_throw BadLength
  else mret (mkKey phase priority (mkDigest tiebreak_bytes)).

Record KeyConflict (V : Type) : Type := mkConflict {
  conflict_key : Key;
  existing : V;
  attempted : V
}.
Arguments mkConflict {V}.

Inductive FrontierDeltaError (V : Type) : Type :=
  | RemoveMissing (k : Key)
  | RemoveMismatch (c : KeyConflict V)
  | InsertConflict (c : KeyConflict V).
Arguments RemoveMissing {V}.
Arguments RemoveMismatch {V}.
Arguments InsertConflict {V}.

Inductive UndoAction (V : Type) : Type :=
  | Reinsert (k : Key) (v : V)
  | UndoRemove (k : Key).
Arguments Reinsert {V}.
Arguments UndoRemove {V}.

(** The overlay borrows the frontier's map: its [entries] are the live ones. *)
Record RollbackOverlay (V : Type) : Type := mkOverlay {
  live : gmap Key V;
  undo_log : list (UndoAction V);
  committed : bool
}.
Arguments mkOverlay {V}.
Arguments live {V}.
Arguments undo_log {V}.
Arguments committed {V}.

Definition overlay_new {V} (entries : gmap Key V) : RollbackOverlay V :=
  mkOverlay entries [] false.

Definition overlay_commit {V} (o : RollbackOverlay V) : RollbackOverlay V :=
  mkOverlay (live o) [] true.

Definition undo {V} (a : UndoAction V) (m : gmap Key V) : gmap Key V :=
  match a with
  | Reinsert k v => <[k:=v]> m
  | UndoRemove k => delete k m
  end.

(** [Drop]: the log is popped from its end. *)
Definition overlay_drop {V} (o : RollbackOverlay V) : gmap Key V :=
  if committed o then live o
  else fold_left (λ m a, undo a m) (reverse (undo_log o)) (live o).

Record Frontier (V : Type) : Type := mkFrontier { entries : gmap Key V }.
Arguments mkFrontier {V}.
Arguments entries {V}.

Definition frontier_new {V} : Frontier V := mkFrontier ∅.
Definition len {V} (f : Frontier V) : nat := size (entries f).
Definition is_empty {V} (f : Frontier V) : bool := bool_decide (size (entries f) = 0).
Definition peek_least {V} (f : Frontier V) : option (Key * V) := head (btree_iter (entries f)).

Definition select_least {V} (f : Frontier V) : option (Key * V) * Frontier V :=
  match peek_least f with
  | None => (None, f)
  | Some (k, v) => (Some (k, v), mkFrontier (delete k (entries f)))
  end.

Section frontier.
Context {V : Type} `{EqDecision V}.
Implicit Types (f : Frontier V) (m : gmap Key V) (o : RollbackOverlay V).

Definition insert f (key : Key) (value : V) : result (KeyConflict V) bool * Frontier V :=
  match entries f !! key with
  | None => (Ok true, mkFrontier (<[key:=value]> (entries f)))
  | Some existing =>
    if decide (existing = value) then (Ok false, f)
    else (Err (mkConflict key existing value), f)
  end.

(** One iteration of the removal loop, and of the addition loop. *)
Definition remove_one (key : Key) (expected : V) :
    ST (RollbackOverlay V) (FrontierDeltaError V) unit := λ o,
  match live o !! key with
  | Some v =>
    if decide (v = expected) then
      (Ok tt, mkOverlay (delete key (live o)) (undo_log o ++ [Reinsert key v]) (committed o))
    else (Err (RemoveMismatch (mkConflict key v expected)), o)
  | None => (Err (RemoveMissing key), o)
  end.

Definition add_one (key : Key) (value : V) :
    ST (RollbackOverlay V) (FrontierDeltaError V) unit := λ o,
  match live o !! key with
  | None =>
    (Ok tt, mkOverlay (<[key:=value]> (live o)) (undo_log o ++ [UndoRemove key]) (committed o))
  | Some v =>
    if decide (v = value) then (Ok tt, o)
    else (Err (InsertConflict (mkConflict key v value)), o)
  end.

(** [for (key, value) in l { ..? }]. *)
Fixpoint for_each {S E} (step : Key → V → ST S E unit) (l : list (Key * V)) : ST S E unit :=
  match l with
  | [] => mret tt
  | (k, v) :: l' => step k v ;; for_each step l'
  end.

Definition apply_delta f (removals additions : list (Key * V)) :
    result (FrontierDeltaError V) unit * Frontier V :=
  match (for_each remove_one removals ;; for_each add_one additions)
          (overlay_new (entries f)) with
  | (Ok _, o) => (Ok tt, mkFrontier (overlay_drop (overlay_commit o)))
  | (Err e, o) => (Err e, mkFrontier (overlay_drop o))
  end.

Definition naive_remove_one (key : Key) (expected : V) :
    ST (gmap Key V) (FrontierDeltaError V) unit := λ staged,
  match staged !! key with
  | Some v =>
    if decide (v = expected) then (Ok tt, delete key staged)
    else (Err (RemoveMismatch (mkConflict key v expected)), staged)
  | None => (Err (RemoveMissing key), staged)
  end.

Definition naive_add_one (key : Key) (value : V) :
    ST (gmap Key V) (FrontierDeltaError V) unit := λ staged,
  match staged !! key with
  | None => (Ok tt, <[key:=value]> staged)
  | Some v =>
    if decide (v = value) then (Ok tt, staged)
    else (Err (InsertConflict (mkConflict key v value)), staged)
  end.

Definition naive_apply_delta f (removals additions : list (Key * V)) :
    result (FrontierDeltaError V) unit * Frontier V :=
  match (for_each naive_remove_one removals ;; for_each naive_add_one additions) (entries f) with
  | (Ok _, staged) => (Ok tt, mkFrontier staged)
  | (Err e, _) => (Err e, f)
  end.

(** The overlay over [m0]: undoing its log gives [m0] back. *)
Definition undoes_to m0 o : Prop :=
  committed o = false ∧ overlay_drop o = m0.

(** The in-place step follows the step on the copy and stays undoable. *)
Definition follows (step : ST (RollbackOverlay V) (FrontierDeltaError V) unit)
    (naive : ST (gmap Key V) (FrontierDeltaError V) unit) : Prop :=
  ∀ m0 o, undoes_to m0 o →
  (step o).1 = (naive (live o)).1 ∧ live (step o).2 = (naive (live o)).2 ∧
  undoes_to m0 (step o).2.

Lemma overlay_drop_snoc m l a :
  overlay_drop (mkOverlay m (l ++ [a]) false) = overlay_drop (mkOverlay (undo a m) l false).
Proof. unfold overlay_drop. simpl. by rewrite reverse_snoc. Qed.

Lemma remove_one_follows k v : follows (remove_one k v) (naive_remove_one k v).
Proof.
  intros m0 [m l c] [Hc Hd]; simpl in Hc; subst c. unfold remove_one, naive_remove_one; simpl.
  destruct (m !! k) as [w|] eqn:E; [|done]. case_decide; [|done].
  split_and!; [done..|]. split; [done|]. simpl. rewrite overlay_drop_snoc. simpl.
  by rewrite insert_delete_id.
Qed.

Lemma add_one_follows k v : follows (add_one k v) (naive_add_one k v).
Proof.
  intros m0 [m l c] [Hc Hd]; simpl in Hc; subst c. unfold add_one, naive_add_one; simpl.
  destruct (m !! k) as [w|] eqn:E; [by case_decide|].
  split_and!; [done..|]. split; [done|]. simpl. rewrite overlay_drop_snoc. simpl.
  by rewrite delete_insert_id.
Qed.

Lemma follows_bind (s1 s2 : ST (RollbackOverlay V) (FrontierDeltaError V) unit)
    (n1 n2 : ST (gmap Key V) (FrontierDeltaError V) unit) :
  follows s1 n1 → follows s2 n2 → follows (s1 ;; s2) (n1 ;; n2).
Proof.
  intros H1 H2 m0 o Ho. destruct (H1 m0 o Ho) as (Hr & Hl & Hu).
  unfold mbind, ST_bind. destruct (s1 o) as [r o'], (n1 (live o)) as [r' m']; simpl in *.
  subst r' m'. destruct r as [[]|e]; [by apply H2|done].
Qed.

Lemma follows_for_each step naive l :
  (∀ k v, follows (step k v) (naive k v)) → follows (for_each step l) (for_each naive l).
Proof.
  intros Hs. induction l as [|[k v] l IH]; simpl; [by intros m0 o|].
  by apply follows_bind.
Qed.

(** ** The least key *)

Lemma peek_least_None f : peek_least f = None ↔ entries f = ∅.
Proof.
  unfold peek_least. destruct (btree_iter (entries f)) as [|[k v] l] eqn:E; simpl.
  - split; [|done]. intros _. apply map_eq. intros k. apply option_eq. intros v.
    rewrite <-btree_iter_elem, E, lookup_empty. set_solver.
  - split; [done|]. intros He.
    assert (entries f !! k = Some v) as Hk by (rewrite <-btree_iter_elem, E; set_solver).
    by rewrite He in Hk.
Qed.

Lemma peek_least_Some f k v :
  peek_least f = Some (k, v) ↔
  entries f !! k = Some v ∧ ∀ k' v', entries f !! k' = Some v' → k' = k ∨ lt_of k k'.
Proof.
  pose proof (btree_iter_sorted (entries f)) as Hs. unfold peek_least.
  destruct (btree_iter (entries f)) as [|[k0 v0] l] eqn:E; simpl.
  { split; [done|]. intros [Hk _]. rewrite <-btree_iter_elem, E in Hk. set_solver. }
  rewrite fmap_cons in Hs. apply StronglySorted_inv in Hs as [_ Hs]. rewrite Forall_forall in Hs.
  assert (entries f !! k0 = Some v0) as H0 by (rewrite <-btree_iter_elem, E; set_solver).
  assert (∀ k' v', entries f !! k' = Some v' → k' = k0 ∨ lt_of k0 k') as Hmin.
  { intros k' v' Hk'. rewrite <-btree_iter_elem, E in Hk'.
    apply elem_of_cons in Hk' as [[= -> ->]|Hk']; [by left|right].
    apply Hs. by apply (list_elem_of_fmap_2 fst) in Hk'. }
  split; [intros [= <- <-]; done|]. intros [Hk Hm].
  destruct (Hmin k v Hk) as [ ->|Hlt]; [congruence|].
  destruct (Hm k0 v0 H0) as [ ->|Hgt]; [congruence|].
  exfalso. apply (cmp_lt_irrefl k). by eapply cmp_lt_trans.
Qed.

(** ** What the loops accept *)

Lemma naive_removals_spec l m m' :
  for_each naive_remove_one l m = (Ok tt, m') ↔
  NoDup (fst <$> l) ∧ (∀ k v, (k, v) ∈ l → m !! k = Some v) ∧
  (∀ k, m' !! k = if decide (k ∈ fst <$> l) then None else m !! k).
Proof.
  revert m. induction l as [|[k v] l IH]; intros m.
  { cbn [for_each fmap]. unfold mret, ST_ret. split.
    - intros [= <-]. split_and!; [constructor|intros ?? Hin; by apply elem_of_nil in Hin|].
      intros k. case_decide as Hk; [by apply elem_of_nil in Hk|done].
    - intros (_ & _ & H). do 2 f_equal. apply map_eq. intros k. rewrite H.
      case_decide as Hk; [by apply elem_of_nil in Hk|done]. }
  cbn [for_each]. unfold mbind, ST_bind, naive_remove_one at 1.
  rewrite fmap_cons, NoDup_cons. cbn [fst].
  assert (¬ m !! k = Some v → ∀ X Y, (¬ (X ∧ (∀ k0 v0, (k0, v0) ∈ (k, v) :: l → m !! k0 = Some v0) ∧ Y))) as Hno.
  { intros Hk X Y (_ & Hm & _). apply Hk, Hm. set_solver. }
  destruct (m !! k) as [w|] eqn:E; [|split; [done|]; intros H; by apply Hno in H].
  case_decide as Hw; [|split; [done|]; intros H; apply Hno in H; [done|congruence]].
  subst w. rewrite IH. clear IH Hno. split.
  - intros (Hn & Hm & Hm'). split_and!; [|done| |].
    + intros Hin. apply list_elem_of_fmap in Hin as ([k0 v0] & -> & Hin).
      specialize (Hm _ _ Hin). by rewrite lookup_delete_eq in Hm.
    + intros k0 v0 [[= -> ->]|Hin]%elem_of_cons; [done|].
      specialize (Hm _ _ Hin). by apply lookup_delete_Some in Hm as [_ ?].
    + intros k0. rewrite Hm'. destruct (decide (k0 = k)) as [ ->|].
      * rewrite lookup_delete_eq, (decide_True (P := k ∈ k :: _)) by set_solver.
        by case_decide.
      * rewrite lookup_delete_ne by done. do 2 case_decide; set_solver.
  - intros ((Hk & Hn) & Hm & Hm'). split_and!; [done| |].
    + intros k0 v0 Hin. rewrite lookup_delete_ne; [apply Hm; set_solver|].
      intros ->. apply Hk. by apply (list_elem_of_fmap_2 fst) in Hin.
    + intros k0. rewrite Hm'. destruct (decide (k0 = k)) as [ ->|].
      * rewrite lookup_delete_eq, decide_True by set_solver. by case_decide.
      * rewrite lookup_delete_ne by done. do 2 case_decide; set_solver.
Qed.

Lemma naive_additions_spec l m m' :
  for_each naive_add_one l m = (Ok tt, m') ↔
  m ⊆ m' ∧ (∀ k v, (k, v) ∈ l → m' !! k = Some v) ∧
  (∀ k, k ∉ fst <$> l → m' !! k = m !! k).
Proof.
  revert m. induction l as [|[k v] l IH]; intros m.
  { cbn [for_each fmap]. unfold mret, ST_ret. split.
    - intros [= <-]. split_and!; [done|intros ?? Hin; by apply elem_of_nil in Hin|done].
    - intros (_ & _ & H). do 2 f_equal. apply map_eq. intros k. rewrite H; [done|].
      apply not_elem_of_nil. }
  cbn [for_each]. unfold mbind, ST_bind, naive_add_one at 1.
  rewrite fmap_cons. cbn [fst].
  destruct (m !! k) as [w|] eqn:E.
  - case_decide as Hw.
    + subst w. rewrite IH. split; intros (Hs & Hm & Hu); split_and!; [done| | |done| |].
      * intros k0 v0 [[= -> ->]|Hin]%elem_of_cons; [by eapply lookup_weaken|by apply Hm].
      * intros k0 Hk0. apply Hu. set_solver.
      * intros k0 v0 Hin. apply Hm. set_solver.
      * intros k0 Hk0. destruct (decide (k0 = k)) as [ ->|]; [|apply Hu; set_solver].
        rewrite E. by eapply lookup_weaken.
    + split; [done|]. intros (Hs & Hm & _). exfalso. apply Hw.
      apply (lookup_weaken _ _ _ _ E) in Hs. rewrite (Hm k v) in Hs by set_solver. congruence.
  - rewrite IH. split; intros (Hs & Hm & Hu); split_and!.
    + etrans; [|exact Hs]. by apply insert_subseteq.
    + intros k0 v0 [[= -> ->]|Hin]%elem_of_cons; [|by apply Hm].
      eapply lookup_weaken; [|exact Hs]. apply lookup_insert_eq.
    + intros k0 Hk0. rewrite Hu by set_solver. rewrite lookup_insert_ne; set_solver.
    + apply insert_subseteq_l; [|done]. apply Hm. set_solver.
    + intros k0 v0 Hin. apply Hm. set_solver.
    + intros k0 Hk0. destruct (decide (k0 = k)) as [ ->|].
      * rewrite lookup_insert_eq. apply Hm. set_solver.
      * rewrite lookup_insert_ne by done. apply Hu. set_solver.
Qed.

(** Popping until the frontier is empty. *)
Fixpoint drain (n : nat) f : list (Key * V) :=
  match n with
  | O => []
  | S n' =>
    match select_least f with
    | (None, _) => []
    | (Some e, f') => e :: drain n' f'
    end
  end.

Lemma btree_iter_delete_head (m : gmap Key V) k v l :
  btree_iter m = (k, v) :: l → btree_iter (delete k m) = l.
Proof.
  intros E. pose proof (btree_iter_sorted m) as Hs. rewrite E, fmap_cons in Hs.
  apply StronglySorted_inv in Hs as [Hs Hk]. rewrite Forall_forall in Hk.
  apply sorted_entries_unique; [apply btree_iter_sorted|done|]. intros k' v'.
  rewrite btree_iter_elem, lookup_delete_Some, <-btree_iter_elem, E, elem_of_cons.
  split; [naive_solver|]. intros Hin. split; [|by right]. intros <-.
  apply (list_elem_of_fmap_2 fst) in Hin. by apply (cmp_lt_irrefl k), Hk.
Qed.

Lemma apply_delta_naive f (removals additions : list (Key * V)) :
  apply_delta f removals additions = naive_apply_delta f removals additions.
Proof.
  unfold apply_delta, naive_apply_delta.
  destruct (follows_bind _ _ _ _
    (follows_for_each _ _ removals remove_one_follows)
    (follows_for_each _ _ additions add_one_follows)
    (entries f) (overlay_new (entries f))) as (Hr & Hl & Hc & Hd); [done|].
  cbn [overlay_new live] in *.
  destruct ((for_each remove_one removals ;; for_each add_one additions)
              (overlay_new (entries f))) as [r o],
    ((for_each naive_remove_one removals ;; for_each naive_add_one additions)
              (entries f)) as [r' m]; simpl in *.
  subst r' m. destruct r as [[]|e]; [done|]. rewrite Hd. by destruct f.
Qed.

End frontier.

(** * Properties *)

(** C18: [apply_delta] is atomic and implements the reference. Working in place
    with an undo log it returns what [naive_apply_delta] returns on a copy, with
    the same frontier; on every error the frontier is the one before the call. *)
Theorem apply_delta_refines {V} `{EqDecision V} (f : Frontier V) (removals additions : list (Key * V)) :
  apply_delta f removals additions = naive_apply_delta f removals additions ∧
  ∀ e f', apply_delta f removals additions = (Err e, f') → f' = f.
Proof.
  split; [apply apply_delta_naive|]. intros e f'. rewrite apply_delta_naive.
  unfold naive_apply_delta.
  destruct ((for_each naive_remove_one removals ;; for_each naive_add_one additions)
              (entries f)) as [[[]|e'] m]; congruence.
Qed.

(** What a successful [apply_delta] means. It succeeds with [f'] exactly when
    the removals name distinct keys bound to the expected values, every addition
    is bound in [f'], no binding that was kept changes, and every other key is as
    it was with the removals gone. *)
Theorem apply_delta_spec {V} `{EqDecision V} (f f' : Frontier V) (removals additions : list (Key * V)) :
  apply_delta f removals additions = (Ok tt, f') ↔
  NoDup (fst <$> removals) ∧
  (∀ k v, (k, v) ∈ removals → entries f !! k = Some v) ∧
  (∀ k v, (k, v) ∈ additions → entries f' !! k = Some v) ∧
  (∀ k v, k ∉ fst <$> removals → entries f !! k = Some v → entries f' !! k = Some v) ∧
  (∀ k, k ∉ fst <$> additions →
     entries f' !! k = if decide (k ∈ fst <$> removals) then None else entries f !! k).
Proof.
  rewrite apply_delta_naive. unfold naive_apply_delta, mbind, ST_bind. split.
  - destruct (for_each naive_remove_one removals (entries f)) as [[[]|e] m1] eqn:E1; [|done].
    destruct (for_each naive_add_one additions m1) as [[[]|e] m2] eqn:E2; [|done].
    intros [= <-]. cbn [entries].
    apply naive_removals_spec in E1 as (Hn & Hm & H1).
    apply naive_additions_spec in E2 as (Hs & Ha & H2).
    split_and!; [done..| |].
    + intros k v Hk Hv. eapply lookup_weaken; [|exact Hs]. rewrite H1. by rewrite decide_False.
    + intros k Hk. by rewrite H2, H1.
  - intros (Hn & Hm & Ha & Hk & Hu).
    set (m1 := filter (λ e : Key * V, e.1 ∉ fst <$> removals) (entries f)).
    assert (∀ k, m1 !! k = if decide (k ∈ fst <$> removals) then None else entries f !! k) as Hm1.
    { intros k. unfold m1. rewrite map_lookup_filter.
      destruct (entries f !! k); simpl; repeat case_guard || case_decide; done. }
    rewrite (proj2 (naive_removals_spec removals (entries f) m1)) by done.
    rewrite (proj2 (naive_additions_spec additions m1 (entries f'))); [by destruct f'|].
    split_and!; [|done|].
    + apply map_subseteq_spec. intros k v. rewrite Hm1. case_decide; [done|]. by apply Hk.
    + intros k Hk'. rewrite Hm1. by apply Hu.
Qed.

(** C30: [select_least] is [select_K]: it pops the unique least key, fails only on
    the empty frontier, and popping until it fails enumerates every entry once, in
    strictly increasing key order. *)
Theorem select_least_spec {V} (f : Frontier V) :
  (select_least f = (None, f) ↔ entries f = ∅) ∧
  (∀ k v f', select_least f = (Some (k, v), f') ↔
     entries f !! k = Some v ∧
     (∀ k' v', entries f !! k' = Some v' → k' = k ∨ lt_of k k') ∧
     f' = mkFrontier (delete k (entries f))) ∧
  drain (len f) f = btree_iter (entries f) ∧
  strictly_sorted (fst <$> btree_iter (entries f)).
Proof.
  unfold select_least. split_and!.
  - rewrite <-peek_least_None. destruct (peek_least f) as [[k v]|]; naive_solver.
  - intros k v f'. pose proof (peek_least_Some f k v) as Hp.
    destruct (peek_least f) as [[k0 v0]|]; split.
    + intros [= -> -> <-]. by destruct Hp as [[? ?] _].
    + intros (Hk & Hm & ->). destruct Hp as [_ Hp]. by injection (Hp (conj Hk Hm)) as -> ->.
    + done.
    + intros (Hk & Hm & _). by destruct Hp as [_ Hp]; specialize (Hp (conj Hk Hm)).
  - unfold len. rewrite <-length_btree_iter. remember (btree_iter (entries f)) as l eqn:E.
    symmetry in E. revert f E. induction l as [|[k v] l IH]; intros f E; [done|].
    cbn [drain length]. unfold select_least, peek_least. rewrite E. cbn [head]. f_equal.
    apply IH. cbn [entries]. by eapply btree_iter_delete_head.
  - apply btree_iter_sorted.
Qed.
