(* ===== verification/Outcome.v ===== *)
(** The epistemic outcome lattice (src/crates/brix-semantic/src/outcome.rs). *)
From S2P Require Import Prelude IntCodec Canon CanonLaws.

Inductive Outcome : Type := Proven | Refuted | Derived | Measured | Unknown | Audited.

Inductive Authority : Type :=
  ProofKernel | SettlementKernel | ExternalDriver | AnyResolver | AuditChecker.

#[export] Instance Outcome_eq_dec : EqDecision Outcome.
Proof. solve_decision. Defined.
#[export] Instance Authority_eq_dec : EqDecision Authority.
Proof. solve_decision. Defined.

Definition authority (o : Outcome) : Authority :=
  match o with
  | Proven | Refuted => ProofKernel
  | Derived => SettlementKernel
  | Measured => ExternalDriver
  | Unknown => AnyResolver
  | Audited => AuditChecker
  end.

Definition is_theorem (o : Outcome) : bool :=
  match o with Proven | Refuted => true | _ => false end.

Definition is_bottom (o : Outcome) : bool := match o with Unknown => true | _ => false end.

Definition ordinal (o : Outcome) : Z :=
  match o with
  | Proven => 0 | Refuted => 1 | Derived => 2 | Measured => 3 | Unknown => 4 | Audited => 5
  end.

#[export] Instance Canonical_Outcome : Canonical Outcome := λ o, write_enum (ordinal o) id.

Definition spine_rank (o : Outcome) : option Z :=
  match o with
  | Unknown => Some 0%Z | Measured => Some 1%Z | Derived => Some 2%Z | Audited => Some 3%Z
  | Proven | Refuted => None
  end.

Definition lattice_le (a b : Outcome) : bool :=
  match spine_rank a, spine_rank b with
  | Some x, Some y => (x <=? y)%Z
  | Some _, None => true
  | None, Some _ => false
  | None, None => match a, b with Proven, Proven | Refuted, Refuted => true | _, _ => false end
  end.

(** * Properties *)

(** The outcomes form a bounded partial order with the intended shape.
    [lattice_le] is reflexive, transitive and antisymmetric; [Unknown] is its least
    element; the only incomparable outcomes are [Proven] and [Refuted], and these
    are the only ones strictly above [Audited]; an outcome the proof kernel may
    publish is exactly a theorem. *)
Theorem outcome_lattice :
  (∀ a, lattice_le a a = true) ∧
  (∀ a b c, lattice_le a b = true → lattice_le b c = true → lattice_le a c = true) ∧
  (∀ a b, lattice_le a b = true → lattice_le b a = true → a = b) ∧
  (∀ a, lattice_le Unknown a = true ∧ (lattice_le a Unknown = true → a = Unknown)) ∧
  (∀ a b, lattice_le a b = false → lattice_le b a = false →
     (a = Proven ∧ b = Refuted) ∨ (a = Refuted ∧ b = Proven)) ∧
  (∀ a, lattice_le Audited a = true ∧ a ≠ Audited ↔ authority a = ProofKernel) ∧
  (∀ a, is_theorem a = true ↔ authority a = ProofKernel).
Proof.
  split_and!; intros; repeat match goal with o : Outcome |- _ => destruct o end; cbn in *;
    intuition congruence.
Qed.
