(* ===== verification/Witness.v ===== *)
(** Generators and witness identities (src/crates/brix-semantic/src/: id.rs,
    generator.rs, witness.rs).

    A generator is a primitive witness; composite witnesses are digests of their
    parts under frozen tags. What the settlement core relies on is that the
    digest of a composition determines the composition, up to a collision of
    BLAKE3. *)
From S2P Require Import Prelude IntCodec Canon CanonLaws.

Abbreviation ConfigId := (Id KConfig).
Abbreviation ContextId := (Id KContext).
Abbreviation GeneratorId := (Id KGenerator).
Abbreviation GeneratorRegistryId := (Id KGeneratorRegistry).
Abbreviation WitnessId := (Id KWitness).
Abbreviation RegimeId := (Id KRegime).
Abbreviation PropositionId := (Id KProposition).
Abbreviation EvidenceId := (Id KEvidence).
Abbreviation VerifierId := (Id KVerifier).
Abbreviation CertificateId := (Id KCertificate).

#[export] Instance Canonical_Id k : Canonical (Id k) := λ i,
  write_bytes (as_bytes (digest i)).

#[export] Instance CanonAppends_Id k : CanonAppends (Id k).
Proof. apply (canon_appends_of (λ i, frame (as_bytes (digest i)))). intros. apply write_bytes_app. Qed.

Lemma canon_bytes_Id {k} (i : Id k) : canon_bytes i = frame (as_bytes (digest i)).
Proof. unfold canon_bytes, canon_write, Canonical_Id. by rewrite write_bytes_app. Qed.

(** [GeneratorRegistry]: a [BTreeSet]. *)
Abbreviation GeneratorRegistry := (gset GeneratorId).

Section witness.
Context `{Blake3}.

(** [XId::of(value)]. *)
Definition id_of {k A} `{Canonical A} (value : A) : Id k := from_canon (canon_bytes value).

(** [GeneratorId::named], [RegimeId::named], [VerifierId::named]. *)
Definition named {k} (name : string) : Id k :=
  from_canon (write_str (bytes_of_string name) []).

Definition witness_id (g : GeneratorId) : WitnessId := mkId (digest g).

Record WitnessRec : Type := mkWitness {
  src : ConfigId;
  dst : ConfigId;
  regime : RegimeId
}.

#[export] Instance Canonical_Witness : Canonical WitnessRec := λ x w,
  w |> canon_write (src x) |> canon_write (dst x) |> canon_write (regime x).

Definition witness_rec_id (x : WitnessRec) : WitnessId := id_of x.

Definition WITNESS_COMPOSE_TAG : string := "brix.semantic.WitnessId.compose".
Definition WITNESS_TENSOR_TAG : string := "brix.semantic.WitnessId.tensor".

Definition compose_bytes (outer inner : WitnessId) : bytes :=
  [] |> write_tag WITNESS_COMPOSE_TAG
     |> write_bytes (as_bytes (digest outer)) |> write_bytes (as_bytes (digest inner)).
Definition compose (outer inner : WitnessId) : WitnessId :=
  from_canon (compose_bytes outer inner).

Definition tensor_bytes (left right : WitnessId) : bytes :=
  [] |> write_tag WITNESS_TENSOR_TAG
     |> write_bytes (as_bytes (digest left)) |> write_bytes (as_bytes (digest right)).
Definition tensor (left right : WitnessId) : WitnessId :=
  from_canon (tensor_bytes left right).

Definition compose_chain (generators : list GeneratorId) : option WitnessId :=
  match generators with
  | [] => None
  | first :: rest =>
    Some (fold_left (λ acc g, compose (witness_id g) acc) rest (witness_id first))
  end.

Definition tensor_chain (witnesses : list WitnessId) : option WitnessId :=
  match witnesses with
  | [] => None
  | first :: rest => Some (fold_left tensor rest first)
  end.

(** ** The generator registry *)

Definition registry_insert (r : GeneratorRegistry) (id : GeneratorId) : bool * GeneratorRegistry :=
  (bool_decide (id ∉ r), {[id]} ∪ r).
Definition registry_contains (r : GeneratorRegistry) (id : GeneratorId) : bool :=
  bool_decide (id ∈ r).
Definition registry_id (r : GeneratorRegistry) : GeneratorRegistryId := id_of r.

(** ** Binding *)

Lemma from_canon_inj {k} (p1 p2 : bytes) :
  from_canon (k := k) p1 = from_canon p2 →
  p1 = p2 ∨ collision (domain_message (id_domain k) p1) (domain_message (id_domain k) p2).
Proof. intros Heq%(f_equal digest). destruct (digest_of_binds _ _ _ _ Heq) as [[_ ?]|?]; [by left|by right]. Qed.

Lemma id_frame_inj {k} (i1 i2 : Id k) r1 r2 :
  id_ok i1 → id_ok i2 →
  frame (as_bytes (digest i1)) ++ r1 = frame (as_bytes (digest i2)) ++ r2 → i1 = i2 ∧ r1 = r2.
Proof.
  intros [H1 _] [H2 _] Heq. apply prefix_free_frame in Heq as [Hi ->];
    [|unfold len_ok; rewrite ?H1, ?H2; int_lia..].
  by apply (inj as_bytes), (inj digest) in Hi as ->.
Qed.

Lemma tag_frames (tag : string) (x y : WitnessId) :
  ([] |> write_tag tag |> write_bytes (as_bytes (digest x)) |> write_bytes (as_bytes (digest y)))
  = frame (bytes_of_string tag) ++ frame (as_bytes (digest x)) ++ frame (as_bytes (digest y)) ++ [].
Proof. unfold write_tag. rewrite !write_bytes_app. simpl. by rewrite <-!app_assoc, app_nil_r. Qed.

Lemma tagged_inj (t1 t2 : string) (x1 y1 x2 y2 : WitnessId) :
  len_ok (bytes_of_string t1) → len_ok (bytes_of_string t2) →
  id_ok x1 → id_ok y1 → id_ok x2 → id_ok y2 →
  ([] |> write_tag t1 |> write_bytes (as_bytes (digest x1)) |> write_bytes (as_bytes (digest y1))) =
  ([] |> write_tag t2 |> write_bytes (as_bytes (digest x2)) |> write_bytes (as_bytes (digest y2))) →
  t1 = t2 ∧ x1 = x2 ∧ y1 = y2.
Proof.
  intros Ht1 Ht2 Hx1 Hy1 Hx2 Hy2 Heq. rewrite !tag_frames in Heq.
  apply prefix_free_frame in Heq as [Ht Heq]; [|done..].
  apply id_frame_inj in Heq as [-> Heq]; [|done..].
  apply id_frame_inj in Heq as [-> _]; [|done..].
  by apply (inj bytes_of_string) in Ht as ->.
Qed.

Lemma compose_inj o1 i1 o2 i2 :
  id_ok o1 → id_ok i1 → id_ok o2 → id_ok i2 →
  compose o1 i1 = compose o2 i2 → (o1 = o2 ∧ i1 = i2) ∨
  collision (message (compose_bytes o1 i1)) (message (compose_bytes o2 i2)).
Proof.
  intros ???? Heq. apply from_canon_inj in Heq as [Heq|?]; [left|by right].
  by apply tagged_inj in Heq as (_ & -> & ->).
Qed.

Lemma compose_ok `{!Blake3Laws} o i : id_ok (compose o i).
Proof. apply from_canon_ok. Qed.
Lemma tensor_ok `{!Blake3Laws} l r : id_ok (tensor l r).
Proof. apply from_canon_ok. Qed.

Lemma compose_chain_snoc (l : list GeneratorId) g :
  compose_chain (l ++ [g]) =
    Some (match compose_chain l with
          | None => witness_id g | Some w => compose (witness_id g) w end).
Proof. destruct l as [|g0 l]; [done|]. simpl. by rewrite fold_left_app. Qed.

(** The payloads hashed for a chain. *)
Fixpoint chain_payloads_from (w : WitnessId) (l : list GeneratorId) : list bytes :=
  match l with
  | [] => []
  | g :: l' => compose_bytes (witness_id g) w :: chain_payloads_from (compose (witness_id g) w) l'
  end.
Definition chain_payloads (l : list GeneratorId) : list bytes :=
  match l with [] => [] | first :: rest => chain_payloads_from (witness_id first) rest end.

Lemma chain_payloads_snoc l g w : compose_chain l = Some w →
  chain_payloads (l ++ [g]) = chain_payloads l ++ [compose_bytes (witness_id g) w].
Proof.
  destruct l as [|g0 l]; [done|]. intros [= <-]. cbn [app chain_payloads]. generalize (witness_id g0).
  induction l as [|g1 l IH]; intros w0; [done|]. cbn. by rewrite IH.
Qed.

Lemma compose_chain_ok `{!Blake3Laws} (l : list GeneratorId) w :
  Forall id_ok l → compose_chain l = Some w → id_ok w.
Proof.
  destruct l as [|g l] using rev_ind; [done|]. intros [_ Hg]%Forall_app.
  rewrite Forall_singleton in Hg. rewrite compose_chain_snoc. intros [= <-].
  destruct (compose_chain l); [apply compose_ok|exact Hg].
Qed.
End witness.

(** * Properties *)

(** Composite witness identities bind their parts. Unless two of the messages hashed for
    them collide, [compose] and [tensor] are injective, no composition is a tensor, and
    the identity of a decomposition of a given length determines the generators and
    their order. *)
Theorem composite_identity_binds `{Blake3Laws} :
  (∀ o1 i1 o2 i2, id_ok o1 → id_ok i1 → id_ok o2 → id_ok i2 →
     compose o1 i1 = compose o2 i2 → (o1 = o2 ∧ i1 = i2) ∨
     collision (message (compose_bytes o1 i1)) (message (compose_bytes o2 i2))) ∧
  (∀ l1 r1 l2 r2, id_ok l1 → id_ok r1 → id_ok l2 → id_ok r2 →
     tensor l1 r1 = tensor l2 r2 → (l1 = l2 ∧ r1 = r2) ∨
     collision (message (tensor_bytes l1 r1)) (message (tensor_bytes l2 r2))) ∧
  (∀ o i l r, id_ok o → id_ok i → id_ok l → id_ok r →
     compose o i = tensor l r → collision (message (compose_bytes o i)) (message (tensor_bytes l r))) ∧
  (∀ gs1 gs2 : list GeneratorId, Forall id_ok gs1 → Forall id_ok gs2 →
     length gs1 = length gs2 → compose_chain gs1 = compose_chain gs2 →
     gs1 = gs2 ∨ collision_among (message <$> chain_payloads gs1 ++ chain_payloads gs2)).
Proof.
  split_and!.
  - apply compose_inj.
  - intros ???????? Heq. apply from_canon_inj in Heq as [Heq|?]; [left|by right].
    by apply tagged_inj in Heq as (_ & -> & ->).
  - intros ???????? Heq. apply from_canon_inj in Heq as [Heq|?]; [|done].
    by apply tagged_inj in Heq as (? & _).
  - intros gs1. induction gs1 as [|g1 gs1 IH] using rev_ind; intros gs2 H1 H2 Hlen Heq.
    { left. by destruct gs2. }
    destruct gs2 as [|g2 gs2 _] using rev_ind; [rewrite length_app in Hlen; simpl in Hlen; lia|].
    rewrite !length_app in Hlen. simpl in Hlen.
    apply Forall_app in H1 as [H1 Hg1], H2 as [H2 Hg2]. rewrite Forall_singleton in Hg1, Hg2.
    rewrite !compose_chain_snoc in Heq. injection Heq as Heq.
    destruct (compose_chain gs1) as [w1|] eqn:E1, (compose_chain gs2) as [w2|] eqn:E2.
    + rewrite (chain_payloads_snoc gs1 _ _ E1), (chain_payloads_snoc gs2 _ _ E2).
      apply compose_inj in Heq as [[Hg Hw]|Hc]; [|right; eapply collision_in; [exact Hc|set_solver..]|exact Hg1|exact (compose_chain_ok _ _ H1 E1)|exact Hg2|exact (compose_chain_ok _ _ H2 E2)].
      injection Hg as Hg. apply (inj digest) in Hg as ->.
      destruct (IH gs2) as [ ->|Hc]; [done..|lia|congruence|by left|right].
      eapply collision_mono; [|exact Hc]. set_solver.
    + destruct gs1, gs2; simpl in *; done || lia.
    + destruct gs1, gs2; simpl in *; done || lia.
    + injection Heq as Heq. apply (inj digest) in Heq as ->.
      destruct gs1, gs2; simpl in *; [by left|done..].
Qed.

Lemma composite_identity_binds_witness :
  let g : GeneratorId := mkId (mkDigest (replicate 32 1%Z)) in
  [g] = [g] ∨ @collision_among demo_hash (message <$> [] ++ []).
Proof.
  intros g. assert (Forall id_ok [g]) as Hg by (repeat constructor; done).
  apply (proj2 (proj2 (proj2 (@composite_identity_binds demo_hash demo_hash_laws))));
    [exact Hg|exact Hg|reflexivity|reflexivity].
Defined.
