(* ===== verification/Encoding.v ===== *)
(** Composing self-delimiting encodings.

    Values are written as an enum tag or a sequence of fields; a writer that only
    appends ([appends]) turns a program of [canon_write] calls into the
    concatenation of the fields' encodings, and the [PrefixFree] instances for
    identities, strings, options and lists are what the injectivity proofs of the
    larger artifacts are made of. *)
From S2P Require Import Prelude IntCodec Canon CanonLaws Witness.

Lemma length_encode_uint v : length (encode_uint v) ≤ 17.
Proof.
  unfold encode_uint. case_decide; [simpl; lia|]. cbn [length]. apply le_n_S.
  unfold minimal_magnitude. destruct (list_find _ _) as [[i b]|]; cbv zeta; [|apply Nat.le_0_l].
  rewrite length_drop, length_to_be_bytes. lia.
Qed.

Definition write_string (s : string) : CanonWriter → CanonWriter := write_str (bytes_of_string s).

#[export] Instance Canonical_string : Canonical string := write_string.

(** A writer that appends: the class behind [CanonAppends], for the pieces of a
    value. *)
Definition appends (f : CanonWriter → CanonWriter) : Prop := ∀ w, f w = w ++ f [].

Lemma appends_then (f g : CanonWriter → CanonWriter) :
  appends f → appends g → appends (λ w, g (f w)).
Proof. intros Hf Hg w. by rewrite Hg, Hf, (Hg (f [])), app_assoc. Qed.

Lemma appends_enum n f : appends f → appends (write_enum n f).
Proof. intros Hf. apply (appends_then (write_uint n) f); [by intros w|done]. Qed.

Lemma appends_canon {A} `{CanonAppends A} (a : A) : appends (canon_write a).
Proof. intros w. by rewrite canon_appends. Qed.

Lemma enum_bytes n f : appends f → write_enum n f [] = encode_uint n ++ f [].
Proof. intros Hf. unfold write_enum. by rewrite Hf. Qed.

Lemma then_bytes (f g : CanonWriter → CanonWriter) : appends g → g (f []) = f [] ++ g [].
Proof. intros Hg. apply Hg. Qed.

#[export] Instance CanonAppends_string : CanonAppends string.
Proof. intros s w. unfold canon_bytes, canon_write, Canonical_string, write_string, write_str.
  by rewrite !write_bytes_app. Qed.

Lemma appends_uint n : appends (write_uint n).
Proof. by intros w. Qed.

Ltac appends_tac :=
  repeat first
    [ assumption
    | lazymatch goal with
      | |- appends (write_enum _ _) => apply appends_enum
      | |- appends (write_uint _) => apply appends_uint
      | |- appends (canon_write _) => apply appends_canon
      | |- appends (λ w, ?g w) => change (appends g)
      | |- appends (λ w, ?g (@?f w)) => apply (appends_then f g)
      end ].

#[export] Instance prefix_free_id k : PrefixFree id_ok (canon_bytes (A := Id k)).
Proof. intros i1 i2 r1 r2 H1 H2 H. rewrite !canon_bytes_Id in H. by apply id_frame_inj in H. Qed.

Definition string_ok (s : string) : Prop := len_ok (bytes_of_string s).

#[export] Instance prefix_free_string : PrefixFree string_ok (canon_bytes (A := string)).
Proof.
  intros s1 s2 r1 r2 H1 H2 H. unfold canon_bytes, canon_write, Canonical_string, write_string, write_str in H.
  rewrite !write_bytes_app in H. apply prefix_free_frame in H as [Hs ->]; [|exact H1|exact H2].
  by apply (inj bytes_of_string) in Hs as ->.
Qed.

Lemma canon_bytes_option {A} `{CanonAppends A} (o : option A) :
  canon_bytes o = match o with
    | None => encode_uint 0 | Some v => encode_uint 1 ++ canon_bytes v end.
Proof.
  destruct o as [v|]; [|done]. unfold canon_bytes at 1, canon_write, Canonical_option, write_uint.
  by rewrite (canon_appends (A := A)).
Qed.

#[export] Instance prefix_free_option {A} `{CanonAppends A} wf
    `{!PrefixFree wf (canon_bytes (A := A))} :
  PrefixFree (λ o : option A, from_option wf True o) canon_bytes.
Proof.
  intros o1 o2 r1 r2 H1 H2 Heq. rewrite !canon_bytes_option in Heq.
  destruct o1 as [a1|], o2 as [a2|]; rewrite <-?app_assoc in Heq;
    apply prefix_free_uint64 in Heq as [Ho Heq]; try int_lia.
  - by apply prefix_free in Heq as [-> ->].
  - by subst.
Qed.

Lemma canon_bytes_list {A} `{Canonical A} (l : list A) :
  canon_bytes l = frames (canon_bytes <$> l).
Proof. unfold canon_bytes at 1, canon_write, Canonical_list. by rewrite write_list_app. Qed.

#[export] Instance prefix_free_canon_list {A} `{Canonical A} wf
    `{!PrefixFree wf (canon_bytes (A := A))} :
  PrefixFree (λ l : list A, len_ok l ∧ Forall (λ a, wf a ∧ len_ok (canon_bytes a)) l) canon_bytes.
Proof.
  intros l1 l2 r1 r2 [Hl1 H1] [Hl2 H2] Heq. rewrite !canon_bytes_list in Heq.
  apply prefix_free_frames in Heq as [Heq ->].
  - split; [|done]. clear Hl1 Hl2. revert l2 H2 Heq.
    induction H1 as [|a l1 [Ha _] _ IH]; intros [|b l2] H2 Heq; [done|done|done|].
    apply Forall_cons in H2 as [[Hb _] H2]. rewrite !fmap_cons in Heq.
    injection Heq as Hab Heq. f_equal; [|by apply IH].
    by apply (prefix_free_inj wf canon_bytes).
  - unfold len_ok in *. rewrite length_fmap. split; [done|]. rewrite Forall_fmap.
    eapply Forall_impl; [exact H1|]. by intros a [_ ?].
  - unfold len_ok in *. rewrite length_fmap. split; [done|]. rewrite Forall_fmap.
    eapply Forall_impl; [exact H2|]. by intros a [_ ?].
Qed.

(** *** Readers over a whole buffer *)

Lemma reader_new_ok b : are_bytes b → len_ok b → reader_ok (reader_new b).
Proof. intros Hb Hl. split_and!; simpl; [lia|done|done]. Qed.

Lemma reader_empty_iff r : reader_ok r → reader_is_empty r = true ↔ remaining r = [].
Proof.
  intros (Hp & _). unfold reader_is_empty, remaining. rewrite bool_decide_eq_true.
  split; [apply drop_ge|]. intros Hd%(f_equal length). rewrite length_drop in Hd. simpl in Hd. lia.
Qed.
