(* ===== verification/Decimal.v ===== *)
(** Exact decimals and their canonical encoding (src/crates/brix-canon/src/decimal.rs).

    A [Decimal] is an [i128] coefficient and a scale, without a trailing zero below the
    point. Its encoding is a sign, the exponent of the first digit and the digits, and the
    order of decimals is the order of their encodings: here it is proved to be the order of
    the numbers they denote. *)
From S2P Require Import Prelude IntCodec Canon CanonLaws Encoding.

Definition SIGN_NEG : Z := 0.
Definition SIGN_ZERO : Z := 1.
Definition SIGN_POS : Z := 2.

Record Decimal : Type := mkDecimal { unscaled : Z; scale : Z }.
#[export] Instance Decimal_eq_dec : EqDecision Decimal.
Proof. solve_decision. Defined.

(** The loop of [Decimal::new]: one digit of scale per iteration; [/] and [%] truncate. *)
Fixpoint strip_zeros (s : nat) (u : Z) : Z * Z :=
  match s with
  | S s' => if decide (u ≠ 0 ∧ Z.rem u 10 = 0)%Z then strip_zeros s' (Z.quot u 10) else (u, Z.of_nat s)
  | O => (u, 0%Z)
  end.

Definition decimal_new (unscaled scale : Z) : Decimal :=
  let '(u, s) := strip_zeros (Z.to_nat scale) unscaled in
  mkDecimal u (if decide (u = 0%Z) then 0%Z else s).

Definition ZERO : Decimal := mkDecimal 0 0.

(** The decimal digits of a [u128], least first; 39 are enough. *)
Definition MAX_DIGITS : nat := 39.
Fixpoint digits_rev (fuel : nat) (m : Z) : list Z :=
  match fuel with
  | O => []
  | S fuel' => if decide (0 < m)%Z then (m mod 10)%Z :: digits_rev fuel' (m / 10)%Z else []
  end.
Definition digits (m : Z) : list Z := reverse (digits_rev MAX_DIGITS m).

Definition digits_and_exponent (d : Decimal) : list Z * Z :=
  let ds := digits (Z.abs (unscaled d)) in (ds, Z.of_nat (length ds) - 1 - scale d)%Z.

Definition digit_tail (ds : list Z) : bytes := ((λ d, 1 + d)%Z <$> ds) ++ [0%Z].

Definition magnitude_bytes (d : Decimal) : bytes :=
  let '(ds, exponent) := digits_and_exponent d in encode_int exponent ++ digit_tail ds.

#[export] Instance Canonical_Decimal : Canonical Decimal := λ d w,
  if decide (unscaled d = 0%Z) then w |> write_raw [SIGN_ZERO]
  else if decide (unscaled d < 0)%Z
  then w |> write_raw [SIGN_NEG] |> write_raw (byte_not <$> magnitude_bytes d)
  else w |> write_raw [SIGN_POS] |> write_raw (magnitude_bytes d).

(** [Ord] is the order of the encodings. *)
#[export] Instance Ord_Decimal : Ord Decimal := λ a b, cmp (canon_bytes a) (canon_bytes b).

(** ** Reading *)

(** The digit loop over the unread bytes; each byte is [xf] of the one read. The number is
    the bytes consumed, on an error too: the reader is not rewound. *)
Fixpoint digit_loop (xf : Z → Z) (l : bytes) : result CanonError (list Z) * nat :=
  match l with
  | [] => (Err UnexpectedEof, 0)
  | b :: l' =>
    let b := xf b in
    if decide (b = 0%Z) then (Ok [], 1)
    else if decide (¬ (1 ≤ b ≤ 10))%Z then (Err BadLength, 1)
    else let '(ds, n) := digit_loop xf l' in ((ds ← ds; Ok ((b - 1)%Z :: ds)), S n)
  end.

Definition read_digits (xf : Z → Z) : Reader (list Z) := λ r,
  let '(ds, n) := digit_loop xf (remaining r) in (advance n ;; ST_lift ds) r.

(** [for _ in 0..n { ibuf.push(xf(r.read_u8()?)) }]. *)
Fixpoint read_u8s (xf : Z → Z) (n : nat) : Reader bytes :=
  match n with
  | O => mret []
  | S n' => b ← read_u8; l ← read_u8s xf n'; mret (xf b :: l)
  end.

(** The coefficient, with [checked_mul] and [checked_add] or [checked_sub]. *)
Definition accumulate (negate : bool) (ds : list Z) : option Z :=
  fold_left (λ acc d, v ← acc; m ← checked i128_ok (v * 10)%Z;
    checked i128_ok (if negate then m - d else m + d)%Z) ds (Some 0%Z).

Definition read_exponent (xf : Z → Z) : Reader Z :=
  c ← read_u8;
  let cat := xf c in
  let ilen := Z.to_nat (Z.abs (cat - INT_ZERO_CATEGORY)) in
  if decide (16 < ilen) then ST_throw BadLength else
  body ← read_u8s xf ilen;
  '(exp, _) ← ST_lift (decode_int (cat :: body));
  ST_lift (ok_or (checked i64_ok exp) BadLength).

Definition read_decimal : Reader Decimal :=
  sign ← read_u8;
  if decide (sign = SIGN_ZERO) then mret ZERO
  else if decide (sign = SIGN_NEG ∨ sign = SIGN_POS) then
    let negate := bool_decide (sign = SIGN_NEG) in
    let xf := λ b, if negate : bool then byte_not b else b in
    exponent ← read_exponent xf;
    ds ← read_digits xf;
    if decide (ds = []) then ST_throw BadLength else
    diff ← ST_lift (ok_or (checked i64_ok (Z.of_nat (length ds) - 1 - exponent)%Z) BadLength);
    scale ← ST_lift (ok_or (checked u8_ok diff) BadLength);
    unscaled ← ST_lift (ok_or (accumulate negate ds) BadLength);
    mret (decimal_new unscaled scale)
  else ST_throw BadLength.

(** * Normal forms *)

(** What [Decimal::new] builds from an [i128] and a [u8]: no zero below the point. *)
Definition decimal_ok (d : Decimal) : Prop :=
  i128_ok (unscaled d) ∧ u8_ok (scale d) ∧
  (scale d = 0 ∨ Z.rem (unscaled d) 10 ≠ 0)%Z ∧ (unscaled d = 0 → scale d = 0)%Z.

(** The decimal denotes [u / 10^s]. *)
Definition denotes_ratio (d : Decimal) (u s : Z) : Prop := (unscaled d * 10 ^ s = u * 10 ^ scale d)%Z.

Lemma strip_zeros_spec n u : let '(u', s') := strip_zeros n u in
  (0 ≤ s' ≤ Z.of_nat n ∧ Z.abs u' ≤ Z.abs u ∧ (u' = 0 ↔ u = 0) ∧ u = u' * 10 ^ (Z.of_nat n - s') ∧
  (u' = 0 ∨ s' = 0 ∨ Z.rem u' 10 ≠ 0))%Z.
Proof.
  revert u. induction n as [|n IH]; intros u; cbn [strip_zeros].
  { rewrite Z.sub_diag, Z.pow_0_r. lia. }
  case_decide as Hc.
  - destruct Hc as [Hu Hr]. specialize (IH (Z.quot u 10)). destruct (strip_zeros n (Z.quot u 10)) as [u' s'].
    destruct IH as (Hs & Ha & Hz & Heq & Hd). pose proof (Z.quot_rem u 10 ltac:(lia)) as Hq. rewrite Hr in Hq.
    replace (Z.of_nat (S n) - s')%Z with (Z.succ (Z.of_nat n - s')) by lia. rewrite Z.pow_succ_r by lia.
    split_and!; try lia.
  - rewrite Z.sub_diag, Z.pow_0_r. split_and!; lia.
Qed.

(** Construction normalises without changing the number. *)
Lemma decimal_new_spec u s : i128_ok u → u8_ok s → decimal_ok (decimal_new u s) ∧ denotes_ratio (decimal_new u s) u s ∧
  (0 ≤ scale (decimal_new u s) ≤ s)%Z.
Proof.
  intros Hu Hs. unfold decimal_new, decimal_ok, denotes_ratio. pose proof (strip_zeros_spec (Z.to_nat s) u) as Hsp.
  destruct (strip_zeros (Z.to_nat s) u) as [u' s']. destruct Hsp as (Hs' & Ha & Hz & Heq & Hd). unfold u8_ok in *.
  rewrite Z2Nat.id in * by lia. cbn [unscaled scale]. case_decide as H0.
  - subst u'. assert (u = 0)%Z as -> by by apply Hz. split_and!; try done; try lia; by left.
  - split; [split; [unfold i128_ok in *; lia|split; [lia|split; [intuition|done]]]|]. split; [|lia].
    rewrite Heq, <-Z.mul_assoc, <-Z.pow_add_r by lia. f_equal. f_equal. lia.
Qed.

Lemma rem_mul_10 a : (Z.rem (a * 10) 10 = 0)%Z.
Proof. apply Z.rem_mul. lia. Qed.

(** A number has one normal form. *)
Lemma normal_unique u1 s1 u2 s2 : (0 ≤ s1 → 0 ≤ s2 → (s1 = 0 ∨ Z.rem u1 10 ≠ 0) → (s2 = 0 ∨ Z.rem u2 10 ≠ 0) →
  u1 * 10 ^ s2 = u2 * 10 ^ s1 → u1 = u2 ∧ s1 = s2)%Z.
Proof.
  assert (∀ u1 s1 u2 s2, 0 ≤ s1 → (s2 = 0 ∨ Z.rem u2 10 ≠ 0) → s1 < s2 → u1 * 10 ^ s2 = u2 * 10 ^ s1 → False)%Z as Hw.
  { clear. intros u1 s1 u2 s2 H1 H2 Hlt Heq. destruct H2 as [->|Hr]; [lia|]. apply Hr.
    assert (u2 = (u1 * 10 ^ (s2 - s1 - 1)) * 10)%Z as ->; [|apply rem_mul_10].
    apply (Z.mul_reg_r _ _ (10 ^ s1)%Z); [apply Z.pow_nonzero; lia|]. rewrite <-Heq.
    rewrite <-!Z.mul_assoc. f_equal. rewrite <-(Z.pow_1_r 10) at 3. rewrite <-!Z.pow_add_r by lia. f_equal. lia. }
  intros Hs1 Hs2 Hn1 Hn2 Heq.
  destruct (Z.lt_trichotomy s1 s2) as [Hlt|[->|Hlt]]; [by destruct (Hw u1 s1 u2 s2)| |by destruct (Hw u2 s2 u1 s1)].
  split; [|done]. apply (Z.mul_reg_r _ _ (10 ^ s2)%Z); [apply Z.pow_nonzero; lia|done].
Qed.

Lemma decimal_unique a b : decimal_ok a → decimal_ok b → denotes_ratio a (unscaled b) (scale b) → a = b.
Proof.
  destruct a as [u1 s1], b as [u2 s2]. intros (_ & [Hs1 _] & Hn1 & _) (_ & [Hs2 _] & Hn2 & _) Heq. unfold denotes_ratio in Heq. cbn in *.
  by destruct (normal_unique u1 s1 u2 s2) as [-> ->].
Qed.

(** * Digits *)

Definition digit_ok (d : Z) : Prop := (0 ≤ d < 10)%Z.
Definition dec_value (acc : Z) (ds : list Z) : Z := fold_left (λ v d, v * 10 + d)%Z ds acc.

Lemma dec_value_snoc acc ds d : dec_value acc (ds ++ [d]) = (dec_value acc ds * 10 + d)%Z.
Proof. unfold dec_value. by rewrite fold_left_app. Qed.

Lemma dec_value_acc acc ds : dec_value acc ds = (acc * 10 ^ Z.of_nat (length ds) + dec_value 0 ds)%Z.
Proof.
  induction ds as [|d ds IH] using rev_ind; [cbn; lia|]. rewrite !dec_value_snoc, IH, length_app.
  rewrite Nat2Z.inj_add, Z.pow_add_r by lia. change (10 ^ Z.of_nat (length [d]))%Z with 10%Z. lia.
Qed.

Lemma digits_rev_spec fuel m : (0 ≤ m < 10 ^ Z.of_nat fuel)%Z →
  let ds := reverse (digits_rev fuel m) in
  dec_value 0 ds = m ∧ Forall digit_ok ds ∧ (0 < m → 10 ^ (Z.of_nat (length ds) - 1) ≤ m)%Z ∧
  (m < 10 ^ Z.of_nat (length ds))%Z ∧ (ds = [] ↔ m = 0%Z) ∧ (0 < m → last ds = Some (m mod 10))%Z.
Proof.
  revert m. induction fuel as [|fuel IH]; intros m Hm; cbn [digits_rev].
  { cbn in *. assert (m = 0)%Z as -> by lia. split_and!; try done; constructor. }
  case_decide as Hp.
  2: { assert (m = 0)%Z as -> by lia. cbn. split_and!; try done; constructor. }
  rewrite Nat2Z.inj_succ, Z.pow_succ_r in Hm by lia. pose proof (Z.div_mod m 10 ltac:(lia)) as Hdm.
  pose proof (Z.mod_pos_bound m 10 ltac:(lia)) as Hmb.
  assert (0 ≤ m / 10 < 10 ^ Z.of_nat fuel)%Z as Hq by (split; [apply Z.div_pos; lia|apply Z.div_lt_upper_bound; lia]).
  destruct (IH _ Hq) as (Hv & Hd & Hlo & Hhi & Hz & _). cbv zeta. rewrite reverse_cons, dec_value_snoc, Hv, length_app. cbn [length].
  rewrite Nat2Z.inj_add, Z.pow_add_r, Z.pow_1_r by lia. change (Z.of_nat 1) with 1%Z.
  replace (Z.of_nat (length (reverse (digits_rev fuel (m / 10)))) + 1 - 1)%Z with (Z.of_nat (length (reverse (digits_rev fuel (m / 10))))) by lia.
  split; [lia|]. split; [apply Forall_app; split; [done|by constructor]|]. split; [|split; [lia|split]].
  - intros _. destruct (decide (m / 10 = 0)%Z) as [E|E].
    + apply Hz in E. rewrite E. cbn. lia.
    + set (k := Z.of_nat (length (reverse (digits_rev fuel (m / 10))))) in *.
      assert (0 < k)%Z.
      { unfold k. destruct (reverse (digits_rev fuel (m / 10))) eqn:El; [by destruct E, Hz|cbn; lia]. }
      replace k with (Z.succ (k - 1)) by lia. rewrite Z.pow_succ_r by lia. lia.
  - split; [by intros [_ ?]%app_eq_nil|lia].
  - intros _. apply last_snoc.
Qed.

Lemma digits_spec m : (0 < m ≤ 2 ^ 127)%Z →
  dec_value 0 (digits m) = m ∧ Forall digit_ok (digits m) ∧ digits m ≠ [] ∧
  (10 ^ (Z.of_nat (length (digits m)) - 1) ≤ m < 10 ^ Z.of_nat (length (digits m)))%Z ∧ last (digits m) = Some (m mod 10)%Z.
Proof.
  intros Hm. destruct (digits_rev_spec MAX_DIGITS m) as (? & ? & Hlo & ? & Hz & Hl).
  { unfold MAX_DIGITS. split; [lia|]. eapply Z.le_lt_trans; [apply Hm|]. vm_compute. reflexivity. }
  unfold digits. split_and!; try done; [|apply Hlo; lia|apply Hl; lia]. intros E. apply Hz in E. lia.
Qed.

(** The fraction [0.d1 d2 … * 10^n]. *)
Fixpoint fr (ds : list Z) (n : nat) : Z :=
  match ds, n with d :: ds', S n' => d * 10 ^ Z.of_nat n' + fr ds' n' | _, _ => 0 end.

Lemma fr_value ds n : length ds ≤ n → fr ds n = (dec_value 0 ds * 10 ^ Z.of_nat (n - length ds))%Z.
Proof.
  revert n. induction ds as [|d ds IH]; intros n Hn; [done|]. destruct n as [|n]; cbn [length] in Hn; [lia|]. cbn [fr length].
  rewrite IH by lia. change (dec_value 0 (d :: ds)) with (dec_value d ds). rewrite (dec_value_acc d), Nat.sub_succ.
  rewrite Z.mul_add_distr_r, <-Z.mul_assoc, <-Z.pow_add_r by lia. f_equal. f_equal. f_equal. lia.
Qed.

Lemma fr_bounds ds n : Forall digit_ok ds → (0 ≤ fr ds n < 10 ^ Z.of_nat n)%Z.
Proof.
  intros Hd. revert n. induction Hd as [|d ds Hd Hds IH]; intros n; [cbn; split; [lia|apply Z.pow_pos_nonneg; lia]|].
  destruct n as [|n]; [cbn; lia|]. cbn [fr]. specialize (IH n). rewrite Nat2Z.inj_succ, Z.pow_succ_r by lia.
  unfold digit_ok in Hd. nia.
Qed.

Lemma fr_pos ds n d : Forall digit_ok ds → length ds ≤ n → last ds = Some d → d ≠ 0%Z → (0 < fr ds n)%Z.
Proof.
  intros Hd Hn Hl Hne. rewrite fr_value by done. destruct ds as [|x ds _] using rev_ind; [done|].
  rewrite last_snoc in Hl. injection Hl as ->. rewrite dec_value_snoc. apply Forall_app in Hd as [Hd Hx].
  rewrite Forall_singleton in Hx. unfold digit_ok in Hx.
  assert (0 ≤ dec_value 0 ds)%Z. { pose proof (fr_bounds ds (length ds) Hd) as Hb. rewrite fr_value, Nat.sub_diag in Hb by lia. cbn in Hb. lia. }
  apply Z.mul_pos_pos; [lia|apply Z.pow_pos_nonneg; lia].
Qed.

(** The order of digit strings of one exponent, whatever follows. *)
Lemma digit_tail_compare d1 d2 n r1 r2 : Forall digit_ok d1 → Forall digit_ok d2 → length d1 ≤ n → length d2 ≤ n →
  (length d1 < length d2 → last d2 ≠ Some 0%Z) → (length d2 < length d1 → last d1 ≠ Some 0%Z) → d1 ≠ d2 →
  lex_compare (digit_tail d1 ++ r1) (digit_tail d2 ++ r2) = Z.compare (fr d1 n) (fr d2 n) ∧ fr d1 n ≠ fr d2 n.
Proof.
  intros H1. revert d2 n. induction H1 as [|x d1 Hx H1 IH]; intros d2 n H2 L1 L2 T1 T2 Hne.
  - destruct d2 as [|y d2]; [done|]. apply Forall_cons in H2 as [Hy H2'].
    assert (0 < fr (y :: d2) n)%Z as Hp.
    { destruct (last (y :: d2)) as [z|] eqn:El; [|by apply last_None in El].
      eapply fr_pos; [by constructor|done|exact El|]. intros ->. by apply T1; [cbn; lia|]. }
    unfold digit_tail. cbn [fmap list_fmap app lex_compare]. unfold cmp, Ord_Z, digit_ok in *.
    rewrite (proj2 (Z.compare_lt_iff 0 (1 + y))) by lia. change (fr [] n) with 0%Z.
    split; [symmetry; by apply Z.compare_lt_iff|lia].
  - destruct d2 as [|y d2].
    + assert (0 < fr (x :: d1) n)%Z as Hp.
      { destruct (last (x :: d1)) as [z|] eqn:El; [|by apply last_None in El].
        eapply fr_pos; [by constructor|done|exact El|]. intros ->. by apply T2; [cbn; lia|]. }
      unfold digit_tail. cbn [fmap list_fmap app lex_compare]. unfold cmp, Ord_Z, digit_ok in *.
      rewrite (proj2 (Z.compare_gt_iff (1 + x) 0)) by lia. change (fr [] n) with 0%Z.
      split; [symmetry; by apply Z.compare_gt_iff|lia].
    + apply Forall_cons in H2 as [Hy H2]. destruct n as [|n]; cbn [length] in *; [lia|].
      pose proof (fr_bounds d1 n H1). pose proof (fr_bounds d2 n H2). unfold digit_tail. cbn [fmap list_fmap app lex_compare fr].
      unfold cmp, Ord_Z, digit_ok in *. destruct (Z.compare_spec (1 + x) (1 + y)) as [E|E|E].
      * assert (x = y) as -> by lia. destruct (IH d2 n H2) as [Hc Hf]; [lia|lia| | |congruence|].
        -- intros Hl. specialize (T1 ltac:(lia)). by destruct d2.
        -- intros Hl. specialize (T2 ltac:(lia)). by destruct d1.
        -- split; [|lia]. etransitivity; [exact Hc|].
           destruct (Z.compare_spec (fr d1 n) (fr d2 n)); symmetry; [apply Z.compare_eq_iff|apply Z.compare_lt_iff|apply Z.compare_gt_iff]; lia.
      * split; [symmetry; apply Z.compare_lt_iff; nia|nia].
      * split; [symmetry; apply Z.compare_gt_iff; nia|nia].
Qed.

(** * The order of decimals *)

Lemma compare_scale a b k : (0 < k)%Z → Z.compare (a * k) (b * k) = Z.compare a b.
Proof. intros Hk. symmetry. by apply Zmult_compare_compat_r, Z.lt_gt. Qed.

Lemma length_digits m : length (digits m) ≤ 39.
Proof.
  unfold digits. rewrite length_reverse. unfold MAX_DIGITS. generalize 39. intros n. revert m.
  induction n as [|n IH]; intros m; cbn; [lia|]. case_decide; cbn; [|lia]. specialize (IH (m / 10)%Z). lia.
Qed.

(** A nonzero decimal's digits. *)
Lemma decimal_digits d : decimal_ok d → unscaled d ≠ 0%Z →
  let ds := digits (Z.abs (unscaled d)) in
  dec_value 0 ds = Z.abs (unscaled d) ∧ Forall digit_ok ds ∧ ds ≠ [] ∧
  (10 ^ (Z.of_nat (length ds) - 1) ≤ Z.abs (unscaled d) < 10 ^ Z.of_nat (length ds))%Z ∧
  (scale d ≠ 0%Z → last ds ≠ Some 0%Z).
Proof.
  intros (Hu & Hs & Hn & _) Hne. destruct (digits_spec (Z.abs (unscaled d))) as (? & ? & ? & ? & Hl); [unfold i128_ok in Hu; lia|].
  cbv zeta. split_and!; try done; try lia. intros Hs0. rewrite Hl. intros [=Hm]. destruct Hn as [?|Hn]; [done|]. apply Hn.
  rewrite <-Z.rem_mod_nonneg in Hm by lia. destruct (Z.abs_spec (unscaled d)) as [[? Ha]|[? Ha]]; rewrite Ha in Hm; [done|].
  rewrite Z.rem_opp_l in Hm by lia. lia.
Qed.

Definition exponent_of (d : Decimal) : Z := (Z.of_nat (length (digits (Z.abs (unscaled d)))) - 1 - scale d)%Z.

Lemma exponent_ok d : decimal_ok d → i128_ok (exponent_of d) ∧ i64_ok (exponent_of d).
Proof.
  intros (_ & Hs & _). unfold exponent_of. pose proof (length_digits (Z.abs (unscaled d))). unfold u8_ok in Hs. split; int_lia.
Qed.

Lemma magnitude_compare a b r1 r2 : decimal_ok a → decimal_ok b → unscaled a ≠ 0%Z → unscaled b ≠ 0%Z →
  (Z.abs (unscaled a) * 10 ^ scale b ≠ Z.abs (unscaled b) * 10 ^ scale a)%Z →
  lex_compare (magnitude_bytes a ++ r1) (magnitude_bytes b ++ r2) =
  Z.compare (Z.abs (unscaled a) * 10 ^ scale b) (Z.abs (unscaled b) * 10 ^ scale a).
Proof.
  intros Ha Hb Na Nb Hne. pose proof (proj1 (exponent_ok a Ha)) as Ea. pose proof (proj1 (exponent_ok b Hb)) as Eb.
  destruct (decimal_digits a Ha Na) as (Va & Da & Za & Ba & Ta). destruct (decimal_digits b Hb Nb) as (Vb & Db & Zb & Bb & Tb).
  destruct Ha as (_ & [Sa _] & _), Hb as (_ & [Sb _] & _). unfold magnitude_bytes, digits_and_exponent.
  fold (exponent_of a) (exponent_of b). rewrite <-!app_assoc.
  set (da := digits (Z.abs (unscaled a))) in *. set (db := digits (Z.abs (unscaled b))) in *.
  set (ma := Z.abs (unscaled a)) in *. set (mb := Z.abs (unscaled b)) in *.
  assert (0 < length da ∧ 0 < length db) as [La Lb] by (split; [destruct da|destruct db]; done || (cbn; lia)).
  destruct (decide (exponent_of a = exponent_of b)) as [Ee|Ee].
  - rewrite Ee, lex_compare_app. unfold exponent_of in Ee. fold ma mb in Ee. fold da db in Ee.
    set (n := Nat.max (length da) (length db)).
    destruct (digit_tail_compare da db n r1 r2 Da Db) as [Hc Hf]; [lia|lia|intros; apply Tb; lia|intros; apply Ta; lia| |].
    { intros Heq. apply Hne. assert (ma = mb) as -> by (by rewrite <-Va, <-Vb, Heq). rewrite Heq in Ee. f_equal. f_equal. lia. }
    rewrite Hc, !fr_value, Va, Vb by lia.
    set (t := (scale b + Z.of_nat (length da) - Z.of_nat n)%Z). assert (0 ≤ t)%Z by lia.
    rewrite <-(compare_scale _ _ (10 ^ t)) by (apply Z.pow_pos_nonneg; lia).
    rewrite <-!Z.mul_assoc, <-!Z.pow_add_r by lia. f_equal; f_equal; f_equal; lia.
  - rewrite (proj2 (int_codec_order _ _ _ _ Ee) Ea Eb).
    assert (∀ m1 m2 n1 n2 s1 s2 : Z, 0 < n1 → 0 < n2 → 0 ≤ s1 → 0 ≤ s2 → m1 < 10 ^ n1 → 10 ^ (n2 - 1) ≤ m2 →
      n1 - 1 - s1 < n2 - 1 - s2 → m1 * 10 ^ s2 < m2 * 10 ^ s1)%Z as Hw.
    { intros m1 m2 n1 n2 s1 s2 ? ? ? ? H1 H2 Hlt. apply Z.lt_le_trans with (10 ^ (n1 + s2))%Z.
      - rewrite Z.pow_add_r by lia. apply Z.mul_lt_mono_pos_r; [apply Z.pow_pos_nonneg; lia|done].
      - apply Z.le_trans with (10 ^ (n2 - 1 + s1))%Z; [apply Z.pow_le_mono_r; lia|].
        rewrite Z.pow_add_r by lia. apply Z.mul_le_mono_nonneg_r; [apply Z.pow_nonneg; lia|done]. }
    unfold exponent_of in *. fold ma mb in Ee |- *. fold da db in Ee |- *.
    destruct (Z.compare_spec (Z.of_nat (length da) - 1 - scale a) (Z.of_nat (length db) - 1 - scale b)) as [?|Hlt|Hlt]; [done| |]; symmetry.
    + apply Z.compare_lt_iff. eapply Hw; [..|exact Hlt]; lia.
    + apply Z.compare_gt_iff. eapply Hw; [..|exact Hlt]; lia.
Qed.

(** Strings that differ within both. *)
Definition differ (x y : bytes) : Prop := ∃ p a b x' y', x = p ++ a :: x' ∧ y = p ++ b :: y' ∧ a ≠ b.

Lemma differ_or_prefix (x y : bytes) : differ x y ∨ x `prefix_of` y ∨ y `prefix_of` x.
Proof.
  revert y. induction x as [|a x IH]; intros y; [right; left; apply prefix_nil|].
  destruct y as [|b y]; [right; right; apply prefix_nil|]. destruct (decide (a = b)) as [->|Hne].
  - destruct (IH y) as [(p & c & d & x' & y' & -> & -> & ?)|[?|?]].
    + left. by exists (b :: p), c, d, x', y'.
    + right. left. by apply prefix_cons.
    + right. right. by apply prefix_cons.
  - left. by exists [], a, b, x, y.
Qed.

Lemma differ_compare x y r1 r2 : differ x y → lex_compare (x ++ r1) (y ++ r2) = lex_compare x y ∧
  lex_compare ((byte_not <$> x) ++ r1) ((byte_not <$> y) ++ r2) = CompOpp (lex_compare x y).
Proof.
  intros (p & a & b & x' & y' & -> & -> & Hne). rewrite !fmap_app, !fmap_cons, <-!app_assoc, !lex_compare_app. cbn.
  unfold cmp, Ord_Z, byte_not. destruct (Z.compare_spec a b) as [?|?|?]; [done|..]; cbn.
  - split; [done|]. by rewrite (proj2 (Z.compare_gt_iff _ _)) by lia.
  - split; [done|]. by rewrite (proj2 (Z.compare_lt_iff _ _)) by lia.
Qed.

Lemma magnitude_differ a b : decimal_ok a → decimal_ok b → unscaled a ≠ 0%Z → unscaled b ≠ 0%Z →
  (Z.abs (unscaled a) * 10 ^ scale b ≠ Z.abs (unscaled b) * 10 ^ scale a)%Z →
  differ (magnitude_bytes a) (magnitude_bytes b).
Proof.
  intros Ha Hb Na Nb Hne. assert (∀ r, magnitude_bytes a ++ r ≠ magnitude_bytes b ∧ magnitude_bytes b ++ r ≠ magnitude_bytes a) as Hp.
  { intros r. assert (∀ x : bytes, lex_compare x x = Eq) as Hrefl by (intros x; apply (cmp_refl (A := list Z))). split; intros He.
    - pose proof (magnitude_compare a b r [] Ha Hb Na Nb Hne) as Hc. rewrite app_nil_r, He in Hc.
      rewrite Hrefl in Hc. symmetry in Hc. by apply Z.compare_eq_iff in Hc.
    - pose proof (magnitude_compare a b [] r Ha Hb Na Nb Hne) as Hc. rewrite app_nil_r, He in Hc.
      rewrite Hrefl in Hc. symmetry in Hc. by apply Z.compare_eq_iff in Hc. }
  destruct (differ_or_prefix (magnitude_bytes a) (magnitude_bytes b)) as [?|[[r Hr]|[r Hr]]]; [done|..];
    by destruct (Hp r) as [? ?].
Qed.

Lemma decimal_bytes d : canon_bytes d =
  if decide (unscaled d = 0)%Z then [SIGN_ZERO]
  else if decide (unscaled d < 0)%Z then SIGN_NEG :: (byte_not <$> magnitude_bytes d) else SIGN_POS :: magnitude_bytes d.
Proof. unfold canon_bytes, canon_write, Canonical_Decimal, write_raw. by repeat case_decide. Qed.

(** * Reading *)

Definition wr (negate : bool) (b : Z) : Z := if negate then byte_not b else b.

Lemma wr_involutive negate b : wr negate (wr negate b) = b.
Proof. destruct negate; [unfold wr, byte_not; lia|done]. Qed.

Lemma encode_int_shape v : i128_ok v → ∃ cat body, encode_int v = cat :: body ∧
  Z.to_nat (Z.abs (cat - INT_ZERO_CATEGORY)) = length body ∧ length body ≤ 16.
Proof.
  intros Hv. unfold encode_int. case_decide as H0; [exists INT_ZERO_CATEGORY, []; split_and!; [done|done|cbn; lia]|].
  destruct (minimal_magnitude_spec (Z.abs v)) as [(_ & Hlen & _) _]; [int_lia|].
  case_decide; (eexists _, _; split; [done|]); rewrite ?length_fmap; lia.
Qed.

Lemma read_u8s_reads negate l : reads (read_u8s (wr negate) (length l)) (wr negate <$> l) l.
Proof.
  induction l as [|b l IH]; cbn [length read_u8s fmap list_fmap]; [apply reads_ret|].
  apply (reads_bind _ _ [wr negate b] (wr negate <$> l) (wr negate b)); [apply read_u8_reads|].
  eapply reads_bind_last; [apply IH|]. rewrite wr_involutive. apply reads_ret.
Qed.

Lemma read_exponent_reads negate e : i64_ok e → reads (read_exponent (wr negate)) (wr negate <$> encode_int e) e.
Proof.
  intros He. assert (i128_ok e) as He' by int_lia. destruct (encode_int_shape e He') as (cat & body & Heq & Hlen & Hle).
  pose proof (decode_int_encode e [] He') as Hd. rewrite app_nil_r in Hd. rewrite Heq in *. rewrite fmap_cons.
  apply (reads_bind _ _ [wr negate cat] (wr negate <$> body) (wr negate cat)); [apply read_u8_reads|]. cbv zeta.
  rewrite wr_involutive, Hlen, decide_False by lia. eapply reads_bind_last; [apply read_u8s_reads|].
  apply (reads_bind_last _ _ [] (e, length (cat :: body))); [|by apply reads_lift_ok, checked_Some].
  rewrite Hd. by apply (reads_lift_ok (Some _) BadLength).
Qed.

Lemma digit_loop_tail negate ds rest : Forall digit_ok ds →
  digit_loop (wr negate) ((wr negate <$> digit_tail ds) ++ rest) = (Ok ds, S (length ds)).
Proof.
  induction 1 as [|d ds Hd Hds IH].
  { cbn. by rewrite (wr_involutive negate 0). }
  change (digit_tail (d :: ds)) with ((1 + d)%Z :: digit_tail ds). rewrite fmap_cons. cbn [app digit_loop length].
  rewrite wr_involutive. unfold digit_ok in Hd. rewrite decide_False by lia. rewrite decide_False by lia.
  rewrite IH. cbn. do 3 f_equal. lia.
Qed.

Lemma read_digits_reads negate ds : Forall digit_ok ds → reads (read_digits (wr negate)) (wr negate <$> digit_tail ds) ds.
Proof.
  intros Hds r rest Hok Hrem. unfold read_digits. rewrite Hrem, digit_loop_tail by done.
  unfold digit_tail. rewrite length_fmap, length_app, length_fmap. cbn. unfold mbind, ST_bind, advance, ST_lift.
  by rewrite Nat.add_1_r.
Qed.

(** The checked accumulation of a coefficient that fits. *)
Definition signed_of (negate : bool) (v : Z) : Z := if negate then (- v)%Z else v.

Lemma dec_value_mono w ds : Forall digit_ok ds → (0 ≤ w → w ≤ dec_value w ds)%Z.
Proof.
  intros Hd. revert w. induction Hd as [|d ds Hd _ IH]; intros w Hw; [done|]. unfold digit_ok in Hd.
  change (dec_value w (d :: ds)) with (dec_value (w * 10 + d) ds). specialize (IH (w * 10 + d)%Z ltac:(lia)). lia.
Qed.

Lemma accumulate_ok negate ds : Forall digit_ok ds → i128_ok (signed_of negate (dec_value 0 ds)) →
  accumulate negate ds = Some (signed_of negate (dec_value 0 ds)).
Proof.
  unfold accumulate. intros Hd. assert (∀ w, (0 ≤ w)%Z → i128_ok (signed_of negate (dec_value w ds)) →
    fold_left (λ acc d, v ← acc; m ← checked i128_ok (v * 10)%Z; checked i128_ok (if negate then m - d else m + d)%Z) ds
      (Some (signed_of negate w)) = Some (signed_of negate (dec_value w ds))) as Hgen.
  { induction Hd as [|d ds Hd Hds IH]; intros w Hw Hok; [done|]. unfold digit_ok in Hd.
    change (dec_value w (d :: ds)) with (dec_value (w * 10 + d) ds) in *.
    pose proof (dec_value_mono (w * 10 + d) ds Hds ltac:(lia)) as Hm. cbn [fold_left].
    assert (checked i128_ok (signed_of negate w * 10)%Z = Some (signed_of negate w * 10)%Z) as E1.
    { apply checked_Some. split; [done|]. unfold signed_of, i128_ok in *. destruct negate; lia. }
    assert (checked i128_ok (if negate then signed_of negate w * 10 - d else signed_of negate w * 10 + d)%Z =
      Some (signed_of negate (w * 10 + d))) as E2.
    { apply checked_Some. unfold signed_of, i128_ok in *. destruct negate; split; lia. }
    cbn [mbind option_bind]. rewrite E1. cbn [mbind option_bind]. rewrite E2. apply IH; [lia|done]. }
  intros Hok. specialize (Hgen 0%Z ltac:(done) Hok). by destruct negate.
Qed.

Lemma decimal_new_id d : decimal_ok d → decimal_new (unscaled d) (scale d) = d.
Proof.
  intros Hd. pose proof Hd as (Hu & Hs & _). destruct (decimal_new_spec _ _ Hu Hs) as (Hn & Hr & _). by apply decimal_unique.
Qed.

Lemma read_decimal_reads d : decimal_ok d → reads read_decimal (canon_bytes d) d.
Proof.
  intros Hd. rewrite decimal_bytes. unfold read_decimal. case_decide as H0.
  { pose proof Hd as (_ & _ & _ & Hs). apply (reads_bind_last _ _ [SIGN_ZERO] SIGN_ZERO); [apply read_u8_reads|].
    rewrite decide_True by done. destruct d as [u s]. cbn in *. subst. rewrite Hs by done. apply reads_ret. }
  destruct (decimal_digits d Hd H0) as (Hv & Hds & Hne & _ & _).
  set (negate := bool_decide (unscaled d < 0)%Z).
  assert (signed_of negate (Z.abs (unscaled d)) = unscaled d) as Hsg.
  { unfold signed_of, negate. case_bool_decide; lia. }
  assert ((if decide (unscaled d < 0)%Z then SIGN_NEG :: (byte_not <$> magnitude_bytes d) else SIGN_POS :: magnitude_bytes d) =
    [if negate then SIGN_NEG else SIGN_POS] ++ (wr negate <$> magnitude_bytes d)) as ->.
  { unfold negate. case_decide; [by rewrite bool_decide_true|rewrite bool_decide_false by done]. cbn. f_equal.
    rewrite <-(list_fmap_id (magnitude_bytes d)) at 1. done. }
  eapply reads_bind; [apply read_u8_reads|]. rewrite decide_False by (by destruct negate).
  rewrite decide_True by (destruct negate; [by left|by right]).
  assert (bool_decide ((if negate then SIGN_NEG else SIGN_POS) = SIGN_NEG) = negate) as -> by (by destruct negate). cbv zeta.
  change (λ b : Z, if negate then byte_not b else b) with (wr negate).
  unfold magnitude_bytes, digits_and_exponent. rewrite fmap_app. destruct (exponent_ok d Hd) as [_ He]. fold (exponent_of d).
  eapply reads_bind; [by apply read_exponent_reads|]. eapply reads_bind_last; [by apply read_digits_reads|].
  rewrite decide_False by done. pose proof Hd as (Hu & Hs & _).
  assert (Z.of_nat (length (digits (Z.abs (unscaled d)))) - 1 - exponent_of d = scale d)%Z as -> by (unfold exponent_of; lia).
  eapply reads_bind_last; [apply reads_lift_ok, checked_Some; split; [done|unfold u8_ok in Hs; int_lia]|].
  eapply reads_bind_last; [by apply reads_lift_ok, checked_Some|].
  eapply reads_bind_last; [apply reads_lift_ok; rewrite accumulate_ok; [reflexivity|done|by rewrite Hv, Hsg]|].
  rewrite Hv, Hsg, decimal_new_id by done. apply reads_ret.
Qed.

(** Whatever is read is a normal form. *)
Lemma read_decimal_ok r d r' : read_decimal r = (Ok d, r') → decimal_ok d.
Proof.
  unfold read_decimal. intros (sign & r1 & _ & H)%ST_bind_Ok. case_decide; [by injection H as <- _; repeat split; vm_compute; (done || by left)|].
  case_decide; [|done]. cbv zeta in H. apply ST_bind_Ok in H as (e & r2 & _ & H). apply ST_bind_Ok in H as (ds & r3 & _ & H).
  case_decide; [done|]. apply ST_bind_Ok in H as (diff & r4 & _ & H). apply ST_bind_Ok in H as (s & r5 & Hs & H).
  apply ST_bind_Ok in H as (u & r6 & Hu & H). injection Hs as Hs _. injection Hu as Hu _. injection H as <- _.
  apply ok_or_Ok, checked_Some in Hs as [-> Hs]. apply ok_or_Ok in Hu. apply decimal_new_spec; [|done].
  destruct ds as [|x ds _] using rev_ind; [done|]. unfold accumulate in Hu. rewrite fold_left_app in Hu. cbn in Hu.
  destruct (fold_left _ ds (Some 0%Z)) as [v|]; [|done]. cbn in Hu. destruct (checked i128_ok (v * 10)) as [m|]; [|done]. cbn in Hu.
  by apply checked_Some in Hu as [-> ?].
Qed.

(** ** The order *)

Definition numeric_order (a b : Decimal) : comparison :=
  Z.compare (unscaled a * 10 ^ scale b) (unscaled b * 10 ^ scale a).

Lemma numeric_order_eq a b : decimal_ok a → decimal_ok b → numeric_order a b = Eq → a = b.
Proof. intros Ha Hb He. apply decimal_unique; [done|done|]. unfold denotes_ratio. by apply Z.compare_eq. Qed.

(** Distinct decimals are ordered by their encodings, whatever follows these. *)
Lemma decimal_bytes_order a b r1 r2 : decimal_ok a → decimal_ok b → a ≠ b →
  lex_compare (canon_bytes a ++ r1) (canon_bytes b ++ r2) = numeric_order a b.
Proof.
  intros Ha Hb Hne. unfold numeric_order.
  assert (unscaled a * 10 ^ scale b ≠ unscaled b * 10 ^ scale a)%Z as Hr by (intros He; by apply Hne, decimal_unique).
  pose proof Ha as (_ & [Sa _] & _). pose proof Hb as (_ & [Sb _] & _).
  assert (0 < 10 ^ scale a ∧ 0 < 10 ^ scale b)%Z as [Pa Pb] by (split; apply Z.pow_pos_nonneg; lia).
  rewrite !decimal_bytes. unfold SIGN_NEG, SIGN_ZERO, SIGN_POS.
  repeat case_decide; cbn [app lex_compare cmp Ord_Z Z.compare]; symmetry;
    try (apply Z.compare_lt_iff; nia); try (apply Z.compare_gt_iff; nia).
  - rewrite H, H0 in Hr. done.
  - assert (Z.abs (unscaled a) * 10 ^ scale b ≠ Z.abs (unscaled b) * 10 ^ scale a)%Z as Hr' by (rewrite !Z.abs_neq by lia; lia).
    destruct (differ_compare _ _ r1 r2 (magnitude_differ a b Ha Hb ltac:(done) ltac:(done) Hr')) as [_ Hc].
    etransitivity; [|symmetry; exact Hc]. pose proof (magnitude_compare a b [] [] Ha Hb ltac:(done) ltac:(done) Hr') as Hm.
    rewrite !app_nil_r in Hm. rewrite Hm, !Z.abs_neq, !Z.mul_opp_l, <-Z.compare_opp, Z.compare_antisym by lia. done.
  - assert (Z.abs (unscaled a) * 10 ^ scale b ≠ Z.abs (unscaled b) * 10 ^ scale a)%Z as Hr' by (rewrite !Z.abs_eq by lia; lia).
    pose proof (magnitude_compare a b r1 r2 Ha Hb ltac:(done) ltac:(done) Hr') as Hm.
    rewrite !Z.abs_eq in Hm by lia. symmetry. exact Hm.
Qed.

#[export] Instance prefix_free_decimal : PrefixFree decimal_ok (canon_bytes (A := Decimal)).
Proof.
  intros a b r1 r2 Ha Hb H. assert (a = b) as <-; [|by apply app_inv_head in H]. destruct (decide (a = b)) as [|Hne]; [done|].
  pose proof (decimal_bytes_order a b r1 r2 Ha Hb Hne) as Ho. rewrite H in Ho. apply (numeric_order_eq a b Ha Hb). rewrite <-Ho.
  apply (cmp_refl (A := list Z)).
Qed.

(** * Properties *)

(** Decimals are normal forms, and survive the codec. Construction keeps the number and
    drops the zeros below the point, so equal numbers are equal values; what is written is
    read back, whatever follows it; and whatever is read, is a normal form. *)
Theorem decimal_codec_exact :
  (∀ u s, i128_ok u → u8_ok s → decimal_ok (decimal_new u s) ∧ denotes_ratio (decimal_new u s) u s) ∧
  (∀ a b, decimal_ok a → decimal_ok b → a = b ↔ denotes_ratio a (unscaled b) (scale b)) ∧
  (∀ d, decimal_ok d → reads read_decimal (canon_bytes d) d) ∧
  (∀ r d r', read_decimal r = (Ok d, r') → decimal_ok d).
Proof.
  split_and!.
  - intros u s Hu Hs. destruct (decimal_new_spec u s Hu Hs) as (? & ? & _). done.
  - intros a b Ha Hb. split; [by intros ->|by apply decimal_unique].
  - apply read_decimal_reads.
  - apply read_decimal_ok.
Qed.

Lemma decimal_codec_exact_witness :
  read_decimal (reader_new (canon_bytes (mkDecimal (-153) 1) ++ [7%Z])) = (Ok (mkDecimal (-153) 1), mkReader (canon_bytes (mkDecimal (-153) 1) ++ [7%Z]) (length (canon_bytes (mkDecimal (-153) 1)))).
Proof.
  refine (proj1 (proj2 (proj2 decimal_codec_exact)) (mkDecimal (-153) 1) _ (reader_new _) [7%Z] _ _).
  - split; [vm_compute; split; [discriminate|reflexivity]|]. split; [vm_compute; split; [discriminate|reflexivity]|].
    split; [right; vm_compute; discriminate|intros Hd; discriminate Hd].
  - apply reader_new_ok; [apply (bool_decide_unpack _); vm_compute; exact I|vm_compute; reflexivity].
  - reflexivity.
Defined.

(** The order of encodings is the order of numbers. For any two decimals, of any scales
    and signs, comparing the bytes of their encodings, whatever follows them, compares
    [u1 / 10^s1] with [u2 / 10^s2]: sorting canonical keys sorts the numbers. *)
Theorem decimal_order_numeric a b (r1 r2 : bytes) : decimal_ok a → decimal_ok b →
  let numeric := Z.compare (unscaled a * 10 ^ scale b) (unscaled b * 10 ^ scale a) in
  cmp a b = numeric ∧ (a ≠ b → lex_compare (canon_bytes a ++ r1) (canon_bytes b ++ r2) = numeric).
Proof.
  intros Ha Hb numeric. split; [|intros Hne; by apply decimal_bytes_order]. unfold cmp, Ord_Decimal.
  destruct (decide (a = b)) as [->|Hne].
  - unfold numeric. rewrite Z.compare_refl. apply (cmp_refl (A := list Z)).
  - pose proof (decimal_bytes_order a b [] [] Ha Hb Hne) as H. by rewrite !app_nil_r in H.
Qed.

Lemma decimal_order_numeric_witness : cmp (mkDecimal (-153) 1) (mkDecimal (-15) 0) = Lt.
Proof.
  refine (proj1 (decimal_order_numeric (mkDecimal (-153) 1) (mkDecimal (-15) 0) [] [] _ _)).
  all: split; [vm_compute; split; [discriminate|reflexivity]|]; split; [vm_compute; split; [discriminate|reflexivity]|].
  - split; [right; vm_compute; discriminate|intros Hd; discriminate Hd].
  - split; [by left|done].
Defined.

(** The reader accepts more than the writer writes: a leading zero digit. *)
Lemma read_decimal_not_canonical :
  let five := SIGN_POS :: encode_int 0 ++ digit_tail [5]%Z in
  let padded := SIGN_POS :: encode_int 1 ++ digit_tail [0; 5]%Z in
  canon_bytes (mkDecimal 5 0) = five ∧ padded ≠ five ∧
  from_canon_bytes read_decimal five = Ok (mkDecimal 5 0) ∧ from_canon_bytes read_decimal padded = Ok (mkDecimal 5 0).
Proof. vm_compute. split_and!; done. Qed.
