(* ===== verification/DecimalMath.v ===== *)
(** Checked arithmetic of exact decimals (src/crates/brix-canon/src/decimal_math.rs).

    Text is its UTF-8 bytes. A decimal denotes the rational [unscaled / 10^scale]; the theorems
    compare it with the rationals by cross multiplication. [i128] and [u128] operations are the
    checked ones of the source. *)
From S2P Require Import Prelude IntCodec Canon CanonLaws Encoding Decimal.

Definition MAX_DECIMAL_SCALE : Z := 18.

Inductive NumericError : Type :=
  InvalidNumber | NonFinite | Overflow | ScaleOutOfRange | DivisionByZero | InexactDivision | InvalidRoundingMode.
#[export] Instance NumericError_eq_dec : EqDecision NumericError.
Proof. solve_decision. Defined.

Definition admitted (value : Decimal) : result NumericError Decimal :=
  if decide (MAX_DECIMAL_SCALE < scale value)%Z then Err ScaleOutOfRange else Ok value.

Definition signed (magnitude : Z) (negative : bool) : result NumericError Z :=
  if decide (negative = true ∧ magnitude = 2 ^ 127)%Z then Ok (- 2 ^ 127)%Z else
  value ← ok_or (checked i128_ok magnitude) Overflow;
  Ok (if negative then - value else value)%Z.

(** ** Text *)

Definition PLUS : Z := 43.
Definition MINUS : Z := 45.
Definition DOT : Z := 46.
Definition DIGIT0 : Z := 48.

Definition is_ascii_digit (b : Z) : bool := bool_decide (DIGIT0 ≤ b ≤ DIGIT0 + 9)%Z.

(** [str::split_once] at the first occurrence. *)
Fixpoint split_once (c : Z) (s : bytes) : option (bytes * bytes) :=
  match s with
  | [] => None
  | b :: s' => if decide (b = c) then Some ([], s') else '(l, r) ← split_once c s'; Some (b :: l, r)
  end.

(** [str::trim_end_matches]. *)
Fixpoint trim_end_matches (c : Z) (s : bytes) : bytes :=
  match s with
  | [] => []
  | b :: s' => let t := trim_end_matches c s' in if decide (t = [] ∧ b = c) then [] else b :: t
  end.

Definition parse_magnitude (ds : bytes) : option Z :=
  fold_left (λ acc b, v ← acc; m ← checked u128_ok (v * 10)%Z; checked u128_ok (m + (b - DIGIT0))%Z) ds (Some 0%Z).

Definition split_sign (text : bytes) : bool * bytes :=
  match text with
  | b :: rest => if decide (b = MINUS) then (true, rest) else if decide (b = PLUS) then (false, rest) else (false, text)
  | [] => (false, text)
  end.

Definition decimal_parse (text : bytes) : result NumericError Decimal :=
  let '(negative, unsigned) := split_sign text in
  let '(integer, fractional) := default (unsigned, []) (split_once DOT unsigned) in
  if bool_decide (integer = []) || negb (forallb is_ascii_digit integer) || negb (forallb is_ascii_digit fractional)
     || (bool_decide (DOT ∈ unsigned) && bool_decide (fractional = []))
  then Err InvalidNumber else
  let fractional := trim_end_matches DIGIT0 fractional in
  if decide (MAX_DECIMAL_SCALE < Z.of_nat (length fractional))%Z then Err ScaleOutOfRange else
  magnitude ← ok_or (parse_magnitude (integer ++ fractional)) Overflow;
  value ← signed magnitude negative;
  Ok (decimal_new value (Z.of_nat (length fractional))).

(** [u128::to_string]. *)
Definition u128_to_string (m : Z) : bytes :=
  (λ d, DIGIT0 + d)%Z <$> (if decide (m = 0%Z) then [0%Z] else digits m).

(** [String::insert] at a byte index. *)
Definition string_insert (s : bytes) (i : nat) (c : Z) : bytes := take i s ++ c :: drop i s.

Definition decimal_format (value : Decimal) : bytes :=
  let digits := u128_to_string (Z.abs (unscaled value)) in
  let scale := Z.to_nat (scale value) in
  let digits :=
    if decide (0 < scale) then
      let digits := if decide (length digits ≤ scale)
        then replicate (scale + 1 - length digits) DIGIT0 ++ digits else digits in
      string_insert digits (length digits - scale) DOT
    else digits in
  if decide (unscaled value < 0)%Z then string_insert digits 0 MINUS else digits.

(** ** Addition, subtraction, negation, multiplication *)

Definition decimal_from_i64 (value : Z) : Decimal := decimal_new value 0.

Definition rescale (s : Z) (v : Decimal) : result NumericError Z :=
  ok_or (checked i128_ok (unscaled v * 10 ^ (s - scale v))%Z) Overflow.

Definition align (a b : Decimal) : result NumericError (Z * Z * Z) :=
  _ ← admitted a;
  _ ← admitted b;
  let s := Z.max (scale a) (scale b) in
  x ← rescale s a;
  y ← rescale s b;
  Ok (x, y, s).

Definition decimal_add (a b : Decimal) : result NumericError Decimal :=
  '(a, b, s) ← align a b;
  c ← ok_or (checked i128_ok (a + b)%Z) Overflow;
  Ok (decimal_new c s).

Definition decimal_sub (a b : Decimal) : result NumericError Decimal :=
  '(a, b, s) ← align a b;
  c ← ok_or (checked i128_ok (a - b)%Z) Overflow;
  Ok (decimal_new c s).

Definition decimal_neg (value : Decimal) : result NumericError Decimal :=
  _ ← admitted value;
  c ← ok_or (checked i128_ok (- unscaled value)%Z) Overflow;
  Ok (decimal_new c (scale value)).

Definition decimal_mul (a b : Decimal) : result NumericError Decimal :=
  _ ← admitted a;
  _ ← admitted b;
  c ← ok_or (checked i128_ok (unscaled a * unscaled b)%Z) Overflow;
  admitted (decimal_new c (scale a + scale b)).

(** ** Division *)

(** Euclid's loop; a remainder halves in two rounds, so 257 rounds suffice for [u128]. *)
Definition GCD_FUEL : nat := 257.
Fixpoint gcd_loop (fuel : nat) (a b : Z) : option Z :=
  if decide (b = 0%Z) then Some a else
  match fuel with
  | O => None
  | S fuel' => gcd_loop fuel' b (a mod b)%Z
  end.
Definition gcd (a b : Z) : Z := default 0%Z (gcd_loop GCD_FUEL a b).

Definition ratio (a b : Decimal) (output_scale : Z) : result NumericError (Z * Z * bool) :=
  _ ← admitted a;
  _ ← admitted b;
  if decide (unscaled b = 0%Z) then Err DivisionByZero else
  let numerator := Z.abs (unscaled a) in
  let denominator := Z.abs (unscaled b) in
  let common := gcd numerator denominator in
  let numerator := (numerator / common)%Z in
  let denominator := (denominator / common)%Z in
  let exponent := (scale b + output_scale - scale a)%Z in
  let factor := (10 ^ Z.abs exponent)%Z in
  let negative := xorb (bool_decide (unscaled a < 0)%Z) (bool_decide (unscaled b < 0)%Z) in
  if decide (0 ≤ exponent)%Z then
    let common := gcd factor denominator in
    let denominator := (denominator / common)%Z in
    numerator ← ok_or (checked u128_ok (numerator * (factor / common))%Z) Overflow;
    Ok (numerator, denominator, negative)
  else
    let common := gcd factor numerator in
    let numerator := (numerator / common)%Z in
    denominator ← ok_or (checked u128_ok (denominator * (factor / common))%Z) Overflow;
    Ok (numerator, denominator, negative).

(** The long division of [decimal_div_exact]; [left] is [MAX_DECIMAL_SCALE - scale]. *)
Fixpoint long_division (left : nat) (denominator coefficient remainder scale : Z) : result NumericError (Z * Z) :=
  if decide (remainder = 0%Z) then Ok (coefficient, scale) else
  match left with
  | O => Err InexactDivision
  | S left' =>
    remainder ← ok_or (checked u128_ok (remainder * 10)%Z) Overflow;
    coefficient ← ok_or (v ← checked u128_ok (coefficient * 10)%Z; checked u128_ok (v + remainder / denominator)%Z) Overflow;
    long_division left' denominator coefficient (remainder mod denominator)%Z (scale + 1)%Z
  end.

Definition decimal_div_exact (a b : Decimal) : result NumericError Decimal :=
  '(numerator, denominator, negative) ← ratio a b 0;
  '(coefficient, scale) ← long_division (Z.to_nat MAX_DECIMAL_SCALE) denominator
    (numerator / denominator)%Z (numerator mod denominator)%Z 0;
  value ← signed coefficient negative;
  Ok (decimal_new value scale).

(** The mode is a string of the source. *)
Definition increment_of (mode : string) (negative : bool) (coefficient remainder denominator : Z) : bool :=
  bool_decide (remainder ≠ 0%Z) &&
  (if decide (mode = "floor"%string) then negative
   else if decide (mode = "ceil"%string) then negb negative
   else if decide (mode = "half_even"%string) then
     bool_decide (denominator - remainder < remainder)%Z
     || (bool_decide (remainder = denominator - remainder)%Z && bool_decide (coefficient mod 2 = 1)%Z)
   else false).

Definition decimal_div_round (a b : Decimal) (scale : Z) (mode : string) : result NumericError Decimal :=
  if decide (MAX_DECIMAL_SCALE < scale)%Z then Err ScaleOutOfRange else
  if decide (mode ∉ ["floor"; "ceil"; "half_even"; "trunc"]%string) then Err InvalidRoundingMode else
  '(numerator, denominator, negative) ← ratio a b scale;
  let coefficient := (numerator / denominator)%Z in
  let remainder := (numerator mod denominator)%Z in
  coefficient ← (if increment_of mode negative coefficient remainder denominator
    then ok_or (checked u128_ok (coefficient + 1)%Z) Overflow else Ok coefficient);
  value ← signed coefficient negative;
  Ok (decimal_new value scale).

(** * Text *)

Lemma split_once_Some c s l r : split_once c s = Some (l, r) → s = l ++ c :: r ∧ c ∉ l.
Proof.
  revert l. induction s as [|b s IH]; intros l H; [done|]. cbn in H. case_decide as Hb.
  - injection H as <- <-. subst b. split; [done|apply not_elem_of_nil].
  - destruct (split_once c s) as [[l' r']|]; [|done]. injection H as <- <-. destruct (IH l' eq_refl) as [-> Hn].
    split; [done|]. rewrite not_elem_of_cons. split; [congruence|done].
Qed.

Lemma split_once_app c l r : c ∉ l → split_once c (l ++ c :: r) = Some (l, r).
Proof.
  induction l as [|b l IH]; intros Hn; cbn; [by rewrite decide_True|].
  apply not_elem_of_cons in Hn as [Hb Hn]. by rewrite decide_False, IH by congruence.
Qed.

Lemma split_once_None c s : split_once c s = None ↔ c ∉ s.
Proof.
  split; [|intros Hn; destruct (split_once c s) as [[l r]|] eqn:E; [|done]].
  - intros E Hin. apply list_elem_of_split in Hin. revert E Hin. induction s as [|b s IH]; intros E (l & r & Hs); [by destruct l|].
    cbn in E. case_decide as Hb; [done|]. destruct (split_once c s) as [[??]|]; [done|].
    apply IH; [done|]. destruct l as [|x l]; cbn in Hs; [congruence|]. injection Hs as -> ->. eauto.
  - apply split_once_Some in E as [-> _]. destruct Hn. apply elem_of_app. right. by left.
Qed.

Lemma trim_end_spec c s : ∃ k, s = trim_end_matches c s ++ replicate k c ∧ last (trim_end_matches c s) ≠ Some c.
Proof.
  induction s as [|b s (k & Hs & Hl)]; [by exists 0|]. cbn [trim_end_matches]. cbv zeta. case_decide as Hc.
  - destruct Hc as [Ht ->]. rewrite Ht in Hs. exists (S k). by rewrite Hs at 1.
  - exists k. split; [cbn; by rewrite <-Hs|]. destruct (trim_end_matches c s) as [|x t] eqn:E.
    + intros [=->]. by apply Hc.
    + by rewrite last_cons_cons.
Qed.

Definition ascii_digit (b : Z) : Prop := (DIGIT0 ≤ b ≤ DIGIT0 + 9)%Z.
Definition digit_values (s : bytes) : list Z := (λ b, b - DIGIT0)%Z <$> s.

Lemma forallb_ascii s : forallb is_ascii_digit s = true ↔ Forall ascii_digit s.
Proof.
  induction s as [|b s IH]; cbn; [done|]. rewrite andb_true_iff, IH, Forall_cons. unfold is_ascii_digit. by rewrite bool_decide_eq_true.
Qed.

Lemma digit_values_ok s : Forall ascii_digit s → Forall digit_ok (digit_values s).
Proof. intros H. apply Forall_fmap. eapply Forall_impl; [exact H|]. unfold ascii_digit, digit_ok, DIGIT0. intros b ?. cbn. lia. Qed.

Lemma dec_value_nonneg ds : Forall digit_ok ds → (0 ≤ dec_value 0 ds)%Z.
Proof. intros H. by apply (dec_value_mono 0 ds H). Qed.

Lemma dec_value_zeros v k : dec_value v (replicate k 0%Z) = (v * 10 ^ Z.of_nat k)%Z.
Proof.
  revert v. induction k as [|k IH]; intros v; [cbn; lia|]. cbn [replicate]. change (dec_value v (0%Z :: replicate k 0%Z)) with (dec_value (v * 10 + 0) (replicate k 0%Z)).
  rewrite IH, Nat2Z.inj_succ, Z.pow_succ_r by lia. lia.
Qed.

Lemma dec_value_app v d1 d2 : dec_value v (d1 ++ d2) = dec_value (dec_value v d1) d2.
Proof. unfold dec_value. apply fold_left_app. Qed.

Lemma parse_magnitude_spec s : Forall ascii_digit s → parse_magnitude s = checked u128_ok (dec_value 0 (digit_values s)).
Proof.
  intros Hs. unfold parse_magnitude. assert (∀ w, u128_ok w →
    fold_left (λ acc b, v ← acc; m ← checked u128_ok (v * 10)%Z; checked u128_ok (m + (b - DIGIT0))%Z) s (Some w) =
    checked u128_ok (dec_value w (digit_values s))) as Hgen; [|apply Hgen; int_lia].
  induction Hs as [|b s Hb Hs IH]; intros w Hw; [symmetry; by apply checked_ok|]. cbn [fold_left digit_values fmap list_fmap].
  fold (digit_values s). change (dec_value w ((b - DIGIT0)%Z :: digit_values s)) with (dec_value (w * 10 + (b - DIGIT0)) (digit_values s)).
  unfold ascii_digit in Hb. destruct (decide (u128_ok (w * 10 + (b - DIGIT0)))) as [Hok|Hno].
  - rewrite <-IH by done. cbn [mbind option_bind]. rewrite checked_ok by int_lia. cbn [mbind option_bind]. by rewrite checked_ok.
  - pose proof (dec_value_mono (w * 10 + (b - DIGIT0)) _ (digit_values_ok s Hs) ltac:(unfold u128_ok in *; lia)) as Hm.
    assert (checked u128_ok (dec_value (w * 10 + (b - DIGIT0)) (digit_values s)) = None) as ->
      by (unfold checked; rewrite decide_False by int_lia; done).
    assert (∀ l, fold_left (λ acc b, v ← acc; m ← checked u128_ok (v * 10)%Z; checked u128_ok (m + (b - DIGIT0))%Z) l None = None) as Hn
      by (induction l; done).
    cbn [mbind option_bind]. destruct (checked u128_ok (w * 10)) as [m|] eqn:E; [|apply Hn]. apply checked_Some in E as [-> _].
    cbn. unfold checked. rewrite decide_False by done. apply Hn.
Qed.

Lemma signed_spec m (neg : bool) v : (0 ≤ m)%Z → signed m neg = Ok v ↔ v = (if neg then - m else m)%Z ∧ i128_ok v.
Proof.
  intros Hm. unfold signed. case_decide as H1.
  - destruct H1 as [-> ->]. split; [intros [=<-]; split; [done|int_lia]|by intros [-> _]].
  - split.
    + intros (w & Hw & [=<-])%result_bind_Ok. apply ok_or_Ok, checked_Some in Hw as [-> Hw]. split; [by destruct neg|destruct neg; int_lia].
    + intros [-> Hv]. rewrite checked_ok; [by destruct neg|]. destruct neg; [|done]. assert (m ≠ 2 ^ 127)%Z by intuition. int_lia.
Qed.

(** The grammar [[+-]digits[.digits]]. *)
Definition numeral (text : bytes) (negative : bool) (integer fractional : bytes) : Prop :=
  integer ≠ [] ∧ Forall ascii_digit integer ∧ Forall ascii_digit fractional ∧
  ∃ sign, sign ++ integer ++ (if decide (fractional = []) then [] else DOT :: fractional) = text ∧
    (if negative then sign = [MINUS] else sign = [] ∨ sign = [PLUS]).

(** The number a numeral denotes is [numeral_value / 10 ^ length fractional]. *)
Definition numeral_value (negative : bool) (integer fractional : bytes) : Z :=
  let v := dec_value 0 (digit_values (integer ++ fractional)) in if negative then (- v)%Z else v.

Lemma dot_not_digit s : Forall ascii_digit s → DOT ∉ s.
Proof. rewrite Forall_forall. intros H Hin%H. unfold ascii_digit, DOT, DIGIT0 in Hin. lia. Qed.

(** The numeral a text is, before the trailing zeros are trimmed. *)
Lemma numeral_split text neg i f : numeral text neg i f ↔
  ∃ unsigned, split_sign text = (neg, unsigned) ∧ default (unsigned, []) (split_once DOT unsigned) = (i, f) ∧
    bool_decide (i = []) || negb (forallb is_ascii_digit i) || negb (forallb is_ascii_digit f)
     || (bool_decide (DOT ∈ unsigned) && bool_decide (f = [])) = false.
Proof.
  split.
  - intros (Hi & Hdi & Hdf & sign & <- & Hsign). exists (i ++ (if decide (f = []) then [] else DOT :: f)).
    pose proof (dot_not_digit i Hdi) as Hni. split; [|split].
    + destruct neg; [by subst sign|]. destruct Hsign as [-> | ->]; [|done]. destruct i as [|b i]; [done|]. cbn.
      apply Forall_cons in Hdi as [Hb _]. unfold ascii_digit, DIGIT0, MINUS, PLUS in *. by rewrite !decide_False by lia.
    + case_decide as Hf.
      * subst f. rewrite app_nil_r. by rewrite (proj2 (split_once_None DOT i)).
      * by rewrite split_once_app.
    + rewrite bool_decide_false by done. rewrite (proj2 (forallb_ascii i)), (proj2 (forallb_ascii f)) by done. cbn.
      case_decide as Hf; [|by rewrite (bool_decide_false (f = [])), andb_false_r by done].
      rewrite app_nil_r. by rewrite bool_decide_false.
  - intros (u & Hsg & Hdef & Hc). rewrite !orb_false_iff, !negb_false_iff, !forallb_ascii, bool_decide_eq_false in Hc.
    destruct Hc as [[[Hi Hdi] Hdf] Hd]. split_and!; try done.
    assert (i ++ (if decide (f = []) then [] else DOT :: f) = u) as Hu.
    { destruct (split_once DOT u) as [[l r]|] eqn:E; cbn in Hdef; injection Hdef as <- <-.
      - apply split_once_Some in E as [-> _]. rewrite decide_False; [done|]. intros ->.
        rewrite bool_decide_true in Hd; [done|]. apply elem_of_app. right. by left.
      - by rewrite decide_True, app_nil_r by done. }
    rewrite Hu. clear Hu Hdef. unfold split_sign in Hsg. destruct text as [|b text]; [injection Hsg as <- <-; exists []; auto|].
    case_decide as Hm; [rewrite Hm; injection Hsg as <- <-; by exists [MINUS]|].
    case_decide as Hp; [rewrite Hp; injection Hsg as <- <-; exists [PLUS]; auto|]. injection Hsg as <- <-. exists []. auto.
Qed.

Lemma numeral_value_trim neg i t k : numeral_value neg i (t ++ replicate k DIGIT0) = (numeral_value neg i t * 10 ^ Z.of_nat k)%Z.
Proof.
  unfold numeral_value, digit_values. rewrite app_assoc, !fmap_app, fmap_replicate, dec_value_app, dec_value_zeros. destruct neg; lia.
Qed.

Lemma numeral_value_normal neg i t : Forall ascii_digit i → Forall ascii_digit t → last t ≠ Some DIGIT0 →
  Z.of_nat (length t) = 0%Z ∨ Z.rem (numeral_value neg i t) 10 ≠ 0%Z.
Proof.
  intros Hi Ht Hl. destruct t as [|x t _] using rev_ind; [by left|]. right. rewrite last_snoc in Hl. apply Forall_app in Ht as [Ht Hx].
  rewrite Forall_singleton in Hx. unfold numeral_value, digit_values. rewrite app_assoc, fmap_app. cbn [fmap list_fmap]. rewrite dec_value_snoc.
  assert (0 ≤ dec_value 0 ((λ b, b - DIGIT0)%Z <$> i ++ t))%Z as Hp by (apply dec_value_nonneg, digit_values_ok, Forall_app; done).
  assert (x ≠ DIGIT0) by congruence. unfold ascii_digit in Hx.
  destruct neg; rewrite ?Z.rem_opp_l by lia; rewrite Z.rem_mod_nonneg, Z.add_comm, Z.mod_add, Z.mod_small by lia; lia.
Qed.

(** Parsing accepts the numerals whose value is a decimal of an admitted scale. *)
Lemma decimal_parse_spec text d : decimal_parse text = Ok d ↔
  decimal_ok d ∧ (scale d ≤ MAX_DECIMAL_SCALE)%Z ∧
  ∃ neg i f, numeral text neg i f ∧ denotes_ratio d (numeral_value neg i f) (Z.of_nat (length f)).
Proof.
  unfold decimal_parse. split.
  - destruct (split_sign text) as [neg u] eqn:Hsg. destruct (default _ _) as [i f] eqn:Hdef. destruct (_ || _) eqn:Hc; [done|].
    pose proof (proj2 (numeral_split text neg i f) (ex_intro _ u (conj Hsg (conj Hdef Hc)))) as Hn. clear Hsg Hdef Hc.
    pose proof Hn as (_ & Hdi & Hdf & _). destruct (trim_end_spec DIGIT0 f) as (k & Hf & Hl). set (t := trim_end_matches DIGIT0 f) in *.
    assert (Forall ascii_digit t) as Hdt by (rewrite Hf in Hdf; by apply Forall_app in Hdf as [? _]).
    case_decide as Hs; [done|]. rewrite parse_magnitude_spec by by apply Forall_app.
    assert (0 ≤ dec_value 0 (digit_values (i ++ t)))%Z as Hp by (apply dec_value_nonneg, digit_values_ok, Forall_app; done).
    intros (m & Hm & H)%result_bind_Ok. apply ok_or_Ok, checked_Some in Hm as [-> Hm]. apply result_bind_Ok in H as (v & Hv & [=<-]).
    apply signed_spec in Hv as [Hv Hi128]; [|done]. unfold MAX_DECIMAL_SCALE in *.
    destruct (decimal_new_spec v (Z.of_nat (length t))) as (Ho & Hr & Hsc); [done|int_lia|]. split_and!; [done|lia|].
    exists neg, i, f. split; [done|]. rewrite Hf, numeral_value_trim. change (numeral_value neg i t) with (if neg then - dec_value 0 (digit_values (i ++ t)) else dec_value 0 (digit_values (i ++ t)))%Z.
    rewrite <-Hv. unfold denotes_ratio in *. rewrite length_app, length_replicate, Nat2Z.inj_add, Z.pow_add_r by lia. nia.
  - intros (Ho & Hs & neg & i & f & Hn & Hr). pose proof Hn as (_ & Hdi & Hdf & _).
    apply numeral_split in Hn as (u & -> & -> & ->). destruct (trim_end_spec DIGIT0 f) as (k & Hf & Hl). set (t := trim_end_matches DIGIT0 f) in *.
    assert (Forall ascii_digit t) as Hdt by (rewrite Hf in Hdf; by apply Forall_app in Hdf as [? _]).
    pose proof Ho as (Hu & [Hs0 Hs8] & Hnorm & Hz). rewrite Hf, numeral_value_trim in Hr. unfold denotes_ratio in Hr.
    rewrite length_app, length_replicate, Nat2Z.inj_add, Z.pow_add_r in Hr by lia.
    destruct (normal_unique (unscaled d) (scale d) (numeral_value neg i t) (Z.of_nat (length t))) as [Eu Es]; [done|lia|done|by apply numeral_value_normal| |].
    { apply (Z.mul_reg_r _ _ (10 ^ Z.of_nat k)%Z); [apply Z.pow_nonzero; lia|]. nia. }
    rewrite decide_False by lia. rewrite parse_magnitude_spec by by apply Forall_app.
    assert (0 ≤ dec_value 0 (digit_values (i ++ t)))%Z as Hp by (apply dec_value_nonneg, digit_values_ok, Forall_app; done).
    assert (u128_ok (dec_value 0 (digit_values (i ++ t)))) as Hm by (unfold numeral_value in Eu; destruct neg; int_lia).
    rewrite checked_ok by done. cbn [ok_or mbind result_bind].
    rewrite (proj2 (signed_spec _ neg (unscaled d) Hp)) by done. cbn [mbind result_bind]. by rewrite <-Es, decimal_new_id.
Qed.

(** ** Formatting *)

Lemma u128_to_string_spec m : (0 ≤ m ≤ 2 ^ 127)%Z →
  u128_to_string m ≠ [] ∧ Forall ascii_digit (u128_to_string m) ∧ dec_value 0 (digit_values (u128_to_string m)) = m.
Proof.
  intros Hm. unfold u128_to_string, digit_values.
  assert (∀ ds, Forall digit_ok ds → Forall ascii_digit ((λ d, DIGIT0 + d)%Z <$> ds) ∧ (λ b, b - DIGIT0)%Z <$> ((λ d, DIGIT0 + d)%Z <$> ds) = ds) as Hds.
  { induction 1 as [|d ds Hd _ [IH1 IH2]]; [done|]. unfold digit_ok in Hd. rewrite !fmap_cons. split.
    - constructor; [unfold ascii_digit; lia|done].
    - rewrite IH2. f_equal. lia. }
  case_decide as H0; [subst m; repeat split; [done|repeat constructor; unfold ascii_digit; lia]|].
  destruct (digits_spec m) as (Hv & Hd & Hne & _); [lia|]. destruct (Hds _ Hd) as [H1 H2]. rewrite H2. split_and!; [|done|done].
  by intros E%fmap_nil_inv.
Qed.

Lemma decimal_format_numeral d : decimal_ok d →
  ∃ i f, numeral (decimal_format d) (bool_decide (unscaled d < 0)%Z) i f ∧
    numeral_value (bool_decide (unscaled d < 0)%Z) i f = unscaled d ∧ Z.of_nat (length f) = scale d.
Proof.
  intros Ho. pose proof Ho as (Hu & [Hs _] & Hn & Hz). destruct (u128_to_string_spec (Z.abs (unscaled d))) as (Hne & Hd & Hv); [int_lia|].
  assert (∀ p i f, Forall ascii_digit p → dec_value 0 (digit_values p) = Z.abs (unscaled d) → p = i ++ f → i ≠ [] →
    Z.of_nat (length f) = scale d →
    ∃ i' f', numeral (if decide (unscaled d < 0)%Z then MINUS :: i ++ (if decide (f = []) then [] else DOT :: f)
                     else i ++ (if decide (f = []) then [] else DOT :: f)) (bool_decide (unscaled d < 0)%Z) i' f' ∧
      numeral_value (bool_decide (unscaled d < 0)%Z) i' f' = unscaled d ∧ Z.of_nat (length f') = scale d) as Hw.
  { clear Hd Hv. intros p i f Hd Hv -> Hi Hl. apply Forall_app in Hd as [Hdi Hdf]. exists i, f. unfold numeral, numeral_value. rewrite Hv.
    destruct (decide (unscaled d < 0)%Z) as [Hneg|Hneg]; [rewrite bool_decide_true by done|rewrite bool_decide_false by done]; (split; [|split; [lia|done]]);
      (split_and!; [done|done|done|]); [by exists [MINUS]|exists []; auto]. }
  unfold decimal_format. set (ds := u128_to_string (Z.abs (unscaled d))) in *. cbv zeta.
  destruct (decide (0 < Z.to_nat (scale d))) as [Hp|Hp].
  - set (p := if decide (length ds ≤ Z.to_nat (scale d)) then replicate (Z.to_nat (scale d) + 1 - length ds) DIGIT0 ++ ds else ds).
    assert (Forall ascii_digit p ∧ dec_value 0 (digit_values p) = Z.abs (unscaled d) ∧ Z.to_nat (scale d) < length p) as (Hdp & Hvp & Hlp).
    { unfold p. destruct (decide (length ds ≤ Z.to_nat (scale d))); [|split_and!; [done|done|lia]]. split_and!.
      - apply Forall_app. split; [|done]. apply Forall_replicate. unfold ascii_digit. lia.
      - unfold digit_values in *. rewrite fmap_app, fmap_replicate, dec_value_app, dec_value_zeros. done.
      - rewrite length_app, length_replicate. lia. }
    destruct (Hw p (take (length p - Z.to_nat (scale d)) p) (drop (length p - Z.to_nat (scale d)) p)) as (i & f & H); [done|done|by rewrite take_drop| | |].
    + intros E%(f_equal length). rewrite length_take in E. cbn in E. lia.
    + rewrite length_drop. lia.
    + exists i, f. rewrite (decide_False (P := drop (length p - Z.to_nat (scale d)) p = [])) in H; [exact H|]. intros E%(f_equal length). rewrite length_drop in E. cbn in E. lia.
  - destruct (Hw ds ds []) as (i & f & H); [done|done|by rewrite app_nil_r|done|cbn; lia|].
    exists i, f. rewrite (decide_True (P := @nil Z = [])), app_nil_r in H by done. exact H.
Qed.

(** * Arithmetic *)

Lemma admitted_cases d : admitted d = Ok d ∧ (scale d ≤ MAX_DECIMAL_SCALE)%Z ∨ admitted d = Err ScaleOutOfRange ∧ (MAX_DECIMAL_SCALE < scale d)%Z.
Proof. unfold admitted. case_decide; [right|left]; split; done || lia. Qed.

Lemma checked_cases ok `{∀ v, Decision (ok v)} v : checked ok v = Some v ∧ ok v ∨ checked ok v = None ∧ ¬ ok v.
Proof. unfold checked. case_decide; auto. Qed.

(** What a checked operation on admitted decimals whose exact result is [u / 10^s] returns,
    when it computes in [i128] the values that [fits] constrains. *)
Definition computes (r : result NumericError Decimal) (admissible fits : Prop) (u s : Z) : Prop :=
  match r with
  | Ok c => admissible ∧ fits ∧ decimal_ok c ∧ (scale c ≤ MAX_DECIMAL_SCALE)%Z ∧ denotes_ratio c u s
  | Err e => e = ScaleOutOfRange ∧ (¬ admissible ∨ fits ∧ ¬ ∃ c, decimal_ok c ∧ (scale c ≤ MAX_DECIMAL_SCALE)%Z ∧ denotes_ratio c u s)
             ∨ e = Overflow ∧ admissible ∧ ¬ fits
  end.

(** Operands at the common scale. *)
Definition at_scale (v : Decimal) (s : Z) : Z := (unscaled v * 10 ^ (s - scale v))%Z.
Definition common_scale (a b : Decimal) : Z := Z.max (scale a) (scale b).

Lemma align_spec a b :
  match align a b with
  | Ok (x, y, s) => (scale a ≤ MAX_DECIMAL_SCALE ∧ scale b ≤ MAX_DECIMAL_SCALE)%Z ∧
      s = common_scale a b ∧ x = at_scale a s ∧ y = at_scale b s ∧ i128_ok x ∧ i128_ok y
  | Err e => e = ScaleOutOfRange ∧ ¬ (scale a ≤ MAX_DECIMAL_SCALE ∧ scale b ≤ MAX_DECIMAL_SCALE)%Z ∨
      e = Overflow ∧ (scale a ≤ MAX_DECIMAL_SCALE ∧ scale b ≤ MAX_DECIMAL_SCALE)%Z ∧
      ¬ (i128_ok (at_scale a (common_scale a b)) ∧ i128_ok (at_scale b (common_scale a b)))
  end.
Proof.
  unfold align. destruct (admitted_cases a) as [[-> Ha]|[-> Ha]]; cbn; [|left; split; [done|lia]].
  destruct (admitted_cases b) as [[-> Hb]|[-> Hb]]; cbn; [|left; split; [done|lia]].
  unfold rescale. fold (at_scale a (Z.max (scale a) (scale b))) (at_scale b (Z.max (scale a) (scale b))) (common_scale a b).
  destruct (checked_cases i128_ok (at_scale a (common_scale a b))) as [[-> Fa]|[-> Fa]]; cbn; [|right; by split_and!; [..|intros [??]]].
  destruct (checked_cases i128_ok (at_scale b (common_scale a b))) as [[-> Fb]|[-> Fb]]; cbn; [|right; by split_and!; [..|intros [??]]].
  split_and!; done.
Qed.

Lemma at_scale_sum a b (f : Z → Z → Z) : (0 ≤ scale a → 0 ≤ scale b →
  (∀ x y k, f x y * k = f (x * k) (y * k)) →
  let s := common_scale a b in
  f (at_scale a s) (at_scale b s) * 10 ^ (scale a + scale b) = f (unscaled a * 10 ^ scale b) (unscaled b * 10 ^ scale a) * 10 ^ s)%Z.
Proof.
  intros Ha Hb Hf. cbv zeta. rewrite !Hf. unfold at_scale, common_scale. f_equal; rewrite <-!Z.mul_assoc, <-!Z.pow_add_r by lia; f_equal; f_equal; lia.
Qed.

(** Sums and differences, through the common scale. *)
Lemma aligned_computes a b (f : Z → Z → Z) : decimal_ok a → decimal_ok b → (∀ x y k, f x y * k = f (x * k) (y * k))%Z →
  let s := common_scale a b in
  computes ('(x, y, s) ← align a b; c ← ok_or (checked i128_ok (f x y)) Overflow; Ok (decimal_new c s))
    (scale a ≤ MAX_DECIMAL_SCALE ∧ scale b ≤ MAX_DECIMAL_SCALE)%Z
    (i128_ok (at_scale a s) ∧ i128_ok (at_scale b s) ∧ i128_ok (f (at_scale a s) (at_scale b s)))
    (f (unscaled a * 10 ^ scale b) (unscaled b * 10 ^ scale a))%Z (scale a + scale b).
Proof.
  intros (_ & [Ha _] & _) (_ & [Hb _] & _) Hf s. pose proof (align_spec a b) as Hal. unfold MAX_DECIMAL_SCALE in *.
  destruct (align a b) as [[[x y] s']|e]; cbn.
  - destruct Hal as (Hadm & Hs & Hx & Hy & Fx & Fy). subst s' x y. fold s in Fx, Fy |- *. unfold checked. case_decide as Hc; cbn.
    + destruct (decimal_new_spec (f (at_scale a s) (at_scale b s)) s) as (Ho & Hr & Hsc); [done|unfold s, common_scale; int_lia|].
      split; [done|]. split; [by split_and!|]. split; [done|]. split; [unfold MAX_DECIMAL_SCALE, s, common_scale in *; lia|]. pose proof (at_scale_sum a b f Ha Hb Hf) as Hsum. cbv zeta in Hsum. fold s in Hsum.
      unfold denotes_ratio in *. apply (Z.mul_reg_r _ _ (10 ^ s)%Z); [apply Z.pow_nonzero; unfold s, common_scale; lia|].
      set (c := decimal_new _ _) in *. set (g := f (unscaled a * _)%Z _) in *. set (F := f (at_scale a s) _) in *.
      transitivity (unscaled c * 10 ^ s * 10 ^ (scale a + scale b))%Z; [ring|]. rewrite Hr.
      transitivity (F * 10 ^ (scale a + scale b) * 10 ^ scale c)%Z; [ring|]. rewrite Hsum. ring.
    + right. split; [done|]. split; [done|]. by intros (_ & _ & ?).
  - destruct Hal as [[-> Hn]|(-> & Hadm & Hn)]; [left; auto|]. right. split; [done|]. split; [done|]. intros (? & ? & _). by apply Hn.
Qed.

Lemma neg_computes a : decimal_ok a →
  computes (decimal_neg a) (scale a ≤ MAX_DECIMAL_SCALE)%Z (i128_ok (- unscaled a)) (- unscaled a) (scale a).
Proof.
  intros (Hu & Hs & _). unfold decimal_neg. destruct (admitted_cases a) as [[-> Ha]|[-> Ha]]; cbn; [|left; split; [done|left; lia]].
  unfold checked. case_decide as Hc; cbn; [|by right]. destruct (decimal_new_spec (- unscaled a) (scale a)) as (Ho & Hr & Hsc); [done|done|].
  split; [done|]. split; [done|]. split; [done|]. split; [lia|done].
Qed.

Lemma mul_computes a b : decimal_ok a → decimal_ok b →
  computes (decimal_mul a b) (scale a ≤ MAX_DECIMAL_SCALE ∧ scale b ≤ MAX_DECIMAL_SCALE)%Z
    (i128_ok (unscaled a * unscaled b)) (unscaled a * unscaled b) (scale a + scale b).
Proof.
  intros (_ & [Ha _] & _) (_ & [Hb _] & _). unfold decimal_mul.
  destruct (admitted_cases a) as [[-> Aa]|[-> Aa]]; cbn; [|left; split; [done|left; lia]].
  destruct (admitted_cases b) as [[-> Ab]|[-> Ab]]; cbn; [|left; split; [done|left; lia]].
  unfold checked. case_decide as Hc; cbn; [|by right]. unfold MAX_DECIMAL_SCALE in *.
  destruct (decimal_new_spec (unscaled a * unscaled b) (scale a + scale b)) as (Ho & Hr & Hsc); [done|int_lia|].
  set (c := decimal_new (unscaled a * unscaled b) (scale a + scale b)) in *.
  destruct (admitted_cases c) as [[-> Ac]|[-> Ac]]; cbn; [by split_and!|].
  left. split; [done|]. right. split; [done|]. intros (e & He & Hes & Her). unfold MAX_DECIMAL_SCALE in *.
  assert (c = e) as <-; [|lia]. apply decimal_unique; [done|done|]. unfold denotes_ratio in *.
  apply (Z.mul_reg_r _ _ (10 ^ (scale a + scale b))%Z); [apply Z.pow_nonzero; lia|]. nia.
Qed.

(** ** Euclid's algorithm *)

Lemma mod_halves a b : (0 < b → 0 < a mod b → 2 * (b mod (a mod b)) < b)%Z.
Proof.
  intros Hb Hr. pose proof (Z.mod_pos_bound a b Hb). pose proof (Z.mod_pos_bound b (a mod b) Hr). set (r := (a mod b)%Z) in *.
  pose proof (Z.div_mod b r ltac:(lia)). assert (1 ≤ b / r)%Z by (apply Z.div_le_lower_bound; lia). nia.
Qed.

Lemma gcd_loop_spec k fuel a b : (0 ≤ a → 0 ≤ b < 2 ^ Z.of_nat k)%Z → (0 ≤ a)%Z → 2 * k + 1 ≤ fuel → gcd_loop fuel a b = Some (Z.gcd a b).
Proof.
  revert fuel a b. induction k as [|k IH]; intros fuel a b Hb Ha Hf; specialize (Hb Ha).
  { assert (b = 0)%Z as -> by (cbn in Hb; lia). rewrite Z.gcd_0_r_nonneg by done. by destruct fuel. }
  rewrite Nat2Z.inj_succ, Z.pow_succ_r in Hb by lia. destruct fuel as [|[|fuel]]; [lia|lia|]. cbn [gcd_loop].
  case_decide as H0; [subst b; by rewrite Z.gcd_0_r_nonneg|]. pose proof (Z.mod_pos_bound a b ltac:(lia)).
  assert (Z.gcd b (a mod b) = Z.gcd a b) as Hg by (rewrite Z.gcd_comm, Z.gcd_mod, Z.gcd_comm by lia; done).
  case_decide as H1; [by rewrite <-Hg, H1, Z.gcd_0_r_nonneg by lia|]. pose proof (mod_halves a b ltac:(lia) ltac:(lia)).
  pose proof (Z.mod_pos_bound b (a mod b) ltac:(lia)). rewrite IH; [|lia|lia|lia]. f_equal.
  rewrite <-Hg, (Z.gcd_comm b). by rewrite Z.gcd_comm, Z.gcd_mod by lia.
Qed.

Lemma gcd_spec a b : (0 ≤ a)%Z → u128_ok b → gcd a b = Z.gcd a b.
Proof. intros Ha Hb. unfold gcd, GCD_FUEL. rewrite (gcd_loop_spec 128); [done|intros _; exact Hb|done|lia]. Qed.

(** * Division *)

Definition both_admitted (a b : Decimal) : Prop := (scale a ≤ MAX_DECIMAL_SCALE ∧ scale b ≤ MAX_DECIMAL_SCALE)%Z.

(** The magnitude of [a / b * 10^o] is [dividend a b o / divisor a b]. *)
Definition dividend (a b : Decimal) (o : Z) : Z := (Z.abs (unscaled a) * 10 ^ (scale b + o))%Z.
Definition divisor (a b : Decimal) : Z := (Z.abs (unscaled b) * 10 ^ scale a)%Z.
Definition opposite (a b : Decimal) : bool := xorb (bool_decide (unscaled a < 0)%Z) (bool_decide (unscaled b < 0)%Z).
Definition lowest (p q : Z) : Z * Z := (p / Z.gcd p q, q / Z.gcd p q)%Z.

Lemma div_gcd_coprime x y : (0 ≤ x → 0 < y → Z.gcd (x / Z.gcd x y) (y / Z.gcd x y) = 1 ∧
  0 < Z.gcd x y ∧ x = Z.gcd x y * (x / Z.gcd x y) ∧ y = Z.gcd x y * (y / Z.gcd x y) ∧ 0 ≤ x / Z.gcd x y ∧ 0 < y / Z.gcd x y)%Z.
Proof.
  intros Hx Hy. assert (0 < Z.gcd x y)%Z as Hg. { pose proof (Z.gcd_nonneg x y). assert (Z.gcd x y ≠ 0)%Z; [|lia]. intros E%Z.gcd_eq_0_r. lia. }
  assert (x = Z.gcd x y * (x / Z.gcd x y))%Z as E1 by (apply Z_div_exact_full_2; [lia|]; apply Z.mod_divide; [lia|apply Z.gcd_divide_l]).
  assert (y = Z.gcd x y * (y / Z.gcd x y))%Z as E2 by (apply Z_div_exact_full_2; [lia|]; apply Z.mod_divide; [lia|apply Z.gcd_divide_r]).
  split_and!; try done; [by apply Z.gcd_div_gcd; lia|apply Z.div_pos; lia|nia].
Qed.

(** A fraction in lowest terms is the fraction's lowest terms. *)
Lemma lowest_unique n d p q : (0 ≤ n → 0 < d → 0 ≤ p → 0 < q → Z.gcd n d = 1 → n * q = d * p → (n, d) = lowest p q)%Z.
Proof.
  intros Hn Hd Hp Hq Hg Heq. destruct (div_gcd_coprime p q Hp Hq) as (Hc & Hg0 & E1 & E2 & Hp0 & Hq0). unfold lowest.
  set (g := Z.gcd p q) in *. set (p' := (p / g)%Z) in *. set (q' := (q / g)%Z) in *.
  assert (n * q' = d * p')%Z as He by (apply (Z.mul_reg_r _ _ g); [lia|]; rewrite E1, E2 in Heq; lia).
  assert (d = q')%Z as ->.
  { apply Z.divide_antisym_nonneg; [lia|lia| |].
    - apply (Z.gauss _ n); [rewrite He; apply Z.divide_factor_l|by rewrite Z.gcd_comm].
    - apply (Z.gauss _ p'); [rewrite Z.mul_comm, <-He; apply Z.divide_factor_r|by rewrite Z.gcd_comm]. }
  f_equal. apply (Z.mul_reg_r _ _ q'); [lia|]. lia.
Qed.

Lemma coprime_mul_l n f d : (Z.gcd n d = 1 → Z.gcd f d = 1 → Z.gcd (n * f) d = 1)%Z.
Proof.
  intros H1 H2. apply Z.gcd_unique; [lia|apply Z.divide_1_l|apply Z.divide_1_l|]. intros x Hx Hd. rewrite <-H2. apply Z.gcd_greatest; [|done].
  apply (Z.gauss _ n); [done|]. apply Z.gcd_unique; [lia|apply Z.divide_1_l|apply Z.divide_1_l|]. intros y Hy Hn. rewrite <-H1.
  apply Z.gcd_greatest; [done|]. by apply (Z.divide_trans _ x).
Qed.

(** [gcd n d = 1] is kept when [d] loses factors. *)
Lemma coprime_div_r n d k c : (d = c * k → Z.gcd n d = 1 → Z.gcd n k = 1)%Z.
Proof.
  intros -> H. apply Z.gcd_unique; [lia|apply Z.divide_1_l|apply Z.divide_1_l|]. intros x Hn Hk. rewrite <-H. apply Z.gcd_greatest; [done|].
  by apply Z.divide_mul_r.
Qed.

(** [ratio] reduces the fraction to its lowest terms, and overflows exactly when these are not [u128]s. *)
Lemma ratio_spec a b o : decimal_ok a → decimal_ok b → (0 ≤ o ≤ MAX_DECIMAL_SCALE)%Z →
  ratio a b o =
    if decide (¬ both_admitted a b) then Err ScaleOutOfRange
    else if decide (unscaled b = 0%Z) then Err DivisionByZero
    else let '(p, q) := lowest (dividend a b o) (divisor a b) in
      if decide (u128_ok p ∧ u128_ok q) then Ok (p, q, opposite a b) else Err Overflow.
Proof.
  intros (Ua & [Sa _] & _) (Ub & [Sb _] & _) Ho. unfold ratio, both_admitted, MAX_DECIMAL_SCALE in *.
  destruct (admitted_cases a) as [[-> Aa]|[-> Aa]]; cbn [mbind result_bind]; unfold MAX_DECIMAL_SCALE in *; [|by rewrite decide_True by lia].
  destruct (admitted_cases b) as [[-> Ab]|[-> Ab]]; cbn [mbind result_bind]; unfold MAX_DECIMAL_SCALE in *; [|by rewrite decide_True by lia].
  rewrite (decide_False (P := ¬ _)) by lia. destruct (decide (unscaled b = 0%Z)) as [E0|E0]; [done|]. cbv zeta. fold (opposite a b).
  set (ma := Z.abs (unscaled a)) in *. set (mb := Z.abs (unscaled b)) in *.
  assert (0 ≤ ma ≤ 2 ^ 127 ∧ 0 < mb ≤ 2 ^ 127)%Z as [Hma Hmb] by (unfold ma, mb; int_lia).
  rewrite (gcd_spec ma mb) by int_lia. destruct (div_gcd_coprime ma mb) as (Hc & Hg & Ea & Eb & Hn0 & Hd0); [lia|lia|].
  set (g := Z.gcd ma mb) in *. set (n := (ma / g)%Z) in *. set (d := (mb / g)%Z) in *.
  assert (n ≤ 2 ^ 127 ∧ d ≤ 2 ^ 127)%Z as [Hn1 Hd1] by nia. set (e := (scale b + o - scale a)%Z) in *.
  assert (0 < 10 ^ Z.abs e)%Z as Hf by (apply Z.pow_pos_nonneg; lia). set (f := (10 ^ Z.abs e)%Z) in *.
  assert (∀ n' d', (0 ≤ n' → 0 < d' → Z.gcd n' d' = 1 → n' * d * 10 ^ scale a = d' * n * 10 ^ (scale b + o))%Z →
    (0 ≤ n')%Z → (0 < d')%Z → Z.gcd n' d' = 1%Z → lowest (dividend a b o) (divisor a b) = (n', d')) as Hlow.
  { intros n' d' He Hn Hd Hco. specialize (He Hn Hd Hco). symmetry. apply lowest_unique; [done|done| | |done|].
    - unfold dividend. fold ma. apply Z.mul_nonneg_nonneg; [lia|apply Z.pow_nonneg; lia].
    - unfold divisor. fold mb. apply Z.mul_pos_pos; [lia|apply Z.pow_pos_nonneg; lia].
    - unfold dividend, divisor. fold ma mb. rewrite Ea, Eb.
      transitivity (g * (n' * d * 10 ^ scale a))%Z; [ring|]. rewrite He. ring. }
  destruct (decide (0 ≤ e)%Z) as [He|He].
  - assert (u128_ok d) as Hdu by int_lia. rewrite (gcd_spec f d) by (done || lia). destruct (div_gcd_coprime f d) as (Hc2 & Hg2 & Ef & Ed & Hf2 & Hd2); [lia|lia|].
    set (c := Z.gcd f d) in *. set (f' := (f / c)%Z) in *. set (d' := (d / c)%Z) in *.
    rewrite (Hlow (n * f')%Z d'); [|intros _ _ _| nia|done|].
    + assert (u128_ok d') as Hd'u by (unfold u128_ok in *; nia). unfold checked. destruct (decide (u128_ok (n * f'))) as [Hk|Hk]; cbn.
      * by rewrite decide_True.
      * by rewrite decide_False by (by intros [??]).
    + assert (10 ^ (scale b + o) = 10 ^ scale a * f)%Z as -> by (unfold f; rewrite <-Z.pow_add_r by lia; f_equal; lia).
      rewrite Ed at 1. rewrite Ef. ring.
    + apply coprime_mul_l; [|done]. by apply (coprime_div_r n d d' c).
  - assert (u128_ok n) as Hnu by int_lia. rewrite (gcd_spec f n) by (done || lia).
    assert (0 < Z.gcd n f)%Z as Hg2. { pose proof (Z.gcd_nonneg n f). assert (Z.gcd n f ≠ 0)%Z; [|lia]. intros E%Z.gcd_eq_0_r. lia. }
    rewrite (Z.gcd_comm f n) in *. destruct (div_gcd_coprime n f) as (Hc2 & _ & En & Ef & Hn2 & Hf2); [lia|lia|].
    set (c := Z.gcd n f) in *. set (f' := (f / c)%Z) in *. set (n' := (n / c)%Z) in *.
    rewrite (Hlow n' (d * f')%Z); [|intros _ _ _| done|nia|].
    + assert (u128_ok n') as Hn'u by (unfold u128_ok in *; nia). unfold checked. destruct (decide (u128_ok (d * f'))) as [Hk|Hk]; cbn.
      * by rewrite decide_True.
      * by rewrite decide_False by (by intros [??]).
    + assert (10 ^ scale a = 10 ^ (scale b + o) * f)%Z as -> by (unfold f; rewrite <-Z.pow_add_r by lia; f_equal; lia).
      rewrite En at 1. rewrite Ef. ring.
    + rewrite Z.gcd_comm. apply coprime_mul_l; [|by rewrite Z.gcd_comm]. rewrite Z.gcd_comm in Hc. apply (coprime_div_r d n n' c); [done|done].
Qed.

Lemma cross_reduced (g p q P Q : Z) : (P = g * p → Q = g * q → p * Q = q * P)%Z.
Proof. intros -> ->. ring. Qed.

(** The reduced fraction [n / d] is [dividend / divisor]. *)
Lemma ratio_Ok a b o n d neg : decimal_ok a → decimal_ok b → (0 ≤ o ≤ MAX_DECIMAL_SCALE)%Z → ratio a b o = Ok (n, d, neg) →
  both_admitted a b ∧ unscaled b ≠ 0%Z ∧ neg = opposite a b ∧ (0 ≤ n ∧ 0 < d ∧ 0 < divisor a b ∧ n * divisor a b = d * dividend a b o)%Z ∧ u128_ok n ∧ u128_ok d.
Proof.
  intros Ha Hb Ho. rewrite ratio_spec by done. case_decide as Hadm; [done|]. case_decide as H0; [done|].
  pose proof Ha as (_ & [Sa _] & _). pose proof Hb as (_ & [Sb _] & _).
  assert (0 ≤ dividend a b o)%Z as Hp by (apply Z.mul_nonneg_nonneg; [lia|apply Z.pow_nonneg; lia]).
  assert (0 < divisor a b)%Z as Hq by (apply Z.mul_pos_pos; [lia|apply Z.pow_pos_nonneg; lia]).
  unfold lowest. destruct (div_gcd_coprime _ _ Hp Hq) as (_ & Hg & Ep & Eq & Hn & Hd). case_decide as Hu; [|done]. intros [=<- <- <-].
  unfold both_admitted in *. split_and!; try done; try lia; first [by apply Hu|by apply (cross_reduced _ _ _ _ _ Ep Eq)].
Qed.

(** The long division of [n / d], [k] digits below the point: quotient and remainder. *)
Definition quo (n d k : Z) : Z := (n * 10 ^ k / d)%Z.
Definition rem (n d k : Z) : Z := ((n * 10 ^ k) mod d)%Z.
(** The next digit can be computed in [u128]. *)
Definition digit_fits (n d k : Z) : Prop := u128_ok (rem n d k * 10) ∧ u128_ok (quo n d (k + 1)).

Lemma next_digit n d k : (0 < d → 0 ≤ k →
  quo n d (k + 1) = quo n d k * 10 + rem n d k * 10 / d ∧ rem n d (k + 1) = (rem n d k * 10) mod d)%Z.
Proof.
  intros Hd Hk. unfold quo, rem. rewrite Z.pow_add_r, Z.mul_assoc by lia. change (10 ^ 1)%Z with 10%Z.
  pose proof (Z.div_mod (n * 10 ^ k) d ltac:(lia)) as E. set (q := (n * 10 ^ k / d)%Z) in *. set (r := ((n * 10 ^ k) mod d)%Z) in *.
  replace (n * 10 ^ k * 10)%Z with (r * 10 + q * 10 * d)%Z by (rewrite E; ring).
  split; [rewrite Z.div_add by lia; lia|by rewrite Z.mod_add by lia].
Qed.

Lemma long_division_spec left n d s : (0 < d)%Z → (0 ≤ n)%Z → (0 ≤ s)%Z →
  match long_division left d (quo n d s) (rem n d s) s with
  | Ok (c, s') => (s ≤ s' ≤ s + Z.of_nat left)%Z ∧ c = quo n d s' ∧ rem n d s' = 0%Z ∧
      ∀ k, (s ≤ k < s')%Z → rem n d k ≠ 0%Z ∧ digit_fits n d k
  | Err e =>
      e = Overflow ∧ (∃ k, (s ≤ k < s + Z.of_nat left)%Z ∧ (∀ j, (s ≤ j < k)%Z → rem n d j ≠ 0%Z ∧ digit_fits n d j) ∧ rem n d k ≠ 0%Z ∧ ¬ digit_fits n d k) ∨
      e = InexactDivision ∧ (∀ k, (s ≤ k ≤ s + Z.of_nat left)%Z → rem n d k ≠ 0%Z) ∧ ∀ k, (s ≤ k < s + Z.of_nat left)%Z → digit_fits n d k
  end.
Proof.
  intros Hd Hn. revert s. induction left as [|left IH]; intros s Hs; cbn [long_division].
  - destruct (decide (rem n d s = 0%Z)) as [H0|H0]; [split_and!; try done; lia|]. right. split_and!; [done|intros k Hk; by replace k with s by lia|lia].
  - destruct (decide (rem n d s = 0%Z)) as [H0|H0]; [split_and!; try done; lia|].
    destruct (next_digit n d s Hd Hs) as [Eq Er].
    assert (0 ≤ quo n d s)%Z as Hq by (apply Z.div_pos; [apply Z.mul_nonneg_nonneg; [done|apply Z.pow_nonneg; lia]|done]).
    assert (0 ≤ rem n d s < d)%Z as Hr by (by apply Z.mod_pos_bound).
    assert (0 ≤ rem n d s * 10 / d)%Z as Hdg by (apply Z.div_pos; lia).
    assert (¬ digit_fits n d s → ∃ k, (s ≤ k < s + Z.of_nat (S left))%Z ∧ (∀ j, (s ≤ j < k)%Z → rem n d j ≠ 0%Z ∧ digit_fits n d j) ∧ rem n d k ≠ 0%Z ∧ ¬ digit_fits n d k) as Hstop.
    { intros Hf. exists s. split_and!; try done; lia. }
    destruct (checked_cases u128_ok (rem n d s * 10)) as [[-> F1]|[-> F1]]; cbn [ok_or mbind result_bind]; [|left; split; [done|]; apply Hstop; by intros [? _]].
    destruct (checked_cases u128_ok (quo n d s * 10)) as [[-> F2]|[-> F2]]; cbn [ok_or mbind option_bind result_bind].
    2: { left. split; [done|]. apply Hstop. intros [_ Hf]. apply F2. rewrite Eq in Hf. unfold u128_ok in *. lia. }
    rewrite <-Eq, <-Er. destruct (checked_cases u128_ok (quo n d (s + 1))) as [[-> F3]|[-> F3]]; cbn [ok_or mbind option_bind result_bind]; [|left; split; [done|]; apply Hstop; by intros [_ ?]].
    specialize (IH (s + 1)%Z ltac:(lia)). destruct (long_division _ _ _ _ _) as [[c s']|e].
    + destruct IH as (? & ? & ? & Hk). split_and!; try done; try lia. intros k Hks. destruct (decide (k = s)) as [->|]; [by split|apply Hk; lia].
    + destruct IH as [(-> & k & Hk & Hj & H0k & Hf)|(-> & H1 & H2)]; [left|right].
      * split; [done|]. exists k. split_and!; try done; try lia. intros j Hjk. destruct (decide (j = s)) as [->|]; [by split|apply Hj; lia].
      * split_and!; [done| |]; intros k Hk; (destruct (decide (k = s)) as [->|]; [done || by split|apply H1 || apply H2; lia]).
Qed.

Lemma quo_exact n d k : (0 < d)%Z → rem n d k = 0%Z → (quo n d k * d = n * 10 ^ k)%Z.
Proof. intros Hd Hr. unfold quo, rem in *. pose proof (Z.div_mod (n * 10 ^ k) d ltac:(lia)). lia. Qed.

Lemma signed_Err m (neg : bool) e : (0 ≤ m)%Z → signed m neg = Err e → e = Overflow ∧ ¬ i128_ok (if neg then - m else m).
Proof.
  intros Hm H. split.
  - unfold signed in H. case_decide; [done|]. destruct (checked _ _); [done|by injection H as <-].
  - intros Hi. by rewrite (proj2 (signed_spec m neg _ Hm) (conj eq_refl Hi)) in H.
Qed.

(** A signed quotient, from its magnitude. *)
Lemma signed_quotient a b c X Y : (c * (Z.abs (unscaled b) * X) = Z.abs (unscaled a) * Y →
  (if opposite a b then - c else c) * unscaled b * X = unscaled a * Y)%Z.
Proof.
  unfold opposite. intros H. destruct (Z.abs_spec (unscaled a)) as [[Ha Ea]|[Ha Ea]], (Z.abs_spec (unscaled b)) as [[Hb Eb]|[Hb Eb]]; rewrite Ea, Eb in H;
    rewrite ?(bool_decide_true (unscaled a < 0)%Z), ?(bool_decide_false (unscaled a < 0)%Z), ?(bool_decide_true (unscaled b < 0)%Z), ?(bool_decide_false (unscaled b < 0)%Z) by lia;
    cbn [xorb]; lia.
Qed.

(** [q * b = a], of rationals. *)
Definition quotient_of (q a b : Decimal) : Prop :=
  (unscaled q * unscaled b * 10 ^ scale a = unscaled a * 10 ^ (scale b + scale q))%Z.

(** When [decimal_div_exact] overflows: the quotient's fraction in lowest terms does not fit [u128];
    or, at the first scale [k] at most 18 where the division ends or its next digit does not fit,
    the quotient it ends in is no [i128], or it has not ended. *)
Definition exact_overflows (a b : Decimal) : Prop :=
  let '(n, d) := lowest (dividend a b 0) (divisor a b) in
  ¬ (u128_ok n ∧ u128_ok d) ∨
  ∃ k, (0 ≤ k ≤ MAX_DECIMAL_SCALE)%Z ∧ (∀ j, (0 ≤ j < k)%Z → rem n d j ≠ 0%Z ∧ digit_fits n d j) ∧
    if decide (rem n d k = 0%Z) then ¬ i128_ok (if opposite a b then - quo n d k else quo n d k)
    else (k < MAX_DECIMAL_SCALE)%Z ∧ ¬ digit_fits n d k.

(** The integer quotient [k] digits below the point, with its sign. *)
Lemma exact_quotient a b n d k q : (0 < d)%Z → (0 ≤ k)%Z → decimal_ok a → decimal_ok b →
  (n * divisor a b = d * dividend a b 0)%Z → rem n d k = 0%Z → (0 ≤ scale q)%Z →
  denotes_ratio q (if opposite a b then - quo n d k else quo n d k) k → quotient_of q a b.
Proof.
  intros Hd Hk (_ & [Sa _] & _) (_ & [Sb _] & _) Heq H0%(quo_exact n d k Hd) Sq Hr. unfold dividend, divisor in Heq. rewrite Z.add_0_r in Heq.
  unfold quotient_of, denotes_ratio in *. set (c := quo n d k) in *. set (v := if opposite a b then (- c)%Z else c) in *.
  assert (v * unscaled b * 10 ^ scale a = unscaled a * (10 ^ scale b * 10 ^ k))%Z as Hq.
  { apply signed_quotient. apply (Z.mul_reg_l _ _ d); [lia|]. transitivity (c * d * (Z.abs (unscaled b) * 10 ^ scale a))%Z; [ring|].
    rewrite H0. transitivity (n * (Z.abs (unscaled b) * 10 ^ scale a) * 10 ^ k)%Z; [ring|]. rewrite Heq. ring. }
  rewrite Z.pow_add_r by lia. apply (Z.mul_reg_r _ _ (10 ^ k)%Z); [apply Z.pow_nonzero; lia|].
  transitivity (unscaled q * 10 ^ k * unscaled b * 10 ^ scale a)%Z; [ring|]. rewrite Hr.
  transitivity (v * unscaled b * 10 ^ scale a * 10 ^ scale q)%Z; [ring|]. rewrite Hq. ring.
Qed.
(** A quotient of scale [k] ends the division there. *)
Lemma quotient_ends a b n d q : (0 < d)%Z → (0 < divisor a b)%Z → decimal_ok b → decimal_ok q →
  (n * divisor a b = d * dividend a b 0)%Z → quotient_of q a b → rem n d (scale q) = 0%Z.
Proof.
  intros Hd HQ (_ & [Sb _] & _) (_ & [Sq _] & _) Heq Hq. unfold dividend, divisor in *. rewrite Z.add_0_r in Heq.
  apply Z.mod_divide; [lia|]. unfold quotient_of in Hq. exists (Z.abs (unscaled q)). apply (Z.mul_reg_r _ _ (Z.abs (unscaled b) * 10 ^ scale a)%Z); [lia|].
  transitivity (d * (Z.abs (unscaled a) * 10 ^ scale b) * 10 ^ scale q)%Z; [rewrite <-Heq; ring|].
  apply (f_equal Z.abs) in Hq. rewrite !Z.abs_mul, !(Z.abs_eq (10 ^ _)) in Hq by (apply Z.pow_nonneg; lia). rewrite Z.pow_add_r in Hq by lia.
  transitivity (d * (Z.abs (unscaled a) * (10 ^ scale b * 10 ^ scale q)))%Z; [ring|]. rewrite <-Hq. ring.
Qed.

Lemma div_exact_spec a b : decimal_ok a → decimal_ok b →
  match decimal_div_exact a b with
  | Ok q => both_admitted a b ∧ unscaled b ≠ 0%Z ∧ ¬ exact_overflows a b ∧ decimal_ok q ∧ (scale q ≤ MAX_DECIMAL_SCALE)%Z ∧ quotient_of q a b
  | Err e => e = ScaleOutOfRange ∧ ¬ both_admitted a b
      ∨ e = DivisionByZero ∧ both_admitted a b ∧ unscaled b = 0%Z
      ∨ e = InexactDivision ∧ both_admitted a b ∧ unscaled b ≠ 0%Z ∧ ¬ exact_overflows a b ∧
          (∀ q, decimal_ok q → (scale q ≤ MAX_DECIMAL_SCALE)%Z → ¬ quotient_of q a b)
      ∨ e = Overflow ∧ both_admitted a b ∧ unscaled b ≠ 0%Z ∧ exact_overflows a b
  end.
Proof.
  intros Ha Hb. unfold decimal_div_exact, exact_overflows. pose proof (ratio_spec a b 0 Ha Hb ltac:(unfold MAX_DECIMAL_SCALE; lia)) as Es.
  destruct (ratio a b 0) as [[[n d] neg]|e] eqn:Er; cbn [mbind result_bind].
  2: { case_decide as Hadm; [injection Es as ->; by left|]. assert (both_admitted a b) as Hadm' by (unfold both_admitted in *; lia).
    case_decide as H0; [injection Es as ->; auto 10|]. destruct (lowest _ _) as [p q]. case_decide as Hu; [done|]. injection Es as ->. auto 10. }
  pose proof Er as (Hadm & H0 & -> & (Hn & Hd & HQ & Heq) & Un & Ud)%ratio_Ok; [|done|done|unfold MAX_DECIMAL_SCALE; lia].
  case_decide; [done|]. case_decide; [done|]. destruct (lowest _ _) as [p q]. case_decide as Hu; [|done]. injection Es as -> ->.
  assert ((p / q)%Z = quo p q 0 ∧ (p mod q)%Z = rem p q 0) as [Eq Em] by (unfold quo, rem; by rewrite Z.pow_0_r, Z.mul_1_r). rewrite Eq, Em.
  pose proof (long_division_spec (Z.to_nat MAX_DECIMAL_SCALE) p q 0 Hd Hn ltac:(lia)) as Hl.
  change (0 + Z.of_nat (Z.to_nat MAX_DECIMAL_SCALE))%Z with MAX_DECIMAL_SCALE in Hl.
  destruct (long_division _ _ _ _ _) as [[c s]|e]; cbn [mbind result_bind].
  - destruct Hl as (Hs & -> & Hz & Hk). assert (0 ≤ quo p q s)%Z as Hc by (apply Z.div_pos; [apply Z.mul_nonneg_nonneg; [done|apply Z.pow_nonneg; lia]|done]).
    destruct (signed (quo p q s) (opposite a b)) as [v|e] eqn:Ev; cbn [mbind result_bind].
    + apply signed_spec in Ev as [-> Hi]; [|done].
      destruct (decimal_new_spec (if opposite a b then - quo p q s else quo p q s) s) as (Ho & Hr & Hsc); [done|unfold MAX_DECIMAL_SCALE in *; int_lia|].
      split; [done|]. split; [done|]. split.
      { intros [?|(k & Hk' & Hj & He)]; [done|]. destruct (Z.lt_trichotomy k s) as [Hlt|[->|Hlt]].
        - destruct (Hk k ltac:(lia)) as [Hnz Hf]. rewrite decide_False in He by done. by destruct He.
        - by rewrite decide_True in He by done.
        - by destruct (Hj s ltac:(lia)). }
      split; [done|]. split; [lia|]. eapply (exact_quotient a b p q s); try done; [lia|by destruct Ho as (_ & [? _] & _)].
    + apply signed_Err in Ev as [-> Hi]; [|done]. right. right. right. split_and!; [done..|]. right. exists s.
      split; [lia|]. split; [intros j Hj; by apply Hk|by rewrite decide_True].
  - destruct Hl as [(-> & k & Hk & Hj & Hnz & Hf)|(-> & Hnz & Hfit)].
    + right. right. right. split_and!; [done..|]. right. exists k. split; [lia|]. split; [intros j ?; by apply Hj|]. rewrite decide_False by done. split; [lia|done].
    + right. right. left. split_and!; [done..| |].
      * intros [?|(k & Hk & Hj & He)]; [done|]. rewrite decide_False in He by (by apply Hnz). destruct He as [? He]. apply He, Hfit. lia.
      * intros x Hx Hsx Hq. eapply (Hnz (scale x)); [destruct Hx as (_ & [? _] & _); lia|]. by eapply quotient_ends.
Qed.

(** ** Rounding *)

(** [c] is [N / D] rounded to an integer, for [0 < D]. *)
Definition rounds (mode : string) (N D c : Z) : Prop :=
  if decide (mode = "floor"%string) then (c * D ≤ N < (c + 1) * D)%Z
  else if decide (mode = "ceil"%string) then ((c - 1) * D < N ≤ c * D)%Z
  else if decide (mode = "half_even"%string) then (2 * Z.abs (N - c * D) ≤ D ∧ (2 * Z.abs (N - c * D) = D → Z.even c = true))%Z
  else (Z.abs c * D ≤ Z.abs N < (Z.abs c + 1) * D ∧ (0 < N → 0 ≤ c) ∧ (N < 0 → c ≤ 0))%Z.

(** Quotient and remainder of the reduced fraction, against those of the fraction itself. *)
Lemma reduced_remainder n d P Q : (0 < d → 0 < Q → n * Q = d * P →
  let c := n / d in let R := P - c * Q in
  0 ≤ R < Q ∧ (n mod d = 0 ↔ R = 0) ∧ (d - n mod d < n mod d ↔ Q < 2 * R) ∧ (n mod d = d - n mod d ↔ Q = 2 * R))%Z.
Proof.
  intros Hd HQ Heq c R. pose proof (Z.mod_pos_bound n d Hd) as Hr. pose proof (Z.div_mod n d ltac:(lia)) as Hn.
  set (r := (n mod d)%Z) in *. fold c in Hn. assert (d * R = r * Q)%Z as HR.
  { unfold R. rewrite Z.mul_sub_distr_l, <-Heq, Hn. ring. }
  split_and!; (split || idtac); intros; nia.
Qed.

Lemma even_of_mod c : (0 ≤ c)%Z → bool_decide (c mod 2 = 1)%Z = Z.odd c.
Proof. intros _. rewrite Zmod_odd. by destruct (Z.odd c). Qed.

Lemma round_magnitude mode (neg : bool) n d P Q : (0 < d)%Z → (0 < Q)%Z → (0 ≤ n)%Z → (n * Q = d * P)%Z →
  let c := (n / d)%Z in
  let c' := if increment_of mode neg c (n mod d) d then (c + 1)%Z else c in
  (0 ≤ c')%Z ∧ rounds mode (if neg then - P else P)%Z Q (if neg then - c' else c')%Z.
Proof.
  intros Hd HQ Hn Heq c. destruct (reduced_remainder n d P Q Hd HQ Heq) as (HR & H0 & Hlt & Hhalf). fold c in HR, H0, Hlt, Hhalf.
  assert (0 ≤ c)%Z as Hc by (apply Z.div_pos; lia). set (r := (n mod d)%Z) in *. set (R := (P - c * Q)%Z) in *.
  assert (P = c * Q + R)%Z as HP by (unfold R; lia). clearbody R r. unfold increment_of, rounds.
  destruct (decide (mode = "floor"%string)); [|destruct (decide (mode = "ceil"%string)); [|destruct (decide (mode = "half_even"%string))]]; cbv zeta.
  - repeat case_bool_decide; destruct neg; cbn [andb negb]; split; nia.
  - repeat case_bool_decide; destruct neg; cbn [andb negb]; split; nia.
  - rewrite even_of_mod by done. pose proof (Z.negb_odd c) as Hev. pose proof (Z.even_add c 1) as Hev1. cbn in Hev1.
    repeat case_bool_decide; destruct neg, (Z.odd c); cbn [andb orb negb] in *; rewrite ?Z.even_opp, ?Hev1, <-?Hev; (split; [lia|]); (split; [nia|]); intros; try done; exfalso; nia.
  - rewrite andb_false_r. destruct neg; split; try lia; rewrite ?Z.abs_opp, (Z.abs_eq c), (Z.abs_eq P) by nia; split_and!; nia.
Qed.

Definition rounding_modes : list string := ["floor"; "ceil"; "half_even"; "trunc"]%string.

(** [a / b * 10^s] as a fraction with a positive denominator. *)
Definition scaled_dividend (a b : Decimal) (s : Z) : Z := if opposite a b then (- dividend a b s)%Z else dividend a b s.

(** That fraction is the quotient. *)
Lemma scaled_dividend_spec a b s : unscaled b ≠ 0%Z →
  (scaled_dividend a b s * unscaled b * 10 ^ scale a = unscaled a * 10 ^ (scale b + s) * divisor a b)%Z.
Proof.
  intros H0. unfold scaled_dividend. transitivity (unscaled a * (10 ^ (scale b + s) * divisor a b))%Z; [|ring]. apply signed_quotient.
  unfold dividend, divisor. ring.
Qed.

(** A fraction rounds to one integer. *)
Lemma rounds_unique mode N D c c' : (0 < D)%Z → rounds mode N D c → rounds mode N D c' → c = c'.
Proof.
  intros HD. unfold rounds. repeat case_decide; [nia|nia| |].
  - intros [B1 E1] [B2 E2]. destruct (decide (c = c')) as [|Hne]; [done|]. exfalso.
    assert (∀ x y, (x < y)%Z → (2 * Z.abs (N - x * D) ≤ D)%Z → (2 * Z.abs (N - y * D) ≤ D)%Z →
      ((y = x + 1) ∧ 2 * Z.abs (N - x * D) = D ∧ 2 * Z.abs (N - y * D) = D)%Z) as Hxy.
    { intros x y Hlt Hx Hy. assert (y = x + 1)%Z by nia. subst y. split; [done|]. lia. }
    assert (∀ x y, (y = x + 1)%Z → Z.even x = true → Z.even y = true → False) as Hpar.
    { intros x y -> Hx. by rewrite Z.even_add, Hx. }
    assert (c < c' ∨ c' < c)%Z as [Hlt|Hlt] by lia.
    + destruct (Hxy c c' Hlt B1 B2) as (Ey & Ec & Ec'). eapply Hpar; eauto.
    + destruct (Hxy c' c Hlt B2 B1) as (Ey & Ec & Ec'). eapply Hpar; eauto.
  - intros (B1 & P1 & N1) (B2 & P2 & N2). assert (Z.abs c = Z.abs c') as Habs by nia.
    destruct (Z.lt_trichotomy N 0) as [?|[->|?]]; [| |]; lia || nia.
Qed.

(** When [decimal_div_round] overflows: the fraction in lowest terms does not fit [u128], or the
    integer it rounds to is no [i128]. *)
Definition round_overflows (a b : Decimal) (s : Z) (mode : string) : Prop :=
  let '(n, d) := lowest (dividend a b s) (divisor a b) in
  ¬ (u128_ok n ∧ u128_ok d) ∨ ∃ c, rounds mode (scaled_dividend a b s) (divisor a b) c ∧ ¬ i128_ok c.

Lemma div_round_spec a b s mode : decimal_ok a → decimal_ok b → (0 ≤ s)%Z →
  match decimal_div_round a b s mode with
  | Ok q => (s ≤ MAX_DECIMAL_SCALE)%Z ∧ mode ∈ rounding_modes ∧ both_admitted a b ∧ unscaled b ≠ 0%Z ∧ ¬ round_overflows a b s mode ∧
      decimal_ok q ∧ (scale q ≤ s)%Z ∧
      ∃ c, denotes_ratio q c s ∧ (0 < divisor a b)%Z ∧ rounds mode (scaled_dividend a b s) (divisor a b) c
  | Err e => e = ScaleOutOfRange ∧ ¬ ((s ≤ MAX_DECIMAL_SCALE)%Z ∧ both_admitted a b) ∧ ((s ≤ MAX_DECIMAL_SCALE)%Z → mode ∈ rounding_modes)
      ∨ e = InvalidRoundingMode ∧ (s ≤ MAX_DECIMAL_SCALE)%Z ∧ mode ∉ rounding_modes
      ∨ e = DivisionByZero ∧ (s ≤ MAX_DECIMAL_SCALE)%Z ∧ mode ∈ rounding_modes ∧ both_admitted a b ∧ unscaled b = 0%Z
      ∨ e = Overflow ∧ (s ≤ MAX_DECIMAL_SCALE)%Z ∧ mode ∈ rounding_modes ∧ both_admitted a b ∧ unscaled b ≠ 0%Z ∧ round_overflows a b s mode
  end.
Proof.
  intros Ha Hb Hs0. unfold decimal_div_round, round_overflows. destruct (decide (MAX_DECIMAL_SCALE < s)%Z) as [Hs|Hs]; [left; split; [done|]; split; [intros [? _]; lia|lia]|].
  fold rounding_modes. destruct (decide (mode ∉ rounding_modes)) as [Hm|Hm]; [right; left; split_and!; [done|lia|done]|].
  apply dec_stable in Hm. assert (0 ≤ s ≤ MAX_DECIMAL_SCALE)%Z as Hsr by lia. pose proof (ratio_spec a b s Ha Hb Hsr) as Es.
  destruct (ratio a b s) as [[[n d] neg]|e] eqn:Er; cbn [mbind result_bind].
  2: { case_decide as Hadm; [injection Es as ->; left; split; [done|]; split; [by intros [_ ?]|done]|].
    assert (both_admitted a b) as Hadm' by (unfold both_admitted in *; lia). case_decide as H0; [injection Es as ->; right; right; left; split_and!; done || lia|].
    destruct (lowest _ _) as [p q]. case_decide as Hu; [done|]. injection Es as ->. right; right; right; split_and!; try done; [lia|by left]. }
  pose proof Er as (Hadm & H0 & -> & (Hn & Hd & HQ & Heq) & _ & _)%ratio_Ok; [|done|done|done]. cbv zeta.
  case_decide; [done|]. case_decide; [done|]. destruct (lowest _ _) as [p q]. case_decide as Hu; [|done]. injection Es as -> ->.
  destruct (round_magnitude mode (opposite a b) p q (dividend a b s) (divisor a b) Hd HQ Hn Heq) as [Hc Hr].
  fold (scaled_dividend a b s) in Hr. set (c := if increment_of _ _ _ _ _ then _ else _) in Hc, Hr. set (v := if opposite a b then (- c)%Z else c) in Hr.
  assert ((coefficient ← (if increment_of mode (opposite a b) (p / q) (p mod q) q then ok_or (checked u128_ok (p / q + 1)%Z) Overflow else Ok (p / q)%Z);
      value ← signed coefficient (opposite a b); Ok (decimal_new value s)) = if decide (i128_ok v) then Ok (decimal_new v s) else Err Overflow) as ->.
  { assert (∀ v', signed c (opposite a b) = v' → (value ← v'; Ok (decimal_new value s)) = if decide (i128_ok v) then Ok (decimal_new v s) else Err Overflow) as Hsg.
    { intros [v'|e] Ev; cbn [mbind result_bind]; [apply signed_spec in Ev as [-> Hi]; [|done]; by rewrite decide_True|apply signed_Err in Ev as [-> Hi]; [|done]; by rewrite decide_False]. }
    unfold c in *. destruct (increment_of _ _ _ _ _); cbn [mbind result_bind]; [|by apply Hsg].
    destruct (checked_cases u128_ok (p / q + 1)) as [[-> _]|[-> Hf]]; cbn [ok_or mbind result_bind]; [by apply Hsg|].
    rewrite decide_False; [done|]. unfold v. intros Hi. apply Hf. destruct (opposite a b); int_lia. }
  case_decide as Hi.
  - destruct (decimal_new_spec v s) as (Ho & Hden & Hsc); [done|unfold MAX_DECIMAL_SCALE in *; int_lia|].
    split; [lia|]. do 3 (split; [done|]). split; [|split; [done|]; split; [lia|by exists v]].
    intros [?|(c' & Hr' & Hc')]; [done|]. apply Hc'. by rewrite (rounds_unique mode _ _ c' v HQ Hr' Hr).
  - right. right. right. do 5 (split; [done || lia|]). right. by exists v.
Qed.

(** * Properties *)

(** The text of decimals. A text parses exactly to a decimal of scale at most 18 that its
    numeral denotes, signs, leading and trailing zeros being free: no representable number is
    refused. What is formatted is such a numeral, so it parses back to the decimal formatted. *)
Theorem decimal_text_exact d :
  (∀ text, decimal_parse text = Ok d ↔ decimal_ok d ∧ (scale d ≤ MAX_DECIMAL_SCALE)%Z ∧
    ∃ neg i f, numeral text neg i f ∧ denotes_ratio d (numeral_value neg i f) (Z.of_nat (length f))) ∧
  (decimal_ok d → (scale d ≤ MAX_DECIMAL_SCALE)%Z → decimal_parse (decimal_format d) = Ok d).
Proof.
  split; [intros text; apply decimal_parse_spec|]. intros Ho Hs. apply decimal_parse_spec. split; [done|]. split; [done|].
  destruct (decimal_format_numeral d Ho) as (i & f & Hn & Hv & Hl). exists (bool_decide (unscaled d < 0)%Z), i, f. split; [done|].
  unfold denotes_ratio. by rewrite Hv, Hl.
Qed.

Lemma decimal_text_exact_witness :
  decimal_format (mkDecimal (-5) 2) = bytes_of_string "-0.05" ∧ decimal_parse (bytes_of_string "-0.05") = Ok (mkDecimal (-5) 2).
Proof.
  split; [vm_compute; reflexivity|]. refine (proj2 (decimal_text_exact (mkDecimal (-5) 2)) _ _); [|vm_compute; discriminate].
  split; [vm_compute; split; [discriminate|reflexivity]|]. split; [vm_compute; split; [discriminate|reflexivity]|].
  split; [right; vm_compute; discriminate|intros Hd; discriminate Hd].
Defined.

(** Decimal arithmetic is exact or an error. The sum, difference, opposite and product of
    decimals of scale at most 18 denote the rational results, in normal form and again of such
    a scale; [ScaleOutOfRange] is returned exactly when an operand is not admitted or the
    product is no decimal of such a scale, [Overflow] exactly when an operand rescaled to the
    common scale, or the result there, is no [i128]. *)
Theorem decimal_arithmetic_exact a b : decimal_ok a → decimal_ok b →
  let s := common_scale a b in
  let x := at_scale a s in
  let y := at_scale b s in
  computes (decimal_add a b) (both_admitted a b) (i128_ok x ∧ i128_ok y ∧ i128_ok (x + y))
    (unscaled a * 10 ^ scale b + unscaled b * 10 ^ scale a) (scale a + scale b) ∧
  computes (decimal_sub a b) (both_admitted a b) (i128_ok x ∧ i128_ok y ∧ i128_ok (x - y))
    (unscaled a * 10 ^ scale b - unscaled b * 10 ^ scale a) (scale a + scale b) ∧
  computes (decimal_neg a) (scale a ≤ MAX_DECIMAL_SCALE)%Z (i128_ok (- unscaled a)) (- unscaled a) (scale a) ∧
  computes (decimal_mul a b) (both_admitted a b) (i128_ok (unscaled a * unscaled b)) (unscaled a * unscaled b) (scale a + scale b).
Proof.
  intros Ha Hb s x y. split_and!.
  - apply (aligned_computes a b Z.add Ha Hb). intros. ring.
  - apply (aligned_computes a b Z.sub Ha Hb). intros. ring.
  - by apply neg_computes.
  - by apply mul_computes.
Qed.

Lemma decimal_arithmetic_exact_witness :
  decimal_add (mkDecimal 15 1) (mkDecimal 25 2) = Ok (mkDecimal 175 2) ∧
  computes (decimal_mul (mkDecimal 15 1) (mkDecimal 25 2)) (both_admitted (mkDecimal 15 1) (mkDecimal 25 2)) (i128_ok (15 * 25)) (15 * 25) (1 + 2).
Proof.
  split; [vm_compute; reflexivity|]. refine (proj2 (proj2 (proj2 (decimal_arithmetic_exact (mkDecimal 15 1) (mkDecimal 25 2) _ _)))).
  all: split; [vm_compute; split; [discriminate|reflexivity]|]; split; [vm_compute; split; [discriminate|reflexivity]|];
    split; [right; vm_compute; discriminate|intros Hd; discriminate Hd].
Defined.

(** C40: Division is exact, or rounded as asked, and every error is characterised. An operand of scale
    over 18 gives [ScaleOutOfRange], whatever the divisor; else a zero divisor gives
    [DivisionByZero]. [decimal_div_exact] returns the quotient, unless the computation overflows or no
    decimal of scale at most 18 is the quotient, which it reports as [InexactDivision].
    It overflows exactly if the quotient's fraction in lowest terms does not fit [u128], or if
    the long division of that fraction meets, before it ends, a digit that cannot be
    computed in [u128], or ends in a coefficient that is no [i128]. [decimal_div_round], with an
    admitted mode and scale, returns, of scale at most the scale asked for, the integer that the
    mode selects around the quotient times [10^scale] (the floor, the ceiling, the truncation, or
    the nearest with ties to even), and overflows exactly if that fraction in lowest
    terms does not fit [u128] or that integer is no [i128]. *)
Theorem decimal_division_exact a b : decimal_ok a → decimal_ok b →
  match decimal_div_exact a b with
  | Ok q => both_admitted a b ∧ unscaled b ≠ 0%Z ∧ ¬ exact_overflows a b ∧ decimal_ok q ∧ (scale q ≤ MAX_DECIMAL_SCALE)%Z ∧ quotient_of q a b
  | Err e => e = ScaleOutOfRange ∧ ¬ both_admitted a b
      ∨ e = DivisionByZero ∧ both_admitted a b ∧ unscaled b = 0%Z
      ∨ e = InexactDivision ∧ both_admitted a b ∧ unscaled b ≠ 0%Z ∧ ¬ exact_overflows a b ∧
          (∀ q, decimal_ok q → (scale q ≤ MAX_DECIMAL_SCALE)%Z → ¬ quotient_of q a b)
      ∨ e = Overflow ∧ both_admitted a b ∧ unscaled b ≠ 0%Z ∧ exact_overflows a b
  end ∧
  ∀ s mode, (0 ≤ s)%Z →
  match decimal_div_round a b s mode with
  | Ok q => (s ≤ MAX_DECIMAL_SCALE)%Z ∧ mode ∈ rounding_modes ∧ both_admitted a b ∧ unscaled b ≠ 0%Z ∧ ¬ round_overflows a b s mode ∧
      decimal_ok q ∧ (scale q ≤ s)%Z ∧
      ∃ N c, (N * unscaled b * 10 ^ scale a = unscaled a * 10 ^ (scale b + s) * divisor a b)%Z ∧ (0 < divisor a b)%Z ∧
        denotes_ratio q c s ∧ rounds mode N (divisor a b) c
  | Err e => e = ScaleOutOfRange ∧ ¬ ((s ≤ MAX_DECIMAL_SCALE)%Z ∧ both_admitted a b) ∧ ((s ≤ MAX_DECIMAL_SCALE)%Z → mode ∈ rounding_modes)
      ∨ e = InvalidRoundingMode ∧ (s ≤ MAX_DECIMAL_SCALE)%Z ∧ mode ∉ rounding_modes
      ∨ e = DivisionByZero ∧ (s ≤ MAX_DECIMAL_SCALE)%Z ∧ mode ∈ rounding_modes ∧ both_admitted a b ∧ unscaled b = 0%Z
      ∨ e = Overflow ∧ (s ≤ MAX_DECIMAL_SCALE)%Z ∧ mode ∈ rounding_modes ∧ both_admitted a b ∧ unscaled b ≠ 0%Z ∧ round_overflows a b s mode
  end.
Proof.
  intros Ha Hb. split; [by apply div_exact_spec|]. intros s mode Hs. pose proof (div_round_spec a b s mode Ha Hb Hs) as H.
  destruct (decimal_div_round a b s mode) as [q|e]; [|done]. destruct H as (? & ? & ? & H0 & ? & ? & ? & c & ? & ? & ?). split_and!; try done.
  exists (scaled_dividend a b s), c. split; [by apply scaled_dividend_spec|done].
Qed.

(** A quotient; a rounding; the quotient [2^126 / (2^127 - 1)], whose first digit does not fit; and
    [-2^127 / -1], whose quotient is no [i128]. *)
Lemma decimal_division_exact_witness :
  decimal_div_exact (mkDecimal 1 0) (mkDecimal 8 0) = Ok (mkDecimal 125 3) ∧
  decimal_div_round (mkDecimal (-25) 1) (mkDecimal 1 0) 0 "half_even" = Ok (mkDecimal (-2) 0) ∧
  decimal_div_exact (mkDecimal (2 ^ 126) 0) (mkDecimal (2 ^ 127 - 1) 0) = Err Overflow ∧
  decimal_div_exact (mkDecimal (- 2 ^ 127) 0) (mkDecimal (-1) 0) = Err Overflow ∧
  ¬ exact_overflows (mkDecimal 1 0) (mkDecimal 8 0) ∧ quotient_of (mkDecimal 125 3) (mkDecimal 1 0) (mkDecimal 8 0).
Proof.
  split; [vm_compute; reflexivity|]. split; [vm_compute; reflexivity|]. split; [vm_compute; reflexivity|]. split; [vm_compute; reflexivity|].
  assert (decimal_ok (mkDecimal 1 0)) as H1.
  { split; [vm_compute; split; [discriminate|reflexivity]|]. split; [vm_compute; split; [discriminate|reflexivity]|]. split; [left; reflexivity|intros Hd; discriminate Hd]. }
  assert (decimal_ok (mkDecimal 8 0)) as H8.
  { split; [vm_compute; split; [discriminate|reflexivity]|]. split; [vm_compute; split; [discriminate|reflexivity]|]. split; [left; reflexivity|intros Hd; discriminate Hd]. }
  destruct (proj1 (decimal_division_exact (mkDecimal 1 0) (mkDecimal 8 0) H1 H8)) as (_ & _ & Ho & _ & _ & Hq). split; [exact Ho|exact Hq].
Defined.
