(* ===== verification/Values.v ===== *)
(** Quantities, money, and the order of floats (src/crates/brix-canon/src/quantity.rs,
    src/crates/brix-canon/src/float.rs, src/crates/brix-canon/src/strict_ieee.rs).

    An [f64] or [f32] is its bit pattern, an unsigned integer of its width. The arithmetic of
    strict_ieee.rs is the hardware's and is left out: what is modelled of [FiniteF64] is its
    construction, its sign change, its order and its encoding. *)
From S2P Require Import Prelude IntCodec Canon CanonLaws Encoding Decimal DecimalMath.

(** * Quantities and money *)

Record Quantity : Type := mkQuantity { measure : bytes; value : Decimal }.
Record Money : Type := mkMoney { currency : bytes; minor_units : Z }.

#[export] Instance Canonical_Quantity `{UnicodeNfc} : Canonical Quantity := λ q w,
  w |> write_ident (measure q) |> canon_write (value q).
#[export] Instance Canonical_Money `{UnicodeNfc} : Canonical Money := λ m w,
  w |> write_ident (currency m) |> write_int128 (minor_units m).

(** * Floats *)

Definition CANON_NAN_F64 : Z := 0x7ff8000000000000.
Definition CANON_NAN_F32 : Z := 0x7fc00000.

(** [f64::is_nan], [f64::is_finite] on bits: the exponent is all ones for a NaN or an infinity. *)
Definition f64_exponent (x : Z) : Z := Z.land (Z.shiftr x 52) 0x7ff.
Definition f64_mantissa (x : Z) : Z := Z.land x 0xfffffffffffff.
Definition f64_is_nan (x : Z) : bool := bool_decide (f64_exponent x = 0x7ff ∧ f64_mantissa x ≠ 0)%Z.
Definition f64_is_finite (x : Z) : bool := bool_decide (f64_exponent x ≠ 0x7ff)%Z.
Definition f32_exponent (x : Z) : Z := Z.land (Z.shiftr x 23) 0xff.
Definition f32_mantissa (x : Z) : Z := Z.land x 0x7fffff.
Definition f32_is_nan (x : Z) : bool := bool_decide (f32_exponent x = 0xff ∧ f32_mantissa x ≠ 0)%Z.

Definition total_order_key_f64 (x : Z) : bytes :=
  let bits := if f64_is_nan x then CANON_NAN_F64 else x in
  let ordered := if decide (Z.shiftr bits 63 = 1%Z) then Z.lxor bits (Z.ones 64) else Z.lxor bits (Z.shiftl 1 63) in
  to_be_bytes 8 ordered.

Definition total_order_key_f32 (x : Z) : bytes :=
  let bits := if f32_is_nan x then CANON_NAN_F32 else x in
  let ordered := if decide (Z.shiftr bits 31 = 1%Z) then Z.lxor bits (Z.ones 32) else Z.lxor bits (Z.shiftl 1 31) in
  to_be_bytes 4 ordered.

(** ** Finite decision values *)

Record FiniteF64 : Type := mkFiniteF64 { finite_bits : Z }.

(** [value == 0.0] holds of both zeros. *)
Definition f64_is_zero (x : Z) : bool := bool_decide (Z.land x 0x7fffffffffffffff = 0)%Z.
(** [-x]. *)
Definition f64_neg (x : Z) : Z := Z.lxor x (Z.shiftl 1 63).

Definition finite_new (value : Z) : result NumericError FiniteF64 :=
  if negb (f64_is_finite value) then Err NonFinite
  else Ok (mkFiniteF64 (if f64_is_zero value then 0%Z else value)).
Definition from_bits (bits : Z) : result NumericError FiniteF64 := finite_new bits.
Definition checked_neg (x : FiniteF64) : result NumericError FiniteF64 := finite_new (f64_neg (finite_bits x)).

#[export] Instance Ord_FiniteF64 : Ord FiniteF64 := λ a b,
  cmp (total_order_key_f64 (finite_bits a)) (total_order_key_f64 (finite_bits b)).
#[export] Instance Canonical_FiniteF64 : Canonical FiniteF64 := λ a w, w |> write_raw (to_be_bytes 8 (finite_bits a)).

(** * The bits of a float *)

Lemma land_ones_low x k : (0 ≤ k)%Z → Z.land x (2 ^ k - 1) = (x mod 2 ^ k)%Z.
Proof. intros Hk. rewrite <-Z.land_ones, Z.ones_equiv by done. by f_equal. Qed.

(** The sign, exponent and mantissa of a pattern of [e] exponent and [m] mantissa bits. *)
Lemma lxor_top x k : (0 ≤ k)%Z → (0 ≤ x < 2 ^ k)%Z → Z.lxor x (Z.shiftl 1 k) = (x + 2 ^ k)%Z.
Proof.
  intros Hk Hx. rewrite Z.shiftl_mul_pow2, Z.mul_1_l by done. symmetry. apply Z.add_nocarry_lxor. apply Z.bits_inj'. intros n Hn.
  rewrite Z.land_spec, Z.pow2_bits_eqb, Z.bits_0 by done. destruct (Z.eqb_spec k n) as [->|]; [|apply andb_false_r].
  rewrite andb_true_r, <-(Z.mod_small x (2 ^ n)) by done. apply Z.mod_pow2_bits_high. lia.
Qed.

Lemma lxor_ones x k : (0 ≤ k)%Z → (0 ≤ x < 2 ^ k)%Z → Z.lxor x (Z.ones k) = (2 ^ k - 1 - x)%Z.
Proof.
  intros Hk Hx. assert (Z.lxor x (Z.ones k) + x = Z.ones k)%Z as H; [|rewrite Z.ones_equiv in *; lia].
  rewrite Z.add_nocarry_lxor; [by rewrite Z.lxor_comm, <-Z.lxor_assoc, Z.lxor_nilpotent, Z.lxor_0_l|].
  apply Z.bits_inj'. intros n Hn. rewrite Z.land_spec, Z.lxor_spec, Z.bits_0. destruct (decide (n < k)%Z) as [Hlt|Hge].
  - rewrite Z.ones_spec_low by lia. by destruct (Z.testbit x n).
  - assert (Z.testbit x n = false) as -> by (rewrite <-(Z.mod_small x (2 ^ k)) by done; apply Z.mod_pow2_bits_high; lia). apply andb_false_r.
Qed.

(** ** A format of [e] exponent bits and [m] mantissa bits *)

Section Format.
Context (e m : Z) (He : (0 < e)%Z) (Hm : (0 < m)%Z).

(** The magnitude in units of the least subnormal, as IEEE-754 defines it; of an infinity, a
    number above every finite magnitude. *)
Definition magnitude (x : Z) : Z :=
  let ex := ((x / 2 ^ m) mod 2 ^ e)%Z in
  let man := (x mod 2 ^ m)%Z in
  if decide (ex = 0%Z) then man else ((2 ^ m + man) * 2 ^ (ex - 1))%Z.
Definition negative (x : Z) : bool := bool_decide (2 ^ (e + m) ≤ x)%Z.
Definition numeric (x : Z) : Z := if negative x then (- magnitude x)%Z else magnitude x.
(** The order of the values, the negative zero below the positive one. *)
Definition value_order (x y : Z) : comparison :=
  match Z.compare (numeric x) (numeric y) with
  | Eq => Z.compare (if negative y then 1 else 0) (if negative x then 1 else 0)
  | c => c
  end.
Definition order_image (x : Z) : Z := if negative x then (2 ^ (e + m + 1) - 1 - x)%Z else (x + 2 ^ (e + m))%Z.

Definition pattern_ok (x : Z) : Prop := (0 ≤ x < 2 ^ (e + m + 1))%Z.
Definition low_bits (x : Z) : Z := (x mod 2 ^ (e + m))%Z.

Lemma low_bits_spec x : pattern_ok x → (0 ≤ low_bits x < 2 ^ (e + m))%Z ∧ x = ((if negative x then 2 ^ (e + m) else 0) + low_bits x)%Z.
Proof.
  unfold pattern_ok, low_bits, negative. intros Hx. assert (0 < 2 ^ (e + m))%Z as Hp by (apply Z.pow_pos_nonneg; lia).
  rewrite Z.pow_add_r, Z.pow_1_r in Hx by lia. split; [by apply Z.mod_pos_bound|]. case_bool_decide as Hc.
  - assert (x / 2 ^ (e + m) = 1)%Z as Hd by (symmetry; apply (Z.div_unique_pos _ _ _ (x - 2 ^ (e + m))); lia).
    pose proof (Z.div_mod x (2 ^ (e + m)) ltac:(lia)). lia.
  - rewrite Z.mod_small; lia.
Qed.

Lemma magnitude_low x : magnitude x = magnitude (low_bits x).
Proof.
  unfold magnitude, low_bits. rewrite Z.pow_add_r, (Z.mul_comm (2 ^ e)) by lia.
  assert (0 < 2 ^ m ∧ 0 < 2 ^ e)%Z as [Pm Pe] by (split; apply Z.pow_pos_nonneg; lia).
  rewrite (Z.rem_mul_r x (2 ^ m) (2 ^ e)) by lia. rewrite (Z.mul_comm (2 ^ m)), Z.div_add, Z.mod_add by lia.
  rewrite (Z.div_small (x mod 2 ^ m)), Z.add_0_l, !Z.mod_mod by (lia || apply Z.mod_pos_bound; lia). done.
Qed.

(** A larger pattern is a larger magnitude. *)
Lemma magnitude_mono x y : (0 ≤ x → x < y → y < 2 ^ (e + m) → 0 ≤ magnitude x < magnitude y)%Z.
Proof.
  intros Hx Hxy Hy. assert (0 < 2 ^ m)%Z as Pm by (apply Z.pow_pos_nonneg; lia). assert (0 < 2 ^ e)%Z as Pe by (apply Z.pow_pos_nonneg; lia).
  rewrite Z.pow_add_r in Hy by lia. unfold magnitude.
  assert (∀ z, 0 ≤ z → z < 2 ^ e * 2 ^ m → 0 ≤ z / 2 ^ m < 2 ^ e)%Z as Hr.
  { intros z H1 H2. split; [by apply Z.div_pos|]. apply Z.div_lt_upper_bound; lia. }
  rewrite !(Z.mod_small (_ / _)) by (apply Hr; lia). pose proof (Hr x Hx ltac:(lia)) as Hrx. pose proof (Hr y ltac:(lia) Hy) as Hry.
  pose proof (Z.div_mod x (2 ^ m) ltac:(lia)) as Ex. pose proof (Z.div_mod y (2 ^ m) ltac:(lia)) as Ey.
  pose proof (Z.mod_pos_bound x (2 ^ m) Pm) as Bx. pose proof (Z.mod_pos_bound y (2 ^ m) Pm) as By.
  set (ex := (x / 2 ^ m)%Z) in *. set (ey := (y / 2 ^ m)%Z) in *. set (mx := (x mod 2 ^ m)%Z) in *. set (my := (y mod 2 ^ m)%Z) in *.
  assert (ex ≤ ey)%Z as Hle by (unfold ex, ey; apply Z.div_le_mono; lia).
  destruct (decide (ex = 0%Z)) as [E0|E0], (decide (ey = 0%Z)) as [F0|F0]; [rewrite E0 in Ex; rewrite F0 in Ey; lia| |lia|].
  - assert (1 ≤ 2 ^ (ey - 1))%Z by (apply (Z.pow_le_mono_r 2 0); lia). nia.
  - assert (1 ≤ 2 ^ (ex - 1))%Z by (apply (Z.pow_le_mono_r 2 0); lia). destruct (decide (ex = ey)) as [Ee|Ee].
    + rewrite <-Ee in *. nia.
    + assert (2 ^ ex ≤ 2 ^ (ey - 1))%Z as Hp by (apply Z.pow_le_mono_r; lia). replace ex with (ex - 1 + 1)%Z in Hp at 1 by lia.
      rewrite Z.pow_add_r, Z.pow_1_r in Hp by lia. nia.
Qed.

Lemma magnitude_nonneg x : (0 ≤ magnitude (low_bits x))%Z.
Proof.
  unfold magnitude. assert (0 < 2 ^ m)%Z as Pm by (apply Z.pow_pos_nonneg; lia). pose proof (Z.mod_pos_bound (low_bits x) (2 ^ m) Pm).
  pose proof (Z.mod_pos_bound (low_bits x / 2 ^ m) (2 ^ e) ltac:(apply Z.pow_pos_nonneg; lia)). case_decide; [lia|].
  apply Z.mul_nonneg_nonneg; [lia|apply Z.pow_nonneg; lia].
Qed.

Lemma magnitude_compare_low x y : (0 ≤ x < 2 ^ (e + m) → 0 ≤ y < 2 ^ (e + m) → Z.compare (magnitude x) (magnitude y) = Z.compare x y)%Z.
Proof.
  intros Hx Hy. destruct (Z.compare_spec x y) as [->|H|H]; [apply Z.compare_refl|apply Z.compare_lt_iff|apply Z.compare_gt_iff]; apply magnitude_mono; lia.
Qed.

(** The image of a pattern is ordered as its value. *)
Lemma order_image_compare x y : pattern_ok x → pattern_ok y → Z.compare (order_image x) (order_image y) = value_order x y.
Proof.
  intros Hx Hy. destruct (low_bits_spec x Hx) as [Lx Ex]. destruct (low_bits_spec y Hy) as [Ly Ey].
  pose proof (magnitude_compare_low _ _ Lx Ly) as Hc. pose proof (magnitude_nonneg x) as Px. pose proof (magnitude_nonneg y) as Py.
  unfold value_order, numeric, order_image. rewrite (magnitude_low x), (magnitude_low y).
  assert (2 ^ (e + m + 1) = 2 * 2 ^ (e + m))%Z as -> by (rewrite Z.pow_add_r, Z.pow_1_r by lia; lia).
  set (lx := low_bits x) in *. set (ly := low_bits y) in *. set (N := (2 ^ (e + m))%Z) in *. clearbody N lx ly.
  destruct (negative x), (negative y); cbn [Z.compare Pos.compare Pos.compare_cont]; rewrite Ex, Ey.
  - destruct (Z.compare_spec lx ly), (Z.compare_spec (magnitude lx) (magnitude ly)); try discriminate Hc;
      destruct (Z.compare_spec (2 * N - 1 - (N + lx)) (2 * N - 1 - (N + ly))), (Z.compare_spec (- magnitude lx) (- magnitude ly)); done || lia.
  - transitivity Lt; [apply Z.compare_lt_iff; lia|]. destruct (Z.compare_spec (- magnitude lx) (magnitude ly)); done || lia.
  - transitivity Gt; [apply Z.compare_gt_iff; lia|]. destruct (Z.compare_spec (magnitude lx) (- magnitude ly)); done || lia.
  - rewrite Hc. destruct (Z.compare_spec lx ly); [apply Z.compare_eq_iff|apply Z.compare_lt_iff|apply Z.compare_gt_iff]; lia.
Qed.
End Format.

(** * The keys *)

Lemma be_compare n x y : (0 ≤ x < 256 ^ Z.of_nat n → 0 ≤ y < 256 ^ Z.of_nat n →
  lex_compare (to_be_bytes n x) (to_be_bytes n y) = Z.compare x y)%Z.
Proof.
  intros Hx Hy. rewrite lex_compare_be_value; [|apply to_be_bytes_are_bytes..|by rewrite !length_to_be_bytes].
  by rewrite !be_value_to_be_bytes, !Z.mod_small.
Qed.

Lemma shiftr_top x k : (0 ≤ k)%Z → (0 ≤ x < 2 ^ (k + 1))%Z → Z.shiftr x k = 1%Z ↔ (2 ^ k ≤ x)%Z.
Proof.
  intros Hk Hx. rewrite Z.shiftr_div_pow2 by done. rewrite Z.pow_add_r, Z.pow_1_r in Hx by lia. assert (0 < 2 ^ k)%Z by (apply Z.pow_pos_nonneg; lia).
  pose proof (Z.div_mod x (2 ^ k) ltac:(lia)). pose proof (Z.mod_pos_bound x (2 ^ k) ltac:(lia)). split; intros; nia.
Qed.

(** The transform of the code is [order_image]. *)
Lemma ordered_spec k x : (0 ≤ k)%Z → (0 ≤ x < 2 ^ (k + 1))%Z →
  (if decide (Z.shiftr x k = 1%Z) then Z.lxor x (Z.ones (k + 1)) else Z.lxor x (Z.shiftl 1 k)) =
  (if bool_decide (2 ^ k ≤ x)%Z then 2 ^ (k + 1) - 1 - x else x + 2 ^ k)%Z.
Proof.
  intros Hk Hx. pose proof (shiftr_top x k Hk Hx) as Hs. case_bool_decide as Hc.
  - rewrite decide_True by by apply Hs. apply lxor_ones; [lia|done].
  - rewrite decide_False by by rewrite Hs. apply lxor_top; lia.
Qed.

Definition f32_pattern (x : Z) : Prop := (0 ≤ x < 2 ^ 32)%Z.

Lemma key_f64_spec x : u64_ok x → f64_is_nan x = false → total_order_key_f64 x = to_be_bytes 8 (order_image 11 52 x).
Proof. intros Hx Hn. unfold total_order_key_f64. rewrite Hn. f_equal. by apply (ordered_spec 63). Qed.
Lemma key_f32_spec x : f32_pattern x → f32_is_nan x = false → total_order_key_f32 x = to_be_bytes 4 (order_image 8 23 x).
Proof. intros Hx Hn. unfold total_order_key_f32. rewrite Hn. f_equal. by apply (ordered_spec 31). Qed.

Lemma order_image_bound e m x : (0 < e → 0 < m → pattern_ok e m x → 0 ≤ order_image e m x < 2 ^ (e + m + 1))%Z.
Proof.
  unfold pattern_ok, order_image, negative. intros He Hm Hx. assert (2 ^ (e + m + 1) = 2 * 2 ^ (e + m))%Z as E by (rewrite Z.pow_add_r, Z.pow_1_r by lia; lia).
  case_bool_decide; lia.
Qed.

Lemma fields_low e m x : (0 < e → 0 < m → x mod 2 ^ m = low_bits e m x mod 2 ^ m ∧ (x / 2 ^ m) mod 2 ^ e = low_bits e m x / 2 ^ m)%Z.
Proof.
  intros He Hm. assert (0 < 2 ^ m ∧ 0 < 2 ^ e)%Z as [Pm Pe] by (split; apply Z.pow_pos_nonneg; lia).
  unfold low_bits. rewrite Z.pow_add_r, (Z.mul_comm (2 ^ e)) by lia. rewrite (Z.rem_mul_r x (2 ^ m) (2 ^ e)) by lia.
  rewrite (Z.mul_comm (2 ^ m)), Z.div_add, Z.mod_add by lia. rewrite (Z.div_small (x mod 2 ^ m)), Z.add_0_l, Z.mod_mod by (lia || apply Z.mod_pos_bound; lia). done.
Qed.

(** The magnitude of every number is at most that of the infinity. *)
Lemma not_nan_low e m x : (0 < e → 0 < m → pattern_ok e m x →
  ¬ ((x / 2 ^ m) mod 2 ^ e = 2 ^ e - 1 ∧ x mod 2 ^ m ≠ 0) → low_bits e m x ≤ (2 ^ e - 1) * 2 ^ m)%Z.
Proof.
  intros He Hm Hx Hn. destruct (low_bits_spec e m He Hm x Hx) as [HL _]. destruct (fields_low e m x He Hm) as [E1 E2]. rewrite E1, E2 in Hn.
  set (l := low_bits e m x) in *. assert (0 < 2 ^ m)%Z as Pm by (apply Z.pow_pos_nonneg; lia). rewrite Z.pow_add_r in HL by lia.
  pose proof (Z.div_mod l (2 ^ m) ltac:(lia)). pose proof (Z.mod_pos_bound l (2 ^ m) Pm). assert (l / 2 ^ m < 2 ^ e)%Z by (apply Z.div_lt_upper_bound; lia). nia.
Qed.

Lemma f64_fields x : f64_exponent x = ((x / 2 ^ 52) mod 2 ^ 11)%Z ∧ f64_mantissa x = (x mod 2 ^ 52)%Z.
Proof.
  unfold f64_exponent, f64_mantissa. rewrite Z.shiftr_div_pow2 by done.
  split; [apply (land_ones_low _ 11)|apply (land_ones_low _ 52)]; done.
Qed.
Lemma f32_fields x : f32_exponent x = ((x / 2 ^ 23) mod 2 ^ 8)%Z ∧ f32_mantissa x = (x mod 2 ^ 23)%Z.
Proof.
  unfold f32_exponent, f32_mantissa. rewrite Z.shiftr_div_pow2 by done.
  split; [apply (land_ones_low _ 8)|apply (land_ones_low _ 23)]; done.
Qed.

(** The image of the canonical NaN is above that of every number. *)
Lemma image_below_nan e m x : (0 < e → 1 < m → pattern_ok e m x →
  ¬ ((x / 2 ^ m) mod 2 ^ e = 2 ^ e - 1 ∧ x mod 2 ^ m ≠ 0) → order_image e m x < (2 ^ e - 1) * 2 ^ m + 2 ^ (m - 1) + 2 ^ (e + m))%Z.
Proof.
  intros He Hm Hx Hn. pose proof (not_nan_low e m x He ltac:(lia) Hx Hn) as Hl. destruct (low_bits_spec e m He ltac:(lia) x Hx) as [HL E].
  assert (0 < 2 ^ (m - 1))%Z by (apply Z.pow_pos_nonneg; lia). unfold order_image. assert (2 ^ (e + m + 1) = 2 * 2 ^ (e + m))%Z as -> by (rewrite Z.pow_add_r, Z.pow_1_r by lia; lia).
  assert (0 ≤ (2 ^ e - 1) * 2 ^ m)%Z. { assert (1 ≤ 2 ^ e)%Z by (apply (Z.pow_le_mono_r 2 0); lia). assert (0 < 2 ^ m)%Z by (apply Z.pow_pos_nonneg; lia). nia. }
  destruct (negative e m x); lia.
Qed.

(** ** Finite values *)

Lemma f64_neg_spec x : u64_ok x → u64_ok (f64_neg x) ∧ low_bits 11 52 (f64_neg x) = low_bits 11 52 x ∧ negative 11 52 (f64_neg x) = negb (negative 11 52 x).
Proof.
  intros Hx. unfold f64_neg, low_bits, negative. change (11 + 52)%Z with 63%Z. destruct (decide (2 ^ 63 ≤ x)%Z) as [Hc|Hc].
  - assert (Z.lxor x (Z.shiftl 1 63) = x - 2 ^ 63)%Z as ->.
    { rewrite <-(Z.sub_add (2 ^ 63) x) at 1. rewrite <-(lxor_top (x - 2 ^ 63) 63) by int_lia. by rewrite Z.lxor_assoc, Z.lxor_nilpotent, Z.lxor_0_r. }
    rewrite (bool_decide_true (2 ^ 63 ≤ x)%Z), bool_decide_false by int_lia. split; [int_lia|]. split; [|done].
    rewrite <-(Z.sub_add (2 ^ 63) x) at 2. rewrite <-(Z.mul_1_l (2 ^ 63)) at 4. by rewrite Z.mod_add.
  - rewrite lxor_top by int_lia. rewrite (bool_decide_false (2 ^ 63 ≤ x)%Z), bool_decide_true by int_lia. split; [int_lia|]. split; [|done].
    rewrite <-(Z.mul_1_l (2 ^ 63)) at 1. by rewrite Z.mod_add.
Qed.

(** Both zeros are zero, and nothing else is. *)
Lemma f64_is_zero_spec x : u64_ok x → f64_is_zero x = true ↔ numeric 11 52 x = 0%Z.
Proof.
  intros Hx. unfold f64_is_zero. rewrite bool_decide_eq_true. change 0x7fffffffffffffff%Z with (2 ^ 63 - 1)%Z. rewrite land_ones_low by done. change (x mod 2 ^ 63)%Z with (low_bits 11 52 x).
  assert (numeric 11 52 x = 0 ↔ magnitude 11 52 x = 0)%Z as -> by (unfold numeric; destruct (negative _ _ _); lia).
  rewrite magnitude_low by lia. destruct (low_bits_spec 11 52 ltac:(lia) ltac:(lia) x Hx) as [HL _].
  pose proof (magnitude_compare_low 11 52 ltac:(lia) ltac:(lia) (low_bits 11 52 x) 0 HL ltac:(lia)) as Hc. change (magnitude 11 52 0) with 0%Z in Hc.
  rewrite <-!Z.compare_eq_iff, Hc. done.
Qed.

Definition finite_ok (a : FiniteF64) : Prop :=
  u64_ok (finite_bits a) ∧ f64_is_finite (finite_bits a) = true ∧ (numeric 11 52 (finite_bits a) = 0 → finite_bits a = 0)%Z.

Lemma finite_new_spec x : u64_ok x →
  match finite_new x with
  | Ok a => f64_is_finite x = true ∧ finite_ok a ∧ numeric 11 52 (finite_bits a) = numeric 11 52 x
  | Err e => e = NonFinite ∧ f64_is_finite x = false
  end.
Proof.
  intros Hx. unfold finite_new. destruct (f64_is_finite x) eqn:Hf; cbn [negb]; [|done]. split; [done|]. pose proof (f64_is_zero_spec x Hx) as Hz.
  destruct (f64_is_zero x).
  - cbn [finite_bits]. rewrite (proj1 Hz eq_refl). done.
  - unfold finite_ok. cbn [finite_bits]. split; [|done]. split; [done|]. split; [done|]. intros H%Hz. discriminate H.
Qed.

Lemma finite_not_nan x : f64_is_finite x = true → f64_is_nan x = false.
Proof. unfold f64_is_finite, f64_is_nan. rewrite bool_decide_eq_true, bool_decide_eq_false. by intros H [? _]. Qed.

Lemma f64_finite_neg x : u64_ok x → f64_is_finite (f64_neg x) = f64_is_finite x.
Proof.
  intros Hx. destruct (f64_neg_spec x Hx) as (_ & Hl & _). unfold f64_is_finite. apply bool_decide_ext. f_equiv.
  rewrite !(proj1 (f64_fields _)), !(proj2 (fields_low 11 52 _ ltac:(lia) ltac:(lia))), Hl. done.
Qed.

Lemma numeric_neg x : u64_ok x → numeric 11 52 (f64_neg x) = (- numeric 11 52 x)%Z.
Proof.
  intros Hx. destruct (f64_neg_spec x Hx) as (_ & Hl & Hn). unfold numeric. rewrite Hn, (magnitude_low 11 52 ltac:(lia) ltac:(lia) (f64_neg x)), Hl.
  rewrite <-magnitude_low by lia. destruct (negative 11 52 x); cbn [negb]; lia.
Qed.

(** Equal nonzero values have equal bits. *)
Lemma numeric_inj x y : u64_ok x → u64_ok y → numeric 11 52 x = numeric 11 52 y → numeric 11 52 x ≠ 0%Z → x = y.
Proof.
  intros Hx Hy E H0. pose proof (low_bits_spec 11 52 ltac:(lia) ltac:(lia) x Hx) as [Lx Ex]. pose proof (low_bits_spec 11 52 ltac:(lia) ltac:(lia) y Hy) as [Ly Ey].
  unfold numeric in *. rewrite (magnitude_low 11 52 ltac:(lia) ltac:(lia) x) in *. rewrite (magnitude_low 11 52 ltac:(lia) ltac:(lia) y) in E.
  pose proof (magnitude_nonneg 11 52 ltac:(lia) ltac:(lia) x). pose proof (magnitude_nonneg 11 52 ltac:(lia) ltac:(lia) y).
  pose proof (magnitude_compare_low 11 52 ltac:(lia) ltac:(lia) _ _ Lx Ly) as Hm.
  assert (negative 11 52 x = negative 11 52 y) as En by (destruct (negative 11 52 x), (negative 11 52 y); done || lia).
  assert (low_bits 11 52 x = low_bits 11 52 y) as El.
  { apply Z.compare_eq_iff. rewrite <-Hm. apply Z.compare_eq_iff. destruct (negative 11 52 x), (negative 11 52 y); done || lia. }
  rewrite Ex, Ey, El, En. done.
Qed.

Lemma finite_unique a b : finite_ok a → finite_ok b → numeric 11 52 (finite_bits a) = numeric 11 52 (finite_bits b) → finite_bits a = finite_bits b.
Proof.
  intros (Ua & _ & Za) (Ub & _ & Zb) E. destruct (decide (numeric 11 52 (finite_bits a) = 0%Z)) as [H0|H0]; [|by apply numeric_inj].
  by rewrite Za, Zb by congruence.
Qed.

(** ** Prefix-free encodings *)

Definition quantity_ok `{UnicodeNfc} (q : Quantity) : Prop := len_ok (nfc_cow (measure q)) ∧ decimal_ok (value q).
Definition money_ok `{UnicodeNfc} (m : Money) : Prop := len_ok (nfc_cow (currency m)) ∧ i128_ok (minor_units m).

Lemma canon_bytes_quantity `{UnicodeNfc} q : canon_bytes q = frame (nfc_cow (measure q)) ++ canon_bytes (value q).
Proof.
  unfold canon_bytes at 1, canon_write, Canonical_Quantity, write_ident. rewrite write_bytes_app. cbn.
  unfold canon_bytes, canon_write, Canonical_Decimal. unfold write_raw. repeat case_decide; by rewrite ?app_nil_l, <-?app_assoc.
Qed.

Lemma canon_bytes_money `{UnicodeNfc} m : canon_bytes m = frame (nfc_cow (currency m)) ++ encode_int (minor_units m).
Proof. unfold canon_bytes, canon_write, Canonical_Money, write_ident. by rewrite write_bytes_app. Qed.

(** Equal encodings are of the same measure, up to normalisation, and the same amount. *)
Lemma quantity_identity `{UnicodeNfc} q1 q2 r1 r2 : quantity_ok q1 → quantity_ok q2 →
  canon_bytes q1 ++ r1 = canon_bytes q2 ++ r2 → nfc_cow (measure q1) = nfc_cow (measure q2) ∧ value q1 = value q2 ∧ r1 = r2.
Proof.
  intros [L1 V1] [L2 V2]. rewrite !canon_bytes_quantity, <-!app_assoc. intros [Hm Hr]%prefix_free; [|done|done].
  by apply prefix_free in Hr as [? ?].
Qed.

Lemma money_identity `{UnicodeNfc} m1 m2 r1 r2 : money_ok m1 → money_ok m2 →
  canon_bytes m1 ++ r1 = canon_bytes m2 ++ r2 → nfc_cow (currency m1) = nfc_cow (currency m2) ∧ minor_units m1 = minor_units m2 ∧ r1 = r2.
Proof.
  intros [L1 V1] [L2 V2]. rewrite !canon_bytes_money, <-!app_assoc. intros [Hm Hr]%prefix_free; [|done|done].
  by apply prefix_free in Hr as [? ?].
Qed.

(** * Properties *)

(** The order of floats. The keys order the numbers of a width, infinities included, by
    value, the negative zero below the positive one; all NaNs have one key, above every
    number's. On [FiniteF64], which admits exactly the finite patterns and merges the zeros, the
    order is that of the values, values are equal exactly when their bits are, and negation
    is total and exact. *)
Theorem float_total_order :
  (∀ x y, u64_ok x → u64_ok y → f64_is_nan x = false →
    lex_compare (total_order_key_f64 x) (total_order_key_f64 y) = if f64_is_nan y then Lt else value_order 11 52 x y) ∧
  (∀ x y, f64_is_nan x = true → f64_is_nan y = true → total_order_key_f64 x = total_order_key_f64 y) ∧
  (∀ x y, f32_pattern x → f32_pattern y → f32_is_nan x = false →
    lex_compare (total_order_key_f32 x) (total_order_key_f32 y) = if f32_is_nan y then Lt else value_order 8 23 x y) ∧
  (∀ x y, f32_is_nan x = true → f32_is_nan y = true → total_order_key_f32 x = total_order_key_f32 y) ∧
  (∀ x, u64_ok x →
    match from_bits x with
    | Ok a => f64_is_finite x = true ∧ finite_ok a ∧ numeric 11 52 (finite_bits a) = numeric 11 52 x
    | Err e => e = NonFinite ∧ f64_is_finite x = false
    end) ∧
  (∀ a b, finite_ok a → finite_ok b →
    cmp a b = Z.compare (numeric 11 52 (finite_bits a)) (numeric 11 52 (finite_bits b)) ∧ (cmp a b = Eq → a = b) ∧
    ∃ n, checked_neg a = Ok n ∧ finite_ok n ∧ numeric 11 52 (finite_bits n) = (- numeric 11 52 (finite_bits a))%Z).
Proof.
  assert (∀ x y, u64_ok x → u64_ok y → f64_is_nan x = false → f64_is_nan y = false →
    lex_compare (total_order_key_f64 x) (total_order_key_f64 y) = value_order 11 52 x y) as H64.
  { intros x y Hx Hy Nx Ny. rewrite !key_f64_spec, be_compare by (done || by apply (order_image_bound 11 52)). by apply order_image_compare. }
  split_and!.
  - intros x y Hx Hy Nx. destruct (f64_is_nan y) eqn:Ny; [|by apply H64]. rewrite key_f64_spec by done.
    assert (total_order_key_f64 y = to_be_bytes 8 (0x7ff8000000000000 + 2 ^ 63)) as -> by (unfold total_order_key_f64; by rewrite Ny).
    rewrite be_compare by (by apply (order_image_bound 11 52) || done). apply Z.compare_lt_iff. apply (image_below_nan 11 52); [done|done|done|].
    unfold f64_is_nan in Nx. rewrite bool_decide_eq_false, (proj1 (f64_fields x)), (proj2 (f64_fields x)) in Nx. done.
  - intros x y Hx Hy. unfold total_order_key_f64. by rewrite Hx, Hy.
  - intros x y Hx Hy Nx. rewrite (key_f32_spec x) by done. pose proof (order_image_bound 8 23 x ltac:(lia) ltac:(lia) Hx). destruct (f32_is_nan y) eqn:Ny.
    + assert (total_order_key_f32 y = to_be_bytes 4 (0x7fc00000 + 2 ^ 31)) as -> by (unfold total_order_key_f32; by rewrite Ny).
      rewrite be_compare by done. apply Z.compare_lt_iff. apply (image_below_nan 8 23); [done|done|done|].
      unfold f32_is_nan in Nx. rewrite bool_decide_eq_false, (proj1 (f32_fields x)), (proj2 (f32_fields x)) in Nx. done.
    + rewrite key_f32_spec, be_compare by (done || by apply (order_image_bound 8 23)). by apply order_image_compare.
  - intros x y Hx Hy. unfold total_order_key_f32. by rewrite Hx, Hy.
  - intros x Hx. by apply finite_new_spec.
  - intros a b (Ua & Fa & Za) (Ub & Fb & Zb). assert (cmp a b = value_order 11 52 (finite_bits a) (finite_bits b)) as Hcmp by (apply H64; auto using finite_not_nan).
    assert (cmp a b = Z.compare (numeric 11 52 (finite_bits a)) (numeric 11 52 (finite_bits b)) ∧ (cmp a b = Eq → a = b)) as [? ?].
    { rewrite Hcmp. unfold value_order. destruct (Z.compare_spec (numeric 11 52 (finite_bits a)) (numeric 11 52 (finite_bits b))) as [E|E|E]; [|done|done].
      assert (finite_bits a = finite_bits b) as Eb by by apply finite_unique. rewrite Eb, Z.compare_refl. split; [done|]. intros _. destruct a, b. cbn in *. by subst. }
    split; [done|]. split; [done|]. pose proof (f64_neg_spec _ Ua) as (Un & _). pose proof (finite_new_spec _ Un) as Hn. unfold checked_neg.
    destruct (finite_new _) as [n|e]; [|destruct Hn as [_ Hn]; rewrite f64_finite_neg, Fa in Hn by done; discriminate Hn].
    destruct Hn as (_ & Hok & Hnum). exists n. split; [done|]. split; [done|]. by rewrite Hnum, numeric_neg.
Qed.

Lemma float_total_order_witness :
  lex_compare (total_order_key_f64 0x8000000000000000) (total_order_key_f64 0) = Lt ∧
  lex_compare (total_order_key_f32 0x7f800000) (total_order_key_f32 0x7fffffff) = Lt.
Proof.
  split.
  - refine (proj1 float_total_order 0x8000000000000000%Z 0%Z _ _ _); vm_compute; repeat split; discriminate.
  - refine (proj1 (proj2 (proj2 float_total_order)) 0x7f800000%Z 0x7fffffff%Z _ _ _); vm_compute; repeat split; discriminate.
Defined.
