(* ===== verification/FloatMath.v ===== *)
(** The binary64 arithmetic of decision values (src/crates/brix-canon/src/strict_ieee.rs).

    The language's [f64] operations are those of IEEE-754: the exact result, rounded to the
    nearest pattern, a tie to the even one. The exact result is a quotient of integers in units
    of the least subnormal ([2^-1074]), and [f64_round] rounds it. A text is read by the grammar
    of [f64::from_str], whose number is rounded in the same way. *)
From S2P Require Import Prelude IntCodec Canon CanonLaws Encoding Decimal DecimalMath Values.

(** * Rounding *)

(** The integer nearest to [p / q], the even one of two. *)
Definition round_half_even (p q : Z) : Z :=
  let d := (p / q)%Z in
  match Z.compare (2 * (p mod q)) q with
  | Lt => d
  | Gt => (d + 1)%Z
  | Eq => if Z.even d then d else (d + 1)%Z
  end.

Definition F64_INFINITY : Z := 0x7ff0000000000000.
Definition F64_NAN : Z := CANON_NAN_F64.

(** The pattern nearest to [p / q] least subnormals: [k] is the weight of the last place of a
    significand of 53 bits, and a significand that rounds up to [2^53] carries into the
    exponent, at most into the infinity. *)
Definition f64_round_magnitude (p q : Z) : Z :=
  let k := Z.max 0 (Z.log2 (p / q) - 52) in
  Z.min (k * 2 ^ 52 + round_half_even p (q * 2 ^ k)) F64_INFINITY.
Definition f64_round (neg : bool) (p q : Z) : Z :=
  ((if neg then 2 ^ 63 else 0) + f64_round_magnitude p q)%Z.

(** The value of a finite pattern, in least subnormals. *)
Definition f64_value (x : Z) : Z := numeric 11 52 x.
Definition f64_unit : Z := (2 ^ 1074)%Z.

(** * The operations of [f64] *)

Definition f64_of_exact (p q : Z) : Z := f64_round (bool_decide (p < 0)%Z) (Z.abs p) q.

(** On finite operands; a zero's sign is not tracked, which [FiniteF64::new] drops. *)
Definition f64_add (x y : Z) : Z := f64_of_exact (f64_value x + f64_value y) 1.
Definition f64_sub (x y : Z) : Z := f64_of_exact (f64_value x - f64_value y) 1.
Definition f64_mul (x y : Z) : Z := f64_of_exact (f64_value x * f64_value y) f64_unit.
(** On a divisor that is not zero. *)
Definition f64_div (x y : Z) : Z := f64_of_exact (Z.sgn (f64_value y) * f64_value x * f64_unit) (Z.abs (f64_value y)).
(** [value as f64]. *)
Definition f64_of_i64 (v : Z) : Z := f64_of_exact (v * f64_unit) 1.

(** ** [f64::from_str] *)

Definition byte_to_lowercase (b : Z) : Z := if bool_decide (65 ≤ b ≤ 90)%Z then (b + 32)%Z else b.
Definition lower_is (s : bytes) (word : string) : bool := bool_decide (byte_to_lowercase <$> s = bytes_of_string word).

(** The text before and after the first [e] or [E]. *)
Fixpoint split_exponent (s : bytes) : bytes * option bytes :=
  match s with
  | [] => ([], None)
  | b :: s' => if bool_decide (byte_to_lowercase b = 101%Z) then ([], Some s') else let '(l, r) := split_exponent s' in (b :: l, r)
  end.

(** [digits], which are at least one. *)
Definition digits_value (s : bytes) : option Z :=
  if bool_decide (s = []) || negb (forallb is_ascii_digit s) then None else Some (dec_value 0 (digit_values s)).
Definition exponent_value (e : option bytes) : option Z :=
  match e with
  | None => Some 0%Z
  | Some s => let '(neg, ds) := split_sign s in v ← digits_value ds; Some (if neg then - v else v)%Z
  end.

(** The bits of the number [sign digits . 10^exponent] nearest to it. *)
Definition f64_of_decimal (neg : bool) (coefficient exponent : Z) : Z :=
  if decide (0 ≤ exponent)%Z then f64_round neg (coefficient * 10 ^ exponent * f64_unit) 1
  else f64_round neg (coefficient * f64_unit) (10 ^ (- exponent)).

Definition f64_from_str (text : bytes) : option Z :=
  let '(neg, rest) := split_sign text in
  if lower_is rest "inf" || lower_is rest "infinity" then Some ((if neg then 2 ^ 63 else 0) + F64_INFINITY)%Z
  else if lower_is rest "nan" then Some F64_NAN
  else
    let '(mantissa, e) := split_exponent rest in
    let '(integer, fractional) := default (mantissa, []) (split_once DOT mantissa) in
    coefficient ← digits_value (integer ++ fractional);
    exponent ← exponent_value e;
    Some (f64_of_decimal neg coefficient (exponent - Z.of_nat (length fractional))).

(** * [FiniteF64] *)

Definition from_i64 (v : Z) : FiniteF64 := mkFiniteF64 (f64_of_i64 v).
Definition checked_add (x y : FiniteF64) : result NumericError FiniteF64 := finite_new (f64_add (finite_bits x) (finite_bits y)).
Definition checked_sub (x y : FiniteF64) : result NumericError FiniteF64 := finite_new (f64_sub (finite_bits x) (finite_bits y)).
Definition checked_mul (x y : FiniteF64) : result NumericError FiniteF64 := finite_new (f64_mul (finite_bits x) (finite_bits y)).
Definition checked_div (x y : FiniteF64) : result NumericError FiniteF64 :=
  if decide (finite_bits y = 0%Z) then Err DivisionByZero else finite_new (f64_div (finite_bits x) (finite_bits y)).
Definition finite_from_str (text : bytes) : result NumericError FiniteF64 :=
  value ← ok_or (f64_from_str text) InvalidNumber; finite_new value.

(** * Rounding is to nearest, ties to even *)

Lemma round_half_even_spec p q j : (0 < q)%Z →
  let d i := Z.abs (i * q - p) in let m := round_half_even p q in
  (d m ≤ d j ∧ (d m = d j → j = m ∨ Z.even m = true))%Z.
Proof.
  intros Hq. cbn zeta. unfold round_half_even. pose proof (Z.div_mod p q ltac:(lia)) as E. pose proof (Z.mod_pos_bound p q Hq) as B.
  set (d := (p / q)%Z) in *. set (r := (p mod q)%Z) in *.
  assert (Z.abs (j * q - p) = Z.abs ((j - d) * q - r))%Z as -> by (f_equal; lia).
  assert ((j ≤ d - 1) ∨ j = d ∨ j = d + 1 ∨ (d + 2 ≤ j))%Z as Hj by lia.
  assert (Z.abs (d * q - p) = r)%Z as Ed by lia. assert (Z.abs ((d + 1) * q - p) = q - r)%Z as Ed1 by lia.
  assert (Z.even (d + 1) = negb (Z.even d)) as Ev by (rewrite Z.even_add; by destruct (Z.even d)).
  assert (j ≤ d - 1 → q + r ≤ Z.abs ((j - d) * q - r))%Z as H1 by nia. assert (d + 2 ≤ j → 2 * q - r ≤ Z.abs ((j - d) * q - r))%Z as H2 by nia.
  assert (j = d → Z.abs ((j - d) * q - r) = r)%Z as H3 by (intros ->; lia).
  assert (j = d + 1 → Z.abs ((j - d) * q - r) = q - r)%Z as H4 by (intros ->; lia).
  destruct (Z.compare_spec (2 * r) q) as [Hc|Hc|Hc]; [destruct (Z.even d) eqn:He| |]; rewrite ?Ed, ?Ed1, ?Ev, ?He; cbn [negb];
    destruct Hj as [Hj|[Hj|[Hj|Hj]]]; (split; [lia|]); intros; (left; lia) || (right; done) || lia.
Qed.

Lemma round_half_even_bounds p q lo hi : (0 < q → lo * q ≤ p ≤ hi * q → lo ≤ round_half_even p q ≤ hi)%Z.
Proof.
  intros Hq [Hl Hh]. unfold round_half_even. assert (lo ≤ p / q)%Z by (apply Z.div_le_lower_bound; lia).
  assert (p / q ≤ hi)%Z by (apply Z.div_le_upper_bound; lia). pose proof (Z.div_mod p q ltac:(lia)). pose proof (Z.mod_pos_bound p q Hq).
  destruct (Z.compare_spec (2 * (p mod q)) q); [destruct (Z.even (p / q))| |]; try lia; (split; [lia|]).
  all: assert (p / q ≠ hi)%Z by nia; lia.
Qed.

(** The magnitude of the pattern of significand [m] and last place [2^k]. *)
Lemma magnitude_pattern k m : (0 ≤ k ≤ 2045 → (if decide (k = 0) then 0 else 2 ^ 52) ≤ m ≤ 2 ^ 53 → magnitude 11 52 (k * 2 ^ 52 + m) = m * 2 ^ k)%Z.
Proof.
  intros Hk Hm. unfold magnitude. destruct (decide (m = 2 ^ 53)%Z) as [->|Hne].
  - replace (k * 2 ^ 52 + 2 ^ 53)%Z with ((k + 2) * 2 ^ 52)%Z by lia. rewrite Z.div_mul, Z.mod_mul, (Z.mod_small (k + 2)) by lia.
    rewrite decide_False by lia. replace (k + 2 - 1)%Z with (k + 1)%Z by lia. rewrite Z.pow_add_r by lia. lia.
  - destruct (decide (m < 2 ^ 52)%Z) as [Hlt|Hge].
    + destruct (decide (k = 0)%Z) as [->|]; [|lia]. rewrite Z.add_0_l in *. rewrite Z.div_small, Z.mod_0_l, decide_True, Z.mod_small by lia. lia.
    + replace (k * 2 ^ 52 + m)%Z with ((m - 2 ^ 52) + (k + 1) * 2 ^ 52)%Z by lia. rewrite Z.div_add, Z.mod_add by lia.
      rewrite Z.div_small, Z.add_0_l, (Z.mod_small (m - 2 ^ 52)), Z.mod_small by (destruct (decide (k = 0)%Z); lia). rewrite decide_False by lia.
      replace (k + 1 - 1)%Z with k by lia. lia.
Qed.

(** Every magnitude of a finite pattern is a significand below [2^53] at a last place; from
    [2^(52+k)] on it is a multiple of [2^k]. *)
Lemma magnitude_multiple k z : (0 ≤ k → 0 ≤ z < F64_INFINITY → 2 ^ (52 + k) ≤ magnitude 11 52 z → ∃ j, magnitude 11 52 z = j * 2 ^ k)%Z.
Proof.
  intros Hk Hz. unfold magnitude, F64_INFINITY in *. assert (0 ≤ z / 2 ^ 52 < 2047)%Z as He.
  { split; [apply Z.div_pos; lia|]. apply Z.div_lt_upper_bound; lia. }
  rewrite (Z.mod_small (z / 2 ^ 52)) by lia. pose proof (Z.mod_pos_bound z (2 ^ 52) ltac:(lia)) as Hm. rewrite Z.pow_add_r by lia.
  assert (0 < 2 ^ k)%Z by (apply Z.pow_pos_nonneg; lia). case_decide as Hz0; [intros; exfalso; nia|]. intros Hle. set (f := (z / 2 ^ 52 - 1)%Z) in *.
  assert (k ≤ f)%Z as Hf.
  { apply Z.lt_succ_r. apply (Z.pow_lt_mono_r_iff 2); [lia|lia|]. rewrite Z.pow_succ_r by lia. assert (0 < 2 ^ f)%Z by (apply Z.pow_pos_nonneg; lia). nia. }
  exists ((2 ^ 52 + z mod 2 ^ 52) * 2 ^ (f - k))%Z. rewrite <-Z.mul_assoc, <-Z.pow_add_r by lia. do 2 f_equal. lia.
Qed.

(** [x] is the finite pattern nearest to [p / q], of two the one with the even significand. *)
Definition nearest_magnitude (p q x : Z) : Prop :=
  let d z := Z.abs (magnitude 11 52 z * q - p) in
  ∀ z, (0 ≤ z < F64_INFINITY)%Z → (d x ≤ d z)%Z ∧ (d x = d z → z = x ∨ Z.even x = true).

(** From half a last place above the largest finite number on, the result is infinite. *)
Definition f64_overflows (p q : Z) : Prop := (q * ((2 ^ 54 - 1) * 2 ^ 2045) ≤ 2 * Z.abs p)%Z.

Lemma last_place p q : (0 ≤ p → 0 < q →
  let k := Z.max 0 (Z.log2 (p / q) - 52) in
  0 ≤ k ∧ 0 < q * 2 ^ k ∧ p < 2 ^ 53 * (q * 2 ^ k) ∧ (k ≠ 0 → 2 ^ 52 * (q * 2 ^ k) ≤ p))%Z.
Proof.
  intros Hp Hq. cbn zeta. assert (0 ≤ p / q)%Z as Hd by (apply Z.div_pos; lia). set (k := Z.max _ _). assert (0 ≤ k)%Z as Hk by lia.
  assert (0 < 2 ^ k)%Z as Pk by (apply Z.pow_pos_nonneg; lia). pose proof (Z.div_mod p q ltac:(lia)). pose proof (Z.mod_pos_bound p q Hq).
  split; [done|]. split; [nia|]. destruct (decide (p / q = 0)%Z) as [Hd0|Hd0].
  - assert (k = 0)%Z as -> by (unfold k; by rewrite Hd0). split; [|done]. nia.
  - pose proof (Z.log2_spec (p / q) ltac:(lia)) as [L1 L2]. split.
    + assert (p / q < 2 ^ 53 * 2 ^ k)%Z; [|nia]. eapply Z.lt_le_trans; [exact L2|]. rewrite <-Z.pow_add_r by lia. apply Z.pow_le_mono_r; lia.
    + intros Hk0. assert (2 ^ 52 * 2 ^ k ≤ p / q)%Z; [|nia]. etrans; [|exact L1]. rewrite <-Z.pow_add_r by lia. apply Z.pow_le_mono_r; lia.
Qed.

Lemma f64_round_magnitude_spec p q : (0 ≤ p → 0 < q →
  let x := f64_round_magnitude p q in
  0 ≤ x ≤ F64_INFINITY ∧ (x = F64_INFINITY ↔ f64_overflows p q) ∧ (x < F64_INFINITY → nearest_magnitude p q x))%Z.
Proof.
  intros Hp Hq. cbn zeta. unfold f64_round_magnitude, f64_overflows. destruct (last_place p q Hp Hq) as (Hk & HQ & Hhi & Hlo).
  set (k := Z.max _ _) in *. set (Q := (q * 2 ^ k)%Z) in *. rewrite (Z.abs_eq p) by lia.
  assert (0 < 2 ^ k)%Z as Pk by (apply Z.pow_pos_nonneg; lia).
  assert ((if decide (k = 0) then 0 else 2 ^ 52) ≤ round_half_even p Q ≤ 2 ^ 53)%Z as Hm.
  { apply round_half_even_bounds; [done|]. case_decide; lia. }
  set (m := round_half_even p Q) in *. change F64_INFINITY with (2045 * 2 ^ 52 + 2 ^ 53)%Z.
  assert (0 ≤ k * 2 ^ 52 + m)%Z as Hx0 by (case_decide; lia).
  split; [lia|]. split.
  - destruct (decide (k < 2045)%Z) as [Hlt|Hge].
    + split; [lia|]. intros Ho. exfalso. assert (2 ^ k ≤ 2 ^ 2044)%Z by (apply Z.pow_le_mono_r; lia). assert (2 ^ 2045 = 2 * 2 ^ 2044)%Z as E by done.
      unfold Q in Hhi. set (X := (2 ^ 2044)%Z) in *. clearbody X. rewrite E in Ho. nia.
    + destruct (decide (k = 2045)%Z) as [Ek|Hne].
      * assert (m = 2 ^ 53 ↔ (2 ^ 54 - 1) * Q ≤ 2 * p)%Z as Hiff.
        { unfold m, round_half_even in *. pose proof (Z.div_mod p Q ltac:(lia)) as E. pose proof (Z.mod_pos_bound p Q HQ) as B.
          set (d := (p / Q)%Z) in *. set (r := (p mod Q)%Z) in *. assert (d < 2 ^ 53)%Z as Hd by (apply Z.div_lt_upper_bound; lia).
          assert (d = 2 ^ 53 - 1 ∨ d ≤ 2 ^ 53 - 2)%Z as [Hd'|Hd'] by lia.
          - assert (Z.even d = false) as He by (rewrite Hd'; done). destruct (Z.compare_spec (2 * r) Q); rewrite ?He; split; nia.
          - split; [|nia]. destruct (Z.compare_spec (2 * r) Q); [destruct (Z.even d)| |]; lia. }
        assert (q * ((2 ^ 54 - 1) * 2 ^ 2045) = (2 ^ 54 - 1) * Q)%Z as -> by (unfold Q; rewrite Ek; ring). rewrite <-Hiff. lia.
      * assert (2 ^ 2046 ≤ 2 ^ k)%Z by (apply Z.pow_le_mono_r; lia). split; [intros _|case_decide; lia].
        specialize (Hlo ltac:(lia)). assert (2 ^ 2046 = 2 * 2 ^ 2045)%Z as E by done. unfold Q in Hlo. set (X := (2 ^ 2045)%Z) in *. clearbody X. nia.
  - intros Hfin. assert (k ≤ 2045)%Z as Hk2 by (case_decide; lia). rewrite Z.min_l by lia. unfold nearest_magnitude. intros z Hz.
    rewrite magnitude_pattern by done.
    assert (Z.even (k * 2 ^ 52 + m) = Z.even m) as -> by (rewrite Z.even_add, Z.even_mul; change (Z.even (2 ^ 52)) with true; rewrite orb_true_r; by destruct (Z.even m)).
    assert (∀ j, magnitude 11 52 z = j * 2 ^ k → Z.abs (m * 2 ^ k * q - p) ≤ Z.abs (magnitude 11 52 z * q - p) ∧
      (Z.abs (m * 2 ^ k * q - p) = Z.abs (magnitude 11 52 z * q - p) → z = k * 2 ^ 52 + m ∨ Z.even m = true))%Z as Hmul.
    { intros j Ej. pose proof (round_half_even_spec p Q j HQ) as [H1 H2]. fold m in H1, H2. rewrite Ej.
      replace (m * 2 ^ k * q)%Z with (m * Q)%Z by (unfold Q; ring). replace (j * 2 ^ k * q)%Z with (j * Q)%Z by (unfold Q; ring).
      split; [done|]. intros He. destruct (H2 He) as [-> |]; [left|by right].
      rewrite <-(magnitude_pattern k m) in Ej by done. apply Z.compare_eq_iff. rewrite <-(magnitude_compare_low 11 52) by (unfold F64_INFINITY in Hz; lia).
      by apply Z.compare_eq_iff. }
    destruct (decide (k = 0)%Z) as [E0|E0]; [apply (Hmul (magnitude 11 52 z)); rewrite E0; lia|].
    destruct (decide (2 ^ (52 + k) ≤ magnitude 11 52 z)%Z) as [Hge|Hlt]; [destruct (magnitude_multiple k z Hk Hz Hge) as [j Hj]; by apply (Hmul j)|].
    specialize (Hlo E0). rewrite Z.pow_add_r in Hlt by lia. pose proof (round_half_even_spec p Q (2 ^ 52) HQ) as [H1 _]. fold m in H1.
    replace (m * 2 ^ k * q)%Z with (m * Q)%Z by (unfold Q; ring).
    assert (magnitude 11 52 z * q < 2 ^ 52 * Q)%Z by (unfold Q; set (P := (2 ^ 52)%Z) in *; clearbody P; nia). lia.
Qed.

(** ** Signed results *)

#[export] Instance f64_overflows_dec p q : Decision (f64_overflows p q).
Proof. unfold f64_overflows. apply _. Defined.

Lemma f64_round_bits neg p q : (0 ≤ p → 0 < q →
  let x := f64_round neg p q in
  u64_ok x ∧ f64_is_finite x = bool_decide (¬ f64_overflows p q) ∧
  low_bits 11 52 x = f64_round_magnitude p q ∧ negative 11 52 x = neg)%Z.
Proof.
  intros Hp Hq. cbn zeta. destruct (f64_round_magnitude_spec p q Hp Hq) as (Hb & Hi & _). unfold f64_round.
  set (m := f64_round_magnitude p q) in *. unfold F64_INFINITY in *.
  assert (low_bits 11 52 ((if neg then 2 ^ 63 else 0) + m) = m)%Z as Hl.
  { unfold low_bits. change (2 ^ (11 + 52))%Z with (2 ^ 63)%Z. destruct neg; [|by rewrite Z.mod_small by lia].
    rewrite Z.add_comm. rewrite <-(Z.mul_1_l (2 ^ 63)) at 1. by rewrite Z.mod_add, Z.mod_small by lia. }
  split; [destruct neg; int_lia|]. split; [|split; [done|]].
  - unfold f64_is_finite. apply bool_decide_ext. rewrite (proj1 (f64_fields _)), (proj2 (fields_low 11 52 _ ltac:(lia) ltac:(lia))), Hl. rewrite <-Hi.
    assert (0 ≤ m / 2 ^ 52 ≤ 2047)%Z as Hd by (split; [apply Z.div_pos; lia|apply Z.div_le_upper_bound; lia]).
    pose proof (Z.div_mod m (2 ^ 52) ltac:(lia)). pose proof (Z.mod_pos_bound m (2 ^ 52) ltac:(lia)). split; intros Hn E; apply Hn; lia.
  - unfold negative. destruct neg; [rewrite bool_decide_true by lia|rewrite bool_decide_false by lia]; done.
Qed.

(** [c] is the finite number nearest to [p / q], of two the one with the even significand. *)
Definition nearest_even (p q : Z) (c : FiniteF64) : Prop :=
  let d a := Z.abs (f64_value (finite_bits a) * q - p) in
  ∀ a, finite_ok a → (d c ≤ d a)%Z ∧ (d c = d a → a = c ∨ Z.even (finite_bits c) = true).

(** The result of an operation whose exact result is [p / q]. *)
Definition rounds_exact (r : result NumericError FiniteF64) (p q : Z) : Prop :=
  (f64_overflows p q ∧ r = Err NonFinite) ∨
  (¬ f64_overflows p q ∧ ∃ c, r = Ok c ∧ finite_ok c ∧ nearest_even p q c).

Lemma finite_low a : finite_ok a → (0 ≤ low_bits 11 52 (finite_bits a) < F64_INFINITY)%Z.
Proof.
  intros (U & F & _). destruct (low_bits_spec 11 52 ltac:(lia) ltac:(lia) _ U) as [HL _]. split; [lia|]. unfold f64_is_finite in F. apply bool_decide_eq_true in F.
  rewrite (proj1 (f64_fields _)), (proj2 (fields_low 11 52 _ ltac:(lia) ltac:(lia))) in F. set (l := low_bits 11 52 _) in *. unfold F64_INFINITY.
  apply Z.nle_gt. intros Hle. apply F. assert (2047 ≤ l / 2 ^ 52)%Z by (apply Z.div_le_lower_bound; lia).
  assert (l / 2 ^ 52 < 2048)%Z by (apply Z.div_lt_upper_bound; lia). lia.
Qed.

Lemma value_low x : f64_value x = (if negative 11 52 x then - magnitude 11 52 (low_bits 11 52 x) else magnitude 11 52 (low_bits 11 52 x))%Z.
Proof. unfold f64_value, numeric. by rewrite <-magnitude_low by lia. Qed.

Lemma low_even x : u64_ok x → Z.even (low_bits 11 52 x) = Z.even x.
Proof.
  intros Hx. destruct (low_bits_spec 11 52 ltac:(lia) ltac:(lia) x Hx) as [_ E]. rewrite E at 2. rewrite Z.even_add.
  destruct (negative 11 52 x); change (Z.even (2 ^ (11 + 52))) with true; change (Z.even 0) with true; by destruct (Z.even _).
Qed.

Lemma finite_new_Ok x c : finite_new x = Ok c → c = mkFiniteF64 (if f64_is_zero x then 0%Z else x).
Proof. unfold finite_new. destruct (negb (f64_is_finite x)); [discriminate|]. generalize (mkFiniteF64 (if f64_is_zero x then 0%Z else x)). congruence. Qed.

Lemma f64_of_exact_ok p q : (0 < q)%Z → u64_ok (f64_of_exact p q) ∧ rounds_exact (finite_new (f64_of_exact p q)) p q.
Proof.
  intros Hq. unfold f64_of_exact. set (neg := bool_decide (p < 0)%Z).
  destruct (f64_round_bits neg (Z.abs p) q ltac:(lia) Hq) as (U & Hf & Hl & Hn). destruct (f64_round_magnitude_spec (Z.abs p) q ltac:(lia) Hq) as (Hb & Hi & Hnear).
  set (x := f64_round neg (Z.abs p) q) in *. clearbody x. split; [done|]. pose proof (finite_new_spec x U) as Hs. unfold rounds_exact.
  assert (f64_overflows (Z.abs p) q ↔ f64_overflows p q) as Ho by (unfold f64_overflows; by rewrite Z.abs_idemp).
  pose proof (finite_new_Ok x) as Hc0.
  destruct (finite_new x) as [c|e]; destruct Hs as [Hs1 Hs2]; [rewrite Hs1 in Hf|rewrite Hs2 in Hf]; symmetry in Hf; [pose proof (Hc0 c eq_refl) as Ec|].
  2:{ subst e. apply bool_decide_eq_false in Hf. left. split; [|done]. apply Ho. by apply dec_stable. }
  apply bool_decide_eq_true in Hf. right. split; [by rewrite <-Ho|]. exists c. destruct Hs2 as [Hc Ev]. split; [done|]. split; [done|].
  assert (f64_round_magnitude (Z.abs p) q < F64_INFINITY)%Z as Hlt by (rewrite <-Hi in Hf; lia). specialize (Hnear Hlt). rewrite <-Hl in Hnear.
  assert (f64_value x = f64_value (finite_bits c)) as Ev' by (symmetry; exact Ev). rewrite value_low, Hn in Ev'.
  set (mx := magnitude 11 52 (low_bits 11 52 x)) in *.
  assert (Z.abs (f64_value (finite_bits c) * q - p) = Z.abs (mx * q - Z.abs p))%Z as Ed by (rewrite <-Ev'; unfold neg in *; case_bool_decide; lia).
  intros a Ha. rewrite Ed. pose proof (Hnear _ (finite_low a Ha)) as [H1 H2]. rewrite (value_low (finite_bits a)).
  pose proof (magnitude_nonneg 11 52 ltac:(lia) ltac:(lia) (finite_bits a)) as Hma. fold mx in H1, H2. set (ma := magnitude 11 52 (low_bits 11 52 (finite_bits a))) in *.
  assert (0 ≤ ma * q)%Z as Hmq by nia.
  assert (Z.abs (ma * q - Z.abs p) ≤ Z.abs ((if negative 11 52 (finite_bits a) then - ma else ma) * q - p))%Z as Hle.
  { clear -Hmq. destruct (negative 11 52 (finite_bits a)); rewrite ?Z.mul_opp_l; revert Hmq; generalize (ma * q)%Z; intros; lia. }
  split; [lia|]. intros He. destruct (H2 ltac:(lia)) as [El|Hev].
  - left. assert (ma = mx) as Em by (unfold ma, mx; by rewrite El).
    assert (mx = 0 ∨ negative 11 52 (finite_bits a) = neg)%Z as Hsgn.
    { destruct (decide (p = 0)%Z) as [->|Hp0]; [left; pose proof (proj1 (Hnear 0%Z ltac:(unfold F64_INFINITY; lia))) as Hz; cbv beta in Hz; change (magnitude 11 52 0) with 0%Z in Hz; fold mx in Hz; pose proof (magnitude_nonneg 11 52 ltac:(lia) ltac:(lia) x) as Hmx; fold mx in Hmx; clear -Hz Hmx Hq; rewrite !Z.sub_0_r in Hz; assert (mx * q = 0)%Z by lia; nia|].
      clear -He Em Hp0 Hq Hmq. rewrite Em in *. unfold neg. destruct (negative _ _ _); case_bool_decide; auto; left; rewrite ?Z.mul_opp_l in He;
        (assert (mx * q = 0)%Z by lia); nia. }
    assert (f64_value (finite_bits a) = f64_value (finite_bits c)) as Evv.
    { rewrite <-Ev', (value_low (finite_bits a)). fold ma. rewrite Em. destruct Hsgn as [->| ->]; [by repeat case_match|done]. }
    destruct a as [ba], c as [bc]. f_equal. exact (finite_unique (mkFiniteF64 ba) (mkFiniteF64 bc) Ha Hc Evv).
  - right. rewrite low_even in Hev by done. rewrite Ec. cbn. by destruct (f64_is_zero x).
Qed.

(** ** The operations *)

Lemma value_zero a : finite_ok a → f64_value (finite_bits a) = 0%Z ↔ finite_bits a = 0%Z.
Proof. intros (_ & _ & Hz). split; [exact Hz|by intros ->]. Qed.

Lemma float_operations a b v : finite_ok a → finite_ok b → i64_ok v →
  let x := f64_value (finite_bits a) in let y := f64_value (finite_bits b) in
  rounds_exact (checked_add a b) (x + y) 1 ∧ rounds_exact (checked_sub a b) (x - y) 1 ∧
  rounds_exact (checked_mul a b) (x * y) f64_unit ∧
  (checked_div a b = Err DivisionByZero ∧ y = 0%Z ∨ (y ≠ 0%Z ∧ rounds_exact (checked_div a b) (Z.sgn y * x * f64_unit) (Z.abs y))) ∧
  (∃ c, checked_neg a = Ok c ∧ finite_ok c ∧ f64_value (finite_bits c) = - x)%Z ∧
  (finite_ok (from_i64 v) ∧ nearest_even (v * f64_unit) 1 (from_i64 v)).
Proof.
  intros Ha Hb Hv. cbn zeta. refine (conj _ (conj _ (conj _ (conj _ (conj _ _))))).
  - by apply f64_of_exact_ok.
  - by apply f64_of_exact_ok.
  - by apply f64_of_exact_ok.
  - unfold checked_div. case_decide as Hz; [left; by rewrite value_zero|right]. rewrite <-(value_zero b) in Hz by done. split; [done|]. apply f64_of_exact_ok. lia.
  - destruct Ha as (U & F & Z0). pose proof (f64_neg_spec _ U) as [Un _]. pose proof (finite_new_spec _ Un) as Hs. unfold checked_neg.
    destruct (finite_new _) as [c|e]; [|destruct Hs as [_ Hs]; by rewrite f64_finite_neg, F in Hs]. destruct Hs as (_ & Hc & Hn). exists c. split; [done|]. split; [done|].
    unfold f64_value. by rewrite Hn, numeric_neg.
  - assert (0 < 1)%Z as H1 by done. destruct (f64_of_exact_ok (v * f64_unit) 1 H1) as [U Hr].
    assert (¬ f64_overflows (v * f64_unit) 1) as Ho.
    { unfold f64_overflows, f64_unit. rewrite Z.abs_mul, (Z.abs_eq (2 ^ 1074)) by done. assert (Z.abs v ≤ 2 ^ 63)%Z as Hle by int_lia. apply Z.nle_gt.
      eapply (Z.le_lt_trans _ (2 * (2 ^ 63 * 2 ^ 1074))); [apply Z.mul_le_mono_nonneg_l; [done|]; apply Z.mul_le_mono_nonneg_r; done|done]. }
    destruct Hr as [[? _]|(_ & c & Hc & Hok & Hn)]; [done|]. unfold from_i64, f64_of_i64. set (x := f64_of_exact (v * f64_unit) 1) in *.
    assert (c = mkFiniteF64 x) as <-; [|done]. destruct (decide (v = 0)%Z) as [->|Hv0]; [vm_compute in Hc; injection Hc as <-; reflexivity|].
    clearbody x. apply finite_new_Ok in Hc. destruct (f64_is_zero x); [|done]. exfalso.
    set (one := if decide (0 < v)%Z then mkFiniteF64 1 else mkFiniteF64 (2 ^ 63 + 1)).
    assert (finite_ok one ∧ f64_value (finite_bits one) = if decide (0 < v)%Z then 1%Z else (-1)%Z) as [Hone E1].
    { unfold one. case_decide; (split; [split_and!; [split; reflexivity || discriminate|reflexivity|discriminate]|reflexivity]). }
    destruct (Hn one Hone) as [Hle _]. rewrite Hc in Hle. cbn [finite_bits] in Hle. rewrite E1 in Hle. change (f64_value 0) with 0%Z in Hle.
    assert (1 ≤ f64_unit)%Z as Hu by done. clear -Hle Hu Hv0. revert Hle. generalize f64_unit Hu. intros u Hu'. case_decide; nia.
Qed.

(** The value the grammar of [f64::from_str] gives a text. *)
Lemma f64_of_decimal_ok neg c e : (0 ≤ c)%Z →
  let p := if decide (0 ≤ e)%Z then (c * 10 ^ e * f64_unit)%Z else (c * f64_unit)%Z in
  let q := if decide (0 ≤ e)%Z then 1%Z else (10 ^ (- e))%Z in
  u64_ok (f64_of_decimal neg c e) ∧
  f64_is_finite (f64_of_decimal neg c e) = bool_decide (¬ f64_overflows p q).
Proof.
  intros Hc. cbn zeta. unfold f64_of_decimal. assert (0 < f64_unit)%Z as Hu by done. assert (∀ k, 0 ≤ k → 0 < 10 ^ k)%Z as Hp by (intros; apply Z.pow_pos_nonneg; lia).
  case_decide as He.
  - assert (0 ≤ c * 10 ^ e * f64_unit)%Z as H0 by (pose proof (Hp e He); nia). by destruct (f64_round_bits neg _ 1 H0 eq_refl) as (? & ? & _).
  - assert (0 ≤ c * f64_unit)%Z as H0 by nia. by destruct (f64_round_bits neg _ _ H0 (Hp (- e) ltac:(lia)))%Z as (? & ? & _).
Qed.

(** A text that is read yields a well-formed value. *)
Lemma f64_from_str_ok text x : f64_from_str text = Some x → u64_ok x.
Proof.
  unfold f64_from_str. destruct (split_sign text) as [neg rest]. destruct (_ || _); [intros [= <-]; by destruct neg|].
  destruct (lower_is rest "nan"); [by intros [= <-]|]. destruct (split_exponent rest) as [man e]. destruct (default _ _) as [i f].
  intros (c & Hc & (ex & _ & [= <-])%bind_Some)%bind_Some. apply f64_of_decimal_ok. unfold digits_value in Hc.
  destruct (_ || _) eqn:E; [done|]. injection Hc as <-. apply orb_false_iff in E as [_ E]. rewrite negb_false_iff, forallb_ascii in E.
  by apply dec_value_nonneg, digit_values_ok.
Qed.
Lemma finite_from_str_ok text c : finite_from_str text = Ok c → finite_ok c.
Proof.
  unfold finite_from_str. intros (x & Hx%ok_or_Ok%f64_from_str_ok & Hc)%result_bind_Ok. pose proof (finite_new_spec x Hx) as Hs. rewrite Hc in Hs. tauto.
Qed.

(** ** Correct rounding *)

(** C21: The arithmetic of decision floats is the correctly rounded one: the sum, difference,
    product and quotient of two finite values is the finite value nearest to the exact result,
    of two nearest ones the one with the even significand, and [NonFinite] exactly when the
    exact result is half a last place above the largest finite number or further; a zero
    divisor is refused; a sign change is exact; an integer becomes the value nearest to it. Every
    result is finite with a single zero. *)
Theorem float_arithmetic_rounds a b v : finite_ok a → finite_ok b → i64_ok v →
  let x := f64_value (finite_bits a) in let y := f64_value (finite_bits b) in
  rounds_exact (checked_add a b) (x + y) 1 ∧ rounds_exact (checked_sub a b) (x - y) 1 ∧
  rounds_exact (checked_mul a b) (x * y) f64_unit ∧
  (checked_div a b = Err DivisionByZero ∧ y = 0%Z ∨ (y ≠ 0%Z ∧ rounds_exact (checked_div a b) (Z.sgn y * x * f64_unit) (Z.abs y))) ∧
  (∃ c, checked_neg a = Ok c ∧ finite_ok c ∧ f64_value (finite_bits c) = - x)%Z ∧
  (finite_ok (from_i64 v) ∧ nearest_even (v * f64_unit) 1 (from_i64 v)).
Proof. apply float_operations. Qed.

(** A tenth and two tenths, and the least integer that is not a float. *)
Lemma float_arithmetic_rounds_witness :
  finite_from_str (bytes_of_string "0.1") = Ok (mkFiniteF64 0x3fb999999999999a) ∧
  checked_add (mkFiniteF64 0x3fb999999999999a) (mkFiniteF64 0x3fc999999999999a) = Ok (mkFiniteF64 0x3fd3333333333334) ∧
  from_i64 9007199254740993 = mkFiniteF64 0x4340000000000000 ∧
  nearest_even (9007199254740993 * f64_unit) 1 (from_i64 9007199254740993).
Proof.
  split; [reflexivity|]. split; [reflexivity|]. split; [reflexivity|].
  apply (float_arithmetic_rounds (mkFiniteF64 0x3fb999999999999a) (mkFiniteF64 0x3fc999999999999a) 9007199254740993).
  - split; [split; [discriminate|reflexivity]|split; [reflexivity|discriminate]].
  - split; [split; [discriminate|reflexivity]|split; [reflexivity|discriminate]].
  - split; [discriminate|reflexivity].
Defined.
