(* ===== verification/Parsing.v ===== *)
(** Exact readers.

    [parses rd P] says that a fallible reader over [CanonReader] accepts precisely
    the byte strings of the relation [P], whatever follows them, and returns the
    related value. It is closed under sequencing, guards and loops, so the grammar
    of an envelope is read off its decoder, and its round trip and the uniqueness
    of its encoding follow from the grammar. *)
From S2P Require Import Prelude IntCodec Canon CanonLaws Witness Encoding.

Section parses.
Context {E : Type}.
Implicit Types r : CanonReader.

Definition parses {A} (rd : ST CanonReader E A) (P : A → bytes → Prop) : Prop :=
  (∀ r a r', reader_ok r → rd r = (Ok a, r') →
     ∃ b, P a b ∧ remaining r = b ++ remaining r' ∧ reader_ok r') ∧
  (∀ r a b rest, P a b → reader_ok r → are_bytes b → remaining r = b ++ rest →
     ∃ r', rd r = (Ok a, r') ∧ reader_ok r' ∧ remaining r' = rest).

Lemma parses_ext {A} (rd : ST CanonReader E A) P Q :
  parses rd P → (∀ a b, P a b ↔ Q a b) → parses rd Q.
Proof.
  intros [H1 H2] HPQ. split.
  - intros r a r' Hok Hr. destruct (H1 _ _ _ Hok Hr) as (b & Hb & ?). exists b. by rewrite <-HPQ.
  - intros r a b rest Hb. apply H2. by apply HPQ.
Qed.

Lemma parses_ret {A} (a : A) : parses (mret a) (λ c b, c = a ∧ b = []).
Proof.
  split.
  - intros r c r' Hok [= -> ->]. by exists [].
  - intros r c b rest [-> ->] Hok _ Hrem. by exists r.
Qed.

Lemma parses_throw {A} (e : E) : parses (ST_throw e) (λ (_ : A) _, False).
Proof. by split. Qed.

Lemma parses_bind {A B} (rd : ST CanonReader E A) (f : A → ST CanonReader E B) P Q :
  parses rd P → (∀ a, parses (f a) (Q a)) →
  parses (rd ≫= f) (λ c b, ∃ a b1 b2, P a b1 ∧ Q a c b2 ∧ b = b1 ++ b2).
Proof.
  intros [H1 H2] Hf. split.
  - intros r c r' Hok (a & r1 & Ha & Hc)%ST_bind_Ok.
    destruct (H1 _ _ _ Hok Ha) as (b1 & Hb1 & Hrem1 & Hok1).
    destruct (proj1 (Hf a) _ _ _ Hok1 Hc) as (b2 & Hb2 & Hrem2 & Hok2).
    exists (b1 ++ b2). rewrite Hrem1, Hrem2, <-app_assoc. split_and!; [by eexists _, _, _|done..].
  - intros r c b rest (a & b1 & b2 & Hb1 & Hb2 & ->) Hok [Hby1 Hby2]%Forall_app Hrem.
    rewrite <-app_assoc in Hrem.
    destruct (H2 _ _ _ _ Hb1 Hok Hby1 Hrem) as (r1 & Ha & Hok1 & Hrem1).
    destruct (proj2 (Hf a) _ _ _ _ Hb2 Hok1 Hby2 Hrem1) as (r2 & Hc & Hok2 & Hrem2).
    exists r2. unfold mbind, ST_bind. by rewrite Ha.
Qed.

Lemma parses_guard {A} (C : Prop) `{Decision C} (e : E) (rd : ST CanonReader E A) P :
  (¬ C → parses rd P) →
  parses (if decide C then ST_throw e else rd) (λ a b, ¬ C ∧ P a b).
Proof.
  intros HP. case_decide as HC.
  - apply (parses_ext _ (λ _ _, False)); [apply parses_throw|tauto].
  - eapply parses_ext; [by apply HP|]. tauto.
Qed.

Lemma parses_lift {A} (m : result E A) : parses (ST_lift m) (λ a b, m = Ok a ∧ b = []).
Proof.
  split.
  - intros r a r' Hok [= Hm ->]. by exists [].
  - intros r a b rest [-> ->] Hok _ Hrem. by exists r.
Qed.

(** ** Fields *)

(** [r.read_x()?] under a conversion of the error. *)
Definition read_as {A} (conv : CanonError → E) (rd : Reader A) : ST CanonReader E A := λ r,
  let '(res, r') := rd r in (map_err conv res, r').

Lemma parses_read_as {A} conv (rd : Reader A) enc (ok : A → Prop) :
  reads_only rd enc → reader_safe rd → (∀ r a r', reader_ok r → rd r = (Ok a, r') → ok a) →
  (∀ a, ok a → reads rd (enc a) a) →
  parses (read_as conv rd) (λ a b, ok a ∧ b = enc a).
Proof.
  intros Ho Hs Hrange Hr. unfold read_as. split.
  - intros r a r' Hok E1. destruct (rd r) as [[c|e] r1] eqn:E2; [|done]. injection E1 as -> ->.
    destruct (Ho _ _ _ Hok E2) as [Hrem _]. exists (enc a).
    split_and!; [by eapply Hrange|done|done|]. destruct (Hs r Hok) as [Hok1 _]. by rewrite E2 in Hok1.
  - intros r a b rest [Hoka ->] Hok _ Hrem.
    destruct (reads_advance _ _ _ _ _ (Hr a Hoka) Hok Hrem) as (r' & -> & ? & ? & _). by exists r'.
Qed.

Lemma parses_uint conv : parses (read_as conv read_uint) (λ v b, u64_ok v ∧ b = encode_uint v).
Proof.
  apply parses_read_as; [apply read_uint_only|apply reader_safe_uint| |intros; by apply read_uint_reads].
  intros r a r' Hok Hr. by eapply read_uint_range.
Qed.

Lemma parses_bytes conv :
  parses (read_as conv read_bytes) (λ v b, len_ok v ∧ b = frame v).
Proof.
  apply parses_read_as; [apply read_bytes_only|apply reader_safe_bytes| |].
  - intros r a r' Hok Hr. destruct (read_bytes_only _ _ _ Hok Hr) as [Hrem _].
    pose proof (length_remaining r) as Hl. rewrite Hrem in Hl. unfold frame in Hl.
    rewrite !length_app in Hl. destruct Hok as (_ & _ & ?). unfold len_ok. lia.
  - intros a Hl. apply read_bytes_reads. unfold len_ok in Hl. int_lia.
Qed.

(** A length-framed 32-byte digest field. *)
Definition digest_field (conv : CanonError → E) (short : E) : ST CanonReader E Digest :=
  b ← read_as conv read_bytes;
  if decide (length b ≠ 32) then ST_throw short else mret (mkDigest b).

Lemma parses_digest conv short :
  parses (digest_field conv short) (λ d b, length (as_bytes d) = 32 ∧ b = frame (as_bytes d)).
Proof.
  eapply parses_ext.
  { eapply parses_bind; [apply parses_bytes|]. intros v. apply parses_guard. intros _. apply parses_ret. }
  intros d b. simpl. split.
  - intros (v & b1 & b2 & [Hl ->] & (Hn & -> & ->) & ->). apply dec_stable in Hn. by rewrite app_nil_r.
  - intros [Hl ->]. exists (as_bytes d), (frame (as_bytes d)), []. rewrite app_nil_r.
    split_and!; [unfold len_ok; rewrite Hl; int_lia|done|by intros ?|by destruct d|done..].
Qed.

(** The fields of a [for _ in 0..count] loop. *)
Fixpoint read_many {A} (rd : ST CanonReader E A) (count : nat) : ST CanonReader E (list A) :=
  match count with
  | O => mret []
  | S n => a ← rd; l ← read_many rd n; mret (a :: l)
  end.

Lemma parses_many {A} (rd : ST CanonReader E A) P n :
  parses rd P →
  parses (read_many rd n) (λ l b, length l = n ∧ ∃ bs, Forall2 P l bs ∧ b = concat bs).
Proof.
  intros Hrd. induction n as [|n IH]; cbn [read_many].
  - eapply parses_ext; [apply parses_ret|]. intros l b. split.
    + intros [-> ->]. split; [done|]. by exists [].
    + intros [->%nil_length_inv (bs & ->%Forall2_nil_inv_l & ->)]. done.
  - eapply parses_ext.
    { eapply parses_bind; [apply Hrd|]. intros a. eapply parses_bind; [apply IH|]. intros l. apply parses_ret. }
    intros l b. simpl. split.
    + intros (a & b1 & ? & Ha & (l' & b2 & ? & [Hlen (bs & Hbs & ->)] & [-> ->] & ->) & ->).
      rewrite app_nil_r. split; [simpl; by rewrite Hlen|]. exists (b1 :: bs). split; [by constructor|done].
    + intros [Hlen (bs & Hbs & ->)]. destruct Hbs as [|a b1 l bs Ha Hbs]; [done|]. injection Hlen as Hlen.
      exists a, b1, (concat bs). split_and!; [done| |done]. exists l, (concat bs), [].
      rewrite app_nil_r. split_and!; [done|by exists bs|done..].
Qed.

(** ** Whole buffers *)

(** Read a value and require that nothing is left. *)
Definition read_all {A} (rd : ST CanonReader E A) (trailing : E) (buf : bytes) : result E A :=
  ((a ← rd; empty ← (λ r, (Ok (reader_is_empty r), r));
    if negb empty then ST_throw trailing else mret a) (reader_new buf)).1.

Lemma read_all_exact {A} (rd : ST CanonReader E A) P trailing buf a :
  parses rd P → are_bytes buf → len_ok buf →
  read_all rd trailing buf = Ok a ↔ P a buf.
Proof.
  intros [H1 H2] Hb Hl. pose proof (reader_new_ok buf Hb Hl) as Hok.
  assert (remaining (reader_new buf) = buf) as Hrem0 by apply drop_0.
  unfold read_all, mbind, ST_bind. split.
  - destruct (rd (reader_new buf)) as [[c|e] r1] eqn:E1; [|done].
    destruct (H1 _ _ _ Hok E1) as (b & Hpb & Hrem & Hok1).
    destruct (reader_is_empty r1) eqn:E2; [|done]. intros [= ->].
    apply reader_empty_iff in E2; [|done]. rewrite E2, app_nil_r, Hrem0 in Hrem. by subst b.
  - intros Hp. rewrite <-(app_nil_r buf) in Hrem0 at 2.
    destruct (H2 _ _ _ _ Hp Hok Hb Hrem0) as (r1 & -> & Hok1 & Hrem1).
    by rewrite (proj2 (reader_empty_iff r1 Hok1) Hrem1).
Qed.
End parses.

(** Reading a grammar that [parses_bind] composed: [parse_inv] takes an
    accepted value apart; [parse_build] builds one, the fields' conditions first. *)
Ltac parse_inv :=
  repeat match goal with
  | H : ∃ _, _ |- _ => destruct H
  | H : _ ∧ _ |- _ => destruct H
  end.
Ltac parse_build :=
  lazymatch goal with
  | |- ∃ _ _ _, _ ∧ _ ∧ _ => do 3 eexists; refine (conj _ (conj _ _)); [|parse_build|]
  | |- ¬ _ ∧ _ => refine (conj _ _); [|parse_build]
  | |- _ => idtac
  end.
(** The equations [parse_build] leaves; what remains are the fields' conditions and
    the equation of the whole string. *)
Ltac parse_eq :=
  lazymatch goal with
  | |- ?x = _ => is_evar x; reflexivity
  | |- _ = ?x => is_evar x; reflexivity
  end.
Ltac parse_close :=
  lazymatch goal with
  | |- _ = Ok _ ∧ _ = _ => split; [|parse_eq]
  | |- _ = _ ∧ _ = _ => split; [reflexivity|parse_eq]
  | |- _ ∧ _ = _ => split; [|parse_eq]
  | |- ?C → False => let Hn := fresh in intros Hn; apply Hn; reflexivity
  | |- ¬ (_ ≠ _) => let Hn := fresh in intros Hn; apply Hn; reflexivity
  | |- _ = _ => try parse_eq
  | |- _ => idtac
  end.

(** The grammar of a reader, field by field; [field] knows the leaves. *)
Ltac parses_tac field :=
  lazymatch goal with
  | |- parses (_ ≫= _) _ => eapply parses_bind; [parses_tac field|intros ?; parses_tac field]
  | |- parses (if decide _ then ST_throw _ else _) _ => apply parses_guard; intros _; parses_tac field
  | |- parses (mret _) _ => apply parses_ret
  | |- parses (ST_lift _) _ => apply parses_lift
  | |- parses (read_as _ read_uint) _ => apply parses_uint
  | |- parses (read_as _ read_bytes) _ => apply parses_bytes
  | |- _ => field
  end.
