(* ===== verification/KernelTerm.v ===== *)
(** Object terms, propositions and proof terms of the proof kernel
    (src/crates/brix-kernel/src/term.rs).

    [ObjectTerm], [Prp] (the code's [Prop]), [Var] and [TermKind] have the source's
    constructors in the source's order. The index of a bound object variable is a
    [Z] kept in the range of [usize] (64 bits): instantiation adds to it, and the
    addition wraps around, as it does in the release profile (src/Cargo.toml sets no
    [overflow-checks]; a debug build panics there instead). The index of a
    hypothesis, which the code only looks up, is a [nat]. *)
From S2P Require Import Prelude IntCodec Canon CanonLaws Witness Encoding.

Abbreviation PrimitiveRelationId := (Id KPrimitiveRelation).

Inductive ObjectTerm : Type :=
  | Const (id : PropositionId)
  | BoundVar (idx : Z)
  | Compose (g2 g1 : ObjectTerm)
  | Tensor (left right : ObjectTerm).

#[export] Instance ObjectTerm_eq_dec : EqDecision ObjectTerm.
Proof. solve_decision. Defined.

Inductive Prp : Type :=
  | Atom (id : PropositionId)
  | Impl (p q : Prp)
  | Prod (p q : Prp)
  | Sum (p q : Prp)
  | Eqn (t1 t2 : ObjectTerm)
  | Exists (body : Prp)
  | Applied (sym : PropositionId) (args : list ObjectTerm)
  | Realizes (w x y : ObjectTerm)
  | Preserves (w : ObjectTerm) (motive : Prp).

#[export] Instance Prp_eq_dec : EqDecision Prp.
Proof. solve_decision. Defined.

Inductive Var : Type :=
  | Index (idx : nat)
  | Named (name : string).

Inductive TermKind : Type :=
  | Hyp (var : Var)
  | Lam (var_name : option string) (body : TermKind)
  | App (function argument : TermKind)
  | Pair (fst snd : TermKind)
  | Proj1 (inner : TermKind)
  | Proj2 (inner : TermKind)
  | Inl (inner : TermKind)
  | Inr (inner : TermKind)
  | Case (discriminant : TermKind) (left_var : option string) (left_body : TermKind)
      (right_var : option string) (right_body : TermKind)
  | Unsupported (msg : string)
  | Refl (t : ObjectTerm)
  | Subst (eq : TermKind) (motive : Prp) (sub : TermKind)
  | Pack (witness : ObjectTerm) (body_proof : TermKind)
  | Unpack (scrutinee : TermKind) (obj_var proof_var : option string) (body : TermKind)
  | Pres (realizes preserves : TermKind) (motive : Prp) (sub : TermKind)
  | RealizesComp (left right : TermKind)
  | RealizesTensor (left right : TermKind)
  | PrimRealizes (relation : PrimitiveRelationId) (src dst : ObjectTerm).

Record ExplicitTerm : Type := mkTerm { context : ContextId; kind : TermKind }.

(** ** Witness identity of an object term *)

Section witness_digest.
Context `{Blake3}.

Fixpoint witness_digest (t : ObjectTerm) : WitnessId :=
  match t with
  | Const id => mkId (digest id)
  | Compose outer inner => compose (witness_digest outer) (witness_digest inner)
  | Tensor l r => tensor (witness_digest l) (witness_digest r)
  | BoundVar _ => from_canon (bytes_of_string "brix.kernel.witness_digest.bound_var")
  end.
End witness_digest.

(** ** Substitution *)

(** [a + b] on [usize]. *)
Definition usize_add (a b : Z) : Z := ((a + b) mod 2^64)%Z.

Fixpoint shift_object_term (term : ObjectTerm) (amount : Z) : ObjectTerm :=
  if (amount =? 0)%Z then term
  else match term with
  | Const c => Const c
  | BoundVar idx => BoundVar (usize_add idx amount)
  | Compose g2 g1 => Compose (shift_object_term g2 amount) (shift_object_term g1 amount)
  | Tensor l r => Tensor (shift_object_term l amount) (shift_object_term r amount)
  end.

Fixpoint subst_obj (term replacement : ObjectTerm) (depth : Z) : ObjectTerm :=
  match term with
  | Const c => Const c
  | BoundVar idx =>
    if (idx =? depth)%Z then shift_object_term replacement depth
    else if (depth <? idx)%Z then BoundVar (idx - 1)
    else BoundVar idx
  | Compose g2 g1 => Compose (subst_obj g2 replacement depth) (subst_obj g1 replacement depth)
  | Tensor l r => Tensor (subst_obj l replacement depth) (subst_obj r replacement depth)
  end.

Fixpoint subst_prop (prop : Prp) (replacement : ObjectTerm) (depth : Z) : Prp :=
  match prop with
  | Atom id => Atom id
  | Impl p1 p2 => Impl (subst_prop p1 replacement depth) (subst_prop p2 replacement depth)
  | Prod p1 p2 => Prod (subst_prop p1 replacement depth) (subst_prop p2 replacement depth)
  | Sum p1 p2 => Sum (subst_prop p1 replacement depth) (subst_prop p2 replacement depth)
  | Eqn t1 t2 => Eqn (subst_obj t1 replacement depth) (subst_obj t2 replacement depth)
  | Exists body => Exists (subst_prop body replacement (usize_add depth 1))
  | Applied sym args => Applied sym ((λ arg, subst_obj arg replacement depth) <$> args)
  | Realizes w x y =>
    Realizes (subst_obj w replacement depth) (subst_obj x replacement depth)
      (subst_obj y replacement depth)
  | Preserves w motive =>
    Preserves (subst_obj w replacement depth) (subst_prop motive replacement depth)
  end.

Definition instantiate (pred : Prp) (replacement : ObjectTerm) : Prp :=
  subst_prop pred replacement 0%Z.

(** ** Canonical encoding *)

Fixpoint write_object_term (t : ObjectTerm) : CanonWriter → CanonWriter :=
  match t with
  | Const id => write_enum 0 (canon_write id)
  | BoundVar idx => write_enum 1 (write_uint idx)
  | Compose g2 g1 => write_enum 2 (λ w, w |> write_object_term g2 |> write_object_term g1)
  | Tensor l r => write_enum 3 (λ w, w |> write_object_term l |> write_object_term r)
  end.
#[export] Instance Canonical_ObjectTerm : Canonical ObjectTerm := write_object_term.

Fixpoint write_prop (p : Prp) : CanonWriter → CanonWriter :=
  match p with
  | Atom id => write_enum 0 (canon_write id)
  | Impl p1 p2 => write_enum 1 (λ w, w |> write_prop p1 |> write_prop p2)
  | Prod p1 p2 => write_enum 2 (λ w, w |> write_prop p1 |> write_prop p2)
  | Sum p1 p2 => write_enum 3 (λ w, w |> write_prop p1 |> write_prop p2)
  | Eqn t1 t2 => write_enum 4 (λ w, w |> canon_write t1 |> canon_write t2)
  | Exists body => write_enum 5 (write_prop body)
  | Applied sym args => write_enum 6 (λ w, w |> canon_write sym |> canon_write args)
  | Realizes w_term x_term y_term =>
    write_enum 7 (λ w, w |> canon_write w_term |> canon_write x_term |> canon_write y_term)
  | Preserves w_term motive => write_enum 8 (λ w, w |> canon_write w_term |> write_prop motive)
  end.
#[export] Instance Canonical_Prp : Canonical Prp := write_prop.

#[export] Instance Canonical_Var : Canonical Var := λ v,
  match v with
  | Index idx => write_enum 0 (write_uint (Z.of_nat idx))
  | Named name => write_enum 1 (canon_write name)
  end.

Fixpoint write_kind (k : TermKind) : CanonWriter → CanonWriter :=
  match k with
  | Hyp var => write_enum 0 (canon_write var)
  | Lam var_name body => write_enum 1 (λ w, w |> canon_write var_name |> write_kind body)
  | App function argument => write_enum 2 (λ w, w |> write_kind function |> write_kind argument)
  | Pair p1 p2 => write_enum 3 (λ w, w |> write_kind p1 |> write_kind p2)
  | Proj1 inner => write_enum 4 (write_kind inner)
  | Proj2 inner => write_enum 5 (write_kind inner)
  | Inl inner => write_enum 6 (write_kind inner)
  | Inr inner => write_enum 7 (write_kind inner)
  | Case discriminant left_var left_body right_var right_body =>
    write_enum 8 (λ w, w |> write_kind discriminant
      |> canon_write left_var |> write_kind left_body
      |> canon_write right_var |> write_kind right_body)
  | Unsupported msg => write_enum 9 (canon_write msg)
  | Refl t => write_enum 10 (canon_write t)
  | Subst eq motive sub =>
    write_enum 11 (λ w, w |> write_kind eq |> canon_write motive |> write_kind sub)
  | Pack witness body_proof => write_enum 12 (λ w, w |> canon_write witness |> write_kind body_proof)
  | Unpack scrutinee obj_var proof_var body =>
    write_enum 13 (λ w, w |> write_kind scrutinee |> canon_write obj_var
      |> canon_write proof_var |> write_kind body)
  | Pres realizes preserves motive sub =>
    write_enum 14 (λ w, w |> write_kind realizes |> write_kind preserves
      |> canon_write motive |> write_kind sub)
  | RealizesComp l r => write_enum 15 (λ w, w |> write_kind l |> write_kind r)
  | RealizesTensor l r => write_enum 16 (λ w, w |> write_kind l |> write_kind r)
  | PrimRealizes relation src dst =>
    write_enum 17 (λ w, w |> canon_write relation |> canon_write src |> canon_write dst)
  end.
#[export] Instance Canonical_TermKind : Canonical TermKind := write_kind.

#[export] Instance Canonical_ExplicitTerm : Canonical ExplicitTerm := λ t w,
  w |> canon_write (context t) |> canon_write (kind t).

Definition proposition_id `{Blake3} (p : Prp) : PropositionId := id_of p.

(** ** The encodings delimit themselves *)

#[export] Instance CanonAppends_ObjectTerm : CanonAppends ObjectTerm.
Proof.
  intros t. change (appends (write_object_term t)).
  induction t; cbn [write_object_term]; appends_tac.
Qed.

#[export] Instance CanonAppends_Prp : CanonAppends Prp.
Proof. intros p. change (appends (write_prop p)). induction p; cbn [write_prop]; appends_tac. Qed.

#[export] Instance CanonAppends_Var : CanonAppends Var.
Proof.
  intros [idx|name]; [change (appends (write_enum 0 (write_uint (Z.of_nat idx))))
                     |change (appends (write_enum 1 (canon_write name)))]; appends_tac.
Qed.

#[export] Instance CanonAppends_TermKind : CanonAppends TermKind.
Proof. intros k. change (appends (write_kind k)). induction k; cbn [write_kind]; appends_tac. Qed.

(** *** Object terms *)

Fixpoint obj_ok (t : ObjectTerm) : Prop :=
  match t with
  | Const id => id_ok id
  | BoundVar idx => u64_ok idx
  | Compose a b | Tensor a b => obj_ok a ∧ obj_ok b
  end.

Definition obj_ordinal (t : ObjectTerm) : Z :=
  match t with Const _ => 0 | BoundVar _ => 1 | Compose _ _ => 2 | Tensor _ _ => 3 end.
Definition obj_payload (t : ObjectTerm) : bytes :=
  match t with
  | Const id => canon_bytes id
  | BoundVar idx => encode_uint idx
  | Compose a b | Tensor a b => canon_bytes a ++ canon_bytes b
  end.

(** Turns [write_*] applied to a writer into the bytes it appends. *)
Ltac canon_norm :=
  unfold write_enum, write_uint;
  rewrite ?(canon_appends (A := ObjectTerm)), ?(canon_appends (A := Prp)),
    ?(canon_appends (A := TermKind)), ?(canon_appends (A := Var)),
    ?(canon_appends (A := string)), ?(canon_appends (A := option string)),
    ?(canon_appends (A := list ObjectTerm)), ?(canon_appends (A := Id _));
  rewrite <-?app_assoc; try reflexivity.

Lemma obj_bytes t : canon_bytes t = encode_uint (obj_ordinal t) ++ obj_payload t.
Proof.
  unfold canon_bytes at 1, canon_write, Canonical_ObjectTerm.
  destruct t; cbn [write_object_term obj_ordinal obj_payload];
    change write_object_term with (canon_write (A := ObjectTerm)); canon_norm.
Qed.

(** Splits an equation between two tagged encodings. *)
Ltac peel_tag H :=
  rewrite <-?app_assoc in H; apply prefix_free_uint64 in H as [_ H];
  [ | (split; simpl; int_lia) | (split; simpl; int_lia) ].

#[export] Instance prefix_free_obj : PrefixFree obj_ok (canon_bytes (A := ObjectTerm)).
Proof.
  intros t1. induction t1 as [id1|i1|a1 IHa b1 IHb|a1 IHa b1 IHb]; intros [id2|i2|a2 b2|a2 b2] r1 r2 H1 H2 H;
    rewrite !obj_bytes, <-!app_assoc in H; cbn [obj_ordinal obj_payload obj_ok] in *;
    apply prefix_free_uint64 in H as [Ho H]; try int_lia; clear Ho; rewrite <-?app_assoc in H.
  - by apply prefix_free_id in H as [-> ->].
  - apply prefix_free_uint64 in H as [Hi ->]; [|done..]. split; [f_equal; lia|done].
  - destruct H1, H2. apply IHa in H as [-> H]; [|done..]. by apply IHb in H as [-> ->].
  - destruct H1, H2. apply IHa in H as [-> H]; [|done..]. by apply IHb in H as [-> ->].
Qed.

(** *** Propositions *)

Fixpoint prop_ok (p : Prp) : Prop :=
  match p with
  | Atom id => id_ok id
  | Impl p q | Prod p q | Sum p q => prop_ok p ∧ prop_ok q
  | Eqn s t => obj_ok s ∧ obj_ok t
  | Exists body => prop_ok body
  | Applied sym args =>
    id_ok sym ∧ len_ok args ∧ Forall (λ a, obj_ok a ∧ len_ok (canon_bytes a)) args
  | Realizes w x y => obj_ok w ∧ obj_ok x ∧ obj_ok y
  | Preserves w motive => obj_ok w ∧ prop_ok motive
  end.

Definition prop_ordinal (p : Prp) : Z :=
  match p with
  | Atom _ => 0 | Impl _ _ => 1 | Prod _ _ => 2 | Sum _ _ => 3 | Eqn _ _ => 4
  | Exists _ => 5 | Applied _ _ => 6 | Realizes _ _ _ => 7 | Preserves _ _ => 8
  end.
Definition prop_payload (p : Prp) : bytes :=
  match p with
  | Atom id => canon_bytes id
  | Impl p q | Prod p q | Sum p q => canon_bytes p ++ canon_bytes q
  | Eqn s t => canon_bytes s ++ canon_bytes t
  | Exists body => canon_bytes body
  | Applied sym args => canon_bytes sym ++ canon_bytes args
  | Realizes w x y => canon_bytes w ++ canon_bytes x ++ canon_bytes y
  | Preserves w motive => canon_bytes w ++ canon_bytes motive
  end.

Lemma prop_bytes p : canon_bytes p = encode_uint (prop_ordinal p) ++ prop_payload p.
Proof.
  unfold canon_bytes at 1, canon_write, Canonical_Prp.
  destruct p; cbn [write_prop prop_ordinal prop_payload];
    change write_prop with (canon_write (A := Prp)); canon_norm.
Qed.

#[export] Instance prefix_free_prop : PrefixFree prop_ok (canon_bytes (A := Prp)).
Proof.
  intros p. induction p as [?|? IH1 ? IH2|? IH1 ? IH2|? IH1 ? IH2|??|? IH|??|???|?? IH];
    intros [] r1 r2 H1 H2 H;
    rewrite !prop_bytes, <-!app_assoc in H; cbn [prop_ordinal prop_payload prop_ok] in *;
    apply prefix_free_uint64 in H as [Ho H]; try int_lia; clear Ho; rewrite <-?app_assoc in H;
    destruct_and?.
  - by apply prefix_free_id in H as [-> ->].
  - apply IH1 in H as [-> H]; [|done..]. by apply IH2 in H as [-> ->].
  - apply IH1 in H as [-> H]; [|done..]. by apply IH2 in H as [-> ->].
  - apply IH1 in H as [-> H]; [|done..]. by apply IH2 in H as [-> ->].
  - apply prefix_free_obj in H as [-> H]; [|done..]. by apply prefix_free_obj in H as [-> ->].
  - by apply IH in H as [-> ->].
  - apply prefix_free_id in H as [-> H]; [|done..].
    apply (prefix_free_canon_list obj_ok) in H as [-> ->]; done.
  - apply prefix_free_obj in H as [-> H]; [|done..]. apply prefix_free_obj in H as [-> H]; [|done..].
    by apply prefix_free_obj in H as [-> ->].
  - apply prefix_free_obj in H as [-> H]; [|done..]. by apply IH in H as [-> ->].
Qed.

(** *** Proof terms *)

Definition var_ok (v : Var) : Prop :=
  match v with Index idx => u64_ok (Z.of_nat idx) | Named name => string_ok name end.

Lemma var_bytes v :
  canon_bytes v = match v with
    | Index idx => encode_uint 0 ++ encode_uint (Z.of_nat idx)
    | Named name => encode_uint 1 ++ canon_bytes name
    end.
Proof. unfold canon_bytes at 1, canon_write, Canonical_Var. destruct v; canon_norm. Qed.

#[export] Instance prefix_free_var : PrefixFree var_ok (canon_bytes (A := Var)).
Proof.
  intros [i1|n1] [i2|n2] r1 r2 H1 H2 H; rewrite !var_bytes, <-!app_assoc in H; cbn [var_ok] in *;
    apply prefix_free_uint64 in H as [Ho H]; try int_lia; clear Ho.
  - apply prefix_free_uint64 in H as [Hi ->]; [|done..]. split; [f_equal; lia|done].
  - by apply prefix_free_string in H as [-> ->].
Qed.

Abbreviation name_ok := (λ o : option string, from_option string_ok True o).

Fixpoint kind_ok (k : TermKind) : Prop :=
  match k with
  | Hyp var => var_ok var
  | Lam v body => name_ok v ∧ kind_ok body
  | App f a | Pair f a | RealizesComp f a | RealizesTensor f a => kind_ok f ∧ kind_ok a
  | Proj1 k | Proj2 k | Inl k | Inr k => kind_ok k
  | Case d lv lb rv rb => kind_ok d ∧ name_ok lv ∧ kind_ok lb ∧ name_ok rv ∧ kind_ok rb
  | Unsupported msg => string_ok msg
  | Refl t => obj_ok t
  | Subst e m s => kind_ok e ∧ prop_ok m ∧ kind_ok s
  | Pack w b => obj_ok w ∧ kind_ok b
  | Unpack s ov pv b => kind_ok s ∧ name_ok ov ∧ name_ok pv ∧ kind_ok b
  | Pres r p m s => kind_ok r ∧ kind_ok p ∧ prop_ok m ∧ kind_ok s
  | PrimRealizes rel s d => id_ok rel ∧ obj_ok s ∧ obj_ok d
  end.

Definition kind_ordinal (k : TermKind) : Z :=
  match k with
  | Hyp _ => 0 | Lam _ _ => 1 | App _ _ => 2 | Pair _ _ => 3 | Proj1 _ => 4 | Proj2 _ => 5
  | Inl _ => 6 | Inr _ => 7 | Case _ _ _ _ _ => 8 | Unsupported _ => 9 | Refl _ => 10
  | Subst _ _ _ => 11 | Pack _ _ => 12 | Unpack _ _ _ _ => 13 | Pres _ _ _ _ => 14
  | RealizesComp _ _ => 15 | RealizesTensor _ _ => 16 | PrimRealizes _ _ _ => 17
  end.
Definition kind_payload (k : TermKind) : bytes :=
  match k with
  | Hyp var => canon_bytes var
  | Lam v body => canon_bytes v ++ canon_bytes body
  | App f a | Pair f a | RealizesComp f a | RealizesTensor f a => canon_bytes f ++ canon_bytes a
  | Proj1 k | Proj2 k | Inl k | Inr k => canon_bytes k
  | Case d lv lb rv rb =>
    canon_bytes d ++ canon_bytes lv ++ canon_bytes lb ++ canon_bytes rv ++ canon_bytes rb
  | Unsupported msg => canon_bytes msg
  | Refl t => canon_bytes t
  | Subst e m s => canon_bytes e ++ canon_bytes m ++ canon_bytes s
  | Pack w b => canon_bytes w ++ canon_bytes b
  | Unpack s ov pv b => canon_bytes s ++ canon_bytes ov ++ canon_bytes pv ++ canon_bytes b
  | Pres r p m s => canon_bytes r ++ canon_bytes p ++ canon_bytes m ++ canon_bytes s
  | PrimRealizes rel s d => canon_bytes rel ++ canon_bytes s ++ canon_bytes d
  end.

Lemma kind_bytes k : canon_bytes k = encode_uint (kind_ordinal k) ++ kind_payload k.
Proof.
  unfold canon_bytes at 1, canon_write, Canonical_TermKind.
  destruct k; cbn [write_kind kind_ordinal kind_payload];
    change write_kind with (canon_write (A := TermKind)); canon_norm.
Qed.

(** Peels one component of any type off both sides of [H]. *)
Ltac peel H :=
  rewrite <-?app_assoc in H;
  first [ apply prefix_free_obj in H | apply prefix_free_prop in H | apply prefix_free_var in H
        | apply prefix_free_id in H | apply prefix_free_string in H
        | apply (prefix_free_option string_ok) in H
        | match goal with IH : ∀ y r1 r2, _ → _ → _ → _ |- _ => apply IH in H end ];
  [ destruct H as [-> H] | assumption | assumption ].

#[export] Instance prefix_free_kind : PrefixFree kind_ok (canon_bytes (A := TermKind)).
Proof.
  intros k. induction k; intros [] r1 r2 H1 H2 H;
    rewrite !kind_bytes, <-!app_assoc in H;
    apply prefix_free_uint64 in H as [Ho H];
    try (cbn [kind_ordinal] in *; int_lia); clear Ho;
    cbn [kind_payload kind_ok] in *; destruct_and?; repeat peel H; by subst.
Qed.

Lemma term_bytes (t : ExplicitTerm) :
  canon_bytes t = canon_bytes (context t) ++ canon_bytes (kind t).
Proof. unfold canon_bytes at 1, canon_write, Canonical_ExplicitTerm. canon_norm. Qed.

#[export] Instance CanonAppends_ExplicitTerm : CanonAppends ExplicitTerm.
Proof.
  intros t w. rewrite term_bytes. unfold canon_write, Canonical_ExplicitTerm. canon_norm.
Qed.

Definition term_ok (t : ExplicitTerm) : Prop := id_ok (context t) ∧ kind_ok (kind t).

#[export] Instance prefix_free_term : PrefixFree term_ok (canon_bytes (A := ExplicitTerm)).
Proof.
  intros [c1 k1] [c2 k2] r1 r2 [Hc1 Hk1] [Hc2 Hk2] H. rewrite !term_bytes, <-!app_assoc in H.
  cbn [context kind] in *. apply prefix_free_id in H as [-> H]; [|done..].
  by apply prefix_free_kind in H as [-> ->].
Qed.
