(* ===== verification/KernelPrim.v ===== *)
(** The primitive-relation registry of the proof kernel
    (src/crates/brix-kernel/src/: prim_schema.rs, prim_registry.rs).

    The numeric tower, its joins and promotion paths, the canonical source and
    result objects of an arithmetic typing, and the one compiled-in relation
    whose rows are all of them. The worklist loops run on the fuel [TOWER_FUEL];
    [le_partial_order] and [edge_path_spec] show it is enough. *)
From S2P Require Import Prelude IntCodec Canon CanonLaws Witness Encoding KernelTerm.

Abbreviation SchemaId := (Id KSchema).

(** ** prim_schema.rs *)

Inductive ArithOperatorV1 : Type := Add | Sub | Mul | Div.
Inductive NumericTypeNameV1 : Type := Nat | Int | Rat | Real | Complex | Float.
Inductive CoercionKind : Type := Exact | Lossy.

#[export] Instance ArithOperatorV1_eq_dec : EqDecision ArithOperatorV1.
Proof. solve_decision. Defined.
#[export] Instance NumericTypeNameV1_eq_dec : EqDecision NumericTypeNameV1.
Proof. solve_decision. Defined.
#[export] Instance CoercionKind_eq_dec : EqDecision CoercionKind.
Proof. solve_decision. Defined.

Definition operator_ordinal (o : ArithOperatorV1) : Z :=
  match o with Add => 0 | Sub => 1 | Mul => 2 | Div => 3 end.
Definition numeric_ordinal (n : NumericTypeNameV1) : Z :=
  match n with Nat => 0 | Int => 1 | Rat => 2 | Real => 3 | Complex => 4 | Float => 5 end.
Definition coercion_ordinal (c : CoercionKind) : Z := match c with Exact => 0 | Lossy => 1 end.

#[export] Instance NumericTypeNameV1_countable : Countable NumericTypeNameV1.
Proof.
  apply (inj_countable' (λ n, Z.to_nat (numeric_ordinal n))
    (λ i, match i with 0 => Nat | 1 => Int | 2 => Rat | 3 => Real | 4 => Complex | _ => Float end)).
  by intros [].
Defined.

#[export] Instance Canonical_ArithOperatorV1 : Canonical ArithOperatorV1 := λ o,
  write_enum (operator_ordinal o) id.
#[export] Instance Canonical_NumericTypeNameV1 : Canonical NumericTypeNameV1 := λ n,
  write_enum (numeric_ordinal n) id.
#[export] Instance Canonical_CoercionKind : Canonical CoercionKind := λ c,
  write_enum (coercion_ordinal c) id.

Definition lattice_name (n : NumericTypeNameV1) : string :=
  match n with
  | Nat => "Nat" | Int => "Int" | Rat => "Rat"
  | Real => "Real" | Complex => "Complex" | Float => "Float"
  end.

Definition from_lattice_node (name : string) : option NumericTypeNameV1 :=
  if decide (name = "Nat") then Some Nat
  else if decide (name = "Int") then Some Int
  else if decide (name = "Rat") then Some Rat
  else if decide (name = "Real") then Some Real
  else if decide (name = "Complex") then Some Complex
  else if decide (name = "Float") then Some Float
  else None.

Record CoercionEdgeV1 : Type := mkEdge { edge_gen : GeneratorId; edge_kind : CoercionKind }.

#[export] Instance Canonical_CoercionEdgeV1 : Canonical CoercionEdgeV1 := λ e w,
  w |> write_bytes (as_bytes (digest (edge_gen e))) |> canon_write (edge_kind e).

Definition ARITH_TYPING_INPUT_MARKER_V1 : string := "brix.kernel.arith-typing-input".
Definition ARITH_TYPING_INPUT_VERSION_V1 : Z := 1.
Definition NUMERIC_RESULT_TYPE_MARKER_V1 : string := "brix.kernel.numeric-result-type".
Definition NUMERIC_RESULT_TYPE_VERSION_V1 : Z := 1.

Record ArithTypingInputV1 : Type := mkInput {
  operator : ArithOperatorV1;
  lhs_type : NumericTypeNameV1;
  rhs_type : NumericTypeNameV1;
  lhs_promotion_path : list CoercionEdgeV1;
  rhs_promotion_path : list CoercionEdgeV1
}.

#[export] Instance Canonical_ArithTypingInputV1 : Canonical ArithTypingInputV1 := λ i w,
  w |> write_bytes (bytes_of_string ARITH_TYPING_INPUT_MARKER_V1)
    |> write_uint ARITH_TYPING_INPUT_VERSION_V1
    |> canon_write (operator i) |> canon_write (lhs_type i) |> canon_write (rhs_type i)
    |> write_list (canon_bytes <$> lhs_promotion_path i)
    |> write_list (canon_bytes <$> rhs_promotion_path i).

Record NumericResultTypeV1 : Type := mkResult { result_name : NumericTypeNameV1 }.

#[export] Instance Canonical_NumericResultTypeV1 : Canonical NumericResultTypeV1 := λ r w,
  w |> write_bytes (bytes_of_string NUMERIC_RESULT_TYPE_MARKER_V1)
    |> write_uint NUMERIC_RESULT_TYPE_VERSION_V1
    |> canon_write (result_name r).

Section schema.
Context `{Blake3}.

Definition of_schema (marker : bytes) (version : Z) : SchemaId :=
  from_canon ([] |> write_bytes marker |> write_uint version).

Definition input_config_id (i : ArithTypingInputV1) : ConfigId := id_of i.
Definition result_config_id (r : NumericResultTypeV1) : ConfigId := id_of r.

Definition arith_typing_input_schema_id : SchemaId :=
  of_schema (bytes_of_string ARITH_TYPING_INPUT_MARKER_V1) ARITH_TYPING_INPUT_VERSION_V1.
Definition numeric_result_type_schema_id : SchemaId :=
  of_schema (bytes_of_string NUMERIC_RESULT_TYPE_MARKER_V1) NUMERIC_RESULT_TYPE_VERSION_V1.
End schema.

(** ** prim_registry.rs: the tower *)

Abbreviation Edge := (NumericTypeNameV1 * NumericTypeNameV1 * CoercionKind)%type.

Definition TOWER : list Edge :=
  [(Nat, Int, Exact); (Int, Rat, Exact); (Rat, Real, Exact); (Real, Complex, Exact);
   (Int, Float, Lossy)].
Definition NODES : list NumericTypeNameV1 := [Nat; Int; Rat; Real; Complex; Float].
Definition OPERATORS : list ArithOperatorV1 := [Add; Sub; Mul; Div].

(** One more than the number of nodes. *)
Definition TOWER_FUEL : nat := 7.

(** [while i < out.len()]: [done ++ todo] is the vector, [length done] the index. *)
Fixpoint ancestors_loop (fuel : nat) (i : nat) (out : list NumericTypeNameV1) :
    list NumericTypeNameV1 :=
  match fuel with
  | O => out
  | S fuel' =>
    match out !! i with
    | None => out
    | Some cur =>
      ancestors_loop fuel' (S i)
        (fold_left (λ out '(from, to, _),
           if decide (from = cur ∧ to ∉ out) then out ++ [to] else out) TOWER out)
    end
  end.
Definition ancestors (name : NumericTypeNameV1) : list NumericTypeNameV1 :=
  ancestors_loop TOWER_FUEL 0 [name].

Definition le (a b : NumericTypeNameV1) : bool := bool_decide (b ∈ ancestors a).

Definition join (a b : NumericTypeNameV1) : option NumericTypeNameV1 :=
  let aa := ancestors a in
  let bb := ancestors b in
  let common := filter (λ x, x ∈ bb) aa in
  snd <$> list_find (λ x, Is_true (forallb (λ y, le x y) common)) common.

Definition field_of (name : NumericTypeNameV1) : NumericTypeNameV1 :=
  match name with Nat | Int => Float | other => other end.

Abbreviation Reached := (gmap NumericTypeNameV1 Edge).

Fixpoint reach_loop (fuel : nat) (from : NumericTypeNameV1) (i : nat)
    (queue : list NumericTypeNameV1) (reached_via : Reached) : Reached :=
  match fuel with
  | O => reached_via
  | S fuel' =>
    match queue !! i with
    | None => reached_via
    | Some cur =>
      let '(queue', reached') :=
        fold_left (λ '(queue, reached) '(a, b, kind),
          if decide (a = cur ∧ b ≠ from ∧ reached !! b = None)
          then (queue ++ [b], <[b := (a, b, kind)]> reached)
          else (queue, reached)) TOWER (queue, reached_via) in
      reach_loop fuel' from (S i) queue' reached'
    end
  end.

(** [while node != from]: the path, last edge first. *)
Fixpoint walk_back (fuel : nat) (from node : NumericTypeNameV1) (reached_via : Reached) :
    option (list Edge) :=
  if decide (node = from) then Some []
  else match fuel with
  | O => None
  | S fuel' =>
    edge ← reached_via !! node;
    rest ← walk_back fuel' from edge.1.1 reached_via;
    Some (edge :: rest)
  end.

Definition edge_path (from to : NumericTypeNameV1) : option (list Edge) :=
  if decide (from = to) then Some []
  else if negb (le from to) then None
  else
    let reached_via := reach_loop TOWER_FUEL from 0 [from] ∅ in
    path ← walk_back TOWER_FUEL from to reached_via;
    Some (reverse path).

(** ** prim_registry.rs: the relation *)

Inductive JudgmentKind : Type := Typing.
Definition judgment_ordinal (j : JudgmentKind) : Z := match j with Typing => 0 end.
#[export] Instance Canonical_JudgmentKind : Canonical JudgmentKind := λ j,
  write_enum (judgment_ordinal j) id.

Definition PRIMITIVE_RELATION_MARKER_V1 : string := "brix.kernel.primitive-relation".
Definition PRIMITIVE_RELATION_VERSION_V1 : Z := 1.

Abbreviation Row := (PropositionId * PropositionId)%type.

Record PrimitiveRelation : Type := mkRelation {
  judgment_kind : JudgmentKind;
  generator : GeneratorId;
  source_schema : SchemaId;
  destination_schema : SchemaId;
  rows : gset Row
}.

Definition row_bytes (r : Row) : bytes :=
  [] |> write_bytes (as_bytes (digest r.1)) |> write_bytes (as_bytes (digest r.2)).

#[export] Instance Canonical_PrimitiveRelation : Canonical PrimitiveRelation := λ r w,
  w |> write_bytes (bytes_of_string PRIMITIVE_RELATION_MARKER_V1)
    |> write_uint PRIMITIVE_RELATION_VERSION_V1
    |> canon_write (judgment_kind r)
    |> write_bytes (as_bytes (digest (generator r)))
    |> canon_write (source_schema r) |> canon_write (destination_schema r)
    |> write_set (row_bytes <$> elements (rows r)).

Section registry.
Context `{Blake3}.

Definition relation_id (r : PrimitiveRelation) : PrimitiveRelationId := id_of r.

Definition admits (r : PrimitiveRelation) (src dst : PropositionId) : bool :=
  bool_decide ((src, dst) ∈ rows r).

Definition edge_generator (from to : NumericTypeNameV1) (kind : CoercionKind) : GeneratorId :=
  let prefix := match kind with
    | Exact => "type.rule.num.promote"
    | Lossy => "type.rule.num.convert.lossy"
    end in
  named (prefix +:+ "." +:+ lattice_name from +:+ "_" +:+ lattice_name to +:+ "@1").

Definition promotion_path (from to : NumericTypeNameV1) : option (list CoercionEdgeV1) :=
  (λ path : list Edge,
     (λ e, mkEdge (edge_generator e.1.1 e.1.2 e.2) e.2) <$> path) <$> edge_path from to.

(** The body of the three nested loops; [None] is [continue]. *)
Definition arith_row (op : ArithOperatorV1) (lhs rhs : NumericTypeNameV1) : option Row :=
  base ← join lhs rhs;
  let result := if decide (op = Div) then field_of base else base in
  lhs_path ← promotion_path lhs result;
  rhs_path ← promotion_path rhs result;
  let src := mkInput op lhs rhs lhs_path rhs_path in
  let dst := mkResult result in
  Some (mkId (digest (input_config_id src)), mkId (digest (result_config_id dst))).

Definition arith_row_list : list Row :=
  op ← OPERATORS; lhs ← NODES; rhs ← NODES; option_list (arith_row op lhs rhs).

Definition arith_rows : gset Row := list_to_set arith_row_list.

(** The loop of [build_arith_relation] that asserts functionality; [false] is
    the panic. *)
Definition functional_assertion (rows : list Row) : bool :=
  (fold_left (λ '(ok, seen) '(src, dst),
     (ok && match seen !! src with Some previous => bool_decide (previous = dst) | None => true end,
      <[src := dst]> seen)) rows (true, (∅ : gmap PropositionId PropositionId))).1.

Definition build_arith_relation : PrimitiveRelation :=
  mkRelation Typing (named "type.rule.arith@1")
    arith_typing_input_schema_id numeric_result_type_schema_id arith_rows.

Definition build_typing_arith_v2 : PrimitiveRelation := build_arith_relation.
Definition compiled_in_relations : list PrimitiveRelation := [build_typing_arith_v2].

Definition registry : gmap PrimitiveRelationId PrimitiveRelation :=
  fold_left (λ map relation, <[relation_id relation := relation]> map) compiled_in_relations ∅.

Definition typing_arith_v2 : PrimitiveRelationId := relation_id build_typing_arith_v2.
Definition resolve (id : PrimitiveRelationId) : option PrimitiveRelation := registry !! id.

Lemma elem_of_option_list {A} (o : option A) x : x ∈ option_list o ↔ o = Some x.
Proof. destruct o; simpl; [rewrite list_elem_of_singleton; naive_solver|set_solver]. Qed.

Lemma resolve_Some id r :
  resolve id = Some r ↔ id = typing_arith_v2 ∧ r = build_arith_relation.
Proof.
  unfold resolve, registry, compiled_in_relations. simpl. fold typing_arith_v2.
  rewrite lookup_insert_Some, lookup_empty. naive_solver.
Qed.

(** The three nested loops visit every triple. *)
Lemma elem_of_loops {A} (f : ArithOperatorV1 → NumericTypeNameV1 → NumericTypeNameV1 → option A) r :
  r ∈ (op ← OPERATORS; lhs ← NODES; rhs ← NODES; option_list (f op lhs rhs)) ↔
  ∃ op lhs rhs, f op lhs rhs = Some r.
Proof.
  assert (∀ n, n ∈ NODES) as Hn by (intros []; unfold NODES; set_solver).
  assert (∀ o, o ∈ OPERATORS) as Ho by (intros []; unfold OPERATORS; set_solver).
  split.
  - intros (op & H1 & _)%list_elem_of_bind. apply list_elem_of_bind in H1 as (lhs & H1 & _).
    apply list_elem_of_bind in H1 as (rhs & H1 & _). apply elem_of_option_list in H1. eauto.
  - intros (op & lhs & rhs & Hr). apply list_elem_of_bind. exists op. split; [|done].
    apply list_elem_of_bind. exists lhs. split; [|done].
    apply list_elem_of_bind. exists rhs. split; [|done]. by apply elem_of_option_list.
Qed.

Lemma arith_rows_elem r :
  r ∈ arith_rows ↔ ∃ op lhs rhs, arith_row op lhs rhs = Some r.
Proof. unfold arith_rows, arith_row_list. rewrite elem_of_list_to_set. apply elem_of_loops. Qed.

(** The inputs of the rows, and the payloads hashed for them. *)
Definition arith_input (op : ArithOperatorV1) (lhs rhs : NumericTypeNameV1) : option ArithTypingInputV1 :=
  base ← join lhs rhs;
  let result := if decide (op = Div) then field_of base else base in
  lhs_path ← promotion_path lhs result;
  rhs_path ← promotion_path rhs result;
  Some (mkInput op lhs rhs lhs_path rhs_path).
Definition arith_payloads : list bytes :=
  canon_bytes <$> (op ← OPERATORS; lhs ← NODES; rhs ← NODES; option_list (arith_input op lhs rhs)).
End registry.

(** ** The lattice *)

(** A boolean statement about the six nodes holds when it computes. *)
Lemma all_nodes (P : NumericTypeNameV1 → bool) : forallb P NODES = true → ∀ a, P a = true.
Proof. rewrite forallb_forall. intros HP a. apply HP. destruct a; simpl; tauto. Qed.

Lemma le_partial_order a b c :
  le a a = true ∧
  (le a b = true → le b c = true → le a c = true) ∧
  (le a b = true → le b a = true → a = b).
Proof.
  assert (∀ a b c, implb (le a b && le b c) (le a c) = true) as Ht.
  { intros x y. apply all_nodes. revert y. apply all_nodes. revert x. apply all_nodes. by vm_compute. }
  assert (∀ a b, implb (le a b && le b a) (bool_decide (a = b)) = true) as Ha.
  { intros x. apply all_nodes. revert x. apply all_nodes. by vm_compute. }
  split_and!.
  - revert a. apply all_nodes. by vm_compute.
  - intros H1 H2. specialize (Ht a b c). rewrite H1, H2 in Ht. exact Ht.
  - intros H1 H2. specialize (Ha a b). rewrite H1, H2 in Ha. by apply bool_decide_eq_true in Ha.
Qed.

(** Consecutive tower edges from [from] to [to]. *)
Fixpoint is_path (from to : NumericTypeNameV1) (path : list Edge) : Prop :=
  match path with
  | [] => from = to
  | e :: path' => e.1.1 = from ∧ e ∈ TOWER ∧ is_path e.1.2 to path'
  end.

Fixpoint path_check (from to : NumericTypeNameV1) (path : list Edge) : bool :=
  match path with
  | [] => bool_decide (from = to)
  | e :: path' =>
    bool_decide (e.1.1 = from) && bool_decide (e ∈ TOWER) && path_check e.1.2 to path'
  end.

Lemma path_check_spec from to path : path_check from to path = true → is_path from to path.
Proof.
  revert from. induction path as [|e path IH]; intros from; simpl.
  - apply bool_decide_eq_true.
  - rewrite !andb_true_iff, !bool_decide_eq_true. naive_solver.
Qed.

Lemma edge_path_spec from to :
  match edge_path from to with
  | Some path => le from to = true ∧ is_path from to path
  | None => le from to = false
  end.
Proof.
  assert (match edge_path from to with
    | Some path => le from to && path_check from to path
    | None => negb (le from to) end = true) as H.
  { revert to. apply all_nodes. revert from. apply all_nodes. by vm_compute. }
  destruct (edge_path from to) as [path|].
  - apply andb_true_iff in H as [H1 H2]. split; [done|by apply path_check_spec].
  - by apply negb_true_iff in H.
Qed.

Lemma join_check a b :
  match join a b with
  | Some c => le a c && le b c && forallb (λ d, implb (le a d && le b d) (le c d)) NODES
  | None => forallb (λ c, negb (le a c && le b c)) NODES
  end = true.
Proof. revert b. apply all_nodes. revert a. apply all_nodes. by vm_compute. Qed.

(** ** Functionality *)

Section functional.
Context `{Blake3}.

(** The result type the rule gives to an operator and two operand types. *)
Definition result_type (op : ArithOperatorV1) (lhs rhs : NumericTypeNameV1) :
    option NumericTypeNameV1 :=
  base ← join lhs rhs; Some (if decide (op = Div) then field_of base else base).

Lemma enum_id_bytes n w : write_enum n id w = w ++ encode_uint n.
Proof. done. Qed.

Lemma input_bytes i :
  canon_bytes i =
    frame (bytes_of_string ARITH_TYPING_INPUT_MARKER_V1) ++
    encode_uint ARITH_TYPING_INPUT_VERSION_V1 ++
    encode_uint (operator_ordinal (operator i)) ++
    encode_uint (numeric_ordinal (lhs_type i)) ++
    encode_uint (numeric_ordinal (rhs_type i)) ++
    frames (canon_bytes <$> lhs_promotion_path i) ++
    frames (canon_bytes <$> rhs_promotion_path i).
Proof.
  unfold canon_bytes at 1, canon_write, Canonical_ArithTypingInputV1.
  unfold canon_write, Canonical_ArithOperatorV1, Canonical_NumericTypeNameV1.
  rewrite !write_list_app, !enum_id_bytes. unfold write_uint. rewrite write_bytes_app.
  by rewrite <-!app_assoc.
Qed.

Lemma operator_ordinal_inj o1 o2 : operator_ordinal o1 = operator_ordinal o2 → o1 = o2.
Proof. by destruct o1, o2. Qed.
Lemma numeric_ordinal_inj n1 n2 : numeric_ordinal n1 = numeric_ordinal n2 → n1 = n2.
Proof. by destruct n1, n2. Qed.

Lemma input_binds i1 i2 :
  input_config_id i1 = input_config_id i2 →
  (operator i1 = operator i2 ∧ lhs_type i1 = lhs_type i2 ∧ rhs_type i1 = rhs_type i2) ∨
  collision (message (canon_bytes i1)) (message (canon_bytes i2)).
Proof.
  intros Heq. apply from_canon_inj in Heq as [Heq|?]; [left|by right].
  rewrite !input_bytes in Heq.
  assert (∀ o, u64_ok (operator_ordinal o)) as Ho by (intros []; split; done).
  assert (∀ n, u64_ok (numeric_ordinal n)) as Hn by (intros []; split; done).
  apply prefix_free_frame in Heq as [_ Heq]; [|by vm_compute..].
  apply prefix_free_uint64 in Heq as [_ Heq]; [|by split..].
  apply prefix_free_uint64 in Heq as [Hop Heq]; [|done..].
  apply prefix_free_uint64 in Heq as [Hl Heq]; [|done..].
  apply prefix_free_uint64 in Heq as [Hr Heq]; [|done..].
  by apply operator_ordinal_inj in Hop; apply numeric_ordinal_inj in Hl, Hr.
Qed.

Lemma arith_row_result op lhs rhs src dst :
  arith_row op lhs rhs = Some (src, dst) →
  ∃ i result, digest src = digest (input_config_id i) ∧
    operator i = op ∧ lhs_type i = lhs ∧ rhs_type i = rhs ∧
    result_type op lhs rhs = Some result ∧
    digest dst = digest (result_config_id (mkResult result)) ∧ canon_bytes i ∈ arith_payloads.
Proof.
  intros Hrow. assert (∀ i, arith_input op lhs rhs = Some i → canon_bytes i ∈ arith_payloads) as Hin.
  { intros i Hi. apply list_elem_of_fmap_2, elem_of_loops. eauto. }
  revert Hrow Hin. unfold arith_row, arith_input, result_type. destruct (join lhs rhs) as [base|]; [|done]. simpl.
  set (result := if decide (op = Div) then field_of base else base).
  destruct (promotion_path lhs result) as [lp|]; [|done]. simpl.
  destruct (promotion_path rhs result) as [rp|]; [|done]. simpl. intros [= <- <-] Hin.
  exists (mkInput op lhs rhs lp rp), result. split_and!; [done..|]. by apply Hin.
Qed.

Lemma arith_rows_functional src dst1 dst2 :
  (src, dst1) ∈ arith_rows → (src, dst2) ∈ arith_rows → dst1 = dst2 ∨ collision_among (message <$> arith_payloads).
Proof.
  rewrite !arith_rows_elem. intros (op1 & l1 & r1 & H1) (op2 & l2 & r2 & H2).
  apply arith_row_result in H1 as (i1 & t1 & Hs1 & <- & <- & <- & Ht1 & Hd1 & Hi1).
  apply arith_row_result in H2 as (i2 & t2 & Hs2 & <- & <- & <- & Ht2 & Hd2 & Hi2).
  rewrite Hs1 in Hs2. apply (inj digest) in Hs2.
  apply input_binds in Hs2 as [(Ho & Hl & Hr)|?]; [left|right; by eapply collision_in].
  rewrite Ho, Hl, Hr in Ht1. apply (inj digest). congruence.
Qed.

Lemma functional_assertion_false l :
  functional_assertion l = false →
  ∃ src dst1 dst2, (src, dst1) ∈ l ∧ (src, dst2) ∈ l ∧ dst1 ≠ dst2.
Proof.
  unfold functional_assertion. set (step := λ '(ok, seen) '(src, dst), _).
  assert (∀ ok seen, fold_left step l (true, ∅) = (ok, seen) →
    (∀ s d, seen !! s = Some d → (s, d) ∈ l) ∧
    (ok = false → ∃ s d1 d2, (s, d1) ∈ l ∧ (s, d2) ∈ l ∧ d1 ≠ d2)) as Hinv.
  { induction l as [|[s d] l IH] using rev_ind.
    - intros ok seen [= <- <-]. split; [intros s d; by rewrite lookup_empty|done].
    - intros ok' seen'. rewrite fold_left_app. simpl.
      destruct (fold_left step l (true, ∅)) as [ok seen]. destruct (IH ok seen eq_refl) as [Hs Ho].
      intros [= <- <-]. split.
      + intros s' d' [[<- <-]|[_ Hs']]%lookup_insert_Some; [set_solver|].
        apply elem_of_app. left. by apply Hs.
      + destruct ok; simpl.
        * destruct (seen !! s) as [d'|] eqn:E; [|done]. intros Hd%bool_decide_eq_false.
          exists s, d', d. apply Hs in E. set_solver.
        * intros _. destruct (Ho eq_refl) as (s' & d1 & d2 & ? & ? & ?).
          exists s', d1, d2. set_solver. }
  destruct (fold_left step l (true, ∅)) as [ok seen]. simpl. intros ->.
  destruct (Hinv false seen eq_refl) as [_ Ho]. by apply Ho.
Qed.
End functional.

(** * Properties *)

(** C27: [join] is the least upper bound of the numeric tower's order, and fails
    exactly when there is none; where [a <= b], [edge_path] returns a chain of
    tower edges from [a] to [b], and nothing otherwise. *)
Theorem join_least_upper_bound (a b : NumericTypeNameV1) :
  (∀ c, join a b = Some c ↔
     le a c = true ∧ le b c = true ∧
     ∀ d, le a d = true → le b d = true → le c d = true) ∧
  (join a b = None ↔ ¬ ∃ c, le a c = true ∧ le b c = true) ∧
  match edge_path a b with
  | Some path => le a b = true ∧ is_path a b path
  | None => le a b = false
  end.
Proof.
  assert (∀ c, c ∈ NODES) as Hin by (intros []; unfold NODES; set_solver).
  pose proof (join_check a b) as H. split_and!; [| |apply edge_path_spec].
  - destruct (join a b) as [m|].
    + rewrite !andb_true_iff, forallb_forall in H. destruct H as [[Ha Hb] Hm].
      assert (∀ d, le a d = true → le b d = true → le m d = true) as Hleast.
      { intros d Hd1 Hd2. specialize (Hm d). rewrite Hd1, Hd2 in Hm.
        apply Hm. by rewrite <-list_elem_of_In. }
      intros c. split; [intros [= <-]; done|]. intros (Hac & Hbc & Hc). f_equal.
      apply (le_partial_order m c c); auto.
    + intros c. split; [done|]. intros (Hac & Hbc & _). exfalso.
      rewrite forallb_forall in H. specialize (H c). rewrite Hac, Hbc in H.
      discriminate H. by rewrite <-list_elem_of_In.
  - destruct (join a b) as [m|].
    + rewrite !andb_true_iff in H. destruct H as [[Ha Hb] _].
      split; [done|]. intros Hn. exfalso. eauto.
    + split; [|done]. intros _ (c & Hac & Hbc). rewrite forallb_forall in H.
      specialize (H c). rewrite Hac, Hbc in H. discriminate H. by rewrite <-list_elem_of_In.
Qed.

(** The compiled-in registry is exact and functional. It resolves one id, to
    the arithmetic typing relation; that relation admits exactly the endpoint pairs
    the three loops generate; one source admits one result type, so the assertion
    that guards the registry cannot fail, unless the messages hashed for two inputs collide. *)
Theorem primitive_relation_functional `{Blake3} :
  (∀ id r, resolve id = Some r ↔ id = typing_arith_v2 ∧ r = build_arith_relation) ∧
  (∀ src dst, admits build_arith_relation src dst = true ↔
     ∃ op lhs rhs, arith_row op lhs rhs = Some (src, dst)) ∧
  (∀ src dst1 dst2, admits build_arith_relation src dst1 = true →
     admits build_arith_relation src dst2 = true →
     dst1 = dst2 ∨ collision_among (message <$> arith_payloads)) ∧
  (functional_assertion (elements arith_rows) = true ∨ collision_among (message <$> arith_payloads)).
Proof.
  split_and!.
  - apply resolve_Some.
  - intros src dst. unfold admits. rewrite bool_decide_eq_true. apply arith_rows_elem.
  - intros src dst1 dst2. unfold admits. rewrite !bool_decide_eq_true. apply arith_rows_functional.
  - destruct (functional_assertion (elements arith_rows)) eqn:E; [by left|right].
    apply functional_assertion_false in E as (s & d1 & d2 & H1 & H2 & Hne).
    rewrite elem_of_elements in H1, H2.
    destruct (arith_rows_functional s d1 d2 H1 H2) as [Heq|Hc]; [exact (False_ind _ (Hne Heq))|exact Hc].
Qed.
