(* ===== verification/Certificate.v ===== *)
(** The canonical certificate envelope (src/crates/brix-kernel/src/certificate.rs).

    [encode_material_v1] writes the seven frozen fields, [decode_material_v1] reads
    them back and checks them, [validate_material_v1] binds them to typed
    artifacts. *)
From S2P Require Import Prelude IntCodec Canon CanonLaws Witness Encoding KernelTerm.

Definition CERTIFICATE_MARKER : string := "brix.kernel.certificate".
Definition CERTIFICATE_FORMAT_V1 : Z := 1.
Definition KERNEL_PROFILE_V1 : string := "brix.kernel.profile@1.2".
Definition NATIVE_VERIFIER_NAME : string := "brix.kernel@0.1".

Record CertificateMaterialV1 : Type := mkMaterial {
  mat_context : ContextId;
  mat_proposition : Prp;
  mat_term : ExplicitTerm
}.

Record DecodedMaterialV1 : Type := mkDecoded {
  dec_verifier : VerifierId;
  dec_context : ContextId;
  proposition_bytes : bytes;
  term_payload : bytes
}.

Inductive CertificateFormatError : Type :=
  | BadMarker
  | UnknownVersion (v : Z)
  | UnknownProfile
  | VerifierMismatch
  | CertContextMismatch
  | PropositionMismatch
  | TermMismatch
  | TermContextMismatch
  | CertTruncated
  | CertBadLength
  | CertNonMinimalInt
  | TrailingBytes.

Definition from_canon_error (err : CanonError) : CertificateFormatError :=
  match err with
  | UnexpectedEof => CertTruncated
  | NonMinimalInt => CertNonMinimalInt
  | BadLength => CertBadLength
  end.

Abbreviation CertReader A := (ST CanonReader CertificateFormatError A).

(** [r.read_x()?] with the conversion of its error. *)
Definition try_read {A} (rd : Reader A) : CertReader A := λ r,
  let '(res, r') := rd r in (map_err from_canon_error res, r').

(** The private [read_digest] of the envelope reader. *)
Definition read_digest_field : CertReader Digest :=
  b ← try_read read_bytes;
  if decide (length b = 32) then mret (mkDigest b) else ST_throw CertBadLength.

Definition at_end : CertReader bool := λ r, (Ok (reader_is_empty r), r).

Section certificate.
Context `{Blake3}.

Definition native_verifier : VerifierId := named NATIVE_VERIFIER_NAME.

Definition encode_material_v1 (material : CertificateMaterialV1) : bytes :=
  [] |> write_bytes (bytes_of_string CERTIFICATE_MARKER)
     |> write_uint CERTIFICATE_FORMAT_V1
     |> write_string KERNEL_PROFILE_V1
     |> canon_write native_verifier
     |> canon_write (mat_context material)
     |> write_bytes (canon_bytes (mat_proposition material))
     |> write_bytes (canon_bytes (mat_term material)).

Definition certificate_id_v1 (material : CertificateMaterialV1) : CertificateId :=
  from_canon (encode_material_v1 material).

Definition decode_fields : CertReader DecodedMaterialV1 :=
  marker ← try_read read_bytes;
  if decide (marker ≠ bytes_of_string CERTIFICATE_MARKER) then ST_throw BadMarker else
  version ← try_read read_uint;
  if decide (version ≠ CERTIFICATE_FORMAT_V1) then ST_throw (UnknownVersion version) else
  profile ← try_read read_bytes;
  if decide (profile ≠ bytes_of_string KERNEL_PROFILE_V1) then ST_throw UnknownProfile else
  verifier ← read_digest_field;
  if decide (mkId verifier ≠ native_verifier) then ST_throw VerifierMismatch else
  context ← read_digest_field;
  proposition_bytes ← try_read read_bytes;
  term_bytes ← try_read read_bytes;
  is_empty ← at_end;
  if negb is_empty then ST_throw TrailingBytes else
  embedded ← ST_lift (read_digest_field (reader_new term_bytes)).1;
  if decide (embedded ≠ context) then ST_throw TermContextMismatch else
  mret (mkDecoded (mkId verifier) (mkId context) proposition_bytes term_bytes).

Definition decode_material_v1 (b : bytes) : result CertificateFormatError DecodedMaterialV1 :=
  (decode_fields (reader_new b)).1.

Definition validate_material_v1 (b : bytes) (expected : CertificateMaterialV1) :
    result CertificateFormatError CertificateId :=
  decoded ← decode_material_v1 b;
  if decide (dec_context decoded ≠ mat_context expected) then Err CertContextMismatch
  else if decide (proposition_bytes decoded ≠ canon_bytes (mat_proposition expected))
  then Err PropositionMismatch
  else if decide (term_payload decoded ≠ canon_bytes (mat_term expected))
  then Err TermMismatch
  else Ok (from_canon b).

(** ** Lemmas *)

Lemma encode_material_bytes m :
  encode_material_v1 m =
    frame (bytes_of_string CERTIFICATE_MARKER) ++ encode_uint CERTIFICATE_FORMAT_V1 ++
    frame (bytes_of_string KERNEL_PROFILE_V1) ++
    frame (as_bytes (digest native_verifier)) ++ frame (as_bytes (digest (mat_context m))) ++
    frame (canon_bytes (mat_proposition m)) ++ frame (canon_bytes (mat_term m)).
Proof.
  unfold encode_material_v1, write_string, write_str, canon_write, Canonical_Id, write_uint.
  rewrite !write_bytes_app. by rewrite <-!app_assoc.
Qed.

Lemma try_read_Ok {A} (rd : Reader A) enc r a r' :
  reads_only rd enc → reader_safe rd → reader_ok r → try_read rd r = (Ok a, r') →
  remaining r = enc a ++ remaining r' ∧ reader_ok r'.
Proof.
  unfold try_read. intros Ho Hs Hok Hr. destruct (rd r) as [[b|e] r1] eqn:E; [|done].
  injection Hr as -> <-. destruct (Ho _ _ _ Hok E) as [Hrem _].
  destruct (Hs r Hok) as [Hok1 _]. by rewrite E in Hok1.
Qed.

Lemma try_read_reads {A} (rd : Reader A) enc r a rest :
  reads rd enc a → reader_ok r → remaining r = enc ++ rest →
  ∃ r', try_read rd r = (Ok a, r') ∧ reader_ok r' ∧ remaining r' = rest.
Proof.
  intros Hr Hok Hrem. destruct (reads_advance _ _ _ _ _ Hr Hok Hrem) as (r' & E & ? & ? & _).
  exists r'. unfold try_read. by rewrite E.
Qed.

Lemma read_digest_field_Ok r d r' :
  reader_ok r → read_digest_field r = (Ok d, r') →
  remaining r = frame (as_bytes d) ++ remaining r' ∧ reader_ok r' ∧ length (as_bytes d) = 32.
Proof.
  intros Hok Hr. apply ST_bind_Ok in Hr as (b & r1 & Hb & Hr).
  apply (try_read_Ok _ frame) in Hb as [Hrem Hok1];
    [|apply read_bytes_only|apply reader_safe_bytes|done].
  case_decide; [|done]. by injection Hr as <- <-.
Qed.

Lemma read_digest_field_reads r d rest :
  digest_ok d → reader_ok r → remaining r = frame (as_bytes d) ++ rest →
  ∃ r', read_digest_field r = (Ok d, r') ∧ reader_ok r' ∧ remaining r' = rest.
Proof.
  intros [Hl _] Hok Hrem.
  destruct (try_read_reads read_bytes (frame (as_bytes d)) r (as_bytes d) rest) as (r' & E & ? & ?); [|done..|].
  - apply read_bytes_reads. rewrite Hl. int_lia.
  - exists r'. unfold read_digest_field, mbind, ST_bind. rewrite E, decide_True by done.
    by destruct d.
Qed.

Lemma read_bytes_step r b r' :
  reader_ok r → try_read read_bytes r = (Ok b, r') →
  remaining r = frame b ++ remaining r' ∧ reader_ok r'.
Proof. apply try_read_Ok; [apply read_bytes_only|apply reader_safe_bytes]. Qed.

Lemma read_uint_step r v r' :
  reader_ok r → try_read read_uint r = (Ok v, r') →
  remaining r = encode_uint v ++ remaining r' ∧ reader_ok r'.
Proof. apply try_read_Ok; [apply read_uint_only|apply reader_safe_uint]. Qed.

(** The envelope shape [decode_material_v1] accepts. *)
Definition envelope (d : DecodedMaterialV1) : bytes :=
  frame (bytes_of_string CERTIFICATE_MARKER) ++ encode_uint CERTIFICATE_FORMAT_V1 ++
  frame (bytes_of_string KERNEL_PROFILE_V1) ++
  frame (as_bytes (digest (dec_verifier d))) ++ frame (as_bytes (digest (dec_context d))) ++
  frame (proposition_bytes d) ++ frame (term_payload d).

Lemma frame_part b pre post : are_bytes (pre ++ frame b ++ post) → len_ok (pre ++ frame b ++ post) →
  are_bytes b ∧ len_ok b.
Proof.
  unfold frame, len_ok. rewrite !Forall_app, !length_app. intros (_ & (_ & Hb) & _) Hl.
  split; [done|lia].
Qed.

Lemma decode_fields_sound r d r' :
  reader_ok r → decode_fields r = (Ok d, r') →
  remaining r = envelope d ∧ dec_verifier d = native_verifier ∧
  ∃ rest, term_payload d = frame (as_bytes (digest (dec_context d))) ++ rest.
Proof.
  intros Hok0 Hd. unfold decode_fields in Hd.
  apply ST_bind_Ok in Hd as (marker & r1 & E1 & Hd).
  apply read_bytes_step in E1 as [R1 Hok1]; [|done]. case_decide as D1; [done|].
  apply ST_bind_Ok in Hd as (version & r2 & E2 & Hd).
  apply read_uint_step in E2 as [R2 Hok2]; [|done]. case_decide as D2; [done|].
  apply ST_bind_Ok in Hd as (profile & r3 & E3 & Hd).
  apply read_bytes_step in E3 as [R3 Hok3]; [|done]. case_decide as D3; [done|].
  apply ST_bind_Ok in Hd as (verifier & r4 & E4 & Hd).
  apply read_digest_field_Ok in E4 as (R4 & Hok4 & _); [|done]. case_decide as D4; [done|].
  apply ST_bind_Ok in Hd as (ctx & r5 & E5 & Hd).
  apply read_digest_field_Ok in E5 as (R5 & Hok5 & _); [|done].
  apply ST_bind_Ok in Hd as (pb & r6 & E6 & Hd).
  apply read_bytes_step in E6 as [R6 Hok6]; [|done].
  apply ST_bind_Ok in Hd as (tb & r7 & E7 & Hd).
  apply read_bytes_step in E7 as [R7 Hok7]; [|done].
  apply ST_bind_Ok in Hd as (em & r8 & E8 & Hd). injection E8 as <- <-.
  destruct (reader_is_empty r7) eqn:Eemp; [|done]. cbn [negb] in Hd.
  apply reader_empty_iff in Eemp; [|done]. rewrite Eemp, app_nil_r in R7.
  apply ST_bind_Ok in Hd as (emb & r9 & E9 & Hd). unfold ST_lift in E9. injection E9 as E9 <-.
  case_decide as D5; [done|]. injection Hd as <- <-.
  subst marker version profile emb.
  unfold envelope. cbn [dec_verifier dec_context proposition_bytes term_payload digest].
  split_and!; [by rewrite R1, R2, R3, R4, R5, R6, R7|done|].
  destruct (read_digest_field (reader_new tb)) as [[dg|e] r10] eqn:E10; [|done].
  cbn [fst] in E9. injection E9 as ->.
  destruct Hok6 as (Hp6 & Hb6 & Hl6).
  assert (reader_ok (reader_new tb)) as Hokt.
  { pose proof (remaining_are_bytes r6 (conj Hp6 (conj Hb6 Hl6))) as Hrb.
    pose proof (length_remaining r6) as Hlen. rewrite R7 in Hrb, Hlen.
    destruct (frame_part tb [] []) as [? ?]; simpl; rewrite ?app_nil_r; [done|unfold len_ok; lia|].
    by apply reader_new_ok. }
  apply read_digest_field_Ok in E10 as [R10 _]; [|done]. by exists (remaining r10).
Qed.

Lemma header_reads :
  reads read_bytes (frame (bytes_of_string CERTIFICATE_MARKER)) (bytes_of_string CERTIFICATE_MARKER) ∧
  reads read_uint (encode_uint CERTIFICATE_FORMAT_V1) CERTIFICATE_FORMAT_V1 ∧
  reads read_bytes (frame (bytes_of_string KERNEL_PROFILE_V1)) (bytes_of_string KERNEL_PROFILE_V1).
Proof.
  split_and!; [apply read_bytes_reads|apply read_uint_reads|apply read_bytes_reads];
    [vm_compute; done|split; done|vm_compute; done].
Qed.

Lemma decode_fields_complete r (d : DecodedMaterialV1) rest :
  reader_ok r → remaining r = envelope d →
  dec_verifier d = native_verifier → id_ok (dec_verifier d) → id_ok (dec_context d) →
  term_payload d = frame (as_bytes (digest (dec_context d))) ++ rest →
  (decode_fields r).1 = Ok d.
Proof.
  intros Hok0 R0 Hv Hiv Hic Ht.
  assert (are_bytes (remaining r) ∧ len_ok (remaining r)) as [Hb0 Hl0].
  { split; [by apply remaining_are_bytes|]. unfold len_ok. rewrite length_remaining.
    destruct Hok0 as (_ & _ & ?). lia. }
  assert (∀ b pre post, remaining r = pre ++ frame b ++ post → reads read_bytes (frame b) b ∧ are_bytes b ∧ len_ok b) as Hfr.
  { intros b pre post Hr. destruct (frame_part b pre post) as [? Hlb]; [congruence..|].
    split_and!; [|done..]. apply read_bytes_reads. unfold len_ok in Hlb. int_lia. }
  unfold envelope in R0. unfold decode_fields, mbind, ST_bind.
  destruct header_reads as (Hm & Hv1 & Hp).
  destruct (try_read_reads read_bytes _ r _ _ Hm Hok0 R0) as (r1 & -> & Hok1 & R1).
  rewrite decide_False by (intros Hn; by apply Hn).
  destruct (try_read_reads read_uint _ r1 _ _ Hv1 Hok1 R1) as (r2 & -> & Hok2 & R2).
  rewrite decide_False by (intros Hn; by apply Hn).
  destruct (try_read_reads read_bytes _ r2 _ _ Hp Hok2 R2) as (r3 & -> & Hok3 & R3).
  rewrite decide_False by (intros Hn; by apply Hn).
  destruct (read_digest_field_reads r3 _ _ Hiv Hok3 R3) as (r4 & -> & Hok4 & R4).
  rewrite decide_False by (intros Hn; apply Hn; rewrite <-Hv; by destruct (dec_verifier d)).
  destruct (read_digest_field_reads r4 _ _ Hic Hok4 R4) as (r5 & -> & Hok5 & R5).
  destruct (Hfr (proposition_bytes d) (frame (bytes_of_string CERTIFICATE_MARKER) ++
    encode_uint CERTIFICATE_FORMAT_V1 ++ frame (bytes_of_string KERNEL_PROFILE_V1) ++
    frame (as_bytes (digest (dec_verifier d))) ++ frame (as_bytes (digest (dec_context d))))
    (frame (term_payload d))) as [Hrp _]; [by rewrite R0, <-!app_assoc|].
  destruct (try_read_reads read_bytes _ r5 _ _ Hrp Hok5 R5) as (r6 & -> & Hok6 & R6).
  destruct (Hfr (term_payload d) (frame (bytes_of_string CERTIFICATE_MARKER) ++
    encode_uint CERTIFICATE_FORMAT_V1 ++ frame (bytes_of_string KERNEL_PROFILE_V1) ++
    frame (as_bytes (digest (dec_verifier d))) ++ frame (as_bytes (digest (dec_context d))) ++
    frame (proposition_bytes d)) []) as (Hrt & Hbt & Hlt);
    [by rewrite R0, <-!app_assoc, app_nil_r|].
  rewrite <-(app_nil_r (frame (term_payload d))) in R6.
  destruct (try_read_reads read_bytes _ r6 _ _ Hrt Hok6 R6) as (r7 & -> & Hok7 & R7).
  unfold at_end. rewrite (proj2 (reader_empty_iff r7 Hok7) R7). cbn [negb].
  unfold ST_lift.
  destruct (read_digest_field_reads (reader_new (term_payload d)) (digest (dec_context d)) rest)
    as (r8 & -> & _); [done|by apply reader_new_ok|done|].
  cbn [fst]. rewrite decide_False by (intros Hn; by apply Hn).
  destruct d as [v c p t]. unfold mret, ST_ret. simpl. do 2 f_equal; [by destruct v|by destruct c].
Qed.
End certificate.

(** Artifacts whose identities and sizes are representable. *)
Definition material_ok (m : CertificateMaterialV1) : Prop :=
  id_ok (mat_context m) ∧ prop_ok (mat_proposition m) ∧ term_ok (mat_term m) ∧
  len_ok (canon_bytes (mat_proposition m)) ∧ len_ok (canon_bytes (mat_term m)).

Lemma encode_material_inj `{Blake3Laws} m1 m2 :
  material_ok m1 → material_ok m2 → encode_material_v1 m1 = encode_material_v1 m2 → m1 = m2.
Proof.
  intros (Hc1 & Hp1 & Ht1 & Hlp1 & Hlt1) (Hc2 & Hp2 & Ht2 & Hlp2 & Hlt2) Heq.
  rewrite !encode_material_bytes in Heq. do 4 apply app_inv_head in Heq.
  apply id_frame_inj in Heq as [Hc Heq]; [|done..].
  apply prefix_free_frame in Heq as [Hp Heq]; [|done..].
  rewrite <-(app_nil_r (frame (canon_bytes (mat_term m1)))),
    <-(app_nil_r (frame (canon_bytes (mat_term m2)))) in Heq.
  apply prefix_free_frame in Heq as [Ht _]; [|done..].
  apply (prefix_free_inj prop_ok canon_bytes) in Hp; [|done..].
  apply (prefix_free_inj term_ok canon_bytes) in Ht; [|done..].
  destruct m1, m2; simpl in *. congruence.
Qed.

(** * Properties *)

(** Envelope validation is exact. [validate_material_v1] accepts a byte string
    precisely when it is the encoding of the expected artifacts and the term's own
    context is the expected one; the identity it returns is then the certificate's.
    Truncated, misaligned, trailing, foreign or re-encoded bytes are all errors. *)
Theorem certificate_validation_exact `{Blake3Laws} (b : bytes) (expected : CertificateMaterialV1) id :
  are_bytes b → len_ok b → id_ok (mat_context expected) →
  validate_material_v1 b expected = Ok id ↔
  b = encode_material_v1 expected ∧ context (mat_term expected) = mat_context expected ∧
  id = certificate_id_v1 expected.
Proof.
  intros Hb Hl Hic. unfold validate_material_v1. split.
  - intros Hv. apply result_bind_Ok in Hv as (d & Hd & Hv).
    unfold decode_material_v1 in Hd. destruct (decode_fields (reader_new b)) as [res r'] eqn:E.
    simpl in Hd. subst res.
    apply decode_fields_sound in E as (Hb' & Hver & rest & Ht); [|by apply reader_new_ok].
    repeat (case_decide; [done|]). injection Hv as <-. simplify_eq.
    assert (b = encode_material_v1 expected) as ->.
    { change b with (remaining (reader_new b)). rewrite Hb', encode_material_bytes.
      unfold envelope. congruence. }
    split_and!; [done| |done].
    assert (term_payload d = canon_bytes (mat_term expected)) as Hpay by congruence.
    rewrite Ht, term_bytes, canon_bytes_Id in Hpay.
    assert (dec_context d = mat_context expected) as Hc by congruence. rewrite Hc in *.
    apply prefix_free_frame in Hpay as [Hpay _].
    + apply (inj as_bytes), (inj digest) in Hpay. done.
    + destruct Hic as [Hic _]. unfold len_ok. rewrite Hic. int_lia.
    + rewrite encode_material_bytes, term_bytes, canon_bytes_Id in Hl.
      unfold len_ok, frame in *. rewrite !length_app in Hl. lia.
  - intros (-> & Hc & ->).
    set (d := mkDecoded native_verifier (mat_context expected)
                (canon_bytes (mat_proposition expected)) (canon_bytes (mat_term expected))).
    assert (decode_material_v1 (encode_material_v1 expected) = Ok d) as ->.
    { apply (decode_fields_complete _ d (canon_bytes (kind (mat_term expected)))).
      - by apply reader_new_ok.
      - apply encode_material_bytes.
      - done.
      - apply from_canon_ok.
      - done.
      - cbn [d dec_context term_payload]. by rewrite <-Hc, <-canon_bytes_Id, <-term_bytes. }
    cbn [mbind result_bind d dec_context proposition_bytes term_payload].
    do 3 (rewrite decide_False by (intros Hn; by apply Hn)). done.
Qed.

Definition demo_material : CertificateMaterialV1 :=
  mkMaterial (demo_id 1) (Impl (Atom (demo_id 2)) (Atom (demo_id 2)))
    (mkTerm (demo_id 1) (Lam (Some "h") (Hyp (Index 0)))).

Lemma certificate_validation_exact_witness :
  @validate_material_v1 demo_hash (@encode_material_v1 demo_hash demo_material) demo_material =
  Ok (@certificate_id_v1 demo_hash demo_material).
Proof.
  apply (proj2 (@certificate_validation_exact demo_hash demo_hash_laws
    (@encode_material_v1 demo_hash demo_material) demo_material
    (@certificate_id_v1 demo_hash demo_material)
    ltac:(apply (bool_decide_unpack _); vm_compute; exact I)
    ltac:(vm_compute; reflexivity)
    (demo_id_ok 1 ltac:(done)))).
  split; [reflexivity|split; reflexivity].
Defined.

(** A certificate identity names one acceptance. Two materials with the same
    [certificate_id_v1] have the same context, proposition and proof term, or the two
    messages hashed for them collide. *)
Theorem certificate_id_binds `{Blake3Laws} m1 m2 :
  material_ok m1 → material_ok m2 → certificate_id_v1 m1 = certificate_id_v1 m2 →
  m1 = m2 ∨ collision (message (encode_material_v1 m1)) (message (encode_material_v1 m2)).
Proof.
  intros H1 H2 Heq. apply from_canon_inj in Heq as [Heq|?]; [left|by right].
  by apply encode_material_inj.
Qed.

Lemma certificate_id_binds_witness :
  demo_material = demo_material ∨
  @collision demo_hash (message (@encode_material_v1 demo_hash demo_material))
    (message (@encode_material_v1 demo_hash demo_material)).
Proof.
  assert (material_ok demo_material) as Hm.
  { unfold material_ok, term_ok, demo_material; cbn; split_and!;
      first [by apply demo_id_ok | by vm_compute]. }
  apply (@certificate_id_binds demo_hash demo_hash_laws _ _ Hm Hm). reflexivity.
Defined.
