(* ===== verification/KernelCheck.v ===== *)
(** The bidirectional checker of the proof kernel (src/crates/brix-kernel/src/:
    check.rs, verdict.rs).

    A checker function is an [ST] computation over [CheckerState]: the remaining
    steps and depth, and the hypothesis stack [gamma] (innermost first: the end of
    the code's vector). [check_rule] and [infer_rule] take the two checkers they
    call as arguments; [check_spine] and [infer_type] tie the knot on fuel. Each
    level consumes a step before it recurses, so fuel equal to the steps left is
    exact ([fuel_irrelevant]); [acceptance] starts with [max_steps]. A [format!]
    string is the list of its pieces. *)
From S2P Require Import Prelude IntCodec Canon CanonLaws Witness Encoding KernelTerm KernelPrim.
From S2P Require Import Certificate Outcome.

(** ** verdict.rs *)

Inductive Piece : Type :=
  | PText (s : string)
  | PProp (p : Prp)
  | PObj (t : ObjectTerm)
  | PNat (n : nat).
Abbreviation Msg := (list Piece).

Record KernelCertificate : Type := mkCertificate {
  verifier : VerifierId;
  certificate_id : CertificateId
}.

Inductive RejectionReason : Type :=
  | TypeMismatch (expected found : Msg)
  | HypothesisNotFound (m : Msg)
  | ProofGoalNotReached
  | RejectionCustom (m : Msg)
  | UnknownPrimitiveRelation (hex : string)
  | PrimitiveRowNotFound (relation src dst : string).

Inductive UnsupportedConstruct : Type :=
  | UExistential
  | UEquality
  | UTransformationPreservation
  | UCut
  | UGeneralRecursion
  | UConstruct (name : string).

Inductive ResourceBudgetReason : Type :=
  | StepLimitExceeded
  | DepthLimitExceeded
  | ResourceCustom (m : Msg).

Inductive Verdict : Type :=
  | Accepted (c : KernelCertificate)
  | Rejected (r : RejectionReason)
  | Malformed (m : Msg)
  | UnsupportedV (u : UnsupportedConstruct)
  | ContextMismatch (claimed term_context : ContextId)
  | ResourceExhausted (r : ResourceBudgetReason).

Definition outcome (v : Verdict) : option Outcome :=
  match v with
  | Accepted _ => Some Proven
  | ResourceExhausted _ => Some Unknown
  | Rejected _ | Malformed _ | UnsupportedV _ | ContextMismatch _ _ => None
  end.

(** ** check.rs: budget and state *)

Record Budget : Type := mkBudget { max_steps : nat; max_depth : nat }.

Abbreviation Gamma := (list (option string * Prp)).

Record CheckerState : Type := mkState {
  steps : nat;
  depth : nat;
  gamma : Gamma
}.

Abbreviation Check A := (ST CheckerState Verdict A).

Definition step : Check unit := λ s,
  match steps s with
  | O => (Err (ResourceExhausted StepLimitExceeded), s)
  | S n => (Ok tt, mkState n (depth s) (gamma s))
  end.

Definition enter_depth : Check unit := λ s,
  match depth s with
  | O => (Err (ResourceExhausted DepthLimitExceeded), s)
  | S n => (Ok tt, mkState (steps s) n (gamma s))
  end.

Definition leave_depth (n : nat) (s : CheckerState) : CheckerState :=
  mkState (steps s) (depth s + n) (gamma s).

Definition push (h : option string * Prp) (s : CheckerState) : CheckerState :=
  mkState (steps s) (depth s) (h :: gamma s).
Definition pop (s : CheckerState) : CheckerState :=
  mkState (steps s) (depth s) (tail (gamma s)).

(** [gamma.push(h); let res = m; gamma.pop(); res]. *)
Definition with_hyp {A} (h : option string * Prp) (m : Check A) : Check A := λ s,
  let '(res, s') := m (push h s) in (res, pop s').

(** [state.leave_depth(n)] on every exit of [m]. *)
Definition leaving {A} (n : nat) (m : Check A) : Check A := λ s,
  let '(res, s') := m s in (res, leave_depth n s').

Definition get_gamma : Check Gamma := λ s, (Ok (gamma s), s).
Definition get_steps : Check nat := λ s, (Ok (steps s), s).

(** ** Occurrence of an object term *)

Fixpoint obj_term_contains (term target : ObjectTerm) : bool :=
  if decide (term = target) then true
  else match term with
  | Compose g2 g1 => obj_term_contains g2 target || obj_term_contains g1 target
  | Tensor l r => obj_term_contains l target || obj_term_contains r target
  | _ => false
  end.

Fixpoint prop_contains_obj_term (prop : Prp) (target : ObjectTerm) : bool :=
  match prop with
  | Atom _ => false
  | Impl p1 p2 | Prod p1 p2 | Sum p1 p2 =>
    prop_contains_obj_term p1 target || prop_contains_obj_term p2 target
  | Eqn t1 t2 => obj_term_contains t1 target || obj_term_contains t2 target
  | Exists body => prop_contains_obj_term body target
  | Applied _ args => existsb (λ arg, obj_term_contains arg target) args
  | Realizes w x y =>
    obj_term_contains w target || obj_term_contains x target || obj_term_contains y target
  | Preserves w motive => obj_term_contains w target || prop_contains_obj_term motive target
  end.

Definition mismatch {A} (expected found : Msg) : Check A :=
  ST_throw (Rejected (TypeMismatch expected found)).

(** [match t { Exists(pred) => pred, other => return Err(..) }]. *)
Definition expect_exists (t : Prp) : Check Prp :=
  match t with
  | Exists pred => mret pred
  | other => mismatch [PText "Exists(pred)"] [PProp other]
  end.

Definition expect_realizes (label : string) (t : Prp) : Check (ObjectTerm * ObjectTerm * ObjectTerm) :=
  match t with
  | Realizes w x y => mret (w, x, y)
  | other => mismatch [PText label] [PProp other]
  end.

Definition expect_product (t : Prp) : Check (Prp * Prp) :=
  match t with
  | Prod p1 p2 => mret (p1, p2)
  | other => mismatch [PText "Product (P x Q)"] [PProp other]
  end.

(** The name-freshness check of a bound hypothesis. *)
Definition check_name (v : option string) : Check unit :=
  match v with
  | None => mret tt
  | Some name =>
    g ← get_gamma;
    if existsb (λ h : option string * Prp, bool_decide (h.1 = Some name)) g then
      ST_throw (Malformed [PText "Eigenvariable freshness condition failed: '"; PText name;
                           PText "' already present in context"])
    else mret tt
  end.

Definition witness_escape {A} : Check A :=
  ST_throw (Malformed
    [PText "Eigenvariable witness escape: eigenvariable occurs free in conclusion"]).

Section check.
Context `{Blake3}.

(** The constant minted for an unpacked object variable. *)
Definition eigen_id (obj_var : option string) (steps : nat) : PropositionId :=
  from_canon (bytes_of_string
    ("eigenvar:" +:+ default "anon" obj_var +:+ ":" +:+ pretty steps)).

Definition fresh_eigen (obj_var : option string) : Check ObjectTerm :=
  n ← get_steps; mret (Const (eigen_id obj_var n)).

(** (PrimRealizes) *)
Definition infer_prim_realizes (relation : PrimitiveRelationId) (src dst : ObjectTerm) :
    result Verdict Prp :=
  match resolve relation with
  | None => Err (Rejected (UnknownPrimitiveRelation (to_hex (digest relation))))
  | Some resolved =>
    match src, dst with
    | Const src_id, Const dst_id =>
      if negb (admits resolved src_id dst_id) then
        Err (Rejected (PrimitiveRowNotFound (to_hex (digest relation))
                         (to_hex (digest src_id)) (to_hex (digest dst_id))))
      else Ok (Realizes (Const (mkId (digest (generator resolved)))) src dst)
    | _, _ =>
      Err (Rejected (TypeMismatch [PText "PrimRealizes endpoints as object constants"]
                       [PText "("; PObj src; PText ", "; PObj dst; PText ")"]))
    end
  end.

(** ** The rules, over the two checkers they call *)

Section rules.
Context (check_type : TermKind → Prp → Check unit) (infer_type : TermKind → Check Prp).

(** The non-(→I) rules of [check_type]. *)
Definition check_rule (kind : TermKind) (expected : Prp) : Check unit :=
  match kind, expected with
  | Refl t, Eqn a b =>
    if decide (a = b ∧ a = t) then mret tt
    else mismatch [PProp expected] [PText "Refl("; PObj t; PText ")"]
  | Pack witness body_proof, Exists pred =>
    check_type body_proof (instantiate pred witness)
  | Unpack scrutinee obj_var proof_var body, _ =>
    scrut_type ← infer_type scrutinee;
    pred ← expect_exists scrut_type;
    check_name proof_var ;;
    fresh_x ← fresh_eigen obj_var;
    if prop_contains_obj_term expected fresh_x then witness_escape
    else with_hyp (proof_var, instantiate pred fresh_x) (check_type body expected)
  | Pair p q, Prod p1 p2 => check_type p p1 ;; check_type q p2
  | Inl inner, Sum p1 _ => check_type inner p1
  | Inr inner, Sum _ p2 => check_type inner p2
  | Case discriminant left_var left_body right_var right_body, _ =>
    disc_type ← infer_type discriminant;
    match disc_type with
    | Sum p1 p2 =>
      check_name left_var ;;
      check_name right_var ;;
      with_hyp (left_var, p1) (check_type left_body expected) ;;
      with_hyp (right_var, p2) (check_type right_body expected)
    | other => mismatch [PText "Sum (P + Q)"] [PProp other]
    end
  | RealizesComp l r, Realizes w x z =>
    left_type ← infer_type l;
    '(g1, xl, y) ← expect_realizes "Realizes(g1, x, y)" left_type;
    right_type ← infer_type r;
    '(g2, ys, z2) ← expect_realizes "Realizes(g2, y, z)" right_type;
    if decide (xl ≠ x) then
      mismatch [PText "Source endpoint "; PObj x] [PObj xl]
    else if decide (y ≠ ys) then
      mismatch [PText "Middle endpoint matching "; PObj y] [PObj ys]
    else if decide (z2 ≠ z) then
      mismatch [PText "Target endpoint "; PObj z] [PObj z2]
    else if decide (witness_digest w ≠ compose (witness_digest g2) (witness_digest g1)) then
      mismatch [PText "Witness "; PObj (Compose g2 g1)] [PObj w]
    else mret tt
  | RealizesTensor l r, Realizes w x z =>
    left_type ← infer_type l;
    '(w1, x1, y1) ← expect_realizes "Realizes(w1, x1, y1)" left_type;
    right_type ← infer_type r;
    '(w2, x2, y2) ← expect_realizes "Realizes(w2, x2, y2)" right_type;
    if decide (x ≠ Tensor x1 x2) then
      mismatch [PText "Source endpoint "; PObj (Tensor x1 x2)] [PObj x]
    else if decide (z ≠ Tensor y1 y2) then
      mismatch [PText "Target endpoint "; PObj (Tensor y1 y2)] [PObj z]
    else if decide (witness_digest w ≠ tensor (witness_digest w1) (witness_digest w2)) then
      mismatch [PText "Witness "; PObj (Tensor w1 w2)] [PObj w]
    else mret tt
  | Unsupported msg, _ => ST_throw (UnsupportedV (UConstruct msg))
  | _, _ =>
    inferred ← infer_type kind;
    if decide (inferred = expected) then mret tt
    else mismatch [PProp expected] [PProp inferred]
  end.

Definition infer_hyp (var : Var) : Check Prp :=
  g ← get_gamma;
  match var with
  | Index idx =>
    match g !! idx with
    | Some (_, prop) => mret prop
    | None =>
      ST_throw (Rejected (HypothesisNotFound
        [PText "Index "; PNat idx; PText " out of bounds (context depth "; PNat (length g);
         PText ")"]))
    end
  | Named name =>
    match list_find (λ h : option string * Prp, h.1 = Some name) g with
    | Some (_, (_, prop)) => mret prop
    | None =>
      ST_throw (Rejected (HypothesisNotFound
        [PText "Variable '"; PText name; PText "' not found in context"]))
    end
  end.

Definition infer_subst (eq : TermKind) (motive : Prp) (sub : TermKind) : Check Prp :=
  eq_type ← infer_type eq;
  match eq_type with
  | Eqn a b =>
    check_type sub (instantiate motive a) ;;
    mret (instantiate motive b)
  | other => mismatch [PText "Eq(a, b)"] [PProp other]
  end.

Definition infer_unpack (scrutinee : TermKind) (obj_var proof_var : option string)
    (body : TermKind) : Check Prp :=
  scrut_type ← infer_type scrutinee;
  pred ← expect_exists scrut_type;
  check_name proof_var ;;
  fresh_x ← fresh_eigen obj_var;
  body_type ← with_hyp (proof_var, instantiate pred fresh_x) (infer_type body);
  if prop_contains_obj_term body_type fresh_x then witness_escape
  else mret body_type.

Definition infer_pres (realizes preserves : TermKind) (motive : Prp) (sub : TermKind) : Check Prp :=
  realizes_type ← infer_type realizes;
  '(w, x, y) ← expect_realizes "Realizes(w, x, y)" realizes_type;
  check_type preserves (Preserves w motive) ;;
  check_type sub (instantiate motive x) ;;
  mret (instantiate motive y).

(** One term of the right spine: its witness and target, its source being the
    current middle endpoint. *)
Definition spine_leaf (y_curr : ObjectTerm) (k : TermKind) : Check (ObjectTerm * ObjectTerm) :=
  l_type ← infer_type k;
  '(g, ys, y_next) ← expect_realizes "Realizes(g, y, z)" l_type;
  if decide (y_curr ≠ ys) then
    mismatch [PText "Middle endpoint matching "; PObj y_curr] [PObj ys]
  else mret (g, y_next).

(** The loop along the right spine; [witnesses] in the order they are pushed. The
    depth units it has taken are [depth_taken]. *)
Fixpoint comp_spine (curr_left curr_right : TermKind) (y_curr : ObjectTerm)
    (witnesses : list ObjectTerm) (depth_taken : nat) :
    Check (list ObjectTerm * ObjectTerm * ObjectTerm) := λ s,
  match (step ;; enter_depth) s with
  | (Err v, s') => (Err v, leave_depth depth_taken s')
  | (Ok _, s2) =>
    let depth_taken := S depth_taken in
    match spine_leaf y_curr curr_left s2 with
    | (Err v, s') => (Err v, leave_depth depth_taken s')
    | (Ok (g_l, y_curr), s3) =>
      let witnesses := witnesses ++ [g_l] in
      match curr_right with
      | RealizesComp nl nr => comp_spine nl nr y_curr witnesses depth_taken s3
      | _ =>
        match spine_leaf y_curr curr_right s3 with
        | (Err v, s') => (Err v, leave_depth depth_taken s')
        | (Ok (g_r, z), s4) => (Ok (witnesses, g_r, z), leave_depth depth_taken s4)
        end
      end
    end
  end.

Definition infer_realizes_comp (l r : TermKind) : Check Prp :=
  left_type ← infer_type l;
  '(g_left, xl, y_curr) ← expect_realizes "Realizes(g1, x, y)" left_type;
  match r with
  | RealizesComp next_left next_right =>
    '(witnesses, final_witness, final_z) ← comp_spine next_left next_right y_curr [g_left] 0;
    mret (Realizes (fold_left Compose (reverse witnesses) final_witness) xl final_z)
  | _ =>
    right_type ← infer_type r;
    '(g2, ys, z2) ← expect_realizes "Realizes(g2, y, z)" right_type;
    if decide (y_curr ≠ ys) then
      mismatch [PText "Middle endpoint matching "; PObj y_curr] [PObj ys]
    else mret (Realizes (Compose g2 g_left) xl z2)
  end.

Definition infer_realizes_tensor (l r : TermKind) : Check Prp :=
  left_type ← infer_type l;
  '(w1, x1, y1) ← expect_realizes "Realizes(w1, x1, y1)" left_type;
  right_type ← infer_type r;
  '(w2, x2, y2) ← expect_realizes "Realizes(w2, x2, y2)" right_type;
  mret (Realizes (Tensor w1 w2) (Tensor x1 x2) (Tensor y1 y2)).

Definition infer_rule (kind : TermKind) : Check Prp :=
  match kind with
  | Hyp var => infer_hyp var
  | Refl t => mret (Eqn t t)
  | Subst eq motive sub => infer_subst eq motive sub
  | Unpack scrutinee obj_var proof_var body => infer_unpack scrutinee obj_var proof_var body
  | Pres realizes preserves motive sub => infer_pres realizes preserves motive sub
  | App function argument =>
    fun_type ← infer_type function;
    match fun_type with
    | Impl param_type result_type =>
      check_type argument param_type ;; mret result_type
    | other => mismatch [PText "Implication (P -> Q)"] [PProp other]
    end
  | Proj1 inner =>
    inner_type ← infer_type inner;
    '(p1, _) ← expect_product inner_type; mret p1
  | Proj2 inner =>
    inner_type ← infer_type inner;
    '(_, p2) ← expect_product inner_type; mret p2
  | Pair p q =>
    p1 ← infer_type p;
    p2 ← infer_type q;
    mret (Prod p1 p2)
  | RealizesComp l r => infer_realizes_comp l r
  | RealizesTensor l r => infer_realizes_tensor l r
  | PrimRealizes relation src dst => ST_lift (infer_prim_realizes relation src dst)
  | Unsupported msg => ST_throw (UnsupportedV (UConstruct msg))
  | _ => ST_throw (Rejected ProofGoalNotReached)
  end.

End rules.

(** ** Tying the knot *)

(** [check_type] around the spine loop: all hypotheses pushed are popped and all
    depth units taken are given back, whatever the outcome. *)
Definition check_of
    (spine : TermKind → Prp → nat → nat → CheckerState →
             result Verdict unit * nat * nat * CheckerState)
    (kind : TermKind) (expected : Prp) : Check unit := λ s,
  let '(outcome, depth_taken, pushed, s') := spine kind expected 0 0 s in
  (outcome, leave_depth depth_taken (Nat.iter pushed pop s')).

Fixpoint check_spine (fuel : nat) (kind : TermKind) (expected : Prp)
    (depth_taken pushed : nat) (s : CheckerState) :
    result Verdict unit * nat * nat * CheckerState :=
  match fuel with
  | O => (Err (ResourceExhausted StepLimitExceeded), depth_taken, pushed, s)
  | S fuel' =>
    match step s with
    | (Err v, s1) => (Err v, depth_taken, pushed, s1)
    | (Ok _, s1) =>
    match enter_depth s1 with
    | (Err v, s2) => (Err v, depth_taken, pushed, s2)
    | (Ok _, s2) =>
      let depth_taken := S depth_taken in
      match kind, expected with
      | Lam var_name body, Impl param_prop result_prop =>
        check_spine fuel' body result_prop depth_taken (S pushed) (push (var_name, param_prop) s2)
      | _, _ =>
        let '(outcome, s3) :=
          check_rule (check_of (check_spine fuel')) (infer_type fuel') kind expected s2 in
        (outcome, depth_taken, pushed, s3)
      end
    end
    end
  end
with infer_type (fuel : nat) (kind : TermKind) (s : CheckerState) : result Verdict Prp * CheckerState :=
  match fuel with
  | O => (Err (ResourceExhausted StepLimitExceeded), s)
  | S fuel' =>
    (step ;; enter_depth ;;
     leaving 1 (infer_rule (check_of (check_spine fuel')) (infer_type fuel') kind)) s
  end.

Definition check_type (fuel : nat) : TermKind → Prp → Check unit := check_of (check_spine fuel).

Definition acceptance (ctx : ContextId) (proposition : Prp) (term : ExplicitTerm)
    (budget : Budget) : Verdict :=
  if decide (context term ≠ ctx) then ContextMismatch ctx (context term)
  else
    match (check_type (max_steps budget) (kind term) proposition
             (mkState (max_steps budget) (max_depth budget) [])).1 with
    | Ok _ => Accepted (mkCertificate native_verifier
                          (certificate_id_v1 (mkMaterial ctx proposition term)))
    | Err verdict => verdict
    end.
End check.
