(* ===== verification/KernelMeta.v ===== *)
(** The checker's discipline (src/crates/brix-kernel/src/check.rs).

    Every checker function restores the hypothesis stack and the depth it found,
    on every exit, and never gains steps ([good]); the λ-spine loop is the
    recursive introduction rule ([check_type_eq]); the result does not depend on
    the fuel once it covers the steps ([fuel_irrelevant]). *)
From S2P Require Import Prelude IntCodec Canon CanonLaws Witness Encoding KernelTerm KernelPrim.
From S2P Require Import Certificate Outcome KernelCheck.

Definition good {A} (m : Check A) : Prop := ∀ s,
  steps (m s).2 ≤ steps s ∧ depth (m s).2 = depth s ∧ gamma (m s).2 = gamma s.

(** The two computations agree on states with at most [N] steps left. *)
Definition agree {A} (N : nat) (m1 m2 : Check A) : Prop := ∀ s, steps s ≤ N → m1 s = m2 s.

Lemma good_ret {A} (a : A) : good (mret a).
Proof. by intros s. Qed.
Lemma good_throw {A} v : good (ST_throw v : Check A).
Proof. by intros s. Qed.
Lemma good_lift {A} (r : result Verdict A) : good (ST_lift r).
Proof. by intros s. Qed.
Lemma good_get_gamma : good get_gamma.
Proof. by intros s. Qed.
Lemma good_get_steps : good get_steps.
Proof. by intros s. Qed.

Lemma good_bind {A B} (m : Check A) (f : A → Check B) :
  good m → (∀ a, good (f a)) → good (m ≫= f).
Proof.
  intros Hm Hf s. unfold mbind, ST_bind. specialize (Hm s).
  destruct (m s) as [[a|e] s1]; simpl in *; [|done].
  destruct Hm as (? & ? & ?), (Hf a s1) as (? & ? & ?). split_and!; [lia|congruence|congruence].
Qed.

Lemma good_with_hyp {A} h (m : Check A) : good m → good (with_hyp h m).
Proof.
  intros Hm s. unfold with_hyp. specialize (Hm (push h s)).
  destruct (m (push h s)) as [r s1]; simpl in *. destruct Hm as (? & ? & Hg).
  by rewrite Hg.
Qed.

(** Taking a step and a depth unit around a good computation. *)
Lemma good_level {A} (m : Check A) : good m → good (step ;; enter_depth ;; leaving 1 m).
Proof.
  intros Hm s. unfold mbind, ST_bind, step, enter_depth, leaving.
  destruct (steps s) as [|n] eqn:Es; [by simpl; rewrite Es|]. simpl.
  destruct (depth s) as [|d] eqn:Ed; simpl; [split_and!; [lia|done..]|].
  specialize (Hm (mkState n d (gamma s))). destruct (m _) as [r s1]. simpl in *.
  destruct Hm as (? & ? & ?). split_and!; [lia|lia|done].
Qed.

Lemma agree_refl {A} N (m : Check A) : agree N m m.
Proof. by intros s. Qed.

Lemma agree_bind {A B} N (m1 m2 : Check A) (f1 f2 : A → Check B) :
  agree N m1 m2 → good m1 → (∀ a, agree N (f1 a) (f2 a)) → agree N (m1 ≫= f1) (m2 ≫= f2).
Proof.
  intros Hm Hg Hf s Hs. unfold mbind, ST_bind. rewrite <-(Hm s Hs). specialize (Hg s).
  destruct (m1 s) as [[a|e] s1]; simpl in *; [|done]. apply Hf. lia.
Qed.

Lemma agree_with_hyp {A} N h (m1 m2 : Check A) :
  agree N m1 m2 → agree N (with_hyp h m1) (with_hyp h m2).
Proof. intros Hm s Hs. unfold with_hyp. by rewrite (Hm (push h s) Hs). Qed.

Lemma agree_level {A} N (m1 m2 : Check A) :
  agree N m1 m2 →
  agree (S N) (step ;; enter_depth ;; leaving 1 m1) (step ;; enter_depth ;; leaving 1 m2).
Proof.
  intros Hm s Hs. unfold mbind, ST_bind, step, enter_depth, leaving.
  destruct (steps s) as [|n] eqn:Es; [done|]. simpl.
  destruct (depth s) as [|d]; [done|]. rewrite Hm by (simpl; lia). done.
Qed.

Lemma good_expect_exists t : good (expect_exists t).
Proof. by destruct t. Qed.
Lemma good_expect_realizes l t : good (expect_realizes l t).
Proof. by destruct t. Qed.
Lemma good_expect_product t : good (expect_product t).
Proof. by destruct t. Qed.

Lemma good_check_name v : good (check_name v).
Proof.
  destruct v as [name|]; [|apply good_ret]. apply good_bind; [apply good_get_gamma|].
  intros g. destruct (existsb _ g); [apply good_throw|apply good_ret].
Qed.

Create HintDb check.
#[export] Hint Resolve good_ret good_throw good_lift good_get_gamma good_get_steps
  good_expect_exists good_expect_realizes good_expect_product good_check_name
  good_with_hyp agree_refl agree_with_hyp : check.

(** Decomposes a computation along its binds and case distinctions. *)
Ltac walk :=
  repeat first
    [ progress intros
    | solve [auto with check]
    | apply good_bind | apply agree_bind
    | apply good_with_hyp | apply agree_with_hyp
    | case_decide
    | match goal with
      | |- context [match ?x with _ => _ end] => destruct x
      end ].

Section meta.
Context `{Blake3}.

Lemma good_fresh_eigen v : good (fresh_eigen v).
Proof. apply good_bind; auto with check. Qed.
#[local] Hint Resolve good_fresh_eigen : check.

Lemma good_check_rule chk inf kind expected :
  (∀ k p, good (chk k p)) → (∀ k, good (inf k)) →
  good (check_rule chk inf kind expected).
Proof. intros Hc Hi. unfold check_rule, mismatch, witness_escape. destruct kind; walk. Qed.

Lemma good_spine_leaf inf y k : (∀ k, good (inf k)) → good (spine_leaf inf y k).
Proof. intros Hi. unfold spine_leaf, mismatch. walk. Qed.
#[local] Hint Resolve good_spine_leaf : check.

(** Where the loop's first two operations lead. *)
Lemma level_entry s :
  (step ;; enter_depth) s =
    match steps s, depth s with
    | O, _ => (Err (ResourceExhausted StepLimitExceeded), s)
    | S n, O => (Err (ResourceExhausted DepthLimitExceeded), mkState n 0 (gamma s))
    | S n, S d => (Ok tt, mkState n d (gamma s))
    end.
Proof.
  unfold mbind, ST_bind, step. destruct (steps s); [done|].
  unfold enter_depth. cbn [depth]. by destruct (depth s).
Qed.

(** The spine gives back the units it was handed and those it takes. *)
Lemma good_comp_spine inf cl cr y ws dt s :
  (∀ k, good (inf k)) →
  let r := comp_spine inf cl cr y ws dt s in
  steps r.2 ≤ steps s ∧ depth r.2 = depth s + dt ∧ gamma r.2 = gamma s.
Proof.
  intros Hi. revert cl y ws dt s.
  induction cr; intros cl y ws dt s; cbn [comp_spine]; rewrite level_entry;
    (destruct (steps s) as [|n] eqn:Es; [simpl; split_and!; [lia|lia|done]|]);
    (destruct (depth s) as [|d] eqn:Ed; [simpl; split_and!; [lia|lia|done]|]);
    (destruct (good_spine_leaf inf y cl Hi (mkState n d (gamma s))) as (Hm1 & Hm2 & Hm3);
     cbn [steps depth gamma] in Hm1, Hm2, Hm3;
     destruct (spine_leaf inf y cl (mkState n d (gamma s))) as [[[gl y1]|v] s3]; cbn [fst snd] in *;
     [|simpl; split_and!; [lia|lia|done]]).
  16: { specialize (IHcr2 cr1 y1 (ws ++ [gl]) (S dt) s3). simpl in IHcr2.
        destruct IHcr2 as (? & ? & ?). split_and!; [lia|lia|congruence]. }
  all: match goal with |- context [spine_leaf ?i ?y' ?k ?st] =>
      destruct (good_spine_leaf i y' k Hi st) as (? & ? & ?);
      destruct (spine_leaf i y' k st) as [[[g z]|v] s4]; simpl in *;
      (split_and!; [lia|lia|congruence])
    end.
Qed.

Lemma good_infer_rule chk inf kind :
  (∀ k p, good (chk k p)) → (∀ k, good (inf k)) → good (infer_rule chk inf kind).
Proof.
  intros Hc Hi. assert (∀ cl cr y ws, good (comp_spine inf cl cr y ws 0)) as Hs.
  { intros cl cr y ws s. destruct (good_comp_spine inf cl cr y ws 0 s Hi) as (? & ? & ?).
    split_and!; [done|lia|done]. }
  unfold infer_rule, infer_hyp, infer_subst, infer_unpack, infer_pres, infer_realizes_comp,
    infer_realizes_tensor, mismatch, witness_escape.
  destruct kind; walk.
Qed.

Lemma agree_check_rule N c1 c2 i1 i2 kind expected :
  (∀ k p, agree N (c1 k p) (c2 k p)) → (∀ k, agree N (i1 k) (i2 k)) →
  (∀ k p, good (c1 k p)) → (∀ k, good (i1 k)) →
  agree N (check_rule c1 i1 kind expected) (check_rule c2 i2 kind expected).
Proof. intros ????. unfold check_rule, mismatch, witness_escape. destruct kind; walk. Qed.

Lemma agree_spine_leaf N i1 i2 y k :
  (∀ k, agree N (i1 k) (i2 k)) → (∀ k, good (i1 k)) →
  agree N (spine_leaf i1 y k) (spine_leaf i2 y k).
Proof. intros Hi Hg. unfold spine_leaf, mismatch. walk. Qed.

Lemma agree_comp_spine N i1 i2 cl cr y ws dt :
  (∀ k, agree N (i1 k) (i2 k)) → (∀ k, good (i1 k)) →
  agree N (comp_spine i1 cl cr y ws dt) (comp_spine i2 cl cr y ws dt).
Proof.
  intros Hi Hg. revert cl y ws dt.
  induction cr; intros cl y ws dt s HN; cbn [comp_spine]; rewrite level_entry;
    (destruct (steps s) as [|n] eqn:Es; [done|]);
    (destruct (depth s) as [|d] eqn:Ed; [done|]);
    rewrite <-(agree_spine_leaf N i1 i2 y cl Hi Hg) by (cbn [steps]; lia);
    destruct (good_spine_leaf i1 y cl Hg (mkState n d (gamma s))) as (Hgd & _ & _);
    destruct (spine_leaf i1 y cl (mkState n d (gamma s))) as [[[gl y1]|v] s3]; try done;
    cbn [steps depth gamma fst snd] in *.
  16: by apply IHcr2; lia.
  all: by rewrite <-(agree_spine_leaf N i1 i2 _ _ Hi Hg) by lia.
Qed.

Lemma agree_infer_rule N c1 c2 i1 i2 kind :
  (∀ k p, agree N (c1 k p) (c2 k p)) → (∀ k, agree N (i1 k) (i2 k)) →
  (∀ k p, good (c1 k p)) → (∀ k, good (i1 k)) →
  agree N (infer_rule c1 i1 kind) (infer_rule c2 i2 kind).
Proof.
  intros Hc Hi Hgc Hgi.
  assert (∀ cl cr y ws, agree N (comp_spine i1 cl cr y ws 0) (comp_spine i2 cl cr y ws 0)) as Hs
    by (intros; by apply agree_comp_spine).
  assert (∀ cl cr y ws, good (comp_spine i1 cl cr y ws 0)) as Hgs.
  { intros cl cr y ws s. destruct (good_comp_spine i1 cl cr y ws 0 s Hgi) as (? & ? & ?).
    split_and!; [done|lia|done]. }
  unfold infer_rule, infer_hyp, infer_subst, infer_unpack, infer_pres, infer_realizes_comp,
    infer_realizes_tensor, mismatch, witness_escape.
  destruct kind; walk.
Qed.

(** ** The spine loop is the recursive rule *)

Lemma check_spine_shift fuel kind expected dt pushed s :
  check_spine fuel kind expected dt pushed s =
    (let '(o, a, b, s') := check_spine fuel kind expected 0 0 s in (o, dt + a, pushed + b, s')).
Proof.
  revert kind expected dt pushed s. induction fuel as [|n IH]; intros kind expected dt pushed s.
  { simpl. by rewrite !Nat.add_0_r. }
  cbn [check_spine]. unfold step. destruct (steps s) as [|k]; [by rewrite !Nat.add_0_r|].
  unfold enter_depth. cbn [depth]. destruct (depth s) as [|d]; [by rewrite !Nat.add_0_r|].
  assert (∀ st, (let '(outcome, s3) := check_rule (check_of (check_spine n)) (infer_type n) kind expected st
      in (outcome, S dt, pushed, s3)) =
    (let '(o, a, b, s') := (let '(outcome, s3) := check_rule (check_of (check_spine n)) (infer_type n)
      kind expected st in (outcome, 1, 0, s3)) in (o, dt + a, pushed + b, s'))) as Hrule.
  { intros st. destruct (check_rule _ _ kind expected st). by rewrite Nat.add_0_r, Nat.add_1_r. }
  destruct kind; try apply Hrule. destruct expected; try apply Hrule.
  rewrite (IH _ _ (S dt) (S pushed)), (IH _ _ 1 1).
  destruct (check_spine n kind expected2 0 0 _) as [[[o a] b] s']. simpl.
  repeat f_equal; lia.
Qed.

(** One level of the checker, in recursive form. *)
Definition check_level (n : nat) (kind : TermKind) (expected : Prp) : Check unit :=
  match kind, expected with
  | Lam var_name body, Impl param_prop result_prop =>
    with_hyp (var_name, param_prop) (check_type n body result_prop)
  | _, _ => check_rule (check_type n) (infer_type n) kind expected
  end.

Lemma check_type_eq n kind expected s :
  check_type (S n) kind expected s =
    (step ;; enter_depth ;; leaving 1 (check_level n kind expected)) s.
Proof.
  unfold check_type at 1, check_of. cbn [check_spine]. unfold mbind, ST_bind, step.
  destruct (steps s) as [|k]; [by destruct s; unfold leave_depth; simpl; rewrite Nat.add_0_r|].
  unfold enter_depth. cbn [depth].
  destruct (depth s) as [|d] eqn:Ed; [done|].
  cbn [steps gamma]. set (st := mkState k d (gamma s)). unfold leaving.
  assert ((let '(outcome, depth_taken, pushed, s') :=
      (let '(outcome, s3) := check_rule (check_of (check_spine n)) (infer_type n) kind expected st in
       (outcome, 1, 0, s3)) in
      (outcome, leave_depth depth_taken (Nat.iter pushed pop s'))) =
    (let '(res, s') := check_rule (check_type n) (infer_type n) kind expected st in
     (res, leave_depth 1 s'))) as Hrule.
  { unfold check_type. by destruct (check_rule _ _ kind expected st). }
  destruct kind; try exact Hrule. destruct expected; try exact Hrule.
  cbn [check_level]. rewrite check_spine_shift. unfold with_hyp, check_type, check_of.
  destruct (check_spine n kind expected2 0 0 _) as [[[o a] b] s'].
  cbn [Nat.add Nat.iter nat_rect]. f_equal. unfold leave_depth. simpl.
  assert (∀ n s, steps (Nat.iter n pop s) = steps s ∧ depth (Nat.iter n pop s) = depth s) as Hpop.
  { clear. intros n s. induction n as [|n [IH1 IH2]]; simpl; [done|by rewrite IH1, IH2]. }
  destruct (Hpop b s') as [Hs Hd]. unfold Nat.iter in *. f_equal. rewrite Hd. lia.
Qed.

Lemma infer_type_eq n kind s :
  infer_type (S n) kind s =
    (step ;; enter_depth ;; leaving 1 (infer_rule (check_type n) (infer_type n) kind)) s.
Proof. done. Qed.

Lemma good_check_level n kind expected :
  (∀ k p, good (check_type n k p)) → (∀ k, good (infer_type n k)) →
  good (check_level n kind expected).
Proof.
  intros Hc Hi. unfold check_level. destruct kind; try by apply good_check_rule.
  destruct expected; (by apply good_check_rule) || by apply good_with_hyp.
Qed.

Lemma good_checkers n : (∀ k p, good (check_type n k p)) ∧ (∀ k, good (infer_type n k)).
Proof.
  induction n as [|n [IHc IHi]].
  { split; intros; [|by intros s]. intros s. unfold check_type, check_of. simpl.
    unfold leave_depth. simpl. split_and!; [lia|lia|done]. }
  split.
  - intros k p s. rewrite check_type_eq. by apply good_level, good_check_level.
  - intros k s. rewrite infer_type_eq. by apply good_level, good_infer_rule.
Qed.

Lemma fuel_irrelevant n m :
  (∀ k p, agree (n `min` m) (check_type n k p) (check_type m k p)) ∧
  (∀ k, agree (n `min` m) (infer_type n k) (infer_type m k)).
Proof.
  assert (∀ m k p s, steps s = 0 →
    check_type m k p s = (Err (ResourceExhausted StepLimitExceeded), s)) as H0c.
  { intros m0 k p s Hs. destruct m0.
    - unfold check_type, check_of. simpl. unfold leave_depth. destruct s. simpl. by rewrite Nat.add_0_r.
    - rewrite check_type_eq. unfold mbind, ST_bind, step. by rewrite Hs. }
  assert (∀ m k s, steps s = 0 →
    infer_type m k s = (Err (ResourceExhausted StepLimitExceeded), s)) as H0i.
  { intros m0 k s Hs. destruct m0; [done|].
    rewrite infer_type_eq. unfold mbind, ST_bind, step. by rewrite Hs. }
  revert m. induction n as [|n IH]; intros [|m];
    try (split; [intros k p s Hs|intros k s Hs]; simpl in Hs;
         rewrite ?H0c, ?H0i by lia; by rewrite ?H0c, ?H0i by lia).
  destruct (IH m) as [IHc IHi]. destruct (good_checkers n) as [Hgc Hgi]. cbn [Nat.min].
  split.
  - intros k p s Hs. rewrite !check_type_eq. refine (agree_level _ _ _ _ s Hs).
    unfold check_level. destruct k; try by apply agree_check_rule.
    destruct p; (by apply agree_check_rule) || by apply agree_with_hyp.
  - intros k s Hs. rewrite !infer_type_eq. refine (agree_level _ _ _ _ s Hs). by apply agree_infer_rule.
Qed.
End meta.

(** ** Failures are failures *)

(** [m] never fails with [Accepted]. *)
Definition honest {A} (m : Check A) : Prop := ∀ s c s', m s ≠ (Err (Accepted c), s').

Lemma honest_ret {A} (a : A) : honest (mret a).
Proof. by intros s c s'. Qed.
Lemma honest_bind {A B} (m : Check A) (f : A → Check B) :
  honest m → (∀ a, honest (f a)) → honest (m ≫= f).
Proof.
  intros Hm Hf s c s'. unfold mbind, ST_bind. specialize (Hm s c s').
  destruct (m s) as [[a|e] s1]; [apply Hf|]. intros [= -> ->]. done.
Qed.
Lemma honest_with_hyp {A} h (m : Check A) : honest m → honest (with_hyp h m).
Proof.
  intros Hm s c s'. unfold with_hyp. destruct (m (push h s)) as [r s1] eqn:E.
  intros [= -> _]. by eapply Hm.
Qed.
Lemma honest_level {A} (m : Check A) : honest m → honest (step ;; enter_depth ;; leaving 1 m).
Proof.
  intros Hm. apply honest_bind; [intros s c s'; unfold step; by destruct (steps s)|intros _].
  apply honest_bind; [intros s c s'; unfold enter_depth; by destruct (depth s)|intros _].
  intros s c s'. unfold leaving. destruct (m s) as [r s1] eqn:E. intros [= -> _]. by eapply Hm.
Qed.

Ltac walk_honest :=
  repeat first
    [ progress intros
    | solve [eauto with honest]
    | (intros ? ? ?; discriminate)
    | apply honest_bind | apply honest_with_hyp
    | case_decide
    | match goal with |- context [match ?x with _ => _ end] => destruct x end ].

Create HintDb honest.

Section honest.
Context `{Blake3} (chk : TermKind → Prp → Check unit) (inf : TermKind → Check Prp).
Hypothesis chk_honest : ∀ k p, honest (chk k p).
Hypothesis inf_honest : ∀ k, honest (inf k).
#[local] Hint Resolve chk_honest inf_honest honest_ret : honest.

Ltac unfold_rules :=
  unfold check_rule, infer_rule, infer_hyp, infer_subst, infer_unpack, infer_pres,
    infer_realizes_comp, infer_realizes_tensor, infer_prim_realizes, spine_leaf, mismatch,
    witness_escape, fresh_eigen, check_name, get_gamma, get_steps, expect_exists, expect_realizes,
    expect_product, ST_throw, ST_lift.

Lemma honest_check_rule k p : honest (check_rule chk inf k p).
Proof. unfold_rules. destruct k; walk_honest. Qed.

Lemma honest_spine_leaf y k : honest (spine_leaf inf y k).
Proof. unfold_rules. walk_honest. Qed.

Lemma honest_comp_spine cl cr y ws dt : honest (comp_spine inf cl cr y ws dt).
Proof.
  revert cl y ws dt. induction cr; intros cl y ws dt s c s'; cbn [comp_spine];
    rewrite level_entry; (destruct (steps s); [done|]); (destruct (depth s); [done|]);
    match goal with |- context [spine_leaf inf y cl ?st] =>
      pose proof (honest_spine_leaf y cl st) as Hl;
      destruct (spine_leaf inf y cl st) as [[[gl y1]|v] s3]; [|intros [= Hv _]; subst v; by eapply Hl]
    end.
  16: apply IHcr2.
  all: match goal with |- context [spine_leaf ?i ?y' ?k ?st] =>
      pose proof (honest_spine_leaf y' k st) as Hl2;
      destruct (spine_leaf i y' k st) as [[[g2 z2]|v] s4]; [done|intros [= Hv _]; subst v; by eapply Hl2]
    end.
Qed.
#[local] Hint Resolve honest_comp_spine : honest.

Lemma honest_infer_rule k : honest (infer_rule chk inf k).
Proof. unfold_rules. destruct k; walk_honest. Qed.
End honest.

Lemma honest_checkers `{Blake3} n :
  (∀ k p, honest (check_type n k p)) ∧ (∀ k, honest (infer_type n k)).
Proof.
  induction n as [|n [IHc IHi]]; [by split; intros ?; intros|]. split.
  - intros k p s c s'. rewrite check_type_eq. apply honest_level.
    destruct k; try by apply honest_check_rule. destruct p; try by apply honest_check_rule.
    by apply honest_with_hyp.
  - intros k s c s'. rewrite infer_type_eq. by apply honest_level, honest_infer_rule.
Qed.

(** * Properties *)

(** C37: the checker is total, balanced, and its λ-spine loop is the recursive
    rule. With fuel for the steps left, more fuel changes nothing; on every outcome
    the hypothesis stack and the depth are those of the call and no step is gained;
    and checking equals one step, one depth unit and the recursive level rule, with
    [check_type] itself at the premises. *)
Theorem checker_total_and_balanced `{Blake3} fuel kind expected s :
  steps s ≤ fuel →
  check_type fuel kind expected s = check_type (steps s) kind expected s ∧
  infer_type fuel kind s = infer_type (steps s) kind s ∧
  (let s' := (check_type (steps s) kind expected s).2 in
   gamma s' = gamma s ∧ depth s' = depth s ∧ steps s' ≤ steps s) ∧
  (let s' := (infer_type (steps s) kind s).2 in
   gamma s' = gamma s ∧ depth s' = depth s ∧ steps s' ≤ steps s) ∧
  check_type (steps s) kind expected s =
    (step ;; enter_depth ;; leaving 1 (check_level fuel kind expected)) s.
Proof.
  intros Hf. destruct (good_checkers (steps s)) as [Hc Hi].
  destruct (fuel_irrelevant fuel (steps s)) as [Fc Fi].
  rewrite Nat.min_r in Fc, Fi by done.
  split_and!.
  - by apply Fc.
  - by apply Fi.
  - destruct (Hc kind expected s) as (? & ? & ?). done.
  - destruct (Hi kind s) as (? & ? & ?). done.
  - rewrite <-check_type_eq. symmetry.
    destruct (fuel_irrelevant (S fuel) (steps s)) as [Fc' _].
    rewrite Nat.min_r in Fc' by lia. by apply Fc'.
Qed.

Lemma checker_total_and_balanced_witness :
  @check_type demo_hash 3 (Lam None (Hyp (Index 0))) (Impl (Atom (demo_id 1)) (Atom (demo_id 1)))
    (mkState 3 3 []) =
  (Ok tt, mkState 0 3 []) ∧
  @check_type demo_hash 9 (Lam None (Hyp (Index 0))) (Impl (Atom (demo_id 1)) (Atom (demo_id 1)))
    (mkState 3 3 []) =
  @check_type demo_hash 3 (Lam None (Hyp (Index 0))) (Impl (Atom (demo_id 1)) (Atom (demo_id 1)))
    (mkState 3 3 []).
Proof.
  split; [vm_compute; reflexivity|].
  apply (@checker_total_and_balanced demo_hash 9 _ _ (mkState 3 3 [])). simpl. lia.
Defined.
