(* ===== verification/KernelTyping.v ===== *)
(** What the checker accepts, declaratively (src/crates/brix-kernel/src/check.rs).

    [checks] and [infers] are the kernel's rules as an inductive definition, with
    the recursive composition rule in place of the spine loop. The side condition
    of the two [Unpack] rules is a parameter: [code_fresh] is the one the code
    tests, [adr_fresh] the one ADR-0003 (section 5.2) states. *)
From S2P Require Import Prelude IntCodec Canon CanonLaws Witness Encoding KernelTerm KernelPrim.
From S2P Require Import Certificate Outcome KernelCheck KernelMeta.

Section typing.
Context `{Blake3}.
(** [fresh Γ pred conclusion c]: the constant [c] may stand for the unpacked
    object. *)
Context (fresh : Gamma → Prp → Prp → PropositionId → Prop).

Definition name_free (v : option string) (Γ : Gamma) : Prop :=
  match v with None => True | Some name => Forall (λ h, h.1 ≠ Some name) Γ end.

(** The kinds [check_rule] leaves to synthesis. *)
Definition falls_back (k : TermKind) (p : Prp) : bool :=
  match k, p with
  | Lam _ _, Impl _ _ | Refl _, Eqn _ _ | Pack _ _, Exists _ | Unpack _ _ _ _, _
  | Pair _ _, Prod _ _ | Inl _, Sum _ _ | Inr _, Sum _ _ | Case _ _ _ _ _, _
  | RealizesComp _ _, Realizes _ _ _ | RealizesTensor _ _, Realizes _ _ _
  | Unsupported _, _ => false
  | _, _ => true
  end.

Inductive checks : Gamma → TermKind → Prp → Prop :=
  | C_lam Γ v b p q :
    checks ((v, p) :: Γ) b q → checks Γ (Lam v b) (Impl p q)
  | C_refl Γ t : checks Γ (Refl t) (Eqn t t)
  | C_pack Γ w b pred :
    checks Γ b (instantiate pred w) → checks Γ (Pack w b) (Exists pred)
  | C_unpack Γ s ov pv b pred r c :
    infers Γ s (Exists pred) → name_free pv Γ → fresh Γ pred r c →
    checks ((pv, instantiate pred (Const c)) :: Γ) b r →
    checks Γ (Unpack s ov pv b) r
  | C_pair Γ k1 k2 p q : checks Γ k1 p → checks Γ k2 q → checks Γ (Pair k1 k2) (Prod p q)
  | C_inl Γ k p q : checks Γ k p → checks Γ (Inl k) (Sum p q)
  | C_inr Γ k p q : checks Γ k q → checks Γ (Inr k) (Sum p q)
  | C_case Γ d lv lb rv rb p q r :
    infers Γ d (Sum p q) → name_free lv Γ → name_free rv Γ →
    checks ((lv, p) :: Γ) lb r → checks ((rv, q) :: Γ) rb r →
    checks Γ (Case d lv lb rv rb) r
  | C_comp Γ k1 k2 g1 g2 w x y z :
    infers Γ k1 (Realizes g1 x y) → infers Γ k2 (Realizes g2 y z) →
    witness_digest w = compose (witness_digest g2) (witness_digest g1) →
    checks Γ (RealizesComp k1 k2) (Realizes w x z)
  | C_tensor Γ k1 k2 w1 w2 w x1 x2 y1 y2 :
    infers Γ k1 (Realizes w1 x1 y1) → infers Γ k2 (Realizes w2 x2 y2) →
    witness_digest w = tensor (witness_digest w1) (witness_digest w2) →
    checks Γ (RealizesTensor k1 k2) (Realizes w (Tensor x1 x2) (Tensor y1 y2))
  | C_infer Γ k p : falls_back k p = true → infers Γ k p → checks Γ k p
with infers : Gamma → TermKind → Prp → Prop :=
  | I_index Γ i v p : Γ !! i = Some (v, p) → infers Γ (Hyp (Index i)) p
  | I_named Γ name i p :
    Γ !! i = Some (Some name, p) → name_free (Some name) (take i Γ) →
    infers Γ (Hyp (Named name)) p
  | I_refl Γ t : infers Γ (Refl t) (Eqn t t)
  | I_subst Γ e motive k a b :
    infers Γ e (Eqn a b) → checks Γ k (instantiate motive a) →
    infers Γ (Subst e motive k) (instantiate motive b)
  | I_unpack Γ s ov pv b pred r c :
    infers Γ s (Exists pred) → name_free pv Γ → fresh Γ pred r c →
    infers ((pv, instantiate pred (Const c)) :: Γ) b r →
    infers Γ (Unpack s ov pv b) r
  | I_pres Γ k1 k2 motive k3 w x y :
    infers Γ k1 (Realizes w x y) → checks Γ k2 (Preserves w motive) →
    checks Γ k3 (instantiate motive x) →
    infers Γ (Pres k1 k2 motive k3) (instantiate motive y)
  | I_app Γ f a p q : infers Γ f (Impl p q) → checks Γ a p → infers Γ (App f a) q
  | I_proj1 Γ k p q : infers Γ k (Prod p q) → infers Γ (Proj1 k) p
  | I_proj2 Γ k p q : infers Γ k (Prod p q) → infers Γ (Proj2 k) q
  | I_pair Γ k1 k2 p q : infers Γ k1 p → infers Γ k2 q → infers Γ (Pair k1 k2) (Prod p q)
  | I_comp Γ k1 k2 g1 g2 x y z :
    infers Γ k1 (Realizes g1 x y) → infers Γ k2 (Realizes g2 y z) →
    infers Γ (RealizesComp k1 k2) (Realizes (Compose g2 g1) x z)
  | I_tensor Γ k1 k2 w1 w2 x1 x2 y1 y2 :
    infers Γ k1 (Realizes w1 x1 y1) → infers Γ k2 (Realizes w2 x2 y2) →
    infers Γ (RealizesTensor k1 k2) (Realizes (Tensor w1 w2) (Tensor x1 x2) (Tensor y1 y2))
  | I_prim Γ rel src dst r :
    resolve rel = Some r → admits r src dst = true →
    infers Γ (PrimRealizes rel (Const src) (Const dst))
      (Realizes (Const (mkId (digest (generator r)))) (Const src) (Const dst)).

Scheme checks_mut := Induction for checks Sort Prop
  with infers_mut := Induction for infers Sort Prop.
Combined Scheme typing_mut from checks_mut, infers_mut.
End typing.

Arguments name_free v Γ : simpl never.

Lemma name_free_iff v Γ :
  name_free v Γ ↔
  match v with None => True | Some name =>
    existsb (λ h : option string * Prp, bool_decide (h.1 = Some name)) Γ = false end.
Proof.
  destruct v as [name|]; [|done]. unfold name_free. induction Γ as [|h Γ IH]; simpl.
  - split; [done|constructor].
  - rewrite Forall_cons, orb_false_iff, <-IH, bool_decide_eq_false. done.
Qed.

(** ** Soundness: what is accepted is derivable *)

Lemma run_bind {A B} (m : Check A) (f : A → Check B) s b s' :
  good m → (m ≫= f) s = (Ok b, s') →
  ∃ a s1, m s = (Ok a, s1) ∧ gamma s1 = gamma s ∧ f a s1 = (Ok b, s').
Proof.
  intros Hg (a & s1 & Hm & Hf)%ST_bind_Ok. exists a, s1.
  destruct (Hg s) as (_ & _ & Hgm). rewrite Hm in Hgm. done.
Qed.

Lemma run_with_hyp {A} h (m : Check A) s a s' :
  with_hyp h m s = (Ok a, s') → ∃ s1, m (push h s) = (Ok a, s1).
Proof.
  unfold with_hyp. destruct (m (push h s)) as [r s1]. intros [= -> _]. by exists s1.
Qed.

Lemma run_level {A} (m : Check A) s a s' :
  (step ;; enter_depth ;; leaving 1 m) s = (Ok a, s') →
  ∃ st s1, gamma st = gamma s ∧ m st = (Ok a, s1).
Proof.
  unfold mbind, ST_bind, step, enter_depth, leaving.
  destruct (steps s) as [|n]; [done|]. cbn [depth]. destruct (depth s) as [|d]; [done|].
  set (st := mkState n d (gamma s)). cbn [steps gamma]. fold st.
  destruct (m st) as [r s1] eqn:E. intros [= -> _]. by exists st, s1.
Qed.

Lemma run_check_name v s u s' :
  check_name v s = (Ok u, s') → s' = s ∧ name_free v (gamma s).
Proof.
  rewrite name_free_iff. destruct v as [name|]; [|by intros [= _ <-]].
  unfold check_name, mbind, ST_bind, get_gamma.
  destruct (existsb _ (gamma s)); [done|]. by intros [= _ <-].
Qed.

Lemma run_expect_exists t s p s' : expect_exists t s = (Ok p, s') → s' = s ∧ t = Exists p.
Proof. destruct t; try done. by intros [= -> ->]. Qed.

Lemma run_expect_realizes l t s w x y s' :
  expect_realizes l t s = (Ok (w, x, y), s') → s' = s ∧ t = Realizes w x y.
Proof. destruct t; try done. by intros [= -> -> -> ->]. Qed.

Lemma run_expect_product t s p q s' :
  expect_product t s = (Ok (p, q), s') → s' = s ∧ t = Prod p q.
Proof. destruct t; try done. by intros [= -> -> ->]. Qed.

(** Takes the next successful step of the run in [H] apart. *)
Ltac run H :=
  lazymatch type of H with
  | mbind _ (expect_exists _) _ = _ =>
    apply ST_bind_Ok in H as (? & ? & ?E & H); apply run_expect_exists in E as [-> ->]
  | mbind _ (expect_product _) _ = _ =>
    apply ST_bind_Ok in H as ([? ?] & ? & ?E & H); apply run_expect_product in E as [-> ->]
  | mbind _ (expect_realizes _ _) _ = _ =>
    let E := fresh "E" in
    apply ST_bind_Ok in H as ([[? ?] ?] & ? & E & H); apply run_expect_realizes in E as [-> ->]
  | mbind _ (check_name _) _ = _ =>
    let E := fresh "E" in
    apply ST_bind_Ok in H as (? & ? & E & H); apply run_check_name in E as [-> ?]
  | mbind _ (fresh_eigen _) _ = _ =>
    let E := fresh "E" in
    apply ST_bind_Ok in H as (? & ? & E & H);
    unfold fresh_eigen, get_steps, mbind, ST_bind in E; injection E as <- <-
  | mbind _ _ _ = _ =>
    apply run_bind in H as (? & ? & ? & ? & H); [|solve [auto with check]]
  end.

Section sound.
Context `{Blake3}.

Definition code_fresh (Γ : Gamma) (pred r : Prp) (c : PropositionId) : Prop :=
  prop_contains_obj_term r (Const c) = false ∧ ∃ ov n, c = eigen_id ov n.

Abbreviation checks := (checks code_fresh).
Abbreviation infers := (infers code_fresh).

Context (chk : TermKind → Prp → Check unit) (inf : TermKind → Check Prp).
Hypothesis chk_good : ∀ k p, good (chk k p).
Hypothesis inf_good : ∀ k, good (inf k).
Hypothesis chk_sound : ∀ k p s u s', chk k p s = (Ok u, s') → checks (gamma s) k p.
Hypothesis inf_sound : ∀ k t s s', inf k s = (Ok t, s') → infers (gamma s) k t.
#[local] Hint Resolve chk_good inf_good : check.

(** Turns the recorded runs of the two checkers into derivations. *)
Ltac derive :=
  repeat match goal with
  | E : inf _ _ = (Ok _, _) |- _ => apply inf_sound in E
  | E : chk _ _ _ = (Ok _, _) |- _ => apply chk_sound in E
  | E : with_hyp _ _ _ = (Ok _, _) |- _ =>
    apply run_with_hyp in E as [? E]
  end; cbn [gamma push] in *;
  repeat match goal with E : gamma _ = gamma _ |- _ => rewrite E in *; clear E end.

Lemma check_unpack_sound sc ov pv b r s u s' :
  check_rule chk inf (Unpack sc ov pv b) r s = (Ok u, s') → checks (gamma s) (Unpack sc ov pv b) r.
Proof.
  cbn [check_rule]. intros Hr. do 4 run Hr.
  destruct (prop_contains_obj_term r _) eqn:Ec; [done|]. derive.
  econstructor; [done|done| |done]. split; [done|eauto].
Qed.

Lemma check_fallback_sound k p s u s' :
  falls_back k p = true →
  (inferred ← inf k; if decide (inferred = p) then mret tt
   else mismatch [PProp p] [PProp inferred]) s = (Ok u, s') →
  checks (gamma s) k p.
Proof. intros Hf Hr. run Hr. case_decide; [|done]. subst. derive. by apply C_infer. Qed.

Lemma check_rule_sound k p s u s' :
  (∀ v b q r, ¬ (k = Lam v b ∧ p = Impl q r)) →
  check_rule chk inf k p s = (Ok u, s') → checks (gamma s) k p.
Proof.
  intros Hlam Hr.
  destruct k; try (exact (check_unpack_sound _ _ _ _ _ _ _ _ Hr));
    try (destruct p; (apply (check_fallback_sound _ _ s u s'); [reflexivity|exact Hr])).
  - destruct p; try (apply (check_fallback_sound _ _ s u s'); [reflexivity|exact Hr]).
    destruct (Hlam _ _ _ _ (conj eq_refl eq_refl)).
  - destruct p; try (apply (check_fallback_sound _ _ s u s'); [reflexivity|exact Hr]).
    cbn [check_rule] in Hr. run Hr. derive. by constructor.
  - destruct p; try (apply (check_fallback_sound _ _ s u s'); [reflexivity|exact Hr]).
    cbn [check_rule] in Hr. derive. by constructor.
  - destruct p; try (apply (check_fallback_sound _ _ s u s'); [reflexivity|exact Hr]).
    cbn [check_rule] in Hr. derive. by constructor.
  - cbn [check_rule] in Hr. run Hr. destruct x; try done. do 3 run Hr. derive. by econstructor.
  - done.
  - destruct p; try (apply (check_fallback_sound _ _ s u s'); [reflexivity|exact Hr]).
    cbn [check_rule] in Hr. case_decide; [|done]. destruct_and?; subst. constructor.
  - destruct p; try (apply (check_fallback_sound _ _ s u s'); [reflexivity|exact Hr]).
    cbn [check_rule] in Hr. derive. by constructor.
  - destruct p; try (apply (check_fallback_sound _ _ s u s'); [reflexivity|exact Hr]).
    cbn [check_rule] in Hr. do 4 run Hr. repeat (case_decide; [done|]). subst. derive.
    by econstructor.
  - destruct p; try (apply (check_fallback_sound _ _ s u s'); [reflexivity|exact Hr]).
    cbn [check_rule] in Hr. do 4 run Hr. repeat (case_decide; [done|]). subst. derive.
    by econstructor.
Qed.

Lemma infer_hyp_sound var s t s' :
  infer_hyp var s = (Ok t, s') → infers (gamma s) (Hyp var) t.
Proof.
  unfold infer_hyp. intros Hr. run Hr. injection H0 as <- <-. destruct var as [i|name].
  - destruct (gamma s !! i) as [[v p]|] eqn:E; [|done]. injection Hr as <- <-. by econstructor.
  - destruct (list_find _ (gamma s)) as [[i [v p]]|] eqn:E; [|done]. injection Hr as <- <-.
    apply list_find_Some in E as (Hi & Hv & Hn). simpl in Hv. subst v.
    econstructor; [done|]. unfold name_free. apply Forall_forall. intros h Hh.
    apply elem_of_take in Hh as (j & Hj & Hlt). by eapply Hn.
Qed.

Lemma prim_sound rel a b t :
  infer_prim_realizes rel a b = Ok t → ∀ Γ, infers Γ (PrimRealizes rel a b) t.
Proof.
  unfold infer_prim_realizes. intros Hr Γ. destruct (resolve rel) as [r|] eqn:Er; [|done].
  destruct a; try done. destruct b; try done.
  destruct (admits r id id0) eqn:Ea; [|done]. injection Hr as <-. by constructor.
Qed.

(** One leaf of the composition spine. *)
Lemma spine_leaf_sound k y s g y' s' :
  spine_leaf inf y k s = (Ok (g, y'), s') →
  infers (gamma s) k (Realizes g y y') ∧ gamma s' = gamma s.
Proof.
  unfold spine_leaf. intros Hr. run Hr. run Hr. case_decide; [done|]. injection Hr as <- <- <-.
  subst. split; [|done]. derive. done.
Qed.

(** The spine derives the nested composition: folding the witnesses back from the
    last one yields the composite. *)
Lemma comp_spine_sound cr cl y ws dt s ws' g z s' :
  comp_spine inf cl cr y ws dt s = (Ok (ws', g, z), s') →
  ∃ wr, infers (gamma s) (RealizesComp cl cr) (Realizes wr y z) ∧
    fold_left Compose (reverse ws') g = fold_left Compose (reverse ws) wr.
Proof.
  revert cl y ws dt s. induction cr; intros cl y ws dt s Hr; cbn [comp_spine] in Hr;
    rewrite level_entry in Hr; (destruct (steps s) as [|n]; [done|]);
    (destruct (depth s) as [|d]; [done|]);
    (destruct (spine_leaf inf y cl (mkState n d (gamma s))) as [[[gl y1]|v] s3] eqn:El; [|done]);
    apply spine_leaf_sound in El as [Hl Hg3]; cbn [gamma] in Hl, Hg3.
  16: { apply IHcr2 in Hr as (wr & Hi & Hf). rewrite Hg3 in Hi. exists (Compose wr gl).
        rewrite reverse_snoc in Hf. split; [by econstructor|done]. }
  all: match type of Hr with context [spine_leaf ?i ?y' ?k ?st] =>
      destruct (spine_leaf i y' k st) as [[[g2 z2]|v] s4] eqn:Em; [|done]
    end; injection Hr as <- <- <- <-; apply spine_leaf_sound in Em as [Hr _]; rewrite Hg3 in Hr;
    exists (Compose g2 gl); rewrite reverse_snoc; (split; [by econstructor|done]).
Qed.

Lemma infer_comp_sound l r s t s' :
  infer_realizes_comp inf l r s = (Ok t, s') → infers (gamma s) (RealizesComp l r) t.
Proof.
  unfold infer_realizes_comp. intros Hr. run Hr. run Hr.
  destruct r;
    try (run Hr; run Hr; case_decide; [done|]; injection Hr as <- <-; subst; derive; by econstructor).
  apply ST_bind_Ok in Hr as ([[ws g] z] & s2 & Hs & Hr). injection Hr as <- <-.
  apply comp_spine_sound in Hs as (wr & Hi & Hf). rewrite Hf. simpl. derive. by econstructor.
Qed.

Lemma infer_unpack_sound sc ov pv b r s s' :
  infer_unpack inf sc ov pv b s = (Ok r, s') → infers (gamma s) (Unpack sc ov pv b) r.
Proof.
  unfold infer_unpack. intros Hr. do 4 run Hr. run Hr.
  destruct (prop_contains_obj_term _ _) eqn:Ec; [done|]. injection Hr as <- <-. derive.
  econstructor; [done|done| |done]. split; [done|eauto].
Qed.

Lemma infer_rule_sound k t s s' :
  infer_rule chk inf k s = (Ok t, s') → infers (gamma s) k t.
Proof.
  intros Hr. destruct k; cbn [infer_rule] in Hr; try done.
  - by eapply infer_hyp_sound.
  - run Hr. destruct x; try done. run Hr. injection Hr as <- <-. derive. by econstructor.
  - run Hr. run Hr. injection Hr as <- <-. derive. by constructor.
  - run Hr. run Hr. injection Hr as <- <-. derive. by econstructor.
  - run Hr. run Hr. injection Hr as <- <-. derive. by econstructor.
  - injection Hr as <- <-. constructor.
  - unfold infer_subst in Hr. run Hr. destruct x; try done. run Hr. injection Hr as <- <-. derive.
    by econstructor.
  - by apply infer_unpack_sound in Hr.
  - unfold infer_pres in Hr. do 4 run Hr. injection Hr as <- <-. derive. by econstructor.
  - by apply infer_comp_sound in Hr.
  - unfold infer_realizes_tensor in Hr. do 4 run Hr. injection Hr as <- <-. derive. by constructor.
  - unfold ST_lift in Hr. injection Hr as Hr <-. by apply prim_sound.
Qed.
End sound.

Lemma checker_sound `{Blake3} n :
  (∀ k p s u s', check_type n k p s = (Ok u, s') → checks code_fresh (gamma s) k p) ∧
  (∀ k t s s', infer_type n k s = (Ok t, s') → infers code_fresh (gamma s) k t).
Proof.
  induction n as [|n [IHc IHi]]; [done|]. destruct (good_checkers n) as [Hgc Hgi]. split.
  - intros k p s u s'. rewrite check_type_eq. intros (st & s1 & <- & Hr)%run_level.
    pose proof (check_rule_sound (check_type n) (infer_type n) Hgc Hgi IHc IHi k p st u s1) as Hrule.
    destruct k; try (apply Hrule; [by intros ???? [? ?]|exact Hr]).
    destruct p; try (apply Hrule; [by intros ???? [? ?]|exact Hr]).
    cbn [check_level] in Hr. apply run_with_hyp in Hr as [s2 Hr].
    apply IHc in Hr. by constructor.
  - intros k t s s'. rewrite infer_type_eq. intros (st & s1 & <- & Hr)%run_level.
    exact (infer_rule_sound _ _ Hgc Hgi IHc IHi _ _ _ _ Hr).
Qed.

(** ** Completeness: what is derivable without [Unpack] is accepted *)

Fixpoint unpack_free (k : TermKind) : bool :=
  match k with
  | Hyp _ | Unsupported _ | Refl _ | PrimRealizes _ _ _ => true
  | Lam _ b | Proj1 b | Proj2 b | Inl b | Inr b | Pack _ b => unpack_free b
  | App a b | Pair a b | RealizesComp a b | RealizesTensor a b | Subst a _ b =>
    unpack_free a && unpack_free b
  | Case a _ b _ c | Pres a b _ c => unpack_free a && unpack_free b && unpack_free c
  | Unpack _ _ _ _ => false
  end.

Fixpoint ksize (k : TermKind) : nat :=
  match k with
  | Hyp _ | Unsupported _ | Refl _ | PrimRealizes _ _ _ => 1
  | Lam _ b | Proj1 b | Proj2 b | Inl b | Inr b | Pack _ b => S (ksize b)
  | App a b | Pair a b | RealizesComp a b | RealizesTensor a b | Subst a _ b
  | Unpack a _ _ b => S (ksize a + ksize b)
  | Case a _ b _ c | Pres a b _ c => S (ksize a + ksize b + ksize c)
  end.

Lemma ksize_pos k : 1 ≤ ksize k.
Proof. destruct k; simpl; lia. Qed.

(** [m] succeeds with [a] from [s], using at most [c] steps and restoring the rest. *)
Definition runs {A} (m : Check A) (s : CheckerState) (c : nat) (a : A) : Prop :=
  ∃ s', m s = (Ok a, s') ∧ steps s ≤ steps s' + c ∧ steps s' ≤ steps s ∧
        gamma s' = gamma s ∧ depth s' = depth s.

Lemma runs_ret {A} (a : A) s : runs (mret a) s 0 a.
Proof. exists s. split_and!; [done|lia|lia|done|done]. Qed.

Lemma runs_weaken {A} (m : Check A) s c c' a : runs m s c a → c ≤ c' → runs m s c' a.
Proof. intros (s' & ? & ? & ? & ? & ?) Hc. exists s'. split_and!; [done|lia|lia|done|done]. Qed.

Lemma runs_bind {A B} (m : Check A) (f : A → Check B) s c c' a b :
  runs m s c a →
  (∀ s', gamma s' = gamma s → depth s' = depth s → steps s ≤ steps s' + c → steps s' ≤ steps s →
     runs (f a) s' c' b) →
  runs (m ≫= f) s (c + c') b.
Proof.
  intros (s1 & E & H1 & H2 & H3 & H4) Hf. destruct (Hf s1) as (s2 & E2 & ? & ? & ? & ?); [done..|].
  exists s2. unfold mbind, ST_bind. rewrite E, E2. split_and!; [done|lia|lia|congruence|congruence].
Qed.

Lemma runs_pure {A B} (m : Check A) (f : A → Check B) s c a b :
  m s = (Ok a, s) → runs (f a) s c b → runs (m ≫= f) s c b.
Proof.
  intros E (s' & Hs'). exists s'. unfold mbind, ST_bind. by rewrite E.
Qed.

Lemma runs_with_hyp {A} h (m : Check A) s c a :
  runs m (push h s) c a → runs (with_hyp h m) s c a.
Proof.
  intros (s' & E & ? & ? & Hg & ?). exists (pop s'). unfold with_hyp. rewrite E.
  unfold pop. simpl in *. rewrite Hg. done.
Qed.

Lemma runs_level {A} (m : Check A) s c a :
  1 ≤ steps s → 1 ≤ depth s →
  runs m (mkState (steps s - 1) (depth s - 1) (gamma s)) c a →
  runs (step ;; enter_depth ;; leaving 1 m) s (S c) a.
Proof.
  intros H1 H2 (s' & E & H3 & H4 & Hg & Hd). exists (leave_depth 1 s').
  unfold mbind, ST_bind, step, enter_depth, leaving.
  destruct (steps s) as [|n]; [lia|]. cbn [depth]. destruct (depth s) as [|d]; [lia|].
  cbn [steps depth gamma] in *. rewrite !Nat.sub_succ, !Nat.sub_0_r in *. rewrite E.
  unfold leave_depth. cbn [steps depth gamma]. split_and!; [done|lia|lia|done|lia].
Qed.

Lemma check_name_free v s : name_free v (gamma s) → check_name v s = (Ok tt, s).
Proof.
  rewrite name_free_iff. destruct v as [name|]; [|done]. intros Hn.
  unfold check_name, mbind, ST_bind, get_gamma. by rewrite Hn.
Qed.

Section complete.
Context `{Blake3} (fresh : Gamma → Prp → Prp → PropositionId → Prop).
Context (chk : TermKind → Prp → Check unit) (inf : TermKind → Check Prp)
  (limit ilimit bound : nat).

(** The induction hypothesis: smaller terms, steps at most [bound]. *)
Hypothesis chk_runs : ∀ k p s, ksize k < limit → unpack_free k = true →
  checks fresh (gamma s) k p → 2 * ksize k ≤ steps s ≤ bound → 2 * ksize k ≤ depth s →
  runs (chk k p) s (2 * ksize k) tt.
Hypothesis inf_runs : ∀ k t s, ksize k < ilimit → unpack_free k = true →
  infers fresh (gamma s) k t → 2 * ksize k - 1 ≤ steps s ≤ bound → 2 * ksize k - 1 ≤ depth s →
  runs (inf k) s (2 * ksize k - 1) t.

Ltac gamma_rewrite :=
  repeat match goal with E : gamma _ = _ |- _ => rewrite E in * end.

(** The side conditions of a premise: sizes, the derivation, budgets. *)
Ltac side :=
  cbn [push gamma steps depth ksize] in *; gamma_rewrite;
  first [ eassumption | lia | done ].

(** Runs the next premise of the goal by the induction hypothesis. *)
Ltac premise :=
  first
    [ eapply runs_pure; [reflexivity|]
    | eapply runs_pure; [apply check_name_free; gamma_rewrite; eassumption|]
    | eapply runs_bind; [eapply inf_runs; side|intros ? ? ? ? ?]
    | eapply runs_bind; [eapply chk_runs; side|intros ? ? ? ? ?]
    | eapply runs_bind; [eapply runs_with_hyp, chk_runs; side|intros ? ? ? ? ?]
    | eapply inf_runs; side
    | eapply chk_runs; side
    | eapply runs_with_hyp, chk_runs; side
    | apply runs_ret ];
  cbn beta iota.

Ltac premises := eapply runs_weaken; [repeat premise|cbn [ksize]; lia].

Lemma spine_leaf_runs k g y z s :
  ksize k < ilimit → unpack_free k = true → infers fresh (gamma s) k (Realizes g y z) →
  2 * ksize k - 1 ≤ steps s ≤ bound → 2 * ksize k - 1 ≤ depth s →
  runs (spine_leaf inf y k) s (2 * ksize k - 1) (g, z).
Proof.
  intros Hl Hu Hi Hs Hd. unfold spine_leaf. eapply runs_weaken.
  - eapply runs_bind; [by apply inf_runs|]. intros s' _ _ _ _. eapply runs_pure; [done|].
    cbn beta iota. rewrite decide_False by (intros Hn; by apply Hn). apply runs_ret.
  - lia.
Qed.

Lemma comp_spine_runs cr cl g y z ws dt s :
  S (ksize cl + ksize cr) ≤ ilimit → unpack_free cl = true → unpack_free cr = true →
  infers fresh (gamma s) (RealizesComp cl cr) (Realizes g y z) →
  2 * (ksize cl + ksize cr) + 1 ≤ steps s ≤ bound → 2 * (ksize cl + ksize cr) + 1 ≤ depth s →
  ∃ ws' gz s', comp_spine inf cl cr y ws dt s = (Ok (ws', gz, z), s') ∧
    fold_left Compose (reverse ws') gz = fold_left Compose (reverse ws) g ∧
    steps s ≤ steps s' + (2 * (ksize cl + ksize cr) + 1) ∧ steps s' ≤ steps s ∧
    gamma s' = gamma s ∧ depth s' = depth s + dt.
Proof.
  revert cl g y ws dt s.
  induction cr; intros cl g y ws dt s Hlim Hucl Hucr Hinf Hst Hd;
    inversion Hinf as [| | | | | | | | | |? ? ? g1 g2 ? ym ? Hl Hr| |]; subst; clear Hinf;
    pose proof (ksize_pos cl) as Hpos;
    match type of Hr with KernelTyping.infers _ _ ?k _ => pose proof (ksize_pos k) as Hposr end;
    (destruct (spine_leaf_runs cl g1 y ym (mkState (steps s - 1) (depth s - 1) (gamma s)))
      as (s1 & E1 & Hs1 & Hs1' & Hg1 & Hd1); cbn [steps depth gamma] in *; [lia|done|done|lia|lia|]);
    cbn [comp_spine]; rewrite level_entry;
    (destruct (steps s) as [|n]; [lia|]); (destruct (depth s) as [|d]; [lia|]);
    rewrite !Nat.sub_succ, !Nat.sub_0_r in *; rewrite E1.
  16: { cbn [unpack_free] in Hucr. apply andb_true_iff in Hucr as [Hu1 Hu2].
        cbn [ksize] in Hlim, Hst, Hd |- *.
        destruct (IHcr2 cr1 g2 ym (ws ++ [g1]) (S dt) s1) as (ws' & gz & s' & E & Hf & ? & ? & ? & ?);
          [lia|done|done|by rewrite Hg1|lia|lia|].
        exists ws', gz, s'. rewrite E, Hf, reverse_snoc. cbn [fold_left].
        split_and!; [done|done|lia|lia|congruence|lia]. }
  all: match type of Hr with KernelTyping.infers _ _ ?k _ =>
      destruct (spine_leaf_runs k g2 ym z s1) as (s2 & E2 & ? & ? & ? & ?);
        [lia|done|by rewrite Hg1|lia|lia|] end;
    exists (ws ++ [g1]), g2, (leave_depth (S dt) s2); rewrite E2, reverse_snoc;
    unfold leave_depth; cbn [steps depth gamma];
    (split_and!; [done|done|lia|lia|congruence|lia]).
Qed.

Lemma check_rule_runs k p s :
  (∀ v b q r, ¬ (k = Lam v b ∧ p = Impl q r)) →
  ksize k ≤ limit → ksize k < ilimit → unpack_free k = true →
  checks fresh (gamma s) k p → 2 * ksize k - 1 ≤ steps s ≤ bound → 2 * ksize k - 1 ≤ depth s →
  runs (check_rule chk inf k p) s (2 * ksize k - 1) tt.
Proof.
  intros Hlam Hl Hil Hu Hc Hst Hd. pose proof (ksize_pos k).
  inversion Hc; subst; cbn [unpack_free ksize] in *;
    try (apply andb_true_iff in Hu as [Hu ?]); try (apply andb_true_iff in Hu as [Hu ?]); try done;
    repeat match goal with x : TermKind |- _ =>
      lazymatch goal with _ : 1 ≤ ksize x |- _ => fail | _ => pose proof (ksize_pos x) end end.
  - destruct (Hlam _ _ _ _ (conj eq_refl eq_refl)).
  - cbn [check_rule]. rewrite decide_True by done. premises.
  - cbn [check_rule]. premises.
  - cbn [check_rule]. premises.
  - cbn [check_rule]. premises.
  - cbn [check_rule]. premises.
  - cbn [check_rule]. premises.
  - cbn [check_rule]. eapply runs_weaken; [do 4 premise|].
    + repeat (rewrite decide_False by (intros Hn; by apply Hn)). apply runs_ret.
    + cbn [ksize]. lia.
  - cbn [check_rule]. eapply runs_weaken; [do 4 premise|].
    + repeat (rewrite decide_False by (intros Hn; by apply Hn)). apply runs_ret.
    + cbn [ksize]. lia.
  - assert (check_rule chk inf k p = (inferred ← inf k; if decide (inferred = p) then mret tt
      else mismatch [PProp p] [PProp inferred])) as -> by (by destruct k, p).
    eapply runs_weaken; [premise; rewrite decide_True by done; apply runs_ret|lia].
Qed.

Lemma infer_rule_runs k t s :
  ksize k ≤ limit → ksize k ≤ ilimit → unpack_free k = true →
  infers fresh (gamma s) k t → 2 * ksize k - 2 ≤ steps s ≤ bound → 2 * ksize k - 2 ≤ depth s →
  runs (infer_rule chk inf k) s (2 * ksize k - 2) t.
Proof.
  intros Hl Hil Hu Hc Hst Hd. pose proof (ksize_pos k).
  inversion Hc as [| | | | | | | | | |? k1 k2 g1 g2 ? y ? H1 H2| |? ? ? ? ? Hres Hadm]; subst; cbn [unpack_free ksize] in *;
    try (apply andb_true_iff in Hu as [Hu ?]); try (apply andb_true_iff in Hu as [Hu ?]); try done;
    repeat match goal with x : TermKind |- _ =>
      lazymatch goal with _ : 1 ≤ ksize x |- _ => fail | _ => pose proof (ksize_pos x) end end;
    cbn [infer_rule].
  - eapply runs_pure; [reflexivity|]. cbn beta iota.
    match goal with E : _ !! _ = Some _ |- _ => rewrite E end. premises.
  - eapply runs_pure; [reflexivity|]. cbn beta iota.
    match goal with E : gamma s !! ?i = Some (Some ?n, ?q), Hf : name_free _ _ |- _ =>
      assert (list_find (λ h : option string * Prp, h.1 = Some n) (gamma s) = Some (i, (Some n, q))) as ->
    end; [|premises].
    apply list_find_Some. split_and!; [done|done|]. intros j h Hj Hlt Heq.
    match goal with Hf : name_free _ _ |- _ => unfold name_free in Hf; rewrite Forall_forall in Hf;
      apply (Hf h); [|done] end. apply elem_of_take. eauto.
  - premises.
  - unfold infer_subst. premises.
  - unfold infer_pres. premises.
  - premises.
  - premises.
  - premises.
  - premises.
  - unfold infer_realizes_comp. destruct k2; try (
      eapply runs_weaken; [do 4 premise;
        rewrite decide_False by (intros Hn; by apply Hn); apply runs_ret|cbn [ksize]; lia]).
    eapply runs_weaken; [do 2 premise|].
    + cbn [unpack_free ksize] in *.
      match goal with Hb : _ && _ = true |- _ => apply andb_true_iff in Hb as [Hu1 Hu2] end.
      lazymatch goal with |- runs _ ?st _ _ =>
        destruct (comp_spine_runs k2_2 k2_1 g2 y z [g1] 0 st)
          as (ws' & gz & s2 & E & Hf & ? & ? & ? & ?);
          [lia|done|done|by gamma_rewrite|lia|lia|]
      end.
      exists s2. unfold mbind, ST_bind. rewrite E, Hf. change (reverse [g1]) with [g1].
      split_and!; [reflexivity| |lia|congruence|lia].
      match goal with |- _ ≤ _ + ?c => unify c (2 * (ksize k2_1 + ksize k2_2) + 1) end. lia.
    + cbn [ksize]. lia.
  - unfold infer_realizes_tensor. premises.
  - eapply runs_weaken; [|apply Nat.le_0_l]. unfold infer_prim_realizes.
    rewrite Hres, Hadm. apply runs_ret.
Qed.
End complete.

Lemma runs_ext {A} (m1 m2 : Check A) s c a : m1 s = m2 s → runs m2 s c a → runs m1 s c a.
Proof. intros E (s' & Hs'). exists s'. by rewrite E. Qed.

Lemma checker_complete `{Blake3} fresh N : ∀ n,
  (∀ k t s, ksize k < N → unpack_free k = true → infers fresh (gamma s) k t →
     2 * ksize k - 1 ≤ steps s ≤ n → 2 * ksize k - 1 ≤ depth s →
     runs (infer_type n k) s (2 * ksize k - 1) t) ∧
  (∀ k p s, ksize k < N → unpack_free k = true → checks fresh (gamma s) k p →
     2 * ksize k ≤ steps s ≤ n → 2 * ksize k ≤ depth s →
     runs (check_type n k p) s (2 * ksize k) tt).
Proof.
  induction N as [|N IH]; [split; intros; lia|].
  assert (∀ n k t s, ksize k < S N → unpack_free k = true → infers fresh (gamma s) k t →
     2 * ksize k - 1 ≤ steps s ≤ n → 2 * ksize k - 1 ≤ depth s →
     runs (infer_type n k) s (2 * ksize k - 1) t) as Hinf.
  { intros n k t s Hk Hu Ht Hs Hd. pose proof (ksize_pos k). destruct n as [|n]; [lia|].
    eapply runs_ext; [apply infer_type_eq|].
    replace (2 * ksize k - 1) with (S (2 * ksize k - 2)) by lia. apply runs_level; [lia|lia|].
    destruct (IH n) as [IHi IHc].
    apply (infer_rule_runs fresh _ _ N N n IHc IHi); cbn [gamma steps depth]; [lia|lia|done|done|lia|lia]. }
  intros n. split; [apply Hinf|].
  intros k p s Hk Hu Hp Hs Hd. pose proof (ksize_pos k). destruct n as [|n]; [lia|].
  eapply runs_ext; [apply check_type_eq|].
  replace (2 * ksize k) with (S (2 * ksize k - 1)) by lia. apply runs_level; [lia|lia|].
  destruct (IH n) as [_ IHc].
  pose proof (check_rule_runs fresh _ _ N (S N) n IHc (Hinf n) k p
    (mkState (steps s - 1) (depth s - 1) (gamma s))) as Hrule. cbn [gamma steps depth] in Hrule.
  destruct k; try (apply Hrule; [by intros ???? [? ?]|lia|lia|done|done|lia|lia]).
  destruct p; try (apply Hrule; [by intros ???? [? ?]|lia|lia|done|done|lia|lia]).
  cbn [check_level unpack_free ksize] in *. inversion Hp; subst; [|done].
  pose proof (ksize_pos k). eapply runs_weaken; [|shelve].
  apply runs_with_hyp, IHc; cbn [push gamma steps depth]; [lia|done|done|lia|lia].
  Unshelve. lia.
Qed.

Lemma acceptance_inv `{Blake3} (ctx : ContextId) (p : Prp) (t : ExplicitTerm) budget c :
  acceptance ctx p t budget = Accepted c →
  context t = ctx ∧ checks code_fresh [] (kind t) p ∧ c = mkCertificate native_verifier (certificate_id_v1 (mkMaterial ctx p t)).
Proof.
  unfold acceptance. case_decide as Hc; [done|]. destruct (check_type _ _ _ _) as [[u|v] s'] eqn:E; cbn [fst].
  - intros [= <-]. apply checker_sound in E. done.
  - intros ->. by apply (proj1 (honest_checkers _)) in E.
Qed.

(** With twice the size of the term in steps and depth, nothing runs out. *)
Lemma acceptance_complete `{Blake3} fresh (ctx : ContextId) (p : Prp) (t : ExplicitTerm) budget :
  unpack_free (kind t) = true → context t = ctx → checks fresh [] (kind t) p →
  2 * ksize (kind t) ≤ max_steps budget → 2 * ksize (kind t) ≤ max_depth budget →
  acceptance ctx p t budget = Accepted (mkCertificate native_verifier (certificate_id_v1 (mkMaterial ctx p t))).
Proof.
  intros Hu Hc Hk Hs Hd. unfold acceptance. rewrite decide_False by (intros Hn; by apply Hn).
  destruct (checker_complete fresh (S (ksize (kind t))) (max_steps budget)) as [_ Hrun].
  destruct (Hrun (kind t) p (mkState (max_steps budget) (max_depth budget) []))
    as (s' & E & _); cbn [gamma steps depth]; [lia|done|done|lia|lia|]. by rewrite E.
Qed.

(** * Properties *)

(** C34: what the kernel accepts. An [Accepted] verdict certifies a derivation: the
    term's context is the requested one, and the declarative rules, with the
    freshness test of the code, derive the proposition from no hypotheses.
    Conversely a term without [Unpack] that has a derivation, with any freshness
    condition, is accepted under every budget of at least twice its size; so for
    these terms the verdict does not depend on a sufficient budget, and the
    spine-unrolled composition accepts what the recursive rule derives. (The rules
    instantiate as the code does, with index additions that wrap around in [usize].) *)
Theorem acceptance_exact `{Blake3} (ctx : ContextId) (p : Prp) (t : ExplicitTerm) :
  (∀ budget c, acceptance ctx p t budget = Accepted c →
     context t = ctx ∧ checks code_fresh [] (kind t) p ∧
     c = mkCertificate native_verifier (certificate_id_v1 (mkMaterial ctx p t))) ∧
  (∀ fresh budget, unpack_free (kind t) = true → context t = ctx → checks fresh [] (kind t) p →
     2 * ksize (kind t) ≤ max_steps budget → 2 * ksize (kind t) ≤ max_depth budget →
     ∃ c, acceptance ctx p t budget = Accepted c).
Proof.
  split; [intros budget c; apply acceptance_inv|]. intros fresh budget Hu Hc Hk Hs Hd. eexists. by apply (acceptance_complete fresh).
Qed.

Lemma acceptance_exact_witness :
  ∃ c, @acceptance demo_hash (demo_id 1) (Impl (Atom (demo_id 2)) (Atom (demo_id 2)))
         (mkTerm (demo_id 1) (Lam (Some "h") (Hyp (Index 0)))) (mkBudget 4 4) = Accepted c.
Proof.
  apply (proj2 (@acceptance_exact demo_hash (demo_id 1)
    (Impl (Atom (demo_id 2)) (Atom (demo_id 2)))
    (mkTerm (demo_id 1) (Lam (Some "h") (Hyp (Index 0))))) (λ _ _ _ _, False));
    [reflexivity|reflexivity| |simpl; lia|simpl; lia].
  apply C_lam, C_infer; [reflexivity|]. by apply (I_index _ _ _ (Some "h")).
Defined.
