(* ===== verification/KernelBudget.v ===== *)
(** What a budget can do to a proof (src/crates/brix-kernel/src/check.rs).

    A budget can only run out: on a term that has a derivation the checker answers with
    the derived proposition or with [ResourceExhausted], whatever the steps and the depth it is
    given. The induction is on the fuel, so no size is involved. *)
From S2P Require Import Prelude IntCodec Canon CanonLaws Witness Encoding KernelTerm KernelPrim.
From S2P Require Import Certificate Outcome KernelCheck KernelMeta KernelTyping.

(** [m] returns [a] from [s], restoring the hypotheses, or runs out. *)
Definition yields {A} (m : Check A) (s : CheckerState) (a : A) : Prop :=
  match m s with
  | (Ok b, s') => b = a ∧ gamma s' = gamma s
  | (Err v, _) => ∃ r, v = ResourceExhausted r
  end.

Lemma yields_ret {A} (a : A) s : yields (mret a) s a.
Proof. done. Qed.

Lemma yields_bind {A B} (m : Check A) (f : A → Check B) s a b :
  yields m s a → (∀ s', gamma s' = gamma s → yields (f a) s' b) → yields (m ≫= f) s b.
Proof.
  unfold yields, mbind, ST_bind. destruct (m s) as [[a'|v] s']; [|done]. intros [-> Hg] Hf. specialize (Hf s' Hg).
  by rewrite Hg in Hf.
Qed.

Lemma yields_pure {A B} (m : Check A) (f : A → Check B) s a b : m s = (Ok a, s) → yields (f a) s b → yields (m ≫= f) s b.
Proof. intros E. unfold yields, mbind, ST_bind. by rewrite E. Qed.

Lemma yields_with_hyp {A} h (m : Check A) s a : yields m (push h s) a → yields (with_hyp h m) s a.
Proof.
  unfold yields, with_hyp. destruct (m (push h s)) as [[b|v] s']; [|done]. intros [-> Hg]. split; [done|].
  unfold pop. cbn [gamma]. by rewrite Hg.
Qed.

Lemma yields_ext {A} (m1 m2 : Check A) s a : m1 s = m2 s → yields m2 s a → yields m1 s a.
Proof. unfold yields. by intros ->. Qed.

Lemma yields_level {A} (m : Check A) s a :
  (∀ st, gamma st = gamma s → yields m st a) → yields (step ;; enter_depth ;; leaving 1 m) s a.
Proof.
  intros Hm. unfold yields, mbind, ST_bind, step, enter_depth, leaving. destruct (steps s) as [|n]; [by eexists|]. cbn [depth].
  destruct (depth s) as [|d]; [by eexists|]. cbn [steps gamma]. specialize (Hm (mkState n d (gamma s)) eq_refl). unfold yields in Hm.
  destruct (m _) as [[b|v] s']; [|done]. done.
Qed.

Section rules.
Context `{Blake3} (fresh : Gamma → Prp → Prp → PropositionId → Prop).
Context (chk : TermKind → Prp → Check unit) (inf : TermKind → Check Prp).
Hypothesis chk_yields : ∀ k p s, unpack_free k = true → checks fresh (gamma s) k p → yields (chk k p) s tt.
Hypothesis inf_yields : ∀ k t s, unpack_free k = true → infers fresh (gamma s) k t → yields (inf k) s t.

Ltac gamma_rewrite :=
  repeat match goal with E : gamma _ = _ |- _ => rewrite E in * end.
Ltac side := cbn [push gamma] in *; gamma_rewrite; first [ eassumption | done ].

(** The next premise of the goal, by the induction hypothesis. *)
Ltac premise :=
  first
    [ eapply yields_pure; [reflexivity|]
    | eapply yields_pure; [apply check_name_free; gamma_rewrite; eassumption|]
    | eapply yields_bind; [eapply inf_yields; side|intros ? ?]
    | eapply yields_bind; [eapply chk_yields; side|intros ? ?]
    | eapply yields_bind; [eapply yields_with_hyp, chk_yields; side|intros ? ?]
    | eapply inf_yields; side
    | eapply chk_yields; side
    | eapply yields_with_hyp, chk_yields; side
    | apply yields_ret ];
  cbn beta iota.
Ltac endpoints := repeat (rewrite decide_False by (intros Hn; by apply Hn)); apply yields_ret.

Lemma spine_leaf_yields k g y z s : unpack_free k = true → infers fresh (gamma s) k (Realizes g y z) → yields (spine_leaf inf y k) s (g, z).
Proof. intros Hu Hi. unfold spine_leaf. do 2 premise. endpoints. Qed.

Lemma comp_spine_yields cr cl g y z ws dt s :
  unpack_free cl = true → unpack_free cr = true → infers fresh (gamma s) (RealizesComp cl cr) (Realizes g y z) →
  match comp_spine inf cl cr y ws dt s with
  | (Ok (ws', gz, z'), s') => z' = z ∧ fold_left Compose (reverse ws') gz = fold_left Compose (reverse ws) g ∧ gamma s' = gamma s
  | (Err v, _) => ∃ r, v = ResourceExhausted r
  end.
Proof.
  revert cl g y ws dt s.
  induction cr; intros cl g y ws dt s Hucl Hucr Hinf;
    inversion Hinf as [| | | | | | | | | |? ? ? g1 g2 ? ym ? Hl Hr| |]; subst; clear Hinf;
    cbn [comp_spine]; rewrite level_entry; (destruct (steps s) as [|n]; [by eexists|]); (destruct (depth s) as [|d]; [by eexists|]);
    pose proof (spine_leaf_yields cl g1 y ym (mkState n d (gamma s)) Hucl Hl) as E1; unfold yields in E1;
    (destruct (spine_leaf inf y cl _) as [[[g' y']|v] s1]; [|exact E1]); destruct E1 as [[= -> ->] Hg1]; cbn [gamma] in Hg1.
  16: { cbn [unpack_free] in Hucr. apply andb_true_iff in Hucr as [Hu1 Hu2].
        assert (infers fresh (gamma s1) (RealizesComp cr1 cr2) (Realizes g2 ym z)) as Hr' by by rewrite Hg1.
        specialize (IHcr2 cr1 g2 ym (ws ++ [g1]) (S dt) s1 Hu1 Hu2 Hr').
        destruct (comp_spine _ _ _ _ _ _ _) as [[[[ws' gz] z']|v] s']; [|done]. destruct IHcr2 as (-> & Hf & Hg).
        rewrite Hf, reverse_snoc, Hg. done. }
  all: match type of Hr with KernelTyping.infers _ _ ?k _ =>
      pose proof (spine_leaf_yields k g2 ym z s1 Hucr ltac:(by rewrite Hg1)) as E2; unfold yields in E2;
      destruct (spine_leaf inf ym k s1) as [[[g'' z']|v] s2]; [|exact E2]; destruct E2 as [[= -> ->] Hg2];
      split; [done|]; rewrite reverse_snoc; split; [done|]; unfold leave_depth; cbn [gamma]; congruence end.
Qed.

Lemma check_rule_yields k p s : (∀ v b q r, ¬ (k = Lam v b ∧ p = Impl q r)) → unpack_free k = true →
  checks fresh (gamma s) k p → yields (check_rule chk inf k p) s tt.
Proof.
  intros Hlam Hu Hc. inversion Hc; subst; cbn [unpack_free] in *;
    try (apply andb_true_iff in Hu as [Hu ?]); try (apply andb_true_iff in Hu as [Hu ?]); try done.
  - destruct (Hlam _ _ _ _ (conj eq_refl eq_refl)).
  - cbn [check_rule]. by rewrite decide_True.
  - cbn [check_rule]. repeat premise.
  - cbn [check_rule]. repeat premise.
  - cbn [check_rule]. repeat premise.
  - cbn [check_rule]. repeat premise.
  - cbn [check_rule]. repeat premise.
  - cbn [check_rule]. do 4 premise. endpoints.
  - cbn [check_rule]. do 4 premise. endpoints.
  - assert (check_rule chk inf k p = (inferred ← inf k; if decide (inferred = p) then mret tt
      else mismatch [PProp p] [PProp inferred])) as -> by (by destruct k, p).
    premise. by rewrite decide_True.
Qed.

Lemma infer_rule_yields k t s : unpack_free k = true → infers fresh (gamma s) k t → yields (infer_rule chk inf k) s t.
Proof.
  intros Hu Hc. inversion Hc as [| | | | | | | | | |? k1 k2 g1 g2 ? y ? H1 H2| |? ? ? ? ? Hres Hadm]; subst; cbn [unpack_free] in *;
    try (apply andb_true_iff in Hu as [Hu ?]); try (apply andb_true_iff in Hu as [Hu ?]); try done; cbn [infer_rule].
  - eapply yields_pure; [reflexivity|]. cbn beta iota. match goal with E : _ !! _ = Some _ |- _ => rewrite E end. apply yields_ret.
  - eapply yields_pure; [reflexivity|]. cbn beta iota.
    match goal with E : gamma s !! ?i = Some (Some ?n, ?q), Hf : name_free _ _ |- _ =>
      assert (list_find (λ h : option string * Prp, h.1 = Some n) (gamma s) = Some (i, (Some n, q))) as ->
    end; [|apply yields_ret].
    apply list_find_Some. split_and!; [done|done|]. intros j h Hj Hlt Heq.
    match goal with Hf : name_free _ _ |- _ => unfold name_free in Hf; rewrite Forall_forall in Hf;
      apply (Hf h); [|done] end. apply elem_of_take. eauto.
  - unfold infer_subst. repeat premise.
  - unfold infer_pres. repeat premise.
  - repeat premise.
  - repeat premise.
  - repeat premise.
  - repeat premise.
  - unfold infer_realizes_comp. destruct k2; try (do 4 premise; endpoints). do 2 premise. cbn [unpack_free] in *.
    match goal with Hb : _ && _ = true |- _ => apply andb_true_iff in Hb as [Hu1 Hu2] end.
    lazymatch goal with |- yields _ ?st _ =>
      assert (infers fresh (gamma st) (RealizesComp k2_1 k2_2) (Realizes g2 y z)) as H2' by (gamma_rewrite; done);
      pose proof (comp_spine_yields k2_2 k2_1 g2 y z [g1] 0 st Hu1 Hu2 H2') as E end.
    unfold yields, mbind, ST_bind. destruct (comp_spine _ _ _ _ _ _ _) as [[[[ws' gz] z']|v] s2]; [|done].
    destruct E as (-> & Hf & Hg). rewrite Hf. split; [done|congruence].
  - unfold infer_realizes_tensor. repeat premise.
  - unfold infer_prim_realizes. rewrite Hres, Hadm. apply yields_ret.
Qed.
End rules.

Lemma checker_yields `{Blake3} fresh n :
  (∀ k p s, unpack_free k = true → checks fresh (gamma s) k p → yields (check_type n k p) s tt) ∧
  (∀ k t s, unpack_free k = true → infers fresh (gamma s) k t → yields (infer_type n k) s t).
Proof.
  induction n as [|n [IHc IHi]]; [split; intros; by eexists|]. split.
  - intros k p s Hu Hp. eapply yields_ext; [apply check_type_eq|]. apply yields_level. intros st Hst. rewrite <-Hst in Hp.
    pose proof (check_rule_yields fresh _ _ IHc IHi k p st) as Hrule.
    destruct k; try (apply Hrule; [by intros ???? [? ?]|done|done]). destruct p; try (apply Hrule; [by intros ???? [? ?]|done|done]).
    cbn [check_level unpack_free] in *. inversion Hp; subst; [|done]. by apply yields_with_hyp, IHc.
  - intros k t s Hu Ht. eapply yields_ext; [apply infer_type_eq|]. apply yields_level. intros st Hst. rewrite <-Hst in Ht.
    by apply (infer_rule_yields fresh).
Qed.

Lemma acceptance_yields `{Blake3} fresh (ctx : ContextId) (p : Prp) (t : ExplicitTerm) budget :
  unpack_free (kind t) = true → context t = ctx → checks fresh [] (kind t) p →
  acceptance ctx p t budget = Accepted (mkCertificate native_verifier (certificate_id_v1 (mkMaterial ctx p t))) ∨
  ∃ r, acceptance ctx p t budget = ResourceExhausted r.
Proof.
  intros Hu Hc Hk. unfold acceptance. rewrite decide_False by (intros Hn; by apply Hn).
  destruct (checker_yields fresh (max_steps budget)) as [Hy _].
  specialize (Hy (kind t) p (mkState (max_steps budget) (max_depth budget) []) Hu Hk). unfold yields in Hy.
  destruct (check_type _ _ _ _) as [[[]|v] s']; cbn [fst]; [by left|]. destruct Hy as [r ->]. right. by exists r.
Qed.

(** A budget of twice the term's size in both counters. *)
Definition ample (t : ExplicitTerm) (b : Budget) : Prop :=
  2 * ksize (kind t) ≤ max_steps b ∧ 2 * ksize (kind t) ≤ max_depth b.

(** * Properties *)

(** A budget can only run out. A term without [Unpack] that is accepted under one budget is,
    under any other, accepted with the same certificate or [ResourceExhausted], never rejected; and
    it is accepted under every budget of twice its size. So a verdict that is neither, under
    some budget, settles that no budget accepts. *)
Theorem budget_only_exhausts `{Blake3} (ctx : ContextId) (p : Prp) (t : ExplicitTerm) b1 c :
  unpack_free (kind t) = true → acceptance ctx p t b1 = Accepted c →
  (∀ b2, acceptance ctx p t b2 = Accepted c ∨ ∃ r, acceptance ctx p t b2 = ResourceExhausted r) ∧
  (∀ b2, ample t b2 → acceptance ctx p t b2 = Accepted c).
Proof.
  intros Hu (Hctx & Hc & ->)%acceptance_inv. split; intros b2.
  - by apply (acceptance_yields code_fresh).
  - intros [Hs Hd]. by apply (acceptance_complete code_fresh).
Qed.

Lemma budget_only_exhausts_witness :
  let t := mkTerm (demo_id 1) (Lam (Some "h") (Hyp (Index 0))) in
  let p := Impl (Atom (demo_id 2)) (Atom (demo_id 2)) in
  @acceptance demo_hash (demo_id 1) p t (mkBudget 1 9) = @acceptance demo_hash (demo_id 1) p t (mkBudget 4 4) ∨
    ∃ r, @acceptance demo_hash (demo_id 1) p t (mkBudget 1 9) = ResourceExhausted r.
Proof.
  assert (∃ c, @acceptance demo_hash (demo_id 1) (Impl (Atom (demo_id 2)) (Atom (demo_id 2)))
    (mkTerm (demo_id 1) (Lam (Some "h") (Hyp (Index 0)))) (mkBudget 4 4) = Accepted c) as [c Hc] by (eexists; vm_compute; reflexivity).
  intros t p. unfold t, p. rewrite Hc. exact (proj1 (@budget_only_exhausts demo_hash (demo_id 1) (Impl (Atom (demo_id 2)) (Atom (demo_id 2)))
    (mkTerm (demo_id 1) (Lam (Some "h") (Hyp (Index 0)))) (mkBudget 4 4) c eq_refl Hc) (mkBudget 1 9)).
Defined.
