(* ===== verification/KernelSound.v ===== *)
(** Soundness of the proof kernel, and its two limits
    (src/crates/brix-kernel/src/: check.rs, term.rs).

    A [Frame] with a valuation of the constants interprets object terms and
    propositions; [Preserves] binds the hole of its motive, as [Exists] binds its
    variable. Derivations whose unpacked constants are fresh in the sense of the
    ADR are true in every class of lawful valuations closed under revaluing such
    constants; without [Unpack] every accepted proposition is true in every lawful
    valuation. Indices must leave room for the shift of an instantiation: for some
    [n < 2^64] every index is below [n] plus the number of binders around it.
    [capture_goal], [motive_goal] and [wrap_goal] show what the three hypotheses
    exclude: the checker accepts them all. *)
From S2P Require Import Prelude IntCodec Canon CanonLaws Witness Encoding KernelTerm KernelPrim.
From S2P Require Import Certificate Outcome KernelCheck KernelMeta KernelTyping.

Record Frame : Type := mkFrame {
  obj : Type;
  f_compose : obj → obj → obj;
  f_tensor : obj → obj → obj;
  f_atom : PropositionId → Prop;
  f_applied : PropositionId → list obj → Prop;
  f_realizes : obj → obj → obj → Prop
}.

(** Splits the conjunctions of tests in the context. *)
Ltac bools :=
  repeat match goal with Hb : _ && _ = true |- _ => apply andb_true_iff in Hb as [? ?] end.

Section semantics.
Context (F : Frame).
Abbreviation valuation := (PropositionId → obj F).
Abbreviation env := (Z → obj F).
Implicit Types (V : valuation) (ρ : env) (t : ObjectTerm) (p : Prp).

Definition scons (d : obj F) (ρ : env) : env := λ i,
  if decide (i = 0%Z) then d else ρ (i - 1)%Z.

(** [l] on top of [ρ]. *)
Definition stack (l : list (obj F)) (ρ : env) : env := foldr scons ρ l.

Fixpoint eval V ρ t : obj F :=
  match t with
  | Const id => V id
  | BoundVar i => ρ i
  | Compose g2 g1 => f_compose F (eval V ρ g2) (eval V ρ g1)
  | Tensor a b => f_tensor F (eval V ρ a) (eval V ρ b)
  end.

Fixpoint holds V ρ p : Prop :=
  match p with
  | Atom id => f_atom F id
  | Impl p q => holds V ρ p → holds V ρ q
  | Prod p q => holds V ρ p ∧ holds V ρ q
  | Sum p q => holds V ρ p ∨ holds V ρ q
  | Eqn s t => eval V ρ s = eval V ρ t
  | Exists body => ∃ d, holds V (scons d ρ) body
  | Applied sym args => f_applied F sym (eval V ρ <$> args)
  | Realizes w x y => f_realizes F (eval V ρ w) (eval V ρ x) (eval V ρ y)
  | Preserves w motive => ∀ x y, f_realizes F (eval V ρ w) x y →
      holds V (scons x ρ) motive → holds V (scons y ρ) motive
  end.

Definition revalue V (c : PropositionId) (d : obj F) : valuation :=
  λ id, if decide (id = c) then d else V id.

(** A valuation under which the primitive rules are true. *)
Record lawful `{Blake3} (ρ : env) V : Prop := {
  law_comp w g1 g2 x y z :
    witness_digest w = compose (witness_digest g2) (witness_digest g1) →
    f_realizes F (eval V ρ g1) x y → f_realizes F (eval V ρ g2) y z →
    f_realizes F (eval V ρ w) x z;
  law_tensor w w1 w2 x1 x2 y1 y2 :
    witness_digest w = tensor (witness_digest w1) (witness_digest w2) →
    f_realizes F (eval V ρ w1) x1 y1 → f_realizes F (eval V ρ w2) x2 y2 →
    f_realizes F (eval V ρ w) (f_tensor F x1 x2) (f_tensor F y1 y2);
  law_prim rel r src dst :
    resolve rel = Some r → admits r src dst = true →
    f_realizes F (V (mkId (digest (generator r)))) (V src) (V dst)
}.

(** ** Substitution is evaluation *)

Lemma stack_lt l ρ i d : (0 ≤ i)%Z → l !! Z.to_nat i = Some d → stack l ρ i = d.
Proof.
  revert i. induction l as [|e l IH]; intros i Hi Hl; [done|]. simpl. unfold scons. case_decide as H0.
  - subst i. by simplify_eq/=.
  - apply IH; [lia|]. replace (Z.to_nat i) with (S (Z.to_nat (i - 1))) in Hl by lia. done.
Qed.

Lemma stack_ge l ρ i : (Z.of_nat (length l) ≤ i)%Z → stack l ρ i = ρ (i - Z.of_nat (length l))%Z.
Proof.
  revert i. induction l as [|e l IH]; intros i Hi; simpl in *; [f_equal; lia|].
  unfold scons. rewrite decide_False by lia. rewrite IH by lia. f_equal. lia.
Qed.

Lemma usize_add_small a b : (0 ≤ a + b < 2^64)%Z → usize_add a b = (a + b)%Z.
Proof. apply Z.mod_small. Qed.

Lemma shift_0 t : shift_object_term t 0 = t.
Proof. by destruct t. Qed.

(** The indices of [t] are below [n]. *)
Fixpoint obj_fits (n : Z) t : bool :=
  match t with
  | Const _ => true
  | BoundVar i => (0 <=? i)%Z && (i <? n)%Z
  | Compose a b | Tensor a b => obj_fits n a && obj_fits n b
  end.

Abbreviation len l := (Z.of_nat (length l)).

Lemma eval_shift n V ρ l t :
  obj_fits n t = true → (n + len l ≤ 2^64)%Z →
  eval V (stack l ρ) (shift_object_term t (len l)) = eval V ρ t.
Proof.
  intros Ht Hn. destruct (decide (len l = 0%Z)) as [H0|H0].
  { assert (l = []) as -> by (apply nil_length_inv; lia). by rewrite shift_0. }
  induction t as [c|i|a IHa b IHb|a IHa b IHb]; cbn [shift_object_term obj_fits] in *;
    rewrite ?andb_true_iff in Ht; rewrite (proj2 (Z.eqb_neq _ _) H0); cbn [eval];
    [done| |by rewrite IHa, IHb by naive_solver..].
  rewrite usize_add_small, stack_ge by lia. f_equal. lia.
Qed.

Lemma eval_subst n V ρ l t r :
  obj_fits n r = true → obj_fits (n + 1 + len l) t = true → (n + 1 + len l ≤ 2^64)%Z →
  eval V (stack l ρ) (subst_obj t r (len l)) = eval V (stack l (scons (eval V ρ r) ρ)) t.
Proof.
  intros Hr Ht Hn. induction t as [c|i|a IHa b IHb|a IHa b IHb]; cbn [subst_obj eval obj_fits] in *;
    rewrite ?andb_true_iff in Ht; [done| |by rewrite IHa, IHb by naive_solver..].
  destruct (Z.eqb_spec i (len l)) as [Hi|Hi]; [|destruct (Z.ltb_spec (len l) i) as [Hlt|Hlt]].
  - subst i. rewrite (eval_shift n), stack_ge by (done || lia). unfold scons.
    by rewrite decide_True by lia.
  - cbn [eval]. rewrite !stack_ge by lia. unfold scons. rewrite decide_False by lia. f_equal. lia.
  - cbn [eval]. destruct (lookup_lt_is_Some_2 l (Z.to_nat i)) as [d Hd]; [lia|].
    by rewrite !(stack_lt _ _ i d) by (done || lia).
Qed.

(** No [Preserves], and indices below [n]: what may be instantiated. *)
Fixpoint plain (n : Z) p : bool :=
  match p with
  | Atom _ => true
  | Impl p q | Prod p q | Sum p q => plain n p && plain n q
  | Eqn s t => obj_fits n s && obj_fits n t
  | Exists body => (n <? 2^64)%Z && plain (n + 1) body
  | Applied _ args => forallb (obj_fits n) args
  | Realizes w x y => obj_fits n w && obj_fits n x && obj_fits n y
  | Preserves _ _ => false
  end.

(** Every body under [Exists] and every motive is [plain], and indices are below [n]. *)
Fixpoint scoped (n : Z) p : bool :=
  match p with
  | Impl p q | Prod p q | Sum p q => scoped n p && scoped n q
  | Preserves w motive => obj_fits n w && plain (n + 1) motive
  | p => plain n p
  end.

Lemma holds_subst n V ρ l p r :
  obj_fits n r = true → plain (n + 1 + len l) p = true → (0 ≤ n)%Z → (n + 1 + len l ≤ 2^64)%Z →
  holds V (stack l ρ) (subst_prop p r (len l)) ↔
  holds V (stack l (scons (eval V ρ r) ρ)) p.
Proof.
  intros Hr Hp H0. revert l Hp.
  induction p as [?|? IH1 ? IH2|? IH1 ? IH2|? IH1 ? IH2|??|? IH|? args|???|??];
    intros l Hp Hn; cbn [subst_prop holds plain] in *; bools;
    try (rewrite IH1, IH2 by done; done).
  - done.
  - by rewrite !(eval_subst n).
  - rewrite usize_add_small by lia.
    split; intros [d Hd]; exists d; specialize (IH (d :: l)); cbn [length stack foldr] in IH;
      rewrite Nat2Z.inj_succ, <-Z.add_1_r in IH; apply IH; try done; try lia;
      by replace (n + 1 + (len l + 1))%Z with (n + 1 + len l + 1)%Z by lia.
  - rewrite <-list_fmap_compose.
    replace (eval V (stack l ρ) ∘ (λ arg, subst_obj arg r (len l)) <$> args)
      with (eval V (stack l (scons (eval V ρ r) ρ)) <$> args); [done|].
    apply list_fmap_ext. intros i t Ht. symmetry. apply (eval_subst n); [done| |done].
    rewrite forallb_forall in Hp. apply Hp. by eapply list_elem_of_In, list_elem_of_lookup_2.
  - by rewrite !(eval_subst n).
  - done.
Qed.

Lemma holds_instantiate n V ρ p r :
  (0 ≤ n < 2^64)%Z → obj_fits n r = true → plain (n + 1) p = true →
  holds V ρ (instantiate p r) ↔ holds V (scons (eval V ρ r) ρ) p.
Proof.
  intros Hn Hr Hp. apply (holds_subst n V ρ []); simpl; [done| |lia..]. by rewrite Z.add_0_r.
Qed.

Lemma obj_fits_shift n t d :
  obj_fits n t = true → (0 ≤ d)%Z → (n + d ≤ 2^64)%Z → obj_fits (n + d) (shift_object_term t d) = true.
Proof.
  intros Ht Hd Hn. destruct (decide (d = 0%Z)) as [->|H0]; [by rewrite shift_0, Z.add_0_r|].
  induction t; cbn [shift_object_term obj_fits] in *; rewrite (proj2 (Z.eqb_neq _ _) H0); cbn [obj_fits];
    [done| |bools; apply andb_true_iff; by auto..].
  rewrite usize_add_small by lia. lia.
Qed.

Lemma obj_fits_subst n t r d :
  obj_fits n r = true → obj_fits (n + 1 + d) t = true → (0 ≤ n)%Z → (0 ≤ d)%Z → (n + 1 + d ≤ 2^64)%Z →
  obj_fits (n + d) (subst_obj t r d) = true.
Proof.
  intros Hr Ht H0 Hd Hn. induction t; cbn [subst_obj obj_fits] in *;
    [done| |bools; apply andb_true_iff; by auto..].
  destruct (Z.eqb_spec idx d); [apply obj_fits_shift; [done|lia..]|].
  destruct (Z.ltb_spec d idx); cbn [obj_fits]; lia.
Qed.

Lemma plain_subst n p r d :
  obj_fits n r = true → plain (n + 1 + d) p = true → (0 ≤ n)%Z → (0 ≤ d)%Z → (n + 1 + d ≤ 2^64)%Z →
  plain (n + d) (subst_prop p r d) = true.
Proof.
  intros Hr Hp H0. revert d Hp. induction p as [?|????|????|????|??|? IH|? args|???|??];
    intros d Hp Hd Hn; cbn [plain subst_prop] in *; bools; try done;
    rewrite ?andb_true_iff; split_and?; auto using obj_fits_subst; try lia.
  - rewrite usize_add_small by lia. replace (n + d + 1)%Z with (n + (d + 1))%Z by lia.
    apply IH; [|lia..]. by replace (n + 1 + (d + 1))%Z with (n + 1 + d + 1)%Z by lia.
  - rewrite forallb_forall in *. intros t Ht. apply list_elem_of_In, list_elem_of_fmap in Ht as (u & -> & Hu).
    apply obj_fits_subst; try done. by apply Hp, list_elem_of_In.
Qed.

Lemma plain_scoped n p : plain n p = true → scoped n p = true.
Proof.
  induction p; intros Hp; cbn [plain scoped] in *; bools; rewrite ?andb_true_iff; by auto.
Qed.

Lemma scoped_instantiate n p r :
  (0 ≤ n < 2^64)%Z → obj_fits n r = true → plain (n + 1) p = true → scoped n (instantiate p r) = true.
Proof.
  intros Hn Hr Hp. apply plain_scoped. rewrite <-(Z.add_0_r n).
  apply plain_subst; try done; try lia. by rewrite Z.add_0_r.
Qed.

(** ** Revaluing a constant that does not occur *)

Lemma eval_revalue V ρ c d t :
  obj_term_contains t (Const c) = false → eval (revalue V c d) ρ t = eval V ρ t.
Proof.
  induction t as [id|i|a IHa b IHb|a IHa b IHb]; cbn [obj_term_contains eval]; case_decide; try done;
    rewrite ?orb_false_iff; [|naive_solver congruence..].
  intros _. unfold revalue. rewrite decide_False; [done|]. congruence.
Qed.

Lemma holds_revalue V ρ c d p :
  prop_contains_obj_term p (Const c) = false → holds (revalue V c d) ρ p ↔ holds V ρ p.
Proof.
  revert ρ. induction p as [?|? IH1 ? IH2|? IH1 ? IH2|? IH1 ? IH2|??|? IH|? args|???|?? IH];
    intros ρ; cbn [prop_contains_obj_term holds]; rewrite ?orb_false_iff; intros Hp.
  - done.
  - destruct Hp. by rewrite IH1, IH2.
  - destruct Hp. by rewrite IH1, IH2.
  - destruct Hp. by rewrite IH1, IH2.
  - destruct Hp. by rewrite !eval_revalue.
  - by setoid_rewrite IH.
  - replace (eval (revalue V c d) ρ <$> args) with (eval V ρ <$> args); [done|].
    apply list_fmap_ext. intros i t Ht. symmetry. apply eval_revalue.
    apply list_elem_of_lookup_2, list_elem_of_In in Ht.
    destruct (obj_term_contains t (Const c)) eqn:E; [|done].
    assert (existsb (λ arg, obj_term_contains arg (Const c)) args = true); [|congruence].
    apply existsb_exists. eauto.
  - destruct Hp as [[? ?] ?]. by rewrite !eval_revalue.
  - destruct Hp. rewrite eval_revalue by done. by setoid_rewrite IH.
Qed.
End semantics.

(** Every motive a term supplies is [plain], and its indices are below [n]. *)
Fixpoint annotated (n : Z) (k : TermKind) : bool :=
  match k with
  | Hyp _ | Unsupported _ => true
  | Refl t => obj_fits n t
  | PrimRealizes _ src dst => obj_fits n src && obj_fits n dst
  | Lam _ b | Proj1 b | Proj2 b | Inl b | Inr b => annotated n b
  | Pack w b => obj_fits n w && annotated n b
  | App a b | Pair a b | RealizesComp a b | RealizesTensor a b | Unpack a _ _ b =>
    annotated n a && annotated n b
  | Subst a m b => annotated n a && plain (n + 1) m && annotated n b
  | Case a _ b _ c => annotated n a && annotated n b && annotated n c
  | Pres a b m c => annotated n a && annotated n b && plain (n + 1) m && annotated n c
  end.

(** The eigenvariable condition of ADR-0003, section 5.2. *)
Definition adr_fresh (Γ : Gamma) (pred r : Prp) (c : PropositionId) : Prop :=
  Forall (λ h, prop_contains_obj_term h.2 (Const c) = false) Γ ∧
  prop_contains_obj_term pred (Const c) = false ∧
  prop_contains_obj_term r (Const c) = false.

Section soundness.
Context `{Blake3} (F : Frame) (ρ : Z → obj F).
(** Free indices are below [n]. *)
Context (n : Z) (Hn : (0 ≤ n < 2^64)%Z).
Context (fresh : Gamma → Prp → Prp → PropositionId → Prop).
Context (class : (PropositionId → obj F) → Prop).
Hypothesis class_lawful : ∀ V, class V → lawful F ρ V.
Hypothesis class_fresh : ∀ Γ pred r c, fresh Γ pred r c →
  adr_fresh Γ pred r c ∧ ∀ V d, class V → class (revalue F V c d).

Definition ctx_scoped (Γ : Gamma) : Prop := Forall (λ h, scoped n h.2 = true) Γ.
Definition ctx_holds (V : PropositionId → obj F) (Γ : Gamma) : Prop := Forall (λ h, holds F V ρ h.2) Γ.

Definition check_valid (Γ : Gamma) (k : TermKind) (p : Prp) : Prop :=
  annotated n k = true → ctx_scoped Γ → scoped n p = true →
  ∀ V, class V → ctx_holds V Γ → holds F V ρ p.
Definition infer_valid (Γ : Gamma) (k : TermKind) (p : Prp) : Prop :=
  annotated n k = true → ctx_scoped Γ →
  scoped n p = true ∧ ∀ V, class V → ctx_holds V Γ → holds F V ρ p.

Ltac valid :=
  unfold check_valid, infer_valid; intros; cbn [annotated scoped plain obj_fits holds] in *; bools.

(** Splits what [scoped] says of an inferred proposition. *)
Ltac open Hsc := cbn [scoped plain] in Hsc; bools.

(** [instantiate], within the bound [n]. *)
Lemma holds_inst V p r :
  obj_fits n r = true → plain (n + 1) p = true →
  holds F V ρ (instantiate p r) ↔ holds F V (scons F (eval F V ρ r) ρ) p.
Proof. by apply holds_instantiate. Qed.
Lemma scoped_inst p r :
  obj_fits n r = true → plain (n + 1) p = true → scoped n (instantiate p r) = true.
Proof. by apply scoped_instantiate. Qed.

(** The unpacked object, as a revaluation of its constant. *)
Lemma unpack_revalue Γ pred r c V pv :
  adr_fresh Γ pred r c → plain (n + 1) pred = true →
  ctx_holds V Γ → holds F V ρ (Exists pred) →
  ∃ d, ctx_holds (revalue F V c d) ((pv, instantiate pred (Const c)) :: Γ) ∧
    (holds F (revalue F V c d) ρ r → holds F V ρ r).
Proof.
  intros (HΓ & Hpred & Hr) Hpf HV [d Hd]. exists d. split.
  - constructor.
    + cbn [snd]. apply holds_inst; [done..|]. cbn [eval].
      unfold revalue at 2. rewrite decide_True by done. by apply holds_revalue.
    + unfold ctx_holds in *. rewrite Forall_forall in HV, HΓ. apply Forall_forall.
      intros h Hh. apply holds_revalue; [by apply HΓ|by apply HV].
  - by apply holds_revalue.
Qed.

Lemma check_unpack_valid Γ s ov pv b pred r c :
  infer_valid Γ s (Exists pred) → fresh Γ pred r c →
  check_valid ((pv, instantiate pred (Const c)) :: Γ) b r →
  check_valid Γ (Unpack s ov pv b) r.
Proof.
  intros IHs Hf IHb. valid. destruct IHs as [Hsc Hs]; [done..|].
  destruct (class_fresh _ _ _ _ Hf) as [Hadr Hcl]. open Hsc.
  destruct (unpack_revalue Γ pred r c V pv Hadr) as (d & Hd & Hback); [done..|by apply Hs|].
  apply Hback, IHb; [done| |done|by apply Hcl|done].
  constructor; [by apply scoped_inst|done].
Qed.

Lemma infer_unpack_valid Γ s ov pv b pred r c :
  infer_valid Γ s (Exists pred) → fresh Γ pred r c →
  infer_valid ((pv, instantiate pred (Const c)) :: Γ) b r →
  infer_valid Γ (Unpack s ov pv b) r.
Proof.
  intros IHs Hf IHb. valid. destruct IHs as [Hsc Hs]; [done..|].
  destruct (class_fresh _ _ _ _ Hf) as [Hadr Hcl]. open Hsc.
  destruct IHb as [Hr Hb]; [done|constructor; [by apply scoped_inst|done]|].
  split; [done|]. intros V HV HΓ.
  destruct (unpack_revalue Γ pred r c V pv Hadr) as (d & Hd & Hback); [done..|by apply Hs|].
  apply Hback, Hb; [by apply Hcl|done].
Qed.

Lemma ctx_lookup (Γ : Gamma) (P : option string * Prp → Prop) i v p :
  Forall P Γ → Γ !! i = Some (v, p) → P (v, p).
Proof. intros HΓ Hi. by eapply Forall_lookup in HΓ. Qed.

Lemma typing_valid :
  (∀ Γ k p, checks fresh Γ k p → check_valid Γ k p) ∧
  (∀ Γ k p, infers fresh Γ k p → infer_valid Γ k p).
Proof.
  apply typing_mut.
  - intros Γ v b p q _ IH. valid. intros Hp. apply IH; try done; by constructor.
  - intros Γ t. valid. done.
  - intros Γ w b pred _ IH. valid. exists (eval F V ρ w). apply holds_inst; [done..|].
    apply IH; try done. by apply scoped_inst.
  - intros. by eapply check_unpack_valid.
  - intros Γ k1 k2 p q _ IH1 _ IH2. valid. split; [by apply IH1|by apply IH2].
  - intros Γ k p q _ IH. valid. left. by apply IH.
  - intros Γ k p q _ IH. valid. right. by apply IH.
  - intros Γ d lv lb rv rb p q r _ IHd _ _ _ IHl _ IHr. valid.
    destruct IHd as [Hsc Hd]; [done..|]. open Hsc.
    destruct (Hd V) as [Hp|Hq]; [done..| |]; [apply IHl|apply IHr]; try done; by constructor.
  - intros Γ k1 k2 g1 g2 w x y z _ IH1 _ IH2 Hw. valid.
    destruct IH1 as [_ Hk1]; [done..|]. destruct IH2 as [_ Hk2]; [done..|].
    eapply (law_comp _ _ _ (class_lawful V ltac:(done))); [exact Hw|by apply Hk1|by apply Hk2].
  - intros Γ k1 k2 w1 w2 w x1 x2 y1 y2 _ IH1 _ IH2 Hw. valid.
    destruct IH1 as [_ Hk1]; [done..|]. destruct IH2 as [_ Hk2]; [done..|].
    cbn [eval]. eapply (law_tensor _ _ _ (class_lawful V ltac:(done))); [exact Hw|by apply Hk1|by apply Hk2].
  - intros Γ k p _ _ IH. valid. by apply IH.
  - intros Γ i v p Hi. valid. split; [by apply (ctx_lookup _ _ _ _ _ H1 Hi)|].
    intros V _ HV. by apply (ctx_lookup _ _ _ _ _ HV Hi).
  - intros Γ name i p Hi _. valid. split; [by apply (ctx_lookup _ _ _ _ _ H1 Hi)|].
    intros V _ HV. by apply (ctx_lookup _ _ _ _ _ HV Hi).
  - intros Γ t. valid. by split; [apply andb_true_iff|].
  - intros Γ e motive k a b _ IHe _ IHk. valid. destruct IHe as [Hsc He]; [done..|]. open Hsc.
    split; [by apply scoped_inst|]. intros V HV HΓ.
    apply holds_inst; [done..|]. rewrite <-(He V) by done. apply holds_inst; [done..|].
    apply IHk; try done. by apply scoped_inst.
  - intros. by eapply infer_unpack_valid.
  - intros Γ k1 k2 motive k3 w x y _ IH1 _ IH2 _ IH3. valid. destruct IH1 as [Hsc Hk1]; [done..|]. open Hsc.
    split; [by apply scoped_inst|]. intros V HV HΓ. apply holds_inst; [done..|].
    eapply IH2; [done|done|by apply andb_true_iff|done|done|by apply Hk1|].
    apply holds_inst; [done..|]. apply IH3; try done. by apply scoped_inst.
  - intros Γ f a p q _ IHf _ IHa. valid. destruct IHf as [Hsc Hf]; [done..|].
    open Hsc. split; [done|]. intros V HV HΓ.
    apply (Hf V HV HΓ). by apply IHa.
  - intros Γ k p q _ IH. valid. destruct IH as [Hsc Hk]; [done..|].
    open Hsc. split; [done|]. intros V HV HΓ. by apply (Hk V HV HΓ).
  - intros Γ k p q _ IH. valid. destruct IH as [Hsc Hk]; [done..|].
    open Hsc. split; [done|]. intros V HV HΓ. by apply (Hk V HV HΓ).
  - intros Γ k1 k2 p q _ IH1 _ IH2. valid. destruct IH1 as [Hs1 Hk1]; [done..|].
    destruct IH2 as [Hs2 Hk2]; [done..|]. split; [by rewrite Hs1, Hs2|]. intros V HV HΓ.
    split; [by apply Hk1|by apply Hk2].
  - intros Γ k1 k2 g1 g2 x y z _ IH1 _ IH2. valid. destruct IH1 as [Hs1 Hk1]; [done..|].
    destruct IH2 as [Hs2 Hk2]; [done..|]. open Hs1. open Hs2. rewrite !andb_true_iff.
    split; [done|]. intros V HV HΓ.
    apply (law_comp _ _ _ (class_lawful V HV) (Compose g2 g1) g1 g2 _ (eval F V ρ y));
      [done|by apply Hk1|by apply Hk2].
  - intros Γ k1 k2 w1 w2 x1 x2 y1 y2 _ IH1 _ IH2. valid. destruct IH1 as [Hs1 Hk1]; [done..|].
    destruct IH2 as [Hs2 Hk2]; [done..|]. open Hs1. open Hs2. rewrite !andb_true_iff.
    split; [done|]. intros V HV HΓ. cbn [eval].
    apply (law_tensor _ _ _ (class_lawful V HV) (Tensor w1 w2) w1 w2);
      [done|by apply Hk1|by apply Hk2].
  - intros Γ rel src dst r Hres Hadm. valid. split; [done|]. intros V HV HΓ. cbn [eval].
    by eapply (law_prim _ _ _ (class_lawful V HV)).
Qed.
End soundness.

(** Without [Unpack] the freshness condition does not matter. *)
Lemma typing_unpack_free `{Blake3} fr1 fr2 :
  (∀ Γ k p, checks fr1 Γ k p → unpack_free k = true → checks fr2 Γ k p) ∧
  (∀ Γ k p, infers fr1 Γ k p → unpack_free k = true → infers fr2 Γ k p).
Proof.
  apply typing_mut; intros; cbn [unpack_free] in *;
    repeat match goal with Hb : _ && _ = true |- _ => apply andb_true_iff in Hb as [? ?] end;
    try discriminate; by econstructor; eauto.
Qed.

(** ** What the checker accepts beyond *)

(** [(∃x. P x) → (P c → R) → R] for the constant [c] the kernel will mint. *)
Definition capture_budget : Budget := mkBudget 20 20.
Section capture.
Context `{Blake3} (ctx : ContextId) (sym goal : PropositionId).

Definition predicted : ObjectTerm := Const (eigen_id (Some "x") 16).
Definition capture_goal : Prp :=
  Impl (Exists (Applied sym [BoundVar 0]))
    (Impl (Impl (Applied sym [predicted]) (Atom goal)) (Atom goal)).
Definition capture_term : ExplicitTerm :=
  mkTerm ctx (Lam None (Lam None
    (Unpack (Hyp (Index 1)) (Some "x") None (App (Hyp (Index 1)) (Hyp (Index 0)))))).

(** [(∃x. Preserves(w, P(x))) → Realizes(w, a, b) → P a → P b]: under the binder
    the motive does not mention its hole, so the first hypothesis says nothing. *)
Context (w a b : PropositionId).
Definition motive_goal : Prp :=
  Impl (Exists (Preserves (Const w) (Applied sym [BoundVar 1])))
    (Impl (Realizes (Const w) (Const a) (Const b))
       (Impl (Applied sym [Const a]) (Applied sym [Const b]))).
Definition motive_term : ExplicitTerm :=
  mkTerm ctx (Lam None (Lam None (Lam None
    (Unpack (Hyp (Index 2)) (Some "x") None
       (Pres (Hyp (Index 2)) (Hyp (Index 0)) (Applied sym [BoundVar 0]) (Hyp (Index 1))))))).

(** [((∃y. P(y, y)) → q) → ∃x. ((∃y. P(x, y)) → q)]. *)
Definition wrap_goal : Prp :=
  Impl (Impl (Exists (Applied sym [BoundVar 0; BoundVar 0])) (Atom goal))
    (Exists (Impl (Exists (Applied sym [BoundVar 1; BoundVar 0])) (Atom goal))).
Definition wrap_term : ExplicitTerm :=
  mkTerm ctx (Lam None (Pack (BoundVar (2^64 - 1)) (Hyp (Index 0)))).
End capture.

(** A proposition no lawful interpretation may falsify. *)
Definition valid `{Blake3} (p : Prp) : Prop :=
  ∀ F ρ V, lawful F ρ V → holds F V ρ p.

(** Two objects, with everything realized by everything. *)
Definition two_objects (sym : PropositionId) : Frame :=
  mkFrame bool (λ _ _, true) (λ _ _, true) (λ _, False) (λ s args, s = sym ∧ args = [true]) (λ _ _ _, True).

Lemma two_objects_lawful `{Blake3} sym ρ V : lawful (two_objects sym) ρ V.
Proof. by split. Qed.

(** Runs a checker on a concrete term whose constants stay abstract. *)
Ltac run_checker :=
  lazy -[eigen_id decide usize_add];
  repeat (match goal with
  | |- context [@decide ?P ?D] =>
    first [ assert (Hyes : P) by (reflexivity || lia); destruct (@decide P D) as [_|Hno]; [clear Hyes|destruct (Hno Hyes)]
          | assert (Hno : ¬ P) by (congruence || lia); destruct (@decide P D) as [Hyes|_]; [destruct (Hno Hyes)|clear Hno] ]
  end; lazy -[eigen_id decide usize_add]).

Lemma capture_accepted `{Blake3} ctx sym goal :
  ∃ c, acceptance ctx (capture_goal sym goal) (capture_term ctx) capture_budget = Accepted c.
Proof.
  unfold acceptance. rewrite decide_False by (intros Hn; by apply Hn).
  enough (∃ s', check_type 20 (kind (capture_term ctx)) (capture_goal sym goal) (mkState 20 20 []) = (Ok tt, s')) as [s' E].
  { unfold capture_budget, max_steps, max_depth. rewrite E. by eexists. }
  unfold capture_goal, predicted, capture_term. run_checker. by eexists.
Qed.

Lemma motive_accepted `{Blake3} ctx sym w a b :
  b ≠ eigen_id (Some "x") 15 →
  ∃ c, acceptance ctx (motive_goal sym w a b) (motive_term ctx sym) capture_budget = Accepted c.
Proof.
  intros Hb. unfold acceptance. rewrite decide_False by (intros Hn; by apply Hn).
  enough (∃ s', check_type 20 (kind (motive_term ctx sym)) (motive_goal sym w a b) (mkState 20 20 []) = (Ok tt, s')) as [s' E].
  { unfold capture_budget, max_steps, max_depth. rewrite E. by eexists. }
  unfold motive_goal, motive_term. run_checker. by eexists.
Qed.

(** The object [predicted] stands for is not [true]. *)
Lemma capture_not_valid `{Blake3} sym goal : ¬ valid (capture_goal sym goal).
Proof.
  intros Hv.
  apply (Hv (two_objects sym) (λ _, true) (λ _, false)); [apply two_objects_lawful| |].
  - by exists true.
  - intros [_ [=]].
Qed.

Lemma motive_not_valid `{Blake3} sym w a b : a ≠ b → ¬ valid (motive_goal sym w a b).
Proof.
  intros Hab Hv.
  destruct (Hv (two_objects sym) (λ _, true) (λ c, bool_decide (c = a))) as [_ Hb];
    [apply two_objects_lawful| |done| |].
  - by exists true.
  - split; [done|]. cbn. by rewrite bool_decide_eq_true_2.
  - cbn in Hb. rewrite bool_decide_eq_false_2 in Hb; [done|congruence].
Qed.

Lemma typing_sound `{Blake3} n k p F ρ V fresh :
  (0 ≤ n < 2^64)%Z →
  checks fresh [] k p → unpack_free k = true → annotated n k = true → scoped n p = true →
  lawful F ρ V → holds F V ρ p.
Proof.
  intros Hn Hk Hu Ha Hs Hl.
  apply (typing_unpack_free _ (λ _ _ _ _, False)) in Hk; [|done].
  eapply (proj1 (typing_valid F ρ n Hn (λ _ _ _ _, False) (λ V', V' = V) ltac:(by intros ? ->) ltac:(done))
    [] k p Hk); done || constructor.
Qed.

(** [P] holds of two different objects, and no atom holds. *)
Definition different (sym : PropositionId) : Frame :=
  mkFrame bool (λ _ _, true) (λ _ _, true) (λ _, False)
    (λ s args, s = sym ∧ ∃ a b : bool, args = [a; b] ∧ a ≠ b) (λ _ _ _, True).

Lemma wrap_accepted `{Blake3} ctx sym goal :
  ∃ c, acceptance ctx (wrap_goal sym goal) (wrap_term ctx) capture_budget = Accepted c.
Proof.
  unfold acceptance. rewrite decide_False by (intros Hn; by apply Hn).
  enough (∃ s', check_type 20 (kind (wrap_term ctx)) (wrap_goal sym goal) (mkState 20 20 []) = (Ok tt, s')) as [s' E].
  { unfold capture_budget, max_steps, max_depth. rewrite E. by eexists. }
  unfold wrap_goal, wrap_term. lazy -[eigen_id decide instantiate].
  change (instantiate _ _) with (Impl (Exists (Applied sym [BoundVar 0; BoundVar 0])) (Atom goal)).
  run_checker. by eexists.
Qed.

Lemma wrap_not_valid `{Blake3} sym goal : ¬ valid (wrap_goal sym goal).
Proof.
  intros Hv.
  destruct (Hv (different sym) (λ _, true) (λ _, true)) as [x Hx]; [by split| |].
  - intros [y (_ & a & b & [= <- <-] & Hne)]. by apply Hne.
  - apply Hx. exists (negb x). split; [done|]. exists x, (negb x). split; [done|]. by destruct x.
Qed.

(** * Properties *)

(** C1: soundness of acceptance. A proposition for which the checker accepts an
    [Unpack]-free term, under any budget, is true in every lawful interpretation:
    every choice of objects, composition, tensor and realization relation in which
    the primitive relations hold and realizations compose and tensor, and every
    meaning of the atoms, the applied symbols and the constants. (Goals and
    supplied motives have no [Preserves] under a binder, and for some [n < 2^64] the
    object indices of goal and term are below [n] plus the binders around them, so
    that no index addition wraps around; [index_capture] shows that the checker
    accepts a falsity when one does.) In particular no atom whatever is provable. *)
Theorem acceptance_sound `{Blake3} ctx p t budget c n :
  acceptance ctx p t budget = Accepted c →
  unpack_free (kind t) = true →
  (0 ≤ n < 2^64)%Z → annotated n (kind t) = true → scoped n p = true →
  (∀ F ρ V, lawful F ρ V → holds F V ρ p) ∧ (∀ id, p ≠ Atom id).
Proof.
  unfold acceptance. case_decide; [done|]. intros Hacc Hu Hn Ha Hs.
  destruct (check_type _ _ _ _) as [[u|v] s'] eqn:E; cbn [fst] in Hacc.
  - apply checker_sound in E. cbn [gamma] in E.
    split; [intros F ρ V; by eapply typing_sound|]. intros id ->.
    eapply (typing_sound n _ _ (two_objects id) (λ _, true) (λ _, true)) in E; done.
  - subst v. by apply (proj1 (honest_checkers _)) in E.
Qed.

(** From [(∃y. P(c, y)) → q] the term packs [c] into [∃x. ((∃y. P(x, y)) → q)]. *)
Lemma acceptance_sound_witness :
  let p := Impl (Impl (Exists (Applied (demo_id 2) [Const (demo_id 4); BoundVar 0])) (Atom (demo_id 3)))
    (Exists (Impl (Exists (Applied (demo_id 2) [BoundVar 1; BoundVar 0])) (Atom (demo_id 3)))) in
  let t := mkTerm (demo_id 1) (Lam None (Pack (Const (demo_id 4)) (Hyp (Index 0)))) in
  (∃ c, @acceptance demo_hash (demo_id 1) p t (mkBudget 4 4) = Accepted c) ∧ (∀ id, p ≠ Atom id).
Proof.
  intros p t.
  assert (∃ c, @acceptance demo_hash (demo_id 1) p t (mkBudget 4 4) = Accepted c) as Hc.
  { eexists. vm_compute. reflexivity. }
  split; [exact Hc|]. destruct Hc as [c Hc].
  exact (proj2 (@acceptance_sound demo_hash _ _ _ _ c 0%Z Hc eq_refl
    (conj (Z.le_refl 0) eq_refl) eq_refl eq_refl)).
Defined.

(** Soundness with [Unpack]. When every unpacked constant is absent from the
    context, the unpacked predicate and the conclusion, as ADR-0003 requires, and
    is one the interpretation may revalue, every derivable proposition is true in
    every lawful interpretation. *)
Theorem unpack_sound `{Blake3} F ρ (minted : PropositionId → Prop) k p :
  (∀ V c d, minted c → lawful F ρ V → lawful F ρ (revalue F V c d)) →
  checks (λ Γ pred r c, adr_fresh Γ pred r c ∧ minted c) [] k p →
  ∀ n, (0 ≤ n < 2^64)%Z → annotated n k = true → scoped n p = true →
  ∀ V, lawful F ρ V → holds F V ρ p.
Proof.
  intros Hm Hk n Hn Ha Hs V HV.
  eapply (proj1 (typing_valid F ρ n Hn (λ Γ pred r c, adr_fresh Γ pred r c ∧ minted c) (lawful F ρ)
    ltac:(done) ltac:(intros Γ pred r c [Hf Hc]; split; [exact Hf|intros V' d HV'; by apply Hm]))
    [] k p Hk); done || constructor.
Qed.

(** [(∃x. P x) → ∃x. P x], by unpacking and packing again. *)
Lemma unpack_sound_witness :
  holds (two_objects (demo_id 2)) (λ _, true) (λ _, true)
    (Impl (Exists (Applied (demo_id 2) [BoundVar 0])) (Exists (Applied (demo_id 2) [BoundVar 0]))).
Proof.
  apply (@unpack_sound demo_hash (two_objects (demo_id 2)) (λ _, true) (λ _, True)
    (Lam None (Unpack (Hyp (Index 0)) None None (Pack (Const (demo_id 7)) (Hyp (Index 0))))))
    with (n := 0%Z); [intros; apply two_objects_lawful| |done|reflexivity|reflexivity|apply two_objects_lawful].
  apply C_lam. eapply (C_unpack _ _ _ _ _ _ (Applied (demo_id 2) [BoundVar 0]) _ (demo_id 7)).
  - by eapply I_index.
  - done.
  - split; [|done]. split_and!; [|reflexivity..]. constructor; [reflexivity|constructor].
  - apply C_pack, C_infer; [reflexivity|]. by eapply I_index.
Defined.

(** The eigenvariable condition is not checked. The kernel accepts a proof of
    [(∃x. P x) → (P c → R) → R], where [c] is the constant it mints for the
    unpacked variable, although some lawful interpretation makes it false: the
    freshness test looks only at the conclusion, not at the context or the
    predicate, so a context that already names [c] learns [P c]. *)
Theorem eigenvariable_capture `{Blake3} (ctx : ContextId) (sym goal : PropositionId) :
  (∃ c, acceptance ctx (capture_goal sym goal) (capture_term ctx) capture_budget = Accepted c) ∧
  annotated 0 (kind (capture_term ctx)) = true ∧ scoped 0 (capture_goal sym goal) = true ∧
  ¬ valid (capture_goal sym goal).
Proof. split_and!; [apply capture_accepted|done..|apply capture_not_valid]. Qed.

(** Instantiation is not capture-avoiding under [Preserves]. The motive's hole
    is bound variable 0, but the substitution does not shift under it: unpacking
    [∃x. Preserves(w, P(x))] turns a motive that ignores its hole into one that is
    [P] of the hole, and the kernel accepts a proof of
    [(∃x. Preserves(w, P x)) → Realizes(w,a,b) → P a → P b], which is false in some
    lawful interpretation. *)
Theorem motive_capture `{Blake3} (ctx : ContextId) (sym w a b : PropositionId) :
  a ≠ b → b ≠ eigen_id (Some "x") 15 →
  (∃ c, acceptance ctx (motive_goal sym w a b) (motive_term ctx sym) capture_budget = Accepted c) ∧
  annotated 0 (kind (motive_term ctx sym)) = true ∧ scoped 0 (motive_goal sym w a b) = false ∧
  ¬ valid (motive_goal sym w a b).
Proof. intros ??. split_and!; [by apply motive_accepted|done..|by apply motive_not_valid]. Qed.

Lemma motive_capture_witness :
  ∃ c, @acceptance demo_hash (demo_id 1) (motive_goal (demo_id 2) (demo_id 3) (demo_id 4) (demo_id 5))
    (motive_term (demo_id 1) (demo_id 2)) capture_budget = Accepted c.
Proof.
  apply (@motive_capture demo_hash (demo_id 1) (demo_id 2) (demo_id 3) (demo_id 4) (demo_id 5)).
  - by vm_compute.
  - by vm_compute.
Defined.

(** Instantiation is not capture-avoiding when an index wraps around. Packing the
    object variable [2^64 - 1], the substitution shifts it under the inner binder to
    [0], which that binder captures: the kernel accepts a proof of
    [((∃y. P(y, y)) → q) → ∃x. ((∃y. P(x, y)) → q)], without [Unpack] or [Preserves],
    which is false where [P] is inequality of two objects and [q] is false. No bound
    [n] below [2^64] admits the term. *)
Theorem index_capture `{Blake3} (ctx : ContextId) (sym goal : PropositionId) :
  (∃ c, acceptance ctx (wrap_goal sym goal) (wrap_term ctx) capture_budget = Accepted c) ∧
  unpack_free (kind (wrap_term ctx)) = true ∧ scoped 0 (wrap_goal sym goal) = true ∧
  (∀ n, annotated n (kind (wrap_term ctx)) = true ↔ (2^64 ≤ n)%Z) ∧
  ¬ valid (wrap_goal sym goal).
Proof.
  split_and!; [apply wrap_accepted|done..| |apply wrap_not_valid].
  intros n. cbn [annotated wrap_term kind obj_fits]. rewrite andb_true_r. lia.
Qed.
