(* ===== verification/Derivation.v ===== *)
(** Recorded and verified derivations (src/crates/brix-semantic/src/:
    decomposition.rs, generator_semantics.rs, tree.rs).

    A [Decomposition] is a chain of generators through intermediate configurations,
    a [TreeDerivation] its tree-shaped counterpart. Both carry a verification tag
    that the constructors set to recorded and that only [verify_replay] and
    [verify_structure] upgrade. [GeneratorSemanticsV1] is the declared relation the
    replay is checked against. *)
From S2P Require Import Prelude IntCodec Canon CanonLaws Witness Encoding.

(** * Declared settlement semantics *)

Definition GENERATOR_SEMANTICS_MARKER_V1 : string := "brix.semantic.generator-semantics".
Definition GENERATOR_SEMANTICS_VERSION_V1 : Z := 1.

Inductive SettlementRelationV1 : Type :=
  | ExactRows (rows : gset (ConfigId * ConfigId))
  | Diagonal.

#[export] Instance SettlementRelationV1_eq_dec : EqDecision SettlementRelationV1.
Proof. solve_decision. Defined.

Definition relation_ordinal (r : SettlementRelationV1) : Z :=
  match r with ExactRows _ => 0 | Diagonal => 1 end.

Definition relation_realizes (r : SettlementRelationV1) (src dst : ConfigId) : bool :=
  match r with
  | ExactRows rows => bool_decide ((src, dst) ∈ rows)
  | Diagonal => bool_decide (src = dst)
  end.

Definition row_bytes (row : ConfigId * ConfigId) : bytes :=
  [] |> write_bytes (as_bytes (digest row.1)) |> write_bytes (as_bytes (digest row.2)).

#[export] Instance Canonical_SettlementRelationV1 : Canonical SettlementRelationV1 := λ r,
  match r with
  | ExactRows rows => write_enum (relation_ordinal r) (write_set (row_bytes <$> elements rows))
  | Diagonal => write_enum (relation_ordinal r) id
  end.

Inductive SemanticsError : Type :=
  | UndeclaredGenerator (g : GeneratorId)
  | RegistryMismatch (undeclared_in_registry missing_from_manifest : list GeneratorId).

#[export] Instance SemanticsError_eq_dec : EqDecision SemanticsError.
Proof. solve_decision. Defined.

Record GeneratorSemanticsV1 : Type := mkSemantics {
  relations : gmap GeneratorId SettlementRelationV1
}.

Definition semantics_new : GeneratorSemanticsV1 := mkSemantics ∅.
Definition declare (generator : GeneratorId) (relation : SettlementRelationV1)
    (m : GeneratorSemanticsV1) : GeneratorSemanticsV1 :=
  mkSemantics (<[generator:=relation]> (relations m)).
Definition declare_rows (generator : GeneratorId) (rows : list (ConfigId * ConfigId)) :=
  declare generator (ExactRows (list_to_set rows)).
Definition declare_diagonal (generator : GeneratorId) := declare generator Diagonal.

(** [generators()], [relations.keys()]: in key order. *)
Definition declared_generators (m : GeneratorSemanticsV1) : list GeneratorId :=
  (btree_iter (relations m)).*1.
(** [registry.iter()]. *)
Definition registry_iter (r : GeneratorRegistry) : list GeneratorId := sort_by cmp (elements r).

Definition realizes (m : GeneratorSemanticsV1) (g : GeneratorId) (src dst : ConfigId) :
    result SemanticsError bool :=
  match relations m !! g with
  | Some relation => Ok (relation_realizes relation src dst)
  | None => Err (UndeclaredGenerator g)
  end.

Definition require_matches_registry (m : GeneratorSemanticsV1) (registry : GeneratorRegistry) :
    result SemanticsError unit :=
  let undeclared_in_registry :=
    filter (λ g, registry_contains registry g = false) (declared_generators m) in
  let missing_from_manifest :=
    filter (λ g, relations m !! g = None) (registry_iter registry) in
  if decide (undeclared_in_registry = [] ∧ missing_from_manifest = []) then Ok tt
  else Err (RegistryMismatch undeclared_in_registry missing_from_manifest).

#[export] Instance Canonical_GeneratorSemanticsV1 : Canonical GeneratorSemanticsV1 := λ m w,
  w |> write_bytes (bytes_of_string GENERATOR_SEMANTICS_MARKER_V1)
    |> write_uint GENERATOR_SEMANTICS_VERSION_V1
    |> write_map ((λ e, ([] |> write_bytes (as_bytes (digest e.1)), canon_bytes e.2))
                    <$> btree_iter (relations m)).

Definition semantics_id `{Blake3} (m : GeneratorSemanticsV1) : Id KGeneratorSemanticsV1 := id_of m.

(** * Decompositions *)

Inductive DecompVerification : Type := Recorded | ReplayVerified.
#[export] Instance DecompVerification_eq_dec : EqDecision DecompVerification.
Proof. solve_decision. Defined.

Definition decomp_ordinal (v : DecompVerification) : Z :=
  match v with Recorded => 0 | ReplayVerified => 1 end.
#[export] Instance Canonical_DecompVerification : Canonical DecompVerification := λ v,
  write_enum (decomp_ordinal v) id.

Inductive DecompositionError : Type := ChainLengthMismatch (generators configs : nat).

Inductive ReplayVerificationError : Type :=
  | NotRecorded (found : DecompVerification)
  | GeneratorNotInRegistry (index : nat) (generator : GeneratorId)
  | RelationNotRealized (index : nat) (generator : GeneratorId) (src dst : ConfigId)
  | Semantics (index : nat) (error : SemanticsError).

Record Decomposition : Type := mkDecomposition {
  generators : list GeneratorId;
  configs : list ConfigId;
  verification : DecompVerification
}.
#[export] Instance Decomposition_eq_dec : EqDecision Decomposition.
Proof. solve_decision. Defined.

Definition build (generators : list GeneratorId) (configs : list ConfigId)
    (verification : DecompVerification) : result DecompositionError Decomposition :=
  if decide (length configs ≠ length generators + 1)
  then Err (ChainLengthMismatch (length generators) (length configs))
  else Ok (mkDecomposition generators configs verification).

Definition recorded (generators : list GeneratorId) (configs : list ConfigId) :=
  build generators configs Recorded.

(** The loop of [verify_replay] from [index] on. An index out of range panics in
    the code; the constructor's length invariant excludes it, and the model then
    takes the last branch ([None]). *)
Fixpoint replay_links (registry : GeneratorRegistry) (semantics : GeneratorSemanticsV1)
    (index : nat) (gs : list GeneratorId) (configs : list ConfigId) :
    option (result ReplayVerificationError unit) :=
  match gs with
  | [] => Some (Ok tt)
  | g :: gs' =>
    if negb (registry_contains registry g) then Some (Err (GeneratorNotInRegistry index g)) else
    match configs !! index, configs !! S index with
    | Some src, Some dst =>
      match realizes semantics g src dst with
      | Ok true => replay_links registry semantics (S index) gs' configs
      | Ok false => Some (Err (RelationNotRealized index g src dst))
      | Err e => Some (Err (Semantics index e))
      end
    | _, _ => None
    end
  end.

(** [None] is a panic. *)
Definition verify_replay (d : Decomposition) (registry : GeneratorRegistry)
    (semantics : GeneratorSemanticsV1) : option (result ReplayVerificationError Decomposition) :=
  if decide (verification d ≠ Recorded) then Some (Err (NotRecorded (verification d))) else
  res ← replay_links registry semantics 0 (generators d) (configs d);
  Some (res ≫= λ _, Ok (mkDecomposition (generators d) (configs d) ReplayVerified)).

Definition is_replay_verified (d : Decomposition) : bool :=
  match verification d with ReplayVerified => true | Recorded => false end.

#[export] Instance Canonical_Decomposition : Canonical Decomposition := λ d w,
  w |> write_list (canon_bytes <$> generators d) |> write_list (canon_bytes <$> configs d)
    |> canon_write (verification d).

Definition decomposition_id `{Blake3} (d : Decomposition) : Id KDecomposition := id_of d.

(** The decompositions that code outside the module can obtain: the fields are
    private, so the constructor, the verification and copying are all there is. *)
Inductive obtainable : Decomposition → Prop :=
  | obtain_recorded gs cs d : recorded gs cs = Ok d → obtainable d
  | obtain_verified d registry semantics d' :
    obtainable d → verify_replay d registry semantics = Some (Ok d') → obtainable d'.

(** * Trees *)

Inductive TreeObj : Type :=
  | TAtom (config : ConfigId)
  | TProd (left right : TreeObj).
#[export] Instance TreeObj_eq_dec : EqDecision TreeObj.
Proof. solve_decision. Defined.

Definition obj_ordinal (o : TreeObj) : Z := match o with TAtom _ => 0 | TProd _ _ => 1 end.
Fixpoint write_tree_obj (o : TreeObj) : CanonWriter → CanonWriter :=
  write_enum (obj_ordinal o)
    (match o with
     | TAtom config => canon_write config
     | TProd l r => λ w, w |> write_tree_obj l |> write_tree_obj r
     end).
#[export] Instance Canonical_TreeObj : Canonical TreeObj := write_tree_obj.

Inductive RealizesTree : Type :=
  | Leaf (generator : GeneratorId) (src dst : TreeObj)
  | Seq (left right : RealizesTree)
  | TensorT (left right : RealizesTree).
#[export] Instance RealizesTree_eq_dec : EqDecision RealizesTree.
Proof. solve_decision. Defined.

Fixpoint tree_src (t : RealizesTree) : TreeObj :=
  match t with
  | Leaf _ src _ => src
  | Seq l _ => tree_src l
  | TensorT l r => TProd (tree_src l) (tree_src r)
  end.
Fixpoint tree_dst (t : RealizesTree) : TreeObj :=
  match t with
  | Leaf _ _ dst => dst
  | Seq _ r => tree_dst r
  | TensorT l r => TProd (tree_dst l) (tree_dst r)
  end.
Fixpoint collect_leaves (t : RealizesTree) (out : list RealizesTree) : list RealizesTree :=
  match t with
  | Leaf _ _ _ => out ++ [t]
  | Seq l r | TensorT l r => collect_leaves r (collect_leaves l out)
  end.
Definition leaves (t : RealizesTree) : list RealizesTree := collect_leaves t [].

Fixpoint well_formed (t : RealizesTree) : bool :=
  match t with
  | Leaf _ _ _ => true
  | Seq l r => well_formed l && well_formed r
                      && bool_decide (tree_dst l = tree_src r)
  | TensorT l r => well_formed l && well_formed r
  end.

Fixpoint tree_witness_id `{Blake3} (t : RealizesTree) : WitnessId :=
  match t with
  | Leaf generator _ _ => mkId (digest generator)
  | Seq l r => compose (tree_witness_id r) (tree_witness_id l)
  | TensorT l r => tensor (tree_witness_id l) (tree_witness_id r)
  end.

Definition tree_ordinal (t : RealizesTree) : Z :=
  match t with Leaf _ _ _ => 0 | Seq _ _ => 1 | TensorT _ _ => 2 end.
Fixpoint write_tree (t : RealizesTree) : CanonWriter → CanonWriter :=
  write_enum (tree_ordinal t)
    (match t with
     | Leaf generator src dst => λ w,
       w |> canon_write generator |> canon_write src |> canon_write dst
     | Seq l r | TensorT l r => λ w, w |> write_tree l |> write_tree r
     end).
#[export] Instance Canonical_RealizesTree : Canonical RealizesTree := write_tree.

Inductive TreeVerification : Type := TreeRecorded | StructureVerified.
#[export] Instance TreeVerification_eq_dec : EqDecision TreeVerification.
Proof. solve_decision. Defined.
Definition tree_verification_ordinal (v : TreeVerification) : Z :=
  match v with TreeRecorded => 0 | StructureVerified => 1 end.
#[export] Instance Canonical_TreeVerification : Canonical TreeVerification := λ v,
  write_enum (tree_verification_ordinal v) id.

Inductive TreeVerificationError : Type :=
  | TreeNotRecorded (found : TreeVerification)
  | MalformedTree
  | TreeEndpointMismatch
  | TreeGeneratorNotInRegistry (generator : GeneratorId).

Record TreeDerivation : Type := mkTreeDerivation {
  tree : RealizesTree;
  tverification : TreeVerification
}.
#[export] Instance TreeDerivation_eq_dec : EqDecision TreeDerivation.
Proof. solve_decision. Defined.

Definition tree_recorded (t : RealizesTree) : TreeDerivation := mkTreeDerivation t TreeRecorded.

Fixpoint check_leaves (registry : GeneratorRegistry) (l : list RealizesTree) :
    result TreeVerificationError unit :=
  match l with
  | [] => Ok tt
  | Leaf generator _ _ :: l' =>
    if negb (registry_contains registry generator)
    then Err (TreeGeneratorNotInRegistry generator) else check_leaves registry l'
  | _ :: _ => Err MalformedTree
  end.

Definition verify_structure (d : TreeDerivation) (expected_src expected_dst : TreeObj)
    (registry : GeneratorRegistry) : result TreeVerificationError TreeDerivation :=
  if decide (tverification d ≠ TreeRecorded) then Err (TreeNotRecorded (tverification d)) else
  if negb (well_formed (tree d)) then Err MalformedTree else
  if decide (tree_src (tree d) ≠ expected_src ∨ tree_dst (tree d) ≠ expected_dst)
  then Err TreeEndpointMismatch else
  _ ← check_leaves registry (leaves (tree d));
  Ok (mkTreeDerivation (tree d) StructureVerified).

#[export] Instance Canonical_TreeDerivation : Canonical TreeDerivation := λ d w,
  w |> canon_write (tree d) |> canon_write (tverification d).
Definition tree_derivation_id `{Blake3} (d : TreeDerivation) : Id KTreeDerivation := id_of d.

(** * Replay *)

(** Declared and registered: one link of a factorization. *)
Definition link_ok (registry : GeneratorRegistry) (semantics : GeneratorSemanticsV1)
    (g : GeneratorId) (x y : ConfigId) : Prop :=
  g ∈ registry ∧ realizes semantics g x y = Ok true.

Section replay.
Context (registry : GeneratorRegistry) (semantics : GeneratorSemanticsV1).
Abbreviation link := (link_ok registry semantics).

(** [gs] runs along [cs], link by link. *)
Inductive factors : list GeneratorId → list ConfigId → Prop :=
  | factors_nil x : factors [] [x]
  | factors_cons g gs x y cs : link g x y → factors gs (y :: cs) → factors (g :: gs) (x :: y :: cs).

(** The relation [ρ_gn ∘ … ∘ ρ_g1]. *)
Fixpoint composed (gs : list GeneratorId) (x z : ConfigId) : Prop :=
  match gs with
  | [] => x = z
  | g :: gs' => ∃ y, link g x y ∧ composed gs' y z
  end.

Lemma composed_factors gs x z :
  composed gs x z ↔ ∃ cs, factors gs cs ∧ head cs = Some x ∧ last cs = Some z.
Proof.
  revert x. induction gs as [|g gs IH]; intros x; cbn [composed].
  - split; [intros ->; exists [z]; by repeat constructor|].
    intros (cs & Hf & Hx & Hz). inversion Hf; subst. simpl in *. congruence.
  - split.
    + intros (y & Hl & (cs & Hf & Hy & Hz)%IH). destruct cs as [|y' cs]; [done|].
      simplify_eq/=. exists (x :: y :: cs). split_and!; [by constructor|done|by rewrite last_cons, Hz].
    + intros (cs & Hf & Hx & Hz). inversion Hf as [|? ? x' y cs' Hl Hf']; subst. simplify_eq/=.
      exists y. split; [done|]. apply IH. exists (y :: cs'). done.
Qed.

(** What stopped a replay that started at [index]. *)
Definition stopped (index : nat) (gs : list GeneratorId) (cs : list ConfigId)
    (e : ReplayVerificationError) : Prop :=
  ∃ i g x y, gs !! i = Some g ∧ cs !! (index + i) = Some x ∧ cs !! S (index + i) = Some y ∧
    (∀ j gj xj yj, j < i → gs !! j = Some gj → cs !! (index + j) = Some xj →
       cs !! S (index + j) = Some yj → link gj xj yj) ∧
    ((e = GeneratorNotInRegistry (index + i) g ∧ g ∉ registry) ∨
     (e = RelationNotRealized (index + i) g x y ∧ g ∈ registry ∧ realizes semantics g x y = Ok false) ∨
     (e = Semantics (index + i) (UndeclaredGenerator g) ∧ g ∈ registry ∧
        g ∉ dom (relations semantics))).

Lemma link_dec (g : GeneratorId) :
  (registry_contains registry g = false ∧ g ∉ registry) ∨
  (registry_contains registry g = true ∧ g ∈ registry).
Proof. unfold registry_contains. case_bool_decide; auto. Qed.

Lemma stopped_here index g gs cs x y e :
  cs !! index = Some x → cs !! S index = Some y →
  ((e = GeneratorNotInRegistry index g ∧ g ∉ registry) ∨
     (e = RelationNotRealized index g x y ∧ g ∈ registry ∧ realizes semantics g x y = Ok false) ∨
     (e = Semantics index (UndeclaredGenerator g) ∧ g ∈ registry ∧
        g ∉ dom (relations semantics))) →
  stopped index (g :: gs) cs e.
Proof.
  intros Hx Hy He. exists 0, g, x, y. rewrite !Nat.add_0_r. split_and!; [done..| |done].
  intros j; lia.
Qed.

Lemma stopped_next index g gs cs x y e :
  cs !! index = Some x → cs !! S index = Some y → link g x y →
  stopped (S index) gs cs e → stopped index (g :: gs) cs e.
Proof.
  intros Hx Hy Hl (i & g' & x' & y' & Hg & Hx' & Hy' & Hbefore & He).
  exists (S i), g', x', y'. rewrite !Nat.add_succ_r. split_and!; [done..| |done].
  intros [|j] gj xj yj Hj Hgj Hxj Hyj; rewrite ?Nat.add_0_r, ?Nat.add_succ_r in *; simplify_eq/=; [done|].
  apply (Hbefore j); [lia|done..].
Qed.

Lemma replay_links_spec gs cs index :
  length cs = index + length gs + 1 →
  (replay_links registry semantics index gs cs = Some (Ok tt) ∧ factors gs (drop index cs)) ∨
  (∃ e, replay_links registry semantics index gs cs = Some (Err e) ∧ stopped index gs cs e ∧
     ¬ factors gs (drop index cs)).
Proof.
  revert index. induction gs as [|g gs IH]; intros index Hlen; cbn [replay_links length] in *.
  - left. split; [done|]. destruct (lookup_lt_is_Some_2 cs index) as [x Hx]; [lia|].
    rewrite (drop_S _ _ _ Hx), drop_ge by lia. constructor.
  - destruct (lookup_lt_is_Some_2 cs index) as [x Hx]; [lia|].
    destruct (lookup_lt_is_Some_2 cs (S index)) as [y Hy]; [lia|].
    rewrite (drop_S _ _ _ Hx), (drop_S _ _ _ Hy), Hx, Hy.
    assert (∀ Hf : factors (g :: gs) (x :: y :: drop (S (S index)) cs), link g x y ∧
      factors gs (y :: drop (S (S index)) cs)) as Hinv by (by inversion 1).
    destruct (link_dec g) as [[-> Hg]|[-> Hg]]; cbn [negb].
    { right. eexists. split_and!; [done|eapply stopped_here; eauto|by intros [[? ?] ?]%Hinv]. }
    assert (¬ link g x y → ¬ factors (g :: gs) (x :: y :: drop (S (S index)) cs)) as Hno
      by (intros ? [? ?]%Hinv; done).
    unfold link_ok in *.
    destruct (realizes semantics g x y) as [[]|er] eqn:E.
    + destruct (IH (S index)) as [[-> Hf]|(e & -> & Hs & Hf)]; [lia| |];
        rewrite (drop_S _ _ _ Hy) in Hf.
      * left. split; [done|by constructor].
      * right. exists e. split_and!; [done|by eapply stopped_next|by intros [? ?]%Hinv].
    + right. eexists. split_and!; [done|eapply stopped_here; eauto|apply Hno; by intros [? ?]].
    + right. eexists. split_and!; [done| |apply Hno; by intros [? ?]].
      revert E. unfold realizes. destruct (relations semantics !! g) eqn:Er; [done|]. intros [= <-].
      eapply stopped_here; [done..|]. right. right. split_and!; [done..|]. by apply not_elem_of_dom.
Qed.
End replay.

(** The invariant of the constructors. *)
Definition chain_ok (d : Decomposition) : Prop := length (configs d) = length (generators d) + 1.

Lemma recorded_ok gs cs d :
  recorded gs cs = Ok d ↔ d = mkDecomposition gs cs Recorded ∧ length cs = length gs + 1.
Proof. unfold recorded, build. case_decide; split; intros; [done|by destruct_and?|by simplify_eq|by destruct_and?; subst]. Qed.

Lemma verify_replay_Ok d registry semantics d' :
  chain_ok d →
  verify_replay d registry semantics = Some (Ok d') ↔
  verification d = Recorded ∧ factors registry semantics (generators d) (configs d) ∧
  d' = mkDecomposition (generators d) (configs d) ReplayVerified.
Proof.
  intros Hd. unfold verify_replay. case_decide as Hv; [by split; intros; destruct_and?|].
  destruct (replay_links_spec registry semantics (generators d) (configs d) 0 Hd)
    as [[E Hf]|(e & E & _ & Hf)]; rewrite E; cbn; rewrite drop_0 in Hf.
  - split; [intros [= <-]|intros (? & ? & ->)]; [|done]. split_and!; [|done..].
    destruct (verification d); [done|]. by destruct Hv.
  - split; [done|by intros (? & ? & ?)].
Qed.

(** A replay that fails has been stopped at a link, or was not of a record. *)
Lemma verify_replay_Err d registry semantics e :
  chain_ok d → verify_replay d registry semantics = Some (Err e) →
  e = NotRecorded (verification d) ∨
  stopped registry semantics 0 (generators d) (configs d) e.
Proof.
  intros Hd. unfold verify_replay. case_decide as Hv; [intros [= <-]; by left|].
  destruct (replay_links_spec registry semantics (generators d) (configs d) 0 Hd)
    as [[E Hf]|(e' & E & Hs & Hf)]; rewrite E; cbn; [done|]. intros [= <-]. by right.
Qed.

Lemma verify_replay_total d registry semantics :
  chain_ok d → is_Some (verify_replay d registry semantics).
Proof.
  intros Hd. unfold verify_replay. case_decide; [by eexists|].
  destruct (replay_links_spec registry semantics (generators d) (configs d) 0 Hd)
    as [[E _]|(e' & E & _)]; rewrite E; by eexists.
Qed.

Lemma obtainable_ok d :
  obtainable d → chain_ok d ∧ (verification d = ReplayVerified →
    ∃ registry semantics, factors registry semantics (generators d) (configs d)).
Proof.
  induction 1 as [gs cs d Hd|d registry semantics d' Hd [Hc _] Hv].
  - apply recorded_ok in Hd as [-> ?]. by split.
  - apply verify_replay_Ok in Hv as (_ & Hf & ->); [|done]. split; [exact Hc|]. eauto.
Qed.

(** ** Registry agreement *)

Lemma elem_declared m g : g ∈ declared_generators m ↔ g ∈ dom (relations m).
Proof.
  unfold declared_generators. rewrite list_elem_of_fmap, elem_of_dom. split.
  - intros ([g' r] & -> & Hr%btree_iter_elem). by exists r.
  - intros [r Hr%btree_iter_elem]. by exists (g, r).
Qed.

Lemma elem_registry_iter r g : g ∈ registry_iter r ↔ g ∈ r.
Proof. unfold registry_iter. by rewrite sort_by_perm, elem_of_elements. Qed.

Lemma filter_nil_iff {A} (P : A → Prop) `{∀ x, Decision (P x)} l :
  filter P l = [] ↔ ∀ x, x ∈ l → ¬ P x.
Proof.
  split.
  - intros Hn x Hx HP. assert (x ∈ filter P l) as Hin by (by apply list_elem_of_filter).
    rewrite Hn in Hin. by apply not_elem_of_nil in Hin.
  - intros Hn. destruct (filter P l) as [|x l'] eqn:E; [done|].
    assert (x ∈ filter P l) as [HP Hx]%list_elem_of_filter by (rewrite E; constructor).
    by destruct (Hn x).
Qed.

Lemma require_matches_registry_spec m registry :
  (require_matches_registry m registry = Ok tt ↔ dom (relations m) = registry) ∧
  (∀ e, require_matches_registry m registry = Err e →
     ∃ undeclared missing, e = RegistryMismatch undeclared missing ∧
       (∀ g, g ∈ undeclared ↔ g ∈ dom (relations m) ∖ registry) ∧
       (∀ g, g ∈ missing ↔ g ∈ registry ∖ dom (relations m))).
Proof.
  unfold require_matches_registry. split.
  - case_decide as Hd; rewrite !filter_nil_iff in Hd.
    + split; [intros _|done]. destruct Hd as [H1 H2]. apply set_eq. intros g. split; intros Hg.
      * specialize (H1 g (proj2 (elem_declared m g) Hg)). unfold registry_contains in H1.
        case_bool_decide; [done|congruence].
      * specialize (H2 g (proj2 (elem_registry_iter registry g) Hg)).
        rewrite elem_of_dom. destruct (relations m !! g); [by eexists|done].
    + split; [done|]. intros <-. destruct Hd. split; intros g.
      * rewrite elem_declared. unfold registry_contains. case_bool_decide; done.
      * rewrite elem_registry_iter, elem_of_dom. by intros [? ->].
  - intros e. case_decide; [done|]. intros [= <-]. eexists _, _. split_and!; [done| |]; intros g.
    + rewrite list_elem_of_filter, elem_declared, elem_of_difference.
      unfold registry_contains. case_bool_decide; naive_solver congruence.
    + rewrite list_elem_of_filter, elem_registry_iter, elem_of_difference, not_elem_of_dom. tauto.
Qed.

(** * Identities *)

Lemma enum_unit n : write_enum n id [] = encode_uint n.
Proof. done. Qed.

#[export] Instance CanonAppends_DecompVerification : CanonAppends DecompVerification.
Proof. intros []; by intros w. Qed.

Definition decomposition_ok (d : Decomposition) : Prop :=
  len_ok (generators d) ∧ Forall id_ok (generators d) ∧ len_ok (configs d) ∧ Forall id_ok (configs d).

Lemma decomposition_bytes d :
  canon_bytes d =
    canon_bytes (generators d) ++ canon_bytes (configs d) ++ encode_uint (decomp_ordinal (verification d)).
Proof.
  unfold canon_bytes at 1, canon_write at 1, Canonical_Decomposition.
  rewrite !write_list_app, canon_appends, !canon_bytes_list, app_nil_l, <-app_assoc. done.
Qed.

Lemma len_ok_id {k} (i : Id k) : id_ok i → len_ok (canon_bytes i).
Proof.
  intros [Hl _]. rewrite canon_bytes_Id. unfold frame, len_ok. rewrite Hl.
  change (encode_uint (Z.of_nat 32)) with (encode_uint 32). rewrite length_app, Hl.
  assert (length (encode_uint 32) ≤ 17) by (vm_compute; lia). int_lia.
Qed.

Lemma ids_list_ok {k} (l : list (Id k)) :
  len_ok l → Forall id_ok l → len_ok l ∧ Forall (λ a, id_ok a ∧ len_ok (canon_bytes a)) l.
Proof.
  intros Hl Hf. split; [done|]. eapply Forall_impl; [exact Hf|]. intros i Hi. split; [done|by apply len_ok_id].
Qed.

Lemma decomp_ordinal_ok v : u64_ok (decomp_ordinal v).
Proof. destruct v; unfold decomp_ordinal; int_lia. Qed.
Lemma tree_verification_ordinal_ok v : u64_ok (tree_verification_ordinal v).
Proof. destruct v; unfold tree_verification_ordinal; int_lia. Qed.

#[export] Instance prefix_free_decomposition :
  PrefixFree decomposition_ok (canon_bytes (A := Decomposition)).
Proof.
  intros d1 d2 r1 r2 (Hg1 & Hgf1 & Hc1 & Hcf1) (Hg2 & Hgf2 & Hc2 & Hcf2) Heq.
  rewrite !decomposition_bytes, <-!app_assoc in Heq.
  apply (prefix_free_canon_list id_ok) in Heq as [Hg Heq]; [|by apply ids_list_ok..].
  apply (prefix_free_canon_list id_ok) in Heq as [Hc Heq]; [|by apply ids_list_ok..].
  apply prefix_free_uint64 in Heq as [Hv ->]; [|apply decomp_ordinal_ok..].
  destruct d1 as [? ? []], d2 as [? ? []]; cbn in *; by subst.
Qed.

#[export] Instance CanonAppends_Decomposition : CanonAppends Decomposition.
Proof.
  apply (canon_appends_of (λ d, frames (canon_bytes <$> generators d) ++
    frames (canon_bytes <$> configs d) ++ canon_bytes (verification d))).
  intros d w. unfold canon_write at 1, Canonical_Decomposition.
  by rewrite !write_list_app, canon_appends, <-!app_assoc.
Qed.

Lemma decomposition_bytes_inj d1 d2 :
  decomposition_ok d1 → decomposition_ok d2 → canon_bytes d1 = canon_bytes d2 → d1 = d2.
Proof. apply (prefix_free_inj decomposition_ok canon_bytes). Qed.

(** *** Trees *)

Fixpoint tree_obj_ok (o : TreeObj) : Prop :=
  match o with TAtom c => id_ok c | TProd l r => tree_obj_ok l ∧ tree_obj_ok r end.
Fixpoint tree_ok (t : RealizesTree) : Prop :=
  match t with
  | Leaf g src dst => id_ok g ∧ tree_obj_ok src ∧ tree_obj_ok dst
  | Seq l r | TensorT l r => tree_ok l ∧ tree_ok r
  end.

#[export] Instance CanonAppends_TreeObj : CanonAppends TreeObj.
Proof. intros o. change (appends (write_tree_obj o)). induction o; cbn [write_tree_obj]; appends_tac. Qed.
#[export] Instance CanonAppends_RealizesTree : CanonAppends RealizesTree.
Proof. intros t. change (appends (write_tree t)). induction t; cbn [write_tree]; appends_tac. Qed.
#[export] Instance CanonAppends_TreeVerification : CanonAppends TreeVerification.
Proof. intros []; by intros w. Qed.

Lemma tree_obj_bytes o :
  canon_bytes o = encode_uint (obj_ordinal o) ++
    match o with TAtom c => canon_bytes c | TProd l r => canon_bytes l ++ canon_bytes r end.
Proof.
  unfold canon_bytes at 1, canon_write at 1, Canonical_TreeObj.
  destruct o; cbn [write_tree_obj obj_ordinal]; change write_tree_obj with (canon_write (A := TreeObj));
    unfold write_enum, write_uint; rewrite ?canon_appends; by rewrite <-?app_assoc.
Qed.

Lemma tree_bytes t :
  canon_bytes t = encode_uint (tree_ordinal t) ++
    match t with
    | Leaf g src dst => canon_bytes g ++ canon_bytes src ++ canon_bytes dst
    | Seq l r | TensorT l r => canon_bytes l ++ canon_bytes r
    end.
Proof.
  unfold canon_bytes at 1, canon_write at 1, Canonical_RealizesTree.
  destruct t; cbn [write_tree tree_ordinal]; change write_tree with (canon_write (A := RealizesTree));
    unfold write_enum, write_uint; rewrite ?canon_appends; by rewrite <-?app_assoc.
Qed.

#[export] Instance prefix_free_tree_obj : PrefixFree tree_obj_ok (canon_bytes (A := TreeObj)).
Proof.
  intros o1. induction o1 as [c1|l1 IHl s1 IHr]; intros o2 r1 r2 H1 H2 H;
    rewrite tree_obj_bytes, (tree_obj_bytes o2), <-!app_assoc in H;
    destruct o2 as [c2|l2 s2]; cbn [obj_ordinal tree_obj_ok] in *;
    apply prefix_free_uint64 in H as [Ho H]; try int_lia; clear Ho; rewrite <-?app_assoc in H.
  - by apply prefix_free_id in H as [-> ->].
  - destruct H1, H2. apply IHl in H as [-> H]; [|done..]. by apply IHr in H as [-> ->].
Qed.

#[export] Instance prefix_free_tree : PrefixFree tree_ok (canon_bytes (A := RealizesTree)).
Proof.
  intros t1. induction t1 as [g1 a1 b1|l1 IHl s1 IHr|l1 IHl s1 IHr]; intros t2 r1 r2 H1 H2 H;
    rewrite tree_bytes, (tree_bytes t2), <-!app_assoc in H;
    destruct t2 as [g2 a2 b2|l2 s2|l2 s2]; cbn [tree_ordinal tree_ok] in *;
    apply prefix_free_uint64 in H as [Ho H]; try int_lia; clear Ho; rewrite <-?app_assoc in H.
  - destruct H1 as (? & ? & ?), H2 as (? & ? & ?).
    apply prefix_free_id in H as [-> H]; [|done..].
    apply prefix_free_tree_obj in H as [-> H]; [|done..]. by apply prefix_free_tree_obj in H as [-> ->].
  - destruct H1, H2. apply IHl in H as [-> H]; [|done..]. by apply IHr in H as [-> ->].
  - destruct H1, H2. apply IHl in H as [-> H]; [|done..]. by apply IHr in H as [-> ->].
Qed.

Lemma tree_derivation_bytes d :
  canon_bytes d = canon_bytes (tree d) ++ encode_uint (tree_verification_ordinal (tverification d)).
Proof.
  unfold canon_bytes at 1, canon_write at 1, Canonical_TreeDerivation.
  by rewrite !canon_appends.
Qed.

Lemma tree_derivation_bytes_inj d1 d2 :
  tree_ok (tree d1) → tree_ok (tree d2) → canon_bytes d1 = canon_bytes d2 → d1 = d2.
Proof.
  intros H1 H2 Heq. rewrite !tree_derivation_bytes in Heq.
  apply prefix_free_tree in Heq as [Ht Heq]; [|done..].
  apply (prefix_free_inj u64_ok encode_uint) in Heq; [|apply tree_verification_ordinal_ok..].
  destruct d1 as [? []], d2 as [? []]; cbn in *; by subst.
Qed.

(** *** Semantics *)

Definition relation_ok (r : SettlementRelationV1) : Prop :=
  match r with
  | ExactRows rows => len_ok (elements rows) ∧ Forall (λ row, id_ok row.1 ∧ id_ok row.2) (elements rows)
  | Diagonal => True
  end.

Lemma row_bytes_app row : row_bytes row = canon_bytes row.1 ++ canon_bytes row.2.
Proof. unfold row_bytes. by rewrite !write_bytes_app, !canon_bytes_Id. Qed.

Lemma row_bytes_inj row1 row2 :
  id_ok row1.1 ∧ id_ok row1.2 → id_ok row2.1 ∧ id_ok row2.2 →
  row_bytes row1 = row_bytes row2 → row1 = row2.
Proof.
  destruct row1, row2. intros [? ?] [? ?] Heq. rewrite !row_bytes_app in Heq. cbn [fst snd] in *.
  apply prefix_free_id in Heq as [-> Heq]; [|done..].
  by apply (prefix_free_inj id_ok canon_bytes) in Heq as ->.
Qed.

Lemma row_len row : id_ok row.1 ∧ id_ok row.2 → len_ok (row_bytes row).
Proof.
  intros [[H1 _] [H2 _]]. rewrite row_bytes_app, !canon_bytes_Id. unfold frame, len_ok.
  rewrite H1, H2. change (encode_uint (Z.of_nat 32)) with (encode_uint 32).
  rewrite !length_app, H1, H2.
  assert (length (encode_uint 32) ≤ 17) by (vm_compute; lia). int_lia.
Qed.

Lemma rows_sub (s1 s2 : gset (ConfigId * ConfigId)) x :
  Forall (λ row, id_ok row.1 ∧ id_ok row.2) (elements s1) →
  Forall (λ row, id_ok row.1 ∧ id_ok row.2) (elements s2) →
  (∀ b, b ∈ row_bytes <$> elements s1 → b ∈ row_bytes <$> elements s2) → x ∈ s1 → x ∈ s2.
Proof.
  rewrite !Forall_forall. intros Ho1 Ho2 Hin Hx. apply elem_of_elements in Hx.
  specialize (Hin (row_bytes x) (list_elem_of_fmap_2 _ _ _ Hx)).
  apply list_elem_of_fmap in Hin as (y & Hy & Hyin).
  apply row_bytes_inj in Hy as ->; [by apply elem_of_elements|by apply Ho1|by apply Ho2].
Qed.

Lemma relation_bytes_inj r1 r2 :
  relation_ok r1 → relation_ok r2 → canon_bytes r1 = canon_bytes r2 → r1 = r2.
Proof.
  intros H1 H2. unfold canon_bytes, canon_write, Canonical_SettlementRelationV1, write_enum, write_uint.
  destruct r1 as [rows1|], r2 as [rows2|]; cbn [relation_ordinal]; rewrite ?app_nil_l; intros Heq.
  - rewrite !write_set_app in Heq. apply app_inv_head in Heq.
    destruct H1 as [Hl1 Hf1], H2 as [Hl2 Hf2].
    assert (∀ rows : gset (ConfigId * ConfigId), len_ok (elements rows) →
      Forall (λ row, id_ok row.1 ∧ id_ok row.2) (elements rows) →
      len_ok (row_bytes <$> elements rows) ∧ Forall len_ok (row_bytes <$> elements rows)) as Hok.
    { intros rows Hl Hf. unfold len_ok at 1 in Hl. unfold len_ok at 1. rewrite length_fmap. split; [exact Hl|].
      rewrite Forall_fmap. eapply Forall_impl; [exact Hf|]. intros row. apply row_len. }
    destruct (Hok _ Hl1 Hf1), (Hok _ Hl2 Hf2).
    apply (prefix_free_inj _ frames) in Heq; [|by apply set_items_ok..].
    assert (∀ x, x ∈ row_bytes <$> elements rows1 ↔ x ∈ row_bytes <$> elements rows2) as Hs
      by (by apply set_items_eq).
    f_equal. apply set_eq. intros x; split; apply rows_sub; try done; intros b Hb; by apply Hs.
  - rewrite write_set_app in Heq. rewrite <-(app_nil_r (encode_uint 1)) in Heq.
    apply prefix_free_uint64 in Heq as [? _]; [done|int_lia..].
  - rewrite write_set_app in Heq. rewrite <-(app_nil_r (encode_uint 1)) in Heq.
    apply prefix_free_uint64 in Heq as [? _]; [done|int_lia..].
  - done.
Qed.

Definition semantics_ok (m : GeneratorSemanticsV1) : Prop :=
  len_ok (btree_iter (relations m)) ∧
  map_Forall (λ g r, id_ok g ∧ relation_ok r ∧ len_ok (canon_bytes r)) (relations m).

Definition semantics_entries (m : GeneratorSemanticsV1) : list (bytes * bytes) :=
  (λ e : GeneratorId * SettlementRelationV1,
     ([] |> write_bytes (as_bytes (digest e.1)), canon_bytes e.2)) <$> btree_iter (relations m).

Lemma semantics_key (g : GeneratorId) : ([] |> write_bytes (as_bytes (digest g))) = canon_bytes g.
Proof. by rewrite write_bytes_app, canon_bytes_Id. Qed.

Lemma semantics_entries_ok m : semantics_ok m → entries_ok (semantics_entries m).
Proof.
  intros [Hl Hm]. unfold entries_ok, semantics_entries. split.
  - unfold len_ok in *. by rewrite length_fmap.
  - rewrite Forall_fmap. apply Forall_forall. intros [g r] Hin%btree_iter_elem.
    destruct (Hm _ _ Hin) as (Hg & _ & Hr). cbn [fst snd compose].
    split; [|exact Hr]. rewrite semantics_key. by apply len_ok_id.
Qed.

Lemma semantics_entries_nodup m : semantics_ok m → NoDup (semantics_entries m).*1.
Proof.
  intros [_ Hm]. unfold semantics_entries. rewrite <-list_fmap_compose.
  rewrite (list_fmap_ext _ (canon_bytes ∘ fst)) by (intros i e _; apply semantics_key).
  assert (NoDup (btree_iter (relations m)).*1) as Hnd.
  { unfold btree_iter. rewrite sort_by_perm. apply NoDup_fst_map_to_list. }
  rewrite (list_fmap_compose fst canon_bytes). revert Hnd.
  assert (Forall id_ok (btree_iter (relations m)).*1) as Hok.
  { rewrite Forall_fmap. apply Forall_forall. intros [g r] Hin%btree_iter_elem. by apply (Hm _ _ Hin). }
  induction Hok as [|g l Hg Hl IH]; intros Hnd; [constructor|]. apply NoDup_cons in Hnd as [Hnin Hnd].
  rewrite fmap_cons. constructor; [|by apply IH]. intros (g' & Heq & Hin)%list_elem_of_fmap.
  apply (prefix_free_inj id_ok canon_bytes) in Heq as ->; [done|done|].
  rewrite Forall_forall in Hl. by apply Hl.
Qed.

Lemma semantics_lookup m g r :
  semantics_ok m → id_ok g → relation_ok r →
  map_of (semantics_entries m) !! canon_bytes g = Some (canon_bytes r) ↔ relations m !! g = Some r.
Proof.
  intros Hm Hg Hr. rewrite map_of_nodup by (by apply semantics_entries_nodup).
  unfold semantics_entries. rewrite list_elem_of_fmap, <-btree_iter_elem. split.
  - intros ([g' r'] & Heq & Hin). pose proof (proj2 Hm _ _ (proj1 (btree_iter_elem _ _ _) Hin)) as (? & ? & _).
    cbn [fst snd] in Heq. rewrite semantics_key in Heq. injection Heq as Hge Hre.
    apply (prefix_free_inj id_ok canon_bytes) in Hge as ->; [|done..].
    by apply relation_bytes_inj in Hre as ->.
  - intros Hin. exists (g, r). cbn [fst snd]. by rewrite semantics_key.
Qed.

Lemma semantics_bytes m :
  canon_bytes m = frame (bytes_of_string GENERATOR_SEMANTICS_MARKER_V1) ++
    encode_uint GENERATOR_SEMANTICS_VERSION_V1 ++ write_map (semantics_entries m) [].
Proof.
  unfold canon_bytes at 1, canon_write, Canonical_GeneratorSemanticsV1.
  rewrite !write_map_app, write_bytes_app. unfold write_uint. by rewrite <-!app_assoc.
Qed.

Lemma semantics_bytes_inj m1 m2 :
  semantics_ok m1 → semantics_ok m2 → canon_bytes m1 = canon_bytes m2 → m1 = m2.
Proof.
  intros H1 H2 Heq. rewrite !semantics_bytes in Heq. do 2 apply app_inv_head in Heq.
  apply write_map_inj in Heq; [|by apply semantics_entries_ok..].
  destruct m1 as [rel1], m2 as [rel2]. f_equal. apply map_eq. intros g.
  apply option_eq. intros r. split; intros Hr.
  - destruct (proj2 H1 _ _ Hr) as (? & ? & _).
    apply (semantics_lookup (mkSemantics rel2)); [done..|]. rewrite <-Heq. by apply semantics_lookup.
  - destruct (proj2 H2 _ _ Hr) as (? & ? & _).
    apply (semantics_lookup (mkSemantics rel1)); [done..|]. rewrite Heq. by apply semantics_lookup.
Qed.

(** ** Trees *)

Lemma collect_leaves_app t out : collect_leaves t out = out ++ leaves t.
Proof.
  revert out. induction t as [g a b|l IHl r IHr|l IHl r IHr]; intros out; unfold leaves;
    cbn [collect_leaves]; [done|..];
    rewrite IHr, IHl, (IHr (collect_leaves l [])), (IHl []), app_nil_l, <-app_assoc; done.
Qed.

(** The generators cited by the leaves, left to right. *)
Fixpoint cited (t : RealizesTree) : list GeneratorId :=
  match t with
  | Leaf g _ _ => [g]
  | Seq l r | TensorT l r => cited l ++ cited r
  end.

Lemma check_leaves_app registry l1 l2 :
  check_leaves registry (l1 ++ l2) = (_ ← check_leaves registry l1; check_leaves registry l2).
Proof.
  induction l1 as [|t l1 IH]; [done|]. destruct t; [|done..]. cbn [check_leaves app].
  destruct (negb _); [done|apply IH].
Qed.

Lemma check_leaves_spec registry t :
  (check_leaves registry (leaves t) = Ok tt ∧ Forall (.∈ registry) (cited t)) ∨
  (∃ l g r, check_leaves registry (leaves t) = Err (TreeGeneratorNotInRegistry g) ∧
     cited t = l ++ g :: r ∧ Forall (.∈ registry) l ∧ g ∉ registry).
Proof.
  induction t as [g a b|tl IHl tr IHr|tl IHl tr IHr].
  1: { unfold leaves. cbn [collect_leaves app check_leaves cited]. unfold registry_contains.
       case_bool_decide; cbn [negb]; [left; by repeat constructor|right].
       exists [], g, []. by repeat constructor. }
  all: unfold leaves; cbn [collect_leaves cited]; rewrite (collect_leaves_app tr); fold (leaves tl);
    rewrite check_leaves_app;
    destruct IHl as [[-> Hl]|(l & g & r & -> & Hl & Hf & Hg)]; cbn;
    [|right; exists l, g, (r ++ cited tr); rewrite Hl, <-app_assoc; done];
    destruct IHr as [[-> Hr]|(l & g & r & -> & Hr & Hf & Hg)];
    [left; split; [done|by apply Forall_app]|right; exists (cited tl ++ l), g, r];
    rewrite Hr, <-app_assoc; split_and!; [done..|by apply Forall_app|done].
Qed.

(** * Properties *)

(** Replay is exact. On a chain of the right length [verify_replay] never
    panics, and it issues the verified tag precisely on records whose every link
    is registered and declared, changing nothing else; chains that verify are
    exactly the factorizations of the composed relation [ρ_gn ∘ … ∘ ρ_g1]. A
    refusal names the first link that fails and why. *)
Theorem replay_exact registry semantics d :
  chain_ok d →
  is_Some (verify_replay d registry semantics) ∧
  (∀ d', verify_replay d registry semantics = Some (Ok d') ↔
     verification d = Recorded ∧ factors registry semantics (generators d) (configs d) ∧
     d' = mkDecomposition (generators d) (configs d) ReplayVerified) ∧
  (∀ e, verify_replay d registry semantics = Some (Err e) →
     e = NotRecorded (verification d) ∨
     stopped registry semantics 0 (generators d) (configs d) e) ∧
  (∀ gs x z, composed registry semantics gs x z ↔
     ∃ cs r v, head cs = Some x ∧ last cs = Some z ∧ recorded gs cs = Ok r ∧
       verify_replay r registry semantics = Some (Ok v)).
Proof.
  intros Hd. split_and!; [by apply verify_replay_total|intros d'; by apply verify_replay_Ok
    |intros e; by apply verify_replay_Err|].
  intros gs x z. rewrite composed_factors. split.
  - intros (cs & Hf & Hx & Hz).
    assert (length cs = length gs + 1) as Hlen by (clear -Hf; induction Hf; simpl in *; lia).
    exists cs, (mkDecomposition gs cs Recorded), (mkDecomposition gs cs ReplayVerified).
    split_and!; [done..|by apply recorded_ok|by apply verify_replay_Ok].
  - intros (cs & r & v & Hx & Hz & [-> Hlen]%recorded_ok & (_ & Hf & _)%verify_replay_Ok); [eauto|done].
Qed.

Definition demo_chain : Decomposition := mkDecomposition [demo_id 1] [demo_id 2; demo_id 3] Recorded.
Definition demo_semantics : GeneratorSemanticsV1 :=
  declare_rows (demo_id 1) [(demo_id 2, demo_id 3)] semantics_new.

Lemma replay_exact_witness :
  verify_replay demo_chain {[ demo_id 1 ]} demo_semantics =
    Some (Ok (mkDecomposition [demo_id 1] [demo_id 2; demo_id 3] ReplayVerified)).
Proof.
  apply (proj2 (proj1 (proj2 (replay_exact {[ demo_id 1 ]} demo_semantics demo_chain eq_refl)) _)).
  split_and!; [reflexivity| |reflexivity]. constructor; [|constructor].
  split; [by apply elem_of_singleton|vm_compute; reflexivity].
Defined.

(** The verified tag is earned. Whatever the code outside the module does,
    every decomposition it can hold has one configuration more than generators, and
    one tagged verified has passed a replay against some registry and semantics:
    no value carries the tag without a factorization behind it. *)
Theorem tag_is_earned d :
  obtainable d →
  length (configs d) = length (generators d) + 1 ∧
  (is_replay_verified d = true →
     ∃ registry semantics, factors registry semantics (generators d) (configs d)).
Proof.
  intros [Hc Hv]%obtainable_ok. split; [exact Hc|]. intros Ht. apply Hv.
  by destruct d as [? ? []].
Qed.

Lemma tag_is_earned_witness : length (configs demo_chain) = length (generators demo_chain) + 1.
Proof.
  apply tag_is_earned. apply (obtain_recorded [demo_id 1] [demo_id 2; demo_id 3]). reflexivity.
Defined.

(** The settlement identities bind. Unless the two messages hashed collide, the identity of a
    decomposition determines its generators, its configurations and its
    verification tag, the identity of a tree derivation its whole tree and its tag,
    and the identity of a declared semantics every relation it declares: a recorded
    and a verified artifact never share an identity, and a substituted oracle shows. *)
Theorem settlement_identities_bind `{Blake3} :
  (∀ d1 d2, decomposition_ok d1 → decomposition_ok d2 →
     decomposition_id d1 = decomposition_id d2 → d1 = d2 ∨ collision (message (canon_bytes d1)) (message (canon_bytes d2))) ∧
  (∀ d1 d2, tree_ok (tree d1) → tree_ok (tree d2) →
     tree_derivation_id d1 = tree_derivation_id d2 → d1 = d2 ∨ collision (message (canon_bytes d1)) (message (canon_bytes d2))) ∧
  (∀ m1 m2, semantics_ok m1 → semantics_ok m2 →
     semantics_id m1 = semantics_id m2 → m1 = m2 ∨ collision (message (canon_bytes m1)) (message (canon_bytes m2))).
Proof.
  split_and!; intros x1 x2 H1 H2 [Heq|?]%from_canon_inj; try (by right); left.
  - by apply decomposition_bytes_inj.
  - by apply tree_derivation_bytes_inj.
  - by apply semantics_bytes_inj.
Qed.

Lemma settlement_identities_bind_witness : demo_semantics = demo_semantics ∨
  @collision demo_hash (message (canon_bytes demo_semantics)) (message (canon_bytes demo_semantics)).
Proof.
  apply (proj2 (proj2 (@settlement_identities_bind demo_hash))); [..|reflexivity].
  all: split; [vm_compute; reflexivity|]; unfold demo_semantics, declare_rows, declare, semantics_new;
    cbn [relations]; apply map_Forall_insert_2; [|apply map_Forall_empty];
    split_and!; [by apply demo_id_ok| |vm_compute; reflexivity];
    split; [vm_compute; reflexivity|]; vm_compute; by repeat constructor.
Defined.

(** Agreement with the registry is exact. [require_matches_registry] accepts
    precisely when the declared generators are the registered ones, no more and no
    fewer, and otherwise reports exactly the two differences; under agreement no
    replay fails for lack of a declaration. *)
Theorem registry_agreement_exact m registry :
  (require_matches_registry m registry = Ok tt ↔ dom (relations m) = registry) ∧
  (∀ e, require_matches_registry m registry = Err e →
     ∃ undeclared missing, e = RegistryMismatch undeclared missing ∧
       (∀ g, g ∈ undeclared ↔ g ∈ dom (relations m) ∖ registry) ∧
       (∀ g, g ∈ missing ↔ g ∈ registry ∖ dom (relations m))) ∧
  (require_matches_registry m registry = Ok tt → ∀ d i err,
     chain_ok d → verify_replay d registry m ≠ Some (Err (Semantics i err))).
Proof.
  destruct (require_matches_registry_spec m registry) as [Hok Herr].
  split_and!; [exact Hok|exact Herr|]. intros Hdom%Hok d i err Hd Hv.
  apply verify_replay_Err in Hv as [?|(j & g & x & y & _ & _ & _ & _ & Hs)]; [done| |done].
  subst registry. by destruct Hs as [[? _]|[[? _]|(_ & ? & ?)]].
Qed.

Lemma registry_agreement_exact_witness :
  verify_replay demo_chain (dom (relations demo_semantics)) demo_semantics ≠
  Some (Err (Semantics 0 (UndeclaredGenerator (demo_id 1)))).
Proof.
  apply (proj2 (proj2 (registry_agreement_exact demo_semantics (dom (relations demo_semantics)))));
    [|reflexivity]. by apply registry_agreement_exact.
Defined.

(** Tree verification is exact. It issues the tag precisely on recorded trees
    that are well formed, run between the expected objects and cite only registered
    generators, and changes nothing else; of several unregistered generators the
    leftmost is reported. *)
Theorem tree_verification_exact d src dst registry :
  (∀ d', verify_structure d src dst registry = Ok d' ↔
     tverification d = TreeRecorded ∧ well_formed (tree d) = true ∧
     tree_src (tree d) = src ∧ tree_dst (tree d) = dst ∧ Forall (.∈ registry) (cited (tree d)) ∧
     d' = mkTreeDerivation (tree d) StructureVerified) ∧
  (∀ e, verify_structure d src dst registry = Err e →
     match e with
     | TreeNotRecorded found => found = StructureVerified ∧ tverification d = found
     | MalformedTree => well_formed (tree d) = false
     | TreeEndpointMismatch => tree_src (tree d) ≠ src ∨ tree_dst (tree d) ≠ dst
     | TreeGeneratorNotInRegistry g => ∃ l r, cited (tree d) = l ++ g :: r ∧
         Forall (.∈ registry) l ∧ g ∉ registry
     end).
Proof.
  unfold verify_structure.
  case_decide as Hv; [split; [intros d'; split; [done|intros (? & _); done]|intros e [= <-]; split; [|done]]|].
  { by destruct (tverification d). }
  destruct (well_formed (tree d)) eqn:Hw; cbn [negb];
    [|split; [intros d'; split; [done|intros (_ & ? & _); done]|by intros e [= <-]]].
  case_decide as He; [split; [intros d'; split; [done|intros (_ & _ & ? & ? & _); naive_solver]|by intros e [= <-]]|].
  assert (tree_src (tree d) = src ∧ tree_dst (tree d) = dst) as [H1 H2]
    by (split; apply dec_stable; tauto).
  destruct (check_leaves_spec registry (tree d)) as [[-> Hf]|(l & g & r & -> & Hl & Hf & Hg)]; cbn.
  - split; [|done]. intros d'. split.
    + intros [= <-]. split_and!; [|done..].
      destruct (tverification d); [done|by destruct Hv].
    + by intros (_ & _ & _ & _ & _ & ->).
  - split; [|intros e [= <-]; eauto]. intros d'. split; [done|]. intros (_ & _ & _ & _ & Ha & _).
    rewrite Hl, Forall_app, Forall_cons in Ha. by destruct Ha as (_ & ? & _).
Qed.
