(* ===== verification/Publication.v ===== *)
(** Evidence, judgements and the authority fence (src/crates/brix-semantic/src/:
    evidence.rs, dependency.rs, realizes.rs, quiescent.rs, context.rs, judgement.rs,
    publication.rs).

    A judgement outside the crate comes from [publish], which consults [ROUTES]:
    each outcome has one authority, and the route may ask for a verification tag on
    the artifact presented as support. [audited_source_verify] is the gate of the
    elaboration boundary. *)
From S2P Require Import Prelude IntCodec Canon CanonLaws Witness Encoding Outcome Derivation.

(** * Statements and contexts *)

Definition ROOT_CONTEXT_TAG : string := "brix.ir.reflect.ScopeId.root".
Definition CONTEXT_EXTEND_TAG : string := "brix.semantic.ContextId.extend".

(** [ContextId::root], [ContextId::extend]. *)
Definition root_context `{Blake3} : ContextId := from_canon ([] |> write_tag ROOT_CONTEXT_TAG).
Definition extend_payload (self : ContextId) (assumption : bytes) : bytes :=
  [] |> write_tag CONTEXT_EXTEND_TAG |> write_bytes (as_bytes (digest self)) |> write_bytes assumption.
Definition extend_context `{Blake3} (self : ContextId) (assumption : bytes) : ContextId :=
  from_canon (extend_payload self assumption).

Record RealizesProp : Type := mkRealizes {
  witness : WitnessId;
  src : ConfigId;
  dst : ConfigId
}.
#[export] Instance Canonical_Realizes : Canonical RealizesProp := λ r w,
  w |> canon_write (witness r) |> canon_write (src r) |> canon_write (dst r).
Definition realizes_proposition `{Blake3} (r : RealizesProp) : PropositionId := id_of r.

Record Quiescent : Type := mkQuiescent {
  q_world : ConfigId;
  q_policy : ConfigId;
  q_regimes : Digest;
  q_adm : Digest
}.
#[export] Instance Canonical_Quiescent : Canonical Quiescent := λ q w,
  w |> canon_write (q_world q) |> canon_write (q_policy q)
    |> write_bytes (as_bytes (q_regimes q)) |> write_bytes (as_bytes (q_adm q)).
Definition quiescent_proposition `{Blake3} (q : Quiescent) : PropositionId := id_of q.

(** * Evidence and dependencies *)

Inductive Durability : Type := Durable | RevisionScoped.

Inductive Evidence : Type :=
  | KernelCertificateE (verifier : VerifierId) (certificate : CertificateId)
  | KernelRefutationE (verifier : VerifierId) (certificate : CertificateId)
  | GroundAssertion (body : Digest)
  | SettlementReplay (body : Digest)
  | MeasurementE (body : Digest)
  | SuggestionE (body : Digest)
  | CertifiedExternalResult (body : Digest)
  | TreeDerivationE (body : Digest).
#[export] Instance Evidence_eq_dec : EqDecision Evidence.
Proof. solve_decision. Defined.

Definition durability (e : Evidence) : Durability :=
  match e with KernelCertificateE _ _ | KernelRefutationE _ _ => Durable | _ => RevisionScoped end.

Definition evidence_ordinal (e : Evidence) : Z :=
  match e with
  | KernelCertificateE _ _ => 0
  | KernelRefutationE _ _ => 1
  | GroundAssertion _ => 2
  | SettlementReplay _ => 3
  | MeasurementE _ => 4
  | SuggestionE _ => 5
  | CertifiedExternalResult _ => 6
  | TreeDerivationE _ => 7
  end.

#[export] Instance Canonical_Evidence : Canonical Evidence := λ e,
  write_enum (evidence_ordinal e)
    (match e with
     | KernelCertificateE verifier certificate | KernelRefutationE verifier certificate =>
       λ w, w |> canon_write verifier |> canon_write certificate
     | GroundAssertion body | SettlementReplay body | MeasurementE body | SuggestionE body
     | CertifiedExternalResult body | TreeDerivationE body => write_bytes (as_bytes body)
     end).
Definition evidence_id_of `{Blake3} (e : Evidence) : EvidenceId := id_of e.

Inductive EdgeKind : Type := Premise | Assumption | Revision | Rule | Checker | ElaborationBoundary.
#[export] Instance EdgeKind_eq_dec : EqDecision EdgeKind.
Proof. solve_decision. Defined.
Definition edge_ordinal (k : EdgeKind) : Z :=
  match k with
  | Premise => 0 | Assumption => 1 | Revision => 2 | Rule => 3 | Checker => 4 | ElaborationBoundary => 5
  end.
Record Dependency : Type := mkDependency { edge_kind : EdgeKind; target : Digest }.
Definition is_elaboration_boundary (d : Dependency) : bool :=
  match edge_kind d with ElaborationBoundary => true | _ => false end.
#[export] Instance Canonical_Dependency : Canonical Dependency := λ d w,
  w |> write_enum (edge_ordinal (edge_kind d)) id |> write_bytes (as_bytes (target d)).
Definition dependency_id `{Blake3} (d : Dependency) : Id KDependency := id_of d.

(** * Judgements *)

Record Judgement : Type := mkJudgement {
  context : ContextId;
  proposition : PropositionId;
  j_outcome : Outcome;
  evidence : EvidenceId
}.
#[export] Instance Judgement_eq_dec : EqDecision Judgement.
Proof. solve_decision. Defined.

#[export] Instance Canonical_Judgement : Canonical Judgement := λ j w,
  w |> canon_write (context j) |> canon_write (proposition j) |> canon_write (j_outcome j)
    |> canon_write (evidence j).
Definition judgement_id `{Blake3} (j : Judgement) : Id KJudgement := id_of j.

(** [JudgementId::recompute]. *)
Definition recompute `{Blake3} (ctx : ContextId) (prop : PropositionId) (o : Outcome)
    (ev : EvidenceId) : Id KJudgement := judgement_id (mkJudgement ctx prop o ev).

(** * The fence *)

Inductive Support : Type :=
  | SKernelCertificate (verifier : VerifierId) (certificate : CertificateId)
  | SKernelRefutation (verifier : VerifierId) (certificate : CertificateId)
  | SSettlement (decomposition : Decomposition)
  | SGround (body : Digest)
  | SMeasurement (body : Digest)
  | SExternalResult (body : Digest)
  | SSuggestion (body : Digest)
  | STree (derivation : TreeDerivation).

Inductive SupportKind : Type :=
  | KKernelCertificate | KKernelRefutation | KSettlement | KGround | KMeasurement
  | KExternalResult | KSuggestion | KTree.
#[export] Instance SupportKind_eq_dec : EqDecision SupportKind.
Proof. solve_decision. Defined.

Definition support_evidence `{Blake3} (s : Support) : Evidence :=
  match s with
  | SKernelCertificate verifier certificate => KernelCertificateE verifier certificate
  | SKernelRefutation verifier certificate => KernelRefutationE verifier certificate
  | SSettlement decomposition => SettlementReplay (digest (decomposition_id decomposition))
  | SGround body => GroundAssertion body
  | SMeasurement body => MeasurementE body
  | SExternalResult body => CertifiedExternalResult body
  | SSuggestion body => SuggestionE body
  | STree derivation => TreeDerivationE (digest (tree_derivation_id derivation))
  end.

Definition support_kind (s : Support) : SupportKind :=
  match s with
  | SKernelCertificate _ _ => KKernelCertificate
  | SKernelRefutation _ _ => KKernelRefutation
  | SSettlement _ => KSettlement
  | SGround _ => KGround
  | SMeasurement _ => KMeasurement
  | SExternalResult _ => KExternalResult
  | SSuggestion _ => KSuggestion
  | STree _ => KTree
  end.

Definition support_evidence_id `{Blake3} (s : Support) : EvidenceId :=
  evidence_id_of (support_evidence s).

Inductive RouteStatus : Type := Settled | Provisional.

Inductive RouteCondition : Type :=
  | CNone
  | CDecomposition (v : DecompVerification)
  | CTree (v : TreeVerification).

Record Route : Type := mkRoute {
  r_authority : Authority;
  r_outcome : Outcome;
  r_support : SupportKind;
  r_condition : RouteCondition;
  r_status : RouteStatus
}.

Definition ROUTES : list Route := [
  mkRoute ProofKernel Proven KKernelCertificate CNone Settled;
  mkRoute ProofKernel Refuted KKernelRefutation CNone Settled;
  mkRoute SettlementKernel Derived KSettlement (CDecomposition Recorded) Settled;
  mkRoute AuditChecker Audited KSettlement (CDecomposition ReplayVerified) Settled;
  mkRoute AuditChecker Audited KTree (CTree StructureVerified) Settled;
  mkRoute ExternalDriver Measured KMeasurement CNone Settled;
  mkRoute ExternalDriver Measured KExternalResult CNone Settled;
  mkRoute AnyResolver Unknown KKernelCertificate CNone Settled;
  mkRoute AnyResolver Unknown KKernelRefutation CNone Settled;
  mkRoute AnyResolver Unknown KSettlement CNone Settled;
  mkRoute AnyResolver Unknown KGround CNone Settled;
  mkRoute AnyResolver Unknown KMeasurement CNone Settled;
  mkRoute AnyResolver Unknown KExternalResult CNone Settled;
  mkRoute AnyResolver Unknown KSuggestion CNone Settled;
  mkRoute AnyResolver Unknown KTree CNone Settled ].

Inductive PublicationError : Type :=
  | WrongAuthority (outcome : Outcome) (claimed sole : Authority)
  | UnsupportedEvidence (authority : Authority) (outcome : Outcome) (support : SupportKind)
  | DecompositionVerificationMismatch (outcome : Outcome) (expected found : DecompVerification)
  | TreeVerificationMismatch (outcome : Outcome) (expected found : TreeVerification)
  | EvidenceBindingMismatch (expected found : EvidenceId)
  | NotAudited (found : Outcome).

Definition route_for (authority : Authority) (outcome : Outcome) (support : SupportKind) :
    option Route :=
  find (λ r, bool_decide (r_authority r = authority) && bool_decide (r_outcome r = outcome)
             && bool_decide (r_support r = support)) ROUTES.

Definition check_route (a : Authority) (outcome : Outcome) (support : Support) :
    result PublicationError Route :=
  let sole := authority outcome in
  if decide (a ≠ sole) then Err (WrongAuthority outcome a sole) else
  route ← ok_or (route_for a outcome (support_kind support))
            (UnsupportedEvidence a outcome (support_kind support));
  match r_condition route, support with
  | CNone, _ => Ok route
  | CDecomposition expected, SSettlement decomposition =>
    if decide (verification decomposition = expected) then Ok route
    else Err (DecompositionVerificationMismatch outcome expected (verification decomposition))
  | CTree expected, STree derivation =>
    if decide (tverification derivation = expected) then Ok route
    else Err (TreeVerificationMismatch outcome expected (tverification derivation))
  | (CDecomposition _ | CTree _), other => Err (UnsupportedEvidence a outcome (support_kind other))
  end.

Definition publish `{Blake3} (a : Authority) (ctx : ContextId) (prop : PropositionId)
    (outcome : Outcome) (support : Support) : result PublicationError Judgement :=
  _ ← check_route a outcome support;
  Ok (mkJudgement ctx prop outcome (support_evidence_id support)).

Record AuditedSource : Type := mkAuditedSource { source_judgement : Judgement }.

Definition audited_source_verify `{Blake3} (j : Judgement) (support : Support) :
    result PublicationError AuditedSource :=
  if decide (j_outcome j ≠ Audited) then Err (NotAudited (j_outcome j)) else
  _ ← check_route AuditChecker Audited support;
  let found := support_evidence_id support in
  if decide (found ≠ evidence j) then Err (EvidenceBindingMismatch (evidence j) found)
  else Ok (mkAuditedSource j).

(** * Encodings *)

#[export] Instance CanonAppends_Outcome : CanonAppends Outcome.
Proof. intros []; by intros w. Qed.

Lemma ordinal_ok o : u64_ok (ordinal o).
Proof. destruct o; unfold ordinal; int_lia. Qed.

Lemma outcome_bytes o : canon_bytes o = encode_uint (ordinal o).
Proof. done. Qed.

#[export] Instance prefix_free_outcome : PrefixFree (λ _, True) (canon_bytes (A := Outcome)).
Proof.
  intros o1 o2 r1 r2 _ _ Heq. rewrite !outcome_bytes in Heq.
  apply prefix_free_uint64 in Heq as [Ho ->]; [|apply ordinal_ok..]. by destruct o1, o2.
Qed.

Lemma judgement_bytes j :
  canon_bytes j = canon_bytes (context j) ++ canon_bytes (proposition j) ++
    canon_bytes (j_outcome j) ++ canon_bytes (evidence j).
Proof.
  unfold canon_bytes at 1, canon_write at 1, Canonical_Judgement.
  by rewrite !canon_appends, app_nil_l, <-!app_assoc.
Qed.

Definition judgement_ok (j : Judgement) : Prop :=
  id_ok (context j) ∧ id_ok (proposition j) ∧ id_ok (evidence j).

Lemma judgement_bytes_inj j1 j2 :
  judgement_ok j1 → judgement_ok j2 → canon_bytes j1 = canon_bytes j2 → j1 = j2.
Proof.
  destruct j1, j2. intros (? & ? & ?) (? & ? & ?) Heq. rewrite !judgement_bytes in Heq.
  cbn [context proposition j_outcome evidence] in *.
  apply prefix_free_id in Heq as [-> Heq]; [|done..]. apply prefix_free_id in Heq as [-> Heq]; [|done..].
  apply prefix_free_outcome in Heq as [-> Heq]; [|done..].
  by apply (prefix_free_inj id_ok canon_bytes) in Heq as ->.
Qed.

Lemma realizes_bytes r :
  canon_bytes r = canon_bytes (witness r) ++ canon_bytes (src r) ++ canon_bytes (dst r).
Proof.
  unfold canon_bytes at 1, canon_write at 1, Canonical_Realizes.
  by rewrite !canon_appends, app_nil_l, <-!app_assoc.
Qed.

Definition realizes_ok (r : RealizesProp) : Prop := id_ok (witness r) ∧ id_ok (src r) ∧ id_ok (dst r).

Lemma realizes_bytes_inj r1 r2 :
  realizes_ok r1 → realizes_ok r2 → canon_bytes r1 = canon_bytes r2 → r1 = r2.
Proof.
  destruct r1, r2. intros (? & ? & ?) (? & ? & ?) Heq. rewrite !realizes_bytes in Heq.
  cbn [witness src dst] in *.
  apply prefix_free_id in Heq as [-> Heq]; [|done..]. apply prefix_free_id in Heq as [-> Heq]; [|done..].
  by apply (prefix_free_inj id_ok canon_bytes) in Heq as ->.
Qed.

Lemma frame_digest_inj d1 d2 r1 r2 :
  digest_ok d1 → digest_ok d2 →
  frame (as_bytes d1) ++ r1 = frame (as_bytes d2) ++ r2 → d1 = d2 ∧ r1 = r2.
Proof.
  intros H1 H2 Heq. apply (id_frame_inj (mkId (k := KConfig) d1) (mkId d2)) in Heq as [Hd ->]; [|done..].
  by injection Hd.
Qed.

(** The writers of digests and identities, as appended frames. *)
Lemma extend_bytes (c : ContextId) a :
  extend_payload c a =
  frame (bytes_of_string CONTEXT_EXTEND_TAG) ++ frame (as_bytes (digest c)) ++ frame a.
Proof. unfold extend_payload, write_tag. by rewrite !write_bytes_app, app_nil_l, <-app_assoc. Qed.

Lemma tag_len_ok (t : string) : String.length t < 1000 → len_ok (bytes_of_string t).
Proof.
  intros Heq. unfold len_ok, bytes_of_string. rewrite length_fmap.
  assert (∀ s, length (String.list_ascii_of_string s) = String.length s) as ->
    by (intros s; induction s; simpl; congruence). int_lia.
Qed.

Definition quiescent_ok (q : Quiescent) : Prop :=
  id_ok (q_world q) ∧ id_ok (q_policy q) ∧ digest_ok (q_regimes q) ∧ digest_ok (q_adm q).

Lemma quiescent_bytes q :
  canon_bytes q = canon_bytes (q_world q) ++ canon_bytes (q_policy q) ++
    frame (as_bytes (q_regimes q)) ++ frame (as_bytes (q_adm q)).
Proof.
  unfold canon_bytes at 1, canon_write at 1, Canonical_Quiescent.
  by rewrite !write_bytes_app, !canon_appends, app_nil_l, <-!app_assoc.
Qed.

Lemma quiescent_bytes_inj q1 q2 :
  quiescent_ok q1 → quiescent_ok q2 → canon_bytes q1 = canon_bytes q2 → q1 = q2.
Proof.
  destruct q1, q2. intros (? & ? & ? & ?) (? & ? & ? & ?) Heq. rewrite !quiescent_bytes in Heq.
  cbn [q_world q_policy q_regimes q_adm] in *.
  apply prefix_free_id in Heq as [-> Heq]; [|done..]. apply prefix_free_id in Heq as [-> Heq]; [|done..].
  apply frame_digest_inj in Heq as [-> Heq]; [|done..].
  rewrite <-(app_nil_r (frame (as_bytes q_adm0))), <-(app_nil_r (frame (as_bytes q_adm1))) in Heq.
  by apply frame_digest_inj in Heq as [-> _].
Qed.

Definition evidence_ok (e : Evidence) : Prop :=
  match e with
  | KernelCertificateE v c | KernelRefutationE v c => id_ok v ∧ id_ok c
  | GroundAssertion b | SettlementReplay b | MeasurementE b | SuggestionE b
  | CertifiedExternalResult b | TreeDerivationE b => digest_ok b
  end.

Lemma evidence_bytes e :
  canon_bytes e = encode_uint (evidence_ordinal e) ++
    match e with
    | KernelCertificateE v c | KernelRefutationE v c => canon_bytes v ++ canon_bytes c
    | GroundAssertion b | SettlementReplay b | MeasurementE b | SuggestionE b
    | CertifiedExternalResult b | TreeDerivationE b => frame (as_bytes b)
    end.
Proof.
  unfold canon_bytes at 1, canon_write at 1, Canonical_Evidence, write_enum, write_uint.
  destruct e; cbn [evidence_ordinal]; rewrite ?write_bytes_app, ?canon_appends; by rewrite <-?app_assoc.
Qed.

Lemma evidence_ordinal_ok e : u64_ok (evidence_ordinal e).
Proof. destruct e; unfold evidence_ordinal; int_lia. Qed.

Lemma evidence_bytes_inj e1 e2 :
  evidence_ok e1 → evidence_ok e2 → canon_bytes e1 = canon_bytes e2 → e1 = e2.
Proof.
  intros H1 H2 Heq. rewrite !evidence_bytes in Heq.
  apply prefix_free_uint64 in Heq as [Ho Heq]; [|apply evidence_ordinal_ok..].
  destruct e1 as [v1 c1|v1 c1|b1|b1|b1|b1|b1|b1], e2 as [v2 c2|v2 c2|b2|b2|b2|b2|b2|b2];
    try discriminate Ho; cbn [evidence_ok] in *.
  1,2: destruct H1, H2; apply prefix_free_id in Heq as [-> Heq]; [|done..];
    by apply (prefix_free_inj id_ok canon_bytes) in Heq as ->.
  all: rewrite <-(app_nil_r (frame (as_bytes b1))), <-(app_nil_r (frame (as_bytes b2))) in Heq;
    by apply frame_digest_inj in Heq as [-> _].
Qed.

(** * What a support can bear *)

(** ADR-0016, section 4, as a predicate. *)
Definition bears (o : Outcome) (s : Support) : Prop :=
  match o with
  | Proven => ∃ v c, s = SKernelCertificate v c
  | Refuted => ∃ v c, s = SKernelRefutation v c
  | Derived => ∃ d, s = SSettlement d ∧ verification d = Recorded
  | Audited => (∃ d, s = SSettlement d ∧ verification d = ReplayVerified) ∨
               (∃ d, s = STree d ∧ tverification d = StructureVerified)
  | Measured => (∃ b, s = SMeasurement b) ∨ ∃ b, s = SExternalResult b
  | Unknown => True
  end.

Ltac fence_cases :=
  repeat match goal with
  | |- context [decide (verification ?d = ?v)] => destruct (decide (verification d = v))
  | |- context [decide (tverification ?d = ?v)] => destruct (decide (tverification d = v))
  end.

(** The table at a concrete outcome and kind of support. *)
Ltac look_up_route :=
  match goal with
  | |- context [route_for ?a ?o ?k] =>
    let r := eval vm_compute in (route_for a o k) in
    change (route_for a o k) with r
  end.

Lemma check_route_spec a o s :
  (a ≠ authority o ∧ check_route a o s = Err (WrongAuthority o a (authority o))) ∨
  (a = authority o ∧ bears o s ∧ ∃ r, check_route a o s = Ok r) ∨
  (a = authority o ∧ ¬ bears o s ∧ ∃ e, check_route a o s = Err e ∧
     match e with
     | UnsupportedEvidence a' o' k => a' = a ∧ o' = o ∧ k = support_kind s ∧
         ∀ s', support_kind s' = k → ¬ bears o s'
     | DecompositionVerificationMismatch o' expected found => o' = o ∧ found ≠ expected ∧
         ∃ d, s = SSettlement d ∧ found = verification d
     | TreeVerificationMismatch o' expected found => o' = o ∧ found ≠ expected ∧
         ∃ d, s = STree d ∧ found = tverification d
     | _ => False
     end).
Proof.
  destruct (decide (a = authority o)) as [->|Ha];
    [right|left; split; [done|]; unfold check_route; by rewrite decide_True].
  unfold check_route. rewrite decide_False by (intros Hn; by apply Hn).
  destruct o, s; look_up_route; cbn -[decide]; fence_cases;
    first [ left; split; [done|]; split; [naive_solver|by eexists]
          | right; split; [done|]; split; [naive_solver|]; eexists; split; [reflexivity|];
            split_and!; try done; first [naive_solver | intros s' Hs'; destruct s'; naive_solver] ].
Qed.

Lemma publish_Ok `{Blake3} a c p o s j :
  publish a c p o s = Ok j ↔
  a = authority o ∧ bears o s ∧ j = mkJudgement c p o (support_evidence_id s).
Proof.
  unfold publish. destruct (check_route_spec a o s) as [[Ha E]|[(Ha & Hb & r & E)|(Ha & Hb & e & E & _)]];
    rewrite E; cbn; naive_solver.
Qed.

Lemma evidence_of_support_ok `{Blake3Laws} s :
  match s with
  | SSettlement _ | STree _ => evidence_ok (support_evidence s)
  | _ => True
  end.
Proof. destruct s; [exact I|exact I|apply digest_of_ok|exact I..|apply digest_of_ok]. Qed.

Definition settlement_body (e : Evidence) : Digest :=
  match e with SettlementReplay b | TreeDerivationE b => b | _ => mkDigest [] end.

(** The payloads hashed for the evidence of an artifact. *)
Definition support_payloads `{Blake3} (s : Support) : list bytes :=
  canon_bytes (support_evidence s) ::
  match s with SSettlement d => [canon_bytes d] | STree d => [canon_bytes d] | _ => [] end.

(** Two accepted supports with one evidence identity are one artifact. *)
Lemma same_evidence `{Blake3Laws} s1 s2 :
  (∀ s, s = s1 ∨ s = s2 → match s with
    | SSettlement d => decomposition_ok d | STree d => tree_ok (tree d) | _ => False end) →
  support_evidence_id s1 = support_evidence_id s2 →
  s1 = s2 ∨ collision_among (message <$> support_payloads s1 ++ support_payloads s2).
Proof.
  intros Hok [Heq|Hc]%from_canon_inj; [|right; eapply collision_in; [exact Hc|set_solver..]].
  pose proof (Hok s1 (or_introl eq_refl)) as H1. pose proof (Hok s2 (or_intror eq_refl)) as H2.
  pose proof (evidence_of_support_ok s1) as He1. pose proof (evidence_of_support_ok s2) as He2.
  destruct s1 as [| |d1| | | | |d1], s2 as [| |d2| | | | |d2]; try done;
    (apply evidence_bytes_inj in Heq; [|exact He1|exact He2]); try discriminate Heq;
    apply (f_equal settlement_body), (inj digest) in Heq;
    apply from_canon_inj in Heq as [Heq|Hc]; try (right; eapply collision_in; [exact Hc|set_solver..]); left; f_equal.
  - by apply decomposition_bytes_inj.
  - by apply tree_derivation_bytes_inj.
Qed.

(** * Properties *)

(** C23: the authority fence is exact. A judgement is published precisely by the sole
    authority of its outcome on a support that can bear it: a certificate for
    [Proven], a refutation for [Refuted], a recorded decomposition for [Derived], a
    replay-verified decomposition or structure-verified tree for [Audited], a
    measurement or external result for [Measured], anything for [Unknown]. It then
    carries exactly the evidence of that support, durable for the two theorem
    outcomes and revision-scoped for the settlement ones. A refusal names the first
    rule broken. *)
Theorem publication_fence_exact `{Blake3} a c p o s :
  (∀ j, publish a c p o s = Ok j ↔
     a = authority o ∧ bears o s ∧ j = mkJudgement c p o (support_evidence_id s)) ∧
  (∀ e, publish a c p o s = Err e →
     (a ≠ authority o ∧ e = WrongAuthority o a (authority o)) ∨
     (a = authority o ∧ ¬ bears o s ∧
        match e with
        | UnsupportedEvidence a' o' k => a' = a ∧ o' = o ∧ k = support_kind s ∧
            ∀ s', support_kind s' = k → ¬ bears o s'
        | DecompositionVerificationMismatch o' expected found => o' = o ∧ found ≠ expected ∧
            ∃ d, s = SSettlement d ∧ found = verification d
        | TreeVerificationMismatch o' expected found => o' = o ∧ found ≠ expected ∧
            ∃ d, s = STree d ∧ found = tverification d
        | _ => False
        end)) ∧
  (is_ok (publish a c p o s) = true → o ≠ Unknown →
     durability (support_evidence s) = if is_theorem o then Durable else RevisionScoped).
Proof.
  split_and!.
  - intros j. apply publish_Ok.
  - intros e. unfold publish.
    destruct (check_route_spec a o s) as [[Ha E]|[(Ha & Hb & r & E)|(Ha & Hb & e' & E & He)]];
      rewrite E; cbn; intros [= <-]; [by left|by right].
  - destruct (publish a c p o s) as [j|e] eqn:E; [|done]. intros _ Ho.
    apply publish_Ok in E as (_ & Hb & _). destruct o; cbn in Hb |- *; naive_solver.
Qed.

(** The elaboration boundary is not forgeable. A verified source is the
    presented judgement, it is [Audited], and its evidence identity is that of the
    presented support, which an [Audited] publication accepts; a decomposition the
    caller could obtain has a factorization behind it; and a judgement is verified
    against two different artifacts only if two of the messages hashed for them collide. *)
Theorem audited_source_binds `{Blake3Laws} j s src :
  audited_source_verify j s = Ok src →
  source_judgement src = j ∧ publish AuditChecker (context j) (proposition j) Audited s = Ok j ∧
  (∀ d, s = SSettlement d → obtainable d →
     ∃ registry semantics, factors registry semantics (generators d) (configs d)) ∧
  (∀ s' src', audited_source_verify j s' = Ok src' →
     (∀ x, x = s ∨ x = s' → match x with
        | SSettlement d => decomposition_ok d | STree d => tree_ok (tree d) | _ => True end) →
     s' = s ∨ collision_among (message <$> support_payloads s' ++ support_payloads s)).
Proof.
  assert (∀ x y, audited_source_verify j x = Ok y →
    y = mkAuditedSource j ∧ j_outcome j = Audited ∧ bears Audited x ∧ support_evidence_id x = evidence j) as Hinv.
  { intros x y. unfold audited_source_verify. case_decide as Ho; [done|].
    destruct (check_route_spec AuditChecker Audited x) as [[? E]|[(_ & Hb & r & E)|(_ & _ & e & E & _)]];
      rewrite E; cbn -[decide]; [done| |done]. case_decide as He; [done|]. intros [= <-].
    split_and!; done. }
  intros (-> & Ho & Hb & He)%Hinv. split_and!.
  - done.
  - apply publish_Ok. split_and!; [done..|]. rewrite He. by destruct j; cbn in *; subst.
  - intros d -> [_ Hd]%obtainable_ok. apply Hd.
    destruct Hb as [(d' & [= ->] & ?)|(d' & [=] & _)]. done.
  - intros s' src' (_ & _ & Hb' & He')%Hinv Hok. apply same_evidence; [|congruence].
    cbn [bears] in Hb, Hb'.
    intros x [->| ->]; [pose proof (Hok s' (or_intror eq_refl)) as Hx
                       |pose proof (Hok s (or_introl eq_refl)) as Hx].
    + by destruct Hb' as [(d & -> & _)|(d & -> & _)].
    + by destruct Hb as [(d & -> & _)|(d & -> & _)].
Qed.

Definition demo_verified : Decomposition :=
  mkDecomposition [demo_id 1] [demo_id 2; demo_id 3] ReplayVerified.
Definition demo_judgement `{Blake3} : Judgement :=
  mkJudgement (demo_id 4) (demo_id 5) Audited (support_evidence_id (SSettlement demo_verified)).

Lemma audited_source_binds_witness :
  ∃ registry semantics, factors registry semantics [demo_id 1] [demo_id 2; demo_id 3].
Proof.
  assert (@audited_source_verify demo_hash (@demo_judgement demo_hash) (SSettlement demo_verified) =
    Ok (mkAuditedSource (@demo_judgement demo_hash))) as Hv by (vm_compute; reflexivity).
  apply (proj1 (proj2 (proj2 (@audited_source_binds demo_hash demo_hash_laws _ _ _ Hv)))
    demo_verified eq_refl).
  apply (obtain_verified demo_chain {[ demo_id 1 ]} demo_semantics).
  - apply (obtain_recorded [demo_id 1] [demo_id 2; demo_id 3]). reflexivity.
  - vm_compute. reflexivity.
Defined.

(** Statements, evidence and judgements are bound by their identities. Unless
    the two messages hashed collide, the identity of a judgement determines its context,
    proposition, outcome and evidence, that of an evidence its kind and body, that
    of a realization or quiescence statement all of its parts; an extended context
    determines its parent and its assumption and is never the root. *)
Theorem judgement_identities_bind `{Blake3} :
  (∀ j1 j2, judgement_ok j1 → judgement_ok j2 →
     judgement_id j1 = judgement_id j2 → j1 = j2 ∨ collision (message (canon_bytes j1)) (message (canon_bytes j2))) ∧
  (∀ e1 e2, evidence_ok e1 → evidence_ok e2 →
     evidence_id_of e1 = evidence_id_of e2 → e1 = e2 ∨ collision (message (canon_bytes e1)) (message (canon_bytes e2))) ∧
  (∀ r1 r2, realizes_ok r1 → realizes_ok r2 →
     realizes_proposition r1 = realizes_proposition r2 →
     r1 = r2 ∨ collision (message (canon_bytes r1)) (message (canon_bytes r2))) ∧
  (∀ q1 q2, quiescent_ok q1 → quiescent_ok q2 →
     quiescent_proposition q1 = quiescent_proposition q2 →
     q1 = q2 ∨ collision (message (canon_bytes q1)) (message (canon_bytes q2))) ∧
  (∀ c1 c2 a1 a2, id_ok c1 → id_ok c2 → len_ok a1 → len_ok a2 →
     extend_context c1 a1 = extend_context c2 a2 →
     (c1 = c2 ∧ a1 = a2) ∨ collision (message (extend_payload c1 a1)) (message (extend_payload c2 a2))) ∧
  (∀ c a, extend_context c a = root_context →
     collision (message (extend_payload c a)) (message ([] |> write_tag ROOT_CONTEXT_TAG))).
Proof.
  split_and!.
  - intros x1 x2 H1 H2 [Heq|?]%from_canon_inj; [left; by apply judgement_bytes_inj|by right].
  - intros x1 x2 H1 H2 [Heq|?]%from_canon_inj; [left; by apply evidence_bytes_inj|by right].
  - intros x1 x2 H1 H2 [Heq|?]%from_canon_inj; [left; by apply realizes_bytes_inj|by right].
  - intros x1 x2 H1 H2 [Heq|?]%from_canon_inj; [left; by apply quiescent_bytes_inj|by right].
  - intros c1 c2 a1 a2 Hc1 Hc2 Ha1 Ha2 [Heq|?]%from_canon_inj; [left|by right].
    rewrite !extend_bytes in Heq. apply app_inv_head in Heq.
    apply id_frame_inj in Heq as [-> Heq]; [|done..].
    by apply (prefix_free_inj len_ok frame) in Heq as ->.
  - intros c a [Heq|?]%from_canon_inj; [|done]. exfalso. rewrite extend_bytes in Heq.
    unfold write_tag in Heq. rewrite write_bytes_app, app_nil_l in Heq.
    rewrite <-(app_nil_r (frame (bytes_of_string ROOT_CONTEXT_TAG))) in Heq.
    apply prefix_free_frame in Heq as [Heq _]; [discriminate Heq|apply tag_len_ok; cbn; lia..].
Qed.

Lemma judgement_identities_bind_witness :
  let j := mkJudgement (demo_id 1) (demo_id 2) Derived (demo_id 3) in j = j ∨
    @collision demo_hash (message (canon_bytes j)) (message (canon_bytes j)).
Proof.
  intros j. assert (judgement_ok j) by (split_and!; by apply demo_id_ok).
  by apply (proj1 (@judgement_identities_bind demo_hash)).
Defined.
