(* ===== verification/Elaborate.v ===== *)
(** The elaboration boundary (src/crates/brix-elaborate/src/lib.rs,
    src/crates/brix-elaborate/src/tree_proof.rs).

    Audited settlement evidence, a replayed decomposition or a verified derivation tree, is
    turned into a proof term of an implication and submitted to the kernel; only an accepted
    term publishes [Proven]. [None] is a panic of the code (an index out of range, a
    subtraction below zero); that it does not occur is part of the theorems. *)
From S2P Require Import Prelude IntCodec Canon CanonLaws Witness Encoding KernelTerm KernelPrim.
From S2P Require Import Certificate Outcome KernelCheck KernelMeta KernelTyping KernelBudget Derivation Publication.

#[export] Instance Var_eq_dec : EqDecision Var.
Proof. solve_decision. Defined.
#[export] Instance TermKind_eq_dec : EqDecision TermKind.
Proof. solve_decision. Defined.
#[export] Instance ExplicitTerm_eq_dec : EqDecision ExplicitTerm.
Proof. solve_decision. Defined.
#[export] Instance JudgmentKind_eq_dec : EqDecision JudgmentKind.
Proof. solve_decision. Defined.
#[export] Instance KernelCertificate_eq_dec : EqDecision KernelCertificate.
Proof. solve_decision. Defined.

Abbreviation Closures := (list (option PrimitiveRelationId)).
Abbreviation Triple := (GeneratorId * TreeObj * TreeObj)%type.

(** * Elaboration *)

Inductive ElaborationResult : Type :=
  | EProven (judgement : Judgement) (edge : Dependency)
  | ENotElaborated (verdict : Verdict)
  | ERefused (error : PublicationError).

Section elaborate.
Context `{Blake3}.

Definition publish_accepted (source : Judgement) (prop : Prp) (certificate : KernelCertificate) : ElaborationResult :=
  let support := SKernelCertificate (verifier certificate) (certificate_id certificate) in
  match publish ProofKernel (Publication.context source) (proposition_id prop) Proven support with
  | Ok judgement => EProven judgement (mkDependency ElaborationBoundary (digest (judgement_id source)))
  | Err err => ERefused err
  end.

Definition elaborate_and_publish (source : AuditedSource) (prop : Prp) (term : ExplicitTerm) (budget : Budget) : ElaborationResult :=
  match acceptance (Publication.context (source_judgement source)) prop term budget with
  | Accepted certificate => publish_accepted (source_judgement source) prop certificate
  | verdict => ENotElaborated verdict
  end.

(** ** Decompositions *)

(** [ObjectTerm::Const(PropositionId(id.digest()))]. *)
Definition const_of {k} (i : Id k) : ObjectTerm := Const (mkId (digest i)).

(** [h_props], from index [i]. *)
Fixpoint link_props (i : nat) (gs : list GeneratorId) (configs : list ConfigId) : option (list Prp) :=
  match gs with
  | [] => Some []
  | g :: gs' =>
    x_prev ← configs !! i;
    x_curr ← configs !! S i;
    hs ← link_props (S i) gs' configs;
    Some (Realizes (const_of g) (const_of x_prev) (const_of x_curr) :: hs)
  end.

(** [compose(g_n, … compose(g_2, g_1))]. *)
Definition composite_witness (g1 : GeneratorId) (gs : list GeneratorId) : ObjectTerm :=
  fold_left (λ k g, Compose (const_of g) k) gs (const_of g1).

(** [H_1 -> … -> H_n -> goal]. *)
Definition implications (hs : list Prp) (goal : Prp) : Prp := foldr Impl goal hs.

(** The body of the proof term: the hypotheses composed from the left. *)
Definition chain_body (n : nat) : TermKind :=
  fold_left (λ body i, RealizesComp body (Hyp (Index (n - 1 - i)))) (seq 1 (n - 1)) (Hyp (Index (n - 1))).

(** [for i in (0..n).rev() { kind = Lam { h{i+1}, kind } }]. *)
Definition hyp_name (i : nat) : string := "h" +:+ pretty (i + 1).
Definition lambdas (n : nat) (body : TermKind) : TermKind :=
  fold_left (λ kind i, Lam (Some (hyp_name i)) kind) (reverse (seq 0 n)) body.

Definition elaborate_decomposition (source : Judgement) (d : Decomposition) (budget : Budget) : option ElaborationResult :=
  match audited_source_verify source (SSettlement d) with
  | Err err => Some (ERefused err)
  | Ok source =>
    match generators d with
    | [] => Some (ENotElaborated (Rejected (RejectionCustom [PText "Empty decomposition"])))
    | g1 :: gs =>
      let n := length (generators d) in
      h_props ← link_props 0 (generators d) (configs d);
      x_0 ← configs d !! 0;
      x_n ← configs d !! n;
      let goal := Realizes (composite_witness g1 gs) (const_of x_0) (const_of x_n) in
      let prop := implications h_props goal in
      let term := mkTerm (Publication.context (source_judgement source)) (lambdas n (chain_body n)) in
      Some (elaborate_and_publish source prop term budget)
    end
  end.

(** * Trees *)

Fixpoint tree_obj_to_object_term (o : TreeObj) : ObjectTerm :=
  match o with
  | TAtom c => const_of c
  | TProd a b => Tensor (tree_obj_to_object_term a) (tree_obj_to_object_term b)
  end.

Fixpoint witness_object (t : RealizesTree) : ObjectTerm :=
  match t with
  | Leaf generator _ _ => const_of generator
  | Seq l r => Compose (witness_object r) (witness_object l)
  | TensorT l r => Tensor (witness_object l) (witness_object r)
  end.

Inductive LeafStatus : Type := Closed (relation : PrimitiveRelationId) | Open.
#[export] Instance LeafStatus_eq_dec : EqDecision LeafStatus.
Proof. solve_decision. Defined.

Record LeafOccurrence : Type := mkOccurrence {
  o_index : nat;
  o_generator : GeneratorId;
  o_src : TreeObj;
  o_dst : TreeObj;
  status : LeafStatus
}.
#[export] Instance LeafOccurrence_eq_dec : EqDecision LeafOccurrence.
Proof. solve_decision. Defined.

Definition is_closed (o : LeafOccurrence) : bool := match status o with Closed _ => true | Open => false end.

Inductive TreeProofError : Type :=
  | DerivationNotVerified
  | ShapeMismatch
  | PrimitiveNotAdmitted (index : nat)
  | NonCanonicalTerm
  | NotAccepted (v : Verdict).

Record AcceptedTreeProof : Type := mkProof {
  p_context : ContextId;
  p_proposition : Prp;
  p_term : ExplicitTerm;
  p_certificate : KernelCertificate;
  p_derivation : Id KTreeDerivation;
  occurrences : list LeafOccurrence
}.
#[export] Instance AcceptedTreeProof_eq_dec : EqDecision AcceptedTreeProof.
Proof. solve_decision. Defined.

Definition closed_occurrences (p : AcceptedTreeProof) : list LeafOccurrence := filter is_closed (occurrences p).
Definition remaining_occurrences (p : AcceptedTreeProof) : list LeafOccurrence := filter (λ o, is_closed o = false) (occurrences p).

Definition leaf_is (l : RealizesTree) (o : LeafOccurrence) : bool :=
  match l with
  | Leaf generator src dst => bool_decide (generator = o_generator o ∧ src = o_src o ∧ dst = o_dst o)
  | _ => false
  end.
Definition binds (p : AcceptedTreeProof) (d : TreeDerivation) : bool :=
  if decide (p_derivation p ≠ tree_derivation_id d) then false else
  bool_decide (length (leaves (tree d)) = length (occurrences p)) &&
  forallb (λ lo, leaf_is lo.1 lo.2) (zip (leaves (tree d)) (occurrences p)).

(** ** Classification *)

Definition closing_candidates : list PrimitiveRelationId := [typing_arith_v2].

Definition relation_closes (relation : PrimitiveRelationId) (g : GeneratorId) (src dst : TreeObj) : bool :=
  match resolve relation with
  | None => false
  | Some resolved =>
    if decide (judgment_kind resolved ≠ Typing ∨ generator resolved ≠ g) then false else
    match src, dst with
    | TAtom src, TAtom dst => admits resolved (mkId (digest src)) (mkId (digest dst))
    | _, _ => false
    end
  end.

Definition classify_leaf (g : GeneratorId) (src dst : TreeObj) : option PrimitiveRelationId :=
  find (λ relation, relation_closes relation g src dst) closing_candidates.

Definition triple_of (leaf : RealizesTree) : option Triple :=
  match leaf with Leaf generator src dst => Some (generator, src, dst) | _ => None end.

Definition leaf_triples (t : RealizesTree) : option (list Triple) :=
  if negb (well_formed t) then None else
  match leaves t with
  | [] => None
  | ls => mapM triple_of ls
  end.

Definition classify (t : RealizesTree) : option Closures :=
  option_map (map (λ l : Triple, let '(g, src, dst) := l in classify_leaf g src dst)) (leaf_triples t).

(** ** Construction *)

(** The counters of [Emit]: hypotheses and leaves passed. *)
Definition Emit : Type := nat * nat.

Fixpoint emit_term (closures : Closures) (ls : list Triple) (binders : nat) (t : RealizesTree) (e : Emit) : option (TermKind * Emit) :=
  match t with
  | Leaf _ _ _ =>
    let '(open, i) := e in
    closure ← closures !! i;
    match closure with
    | Some relation =>
      '(_, src, dst) ← ls !! i;
      Some (PrimRealizes relation (tree_obj_to_object_term src) (tree_obj_to_object_term dst), (open, S i))
    | None => if decide (binders < 1 + open) then None else Some (Hyp (Index (binders - 1 - open)), (S open, S i))
    end
  | Seq l r =>
    '(kl, e) ← emit_term closures ls binders l e;
    '(kr, e) ← emit_term closures ls binders r e;
    Some (RealizesComp kl kr, e)
  | TensorT l r =>
    '(kl, e) ← emit_term closures ls binders l e;
    '(kr, e) ← emit_term closures ls binders r e;
    Some (RealizesTensor kl kr, e)
  end.

Definition leaf_prop (l : Triple) : Prp :=
  let '(g, src, dst) := l in Realizes (const_of g) (tree_obj_to_object_term src) (tree_obj_to_object_term dst).

(** The hypotheses that remain, in leaf order. *)
Definition open_props (ls : list Triple) (closures : Closures) : list Prp :=
  (λ lc : Triple * option PrimitiveRelationId, leaf_prop lc.1) <$> filter (λ lc, lc.2 = None) (zip ls closures).

Definition tree_goal (t : RealizesTree) : Prp :=
  Realizes (witness_object t) (tree_obj_to_object_term (tree_src t)) (tree_obj_to_object_term (tree_dst t)).

Definition build_proof (t : RealizesTree) (ls : list Triple) (closures : Closures) (ctx : ContextId) : option (Prp * ExplicitTerm) :=
  let hs := open_props ls closures in
  let binders := length hs in
  '(kind, _) ← emit_term closures ls binders t (0, 0);
  Some (implications hs (tree_goal t), mkTerm ctx (lambdas binders kind)).

Record Candidate : Type := mkCandidate { c_proposition : Prp; c_term : ExplicitTerm; c_closures : Closures }.

(** The inner option is the code's: a malformed or empty tree. *)
Definition candidate (t : RealizesTree) (ctx : ContextId) : option (option Candidate) :=
  match leaf_triples t, classify t with
  | Some ls, Some closures =>
    '(prop, term) ← build_proof t ls closures ctx;
    Some (Some (mkCandidate prop term closures))
  | _, _ => Some None
  end.

Definition occurrence_of (i : nat) (lc : RealizesTree * option PrimitiveRelationId) : option LeafOccurrence :=
  match lc.1 with
  | Leaf g src dst => Some (mkOccurrence i g src dst (match lc.2 with Some relation => Closed relation | None => Open end))
  | _ => None
  end.

Definition accepted (d : TreeDerivation) (ctx : ContextId) (c : Candidate) (certificate : KernelCertificate) : AcceptedTreeProof :=
  let occurrences := omap id (imap occurrence_of (zip (leaves (tree d)) (c_closures c))) in
  mkProof ctx (c_proposition c) (c_term c) certificate (tree_derivation_id d) occurrences.

(** ** Certified elaboration *)

Inductive TreeElaboration : Type :=
  | TProven (judgement : Judgement) (edge : Dependency) (proof : AcceptedTreeProof)
  | TNotElaborated (verdict : Verdict)
  | TRefused (error : PublicationError).

Definition into_result (t : TreeElaboration) : ElaborationResult :=
  match t with
  | TProven judgement edge _ => EProven judgement edge
  | TNotElaborated verdict => ENotElaborated verdict
  | TRefused err => ERefused err
  end.

Definition rejected_custom (s : string) : TreeElaboration := TNotElaborated (Rejected (RejectionCustom [PText s])).

Definition elaborate_tree_certified (source : Judgement) (d : TreeDerivation) (budget : Budget) : option TreeElaboration :=
  match audited_source_verify source (STree d) with
  | Err err => Some (TRefused err)
  | Ok source =>
    let t := tree d in
    if negb (well_formed t) then Some (rejected_custom "malformed Seq middle") else
    match leaves t with
    | [] => Some (rejected_custom "empty leaves")
    | _ =>
      let ctx := Publication.context (source_judgement source) in
      c ← candidate t ctx;
      match c with
      | None => Some (rejected_custom "non-leaf in leaves enumeration")
      | Some c =>
        match acceptance ctx (c_proposition c) (c_term c) budget with
        | Accepted certificate =>
          match publish_accepted (source_judgement source) (c_proposition c) certificate with
          | EProven judgement edge => Some (TProven judgement edge (accepted d ctx c certificate))
          | ERefused err => Some (TRefused err)
          | ENotElaborated verdict => Some (TNotElaborated verdict)
          end
        | verdict => Some (TNotElaborated verdict)
        end
      end
    end
  end.

Definition elaborate_tree (source : Judgement) (d : TreeDerivation) (budget : Budget) : option ElaborationResult :=
  into_result <$> elaborate_tree_certified source d budget.

(** ** Verification of untrusted terms *)

Fixpoint read_closures (t : RealizesTree) (kind : TermKind) (out : Closures) : result TreeProofError Closures :=
  match t, kind with
  | Leaf _ _ _, Hyp _ => Ok (out ++ [None])
  | Leaf _ _ _, PrimRealizes relation _ _ => Ok (out ++ [Some relation])
  | Seq l r, RealizesComp tl tr | TensorT l r, RealizesTensor tl tr =>
    out ← read_closures l tl out; read_closures r tr out
  | _, _ => Err ShapeMismatch
  end.

Fixpoint strip_lambdas (kind : TermKind) : TermKind :=
  match kind with Lam _ body => strip_lambdas body | _ => kind end.

(** The loop over the claimed closures, from [index] on. *)
Fixpoint check_closures (index : nat) (l : list (option PrimitiveRelationId * Triple)) : result TreeProofError unit :=
  match l with
  | [] => Ok tt
  | (Some relation, (g, src, dst)) :: l' =>
    if negb (relation_closes relation g src dst) then Err (PrimitiveNotAdmitted index) else check_closures (S index) l'
  | (None, _) :: l' => check_closures (S index) l'
  end.

Definition is_structure_verified (d : TreeDerivation) : bool := bool_decide (tverification d = StructureVerified).

Definition verify_tree_proof (d : TreeDerivation) (ctx : ContextId) (term : ExplicitTerm) (budget : Budget) :
    option (result TreeProofError AcceptedTreeProof) :=
  if negb (is_structure_verified d) then Some (Err DerivationNotVerified) else
  match leaf_triples (tree d) with
  | None => Some (Err DerivationNotVerified)
  | Some ls =>
    match read_closures (tree d) (strip_lambdas (kind term)) [] with
    | Err e => Some (Err e)
    | Ok closures =>
      if decide (length closures ≠ length ls) then Some (Err ShapeMismatch) else
      match check_closures 0 (zip closures ls) with
      | Err e => Some (Err e)
      | Ok _ =>
        '(prop, expected) ← build_proof (tree d) ls closures ctx;
        if decide (kind expected ≠ kind term) then Some (Err NonCanonicalTerm) else
        Some (match acceptance ctx prop term budget with
              | Accepted certificate => Ok (accepted d ctx (mkCandidate prop expected closures) certificate)
              | verdict => Err (NotAccepted verdict)
              end)
      end
    end
  end.

Definition recheck (p : AcceptedTreeProof) (d : TreeDerivation) (ctx : ContextId) (budget : Budget) :
    option (result TreeProofError unit) :=
  again ← verify_tree_proof d ctx (p_term p) budget;
  Some (again ← again; if decide (again = p) then Ok tt else Err NonCanonicalTerm).
End elaborate.

(** * Typing the constructions *)

Section typing.
Context `{Blake3} (fresh : Gamma → Prp → Prp → PropositionId → Prop).
Abbreviation checks := (checks fresh).
Abbreviation infers := (infers fresh).

(** The proof terms of realizations are checked at what they infer. *)
Definition realizing (k : TermKind) : bool :=
  match k with Hyp _ | PrimRealizes _ _ _ | RealizesComp _ _ | RealizesTensor _ _ => true | _ => false end.

Lemma checks_realizing Γ k p : realizing k = true → infers Γ k p → checks Γ k p.
Proof.
  intros Hk Hi. destruct k; try discriminate Hk; try (by apply C_infer); inversion Hi; subst.
  - by eapply C_comp.
  - by eapply C_tensor.
Qed.

(** The hypotheses that [lambdas] binds, innermost first. *)
Definition named_from (j : nat) (hs : list Prp) : Gamma := zip ((λ i, Some (hyp_name i)) <$> seq j (length hs)) hs.
Definition bound_context (hs : list Prp) : Gamma := reverse (named_from 0 hs).

Lemma lambdas_foldr n body : lambdas n body = foldr (λ i k, Lam (Some (hyp_name i)) k) body (seq 0 n).
Proof.
  unfold lambdas. generalize (seq 0 n). intros l. revert body. induction l as [|i l IH]; intros body; [done|].
  by rewrite reverse_cons, fold_left_app, IH.
Qed.

Lemma checks_implications hs : ∀ j Γ body goal,
  checks (reverse (named_from j hs) ++ Γ) body goal →
  checks Γ (foldr (λ i k, Lam (Some (hyp_name i)) k) body (seq j (length hs))) (implications hs goal).
Proof.
  induction hs as [|h hs IH]; intros j Γ body goal Hb; [done|]. cbn [length seq foldr implications]. apply C_lam, IH.
  unfold named_from in Hb. cbn [length seq fmap list_fmap] in Hb. change (zip (?x :: ?l) (h :: hs)) with ((x, h) :: zip l hs) in Hb.
  rewrite reverse_cons, <-app_assoc in Hb. exact Hb.
Qed.

Lemma checks_lambdas hs body goal : checks (bound_context hs) body goal → checks [] (lambdas (length hs) body) (implications hs goal).
Proof. intros Hb. rewrite lambdas_foldr. apply checks_implications. by rewrite app_nil_r. Qed.

Lemma bound_lookup hs i h : hs !! i = Some h → bound_context hs !! (length hs - 1 - i) = Some (Some (hyp_name i), h).
Proof.
  intros Hi. pose proof (lookup_lt_Some _ _ _ Hi) as Hlt. unfold bound_context.
  assert (length (named_from 0 hs) = length hs) as Hl by (unfold named_from; rewrite length_zip, length_fmap, length_seq; lia).
  rewrite reverse_lookup by lia. rewrite Hl. replace (length hs - S (length hs - 1 - i)) with i by lia.
  unfold named_from. apply lookup_zip_with_Some. exists (Some (hyp_name i)), h. split; [done|]. split; [|done].
  rewrite list_lookup_fmap, lookup_seq_lt by done. done.
Qed.

Lemma hyp_infers hs i h : hs !! i = Some h → infers (bound_context hs) (Hyp (Index (length hs - 1 - i))) h.
Proof. intros Hi. eapply I_index. by apply bound_lookup. Qed.

Lemma lambdas_measures n body : ksize (lambdas n body) = n + ksize body ∧ unpack_free (lambdas n body) = unpack_free body.
Proof.
  rewrite lambdas_foldr. assert (∀ l : list nat, ksize (foldr (λ i k, Lam (Some (hyp_name i)) k) body l) = length l + ksize body ∧
    unpack_free (foldr (λ i k, Lam (Some (hyp_name i)) k) body l) = unpack_free body) as Hl.
  { induction l as [|i l [IH1 IH2]]; [done|]. cbn [foldr ksize unpack_free length]. rewrite IH1, IH2. done. }
  destruct (Hl (seq 0 n)) as [E1 E2]. by rewrite E1, E2, length_seq.
Qed.

(** ** Chains *)

Lemma link_props_spec gs : ∀ i configs, i + length gs < length configs → ∃ hs, link_props i gs configs = Some hs ∧ length hs = length gs ∧
  ∀ k g, gs !! k = Some g → ∃ x y, configs !! (i + k) = Some x ∧ configs !! S (i + k) = Some y ∧
    hs !! k = Some (Realizes (const_of g) (const_of x) (const_of y)).
Proof.
  induction gs as [|g gs IH]; intros i configs Hl; cbn [length] in Hl.
  { exists []. split_and!; [done|done|]. intros k g Hk. by rewrite lookup_nil in Hk. }
  destruct (lookup_lt_is_Some_2 configs i) as [x Hx]; [lia|]. destruct (lookup_lt_is_Some_2 configs (S i)) as [y Hy]; [lia|].
  destruct (IH (S i) configs) as (hs & E & Hlen & Hk); [lia|]. cbn [link_props]. rewrite Hx, Hy. cbn [mbind option_bind]. rewrite E.
  exists (Realizes (const_of g) (const_of x) (const_of y) :: hs). split_and!; [done|cbn; lia|]. intros [|k] g' Hg.
  - injection Hg as <-. exists x, y. by rewrite Nat.add_0_r.
  - destruct (Hk k g' Hg) as (x' & y' & ? & ? & ?). exists x', y'. by replace (i + S k) with (S i + k) by lia.
Qed.

Lemma chain_step_infers hs (configs : list ConfigId) x0 : ∀ (gs : list GeneratorId) i body w,
  (∀ k g, gs !! k = Some g → ∃ x y, configs !! (i + k) = Some x ∧ configs !! S (i + k) = Some y ∧
    hs !! (i + k) = Some (Realizes (const_of g) (const_of x) (const_of y))) →
  (∀ x, configs !! i = Some x → infers (bound_context hs) body (Realizes w x0 (const_of x))) → realizing body = true →
  let k := fold_left (λ body j, RealizesComp body (Hyp (Index (length hs - 1 - j)))) (seq i (length gs)) body in
  (∀ x, configs !! (i + length gs) = Some x → infers (bound_context hs) k (Realizes (fold_left (λ k g, Compose (const_of g) k) gs w) x0 (const_of x))) ∧
  realizing k = true ∧ ksize k = ksize body + 2 * length gs ∧ (unpack_free body = true → unpack_free k = true).
Proof.
  induction gs as [|g gs IH]; intros i body w Hl Hb Hr; cbn [length seq fold_left]; cbv zeta.
  { rewrite Nat.add_0_r, Nat.mul_0_r, Nat.add_0_r. done. }
  destruct (Hl 0 g eq_refl) as (x & y & Hx & Hy & Hh). rewrite Nat.add_0_r in *.
  destruct (IH (S i) (RealizesComp body (Hyp (Index (length hs - 1 - i)))) (Compose (const_of g) w)) as (H1 & H2 & H3 & H4).
  - intros k g' Hk. destruct (Hl (S k) g' Hk) as (x' & y' & ? & ? & ?). exists x', y'. by replace (S i + k) with (i + S k) by lia.
  - intros y' Hy'. rewrite Hy in Hy'. injection Hy' as <-. eapply I_comp; [by apply Hb|]. by apply hyp_infers.
  - done.
  - replace (i + S (length gs)) with (S i + length gs) by lia. split_and!; [done|done| |].
    + cbn [ksize] in H3. lia.
    + intros Hu. apply H4. cbn. by rewrite Hu.
Qed.

(** The proof term of a chain of links has the type of their composition. *)
Lemma chain_checks hs (g1 : GeneratorId) gs (configs : list ConfigId) x0 xn : length hs = S (length gs) → configs !! 0 = Some x0 → configs !! S (length gs) = Some xn →
  (∀ k g, (g1 :: gs) !! k = Some g → ∃ x y, configs !! k = Some x ∧ configs !! S k = Some y ∧
    hs !! k = Some (Realizes (const_of g) (const_of x) (const_of y))) →
  let t := lambdas (length hs) (chain_body (length hs)) in
  checks [] t (implications hs (Realizes (composite_witness g1 gs) (const_of x0) (const_of xn))) ∧
  ksize t + 1 = 3 * length hs ∧ unpack_free t = true.
Proof.
  intros Hl H0 Hn Hk. cbv zeta. destruct (lambdas_measures (length hs) (chain_body (length hs))) as [-> ->].
  destruct (Hk 0 g1 eq_refl) as (x & y & Hx & Hy & Hh). rewrite H0 in Hx. injection Hx as <-.
  destruct (chain_step_infers hs configs (const_of x0) gs 1 (Hyp (Index (length hs - 1))) (const_of g1)) as (H1 & H2 & H3 & H4).
  - intros k g Hg. destruct (Hk (S k) g Hg) as (x' & y' & ? & ? & ?). by exists x', y'.
  - intros y' Hy'. rewrite Hy in Hy'. injection Hy' as <-. pose proof (hyp_infers hs 0 _ Hh) as Hi. by rewrite Nat.sub_0_r in Hi.
  - done.
  - unfold chain_body. replace (length hs - 1) with (length gs) in * by lia. split_and!; [|cbn [ksize] in H3; lia|by apply H4].
    apply checks_lambdas, checks_realizing; [done|]. by apply H1.
Qed.
End typing.

(** ** Trees *)

(** The leaves as triples, left to right. *)
Fixpoint triples (t : RealizesTree) : list Triple :=
  match t with
  | Leaf g src dst => [(g, src, dst)]
  | Seq l r | TensorT l r => triples l ++ triples r
  end.
Definition leaf_of (l : Triple) : RealizesTree := let '(g, src, dst) := l in Leaf g src dst.

Lemma collect_leaves_triples t : ∀ out, collect_leaves t out = out ++ (leaf_of <$> triples t).
Proof.
  induction t as [g src dst|l IHl r IHr|l IHl r IHr]; intros out; cbn [collect_leaves triples]; [done| |];
    rewrite IHr, IHl, fmap_app; by rewrite app_assoc.
Qed.

Lemma leaves_triples t : leaves t = leaf_of <$> triples t.
Proof. unfold leaves. by rewrite collect_leaves_triples. Qed.

Lemma triples_ne t : triples t ≠ [].
Proof. induction t as [|l IHl r IHr|l IHl r IHr]; cbn; [done| |]; intros [? ?]%app_eq_nil; done. Qed.

Lemma leaf_triples_spec t : leaf_triples t = if well_formed t then Some (triples t) else None.
Proof.
  unfold leaf_triples. destruct (well_formed t); cbn [negb]; [|done]. rewrite leaves_triples. pose proof (triples_ne t) as Hne.
  assert (mapM triple_of (leaf_of <$> triples t) = Some (triples t)) as Hm.
  { apply mapM_Some. induction (triples t) as [|[[g s] d] l IH]; constructor; [done|]. destruct l; [constructor|by apply IH]. }
  destruct (triples t) as [|x l]; [done|]. exact Hm.
Qed.

(** [closures] can be the closures of [ls]: each relation closes its leaf. *)
Definition closure_ok `{Blake3} (l : Triple) (c : option PrimitiveRelationId) : Prop :=
  match c with None => True | Some relation => let '(g, src, dst) := l in relation_closes relation g src dst = true end.
Definition closures_ok `{Blake3} (ls : list Triple) (closures : Closures) : Prop := Forall2 closure_ok ls closures.

Lemma check_closures_Ok `{Blake3} ls : ∀ closures i, length closures = length ls → check_closures i (zip closures ls) = Ok tt ↔ closures_ok ls closures.
Proof.
  induction ls as [|[[g src] dst] ls IH]; intros [|c closures] i Hl; try discriminate Hl; [split; [constructor|done]|].
  change (zip (c :: closures) ((g, src, dst) :: ls)) with ((c, (g, src, dst)) :: zip closures ls). cbn [check_closures].
  injection Hl as Hl. unfold closures_ok in *. rewrite Forall2_cons. destruct c as [relation|]; cbn [closure_ok]; [|rewrite IH by done; naive_solver].
  destruct (relation_closes relation g src dst); cbn [negb]; [rewrite IH by done; naive_solver|]. split; [done|by intros [? _]].
Qed.

Lemma classify_ok `{Blake3} t closures : classify t = Some closures →
  well_formed t = true ∧ closures = (λ l : Triple, let '(g, src, dst) := l in classify_leaf g src dst) <$> triples t ∧ closures_ok (triples t) closures.
Proof.
  unfold classify. rewrite leaf_triples_spec. destruct (well_formed t); [|done]. intros [= <-]. split; [done|]. split; [done|]. unfold closures_ok.
  induction (triples t) as [|[[g src] dst] l IH]; constructor; [|done]. unfold closure_ok, classify_leaf.
  destruct (find _ _) as [relation|] eqn:E; [|done]. by apply find_some in E as [_ ?].
Qed.

Lemma open_props_app `{Blake3} l1 l2 c1 c2 : length l1 = length c1 → open_props (l1 ++ l2) (c1 ++ c2) = open_props l1 c1 ++ open_props l2 c2.
Proof. intros Hl. unfold open_props. by rewrite zip_with_app, filter_app, fmap_app. Qed.

Section trees.
Context `{Blake3} (fresh : Gamma → Prp → Prp → PropositionId → Prop).

(** A subtree whose leaves are [triples t] within [ls], with closures [ct] within [closures]. *)
Lemma emit_spec t : ∀ ls closures l0 l2 c0 ct c2,
  well_formed t = true → ls = l0 ++ triples t ++ l2 → closures = c0 ++ ct ++ c2 → length l0 = length c0 → closures_ok (triples t) ct →
  let hs := open_props ls closures in
  ∃ k, emit_term closures ls (length hs) t (length (open_props l0 c0), length l0) =
         Some (k, (length (open_props (l0 ++ triples t) (c0 ++ ct)), length (l0 ++ triples t))) ∧
    infers fresh (bound_context hs) k (tree_goal t) ∧ realizing k = true ∧ unpack_free k = true ∧
    ksize k + 1 = 2 * length (triples t) ∧ ∀ out, read_closures t k out = Ok (out ++ ct).
Proof.
  induction t as [g src dst|l IHl r IHr|l IHl r IHr]; intros ls closures l0 l2 c0 ct c2 Hwf Hls Hcs Hlen Hok hs; cbn [triples well_formed emit_term] in *.
  - inversion Hok as [|? c ? ? Hc Hnil]; subst. inversion Hnil; subst. clear Hnil Hok.
    cbn [app]. rewrite (list_lookup_middle c0) by done. cbn [mbind option_bind]. rewrite open_props_app by done. destruct c as [relation|].
    + cbn [closure_ok] in Hc. rewrite (list_lookup_middle l0) by done. cbn [mbind option_bind]. unfold relation_closes in Hc.
      destruct (resolve relation) as [res|] eqn:Er; [|done]. destruct (decide (judgment_kind res ≠ Typing ∨ generator res ≠ g)) as [|Hd]; [done|]. apply Decidable.not_or in Hd as [_ Hg%dec_stable].
      destruct src as [s|], dst as [d|]; try discriminate Hc. eexists. split; [rewrite !length_app; cbn; by rewrite Nat.add_0_r, Nat.add_1_r|].
      split; [|split_and!; [done|done|done|done]]. unfold tree_goal. cbn [witness_object tree_obj_to_object_term tree_src tree_dst]. rewrite <-Hg. by apply I_prim.
    + assert (hs = open_props l0 c0 ++ leaf_prop (g, src, dst) :: open_props l2 c2) as Hhs by (unfold hs; by rewrite !open_props_app).
      assert (length (open_props l0 c0) < length hs) as Hlt by (rewrite Hhs, length_app; cbn; lia).
      destruct (decide (length hs < 1 + length (open_props l0 c0))) as [|_]; [lia|]. eexists. split; [rewrite !length_app; cbn; by rewrite !Nat.add_1_r|].
      split; [|split_and!; [done|done|done|done]]. apply hyp_infers. rewrite Hhs. by rewrite list_lookup_middle.
  - apply andb_true_iff in Hwf as [[Hwl Hwr]%andb_true_iff Hmid]. apply bool_decide_eq_true in Hmid.
    apply Forall2_app_inv_l in Hok as (cl & cr & Hcl & Hcr & ->).
    destruct (IHl ls closures l0 (triples r ++ l2) c0 cl (cr ++ c2) Hwl) as (kl & El & Il & Rl & Ul & Sl & Cl); [by rewrite Hls, <-app_assoc|by rewrite Hcs, <-app_assoc|done|done|].
    destruct (IHr ls closures (l0 ++ triples l) l2 (c0 ++ cl) cr c2 Hwr) as (kr & Er & Ir & Rr & Ur & Sr & Cr);
      [by rewrite Hls, <-!app_assoc|by rewrite Hcs, <-!app_assoc|rewrite !length_app, Hlen; by rewrite (Forall2_length _ _ _ Hcl)|done|].
    unfold hs. clear hs. rewrite El. cbn [mbind option_bind]. rewrite Er. cbn [mbind option_bind]. eexists. split; [by rewrite <-!app_assoc|].
    split; [|split_and!; [done|cbn; by rewrite Ul, Ur|rewrite length_app; cbn [ksize]; lia|]].
    + unfold tree_goal in *. cbn [witness_object tree_src tree_dst]. eapply I_comp; [exact Il|]. rewrite Hmid. exact Ir.
    + intros out. cbn [read_closures]. rewrite Cl. cbn [mbind result_bind]. by rewrite Cr, <-app_assoc.
  - apply andb_true_iff in Hwf as [Hwl Hwr]. apply Forall2_app_inv_l in Hok as (cl & cr & Hcl & Hcr & ->).
    destruct (IHl ls closures l0 (triples r ++ l2) c0 cl (cr ++ c2) Hwl) as (kl & El & Il & Rl & Ul & Sl & Cl); [by rewrite Hls, <-app_assoc|by rewrite Hcs, <-app_assoc|done|done|].
    destruct (IHr ls closures (l0 ++ triples l) l2 (c0 ++ cl) cr c2 Hwr) as (kr & Er & Ir & Rr & Ur & Sr & Cr);
      [by rewrite Hls, <-!app_assoc|by rewrite Hcs, <-!app_assoc|rewrite !length_app, Hlen; by rewrite (Forall2_length _ _ _ Hcl)|done|].
    unfold hs. clear hs. rewrite El. cbn [mbind option_bind]. rewrite Er. cbn [mbind option_bind]. eexists. split; [by rewrite <-!app_assoc|].
    split; [|split_and!; [done|cbn; by rewrite Ul, Ur|rewrite length_app; cbn [ksize]; lia|]].
    + unfold tree_goal in *. cbn [witness_object tree_src tree_dst tree_obj_to_object_term]. by eapply I_tensor.
    + intros out. cbn [read_closures]. rewrite Cl. cbn [mbind result_bind]. by rewrite Cr, <-app_assoc.
Qed.
End trees.

(** ** The proofs built *)

Lemma strip_lambdas_realizing n k : realizing k = true → strip_lambdas (lambdas n k) = k.
Proof.
  intros Hk. rewrite lambdas_foldr. induction (seq 0 n) as [|i l IH]; [by destruct k|exact IH].
Qed.

(** A leaf occurrence, from its leaf and the closure chosen. *)
Definition leaf_occurrence (i : nat) (lc : Triple * option PrimitiveRelationId) : LeafOccurrence :=
  let '(g, src, dst) := lc.1 in
  mkOccurrence i g src dst (match lc.2 with Some relation => Closed relation | None => Open end).
Definition occurrence_triple (o : LeafOccurrence) : Triple := (o_generator o, o_src o, o_dst o).
Definition occurrence_closure (o : LeafOccurrence) : option PrimitiveRelationId :=
  match status o with Closed relation => Some relation | Open => None end.

Lemma leaf_occurrence_inv i lc : occurrence_triple (leaf_occurrence i lc) = lc.1 ∧ occurrence_closure (leaf_occurrence i lc) = lc.2 ∧
  is_closed (leaf_occurrence i lc) = match lc.2 with Some _ => true | None => false end.
Proof. by destruct lc as [[[g src] dst] [relation|]]. Qed.

Lemma read_closures_Err t : ∀ k out e, read_closures t k out = Err e → e = ShapeMismatch.
Proof.
  induction t as [g s d|l IHl r IHr|l IHl r IHr]; intros k out e; destruct k; cbn [read_closures]; try done; try (by intros [= <-]);
    (destruct (read_closures l _ out) as [out'|e'] eqn:E; cbn [mbind result_bind]; [apply IHr|intros [= <-]; by eapply IHl]).
Qed.

Section built.
Context `{Blake3}.

Lemma check_closures_Err l : ∀ i e, check_closures i l = Err e → ∃ j, e = PrimitiveNotAdmitted j.
Proof.
  induction l as [|[[relation|] [[g src] dst]] l IH]; intros i e; cbn [check_closures]; [done| |apply IH].
  destruct (relation_closes _ _ _ _); cbn [negb]; [apply IH|]. intros [= <-]. by exists i.
Qed.

(** What the term and the proposition built for a choice of closures are. *)
Lemma build_proof_spec t closures ctx : well_formed t = true → closures_ok (triples t) closures →
  let hs := open_props (triples t) closures in
  ∃ k, build_proof t (triples t) closures ctx = Some (implications hs (tree_goal t), mkTerm ctx (lambdas (length hs) k)) ∧
    (∀ fresh, checks fresh [] (lambdas (length hs) k) (implications hs (tree_goal t))) ∧
    unpack_free (lambdas (length hs) k) = true ∧ ksize (lambdas (length hs) k) ≤ 3 * length (triples t) ∧
    strip_lambdas (lambdas (length hs) k) = k ∧ read_closures t k [] = Ok closures.
Proof.
  intros Hwf Hok hs. pose proof (Forall2_length _ _ _ Hok) as Hlen.
  assert (length hs ≤ length (triples t)) as Hhs.
  { unfold hs, open_props. rewrite length_fmap. etransitivity; [apply length_filter|]. rewrite length_zip. lia. }
  destruct (emit_spec code_fresh t (triples t) closures [] [] [] closures []) as (k & E & _ & Hr & Hu & Hs & Hc);
    [done|by rewrite app_nil_r|by rewrite app_nil_r|done|done|].
  exists k. unfold build_proof. fold hs in E |- *. cbn [app] in E. change (length (open_props [] [])) with 0 in E. cbn [length] in E. rewrite E. cbn [mbind option_bind].
  destruct (lambdas_measures (length hs) k) as [-> ->]. split_and!; [done| |done|lia|by apply strip_lambdas_realizing|by rewrite Hc].
  intros fresh. destruct (emit_spec fresh t (triples t) closures [] [] [] closures []) as (k' & E' & Hi & Hr' & _);
    [done|by rewrite app_nil_r|by rewrite app_nil_r|done|done|]. fold hs in E', Hi. cbn [app] in E'. change (length (open_props [] [])) with 0 in E'. cbn [length] in E'.
  rewrite E in E'. injection E' as <-. by apply checks_lambdas, checks_realizing.
Qed.

Lemma accepted_occurrences d ctx c cert :
  occurrences (accepted d ctx c cert) = imap leaf_occurrence (zip (triples (tree d)) (c_closures c)).
Proof.
  unfold accepted. cbn [occurrences]. rewrite leaves_triples.
  assert (∀ (ls : list Triple) (cs : Closures) (f : nat → nat), omap id (imap (λ i, occurrence_of (f i)) (zip (leaf_of <$> ls) cs)) =
    imap (λ i, leaf_occurrence (f i)) (zip ls cs)) as Hg; [|exact (Hg _ _ id)].
  induction ls as [|[[g src] dst] ls IH]; intros [|c' cs] f; [done|done|done|].
  change (zip (leaf_of <$> (g, src, dst) :: ls) (c' :: cs)) with ((Leaf g src dst, c') :: zip (leaf_of <$> ls) cs).
  change (zip ((g, src, dst) :: ls) (c' :: cs)) with (((g, src, dst), c') :: zip ls cs). cbn [imap]. cbn [omap list_omap id occurrence_of fst snd].
  f_equal. apply (IH cs (f ∘ S)).
Qed.

Lemma occurrences_zip ls (cs : Closures) : length ls = length cs →
  let os := imap leaf_occurrence (zip ls cs) in occurrence_triple <$> os = ls ∧ occurrence_closure <$> os = cs ∧
  o_index <$> os = seq 0 (length ls).
Proof.
  intros Hl. cbv zeta. split_and!.
  - rewrite fmap_imap. transitivity (imap (const fst) (zip ls cs)).
    { apply imap_ext. intros i lc _. apply leaf_occurrence_inv. }
    rewrite imap_const. apply fst_zip. lia.
  - rewrite fmap_imap. transitivity (imap (const snd) (zip ls cs)).
    { apply imap_ext. intros i lc _. apply leaf_occurrence_inv. }
    rewrite imap_const. apply snd_zip. lia.
  - rewrite fmap_imap. apply list_eq. intros i. rewrite list_lookup_imap. destruct (decide (i < length ls)) as [Hi|Hi].
    + destruct (lookup_lt_is_Some_2 (zip ls cs) i) as [[[[g s] d] c] E]; [rewrite length_zip; lia|]. rewrite E, lookup_seq_lt by done. done.
    + rewrite (lookup_ge_None_2 (zip ls cs)) by (rewrite length_zip; lia). rewrite lookup_seq_ge by lia. done.
Qed.

Lemma remaining_props ls (cs : Closures) : length ls = length cs →
  (leaf_prop ∘ occurrence_triple) <$> filter (λ o, is_closed o = false) (imap leaf_occurrence (zip ls cs)) = open_props ls cs.
Proof.
  unfold open_props. intros _. generalize (zip ls cs). intros l.
  assert (∀ f : nat → nat, (leaf_prop ∘ occurrence_triple) <$> filter (λ o, is_closed o = false) (imap (λ i, leaf_occurrence (f i)) l) =
    (λ lc : Triple * option PrimitiveRelationId, leaf_prop lc.1) <$> filter (λ lc, lc.2 = None) l) as Hg; [|exact (Hg id)].
  induction l as [|lc l IH]; intros f; [done|]. cbn [imap]. destruct (leaf_occurrence_inv (f 0) lc) as (E1 & _ & E2). rewrite !filter_cons.
  destruct lc as [tr [relation|]]; cbn [snd] in *.
  - rewrite decide_False by (by rewrite E2). rewrite decide_False by done. apply (IH (f ∘ S)).
  - rewrite decide_True by done. rewrite decide_True by done. rewrite !fmap_cons. f_equal; [|apply (IH (f ∘ S))]. by destruct tr as [[g s] d].
Qed.

Lemma leaf_is_occurrence i g src dst c : leaf_is (Leaf g src dst) (leaf_occurrence i ((g, src, dst), c)) = true.
Proof. by apply bool_decide_eq_true. Qed.

Lemma accepted_binds d ctx c cert : length (triples (tree d)) = length (c_closures c) → binds (accepted d ctx c cert) d = true.
Proof.
  intros Hl. unfold binds. rewrite decide_False by (intros Hn; by apply Hn). rewrite accepted_occurrences, leaves_triples.
  rewrite bool_decide_true; [|rewrite length_imap, length_zip, length_fmap; lia]. rewrite andb_true_l. apply forallb_forall.
  intros [lf o] Hin. apply list_elem_of_In, list_elem_of_lookup in Hin as [i Hi]. apply lookup_zip_with_Some in Hi as (lf' & o' & [= <- <-] & Hlf & Ho).
  rewrite list_lookup_imap in Ho. destruct (zip _ _ !! i) as [[[[g src] dst] c']|] eqn:Ez; [|done]. injection Ho as <-.
  apply lookup_zip_with_Some in Ez as (? & ? & [= <- <-] & Et & _). rewrite list_lookup_fmap, Et in Hlf. injection Hlf as <-.
  apply leaf_is_occurrence.
Qed.

(** The witness object denotes the witness identity of the tree. *)
Lemma witness_object_id t : witness_digest (witness_object t) = tree_witness_id t.
Proof. induction t as [g s d|l IHl r IHr|l IHl r IHr]; cbn; [done| |]; by rewrite IHl, IHr. Qed.
End built.

(** * What elaboration does *)

Section results.
Context `{Blake3}.

Lemma audited_source_inv j s src : audited_source_verify j s = Ok src → src = mkAuditedSource j ∧ bears Audited s.
Proof.
  unfold audited_source_verify. case_decide as Ho; [done|].
  destruct (check_route_spec AuditChecker Audited s) as [[? E]|[(_ & Hb & r & E)|(_ & _ & e & E & _)]]; rewrite E; cbn -[decide]; [done| |done].
  case_decide as He; [done|]. by intros [= <-].
Qed.

Lemma audited_tree_verified j d src : audited_source_verify j (STree d) = Ok src → src = mkAuditedSource j ∧ tverification d = StructureVerified.
Proof. intros [-> Hb]%audited_source_inv. split; [done|]. by destruct Hb as [(d' & [=] & _)|(d' & [= ->] & ?)]. Qed.

(** The certificate of an accepted proof, and the judgement and edge published with it. *)
Definition certificate_for (ctx : ContextId) (p : Prp) (t : ExplicitTerm) : KernelCertificate :=
  mkCertificate native_verifier (certificate_id_v1 (mkMaterial ctx p t)).
Definition proven_judgement (source : Judgement) (p : Prp) (c : KernelCertificate) : Judgement :=
  mkJudgement (Publication.context source) (proposition_id p) Proven (support_evidence_id (SKernelCertificate (verifier c) (certificate_id c))).
Definition elaboration_edge (source : Judgement) : Dependency := mkDependency ElaborationBoundary (digest (judgement_id source)).

Lemma publish_accepted_proven source p c : publish_accepted source p c = EProven (proven_judgement source p c) (elaboration_edge source).
Proof.
  unfold publish_accepted.
  assert (publish ProofKernel (Publication.context source) (proposition_id p) Proven (SKernelCertificate (verifier c) (certificate_id c)) =
    Ok (proven_judgement source p c)) as ->; [|done]. apply publish_Ok. split_and!; [done| |done]. cbn. eauto.
Qed.

Lemma elaborate_and_publish_spec source p t budget :
  elaborate_and_publish (mkAuditedSource source) p t budget =
  match acceptance (Publication.context source) p t budget with
  | Accepted c => EProven (proven_judgement source p c) (elaboration_edge source)
  | v => ENotElaborated v
  end.
Proof. unfold elaborate_and_publish. cbn [source_judgement]. destruct (acceptance _ _ _ _); [apply publish_accepted_proven|done..]. Qed.

Lemma decomposition_spec source d budget : length (configs d) = length (generators d) + 1 →
  match audited_source_verify source (SSettlement d) with
  | Err e => elaborate_decomposition source d budget = Some (ERefused e)
  | Ok _ =>
    match generators d with
    | [] => elaborate_decomposition source d budget = Some (ENotElaborated (Rejected (RejectionCustom [PText "Empty decomposition"])))
    | g1 :: gs => ∃ hs x0 xn,
        link_props 0 (generators d) (configs d) = Some hs ∧ head (configs d) = Some x0 ∧ last (configs d) = Some xn ∧
        let ctx := Publication.context source in
        let p := implications hs (Realizes (composite_witness g1 gs) (const_of x0) (const_of xn)) in
        let t := mkTerm ctx (lambdas (length hs) (chain_body (length hs))) in
        let c := certificate_for ctx p t in
        (∀ fresh, checks fresh [] (kind t) p) ∧
        (elaborate_decomposition source d budget = Some (EProven (proven_judgement source p c) (elaboration_edge source)) ∧
           acceptance ctx p t budget = Accepted c
         ∨ (max_steps budget < 6 * length (generators d) ∨ max_depth budget < 6 * length (generators d)) ∧
           ∃ r, elaborate_decomposition source d budget = Some (ENotElaborated (ResourceExhausted r)))
    end
  end.
Proof.
  intros Hl. unfold elaborate_decomposition. destruct (audited_source_verify source (SSettlement d)) as [src|e] eqn:Ev; [|done].
  apply audited_source_inv in Ev as [-> _]. destruct (generators d) as [|g1 gs] eqn:Eg; [done|].
  destruct (link_props_spec (g1 :: gs) 0 (configs d)) as (hs & E & Hlen & Hk); [lia|]. cbn [length] in *.
  destruct (lookup_lt_is_Some_2 (configs d) 0) as [x0 H0]; [lia|]. destruct (lookup_lt_is_Some_2 (configs d) (S (length gs))) as [xn Hn]; [lia|].
  exists hs, x0, xn. rewrite E, H0, Hn. cbn [mbind option_bind source_judgement].
  assert (head (configs d) = Some x0 ∧ last (configs d) = Some xn) as [Hh Hla].
  { rewrite <-head_lookup in H0. split; [done|]. rewrite last_lookup, Hl. replace (Nat.pred _) with (S (length gs)) by lia. done. }
  split; [done|]. split; [done|]. split; [done|]. cbv zeta. rewrite <-Hlen.
  set (p := implications hs _). set (t := lambdas (length hs) (chain_body (length hs))).
  assert (∀ fresh, checks fresh [] t p ∧ ksize t + 1 = 3 * length hs ∧ unpack_free t = true) as Ht.
  { intros fresh. apply (chain_checks fresh hs g1 gs (configs d)); [done|done|done|]. intros k g Hg. destruct (Hk k g Hg) as (x & y & ? & ? & ?). by exists x, y. }
  destruct (Ht code_fresh) as (Hc & Hs & Hu). split; [intros fresh; apply Ht|]. rewrite elaborate_and_publish_spec.
  set (ctx := Publication.context source). destruct (acceptance_yields code_fresh ctx p (mkTerm ctx t) budget Hu eq_refl Hc) as [E1|[r E1]].
  - left. rewrite E1. done.
  - right. split; [|rewrite E1; by eexists]. destruct (decide (max_steps budget < 6 * length hs)); [by left|].
    destruct (decide (max_depth budget < 6 * length hs)); [by right|]. rewrite (acceptance_complete code_fresh) in E1; [discriminate E1|done|done|done|cbn; lia|cbn; lia].
Qed.

(** The propositions of the occurrences that remain, in leaf order. *)
Definition remaining_propositions (p : AcceptedTreeProof) : list Prp := (leaf_prop ∘ occurrence_triple) <$> remaining_occurrences p.

(** [p] is the account of a proof of [d] in [ctx] with the closures [cs]. *)
Definition proof_of (d : TreeDerivation) (ctx : ContextId) (cs : list (option PrimitiveRelationId)) (p : AcceptedTreeProof) : Prop :=
  p_context p = ctx ∧ KernelTerm.context (p_term p) = ctx ∧ p_certificate p = certificate_for ctx (p_proposition p) (p_term p) ∧
  (∀ fresh, checks fresh [] (kind (p_term p)) (p_proposition p)) ∧
  p_proposition p = implications (remaining_propositions p) (tree_goal (tree d)) ∧
  occurrence_triple <$> occurrences p = triples (tree d) ∧ occurrence_closure <$> occurrences p = cs ∧
  o_index <$> occurrences p = seq 0 (length cs) ∧ binds p d = true.

Lemma built_proof d ctx cs : well_formed (tree d) = true → closures_ok (triples (tree d)) cs →
  ∃ prop term, build_proof (tree d) (triples (tree d)) cs ctx = Some (prop, term) ∧ KernelTerm.context term = ctx ∧
    read_closures (tree d) (strip_lambdas (kind term)) [] = Ok cs ∧ unpack_free (kind term) = true ∧
    (∀ fresh, checks fresh [] (kind term) prop) ∧ ksize (kind term) ≤ 3 * length (triples (tree d)) ∧
    proof_of d ctx cs (accepted d ctx (mkCandidate prop term cs) (certificate_for ctx prop term)).
Proof.
  intros Hwf Hok. destruct (build_proof_spec (tree d) cs ctx Hwf Hok) as (k & E & Hc & Hu & Hs & Hst & Hr). pose proof (Forall2_length _ _ _ Hok) as Hlen.
  eexists _, _. split; [exact E|]. cbn [KernelTerm.context kind]. rewrite Hst. split_and!; try done. unfold proof_of, remaining_propositions, remaining_occurrences.
  rewrite !accepted_occurrences. cbn [c_closures accepted p_context p_term p_certificate p_proposition c_proposition c_term KernelTerm.context kind].
  destruct (occurrences_zip (triples (tree d)) cs Hlen) as (O1 & O2 & O3). rewrite remaining_props, O1, O2, O3 by done.
  split_and!; try done; [by rewrite Hlen|]. by apply accepted_binds.
Qed.

(** The verdicts on a built proof. *)
Lemma built_acceptance ctx prop term budget n : KernelTerm.context term = ctx → unpack_free (kind term) = true → (∀ fresh, checks fresh [] (kind term) prop) → ksize (kind term) ≤ n →
  acceptance ctx prop term budget = Accepted (certificate_for ctx prop term) ∨
  (max_steps budget < 2 * n ∨ max_depth budget < 2 * n) ∧ ∃ r, acceptance ctx prop term budget = ResourceExhausted r.
Proof.
  intros Hctx Hu Hc Hs. destruct (acceptance_yields code_fresh ctx prop term budget Hu Hctx (Hc _)) as [E|[r E]]; [by left|]. right.
  split; [|by eexists]. destruct (decide (max_steps budget < 2 * n)); [by left|]. destruct (decide (max_depth budget < 2 * n)); [by right|].
  rewrite (acceptance_complete code_fresh) in E; [discriminate E|done|done|done|lia|lia].
Qed.

(** Verification, on a term whose shape gives the closures [cs]. *)
Lemma verify_built d ctx budget cs prop term : tverification d = StructureVerified → well_formed (tree d) = true → closures_ok (triples (tree d)) cs →
  build_proof (tree d) (triples (tree d)) cs ctx = Some (prop, term) →
  ∀ t, kind t = kind term →
  verify_tree_proof d ctx t budget = Some (match acceptance ctx prop t budget with
    | Accepted c => Ok (accepted d ctx (mkCandidate prop term cs) c) | v => Err (NotAccepted v) end).
Proof.
  intros Hv Hwf Hok Hb t Ht. unfold verify_tree_proof, is_structure_verified. rewrite bool_decide_true by done. cbn [negb].
  rewrite leaf_triples_spec, Hwf, Ht. destruct (built_proof d ctx cs Hwf Hok) as (prop' & term' & E & _ & Hr & _).
  rewrite Hb in E. injection E as <- <-. rewrite Hr. pose proof (Forall2_length _ _ _ Hok) as Hlen.
  rewrite decide_False by lia. rewrite (proj2 (check_closures_Ok _ cs 0 (eq_sym Hlen)) Hok), Hb. cbn [mbind option_bind].
  rewrite decide_False by (intros Hn; by apply Hn). done.
Qed.
End results.

(** * Properties *)

(** Elaborating a decomposition. For a chain with one configuration more than generators, as
    construction guarantees, nothing panics; a source that is not [Audited] on this very
    decomposition is refused with the fence's error, before the kernel is reached. Otherwise
    the term submitted has, under the kernel's rules, the type "if every link realizes, the
    composite realizes from the first configuration to the last"; it is never rejected:
    the result is a [Proven] judgement of that proposition in the source's context, on the
    kernel's certificate and with a boundary edge to the source, or the budget, of less than
    six steps or levels per generator, has run out. *)
Theorem decomposition_elaboration_exact `{Blake3} source d budget : length (configs d) = length (generators d) + 1 →
  match audited_source_verify source (SSettlement d) with
  | Err e => elaborate_decomposition source d budget = Some (ERefused e)
  | Ok _ =>
    match generators d with
    | [] => elaborate_decomposition source d budget = Some (ENotElaborated (Rejected (RejectionCustom [PText "Empty decomposition"])))
    | g1 :: gs => ∃ hs x0 xn,
        link_props 0 (generators d) (configs d) = Some hs ∧ head (configs d) = Some x0 ∧ last (configs d) = Some xn ∧
        let ctx := Publication.context source in
        let p := implications hs (Realizes (composite_witness g1 gs) (const_of x0) (const_of xn)) in
        let t := mkTerm ctx (lambdas (length hs) (chain_body (length hs))) in
        let c := certificate_for ctx p t in
        (∀ fresh, checks fresh [] (kind t) p) ∧
        (elaborate_decomposition source d budget = Some (EProven (proven_judgement source p c) (elaboration_edge source)) ∧
           acceptance ctx p t budget = Accepted c
         ∨ (max_steps budget < 6 * length (generators d) ∨ max_depth budget < 6 * length (generators d)) ∧
           ∃ r, elaborate_decomposition source d budget = Some (ENotElaborated (ResourceExhausted r)))
    end
  end.
Proof. apply decomposition_spec. Qed.

(** C24: Elaborating a tree. On a well-formed tree nothing panics, and a source that is not
    [Audited] on a structure-verified derivation of it is refused. Otherwise the kernel never
    rejects: the result is [Proven], or the budget, of less than six steps or levels per leaf,
    has run out. A [Proven] result carries the accepted proof: its proposition assumes exactly
    the leaves that remain open and concludes the tree's realization, whose witness is the
    tree's; each leaf is closed as the classification says, by a relation that admits it; it
    binds the derivation; and it is reproduced by verifying its own term, under the same budget. *)
Theorem tree_elaboration_exact `{Blake3} source d budget : well_formed (tree d) = true →
  match audited_source_verify source (STree d) with
  | Err e => elaborate_tree_certified source d budget = Some (TRefused e)
  | Ok _ => ∃ cs p, classify (tree d) = Some cs ∧ closures_ok (triples (tree d)) cs ∧
      let ctx := Publication.context source in
      proof_of d ctx cs p ∧ witness_digest (witness_object (tree d)) = tree_witness_id (tree d) ∧
      (elaborate_tree_certified source d budget =
         Some (TProven (proven_judgement source (p_proposition p) (p_certificate p)) (elaboration_edge source) p) ∧
       acceptance ctx (p_proposition p) (p_term p) budget = Accepted (p_certificate p) ∧
       verify_tree_proof d ctx (p_term p) budget = Some (Ok p) ∧ recheck p d ctx budget = Some (Ok tt)
       ∨ (max_steps budget < 6 * length (leaves (tree d)) ∨ max_depth budget < 6 * length (leaves (tree d))) ∧
         ∃ r, elaborate_tree_certified source d budget = Some (TNotElaborated (ResourceExhausted r)))
  end.
Proof.
  intros Hwf. unfold elaborate_tree_certified. destruct (audited_source_verify source (STree d)) as [src|e] eqn:Ev; [|done].
  apply audited_tree_verified in Ev as [-> Hv]. cbn [source_judgement]. set (ctx := Publication.context source).
  assert (∃ cs, classify (tree d) = Some cs) as [cs Hcs] by (unfold classify; rewrite leaf_triples_spec, Hwf; by eexists).
  pose proof Hcs as (_ & _ & Hok)%classify_ok. destruct (built_proof d ctx cs Hwf Hok) as (prop & term & Eb & Hctx & Hr & Hu & Hc & Hs & Hp).
  exists cs, (accepted d ctx (mkCandidate prop term cs) (certificate_for ctx prop term)).
  split; [done|]. split; [done|]. cbv zeta. split; [exact Hp|]. split; [apply witness_object_id|]. rewrite Hwf. cbn [negb].
  assert (candidate (tree d) ctx = Some (Some (mkCandidate prop term cs))) as Ecand.
  { unfold candidate. rewrite leaf_triples_spec, Hwf, Hcs, Eb. done. }
  pose proof (triples_ne (tree d)) as Hne. rewrite leaves_triples, length_fmap.
  assert (∃ l ls, leaf_of <$> triples (tree d) = l :: ls) as (l & ls & ->) by (destruct (triples (tree d)); [done|by eexists _, _]).
  rewrite Ecand. cbn [mbind option_bind c_proposition c_term].
  cbn [p_proposition p_term p_certificate accepted].
  destruct (built_acceptance ctx prop term budget _ Hctx Hu Hc Hs) as [E|[Hb [r E]]]; rewrite E.
  - left. rewrite publish_accepted_proven. split; [done|]. split; [done|].
    assert (verify_tree_proof d ctx term budget = Some (Ok (accepted d ctx (mkCandidate prop term cs) (certificate_for ctx prop term)))) as Ever.
    { rewrite (verify_built d ctx budget cs prop term Hv Hwf Hok Eb term eq_refl). by rewrite E. }
    split; [exact Ever|]. unfold recheck. cbn [p_term accepted]. unfold accepted in Ever. cbn [c_term c_proposition] in Ever |- *. rewrite Ever.
    cbn [mbind option_bind result_bind]. by rewrite decide_True.
  - right. split; [lia|]. by exists r.
Qed.

(** C25: Verifying an untrusted proof term. For a well-formed, structure-verified derivation nothing
    panics. A term is accepted only with the proposition that its own shape determines: it is
    of the expected context, the kernel's rules derive the proposition from it, every occurrence it
    closes is closed by a relation that admits the leaf's endpoints under the leaf's
    generator, and the proposition assumes exactly the other leaves. Conversely for every
    admissible choice of closures there is such a term, accepted under every budget of six steps and
    levels per leaf. A kernel verdict against a canonical term is never a rejection. *)
Theorem verify_tree_proof_exact `{Blake3} d ctx : well_formed (tree d) = true → tverification d = StructureVerified →
  (∀ term budget, ∃ r, verify_tree_proof d ctx term budget = Some r ∧
     match r with
     | Ok p => ∃ cs, closures_ok (triples (tree d)) cs ∧ proof_of d ctx cs p ∧ p_term p = term ∧
         acceptance ctx (p_proposition p) term budget = Accepted (p_certificate p)
     | Err (NotAccepted v) => v = ContextMismatch ctx (KernelTerm.context term) ∧ KernelTerm.context term ≠ ctx ∨
         KernelTerm.context term = ctx ∧ ∃ why, v = ResourceExhausted why
     | Err _ => True
     end) ∧
  (∀ cs, closures_ok (triples (tree d)) cs → ∃ p, proof_of d ctx cs p ∧
     ∀ budget, 6 * length (leaves (tree d)) ≤ max_steps budget → 6 * length (leaves (tree d)) ≤ max_depth budget →
       verify_tree_proof d ctx (p_term p) budget = Some (Ok p)).
Proof.
  intros Hwf Hv. split.
  - intros term budget.
    destruct (read_closures (tree d) (strip_lambdas (kind term)) []) as [cs|e] eqn:Er; cycle 1.
    { unfold verify_tree_proof, is_structure_verified. rewrite bool_decide_true by done. cbn [negb]. rewrite leaf_triples_spec, Hwf, Er.
      eexists. split; [done|]. apply read_closures_Err in Er as ->. done. }
    destruct (decide (length cs = length (triples (tree d)))) as [Hlen|Hlen]; cycle 1.
    { unfold verify_tree_proof, is_structure_verified. rewrite bool_decide_true by done. cbn [negb]. rewrite leaf_triples_spec, Hwf, Er.
      rewrite decide_True by done. by eexists. }
    destruct (check_closures 0 (zip cs (triples (tree d)))) as [[]|e] eqn:Ec; cycle 1.
    { unfold verify_tree_proof, is_structure_verified. rewrite bool_decide_true by done. cbn [negb]. rewrite leaf_triples_spec, Hwf, Er.
      rewrite decide_False by (intros Hn; by apply Hn). rewrite Ec. eexists. split; [done|]. apply check_closures_Err in Ec as [i ->]. done. }
    apply check_closures_Ok in Ec as Hok; [|done]. destruct (built_proof d ctx cs Hwf Hok) as (prop & expected & Eb & Hctx & Hr & Hu & Hc & Hs & Hp).
    destruct (decide (kind expected = kind term)) as [Hk|Hk]; cycle 1.
    { unfold verify_tree_proof, is_structure_verified. rewrite bool_decide_true by done. cbn [negb]. rewrite leaf_triples_spec, Hwf, Er.
      rewrite decide_False by (intros Hn; by apply Hn). rewrite Ec, Eb. cbn [mbind option_bind]. rewrite decide_True by done. by eexists. }
    rewrite (verify_built d ctx budget cs prop expected Hv Hwf Hok Eb term (eq_sym Hk)). eexists. split; [done|].
    destruct (decide (KernelTerm.context term = ctx)) as [Ht|Ht].
    + assert (term = expected) as -> by (destruct term, expected; cbn in *; congruence).
      destruct (built_acceptance ctx prop expected budget _ Hctx Hu Hc Hs) as [E|[_ [r E]]]; rewrite E.
      * exists cs. done.
      * right. split; [done|]. by exists r.
    + unfold acceptance. rewrite decide_True by done. by left.
  - intros cs Hok. destruct (built_proof d ctx cs Hwf Hok) as (prop & term & Eb & Hctx & Hr & Hu & Hc & Hs & Hp).
    exists (accepted d ctx (mkCandidate prop term cs) (certificate_for ctx prop term)). split; [done|]. intros budget B1 B2.
    rewrite leaves_triples, length_fmap in B1, B2. cbn [p_term accepted c_term].
    rewrite (verify_built d ctx budget cs prop term Hv Hwf Hok Eb term eq_refl).
    destruct (built_acceptance ctx prop term budget _ Hctx Hu Hc Hs) as [E|[Hb _]]; [by rewrite E|lia].
Qed.

Lemma decomposition_elaboration_exact_witness :
  ∃ j e, @elaborate_decomposition demo_hash (@demo_judgement demo_hash) demo_verified (mkBudget 6 6) = Some (EProven j e).
Proof.
  pose proof (@decomposition_elaboration_exact demo_hash (@demo_judgement demo_hash) demo_verified (mkBudget 6 6) eq_refl) as Hd.
  assert (@audited_source_verify demo_hash (@demo_judgement demo_hash) (SSettlement demo_verified) =
    Ok (mkAuditedSource (@demo_judgement demo_hash))) as Hv by (vm_compute; reflexivity). rewrite Hv in Hd.
  destruct Hd as (hs & x0 & xn & _ & _ & _ & _ & [[He _]|[Hb _]]).
  - eexists _, _. exact He.
  - exfalso. cbn in Hb. lia.
Defined.

(** A derivation of two leaves, and a source that is audited on it. *)
Definition demo_tree : TreeDerivation :=
  mkTreeDerivation (Seq (Leaf (demo_id 1) (TAtom (demo_id 2)) (TAtom (demo_id 3))) (Leaf (demo_id 6) (TAtom (demo_id 3)) (TAtom (demo_id 4)))) StructureVerified.
Definition demo_tree_judgement `{Blake3} : Judgement :=
  mkJudgement (demo_id 4) (demo_id 5) Audited (support_evidence_id (STree demo_tree)).

Lemma tree_elaboration_exact_witness :
  ∃ j e p, @elaborate_tree_certified demo_hash (@demo_tree_judgement demo_hash) demo_tree (mkBudget 12 12) = Some (TProven j e p) ∧
    @recheck demo_hash p demo_tree (demo_id 4) (mkBudget 12 12) = Some (Ok tt).
Proof.
  pose proof (@tree_elaboration_exact demo_hash (@demo_tree_judgement demo_hash) demo_tree (mkBudget 12 12) eq_refl) as Hd.
  assert (@audited_source_verify demo_hash (@demo_tree_judgement demo_hash) (STree demo_tree) =
    Ok (mkAuditedSource (@demo_tree_judgement demo_hash))) as Hv by (vm_compute; reflexivity). rewrite Hv in Hd.
  destruct Hd as (cs & p & _ & _ & _ & _ & [(He & _ & _ & Hr)|[Hb _]]).
  - eexists _, _, p. split; [exact He|exact Hr].
  - exfalso. cbn in Hb. lia.
Defined.

Lemma verify_tree_proof_exact_witness :
  ∃ p, @verify_tree_proof demo_hash demo_tree (demo_id 4) (p_term p) (mkBudget 12 12) = Some (Ok p) ∧ length (remaining_occurrences p) = 2.
Proof.
  destruct (proj2 (@verify_tree_proof_exact demo_hash demo_tree (demo_id 4) eq_refl eq_refl) [None; None]) as (p & Hp & Hv).
  - repeat constructor.
  - exists p. split; [apply Hv; cbn; lia|]. destruct Hp as (_ & _ & _ & _ & _ & _ & Hc & _).
    unfold remaining_occurrences, occurrence_closure in *. destruct (occurrences p) as [|o1 [|o2 [|o3 l]]]; try discriminate Hc.
    injection Hc as H1 H2. rewrite !filter_cons. unfold is_closed. by destruct (status o1), (status o2).
Defined.
