(* ===== verification/Settlement.v ===== *)
(** The settlement state and the reference oracle (src/crates/soc-core/src/:
    intern.rs, exec.rs, history.rs, witness_provider.rs, adm.rs, cost.rs, oracle.rs).

    Digests are interned to dense handles; a configuration is a world, a policy and
    a running history digest. Providers enumerate candidates, an admissibility
    predicate filters them, and [succ] applies every admissible one. Traits are
    function types, a [BTreeSet] is a [gset]. *)
From S2P Require Import Prelude IntCodec Canon CanonLaws Witness Encoding.

(** * Interning *)

Record Handle : Type := mkHandle { raw : Z }.
#[export] Instance Handle_eq_dec : EqDecision Handle.
Proof. solve_decision. Defined.
#[export] Instance Handle_countable : Countable Handle.
Proof. apply (inj_countable' raw mkHandle). by intros []. Defined.
#[export] Instance raw_inj : Inj (=) (=) raw.
Proof. intros [] []. simpl. congruence. Qed.
#[export] Instance Ord_Handle : Ord Handle := cmp_on raw.
#[export] Instance OrdLaws_Handle : OrdLaws Handle := OrdLaws_on raw.

Definition u32_ok (v : Z) : Prop := (0 ≤ v < 2^32)%Z.
Definition index (h : Handle) : nat := Z.to_nat (raw h).

Record Interner : Type := mkInterner {
  by_digest : gmap Digest Handle;
  by_handle : list Digest
}.
Definition interner_new : Interner := mkInterner ∅ [].

(** [len() as u32] wraps. *)
Definition intern (self : Interner) (d : Digest) : Handle * Interner :=
  match by_digest self !! d with
  | Some h => (h, self)
  | None =>
    let h := mkHandle (Z.of_nat (length (by_handle self)) mod 2^32)%Z in
    (h, mkInterner (<[d:=h]> (by_digest self)) (by_handle self ++ [d]))
  end.

(** [try_resolve]; [resolve] is the same lookup, and panics on [None]. *)
Definition try_resolve (self : Interner) (h : Handle) : option Digest := by_handle self !! index h.
Definition interner_len (self : Interner) : nat := length (by_handle self).

Definition intern_context (self : Interner) (id : ContextId) : Handle * Interner :=
  intern self (digest id).

(** * Configurations and histories *)

Record ExecConfig : Type := mkExec { world : Handle; policy : Handle; history : Digest }.
#[export] Instance ExecConfig_eq_dec : EqDecision ExecConfig.
Proof. solve_decision. Defined.
#[export] Instance ExecConfig_countable : Countable ExecConfig.
Proof.
  apply (inj_countable' (λ e, (world e, policy e, history e)) (λ t, mkExec t.1.1 t.1.2 t.2)).
  by intros [].
Defined.

Record History : Type := mkHistory { h_digest : Digest; h_len : Z }.

Definition history_empty `{Blake3} : History := mkHistory (digest_of Value []) 0.
Definition from_digest (d : Digest) (len : Z) : History := mkHistory d len.
Definition append_message {S} `{Canonical S} (d : Digest) (step : S) : bytes :=
  [] |> write_bytes (as_bytes d) |> write_bytes (canon_bytes step).
Definition append `{Blake3} {S} `{Canonical S} (self : History) (step : S) : History :=
  mkHistory (digest_of Value (append_message (h_digest self) step)) (h_len self + 1).

(** * Candidates, admissibility, costs *)

Record Candidate : Type := mkCandidate { c_witness : Handle; c_successor : Handle }.
#[export] Instance Candidate_eq_dec : EqDecision Candidate.
Proof. solve_decision. Defined.
#[export] Instance Candidate_countable : Countable Candidate.
Proof.
  apply (inj_countable' (λ c, (c_witness c, c_successor c)) (λ t, mkCandidate t.1 t.2)). by intros [].
Defined.
Definition candidate_fields (c : Candidate) : Handle * Handle := (c_witness c, c_successor c).
#[export] Instance candidate_fields_inj : Inj (=) (=) candidate_fields.
Proof. intros [] []. unfold candidate_fields. simpl. congruence. Qed.
#[export] Instance Ord_Candidate : Ord Candidate := cmp_on candidate_fields.
#[export] Instance OrdLaws_Candidate : OrdLaws Candidate := OrdLaws_on candidate_fields.

(** [trait WitnessProvider]. *)
Definition WitnessProvider : Type := ExecConfig → list Candidate.
(** [trait Adm]. *)
Definition Adm : Type := ExecConfig → Candidate → bool.

Definition AdmAll : Adm := λ _ _, true.
Definition AdmNone : Adm := λ _ _, false.
Definition AdmWitnessAllowlist (allowed : gset Handle) : Adm := λ _ c, bool_decide (c_witness c ∈ allowed).
Definition AdmSuccessorFilter (predicate : Handle → bool) : Adm := λ _ c, predicate (c_successor c).
Definition AndAdm (a b : Adm) : Adm := λ e c, a e c && b e c.

Inductive CostRecord : Type :=
  | Steps (n : Z)
  | UnknownCost (reason : string).
Definition work_units (c : CostRecord) : option Z :=
  match c with Steps n => Some n | UnknownCost _ => None end.

(** * The oracle *)

(** The inner loop over one provider's candidates. *)
Definition admit_all (adm : Adm) (e : ExecConfig) (cs : list Candidate) (out : gset Candidate) :
    gset Candidate :=
  fold_left (λ out c, if adm e c then {[c]} ∪ out else out) cs out.

Definition cand (providers : list WitnessProvider) (adm : Adm) (e : ExecConfig) : gset Candidate :=
  fold_left (λ out provider, admit_all adm e (provider e) out) providers ∅.

(** The same loops with the work counter: one unit per provider scanned and one per
    raw candidate. *)
Definition admit_counted (adm : Adm) (e : ExecConfig) (cs : list Candidate)
    (acc : gset Candidate * Z) : gset Candidate * Z :=
  fold_left (λ acc c,
    let '(out, work) := acc in (if adm e c then {[c]} ∪ out else out, work + 1)%Z) cs acc.

Definition scan_counted (adm : Adm) (e : ExecConfig) (providers : list WitnessProvider)
    (acc : gset Candidate * Z) : gset Candidate * Z :=
  fold_left (λ acc provider,
    let '(out, work) := acc in admit_counted adm e (provider e) (out, work + 1)%Z) providers acc.

Definition cand_instrumented (providers : list WitnessProvider) (adm : Adm) (e : ExecConfig) :
    gset Candidate * CostRecord :=
  let '(out, work) := scan_counted adm e providers (∅, 0%Z) in (out, Steps work).

Section oracle.
Context `{Blake3} `{UnicodeNfc}.

Record CandidateStep : Type := mkStep { st_witness : Handle; st_successor : Handle }.
#[export] Instance Canonical_CandidateStep : Canonical CandidateStep := λ s,
  write_record [ (bytes_of_string "successor", write_uint (raw (st_successor s)) []);
                 (bytes_of_string "witness", write_uint (raw (st_witness s)) []) ].

Definition next_history (e : ExecConfig) (c : Candidate) : Digest :=
  h_digest (append (from_digest (history e) 0) (mkStep (c_witness c) (c_successor c))).

Definition apply (e : ExecConfig) (c : Candidate) : ExecConfig :=
  mkExec (c_successor c) (policy e) (next_history e c).

Definition succ (providers : list WitnessProvider) (adm : Adm) (e : ExecConfig) : gset ExecConfig :=
  set_map (apply e) (cand providers adm e).
End oracle.

(** * The interner's invariant *)

(** What an interner can be: the empty one, after any insertions that fit. *)
Inductive interner_reachable : Interner → Prop :=
  | interner_start : interner_reachable interner_new
  | interner_step i d : interner_reachable i → (Z.of_nat (interner_len i) < 2^32)%Z →
    interner_reachable (intern i d).2.

(** The representation invariant. *)
Definition interner_inv (i : Interner) : Prop :=
  ∀ d h, by_digest i !! d = Some h ↔ ∃ n, by_handle i !! n = Some d ∧ h = mkHandle (Z.of_nat n).

Lemma interner_inv_nodup i n m d :
  interner_inv i → by_handle i !! n = Some d → by_handle i !! m = Some d → n = m.
Proof.
  intros Hi Hn Hm.
  assert (by_digest i !! d = Some (mkHandle (Z.of_nat n))) as E1 by (apply Hi; eauto).
  assert (by_digest i !! d = Some (mkHandle (Z.of_nat m))) as E2 by (apply Hi; eauto).
  rewrite E1 in E2. injection E2. lia.
Qed.

Lemma intern_fresh i d :
  (Z.of_nat (interner_len i) < 2^32)%Z → by_digest i !! d = None →
  intern i d = (mkHandle (Z.of_nat (length (by_handle i))),
    mkInterner (<[d:=mkHandle (Z.of_nat (length (by_handle i)))]> (by_digest i)) (by_handle i ++ [d])).
Proof.
  intros Hl Hd. unfold intern, interner_len in *. rewrite Hd.
  rewrite Z.mod_small by int_lia. done.
Qed.

Lemma intern_inv i d :
  (Z.of_nat (interner_len i) < 2^32)%Z → interner_inv i → interner_inv (intern i d).2.
Proof.
  intros Hl Hi. destruct (by_digest i !! d) as [h|] eqn:E; [by unfold intern; rewrite E|].
  rewrite intern_fresh by done. intros d' h'. cbn [snd by_digest by_handle].
  assert (∀ n, by_handle i !! n ≠ Some d) as Hfresh.
  { intros n Hn. assert (by_digest i !! d = Some (mkHandle (Z.of_nat n))) by (apply Hi; eauto). congruence. }
  destruct (decide (d = d')) as [->|Hne].
  - rewrite lookup_insert_eq. split.
    + intros [= <-]. exists (length (by_handle i)). split; [|done].
      rewrite lookup_app_r, Nat.sub_diag by lia. done.
    + intros (n & Hn & ->). apply lookup_app_Some in Hn as [Hn|[Hge Hn]]; [by apply Hfresh in Hn|].
      apply list_lookup_singleton_Some in Hn as [Hz _]. do 2 f_equal. lia.
  - rewrite lookup_insert_ne by done. rewrite (Hi d' h'). split; intros (n & Hn & ->); exists n; split; try done.
    + by apply lookup_app_l_Some.
    + apply lookup_app_Some in Hn as [Hn|[Hge Hn]]; [done|].
      apply list_lookup_singleton_Some in Hn as [_ ?]. congruence.
Qed.

Lemma interner_reachable_inv i : interner_reachable i → interner_inv i.
Proof.
  induction 1 as [|i d _ IH Hl]; [|by apply intern_inv].
  intros d h. split; [done|]. by intros (n & Hn & _).
Qed.

(** * Oracle *)

Lemma admit_all_elem adm e cs out c :
  c ∈ admit_all adm e cs out ↔ c ∈ out ∨ (c ∈ cs ∧ adm e c = true).
Proof.
  unfold admit_all. revert out. induction cs as [|c' cs IH]; intros out; cbn [fold_left].
  - rewrite elem_of_nil. tauto.
  - rewrite IH, elem_of_cons.
    destruct (adm e c') eqn:E; rewrite ?elem_of_union, ?elem_of_singleton; naive_solver congruence.
Qed.

Lemma cand_elem providers adm e c :
  c ∈ cand providers adm e ↔ (∃ p, p ∈ providers ∧ c ∈ p e) ∧ adm e c = true.
Proof.
  unfold cand. enough (∀ out, c ∈ fold_left (λ out p, admit_all adm e (p e) out) providers out ↔
    c ∈ out ∨ ((∃ p, p ∈ providers ∧ c ∈ p e) ∧ adm e c = true)) as Hout.
  { rewrite (Hout ∅). rewrite elem_of_empty. tauto. }
  induction providers as [|p ps IH]; intros out; cbn [fold_left].
  - split; [by left|]. by intros [?|[(? & ?%elem_of_nil & _) _]].
  - rewrite IH, admit_all_elem. setoid_rewrite elem_of_cons. naive_solver.
Qed.

(** The work of the loops: one unit per provider and one per candidate. *)
Definition scan_work (providers : list WitnessProvider) (e : ExecConfig) : Z :=
  foldr (λ p n, 1 + Z.of_nat (length (p e)) + n)%Z 0%Z providers.

Lemma admit_counted_spec adm e cs out work :
  admit_counted adm e cs (out, work) = (admit_all adm e cs out, work + Z.of_nat (length cs))%Z.
Proof.
  unfold admit_counted, admit_all. revert out work.
  induction cs as [|c cs IH]; intros out work; cbn [fold_left length].
  - f_equal. lia.
  - rewrite IH. f_equal. lia.
Qed.

Lemma scan_counted_spec adm e ps out work :
  scan_counted adm e ps (out, work) =
  (fold_left (λ out p, admit_all adm e (p e) out) ps out, work + scan_work ps e)%Z.
Proof.
  unfold scan_counted. revert out work.
  induction ps as [|p ps IH]; intros out work; cbn [fold_left scan_work foldr].
  - f_equal. lia.
  - rewrite admit_counted_spec, IH. unfold scan_work. f_equal. lia.
Qed.

(** ** The history fold binds *)

Lemma append_message_app {S} `{Canonical S} d (step : S) :
  append_message d step = frame (as_bytes d) ++ frame (canon_bytes step).
Proof. unfold append_message. by rewrite !write_bytes_app, app_nil_l. Qed.

Lemma append_binds `{Blake3} {S1 S2} `{Canonical S1} `{Canonical S2} (h1 h2 : History) (s1 : S1) (s2 : S2) :
  digest_ok (h_digest h1) → digest_ok (h_digest h2) →
  len_ok (canon_bytes s1) → len_ok (canon_bytes s2) →
  h_digest (append h1 s1) = h_digest (append h2 s2) →
  (h_digest h1 = h_digest h2 ∧ canon_bytes s1 = canon_bytes s2) ∨
  collision (message (append_message (h_digest h1) s1)) (message (append_message (h_digest h2) s2)).
Proof.
  intros Hd1 Hd2 Hs1 Hs2 Heq. unfold append in Heq. cbn [h_digest] in Heq.
  apply digest_of_binds in Heq as [[_ Heq]|?]; [left|by right].
  rewrite !append_message_app in Heq.
  apply (id_frame_inj (mkId (k := KConfig) _) (mkId _)) in Heq as [Hd Heq]; [|done..].
  injection Hd as Hd. by apply (prefix_free_inj len_ok frame) in Heq.
Qed.

Lemma step_bytes `{UnicodeNfc} (w s : Handle) :
  canon_bytes (mkStep w s) =
    encode_uint 2 ++ frame (bytes_of_string "successor") ++ encode_uint (raw s) ++
    frame (bytes_of_string "witness") ++ encode_uint (raw w).
Proof.
  unfold canon_bytes, canon_write, Canonical_CandidateStep, write_record. cbn [st_successor st_witness].
  assert (∀ a b, record_entries [(bytes_of_string "successor", a); (bytes_of_string "witness", b)] =
    [(bytes_of_string "successor", a); (bytes_of_string "witness", b)]) as -> by (intros; reflexivity).
  cbn [length write_each fold_left]. unfold write_raw, write_uint. rewrite !write_bytes_app, !app_nil_l.
  by rewrite <-!app_assoc.
Qed.

Lemma step_bytes_inj `{UnicodeNfc} w1 s1 w2 s2 :
  u32_ok (raw w1) → u32_ok (raw s1) → u32_ok (raw w2) → u32_ok (raw s2) →
  canon_bytes (mkStep w1 s1) = canon_bytes (mkStep w2 s2) → w1 = w2 ∧ s1 = s2.
Proof.
  unfold u32_ok. intros Hw1 Hs1 Hw2 Hs2 Heq. rewrite !step_bytes in Heq.
  do 2 apply app_inv_head in Heq. apply prefix_free_uint64 in Heq as [Hs Heq]; [|int_lia..].
  apply app_inv_head in Heq. apply (prefix_free_inj u64_ok encode_uint) in Heq; [|int_lia..].
  by apply (inj raw) in Hs as ->, Heq as ->.
Qed.

Lemma step_len_ok `{UnicodeNfc} w s :
  u32_ok (raw w) → u32_ok (raw s) → len_ok (canon_bytes (mkStep w s)).
Proof.
  intros _ _. rewrite step_bytes. unfold len_ok, frame. rewrite !length_app.
  pose proof (length_encode_uint (raw w)). pose proof (length_encode_uint (raw s)).
  pose proof (length_encode_uint 2).
  pose proof (length_encode_uint (Z.of_nat (length (bytes_of_string "successor")))).
  pose proof (length_encode_uint (Z.of_nat (length (bytes_of_string "witness")))).
  change (length (bytes_of_string "successor")) with 9 in *.
  change (length (bytes_of_string "witness")) with 7 in *. int_lia.
Qed.

Definition candidate_ok (c : Candidate) : Prop := u32_ok (raw (c_witness c)) ∧ u32_ok (raw (c_successor c)).

(** The payload hashed for the successor's history. *)
Definition apply_payload `{UnicodeNfc} (e : ExecConfig) (c : Candidate) : bytes :=
  append_message (history e) (mkStep (c_witness c) (c_successor c)).

Lemma next_history_binds `{Blake3} `{UnicodeNfc} e1 e2 c1 c2 :
  digest_ok (history e1) → digest_ok (history e2) → candidate_ok c1 → candidate_ok c2 →
  next_history e1 c1 = next_history e2 c2 → (history e1 = history e2 ∧ c1 = c2) ∨
  collision (message (apply_payload e1 c1)) (message (apply_payload e2 c2)).
Proof.
  destruct c1 as [w1 s1], c2 as [w2 s2]. intros Hd1 Hd2 [Hw1 Hs1] [Hw2 Hs2] Heq.
  apply append_binds in Heq as [[Hh Hb]|?];
    [|by right|done|done|exact (step_len_ok w1 s1 Hw1 Hs1)|exact (step_len_ok w2 s2 Hw2 Hs2)].
  left. split; [exact Hh|]. by apply (step_bytes_inj w1 s1 w2 s2 Hw1 Hs1 Hw2 Hs2) in Hb as [-> ->].
Qed.

Lemma size_set_map_inj {A B} `{Countable A} `{Countable B} (f : A → B) (X : gset A) :
  (∀ x y, x ∈ X → y ∈ X → f x = f y → x = y) → size (set_map (D := gset B) f X) = size X.
Proof.
  induction X as [|x X Hx IH] using set_ind_L; intros Hf.
  - by rewrite set_map_empty.
  - rewrite set_map_union_L, set_map_singleton_L, !size_union, !size_singleton.
    + rewrite IH; [done|]. intros y z Hy Hz. apply Hf; set_solver.
    + set_solver.
    + intros b ->%elem_of_singleton (y & Hy & Hyin)%elem_of_map.
      apply Hf in Hy; [|set_solver..]. congruence.
Qed.

(** * Properties *)

(** The interner is dense and idempotent. While fewer than 2^32 digests are
    interned, interning returns a handle that resolves to the digest, leaves every
    earlier handle's meaning alone, grows the table exactly for a new digest, gives
    different digests different handles, and a second time changes nothing. (At
    2^32 entries the cast wraps: the next digest gets handle 0, another digest's.) *)
Theorem interner_correct i d :
  interner_reachable i →
  ((Z.of_nat (interner_len i) < 2^32)%Z →
   let '(h, i') := intern i d in
   u32_ok (raw h) ∧ try_resolve i' h = Some d ∧ intern i' d = (h, i') ∧
   (∀ h0 d0, (0 ≤ raw h0)%Z → try_resolve i h0 = Some d0 →
      try_resolve i' h0 = Some d0 ∧ (h0 = h ↔ d0 = d)) ∧
   interner_len i' = interner_len i + (if decide (d ∈ by_handle i) then 0 else 1)) ∧
  (Z.of_nat (interner_len i) = (2^32)%Z → d ∉ by_handle i → raw (intern i d).1 = 0%Z).
Proof.
  intros Hr. pose proof (interner_reachable_inv _ Hr) as Hi.
  assert (d ∈ by_handle i ↔ is_Some (by_digest i !! d)) as Hin.
  { rewrite list_elem_of_lookup. split; [intros [n Hn]; exists (mkHandle (Z.of_nat n)); apply Hi; eauto|].
    intros [h (n & Hn & _)%Hi]. eauto. }
  split.
  - intros Hl. pose proof (intern_inv i d Hl Hi) as Hi'.
    destruct (intern i d) as [h i'] eqn:E. cbn [snd] in Hi'.
    assert (by_digest i' !! d = Some h ∧ (∀ n d0, by_handle i !! n = Some d0 → by_handle i' !! n = Some d0) ∧
      interner_len i' = interner_len i + (if decide (d ∈ by_handle i) then 0 else 1) ∧
      (Z.of_nat (interner_len i') ≤ 2^32)%Z) as (Hd & Hold & Hlen & Hmax).
    { destruct (by_digest i !! d) as [h0|] eqn:Ed.
      - unfold intern in E. rewrite Ed in E. simplify_eq. rewrite decide_True by (by apply Hin; eexists).
        split_and!; [done|done|lia|int_lia].
      - rewrite intern_fresh in E by done. injection E as <- <-.
        rewrite decide_False by (rewrite Hin; by intros [? ?]). unfold interner_len in *.
        cbn [by_digest by_handle]. rewrite lookup_insert_eq, length_app. cbn [length].
        split_and!; [done| |done|int_lia]. intros n d0 Hn. by apply lookup_app_l_Some. }
    destruct (proj1 (Hi' d h) Hd) as (n & Hn & ->).
    assert (n < interner_len i') by (by eapply lookup_lt_Some).
    assert (try_resolve i' (mkHandle (Z.of_nat n)) = Some d) as Hres
      by (unfold try_resolve, index; cbn [raw]; by rewrite Nat2Z.id).
    split_and!; [unfold u32_ok; cbn [raw]; int_lia|done|by unfold intern; rewrite Hd| |done].
    intros h0 d0 Hpos Hr0. apply Hold in Hr0 as Hr0'. split; [exact Hr0'|]. unfold try_resolve in Hres. split; [congruence|].
    intros ->. destruct h0 as [r0]. f_equal. unfold index in Hr0'. cbn [raw] in *.
    pose proof (interner_inv_nodup i' _ _ _ Hi' Hr0' Hn). lia.
  - intros Hl Hnew. unfold intern.
    destruct (by_digest i !! d) eqn:Ed; [exfalso; apply Hnew, Hin; by eexists|].
    unfold interner_len in Hl. cbn [fst raw]. by rewrite Hl, Z.mod_same by int_lia.
Qed.

Lemma interner_correct_witness :
  let d := mkDigest [7%Z] in
  u32_ok (raw (intern interner_new d).1) ∧
  try_resolve (intern interner_new d).2 (intern interner_new d).1 = Some d.
Proof.
  intros d. destruct (proj1 (interner_correct interner_new d interner_start)) as (H1 & H2 & _);
    [reflexivity|]. split; [exact H1|exact H2].
Defined.

(** The reference oracle computes what it specifies. [cand] is exactly the union
    of the providers' candidates the predicate admits, whatever the order and
    repetition of the providers; the instrumented variant returns the same set and
    one work unit per provider scanned and per raw candidate. *)
Theorem oracle_exact providers adm e :
  (∀ c, c ∈ cand providers adm e ↔ (∃ p, p ∈ providers ∧ c ∈ p e) ∧ adm e c = true) ∧
  (∀ providers', (∀ p, p ∈ providers ↔ p ∈ providers') →
     cand providers adm e = cand providers' adm e) ∧
  cand_instrumented providers adm e = (cand providers adm e, Steps (scan_work providers e)).
Proof.
  split_and!; [intros; apply cand_elem| |].
  - intros ps' Hps. apply set_eq. intros c. rewrite !cand_elem. by setoid_rewrite Hps.
  - unfold cand_instrumented. rewrite scan_counted_spec. done.
Qed.

(** Governance is conservative. Tightening the admissibility predicate only
    removes candidates and successors; a conjunction admits exactly what both admit,
    an allowlist grows with its list, and nothing is a candidate under [AdmNone]. *)
Theorem governance_conservation `{Blake3} `{UnicodeNfc} providers (adm adm' : Adm) e :
  ((∀ c, adm' e c = true → adm e c = true) →
     cand providers adm' e ⊆ cand providers adm e ∧ succ providers adm' e ⊆ succ providers adm e) ∧
  cand providers (AndAdm adm adm') e = cand providers adm e ∩ cand providers adm' e ∧
  (∀ l l' : gset Handle, l' ⊆ l →
     cand providers (AdmWitnessAllowlist l') e ⊆ cand providers (AdmWitnessAllowlist l) e) ∧
  cand providers AdmNone e = ∅ ∧ succ providers AdmNone e = ∅.
Proof.
  assert (∀ a a' : Adm, (∀ c, a' e c = true → a e c = true) → cand providers a' e ⊆ cand providers a e) as Hmono.
  { intros a a' Ha c. rewrite !cand_elem. intros [? ?]. eauto. }
  assert (cand providers AdmNone e = ∅) as Hnone.
  { apply set_eq. intros c. rewrite cand_elem, elem_of_empty. unfold AdmNone. by split; [intros [_ ?]|]. }
  split_and!; [| | |done|unfold succ; rewrite Hnone; apply set_map_empty].
  - intros Ha. split; [by apply Hmono|]. unfold succ. apply set_map_mono; [done|by apply Hmono].
  - apply set_eq. intros c. rewrite elem_of_intersection, !cand_elem. unfold AndAdm.
    rewrite andb_true_iff. tauto.
  - intros l l' Hl. apply Hmono. intros c. unfold AdmWitnessAllowlist. rewrite !bool_decide_eq_true. apply Hl.
Qed.

(** Applying a candidate loses nothing. The successor determines, unless
    the messages hashed collide, the history it extends and the candidate that was applied; so
    a configuration has exactly as many successors as candidates. *)
Theorem apply_binds `{Blake3} `{UnicodeNfc} e1 e2 c1 c2 :
  digest_ok (history e1) → digest_ok (history e2) → candidate_ok c1 → candidate_ok c2 →
  (apply e1 c1 = apply e2 c2 → (e1 = mkExec (world e1) (policy e2) (history e2) ∧ c1 = c2) ∨
     collision (message (apply_payload e1 c1)) (message (apply_payload e2 c2))) ∧
  (∀ providers adm, set_Forall candidate_ok (cand providers adm e1) →
     size (succ providers adm e1) = size (cand providers adm e1) ∨
     collision_among (message <$> (apply_payload e1 <$> elements (cand providers adm e1)))).
Proof.
  intros Hd1 Hd2 Hc1 Hc2. split.
  - intros Heq. pose proof (f_equal policy Heq) as Hp. apply (f_equal history) in Heq.
    apply next_history_binds in Heq as [[Hh ->]|?]; [|by right|done..]. left. split; [|done].
    destruct e1; cbn in *. by subst.
  - intros providers adm Hok.
    destruct (decide (set_Forall (λ c, set_Forall (λ c', apply e1 c = apply e1 c' → c = c') (cand providers adm e1))
      (cand providers adm e1))) as [Hinj|Hno].
    + left. unfold succ. apply size_set_map_inj. intros x y Hx Hy. by apply (Hinj x Hx y).
    + right. apply not_set_Forall_Exists in Hno; [|solve_decision]. destruct Hno as (x & Hx & Hno).
      apply not_set_Forall_Exists in Hno; [|solve_decision]. destruct Hno as (y & Hy & Hno).
      destruct (decide (apply e1 x = apply e1 y)) as [Heq|]; [|by destruct Hno].
      apply (f_equal history) in Heq. cbn [history apply] in Heq.
      apply next_history_binds in Heq as [[_ ->]|?]; [by destruct Hno| |done|done|by apply Hok|by apply Hok].
      eapply collision_in; [done|apply list_elem_of_fmap_2; by apply elem_of_elements..].
Qed.

Lemma apply_binds_witness :
  let e := mkExec (mkHandle 0) (mkHandle 1) (mkDigest (replicate 32 0%Z)) in
  let c := mkCandidate (mkHandle 2) (mkHandle 3) in
  (e = mkExec (world e) (policy e) (history e) ∧ c = c) ∨
  @collision demo_hash (message (@apply_payload (λ s, s) e c)) (message (@apply_payload (λ s, s) e c)).
Proof.
  intros e c. apply (@apply_binds demo_hash (λ s, s) e e c c); [..|reflexivity].
  1,2: by apply (demo_id_ok (k := KConfig) 0). all: by split.
Defined.
