(* ===== verification/Journal.v ===== *)
(** The committed step and the journal (src/crates/soc-core/src/: journal.rs, and
    [Observation] of commit.rs).

    A journal is the list of committed steps with the running history digest; the
    replay folds a fresh history over the same steps. *)
From S2P Require Import Prelude IntCodec Canon CanonLaws Calendar Outcome Witness Encoding.
From S2P Require Import Derivation Settlement.

Record Observation : Type := mkObservation {
  outcome_class : Outcome;
  judgement_digest : Digest
}.
#[export] Instance Observation_eq_dec : EqDecision Observation.
Proof. solve_decision. Defined.
#[export] Instance Canonical_Observation : Canonical Observation := λ o w,
  w |> canon_write (outcome_class o) |> write_bytes (as_bytes (judgement_digest o)).

Record CommittedStep : Type := mkCommitted {
  key : Key;
  observation : Observation;
  decomposition : Decomposition;
  step_src : ConfigId;
  step_dst : ConfigId;
  step_witness : WitnessId
}.
#[export] Instance CommittedStep_eq_dec : EqDecision CommittedStep.
Proof. solve_decision. Defined.
#[export] Instance Canonical_CommittedStep : Canonical CommittedStep := λ s w,
  w |> canon_write (key s) |> canon_write (observation s) |> canon_write (decomposition s)
    |> canon_write (step_src s) |> canon_write (step_dst s) |> canon_write (step_witness s).

Record Journal : Type := mkJournal { steps : list CommittedStep; chain : History }.

Section journal.
Context `{Blake3}.

Definition journal_new : Journal := mkJournal [] history_empty.
Definition journal_append (self : Journal) (step : CommittedStep) : Journal :=
  mkJournal (steps self ++ [step]) (append (chain self) step).
Definition chain_digest (self : Journal) : Digest := h_digest (chain self).
Definition journal_len (self : Journal) : nat := length (steps self).

(** The loop of [replay_chain]. *)
Fixpoint replay_from (c : History) (steps : list CommittedStep) : list Digest :=
  match steps with
  | [] => []
  | step :: steps' => let c' := append c step in h_digest c' :: replay_from c' steps'
  end.
Definition replay_chain (steps : list CommittedStep) : list Digest := replay_from history_empty steps.
Definition step_digests (self : Journal) : list Digest := replay_chain (steps self).

(** The journals the public operations build. *)
Inductive journal_reachable : Journal → Prop :=
  | journal_start : journal_reachable journal_new
  | journal_step j s : journal_reachable j → journal_reachable (journal_append j s).

Definition fold_history (steps : list CommittedStep) : History := fold_left append steps history_empty.

Lemma journal_reachable_chain j : journal_reachable j → chain j = fold_history (steps j).
Proof.
  induction 1 as [|j s _ IH]; [done|]. unfold fold_history in *. cbn [steps chain journal_append].
  by rewrite fold_left_app, <-IH.
Qed.

Lemma replay_from_snoc c l s :
  replay_from c (l ++ [s]) = replay_from c l ++ [h_digest (append (fold_left append l c) s)].
Proof. revert c. induction l as [|x l IH]; intros c; cbn; [done|]. f_equal. apply IH. Qed.

Lemma fold_history_snoc l s : fold_history (l ++ [s]) = append (fold_history l) s.
Proof. unfold fold_history. by rewrite fold_left_app. Qed.

Lemma fold_history_len l : h_len (fold_history l) = Z.of_nat (length l).
Proof.
  induction l as [|s l IH] using rev_ind; [done|]. rewrite fold_history_snoc, length_app.
  cbn [h_len append length]. lia.
Qed.

(** ** Encodings *)

Definition observation_ok (o : Observation) : Prop := digest_ok (judgement_digest o).

Definition step_ok (s : CommittedStep) : Prop :=
  key_ok (key s) ∧ observation_ok (observation s) ∧ decomposition_ok (decomposition s) ∧
  id_ok (step_src s) ∧ id_ok (step_dst s) ∧ id_ok (step_witness s) ∧ len_ok (canon_bytes s).

Lemma key_bytes k :
  canon_bytes k = encode_uint (phase k) ++ encode_uint (priority k) ++ frame (as_bytes (tiebreak k)).
Proof.
  unfold canon_bytes, canon_write, Canonical_Key, write_uint. by rewrite write_bytes_app, <-app_assoc.
Qed.

Lemma observation_bytes o :
  canon_bytes o = encode_uint (ordinal (outcome_class o)) ++ frame (as_bytes (judgement_digest o)).
Proof.
  unfold canon_bytes, canon_write, Canonical_Observation, canon_write, Canonical_Outcome, write_enum, write_uint.
  by rewrite write_bytes_app.
Qed.
End journal.

#[export] Instance CanonAppends_Key : CanonAppends Key.
Proof.
  intros k w. rewrite key_bytes. unfold canon_write, Canonical_Key, write_uint.
  by rewrite write_bytes_app, <-!app_assoc.
Qed.
#[export] Instance CanonAppends_Observation : CanonAppends Observation.
Proof.
  intros o w. rewrite observation_bytes.
  unfold canon_write, Canonical_Observation, canon_write, Canonical_Outcome, write_enum, write_uint, id.
  by rewrite write_bytes_app, <-!app_assoc.
Qed.

#[export] Instance prefix_free_digest : PrefixFree digest_ok (λ d, frame (as_bytes d)).
Proof.
  intros d1 d2 r1 r2 H1 H2 Heq.
  apply (id_frame_inj (mkId (k := KConfig) d1) (mkId d2)) in Heq as [Hd ->]; [|done..].
  by injection Hd.
Qed.

#[export] Instance prefix_free_key : PrefixFree key_ok (canon_bytes (A := Key)).
Proof.
  intros [p1 q1 t1] [p2 q2 t2] r1 r2 (H1 & H2 & H3) (H4 & H5 & H6) Heq.
  rewrite !key_bytes, <-!app_assoc in Heq. cbn [phase priority tiebreak] in *.
  apply prefix_free_uint64 in Heq as [-> Heq]; [|done..].
  apply prefix_free_uint64 in Heq as [-> Heq]; [|done..].
  by apply prefix_free_digest in Heq as [-> ->].
Qed.

Lemma outcome_ordinal_inj o1 o2 : ordinal o1 = ordinal o2 → o1 = o2.
Proof. by destruct o1, o2. Qed.

#[export] Instance prefix_free_observation : PrefixFree observation_ok (canon_bytes (A := Observation)).
Proof.
  intros [o1 d1] [o2 d2] r1 r2 H1 H2 Heq. rewrite !observation_bytes, <-!app_assoc in Heq.
  cbn [outcome_class judgement_digest] in *.
  apply prefix_free_uint64 in Heq as [Ho Heq]; [|destruct o1; unfold ordinal; int_lia|destruct o2; unfold ordinal; int_lia].
  apply outcome_ordinal_inj in Ho as ->. by apply prefix_free_digest in Heq as [-> ->].
Qed.

Lemma committed_bytes s :
  canon_bytes s = canon_bytes (key s) ++ canon_bytes (observation s) ++ canon_bytes (decomposition s) ++
    canon_bytes (step_src s) ++ canon_bytes (step_dst s) ++ canon_bytes (step_witness s).
Proof.
  unfold canon_bytes at 1, canon_write at 1, Canonical_CommittedStep.
  by rewrite !canon_appends, app_nil_l, <-!app_assoc.
Qed.

Lemma committed_bytes_inj s1 s2 : step_ok s1 → step_ok s2 → canon_bytes s1 = canon_bytes s2 → s1 = s2.
Proof.
  destruct s1, s2. intros (? & ? & ? & ? & ? & ? & _) (? & ? & ? & ? & ? & ? & _) Heq.
  rewrite !committed_bytes in Heq.
  cbn [key observation decomposition step_src step_dst step_witness] in *.
  apply prefix_free_key in Heq as [-> Heq]; [|done..].
  apply prefix_free_observation in Heq as [-> Heq]; [|done..].
  apply prefix_free_decomposition in Heq as [-> Heq]; [|done..].
  apply prefix_free_id in Heq as [-> Heq]; [|done..].
  apply prefix_free_id in Heq as [-> Heq]; [|done..].
  by apply (prefix_free_inj id_ok canon_bytes) in Heq as ->.
Qed.

Lemma fold_history_ok `{Blake3Laws} l : digest_ok (h_digest (fold_history l)).
Proof.
  destruct l as [|s l _] using rev_ind; [apply digest_of_ok|].
  rewrite fold_history_snoc. apply digest_of_ok.
Qed.

(** The anchor is no step's digest. *)
Lemma anchor_fresh `{Blake3} (h : History) (s : CommittedStep) :
  h_digest history_empty = h_digest (append h s) →
  collision (message []) (message (append_message (h_digest h) s)).
Proof.
  intros Heq. apply digest_of_binds in Heq as [[_ Heq]|?]; [|done].
  rewrite append_message_app in Heq. symmetry in Heq. apply app_nil in Heq as [Heq _].
  unfold frame in Heq. apply app_nil in Heq as [Heq _]. unfold encode_uint in Heq. by case_decide.
Qed.

(** The payloads hashed for a history, the anchor's first. *)
Fixpoint payloads_from `{Blake3} (h : History) (l : list CommittedStep) : list bytes :=
  match l with [] => [] | s :: l' => append_message (h_digest h) s :: payloads_from (append h s) l' end.
Definition history_payloads `{Blake3} (l : list CommittedStep) : list bytes := [] :: payloads_from history_empty l.

Lemma history_payloads_snoc `{Blake3} l s :
  history_payloads (l ++ [s]) = history_payloads l ++ [append_message (h_digest (fold_history l)) s].
Proof.
  unfold history_payloads, fold_history. cbn [app]. f_equal. generalize history_empty.
  induction l as [|s1 l IH]; intros h; [done|]. cbn. by rewrite IH.
Qed.

Lemma fold_history_binds `{Blake3Laws} l1 l2 :
  Forall step_ok l1 → Forall step_ok l2 →
  h_digest (fold_history l1) = h_digest (fold_history l2) →
  l1 = l2 ∨ collision_among (message <$> history_payloads l1 ++ history_payloads l2).
Proof.
  revert l2. induction l1 as [|s1 l1 IH] using rev_ind; intros l2 H1 H2 Heq;
    destruct l2 as [|s2 l2 _] using rev_ind; rewrite ?fold_history_snoc in Heq.
  - by left.
  - right. rewrite history_payloads_snoc. apply anchor_fresh in Heq. eapply collision_in; [exact Heq|set_solver..].
  - right. rewrite history_payloads_snoc. symmetry in Heq. apply anchor_fresh in Heq.
    eapply collision_in; [exact Heq|set_solver..].
  - apply Forall_app in H1 as [H1 Hs1], H2 as [H2 Hs2]. rewrite Forall_singleton in Hs1, Hs2.
    pose proof Hs1 as (_ & _ & _ & _ & _ & _ & Hl1). pose proof Hs2 as (_ & _ & _ & _ & _ & _ & Hl2).
    rewrite !history_payloads_snoc.
    apply append_binds in Heq as [[Hh Hb]|Hc]; [|right; eapply collision_in; [exact Hc|set_solver..]|apply fold_history_ok|apply fold_history_ok|done|done].
    apply committed_bytes_inj in Hb as ->; [|done..].
    destruct (IH l2 H1 H2 Hh) as [->|Hc]; [by left|right]. eapply collision_mono; [|exact Hc]. set_solver.
Qed.

(** * Properties *)

(** Replay is deterministic and agrees with the journal. However it was built,
    a journal's running digest is the fold of its steps; the replay of the steps
    yields one digest per step, the last of them the chain digest (the anchor's for
    the empty journal), and replaying a prefix yields a prefix. *)
Theorem journal_replay `{Blake3} j :
  journal_reachable j →
  chain j = fold_history (steps j) ∧ h_len (chain j) = Z.of_nat (journal_len j) ∧
  length (step_digests j) = journal_len j ∧
  default (h_digest history_empty) (last (step_digests j)) = chain_digest j ∧
  (∀ i d, step_digests j !! i = Some d ↔
     i < journal_len j ∧ d = h_digest (fold_history (take (S i) (steps j)))) ∧
  (∀ n, replay_chain (take n (steps j)) = take n (step_digests j)).
Proof.
  intros Hc%journal_reachable_chain. unfold chain_digest, step_digests, journal_len, replay_chain. rewrite Hc.
  generalize (steps j). clear. intros l.
  assert (Hlen : ∀ c, length (replay_from c l) = length l).
  { induction l as [|s l IH]; intros c; cbn; [done|]. f_equal. apply IH. }
  assert (Hlook : ∀ c i d, replay_from c l !! i = Some d ↔
    i < length l ∧ d = h_digest (fold_left append (take (S i) l) c)).
  { clear. induction l as [|s l IH]; intros c i d; cbn [replay_from length]; [rewrite lookup_nil; naive_solver lia|].
    destruct i as [|i]; cbn [lookup list_lookup]; [|rewrite IH].
    - cbn. rewrite take_0. cbn. split; [intros [= <-]; split; [lia|done]|by intros [_ ->]].
    - rewrite <-Nat.succ_lt_mono. done. }
  split_and!; [done|apply fold_history_len|apply Hlen| |apply Hlook|].
  - destruct l as [|s l _] using rev_ind; [done|].
    rewrite replay_from_snoc, last_snoc, fold_history_snoc. done.
  - generalize history_empty. clear. induction l as [|s l IH]; intros c [|n]; cbn; [done..|].
    f_equal. apply IH.
Qed.

Definition demo_step : CommittedStep :=
  mkCommitted (mkKey 0 0 (mkDigest (replicate 32 1%Z))) (mkObservation Derived (mkDigest (replicate 32 2%Z)))
    demo_chain (demo_id 2) (demo_id 3) (demo_id 1).
Definition demo_journal `{Blake3} : Journal := journal_append journal_new demo_step.

Lemma journal_replay_witness :
  length (@step_digests demo_hash (@demo_journal demo_hash)) = 1.
Proof.
  apply (@journal_replay demo_hash (@demo_journal demo_hash)).
  apply journal_step. apply journal_start.
Defined.

(** The journal is tamper-evident. Two journals with one chain digest have the
    same steps in the same order, with the same keys, observations, decompositions,
    endpoints and witnesses, unless two of the messages hashed for them collide: no step can be changed,
    dropped, added or reordered under a fixed digest. *)
Theorem journal_chain_binds `{Blake3Laws} j1 j2 :
  journal_reachable j1 → journal_reachable j2 →
  Forall step_ok (steps j1) → Forall step_ok (steps j2) →
  chain_digest j1 = chain_digest j2 →
  j1 = j2 ∨ collision_among (message <$> history_payloads (steps j1) ++ history_payloads (steps j2)).
Proof.
  intros Hr1%journal_reachable_chain Hr2%journal_reachable_chain H1 H2 Heq. unfold chain_digest in Heq.
  rewrite Hr1, Hr2 in Heq. apply fold_history_binds in Heq as [Heq|?]; [left|by right|done|done].
  destruct j1, j2; cbn in *. by subst.
Qed.

Lemma demo_step_ok : step_ok demo_step.
Proof.
  unfold step_ok, demo_step, key_ok, observation_ok, decomposition_ok.
  cbn [key observation decomposition step_src step_dst step_witness phase priority tiebreak
    judgement_digest demo_chain generators configs].
  split_and!; try by apply demo_id_ok.
  all: try (by apply (demo_id_ok (k := KConfig))).
  all: try (by repeat (constructor; [by apply demo_id_ok|])).
  all: vm_compute; done.
Qed.

Lemma journal_chain_binds_witness :
  @demo_journal demo_hash = @demo_journal demo_hash ∨
  @collision_among demo_hash (message <$> @history_payloads demo_hash (steps (@demo_journal demo_hash)) ++
    @history_payloads demo_hash (steps (@demo_journal demo_hash))).
Proof.
  apply (@journal_chain_binds demo_hash demo_hash_laws);
    [apply journal_step, journal_start|apply journal_step, journal_start| | |reflexivity].
  all: apply Forall_singleton, demo_step_ok.
Defined.
