(* ===== verification/Commit.v ===== *)
(** The committed loop (src/crates/soc-core/src/commit.rs).

    [try_commit_tick] enumerates the providers' candidates into a fresh calendar,
    selects the least key and commits it through [try_commit_selected], the only
    place where a [Derived] judgement is minted. [commit_tick] and [run_reason] are
    the panicking driver: [None] is a panic. A keyer is a closure that may carry
    state, so it is a state transformer. *)
From S2P Require Import Prelude IntCodec Canon CanonLaws Calendar Outcome Witness Encoding.
From S2P Require Import Derivation Publication Settlement Journal.

Inductive Committed : Type :=
  | QuiescentC
  | Step (observation : Observation) (successor : ExecConfig).

Inductive CommitError : Type :=
  | UnresolvedHandle
  | EmptyDecomposition
  | ChainLengthMismatchE (generators configs : nat)
  | EndpointMismatch
  | CandidateMismatch
  | WitnessMismatch
  | GeneratorMismatch
  | PublicationE (e : PublicationError).

(** [From<DecompositionError>]. *)
Definition commit_error_of_decomposition (e : DecompositionError) : CommitError :=
  match e with ChainLengthMismatch g c => ChainLengthMismatchE g c end.

(** [trait SettlementWitnessProvider: WitnessProvider]. *)
Record SettlementWitnessProvider : Type := mkProvider {
  candidates : WitnessProvider;
  try_decompose : ExecConfig → Candidate → result CommitError Decomposition
}.

Inductive CommitTickError : Type :=
  | KeyConflictE (c : KeyConflict Candidate)
  | CommitE (e : CommitError).

Section commit.
Context `{Blake3} `{UnicodeNfc}.

Definition prospective_successor (e : ExecConfig) (c : Candidate) : ExecConfig := apply e c.

Definition try_commit_selected (k : Key) (c : Candidate) (provider : SettlementWitnessProvider)
    (interner : Interner) (e : ExecConfig) (context : ContextId) :
    result CommitError (Committed * CommittedStep) :=
  decomposition ← try_decompose provider e c;
  src ← ok_or (try_resolve interner (world e)) UnresolvedHandle;
  dst ← ok_or (try_resolve interner (c_successor c)) UnresolvedHandle;
  witness ← ok_or (compose_chain (generators decomposition)) EmptyDecomposition;
  let proposition := realizes_proposition (mkRealizes witness (mkId src) (mkId dst)) in
  judgement ← map_err PublicationE
    (publish SettlementKernel context proposition Derived (SSettlement decomposition));
  let observation := mkObservation Derived (digest (judgement_id judgement)) in
  let successor := prospective_successor e c in
  let step := mkCommitted k observation decomposition (mkId src) (mkId dst) witness in
  Ok (Step observation successor, step).

(** ** One tick *)

Context {K : Type} (keyer : K → Candidate → Z → Key * K).

Record Scan : Type := mkScan {
  frontier : Frontier Candidate;
  first_provider : gmap Candidate nat;
  work : Z;
  keyer_state : K
}.

(** One candidate of provider [idx]. *)
Definition scan_candidate (adm : Adm) (e : ExecConfig) (phase : Z) (idx : nat) (c : Candidate) :
    ST Scan CommitTickError unit := λ s,
  let s := mkScan (frontier s) (first_provider s) (work s + 1) (keyer_state s) in
  if adm e c then
    let '(k, ks) := keyer (keyer_state s) c phase in
    match insert (frontier s) k c with
    | (Ok true, f) => (Ok tt, mkScan f (<[c:=idx]> (first_provider s)) (work s) ks)
    | (Ok false, f) => (Ok tt, mkScan f (first_provider s) (work s) ks)
    | (Err conflict, f) => (Err (KeyConflictE conflict), mkScan f (first_provider s) (work s) ks)
    end
  else (Ok tt, s).

Fixpoint scan_candidates (adm : Adm) (e : ExecConfig) (phase : Z) (idx : nat) (cs : list Candidate) :
    ST Scan CommitTickError unit :=
  match cs with
  | [] => mret tt
  | c :: cs' => scan_candidate adm e phase idx c ;; scan_candidates adm e phase idx cs'
  end.

(** [for (idx, provider) in providers.iter().enumerate()]. *)
Fixpoint scan_providers (adm : Adm) (e : ExecConfig) (phase : Z) (idx : nat)
    (providers : list SettlementWitnessProvider) : ST Scan CommitTickError unit :=
  match providers with
  | [] => mret tt
  | p :: ps =>
    (λ s, (Ok tt, mkScan (frontier s) (first_provider s) (work s + 1) (keyer_state s))) ;;
    scan_candidates adm e phase idx (candidates p e) ;;
    scan_providers adm e phase (S idx) ps
  end.

(** What a tick returns, with the keyer's state after it; [None] is a panic: a
    frontier candidate without a provider. *)
Definition try_commit_tick (providers : list SettlementWitnessProvider) (adm : Adm)
    (interner : Interner) (e : ExecConfig) (context : ContextId) (phase : Z) (ks : K) :
    option (result CommitTickError (Committed * option CommittedStep * CostRecord) * K) :=
  match scan_providers adm e phase 0 providers (mkScan frontier_new ∅ 0 ks) with
  | (Err err, s) => Some (Err err, keyer_state s)
  | (Ok _, s) =>
    let cost := Steps (work s) in
    match select_least (frontier s) with
    | (None, _) => Some (Ok (QuiescentC, None, cost), keyer_state s)
    | (Some (k, c), _) =>
      idx ← first_provider s !! c;
      provider ← providers !! idx;
      Some (match try_commit_selected k c provider interner e context with
            | Ok (committed, step) => Ok (committed, Some step, cost)
            | Err err => Err (CommitE err)
            end, keyer_state s)
    end
  end.

(** The reference driver panics on both errors. *)
Definition commit_tick (providers : list SettlementWitnessProvider) (adm : Adm)
    (interner : Interner) (e : ExecConfig) (context : ContextId) (phase : Z) (ks : K) :
    option (Committed * option CommittedStep * CostRecord * K) :=
  match try_commit_tick providers adm interner e context phase ks with
  | Some (Ok committed, ks') => Some (committed, ks')
  | _ => None
  end.

(** ** The run *)

Inductive UnsaturatedStop : Type :=
  | ImmediateFrontierEmpty
  | TickBudgetExhausted (max_ticks : nat).

(** [for phase in phase..phase + fuel]. *)
Fixpoint run_from (providers : list SettlementWitnessProvider) (adm : Adm) (interner : Interner)
    (context : ContextId) (max_ticks fuel : nat) (phase : nat)
    (journal : Journal) (costs : list CostRecord) (e : ExecConfig) (ks : K) :
    option (Journal * list CostRecord * UnsaturatedStop) :=
  match fuel with
  | O => Some (journal, costs, TickBudgetExhausted max_ticks)
  | S fuel' =>
    '(committed, step, cost, ks') ←
      commit_tick providers adm interner e context (Z.of_nat phase) ks;
    match committed with
    | QuiescentC => Some (journal, costs, ImmediateFrontierEmpty)
    | Step _ successor =>
      step ← step;
      run_from providers adm interner context max_ticks fuel' (S phase)
        (journal_append journal step) (costs ++ [cost]) successor ks'
    end
  end.

Definition run_reason (providers : list SettlementWitnessProvider) (adm : Adm) (interner : Interner)
    (e0 : ExecConfig) (context : ContextId) (ks : K) (max_ticks : nat) :
    option (Journal * list CostRecord * UnsaturatedStop) :=
  run_from providers adm interner context max_ticks max_ticks 0 journal_new [] e0 ks.

Definition run (providers : list SettlementWitnessProvider) (adm : Adm) (interner : Interner)
    (e0 : ExecConfig) (context : ContextId) (ks : K) (max_ticks : nat) :
    option (Journal * list CostRecord) :=
  '(journal, costs, _) ← run_reason providers adm interner e0 context ks max_ticks;
  Some (journal, costs).
End commit.

(** * Enumeration *)

Section scan.
Context {K : Type} (keyer : K → Candidate → Z → Key * K).
Context (adm : Adm) (e : ExecConfig) (phase : Z) (κ : Candidate → Key).
(** The key depends on the candidate only. *)
Hypothesis keyer_pure : ∀ ks c, (keyer ks c phase).1 = κ c.

(** The admissible candidates in the order presented, with their provider. *)
Definition admitted (idx : nat) (cs : list Candidate) : list (nat * Candidate) :=
  pair idx <$> filter (λ c, adm e c = true) cs.
Fixpoint presented (idx : nat) (ps : list SettlementWitnessProvider) : list (nat * Candidate) :=
  match ps with
  | [] => []
  | p :: ps' => admitted idx (candidates p e) ++ presented (S idx) ps'
  end.

(** The provider that presented [c] first. *)
Definition first_idx (l : list (nat * Candidate)) (c : Candidate) : option nat :=
  fst <$> head (filter (λ p, p.2 = c) l).

Lemma first_idx_app l1 l2 c :
  first_idx (l1 ++ l2) c = match first_idx l1 c with Some i => Some i | None => first_idx l2 c end.
Proof. unfold first_idx. rewrite filter_app. by destruct (filter _ l1). Qed.

Lemma first_idx_None l c : first_idx l c = None ↔ c ∉ l.*2.
Proof.
  unfold first_idx. induction l as [|[i d] l IH]; [split; [intros _; apply not_elem_of_nil|done]|].
  rewrite filter_cons, fmap_cons, not_elem_of_cons. cbn [snd]. case_decide as Hd; cbn.
  - split; [done|]. intros [? _]. congruence.
  - rewrite IH. split; [|tauto]. intros ?. split; [congruence|done].
Qed.

Lemma first_idx_admitted i cs c : first_idx (admitted i cs) c = Some i ∨ first_idx (admitted i cs) c = None.
Proof.
  unfold first_idx, admitted. induction (filter _ cs) as [|d l IH]; [by right|].
  rewrite fmap_cons, filter_cons. cbn [snd]. case_decide; [by left|exact IH].
Qed.

Lemma admitted_elem i cs c : c ∈ (admitted i cs).*2 ↔ c ∈ cs ∧ adm e c = true.
Proof.
  unfold admitted. rewrite <-list_fmap_compose.
  rewrite (list_fmap_ext _ id) by done. rewrite list_fmap_id, list_elem_of_filter. tauto.
Qed.

Lemma presented_elem i ps c :
  c ∈ (presented i ps).*2 ↔ c ∈ cand (candidates <$> ps) adm e.
Proof.
  rewrite cand_elem. revert i. induction ps as [|p ps IH]; intros i; cbn [presented].
  - rewrite fmap_nil, elem_of_nil. split; [done|]. by intros [(? & ?%elem_of_nil & _) _].
  - rewrite fmap_app, elem_of_app, admitted_elem, IH, fmap_cons. setoid_rewrite elem_of_cons. naive_solver.
Qed.

Lemma presented_first i ps c n :
  first_idx (presented i ps) c = Some n →
  ∃ j p, n = i + j ∧ ps !! j = Some p ∧ c ∈ candidates p e ∧
    ∀ j' p', j' < j → ps !! j' = Some p' → c ∉ candidates p' e.
Proof.
  revert i. induction ps as [|p ps IH]; intros i; cbn [presented]; [done|]. rewrite first_idx_app.
  destruct (first_idx_admitted i (candidates p e) c) as [E|E]; rewrite E.
  - intros [= <-]. exists 0, p. split_and!; [lia|done| |intros j' ?; lia].
    destruct (decide (c ∈ (admitted i (candidates p e)).*2)) as [Hin|Hn%first_idx_None]; [|congruence].
    by apply admitted_elem in Hin as [? _].
  - intros Hn. assert (adm e c = true) as Hadm.
    { destruct (decide (c ∈ (presented (S i) ps).*2)) as [Hin|Hno%first_idx_None]; [|congruence].
      apply presented_elem, cand_elem in Hin. tauto. }
    apply IH in Hn as (j & q & -> & Hj & Hc & Hbefore).
    exists (S j), q. split_and!; [lia|done|done|]. intros [|j'] p' Hlt Hp'; cbn in Hp'; [|by apply (Hbefore j' p'); [lia|]].
    injection Hp' as <-. apply first_idx_None in E. rewrite admitted_elem in E. tauto.
Qed.

(** The scan's state after the admissible candidates [l]. *)
Definition scanned (s : Scan (K := K)) (l : list (nat * Candidate)) : Prop :=
  (∀ k c, entries (frontier s) !! k = Some c ↔ k = κ c ∧ c ∈ l.*2) ∧
  (∀ c, first_provider s !! c = first_idx l c).

Definition clash (k : Key) (c1 c2 : Candidate) (l : list (nat * Candidate)) : Prop :=
  c1 ≠ c2 ∧ κ c1 = k ∧ κ c2 = k ∧ c1 ∈ l.*2 ∧ c2 ∈ l.*2.

Definition scans (m : ST (Scan (K := K)) CommitTickError unit) (new : list (nat * Candidate)) (cost : Z) : Prop :=
  ∀ s l, scanned s l →
  (∃ s', m s = (Ok tt, s') ∧ scanned s' (l ++ new) ∧ work s' = (work s + cost)%Z) ∨
  (∃ k c1 c2 s', m s = (Err (KeyConflictE (mkConflict k c1 c2)), s') ∧ clash k c1 c2 (l ++ new)).

Lemma scans_ret : scans (mret tt) [] 0.
Proof. intros s l Hs. left. exists s. rewrite app_nil_r. split_and!; [done..|lia]. Qed.

Lemma clash_app k c1 c2 l1 l2 : clash k c1 c2 l1 → clash k c1 c2 (l1 ++ l2).
Proof. unfold clash. rewrite fmap_app, !elem_of_app. tauto. Qed.

Lemma scans_bind m1 m2 n1 n2 w1 w2 :
  scans m1 n1 w1 → scans m2 n2 w2 → scans (m1 ;; m2) (n1 ++ n2) (w1 + w2).
Proof.
  intros H1 H2 s l Hs. unfold mbind, ST_bind. rewrite app_assoc.
  destruct (H1 s l Hs) as [(s1 & -> & Hs1 & Hw1)|(k & c1 & c2 & s1 & -> & Hc)].
  - destruct (H2 s1 _ Hs1) as [(s2 & -> & Hs2 & Hw2)|(k & c1 & c2 & s2 & -> & Hc)].
    + left. exists s2. split_and!; [done..|lia].
    + right. by exists k, c1, c2, s2.
  - right. exists k, c1, c2, s1. split; [done|by apply clash_app].
Qed.

Lemma scan_candidate_scans idx c :
  scans (scan_candidate keyer adm e phase idx c) (admitted idx [c]) 1.
Proof.
  intros s l [Hf Hp]. unfold scan_candidate, admitted. rewrite filter_cons, filter_nil.
  cbn [frontier first_provider work keyer_state].
  destruct (adm e c) eqn:Hadm; [rewrite decide_True by done|rewrite decide_False by done].
  2: { left. eexists. split_and!; [done| |done]. cbn. by rewrite app_nil_r. }
  pose proof (keyer_pure (keyer_state s) c) as Hk. destruct (keyer (keyer_state s) c phase) as [k ks].
  cbn [fst] in Hk. subst k. rewrite fmap_cons, fmap_nil. unfold insert.
  assert (∀ d, d ∈ (l ++ [(idx, c)]).*2 ↔ d ∈ l.*2 ∨ d = c) as Hl.
  { intros d. rewrite fmap_app, elem_of_app. cbn. by rewrite list_elem_of_singleton. }
  destruct (entries (frontier s) !! κ c) as [c'|] eqn:E.
  - apply Hf in E as E'. destruct E' as [Hkc Hin]. case_decide as Hcc.
    + subst c'. left. eexists. split_and!; [done| |done]. split; cbn.
      * intros k d. rewrite Hf, Hl. naive_solver.
      * intros d. rewrite Hp, first_idx_app. destruct (first_idx l d) eqn:Ed; [done|].
        apply first_idx_None in Ed. symmetry. apply first_idx_None. cbn.
        rewrite list_elem_of_singleton. by intros ->.
    + right. eexists _, _, _, _. split; [done|]. unfold clash. rewrite !Hl. naive_solver.
  - assert (c ∉ l.*2) as Hnew by (intros Hin; assert (entries (frontier s) !! κ c = Some c) by (by apply Hf); congruence).
    left. eexists. split_and!; [done| |done]. split; cbn.
    + intros k d. rewrite Hl. destruct (decide (k = κ c)) as [->|Hne].
      * rewrite lookup_insert_eq. split; [intros [= <-]; tauto|].
        intros [Hk [Hin| ->]]; [|done]. exfalso.
        assert (entries (frontier s) !! κ c = Some d) by (by apply Hf). congruence.
      * rewrite lookup_insert_ne by done. rewrite Hf. naive_solver.
    + intros d. rewrite first_idx_app. destruct (decide (d = c)) as [->|Hne].
      * rewrite lookup_insert_eq. apply first_idx_None in Hnew as ->.
        unfold first_idx. by rewrite filter_cons, decide_True.
      * rewrite lookup_insert_ne by done. rewrite Hp. destruct (first_idx l d); [done|].
        symmetry. apply first_idx_None. cbn. by rewrite list_elem_of_singleton.
Qed.

Lemma scan_candidates_scans idx cs :
  scans (scan_candidates keyer adm e phase idx cs) (admitted idx cs) (Z.of_nat (length cs)).
Proof.
  induction cs as [|c cs IH]; cbn [scan_candidates length]; [apply scans_ret|].
  replace (admitted idx (c :: cs)) with (admitted idx [c] ++ admitted idx cs)
    by (unfold admitted; rewrite <-fmap_app, <-filter_app; done).
  replace (Z.of_nat (S (length cs))) with (1 + Z.of_nat (length cs))%Z by lia.
  by apply scans_bind; [apply scan_candidate_scans|].
Qed.

Lemma scan_providers_scans idx ps :
  scans (scan_providers keyer adm e phase idx ps) (presented idx ps) (scan_work (candidates <$> ps) e).
Proof.
  revert idx. induction ps as [|p ps IH]; intros idx; cbn [scan_providers presented scan_work fmap list_fmap foldr];
    [apply scans_ret|].
  replace (admitted idx (candidates p e) ++ presented (S idx) ps)
    with ([] ++ admitted idx (candidates p e) ++ presented (S idx) ps) by done.
  rewrite <-Z.add_assoc.
  apply scans_bind; [|apply scans_bind; [apply scan_candidates_scans|apply IH]].
  intros s l Hs. left. eexists. split_and!; [done| |done]. by rewrite app_nil_r.
Qed.
End scan.

(** * Properties *)

(** The step the commit boundary builds from a recorded decomposition. *)
Definition committed_step `{Blake3} (k : Key) (d : Decomposition) (src dst : ConfigId)
    (w : WitnessId) (context : ContextId) : CommittedStep :=
  mkCommitted k (mkObservation Derived (digest (recompute context
      (realizes_proposition (mkRealizes w src dst)) Derived
      (evidence_id_of (SettlementReplay (digest (decomposition_id d)))))))
    d src dst w.

Lemma try_commit_selected_Ok `{Blake3} `{UnicodeNfc} k c p i e ctx cm st :
  try_commit_selected k c p i e ctx = Ok (cm, st) ↔
  ∃ d src dst w, try_decompose p e c = Ok d ∧ try_resolve i (world e) = Some src ∧
    try_resolve i (c_successor c) = Some dst ∧ compose_chain (generators d) = Some w ∧
    verification d = Recorded ∧ st = committed_step k d (mkId src) (mkId dst) w ctx ∧
    cm = Step (observation st) (apply e c).
Proof.
  unfold try_commit_selected.
  destruct (try_decompose p e c) as [d|]; cbn -[publish apply]; [|split; [done|by intros (? & ? & ? & ? & ? & ? & ? & ? & _)]].
  destruct (try_resolve i (world e)) as [src|]; cbn -[publish apply]; [|split; [done|by intros (? & ? & ? & ? & ? & ? & ? & ? & _)]].
  destruct (try_resolve i (c_successor c)) as [dst|]; cbn -[publish apply]; [|split; [done|by intros (? & ? & ? & ? & ? & ? & ? & ? & _)]].
  destruct (compose_chain (generators d)) as [w|] eqn:Ew; cbn -[publish apply];
    [|split; [done|intros (d' & ? & ? & ? & [= <-] & _ & _ & ? & _); congruence]].
  destruct (publish _ _ _ _ _) as [j|err] eqn:E; cbn -[apply].
  - apply publish_Ok in E as (_ & (d' & [= <-] & Hv) & ->). split.
    + intros [= <- <-]. exists d, src, dst, w. done.
    + intros (d' & src' & dst' & w' & [= <-] & [= <-] & [= <-] & Hw & _ & -> & ->).
      rewrite Ew in Hw. by injection Hw as <-.
  - split; [done|]. intros (d' & ? & ? & ? & [= <-] & _ & _ & _ & Hv & _).
    assert (publish SettlementKernel ctx (realizes_proposition (mkRealizes w (mkId src) (mkId dst))) Derived
      (SSettlement d) = Ok (mkJudgement ctx (realizes_proposition (mkRealizes w (mkId src) (mkId dst))) Derived
        (support_evidence_id (SSettlement d)))) as E' by (apply publish_Ok; cbn; eauto).
    congruence.
Qed.

(** The commit boundary is exact and fails closed. It commits precisely when the
    provider decomposes the candidate, both endpoints resolve, the decomposition
    has a generator and is only recorded; the step then carries the composition of
    the generators as its witness, the resolved endpoints, and the digest of the
    [Derived] judgement that the audit recomputes, and the successor is the
    oracle's. Otherwise nothing is built and the first failing condition is named. *)
Theorem commit_boundary_exact `{Blake3} `{UnicodeNfc} k c p i e ctx :
  (∀ cm st, try_commit_selected k c p i e ctx = Ok (cm, st) ↔
     ∃ d src dst w, try_decompose p e c = Ok d ∧ try_resolve i (world e) = Some src ∧
       try_resolve i (c_successor c) = Some dst ∧ compose_chain (generators d) = Some w ∧
       verification d = Recorded ∧ st = committed_step k d (mkId src) (mkId dst) w ctx ∧
       cm = Step (observation st) (prospective_successor e c)) ∧
  (∀ err, try_commit_selected k c p i e ctx = Err err →
     try_decompose p e c = Err err ∨
     ∃ d, try_decompose p e c = Ok d ∧
       ((err = UnresolvedHandle ∧ (try_resolve i (world e) = None ∨ try_resolve i (c_successor c) = None)) ∨
        (err = EmptyDecomposition ∧ generators d = []) ∨
        (err = PublicationE (DecompositionVerificationMismatch Derived Recorded ReplayVerified) ∧
           verification d = ReplayVerified))).
Proof.
  split; [intros; apply try_commit_selected_Ok|]. intros err. unfold try_commit_selected.
  destruct (try_decompose p e c) as [d|]; cbn -[publish apply]; [|intros [= <-]; by left].
  intros Herr. right. exists d. split; [done|]. revert Herr.
  destruct (try_resolve i (world e)) as [src|]; cbn -[publish apply]; [|intros [= <-]; auto].
  destruct (try_resolve i (c_successor c)) as [dst|]; cbn -[publish apply]; [|intros [= <-]; auto].
  destruct (generators d) as [|g gs] eqn:Eg; cbn -[publish apply]; [intros [= <-]; auto|].
  unfold publish, check_route. rewrite decide_False by (intros Hn; by apply Hn).
  look_up_route. cbn -[decide apply]. case_decide as Hv; cbn -[apply]; [done|]. intros [= <-].
  right. right. by destruct (verification d).
Qed.

Section tick.
Context `{Blake3} `{UnicodeNfc} {K : Type} (keyer : K → Candidate → Z → Key * K).

Lemma scanned_start κ ks : scanned (K := K) κ (mkScan frontier_new ∅ 0 ks) [].
Proof.
  split; cbn.
  - intros k c. rewrite lookup_empty, elem_of_nil. naive_solver.
  - intros c. by rewrite lookup_empty.
Qed.

(** What a tick that found no clash selects. *)
Definition selects (ps : list SettlementWitnessProvider) (adm : Adm) (e : ExecConfig)
    (κ : Candidate → Key) (c : Candidate) (p : SettlementWitnessProvider) : Prop :=
  c ∈ cand (candidates <$> ps) adm e ∧
  (∀ c', c' ∈ cand (candidates <$> ps) adm e → c' = c ∨ lt_of (κ c) (κ c')) ∧
  ∃ n, ps !! n = Some p ∧ c ∈ candidates p e ∧
    ∀ m q, m < n → ps !! m = Some q → c ∉ candidates q e.

(** The outcome of a tick, in the abstract. *)
Lemma tick_cases ps adm i e ctx phase ks κ :
  (∀ ks c, (keyer ks c phase).1 = κ c) →
  let C := cand (candidates <$> ps) adm e in
  let cost := Steps (scan_work (candidates <$> ps) e) in
  ∃ ks', 
  (∃ k c1 c2, try_commit_tick keyer ps adm i e ctx phase ks =
       Some (Err (KeyConflictE (mkConflict k c1 c2)), ks') ∧
     c1 ∈ C ∧ c2 ∈ C ∧ c1 ≠ c2 ∧ κ c1 = k ∧ κ c2 = k) ∨
  ((∀ c1 c2, c1 ∈ C → c2 ∈ C → κ c1 = κ c2 → c1 = c2) ∧
   ((C = ∅ ∧ try_commit_tick keyer ps adm i e ctx phase ks = Some (Ok (QuiescentC, None, cost), ks')) ∨
    ∃ c p, selects ps adm e κ c p ∧
      try_commit_tick keyer ps adm i e ctx phase ks =
        Some (match try_commit_selected (κ c) c p i e ctx with
              | Ok (cm, st) => Ok (cm, Some st, cost)
              | Err err => Err (CommitE err)
              end, ks'))).
Proof.
  intros Hκ C cost. unfold try_commit_tick.
  destruct (scan_providers_scans keyer adm e phase κ Hκ 0 ps (mkScan frontier_new ∅ 0 ks) [])
    as [(s & -> & [Hf Hp] & Hw)|(k & c1 & c2 & s & -> & Hne & H1 & H2 & Hin1 & Hin2)];
    [apply scanned_start| |]; cbn [app] in *.
  2: { exists (keyer_state s). left. exists k, c1, c2. by rewrite !presented_elem in Hin1, Hin2. }
  exists (keyer_state s). right. cbn [work] in Hw. rewrite Z.add_0_l in Hw. fold C cost in Hw |- *.
  assert (∀ k c, entries (frontier s) !! k = Some c ↔ k = κ c ∧ c ∈ C) as HfC.
  { intros k c. by rewrite Hf, presented_elem. }
  split.
  { intros c1 c2 Hc1 Hc2 Heq. assert (entries (frontier s) !! κ c1 = Some c1) as E1 by (by apply HfC).
    assert (entries (frontier s) !! κ c1 = Some c2) as E2 by (apply HfC; by split). congruence. }
  rewrite Hw. unfold select_least. destruct (peek_least (frontier s)) as [[k c]|] eqn:E.
  - right. apply peek_least_Some in E as [Hk Hleast].
    apply HfC in Hk as [-> Hc].
    destruct (first_idx (presented adm e 0 ps) c) as [n|] eqn:En.
    2: { exfalso. apply first_idx_None in En. rewrite presented_elem in En. done. }
    rewrite Hp, En. apply presented_first in En as (j & p & -> & Hj & Hcp & Hbefore).
    exists c, p. split; [|cbn; by rewrite Hj].
    split_and!; [done| |by exists j].
    intros c' Hc'. destruct (Hleast (κ c') c') as [Heq|?]; [by apply HfC| |by right].
    left. assert (entries (frontier s) !! κ c = Some c') as E' by (apply HfC; by split).
    assert (entries (frontier s) !! κ c = Some c) as E'' by (by apply HfC). congruence.
  - left. apply peek_least_None in E. split; [|done]. apply set_eq. intros c.
    rewrite elem_of_empty. split; [|done]. intros Hc.
    assert (entries (frontier s) !! κ c = Some c) as E' by (by apply HfC). by rewrite E in E'.
Qed.
End tick.

(** C38: a tick is [select_K] after [delta]. When keys depend on the candidate only, a
    tick never panics. It reports a key conflict exactly when two admissible
    candidates share a key; otherwise it is quiescent exactly when no candidate is
    admissible, and else commits the admissible candidate of least key through the
    first provider that presented it, or returns that commit's error. The cost is
    the oracle's work. *)
Theorem tick_exact `{Blake3} `{UnicodeNfc} {K} (keyer : K → Candidate → Z → Key * K)
    ps adm i e ctx phase ks κ :
  (∀ ks c, (keyer ks c phase).1 = κ c) →
  let C := cand (candidates <$> ps) adm e in
  let cost := Steps (scan_work (candidates <$> ps) e) in
  let unique := ∀ c1 c2, c1 ∈ C → c2 ∈ C → κ c1 = κ c2 → c1 = c2 in
  ∃ r ks', try_commit_tick keyer ps adm i e ctx phase ks = Some (r, ks') ∧
  match r with
  | Err (KeyConflictE (mkConflict k c1 c2)) =>
    c1 ∈ C ∧ c2 ∈ C ∧ c1 ≠ c2 ∧ κ c1 = k ∧ κ c2 = k
  | Err (CommitE err) => unique ∧
    ∃ c p, selects ps adm e κ c p ∧ try_commit_selected (κ c) c p i e ctx = Err err
  | Ok (QuiescentC, st, cost') => unique ∧ C = ∅ ∧ st = None ∧ cost' = cost
  | Ok (Step o e', st, cost') => unique ∧ cost' = cost ∧
    ∃ c p s, selects ps adm e κ c p ∧ st = Some s ∧
      try_commit_selected (κ c) c p i e ctx = Ok (Step o e', s) ∧ e' = prospective_successor e c
  end.
Proof.
  intros Hκ C cost unique.
  destruct (tick_cases keyer ps adm i e ctx phase ks κ Hκ) as
    [ks' [(k & c1 & c2 & E & Hc)|(Hu & [[HC E]|(c & p & Hs & E)])]]; eexists _, ks'; (split; [exact E|]).
  - exact Hc.
  - done.
  - destruct (try_commit_selected (κ c) c p i e ctx) as [[cm s]|err] eqn:Es; cbn; [|split; [exact Hu|eauto]].
    apply try_commit_selected_Ok in Es as Es'.
    destruct Es' as (d & src & dst & w & _ & _ & _ & _ & _ & _ & ->).
    split_and!; [exact Hu|done|]. by exists c, p, s.
Qed.

Section run.
Context `{Blake3} `{UnicodeNfc} {K : Type} (keyer : K → Candidate → Z → Key * K).
Context (ps : list SettlementWitnessProvider) (adm : Adm) (i : Interner) (ctx : ContextId).
Context (κ : Z → Candidate → Key).

(** One committed step of the coalgebra at a phase. *)
Definition commits (phase : nat) (e : ExecConfig) (s : CommittedStep) (e' : ExecConfig) : Prop :=
  ∃ c p o, selects ps adm e (κ (Z.of_nat phase)) c p ∧
    try_commit_selected (κ (Z.of_nat phase) c) c p i e ctx = Ok (Step o e', s).

Inductive trace : nat → ExecConfig → list CommittedStep → ExecConfig → Prop :=
  | trace_nil phase e : trace phase e [] e
  | trace_cons phase e s e1 l e2 :
    commits phase e s e1 → trace (S phase) e1 l e2 → trace phase e (s :: l) e2.

Lemma commits_spec phase e s e' :
  commits phase e s e' →
  try_resolve i (world e) = Some (digest (step_src s)) ∧
  try_resolve i (world e') = Some (digest (step_dst s)) ∧
  outcome_class (observation s) = Derived ∧ verification (decomposition s) = Recorded ∧
  compose_chain (generators (decomposition s)) = Some (step_witness s).
Proof.
  intros (c & p & o & _ & Hs). apply try_commit_selected_Ok in Hs
    as (d & src & dst & w & _ & Hsrc & Hdst & Hw & Hv & -> & Hst).
  injection Hst as _ ->. done.
Qed.

(** The steps of a trace are laid end to end. *)
Lemma trace_contiguous phase e l e' :
  trace phase e l e' →
  (∀ s, head l = Some s → try_resolve i (world e) = Some (digest (step_src s))) ∧
  (∀ s, last l = Some s → try_resolve i (world e') = Some (digest (step_dst s))) ∧
  (∀ n s s', l !! n = Some s → l !! S n = Some s' → step_dst s = step_src s') ∧
  Forall (λ s, outcome_class (observation s) = Derived ∧ verification (decomposition s) = Recorded ∧
    compose_chain (generators (decomposition s)) = Some (step_witness s)) l.
Proof.
  induction 1 as [phase e|phase e s e1 l e2 Hc Ht (Hh & Hl & Hn & Hf)]; [split_and!; done || constructor|].
  apply commits_spec in Hc as (Hsrc & Hdst & Ho & Hv & Hw). split_and!.
  - by intros ? [= <-].
  - intros s'. rewrite last_cons. destruct (last l) as [x|] eqn:E; [by apply Hl|].
    intros [= <-]. apply last_None in E as ->. by inversion Ht; subst.
  - intros [|n] x y Hx Hy; cbn in Hx, Hy; [|by eapply Hn].
    injection Hx as <-. assert (head l = Some y) as Hy' by (by destruct l). apply Hh in Hy'.
    apply (inj digest). congruence.
  - by constructor.
Qed.

Hypothesis keyer_pure : ∀ phase ks c, (keyer ks c phase).1 = κ phase c.

(** A tick that fails at [e]. *)
Definition tick_fails (phase : nat) (e : ExecConfig) : Prop :=
  ∃ ks err ks', try_commit_tick keyer ps adm i e ctx (Z.of_nat phase) ks = Some (Err err, ks').

Lemma run_from_spec max_ticks fuel phase j costs e ks :
  match run_from keyer ps adm i ctx max_ticks fuel phase j costs e ks with
  | None => ∃ l e', trace phase e l e' ∧ length l < fuel ∧ tick_fails (phase + length l) e'
  | Some (j', costs', stop) =>
    ∃ l e', trace phase e l e' ∧ steps j' = steps j ++ l ∧
      (journal_reachable j → journal_reachable j') ∧
      length costs' = length costs + length l ∧
      (Forall (λ c, is_Some (work_units c)) costs → Forall (λ c, is_Some (work_units c)) costs') ∧
      match stop with
      | ImmediateFrontierEmpty => cand (candidates <$> ps) adm e' = ∅ ∧ length l < fuel
      | TickBudgetExhausted n => n = max_ticks ∧ length l = fuel
      end
  end.
Proof.
  revert phase j costs e ks. induction fuel as [|fuel IH]; intros phase j costs e ks; cbn [run_from].
  { exists [], e. rewrite app_nil_r. split_and!; [constructor|done..|cbn; lia|done|done|done]. }
  unfold commit_tick.
  destruct (tick_cases keyer ps adm i e ctx (Z.of_nat phase) ks _ (keyer_pure (Z.of_nat phase))) as
    [ks' [(k & c1 & c2 & E & _)|(_ & [[HC E]|(c & p & Hs & E)])]]; rewrite E; cbn.
  - exists [], e. split_and!; [constructor|cbn; lia|]. rewrite Nat.add_0_r. by eexists _, _, _.
  - exists [], e. rewrite app_nil_r. split_and!; [constructor|done..|cbn; lia|done|done|cbn; lia].
  - destruct (try_commit_selected _ _ _ _ _ _) as [[cm s]|err] eqn:Es; cbn.
    2: { exists [], e. split_and!; [constructor|cbn; lia|]. rewrite Nat.add_0_r. by eexists _, _, _. }
    apply try_commit_selected_Ok in Es as Es'.
    destruct Es' as (_ & _ & _ & _ & _ & _ & _ & _ & _ & _ & ->). cbn.
    assert (commits phase e s (apply e c)) as Hc by (by eexists c, p, _).
    specialize (IH (S phase) (journal_append j s) (costs ++ [Steps (scan_work (candidates <$> ps) e)]) (apply e c) ks').
    destruct (run_from _ _ _ _ _ _ _ _ _ _ _ _) as [[[j' costs'] stop]|].
    + destruct IH as (l & e' & Ht & Hst & Hj & Hlen & Hcost & Hstop).
      exists (s :: l), e'. split_and!.
      * by econstructor.
      * rewrite Hst. cbn. by rewrite <-app_assoc.
      * intros Hr. apply Hj. by constructor.
      * rewrite Hlen, length_app. cbn. lia.
      * intros Hf. apply Hcost. apply Forall_app; split; [done|]. by repeat constructor.
      * destruct stop; cbn [length]; destruct Hstop; split; done || lia.
    + destruct IH as (l & e' & Ht & Hlen & Hfail). exists (s :: l), e'.
      split_and!; [by econstructor|cbn; lia|]. cbn [length]. by rewrite Nat.add_succ_r.
Qed.
End run.

(** A provider that always offers to move to world 1. *)
Definition demo_provider : SettlementWitnessProvider :=
  mkProvider (λ e, if decide (world e = mkHandle 0) then [mkCandidate (mkHandle 5) (mkHandle 1)] else [])
    (λ _ _, Ok demo_chain).
Definition demo_interner : Interner :=
  (intern (intern interner_new (mkDigest (replicate 32 2%Z))).2 (mkDigest (replicate 32 3%Z))).2.
Definition demo_exec : ExecConfig := mkExec (mkHandle 0) (mkHandle 0) (mkDigest (replicate 32 9%Z)).
Definition demo_key (phase : Z) (c : Candidate) : Key :=
  mkKey phase 0 (mkDigest [raw (c_witness c); raw (c_successor c)]).
Definition demo_keyer (ks : unit) (c : Candidate) (phase : Z) : Key * unit := (demo_key phase c, ks).

Lemma tick_exact_witness :
  ∃ r ks', @try_commit_tick demo_hash (λ s, s) unit demo_keyer [demo_provider] AdmAll demo_interner demo_exec
    (demo_id 1) 0 tt = Some (r, ks').
Proof.
  destruct (@tick_exact demo_hash (λ s, s) unit demo_keyer [demo_provider] AdmAll demo_interner demo_exec
    (demo_id 1) 0 tt (demo_key 0) (λ _ _, eq_refl)) as (r & ks' & Hr & _).
  exists r, ks'. exact Hr.
Defined.

(** C3: the run is sound and its journal is replayable. With a keyer whose keys
    depend on the candidate, a run that returns has committed a trace of least-key
    steps from the initial configuration; its journal is well built and lays these
    steps end to end, each a recorded [Derived] step whose source is the previous
    destination; every committed tick has a measured cost; it stops early only on
    an empty frontier, and otherwise after exactly [max_ticks] steps. It panics only
    when some tick on such a trace reports an error. *)
Theorem run_sound `{Blake3} `{UnicodeNfc} {K} (keyer : K → Candidate → Z → Key * K)
    ps adm i ctx κ e0 ks max_ticks :
  (∀ phase ks c, (keyer ks c phase).1 = κ phase c) →
  match run_reason keyer ps adm i e0 ctx ks max_ticks with
  | None => ∃ l e', trace ps adm i ctx κ 0 e0 l e' ∧ length l < max_ticks ∧
      tick_fails keyer ps adm i ctx (length l) e'
  | Some (j, costs, stop) =>
    (∃ e', trace ps adm i ctx κ 0 e0 (steps j) e' ∧
       match stop with
       | ImmediateFrontierEmpty => cand (candidates <$> ps) adm e' = ∅ ∧ journal_len j < max_ticks
       | TickBudgetExhausted n => n = max_ticks ∧ journal_len j = max_ticks
       end) ∧
    journal_reachable j ∧ length costs = journal_len j ∧ Forall (λ c, is_Some (work_units c)) costs ∧
    (∀ n s s', steps j !! n = Some s → steps j !! S n = Some s' → step_dst s = step_src s') ∧
    Forall (λ s, outcome_class (observation s) = Derived ∧ verification (decomposition s) = Recorded ∧
      compose_chain (generators (decomposition s)) = Some (step_witness s)) (steps j)
  end.
Proof.
  intros Hκ. unfold run_reason.
  pose proof (run_from_spec keyer ps adm i ctx κ Hκ max_ticks max_ticks 0 journal_new [] e0 ks) as Hr.
  destruct (run_from _ _ _ _ _ _ _ _ _ _ _ _) as [[[j costs] stop]|]; [|exact Hr].
  destruct Hr as (l & e' & Ht & Hst & Hj & Hlen & Hcost & Hstop). cbn in Hst. subst l.
  destruct (trace_contiguous ps adm i ctx κ _ _ _ _ Ht) as (_ & _ & Hn & Hf).
  split_and!; [by exists e'|apply Hj; constructor|exact Hlen|by apply Hcost|exact Hn|exact Hf].
Qed.

Lemma run_sound_witness :
  ∃ j costs, @run_reason demo_hash (λ s, s) unit demo_keyer [demo_provider] AdmAll demo_interner demo_exec
    (demo_id 1) tt 5 = Some (j, costs, ImmediateFrontierEmpty) ∧ journal_len j = 1 ∧ length costs = journal_len j.
Proof.
  pose proof (@run_sound demo_hash (λ s, s) unit demo_keyer [demo_provider] AdmAll demo_interner (demo_id 1)
    demo_key demo_exec tt 5 (λ _ _ _, eq_refl)) as Hr.
  destruct (run_reason _ _ _ _ _ _ _ _) as [[[j costs] stop]|] eqn:E; [|vm_compute in E; discriminate E].
  exists j, costs. destruct Hr as (_ & _ & Hlen & _).
  assert (stop = ImmediateFrontierEmpty ∧ journal_len j = 1) as [-> Hj].
  { vm_compute in E. injection E as <- _ <-. split; reflexivity. }
  split_and!; [reflexivity|exact Hj|exact Hlen].
Defined.
