(* ===== verification/SatProfile.v ===== *)
(** Observation profiles and presentations
    (src/crates/soc-core/src/saturate/mod.rs, up to [enumerate_admissible]).

    A profile labels committed steps administrative or realizing; the v1 profile is
    a partition of the generators. A presentation bundles the providers, the
    governance predicate, the profile and the hypotheses it declares; the traits
    [ObservationProfile] and [SettlementWitnessProvider] are records of functions.
    [project] is the state identity of the whole layer: it drops the history. *)
From S2P Require Import Prelude IntCodec Canon CanonLaws Calendar Outcome Witness Encoding.
From S2P Require Import Derivation Publication Settlement Journal Commit.

Inductive StepLabel : Type := Administrative | Realizing.
#[export] Instance StepLabel_eq_dec : EqDecision StepLabel.
Proof. solve_decision. Defined.

Inductive ProfileError : Type :=
  | MixedDecomposition
  | UnregisteredGenerator
  | EmptyDecompositionP.

Abbreviation ObservationProfileId := (Id KObservationProfile).
Abbreviation PresentationIdV1 := (Id KPresentation).

(** [trait ObservationProfile]. *)
Record ObservationProfile : Type := mkProfile {
  profile_id : ObservationProfileId;
  label : CommittedStep → result ProfileError StepLabel
}.

(** ** The generator partition *)

Record GeneratorPartitionProfile : Type := mkPartition {
  administrative : gset GeneratorId;
  realizing : gset GeneratorId
}.

Inductive OverlappingPartitions : Type := Overlapping.

Definition PARTITION_KIND : string := "brix.soc.obs-profile.generator-partition@1".
Definition PARTITION_MARKER : string := "brix.soc.obs-profile".
Definition PARTITION_VERSION : Z := 1.

Definition partition_new (administrative realizing : gset GeneratorId) :
    result OverlappingPartitions GeneratorPartitionProfile :=
  if decide (administrative ∩ realizing ≠ ∅) then Err Overlapping
  else Ok (mkPartition administrative realizing).

Definition all_realizing (realizing : gset GeneratorId) : GeneratorPartitionProfile :=
  mkPartition ∅ realizing.

Definition partition_preimage (p : GeneratorPartitionProfile) : bytes :=
  [] |> write_bytes (bytes_of_string PARTITION_MARKER)
     |> write_uint PARTITION_VERSION
     |> write_string PARTITION_KIND
     |> write_set (canon_bytes <$> set_iter (administrative p))
     |> write_set (canon_bytes <$> set_iter (realizing p)).

(** The counting loop of [label]. *)
Fixpoint count_partitions (p : GeneratorPartitionProfile) (generators : list GeneratorId)
    (administrative_n realizing_n : nat) : result ProfileError (nat * nat) :=
  match generators with
  | [] => Ok (administrative_n, realizing_n)
  | g :: gs =>
    if decide (g ∈ administrative p) then count_partitions p gs (S administrative_n) realizing_n
    else if decide (g ∈ realizing p) then count_partitions p gs administrative_n (S realizing_n)
    else Err UnregisteredGenerator
  end.

Definition partition_label (p : GeneratorPartitionProfile) (step : CommittedStep) :
    result ProfileError StepLabel :=
  let gs := generators (decomposition step) in
  if decide (gs = []) then Err EmptyDecompositionP else
  counts ← count_partitions p gs 0 0;
  match counts with
  | (_, 0) => Ok Administrative
  | (0, _) => Ok Realizing
  | _ => Err MixedDecomposition
  end.

Definition partition_id `{Blake3} (p : GeneratorPartitionProfile) : ObservationProfileId :=
  from_canon (partition_preimage p).

(** [impl ObservationProfile for GeneratorPartitionProfile]. *)
Definition partition_profile `{Blake3} (p : GeneratorPartitionProfile) : ObservationProfile :=
  mkProfile (partition_id p) (partition_label p).

(** ** Observable states *)

Record ObservableState : Type := mkObservable { os_world : Handle; os_policy : Handle }.
#[export] Instance ObservableState_eq_dec : EqDecision ObservableState.
Proof. solve_decision. Defined.
#[export] Instance ObservableState_countable : Countable ObservableState.
Proof.
  apply (inj_countable' (λ s, (os_world s, os_policy s)) (λ t, mkObservable t.1 t.2)). by intros [].
Defined.

Definition project (e : ExecConfig) : ObservableState := mkObservable (world e) (policy e).

(** ** Presentations *)

Inductive AssumptionId : Type := HistoryIndependence | PhaseStableKeying.

Record DeclaredAssumptions : Type := mkAssumptions {
  history_independent : bool;
  phase_stable_keying : bool
}.
Definition assumptions_all : DeclaredAssumptions := mkAssumptions true true.
Definition declares (d : DeclaredAssumptions) (id : AssumptionId) : bool :=
  match id with
  | HistoryIndependence => history_independent d
  | PhaseStableKeying => phase_stable_keying d
  end.

Record PresentationV1 : Type := mkPresentation {
  pres_id : PresentationIdV1;
  regimes : list SettlementWitnessProvider;
  regime_set : Digest;
  pres_adm : Adm;
  adm_id : Digest;
  profile : ObservationProfile;
  interner : Interner;
  pres_context : ContextId;
  assumptions : DeclaredAssumptions
}.

Record SaturationBudget : Type := mkBudget {
  max_hidden_steps : nat;
  max_administrative_states : nat;
  max_visible_steps : nat
}.
Definition budget_uniform (n : nat) : SaturationBudget := mkBudget n n n.

Definition enumerate_admissible (regimes : list SettlementWitnessProvider) (adm : Adm)
    (e : ExecConfig) : gset Candidate * Z :=
  scan_counted adm e (candidates <$> regimes) (∅, 0%Z).

Lemma enumerate_admissible_spec ps adm e :
  enumerate_admissible ps adm e = (cand (candidates <$> ps) adm e, scan_work (candidates <$> ps) e).
Proof. unfold enumerate_admissible. by rewrite scan_counted_spec, Z.add_0_l. Qed.

(** * The partition profile *)

(** The loop's counts, or the first foreign generator. *)
Lemma count_partitions_spec p gs a r :
  match count_partitions p gs a r with
  | Ok (a', r') => (∀ g, g ∈ gs → g ∈ administrative p ∨ g ∈ realizing p) ∧
      a' = a + length (filter (λ g, g ∈ administrative p) gs) ∧
      r' = r + length (filter (λ g, g ∉ administrative p) gs)
  | Err e => e = UnregisteredGenerator ∧ ∃ g, g ∈ gs ∧ ¬ (g ∈ administrative p ∨ g ∈ realizing p)
  end.
Proof.
  revert a r. induction gs as [|g gs IH]; intros a r; cbn [count_partitions].
  { split_and!; [by intros g ?%elem_of_nil|cbn; lia..]. }
  assert (∀ a' r', g ∈ administrative p ∨ g ∈ realizing p →
    match count_partitions p gs a' r' with
    | Ok (a'', r'') => ∀ g', g' ∈ g :: gs → g' ∈ administrative p ∨ g' ∈ realizing p
    | Err e => e = UnregisteredGenerator ∧ ∃ g', g' ∈ g :: gs ∧ ¬ (g' ∈ administrative p ∨ g' ∈ realizing p)
    end) as Hall.
  { intros a' r' Hg. specialize (IH a' r'). destruct (count_partitions p gs a' r') as [[]|].
    - destruct IH as [IH _]. intros g' [->|?]%elem_of_cons; auto.
    - destruct IH as (? & g' & ? & ?). split; [done|]. exists g'. by rewrite elem_of_cons; auto. }
  case_decide as Hg; [|case_decide as Hg'].
  - specialize (Hall (S a) r (or_introl Hg)). specialize (IH (S a) r).
    destruct (count_partitions p gs (S a) r) as [[]|]; [|done].
    destruct IH as (_ & -> & ->). rewrite !filter_cons, decide_True, decide_False by tauto.
    split_and!; [done|cbn; lia..].
  - specialize (Hall a (S r) (or_intror Hg')). specialize (IH a (S r)).
    destruct (count_partitions p gs a (S r)) as [[]|]; [|done].
    destruct IH as (_ & -> & ->). rewrite !filter_cons, decide_False, decide_True by tauto.
    split_and!; [done|cbn; lia..].
  - split; [done|]. exists g. rewrite elem_of_cons. tauto.
Qed.

Lemma length_filter_0 {A} (P : A → Prop) `{∀ x, Decision (P x)} l :
  length (filter P l) = 0 ↔ ∀ x, x ∈ l → ¬ P x.
Proof.
  rewrite length_zero_iff_nil. split.
  - intros Hn x Hx HP. assert (x ∈ filter P l) as Hin by (by apply list_elem_of_filter).
    rewrite Hn in Hin. by apply elem_of_nil in Hin.
  - intros Hl. apply elem_of_nil_inv. intros x [HP Hx]%list_elem_of_filter. by eapply Hl.
Qed.

Lemma partition_label_cases p s :
  let gs := generators (decomposition s) in
  match partition_label p s with
  | Ok Administrative => gs ≠ [] ∧ ∀ g, g ∈ gs → g ∈ administrative p
  | Ok Realizing => gs ≠ [] ∧ ∀ g, g ∈ gs → g ∈ realizing p ∧ g ∉ administrative p
  | Err EmptyDecompositionP => gs = []
  | Err UnregisteredGenerator => ∃ g, g ∈ gs ∧ ¬ (g ∈ administrative p ∨ g ∈ realizing p)
  | Err MixedDecomposition => (∀ g, g ∈ gs → g ∈ administrative p ∨ g ∈ realizing p) ∧
      (∃ g, g ∈ gs ∧ g ∈ administrative p) ∧ ∃ g, g ∈ gs ∧ g ∉ administrative p
  end.
Proof.
  intros gs. unfold partition_label. fold gs. case_decide as Hnil; [done|].
  pose proof (count_partitions_spec p gs 0 0) as Hc.
  destruct (count_partitions p gs 0 0) as [[a r]|e]; cbn; [|by destruct Hc as [-> ?]].
  destruct Hc as (Hin & -> & ->). cbn [Nat.add].
  destruct (length (filter _ gs)) as [|n1] eqn:Ea; destruct (length (filter (λ g, g ∉ _) gs)) as [|n2] eqn:Er.
  - split; [done|]. rewrite length_filter_0 in Er. intros g Hg. by apply dec_stable, Er.
  - split; [done|]. rewrite length_filter_0 in Ea. intros g Hg. split; [|by apply Ea].
    destruct (Hin g Hg); [|done]. by apply Ea in Hg.
  - split; [done|]. rewrite length_filter_0 in Er. intros g Hg. by apply dec_stable, Er.
  - assert (∀ (P : GeneratorId → Prop) `{∀ x, Decision (P x)} n, length (filter P gs) = S n → ∃ g, g ∈ gs ∧ P g) as Hex.
    { intros P ? n Hl. destruct (filter P gs) as [|g l] eqn:E; [done|]. exists g.
      assert (g ∈ filter P gs) as [? ?]%list_elem_of_filter by (rewrite E; left). done. }
    split_and!; [exact Hin|by eapply Hex|by eapply (Hex (λ g, g ∉ administrative p))].
Qed.

(** ** The identity of a partition *)

Definition partition_ok (p : GeneratorPartitionProfile) : Prop :=
  len_ok (elements (administrative p)) ∧ Forall id_ok (elements (administrative p)) ∧
  len_ok (elements (realizing p)) ∧ Forall id_ok (elements (realizing p)).

(** The encoded items of a set of identities. *)
Definition id_items {k} (s : gset (Id k)) : list bytes := set_items (canon_bytes <$> set_iter s).

Lemma id_items_ok {k} (s : gset (Id k)) :
  len_ok (elements s) → Forall id_ok (elements s) →
  len_ok (id_items s) ∧ Forall len_ok (id_items s).
Proof.
  intros Hl Hf. apply set_items_ok.
  - unfold len_ok in *. rewrite length_fmap, length_set_iter. unfold size, set_size in *. exact Hl.
  - rewrite Forall_fmap, Forall_forall. intros i Hi%elem_set_iter.
    rewrite Forall_forall in Hf. destruct (Hf i) as [Hi32 _]; [by apply elem_of_elements|].
    change (len_ok (canon_bytes i)). unfold len_ok. rewrite canon_bytes_Id. unfold frame. rewrite length_app, Hi32.
    pose proof (length_encode_uint (Z.of_nat 32)). int_lia.
Qed.

Lemma id_items_sub {k} (s1 s2 : gset (Id k)) i :
  Forall id_ok (elements s1) → Forall id_ok (elements s2) →
  id_items s1 = id_items s2 → i ∈ s1 → i ∈ s2.
Proof.
  rewrite !Forall_forall. intros H1 H2 Heq Hi.
  assert (canon_bytes i ∈ canon_bytes <$> set_iter s1) as Hin
    by (apply list_elem_of_fmap; exists i; by rewrite elem_set_iter).
  apply (proj1 (set_items_eq _ _) Heq), list_elem_of_fmap in Hin as (j & Hj & Hjin).
  apply elem_set_iter in Hjin.
  apply (prefix_free_inj id_ok canon_bytes) in Hj as ->; [done|apply H1|apply H2]; by apply elem_of_elements.
Qed.

Lemma partition_bytes p :
  partition_preimage p = frame (bytes_of_string PARTITION_MARKER) ++ encode_uint PARTITION_VERSION ++
    frame (bytes_of_string PARTITION_KIND) ++ frames (id_items (administrative p)) ++
    frames (id_items (realizing p)).
Proof.
  unfold partition_preimage, write_string, write_str, write_uint, id_items.
  by rewrite !write_set_app, !write_bytes_app, app_nil_l, <-!app_assoc.
Qed.

Lemma partition_bytes_inj p1 p2 :
  partition_ok p1 → partition_ok p2 → partition_preimage p1 = partition_preimage p2 → p1 = p2.
Proof.
  intros (Hl1 & Hf1 & Hl1' & Hf1') (Hl2 & Hf2 & Hl2' & Hf2') Heq. rewrite !partition_bytes in Heq.
  do 3 apply app_inv_head in Heq.
  apply prefix_free_frames in Heq as [Ha Hr]; [|by apply id_items_ok..].
  apply (prefix_free_inj _ frames) in Hr; [|by apply id_items_ok..].
  destruct p1, p2; cbn in *. f_equal; apply set_eq; intros i; split; by apply id_items_sub.
Qed.

(** * Properties *)

(** The v1 profile is exact. Two partitions are accepted precisely when no
    generator is in both. A step is labelled administrative when all its generators
    are, realizing when all are realizing; a step without generators, one with a
    generator of neither partition and one that mixes them are errors, and there is
    no other error and no default. The profile's identity determines both
    partitions, or the messages hashed collide. *)
Theorem partition_profile_exact `{Blake3Laws} :
  (∀ A R p, partition_new A R = Ok p ↔ A ## R ∧ p = mkPartition A R) ∧
  (∀ p s, administrative p ## realizing p →
     let gs := generators (decomposition s) in
     (partition_label p s = Ok Administrative ↔ gs ≠ [] ∧ ∀ g, g ∈ gs → g ∈ administrative p) ∧
     (partition_label p s = Ok Realizing ↔ gs ≠ [] ∧ ∀ g, g ∈ gs → g ∈ realizing p) ∧
     (partition_label p s = Err EmptyDecompositionP ↔ gs = []) ∧
     (partition_label p s = Err UnregisteredGenerator ↔
        ∃ g, g ∈ gs ∧ ¬ (g ∈ administrative p ∨ g ∈ realizing p)) ∧
     (partition_label p s = Err MixedDecomposition ↔
        (∀ g, g ∈ gs → g ∈ administrative p ∨ g ∈ realizing p) ∧
        (∃ g, g ∈ gs ∧ g ∈ administrative p) ∧ ∃ g, g ∈ gs ∧ g ∈ realizing p)) ∧
  (∀ p1 p2, partition_ok p1 → partition_ok p2 → partition_id p1 = partition_id p2 →
     p1 = p2 ∨ collision (message (partition_preimage p1)) (message (partition_preimage p2))).
Proof.
  split_and!.
  - intros A R p. unfold partition_new. case_decide as Hd; rewrite disjoint_intersection_L.
    + split; [done|]. by intros [? _].
    + split; [by intros [= <-]|by intros [_ ->]].
  - intros p s Hdis gs. pose proof (partition_label_cases p s) as Hc. fold gs in Hc.
    assert (gs ≠ [] → ∃ g, g ∈ gs) as Hne by (destruct gs as [|g ?]; [done|]; exists g; left).
    rewrite elem_of_disjoint in Hdis.
    clearbody gs. destruct (partition_label p s) as [[]|[]]; clear s.
    all: split_and!; (split; [intros E; try discriminate E|intros Hp; try done]).
    all: first [ exfalso; naive_solver | naive_solver
               | exfalso; cbv zeta in Hc; subst gs; rewrite ?elem_of_nil in *; set_solver ].
  - intros p1 p2 H1 H2 Heq. apply from_canon_inj in Heq as [Heq|?]; [left|by right].
    by apply partition_bytes_inj.
Qed.

Definition demo_partition : GeneratorPartitionProfile := mkPartition {[ demo_id 1 ]} {[ demo_id 7 ]}.

Lemma partition_profile_exact_witness : partition_label demo_partition demo_step = Ok Administrative.
Proof.
  apply (proj1 (proj2 (@partition_profile_exact demo_hash demo_hash_laws)) demo_partition demo_step).
  - apply (bool_decide_unpack _). vm_compute. exact I.
  - split; [done|]. intros g Hg. apply list_elem_of_singleton in Hg as ->. vm_compute. reflexivity.
Defined.
