(* ===== verification/SatCertificate.v ===== *)
(** Saturation certificates (src/crates/soc-core/src/saturate/certificate.rs).

    Two certificates, their frozen envelopes and the fail-closed decoders, up to
    [check_binding]; SatCheck.v has the checkers. A decoder's grammar is read off with
    [Parsing.parses]. *)
From S2P Require Import Prelude IntCodec Canon CanonLaws Calendar Outcome Witness Encoding Parsing.
From S2P Require Import Derivation Publication Settlement Journal Commit SatProfile.

Definition QUIESCENCE_MARKER : string := "brix.soc.quiescence".
Definition DIVERGENCE_MARKER : string := "brix.soc.divergence".
Definition CERTIFICATE_FORMAT_V1 : Z := 1.
Definition SATURATION_PROFILE_V1 : string := "brix.soc.saturation@1".

Inductive EnumerationCompleteness : Type := Complete.
Definition enumeration_ordinal (e : EnumerationCompleteness) : Z := match e with Complete => 0 end.
Definition enumeration_from_ordinal (n : Z) : option EnumerationCompleteness :=
  if decide (n = 0)%Z then Some Complete else None.

Inductive AssumptionMode : Type := DeclaredP1P6.
Definition assumption_ordinal (m : AssumptionMode) : Z := match m with DeclaredP1P6 => 0 end.
Definition assumption_from_ordinal (n : Z) : option AssumptionMode :=
  if decide (n = 0)%Z then Some DeclaredP1P6 else None.

Abbreviation JudgementId := (Id KJudgement).
Abbreviation QuiescenceCertificateId := (Id KQuiescenceCertificate).
Abbreviation DivergenceCertificateId := (Id KDivergenceCertificate).

Record QuiescenceCertificateV1 : Type := mkQuiescence {
  q_profile : ObservationProfileId;
  q_context : ContextId;
  q_presentation : PresentationIdV1;
  q_policy : ConfigId;
  q_src_world : ConfigId;
  q_terminal_world : ConfigId;
  q_hidden : list Digest;
  q_prefix_chain : Digest;
  q_regime_set : Digest;
  q_adm_id : Digest;
  q_enumeration : EnumerationCompleteness;
  q_grade : Outcome;
  q_judgement : JudgementId
}.

Record DivergenceCertificateV1 : Type := mkDivergence {
  d_profile : ObservationProfileId;
  d_context : ContextId;
  d_presentation : PresentationIdV1;
  d_policy : ConfigId;
  d_src_world : ConfigId;
  d_stem : Z;
  d_cycle : Z;
  d_lasso : list Digest;
  d_cycle_world : ConfigId;
  d_cycle_policy : ConfigId;
  d_assumptions : AssumptionMode;
  d_grade : Outcome
}.

Inductive CertEnvelopeError : Type :=
  | EnvBadMarker
  | EnvUnknownVersion (v : Z)
  | UnknownSaturationProfile
  | ObservationProfileMismatch
  | EnvContextMismatch
  | PresentationMismatch
  | UnknownEnumerationOrdinal (n : Z)
  | UnknownAssumptionOrdinal (n : Z)
  | UnknownOutcomeOrdinal (n : Z)
  | QuiescenceGradeNotDerived
  | DivergenceGradeNotUnknown
  | ZeroCycleLength
  | LassoLengthOverflow
  | EnvTruncated
  | EnvBadLength
  | EnvNonMinimalInt
  | EnvTrailingBytes.

(** [From<CanonError> for CertEnvelopeError]. *)
Definition env_of_canon (err : CanonError) : CertEnvelopeError :=
  match err with
  | UnexpectedEof => EnvTruncated
  | NonMinimalInt => EnvNonMinimalInt
  | BadLength => EnvBadLength
  end.

(** ** Encoding *)

Definition write_id {k} (i : Id k) : CanonWriter → CanonWriter := write_bytes (as_bytes (digest i)).

Definition encode_quiescence_v1 (cert : QuiescenceCertificateV1) : bytes :=
  [] |> write_bytes (bytes_of_string QUIESCENCE_MARKER)
     |> write_uint CERTIFICATE_FORMAT_V1
     |> write_string SATURATION_PROFILE_V1
     |> write_id (q_profile cert)
     |> write_id (q_context cert)
     |> write_id (q_presentation cert)
     |> write_id (q_policy cert)
     |> write_id (q_src_world cert)
     |> write_id (q_terminal_world cert)
     |> write_uint (Z.of_nat (length (q_hidden cert)))
     |> write_each (λ d, write_bytes (as_bytes d)) (q_hidden cert)
     |> write_bytes (as_bytes (q_prefix_chain cert))
     |> write_bytes (as_bytes (q_regime_set cert))
     |> write_bytes (as_bytes (q_adm_id cert))
     |> write_uint (enumeration_ordinal (q_enumeration cert))
     |> canon_write (q_grade cert)
     |> write_id (q_judgement cert).

Definition encode_divergence_v1 (cert : DivergenceCertificateV1) : bytes :=
  [] |> write_bytes (bytes_of_string DIVERGENCE_MARKER)
     |> write_uint CERTIFICATE_FORMAT_V1
     |> write_string SATURATION_PROFILE_V1
     |> write_id (d_profile cert)
     |> write_id (d_context cert)
     |> write_id (d_presentation cert)
     |> write_id (d_policy cert)
     |> write_id (d_src_world cert)
     |> write_uint (d_stem cert)
     |> write_uint (d_cycle cert)
     |> write_each (λ d, write_bytes (as_bytes d)) (d_lasso cert)
     |> write_id (d_cycle_world cert)
     |> write_id (d_cycle_policy cert)
     |> write_uint (assumption_ordinal (d_assumptions cert))
     |> canon_write (d_grade cert).

Definition quiescence_certificate_id `{Blake3} (cert : QuiescenceCertificateV1) : QuiescenceCertificateId :=
  mkId (digest_of Value (encode_quiescence_v1 cert)).
Definition divergence_certificate_id `{Blake3} (cert : DivergenceCertificateV1) : DivergenceCertificateId :=
  mkId (digest_of Value (encode_divergence_v1 cert)).

(** ** Decoding *)

Abbreviation EnvReader A := (ST CanonReader CertEnvelopeError A).

Definition read_digest_env : EnvReader Digest := digest_field env_of_canon EnvBadLength.

(** The shared opening fields, and the record [Prelude] of the source. *)
Record SatPrelude : Type := mkPrelude {
  p_profile : ObservationProfileId;
  p_context : ContextId;
  p_presentation : PresentationIdV1;
  p_policy : ConfigId;
  p_src_world : ConfigId
}.

Definition read_prelude (marker : string) : EnvReader SatPrelude :=
  m ← read_as env_of_canon read_bytes;
  if decide (m ≠ bytes_of_string marker) then ST_throw EnvBadMarker else
  version ← read_as env_of_canon read_uint;
  if decide (version ≠ CERTIFICATE_FORMAT_V1) then ST_throw (EnvUnknownVersion version) else
  prof ← read_as env_of_canon read_bytes;
  if decide (prof ≠ bytes_of_string SATURATION_PROFILE_V1) then ST_throw UnknownSaturationProfile else
  profile ← read_digest_env;
  context ← read_digest_env;
  presentation ← read_digest_env;
  policy ← read_digest_env;
  src_world ← read_digest_env;
  mret (mkPrelude (mkId profile) (mkId context) (mkId presentation) (mkId policy) (mkId src_world)).

(** The outcome an ordinal names. *)
Definition grade_of (n : Z) : option Outcome :=
  match n with
  | 0 => Some Proven | 1 => Some Refuted | 2 => Some Derived
  | 3 => Some Measured | 4 => Some Unknown | 5 => Some Audited
  | _ => None
  end%Z.
Definition read_grade : EnvReader Outcome :=
  n ← read_as env_of_canon read_uint; ST_lift (ok_or (grade_of n) (UnknownOutcomeOrdinal n)).

Definition quiescence_fields : EnvReader QuiescenceCertificateV1 :=
  prelude ← read_prelude QUIESCENCE_MARKER;
  terminal_world ← read_digest_env;
  count ← read_as env_of_canon read_uint;
  hidden ← read_many read_digest_env (Z.to_nat count);
  prefix_chain ← read_digest_env;
  regime_set ← read_digest_env;
  adm_id ← read_digest_env;
  n ← read_as env_of_canon read_uint;
  enumeration ← ST_lift (ok_or (enumeration_from_ordinal n) (UnknownEnumerationOrdinal n));
  grade ← read_grade;
  if decide (grade ≠ Derived) then ST_throw QuiescenceGradeNotDerived else
  judgement ← read_digest_env;
  mret (mkQuiescence (p_profile prelude) (p_context prelude) (p_presentation prelude) (p_policy prelude)
    (p_src_world prelude) (mkId terminal_world) hidden prefix_chain regime_set adm_id enumeration grade
    (mkId judgement)).

Definition decode_quiescence_v1 (b : bytes) : result CertEnvelopeError QuiescenceCertificateV1 :=
  read_all quiescence_fields EnvTrailingBytes b.

Definition divergence_fields : EnvReader DivergenceCertificateV1 :=
  prelude ← read_prelude DIVERGENCE_MARKER;
  stem ← read_as env_of_canon read_uint;
  cycle ← read_as env_of_canon read_uint;
  if decide (cycle = 0)%Z then ST_throw ZeroCycleLength else
  length ← ST_lift (ok_or (checked u64_ok (stem + cycle)) LassoLengthOverflow);
  lasso ← read_many read_digest_env (Z.to_nat length);
  cycle_world ← read_digest_env;
  cycle_policy ← read_digest_env;
  n ← read_as env_of_canon read_uint;
  assumptions ← ST_lift (ok_or (assumption_from_ordinal n) (UnknownAssumptionOrdinal n));
  grade ← read_grade;
  if decide (grade ≠ Unknown) then ST_throw DivergenceGradeNotUnknown else
  mret (mkDivergence (p_profile prelude) (p_context prelude) (p_presentation prelude) (p_policy prelude)
    (p_src_world prelude) stem cycle lasso (mkId cycle_world) (mkId cycle_policy) assumptions grade).

Definition decode_divergence_v1 (b : bytes) : result CertEnvelopeError DivergenceCertificateV1 :=
  read_all divergence_fields EnvTrailingBytes b.

Definition check_binding (context : ContextId) (profile : ObservationProfileId)
    (presentation : PresentationIdV1) (expected_context : ContextId)
    (expected_profile : ObservationProfileId) (expected_presentation : PresentationIdV1) :
    result CertEnvelopeError unit :=
  if decide (context ≠ expected_context) then Err EnvContextMismatch
  else if decide (profile ≠ expected_profile) then Err ObservationProfileMismatch
  else if decide (presentation ≠ expected_presentation) then Err PresentationMismatch
  else Ok tt.

Definition validate_quiescence_v1 `{Blake3} (b : bytes) (expected_context : ContextId)
    (expected_profile : ObservationProfileId) (expected_presentation : PresentationIdV1) :
    result CertEnvelopeError QuiescenceCertificateId :=
  cert ← decode_quiescence_v1 b;
  check_binding (q_context cert) (q_profile cert) (q_presentation cert)
    expected_context expected_profile expected_presentation ;;
  Ok (mkId (digest_of Value b)).

Definition validate_divergence_v1 `{Blake3} (b : bytes) (expected_context : ContextId)
    (expected_profile : ObservationProfileId) (expected_presentation : PresentationIdV1) :
    result CertEnvelopeError DivergenceCertificateId :=
  cert ← decode_divergence_v1 b;
  check_binding (d_context cert) (d_profile cert) (d_presentation cert)
    expected_context expected_profile expected_presentation ;;
  Ok (mkId (digest_of Value b)).

(** * The envelopes' grammar *)

Definition dlen (d : Digest) : Prop := length (as_bytes d) = 32.
Definition dframe (d : Digest) : bytes := frame (as_bytes d).

Definition prelude_ok (p : SatPrelude) : Prop :=
  dlen (digest (p_profile p)) ∧ dlen (digest (p_context p)) ∧ dlen (digest (p_presentation p)) ∧
  dlen (digest (p_policy p)) ∧ dlen (digest (p_src_world p)).

Definition prelude_bytes (marker : string) (p : SatPrelude) : bytes :=
  frame (bytes_of_string marker) ++ encode_uint CERTIFICATE_FORMAT_V1 ++
  frame (bytes_of_string SATURATION_PROFILE_V1) ++
  dframe (digest (p_profile p)) ++ dframe (digest (p_context p)) ++
  dframe (digest (p_presentation p)) ++ dframe (digest (p_policy p)) ++ dframe (digest (p_src_world p)).

Lemma parses_digest_env : parses read_digest_env (λ d b, dlen d ∧ b = dframe d).
Proof. apply parses_digest. Qed.

Lemma parses_digests n :
  parses (read_many read_digest_env n)
    (λ l b, (length l = n ∧ Forall dlen l) ∧ b = concat (dframe <$> l)).
Proof.
  eapply parses_ext; [apply parses_many, parses_digest_env|]. intros l b.
  enough (∀ bs, Forall2 (λ d b, dlen d ∧ b = dframe d) l bs ↔ Forall dlen l ∧ bs = dframe <$> l) as Hl.
  { split.
    - by intros (? & bs & [? ->]%Hl & ->).
    - intros ([? ?] & ->). split; [done|]. exists (dframe <$> l). split; [by apply Hl|done]. }
  clear. intros bs. split.
  - induction 1 as [|d b l bs [? ->] _ [? ->]]; [done|]. split; [by constructor|done].
  - intros [Hf ->]. by induction Hf; constructor.
Qed.

Lemma parses_grade : parses read_grade (λ g b, b = encode_uint (ordinal g)).
Proof.
  eapply parses_ext; [unfold read_grade; parses_tac fail|]. intros g b. split.
  - intros Hp. parse_inv. subst. rewrite app_nil_r. f_equal.
    match goal with H : ok_or _ _ = Ok _ |- _ => apply ok_or_Ok in H; rename H into Hg end.
    unfold grade_of in Hg. repeat (case_match; simplify_eq; try done).
  - intros ->. exists (ordinal g), (encode_uint (ordinal g)), []. rewrite app_nil_r.
    split_and!; try done; [split; by destruct g|by destruct g].
Qed.

Ltac sat_field := first
  [ apply parses_digest_env | apply parses_grade ].

Lemma parses_prelude marker :
  String.length marker < 1000 →
  parses (read_prelude marker) (λ p b, prelude_ok p ∧ b = prelude_bytes marker p).
Proof.
  intros Hm. eapply parses_ext; [unfold read_prelude; parses_tac sat_field|].
  intros p b. split.
  - intros Hp. parse_inv.
    repeat match goal with H : ¬ _ ≠ _ |- _ => apply dec_stable in H end. subst.
    split; [done|]. unfold prelude_bytes. by rewrite app_nil_r.
  - destruct p as [[] [] [] [] []]. unfold prelude_ok, prelude_bytes.
    cbn -[frame encode_uint bytes_of_string dframe CERTIFICATE_FORMAT_V1].
    intros [(?&?&?&?&?) ->]. parse_build.
    all: parse_close. all: try done.
    + by apply tag_len_ok.
    + by rewrite app_nil_r.
Qed.

(** ** Quiescence *)

Definition q_prelude (c : QuiescenceCertificateV1) : SatPrelude :=
  mkPrelude (q_profile c) (q_context c) (q_presentation c) (q_policy c) (q_src_world c).

Definition quiescence_ok (c : QuiescenceCertificateV1) : Prop :=
  prelude_ok (q_prelude c) ∧ dlen (digest (q_terminal_world c)) ∧
  u64_ok (Z.of_nat (length (q_hidden c))) ∧ Forall dlen (q_hidden c) ∧
  dlen (q_prefix_chain c) ∧ dlen (q_regime_set c) ∧ dlen (q_adm_id c) ∧
  q_grade c = Derived ∧ dlen (digest (q_judgement c)).

Lemma write_digests_app l w :
  write_each (λ d, write_bytes (as_bytes d)) l w = w ++ concat (dframe <$> l).
Proof. apply write_each_app. intros. apply write_bytes_app. Qed.

Lemma quiescence_bytes c :
  encode_quiescence_v1 c = prelude_bytes QUIESCENCE_MARKER (q_prelude c) ++
    dframe (digest (q_terminal_world c)) ++ encode_uint (Z.of_nat (length (q_hidden c))) ++
    concat (dframe <$> q_hidden c) ++ dframe (q_prefix_chain c) ++ dframe (q_regime_set c) ++
    dframe (q_adm_id c) ++ encode_uint (enumeration_ordinal (q_enumeration c)) ++
    encode_uint (ordinal (q_grade c)) ++ dframe (digest (q_judgement c)).
Proof.
  unfold encode_quiescence_v1, prelude_bytes, write_id, write_string, write_str, write_uint,
    canon_write, Canonical_Outcome, write_enum, write_uint, id, dframe.
  rewrite write_digests_app, !write_bytes_app, app_nil_l. unfold dframe. by rewrite <-!app_assoc.
Qed.

Lemma enumeration_from_iff n e : enumeration_from_ordinal n = Some e ↔ n = enumeration_ordinal e.
Proof. unfold enumeration_from_ordinal. destruct e. case_decide; naive_solver. Qed.
Lemma assumption_from_iff n e : assumption_from_ordinal n = Some e ↔ n = assumption_ordinal e.
Proof. unfold assumption_from_ordinal. destruct e. case_decide; naive_solver. Qed.

(** Normalises what [parse_inv] found. *)
Ltac sat_inv :=
  parse_inv;
  repeat match goal with
  | H : ¬ _ ≠ _ |- _ => apply dec_stable in H
  | H : ok_or (enumeration_from_ordinal _) _ = Ok _ |- _ => apply ok_or_Ok, enumeration_from_iff in H
  | H : ok_or (assumption_from_ordinal _) _ = Ok _ |- _ => apply ok_or_Ok, assumption_from_iff in H
  | H : ok_or (checked _ _) _ = Ok _ |- _ => apply ok_or_Ok, checked_Some in H; destruct H
  end.
Ltac sat_cbn := cbn -[frame encode_uint bytes_of_string dframe CERTIFICATE_FORMAT_V1 prelude_bytes ordinal concat].
Ltac sat_fields := first [ sat_field | apply parses_prelude; cbn; lia | apply parses_digests ].

Ltac sat_done := lazymatch goal with |- dlen _ => done | |- prelude_ok _ => done | |- _ => idtac end.

Lemma parses_quiescence :
  parses quiescence_fields (λ c b, quiescence_ok c ∧ b = encode_quiescence_v1 c).
Proof.
  eapply parses_ext; [unfold quiescence_fields; parses_tac sat_fields|].
  intros c b. rewrite quiescence_bytes. split.
  - intros Hp. sat_inv.
    match goal with H : u64_ok ?n, Hl : length ?l = Z.to_nat ?n |- _ =>
      assert (n = Z.of_nat (length l)) by int_lia end.
    subst. unfold quiescence_ok, q_prelude. sat_cbn. rewrite app_nil_r. split; [by destruct x|].
    by destruct x.
  - destruct c as [p1 p2 p3 p4 p5 [tw] hidden ch rs ad en gr [j]]. unfold quiescence_ok, q_prelude. sat_cbn.
    intros [(?&?&?&?&?&?&?&->&?) ->]. exists (mkPrelude p1 p2 p3 p4 p5).
    do 2 eexists. refine (conj _ (conj _ _)); [|parse_build|].
    all: parse_close. all: sat_done.
    + eassumption.
    + split; [by rewrite Nat2Z.id|done].
    + instantiate (1 := enumeration_ordinal en). by destruct en.
    + by destruct en.
    + by rewrite app_nil_r.
Qed.

(** ** Divergence *)

Definition d_prelude (c : DivergenceCertificateV1) : SatPrelude :=
  mkPrelude (d_profile c) (d_context c) (d_presentation c) (d_policy c) (d_src_world c).

Definition divergence_ok (c : DivergenceCertificateV1) : Prop :=
  prelude_ok (d_prelude c) ∧ u64_ok (d_stem c) ∧ u64_ok (d_cycle c) ∧ d_cycle c ≠ 0%Z ∧
  u64_ok (d_stem c + d_cycle c) ∧ Z.of_nat (length (d_lasso c)) = (d_stem c + d_cycle c)%Z ∧
  Forall dlen (d_lasso c) ∧ dlen (digest (d_cycle_world c)) ∧ dlen (digest (d_cycle_policy c)) ∧
  d_grade c = Unknown.

Lemma divergence_bytes c :
  encode_divergence_v1 c = prelude_bytes DIVERGENCE_MARKER (d_prelude c) ++
    encode_uint (d_stem c) ++ encode_uint (d_cycle c) ++ concat (dframe <$> d_lasso c) ++
    dframe (digest (d_cycle_world c)) ++ dframe (digest (d_cycle_policy c)) ++
    encode_uint (assumption_ordinal (d_assumptions c)) ++ encode_uint (ordinal (d_grade c)).
Proof.
  unfold encode_divergence_v1, prelude_bytes, write_id, write_string, write_str, write_uint,
    canon_write, Canonical_Outcome, write_enum, write_uint, id, dframe.
  rewrite write_digests_app, !write_bytes_app, app_nil_l. unfold dframe. by rewrite <-!app_assoc.
Qed.

Lemma parses_divergence :
  parses divergence_fields (λ c b, divergence_ok c ∧ b = encode_divergence_v1 c).
Proof.
  eapply parses_ext; [unfold divergence_fields; parses_tac sat_fields|].
  intros c b. rewrite divergence_bytes. split.
  - intros Hp. sat_inv. subst. unfold divergence_ok, d_prelude. sat_cbn. rewrite app_nil_r.
    split; [|by destruct x].
    repeat (split; [first [done|by destruct x|unfold u64_ok in *; lia]|]); done.
  - destruct c as [p1 p2 p3 p4 p5 st cy lasso [cw] [cp] as_ gr]. unfold divergence_ok, d_prelude. sat_cbn.
    intros [(?&?&?&?&?&?&?&?&?&->) ->]. exists (mkPrelude p1 p2 p3 p4 p5).
    do 2 eexists. refine (conj _ (conj _ _)); [|parse_build|].
    all: parse_close. all: sat_done; try assumption.
    + by apply ok_or_Ok, checked_Some.
    + split; [lia|done].
    + instantiate (1 := assumption_ordinal as_). by destruct as_.
    + by destruct as_.
    + by rewrite app_nil_r.
Qed.

(** ** Values in memory *)

(** What the types of the source guarantee: 32-byte digests, [u64] fields, and an
    encoding that is a buffer. *)
Definition buffer (b : bytes) : Prop := are_bytes b ∧ len_ok b.

Definition quiescence_typed (c : QuiescenceCertificateV1) : Prop :=
  prelude_ok (q_prelude c) ∧ dlen (digest (q_terminal_world c)) ∧
  u64_ok (Z.of_nat (length (q_hidden c))) ∧ Forall dlen (q_hidden c) ∧
  dlen (q_prefix_chain c) ∧ dlen (q_regime_set c) ∧ dlen (q_adm_id c) ∧
  dlen (digest (q_judgement c)) ∧ buffer (encode_quiescence_v1 c).

Definition divergence_typed (c : DivergenceCertificateV1) : Prop :=
  prelude_ok (d_prelude c) ∧ u64_ok (d_stem c) ∧ u64_ok (d_cycle c) ∧ Forall dlen (d_lasso c) ∧
  dlen (digest (d_cycle_world c)) ∧ dlen (digest (d_cycle_policy c)) ∧ buffer (encode_divergence_v1 c).

#[export] Instance prefix_free_dframe : PrefixFree dlen dframe.
Proof.
  intros [d1] [d2] r1 r2 H1 H2. unfold dlen, dframe, frame in *. cbn [as_bytes] in *.
  rewrite H1, H2, <-!app_assoc. intros Heq%app_inv_head. apply app_inj_1 in Heq as [-> ->]; [done|congruence].
Qed.

Lemma prelude_bytes_inj m p1 p2 r1 r2 :
  prelude_ok p1 → prelude_ok p2 → prelude_bytes m p1 ++ r1 = prelude_bytes m p2 ++ r2 → p1 = p2 ∧ r1 = r2.
Proof.
  destruct p1 as [[] [] [] [] []], p2 as [[] [] [] [] []]. unfold prelude_ok, prelude_bytes.
  sat_cbn.
  intros (?&?&?&?&?) (?&?&?&?&?). rewrite <-!app_assoc. intros Heq.
  do 3 apply app_inv_head in Heq.
  do 5 (apply prefix_free_dframe in Heq as [-> Heq]; [|done..]). done.
Qed.

(** Two runs of digests followed by something that is not one. *)
Lemma dframes_inj l1 l2 r1 r2 :
  Forall dlen l1 → Forall dlen l2 →
  concat (dframe <$> l1) ++ encode_uint 0 ++ r1 = concat (dframe <$> l2) ++ encode_uint 0 ++ r2 →
  l1 = l2 ∧ r1 = r2.
Proof.
  intros H1. revert l2. assert (∀ d r, dlen d → ∃ r', dframe d ++ r = encode_uint 32 ++ r') as Hd.
  { intros d r Hl. unfold dframe, frame. rewrite Hl, <-app_assoc. by eexists. }
  induction H1 as [|d1 l1 Hd1 H1 IH]; intros l2 H2 Heq; destruct H2 as [|d2 l2 Hd2 H2].
  - split; [done|]. exact (app_inv_head _ _ _ (app_inv_head _ _ _ Heq)).
  - rewrite fmap_cons in Heq. cbn [concat] in Heq. rewrite <-app_assoc in Heq.
    edestruct (Hd d2) as [r' E]; [done|]. rewrite E in Heq. discriminate Heq.
  - rewrite fmap_cons in Heq. cbn [concat] in Heq. rewrite <-app_assoc in Heq.
    edestruct (Hd d1) as [r' E]; [done|]. rewrite E in Heq. discriminate Heq.
  - rewrite !fmap_cons in Heq. cbn [concat] in Heq. rewrite <-!app_assoc in Heq.
    apply prefix_free_dframe in Heq as [-> Heq]; [|done..].
    by destruct (IH l2 H2 Heq) as [-> ->].
Qed.

Lemma ordinal_uint_inj o1 o2 r1 r2 :
  encode_uint (ordinal o1) ++ r1 = encode_uint (ordinal o2) ++ r2 → o1 = o2 ∧ r1 = r2.
Proof.
  intros Heq. apply prefix_free_uint64 in Heq as [Ho ->];
    [|destruct o1; unfold ordinal; int_lia|destruct o2; unfold ordinal; int_lia].
  split; [by apply outcome_ordinal_inj|done].
Qed.

Lemma quiescence_typed_inj c1 c2 :
  quiescence_typed c1 → quiescence_typed c2 → encode_quiescence_v1 c1 = encode_quiescence_v1 c2 → c1 = c2.
Proof.
  intros (Hp1&Ht1&Hn1&Hh1&Hc1&Hr1&Ha1&Hj1&_) (Hp2&Ht2&Hn2&Hh2&Hc2&Hr2&Ha2&Hj2&_). rewrite !quiescence_bytes.
  intros Heq. apply prelude_bytes_inj in Heq as [Hp Heq]; [|done..].
  apply prefix_free_dframe in Heq as [Ht Heq]; [|done..].
  apply prefix_free_uint64 in Heq as [Hn Heq]; [|done..].
  assert (q_hidden c1 = q_hidden c2 ∧ dframe (q_prefix_chain c1) ++ dframe (q_regime_set c1) ++
    dframe (q_adm_id c1) ++ encode_uint (enumeration_ordinal (q_enumeration c1)) ++
    encode_uint (ordinal (q_grade c1)) ++ dframe (digest (q_judgement c1)) =
    dframe (q_prefix_chain c2) ++ dframe (q_regime_set c2) ++
    dframe (q_adm_id c2) ++ encode_uint (enumeration_ordinal (q_enumeration c2)) ++
    encode_uint (ordinal (q_grade c2)) ++ dframe (digest (q_judgement c2))) as [Hh Heq'].
  { revert Hn Hh1 Hh2 Heq. generalize (q_hidden c1) (q_hidden c2). clear. intros l1 l2 Hn%Nat2Z.inj H1.
    revert l2 Hn. induction H1 as [|d1 l1 Hd1 H1 IH]; intros [|d2 l2] Hn H2 Heq; try done.
    apply Forall_cons in H2 as [Hd2 H2]. rewrite !fmap_cons in Heq. cbn [concat] in Heq. rewrite <-!app_assoc in Heq.
    apply prefix_free_dframe in Heq as [-> Heq]; [|done..]. injection Hn as Hn.
    by destruct (IH l2 Hn H2 Heq) as [-> ?]. }
  apply prefix_free_dframe in Heq' as [Hch Heq']; [|done..].
  apply prefix_free_dframe in Heq' as [Hrs Heq']; [|done..].
  apply prefix_free_dframe in Heq' as [Had Heq']; [|done..].
  assert (q_enumeration c1 = q_enumeration c2) as Hen by (by destruct (q_enumeration c1), (q_enumeration c2)).
  rewrite Hen in Heq'. apply app_inv_head, ordinal_uint_inj in Heq' as [Hg Heq'].
  apply (prefix_free_inj dlen dframe) in Heq'; [|done..].
  destruct c1 as [? ? ? ? ? [] ? ? ? ? ? ? []], c2 as [? ? ? ? ? [] ? ? ? ? ? ? []].
  unfold q_prelude in Hp. cbn in *. by simplify_eq.
Qed.

Lemma divergence_typed_inj c1 c2 :
  divergence_typed c1 → divergence_typed c2 → encode_divergence_v1 c1 = encode_divergence_v1 c2 → c1 = c2.
Proof.
  intros (Hp1&Hs1&Hy1&Hl1&Hw1&Hc1&_) (Hp2&Hs2&Hy2&Hl2&Hw2&Hc2&_). rewrite !divergence_bytes.
  intros Heq. apply prelude_bytes_inj in Heq as [Hp Heq]; [|done..].
  apply prefix_free_uint64 in Heq as [Hs Heq]; [|done..].
  apply prefix_free_uint64 in Heq as [Hy Heq]; [|done..].
  assert (∀ c, concat (dframe <$> d_lasso c) ++ dframe (digest (d_cycle_world c)) ++
     dframe (digest (d_cycle_policy c)) ++ encode_uint (assumption_ordinal (d_assumptions c)) ++
     encode_uint (ordinal (d_grade c)) =
     concat (dframe <$> (d_lasso c ++ [digest (d_cycle_world c); digest (d_cycle_policy c)])) ++
     encode_uint 0 ++ encode_uint (ordinal (d_grade c))) as Hfold.
  { intros c. rewrite fmap_app, concat_app. cbn [fmap list_fmap concat]. rewrite app_nil_r, <-!app_assoc.
    by destruct (d_assumptions c). }
  rewrite !Hfold in Heq. apply dframes_inj in Heq as [Hl Hg]; [|apply Forall_app; split; [done|by repeat constructor]..].
  change [digest (d_cycle_world c1); ?x] with ([digest (d_cycle_world c1)] ++ [x]) in Hl.
  assert (d_lasso c1 = d_lasso c2 ∧ digest (d_cycle_world c1) = digest (d_cycle_world c2) ∧
    digest (d_cycle_policy c1) = digest (d_cycle_policy c2)) as (Hlasso & Hcw & Hcp).
  { apply app_inj_2 in Hl as [-> Hl]; [|done]. by injection Hl. }
  rewrite <-(app_nil_r (encode_uint (ordinal (d_grade c1)))), <-(app_nil_r (encode_uint (ordinal (d_grade c2)))) in Hg.
  apply ordinal_uint_inj in Hg as [Hg _].
  assert (d_assumptions c1 = d_assumptions c2) as Has by (by destruct (d_assumptions c1), (d_assumptions c2)).
  destruct c1 as [? ? ? ? ? ? ? ? [] [] ? ?], c2 as [? ? ? ? ? ? ? ? [] [] ? ?].
  unfold d_prelude in Hp. cbn in *. by simplify_eq.
Qed.

Lemma decode_quiescence_iff b c :
  buffer b → decode_quiescence_v1 b = Ok c ↔ quiescence_ok c ∧ b = encode_quiescence_v1 c.
Proof. intros [??]. apply (read_all_exact _ _ _ _ _ parses_quiescence); done. Qed.

Lemma decode_divergence_iff b c :
  buffer b → decode_divergence_v1 b = Ok c ↔ divergence_ok c ∧ b = encode_divergence_v1 c.
Proof. intros [??]. apply (read_all_exact _ _ _ _ _ parses_divergence); done. Qed.

Lemma quiescence_typed_ok c : quiescence_ok c → buffer (encode_quiescence_v1 c) → quiescence_typed c.
Proof. by intros (?&?&?&?&?&?&?&?&?) ?. Qed.

Lemma divergence_typed_ok c : divergence_ok c → buffer (encode_divergence_v1 c) → divergence_typed c.
Proof. by intros (?&?&?&?&?&?&?&?&?&?) ?. Qed.

(** A typed certificate decodes from its own encoding exactly when its frozen
    fields hold the only values they may hold. *)
Lemma decode_quiescence_self c c' :
  quiescence_typed c →
  decode_quiescence_v1 (encode_quiescence_v1 c) = Ok c' ↔ c' = c ∧ q_grade c = Derived.
Proof.
  intros Hc. assert (buffer (encode_quiescence_v1 c)) as Hb by apply Hc. rewrite decode_quiescence_iff by done. split.
  - intros [Hok Heq]. assert (c = c') as <-.
    { apply quiescence_typed_inj; [done| |done]. apply quiescence_typed_ok; [done|by rewrite <-Heq]. }
    split; [done|]. apply Hok.
  - intros [-> Hg]. split; [|done]. unfold quiescence_ok. unfold quiescence_typed in Hc. tauto.
Qed.

Definition lasso_shape (c : DivergenceCertificateV1) : Prop :=
  d_cycle c ≠ 0%Z ∧ u64_ok (d_stem c + d_cycle c) ∧
  Z.of_nat (length (d_lasso c)) = (d_stem c + d_cycle c)%Z.

Lemma decode_divergence_self c c' :
  divergence_typed c →
  decode_divergence_v1 (encode_divergence_v1 c) = Ok c' ↔ c' = c ∧ d_grade c = Unknown ∧ lasso_shape c.
Proof.
  intros Hc. assert (buffer (encode_divergence_v1 c)) as Hb by apply Hc. rewrite decode_divergence_iff by done. split.
  - intros [Hok Heq]. assert (c = c') as <-.
    { apply divergence_typed_inj; [done| |done]. apply divergence_typed_ok; [done|by rewrite <-Heq]. }
    unfold divergence_ok in Hok. unfold lasso_shape. tauto.
  - intros (-> & Hg & Hs). split; [|done]. unfold divergence_ok. unfold divergence_typed in Hc.
    unfold lasso_shape in Hs. tauto.
Qed.

Lemma markers_differ p1 p2 r1 r2 :
  prelude_bytes QUIESCENCE_MARKER p1 ++ r1 = prelude_bytes DIVERGENCE_MARKER p2 ++ r2 → False.
Proof.
  unfold prelude_bytes. rewrite <-!app_assoc. intros Heq. vm_compute (bytes_of_string _) in Heq.
  cbv [frame length] in Heq. discriminate Heq.
Qed.

#[export] Instance are_bytes_dec b : Decision (are_bytes b).
Proof. apply Forall_dec. intros. unfold is_byte. apply _. Defined.
#[export] Instance len_ok_dec {A} (l : list A) : Decision (len_ok l).
Proof. unfold len_ok. apply _. Defined.
#[export] Instance quiescence_typed_dec c : Decision (quiescence_typed c).
Proof. unfold quiescence_typed, prelude_ok, dlen, u64_ok, buffer. apply _. Defined.
#[export] Instance divergence_typed_dec c : Decision (divergence_typed c).
Proof. unfold divergence_typed, prelude_ok, dlen, u64_ok, buffer. apply _. Defined.

(** * Properties *)

(** The certificates' envelopes are canonical and fail closed. A buffer decodes
    as a quiescence certificate precisely when it is the encoding of one that is
    graded [Derived], and as a divergence certificate precisely when it is the
    encoding of one graded [Unknown] whose cycle is not empty and whose lasso has
    [stem + cycle] steps without overflow: nothing else decodes, no buffer decodes
    as both, and a certificate decodes to itself. Equal identities mean equal
    certificates, within a kind and across kinds, or the messages hashed collide. *)
Theorem certificate_codec_exact `{Blake3} :
  (∀ b c, buffer b → decode_quiescence_v1 b = Ok c ↔ quiescence_ok c ∧ b = encode_quiescence_v1 c) ∧
  (∀ b c, buffer b → decode_divergence_v1 b = Ok c ↔ divergence_ok c ∧ b = encode_divergence_v1 c) ∧
  (∀ c c', quiescence_typed c →
     decode_quiescence_v1 (encode_quiescence_v1 c) = Ok c' ↔ c' = c ∧ q_grade c = Derived) ∧
  (∀ c c', divergence_typed c →
     decode_divergence_v1 (encode_divergence_v1 c) = Ok c' ↔ c' = c ∧ d_grade c = Unknown ∧ lasso_shape c) ∧
  (∀ b c c', buffer b → decode_quiescence_v1 b = Ok c → decode_divergence_v1 b ≠ Ok c') ∧
  (∀ c c', quiescence_typed c → quiescence_typed c' →
     quiescence_certificate_id c = quiescence_certificate_id c' →
     c = c' ∨ collision (message (encode_quiescence_v1 c)) (message (encode_quiescence_v1 c'))) ∧
  (∀ c c', divergence_typed c → divergence_typed c' →
     divergence_certificate_id c = divergence_certificate_id c' →
     c = c' ∨ collision (message (encode_divergence_v1 c)) (message (encode_divergence_v1 c'))) ∧
  (∀ c c', digest (quiescence_certificate_id c) = digest (divergence_certificate_id c') →
     collision (message (encode_quiescence_v1 c)) (message (encode_divergence_v1 c'))).
Proof.
  split_and!.
  - intros b c. apply decode_quiescence_iff.
  - intros b c. apply decode_divergence_iff.
  - intros c c'. apply decode_quiescence_self.
  - intros c c'. apply decode_divergence_self.
  - intros b c c' Hb [_ ->]%decode_quiescence_iff [_ Heq]%decode_divergence_iff; [|done..].
    rewrite quiescence_bytes, divergence_bytes in Heq. by apply markers_differ in Heq.
  - intros c c' Hc Hc' Heq%(f_equal digest). apply (digest_of_binds Value Value) in Heq. destruct Heq as [[_ Heq]|?]; [left|by right].
    by apply quiescence_typed_inj.
  - intros c c' Hc Hc' Heq%(f_equal digest). apply (digest_of_binds Value Value) in Heq. destruct Heq as [[_ Heq]|?]; [left|by right].
    by apply divergence_typed_inj.
  - intros c c' Heq. apply (digest_of_binds Value Value) in Heq as [[_ Heq]|?]; [|done].
    rewrite quiescence_bytes, divergence_bytes in Heq. by apply markers_differ in Heq.
Qed.
