(* ===== verification/SatCheck.v ===== *)
(** Checking saturation certificates (src/crates/soc-core/src/saturate/certificate.rs,
    from [CertificateCheck]).

    A checker returns the certificate's identity or the reason it could not re-derive
    the claim; [None] is a panic. The claims are records: what a verified certificate
    says of the presentation, the configuration and the steps. *)
From S2P Require Import Prelude IntCodec Canon CanonLaws Calendar Outcome Witness Encoding Parsing.
From S2P Require Import Derivation Publication Settlement Journal Commit SatProfile SatCertificate.

Inductive CertificateCheckError : Type :=
  | Envelope (e : CertEnvelopeError)
  | RegimeSetMismatch
  | AdmMismatch
  | StepCountMismatch (declared supplied : nat)
  | StepDigestMismatch (at_step : nat)
  | ChainDigestMismatch
  | ProfileErrorAt (at_step : nat) (error : ProfileError)
  | PrefixNotAdministrative (at_step : nat)
  | StepsDoNotChain (at_step : nat)
  | SourceWorldMismatch
  | TerminalWorldMismatch
  | ConfigMismatch
  | FrontierNotEmpty (candidates : nat)
  | EnumerationNotScanned
  | JudgementMismatch
  | UndeclaredAssumption (id : AssumptionId)
  | CycleDoesNotClose
  | CycleEntryMismatch.

Inductive CertificateCheck (Id : Type) : Type :=
  | Verified (certificate_id : Id)
  | CheckUnknown (e : CertificateCheckError).
Arguments Verified {Id} certificate_id.
Arguments CheckUnknown {Id} e.

Definition verified_id {Id} (c : CertificateCheck Id) : option Id :=
  match c with Verified id => Some id | CheckUnknown _ => None end.
Definition is_verified {Id} (c : CertificateCheck Id) : bool :=
  match c with Verified _ => true | CheckUnknown _ => false end.

Definition check_of_result {Id} (m : result CertificateCheckError Id) : CertificateCheck Id :=
  match m with Ok id => Verified id | Err e => CheckUnknown e end.

Section checking.
Context `{Blake3}.

Definition quiescence_judgement_of (context : ContextId) (terminal_world policy : ConfigId)
    (regime_set adm_id prefix_chain : Digest) : JudgementId :=
  recompute context (quiescent_proposition (mkQuiescent terminal_world policy regime_set adm_id))
    Derived (evidence_id_of (SettlementReplay prefix_chain)).

Definition quiescence_judgement (cert : QuiescenceCertificateV1) : JudgementId :=
  quiescence_judgement_of (q_context cert) (q_terminal_world cert) (q_policy cert)
    (q_regime_set cert) (q_adm_id cert) (q_prefix_chain cert).

Definition replay_chain_digest (steps : list CommittedStep) : Digest :=
  default (h_digest history_empty) (last (replay_chain steps)).

(** The loop over the recorded digests zipped with the supplied steps. *)
Fixpoint check_digests (at_step : nat) (recorded : list Digest) (supplied : list CommittedStep) :
    result CertificateCheckError unit :=
  match recorded, supplied with
  | d :: recorded', s :: supplied' =>
    if decide (canon_digest s Value ≠ d) then Err (StepDigestMismatch at_step)
    else check_digests (S at_step) recorded' supplied'
  | _, _ => Ok tt
  end.

Definition check_recorded_steps (recorded : list Digest) (supplied : list CommittedStep) :
    result CertificateCheckError unit :=
  if decide (length recorded ≠ length supplied)
  then Err (StepCountMismatch (length recorded) (length supplied))
  else check_digests 0 recorded supplied.

(** The loop of [check_all_administrative]. *)
Fixpoint check_labels (label : CommittedStep → result ProfileError StepLabel) (at_step : nat)
    (steps : list CommittedStep) : result CertificateCheckError unit :=
  match steps with
  | [] => Ok tt
  | s :: steps' =>
    match label s with
    | Err error => Err (ProfileErrorAt at_step error)
    | Ok Realizing => Err (PrefixNotAdministrative at_step)
    | Ok Administrative => check_labels label (S at_step) steps'
    end
  end.

Definition check_all_administrative (pres : PresentationV1) (steps : list CommittedStep) :
    result CertificateCheckError unit := check_labels (label (profile pres)) 0 steps.

(** [steps.windows(2)]. *)
Fixpoint check_windows (at_step : nat) (steps : list CommittedStep) : result CertificateCheckError unit :=
  match steps with
  | s :: ((s' :: _) as steps') =>
    if decide (step_dst s ≠ step_src s') then Err (StepsDoNotChain at_step)
    else check_windows (S at_step) steps'
  | _ => Ok tt
  end.

Definition walk_path (steps : list CommittedStep) (src : ConfigId) : result CertificateCheckError ConfigId :=
  match steps with
  | [] => Ok src
  | first :: rest =>
    if decide (step_src first ≠ src) then Err SourceWorldMismatch else
    check_windows 0 steps ;;
    Ok (step_dst (List.last rest first))
  end.

Definition check_quiescence_inner (cert : QuiescenceCertificateV1) (pres : PresentationV1)
    (terminal : ExecConfig) (prefix : list CommittedStep) :
    result CertificateCheckError QuiescenceCertificateId :=
  let b := encode_quiescence_v1 cert in
  certificate_id ← map_err Envelope
    (validate_quiescence_v1 b (pres_context pres) (profile_id (profile pres)) (pres_id pres));
  if decide (q_regime_set cert ≠ regime_set pres) then Err RegimeSetMismatch else
  if decide (q_adm_id cert ≠ adm_id pres) then Err AdmMismatch else
  check_recorded_steps (q_hidden cert) prefix ;;
  if decide (replay_chain_digest prefix ≠ q_prefix_chain cert) then Err ChainDigestMismatch else
  check_all_administrative pres prefix ;;
  end_world ← walk_path prefix (q_src_world cert);
  if decide (end_world ≠ q_terminal_world cert) then Err TerminalWorldMismatch else
  if decide (try_resolve (interner pres) (world terminal) ≠ Some (digest (q_terminal_world cert)) ∨
             try_resolve (interner pres) (policy terminal) ≠ Some (digest (q_policy cert)))
  then Err ConfigMismatch else
  let '(frontier, work) := enumerate_admissible (regimes pres) (pres_adm pres) terminal in
  if decide (work = 0)%Z then Err EnumerationNotScanned else
  if decide (frontier ≠ ∅) then Err (FrontierNotEmpty (size frontier)) else
  if decide (quiescence_judgement cert ≠ q_judgement cert) then Err JudgementMismatch else
  Ok certificate_id.

Definition check_quiescence_certificate (cert : QuiescenceCertificateV1) (pres : PresentationV1)
    (terminal : ExecConfig) (prefix : list CommittedStep) : CertificateCheck QuiescenceCertificateId :=
  check_of_result (check_quiescence_inner cert pres terminal prefix).

(** [None] is the panic of [lasso[stem - 1]] out of range. *)
Definition check_divergence_inner (cert : DivergenceCertificateV1) (pres : PresentationV1)
    (lasso : list CommittedStep) : option (result CertificateCheckError DivergenceCertificateId) :=
  let b := encode_divergence_v1 cert in
  match (certificate_id ← map_err Envelope
           (validate_divergence_v1 b (pres_context pres) (profile_id (profile pres)) (pres_id pres));
         if negb (declares (assumptions pres) HistoryIndependence)
         then Err (UndeclaredAssumption HistoryIndependence) else
         if negb (declares (assumptions pres) PhaseStableKeying)
         then Err (UndeclaredAssumption PhaseStableKeying) else
         check_recorded_steps (d_lasso cert) lasso ;;
         check_all_administrative pres lasso ;;
         end_world ← walk_path lasso (d_src_world cert);
         Ok (certificate_id, end_world)) with
  | Err e => Some (Err e)
  | Ok (certificate_id, end_world) =>
    let stem := Z.to_nat (d_stem cert) in
    entry_src ← (if decide (stem = 0) then Some (d_src_world cert)
                 else step_dst <$> lasso !! (stem - 1));
    Some (if decide (entry_src ≠ d_cycle_world cert) then Err CycleEntryMismatch
          else if decide (end_world ≠ d_cycle_world cert) then Err CycleDoesNotClose
          else if decide (d_cycle_policy cert ≠ d_policy cert) then Err CycleEntryMismatch
          else Ok certificate_id)
  end.

Definition check_divergence_certificate (cert : DivergenceCertificateV1) (pres : PresentationV1)
    (lasso : list CommittedStep) : option (CertificateCheck DivergenceCertificateId) :=
  check_of_result <$> check_divergence_inner cert pres lasso.
End checking.

Lemma guard_Ok {E A} (P : Prop) `{Decision P} (err : E) (m : result E A) a :
  (if decide P then Err err else m) = Ok a ↔ ¬ P ∧ m = Ok a.
Proof. case_decide; split; naive_solver. Qed.

Lemma negb_guard_Ok {E A} (b : bool) (err : E) (m : result E A) a :
  (if negb b then Err err else m) = Ok a ↔ b = true ∧ m = Ok a.
Proof. destruct b; split; naive_solver. Qed.

Lemma bind_Ok_iff {E A B} (m : result E A) (f : A → result E B) b :
  m ≫= f = Ok b ↔ ∃ a, m = Ok a ∧ f a = Ok b.
Proof. split; [apply result_bind_Ok|by intros (a & -> & ?)]. Qed.

Lemma seq_Ok_iff {E B} (m : result E ()) (k : result E B) b :
  (m ;; k) = Ok b ↔ m = Ok tt ∧ k = Ok b.
Proof. rewrite bind_Ok_iff. split; [by intros ([] & ? & ?)|intros [? ?]; by exists tt]. Qed.

Lemma map_err_Ok {E F A} (f : E → F) (m : result E A) a : map_err f m = Ok a ↔ m = Ok a.
Proof. by destruct m; split; intros [= ->]. Qed.

Lemma check_of_result_Verified {Id} (m : result CertificateCheckError Id) id :
  check_of_result m = Verified id ↔ m = Ok id.
Proof. destruct m; split; naive_solver. Qed.

Lemma check_binding_Ok c p pr c' p' pr' :
  check_binding c p pr c' p' pr' = Ok tt ↔ c = c' ∧ p = p' ∧ pr = pr'.
Proof. unfold check_binding. rewrite !guard_Ok. split; [|naive_solver].
  intros (?%dec_stable & ?%dec_stable & ?%dec_stable & _). done. Qed.

(** The steps lead from [src] to [dst]. *)
Fixpoint path (src : ConfigId) (steps : list CommittedStep) (dst : ConfigId) : Prop :=
  match steps with
  | [] => src = dst
  | s :: l => step_src s = src ∧ path (step_dst s) l dst
  end.

Lemma last_cons_default {A} (x : A) l d : List.last (x :: l) d = List.last l x.
Proof. revert x d. induction l as [|y l IH]; intros x d; [done|]. change (List.last (y :: l) d = List.last (y :: l) x). by rewrite !IH. Qed.

Lemma check_windows_Ok n s l dst :
  check_windows n (s :: l) = Ok tt ∧ step_dst (List.last l s) = dst ↔ path (step_dst s) l dst.
Proof.
  revert n s. induction l as [|s' l IH]; intros n s.
  - cbn. tauto.
  - change (check_windows n (s :: s' :: l)) with
      (if decide (step_dst s ≠ step_src s') then Err (StepsDoNotChain n) else check_windows (S n) (s' :: l)).
    rewrite guard_Ok. cbn [path]. rewrite <-(IH (S n) s').
    rewrite last_cons_default.
    split; [intros [[?%dec_stable ?] ?]|intros [? [? ?]]]; auto.
Qed.

Lemma walk_path_Ok l src dst : walk_path l src = Ok dst ↔ path src l dst.
Proof.
  destruct l as [|s l]; [cbn; naive_solver|]. unfold walk_path. rewrite guard_Ok, seq_Ok_iff. cbn [path].
  rewrite <-(check_windows_Ok 0 s l dst).
  split; [intros [?%dec_stable [? [= <-]]]|intros [? [? <-]]]; auto.
Qed.

Lemma check_labels_Ok lab n l : check_labels lab n l = Ok tt ↔ Forall (λ s, lab s = Ok Administrative) l.
Proof.
  revert n. induction l as [|s l IH]; intros n; cbn [check_labels]; [by split|].
  rewrite Forall_cons, <-(IH (S n)). destruct (lab s) as [[]|]; naive_solver.
Qed.

Lemma check_digests_Ok `{Blake3} n recorded l :
  length recorded = length l →
  check_digests n recorded l = Ok tt ↔ recorded = (λ s, canon_digest s Value) <$> l.
Proof.
  revert n l. induction recorded as [|d recorded IH]; intros n [|s l] Hl; try done.
  cbn [check_digests]. rewrite guard_Ok, fmap_cons. injection Hl as Hl. rewrite (IH (S n) l Hl). split.
  - by intros [->%dec_stable ->].
  - intros [= -> ->]. split; [|done]. tauto.
Qed.

Lemma check_recorded_Ok `{Blake3} recorded l :
  check_recorded_steps recorded l = Ok tt ↔ recorded = (λ s, canon_digest s Value) <$> l.
Proof.
  unfold check_recorded_steps. rewrite guard_Ok. split.
  - intros [Hl%dec_stable Hc]. by apply check_digests_Ok in Hc.
  - intros ->. rewrite check_digests_Ok by by rewrite length_fmap. rewrite length_fmap. tauto.
Qed.

Lemma scan_work_0 ps e : scan_work (candidates <$> ps) e = 0%Z ↔ ps = [].
Proof.
  assert (∀ ps, 0 ≤ scan_work ps e)%Z as Hp by (intros qs; induction qs; unfold scan_work in *; cbn; lia).
  destruct ps as [|p ps]; [done|]. split; [|done]. specialize (Hp (candidates <$> ps)).
  rewrite fmap_cons. unfold scan_work in *. cbn [foldr]. lia.
Qed.

Lemma path_app src l1 l2 dst : path src (l1 ++ l2) dst ↔ ∃ mid, path src l1 mid ∧ path mid l2 dst.
Proof.
  revert src. induction l1 as [|s l1 IH]; intros src; cbn.
  - split; [by exists src|by intros (? & -> & ?)].
  - rewrite IH. naive_solver.
Qed.

Lemma path_functional src l d1 d2 : path src l d1 → path src l d2 → d1 = d2.
Proof. revert src. induction l as [|s l IH]; intros src; cbn; [congruence|]. intros [_ ?] [_ ?]. by eapply IH. Qed.

(** Where the path is after [n] of its steps. *)
Lemma path_lookup src l dst n s : path src l dst → l !! n = Some s → path src (take (S n) l) (step_dst s).
Proof.
  revert src n. induction l as [|x l IH]; intros src [|n]; cbn; try done.
  - by intros [? _] [= ->].
  - intros [? Hp] Hs. split; [done|]. by apply IH.
Qed.

Section claims.
Context `{Blake3}.

Definition digests_of (l : list CommittedStep) : list Digest := (λ s, canon_digest s Value) <$> l.
Definition administrative_steps (pres : PresentationV1) (l : list CommittedStep) : Prop :=
  Forall (λ s, label (profile pres) s = Ok Administrative) l.

(** The claim of a quiescence certificate about a terminal configuration and the
    steps before it. *)
Record quiescence_claim (cert : QuiescenceCertificateV1) (pres : PresentationV1)
    (terminal : ExecConfig) (prefix : list CommittedStep) : Prop := {
  qc_grade : q_grade cert = Derived;
  qc_context : q_context cert = pres_context pres;
  qc_profile : q_profile cert = profile_id (profile pres);
  qc_presentation : q_presentation cert = pres_id pres;
  qc_regime_set : q_regime_set cert = regime_set pres;
  qc_adm : q_adm_id cert = adm_id pres;
  qc_recorded : q_hidden cert = digests_of prefix;
  qc_chain : q_prefix_chain cert = replay_chain_digest prefix;
  qc_administrative : administrative_steps pres prefix;
  qc_path : path (q_src_world cert) prefix (q_terminal_world cert);
  qc_world : try_resolve (interner pres) (world terminal) = Some (digest (q_terminal_world cert));
  qc_policy : try_resolve (interner pres) (policy terminal) = Some (digest (q_policy cert));
  qc_scanned : regimes pres ≠ [];
  qc_quiescent : cand (candidates <$> regimes pres) (pres_adm pres) terminal = ∅;
  qc_judgement : q_judgement cert = quiescence_judgement cert
}.

Record divergence_claim (cert : DivergenceCertificateV1) (pres : PresentationV1)
    (lasso : list CommittedStep) : Prop := {
  dc_grade : d_grade cert = Unknown;
  dc_shape : lasso_shape cert;
  dc_context : d_context cert = pres_context pres;
  dc_profile : d_profile cert = profile_id (profile pres);
  dc_presentation : d_presentation cert = pres_id pres;
  dc_declared : ∀ a, declares (assumptions pres) a = true;
  dc_recorded : d_lasso cert = digests_of lasso;
  dc_administrative : administrative_steps pres lasso;
  dc_stem : path (d_src_world cert) (take (Z.to_nat (d_stem cert)) lasso) (d_cycle_world cert);
  dc_cycle : path (d_cycle_world cert) (drop (Z.to_nat (d_stem cert)) lasso) (d_cycle_world cert);
  dc_policy : d_cycle_policy cert = d_policy cert
}.

Lemma validate_quiescence_self cert context profile presentation id :
  quiescence_typed cert →
  validate_quiescence_v1 (encode_quiescence_v1 cert) context profile presentation = Ok id ↔
  q_grade cert = Derived ∧ q_context cert = context ∧ q_profile cert = profile ∧
  q_presentation cert = presentation ∧ id = quiescence_certificate_id cert.
Proof.
  intros Ht. unfold validate_quiescence_v1. rewrite bind_Ok_iff. split.
  - intros (c & [-> Hg]%decode_quiescence_self & [Hb Hid]%seq_Ok_iff); [|done].
    apply check_binding_Ok in Hb as (? & ? & ?). injection Hid as <-. done.
  - intros (? & ? & ? & ? & ->). exists cert. rewrite decode_quiescence_self by done. split; [done|].
    apply seq_Ok_iff. by rewrite check_binding_Ok.
Qed.

Lemma validate_divergence_self cert context profile presentation id :
  divergence_typed cert →
  validate_divergence_v1 (encode_divergence_v1 cert) context profile presentation = Ok id ↔
  (d_grade cert = Unknown ∧ lasso_shape cert) ∧ d_context cert = context ∧ d_profile cert = profile ∧
  d_presentation cert = presentation ∧ id = divergence_certificate_id cert.
Proof.
  intros Ht. unfold validate_divergence_v1. rewrite bind_Ok_iff. split.
  - intros (c & (-> & Hg)%decode_divergence_self & [Hb Hid]%seq_Ok_iff); [|done].
    apply check_binding_Ok in Hb as (? & ? & ?). injection Hid as <-. done.
  - intros (? & ? & ? & ? & ->). exists cert. rewrite decode_divergence_self by done. split; [done|].
    apply seq_Ok_iff. by rewrite check_binding_Ok.
Qed.

Lemma check_quiescence_claim cert pres terminal prefix id :
  quiescence_typed cert →
  check_quiescence_certificate cert pres terminal prefix = Verified id ↔
  id = quiescence_certificate_id cert ∧ quiescence_claim cert pres terminal prefix.
Proof.
  intros Ht. unfold check_quiescence_certificate. rewrite check_of_result_Verified.
  unfold check_quiescence_inner. rewrite bind_Ok_iff. setoid_rewrite map_err_Ok.
  setoid_rewrite validate_quiescence_self; [|done]. rewrite enumerate_admissible_spec.
  split.
  - intros (id' & (Hg & Hc & Hp & Hpr & ->) & Hk). rewrite !guard_Ok in Hk. destruct Hk as (Hrs & Had & Hk).
    rewrite seq_Ok_iff, guard_Ok, seq_Ok_iff, bind_Ok_iff in Hk.
    destruct Hk as (Hrec & Hch & Hadm & dst & Hwalk & Hk). rewrite !guard_Ok in Hk.
    destruct Hk as (Hdst & Hres & Hw & Hf & Hj & [= <-]). split; [done|].
    apply Decidable.not_or in Hres as [Hr1%dec_stable Hr2%dec_stable].
    apply walk_path_Ok in Hwalk. apply dec_stable in Hdst as ->.
    rewrite scan_work_0 in Hw.
    apply check_recorded_Ok in Hrec. apply check_labels_Ok in Hadm.
    constructor; try done; try (by apply dec_stable); by symmetry; apply dec_stable.
  - intros [-> []]. exists (quiescence_certificate_id cert). split; [done|].
    rewrite !guard_Ok. split_and!; [tauto..|].
    rewrite seq_Ok_iff, check_recorded_Ok. split; [done|].
    rewrite guard_Ok. split; [by rewrite qc_chain0; auto|].
    rewrite seq_Ok_iff. split; [by apply check_labels_Ok|].
    rewrite bind_Ok_iff. eexists. rewrite walk_path_Ok. split; [done|].
    rewrite !guard_Ok, scan_work_0. split_and!; auto; tauto.
Qed.

Lemma declares_all d :
  (∀ a, declares d a = true) ↔
  declares d HistoryIndependence = true ∧ declares d PhaseStableKeying = true.
Proof. split; [auto|]. by intros [??] []. Qed.

(** The first half of the check, up to the walk. *)
Lemma divergence_walk_iff cert pres lasso id dst :
  divergence_typed cert →
  (certificate_id ← map_err Envelope
     (validate_divergence_v1 (encode_divergence_v1 cert) (pres_context pres) (profile_id (profile pres)) (pres_id pres));
   if negb (declares (assumptions pres) HistoryIndependence)
   then Err (UndeclaredAssumption HistoryIndependence) else
   if negb (declares (assumptions pres) PhaseStableKeying)
   then Err (UndeclaredAssumption PhaseStableKeying) else
   check_recorded_steps (d_lasso cert) lasso ;;
   check_all_administrative pres lasso ;;
   end_world ← walk_path lasso (d_src_world cert);
   Ok (certificate_id, end_world)) = Ok (id, dst) ↔
  id = divergence_certificate_id cert ∧
  ((d_grade cert = Unknown ∧ lasso_shape cert) ∧ d_context cert = pres_context pres ∧
   d_profile cert = profile_id (profile pres) ∧ d_presentation cert = pres_id pres) ∧
  (∀ a, declares (assumptions pres) a = true) ∧ d_lasso cert = digests_of lasso ∧
  administrative_steps pres lasso ∧ path (d_src_world cert) lasso dst.
Proof.
  intros Ht. rewrite bind_Ok_iff. setoid_rewrite map_err_Ok. setoid_rewrite validate_divergence_self; [|done].
  rewrite declares_all. unfold administrative_steps, digests_of. split.
  - intros (id' & (? & ? & ? & ? & ->) & Hk). rewrite !negb_guard_Ok, !seq_Ok_iff, bind_Ok_iff in Hk.
    destruct Hk as (? & ? & ?%check_recorded_Ok & ?%check_labels_Ok & d & Hw%walk_path_Ok & [= <- <-]). done.
  - intros (-> & ? & [? ?] & ? & ? & ?). exists (divergence_certificate_id cert). split; [tauto|].
    rewrite !negb_guard_Ok, !seq_Ok_iff, bind_Ok_iff. split_and!; [done..| | |].
    + by apply check_recorded_Ok.
    + by apply check_labels_Ok.
    + exists dst. by rewrite walk_path_Ok.
Qed.

(** The world at which the cycle is entered. *)
Lemma entry_path src lasso dst stem :
  path src lasso dst → stem ≤ length lasso →
  ∃ w, (if decide (stem = 0) then Some src else step_dst <$> lasso !! (stem - 1)) = Some w ∧
    path src (take stem lasso) w ∧ path w (drop stem lasso) dst.
Proof.
  intros Hp Hl. assert (∃ w, path src (take stem lasso) w ∧ path w (drop stem lasso) dst) as (w & H1 & H2).
  { apply path_app. by rewrite take_drop. }
  exists w. split; [|done]. case_decide as Hs.
  - subst stem. cbn in H1. by f_equal.
  - destruct (lookup_lt_is_Some_2 lasso (stem - 1)) as [s Es]; [lia|]. rewrite Es. cbn. f_equal.
    pose proof (path_lookup _ _ _ _ _ Hp Es) as Hp'. replace (S (stem - 1)) with stem in Hp' by lia.
    by eapply path_functional.
Qed.

Lemma check_divergence_claim cert pres lasso :
  divergence_typed cert →
  ∃ r, check_divergence_certificate cert pres lasso = Some r ∧
    ∀ id, r = Verified id ↔ id = divergence_certificate_id cert ∧ divergence_claim cert pres lasso.
Proof.
  intros Ht. pose proof (divergence_walk_iff cert pres lasso) as Hw.
  unfold check_divergence_certificate, check_divergence_inner. cbv zeta.
  destruct (_ ≫= _) as [[id dst]|err] eqn:E.
  2: { eexists. split; [done|]. intros id. split; [done|]. intros [-> []]. exfalso.
    enough (∃ dst, path (d_src_world cert) lasso dst) as [dst Hp].
    { enough (Err err = Ok (divergence_certificate_id cert, dst)) by done. apply Hw; [done|]. by split_and!. }
    exists (d_cycle_world cert). rewrite <-(take_drop (Z.to_nat (d_stem cert)) lasso). apply path_app. eauto. }
  destruct (proj1 (Hw id dst Ht) eq_refl) as (-> & ([Hg Hshape] & Hc & Hp & Hpr) & Hd & Hrec & Hadm & Hpath).
  assert (length lasso = Z.to_nat (d_stem cert) + Z.to_nat (d_cycle cert)) as Hlen.
  { destruct Hshape as (_ & _ & Hl). rewrite Hrec in Hl. unfold digests_of in Hl. rewrite length_fmap in Hl.
    destruct Ht as (_ & [? _] & [? _] & _). lia. }
  edestruct (entry_path _ _ _ (Z.to_nat (d_stem cert)) Hpath) as (w & Ew & H1 & H2); [lia|].
  rewrite Ew. cbn [mbind option_bind fmap option_fmap option_map]. eexists. split; [done|]. intros id.
  rewrite check_of_result_Verified, !guard_Ok. split.
  - intros (->%dec_stable & ->%dec_stable & ?%dec_stable & [= <-]). done.
  - intros [-> Hcl]. destruct Hcl.
    assert (w = d_cycle_world cert) as -> by (by eapply path_functional).
    assert (dst = d_cycle_world cert) as -> by (by eapply path_functional).
    split_and!; [tauto|tauto|by rewrite dc_policy0; auto|done].
Qed.
End claims.

Lemma digests_of_binds `{Blake3} l1 l2 :
  Forall step_ok l1 → Forall step_ok l2 → digests_of l1 = digests_of l2 →
  l1 = l2 ∨ collision_among (message <$> (canon_bytes <$> l1 ++ l2)).
Proof.
  intros H1. revert l2. induction H1 as [|s1 l1 Hs1 H1 IH]; intros l2 H2 Heq; destruct H2 as [|s2 l2 Hs2 H2];
    try done; [by left|].
  unfold digests_of in Heq. rewrite !fmap_cons in Heq. injection Heq as Hd Heq. apply (f_equal mkDigest) in Hd.
  apply (digest_of_binds Value Value) in Hd as [[_ Hb]|Hc]; [|right; eapply collision_in; [exact Hc|apply list_elem_of_fmap_2; set_solver..]].
  apply committed_bytes_inj in Hb as ->; [|done..].
  destruct (IH l2 H2 Heq) as [->|Hc]; [by left|right]. eapply collision_mono; [|exact Hc].
  intros p (s & -> & Hs)%list_elem_of_fmap. apply list_elem_of_fmap_2. set_solver.
Qed.

(** Instances to apply the theorems to. *)
Definition demo_lasso : list CommittedStep :=
  let s a b := mkCommitted (key demo_step) (observation demo_step) (decomposition demo_step)
    (demo_id a) (demo_id b) (step_witness demo_step) in [s 2 3; s 3 4; s 4 3]%Z.
Definition demo_sat_interner : Interner :=
  (intern (intern (intern interner_new (mkDigest (replicate 32 2%Z))).2 (mkDigest (replicate 32 3%Z))).2
     (mkDigest (replicate 32 4%Z))).2.
Definition demo_pres `{Blake3} : PresentationV1 :=
  mkPresentation (demo_id 20) [demo_provider] (mkDigest (replicate 32 21%Z)) AdmAll (mkDigest (replicate 32 22%Z))
    (partition_profile demo_partition) demo_sat_interner (demo_id 23) assumptions_all.
Definition demo_divergence `{Blake3} : DivergenceCertificateV1 :=
  mkDivergence (profile_id (profile demo_pres)) (demo_id 23) (demo_id 20) (demo_id 2) (demo_id 2) 1 2
    (digests_of demo_lasso) (demo_id 3) (demo_id 2) DeclaredP1P6 Unknown.
Definition demo_quiescence `{Blake3} : QuiescenceCertificateV1 :=
  let prefix := take 1 demo_lasso in
  mkQuiescence (profile_id (profile demo_pres)) (demo_id 23) (demo_id 20) (demo_id 2) (demo_id 2) (demo_id 3)
    (digests_of prefix) (replay_chain_digest prefix) (regime_set demo_pres) (adm_id demo_pres) Complete Derived
    (quiescence_judgement_of (demo_id 23) (demo_id 3) (demo_id 2) (regime_set demo_pres) (adm_id demo_pres)
       (replay_chain_digest prefix)).

Lemma demo_divergence_typed : divergence_typed (@demo_divergence demo_hash).
Proof. apply (bool_decide_unpack _). vm_compute. exact I. Qed.
Lemma demo_quiescence_typed : quiescence_typed (@demo_quiescence demo_hash).
Proof. apply (bool_decide_unpack _). vm_compute. exact I. Qed.

(** * Properties *)

(** C36: a verified quiescence certificate is a re-derived claim. The check accepts
    exactly when the certificate is graded [Derived], is bound to the presentation's
    context, profile, revision, regime set and admissibility policy, records the
    digests and the chain of the supplied steps, these steps are all administrative
    and lead from the source to the terminal world, the configuration supplied is
    the terminal one, there is a regime to scan and no admissible candidate there,
    and the judgement recomputes; what it returns is the certificate's identity. The
    certificate determines the steps, or the messages hashed for two steps collide. *)
Theorem check_quiescence_exact `{Blake3} cert pres terminal prefix :
  quiescence_typed cert →
  (∀ id, check_quiescence_certificate cert pres terminal prefix = Verified id ↔
     id = quiescence_certificate_id cert ∧ quiescence_claim cert pres terminal prefix) ∧
  (∀ id terminal' prefix' id', Forall step_ok prefix → Forall step_ok prefix' →
     check_quiescence_certificate cert pres terminal prefix = Verified id →
     check_quiescence_certificate cert pres terminal' prefix' = Verified id' →
     prefix = prefix' ∨ collision_among (message <$> (canon_bytes <$> prefix ++ prefix'))).
Proof.
  intros Ht. split; [intros id; by apply check_quiescence_claim|].
  intros id terminal' prefix' id' Hs Hs' [_ H1]%check_quiescence_claim [_ H2]%check_quiescence_claim; [|done..].
  apply digests_of_binds; [done..|]. by rewrite <-(qc_recorded _ _ _ _ H1), <-(qc_recorded _ _ _ _ H2).
Qed.

#[local] Existing Instance demo_hash.

Lemma check_quiescence_exact_witness :
  check_quiescence_certificate demo_quiescence demo_pres
    (mkExec (mkHandle 1) (mkHandle 0) (mkDigest [])) (take 1 demo_lasso) =
  Verified (quiescence_certificate_id demo_quiescence).
Proof.
  destruct (@check_quiescence_exact demo_hash demo_quiescence demo_pres
    (mkExec (mkHandle 1) (mkHandle 0) (mkDigest [])) (take 1 demo_lasso) demo_quiescence_typed) as [Hc _].
  apply Hc. split; [reflexivity|].
  split; try (vm_compute; reflexivity); try (vm_compute; split; reflexivity); try discriminate.
  apply (proj1 (check_labels_Ok _ 0 _)). vm_compute. reflexivity.
Defined.

(** The divergence check is total and checks a closed administrative lasso. It
    never panics, and accepts exactly when the certificate is graded [Unknown], is
    bound to the presentation, both hypotheses are declared, the supplied steps are
    the recorded ones and all administrative, the first [stem] of them lead from the
    source world to the cycle's world and the other [cycle] of them, at least one,
    from there back to it, under the same policy. *)
Theorem check_divergence_exact `{Blake3} cert pres lasso :
  divergence_typed cert →
  ∃ r, check_divergence_certificate cert pres lasso = Some r ∧
    ∀ id, r = Verified id ↔ id = divergence_certificate_id cert ∧ divergence_claim cert pres lasso.
Proof. apply check_divergence_claim. Qed.

Lemma check_divergence_exact_witness :
  check_divergence_certificate demo_divergence demo_pres demo_lasso =
  Some (Verified (divergence_certificate_id demo_divergence)).
Proof.
  destruct (@check_divergence_exact demo_hash demo_divergence demo_pres demo_lasso demo_divergence_typed) as (r & -> & Hr).
  f_equal. apply Hr. split; [reflexivity|].
  split; try (vm_compute; reflexivity); try (vm_compute; repeat split; reflexivity); try discriminate.
  - unfold lasso_shape. split_and!; [discriminate|vm_compute; split; [discriminate|reflexivity]|reflexivity].
  - by intros [].
  - apply (proj1 (check_labels_Ok _ 0 _)). vm_compute. reflexivity.
Defined.
