(* ===== verification/Saturation.v ===== *)
(** The saturated step (src/crates/soc-core/src/saturate/mod.rs, [sat_step]).

    A run of ticks is consumed until a realizing step, an empty frontier, a repeated
    observable state or a budget. The loop's mutable variables are the record
    [SatState], one iteration is [sat_iter], and [iterate] runs it; the fuel
    [max_hidden_steps + 1] is what the administrative budget allows. The keyer is a
    closure with state, as in Commit.v. *)
From S2P Require Import Prelude IntCodec Canon CanonLaws Calendar Outcome Witness Encoding Parsing.
From S2P Require Import Derivation Publication Settlement Journal Commit SatProfile SatCertificate SatCheck.

(** * Results *)

Inductive SaturationUnknown : Type :=
  | AdministrativeBudgetExhausted (hidden_steps budget : nat)
  | AdministrativeStateBudgetExhausted (states budget : nat)
  | VisibleBudgetExhausted (visible_steps budget : nat)
  | ProfileErrorU (at_step : nat) (error : ProfileError)
  | CommitFailed (at_step : nat) (error : CommitError)
  | UndeclaredAssumptionU (id : AssumptionId)
  | AssumptionViolated (assumption : AssumptionId) (at_step : nat)
  | KeyConflictU (at_step : nat).

Inductive SaturatedStep : Type :=
  | SRealizing (observation : Observation) (successor : ExecConfig) (hidden_steps : nat)
  | SQuiescent (certificate : QuiescenceCertificateV1)
  | SDivergent (certificate : DivergenceCertificateV1)
  | SUnknown (reason : SaturationUnknown).

Definition fold_cost (running : option Z) (tick : CostRecord) : option Z :=
  match running, work_units tick with
  | Some total, Some units => Some (saturating_add total units)
  | _, _ => None
  end.

Definition finish_cost (work : option Z) : CostRecord :=
  match work with
  | Some units => Steps units
  | None => UnknownCost "a γ-tick inside this saturated step was unmeasured"
  end.

Record VisitRecord : Type := mkVisit {
  visit_index : nat;
  visit_candidates : option (gset Candidate)
}.

(** * The step *)

Section sat.
Context `{Blake3} `{UnicodeNfc} {K : Type} (keyer : K → Candidate → Z → Key * K).
Context (pres : PresentationV1).

(** [Interner::resolve] panics on a handle that was not interned: [None]. *)
Definition quiescence_certificate (start terminal : ExecConfig) (prefix : list CommittedStep) :
    option QuiescenceCertificateV1 :=
  src_world ← try_resolve (interner pres) (world start);
  terminal_world ← try_resolve (interner pres) (world terminal);
  policy ← try_resolve (interner pres) (policy terminal);
  let hidden := digests_of prefix in
  let prefix_chain := replay_chain_digest prefix in
  Some (mkQuiescence (profile_id (profile pres)) (pres_context pres) (pres_id pres) (mkId policy)
    (mkId src_world) (mkId terminal_world) hidden prefix_chain (regime_set pres) (adm_id pres) Complete Derived
    (quiescence_judgement_of (pres_context pres) (mkId terminal_world) (mkId policy) (regime_set pres)
       (adm_id pres) prefix_chain)).

Definition record_visit (e : ExecConfig) (index : nat) : VisitRecord :=
  mkVisit index (if declares (assumptions pres) HistoryIndependence
                 then Some (enumerate_admissible (regimes pres) (pres_adm pres) e).1 else None).

(** The loop of the P6 check over the candidates in canonical order. *)
Fixpoint stable_keys (ks : K) (cs : list Candidate) (phase_then phase_now : Z) : bool * K :=
  match cs with
  | [] => (true, ks)
  | c :: cs' =>
    let '(k_then, ks) := keyer ks c phase_then in
    let '(k_now, ks) := keyer ks c phase_now in
    if decide ((priority k_then, tiebreak k_then) ≠ (priority k_now, tiebreak k_now)) then (false, ks)
    else stable_keys ks cs' phase_then phase_now
  end.

Definition close_lasso (start revisited : ExecConfig) (consumed : list CommittedStep)
    (previous : VisitRecord) (phase : Z) (ks : K) : option (SaturatedStep * K) :=
  let at_step := length consumed in
  if negb (declares (assumptions pres) HistoryIndependence)
  then Some (SUnknown (UndeclaredAssumptionU HistoryIndependence), ks) else
  if negb (declares (assumptions pres) PhaseStableKeying)
  then Some (SUnknown (UndeclaredAssumptionU PhaseStableKeying), ks) else
  let '(candidates_now, _) := enumerate_admissible (regimes pres) (pres_adm pres) revisited in
  baseline ← visit_candidates previous;
  if decide (baseline ≠ candidates_now)
  then Some (SUnknown (AssumptionViolated HistoryIndependence at_step), ks) else
  let phase_then := saturating_add phase (Z.of_nat (visit_index previous)) in
  let phase_now := saturating_add phase (Z.of_nat at_step) in
  let '(stable, ks) := stable_keys ks (set_iter candidates_now) phase_then phase_now in
  if negb stable then Some (SUnknown (AssumptionViolated PhaseStableKeying at_step), ks) else
  policy_start ← try_resolve (interner pres) (policy start);
  src_world ← try_resolve (interner pres) (world start);
  cycle_world ← try_resolve (interner pres) (world revisited);
  cycle_policy ← try_resolve (interner pres) (policy revisited);
  Some (SDivergent (mkDivergence (profile_id (profile pres)) (pres_context pres) (pres_id pres)
    (mkId policy_start) (mkId src_world) (Z.of_nat (visit_index previous))
    (Z.of_nat (at_step - visit_index previous)) (digests_of consumed) (mkId cycle_world) (mkId cycle_policy)
    DeclaredP1P6 Unknown), ks).

(** The loop's variables. *)
Record SatState : Type := mkSat {
  consumed : list CommittedStep;
  current : ExecConfig;
  cost_so_far : option Z;
  hidden : nat;
  visited : gmap ObservableState VisitRecord;
  sat_keyer : K
}.

Definition SatResult : Type := SaturatedStep * list CommittedStep * CostRecord * K.

(** One iteration: a result, or the next state; [None] is a panic. *)
Definition sat_iter (e : ExecConfig) (phase : Z) (budget : SaturationBudget) (s : SatState) :
    option (SatResult + SatState) :=
  let at_step := length (consumed s) in
  '(tick, ks) ← try_commit_tick keyer (regimes pres) (pres_adm pres) (interner pres) (current s)
                  (pres_context pres) (saturating_add phase (Z.of_nat at_step)) (sat_keyer s);
  match tick with
  | Err (KeyConflictE _) =>
    Some (inl (SUnknown (KeyConflictU at_step), consumed s, finish_cost (cost_so_far s), ks))
  | Err (CommitE error) =>
    Some (inl (SUnknown (CommitFailed at_step error), consumed s, finish_cost (cost_so_far s), ks))
  | Ok (QuiescentC, _, cost) =>
    let work := fold_cost (cost_so_far s) cost in
    certificate ← quiescence_certificate e (current s) (consumed s);
    Some (inl (SQuiescent certificate, consumed s, finish_cost work, ks))
  | Ok (Step observation successor, step, cost) =>
    let work := fold_cost (cost_so_far s) cost in
    step ← step;
    let consumed' := consumed s ++ [step] in
    match label (profile pres) step with
    | Err error => Some (inl (SUnknown (ProfileErrorU at_step error), consumed', finish_cost work, ks))
    | Ok Realizing => Some (inl (SRealizing observation successor (hidden s), consumed', finish_cost work, ks))
    | Ok Administrative =>
      let hidden' := S (hidden s) in
      let state := project successor in
      match visited s !! state with
      | Some previous =>
        '(outcome, ks) ← close_lasso e successor consumed' previous phase ks;
        Some (inl (outcome, consumed', finish_cost work, ks))
      | None =>
        if decide (max_administrative_states budget ≤ size (visited s)) then
          Some (inl (SUnknown (AdministrativeStateBudgetExhausted (size (visited s)) (max_administrative_states budget)),
            consumed', finish_cost work, ks)) else
        let visited' := <[state := record_visit successor (length consumed')]> (visited s) in
        if decide (max_hidden_steps budget < hidden') then
          Some (inl (SUnknown (AdministrativeBudgetExhausted hidden' (max_hidden_steps budget)),
            consumed', finish_cost work, ks)) else
        Some (inr (mkSat consumed' successor work hidden' visited' ks))
      end
    end
  end.

Definition sat_start (e : ExecConfig) (ks : K) : SatState :=
  mkSat [] e (Some 0%Z) 0 {[ project e := record_visit e 0 ]} ks.

Definition sat_step (e : ExecConfig) (phase : Z) (budget : SaturationBudget) (ks : K) : outcome SatResult :=
  iterate (sat_iter e phase budget) (S (max_hidden_steps budget)) (sat_start e ks).
End sat.

(** * Orbits *)

Section orbit.
Context `{Blake3} `{UnicodeNfc} (pres : PresentationV1) (κ : Z → Candidate → Key) (phase : Z).

(** The [n]-th committed step of a saturated step that starts at [phase]. *)
Definition sat_commits (n : nat) (e : ExecConfig) (s : CommittedStep) (e' : ExecConfig) : Prop :=
  commits (regimes pres) (pres_adm pres) (interner pres) (pres_context pres)
    (λ z, κ (saturating_add phase z)) n e s e'.

(** The configurations [es] the steps [l] lead through, the first one included. *)
Definition orbit (e : ExecConfig) (l : list CommittedStep) (es : list ExecConfig) : Prop :=
  length es = S (length l) ∧ es !! 0 = Some e ∧
  ∀ n s, l !! n = Some s → ∃ e1 e2, es !! n = Some e1 ∧ es !! S n = Some e2 ∧ sat_commits n e1 s e2.

Lemma orbit_start e : orbit e [] [e].
Proof. split_and!; [done|done|]. intros n s. by rewrite lookup_nil. Qed.

Lemma orbit_snoc e l es e1 s e2 :
  orbit e l es → last es = Some e1 → sat_commits (length l) e1 s e2 → orbit e (l ++ [s]) (es ++ [e2]).
Proof.
  intros (Hlen & Hstart & Hs) He1 Hc. rewrite last_lookup, Hlen in He1. cbn in He1. split_and!.
  - rewrite !length_app. cbn. lia.
  - by rewrite lookup_app_l by lia.
  - intros n s' Hn. destruct (decide (n < length l)) as [Hlt|Hge].
    + rewrite lookup_app_l in Hn by done. destruct (Hs _ _ Hn) as (a & b & Ha & Hb & ?).
      exists a, b. rewrite !lookup_app_l by lia. done.
    + assert (n = length l) as ->.
      { apply lookup_lt_Some in Hn. rewrite length_app in Hn. cbn in Hn. lia. }
      rewrite lookup_app_r, Nat.sub_diag in Hn by lia. injection Hn as <-.
      exists e1, e2. rewrite lookup_app_l by lia. split_and!; [done| |done].
      rewrite lookup_app_r, Hlen, Nat.sub_diag by lia. done.
Qed.

Lemma orbit_take e l es n : orbit e l es → n ≤ length l → orbit e (take n l) (take (S n) es).
Proof.
  intros (Hlen & Hstart & Hs) Hn. split_and!.
  - rewrite !length_take. lia.
  - by rewrite lookup_take_lt by lia.
  - intros m s [Hm Hlt]%lookup_take_Some. destruct (Hs _ _ Hm) as (a & b & ? & ? & ?).
    exists a, b. rewrite !lookup_take_lt by lia. done.
Qed.

Lemma orbit_lookup e l es n : orbit e l es → n ≤ length l → is_Some (es !! n).
Proof. intros (Hlen & _) Hn. apply lookup_lt_is_Some. lia. Qed.

(** A configuration of the orbit is where its steps so far lead. *)
Lemma orbit_trace e l es n e' :
  orbit e l es → es !! n = Some e' →
  trace (regimes pres) (pres_adm pres) (interner pres) (pres_context pres)
    (λ z, κ (saturating_add phase z)) 0 e (take n l) e'.
Proof.
  intros (Hlen & Hstart & Hs) He'.
  assert (∀ m, m ≤ n → ∃ e1, es !! (n - m) = Some e1 ∧
    trace (regimes pres) (pres_adm pres) (interner pres) (pres_context pres)
      (λ z, κ (saturating_add phase z)) (n - m) e1 (drop (n - m) (take n l)) e') as Hall.
  { apply lookup_lt_Some in He' as Hlt. induction m as [|m IH]; intros Hm.
    - exists e'. rewrite Nat.sub_0_r. split; [done|]. rewrite drop_ge by (rewrite length_take; lia). constructor.
    - destruct IH as (e2 & He2 & Ht); [lia|].
      destruct (lookup_lt_is_Some_2 l (n - S m)) as [s Es]; [lia|].
      destruct (Hs _ _ Es) as (a & b & Ha & Hb & Hc). exists a. split; [done|].
      replace (S (n - S m)) with (n - m) in Hb by lia. assert (b = e2) as -> by congruence.
      rewrite (drop_S _ s) by (rewrite lookup_take_lt by lia; done).
      econstructor; [exact Hc|]. by replace (S (n - S m)) with (n - m) by lia. }
  destruct (Hall n) as (e1 & He1 & Ht); [done|]. rewrite Nat.sub_diag in *. rewrite drop_0 in Ht. congruence.
Qed.

Lemma sat_commits_apply n e s e' : sat_commits n e s e' → policy e' = policy e.
Proof.
  intros (c & p & o & _ & Hs). apply try_commit_selected_Ok in Hs as (? & ? & ? & ? & _ & _ & _ & _ & _ & _ & Hs).
  injection Hs as _ ->. done.
Qed.

Lemma orbit_policy e l es n e' : orbit e l es → es !! n = Some e' → policy e' = policy e.
Proof.
  intros (Hlen & Hstart & Hs). revert e'. induction n as [|n IH]; intros e' He'; [congruence|].
  destruct (lookup_lt_is_Some_2 l n) as [s Es]; [apply lookup_lt_Some in He'; lia|].
  destruct (Hs _ _ Es) as (a & b & Ha & Hb & Hc). rewrite <-(IH a Ha).
  assert (b = e') as -> by congruence. by eapply sat_commits_apply.
Qed.

(** Every configuration but the start resolves. *)
Lemma orbit_resolves e l es n e' :
  orbit e l es → es !! n = Some e' → n ≠ 0 ∨ l ≠ [] → is_Some (try_resolve (interner pres) (world e')).
Proof.
  intros (Hlen & Hstart & Hs) He' Hn.
  assert (n = 0 ∧ l ≠ [] ∨ ∃ m, n = S m) as [[-> Hl]|[m ->]] by (destruct n; naive_solver).
  - destruct l as [|s l]; [done|]. destruct (Hs 0 s eq_refl) as (a & b & Ha & _ & Hc%commits_spec).
    assert (a = e') as -> by congruence. destruct Hc as [-> _]. by eexists.
  - destruct (lookup_lt_is_Some_2 l m) as [s Es]; [apply lookup_lt_Some in He'; lia|].
    destruct (Hs _ _ Es) as (a & b & _ & Hb & Hc%commits_spec).
    assert (b = e') as -> by congruence. destruct Hc as (_ & -> & _). by eexists.
Qed.

(** ** What a saturated step may return *)

Context (budget : SaturationBudget).

(** An administrative orbit without a repetition, within the budgets. *)
Record quiet (e : ExecConfig) (l : list CommittedStep) (es : list ExecConfig) (e' : ExecConfig) : Prop := {
  quiet_orbit : orbit e l es;
  quiet_last : last es = Some e';
  quiet_administrative : administrative_steps pres l;
  quiet_distinct : NoDup (project <$> es);
  quiet_hidden : length l ≤ max_hidden_steps budget;
  quiet_states : length es ≤ max 1 (max_administrative_states budget)
}.

(** The orbit returns to the observable state it was in at index [n]. *)
Record returns (e : ExecConfig) (l : list CommittedStep) (es : list ExecConfig) (n : nat)
    (e_then e_now : ExecConfig) : Prop := {
  returns_orbit : orbit e l es;
  returns_administrative : administrative_steps pres l;
  returns_before : n < length l;
  returns_then : es !! n = Some e_then;
  returns_now : es !! length l = Some e_now;
  returns_state : project e_then = project e_now
}.

(** The bounded check of P6 at a revisited state. *)
Definition keys_stable (C : gset Candidate) (m n : nat) : Prop :=
  ∀ c, c ∈ C → let k1 := κ (saturating_add phase (Z.of_nat m)) c in
               let k2 := κ (saturating_add phase (Z.of_nat n)) c in
  priority k1 = priority k2 ∧ tiebreak k1 = tiebreak k2.

Definition admissible (e : ExecConfig) : gset Candidate := cand (candidates <$> regimes pres) (pres_adm pres) e.

Inductive sat_returns (e : ExecConfig) : SaturatedStep → list CommittedStep → Prop :=
  | sat_realizing l es e1 s e2 :
    quiet e l es e1 → sat_commits (length l) e1 s e2 → label (profile pres) s = Ok Realizing →
    sat_returns e (SRealizing (observation s) e2 (length l)) (l ++ [s])
  | sat_quiescent l es e1 cert :
    quiet e l es e1 → admissible e1 = ∅ → quiescence_certificate pres e e1 l = Some cert →
    sat_returns e (SQuiescent cert) l
  | sat_divergent l es n e_then e_now src pol cyc :
    returns e l es n e_then e_now →
    (∀ a, declares (assumptions pres) a = true) →
    admissible e_then = admissible e_now → keys_stable (admissible e_now) n (length l) →
    try_resolve (interner pres) (world e) = Some src → try_resolve (interner pres) (policy e) = Some pol →
    try_resolve (interner pres) (world e_now) = Some cyc →
    sat_returns e (SDivergent (mkDivergence (profile_id (profile pres)) (pres_context pres) (pres_id pres)
      (mkId pol) (mkId src) (Z.of_nat n) (Z.of_nat (length l - n)) (digests_of l) (mkId cyc) (mkId pol)
      DeclaredP1P6 Unknown)) l
  | sat_undeclared l es n e_then e_now a :
    returns e l es n e_then e_now → declares (assumptions pres) a = false →
    sat_returns e (SUnknown (UndeclaredAssumptionU a)) l
  | sat_violated_p1 l es n e_then e_now :
    returns e l es n e_then e_now → admissible e_then ≠ admissible e_now →
    sat_returns e (SUnknown (AssumptionViolated HistoryIndependence (length l))) l
  | sat_violated_p6 l es n e_then e_now :
    returns e l es n e_then e_now → ¬ keys_stable (admissible e_now) n (length l) →
    sat_returns e (SUnknown (AssumptionViolated PhaseStableKeying (length l))) l
  | sat_hidden_exhausted l es e1 s e2 :
    quiet e l es e1 → sat_commits (length l) e1 s e2 → label (profile pres) s = Ok Administrative →
    project e2 ∉ project <$> es → length l = max_hidden_steps budget →
    sat_returns e (SUnknown (AdministrativeBudgetExhausted (S (length l)) (max_hidden_steps budget))) (l ++ [s])
  | sat_states_exhausted l es e1 s e2 :
    quiet e l es e1 → sat_commits (length l) e1 s e2 → label (profile pres) s = Ok Administrative →
    project e2 ∉ project <$> es → max_administrative_states budget ≤ length es →
    sat_returns e (SUnknown (AdministrativeStateBudgetExhausted (length es) (max_administrative_states budget))) (l ++ [s])
  | sat_profile_error l es e1 s e2 err :
    quiet e l es e1 → sat_commits (length l) e1 s e2 → label (profile pres) s = Err err →
    sat_returns e (SUnknown (ProfileErrorU (length l) err)) (l ++ [s])
  | sat_commit_failed l es e1 c p err :
    quiet e l es e1 →
    let k := κ (saturating_add phase (Z.of_nat (length l))) in
    selects (regimes pres) (pres_adm pres) e1 k c p →
    try_commit_selected (k c) c p (interner pres) e1 (pres_context pres) = Err err →
    sat_returns e (SUnknown (CommitFailed (length l) err)) l
  | sat_key_conflict l es e1 c1 c2 :
    quiet e l es e1 → c1 ∈ admissible e1 → c2 ∈ admissible e1 → c1 ≠ c2 →
    κ (saturating_add phase (Z.of_nat (length l))) c1 = κ (saturating_add phase (Z.of_nat (length l))) c2 →
    sat_returns e (SUnknown (KeyConflictU (length l))) l.
End orbit.

(** * The loop *)

Section loop.
Context `{Blake3} `{UnicodeNfc} {K : Type} (keyer : K → Candidate → Z → Key * K).
Context (pres : PresentationV1) (κ : Z → Candidate → Key) (phase : Z) (budget : SaturationBudget).
Hypothesis keyer_pure : ∀ ks c phase, (keyer ks c phase).1 = κ phase c.

#[local] Abbreviation quiet := (quiet pres κ phase budget).
#[local] Abbreviation orbit := (orbit pres κ phase).
#[local] Abbreviation returns := (returns pres κ phase).

(** The invariant: the steps so far are a quiet orbit, and the map records where. *)
Record sat_inv (e : ExecConfig) (es : list ExecConfig) (s : SatState (K := K)) : Prop := {
  inv_quiet : quiet e (consumed s) es (current s);
  inv_hidden : hidden s = length (consumed s);
  inv_visited : ∀ st r, visited s !! st = Some r ↔
    ∃ n e', es !! n = Some e' ∧ st = project e' ∧ r = record_visit pres e' n;
  inv_size : size (visited s) = length es;
  inv_cost : is_Some (cost_so_far s)
}.

Lemma sat_inv_start e ks : sat_inv e [e] (sat_start pres e ks).
Proof.
  split; unfold sat_start; cbn [consumed current hidden visited cost_so_far].
  - split; cbn; [apply orbit_start|done|constructor|apply NoDup_singleton|lia|lia].
  - done.
  - intros st r. rewrite lookup_singleton_Some. split.
    + intros [<- <-]. by exists 0, e.
    + intros ([|n] & e' & He & -> & ->); [|done]. by injection He as <-.
  - by rewrite map_size_singleton.
  - by eexists.
Qed.

Lemma sat_inv_fresh e es s st : sat_inv e es s → visited s !! st = None ↔ st ∉ project <$> es.
Proof.
  intros [_ _ Hv _ _]. rewrite list_elem_of_fmap, eq_None_not_Some. split.
  - intros Hn (e' & -> & [n Hin]%list_elem_of_lookup). apply Hn. eexists. apply Hv. eauto.
  - intros Hn [r (n & e' & Hin & -> & _)%Hv]. apply Hn. exists e'. split; [done|]. by eapply list_elem_of_lookup_2.
Qed.

Lemma sat_inv_step e es s st w e2 ks :
  sat_inv e es s → sat_commits pres κ phase (length (consumed s)) (current s) st e2 →
  label (profile pres) st = Ok Administrative → visited s !! project e2 = None →
  size (visited s) < max_administrative_states budget → S (hidden s) ≤ max_hidden_steps budget → is_Some w →
  sat_inv e (es ++ [e2])
    (mkSat (consumed s ++ [st]) e2 w (S (hidden s))
       (<[project e2 := record_visit pres e2 (length (consumed s ++ [st]))]> (visited s)) ks).
Proof.
  intros Hinv Hc Hl Hfresh Hsz Hh Hw. pose proof (proj1 (sat_inv_fresh _ _ _ _ Hinv) Hfresh) as Hnew.
  destruct Hinv as [[Ho Hlast Ha Hd Hq Hst] Hhid Hv Hsize _].
  assert (length es = S (length (consumed s))) as Hlen by apply Ho. split; cbn.
  - split.
    + by eapply orbit_snoc.
    + by rewrite last_snoc.
    + apply Forall_app. split; [done|]. by repeat constructor.
    + rewrite fmap_app, NoDup_app. split_and!; [done| |apply NoDup_singleton].
      intros x Hx ->%list_elem_of_singleton. done.
    + rewrite length_app. cbn. lia.
    + rewrite length_app. cbn. lia.
  - rewrite length_app. cbn. lia.
  - intros x r. rewrite length_app, Nat.add_1_r. split.
    + intros [[<- <-]|[Hne (n & e' & Hin & -> & ->)%Hv]]%lookup_insert_Some.
      * exists (length es), e2. rewrite lookup_app_r, Nat.sub_diag by lia. by rewrite Hlen.
      * exists n, e'. rewrite lookup_app_l; [done|]. by eapply lookup_lt_Some.
    + intros (n & e' & [Hin|[Hn [? Hin]%list_lookup_singleton_Some]]%lookup_app_Some & -> & ->).
      * rewrite lookup_insert_ne; [apply Hv; eauto|]. intros Heq. apply Hnew. rewrite Heq.
        apply list_elem_of_fmap. exists e'. split; [done|]. by eapply list_elem_of_lookup_2.
      * subst e'. replace n with (length es) by lia. rewrite Hlen. apply lookup_insert_eq.
  - rewrite map_size_insert_None, length_app by done. cbn. lia.
  - done.
Qed.

Lemma fold_cost_Some w n : is_Some w → is_Some (fold_cost w (Steps n)).
Proof. intros [x ->]. by eexists. Qed.

Lemma finish_cost_measured w : is_Some w → is_Some (work_units (finish_cost w)).
Proof. intros [x ->]. by eexists. Qed.

Lemma stable_keys_spec ks cs p1 p2 :
  (stable_keys keyer ks cs p1 p2).1 = true ↔
  ∀ c, c ∈ cs → priority (κ p1 c) = priority (κ p2 c) ∧ tiebreak (κ p1 c) = tiebreak (κ p2 c).
Proof.
  revert ks. induction cs as [|c cs IH]; intros ks; cbn [stable_keys].
  { split; [|done]. intros _ c Hc. by apply elem_of_nil in Hc. }
  pose proof (keyer_pure ks c p1) as H1. destruct (keyer ks c p1) as [k1 ks1]. cbn in H1. subst k1.
  pose proof (keyer_pure ks1 c p2) as H2. destruct (keyer ks1 c p2) as [k2 ks2]. cbn in H2. subst k2.
  setoid_rewrite elem_of_cons. case_decide as Hne.
  - cbn. split; [done|]. intros Hall. destruct Hne. destruct (Hall c) as [-> ->]; [by left|done].
  - rewrite IH. injection Hne as Hp Ht. naive_solver.
Qed.

(** The handles whose resolution may panic. *)
Definition unresolved (e : ExecConfig) : Prop :=
  try_resolve (interner pres) (world e) = None ∨ try_resolve (interner pres) (policy e) = None.

Lemma close_lasso_spec e l es n e_then e_now ks :
  returns e l es n e_then e_now →
  match close_lasso keyer pres e e_now l (record_visit pres e_then n) phase ks with
  | Some (out, _) => sat_returns pres κ phase budget e out l
  | None => unresolved e
  end.
Proof.
  intros Hr. unfold close_lasso.
  destruct (declares _ HistoryIndependence) eqn:H1; cbn [negb]; [|by eapply sat_undeclared].
  destruct (declares _ PhaseStableKeying) eqn:H6; cbn [negb]; [|by eapply sat_undeclared].
  rewrite enumerate_admissible_spec. unfold record_visit. rewrite H1, enumerate_admissible_spec.
  cbn [fst visit_candidates visit_index mbind option_bind]. fold (admissible pres e_then) (admissible pres e_now).
  case_decide as Hne; [by eapply sat_violated_p1|].
  pose proof (stable_keys_spec ks (set_iter (admissible pres e_now)) (saturating_add phase (Z.of_nat n))
    (saturating_add phase (Z.of_nat (length l)))) as Hk.
  setoid_rewrite elem_set_iter in Hk. fold (keys_stable κ phase (admissible pres e_now) n (length l)) in Hk.
  destruct (stable_keys _ _ _ _ _) as [[] ks']; cbn [negb fst] in *.
  2: { eapply sat_violated_p6; [done|]. intros Hs. by apply Hk in Hs. }
  assert (policy e_now = policy e) as Hpol by (by eapply orbit_policy; [apply Hr|apply (returns_now _ _ _ _ _ _ _ _ _ Hr)]).
  rewrite Hpol.
  destruct (try_resolve _ (policy e)) as [pol|] eqn:Ep; cbn; [|by right].
  destruct (try_resolve _ (world e)) as [src|] eqn:Ew; cbn; [|by left].
  assert (is_Some (try_resolve (interner pres) (world e_now))) as [cyc Ec].
  { eapply orbit_resolves; [apply Hr|apply (returns_now _ _ _ _ _ _ _ _ _ Hr)|].
    pose proof (returns_before _ _ _ _ _ _ _ _ _ Hr). lia. }
  rewrite Ec. cbn. eapply sat_divergent; try done; [by intros []|by apply Hk].
Qed.

Lemma returns_here e es s st e2 r :
  sat_inv e es s → sat_commits pres κ phase (length (consumed s)) (current s) st e2 →
  label (profile pres) st = Ok Administrative → visited s !! project e2 = Some r →
  ∃ n e_then, r = record_visit pres e_then n ∧ returns e (consumed s ++ [st]) (es ++ [e2]) n e_then e2.
Proof.
  intros [[Ho Hlast Ha Hd Hq Hst] _ Hv _ _] Hc Hl (n & e_then & Hn & Heq & ->)%Hv.
  assert (length es = S (length (consumed s))) as Hlen by apply Ho. apply lookup_lt_Some in Hn as Hlt.
  exists n, e_then. split; [done|]. split.
  - by eapply orbit_snoc.
  - apply Forall_app. split; [done|]. by repeat constructor.
  - rewrite length_app. cbn. lia.
  - by rewrite lookup_app_l.
  - rewrite length_app, lookup_app_r, Hlen by (cbn; lia). cbn. by rewrite Nat.add_1_r, Nat.sub_diag.
  - done.
Qed.

Lemma sat_iter_spec e es s :
  sat_inv e es s →
  match sat_iter keyer pres e phase budget s with
  | None => unresolved e
  | Some (inl (out, l, cost, _)) => sat_returns pres κ phase budget e out l ∧ is_Some (work_units cost)
  | Some (inr s') => (∃ es', sat_inv e es' s') ∧
      max_hidden_steps budget - hidden s' < max_hidden_steps budget - hidden s
  end.
Proof.
  intros Hinv. pose proof Hinv as [Hquiet Hhid Hv Hsize Hcost]. unfold sat_iter. cbv zeta.
  pose proof Hquiet as [Ho Hlast Ha Hd Hq Hst].
  assert (length es = S (length (consumed s))) as Hlen by apply Ho.
  set (P := saturating_add phase (Z.of_nat (length (consumed s)))).
  destruct (tick_cases keyer (regimes pres) (pres_adm pres) (interner pres) (current s) (pres_context pres)
    P (sat_keyer s) (κ P)) as [ks' [(k & c1 & c2 & E & H1 & H2 & Hne & Hk1 & Hk2)|(_ & [[HC E]|(c & p & Hs & E)])]];
    [intros; apply keyer_pure|rewrite E; cbn [mbind option_bind]..].
  - split; [|by apply finish_cost_measured]. eapply sat_key_conflict; [exact Hquiet|exact H1|exact H2|done|exact (eq_trans Hk1 (eq_sym Hk2))].
  - destruct (quiescence_certificate _ _ _ _) as [cert|] eqn:Eq.
    + cbn. split; [by eapply sat_quiescent|by apply finish_cost_measured, fold_cost_Some].
    + cbn. unfold quiescence_certificate in Eq.
      assert (policy (current s) = policy e) as Hpol.
      { rewrite last_lookup in Hlast. by eapply orbit_policy. }
      rewrite Hpol in Eq. unfold unresolved.
      destruct (try_resolve _ (world e)) eqn:Ew; [|by left]. destruct (try_resolve _ (policy e)); [|by right].
      cbn in Eq. destruct (try_resolve _ (world (current s))) eqn:Ec; [done|].
      destruct (consumed s) as [|x l] eqn:El.
      * destruct Ho as (_ & Hstart & _). rewrite last_lookup, Hlen in Hlast. cbn in Hlast. congruence.
      * rewrite last_lookup in Hlast. edestruct orbit_resolves as [? Er]; [exact Ho|exact Hlast|by right|congruence].
  - destruct (try_commit_selected _ _ _ _ _ _) as [[cm st]|err] eqn:Es.
    2: { split; [by eapply sat_commit_failed|by apply finish_cost_measured]. }
    apply try_commit_selected_Ok in Es as Es'.
    destruct Es' as (d & src & dst & w & _ & _ & _ & _ & _ & _ & ->).
    assert (sat_commits pres κ phase (length (consumed s)) (current s) st (apply (current s) c)) as Hc
      by (by eexists c, p, _).
    cbn [mbind option_bind].
    assert (is_Some (work_units (finish_cost (fold_cost (cost_so_far s)
      (Steps (scan_work (candidates <$> regimes pres) (current s))))))) as Hw by (by apply finish_cost_measured, fold_cost_Some).
    destruct (label (profile pres) st) as [[]|err] eqn:El.
    + destruct (visited s !! project (apply (current s) c)) as [r|] eqn:Er.
      * destruct (returns_here _ _ _ _ _ _ Hinv Hc El Er) as (n & e_then & -> & Hret).
        pose proof (close_lasso_spec _ _ _ _ _ _ ks' Hret) as Hcl.
        destruct (close_lasso _ _ _ _ _ _ _ _) as [[out ks'']|]; cbn; [by split|done].
      * apply (sat_inv_fresh _ _ _ _ Hinv) in Er as Hnew. rewrite Hsize.
        case_decide as Hstates; [split; [by eapply sat_states_exhausted|done]|].
        rewrite Hhid. case_decide as Hhidden.
        { assert (length (consumed s) = max_hidden_steps budget) by lia.
          split; [by eapply sat_hidden_exhausted|done]. }
        split; [|cbn; lia]. eexists. rewrite <-Hhid. apply sat_inv_step; try done; [lia|lia|by apply fold_cost_Some].
    + split; [|done]. rewrite Hhid. by eapply sat_realizing.
    + split; [|done]. by eapply sat_profile_error.
Qed.

Lemma sat_step_spec e ks :
  match sat_step keyer pres e phase budget ks with
  | OutOfFuel => False
  | Panicked => unresolved e
  | Done (out, l, cost, _) => sat_returns pres κ phase budget e out l ∧ is_Some (work_units cost)
  end.
Proof.
  unfold sat_step.
  destruct (iterate_spec (sat_iter keyer pres e phase budget) (λ s, ∃ es, sat_inv e es s)
    (λ s, max_hidden_steps budget - hidden s) (S (max_hidden_steps budget)) (sat_start pres e ks)) as (t & [es Ht] & Hr).
  - exists [e]. apply sat_inv_start.
  - cbn. lia.
  - intros s s' [es Hs] E. pose proof (sat_iter_spec e es s Hs) as Hi. by rewrite E in Hi.
  - pose proof (sat_iter_spec e es t Ht) as Hi. destruct Hr as [([[[out l] cost] k] & E & ->)|[E ->]]; by rewrite E in Hi.
Qed.
End loop.

(** * Properties *)

(** A saturated step is total and exact. With a keyer whose keys depend on the
    phase and the candidate, it never runs out of the administrative bound, and it
    panics at most when the start's world or policy handle was not interned. What it
    returns is what the unsaturated engine does: it consumes the orbit's steps, all
    of them administrative and through distinct observable states, up to the first
    realizing step (its observation is exported and the steps before it are counted
    as hidden), an empty frontier, a repeated observable state (certified divergent
    only when both hypotheses are declared and hold on the check, refused otherwise),
    an exhausted budget, or the tick's or the profile's error, and names which. The
    cost is always measured. *)
Theorem sat_step_exact `{Blake3} `{UnicodeNfc} {K} (keyer : K → Candidate → Z → Key * K)
    pres κ e phase budget ks :
  (∀ ks c phase, (keyer ks c phase).1 = κ phase c) →
  match sat_step keyer pres e phase budget ks with
  | OutOfFuel => False
  | Panicked => unresolved pres e
  | Done (out, l, cost, _) => sat_returns pres κ phase budget e out l ∧ is_Some (work_units cost)
  end.
Proof. intros Hκ. by apply sat_step_spec. Qed.

Definition demo_budget : SaturationBudget := budget_uniform 5.

(** The demonstration system hides its one administrative step and is quiescent. *)
Lemma sat_step_exact_witness :
  ∃ cert l, sat_returns (H := demo_hash) (H0 := λ s, s) (@demo_pres demo_hash) demo_key 0 demo_budget demo_exec
    (SQuiescent cert) l ∧ length l = 1.
Proof.
  pose proof (@sat_step_exact demo_hash (λ s, s) unit demo_keyer (@demo_pres demo_hash) demo_key demo_exec 0
    demo_budget tt (λ _ _ _, eq_refl)) as Hs.
  destruct (sat_step _ _ _ _ _ _) as [[[[out l] cost] ks]| |] eqn:E; [|vm_compute in E; discriminate E|destruct Hs].
  destruct Hs as [Hs _]. destruct out as [|cert| |]; try (vm_compute in E; discriminate E).
  exists cert, l. split; [exact Hs|]. vm_compute in E. injection E as _ <- _ _. reflexivity.
Defined.
