(* ===== verification/SatLasso.v ===== *)
(** What saturation promises (src/crates/soc-core/src/saturate/mod.rs and
    certificate.rs).

    Orbits are deterministic. [honest] says what the declared hypotheses must mean for
    a repeated observable state to be a loop; then [sat_step] decides whether the
    administrative steps go on forever. The certificates it mints are checked by
    SatCheck.v, and two instances show what the documented hypotheses and the
    divergence check leave open. *)
From S2P Require Import Prelude IntCodec Canon CanonLaws Calendar Outcome Witness Encoding Parsing.
From S2P Require Import Derivation Publication Settlement Journal Commit SatProfile SatCertificate SatCheck Saturation.

Lemma administrative_snoc pres l s :
  administrative_steps pres (l ++ [s]) ↔ administrative_steps pres l ∧ label (profile pres) s = Ok Administrative.
Proof. unfold administrative_steps. by rewrite Forall_app, Forall_singleton. Qed.

(** * Determinism *)

Section determinism.
Context `{Blake3} `{UnicodeNfc} (pres : PresentationV1) (κ : Z → Candidate → Key) (phase : Z).

Lemma selects_unique ps adm e k c1 p1 c2 p2 :
  selects ps adm e k c1 p1 → selects ps adm e k c2 p2 → c1 = c2 ∧ p1 = p2.
Proof.
  intros (H1 & Hl1 & n1 & Hn1 & Hc1 & Hb1) (H2 & Hl2 & n2 & Hn2 & Hc2 & Hb2).
  assert (c1 = c2) as <-.
  { destruct (Hl1 _ H2) as [?|Hlt1]; [done|]. destruct (Hl2 _ H1) as [?|Hlt2]; [done|].
    unfold lt_of in *. apply cmp_gt_lt in Hlt2. congruence. }
  split; [done|]. destruct (lt_eq_lt_dec n1 n2) as [[Hlt| ->]|Hlt]; [by edestruct Hb2|congruence|by edestruct Hb1].
Qed.

Lemma sat_commits_functional n e s1 e1 s2 e2 :
  sat_commits pres κ phase n e s1 e1 → sat_commits pres κ phase n e s2 e2 → s1 = s2 ∧ e1 = e2.
Proof.
  intros (c1 & p1 & o1 & Hs1 & Hc1) (c2 & p2 & o2 & Hs2 & Hc2).
  destruct (selects_unique _ _ _ _ _ _ _ _ Hs1 Hs2) as [-> ->]. rewrite Hc1 in Hc2. by injection Hc2.
Qed.

Lemma orbit_functional e l1 es1 l2 es2 :
  orbit pres κ phase e l1 es1 → orbit pres κ phase e l2 es2 → length l1 = length l2 → l1 = l2 ∧ es1 = es2.
Proof.
  intros (Hlen1 & Hst1 & H1) (Hlen2 & Hst2 & H2) Hl.
  assert (∀ n, n ≤ length l1 → es1 !! n = es2 !! n ∧ ∀ m, m < n → l1 !! m = l2 !! m) as Hall.
  { induction n as [|n IH]; intros Hn; [split; [congruence|lia]|]. destruct IH as [He Hm]; [lia|].
    destruct (lookup_lt_is_Some_2 l1 n) as [s1 E1]; [lia|]. destruct (lookup_lt_is_Some_2 l2 n) as [s2 E2]; [lia|].
    destruct (H1 _ _ E1) as (a1 & b1 & Ha1 & Hb1 & Hc1). destruct (H2 _ _ E2) as (a2 & b2 & Ha2 & Hb2 & Hc2).
    assert (a1 = a2) as -> by congruence. destruct (sat_commits_functional _ _ _ _ _ _ Hc1 Hc2) as [-> ->].
    split; [congruence|]. intros m Hmn. destruct (decide (m = n)) as [->|]; [congruence|apply Hm; lia]. }
  split.
  - apply list_eq. intros m. destruct (decide (m < length l1)).
    + by apply (proj2 (Hall (length l1) (le_n _))).
    + rewrite !lookup_ge_None_2 by lia. done.
  - apply list_eq. intros m. destruct (decide (m ≤ length l1)) as [Hm|]; [by apply Hall|].
    rewrite !lookup_ge_None_2 by lia. done.
Qed.

(** A longer orbit extends a shorter one. *)
Lemma orbit_prefix e l1 es1 l2 es2 :
  orbit pres κ phase e l1 es1 → orbit pres κ phase e l2 es2 → length l1 ≤ length l2 →
  l1 = take (length l1) l2 ∧ es1 = take (S (length l1)) es2.
Proof.
  intros Ho1 Ho2 Hl. apply (orbit_functional e); [done|by apply orbit_take|]. rewrite length_take. lia.
Qed.

Definition administratively_diverges (e : ExecConfig) : Prop :=
  ∀ m, ∃ l es, orbit pres κ phase e l es ∧ length l = m ∧ administrative_steps pres l.

(** Nothing but its administrative steps leaves a diverging configuration. *)
Lemma diverges_only e l es :
  administratively_diverges e → orbit pres κ phase e l es → administrative_steps pres l.
Proof.
  intros Hd Ho. destruct (Hd (length l)) as (l' & es' & Ho' & Hl & Ha).
  by destruct (orbit_functional _ _ _ _ _ Ho Ho') as [-> _].
Qed.

Lemma diverges_next e l es e1 :
  administratively_diverges e → orbit pres κ phase e l es → last es = Some e1 →
  ∃ s e2, sat_commits pres κ phase (length l) e1 s e2 ∧ label (profile pres) s = Ok Administrative.
Proof.
  intros Hd Ho Hlast. destruct (Hd (S (length l))) as (l' & es' & Ho' & Hl & Ha).
  destruct (orbit_prefix _ _ _ _ _ Ho Ho') as [Hpre Hes]; [lia|].
  destruct (lookup_lt_is_Some_2 l' (length l)) as [s Es]; [lia|].
  destruct Ho' as (Hlen' & _ & Hs). destruct (Hs _ _ Es) as (a & b & Ha1 & _ & Hc). exists s, b. split.
  - destruct Ho as (Hlen & _). rewrite last_lookup, Hlen in Hlast. cbn in Hlast.
    rewrite Hes, lookup_take_lt in Hlast by lia. congruence.
  - eapply Forall_lookup_1 in Ha; [exact Ha|exact Es].
Qed.
End determinism.

(** * Honest presentations *)

(** What the two hypotheses have to mean for a repetition to be a loop: candidates,
    governance and decompositions read the observable state only, the keyer keys at
    the phase it is given and otherwise by the candidate, and labels ignore keys. *)
Record honest (pres : PresentationV1) (κ : Z → Candidate → Key) : Prop := {
  honest_candidates : ∀ p e1 e2, p ∈ regimes pres → project e1 = project e2 → candidates p e1 = candidates p e2;
  honest_adm : ∀ c e1 e2, project e1 = project e2 → pres_adm pres e1 c = pres_adm pres e2 c;
  honest_decompose : ∀ p c e1 e2, p ∈ regimes pres → project e1 = project e2 →
    try_decompose p e1 c = try_decompose p e2 c;
  honest_phase : ∀ ph c, phase (κ ph c) = ph;
  honest_key : ∀ ph1 ph2 c, priority (κ ph1 c) = priority (κ ph2 c) ∧ tiebreak (κ ph1 c) = tiebreak (κ ph2 c);
  honest_label : ∀ k s, label (profile pres) (mkCommitted k (observation s) (decomposition s) (step_src s)
    (step_dst s) (step_witness s)) = label (profile pres) s
}.

Section honest.
Context `{Blake3} `{UnicodeNfc} (pres : PresentationV1) (κ : Z → Candidate → Key) (ph : Z).
Hypothesis Hh : honest pres κ.

Lemma honest_admissible e1 e2 : project e1 = project e2 → admissible pres e1 = admissible pres e2.
Proof.
  intros Heq. apply set_eq. intros c. unfold admissible. rewrite !cand_elem.
  rewrite (honest_adm _ _ Hh c e1 e2) by done.
  assert (∀ f : WitnessProvider, f ∈ candidates <$> regimes pres → f e1 = f e2) as Hf.
  { intros f (p & -> & Hp)%list_elem_of_fmap. by apply (honest_candidates _ _ Hh). }
  split; intros [(f & Hin & Hc) ?]; (split; [exists f; split; [done|]|done]);
    [rewrite <-(Hf f Hin)|rewrite (Hf f Hin)]; done.
Qed.

Lemma honest_order ph1 ph2 c c' : lt_of (κ ph1 c) (κ ph1 c') → lt_of (κ ph2 c) (κ ph2 c').
Proof.
  pose proof (honest_phase _ _ Hh) as Hp. pose proof (honest_key _ _ Hh) as Hk.
  unfold lt_of, cmp, Ord_Key, cmp_on, key_fields, cmp, pair_compare.
  rewrite !Hp. destruct (Hk ph1 ph2 c) as [<- <-], (Hk ph1 ph2 c') as [<- <-].
  assert (∀ (a : Z) (x y : Z * Digest), Ord_pair (a, x) (a, y) = cmp x y) as Hpair.
  { intros a x y. unfold Ord_pair, pair_compare. cbn [fst snd]. by rewrite cmp_refl. }
  by rewrite !Hpair.
Qed.

(** Equal observable states commit alike, at any two phases. *)
Lemma honest_commits n m e1 e1' s e2 :
  project e1 = project e1' → sat_commits pres κ ph n e1 s e2 →
  ∃ s' e2', sat_commits pres κ ph m e1' s' e2' ∧ project e2 = project e2' ∧
    label (profile pres) s' = label (profile pres) s.
Proof.
  intros Heq (c & p & o & (Hc & Hleast & i & Hi & Hin & Hfirst) & Hs).
  assert (p ∈ regimes pres) as Hp by (by eapply list_elem_of_lookup_2).
  apply try_commit_selected_Ok in Hs as (d & src & dst & w & Hd & Hsrc & Hdst & Hw & Hv & -> & [= -> ->]).
  pose proof (honest_admissible _ _ Heq) as Hadm. unfold admissible in Hadm.
  set (k := κ (saturating_add ph (Z.of_nat m)) c).
  exists (committed_step k d (mkId src) (mkId dst) w (pres_context pres)), (apply e1' c). split_and!.
  - exists c, p, (observation (committed_step k d (mkId src) (mkId dst) w (pres_context pres))). split; [split_and!|].
    + by rewrite <-Hadm.
    + rewrite <-Hadm. intros c' Hc'. destruct (Hleast c' Hc') as [->|Hlt]; [by left|right].
      by eapply honest_order.
    + exists i. split_and!; [done|by rewrite <-(honest_candidates _ _ Hh p e1 e1')|].
      intros j q Hj Hq. rewrite <-(honest_candidates _ _ Hh q e1 e1'); [by eapply Hfirst|by eapply list_elem_of_lookup_2|done].
    + apply try_commit_selected_Ok. exists d, src, dst, w.
      rewrite <-(honest_decompose _ _ Hh p c e1 e1') by done. injection Heq as Hwd _. by rewrite <-Hwd.
  - unfold project, apply. cbn. by injection Heq as _ ->.
  - exact (honest_label _ _ Hh k (committed_step (κ (saturating_add ph (Z.of_nat n)) c) d (mkId src) (mkId dst) w (pres_context pres))).
Qed.

(** A closed administrative lasso repeats forever: there are administrative orbits of
    every length, and they stay in the states before the repetition. *)
Lemma returns_repeats e l es n e_then e_now m :
  returns pres κ ph e l es n e_then e_now →
  ∃ l' es' e' j ej, orbit pres κ ph e l' es' ∧ length l' = m ∧ administrative_steps pres l' ∧
    last es' = Some e' ∧ j < length l ∧ es !! j = Some ej ∧ project ej = project e'.
Proof.
  intros [Ho Ha Hn Hthen Hnow Hst]. pose proof Ho as (Hlen & Hstart & Hs).
  induction m as [|m (l' & es' & e' & j & ej & Ho' & Hl' & Ha' & Hlast & Hj & Hej & Hpj)].
  { exists [], [e], e, 0, e. split_and!; [apply orbit_start|done|constructor|done|lia|done|done]. }
  destruct (lookup_lt_is_Some_2 l j) as [s Es]; [done|].
  destruct (Hs _ _ Es) as (a & b & Ha1 & Hb & Hc). assert (a = ej) as -> by congruence.
  destruct (honest_commits j (length l') ej e' s b Hpj Hc) as (s' & e2 & Hc' & Hp2 & Hlab).
  exists (l' ++ [s']), (es' ++ [e2]), e2.
  assert (∃ j' ej', j' < length l ∧ es !! j' = Some ej' ∧ project ej' = project e2) as (j' & ej' & ? & ? & ?).
  { destruct (decide (S j < length l)) as [Hlt|Hge]; [by exists (S j), b|].
    assert (S j = length l) as HSj by lia. exists n, e_then. rewrite HSj in Hb. split_and!; [done..|congruence]. }
  exists j', ej'. split_and!; try done.
  - by eapply orbit_snoc.
  - rewrite length_app, Hl'. cbn. lia.
  - apply administrative_snoc. split; [done|]. rewrite Hlab. eapply Forall_lookup_1 in Ha; [exact Ha|exact Es].
  - by rewrite last_snoc.
Qed.

Lemma returns_diverges e l es n e_then e_now :
  returns pres κ ph e l es n e_then e_now → administratively_diverges pres κ ph e.
Proof. intros Hr m. destruct (returns_repeats _ _ _ _ _ _ m Hr) as (l' & es' & _ & _ & _ & ? & ? & ? & _). by exists l', es'. Qed.

Lemma returns_states e l es n e_then e_now l' es' e' :
  returns pres κ ph e l es n e_then e_now → orbit pres κ ph e l' es' → last es' = Some e' →
  ∃ j ej, j < length l ∧ es !! j = Some ej ∧ project ej = project e'.
Proof.
  intros Hr Ho' Hlast'. destruct (returns_repeats _ _ _ _ _ _ (length l') Hr) as (l2 & es2 & e2 & j & ej & Ho2 & Hl2 & _ & Hlast2 & ?).
  destruct (orbit_functional _ _ _ _ _ _ _ _ Ho2 Ho' Hl2) as [-> ->]. assert (e2 = e') as -> by congruence. by exists j, ej.
Qed.
End honest.

(** * Counting states *)

Lemma nodup_size {A} `{Countable A} (l : list A) (S : gset A) :
  NoDup l → (∀ x, x ∈ l → x ∈ S) → length l ≤ size S.
Proof.
  intros Hd Hin. rewrite <-(size_list_to_set (C := gset A) l Hd). apply subseteq_size.
  intros x Hx. apply Hin. by apply elem_of_list_to_set in Hx.
Qed.

Section covers.
Context `{Blake3} `{UnicodeNfc} (pres : PresentationV1) (κ : Z → Candidate → Key) (ph : Z).

(** [S] holds every observable state the administrative steps can reach. *)
Definition covers (e : ExecConfig) (S : gset ObservableState) : Prop :=
  ∀ l es e', orbit pres κ ph e l es → administrative_steps pres l → last es = Some e' → project e' ∈ S.

Lemma covers_orbit e S l es x :
  covers e S → orbit pres κ ph e l es → administrative_steps pres l → x ∈ project <$> es → x ∈ S.
Proof.
  intros Hc Ho Ha (e' & -> & [n Hn]%list_elem_of_lookup)%list_elem_of_fmap.
  assert (n ≤ length l) as Hle by (destruct Ho as (Hlen & _); apply lookup_lt_Some in Hn; lia).
  apply (Hc (take n l) (take (Datatypes.S n) es)); [by apply orbit_take|by apply Forall_take|].
  rewrite last_lookup, length_take. destruct Ho as (Hlen & _). rewrite Nat.min_l by lia. cbn.
  by rewrite lookup_take_lt by lia.
Qed.

(** A fresh state after a quiet orbit needs room in [S]. *)
Lemma covers_fresh budget e S l es e1 s e2 :
  covers e S → quiet pres κ ph budget e l es e1 → sat_commits pres κ ph (length l) e1 s e2 →
  label (profile pres) s = Ok Administrative → project e2 ∉ project <$> es → length l + 2 ≤ size S.
Proof.
  intros Hc [Ho Hlast Ha Hd _ _] Hs Hl Hf.
  assert (length es = Datatypes.S (length l)) as Hlen by apply Ho.
  replace (length l + 2) with (length (project <$> (es ++ [e2]))) by (rewrite length_fmap, length_app; cbn; lia).
  apply nodup_size.
  - rewrite fmap_app. apply NoDup_app. split_and!; [done| |apply NoDup_singleton].
    intros x Hx ->%list_elem_of_singleton. done.
  - intros x Hx. eapply (covers_orbit e S (l ++ [s])); [done|by eapply orbit_snoc| |exact Hx].
    by apply administrative_snoc.
Qed.

Lemma orbit_path e l es e1 src dst :
  orbit pres κ ph e l es → last es = Some e1 →
  try_resolve (interner pres) (world e) = Some src → try_resolve (interner pres) (world e1) = Some dst →
  path (mkId src) l (mkId dst).
Proof.
  intros Ho Hlast Hsrc Hdst. pose proof Ho as (Hlen & Hst & Hs).
  rewrite last_lookup, Hlen in Hlast. cbn in Hlast.
  enough (∀ n en d, n ≤ length l → es !! n = Some en → try_resolve (interner pres) (world en) = Some d →
    path (mkId src) (take n l) (mkId d)) as Hall.
  { rewrite <-(take_ge l (length l)) by done. by eapply Hall. }
  induction n as [|n IH]; intros en d Hn Hen Hd; [cbn; congruence|].
  destruct (lookup_lt_is_Some_2 l n) as [s Es]; [lia|]. destruct (Hs _ _ Es) as (a & b & Ha & Hb & Hc%commits_spec).
  rewrite (take_S_r _ _ _ Es). apply path_app. destruct Hc as (Hc1 & Hc2 & _). exists (step_src s). split.
  - specialize (IH a (digest (step_src s))). destruct (step_src s). apply IH; [lia|done|done].
  - cbn. split; [done|]. assert (b = en) as -> by congruence. rewrite Hd in Hc2. injection Hc2 as ->. by destruct (step_dst s).
Qed.
End covers.

Lemma returns_paths `{Blake3} `{UnicodeNfc} pres κ ph e l es n e_then e_now src cyc :
  returns pres κ ph e l es n e_then e_now →
  try_resolve (interner pres) (world e) = Some src → try_resolve (interner pres) (world e_now) = Some cyc →
  path (mkId src) (take n l) (mkId cyc) ∧ path (mkId cyc) (drop n l) (mkId cyc).
Proof.
  intros [Ho _ Hn Hthen Hnow Hst] Hsrc Hcyc. injection Hst as Hw _.
  assert (path (mkId src) (take n l) (mkId cyc)) as H1.
  { eapply (orbit_path pres κ ph e (take n l) (take (S n) es) e_then); [apply orbit_take; [done|lia]| |done|by rewrite Hw].
    rewrite last_lookup, length_take. destruct Ho as (Hlen & _). rewrite Nat.min_l by lia. cbn.
    by rewrite lookup_take_lt by lia. }
  split; [done|].
  assert (path (mkId src) l (mkId cyc)) as H2.
  { eapply (orbit_path pres κ ph e l es e_now); [done| |done..].
    rewrite last_lookup. destruct Ho as (Hlen & _). by rewrite Hlen. }
  rewrite <-(take_drop n l) in H2. apply path_app in H2 as (mid & Hm & H2).
  by rewrite (path_functional _ _ _ _ H1 Hm) in H2 |- *.
Qed.

(** * Demonstration systems *)

(** Administrative steps between worlds 0 and 1, forever. *)
Definition spin_provider : SettlementWitnessProvider :=
  mkProvider (λ e, if decide (world e = mkHandle 0) then [mkCandidate (mkHandle 5) (mkHandle 1)]
                   else if decide (world e = mkHandle 1) then [mkCandidate (mkHandle 5) (mkHandle 0)] else [])
    (λ _ _, Ok demo_chain).
Definition with_regimes (ps : list SettlementWitnessProvider) `{Blake3} : PresentationV1 :=
  mkPresentation (pres_id demo_pres) ps (regime_set demo_pres) (pres_adm demo_pres) (adm_id demo_pres)
    (profile demo_pres) (interner demo_pres) (pres_context demo_pres) (assumptions demo_pres).
Definition spin_pres `{Blake3} : PresentationV1 := with_regimes [spin_provider].
Definition spin_states : gset ObservableState :=
  {[ mkObservable (mkHandle 0) (mkHandle 0); mkObservable (mkHandle 1) (mkHandle 0) ]}.

(** A self-loop (witness 5) and a realizing step (witness 6), and keys that prefer
    the first at phase 0 only: their priority and tie-break ignore the phase. *)
Definition fickle_provider : SettlementWitnessProvider :=
  mkProvider (λ e, if decide (world e = mkHandle 0)
                   then [mkCandidate (mkHandle 5) (mkHandle 0); mkCandidate (mkHandle 6) (mkHandle 1)] else [])
    (λ _ c, Ok (if decide (c_witness c = mkHandle 5) then demo_chain
                else mkDecomposition [demo_id 7] [demo_id 2; demo_id 3] Recorded)).
Definition fickle_pres `{Blake3} : PresentationV1 := with_regimes [fickle_provider].
Definition fickle_key (ph : Z) (c : Candidate) : Key :=
  mkKey (if decide (ph = 0)%Z then (if decide (c_witness c = mkHandle 5) then 0 else 1)
         else (if decide (c_witness c = mkHandle 5) then 1 else 0)) 0 (tiebreak (demo_key ph c)).
Definition pure_keyer (κ : Z → Candidate → Key) (ks : unit) (c : Candidate) (ph : Z) : Key * unit := (κ ph c, ks).

(** P1 and P6 as [AssumptionId] documents them. *)
Definition documented_hypotheses (pres : PresentationV1) (κ : Z → Candidate → Key) : Prop :=
  (∀ p e1 e2, p ∈ regimes pres → project e1 = project e2 → candidates p e1 = candidates p e2) ∧
  (∀ c e1 e2, project e1 = project e2 → pres_adm pres e1 c = pres_adm pres e2 c) ∧
  (∀ ph1 ph2 c, priority (κ ph1 c) = priority (κ ph2 c) ∧ tiebreak (κ ph1 c) = tiebreak (κ ph2 c)).

Lemma spin_honest `{Blake3} : honest spin_pres demo_key.
Proof.
  split; try done.
  - intros p e1 e2 Hp%list_elem_of_singleton Heq. subst p. injection Heq as Hw _. cbn. by rewrite Hw.
  - by intros p c e1 e2 ->%list_elem_of_singleton _.
Qed.

Section spin.
Context `{Blake3} `{UnicodeNfc}.

Lemma spin_commits n e s e' :
  project e ∈ spin_states → sat_commits spin_pres demo_key 0 n e s e' → project e' ∈ spin_states.
Proof.
  intros He (c & p & o & (Hc & _) & Hs). apply try_commit_selected_Ok in Hs as (d & src & dst & w & _ & _ & _ & _ & _ & _ & [= _ ->]).
  apply cand_elem in Hc as [(f & Hf & Hc) _]. cbn in Hf. apply list_elem_of_singleton in Hf as ->.
  destruct e as [wd po hi]. unfold spin_states, project in *. cbn in *. rewrite elem_of_union, !elem_of_singleton in *.
  case_decide; [apply list_elem_of_singleton in Hc as ->|case_decide; [apply list_elem_of_singleton in Hc as ->|by apply elem_of_nil in Hc]];
    cbn; destruct He as [[= _ ->]|[= _ ->]]; auto.
Qed.

Lemma spin_covers : covers spin_pres demo_key 0 demo_exec spin_states.
Proof.
  intros l es e' Ho _ Hlast. rewrite last_lookup in Hlast. pose proof Ho as (Hlen & Hst & Hs).
  enough (∀ n en, es !! n = Some en → project en ∈ spin_states) as Hall by by eapply Hall.
  clear Hlast. induction n as [|n IH]; intros en Hen.
  - rewrite Hst in Hen. injection Hen as <-. unfold spin_states. rewrite elem_of_union, elem_of_singleton. by left.
  - destruct (lookup_lt_is_Some_2 l n) as [s Es]; [apply lookup_lt_Some in Hen; lia|].
    destruct (Hs _ _ Es) as (a & b & Ha & Hb & Hc). assert (b = en) as -> by congruence.
    eapply spin_commits; [by apply (IH a)|exact Hc].
Qed.

Lemma spin_unique ph e c1 c2 :
  c1 ∈ admissible spin_pres e → c2 ∈ admissible spin_pres e → demo_key ph c1 = demo_key ph c2 → c1 = c2.
Proof. intros _ _ [= ? ?]. destruct c1 as [[] []], c2 as [[] []]. cbn in *. congruence. Qed.
End spin.

(** * Properties *)

(** A divergence certificate is a claim about forever. When the hypotheses mean
    what the engine needs of them, a saturated step that certifies divergence starts
    an administrative orbit of every length, and no orbit from there ever contains a
    step that is not administrative: nothing is observed, however long one waits. *)
Theorem divergence_sound `{Blake3} `{UnicodeNfc} {K} (keyer : K → Candidate → Z → Key * K)
    pres κ e phase budget ks cert l cost ks' :
  (∀ ks c phase, (keyer ks c phase).1 = κ phase c) → honest pres κ →
  sat_step keyer pres e phase budget ks = Done (SDivergent cert, l, cost, ks') →
  administratively_diverges pres κ phase e ∧
  ∀ l' es, orbit pres κ phase e l' es → administrative_steps pres l'.
Proof.
  intros Hκ Hh E. pose proof (sat_step_spec keyer pres κ phase budget Hκ e ks) as Hs. rewrite E in Hs.
  destruct Hs as [Hs _]. inversion Hs as [| |? ? ? ? ? ? ? ? Hr| | | | | | | |]; subst.
  assert (administratively_diverges pres κ phase e) as Hd by (by eapply returns_diverges).
  split; [done|]. intros l' es'. by apply diverges_only.
Qed.

Lemma divergence_sound_witness :
  administratively_diverges (H := demo_hash) (H0 := λ s, s) (@spin_pres demo_hash) demo_key 0 demo_exec.
Proof.
  destruct (@sat_step demo_hash (λ s, s) unit demo_keyer (@spin_pres demo_hash) demo_exec 0 demo_budget tt)
    as [[[[out l] cost] ks]| |] eqn:E; [|vm_compute in E; discriminate E..].
  destruct out as [|? |cert|]; try (vm_compute in E; discriminate E).
  exact (proj1 (@divergence_sound demo_hash (λ s, s) unit demo_keyer (@spin_pres demo_hash) demo_key demo_exec 0
    demo_budget tt cert l cost ks (λ _ _ _, eq_refl) (@spin_honest demo_hash) E)).
Defined.

(** C22: saturation decides. Let the presentation be honest and declare both
    hypotheses, keys be unique, the start's handles be interned, and let both
    administrative budgets allow as many observable states as the administrative
    steps can reach. Then a saturated step returns, its budgets never run out and no
    hypothesis is refused: it exports an observation, certifies quiescence or
    divergence, or names the profile's or the commit boundary's error; and it
    certifies divergence if and only if the administrative steps never end. *)
Theorem sat_step_decides `{Blake3} `{UnicodeNfc} {K} (keyer : K → Candidate → Z → Key * K)
    pres κ e phase budget ks S :
  (∀ ks c phase, (keyer ks c phase).1 = κ phase c) → honest pres κ →
  (∀ a, declares (assumptions pres) a = true) →
  (∀ ph e c1 c2, c1 ∈ admissible pres e → c2 ∈ admissible pres e → κ ph c1 = κ ph c2 → c1 = c2) →
  is_Some (try_resolve (interner pres) (world e)) → is_Some (try_resolve (interner pres) (policy e)) →
  covers pres κ phase e S →
  size S ≤ max_administrative_states budget → size S ≤ Datatypes.S (max_hidden_steps budget) →
  ∃ out l cost ks', sat_step keyer pres e phase budget ks = Done (out, l, cost, ks') ∧
    match out with
    | SRealizing _ _ _ | SQuiescent _ | SUnknown (ProfileErrorU _ _) | SUnknown (CommitFailed _ _) =>
      ¬ administratively_diverges pres κ phase e
    | SDivergent _ => administratively_diverges pres κ phase e
    | SUnknown _ => False
    end.
Proof.
  intros Hκ Hh Hd Hu [w Hw] [po Hpo] HS Hst Hhid.
  pose proof (sat_step_spec keyer pres κ phase budget Hκ e ks) as Hs.
  destruct (sat_step _ _ _ _ _ _) as [[[[out l] cost] ks']| |]; [|destruct Hs; congruence|done].
  exists out, l, cost, ks'. split; [done|]. destruct Hs as [Hs _].
  destruct Hs as [l es e1 s e2 Hq Hc Hl|l es e1 cert Hq Hadm _|l es n e_then e_now src pol cyc Hr|l es n e_then e_now a Hr Ha
    |l es n e_then e_now Hr Hne|l es n e_then e_now Hr Hk|l es e1 s e2 Hq Hc Hl Hf Hlen|l es e1 s e2 Hq Hc Hl Hf Hlen
    |l es e1 s e2 err Hq Hc Hl|l es e1 c p err Hq k Hsel Herr|l es e1 c1 c2 Hq H1 H2 Hne Hk].
  - intros Hdiv. assert (administrative_steps pres (l ++ [s])) as [_ Hs]%administrative_snoc.
    { eapply diverges_only; [done|]. eapply orbit_snoc; [apply Hq|apply Hq|done]. }
    congruence.
  - intros Hdiv. destruct (diverges_next _ _ _ _ _ _ _ Hdiv (quiet_orbit _ _ _ _ _ _ _ _ Hq) (quiet_last _ _ _ _ _ _ _ _ Hq))
      as (s & e2 & (c & p & o & (Hc & _) & _) & _). unfold admissible in Hadm. set_solver.
  - by eapply returns_diverges.
  - by rewrite Hd in Ha.
  - apply Hne. apply (honest_admissible _ _ Hh). apply Hr.
  - apply Hk. intros c _. apply (honest_key _ _ Hh).
  - pose proof (covers_fresh _ _ _ _ _ _ _ _ _ _ _ HS Hq Hc Hl Hf). lia.
  - pose proof (covers_fresh _ _ _ _ _ _ _ _ _ _ _ HS Hq Hc Hl Hf).
    assert (length es = Datatypes.S (length l)) by apply Hq. lia.
  - intros Hdiv. assert (administrative_steps pres (l ++ [s])) as [_ Hs]%administrative_snoc.
    { eapply diverges_only; [done|]. eapply orbit_snoc; [apply Hq|apply Hq|done]. }
    congruence.
  - intros Hdiv. destruct (diverges_next _ _ _ _ _ _ _ Hdiv (quiet_orbit _ _ _ _ _ _ _ _ Hq) (quiet_last _ _ _ _ _ _ _ _ Hq))
      as (s & e2 & (c' & p' & o & Hsel' & Hok) & _).
    destruct (selects_unique _ _ _ _ _ _ _ _ Hsel Hsel') as [-> ->]. unfold k in Herr. congruence.
  - apply Hne. by eapply Hu.
Qed.

Lemma sat_step_decides_witness :
  ∃ cert l cost ks', @sat_step demo_hash (λ s, s) unit demo_keyer (@spin_pres demo_hash) demo_exec 0 demo_budget tt =
    Done (SDivergent cert, l, cost, ks').
Proof.
  destruct (@sat_step_decides demo_hash (λ s, s) unit demo_keyer (@spin_pres demo_hash) demo_key demo_exec 0
    demo_budget tt spin_states (λ _ _ _, eq_refl) spin_honest) as (out & l & cost & ks' & E & Hout).
  - by intros [].
  - apply @spin_unique.
  - by eexists.
  - by eexists.
  - apply @spin_covers.
  - vm_compute. lia.
  - vm_compute. lia.
  - clear Hout. destruct out as [| |cert|]; try (vm_compute in E; discriminate E). by exists cert, l, cost, ks'.
Defined.

(** What the engine mints, the checkers accept, with one exception. The
    certificate of a step that certifies divergence is always verified against the
    steps it consumed. The certificate of a quiescent step is verified against these
    steps and the configuration they lead to precisely when the presentation has a
    regime: with none, the engine certifies a quiescence that the check refuses as
    not scanned. *)
Theorem engine_certificates_verify `{Blake3} `{UnicodeNfc} {K} (keyer : K → Candidate → Z → Key * K)
    pres κ e phase budget ks out l cost ks' :
  (∀ ks c phase, (keyer ks c phase).1 = κ phase c) →
  sat_step keyer pres e phase budget ks = Done (out, l, cost, ks') →
  match out with
  | SQuiescent cert => quiescence_typed cert →
      ∃ es e1, quiet pres κ phase budget e l es e1 ∧
        (check_quiescence_certificate cert pres e1 l = Verified (quiescence_certificate_id cert) ↔ regimes pres ≠ [])
  | SDivergent cert => divergence_typed cert → u64_ok (Z.of_nat (length l)) →
      check_divergence_certificate cert pres l = Some (Verified (divergence_certificate_id cert))
  | _ => True
  end.
Proof.
  intros Hκ E. pose proof (sat_step_spec keyer pres κ phase budget Hκ e ks) as Hs. rewrite E in Hs.
  destruct Hs as [Hs _]. destruct Hs as [|l es e1 cert Hq Hadm Hcert|l es n e_then e_now src pol cyc Hr Hd Hp1 Hp6 Hsrc Hpol Hcyc
    | | | | | | | |]; try done; intros Ht.
  - exists es, e1. split; [done|]. rewrite check_quiescence_claim by done. split; [by intros [_ []]|intros Hne; split; [done|]].
    unfold quiescence_certificate in Hcert.
    destruct (try_resolve _ (world e)) as [src|] eqn:Ew; [|done]. destruct (try_resolve _ (world e1)) as [dst|] eqn:Ed; [|done].
    cbn in Hcert. destruct (try_resolve _ (policy e1)) as [pol|] eqn:Ep; [|done]. injection Hcert as <-.
    split; try done; [apply Hq|].
    destruct Hq as [Ho Hlast _ _ _ _]. by eapply orbit_path.
  - intros Hu. destruct (check_divergence_claim _ pres l Ht) as (r & -> & Hr'). f_equal. apply Hr'. split; [done|].
    destruct (returns_paths _ _ _ _ _ _ _ _ _ _ _ Hr Hsrc Hcyc) as [Hstem Hcycle].
    assert (n < length l) as Hn by apply Hr.
    split; try done; cbn [d_stem d_src_world d_cycle_world]; rewrite ?Nat2Z.id; try done; [|apply Hr].
    unfold lasso_shape. cbn [d_stem d_cycle d_lasso]. unfold digests_of. rewrite length_fmap.
    replace (Z.of_nat n + Z.of_nat (length l - n))%Z with (Z.of_nat (length l)) by lia. split_and!; [lia|done|done].
Qed.

Lemma engine_certificates_verify_witness :
  ∃ cert l, @check_divergence_certificate demo_hash cert (@spin_pres demo_hash) l =
    Some (Verified (@divergence_certificate_id demo_hash cert)) ∧ length l = 2.
Proof.
  destruct (@sat_step demo_hash (λ s, s) unit demo_keyer (@spin_pres demo_hash) demo_exec 0 demo_budget tt)
    as [[[[out l] cost] ks]| |] eqn:E; [|vm_compute in E; discriminate E..].
  pose proof (@engine_certificates_verify demo_hash (λ s, s) unit demo_keyer (@spin_pres demo_hash) demo_key demo_exec 0
    demo_budget tt out l cost ks (λ _ _ _, eq_refl) E) as Hc.
  destruct out as [|? |cert|]; try (vm_compute in E; discriminate E).
  exists cert, l. split.
  - apply Hc; vm_compute in E; injection E as <- <- _ _; apply (bool_decide_unpack _); vm_compute; exact I.
  - vm_compute in E. injection E as _ <- _ _. reflexivity.
Defined.

(** The divergence check does not replay the engine. It verifies a lasso of
    administrative steps that the presentation's regimes never take: the same
    presentation, from the world the certificate starts at, commits one step and is
    certified quiescent, a claim the quiescence check verifies. *)
Theorem forged_divergence_verifies :
  let _ : Blake3 := demo_hash in let _ : UnicodeNfc := λ s, s in
  (check_divergence_certificate demo_divergence demo_pres demo_lasso =
     Some (Verified (divergence_certificate_id demo_divergence)) ∧
   try_resolve (interner demo_pres) (world demo_exec) = Some (digest (d_src_world demo_divergence)) ∧
   try_resolve (interner demo_pres) (policy demo_exec) = Some (digest (d_policy demo_divergence))) ∧
  ∃ cert l cost, sat_step demo_keyer demo_pres demo_exec 0 demo_budget tt = Done (SQuiescent cert, l, cost, tt) ∧
    check_quiescence_certificate cert demo_pres (mkExec (mkHandle 1) (mkHandle 0) (mkDigest [])) l =
      Verified (quiescence_certificate_id cert).
Proof.
  cbv zeta. split; [split_and!; vm_compute; reflexivity|].
  destruct (@sat_step demo_hash (λ s, s) unit demo_keyer (@demo_pres demo_hash) demo_exec 0 demo_budget tt)
    as [[[[out l] cost] []]| |] eqn:E; [|vm_compute in E; discriminate E..].
  destruct out as [|cert| |]; try (vm_compute in E; discriminate E).
  exists cert, l, cost. split; [reflexivity|]. vm_compute in E. injection E as <- <- <-. vm_compute. reflexivity.
Qed.

Section fickle.
Context `{Blake3} `{UnicodeNfc}.

Lemma fickle_selects ph e c p :
  world e = mkHandle 0 → selects (regimes fickle_pres) (pres_adm fickle_pres) e (fickle_key ph) c p →
  p = fickle_provider ∧ c = mkCandidate (mkHandle (if decide (ph = 0)%Z then 5 else 6)) (mkHandle (if decide (ph = 0)%Z then 0 else 1)).
Proof.
  intros Hw (Hc & Hleast & n & Hn & _). apply list_elem_of_lookup_2 in Hn. apply list_elem_of_singleton in Hn as ->.
  split; [done|].
  assert (∀ c, c ∈ cand (candidates <$> regimes fickle_pres) (pres_adm fickle_pres) e ↔
    c = mkCandidate (mkHandle 5) (mkHandle 0) ∨ c = mkCandidate (mkHandle 6) (mkHandle 1)) as HC.
  { intros c'. rewrite cand_elem. change (candidates <$> regimes fickle_pres) with [candidates fickle_provider].
    setoid_rewrite list_elem_of_singleton.
    assert (candidates fickle_provider e = [mkCandidate (mkHandle 5) (mkHandle 0); mkCandidate (mkHandle 6) (mkHandle 1)]) as He
      by (cbn; by rewrite decide_True).
    split.
    - intros [(f & -> & Hin) _]. rewrite He, elem_of_cons, list_elem_of_singleton in Hin. done.
    - intros Hin. split; [|done]. exists (candidates fickle_provider). split; [done|].
      by rewrite He, elem_of_cons, list_elem_of_singleton. }
  apply HC in Hc as [->| ->].
  - destruct (Hleast (mkCandidate (mkHandle 6) (mkHandle 1))) as [?|Hlt]; [apply HC; by right|done|].
    case_decide; [done|]. unfold fickle_key in Hlt. cbn -[cmp lt_of] in Hlt. rewrite !(decide_False (P := ph = 0%Z)) in Hlt by done. vm_compute in Hlt. discriminate Hlt.
  - destruct (Hleast (mkCandidate (mkHandle 5) (mkHandle 0))) as [?|Hlt]; [apply HC; by left|done|].
    case_decide; [|done]. subst ph. done.
Qed.

(** The second step of [fickle_pres] is realizing. *)
Lemma fickle_realizes : ¬ administratively_diverges fickle_pres fickle_key 0 demo_exec.
Proof.
  intros Hd. destruct (Hd 2) as (l & es & Ho & Hl & Ha). destruct l as [|s1 [|s2 [|]]]; try done.
  destruct Ho as (Hlen & Hst & Hs).
  destruct (Hs 0 s1 eq_refl) as (e0 & e1 & He0 & He1 & c1 & p1 & o1 & Hsel1 & Hok1).
  destruct (Hs 1 s2 eq_refl) as (e1' & e2 & He1' & _ & c2 & p2 & o2 & Hsel2 & Hok2).
  assert (e0 = demo_exec) as -> by congruence. assert (e1' = e1) as -> by congruence.
  apply fickle_selects in Hsel1 as [-> ->]; [|done].
  apply try_commit_selected_Ok in Hok1 as (d1 & ? & ? & ? & _ & _ & _ & _ & _ & _ & [= _ ->]).
  apply fickle_selects in Hsel2 as [-> ->]; [|done].
  apply try_commit_selected_Ok in Hok2 as (d2 & src & dst & w & [= <-] & _ & _ & _ & _ & -> & _).
  apply Forall_cons in Ha as [_ [Ha _]%Forall_cons]. vm_compute in Ha. discriminate Ha.
Qed.
End fickle.

(** The hypotheses as documented do not make a repetition a loop. There is a
    presentation that satisfies P1 and P6 as [AssumptionId] states them, declares
    both and passes the bounded checks, and is certified divergent although its next
    step is realizing: P6 says nothing of the phase component the keyer chooses. *)
Theorem documented_hypotheses_insufficient :
  let _ : Blake3 := demo_hash in let _ : UnicodeNfc := λ s, s in
  documented_hypotheses fickle_pres fickle_key ∧
  (∃ cert l cost, sat_step (pure_keyer fickle_key) fickle_pres demo_exec 0 demo_budget tt =
     Done (SDivergent cert, l, cost, tt) ∧
     check_divergence_certificate cert fickle_pres l = Some (Verified (divergence_certificate_id cert))) ∧
  ¬ administratively_diverges fickle_pres fickle_key 0 demo_exec.
Proof.
  intros B U. split_and!.
  - split_and!; [|done..]. intros p e1 e2 ->%list_elem_of_singleton [= Hw _]. cbn. by rewrite Hw.
  - subst B U. destruct (@sat_step demo_hash (λ s, s) unit (pure_keyer fickle_key) (@fickle_pres demo_hash) demo_exec 0 demo_budget tt)
      as [[[[out l] cost] []]| |] eqn:E; [|vm_compute in E; discriminate E..].
    destruct out as [| |cert|]; try (vm_compute in E; discriminate E).
    exists cert, l, cost. split; [reflexivity|]. vm_compute in E. injection E as <- <- <-. vm_compute. reflexivity.
  - apply fickle_realizes.
Qed.
