(* ===== verification/SatDriver.v ===== *)
(** Driving saturation (src/crates/soc-core/src/saturate/: driver.rs and
    adequacy.rs).

    [run_saturated] repeats the saturated step and journals what it consumed;
    [adequacy_of] classifies a finished run. The loop is [iterate] over a record of its
    variables, with the visible budget plus one as fuel. [SaturatedSystem] is the trait the comparison walks. *)
From S2P Require Import Prelude IntCodec Canon CanonLaws Calendar Outcome Witness Encoding Parsing.
From S2P Require Import Derivation Publication Settlement Journal Commit SatProfile SatCertificate SatCheck.
From S2P Require Import Saturation SatLasso.

(** * The driver *)

Inductive SaturatedStop : Type :=
  | StopQuiescent (certificate : QuiescenceCertificateV1)
  | StopDivergent (certificate : DivergenceCertificateV1)
  | StopUnknown (reason : SaturationUnknown).

Definition is_quiescent (stop : SaturatedStop) : bool :=
  match stop with StopQuiescent _ => true | _ => false end.

Record SaturatedRun : Type := mkSatRun {
  journal : Journal;
  visible : list Observation;
  costs : list CostRecord;
  final_config : ExecConfig;
  stop : SaturatedStop
}.
Definition visible_len (run : SaturatedRun) : nat := length (visible run).
Definition run_chain_digest (run : SaturatedRun) : Digest := chain_digest (journal run).

Record SystemBoundary : Type := mkBoundary {
  b_context : ContextId;
  b_profile : ObservationProfileId;
  b_presentation : PresentationIdV1
}.

(** [trait SaturatedSystem]; [M] is what [&mut self] mutates, [None] a panic. *)
Record SaturatedSystem (M : Type) : Type := mkSystem {
  initial : ExecConfig;
  boundary : SystemBoundary;
  sys_assumptions : DeclaredAssumptions;
  saturated_step : M → ExecConfig → Z → option (SaturatedStep * nat * M)
}.
Arguments mkSystem {M}.
Arguments initial {M}.
Arguments boundary {M}.
Arguments sys_assumptions {M}.
Arguments saturated_step {M}.

(** * Adequacy *)

Inductive FoValue : Type := FoRealizing | FoQuiescent.
Inductive FoUndefined : Type := CertifiedDivergence | FoUnestablished.
Inductive FoDefinedness : Type := Defined (v : FoValue) | Undefined (u : FoUndefined).

Definition is_defined (d : FoDefinedness) : bool := match d with Defined _ => true | Undefined _ => false end.

Definition fo_definedness (step : SaturatedStep) : FoDefinedness :=
  match step with
  | SRealizing _ _ _ => Defined FoRealizing
  | SQuiescent _ => Defined FoQuiescent
  | SDivergent _ => Undefined CertifiedDivergence
  | SUnknown _ => Undefined FoUnestablished
  end.

Record AdequacyReport : Type := mkReport {
  fo_outcome : FoDefinedness;
  defined_throughout : bool;
  left_at_visible_depth : option nat
}.

Definition adequacy_of (run : SaturatedRun) : AdequacyReport :=
  let outcome := match stop run with
    | StopQuiescent _ => Defined FoQuiescent
    | StopDivergent _ => Undefined CertifiedDivergence
    | StopUnknown _ => Undefined FoUnestablished
    end in
  mkReport outcome (is_defined outcome) (if is_defined outcome then None else Some (length (visible run))).

Section driver.
Context `{Blake3} `{UnicodeNfc} {K : Type} (keyer : K → Candidate → Z → Key * K).
Context (pres : PresentationV1) (budget : SaturationBudget).

(** The loop's variables. *)
Record RunState : Type := mkRunState {
  r_journal : Journal;
  r_visible : list Observation;
  r_costs : list CostRecord;
  r_current : ExecConfig;
  r_phase : Z;
  r_keyer : K
}.

Definition run_stop (s : RunState) (reason : SaturatedStop) : SaturatedRun * K + RunState :=
  inl (mkSatRun (r_journal s) (r_visible s) (r_costs s) (r_current s) reason, r_keyer s).

Definition run_iter (s : RunState) : option (SaturatedRun * K + RunState) :=
  if decide (max_visible_steps budget ≤ length (r_visible s)) then
    Some (run_stop s (StopUnknown (VisibleBudgetExhausted (length (r_visible s)) (max_visible_steps budget)))) else
  match sat_step keyer pres (r_current s) (r_phase s) budget (r_keyer s) with
  | Done (step, consumed, cost, ks) =>
    let s' := mkRunState (fold_left journal_append consumed (r_journal s)) (r_visible s) (r_costs s ++ [cost])
      (r_current s) (saturating_add (r_phase s) (Z.of_nat (length consumed))) ks in
    Some (match step with
    | SRealizing observation successor _ =>
      inr (mkRunState (r_journal s') (r_visible s' ++ [observation]) (r_costs s') successor (r_phase s') ks)
    | SQuiescent certificate => run_stop s' (StopQuiescent certificate)
    | SDivergent certificate => run_stop s' (StopDivergent certificate)
    | SUnknown reason => run_stop s' (StopUnknown reason)
    end)
  | _ => None
  end.

Definition run_saturated (e0 : ExecConfig) (ks : K) : outcome (SaturatedRun * K) :=
  iterate run_iter (S (max_visible_steps budget)) (mkRunState journal_new [] [] e0 0 ks).

(** [PresentedSystem]; its mutable part is the keyer. *)
Definition presented_run (e0 : ExecConfig) (ks : K) : outcome (SaturatedRun * K) := run_saturated e0 ks.
Definition presented_system (e0 : ExecConfig) : SaturatedSystem K :=
  mkSystem e0 (mkBoundary (pres_context pres) (profile_id (profile pres)) (pres_id pres)) (assumptions pres)
    (λ ks e phase,
       match sat_step keyer pres e phase budget ks with
       | Done (step, consumed, _, ks') => Some (step, length consumed, ks')
       | _ => None
       end).

End driver.

(** * Walks *)

Section walk.
Context `{Blake3} `{UnicodeNfc} (pres : PresentationV1) (κ : Z → Candidate → Key).

#[local] Abbreviation orbit := (orbit pres κ).

Lemma saturating_add_add ph a b : (0 ≤ a)%Z → (0 ≤ b)%Z → saturating_add (saturating_add ph a) b = saturating_add ph (a + b).
Proof. unfold saturating_add. lia. Qed.

Lemma sat_commits_shift ph n m e s e' :
  sat_commits pres κ (saturating_add ph (Z.of_nat n)) m e s e' ↔ sat_commits pres κ ph (n + m) e s e'.
Proof.
  unfold sat_commits, commits. rewrite saturating_add_add by lia.
  by replace (Z.of_nat n + Z.of_nat m)%Z with (Z.of_nat (n + m)) by lia.
Qed.

Lemma orbit_app ph e l1 es1 e1 l2 es2 :
  orbit ph e l1 es1 → last es1 = Some e1 → orbit (saturating_add ph (Z.of_nat (length l1))) e1 l2 es2 →
  orbit ph e (l1 ++ l2) (es1 ++ tail es2) ∧ last (es1 ++ tail es2) = last es2.
Proof.
  intros Ho1 Hlast Ho2. revert es2 Ho2. induction l2 as [|s l2 IH] using rev_ind; intros es2 Ho2.
  - destruct Ho2 as (Hlen & Hst & _). destruct es2 as [|x [|]]; try done. cbn in *. rewrite !app_nil_r. split; [done|congruence].
  - pose proof (orbit_take _ _ _ _ _ _ (length l2) Ho2) as Ht. rewrite take_app_length in Ht.
    destruct (IH _ (Ht ltac:(rewrite length_app; lia))) as [Ho Hl]. clear IH Ht.
    destruct Ho2 as (Hlen & Hst & Hs). rewrite length_app in Hlen. cbn in Hlen.
    destruct (Hs (length l2) s) as (a & b & Ha & Hb & Hc); [by rewrite lookup_app_r, Nat.sub_diag|].
    assert (es2 = take (S (length l2)) es2 ++ [b]) as Hes.
    { rewrite <-take_S_r by done. rewrite take_ge by lia. done. }
    assert (tail es2 = tail (take (S (length l2)) es2) ++ [b]) as Htail.
    { rewrite Hes at 1. by destruct es2. }
    rewrite Htail, !app_assoc. split; [|rewrite last_snoc, Hes; by rewrite last_snoc].
    eapply orbit_snoc; [exact Ho| |].
    + rewrite Hl, last_lookup, length_take, Hlen, Nat.min_l by lia. cbn. rewrite lookup_take_lt by lia. exact Ha.
    + rewrite length_app. by apply sat_commits_shift.
Qed.

Lemma orbit_drop ph e l1 l2 es :
  orbit ph e (l1 ++ l2) es →
  ∃ e1, es !! length l1 = Some e1 ∧
    orbit (saturating_add ph (Z.of_nat (length l1))) e1 l2 (drop (length l1) es).
Proof.
  intros (Hlen & Hst & Hs). rewrite length_app in Hlen.
  destruct (lookup_lt_is_Some_2 es (length l1)) as [e1 He1]; [lia|]. exists e1. split; [done|]. split_and!.
  - rewrite length_drop. lia.
  - by rewrite lookup_drop, Nat.add_0_r.
  - intros n s Hn. destruct (Hs (length l1 + n) s) as (a & b & Ha & Hb & Hc).
    { rewrite lookup_app_r by lia. by replace (length l1 + n - length l1) with n by lia. }
    exists a, b. rewrite !lookup_drop, Nat.add_succ_r. split_and!; [done|done|]. by apply sat_commits_shift.
Qed.

(** The observations a profile exports. *)
Definition visible_of (l : list CommittedStep) : list Observation :=
  omap (λ s, match label (profile pres) s with Ok Realizing => Some (observation s) | _ => None end) l.

Lemma visible_of_app l1 l2 : visible_of (l1 ++ l2) = visible_of l1 ++ visible_of l2.
Proof. apply omap_app. Qed.

Lemma visible_of_administrative l : administrative_steps pres l → visible_of l = [].
Proof. induction 1 as [|s l Hs _ IH]; [done|]. unfold visible_of in *. cbn. by rewrite Hs. Qed.

(** What a saturated step from [e] through [es] to [e'] says of the steps [l]. *)
Definition sat_exports (ph : Z) (e : ExecConfig) (out : SaturatedStep) (l : list CommittedStep)
    (es : list ExecConfig) (e' : ExecConfig) : Prop :=
  match out with
  | SRealizing o e2 n => e' = e2 ∧ visible_of l = [o] ∧
      ∃ l0 s, l = l0 ++ [s] ∧ administrative_steps pres l0 ∧ label (profile pres) s = Ok Realizing
  | SQuiescent _ => admissible pres e' = ∅ ∧ administrative_steps pres l
  | SDivergent _ => administrative_steps pres l ∧ (honest pres κ → ∀ l' es',
      orbit ph e l' es' → ∀ e1, last es' = Some e1 → ∃ j ej, es !! j = Some ej ∧ project ej = project e1)
  | SUnknown _ => visible_of l = []
  end.

(** The steps a saturated step consumes are a walk, and what it exports is theirs. *)
Lemma sat_returns_walk ph budget e out l :
  sat_returns pres κ ph budget e out l →
  ∃ es e', orbit ph e l es ∧ last es = Some e' ∧ sat_exports ph e out l es e'.
Proof.
  unfold sat_exports.
  assert (∀ l es e1 s e2, quiet pres κ ph budget e l es e1 → sat_commits pres κ ph (length l) e1 s e2 →
    orbit ph e (l ++ [s]) (es ++ [e2]) ∧ last (es ++ [e2]) = Some e2) as Hsnoc.
  { intros ????? Hq Hc. split; [eapply orbit_snoc; [apply Hq|apply Hq|done]|apply last_snoc]. }
  assert (∀ l es n a b, returns pres κ ph e l es n a b → orbit ph e l es ∧ last es = Some b ∧ visible_of l = []) as Hret.
  { intros ????? [Ho Ha _ _ Hb _]. split_and!; [done| |by apply visible_of_administrative].
    rewrite last_lookup. destruct Ho as (-> & _). done. }
  destruct 1 as [l es e1 s e2 Hq Hc Hl|l es e1 cert Hq Hadm _|l es n e_then e_now src pol cyc Hr|l es n e_then e_now a Hr Ha
    |l es n e_then e_now Hr Hne|l es n e_then e_now Hr Hk|l es e1 s e2 Hq Hc Hl Hf Hlen|l es e1 s e2 Hq Hc Hl Hf Hlen
    |l es e1 s e2 err Hq Hc Hl|l es e1 c p err Hq k Hsel Herr|l es e1 c1 c2 Hq H1 H2 Hne Hk].
  - exists (es ++ [e2]), e2. destruct (Hsnoc _ _ _ _ _ Hq Hc) as [Ho Hlast]. split_and!; try done.
    + rewrite visible_of_app, visible_of_administrative by apply Hq. unfold visible_of. cbn. by rewrite Hl.
    + exists l, s. split_and!; [done|apply Hq|done].
  - exists es, e1. split_and!; [apply Hq|apply Hq|done|apply Hq].
  - exists es, e_now. destruct (Hret _ _ _ _ _ Hr) as (Ho & Hlast & _). split_and!; [done..|apply Hr|].
    intros Hh l' es' Ho' e1 He1. destruct (returns_states pres κ ph Hh _ _ _ _ _ _ _ _ _ Hr Ho' He1) as (j & ej & _ & ? & ?). by exists j, ej.
  - exists es, e_now. by apply (Hret _ _ n e_then).
  - exists es, e_now. by apply (Hret _ _ n e_then).
  - exists es, e_now. by apply (Hret _ _ n e_then).
  - exists (es ++ [e2]), e2. destruct (Hsnoc _ _ _ _ _ Hq Hc) as [Ho Hlast]. split_and!; try done.
    apply visible_of_administrative, administrative_snoc. split; [apply Hq|done].
  - exists (es ++ [e2]), e2. destruct (Hsnoc _ _ _ _ _ Hq Hc) as [Ho Hlast]. split_and!; try done.
    apply visible_of_administrative, administrative_snoc. split; [apply Hq|done].
  - exists (es ++ [e2]), e2. destruct (Hsnoc _ _ _ _ _ Hq Hc) as [Ho Hlast]. split_and!; try done.
    rewrite visible_of_app, visible_of_administrative by apply Hq. unfold visible_of. cbn. by rewrite Hl.
  - exists es, e1. split_and!; [apply Hq|apply Hq|]. apply visible_of_administrative, Hq.
  - exists es, e1. split_and!; [apply Hq|apply Hq|]. apply visible_of_administrative, Hq.
Qed.
End walk.

Lemma journal_append_all `{Blake3} l j :
  steps (fold_left journal_append l j) = steps j ++ l ∧
  (journal_reachable j → journal_reachable (fold_left journal_append l j)).
Proof.
  revert j. induction l as [|s l IH]; intros j; cbn [fold_left]; [by rewrite app_nil_r|].
  destruct (IH (journal_append j s)) as [-> Hr]. split; [cbn; by rewrite <-app_assoc|].
  intros Hj. apply Hr. by constructor.
Qed.

Section run.
Context `{Blake3} `{UnicodeNfc} {K : Type} (keyer : K → Candidate → Z → Key * K).
Context (pres : PresentationV1) (budget : SaturationBudget) (κ : Z → Candidate → Key).
Hypothesis keyer_pure : ∀ ks c phase, (keyer ks c phase).1 = κ phase c.

(** From [e0] at phase 0. *)
#[local] Abbreviation orbit0 := (orbit pres κ 0).

(** A point of the walk: the configuration after the last exported step. *)
Definition boundary_point (l : list CommittedStep) : Prop :=
  l = [] ∨ ∃ l0 s, l = l0 ++ [s] ∧ label (profile pres) s = Ok Realizing.

Lemma sat_step_resumes e0 l es e phase ks :
  orbit0 e0 l es → last es = Some e → phase = saturating_add 0 (Z.of_nat (length l)) →
  match sat_step keyer pres e phase budget ks with
  | OutOfFuel => False
  | Panicked => unresolved pres e0
  | Done (out, l', cost, _) => is_Some (work_units cost) ∧ sat_returns pres κ phase budget e out l' ∧
      ∃ es1 es' e', orbit pres κ phase e l' es1 ∧ es1 = drop (length l) es' ∧ sat_exports pres κ phase e out l' es1 e' ∧
        orbit0 e0 (l ++ l') es' ∧ last es' = Some e' ∧ es' !! length l = Some e
  end.
Proof.
  intros Ho Hlast ->. pose proof (sat_step_spec keyer pres κ (saturating_add 0 (Z.of_nat (length l))) budget keyer_pure e ks) as Hs.
  pose proof Ho as (Hlen & Hst & _). rewrite last_lookup, Hlen in Hlast. cbn in Hlast.
  destruct (sat_step _ _ _ _ _ _) as [[[[out l'] cost] ks']| |]; [| |done].
  - destruct Hs as [Hs Hc]. split_and!; [done|done|].
    destruct (sat_returns_walk _ _ _ _ _ _ _ Hs) as (es1 & e' & Ho1 & Hlast1 & Hout).
    destruct (orbit_app _ _ _ _ _ _ _ _ _ Ho ltac:(rewrite last_lookup, Hlen; exact Hlast) Ho1) as [Ho2 Hlast2].
    exists es1, (es ++ tail es1), e'. split_and!; try done.
    + destruct Ho1 as (_ & Hst1 & _). rewrite drop_app_le, (drop_S _ e), drop_ge by (done || lia).
      destruct es1; [done|]. cbn in *. congruence.
    + by rewrite Hlast2.
    + rewrite lookup_app_l by lia. done.
  - destruct l as [|s l]; [cbn in Hlast; assert (e = e0) as -> by congruence; done|].
    edestruct orbit_resolves as [? Er]; [exact Ho|exact Hlast|by right|]. destruct Hs as [Hs|Hs]; [congruence|].
    right. by rewrite <-(orbit_policy _ _ _ _ _ _ _ _ Ho Hlast).
Qed.

Record run_inv (e0 : ExecConfig) (es : list ExecConfig) (s : RunState (K := K)) : Prop := {
  ri_orbit : orbit0 e0 (steps (r_journal s)) es;
  ri_last : last es = Some (r_current s);
  ri_reach : journal_reachable (r_journal s);
  ri_phase : r_phase s = saturating_add 0 (Z.of_nat (length (steps (r_journal s))));
  ri_visible : r_visible s = visible_of pres (steps (r_journal s));
  ri_costs : length (r_costs s) = length (r_visible s);
  ri_measured : Forall (λ c, is_Some (work_units c)) (r_costs s);
  ri_boundary : boundary_point (steps (r_journal s))
}.

(** What a finished run says. *)
Record run_claim (e0 : ExecConfig) (run : SaturatedRun) : Prop := {
  rc_journal : journal_reachable (journal run);
  rc_visible : visible run = visible_of pres (steps (journal run));
  rc_measured : Forall (λ c, is_Some (work_units c)) (costs run);
  rc_bound : length (visible run) ≤ max_visible_steps budget;
  rc_costs : match stop run with
    | StopUnknown (VisibleBudgetExhausted n b) =>
        n = length (visible run) ∧ b = max_visible_steps budget ∧ n = b ∧ length (costs run) = length (visible run)
    | _ => length (costs run) = S (length (visible run))
    end;
  rc_walk : ∃ l l' es e', steps (journal run) = l ++ l' ∧
    orbit0 e0 (l ++ l') es ∧ last es = Some e' ∧
    boundary_point l ∧ visible_of pres l' = [] ∧ es !! length l = Some (final_config run) ∧
    match stop run with
    | StopQuiescent cert => sat_returns pres κ (saturating_add 0 (Z.of_nat (length l))) budget (final_config run)
        (SQuiescent cert) l' ∧ admissible pres e' = ∅
    | StopDivergent cert => sat_returns pres κ (saturating_add 0 (Z.of_nat (length l))) budget (final_config run)
        (SDivergent cert) l'
    | StopUnknown (VisibleBudgetExhausted _ _) => l' = []
    | StopUnknown u => sat_returns pres κ (saturating_add 0 (Z.of_nat (length l))) budget (final_config run)
        (SUnknown u) l'
    end
}.

Lemma run_inv_start e0 ks : run_inv e0 [e0] (mkRunState journal_new [] [] e0 0 ks).
Proof. split; cbn; [apply orbit_start|done|constructor|done|done|done|constructor|by left]. Qed.

Lemma run_iter_spec e0 es s :
  run_inv e0 es s → length (r_visible s) ≤ max_visible_steps budget →
  match run_iter keyer pres budget s with
  | None => unresolved pres e0
  | Some (inl (run, _)) => run_claim e0 run
  | Some (inr s') => (∃ es', run_inv e0 es' s') ∧ length (r_visible s') = S (length (r_visible s)) ∧
      length (r_visible s') ≤ max_visible_steps budget
  end.
Proof.
  intros [Ho Hlast Hr Hph Hv Hc Hm Hb] Hle. unfold run_iter. case_decide as Hbud.
  { split; cbn; try done; [lia|].
    exists (steps (r_journal s)), [], es, (r_current s). rewrite app_nil_r. split_and!; try done.
    destruct Ho as (Hlen & _). by rewrite last_lookup, Hlen in Hlast. }
  pose proof (sat_step_resumes e0 _ es (r_current s) (r_phase s) (r_keyer s) Ho Hlast Hph) as Hs.
  destruct (sat_step _ _ _ _ _ _) as [[[[out l'] cost] ks']| |]; [|done|done].
  destruct Hs as (Hcost & Hret & es1 & es' & e' & _ & _ & Hout & Ho' & Hlast' & Hmid).
  destruct (journal_append_all l' (r_journal s)) as [Hsteps Hreach]. cbv zeta. cbn [r_journal r_visible r_costs r_phase r_keyer].
  assert (Forall (λ c, is_Some (work_units c)) (r_costs s ++ [cost])) as Hm'
    by (apply Forall_app; split; [done|by constructor]).
  destruct out as [o e2 n|cert|cert|u]; cbn.
  - destruct Hout as (-> & Hvis & l0 & st & -> & Ha & Hl). split_and!.
    + exists es'. split; cbn; rewrite ?Hsteps, ?length_app in *; try done.
      * by apply Hreach.
      * rewrite Hph, saturating_add_add by lia. f_equal. cbn. lia.
      * rewrite visible_of_app, Hvis, Hv. done.
      * cbn. lia.
      * right. exists (steps (r_journal s) ++ l0), st. by rewrite <-app_assoc.
    + rewrite length_app. cbn. lia.
    + rewrite length_app. cbn. lia.
  - destruct Hout as [Hadm Ha]. split; cbn; rewrite ?Hsteps; try done.
    + by apply Hreach.
    + by rewrite visible_of_app, (visible_of_administrative _ _ Ha), app_nil_r.
    + rewrite length_app. cbn. lia.
    + exists (steps (r_journal s)), l', es', e'. rewrite <-Hph. split_and!; try done. by apply visible_of_administrative.
  - destruct Hout as [Ha _]. split; cbn; rewrite ?Hsteps; try done.
    + by apply Hreach.
    + by rewrite visible_of_app, (visible_of_administrative _ _ Ha), app_nil_r.
    + rewrite length_app. cbn. lia.
    + exists (steps (r_journal s)), l', es', e'. rewrite <-Hph. split_and!; try done. by apply visible_of_administrative.
  - assert (∀ n b, u ≠ VisibleBudgetExhausted n b) as Hu by (intros n b ->; inversion Hret).
    split; cbn; rewrite ?Hsteps; try done.
    + by apply Hreach.
    + by rewrite visible_of_app, Hout, app_nil_r.
    + destruct u; try (rewrite length_app; cbn; lia). by destruct (Hu visible_steps budget0).
    + exists (steps (r_journal s)), l', es', e'. rewrite <-Hph. split_and!; try done.
      destruct u; try done. by destruct (Hu visible_steps budget0).
Qed.

Lemma run_saturated_spec e0 ks :
  match run_saturated keyer pres budget e0 ks with
  | OutOfFuel => False
  | Panicked => unresolved pres e0
  | Done (run, _) => run_claim e0 run
  end.
Proof.
  unfold run_saturated.
  destruct (iterate_spec (run_iter keyer pres budget)
    (λ s, (∃ es, run_inv e0 es s) ∧ length (r_visible s) ≤ max_visible_steps budget)
    (λ s, max_visible_steps budget - length (r_visible s)) (S (max_visible_steps budget))
    (mkRunState journal_new [] [] e0 0 ks)) as (t & [[es Ht] Hle] & Hr).
  - split; [exists [e0]; apply run_inv_start|cbn; lia].
  - cbn. lia.
  - intros s s' [[es Hs] Hle] E. pose proof (run_iter_spec e0 es s Hs Hle) as Hi. rewrite E in Hi.
    destruct Hi as (? & ? & ?). split; [by split|lia].
  - pose proof (run_iter_spec e0 es t Ht Hle) as Hi. destruct Hr as [([run k] & E & ->)|[E ->]]; by rewrite E in Hi.
Qed.
End run.

(** * The unsaturated engine *)

Section agree.
Context `{Blake3} `{UnicodeNfc} (ps : list SettlementWitnessProvider) (adm : Adm) (i : Interner) (ctx : ContextId).
Context (κ1 κ2 : Z → Candidate → Key) (N : nat).
Hypothesis same_keys : ∀ n, n < N → κ1 (Z.of_nat n) = κ2 (Z.of_nat n).

Lemma commits_agree n e s e' : n < N → commits ps adm i ctx κ1 n e s e' → commits ps adm i ctx κ2 n e s e'.
Proof. intros Hn (c & p & o & Hs & Hc). exists c, p, o. by rewrite <-(same_keys n Hn). Qed.

Lemma commits_functional n e s1 e1 s2 e2 :
  commits ps adm i ctx κ2 n e s1 e1 → commits ps adm i ctx κ2 n e s2 e2 → s1 = s2 ∧ e1 = e2.
Proof.
  intros (c1 & p1 & o1 & Hs1 & Hc1) (c2 & p2 & o2 & Hs2 & Hc2).
  destruct (selects_unique _ _ _ _ _ _ _ _ Hs1 Hs2) as [-> ->]. rewrite Hc1 in Hc2. by injection Hc2.
Qed.

(** Of two traces from one configuration the shorter is a prefix. *)
Lemma trace_prefix n e l1 e1 l2 e2 :
  trace ps adm i ctx κ1 n e l1 e1 → trace ps adm i ctx κ2 n e l2 e2 → n + length l1 ≤ N → length l1 ≤ length l2 →
  ∃ l3, l2 = l1 ++ l3 ∧ trace ps adm i ctx κ2 (n + length l1) e1 l3 e2.
Proof.
  intros H1. revert l2. induction H1 as [n e|n e s e1 l1 e2' Hc Ht IH]; intros l2 H2 HN Hl.
  - exists l2. split; [done|]. cbn. by rewrite Nat.add_0_r.
  - destruct H2 as [|n e s' e1' l2 e2 Hc' Ht']; [cbn in Hl; lia|].
    cbn [length] in *. apply commits_agree in Hc; [|lia].
    destruct (commits_functional _ _ _ _ _ _ Hc Hc') as [-> ->].
    destruct (IH l2 Ht') as (l3 & -> & Ht3); [lia|lia|]. exists l3. split; [done|]. by rewrite Nat.add_succ_r.
Qed.
End agree.

(** * Properties *)

(** The saturated driver is exact. With a keyer whose keys depend on the phase
    and the candidate it always stops, and panics at most when the start's handles
    were not interned. Its journal is a well-built log of one trajectory of the
    engine from the start, every step of it classified; the visible trace is exactly
    the observations of the realizing steps of that journal, never more than the
    budget; the final configuration is the one after the last of them; every
    saturated step has a measured cost, one more than there are observations unless
    the visible budget stopped the run; and the stop is what the last saturated step
    returned, quiescence only where no candidate is admissible. *)
Theorem run_saturated_exact `{Blake3} `{UnicodeNfc} {K} (keyer : K → Candidate → Z → Key * K) pres budget κ e0 ks :
  (∀ ks c phase, (keyer ks c phase).1 = κ phase c) →
  match run_saturated keyer pres budget e0 ks with
  | OutOfFuel => False
  | Panicked => unresolved pres e0
  | Done (run, _) => run_claim pres budget κ e0 run ∧
      defined_throughout (adequacy_of run) = is_quiescent (stop run) ∧
      left_at_visible_depth (adequacy_of run) = if is_quiescent (stop run) then None else Some (visible_len run)
  end.
Proof.
  intros Hκ. pose proof (run_saturated_spec keyer pres budget κ Hκ e0 ks) as Hs.
  destruct (run_saturated _ _ _ _ _) as [[run ks']| |]; [|done..]. split; [done|].
  unfold adequacy_of. by destruct (stop run).
Qed.

Lemma run_saturated_exact_witness :
  ∃ run ks, @run_saturated demo_hash (λ s, s) unit demo_keyer (@demo_pres demo_hash) demo_budget demo_exec tt = Done (run, ks) ∧
    is_quiescent (stop run) = true ∧ defined_throughout (adequacy_of run) = true.
Proof.
  pose proof (@run_saturated_exact demo_hash (λ s, s) unit demo_keyer (@demo_pres demo_hash) demo_budget demo_key
    demo_exec tt (λ _ _ _, eq_refl)) as Hr.
  destruct (run_saturated _ _ _ _ _) as [[run ks]| |] eqn:E; [|vm_compute in E; discriminate E|destruct Hr].
  assert (is_quiescent (stop run) = true) as Hq by (vm_compute in E; injection E as <- _; reflexivity).
  exists run, ks. destruct Hr as (_ & Hd & _). rewrite Hd. auto.
Defined.

(** Saturation hides, it does not change. When the unsaturated driver is run for
    as many ticks as a saturated run has committed, and returns, its journal is that
    of the saturated run, chain digest included: the saturated run's visible trace is
    a projection of one trajectory, the engine's own. *)
Theorem run_refines_unsaturated `{Blake3} `{UnicodeNfc} {K} (keyer : K → Candidate → Z → Key * K)
    pres budget κ e0 ks ks1 run ks' j costs st :
  (∀ ks c phase, (keyer ks c phase).1 = κ phase c) →
  run_saturated keyer pres budget e0 ks = Done (run, ks') →
  (Z.of_nat (journal_len (journal run)) < 2^64)%Z →
  run_reason keyer (regimes pres) (pres_adm pres) (interner pres) e0 (pres_context pres) ks1
    (journal_len (journal run)) = Some (j, costs, st) →
  j = journal run ∧ chain_digest j = run_chain_digest run ∧ visible run = visible_of pres (steps j).
Proof.
  intros Hκ E HN Eu. pose proof (run_saturated_spec keyer pres budget κ Hκ e0 ks) as Hs. rewrite E in Hs.
  destruct Hs as [Hreach Hvis _ _ _ (l & l' & es & e' & Hsteps & Ho & Hlast & _)].
  pose proof (run_from_spec keyer (regimes pres) (pres_adm pres) (interner pres) (pres_context pres) κ
    (λ phase ks c, Hκ ks c phase) (journal_len (journal run)) (journal_len (journal run)) 0 journal_new [] e0 ks1) as Hu.
  unfold run_reason in Eu. rewrite Eu in Hu. destruct Hu as (lu & eu & Ht & Hst & Hj & _ & _ & Hstop). cbn in Hst. subst lu.
  rewrite <-Hsteps in Ho. rewrite last_lookup in Hlast.
  pose proof Ho as (Hlen & _).
  rewrite Hlen in Hlast. cbn [pred] in Hlast.
  pose proof (orbit_trace _ _ _ _ _ _ _ _ Ho Hlast) as Htr. rewrite take_ge in Htr by done.
  assert (length (steps j) ≤ journal_len (journal run)) as Hle by (destruct st; lia).
  destruct (trace_prefix (regimes pres) (pres_adm pres) (interner pres) (pres_context pres) κ
    (λ z, κ (saturating_add 0 z)) (journal_len (journal run))
    ltac:(intros n Hn; cbv beta; unfold saturating_add; rewrite Z.min_l by lia; done)
    0 e0 _ _ _ _ Ht Htr) as (l3 & Hl3 & Ht3); [done|done|].
  assert (l3 = []) as ->.
  { destruct st as [|n]; [|destruct Hstop as [_ Hl]; apply (f_equal length) in Hl3; rewrite length_app in Hl3;
      unfold journal_len in Hl; destruct l3; [done|cbn in Hl3; lia]].
    destruct Hstop as [Hc _]. destruct Ht3 as [|n e s e1 l3 e2 (c & p & o & (Hin & _) & _) _]; [done|]. set_solver. }
  rewrite app_nil_r in Hl3. assert (j = journal run) as ->.
  { assert (journal_reachable j) as Hj' by (apply Hj; constructor). apply journal_reachable_chain in Hj', Hreach.
    destruct j, (journal run). cbn in *. subst. congruence. }
  done.
Qed.

Lemma run_refines_unsaturated_witness :
  ∃ run j costs st, @run_saturated demo_hash (λ s, s) unit demo_keyer (@demo_pres demo_hash) demo_budget demo_exec tt = Done (run, tt) ∧
    @run_reason demo_hash (λ s, s) unit demo_keyer [demo_provider] AdmAll demo_sat_interner demo_exec (demo_id 23) tt 1 =
      Some (j, costs, st) ∧ j = journal run ∧ visible run = [].
Proof.
  destruct (@run_saturated demo_hash (λ s, s) unit demo_keyer (@demo_pres demo_hash) demo_budget demo_exec tt)
    as [[run []]| |] eqn:E; [|vm_compute in E; discriminate E..].
  destruct (@run_reason demo_hash (λ s, s) unit demo_keyer [demo_provider] AdmAll demo_sat_interner demo_exec (demo_id 23) tt 1)
    as [[[j costs] st]|] eqn:Eu; [|vm_compute in Eu; discriminate Eu].
  assert (journal_len (journal run) = 1 ∧ visible run = []) as [Hlen Hv] by (vm_compute in E; injection E as <-; split; reflexivity).
  exists run, j, costs, st. split_and!; [done|done| |done].
  apply (@run_refines_unsaturated demo_hash (λ s, s) unit demo_keyer (@demo_pres demo_hash) demo_budget demo_key
    demo_exec tt tt run tt j costs st (λ _ _ _, eq_refl) E).
  - rewrite Hlen. reflexivity.
  - rewrite Hlen. exact Eu.
Defined.

(** * What the documentation says otherwise *)

(** One realizing step, from world 0 to world 1. *)
Definition real_provider : SettlementWitnessProvider :=
  mkProvider (candidates demo_provider) (λ _ _, Ok (mkDecomposition [demo_id 7] [demo_id 2; demo_id 3] Recorded)).
Definition real_pres `{Blake3} : PresentationV1 := with_regimes [real_provider].

(** [SaturatedRun.final_config] is documented as the configuration the run ended at.
    It is the one before the last saturated step: the quiescence certificate of the
    run is about another configuration, and its check refuses [final_config]. *)
Lemma final_config_not_terminal :
  match @run_saturated demo_hash (λ s, s) unit demo_keyer (@demo_pres demo_hash) demo_budget demo_exec tt with
  | Done (run, _) =>
    match stop run with
    | StopQuiescent cert => final_config run = demo_exec ∧ journal_len (journal run) = 1 ∧
        @check_quiescence_certificate demo_hash cert (@demo_pres demo_hash) (final_config run) (steps (journal run)) =
          CheckUnknown ConfigMismatch
    | _ => False
    end
  | _ => False
  end.
Proof.
  destruct (@run_saturated demo_hash (λ s, s) unit demo_keyer (@demo_pres demo_hash) demo_budget demo_exec tt)
    as [[run ks]| |] eqn:E; [|vm_compute in E; discriminate E..].
  vm_compute in E. injection E as <- _. vm_compute. auto.
Qed.

(** [SaturatedRun.costs] is documented as one longer than [visible] unless the run took
    no steps. A run stopped by the visible budget has as many costs as observations. *)
Lemma costs_as_many_as_visible :
  match @run_saturated demo_hash (λ s, s) unit demo_keyer (@real_pres demo_hash) (mkBudget 5 5 1) demo_exec tt with
  | Done (run, _) => length (costs run) = 1 ∧ length (visible run) = 1
  | _ => False
  end.
Proof. vm_compute. auto. Qed.

(** adequacy.rs documents [sat_step] as total. It panics when the policy handle was not
    interned and the frontier is empty. *)
Lemma sat_step_not_total :
  @sat_step demo_hash (λ s, s) unit demo_keyer (@demo_pres demo_hash) (mkExec (mkHandle 1) (mkHandle 9) (mkDigest [])) 0
    demo_budget tt = Panicked.
Proof. vm_compute. reflexivity. Qed.
