(* ===== verification/SatClosure.v ===== *)
(** Safety by one-step closure (src/crates/soc-core/src/saturate/closure.rs).

    [check_closure] walks the saturated trajectory and evaluates a predicate at every
    state its mode puts in scope. It is [iterate] over a record of the loop's
    variables, with the visible budget plus one as fuel. *)
From S2P Require Import Prelude IntCodec Canon CanonLaws Calendar Outcome Witness Encoding Parsing.
From S2P Require Import Derivation Publication Settlement Journal Commit SatProfile SatCertificate SatCheck.
From S2P Require Import Saturation SatLasso SatDriver.

Inductive ClosureMode : Type := Visible | Raw.
#[export] Instance ClosureMode_eq_dec : EqDecision ClosureMode.
Proof. solve_decision. Defined.

Record SafetyState : Type := mkSafety { safe_world : ConfigId; safe_policy : ConfigId }.

Inductive ViolationSite : Type := Initial | VisibleSuccessor | AdministrativeIntermediate.

Record ClosureViolation : Type := mkViolation {
  v_mode : ClosureMode;
  v_site : ViolationSite;
  v_state : SafetyState;
  v_visible_depth : nat
}.

Inductive ClosureUnknown : Type :=
  | Unestablished (visible_depth : nat) (reason : SaturationUnknown)
  | ClosureBudgetExhausted (visible_steps budget : nat)
  | UnresolvedConfiguration.

Inductive ClosureResult : Type :=
  | Closed (states_checked visible_steps : nat)
  | Violated (v : ClosureViolation)
  | ClosureUnknownR (u : ClosureUnknown).

Definition is_closed (r : ClosureResult) : bool := match r with Closed _ _ => true | _ => false end.

Section check.
Context `{Blake3} `{UnicodeNfc} {K : Type} (keyer : K → Candidate → Z → Key * K).
Context (pres : PresentationV1) (budget : SaturationBudget).

Definition canonical_state (observable : ObservableState) (policy : ConfigId) : option SafetyState :=
  world ← try_resolve (interner pres) (os_world observable); Some (mkSafety (mkId world) policy).

(** The loop over the consumed steps under [Raw]: the number of states checked, or
    the violation. *)
Fixpoint check_raw (predicate : SafetyState → bool) (policy : ConfigId) (realizing : bool) (last_index : nat)
    (visible_depth checked index : nat) (steps : list CommittedStep) : ClosureViolation + nat :=
  match steps with
  | [] => inr checked
  | s :: steps' =>
    let state := mkSafety (step_dst s) policy in
    if negb (predicate state) then
      inl (mkViolation Raw (if realizing && (index =? last_index) then VisibleSuccessor else AdministrativeIntermediate)
        state visible_depth)
    else check_raw predicate policy realizing last_index visible_depth (S checked) (S index) steps'
  end.

Record ClosureState : Type := mkClosure {
  c_current : ExecConfig;
  c_visible_depth : nat;
  c_phase : Z;
  c_checked : nat;
  c_keyer : K
}.

Definition is_realizing (step : SaturatedStep) : bool := match step with SRealizing _ _ _ => true | _ => false end.

Definition closure_iter (predicate : SafetyState → bool) (mode : ClosureMode) (policy : ConfigId) (s : ClosureState) :
    option (ClosureResult + ClosureState) :=
  if decide (max_visible_steps budget ≤ c_visible_depth s) then
    Some (inl (ClosureUnknownR (ClosureBudgetExhausted (c_visible_depth s) (max_visible_steps budget)))) else
  match sat_step keyer pres (c_current s) (c_phase s) budget (c_keyer s) with
  | Done (step, consumed, _, ks) =>
    let phase' := saturating_add (c_phase s) (Z.of_nat (length consumed)) in
    match (if decide (mode = Raw)
           then check_raw predicate policy (is_realizing step) (length consumed - 1) (c_visible_depth s) (c_checked s) 0 consumed
           else inr (c_checked s)) with
    | inl v => Some (inl (Violated v))
    | inr checked =>
      match step with
      | SRealizing _ successor _ =>
        if decide (mode = Visible) then
          match canonical_state (project successor) policy with
          | None => Some (inl (ClosureUnknownR UnresolvedConfiguration))
          | Some state =>
            if negb (predicate state)
            then Some (inl (Violated (mkViolation mode VisibleSuccessor state (c_visible_depth s + 1))))
            else Some (inr (mkClosure successor (S (c_visible_depth s)) phase' (S checked) ks))
          end
        else Some (inr (mkClosure successor (S (c_visible_depth s)) phase' checked ks))
      | SQuiescent _ | SDivergent _ => Some (inl (Closed checked (c_visible_depth s)))
      | SUnknown reason => Some (inl (ClosureUnknownR (Unestablished (c_visible_depth s) reason)))
      end
    end
  | _ => None
  end.

Definition check_closure (predicate : SafetyState → bool) (mode : ClosureMode) (e0 : ExecConfig) (ks : K) :
    outcome ClosureResult :=
  match try_resolve (interner pres) (policy e0) with
  | None => Done (ClosureUnknownR UnresolvedConfiguration)
  | Some policy =>
    match canonical_state (project e0) (mkId policy) with
    | None => Done (ClosureUnknownR UnresolvedConfiguration)
    | Some initial =>
      if negb (predicate initial) then Done (Violated (mkViolation mode Initial initial 0)) else
      iterate (closure_iter predicate mode (mkId policy)) (S (max_visible_steps budget)) (mkClosure e0 0 0 1 ks)
    end
  end.
End check.

(** * Closure *)

Section closure.
Context `{Blake3} `{UnicodeNfc} {K : Type} (keyer : K → Candidate → Z → Key * K).
Context (pres : PresentationV1) (budget : SaturationBudget) (κ : Z → Candidate → Key).
Context (predicate : SafetyState → bool) (mode : ClosureMode).
Hypothesis keyer_pure : ∀ ks c phase, (keyer ks c phase).1 = κ phase c.

#[local] Abbreviation orbit0 := (orbit pres κ 0).

(** The state after the steps [l] is one the mode constrains. *)
Definition in_scope (l : list CommittedStep) : Prop := mode = Raw ∨ boundary_point pres l.

Definition safe (policy : Digest) (e : ExecConfig) : Prop :=
  ∃ d, try_resolve (interner pres) (world e) = Some d ∧ predicate (mkSafety (mkId d) (mkId policy)) = true.

(** Every state in scope along the walk is safe. *)
Definition safe_walk (policy : Digest) (l : list CommittedStep) (es : list ExecConfig) : Prop :=
  ∀ n en, es !! n = Some en → in_scope (take n l) → safe policy en.

(** The first state in scope that is not. *)
Definition first_violation (policy : Digest) (e0 : ExecConfig) (v : ClosureViolation) : Prop :=
  ∃ l es e' d, orbit0 e0 l es ∧ last es = Some e' ∧ in_scope l ∧ v_mode v = mode ∧
    try_resolve (interner pres) (world e') = Some d ∧ v_state v = mkSafety (mkId d) (mkId policy) ∧
    predicate (v_state v) = false ∧
    (∀ n en, n < length l → es !! n = Some en → in_scope (take n l) → safe policy en) ∧
    match mode, v_site v with
    | Raw, VisibleSuccessor => S (v_visible_depth v) = length (visible_of pres l)
    | _, _ => v_visible_depth v = length (visible_of pres l)
    end.

(** How many states are checked along a walk. *)
Definition checked_states (l : list CommittedStep) : nat :=
  match mode with Raw => S (length l) | Visible => S (length (visible_of pres l)) end.

Record closure_inv (policy : Digest) (e0 : ExecConfig) (l : list CommittedStep) (es : list ExecConfig)
    (s : ClosureState (K := K)) : Prop := {
  ci_orbit : orbit0 e0 l es;
  ci_last : last es = Some (c_current s);
  ci_phase : c_phase s = saturating_add 0 (Z.of_nat (length l));
  ci_depth : c_visible_depth s = length (visible_of pres l);
  ci_boundary : boundary_point pres l;
  ci_safe : safe_walk policy l es;
  ci_checked : c_checked s = checked_states l
}.

Lemma check_raw_spec policy r last_index d checked idx l :
  match check_raw predicate policy r last_index d checked idx l with
  | inr k => k = checked + length l ∧ ∀ n s, l !! n = Some s → predicate (mkSafety (step_dst s) policy) = true
  | inl v => ∃ n s, l !! n = Some s ∧ predicate (mkSafety (step_dst s) policy) = false ∧
      (∀ m s', m < n → l !! m = Some s' → predicate (mkSafety (step_dst s') policy) = true) ∧
      v = mkViolation Raw (if r && (idx + n =? last_index) then VisibleSuccessor else AdministrativeIntermediate)
            (mkSafety (step_dst s) policy) d
  end.
Proof.
  revert checked idx. induction l as [|s l IH]; intros checked idx; cbn [check_raw].
  { split; [cbn; lia|]. intros n s. by rewrite lookup_nil. }
  destruct (predicate _) eqn:Ep; cbn [negb].
  - specialize (IH (S checked) (S idx)). destruct (check_raw _ _ _ _ _ _ _) as [v|k].
    + destruct IH as (n & s' & Hn & Hp & Hb & ->). exists (S n), s'. split_and!; [done|done| |by rewrite Nat.add_succ_r].
      intros [|m] s'' Hm; cbn; [by intros [= <-]|apply Hb; lia].
    + destruct IH as [-> Hall]. split; [cbn; lia|]. intros [|n] s'; cbn; [by intros [= <-]|apply Hall].
  - exists 0, s. split_and!; [done|done|lia|by rewrite Nat.add_0_r].
Qed.

(** The state after a step of an orbit. *)
Lemma orbit_dst e l es n s :
  orbit0 e l es → l !! n = Some s →
  ∃ en, es !! S n = Some en ∧ try_resolve (interner pres) (world en) = Some (digest (step_dst s)).
Proof.
  intros (_ & _ & Hs) Hn. destruct (Hs _ _ Hn) as (a & b & _ & Hb & Hc%commits_spec). exists b. split; [done|apply Hc].
Qed.

Lemma boundary_administrative l l' n :
  administrative_steps pres l' → 0 < n → n ≤ length l' → ¬ boundary_point pres (l ++ take n l').
Proof.
  intros Ha Hn Hle. destruct (lookup_lt_is_Some_2 l' (n - 1)) as [s Es]; [lia|].
  replace n with (S (n - 1)) by lia. rewrite (take_S_r _ _ _ Es), app_assoc.
  intros [Hnil|(l0 & s' & Heq & Hl)]; [by destruct (l ++ _)|].
  apply app_inj_2 in Heq as [_ [= ->]]; [|done]. eapply Forall_lookup_1 in Ha; [|exact Es]. cbn in Ha. congruence.
Qed.

(** A walk stays safe when the new states in scope are. *)
Lemma safe_walk_app policy e0 l es l' es' :
  safe_walk policy l es → orbit0 e0 l es → orbit0 e0 (l ++ l') es' →
  (∀ n en, 0 < n → n ≤ length l' → es' !! (length l + n) = Some en → in_scope (l ++ take n l') → safe policy en) →
  safe_walk policy (l ++ l') es'.
Proof.
  intros Hs Ho Ho' Hnew n en Hn Hin. destruct (decide (n ≤ length l)) as [Hle|Hgt].
  - destruct (orbit_prefix _ _ _ _ _ _ _ _ Ho Ho') as [_ Hes]; [rewrite length_app; lia|].
    rewrite take_app_le in Hin by done. apply (Hs n); [|done]. rewrite Hes, lookup_take_lt by lia. done.
  - assert (n < length es') as Hlt by (by eapply lookup_lt_Some). destruct Ho' as (Hlen & _). rewrite length_app in Hlen.
    apply (Hnew (n - length l)); [lia|lia| |].
    + by replace (length l + (n - length l)) with n by lia.
    + rewrite take_app_ge in Hin by lia. done.
Qed.

Definition closure_claim (policy : Digest) (e0 : ExecConfig) (r : ClosureResult) : Prop :=
  match r with
  | Violated v => first_violation policy e0 v
  | Closed n d => ∃ l es e', orbit0 e0 l es ∧ last es = Some e' ∧ safe_walk policy l es ∧
      d = length (visible_of pres l) ∧ n = checked_states l ∧
      (admissible pres e' = ∅ ∨ ∃ l0 l1 e1, l = l0 ++ l1 ∧ es !! length l0 = Some e1 ∧
        (honest pres κ → administratively_diverges pres κ (saturating_add 0 (Z.of_nat (length l0))) e1 ∧
          ∀ l' es' e2, orbit pres κ (saturating_add 0 (Z.of_nat (length l0))) e1 l' es' → last es' = Some e2 →
          ∃ j ej, es !! (length l0 + j) = Some ej ∧ project ej = project e2))
  | ClosureUnknownR UnresolvedConfiguration => unresolved pres e0
  | ClosureUnknownR (ClosureBudgetExhausted n b) => n = b ∧ b = max_visible_steps budget
  | ClosureUnknownR (Unestablished d _) => d < max_visible_steps budget
  end.

Lemma visible_of_take l n : visible_of pres l = [] → visible_of pres (take n l) = [].
Proof. rewrite <-(take_drop n l) at 1. rewrite visible_of_app. by intros [? _]%app_nil. Qed.

(** The administrative part of what a saturated step consumed. *)
Lemma sat_returns_quiet_part ph e out l n :
  sat_returns pres κ ph budget e out l → (is_realizing out = true → n < length l) → visible_of pres (take n l) = [].
Proof.
  intros Hret Hn. destruct (sat_returns_walk _ _ _ _ _ _ _ Hret) as (es & e' & _ & _ & Hout).
  destruct out as [o e2 h|c|c|u].
  - destruct Hout as (_ & _ & l0 & s & -> & Ha & _). specialize (Hn eq_refl). rewrite length_app in Hn. cbn in Hn.
    rewrite take_app_le by lia. by apply visible_of_take, visible_of_administrative.
  - destruct Hout as [_ Ha]. by apply visible_of_take, visible_of_administrative.
  - destruct Hout as [Ha _]. by apply visible_of_take, visible_of_administrative.
  - by apply visible_of_take.
Qed.

(** The [Raw] scan of the steps after a safe walk. *)
Lemma raw_violation policy e0 e l es out l' es' d v checked phase :
  mode = Raw → safe_walk policy l es → orbit0 e0 l es → orbit0 e0 (l ++ l') es' →
  sat_returns pres κ phase budget e out l' → d = length (visible_of pres l) →
  check_raw predicate (mkId policy) (is_realizing out) (length l' - 1) d checked 0 l' = inl v →
  first_violation policy e0 v.
Proof.
  intros Hm Hsafe Ho Ho' Hret Hd E. pose proof (check_raw_spec (mkId policy) (is_realizing out) (length l' - 1) d checked 0 l') as Hc.
  rewrite E in Hc. destruct Hc as (n & s & Hn & Hp & Hbefore & ->). clear E. apply lookup_lt_Some in Hn as Hlt.
  destruct (orbit_dst _ _ _ (length l + n) s Ho') as (en & Hen & Hres).
  { rewrite lookup_app_r by lia. by replace (length l + n - length l) with n by lia. }
  assert (take (length l + S n) (l ++ l') = l ++ take (S n) l') as Htake.
  { rewrite take_app_ge by lia. by replace (length l + S n - length l) with (S n) by lia. }
  exists (l ++ take (S n) l'), (take (S (length l + S n)) es'), en, (digest (step_dst s)). split_and!.
  - rewrite <-Htake. apply orbit_take; [done|]. rewrite length_app. lia.
  - destruct Ho' as (Hlen & _). rewrite length_app in Hlen. rewrite last_lookup, length_take, Nat.min_l by lia. cbn.
    rewrite lookup_take_lt by lia. by rewrite Nat.add_succ_r.
  - by left.
  - done.
  - done.
  - cbn. by destruct (step_dst s).
  - done.
  - intros m em Hm' Hem _. rewrite length_app, length_take, Nat.min_l in Hm' by lia.
    rewrite lookup_take_lt in Hem by lia. destruct (decide (m ≤ length l)) as [Hle|Hgt].
    + destruct (orbit_prefix _ _ _ _ _ _ _ _ Ho Ho') as [_ Hes]; [rewrite length_app; lia|].
      apply (Hsafe m); [|by left]. rewrite Hes, lookup_take_lt by lia. done.
    + destruct (lookup_lt_is_Some_2 l' (m - length l - 1)) as [s' Es']; [lia|].
      destruct (orbit_dst _ _ _ (m - 1) s' Ho') as (em' & Hem' & Hres').
      { rewrite lookup_app_r by lia. by replace (m - 1 - length l) with (m - length l - 1) by lia. }
      replace (S (m - 1)) with m in Hem' by lia. assert (em' = em) as -> by congruence.
      exists (digest (step_dst s')). split; [done|]. specialize (Hbefore (m - length l - 1) s').
      destruct (step_dst s'). apply Hbefore; [lia|done].
  - rewrite Hm. cbn [v_site v_visible_depth Nat.add]. rewrite visible_of_app, length_app.
    destruct (is_realizing out) eqn:Er; cbn [andb].
    + destruct (Nat.eqb_spec n (length l' - 1)) as [->|Hne].
      * rewrite take_ge by lia. destruct out as [o e2 h| | |]; try done.
        destruct (sat_returns_walk _ _ _ _ _ _ _ Hret) as (? & ? & _ & _ & _ & -> & _). cbn. lia.
      * rewrite (sat_returns_quiet_part _ _ _ _ _ Hret) by (intros; lia). cbn. lia.
    + rewrite (sat_returns_quiet_part _ _ _ _ _ Hret) by (rewrite Er; done). cbn. lia.
Qed.

Lemma raw_states_safe pol e0 l l' es' r last_index d checked checked' :
  orbit0 e0 (l ++ l') es' → check_raw predicate (mkId pol) r last_index d checked 0 l' = inr checked' →
  checked' = checked + length l' ∧
  ∀ n en, 0 < n → n ≤ length l' → es' !! (length l + n) = Some en → safe pol en.
Proof.
  intros Ho' Ec. pose proof (check_raw_spec (mkId pol) r last_index d checked 0 l') as Hc. rewrite Ec in Hc.
  destruct Hc as [-> Hall]. split; [done|]. intros n en Hn Hnl Hen.
  destruct (lookup_lt_is_Some_2 l' (n - 1)) as [s' Es']; [lia|].
  destruct (orbit_dst _ _ _ (length l + (n - 1)) s' Ho') as (en' & Hen' & Hres).
  { rewrite lookup_app_r by lia. by replace (length l + (n - 1) - length l) with (n - 1) by lia. }
  replace (S (length l + (n - 1))) with (length l + n) in Hen' by lia. assert (en' = en) as -> by congruence.
  exists (digest (step_dst s')). split; [done|]. specialize (Hall _ _ Es'). by destruct (step_dst s').
Qed.

(** The scan under [Raw], and none under [Visible]. *)
Definition scanned_safe (pol : Digest) (l l' : list CommittedStep) (es' : list ExecConfig) (checked checked' : nat) : Prop :=
  checked' = match mode with Raw => checked + length l' | Visible => checked end ∧
  (mode = Raw → ∀ n en, 0 < n → n ≤ length l' → es' !! (length l + n) = Some en → safe pol en).

Lemma closure_administrative pol e0 l es l' es' checked checked' :
  safe_walk pol l es → orbit0 e0 l es → orbit0 e0 (l ++ l') es' → checked = checked_states l →
  scanned_safe pol l l' es' checked checked' → administrative_steps pres l' →
  safe_walk pol (l ++ l') es' ∧ visible_of pres (l ++ l') = visible_of pres l ∧ checked' = checked_states (l ++ l').
Proof.
  intros Hsafe Ho Ho' Hck [-> Hraw] Ha.
  assert (visible_of pres (l ++ l') = visible_of pres l) as Hv.
  { by rewrite visible_of_app, (visible_of_administrative _ _ Ha), app_nil_r. }
  split_and!; [|done|].
  - eapply safe_walk_app; [done..|]. intros n en Hn Hnl Hen [Hm|Hbp]; [by eapply Hraw|].
    by eapply boundary_administrative in Hbp.
  - rewrite Hck. unfold checked_states. destruct mode; [by rewrite Hv|]. rewrite length_app. lia.
Qed.

(** Of the states a realizing step leads through only the last is a boundary. *)
Lemma realizing_boundary e0 l l0 st es' e2 n en :
  orbit0 e0 (l ++ l0 ++ [st]) es' → last es' = Some e2 → administrative_steps pres l0 →
  0 < n → n ≤ S (length l0) → es' !! (length l + n) = Some en → boundary_point pres (l ++ take n (l0 ++ [st])) →
  en = e2 ∧ n = S (length l0).
Proof.
  intros (Hlen & _) Hlast Ha Hn Hnl Hen Hb. rewrite !length_app in Hlen. cbn in Hlen.
  destruct (decide (n = S (length l0))) as [->|Hne].
  - rewrite last_lookup, Hlen in Hlast. cbn in Hlast. rewrite Nat.add_1_r in Hlast. split; congruence.
  - rewrite take_app_le in Hb by lia. by destruct (boundary_administrative l l0 n Ha ltac:(lia) ltac:(lia) Hb).
Qed.

Lemma closure_realizing pol e0 l es s l0 st es' e2 checked' phase' ks d :
  closure_inv pol e0 l es s → orbit0 e0 (l ++ l0 ++ [st]) es' → last es' = Some e2 →
  administrative_steps pres l0 → label (profile pres) st = Ok Realizing →
  scanned_safe pol l (l0 ++ [st]) es' (c_checked s) checked' →
  phase' = saturating_add (c_phase s) (Z.of_nat (length (l0 ++ [st]))) →
  try_resolve (interner pres) (world e2) = Some d → predicate (mkSafety (mkId d) (mkId pol)) = true →
  closure_inv pol e0 (l ++ l0 ++ [st]) es' (mkClosure e2 (S (c_visible_depth s)) phase'
    (match mode with Raw => checked' | Visible => S checked' end) ks).
Proof.
  intros [Ho _ Hph Hd _ Hsafe Hck] Ho' Hlast Ha Hl [-> Hraw] -> Hres Hp.
  assert (visible_of pres (l ++ l0 ++ [st]) = visible_of pres l ++ [observation st]) as Hv.
  { rewrite !visible_of_app, (visible_of_administrative _ _ Ha). unfold visible_of at 2. cbn. by rewrite Hl. }
  split; cbn [c_current c_visible_depth c_phase c_checked]; try done.
  - rewrite Hph, saturating_add_add by lia. f_equal. rewrite (length_app l). lia.
  - rewrite Hv, length_app, Hd. cbn. lia.
  - right. exists (l ++ l0), st. by rewrite app_assoc.
  - eapply safe_walk_app; [done..|]. intros n en Hn Hnl Hen [Hm|Hb]; [by eapply Hraw|].
    rewrite length_app, Nat.add_1_r in Hnl.
    destruct (realizing_boundary _ _ _ _ _ _ _ _ Ho' Hlast Ha Hn Hnl Hen Hb) as [-> _]. by exists d.
  - rewrite Hck. unfold checked_states. destruct mode; [rewrite Hv|]; rewrite !length_app; cbn; lia.
Qed.

(** The violation found at a visible successor. *)
Lemma visible_violation pol e0 l es l0 st es' e2 d :
  mode = Visible → safe_walk pol l es → orbit0 e0 l es → orbit0 e0 (l ++ l0 ++ [st]) es' → last es' = Some e2 →
  administrative_steps pres l0 → label (profile pres) st = Ok Realizing →
  try_resolve (interner pres) (world e2) = Some d → predicate (mkSafety (mkId d) (mkId pol)) = false →
  first_violation pol e0 (mkViolation mode VisibleSuccessor (mkSafety (mkId d) (mkId pol)) (length (visible_of pres l) + 1)).
Proof.
  intros Hm Hsafe Ho Ho' Hlast Ha Hl Hres Hp.
  exists (l ++ l0 ++ [st]), es', e2, d. split_and!; try done.
  - right. right. exists (l ++ l0), st. by rewrite app_assoc.
  - intros n en Hn Hen [?|Hb]; [congruence|]. destruct (decide (n ≤ length l)) as [Hle|Hgt].
    + destruct (orbit_prefix _ _ _ _ _ _ _ _ Ho Ho') as [_ Hes]; [rewrite length_app; lia|].
      apply (Hsafe n); [by rewrite Hes, lookup_take_lt by lia|]. right. by rewrite take_app_le in Hb by lia.
    + exfalso. rewrite !length_app in Hn. cbn in Hn. rewrite take_app_ge in Hb by lia.
      destruct (realizing_boundary e0 l l0 st es' e2 (n - length l) en Ho' Hlast Ha) as [_ ?]; try done; try lia.
      by replace (length l + (n - length l)) with n by lia.
  - rewrite Hm. cbn [v_site v_visible_depth]. rewrite !visible_of_app, (visible_of_administrative _ _ Ha), length_app.
    unfold visible_of at 3. cbn. by rewrite Hl.
Qed.

Lemma closure_iter_spec pol e0 l es s :
  try_resolve (interner pres) (policy e0) = Some pol → is_Some (try_resolve (interner pres) (world e0)) →
  closure_inv pol e0 l es s → c_visible_depth s ≤ max_visible_steps budget →
  match closure_iter keyer pres budget predicate mode (mkId pol) s with
  | None => False
  | Some (inl r) => closure_claim pol e0 r
  | Some (inr s') => (∃ l' es', closure_inv pol e0 l' es' s') ∧ c_visible_depth s' = S (c_visible_depth s) ∧
      c_visible_depth s' ≤ max_visible_steps budget
  end.
Proof.
  intros Hpol Hworld Hinv Hle. pose proof Hinv as [Ho Hlast Hph Hd Hb Hsafe Hck].
  unfold closure_iter. case_decide as Hbud; [split; lia|].
  pose proof (sat_step_resumes keyer pres budget κ keyer_pure e0 l es (c_current s) (c_phase s) (c_keyer s) Ho Hlast Hph) as Hs.
  destruct (sat_step _ _ _ _ _ _) as [[[[out l'] cost] ks']| |]; [|destruct Hs as [?|?], Hworld; congruence|done].
  destruct Hs as (_ & Hret & es1 & es' & e' & Ho1 & Hes1 & Hout & Ho' & Hlast' & Hmid). cbv zeta.
  destruct (if decide (mode = Raw) then _ else _) as [v|checked] eqn:Ec.
  { case_decide as Hm; [|done]. by eapply raw_violation. }
  assert (scanned_safe pol l l' es' (c_checked s) checked) as Hscan.
  { unfold scanned_safe. case_decide as Hm; [|destruct mode; [by injection Ec as ->|done]].
    rewrite Hm. by destruct (raw_states_safe _ _ _ _ _ _ _ _ _ _ Ho' Ec). }
  clear Ec. destruct out as [o e2 n|cert|cert|u].
  - destruct Hout as (-> & Hvis & l0 & st & -> & Ha & Hl).
    edestruct orbit_resolves as [d Hres]; [exact Ho'|rewrite last_lookup in Hlast'; exact Hlast'|right; by destruct l, l0|].
    unfold canonical_state. cbn [os_world project]. rewrite Hres. cbn [mbind option_bind].
    destruct (predicate (mkSafety (mkId d) (mkId pol))) eqn:Ep; cbn [negb].
    + pose proof (closure_realizing _ _ _ _ _ _ _ _ _ _ _ ks' _ Hinv Ho' Hlast' Ha Hl Hscan eq_refl Hres Ep) as Hnew.
      destruct mode; (split_and!; [eauto|done|cbn; lia]).
    + destruct mode eqn:Hm; [rewrite decide_True, Hd, <-Hm by done; by eapply visible_violation|exfalso].
      destruct Hscan as [_ Hraw]. destruct (Hraw Hm (length (l0 ++ [st])) e2) as (d' & Hd' & Hp'); [rewrite length_app; cbn; lia|done| |congruence].
      rewrite last_lookup in Hlast'. destruct Ho' as (Hlen & _). rewrite Hlen, !length_app in Hlast'. rewrite length_app. exact Hlast'.
  - destruct Hout as [Hadmissible Ha].
    destruct (closure_administrative _ _ _ _ _ _ _ _ Hsafe Ho Ho' Hck Hscan Ha) as (Hsw & Hv & Hcs).
    exists (l ++ l'), es', e'. rewrite Hv. split_and!; try done. by left.
  - destruct Hout as [Ha Hdiv].
    destruct (closure_administrative _ _ _ _ _ _ _ _ Hsafe Ho Ho' Hck Hscan Ha) as (Hsw & Hv & Hcs).
    exists (l ++ l'), es', e'. rewrite Hv. split_and!; try done. right. exists l, l', (c_current s). split_and!; [done|done|].
    intros Hh. rewrite <-Hph. split; [inversion Hret; subst; by eapply returns_diverges|].
    intros l2 es2 e2 Ho2 Hlast2. destruct (Hdiv Hh l2 es2 Ho2 e2 Hlast2) as (j & ej & Hj & Hpj).
    exists j, ej. by rewrite Hes1, lookup_drop in Hj.
  - cbn. lia.
Qed.

Lemma check_closure_spec e0 ks :
  match check_closure keyer pres budget predicate mode e0 ks with
  | Done (ClosureUnknownR UnresolvedConfiguration) => unresolved pres e0
  | Done r => ∃ pol, try_resolve (interner pres) (policy e0) = Some pol ∧ closure_claim pol e0 r
  | _ => False
  end.
Proof.
  unfold check_closure, unresolved. destruct (try_resolve _ (policy e0)) as [pol|] eqn:Epol; [|by right].
  unfold canonical_state. cbn [os_world project]. destruct (try_resolve _ (world e0)) as [w|] eqn:Ew; [|by left].
  cbn [mbind option_bind]. destruct (predicate _) eqn:Ep; cbn [negb].
  2: { exists pol. split; [done|]. exists [], [e0], e0, w. split_and!; try done; [right; by left|intros n en Hn; cbn in Hn; lia|by destruct mode]. }
  assert (closure_inv pol e0 [] [e0] (mkClosure e0 0 0 1 ks)) as Hstart.
  { split; cbn; [apply orbit_start|done|done|done|by left| |unfold checked_states; by destruct mode].
    intros [|n] en; cbn; [|done]. intros [= <-] _. by exists w. }
  destruct (iterate_spec (closure_iter keyer pres budget predicate mode (mkId pol))
    (λ s, (∃ l es, closure_inv pol e0 l es s) ∧ c_visible_depth s ≤ max_visible_steps budget)
    (λ s, max_visible_steps budget - c_visible_depth s) (S (max_visible_steps budget)) (mkClosure e0 0 0 1 ks))
    as (t & [(l & es & Ht) Hle] & Hr).
  - split; [by exists [], [e0]|cbn; lia].
  - cbn. lia.
  - intros s s' [(l & es & Hs) Hle] E. pose proof (closure_iter_spec pol e0 l es s Epol (ex_intro _ w Ew) Hs Hle) as Hi.
    rewrite E in Hi. destruct Hi as (? & ? & ?). split; [by split|lia].
  - pose proof (closure_iter_spec pol e0 l es t Epol (ex_intro _ w Ew) Ht Hle) as Hi.
    destruct Hr as [(r & E & ->)|[E ->]]; rewrite E in Hi; [|done].
    assert (∃ p, Some pol = Some p ∧ closure_claim p e0 r) as Hc by by exists pol.
    destruct r as [| |[]]; try done. cbn in Hi. destruct Hi as [?|?]; congruence.
Qed.
End closure.

(** A closed walk covers every orbit. *)
Lemma closed_invariant `{Blake3} `{UnicodeNfc} pres κ predicate mode pol e0 n d l2 es2 e2 :
  closure_claim pres (budget_uniform 0) κ predicate mode pol e0 (Closed n d) → honest pres κ →
  orbit pres κ 0 e0 l2 es2 → last es2 = Some e2 → in_scope pres mode l2 → safe pres predicate pol e2.
Proof.
  intros (l & es & e' & Ho & Hlast & Hsafe & _ & _ & Hend) Hh Ho2 Hlast2 Hscope.
  pose proof Ho as (Hlen & _). pose proof Ho2 as (Hlen2 & _). rewrite last_lookup, Hlen2 in Hlast2. cbn in Hlast2.
  destruct (decide (length l2 ≤ length l)) as [Hle|Hgt].
  { destruct (orbit_prefix _ _ _ _ _ _ _ _ Ho2 Ho Hle) as [Hl2 Hes2].
    apply (Hsafe (length l2)); [by rewrite Hes2, lookup_take_lt in Hlast2 by lia|by rewrite <-Hl2]. }
  destruct Hend as [Hquiet|(l0 & l1 & e1 & -> & He1 & Hdiv)].
  - destruct (orbit_prefix _ _ _ _ _ _ _ _ Ho Ho2) as [Hl Hes]; [lia|].
    destruct Ho2 as (_ & _ & Hs). destruct (lookup_lt_is_Some_2 l2 (length l)) as [s Es]; [lia|].
    destruct (Hs _ _ Es) as (a & b & Ha & _ & (c & p & o & (Hc & _) & _)).
    rewrite last_lookup, Hlen in Hlast. cbn in Hlast. rewrite Hes, lookup_take_lt in Hlast by lia.
    assert (a = e') as -> by congruence. unfold admissible in Hquiet. set_solver.
  - destruct (Hdiv Hh) as [Hd Hstates]. rewrite length_app in Hgt.
    assert (l2 = l0 ++ drop (length l0) l2) as Hl2.
    { destruct (orbit_prefix _ _ _ _ _ _ _ _ Ho Ho2) as [Hl _]; [rewrite length_app; lia|].
      rewrite <-(take_drop (length l0) l2) at 1. f_equal. apply (f_equal (take (length l0))) in Hl.
      rewrite take_app_length, take_take, length_app, Nat.min_l in Hl by lia. done. }
    rewrite Hl2 in Ho2. destruct (orbit_drop _ _ _ _ _ _ _ Ho2) as (e1' & He1' & Hod).
    assert (e1' = e1) as ->.
    { rewrite <-Hl2 in Ho2. destruct (orbit_prefix _ _ _ _ _ _ _ _ Ho Ho2) as [_ Hes]; [rewrite length_app; lia|].
      rewrite Hes, lookup_take_lt in He1 by (rewrite length_app; lia). congruence. }
    destruct Hscope as [Hm|Hb].
    + destruct (Hstates _ _ e2 Hod) as (j & ej & Hj & Hpj).
      { rewrite last_lookup, length_drop, lookup_drop. by replace (_ + pred _) with (length l2) by lia. }
      destruct (Hsafe (length l0 + j) ej Hj) as (d' & Hd' & Hp); [by left|].
      exists d'. split; [|done]. injection Hpj as <- _. done.
    + exfalso. pose proof (diverges_only _ _ _ _ _ _ Hd Hod) as Ha.
      rewrite Hl2 in Hb. rewrite <-(take_ge (drop (length l0) l2) (length (drop (length l0) l2))) in Hb by done.
      apply (boundary_administrative pres l0 _ (length (drop (length l0) l2)) Ha) in Hb; rewrite ?length_drop in *; lia || done.
Qed.

(** * Properties *)

(** C26: a closed predicate is an invariant. The check always answers, without a
    panic. When it says closed and the presentation is honest, the predicate holds at
    every state in scope that any number of engine steps reaches from the start, not
    only at those it visited: after realizing steps under [Visible], after every step
    under [Raw]. When it reports a violation, the reported state is the first one in
    scope, along the one trajectory there is, where the predicate fails. Otherwise it
    says why it cannot tell. *)
Theorem closure_sound `{Blake3} `{UnicodeNfc} {K} (keyer : K → Candidate → Z → Key * K)
    pres budget κ predicate mode e0 ks :
  (∀ ks c phase, (keyer ks c phase).1 = κ phase c) →
  match check_closure keyer pres budget predicate mode e0 ks with
  | Done (Closed _ _) => honest pres κ →
      ∃ pol, try_resolve (interner pres) (policy e0) = Some pol ∧
      ∀ l es e', orbit pres κ 0 e0 l es → last es = Some e' → in_scope pres mode l → safe pres predicate pol e'
  | Done (Violated v) => ∃ pol, try_resolve (interner pres) (policy e0) = Some pol ∧
      first_violation pres κ predicate mode pol e0 v
  | Done (ClosureUnknownR UnresolvedConfiguration) => unresolved pres e0
  | Done (ClosureUnknownR (ClosureBudgetExhausted n b)) => n = b ∧ b = max_visible_steps budget
  | Done (ClosureUnknownR (Unestablished d _)) => d < max_visible_steps budget
  | _ => False
  end.
Proof.
  intros Hκ. pose proof (check_closure_spec keyer pres budget κ predicate mode Hκ e0 ks) as Hs.
  destruct (check_closure _ _ _ _ _ _ _) as [[n d|v|[]]| |]; try done; [|by destruct Hs as (? & _ & ?)..].
  destruct Hs as (pol & Hpol & Hc). intros Hh. exists pol. split; [done|]. intros l es e'. by apply (closed_invariant pres κ predicate mode pol e0 n d).
Qed.

(** The world is one of the two the spinning system visits. *)
Definition spin_safe (s : SafetyState) : bool :=
  bool_decide (safe_world s = demo_id 2) || bool_decide (safe_world s = demo_id 3).

Lemma closure_sound_witness :
  ∃ pol, ∀ l es e', orbit (H := demo_hash) (H0 := λ s, s) (@spin_pres demo_hash) demo_key 0 demo_exec l es →
    last es = Some e' → @safe (@spin_pres demo_hash) spin_safe pol e'.
Proof.
  pose proof (@closure_sound demo_hash (λ s, s) unit demo_keyer (@spin_pres demo_hash) demo_budget demo_key
    spin_safe Raw demo_exec tt (λ _ _ _, eq_refl)) as Hc.
  destruct (check_closure _ _ _ _ _ _ _) as [[n d|v|u]| |] eqn:E; try (vm_compute in E; discriminate E).
  destruct (Hc (@spin_honest demo_hash)) as (pol & _ & Hall). exists pol. intros l es e' Ho Hlast.
  apply (Hall l es e' Ho Hlast). left. reflexivity.
Defined.

(** The same violation, of the first visible successor, is reported at depth 1 under
    [Visible] and at depth 0 under [Raw]. *)
Lemma violation_depth_depends_on_mode :
  let check mode := @check_closure demo_hash (λ s, s) unit demo_keyer (@real_pres demo_hash) demo_budget
    (λ s, bool_decide (safe_world s = demo_id 2)) mode demo_exec tt in
  match check Visible, check Raw with
  | Done (Violated v), Done (Violated v') => v_site v = VisibleSuccessor ∧ v_site v' = VisibleSuccessor ∧
      v_state v = v_state v' ∧ v_visible_depth v = 1 ∧ v_visible_depth v' = 0
  | _, _ => False
  end.
Proof. vm_compute. auto. Qed.
