(* ===== verification/Bisimulation.v ===== *)
(** Comparing saturated systems (src/crates/soc-core/src/saturate/bisimulation.rs).

    [check_saturated] walks two systems in lockstep; it is [iterate] over a record of
    the loop's variables, with one more than the pair budget as fuel. The
    specification is a deterministic behaviour on observable states: a contract holds
    when some relation is closed under matching steps. [Behaves] is what a system
    promises the walk; the presented systems of SatDriver.v keep it when they are
    honest (SatBehaves.v). *)
From S2P Require Import Prelude IntCodec Canon CanonLaws Calendar Outcome Witness Encoding Parsing.
From S2P Require Import Derivation Publication Settlement Journal Commit SatProfile SatCertificate SatCheck.
From S2P Require Import Saturation SatLasso SatDriver.

Inductive Contract : Type := Bisimilar | Refines.
#[export] Instance Contract_eq_dec : EqDecision Contract.
Proof. solve_decision. Defined.
Definition contract_ordinal (c : Contract) : Z := match c with Bisimilar => 0 | Refines => 1 end.
#[export] Instance Canonical_Contract : Canonical Contract := λ c, write_uint (contract_ordinal c).

Inductive Summand : Type := InRealizing | InQuiescent | InDivergent | InUnknown.
#[export] Instance Summand_eq_dec : EqDecision Summand.
Proof. solve_decision. Defined.
Definition summand_of (step : SaturatedStep) : Summand :=
  match step with
  | SRealizing _ _ _ => InRealizing
  | SQuiescent _ => InQuiescent
  | SDivergent _ => InDivergent
  | SUnknown _ => InUnknown
  end.
Definition summand_ordinal (s : Summand) : Z :=
  match s with InRealizing => 0 | InQuiescent => 1 | InDivergent => 2 | InUnknown => 3 end.
#[export] Instance Canonical_Summand : Canonical Summand := λ s, write_uint (summand_ordinal s).

Inductive MismatchKind : Type := SummandMismatch | ObservationMismatch | DivergenceVsQuiescence.
Definition mismatch_ordinal (k : MismatchKind) : Z :=
  match k with SummandMismatch => 0 | ObservationMismatch => 1 | DivergenceVsQuiescence => 2 end.
#[export] Instance Canonical_MismatchKind : Canonical MismatchKind := λ k, write_uint (mismatch_ordinal k).

Record SaturatedCounterexample : Type := mkCx {
  cx_contract : Contract;
  cx_context : ContextId;
  cx_profile : ObservationProfileId;
  cx_implementation : PresentationIdV1;
  cx_specification : PresentationIdV1;
  cx_visible_prefix : list Observation;
  cx_implementation_summand : Summand;
  cx_specification_summand : Summand;
  cx_kind : MismatchKind
}.
Definition cx_visible_depth (cx : SaturatedCounterexample) : nat := length (cx_visible_prefix cx).

Definition CX_MARKER : string := "brix.soc.saturated-counterexample".
Definition cx_preimage (cx : SaturatedCounterexample) : bytes :=
  [] |> write_bytes (bytes_of_string CX_MARKER)
     |> write_uint 1
     |> canon_write (cx_contract cx)
     |> write_id (cx_context cx)
     |> write_id (cx_profile cx)
     |> write_id (cx_implementation cx)
     |> write_id (cx_specification cx)
     |> write_list (canon_bytes <$> cx_visible_prefix cx)
     |> canon_write (cx_implementation_summand cx)
     |> canon_write (cx_specification_summand cx)
     |> canon_write (cx_kind cx).
Definition cx_digest `{Blake3} (cx : SaturatedCounterexample) : Digest := digest_of Value (cx_preimage cx).

Inductive ComparisonUnknown : Type :=
  | UndeclaredAssumptionC (id : AssumptionId)
  | BoundaryMismatch
  | ImplementationUnknown (visible_depth : nat) (reason : SaturationUnknown)
  | SpecificationUnknown (visible_depth : nat) (reason : SaturationUnknown)
  | PairBudgetExhausted (pairs budget : nat).

Inductive SaturatedComparison : Type :=
  | Holds (visible_steps pairs : nat)
  | Fails (cx : SaturatedCounterexample)
  | ComparisonUnknownR (u : ComparisonUnknown).

Definition holds (r : SaturatedComparison) : bool := match r with Holds _ _ => true | _ => false end.
Definition counterexample (r : SaturatedComparison) : option SaturatedCounterexample :=
  match r with Fails cx => Some cx | _ => None end.

Abbreviation Pair := (ObservableState * ObservableState)%type.

Section check.
Context {M1 M2 : Type} (implementation : SaturatedSystem M1) (specification : SaturatedSystem M2).
Context (contract : Contract) (max_pairs : nat).

(** The loop's variables; the two systems' own state among them. *)
Record PairState : Type := mkPair {
  seen : gset Pair;
  visible_prefix : list Observation;
  impl_config : ExecConfig;
  spec_config : ExecConfig;
  impl_phase : Z;
  spec_phase : Z;
  impl_state : M1;
  spec_state : M2
}.

(** The closure [fail]. *)
Definition fail (kind : MismatchKind) (prefix : list Observation) (impl_summand spec_summand : Summand) :
    SaturatedComparison :=
  Fails (mkCx contract (b_context (boundary implementation)) (b_profile (boundary implementation))
    (b_presentation (boundary implementation)) (b_presentation (boundary specification))
    prefix impl_summand spec_summand kind).

Definition pair_iter (s : PairState) : option (SaturatedComparison + PairState) :=
  let pair := (project (impl_config s), project (spec_config s)) in
  if decide (pair ∈ seen s) then Some (inl (Holds (length (visible_prefix s)) (size (seen s)))) else
  let seen' := {[ pair ]} ∪ seen s in
  if decide (max_pairs < size seen') then
    Some (inl (ComparisonUnknownR (PairBudgetExhausted (size seen') max_pairs))) else
  '(impl_step, impl_consumed, m1) ← saturated_step implementation (impl_state s) (impl_config s) (impl_phase s);
  '(spec_step, spec_consumed, m2) ← saturated_step specification (spec_state s) (spec_config s) (spec_phase s);
  let impl_phase' := saturating_add (impl_phase s) (Z.of_nat impl_consumed) in
  let spec_phase' := saturating_add (spec_phase s) (Z.of_nat spec_consumed) in
  let visible_depth := length (visible_prefix s) in
  let impl_summand := summand_of impl_step in
  let spec_summand := summand_of spec_step in
  match impl_step, spec_step with
  | SUnknown reason, _ => Some (inl (ComparisonUnknownR (ImplementationUnknown visible_depth reason)))
  | _, SUnknown reason => Some (inl (ComparisonUnknownR (SpecificationUnknown visible_depth reason)))
  | _, _ =>
    if decide (contract = Refines ∧ spec_summand = InDivergent) then Some (inl (Holds visible_depth (size seen'))) else
    match impl_step, spec_step with
    | SRealizing impl_observation impl_successor _, SRealizing spec_observation spec_successor _ =>
      if decide (impl_observation ≠ spec_observation)
      then Some (inl (fail ObservationMismatch (visible_prefix s) impl_summand spec_summand))
      else Some (inr (mkPair seen' (visible_prefix s ++ [impl_observation]) impl_successor spec_successor
             impl_phase' spec_phase' m1 m2))
    | SQuiescent _, SQuiescent _ => Some (inl (Holds visible_depth (size seen')))
    | SDivergent _, SDivergent _ => Some (inl (Holds visible_depth (size seen')))
    | SDivergent _, SQuiescent _ | SQuiescent _, SDivergent _ =>
      Some (inl (fail DivergenceVsQuiescence (visible_prefix s) impl_summand spec_summand))
    | _, _ => Some (inl (fail SummandMismatch (visible_prefix s) impl_summand spec_summand))
    end
  end.

(** The loop over the two assumptions. *)
Definition first_undeclared : option AssumptionId :=
  head (filter (λ a, ¬ (declares (sys_assumptions implementation) a = true ∧
                        declares (sys_assumptions specification) a = true))
    [HistoryIndependence; PhaseStableKeying]).

Definition check_saturated (m1 : M1) (m2 : M2) : outcome SaturatedComparison :=
  if decide (b_context (boundary implementation) ≠ b_context (boundary specification) ∨
             b_profile (boundary implementation) ≠ b_profile (boundary specification))
  then Done (ComparisonUnknownR BoundaryMismatch) else
  match first_undeclared with
  | Some a => Done (ComparisonUnknownR (UndeclaredAssumptionC a))
  | None => iterate pair_iter (S max_pairs)
      (mkPair ∅ [] (initial implementation) (initial specification) 0 0 m1 m2)
  end.
End check.

(** * Behaviours *)

(** What a saturated step shows of itself, on observable states. *)
Inductive VisibleStep : Type :=
  | VRealizing (o : Observation) (x : ObservableState)
  | VQuiescent
  | VDivergent
  | VUnknown.

Definition visible_step (step : SaturatedStep) : VisibleStep :=
  match step with
  | SRealizing o e _ => VRealizing o (project e)
  | SQuiescent _ => VQuiescent
  | SDivergent _ => VDivergent
  | SUnknown _ => VUnknown
  end.
Definition v_summand (s : VisibleStep) : Summand :=
  match s with VRealizing _ _ => InRealizing | VQuiescent => InQuiescent | VDivergent => InDivergent | VUnknown => InUnknown end.

Definition Behavior : Type := ObservableState → VisibleStep.

(** A system shows the behaviour [b] on the configurations of [P], whatever its
    history, phase and mutable state. *)
Class Behaves {M} (sys : SaturatedSystem M) (P : ExecConfig → Prop) (b : Behavior) : Prop := {
  behaves_initial : P (initial sys);
  behaves_step m e ph : P e → ∃ out n m', saturated_step sys m e ph = Some (out, n, m') ∧
    visible_step out = b (project e) ∧ ∀ o e' k, out = SRealizing o e' k → P e'
}.

(** The observations of a walk through realizing steps. *)
Inductive reach (b : Behavior) : ObservableState → list Observation → ObservableState → Prop :=
  | reach_nil x : reach b x [] x
  | reach_cons x o x' l y : b x = VRealizing o x' → reach b x' l y → reach b x (o :: l) y.

(** The contract's clauses, for one pair of steps. *)
Definition matching (c : Contract) (R : ObservableState → ObservableState → Prop) (s1 s2 : VisibleStep) : Prop :=
  match s1, s2 with
  | VUnknown, _ | _, VUnknown => False
  | VRealizing o1 x1, VRealizing o2 x2 => o1 = o2 ∧ R x1 x2
  | VQuiescent, VQuiescent | VDivergent, VDivergent => True
  | _, VDivergent => c = Refines
  | _, _ => False
  end.

Definition agrees (c : Contract) (b1 b2 : Behavior) (x y : ObservableState) : Prop :=
  ∃ R : ObservableState → ObservableState → Prop,
    (∀ x y, R x y → matching c R (b1 x) (b2 y)) ∧ R x y.

Lemma reach_snoc b x l y o z : reach b x l y → b y = VRealizing o z → reach b x (l ++ [o]) z.
Proof. induction 1 as [x|x o' x' l y Hb _ IH]; intros Hy; econstructor; [done|constructor|done|by apply IH]. Qed.

(** Behaviours are deterministic: of two walks the longer extends the shorter. *)
Lemma reach_prefix b x l1 y1 l2 y2 :
  reach b x l1 y1 → reach b x l2 y2 → length l1 ≤ length l2 → ∃ l3, l2 = l1 ++ l3 ∧ reach b y1 l3 y2.
Proof.
  intros H1. revert l2. induction H1 as [x|x o x' l1 y1 Hb H1 IH]; intros l2 H2 Hl; [by exists l2|].
  destruct H2 as [|x o2 x2 l2 y2 Hb2 H2]; [cbn in Hl; lia|]. rewrite Hb in Hb2. injection Hb2 as <- <-.
  destruct (IH l2 H2) as (l3 & -> & ?); [cbn in Hl; lia|]. by exists l3.
Qed.

Lemma reach_functional b x l y1 y2 : reach b x l y1 → reach b x l y2 → y1 = y2.
Proof.
  intros H1 H2. destruct (reach_prefix _ _ _ _ _ _ H1 H2) as (l3 & Hl & H3); [done|].
  assert (l3 = []) as -> by (apply (f_equal length) in Hl; rewrite length_app in Hl; destruct l3; [done|cbn in Hl; lia]).
  by inversion H3.
Qed.

(** Agreement is inherited along a common walk. *)
Lemma agrees_reach c b1 b2 x y l x' y' :
  agrees c b1 b2 x y → reach b1 x l x' → reach b2 y l y' → agrees c b1 b2 x' y'.
Proof.
  intros (R & HR & Hxy) H1. revert y Hxy. induction H1 as [x|x o x1 l x' Hb H1 IH]; intros y Hxy H2.
  - inversion H2; subst. by exists R.
  - inversion H2 as [|? ? y1 ? ? Hb2 H2']; subst. apply (IH y1); [|done].
    specialize (HR _ _ Hxy). rewrite Hb, Hb2 in HR. apply HR.
Qed.

(** What two steps that do not match look like. *)
Definition mismatch (c : Contract) (kind : MismatchKind) (s1 s2 : VisibleStep) : Prop :=
  match kind, s1, s2 with
  | ObservationMismatch, VRealizing o1 _, VRealizing o2 _ => o1 ≠ o2
  | DivergenceVsQuiescence, VDivergent, VQuiescent => True
  | DivergenceVsQuiescence, VQuiescent, VDivergent => c = Bisimilar
  | SummandMismatch, VRealizing _ _, VQuiescent | SummandMismatch, VQuiescent, VRealizing _ _ => True
  | SummandMismatch, VDivergent, VRealizing _ _ => True
  | SummandMismatch, VRealizing _ _, VDivergent => c = Bisimilar
  | _, _, _ => False
  end.

Lemma mismatch_disagrees c kind b1 b2 x y : mismatch c kind (b1 x) (b2 y) → ¬ agrees c b1 b2 x y.
Proof.
  intros Hm (R & HR & Hxy). specialize (HR _ _ Hxy).
  destruct kind, (b1 x), (b2 y); cbn in *; try done; try (by subst); by destruct HR.
Qed.

Section walk.
Context {M1 M2 : Type} (implementation : SaturatedSystem M1) (specification : SaturatedSystem M2).
Context (contract : Contract) (max_pairs : nat).
Context (P1 P2 : ExecConfig → Prop) (b1 b2 : Behavior).
Context `{!Behaves implementation P1 b1} `{!Behaves specification P2 b2}.

Definition x0 : ObservableState := project (initial implementation).
Definition y0 : ObservableState := project (initial specification).

(** The pairs both systems reach with the same observations. *)
Definition common (l : list Observation) (p : Pair) : Prop := reach b1 x0 l p.1 ∧ reach b2 y0 l p.2.

(** The pair's steps realize the same observation and lead into [Q]. *)
Definition advances (Q : Pair → Prop) (p : Pair) : Prop :=
  ∃ o x y, b1 p.1 = VRealizing o x ∧ b2 p.2 = VRealizing o y ∧ Q (x, y).

Record pair_inv (s : PairState (M1 := M1) (M2 := M2)) : Prop := {
  pi_impl : P1 (impl_config s);
  pi_spec : P2 (spec_config s);
  pi_here : common (visible_prefix s) (project (impl_config s), project (spec_config s));
  pi_seen : ∀ p, p ∈ seen s → ∃ l, common l p ∧
    advances (λ q, q ∈ seen s ∨ q = (project (impl_config s), project (spec_config s))) p;
  pi_start : (x0, y0) ∈ seen s ∨ (x0, y0) = (project (impl_config s), project (spec_config s));
  pi_depth : length (visible_prefix s) = size (seen s)
}.

(** The relation that the pairs seen so far are. *)
Lemma pairs_agree (S : gset Pair) :
  (x0, y0) ∈ S → (∀ p, p ∈ S → matching contract (λ x y, (x, y) ∈ S) (b1 p.1) (b2 p.2)) → agrees contract b1 b2 x0 y0.
Proof. intros Hs HS. exists (λ x y, (x, y) ∈ S). split; [|done]. intros x y. apply (HS (x, y)). Qed.

Lemma advances_matching (S : gset Pair) (Q : Pair → Prop) p :
  advances Q p → (∀ q, Q q → q ∈ S) → matching contract (λ x y, (x, y) ∈ S) (b1 p.1) (b2 p.2).
Proof. intros (o & x & y & -> & -> & HQ) HS. split; [done|]. by apply HS. Qed.

(** The walk ends at a pair whose steps match. *)
Lemma terminal_agrees s :
  pair_inv s → let p := (project (impl_config s), project (spec_config s)) in
  p ∈ seen s ∨ (∀ R, matching contract R (b1 p.1) (b2 p.2)) → agrees contract b1 b2 x0 y0.
Proof.
  intros [_ _ _ Hseen Hstart _] p [Hp|Hp].
  - apply (pairs_agree (seen s)); [by destruct Hstart as [?| ->]|]. intros q Hq.
    destruct (Hseen q Hq) as (_ & _ & Ha). eapply advances_matching; [exact Ha|]. intros q' [?| ->]; done.
  - apply (pairs_agree ({[p]} ∪ seen s)); [rewrite elem_of_union, elem_of_singleton; tauto|].
    intros q [->%elem_of_singleton|Hq]%elem_of_union; [apply Hp|].
    destruct (Hseen q Hq) as (_ & _ & Ha). eapply advances_matching; [exact Ha|].
    intros q' [?| ->]; rewrite elem_of_union, elem_of_singleton; tauto.
Qed.

(** The counterexample is the disagreement after a common walk, and there is none
    after a shorter one. *)
Record cx_claim (cx : SaturatedCounterexample) : Prop := {
  cc_contract : cx_contract cx = contract;
  cc_boundary : cx_context cx = b_context (boundary implementation) ∧ cx_profile cx = b_profile (boundary implementation) ∧
    cx_implementation cx = b_presentation (boundary implementation) ∧
    cx_specification cx = b_presentation (boundary specification);
  cc_disagreement : ∃ x y, common (cx_visible_prefix cx) (x, y) ∧ mismatch contract (cx_kind cx) (b1 x) (b2 y) ∧
    cx_implementation_summand cx = v_summand (b1 x) ∧ cx_specification_summand cx = v_summand (b2 y);
  cc_shortest : ∀ l1 l2 x y, reach b1 x0 l1 x → reach b2 y0 l2 y → length l1 = length l2 →
    length l1 < cx_visible_depth cx → l1 = l2 ∧ ∃ o x' y', b1 x = VRealizing o x' ∧ b2 y = VRealizing o y'
}.

Lemma common_shorter l x y l1 l2 x1 y1 :
  common l (x, y) → reach b1 x0 l1 x1 → reach b2 y0 l2 y1 → length l1 = length l2 → length l1 < length l →
  l1 = l2 ∧ ∃ o x' y', b1 x1 = VRealizing o x' ∧ b2 y1 = VRealizing o y'.
Proof.
  intros [Hx Hy] H1 H2 Hl Hlt.
  destruct (reach_prefix _ _ _ _ _ _ H1 Hx) as (l3 & E1 & H3); [lia|].
  destruct (reach_prefix _ _ _ _ _ _ H2 Hy) as (l4 & E2 & H4); [lia|].
  rewrite E1 in E2. apply app_inj_1 in E2 as [-> ->]; [|done]. split; [done|].
  destruct l4 as [|o l4]; [rewrite E1, app_nil_r in Hlt; lia|].
  inversion H3; inversion H4; subst. eauto.
Qed.

Definition comparison_claim (r : SaturatedComparison) : Prop :=
  match r with
  | Holds v p => agrees contract b1 b2 x0 y0 ∧ p ≤ max_pairs ∧ v ≤ p
  | Fails cx => cx_claim cx ∧ ¬ agrees contract b1 b2 x0 y0
  | ComparisonUnknownR (ImplementationUnknown d _) => ∃ l x y, length l = d ∧ common l (x, y) ∧ b1 x = VUnknown
  | ComparisonUnknownR (SpecificationUnknown d _) => ∃ l x y, length l = d ∧ common l (x, y) ∧ b2 y = VUnknown
  | ComparisonUnknownR (PairBudgetExhausted n b) => b = max_pairs ∧ n = S max_pairs ∧
      ∃ S : gset Pair, size S = n ∧ ∀ p, p ∈ S → ∃ l, common l p
  | ComparisonUnknownR _ => False
  end.

Lemma fail_claim s kind :
  pair_inv s → mismatch contract kind (b1 (project (impl_config s))) (b2 (project (spec_config s))) →
  comparison_claim (fail implementation specification contract kind (visible_prefix s)
    (v_summand (b1 (project (impl_config s)))) (v_summand (b2 (project (spec_config s))))).
Proof.
  intros [_ _ Hhere _ _ _] Hm. split.
  - split; cbn; [done|done| |].
    + exists (project (impl_config s)), (project (spec_config s)). done.
    + intros l1 l2 x y H1 H2 Hl Hlt. by eapply common_shorter.
  - intros Ha. apply (mismatch_disagrees _ _ _ _ _ _ Hm). destruct Hhere. by eapply agrees_reach.
Qed.

Lemma v_summand_visible out : v_summand (visible_step out) = summand_of out.
Proof. by destruct out. Qed.

Lemma pair_inv_step s o e1 e2 ph1 ph2 m1 m2 :
  pair_inv s → (project (impl_config s), project (spec_config s)) ∉ seen s →
  b1 (project (impl_config s)) = VRealizing o (project e1) → b2 (project (spec_config s)) = VRealizing o (project e2) →
  P1 e1 → P2 e2 →
  pair_inv (mkPair ({[(project (impl_config s), project (spec_config s))]} ∪ seen s) (visible_prefix s ++ [o])
    e1 e2 ph1 ph2 m1 m2).
Proof.
  intros [H1 H2 [Hx Hy] Hseen Hstart Hdepth] Hnew Hb1 Hb2 HP1 HP2. split; cbn; try done.
  - split; eapply reach_snoc; done.
  - intros p [->%elem_of_singleton|Hp]%elem_of_union.
    + exists (visible_prefix s). split; [by split|]. exists o, (project e1), (project e2). split_and!; [done|done|by right].
    + destruct (Hseen p Hp) as (l & Hl & (o' & x & y & Hbx & Hby & Hq)). exists l. split; [done|].
      exists o', x, y. split_and!; [done|done|]. rewrite elem_of_union, elem_of_singleton. tauto.
  - left. rewrite elem_of_union, elem_of_singleton. destruct Hstart; auto.
  - rewrite length_app, size_union, size_singleton by set_solver. cbn. lia.
Qed.

Lemma pair_iter_spec s :
  pair_inv s → size (seen s) ≤ max_pairs →
  match pair_iter implementation specification contract max_pairs s with
  | None => False
  | Some (inl r) => comparison_claim r
  | Some (inr s') => pair_inv s' ∧ size (seen s') = S (size (seen s)) ∧ size (seen s') ≤ max_pairs
  end.
Proof.
  intros Hinv Hle. pose proof Hinv as [H1 H2 Hhere Hseen Hstart Hdepth]. unfold pair_iter. cbv zeta.
  set (p := (project (impl_config s), project (spec_config s))) in *.
  case_decide as Hp; [split; [by eapply terminal_agrees; [|left]|lia]|].
  assert (size ({[p]} ∪ seen s) = S (size (seen s))) as Hsize by (rewrite size_union, size_singleton by set_solver; lia).
  case_decide as Hbud.
  { split_and!; [done|lia|]. exists ({[p]} ∪ seen s). split; [done|].
    intros q [->%elem_of_singleton|Hq]%elem_of_union; [by exists (visible_prefix s)|]. destruct (Hseen q Hq) as (l & ? & _). by exists l. }
  destruct (behaves_step (sys := implementation) (b := b1) (impl_state s) _ (impl_phase s) H1) as (out1 & n1 & m1 & E1 & Hb1 & Hsucc1).
  destruct (behaves_step (sys := specification) (b := b2) (spec_state s) _ (spec_phase s) H2) as (out2 & n2 & m2 & E2 & Hb2 & Hsucc2).
  rewrite E1, E2. cbn [mbind option_bind].
  rewrite <-(v_summand_visible out1), <-(v_summand_visible out2), Hb1, Hb2.
  assert (∀ kind, mismatch contract kind (b1 (project (impl_config s))) (b2 (project (spec_config s))) →
    comparison_claim (fail implementation specification contract kind (visible_prefix s)
      (v_summand (b1 (project (impl_config s)))) (v_summand (b2 (project (spec_config s)))))) as Hfail
    by (intros; by apply fail_claim).
  assert ((∀ R, matching contract R (b1 p.1) (b2 p.2)) →
    comparison_claim (Holds (length (visible_prefix s)) (size ({[p]} ∪ seen s)))) as Hholds.
  { intros Hm. split; [eapply terminal_agrees; [exact Hinv|by right]|lia]. }
  cbn [fst snd p] in Hholds.
  destruct out1 as [o1 e1 k1|c1|c1|u1], out2 as [o2 e2 k2|c2|c2|u2]; cbn [visible_step] in Hb1, Hb2;
    rewrite <-?Hb1, <-?Hb2 in Hholds; rewrite <-?Hb1, <-?Hb2 in Hfail; rewrite <-?Hb1, <-?Hb2; cbn [v_summand] in *;
    try (by exists (visible_prefix s), (project (impl_config s)), (project (spec_config s)));
    (case_decide as Hc; [destruct Hc as [Hc Hs]; try discriminate Hs; apply Hholds; cbn; by rewrite ?Hc|]);
    try (by apply Hfail); try (by apply Hholds).
  - case_decide as Ho; [by apply Hfail|]. subst o2.
    split_and!; [|cbn [seen]; lia|cbn [seen]; lia].
    eapply pair_inv_step; try done; [by eapply Hsucc1|by eapply Hsucc2].
  - apply Hfail. cbn. destruct contract; [done|]. destruct Hc. done.
  - apply Hfail. cbn. destruct contract; [done|]. destruct Hc. done.
Qed.

Lemma pair_inv_start m1 m2 :
  pair_inv (mkPair ∅ [] (initial implementation) (initial specification) 0 0 m1 m2).
Proof.
  split; cbn; [apply (behaves_initial (b := b1))|apply (behaves_initial (b := b2))|split; constructor|set_solver|by right|done].
Qed.

Lemma first_undeclared_None :
  first_undeclared implementation specification = None ↔
  ∀ a, declares (sys_assumptions implementation) a = true ∧ declares (sys_assumptions specification) a = true.
Proof.
  unfold first_undeclared. rewrite head_None. split.
  - intros Hf a. apply dec_stable. intros Hn.
    assert (a ∈ filter (λ a, ¬ (declares (sys_assumptions implementation) a = true ∧
      declares (sys_assumptions specification) a = true)) [HistoryIndependence; PhaseStableKeying]) as Hin.
    { apply list_elem_of_filter. split; [done|]. rewrite !elem_of_cons. destruct a; auto. }
    rewrite Hf in Hin. by apply elem_of_nil in Hin.
  - intros Ha. apply elem_of_nil_inv. intros a [Hn _]%list_elem_of_filter. by apply Hn.
Qed.

Lemma first_undeclared_Some a :
  first_undeclared implementation specification = Some a →
  ¬ (declares (sys_assumptions implementation) a = true ∧ declares (sys_assumptions specification) a = true).
Proof.
  unfold first_undeclared. intros Hh. apply head_Some_elem_of, list_elem_of_filter in Hh. apply Hh.
Qed.

(** The boundaries may be compared and both sides declare both hypotheses. *)
Definition comparable : Prop :=
  b_context (boundary implementation) = b_context (boundary specification) ∧
  b_profile (boundary implementation) = b_profile (boundary specification) ∧
  ∀ a, declares (sys_assumptions implementation) a = true ∧ declares (sys_assumptions specification) a = true.

Lemma check_saturated_spec m1 m2 :
  match check_saturated implementation specification contract max_pairs m1 m2 with
  | Done (ComparisonUnknownR BoundaryMismatch) | Done (ComparisonUnknownR (UndeclaredAssumptionC _)) => ¬ comparable
  | Done r => comparable ∧ comparison_claim r
  | _ => False
  end.
Proof.
  unfold check_saturated, comparable. case_decide as Hb; [intros (? & ? & _); tauto|].
  apply Decidable.not_or in Hb as [Hc%dec_stable Hp%dec_stable].
  destruct (first_undeclared _ _) as [a|] eqn:Ea.
  { apply first_undeclared_Some in Ea. intros (_ & _ & Hd). by apply Ea. }
  rewrite first_undeclared_None in Ea.
  destruct (iterate_spec (pair_iter implementation specification contract max_pairs)
    (λ s, pair_inv s ∧ size (seen s) ≤ max_pairs) (λ s, max_pairs - size (seen s)) (S max_pairs)
    (mkPair ∅ [] (initial implementation) (initial specification) 0 0 m1 m2)) as (t & [Ht Hle] & Hr).
  - split; [apply pair_inv_start|cbn [seen]; rewrite size_empty; lia].
  - cbn [seen]. rewrite size_empty. lia.
  - intros s s' [Hs Hle] E. pose proof (pair_iter_spec s Hs Hle) as Hi. rewrite E in Hi. destruct Hi as (? & ? & ?). split; [by split|lia].
  - pose proof (pair_iter_spec t Ht Hle) as Hi. destruct Hr as [(r & E & ->)|[E ->]]; rewrite E in Hi; [|done].
    destruct r as [| |[]]; done.
Qed.

(** A finite bound on the common pairs decides the comparison. *)
Lemma check_saturated_decided (m1 : M1) (m2 : M2) (S : gset Pair) :
  comparable → (∀ l p, common l p → p ∈ S ∧ b1 p.1 ≠ VUnknown ∧ b2 p.2 ≠ VUnknown) → size S ≤ max_pairs →
  ∃ r, check_saturated implementation specification contract max_pairs m1 m2 = Done r ∧
    comparison_claim r ∧ (holds r = true ∨ ∃ cx, r = Fails cx).
Proof.
  intros Hc HS Hsz. pose proof (check_saturated_spec m1 m2) as Hr.
  destruct (check_saturated _ _ _ _ _ _) as [r| |]; [|done..]. exists r. split; [done|].
  destruct r as [v p|cx|[a| |d u|d u|n b]]; [| |done|done|exfalso..].
  - destruct Hr as [_ Hr]. split; [done|by left].
  - destruct Hr as [_ Hr]. split; [done|right; by eexists].
  - destruct Hr as (_ & l & x & y & _ & Hcom & Hu). by destruct (HS _ _ Hcom) as (_ & ? & _).
  - destruct Hr as (_ & l & x & y & _ & Hcom & Hu). by destruct (HS _ _ Hcom) as (_ & _ & ?).
  - destruct Hr as (_ & -> & -> & T & HT & Hall).
    assert (T ⊆ S) as Hsub by (intros p Hp; destruct (Hall p Hp) as (l & Hl); by apply (HS l)).
    apply subseteq_size in Hsub. lia.
Qed.
End walk.

(** * Observations *)

(** The first [n] observations, and the summand where the walk ended before. *)
Fixpoint observe (b : Behavior) (n : nat) (x : ObservableState) : list Observation * option Summand :=
  match n with
  | O => ([], None)
  | S n' =>
    match b x with
    | VRealizing o x' => let '(l, s) := observe b n' x' in (o :: l, s)
    | s => ([], Some (v_summand s))
    end
  end.

Lemma observe_S b n x :
  observe b (S n) x = match b x with
    | VRealizing o x' => (o :: (observe b n x').1, (observe b n x').2)
    | s => ([], Some (v_summand s)) end.
Proof. cbn. destruct (b x) as [o x'| | |]; [|done..]. by destruct (observe b n x'). Qed.

Lemma agrees_observe b1 b2 x y :
  agrees Bisimilar b1 b2 x y ↔
  ∀ n, observe b1 n x = observe b2 n y ∧ (observe b1 n x).2 ≠ Some InUnknown.
Proof.
  split.
  - intros (R & HR & Hxy) n. revert x y Hxy. induction n as [|n IH]; intros x y Hxy; [done|].
    rewrite !observe_S. specialize (HR _ _ Hxy).
    destruct (b1 x), (b2 y); try done. destruct HR as [-> HR']. destruct (IH _ _ HR') as [-> ?]. done.
  - intros Hobs. exists (λ x y, ∀ n, observe b1 n x = observe b2 n y ∧ (observe b1 n x).2 ≠ Some InUnknown).
    split; [|done]. clear x y Hobs. intros x y Hobs.
    assert (∀ n, observe b1 (S n) x = observe b2 (S n) y ∧ (observe b1 (S n) x).2 ≠ Some InUnknown) as HS by (intros; apply Hobs).
    setoid_rewrite observe_S in HS. destruct (HS 0) as [H0 H0'].
    destruct (b1 x) as [o1 x1| | |], (b2 y) as [o2 y2| | |]; try done.
    cbn in H0. injection H0 as ->. split; [done|]. intros n. destruct (HS n) as [[= Hl Hs] Hn].
    split; [by apply injective_projections|done].
Qed.

(** * The counterexample's identity *)

Definition cx_ok (cx : SaturatedCounterexample) : Prop :=
  dlen (digest (cx_context cx)) ∧ dlen (digest (cx_profile cx)) ∧ dlen (digest (cx_implementation cx)) ∧
  dlen (digest (cx_specification cx)) ∧ len_ok (cx_visible_prefix cx) ∧ Forall observation_ok (cx_visible_prefix cx).

Lemma cx_bytes cx :
  cx_preimage cx = frame (bytes_of_string CX_MARKER) ++ encode_uint 1 ++ encode_uint (contract_ordinal (cx_contract cx)) ++
    dframe (digest (cx_context cx)) ++ dframe (digest (cx_profile cx)) ++ dframe (digest (cx_implementation cx)) ++
    dframe (digest (cx_specification cx)) ++ canon_bytes (cx_visible_prefix cx) ++
    encode_uint (summand_ordinal (cx_implementation_summand cx)) ++
    encode_uint (summand_ordinal (cx_specification_summand cx)) ++ encode_uint (mismatch_ordinal (cx_kind cx)).
Proof.
  rewrite canon_bytes_list.
  unfold cx_preimage, write_id, write_uint, canon_write, Canonical_Contract, Canonical_Summand, Canonical_MismatchKind, write_uint, dframe.
  by rewrite write_list_app, !write_bytes_app, app_nil_l, <-!app_assoc.
Qed.

Lemma observation_len o : observation_ok o → len_ok (canon_bytes o).
Proof.
  intros [Hl _]. unfold len_ok. rewrite observation_bytes. unfold frame. rewrite !length_app, Hl.
  pose proof (length_encode_uint (ordinal (outcome_class o))). pose proof (length_encode_uint (Z.of_nat 32)). int_lia.
Qed.

Lemma cx_bytes_inj cx1 cx2 : cx_ok cx1 → cx_ok cx2 → cx_preimage cx1 = cx_preimage cx2 → cx1 = cx2.
Proof.
  destruct cx1 as [c1 [] [] [] [] l1 i1 s1 k1], cx2 as [c2 [] [] [] [] l2 i2 s2 k2].
  unfold cx_ok. rewrite !cx_bytes. cbn -[frame encode_uint dframe bytes_of_string contract_ordinal summand_ordinal mismatch_ordinal CX_MARKER].
  intros (?&?&?&?&Hl1&Hf1) (?&?&?&?&Hl2&Hf2) Heq. do 2 apply app_inv_head in Heq.
  apply prefix_free_uint64 in Heq as [Hc Heq]; [|destruct c1; cbn; int_lia|destruct c2; cbn; int_lia].
  do 4 (apply prefix_free_dframe in Heq as [-> Heq]; [|done..]).
  apply (prefix_free_canon_list (A := Observation) observation_ok) in Heq as [-> Heq];
    [|split; [done|eapply Forall_impl; [done|]; intros o ?; split; [done|by apply observation_len]]..].
  apply prefix_free_uint64 in Heq as [Hi Heq]; [|destruct i1; cbn; int_lia|destruct i2; cbn; int_lia].
  apply prefix_free_uint64 in Heq as [Hs Heq]; [|destruct s1; cbn; int_lia|destruct s2; cbn; int_lia].
  apply (prefix_free_inj u64_ok encode_uint) in Heq; [|destruct k1; cbn; int_lia|destruct k2; cbn; int_lia].
  f_equal; [by destruct c1, c2|by destruct i1, i2|by destruct s1, s2|by destruct k1, k2].
Qed.

(** ** Any behaviour is some system's *)

Definition toy_step (b : Behavior) (e : ExecConfig) : SaturatedStep :=
  match b (project e) with
  | VRealizing o x => SRealizing o (mkExec (os_world x) (os_policy x) (history e)) 0
  | VQuiescent => SQuiescent (@demo_quiescence demo_hash)
  | VDivergent => SDivergent (@demo_divergence demo_hash)
  | VUnknown => SUnknown (KeyConflictU 0)
  end.
Definition toy_system (b : Behavior) : SaturatedSystem () :=
  mkSystem demo_exec (mkBoundary (demo_id 1) (demo_id 2) (demo_id 3)) assumptions_all
    (λ m e _, Some (toy_step b e, 1, m)).

#[export] Instance toy_behaves b : Behaves (toy_system b) (λ _, True) b.
Proof.
  split; [done|]. intros m e ph _. exists (toy_step b e), 1, m. split_and!; [done| |done].
  unfold toy_step. by destruct (b (project e)) as [o []| | |].
Qed.

Definition demo_observation : Observation := observation demo_step.
(** An observation, then a loop where the other stops. *)
Definition demo_behavior (final : VisibleStep) : Behavior := λ x,
  if decide (os_world x = mkHandle 0) then VRealizing demo_observation (mkObservable (mkHandle 1) (os_policy x)) else final.

(** * Properties *)

(** C35: the comparison is exact. For two systems that show a behaviour on observable
    states it always answers. It refuses to compare exactly when the contexts or the
    profiles differ or a hypothesis is not declared by both. Otherwise, when it holds,
    the two starts agree for ever: some relation contains them and is closed under the
    contract's clauses. When it fails, they do not agree, and the counterexample is a
    walk of observations common to both up to a mismatch of the named kind, which no
    shorter pair of walks shows: it is the unique shortest one. Otherwise it says
    which side established nothing after which depth, or that it met more pairs than
    its budget. *)
Theorem check_saturated_exact {M1 M2} (implementation : SaturatedSystem M1) (specification : SaturatedSystem M2)
    (contract : Contract) (max_pairs : nat) (P1 P2 : ExecConfig → Prop) (b1 b2 : Behavior) `{!Behaves implementation P1 b1} `{!Behaves specification P2 b2} m1 m2 :
  match check_saturated implementation specification contract max_pairs m1 m2 with
  | Done (ComparisonUnknownR BoundaryMismatch) | Done (ComparisonUnknownR (UndeclaredAssumptionC _)) =>
      ¬ comparable implementation specification
  | Done r => comparable implementation specification ∧
      comparison_claim implementation specification contract max_pairs b1 b2 r
  | _ => False
  end.
Proof. by apply (check_saturated_spec _ _ _ _ P1 P2). Qed.

Lemma check_saturated_exact_witness :
  ¬ agrees Bisimilar (demo_behavior VDivergent) (demo_behavior VQuiescent) (project demo_exec) (project demo_exec).
Proof.
  pose proof (check_saturated_exact (toy_system (demo_behavior VDivergent)) (toy_system (demo_behavior VQuiescent))
    Bisimilar 5 (λ _, True) (λ _, True) (demo_behavior VDivergent) (demo_behavior VQuiescent) tt tt) as Hc.
  destruct (check_saturated _ _ _ _ _ _) as [[v p|cx|u]| |] eqn:E; try (vm_compute in E; discriminate E).
  destruct Hc as (_ & _ & Hn). exact Hn.
Defined.

(** Within a bound the comparison decides the contract. When the pairs of states
    that the two systems reach with the same observations are no more than the pair
    budget, and neither side is unknown there, it answers that the contract holds if
    and only if the starts agree, and gives a counterexample otherwise. *)
Theorem check_saturated_decides {M1 M2} (implementation : SaturatedSystem M1) (specification : SaturatedSystem M2)
    (contract : Contract) (max_pairs : nat) (P1 P2 : ExecConfig → Prop) (b1 b2 : Behavior) `{!Behaves implementation P1 b1} `{!Behaves specification P2 b2} (m1 : M1) (m2 : M2) (S : gset Pair) :
  comparable implementation specification →
  (∀ l p, common implementation specification b1 b2 l p → p ∈ S ∧ b1 p.1 ≠ VUnknown ∧ b2 p.2 ≠ VUnknown) →
  size S ≤ max_pairs →
  ∃ r, check_saturated implementation specification contract max_pairs m1 m2 = Done r ∧
    (holds r = true ↔ agrees contract b1 b2 (project (initial implementation)) (project (initial specification))) ∧
    (holds r = true ∨ is_Some (counterexample r)).
Proof.
  intros Hc HS Hsz. destruct (check_saturated_decided implementation specification contract max_pairs P1 P2 b1 b2 m1 m2 S Hc HS Hsz)
    as (r & E & Hcl & Hd). exists r. split; [done|].
  destruct r as [v p|cx|u]; cbn in *; [|destruct Hcl as [_ Hn]|destruct Hd as [?|[? ?]]; discriminate].
  - destruct Hcl as [Ha _]. split; [by split|by left].
  - split; [by split|right; by eexists].
Qed.

Lemma demo_common l p :
  common (toy_system (demo_behavior VQuiescent)) (toy_system (demo_behavior VQuiescent))
    (demo_behavior VQuiescent) (demo_behavior VQuiescent) l p →
  p ∈ (list_to_set [(project demo_exec, project demo_exec);
    (mkObservable (mkHandle 1) (mkHandle 0), mkObservable (mkHandle 1) (mkHandle 0))] : gset Pair).
Proof.
  intros [H1 H2]. destruct p as [x y]. rewrite elem_of_list_to_set, elem_of_cons, list_elem_of_singleton. cbn [fst snd] in *.
  unfold x0, y0 in *. cbn [initial toy_system] in *.
  inversion H1 as [|? o1 xa la ? Hb1 H1']; inversion H2 as [|? o2 xb lb ? Hb2 H2']; subst; try done; [by left|].
  unfold demo_behavior in Hb1, Hb2. vm_compute (decide _) in Hb1. vm_compute (decide _) in Hb2.
  injection Hb1 as <- <-. injection Hb2 as _ <-.
  inversion H1' as [|? ? ? ? ? Hb3 _]; inversion H2' as [|? ? ? ? ? Hb4 _]; subst;
    try (by vm_compute in Hb3); try (by vm_compute in Hb4). by right.
Qed.

Lemma check_saturated_decides_witness :
  ∃ r, check_saturated (toy_system (demo_behavior VQuiescent)) (toy_system (demo_behavior VQuiescent)) Bisimilar 2 tt tt = Done r ∧
    (holds r = true ∨ is_Some (counterexample r)).
Proof.
  destruct (check_saturated_decides (toy_system (demo_behavior VQuiescent)) (toy_system (demo_behavior VQuiescent)) Bisimilar 2
    (λ _, True) (λ _, True) (demo_behavior VQuiescent) (demo_behavior VQuiescent) tt tt
    (list_to_set [(project demo_exec, project demo_exec);
      (mkObservable (mkHandle 1) (mkHandle 0), mkObservable (mkHandle 1) (mkHandle 0))])) as (r & E & _ & Hr).
  - split; [reflexivity|split; [reflexivity|]]. intros a. destruct a; split; reflexivity.
  - intros l p Hp. split; [exact (demo_common l p Hp)|].
    unfold demo_behavior. split; case_decide; discriminate.
  - vm_compute. lia.
  - exists r. split; [exact E|exact Hr].
Defined.

(** Agreement is what an observer sees. Two starts are bisimilar exactly when, to
    every depth, they show the same observations and end in the same summand, which
    is never the unknown one; and a counterexample's identity determines it, or
    the messages hashed collide. *)
Theorem agreement_is_observational `{Blake3} :
  (∀ b1 b2 x y, agrees Bisimilar b1 b2 x y ↔
     ∀ n, observe b1 n x = observe b2 n y ∧ (observe b1 n x).2 ≠ Some InUnknown) ∧
  (∀ cx1 cx2, cx_ok cx1 → cx_ok cx2 → cx_digest cx1 = cx_digest cx2 → 
     cx1 = cx2 ∨ collision (message (cx_preimage cx1)) (message (cx_preimage cx2))).
Proof.
  split; [apply agrees_observe|].
  intros cx1 cx2 H1 H2 Heq. apply (digest_of_binds Value Value) in Heq as [[_ Heq]|?]; [left|by right].
  by apply cx_bytes_inj.
Qed.
