(* ===== verification/SatBehaves.v ===== *)
(** Presented systems have behaviours (src/crates/soc-core/src/saturate/: driver.rs,
    [PresentedSystem], for bisimulation.rs).

    When a presentation is honest, what a saturated step shows depends on the
    observable state only: not on the history, the calendar phase or the keyer's
    state. This is the promise [Behaves] that the comparison rests on. *)
From S2P Require Import Prelude IntCodec Canon CanonLaws Calendar Outcome Witness Encoding Parsing.
From S2P Require Import Derivation Publication Settlement Journal Commit SatProfile SatCertificate SatCheck.
From S2P Require Import Saturation SatLasso SatDriver Bisimulation.

Section behaves.
Context `{Blake3} `{UnicodeNfc} {K : Type} (keyer : K → Candidate → Z → Key * K).
Context (pres : PresentationV1) (budget : SaturationBudget) (κ : Z → Candidate → Key).
Hypothesis keyer_pure : ∀ ks c phase, (keyer ks c phase).1 = κ phase c.
Hypothesis Hh : honest pres κ.

Lemma honest_key_eq ph1 ph2 c1 c2 : κ ph1 c1 = κ ph1 c2 → κ ph2 c1 = κ ph2 c2.
Proof.
  intros Heq. pose proof (honest_phase _ _ Hh) as Hp. pose proof (honest_key _ _ Hh) as Hk.
  destruct (Hk ph1 ph2 c1) as [E1 E2], (Hk ph1 ph2 c2) as [E3 E4].
  apply (inj key_fields). unfold key_fields. by rewrite !Hp, <-E1, <-E2, <-E3, <-E4, Heq.
Qed.

Lemma honest_selects ph1 ph2 e1 e2 c p :
  project e1 = project e2 → selects (regimes pres) (pres_adm pres) e1 (κ ph1) c p →
  selects (regimes pres) (pres_adm pres) e2 (κ ph2) c p.
Proof.
  intros Heq (Hc & Hleast & i & Hi & Hin & Hfirst).
  pose proof (honest_admissible pres κ Hh _ _ Heq) as Hadm. unfold admissible in Hadm. split_and!.
  - by rewrite <-Hadm.
  - rewrite <-Hadm. intros c' Hc'. destruct (Hleast c' Hc') as [->|Hlt]; [by left|right]. by eapply honest_order.
  - exists i. split_and!; [done|rewrite <-(honest_candidates _ _ Hh p e1 e2); [done|by eapply list_elem_of_lookup_2|done]|].
    intros j q Hj Hq. rewrite <-(honest_candidates _ _ Hh q e1 e2); [by eapply Hfirst|by eapply list_elem_of_lookup_2|done].
Qed.

Lemma honest_commit_Ok k1 k2 e1 e2 c p cm s1 :
  project e1 = project e2 → p ∈ regimes pres →
  try_commit_selected k1 c p (interner pres) e1 (pres_context pres) = Ok (cm, s1) →
  ∃ s2, try_commit_selected k2 c p (interner pres) e2 (pres_context pres) = Ok (Step (observation s1) (apply e2 c), s2) ∧
    cm = Step (observation s1) (apply e1 c) ∧ label (profile pres) s2 = label (profile pres) s1.
Proof.
  intros Heq Hp (d & src & dst & w & Hd & Hsrc & Hdst & Hw & Hv & -> & ->)%try_commit_selected_Ok.
  exists (committed_step k2 d (mkId src) (mkId dst) w (pres_context pres)). split_and!.
  - apply try_commit_selected_Ok. exists d, src, dst, w.
    rewrite <-(honest_decompose _ _ Hh p c e1 e2) by done. injection Heq as <- _. done.
  - done.
  - exact (honest_label _ _ Hh k2 (committed_step k1 d (mkId src) (mkId dst) w (pres_context pres))).
Qed.

Lemma honest_commit_selected k1 k2 e1 e2 c p :
  project e1 = project e2 → p ∈ regimes pres →
  match try_commit_selected k1 c p (interner pres) e1 (pres_context pres),
        try_commit_selected k2 c p (interner pres) e2 (pres_context pres) with
  | Ok (cm1, s1), Ok (cm2, s2) => ∃ o, cm1 = Step o (apply e1 c) ∧ cm2 = Step o (apply e2 c) ∧
      label (profile pres) s2 = label (profile pres) s1
  | Err _, Err _ => True
  | _, _ => False
  end.
Proof.
  intros Heq Hp.
  destruct (try_commit_selected k1 _ _ _ _ _) as [[cm1 s1]|] eqn:E1.
  - destruct (honest_commit_Ok k1 k2 e1 e2 c p cm1 s1 Heq Hp E1) as (s2 & -> & -> & Hl). eauto.
  - destruct (try_commit_selected k2 _ _ _ _ _) as [[cm2 s2]|] eqn:E2; [|done].
    destruct (honest_commit_Ok k2 k1 e2 e1 c p cm2 s2 (eq_sym Heq) Hp E2) as (s1 & E & _). congruence.
Qed.

(** What a tick does, up to history, phase and the keyer's state. *)
Lemma honest_tick e1 e2 ph1 ph2 ks1 ks2 :
  project e1 = project e2 →
  match try_commit_tick keyer (regimes pres) (pres_adm pres) (interner pres) e1 (pres_context pres) ph1 ks1,
        try_commit_tick keyer (regimes pres) (pres_adm pres) (interner pres) e2 (pres_context pres) ph2 ks2 with
  | Some (Err _, _), Some (Err _, _) => True
  | Some (Ok (QuiescentC, _, _), _), Some (Ok (QuiescentC, _, _), _) => True
  | Some (Ok (Step o1 f1, Some s1, _), _), Some (Ok (Step o2 f2, Some s2, _), _) =>
      o1 = o2 ∧ project f1 = project f2 ∧ label (profile pres) s2 = label (profile pres) s1
  | _, _ => False
  end.
Proof.
  intros Heq. pose proof (honest_admissible pres κ Hh _ _ Heq) as Hadm. unfold admissible in Hadm.
  destruct (tick_cases keyer (regimes pres) (pres_adm pres) (interner pres) e1 (pres_context pres) ph1 ks1 (κ ph1))
    as [ks1' [(k1 & a1 & c1 & E1 & Ha1 & Hc1 & Hne1 & Hka1 & Hkc1)|(Hu1 & Hcase1)]]; [intros; apply keyer_pure|..];
  destruct (tick_cases keyer (regimes pres) (pres_adm pres) (interner pres) e2 (pres_context pres) ph2 ks2 (κ ph2))
    as [ks2' [(k2 & a2 & c2 & E2 & Ha2 & Hc2 & Hne2 & Hka2 & Hkc2)|(Hu2 & Hcase2)]]; try (intros; apply keyer_pure).
  - by rewrite E1, E2.
  - exfalso. apply Hne1, Hu2; [by rewrite <-Hadm|by rewrite <-Hadm|].
    apply (honest_key_eq ph1). by rewrite Hka1, Hkc1.
  - exfalso. apply Hne2, Hu1; [by rewrite Hadm|by rewrite Hadm|].
    apply (honest_key_eq ph2). by rewrite Hka2, Hkc2.
  - destruct Hcase1 as [[HC1 E1]|(c1 & p1 & Hs1 & E1)], Hcase2 as [[HC2 E2]|(c2 & p2 & Hs2 & E2)]; rewrite E1, E2.
    + done.
    + destruct Hs2 as (Hin & _). rewrite <-Hadm, HC1 in Hin. set_solver.
    + destruct Hs1 as (Hin & _). rewrite Hadm, HC2 in Hin. set_solver.
    + apply (honest_selects ph1 ph2 e1 e2) in Hs1; [|done].
      destruct (selects_unique _ _ _ _ _ _ _ _ Hs1 Hs2) as [-> ->].
      assert (p2 ∈ regimes pres) as Hp by (destruct Hs2 as (_ & _ & i & Hi & _); by eapply list_elem_of_lookup_2).
      pose proof (honest_commit_selected (κ ph1 c2) (κ ph2 c2) e1 e2 c2 p2 Heq Hp) as Hc.
      destruct (try_commit_selected (κ ph1 c2) _ _ _ _ _) as [[cm1 s1]|], (try_commit_selected (κ ph2 c2) _ _ _ _ _) as [[cm2 s2]|]; try done.
      destruct Hc as (o & -> & -> & Hl). split_and!; [done| |done]. unfold project, apply. cbn. by injection Heq as _ ->.
Qed.

Lemma honest_stable ks cs ph1 ph2 : (stable_keys keyer ks cs ph1 ph2).1 = true.
Proof. apply (stable_keys_spec keyer κ keyer_pure). intros c _. apply (honest_key _ _ Hh). Qed.

Lemma honest_close e1 e2 f1 f2 l1 l2 prev ph1 ph2 ks1 ks2 :
  project e1 = project e2 → project f1 = project f2 → length l1 = length l2 →
  match close_lasso keyer pres e1 f1 l1 prev ph1 ks1, close_lasso keyer pres e2 f2 l2 prev ph2 ks2 with
  | Some (o1, _), Some (o2, _) => visible_step o1 = visible_step o2
  | None, None => True
  | _, _ => False
  end.
Proof.
  intros He Hf Hl. unfold close_lasso. rewrite Hl, !enumerate_admissible_spec.
  destruct (declares _ _); cbn [negb]; [|done]. destruct (declares _ PhaseStableKeying); cbn [negb]; [|done].
  pose proof (honest_admissible pres κ Hh _ _ Hf) as Hadm. unfold admissible in Hadm. rewrite Hadm.
  destruct (visit_candidates prev) as [base|]; cbn [mbind option_bind]; [|done]. case_decide; [done|].
  match goal with |- context [stable_keys keyer ks1 ?cs ?a ?b] => pose proof (honest_stable ks1 cs a b) as Hs1;
    destruct (stable_keys keyer ks1 cs a b) as [st1 k1] end.
  match goal with |- context [stable_keys keyer ks2 ?cs ?a ?b] => pose proof (honest_stable ks2 cs a b) as Hs2;
    destruct (stable_keys keyer ks2 cs a b) as [st2 k2] end.
  cbn [fst] in *. subst st1 st2. cbn [negb]. injection He as -> ->. injection Hf as -> ->.
  destruct (try_resolve _ (policy e2)); cbn; [|done]. destruct (try_resolve _ (world e2)); cbn; [|done].
  destruct (try_resolve _ (world f2)); cbn; [|done]. by destruct (try_resolve _ (policy f2)).
Qed.

Lemma honest_visit e1 e2 n : project e1 = project e2 → record_visit pres e1 n = record_visit pres e2 n.
Proof.
  intros Heq. unfold record_visit. rewrite !enumerate_admissible_spec. cbn [fst].
  pose proof (honest_admissible pres κ Hh _ _ Heq) as Hadm. unfold admissible in Hadm. by rewrite Hadm.
Qed.

(** Two runs of the loop in the same observable state. *)
Record alike (s1 s2 : SatState (K := K)) : Prop := {
  alike_consumed : length (consumed s1) = length (consumed s2);
  alike_current : project (current s1) = project (current s2);
  alike_hidden : hidden s1 = hidden s2;
  alike_visited : visited s1 = visited s2
}.

Lemma quiescence_alike e1 e2 f1 f2 l1 l2 :
  project e1 = project e2 → project f1 = project f2 →
  is_Some (quiescence_certificate pres e1 f1 l1) ↔ is_Some (quiescence_certificate pres e2 f2 l2).
Proof.
  intros [= Hw _] [= Hw' Hp']. unfold quiescence_certificate. rewrite Hw, Hw', Hp'.
  destruct (try_resolve _ (world e2)); cbn; [|done]. destruct (try_resolve _ (world f2)); cbn; [|done].
  destruct (try_resolve _ (policy f2)); cbn; [|done]. split; by eexists.
Qed.

Definition alike_results (r1 r2 : SatResult (K := K)) : Prop :=
  visible_step r1.1.1.1 = visible_step r2.1.1.1.

Lemma alike_iter e1 e2 ph1 ph2 s1 s2 :
  project e1 = project e2 → alike s1 s2 →
  match sat_iter keyer pres e1 ph1 budget s1, sat_iter keyer pres e2 ph2 budget s2 with
  | None, None => True
  | Some (inl r1), Some (inl r2) => alike_results r1 r2
  | Some (inr t1), Some (inr t2) => alike t1 t2
  | _, _ => False
  end.
Proof.
  intros He [Hlen Hcur Hhid Hvis]. unfold sat_iter. cbv zeta.
  pose proof (honest_tick (current s1) (current s2) (saturating_add ph1 (Z.of_nat (length (consumed s1))))
    (saturating_add ph2 (Z.of_nat (length (consumed s2)))) (sat_keyer s1) (sat_keyer s2) Hcur) as Ht.
  destruct (try_commit_tick _ _ _ _ (current s1) _ _ _) as [[[[[[|o1 f1] st1] cost1]|err1] k1]|];
    destruct (try_commit_tick _ _ _ _ (current s2) _ _ _) as [[[[[[|o2 f2] st2] cost2]|err2] k2]|];
    try destruct st1 as [st1|]; try destruct st2 as [st2|]; try done; cbn [mbind option_bind].
  1-4: pose proof (quiescence_alike e1 e2 (current s1) (current s2) (consumed s1) (consumed s2) He Hcur) as Hq;
    destruct (quiescence_certificate pres e1 _ _), (quiescence_certificate pres e2 _ _); cbn; try done;
    [destruct Hq as [Hq _]; by destruct Hq|destruct Hq as [_ Hq]; by destruct Hq].
  - destruct Ht as (-> & Hf & Hl). rewrite Hl. destruct (label (profile pres) st1) as [[]|err]; cbn; [|by unfold alike_results; cbn; rewrite Hf|done].
    rewrite Hf, Hvis. destruct (visited s2 !! project f2) as [prev|].
    + pose proof (honest_close e1 e2 f1 f2 (consumed s1 ++ [st1]) (consumed s2 ++ [st2]) prev ph1 ph2 k1 k2 He Hf) as Hc.
      rewrite !length_app, Hlen in Hc. specialize (Hc eq_refl).
      destruct (close_lasso _ _ e1 _ _ _ _ _) as [[]|], (close_lasso _ _ e2 _ _ _ _ _) as [[]|]; done.
    + case_decide; [done|]. rewrite Hhid. case_decide; [done|].
      rewrite !length_app, Hlen, (honest_visit f1 f2) by done. split; cbn; rewrite ?length_app; try done; cbn; lia.
  - destruct err1, err2; done.
Qed.

Lemma alike_steps e1 e2 ph1 ph2 ks1 ks2 :
  project e1 = project e2 →
  match sat_step keyer pres e1 ph1 budget ks1, sat_step keyer pres e2 ph2 budget ks2 with
  | Done r1, Done r2 => alike_results r1 r2
  | Panicked, Panicked | OutOfFuel, OutOfFuel => True
  | _, _ => False
  end.
Proof.
  intros He. apply iterate_rel with (R := alike); [intros s1 s2 Hs; by apply alike_iter|].
  split; unfold sat_start; cbn [consumed current hidden visited]; [done|done|done|]. by rewrite He, (honest_visit e1 e2).
Qed.

(** ** The behaviour of a presentation *)

(** Start afresh in an observable state. *)
Definition presented_behavior (ks : K) : Behavior := λ x,
  match sat_step keyer pres (mkExec (os_world x) (os_policy x) (mkDigest [])) 0 budget ks with
  | Done (out, _, _, _) => visible_step out
  | _ => VUnknown
  end.

Definition interned (e : ExecConfig) : Prop :=
  is_Some (try_resolve (interner pres) (world e)) ∧ is_Some (try_resolve (interner pres) (policy e)).

Lemma interned_step e ph ks out l cost ks' :
  interned e → sat_step keyer pres e ph budget ks = Done (out, l, cost, ks') →
  ∀ o e' k, out = SRealizing o e' k → interned e'.
Proof.
  intros [_ Hp] E o e' k ->. pose proof (sat_step_spec keyer pres κ ph budget keyer_pure e ks) as Hs. rewrite E in Hs.
  destruct Hs as [Hs _]. destruct (sat_returns_walk _ _ _ _ _ _ _ Hs) as (es & e2 & Ho & Hlast & -> & _ & l0 & s & -> & _).
  rewrite last_lookup in Hlast. split.
  - eapply orbit_resolves; [exact Ho|exact Hlast|right; by destruct l0].
  - by rewrite (orbit_policy _ _ _ _ _ _ _ _ Ho Hlast).
Qed.

Lemma presented_step ks0 e ph ks :
  interned e → ∃ out l cost ks', sat_step keyer pres e ph budget ks = Done (out, l, cost, ks') ∧
    visible_step out = presented_behavior ks0 (project e).
Proof.
  intros [[w Hw] [p Hp]]. pose proof (sat_step_spec keyer pres κ ph budget keyer_pure e ks) as Hs.
  unfold presented_behavior. set (e2 := mkExec _ _ _).
  pose proof (alike_steps e e2 ph 0 ks ks0 eq_refl) as Ha.
  destruct (sat_step keyer pres e ph budget ks) as [[[[out l] cost] ks']| |]; [|destruct Hs; congruence|done].
  destruct (sat_step keyer pres e2 0 budget ks0) as [[[[out2 l2] cost2] ks2']| |]; [|done..].
  by exists out, l, cost, ks'.
Qed.

Lemma presented_behaves e0 ks0 :
  interned e0 → Behaves (presented_system keyer pres budget e0) interned (presented_behavior ks0).
Proof.
  intros Hi. split; [done|]. intros ks e ph He.
  destruct (presented_step ks0 e ph ks He) as (out & l & cost & ks' & E & Hv).
  exists out, (length l), ks'. cbn [saturated_step presented_system]. rewrite E. split_and!; [done|done|].
  by eapply interned_step.
Qed.
End behaves.

(** * Properties *)

(** What a saturated step shows depends on the observable state only. For an
    honest presentation, two saturated steps from configurations with equal world and
    policy, whatever their histories, their phases and the keyer's state, either both
    fail to return or show the same: the same summand, the same observation and
    successors that are again in the same observable state. *)
Theorem saturated_step_observable `{Blake3} `{UnicodeNfc} {K} (keyer : K → Candidate → Z → Key * K)
    pres budget κ e1 e2 ph1 ph2 ks1 ks2 :
  (∀ ks c phase, (keyer ks c phase).1 = κ phase c) → honest pres κ → project e1 = project e2 →
  match sat_step keyer pres e1 ph1 budget ks1, sat_step keyer pres e2 ph2 budget ks2 with
  | Done r1, Done r2 => alike_results r1 r2
  | Panicked, Panicked | OutOfFuel, OutOfFuel => True
  | _, _ => False
  end.
Proof. intros Hκ Hh. by apply (alike_steps keyer pres budget κ). Qed.

Lemma saturated_step_observable_witness :
  match @sat_step demo_hash (λ s, s) unit demo_keyer (@spin_pres demo_hash) demo_exec 0 demo_budget tt,
        @sat_step demo_hash (λ s, s) unit demo_keyer (@spin_pres demo_hash)
          (mkExec (mkHandle 0) (mkHandle 0) (mkDigest [])) 7 demo_budget tt with
  | Done r1, Done r2 => alike_results r1 r2
  | Panicked, Panicked | OutOfFuel, OutOfFuel => True
  | _, _ => False
  end.
Proof.
  exact (@saturated_step_observable demo_hash (λ s, s) unit demo_keyer (@spin_pres demo_hash) demo_budget demo_key
    demo_exec (mkExec (mkHandle 0) (mkHandle 0) (mkDigest [])) 0 7 tt tt (λ _ _ _, eq_refl) (@spin_honest demo_hash) eq_refl).
Defined.

(** Parity of two presented systems. Let two honest presentations start from
    interned configurations. If the comparison says that they are bisimilar, then from
    their starts they show, to every depth, the same observations and the same
    ending, and neither is ever unknown; if it gives a counterexample under that
    contract, there is a depth at which what they show differs. *)
Theorem presented_parity `{Blake3} `{UnicodeNfc} {K1 K2}
    (keyer1 : K1 → Candidate → Z → Key * K1) (keyer2 : K2 → Candidate → Z → Key * K2)
    pres1 pres2 budget1 budget2 κ1 κ2 e1 e2 (ks1 : K1) (ks2 : K2) max_pairs :
  (∀ ks c phase, (keyer1 ks c phase).1 = κ1 phase c) → (∀ ks c phase, (keyer2 ks c phase).1 = κ2 phase c) →
  honest pres1 κ1 → honest pres2 κ2 → interned pres1 e1 → interned pres2 e2 →
  let b1 := presented_behavior keyer1 pres1 budget1 ks1 in
  let b2 := presented_behavior keyer2 pres2 budget2 ks2 in
  match check_saturated (presented_system keyer1 pres1 budget1 e1) (presented_system keyer2 pres2 budget2 e2)
          Bisimilar max_pairs ks1 ks2 with
  | Done (Holds _ _) => ∀ n, observe b1 n (project e1) = observe b2 n (project e2) ∧
      (observe b1 n (project e1)).2 ≠ Some InUnknown
  | Done (Fails _) => ¬ ∀ n, observe b1 n (project e1) = observe b2 n (project e2) ∧
      (observe b1 n (project e1)).2 ≠ Some InUnknown
  | Done (ComparisonUnknownR _) => True
  | _ => False
  end.
Proof.
  intros Hκ1 Hκ2 Hh1 Hh2 Hi1 Hi2 b1 b2.
  pose proof (presented_behaves keyer1 pres1 budget1 κ1 Hκ1 Hh1 e1 ks1 Hi1) as HB1.
  pose proof (presented_behaves keyer2 pres2 budget2 κ2 Hκ2 Hh2 e2 ks2 Hi2) as HB2.
  pose proof (check_saturated_spec (presented_system keyer1 pres1 budget1 e1) (presented_system keyer2 pres2 budget2 e2)
    Bisimilar max_pairs _ _ b1 b2 ks1 ks2) as Hs.
  destruct (check_saturated _ _ _ _ _ _) as [[v p|cx|u]| |]; [| |done|done|done].
  - destruct Hs as (_ & Ha & _). by apply agrees_observe.
  - destruct Hs as (_ & _ & Hn). rewrite agrees_observe in Hn. exact Hn.
Qed.

Lemma presented_parity_witness :
  let _ : Blake3 := demo_hash in let _ : UnicodeNfc := λ s, s in
  observe (presented_behavior demo_keyer spin_pres demo_budget tt) 3 (project demo_exec) =
  observe (presented_behavior demo_keyer spin_pres (budget_uniform 9) tt) 3 (project demo_exec).
Proof.
  intros B U.
  pose proof (@presented_parity demo_hash (λ s, s) unit unit demo_keyer demo_keyer (@spin_pres demo_hash) (@spin_pres demo_hash)
    demo_budget (budget_uniform 9) demo_key demo_key demo_exec demo_exec tt tt 4 (λ _ _ _, eq_refl) (λ _ _ _, eq_refl)
    (@spin_honest demo_hash) (@spin_honest demo_hash)) as Hp.
  specialize (Hp (conj (ex_intro _ _ eq_refl) (ex_intro _ _ eq_refl)) (conj (ex_intro _ _ eq_refl) (ex_intro _ _ eq_refl))).
  cbv zeta in Hp. destruct (check_saturated _ _ _ _ _ _) as [[v p|cx|u]| |] eqn:E; try (vm_compute in E; discriminate E).
  exact (proj1 (Hp 3)).
Defined.
