(* ===== verification/Engine.v ===== *)
(** The incremental engine (src/crates/soc-core/src/: delta.rs, engine.rs, and
    [step_world_delta] of commit.rs).

    The engine keeps the candidate view of the presented configurations up to date
    one delta at a time, routing each delta through a footprint index. The trait
    [IncrementalWitnessIndex] is a class over the providers' states; the contract a
    provider owes the engine is [HonestIndex]. *)
From S2P Require Import Prelude IntCodec Canon CanonLaws Witness Encoding Calendar Outcome.
From S2P Require Import Derivation Publication Settlement Journal Commit.

(** * Deltas *)

Record Delta : Type := mkDelta { added : gset Handle; removed : gset Handle }.
Definition delta_new : Delta := mkDelta ∅ ∅.
Definition of_added (handles : list Handle) : Delta := mkDelta (list_to_set handles) ∅.
Definition of_removed (handles : list Handle) : Delta := mkDelta ∅ (list_to_set handles).
Definition between_worlds (before after : Handle) : Delta :=
  if decide (before = after) then delta_new else mkDelta {[after]} {[before]}.
Definition delta_len (d : Delta) : nat := size (added d) + size (removed d).
Definition delta_is_empty (d : Delta) : bool := bool_decide (added d = ∅) && bool_decide (removed d = ∅).

Definition touched (d : Delta) : list Handle := set_iter (added d) ++ set_iter (removed d).

Record CandidateDelta : Type := mkCandidateDelta { cadded : gset Candidate; cremoved : gset Candidate }.
Definition candidate_delta_new : CandidateDelta := mkCandidateDelta ∅ ∅.
Definition candidate_delta_len (d : CandidateDelta) : nat := size (cadded d) + size (cremoved d).
Definition merge (self other : CandidateDelta) : CandidateDelta :=
  mkCandidateDelta (cadded self ∪ cadded other) (cremoved self ∪ cremoved other).

Inductive Footprint : Type :=
  | AllConfigs
  | Configs (handles : gset Handle).

Definition intersects (self : Footprint) (delta : Delta) : bool :=
  if delta_is_empty delta then false else
  match self with
  | AllConfigs => true
  | Configs set => existsb (λ h, bool_decide (h ∈ set)) (touched delta)
  end.

(** The delta of a committed step. *)
Definition step_world_delta (before : ExecConfig) (committed : Committed) : Delta :=
  match committed with
  | QuiescentC => delta_new
  | Step _ successor => between_worlds (world before) (world successor)
  end.

(** * The engine *)

(** [trait IncrementalWitnessIndex], over the state of a provider. *)
Class IncrementalWitnessIndex (T : Type) := {
  footprint : T → Footprint;
  apply_delta_to : T → Delta → CandidateDelta * T
}.

#[export] Instance Ord_nat : Ord nat := Nat.compare.

Section engine.
Context {T : Type} `{IncrementalWitnessIndex T}.

Record StepReport : Type := mkReport { candidate_delta : CandidateDelta; cost : CostRecord }.

Record IncrementalEngine : Type := mkEngine {
  providers : list T;
  index : gmap Handle (gset nat);
  universal : gset nat;
  view : gset Candidate
}.

(** [index.entry(h).or_default().insert(i)]. *)
Definition index_insert (i : nat) (index : gmap Handle (gset nat)) (h : Handle) : gmap Handle (gset nat) :=
  <[h := {[i]} ∪ default ∅ (index !! h)]> index.

(** The loop of [new]. *)
Fixpoint build_index (i : nat) (ps : list T) (acc : gmap Handle (gset nat) * gset nat) :
    gmap Handle (gset nat) * gset nat :=
  match ps with
  | [] => acc
  | p :: ps' =>
    let '(index, universal) := acc in
    build_index (1 + i) ps'
      (match footprint p with
       | AllConfigs => (index, {[i]} ∪ universal)
       | Configs set => (fold_left (index_insert i) (set_iter set) index, universal)
       end)
  end.

Definition engine_new (ps : list T) : IncrementalEngine :=
  let '(index, universal) := build_index 0 ps (∅, ∅) in mkEngine ps index universal ∅.

(** The routing loop: the affected providers and one work unit per lookup. *)
Definition route (self : IncrementalEngine) (delta : Delta) : gset nat * Z :=
  if delta_is_empty delta then (∅, 0%Z) else
  let '(affected, work) :=
    fold_left (λ acc h,
      let '(affected, work) := acc in
      (match index self !! h with Some indices => affected ∪ indices | None => affected end,
       work + 1)%Z) (touched delta) (∅, 0%Z) in
  (affected ∪ universal self, work).

(** The application loop; an index without provider panics ([None]). *)
Fixpoint apply_affected (delta : Delta) (idxs : list nat) (ps : list T) (combined : CandidateDelta)
    (work : Z) : option (list T * CandidateDelta * Z) :=
  match idxs with
  | [] => Some (ps, combined, work)
  | i :: idxs' =>
    p ← ps !! i;
    let '(cd, p') := apply_delta_to p delta in
    apply_affected delta idxs' (<[i:=p']> ps) (merge combined cd)
      (work + 1 + Z.of_nat (candidate_delta_len cd))
  end.

Definition engine_step (self : IncrementalEngine) (delta : Delta) :
    option (StepReport * IncrementalEngine) :=
  let '(affected, work) := route self delta in
  '(ps, combined, work) ← apply_affected delta (set_iter affected) (providers self) candidate_delta_new work;
  Some (mkReport combined (Steps work),
        mkEngine ps (index self) (universal self)
          (cadded combined ∪ (view self ∖ cremoved combined))).

Fixpoint engine_steps (self : IncrementalEngine) (deltas : list Delta) : option IncrementalEngine :=
  match deltas with
  | [] => Some self
  | d :: ds => '(_, self') ← engine_step self d; engine_steps self' ds
  end.
End engine.
Arguments IncrementalEngine : clear implicits.

(** The reference: the oracle over every presented configuration. *)
Definition naive_view_over (providers : list WitnessProvider) (adm : Adm) (configs : gset Handle)
    (policy : Handle) (history : Digest) : gset Candidate :=
  fold_left (λ out w, out ∪ cand providers adm (mkExec w policy history)) (set_iter configs) ∅.

Definition naive_view_over_instrumented (providers : list WitnessProvider) (adm : Adm)
    (configs : gset Handle) (policy : Handle) (history : Digest) : gset Candidate * CostRecord :=
  let '(out, work) :=
    fold_left (λ acc w, scan_counted adm (mkExec w policy history) providers acc)
      (set_iter configs) (∅, 0%Z) in
  (out, Steps work).

(** * Sets as iterated *)

Lemma elem_touched d h : h ∈ touched d ↔ h ∈ added d ∨ h ∈ removed d.
Proof. unfold touched. by rewrite elem_of_app, !elem_set_iter. Qed.

Lemma delta_is_empty_true d : delta_is_empty d = true ↔ added d = ∅ ∧ removed d = ∅.
Proof. unfold delta_is_empty. by rewrite andb_true_iff, !bool_decide_eq_true. Qed.

Lemma naive_view_elem ps adm W policy history c :
  c ∈ naive_view_over ps adm W policy history ↔
  ∃ w, w ∈ W ∧ c ∈ cand ps adm (mkExec w policy history).
Proof.
  unfold naive_view_over. setoid_rewrite <-(elem_set_iter W).
  enough (∀ out, c ∈ fold_left (λ out w, out ∪ cand ps adm (mkExec w policy history)) (set_iter W) out ↔
    c ∈ out ∨ ∃ w, w ∈ set_iter W ∧ c ∈ cand ps adm (mkExec w policy history)) as Hout.
  { rewrite Hout, elem_of_empty. tauto. }
  induction (set_iter W) as [|w l IH]; intros out; cbn [fold_left].
  - split; [by left|]. by intros [?|(? & ?%elem_of_nil & _)].
  - rewrite IH, elem_of_union. setoid_rewrite elem_of_cons. naive_solver.
Qed.

Section routing.
Context {T : Type} `{IncrementalWitnessIndex T}.

(** What the footprint index says about provider [i]. *)
Definition indexed (ps : list T) (i : nat) (h : Handle) : Prop :=
  ∃ p set, ps !! i = Some p ∧ footprint p = Configs set ∧ h ∈ set.
Definition unskippable (ps : list T) (i : nat) : Prop :=
  ∃ p, ps !! i = Some p ∧ footprint p = AllConfigs.

Lemma index_insert_all (i j : nat) l (idx : gmap Handle (gset nat)) h :
  j ∈ default ∅ (fold_left (index_insert i) l idx !! h) ↔ j ∈ default ∅ (idx !! h) ∨ (j = i ∧ h ∈ l).
Proof.
  revert idx. induction l as [|h' l IH]; intros idx; cbn [fold_left].
  - rewrite elem_of_nil. tauto.
  - rewrite IH, elem_of_cons. unfold index_insert. destruct (decide (h = h')) as [->|Hne].
    + rewrite lookup_insert_eq. cbn [default from_option id]. rewrite elem_of_union, elem_of_singleton. tauto.
    + rewrite lookup_insert_ne by done. tauto.
Qed.

Lemma build_index_spec ps k idx univ :
  let '(idx', univ') := build_index k ps (idx, univ) in
  (∀ j h, j ∈ default ∅ (idx' !! h) ↔ j ∈ default ∅ (idx !! h) ∨ ∃ i, j = k + i ∧ indexed ps i h) ∧
  (∀ j, j ∈ univ' ↔ j ∈ univ ∨ ∃ i, j = k + i ∧ unskippable ps i).
Proof.
  revert k idx univ. induction ps as [|p ps IH]; intros k idx univ; cbn [build_index].
  { split; intros; split; try (by left).
    - by intros [?|(i & _ & p & set & Hp & _)].
    - by intros [?|(i & _ & p & Hp & _)]. }
  assert (∀ i h, indexed (p :: ps) i h ↔
    (i = 0 ∧ ∃ set, footprint p = Configs set ∧ h ∈ set) ∨ ∃ i', i = S i' ∧ indexed ps i' h) as Hidx.
  { intros [|i] h; unfold indexed; cbn; naive_solver. }
  assert (∀ i, unskippable (p :: ps) i ↔
    (i = 0 ∧ footprint p = AllConfigs) ∨ ∃ i', i = S i' ∧ unskippable ps i') as Huni.
  { intros [|i]; unfold unskippable; cbn; naive_solver. }
  destruct (footprint p) as [|set] eqn:Ef.
  - specialize (IH (1 + k) idx ({[k]} ∪ univ)). destruct (build_index _ ps _) as [idx' univ'].
    destruct IH as [IH1 IH2]. split.
    + intros j h. rewrite IH1. setoid_rewrite Hidx. split.
      * intros [?|(i & -> & Hi)]; [by left|]. right. exists (S i). split; [lia|]. right. by exists i.
      * intros [?|(i & -> & [(_ & s & Hs & _)|(i' & -> & Hi)])]; [by left|congruence|].
        right. exists i'. split; [lia|done].
    + intros j. rewrite IH2, elem_of_union, elem_of_singleton. setoid_rewrite Huni. split.
      * intros [[->|?]|(i & -> & Hi)]; [|by left|].
        -- right. exists 0. split; [lia|]. by left.
        -- right. exists (S i). split; [lia|]. right. by exists i.
      * intros [?|(i & -> & [(-> & _)|(i' & -> & Hi)])]; [tauto|left; left; lia|].
        right. exists i'. split; [lia|done].
  - specialize (IH (1 + k) (fold_left (index_insert k) (set_iter set) idx) univ).
    destruct (build_index _ ps _) as [idx' univ'].
    destruct IH as [IH1 IH2]. split.
    + intros j h. rewrite IH1, index_insert_all, elem_set_iter. setoid_rewrite Hidx. split.
      * intros [[?|[-> Hh]]|(i & -> & Hi)]; [by left| |].
        -- right. exists 0. split; [lia|]. left. eauto.
        -- right. exists (S i). split; [lia|]. right. by exists i.
      * intros [?|(i & -> & [(-> & s & [= <-] & Hh)|(i' & -> & Hi)])]; [tauto| |].
        -- left. right. split; [lia|done].
        -- right. exists i'. split; [lia|done].
    + intros j. rewrite IH2. setoid_rewrite Huni. split.
      * intros [?|(i & -> & Hi)]; [by left|]. right. exists (S i). split; [lia|]. right. by exists i.
      * intros [?|(i & -> & [(_ & Hs)|(i' & -> & Hi)])]; [by left|congruence|].
        right. exists i'. split; [lia|done].
Qed.

(** An engine whose index is the one built for the footprints of [ps]. *)
Definition routed (e : IncrementalEngine T) (ps : list T) : Prop :=
  (∀ j h, j ∈ default ∅ (index e !! h) ↔ indexed ps j h) ∧
  (∀ j, j ∈ universal e ↔ unskippable ps j).

Lemma engine_new_routed ps : routed (engine_new ps) ps.
Proof.
  unfold engine_new. pose proof (build_index_spec ps 0 ∅ ∅) as Hb.
  destruct (build_index 0 ps (∅, ∅)) as [idx univ]. destruct Hb as [H1 H2]. split; cbn.
  - intros j h. rewrite H1, lookup_empty. cbn. rewrite elem_of_empty. naive_solver.
  - intros j. rewrite H2, elem_of_empty. naive_solver.
Qed.

Lemma route_fold (e : IncrementalEngine T) l affected work :
  let '(affected', work') := fold_left (λ acc h,
      let '(affected, work) := acc in
      (match index e !! h with Some indices => affected ∪ indices | None => affected end,
       work + 1)%Z) l (affected, work) in
  (∀ j, j ∈ affected' ↔ j ∈ affected ∨ ∃ h, h ∈ l ∧ j ∈ default ∅ (index e !! h)) ∧
  work' = (work + Z.of_nat (length l))%Z.
Proof.
  revert affected work. induction l as [|h l IH]; intros affected work; cbn [fold_left length].
  - split; [|lia]. intros j. split; [by left|]. by intros [?|(h & ?%elem_of_nil & _)].
  - specialize (IH (match index e !! h with Some indices => affected ∪ indices | None => affected end) (work + 1)%Z).
    destruct (fold_left _ l _) as [affected' work']. destruct IH as [IH ->]. split; [|lia].
    intros j. rewrite IH. setoid_rewrite elem_of_cons.
    destruct (index e !! h) as [is'|] eqn:E; cbn; [rewrite elem_of_union|];
      split; intros Hj; repeat (destruct Hj as [Hj|Hj] || destruct Hj as (h' & Hj));
      naive_solver (rewrite E in *; cbn in *; set_solver).
Qed.

Lemma route_spec (e : IncrementalEngine T) ps d :
  routed e ps →
  (∀ j, j ∈ (route e d).1 ↔ ∃ p, ps !! j = Some p ∧ intersects (footprint p) d = true) ∧
  (route e d).2 = if delta_is_empty d then 0%Z else Z.of_nat (delta_len d).
Proof.
  intros [Hidx Huni]. unfold route, intersects. destruct (delta_is_empty d) eqn:Ed; cbn.
  { split; [|done]. intros j. rewrite elem_of_empty. split; [done|]. by intros (p & _ & ?). }
  pose proof (route_fold e (touched d) ∅ 0) as Hf.
  destruct (fold_left _ (touched d) _) as [affected work]. destruct Hf as [Ha ->]. cbn. split.
  - intros j. rewrite elem_of_union, Ha, elem_of_empty, Huni. setoid_rewrite Hidx. split.
    + intros [[[]|(h & Hh & p & set & Hp & Hf & Hin)]|(p & Hp & Hf)]; exists p; (split; [done|]); rewrite Hf; [|done].
      apply existsb_exists. exists h. rewrite <-list_elem_of_In. split; [done|]. by apply bool_decide_eq_true.
    + intros (p & Hp & Hin). destruct (footprint p) as [|set] eqn:Hf; [right; by exists p|].
      apply existsb_exists in Hin as (h & Hh%list_elem_of_In & Hin%bool_decide_eq_true).
      left. right. exists h. split; [done|]. by exists p, set.
  - unfold touched, delta_len. rewrite length_app, !length_set_iter. lia.
Qed.
End routing.

Section stepping.
Context {T : Type} `{IncrementalWitnessIndex T}.

(** The work of applying the providers [idxs]. *)
Fixpoint apply_work (delta : Delta) (ps : list T) (idxs : list nat) : Z :=
  match idxs with
  | [] => 0
  | i :: idxs' =>
    match ps !! i with
    | Some p => 1 + Z.of_nat (candidate_delta_len (apply_delta_to p delta).1) + apply_work delta ps idxs'
    | None => apply_work delta ps idxs'
    end
  end%Z.

Lemma apply_work_insert delta ps idxs i p :
  i ∉ idxs → apply_work delta (<[i:=p]> ps) idxs = apply_work delta ps idxs.
Proof.
  induction idxs as [|j idxs IH]; cbn [apply_work]; [done|]. rewrite not_elem_of_cons. intros [Hij Hi].
  rewrite IH by done. by rewrite list_lookup_insert_ne.
Qed.

Lemma apply_affected_spec delta idxs ps combined work :
  NoDup idxs → Forall (λ i, i < length ps) idxs →
  ∃ ps' combined', apply_affected delta idxs ps combined work =
      Some (ps', combined', (work + apply_work delta ps idxs)%Z) ∧
    (∀ i, ps' !! i = if decide (i ∈ idxs) then (λ p, (apply_delta_to p delta).2) <$> ps !! i else ps !! i) ∧
    (∀ c, c ∈ cadded combined' ↔ c ∈ cadded combined ∨
       ∃ i p, i ∈ idxs ∧ ps !! i = Some p ∧ c ∈ cadded (apply_delta_to p delta).1) ∧
    (∀ c, c ∈ cremoved combined' ↔ c ∈ cremoved combined ∨
       ∃ i p, i ∈ idxs ∧ ps !! i = Some p ∧ c ∈ cremoved (apply_delta_to p delta).1).
Proof.
  revert ps combined work. induction idxs as [|i idxs IH]; intros ps combined work Hnd Hlt; cbn [apply_affected].
  { exists ps, combined. split_and!; [by rewrite Z.add_0_r| |..].
    - intros i. case_decide as Hi; [by apply elem_of_nil in Hi|done].
    - intros c. split; [by left|]. by intros [?|(? & ? & ?%elem_of_nil & _)].
    - intros c. split; [by left|]. by intros [?|(? & ? & ?%elem_of_nil & _)]. }
  apply NoDup_cons in Hnd as [Hi Hnd]. apply Forall_cons in Hlt as [Hilt Hlt].
  destruct (lookup_lt_is_Some_2 ps i Hilt) as [p Hp]. rewrite Hp. cbn.
  rewrite Hp. destruct (apply_delta_to p delta) as [cd p'] eqn:E.
  destruct (IH (<[i:=p']> ps) (merge combined cd) (work + 1 + Z.of_nat (candidate_delta_len cd))%Z Hnd)
    as (ps' & combined' & -> & Hps & Hadd & Hrem).
  { by rewrite length_insert. }
  assert (∀ (f : CandidateDelta → gset Candidate) c, (∃ j q, j ∈ i :: idxs ∧ ps !! j = Some q ∧ c ∈ f (apply_delta_to q delta).1) ↔
    c ∈ f cd ∨ ∃ j q, j ∈ idxs ∧ <[i:=p']> ps !! j = Some q ∧ c ∈ f (apply_delta_to q delta).1) as Hex.
  { intros f c. split.
    - intros (j & q & [->|Hj]%elem_of_cons & Hq & Hc).
      + left. assert (q = p) as -> by congruence. by rewrite E in Hc.
      + right. exists j, q. rewrite list_lookup_insert_ne by (by intros ->). done.
    - intros [Hc|(j & q & Hj & Hq & Hc)].
      + exists i, p. rewrite E. split_and!; [constructor|done..].
      + exists j, q. rewrite list_lookup_insert_ne in Hq by (by intros ->). split_and!; [by constructor|done..]. }
  exists ps', combined'. split_and!.
  - rewrite apply_work_insert by done. cbn [fst]. do 2 f_equal. lia.
  - intros j. rewrite Hps. destruct (decide (j = i)) as [->|Hne].
    + rewrite decide_False by done. rewrite decide_True by constructor.
      rewrite list_lookup_insert_eq by done. rewrite Hp. cbn. by rewrite E.
    + rewrite list_lookup_insert_ne by done. do 2 case_decide; set_solver.
  - intros c. rewrite Hadd, (Hex cadded). unfold merge. cbn. rewrite elem_of_union. tauto.
  - intros c. rewrite Hrem, (Hex cremoved). unfold merge. cbn. rewrite elem_of_union. tauto.
Qed.

(** One step of an engine routed for the footprints of [ps0]. *)
Lemma engine_step_spec e ps0 d :
  routed e ps0 → length (providers e) = length ps0 →
  ∃ combined e', engine_step e d = Some (mkReport combined
      (Steps ((route e d).2 + apply_work d (providers e) (set_iter (route e d).1))), e') ∧
    routed e' ps0 ∧
    (∀ i, providers e' !! i = if decide (i ∈ (route e d).1)
       then (λ p, (apply_delta_to p d).2) <$> providers e !! i else providers e !! i) ∧
    (∀ c, c ∈ view e' ↔
       (∃ i p, i ∈ (route e d).1 ∧ providers e !! i = Some p ∧ c ∈ cadded (apply_delta_to p d).1) ∨
       (c ∈ view e ∧ ∀ i p, i ∈ (route e d).1 → providers e !! i = Some p → c ∉ cremoved (apply_delta_to p d).1)).
Proof.
  intros Hr Hlen. pose proof (route_spec e ps0 d Hr) as [Hroute _]. unfold engine_step.
  destruct (route e d) as [affected work]. cbn [fst snd] in *.
  destruct (apply_affected_spec d (set_iter affected) (providers e) candidate_delta_new work)
    as (ps' & combined & -> & Hps & Hadd & Hrem); [apply set_iter_nodup| |].
  { apply Forall_forall. intros i (p & Hp & _)%elem_set_iter%Hroute. rewrite Hlen. by eapply lookup_lt_Some. }
  cbn. eexists _, _. split_and!; [done|exact Hr| |].
  - intros i. cbn. rewrite Hps.
    destruct (decide (i ∈ affected)); [rewrite decide_True by (by apply elem_set_iter)
      |rewrite decide_False by (by rewrite elem_set_iter)]; done.
  - intros c. cbn. rewrite elem_of_union, elem_of_difference, Hadd, Hrem. cbn.
    setoid_rewrite elem_set_iter. set_solver.
Qed.
End stepping.

Lemma lookup_length_eq {A B} (l1 : list A) (l2 : list B) :
  (∀ i, is_Some (l1 !! i) ↔ is_Some (l2 !! i)) → length l1 = length l2.
Proof.
  intros Hl. apply Nat.le_antisymm; apply Nat.le_ngt; intros Hlt.
  - apply lookup_lt_is_Some, Hl, lookup_lt_is_Some in Hlt. lia.
  - apply lookup_lt_is_Some, Hl, lookup_lt_is_Some in Hlt. lia.
Qed.

(** * The contract of a provider *)

(** The configurations presented after a delta, in the engine's order: what left
    leaves first. (For a delta whose two sets are disjoint the order is immaterial.) *)
Definition present (W : gset Handle) (d : Delta) : gset Handle := (W ∖ removed d) ∪ added d.

Section identity.
Context {T : Type} `{IncrementalWitnessIndex T}.
Context (naive : list WitnessProvider) (adm : Adm) (policy : Handle) (history : Digest).

(** Naive provider [i] offers [c] at a presented configuration. *)
Definition contributes (i : nat) (W : gset Handle) (c : Candidate) : Prop :=
  ∃ p w, naive !! i = Some p ∧ w ∈ W ∧ c ∈ cand [p] adm (mkExec w policy history).

Lemma naive_view_contributes W c :
  c ∈ naive_view_over naive adm W policy history ↔ ∃ i, contributes i W c.
Proof.
  rewrite naive_view_elem. unfold contributes. setoid_rewrite cand_elem.
  setoid_rewrite list_elem_of_singleton. split.
  - intros (w & Hw & (p & Hp & Hc) & Ha). apply list_elem_of_lookup in Hp as [i Hi]. naive_solver.
  - intros (i & p & w & Hi & Hw & (? & -> & Hc) & Ha). exists w. split; [done|]. split; [|done].
    exists p. split; [by eapply list_elem_of_lookup_2|done].
Qed.

(** The state [p] of provider [i] is in step with the presented configurations: its
    deltas are the changes of what its naive counterpart offers, and outside its
    footprint nothing changes. *)
Class HonestIndex (tracks : nat → T → gset Handle → Prop) : Prop := {
  honest_footprint i p W d : tracks i p W → footprint (apply_delta_to p d).2 = footprint p;
  honest_tracks i p W d : tracks i p W →
    tracks i (if intersects (footprint p) d then (apply_delta_to p d).2 else p) (present W d);
  honest_apply i p W d c : tracks i p W → intersects (footprint p) d = true →
    (contributes i (present W d) c ↔
       c ∈ cadded (apply_delta_to p d).1 ∨ (contributes i W c ∧ c ∉ cremoved (apply_delta_to p d).1));
  honest_removed i p W d c : tracks i p W → c ∈ cremoved (apply_delta_to p d).1 →
    ∃ W', contributes i W' c;
  honest_skip i p W d c : tracks i p W → intersects (footprint p) d = false →
    (contributes i (present W d) c ↔ contributes i W c)
}.

(** No two providers ever offer one candidate. *)
Definition exclusive : Prop := ∀ i j W W' c, contributes i W c → contributes j W' c → i = j.

Context (tracks : nat → T → gset Handle → Prop) `{!HonestIndex tracks}.
Hypothesis owned : exclusive.

(** The engine after the deltas that presented [W]. *)
Definition in_step (e : IncrementalEngine T) (ps0 : list T) (W : gset Handle) : Prop :=
  routed e ps0 ∧ length (providers e) = length ps0 ∧
  (∀ i p, providers e !! i = Some p → tracks i p W ∧ ∃ p0, ps0 !! i = Some p0 ∧ footprint p = footprint p0) ∧
  (∀ c, c ∈ view e ↔ ∃ i, contributes i W c).

Lemma engine_step_in_step e ps0 W d :
  length ps0 = length naive → in_step e ps0 W →
  ∃ r e', engine_step e d = Some (r, e') ∧ in_step e' ps0 (present W d).
Proof.
  intros Hn (Hr & Hlen & Hps & Hv).
  destruct (engine_step_spec e ps0 d Hr Hlen) as (combined & e' & E & Hr' & Hps' & Hv').
  eexists _, e'. split; [exact E|].
  pose proof (route_spec e ps0 d Hr) as [Hroute _].
  assert (∀ i p, providers e !! i = Some p →
    i ∈ (route e d).1 ↔ intersects (footprint p) d = true) as Hin.
  { intros i p Hp. destruct (Hps i p Hp) as (_ & p0 & Hp0 & Hf). rewrite Hroute, Hf. naive_solver. }
  assert (∀ i W' c, contributes i W' c → ∃ p, providers e !! i = Some p) as Hprov.
  { intros i W' c (p & w & Hp & _). destruct (lookup_lt_is_Some_2 (providers e) i) as [q Hq]; [|by exists q].
    rewrite Hlen, Hn. by eapply lookup_lt_Some. }
  split_and!; [done| | |].
  - rewrite <-Hlen. apply lookup_length_eq. intros i. rewrite Hps'.
    by case_decide; [destruct (providers e !! i)|].
  - intros i p'. rewrite Hps'. intros Hp'.
    assert (∃ p, providers e !! i = Some p ∧
      p' = if intersects (footprint p) d then (apply_delta_to p d).2 else p) as (p & Hp & ->).
    { case_decide as Hi; [destruct (providers e !! i) as [p|] eqn:Hp; [|done]; injection Hp' as <-|];
        eexists; (split; [done|]); rewrite Hin in Hi by done; [by rewrite Hi|].
      by destruct (intersects _ _). }
    destruct (Hps i p Hp) as (Ht & p0 & Hp0 & Hf). split; [by apply honest_tracks|].
    exists p0. split; [done|]. destruct (intersects _ _); [|done]. by rewrite (honest_footprint i p W).
  - intros c. rewrite Hv'. split.
    + intros [(i & p & Hi & Hp & Hc)|[Hc Hno]].
      * exists i. destruct (Hps i p Hp) as [Ht _]. apply (honest_apply i p W d c Ht); [by apply (Hin i p)|by left].
      * apply Hv in Hc as [i Hc]. destruct (Hprov _ _ _ Hc) as [p Hp]. destruct (Hps i p Hp) as [Ht _].
        exists i. destruct (intersects (footprint p) d) eqn:Hx.
        -- apply (honest_apply i p W d c Ht Hx). right. split; [done|]. apply (Hno i p); [by apply (Hin i p)|done].
        -- by apply (honest_skip i p W d c Ht Hx).
    + intros [i Hc]. destruct (Hprov _ _ _ Hc) as [p Hp]. destruct (Hps i p Hp) as [Ht _].
      assert (contributes i W c → (∀ q, providers e !! i = Some q → i ∈ (route e d).1 → c ∉ cremoved (apply_delta_to q d).1) →
        c ∈ view e ∧ ∀ j q, j ∈ (route e d).1 → providers e !! j = Some q → c ∉ cremoved (apply_delta_to q d).1) as Hkeep.
      { intros Hold Hself. split; [apply Hv; by exists i|]. intros j q Hj Hq Hrem.
        destruct (Hps j q Hq) as [Htq _].
        destruct (honest_removed j q W d c Htq Hrem) as [W' Hold'].
        assert (i = j) as Hij by exact (owned _ _ _ _ _ Hold Hold'). subst j. by apply (Hself q). }
      destruct (intersects (footprint p) d) eqn:Hx.
      * destruct (proj1 (honest_apply i p W d c Ht Hx) Hc) as [Hc'|[Hc' Hno]].
        -- left. exists i, p. split_and!; [by apply (Hin i p)|done..].
        -- right. apply Hkeep; [done|]. intros q Hq _. by replace q with p by congruence.
      * right. apply Hkeep; [by apply (honest_skip i p W d c Ht Hx)|].
        intros q Hq Hi. apply (Hin i q Hq) in Hi. replace q with p in Hi by congruence. congruence.
Qed.

Lemma engine_new_in_step ps0 :
  (∀ i p, ps0 !! i = Some p → tracks i p ∅) → in_step (engine_new ps0) ps0 ∅.
Proof.
  intros Ht. split_and!; [apply engine_new_routed|unfold engine_new; by destruct (build_index _ _ _)| |].
  - intros i p Hp. assert (providers (engine_new ps0) = ps0) as Hps
      by (unfold engine_new; by destruct (build_index _ _ _)).
    rewrite Hps in Hp. split; [by apply Ht|]. by exists p.
  - intros c. unfold engine_new. destruct (build_index _ _ _). cbn. rewrite elem_of_empty.
    split; [done|]. by intros (i & p & w & _ & ?%elem_of_empty & _).
Qed.
End identity.

(** ** Providers driven by a table *)

Section table.
Context {T : Type} `{IncrementalWitnessIndex T} (naive_of : T → WitnessProvider)
  (offers : T → Handle → list Candidate).

(** A provider without state of its own: what it offers depends on the world only,
    a delta adds and removes what its handles offer, and the footprint covers every
    handle that offers something. *)
Class TableIndex : Prop := {
  table_naive p e c : c ∈ naive_of p e ↔ c ∈ offers p (world e);
  table_footprint p : ∃ set, footprint p = Configs set ∧ ∀ h c, c ∈ offers p h → h ∈ set;
  table_added p d c : c ∈ cadded (apply_delta_to p d).1 ↔ ∃ h, h ∈ added d ∧ c ∈ offers p h;
  table_removed p d c : c ∈ cremoved (apply_delta_to p d).1 ↔ ∃ h, h ∈ removed d ∧ c ∈ offers p h;
  table_state p d : (apply_delta_to p d).2 = p
}.

(** One provider never offers one candidate at two configurations. *)
Definition separated (p : T) : Prop := ∀ h1 h2 c, c ∈ offers p h1 → c ∈ offers p h2 → h1 = h2.

Context `{!TableIndex} (policy : Handle) (history : Digest) (ps : list T).

Lemma table_contributes i W c :
  contributes (naive_of <$> ps) AdmAll policy history i W c ↔
  ∃ p w, ps !! i = Some p ∧ w ∈ W ∧ c ∈ offers p w.
Proof.
  unfold contributes. setoid_rewrite cand_elem. setoid_rewrite list_elem_of_singleton.
  setoid_rewrite list_lookup_fmap_Some. split.
  - intros (q & w & (p & -> & Hp) & Hw & (? & -> & Hc) & _). apply table_naive in Hc. by exists p, w.
  - intros (p & w & Hp & Hw & Hc). exists (naive_of p), w. split_and!; [by exists p|done| |done].
    exists (naive_of p). split; [done|]. by apply table_naive.
Qed.

Lemma table_skips p d h c :
  intersects (footprint p) d = false → c ∈ offers p h → ¬ (h ∈ added d ∨ h ∈ removed d).
Proof.
  unfold intersects. destruct (delta_is_empty d) eqn:E; [apply delta_is_empty_true in E as [-> ->]; set_solver|].
  destruct (table_footprint p) as (set & -> & Hset). intros Hx Hc. apply Hset in Hc.
  assert (¬ h ∈ touched d) as Hno by (intros Hin; apply not_true_iff_false in Hx; apply Hx, existsb_exists;
    exists h; split; [by apply list_elem_of_In|by apply bool_decide_eq_true]).
  by rewrite elem_touched in Hno.
Qed.

Definition table_tracks (i : nat) (p : T) (W : gset Handle) : Prop := ps !! i = Some p.

Lemma table_honest :
  (∀ p, p ∈ ps → separated p) → HonestIndex (naive_of <$> ps) AdmAll policy history table_tracks.
Proof.
  intros Hsep. split; unfold table_tracks.
  - intros i p W d _. by rewrite table_state.
  - intros i p W d Hp. rewrite table_state. by destruct (intersects _ _).
  - intros i p W d c Hp _. rewrite !table_contributes, table_added, table_removed. unfold present.
    assert (separated p) as Hs by (by apply Hsep, list_elem_of_lookup; exists i). split.
    + intros (q & w & Hq & [[Hw Hr]%elem_of_difference|Ha]%elem_of_union & Hc); replace q with p in * by congruence.
      * right. split; [by exists p, w|]. intros (h & Hh & Hch). by replace w with h in Hr by (by eapply Hs).
      * left. by exists w.
    + intros [(h & Hh & Hc)|[(q & w & Hq & Hw & Hc) Hno]].
      * exists p, h. split_and!; [done|apply elem_of_union; by right|done].
      * replace q with p in * by congruence. exists p, w. split_and!; [done| |done].
        apply elem_of_union; left. apply elem_of_difference. split; [done|]. intros Hr. by apply Hno; exists w.
  - intros i p W d c Hp (h & _ & Hc)%table_removed. exists {[h]}. apply table_contributes.
    exists p, h. split_and!; [done|by apply elem_of_singleton|exact Hc].
  - intros i p W d c Hp Hx. rewrite !table_contributes. unfold present.
    split; intros (q & w & Hq & Hw & Hc); exists q, w; replace q with p in * by congruence;
      pose proof (table_skips p d w c Hx Hc); set_solver.
Qed.
End table.

(** The simplest provider: one candidate, offered while one configuration is
    presented (as the code's own tests use). *)
Record OneConfig : Type := mkOne { config : Handle; offered : Candidate }.

#[export] Instance one_config_index : IncrementalWitnessIndex OneConfig := {
  footprint p := Configs {[config p]};
  apply_delta_to p d :=
    (mkCandidateDelta (if decide (config p ∈ added d) then {[offered p]} else ∅)
                      (if decide (config p ∈ removed d) then {[offered p]} else ∅), p)
}.

Definition one_naive (p : OneConfig) : WitnessProvider := λ e,
  if decide (world e = config p) then [offered p] else [].

Definition one_offers (p : OneConfig) (h : Handle) : list Candidate :=
  if decide (h = config p) then [offered p] else [].

Lemma elem_one_offers p h c : c ∈ one_offers p h ↔ h = config p ∧ c = offered p.
Proof. unfold one_offers. case_decide; rewrite ?list_elem_of_singleton, ?elem_of_nil; tauto. Qed.

#[export] Instance one_table : TableIndex one_naive one_offers.
Proof.
  split; [done|..].
  - intros p. exists {[config p]}. split; [done|]. intros h c [-> _]%elem_one_offers. by apply elem_of_singleton.
  - intros p d c. cbn. setoid_rewrite elem_one_offers. case_decide; set_solver.
  - intros p d c. cbn. setoid_rewrite elem_one_offers. case_decide; set_solver.
  - done.
Qed.

Lemma one_separated p : separated one_offers p.
Proof. intros h1 h2 c [-> _]%elem_one_offers [-> _]%elem_one_offers. done. Qed.

Lemma one_contributes policy history (ps : list OneConfig) i W c :
  contributes (one_naive <$> ps) AdmAll policy history i W c ↔
  ∃ p, ps !! i = Some p ∧ config p ∈ W ∧ c = offered p.
Proof. rewrite (table_contributes one_naive one_offers). setoid_rewrite elem_one_offers. naive_solver. Qed.

Definition one_tracks (ps : list OneConfig) : nat → OneConfig → gset Handle → Prop := table_tracks ps.

#[export] Instance one_honest policy history ps :
  HonestIndex (one_naive <$> ps) AdmAll policy history (one_tracks ps).
Proof. apply (table_honest one_naive one_offers). intros p _. apply one_separated. Qed.

Lemma engine_steps_snoc {T} `{IncrementalWitnessIndex T} (e : IncrementalEngine T) ds d :
  engine_steps e (ds ++ [d]) = '(e1) ← engine_steps e ds; snd <$> engine_step e1 d.
Proof.
  revert e. induction ds as [|d' ds IH]; intros e; cbn.
  - by destruct (engine_step e d) as [[? ?]|].
  - destruct (engine_step e d') as [[? e']|]; cbn; [apply IH|done].
Qed.

Lemma engine_steps_routed {T} `{IncrementalWitnessIndex T} (ps : list T) ds :
  ∃ e, engine_steps (engine_new ps) ds = Some e ∧ routed e ps ∧ length (providers e) = length ps.
Proof.
  induction ds as [|d ds IH] using rev_ind.
  - exists (engine_new ps). split_and!; [done|apply engine_new_routed|].
    unfold engine_new. by destruct (build_index _ _ _).
  - destruct IH as (e & E & Hr & Hlen). rewrite engine_steps_snoc, E. cbn.
    destruct (engine_step_spec e ps d Hr Hlen) as (combined & e' & -> & Hr' & Hps & _).
    exists e'. split_and!; [done..|]. rewrite <-Hlen. apply lookup_length_eq. intros i. rewrite Hps.
    by case_decide; [destruct (providers e !! i)|].
Qed.

(** The engine over honest providers computes the naive view. *)
Lemma engine_view_naive {T} `{IncrementalWitnessIndex T}
    (naive : list WitnessProvider) adm policy history
    (tracks : nat → T → gset Handle → Prop) `{!HonestIndex naive adm policy history tracks} ps ds :
  exclusive naive adm policy history → length ps = length naive →
  (∀ i p, ps !! i = Some p → tracks i p ∅) →
  ∃ e, engine_steps (engine_new ps) ds = Some e ∧
    view e = naive_view_over naive adm (fold_left present ds ∅) policy history.
Proof.
  intros Hown Hlen Ht.
  enough (∃ e, engine_steps (engine_new ps) ds = Some e ∧
    in_step naive adm policy history tracks e ps (fold_left present ds ∅)) as (e & E & _ & _ & _ & Hv).
  { exists e. split; [done|]. apply set_eq. intros c. by rewrite Hv, naive_view_contributes. }
  induction ds as [|d ds IH] using rev_ind.
  - exists (engine_new ps). split; [done|]. by apply engine_new_in_step.
  - destruct IH as (e & E & Hin). rewrite engine_steps_snoc, E, fold_left_app. cbn.
    destruct (engine_step_in_step naive adm policy history tracks Hown e ps _ d Hlen Hin) as (r & e' & -> & Hin').
    exists e'. done.
Qed.

(** * Properties *)

(** Routing touches exactly the providers it must. After any deltas a further
    step never panics; it applies exactly the providers whose declared footprint
    intersects the delta and leaves the state of every other provider alone; the
    view loses what these removed and then gains what they added; and the cost is
    one unit per touched handle, per applied provider and per candidate change,
    whatever else the engine holds. *)
Theorem engine_step_routes {T} `{IncrementalWitnessIndex T} (ps : list T) ds d :
  ∃ e combined e' affected,
    engine_steps (engine_new ps) ds = Some e ∧
    engine_step e d = Some (mkReport combined (Steps ((if delta_is_empty d then 0 else Z.of_nat (delta_len d)) +
      apply_work d (providers e) (set_iter affected))), e') ∧
    (∀ i, i ∈ affected ↔ ∃ p, ps !! i = Some p ∧ intersects (footprint p) d = true) ∧
    (∀ i, providers e' !! i = if decide (i ∈ affected)
       then (λ p, (apply_delta_to p d).2) <$> providers e !! i else providers e !! i) ∧
    (∀ c, c ∈ view e' ↔
       (∃ i p, i ∈ affected ∧ providers e !! i = Some p ∧ c ∈ cadded (apply_delta_to p d).1) ∨
       (c ∈ view e ∧ ∀ i p, i ∈ affected → providers e !! i = Some p → c ∉ cremoved (apply_delta_to p d).1)).
Proof.
  destruct (engine_steps_routed ps ds) as (e & E & Hr & Hlen).
  destruct (engine_step_spec e ps d Hr Hlen) as (combined & e' & E' & _ & Hps & Hv).
  destruct (route_spec e ps d Hr) as [Hroute Hcost]. rewrite Hcost in E'.
  exists e, combined, e', (route e d).1. split_and!; [done|exact E'|exact Hroute|exact Hps|exact Hv].
Qed.

(** C4: differential identity. For honest providers that never offer one candidate
    between two of them, the view after any stream of deltas is exactly the naive
    oracle's, recomputed from scratch over the presented configurations. *)
Theorem engine_matches_naive {T} `{IncrementalWitnessIndex T}
    (naive : list WitnessProvider) adm policy history
    (tracks : nat → T → gset Handle → Prop) `{!HonestIndex naive adm policy history tracks} ps ds :
  exclusive naive adm policy history → length ps = length naive →
  (∀ i p, ps !! i = Some p → tracks i p ∅) →
  ∃ e, engine_steps (engine_new ps) ds = Some e ∧
    view e = naive_view_over naive adm (fold_left present ds ∅) policy history.
Proof. intros. by apply (engine_view_naive naive adm policy history tracks). Qed.

Definition demo_ones : list OneConfig := [mkOne (mkHandle 0) (mkCandidate (mkHandle 7) (mkHandle 1))].

Lemma engine_matches_naive_witness :
  ∃ e, engine_steps (engine_new demo_ones) [of_added [mkHandle 0; mkHandle 3]] = Some e ∧
    view e = naive_view_over (one_naive <$> demo_ones) AdmAll
      (fold_left present [of_added [mkHandle 0; mkHandle 3]] ∅) (mkHandle 9) (mkDigest []).
Proof.
  apply (engine_matches_naive (one_naive <$> demo_ones) AdmAll (mkHandle 9) (mkDigest [])
    (one_tracks demo_ones)); [|reflexivity|intros i p Hp; exact Hp].
  intros i j W W' c (p & Hp & _)%one_contributes (q & Hq & _)%one_contributes.
  destruct i as [|i]; [|discriminate Hp]. destruct j as [|j]; [reflexivity|discriminate Hq].
Defined.

(** Two honest providers that offer the same candidate at two configurations. *)
Definition sharing : list OneConfig :=
  [mkOne (mkHandle 0) (mkCandidate (mkHandle 7) (mkHandle 2));
   mkOne (mkHandle 1) (mkCandidate (mkHandle 7) (mkHandle 2))].
Definition sharing_deltas : list Delta := [of_added [mkHandle 0; mkHandle 1]; of_removed [mkHandle 0]].

(** Without exclusive ownership the identity fails. The view is a plain set, so
    when two honest providers offer one candidate at two configurations and one of
    the configurations leaves, the candidate is withdrawn although the other
    provider still offers it: the engine's view is empty, the oracle's is not. *)
Theorem engine_overlap_diverges (policy : Handle) (history : Digest) :
  HonestIndex (one_naive <$> sharing) AdmAll policy history (one_tracks sharing) ∧
  (∀ i p, sharing !! i = Some p → one_tracks sharing i p ∅) ∧
  ∃ e, engine_steps (engine_new sharing) sharing_deltas = Some e ∧ view e = ∅ ∧
    naive_view_over (one_naive <$> sharing) AdmAll (fold_left present sharing_deltas ∅) policy history =
      {[mkCandidate (mkHandle 7) (mkHandle 2)]}.
Proof.
  split_and!; [apply one_honest|done|].
  eexists. split_and!; [vm_compute; reflexivity|vm_compute; reflexivity|].
  apply set_eq. intros c. rewrite naive_view_contributes, elem_of_singleton. setoid_rewrite one_contributes.
  assert (fold_left present sharing_deltas ∅ = {[mkHandle 1]}) as -> by (vm_compute; reflexivity).
  split.
  - intros (i & p & Hp & Hin & ->). destruct i as [|[|i]]; unfold sharing in Hp; simpl in Hp; simplify_eq; [|done].
    apply elem_of_singleton in Hin. discriminate Hin.
  - intros ->. exists 1, (mkOne (mkHandle 1) (mkCandidate (mkHandle 7) (mkHandle 2))). split_and!; [done|set_solver|done].
Qed.

(** A committed step moves the world by its delta. Presenting exactly the world
    of a configuration and applying the delta of its tick presents exactly the
    successor's world (the same one when the tick is quiescent or reflexive). *)
Theorem step_world_delta_present e committed :
  present {[world e]} (step_world_delta e committed) =
    {[match committed with QuiescentC => world e | Step _ successor => world successor end]} ∧
  (delta_len (step_world_delta e committed) ≤ 2) ∧
  (delta_is_empty (step_world_delta e committed) = true ↔
     match committed with QuiescentC => True | Step _ successor => world successor = world e end).
Proof.
  unfold step_world_delta, between_worlds, present, delta_is_empty.
  destruct committed as [|o s]; cbn; [split_and!; [set_solver|unfold delta_len; cbn; rewrite !size_empty; lia|done]|].
  case_decide as Hw; cbn.
  - rewrite Hw. split_and!; [set_solver|unfold delta_len; cbn; rewrite !size_empty; lia|done].
  - split_and!; [set_solver|unfold delta_len; cbn; rewrite !size_singleton; lia|].
    rewrite bool_decide_eq_false_2 by set_solver. cbn. split; [done|]. congruence.
Qed.
