(* ===== verification/Regimes.v ===== *)
(** Realization regimes (src/crates/soc-regimes/src/: literal.rs, and the lowered
    candidates and [FiniteCandidateRegime] of finite_frontier.rs).

    Both regimes answer from a table filled by registration: the literal regime
    offers the reflexive candidate of each registered configuration, the finite one
    the named candidates registered at a source. They are instances of [TableIndex],
    so the engine's contract [HonestIndex] holds for them and the engine over any
    mix of them computes the naive view. A failed [assert] or [expect] is [None]. *)
From S2P Require Import Prelude Text IntCodec Canon CanonLaws Witness Encoding Calendar Outcome.
From S2P Require Import Derivation Publication Settlement Journal Commit Engine.

(** Collecting what the handles of a set offer, the loop of both [apply]s. *)
Definition collect_offers (offers : Handle → list Candidate) (handles : gset Handle) : gset Candidate :=
  fold_left (λ out h, fold_left (λ out c, {[c]} ∪ out) (offers h) out) (set_iter handles) ∅.

(** * The literal-equality regime *)

Record Known : Type := mkKnown { known_witness : Handle; known_config : ConfigId }.

Record LiteralEqualityRegime : Type := mkLiteral {
  literal_regime_id : RegimeId;
  known : gmap Handle Known
}.

Definition LITERAL_NAME : string := "literal-equality@1".
Definition LITERAL_GENERATOR_NAME : string := "literal-equality.refl@1".

Definition candidate_for (self : LiteralEqualityRegime) (config : Handle) : option Candidate :=
  known ← known self !! config; Some (mkCandidate (known_witness known) config).

(** [candidate_for(h).into_iter()]. *)
Definition literal_offers (self : LiteralEqualityRegime) (h : Handle) : list Candidate :=
  match candidate_for self h with Some c => [c] | None => [] end.

Definition literal_candidates (self : LiteralEqualityRegime) : WitnessProvider := λ e,
  literal_offers self (world e).

Definition literal_footprint (self : LiteralEqualityRegime) : Footprint := Configs (dom (known self)).

Definition literal_apply (self : LiteralEqualityRegime) (delta : Delta) : CandidateDelta :=
  mkCandidateDelta (collect_offers (literal_offers self) (added delta))
                   (collect_offers (literal_offers self) (removed delta)).

Section literal.
Context `{Blake3}.

Definition literal_new : LiteralEqualityRegime := mkLiteral (named LITERAL_NAME) ∅.

Definition literal_register (self : LiteralEqualityRegime) (interner : Interner) (config : Handle) :
    option (LiteralEqualityRegime * Interner) :=
  match known self !! config with
  | Some _ => Some (self, interner)
  | None =>
    d ← try_resolve interner config;
    let config_id := mkId d in
    let witness := mkWitness config_id config_id (literal_regime_id self) in
    let '(witness_handle, interner) := intern interner (digest (witness_rec_id witness)) in
    Some (mkLiteral (literal_regime_id self)
            (<[config:=mkKnown witness_handle config_id]> (known self)), interner)
  end.

Definition literal_try_decompose (self : LiteralEqualityRegime) (e : ExecConfig) (_ : Candidate) :
    option (result CommitError Decomposition) :=
  known ← known self !! world e;
  match recorded [named LITERAL_GENERATOR_NAME] [known_config known; known_config known] with
  | Ok d => Some (Ok d)
  | Err _ => None
  end.

Definition literal_equality_semantics : GeneratorSemanticsV1 :=
  declare_diagonal (named LITERAL_GENERATOR_NAME) semantics_new.
End literal.

(** * Named candidates *)

Record NamedCandidate : Type := mkNamed {
  nc_name : string;
  nc_regime_id : RegimeId;
  nc_src : ConfigId;
  nc_dst : ConfigId;
  nc_src_handle : Handle;
  nc_witness_handle : Handle;
  nc_successor_handle : Handle;
  nc_phase : Z;
  nc_priority : Z
}.
#[export] Instance NamedCandidate_eq_dec : EqDecision NamedCandidate.
Proof. solve_decision. Defined.

(** The fields in declaration order, the order of the derived [Ord]. *)
Definition named_fields (n : NamedCandidate) :=
  (nc_name n, (nc_regime_id n, (nc_src n, (nc_dst n, (nc_src_handle n, (nc_witness_handle n,
    (nc_successor_handle n, (nc_phase n, nc_priority n)))))))).
#[export] Instance named_fields_inj : Inj (=) (=) named_fields.
Proof. intros [] []. unfold named_fields. simpl. congruence. Qed.
#[export] Instance NamedCandidate_countable : Countable NamedCandidate.
Proof.
  apply (inj_countable' named_fields (λ '(a, (b, (c, (d, (e, (f, (g, (h, i)))))))), mkNamed a b c d e f g h i)).
  by intros [].
Defined.
#[export] Instance Ord_NamedCandidate : Ord NamedCandidate := cmp_on named_fields.
#[export] Instance OrdLaws_NamedCandidate : OrdLaws NamedCandidate := OrdLaws_on named_fields.

Definition to_candidate (self : NamedCandidate) : Candidate :=
  mkCandidate (nc_witness_handle self) (nc_successor_handle self).

Definition with_handles (name : string) (regime_id : RegimeId) (src dst : ConfigId)
    (src_handle witness_handle successor_handle : Handle) (priority : Z) : NamedCandidate :=
  mkNamed name regime_id src dst src_handle witness_handle successor_handle 0 priority.

(** * The finite candidate regime *)

Definition FINITE_FRONTIER_REGIME_NAME : string := "brix.l3.finite-decision@1".
Definition FINITE_FRONTIER_GENERATOR_NAME : string := "finite-frontier.step@1".

Record FiniteCandidateRegime : Type := mkFinite {
  finite_regime_id : RegimeId;
  candidates_by_src : gmap Handle (list NamedCandidate);
  all_candidates : gset NamedCandidate;
  known_configs : gmap Handle ConfigId
}.

Definition finite_new (regime_id : RegimeId) : FiniteCandidateRegime := mkFinite regime_id ∅ ∅ ∅.

(** [None] is a failed assertion. *)
Definition add_candidate (self : FiniteCandidateRegime) (candidate : NamedCandidate) :
    option FiniteCandidateRegime :=
  if decide (nc_regime_id candidate ≠ finite_regime_id self) then None else
  if decide (nc_phase candidate ≠ 0%Z) then None else
  Some (mkFinite (finite_regime_id self)
    (<[nc_src_handle candidate :=
        default [] (candidates_by_src self !! nc_src_handle candidate) ++ [candidate]]> (candidates_by_src self))
    ({[candidate]} ∪ all_candidates self)
    (<[nc_successor_handle candidate := nc_dst candidate]>
      (<[nc_src_handle candidate := nc_src candidate]> (known_configs self)))).

Definition register_config (self : FiniteCandidateRegime) (interner : Interner) (config : ConfigId) :
    Handle * FiniteCandidateRegime * Interner :=
  let '(handle, interner) := intern interner (digest config) in
  (handle, mkFinite (finite_regime_id self) (candidates_by_src self) (all_candidates self)
             (<[handle:=config]> (known_configs self)), interner).

Definition candidates_for_source (self : FiniteCandidateRegime) (src : Handle) : option (list NamedCandidate) :=
  candidates_by_src self !! src.

Definition finite_offers (self : FiniteCandidateRegime) (h : Handle) : list Candidate :=
  match candidates_by_src self !! h with Some l => to_candidate <$> l | None => [] end.

Definition finite_candidates (self : FiniteCandidateRegime) : WitnessProvider := λ e,
  finite_offers self (world e).

Definition finite_footprint (self : FiniteCandidateRegime) : Footprint := Configs (dom (candidates_by_src self)).

Definition finite_apply (self : FiniteCandidateRegime) (delta : Delta) : CandidateDelta :=
  mkCandidateDelta (collect_offers (finite_offers self) (added delta))
                   (collect_offers (finite_offers self) (removed delta)).

Section finite.
Context `{Blake3}.

Definition named_candidate_new (name : string) (regime_id : RegimeId) (src dst : ConfigId) (priority : Z)
    (interner : Interner) : NamedCandidate * Interner :=
  let '(src_handle, interner) := intern interner (digest src) in
  let '(successor_handle, interner) := intern interner (digest dst) in
  let witness := mkWitness src dst regime_id in
  let '(witness_handle, interner) := intern interner (digest (witness_rec_id witness)) in
  (mkNamed name regime_id src dst src_handle witness_handle successor_handle 0 priority, interner).

Definition default_regime : FiniteCandidateRegime := finite_new (named FINITE_FRONTIER_REGIME_NAME).

Definition register_named_candidate (self : FiniteCandidateRegime) (interner : Interner) (name : string)
    (src dst : ConfigId) (priority : Z) : option (NamedCandidate * FiniteCandidateRegime * Interner) :=
  let '(candidate, interner) := named_candidate_new name (finite_regime_id self) src dst priority interner in
  self ← add_candidate self candidate;
  Some (candidate, self, interner).

(** [find] the first candidate of the source that lowers to [c]. *)
Definition finite_try_decompose (self : FiniteCandidateRegime) (e : ExecConfig) (c : Candidate) :
    result CommitError Decomposition :=
  named_candidate ← ok_or
    (candidates ← candidates_by_src self !! world e;
     snd <$> list_find (λ candidate, to_candidate candidate = c) candidates) CandidateMismatch;
  if decide (nc_regime_id named_candidate ≠ finite_regime_id self) then Err WitnessMismatch else
  map_err commit_error_of_decomposition
    (recorded [named FINITE_FRONTIER_GENERATOR_NAME] [nc_src named_candidate; nc_dst named_candidate]).

Definition finite_provider (self : FiniteCandidateRegime) : SettlementWitnessProvider :=
  mkProvider (finite_candidates self) (finite_try_decompose self).
End finite.

(** * An engine over both *)

(** [Box<dyn IncrementalWitnessIndex>] over the regimes of this crate. *)
Inductive Regime : Type :=
  | RLiteral (r : LiteralEqualityRegime)
  | RFinite (r : FiniteCandidateRegime).

Definition regime_id (r : Regime) : RegimeId :=
  match r with RLiteral r => literal_regime_id r | RFinite r => finite_regime_id r end.
Definition offers (r : Regime) : Handle → list Candidate :=
  match r with RLiteral r => literal_offers r | RFinite r => finite_offers r end.
Definition naive_of (r : Regime) : WitnessProvider :=
  match r with RLiteral r => literal_candidates r | RFinite r => finite_candidates r end.

#[export] Instance regime_index : IncrementalWitnessIndex Regime := {
  footprint r := match r with RLiteral r => literal_footprint r | RFinite r => finite_footprint r end;
  apply_delta_to r d :=
    (match r with RLiteral r => literal_apply r d | RFinite r => finite_apply r d end, r)
}.

(** ** The table *)

Lemma elem_collect_offers offers W c : c ∈ collect_offers offers W ↔ ∃ h, h ∈ W ∧ c ∈ offers h.
Proof.
  unfold collect_offers. setoid_rewrite <-(elem_set_iter W).
  assert (∀ (l : list Candidate) (out : gset Candidate),
    c ∈ fold_left (λ out c, {[c]} ∪ out) l out ↔ c ∈ out ∨ c ∈ l) as Hin.
  { induction l as [|x l IH]; intros out; cbn [fold_left].
    - rewrite elem_of_nil. tauto.
    - rewrite IH, elem_of_union, elem_of_singleton, elem_of_cons. tauto. }
  enough (∀ out : gset Candidate, c ∈ fold_left (λ out h, fold_left (λ out c, {[c]} ∪ out) (offers h) out) (set_iter W) out ↔
    c ∈ out ∨ ∃ h, h ∈ set_iter W ∧ c ∈ offers h) as -> by set_solver.
  induction (set_iter W) as [|h l IH]; intros out; cbn [fold_left].
  - split; [by left|]. by intros [?|(? & ?%elem_of_nil & _)].
  - rewrite IH, Hin. setoid_rewrite elem_of_cons. naive_solver.
Qed.

Lemma elem_literal_offers r h c :
  c ∈ literal_offers r h ↔ ∃ k, known r !! h = Some k ∧ c = mkCandidate (known_witness k) h.
Proof.
  unfold literal_offers, candidate_for. destruct (known r !! h) as [k|]; cbn.
  - rewrite list_elem_of_singleton. naive_solver.
  - rewrite elem_of_nil. naive_solver.
Qed.

Lemma elem_finite_offers r h c :
  c ∈ finite_offers r h ↔ ∃ l n, candidates_by_src r !! h = Some l ∧ n ∈ l ∧ c = to_candidate n.
Proof.
  unfold finite_offers. destruct (candidates_by_src r !! h) as [l|]; cbn.
  - rewrite list_elem_of_fmap. naive_solver.
  - rewrite elem_of_nil. naive_solver.
Qed.

#[export] Instance regime_table : TableIndex naive_of offers.
Proof.
  split.
  - by intros [r|r].
  - intros [r|r]; eexists; (split; [reflexivity|]); intros h c Hc.
    + apply elem_literal_offers in Hc as (k & Hk & _). by apply elem_of_dom; eexists.
    + apply elem_finite_offers in Hc as (l & n & Hl & _). by apply elem_of_dom; eexists.
  - intros [r|r] d c; apply elem_collect_offers.
  - intros [r|r] d c; apply elem_collect_offers.
  - done.
Qed.

(** * Regimes over one interner *)

Lemma intern_grows i d : interner_inv i → (Z.of_nat (interner_len (intern i d).2) ≤ 2^32)%Z →
  interner_inv (intern i d).2 ∧ try_resolve (intern i d).2 (intern i d).1 = Some d ∧
  u32_ok (raw (intern i d).1) ∧ by_handle i `prefix_of` by_handle (intern i d).2.
Proof.
  intros Hi Hlen. destruct (by_digest i !! d) as [h|] eqn:E.
  - assert (intern i d = (h, i)) as Hd by (unfold intern; by rewrite E). rewrite Hd in *. cbn [fst snd] in *.
    apply Hi in E as (n & Hn & ->). unfold try_resolve, Settlement.index, interner_len in *. cbn [raw].
    rewrite Nat2Z.id. apply lookup_lt_Some in Hn as Hlt. split_and!; [done..|split; lia|done].
  - assert ((Z.of_nat (interner_len i) < 2^32)%Z) as Hl.
    { unfold intern in Hlen. rewrite E in Hlen. unfold interner_len in *. cbn in Hlen.
      rewrite length_app in Hlen. cbn in Hlen. lia. }
    split; [by apply intern_inv|]. rewrite intern_fresh by done. unfold try_resolve, Settlement.index, interner_len in *.
    cbn [fst snd raw by_handle]. rewrite Nat2Z.id, lookup_app_r, Nat.sub_diag by lia.
    split_and!; [done|split; lia|by eexists].
Qed.

Lemma resolve_prefix i i' h d :
  by_handle i `prefix_of` by_handle i' → try_resolve i h = Some d → try_resolve i' h = Some d.
Proof. intros [l Hl] Hd. unfold try_resolve in *. rewrite Hl. by apply lookup_app_l_Some. Qed.

Lemma resolve_inj i h1 h2 d : interner_inv i → u32_ok (raw h1) → u32_ok (raw h2) →
  try_resolve i h1 = Some d → try_resolve i h2 = Some d → h1 = h2.
Proof.
  intros Hi [H1 _] [H2 _] E1 E2. apply (inj raw). unfold try_resolve, Settlement.index in *.
  pose proof (interner_inv_nodup i _ _ _ Hi E1 E2). lia.
Qed.

Section lowered.
Context `{Blake3}.

(** The witness [Witness::new(src, dst, regime)] hashed for a candidate at [h]. *)
Definition resolved (i : Interner) (h : Handle) : ConfigId := mkId (default (mkDigest []) (try_resolve i h)).
Definition lowered_witness (i : Interner) (rid : RegimeId) (h : Handle) (c : Candidate) : WitnessRec :=
  mkWitness (resolved i h) (resolved i (c_successor c)) rid.

(** [c] is lowered canonically: both endpoints resolve, and its witness handle
    resolves to the identity of the witness from [h] to the successor. *)
Definition lowered (i : Interner) (rid : RegimeId) (h : Handle) (c : Candidate) : Prop :=
  u32_ok (raw h) ∧ is_Some (try_resolve i h) ∧ is_Some (try_resolve i (c_successor c)) ∧
  id_ok (resolved i h) ∧ id_ok (resolved i (c_successor c)) ∧ id_ok rid ∧
  try_resolve i (c_witness c) = Some (digest (witness_rec_id (lowered_witness i rid h c))).

Lemma resolved_Some i h d : try_resolve i h = Some d → resolved i h = mkId d.
Proof. unfold resolved. by intros ->. Qed.

Lemma resolved_prefix i i' h :
  by_handle i `prefix_of` by_handle i' → is_Some (try_resolve i h) →
  is_Some (try_resolve i' h) ∧ resolved i' h = resolved i h.
Proof.
  intros Hp [d Hd]. pose proof (resolve_prefix _ _ _ _ Hp Hd) as Hd'.
  split; [by eexists|]. by rewrite (resolved_Some _ _ _ Hd), (resolved_Some _ _ _ Hd').
Qed.

Lemma lowered_mono i i' rid h c :
  by_handle i `prefix_of` by_handle i' → lowered i rid h c → lowered i' rid h c.
Proof.
  intros Hp (Hu & Hh & Hs & Hoh & Hos & Hr & Hw). unfold lowered, lowered_witness.
  destruct (resolved_prefix _ _ _ Hp Hh) as [? ->], (resolved_prefix _ _ _ Hp Hs) as [? ->].
  split_and!; [done..|]. by eapply resolve_prefix.
Qed.

Lemma lowered_witness_rec i rid h c src dst :
  u32_ok (raw h) → id_ok src → id_ok dst → id_ok rid →
  try_resolve i h = Some (digest src) → try_resolve i (c_successor c) = Some (digest dst) →
  try_resolve i (c_witness c) = Some (digest (witness_rec_id (mkWitness src dst rid))) → lowered i rid h c.
Proof.
  intros Hu Hs Hd Hr Es Ed Ew. unfold lowered, lowered_witness.
  rewrite (resolved_Some _ _ _ Es), (resolved_Some _ _ _ Ed).
  replace (mkId (digest src) : ConfigId) with src by (by destruct src).
  replace (mkId (digest dst) : ConfigId) with dst by (by destruct dst).
  split_and!; [done|by eexists|by eexists|done..].
Qed.

(** ** Registration *)

(** What the regimes over one shared interner can be: registered one operation at
    a time, the interner growing under any other interning. *)
Inductive regimes_built : Interner → list Regime → Prop :=
  | built_start i : interner_reachable i → regimes_built i []
  | built_intern i rs d : regimes_built i rs →
    (Z.of_nat (interner_len (intern i d).2) ≤ 2^32)%Z → regimes_built (intern i d).2 rs
  | built_literal i rs : regimes_built i rs → regimes_built i (rs ++ [RLiteral literal_new])
  | built_finite i rs rid : regimes_built i rs → id_ok rid → regimes_built i (rs ++ [RFinite (finite_new rid)])
  | built_register i rs n r config r' i' :
    regimes_built i rs → rs !! n = Some (RLiteral r) → u32_ok (raw config) → id_ok (resolved i config) →
    literal_register r i config = Some (r', i') → (Z.of_nat (interner_len i') ≤ 2^32)%Z →
    regimes_built i' (<[n:=RLiteral r']> rs)
  | built_config i rs n r config h r' i' :
    regimes_built i rs → rs !! n = Some (RFinite r) →
    register_config r i config = (h, r', i') → (Z.of_nat (interner_len i') ≤ 2^32)%Z →
    regimes_built i' (<[n:=RFinite r']> rs)
  | built_candidate i rs n r name src dst priority nc r' i' :
    regimes_built i rs → rs !! n = Some (RFinite r) → id_ok src → id_ok dst →
    register_named_candidate r i name src dst priority = Some (nc, r', i') →
    (Z.of_nat (interner_len i') ≤ 2^32)%Z → regimes_built i' (<[n:=RFinite r']> rs).

(** What registration maintains of one regime. *)
Definition regime_lowered (i : Interner) (r : Regime) : Prop :=
  id_ok (regime_id r) ∧ (∀ h c, c ∈ offers r h → lowered i (regime_id r) h c).

Lemma regime_lowered_mono i i' r :
  by_handle i `prefix_of` by_handle i' → regime_lowered i r → regime_lowered i' r.
Proof. intros Hp [Hr Hl]. split; [done|]. intros h c Hc. eapply lowered_mono; [done|by apply Hl]. Qed.

Lemma literal_register_lowered i r config r' i' :
  interner_inv i → u32_ok (raw config) → id_ok (resolved i config) →
  literal_register r i config = Some (r', i') → (Z.of_nat (interner_len i') ≤ 2^32)%Z →
  regime_lowered i (RLiteral r) →
  interner_inv i' ∧ by_handle i `prefix_of` by_handle i' ∧ regime_lowered i' (RLiteral r') ∧
  literal_regime_id r' = literal_regime_id r.
Proof.
  intros Hi Hu Hok Hreg Hlen Hl. unfold literal_register in Hreg.
  destruct (known r !! config) as [k|] eqn:Ek; [by simplify_eq|].
  destruct (try_resolve i config) as [d|] eqn:Ed; [|done]. cbn [mbind option_bind] in Hreg.
  pose proof (resolved_Some _ _ _ Ed) as Er. rewrite Er in Hok.
  set (w := witness_rec_id (mkWitness (mkId d) (mkId d) (literal_regime_id r))) in Hreg.
  pose proof (intern_grows i (digest w) Hi) as Hgrow.
  destruct (intern i (digest w)) as [wh i1] eqn:Ei. simplify_eq. destruct (Hgrow Hlen) as (Hi' & Hw & _ & Hp).
  split_and!; [done|done| |done]. apply (regime_lowered_mono _ _ _ Hp) in Hl. destruct Hl as [Hr Hl].
  split; [done|]. intros h c (k & Hk & ->)%elem_literal_offers. cbn [known regime_id literal_regime_id] in *.
  apply lookup_insert_Some in Hk as [[<- <-]|[Hne Hk]]; [|apply Hl, elem_literal_offers; eauto].
  pose proof (resolve_prefix _ _ _ _ Hp Ed) as Ed'.
  by apply (lowered_witness_rec _ _ _ _ (mkId d) (mkId d)).
Qed.

Lemma named_candidate_new_lowered i name rid src dst priority nc i' :
  interner_inv i → id_ok src → id_ok dst → id_ok rid →
  named_candidate_new name rid src dst priority i = (nc, i') → (Z.of_nat (interner_len i') ≤ 2^32)%Z →
  interner_inv i' ∧ by_handle i `prefix_of` by_handle i' ∧ lowered i' rid (nc_src_handle nc) (to_candidate nc) ∧
  nc_name nc = name ∧ nc_regime_id nc = rid ∧ nc_src nc = src ∧ nc_dst nc = dst ∧
  nc_phase nc = 0%Z ∧ nc_priority nc = priority ∧
  try_resolve i' (nc_src_handle nc) = Some (digest src) ∧ try_resolve i' (nc_successor_handle nc) = Some (digest dst).
Proof.
  intros Hi Hs Hd Hr Hn Hlen. unfold named_candidate_new in Hn.
  assert (∀ j d, interner_len j ≤ interner_len (intern j d).2) as Hle.
  { intros j d. unfold intern, interner_len. destruct (by_digest j !! d); cbn; [done|]. rewrite length_app. lia. }
  pose proof (intern_grows i (digest src) Hi) as H1. pose proof (Hle i (digest src)) as L1.
  destruct (intern i (digest src)) as [sh i1]. cbn [fst snd] in *.
  pose proof (intern_grows i1 (digest dst)) as H2. pose proof (Hle i1 (digest dst)) as L2.
  destruct (intern i1 (digest dst)) as [dh i2]. cbn [fst snd] in *.
  set (w := witness_rec_id (mkWitness src dst rid)) in Hn.
  pose proof (intern_grows i2 (digest w)) as H3. pose proof (Hle i2 (digest w)) as L3.
  destruct (intern i2 (digest w)) as [wh i3]. cbn [fst snd] in *. simplify_eq.
  destruct H1 as (Hi1 & E1 & U1 & P1); [lia|]. destruct (H2 Hi1) as (Hi2 & E2 & _ & P2); [lia|].
  destruct (H3 Hi2) as (Hi3 & E3 & _ & P3); [lia|]. cbn [nc_src_handle nc_successor_handle].
  assert (by_handle i1 `prefix_of` by_handle i') as P13 by (by etrans).
  assert (try_resolve i' sh = Some (digest src)) as Es by (by apply (resolve_prefix _ _ _ _ P13)).
  assert (try_resolve i' dh = Some (digest dst)) as Ed by (by apply (resolve_prefix _ _ _ _ P3)).
  split_and!; try done; [by trans (by_handle i1)|]. by apply (lowered_witness_rec _ _ _ _ src dst).
Qed.

Lemma add_candidate_Some r nc r' :
  add_candidate r nc = Some r' ↔ nc_regime_id nc = finite_regime_id r ∧ nc_phase nc = 0%Z ∧
  r' = mkFinite (finite_regime_id r)
    (<[nc_src_handle nc := default [] (candidates_by_src r !! nc_src_handle nc) ++ [nc]]> (candidates_by_src r))
    ({[nc]} ∪ all_candidates r)
    (<[nc_successor_handle nc := nc_dst nc]> (<[nc_src_handle nc := nc_src nc]> (known_configs r))).
Proof. unfold add_candidate. repeat case_decide; try naive_solver. Qed.

Lemma add_candidate_offers r nc r' h c :
  add_candidate r nc = Some r' →
  c ∈ finite_offers r' h ↔ c ∈ finite_offers r h ∨ (h = nc_src_handle nc ∧ c = to_candidate nc).
Proof.
  intros (_ & _ & ->)%add_candidate_Some. unfold finite_offers. cbn [candidates_by_src].
  destruct (decide (h = nc_src_handle nc)) as [->|Hne].
  - rewrite lookup_insert_eq, fmap_app, elem_of_app, fmap_cons, fmap_nil, list_elem_of_singleton.
    destruct (candidates_by_src r !! _); cbn; [|rewrite elem_of_nil]; naive_solver.
  - rewrite lookup_insert_ne by done. naive_solver.
Qed.
End lowered.

Section built.
Context `{Blake3Laws}.

(** The tables agree with the interner. *)
Definition literal_wf (i : Interner) (r : LiteralEqualityRegime) : Prop :=
  ∀ h k, known r !! h = Some k → try_resolve i h = Some (digest (known_config k)).

Definition finite_wf (i : Interner) (r : FiniteCandidateRegime) : Prop :=
  ∀ h l n, candidates_by_src r !! h = Some l → n ∈ l →
    nc_src_handle n = h ∧ nc_regime_id n = finite_regime_id r ∧ nc_phase n = 0%Z ∧ n ∈ all_candidates r ∧
    try_resolve i h = Some (digest (nc_src n)) ∧ try_resolve i (nc_successor_handle n) = Some (digest (nc_dst n)).

Definition regime_wf (i : Interner) (r : Regime) : Prop :=
  regime_lowered i r ∧ match r with RLiteral r => literal_wf i r | RFinite r => finite_wf i r end.

Lemma regime_wf_mono i i' r : by_handle i `prefix_of` by_handle i' → regime_wf i r → regime_wf i' r.
Proof.
  intros Hp [Hl Hw]. split; [by eapply regime_lowered_mono|]. destruct r as [r|r].
  - intros h k Hk. eapply resolve_prefix; [done|by apply Hw].
  - intros h l n Hn Hin. destruct (Hw h l n Hn Hin) as (? & ? & ? & ? & ? & ?).
    split_and!; try done; by eapply resolve_prefix.
Qed.

Lemma literal_register_wf i r config r' i' :
  interner_inv i → u32_ok (raw config) → id_ok (resolved i config) →
  literal_register r i config = Some (r', i') → (Z.of_nat (interner_len i') ≤ 2^32)%Z →
  regime_wf i (RLiteral r) →
  interner_inv i' ∧ by_handle i `prefix_of` by_handle i' ∧ regime_wf i' (RLiteral r').
Proof.
  intros Hi Hu Hok Hreg Hlen [Hl Hw].
  destruct (literal_register_lowered i r config r' i' Hi Hu Hok Hreg Hlen Hl) as (Hi' & Hp & Hl' & _).
  split_and!; [done|done|split; [done|]]. intros h k Hk. unfold literal_register in Hreg.
  destruct (known r !! config) as [k0|] eqn:Ek; [simplify_eq; by apply Hw|].
  destruct (try_resolve i config) as [d|] eqn:Ed; [|done]. cbn [mbind option_bind] in Hreg.
  destruct (intern _ _) as [wh i1]. simplify_eq. apply (resolve_prefix _ _ _ _ Hp).
  cbn [known] in Hk. apply lookup_insert_Some in Hk as [[<- <-]|[_ Hk]]; [done|by apply Hw].
Qed.

Lemma register_named_wf i r name src dst priority nc r' i' :
  interner_inv i → id_ok src → id_ok dst →
  register_named_candidate r i name src dst priority = Some (nc, r', i') →
  (Z.of_nat (interner_len i') ≤ 2^32)%Z → regime_wf i (RFinite r) →
  interner_inv i' ∧ by_handle i `prefix_of` by_handle i' ∧ regime_wf i' (RFinite r').
Proof.
  intros Hi Hs Hd Hreg Hlen Hr. unfold register_named_candidate in Hreg.
  destruct (named_candidate_new _ _ _ _ _ _) as [n i1] eqn:En.
  destruct (add_candidate r n) as [r1|] eqn:Ea; [|done]. cbn in Hreg. simplify_eq.
  assert (id_ok (finite_regime_id r)) as Hrid by apply Hr.
  destruct (named_candidate_new_lowered _ _ _ _ _ _ _ _ Hi Hs Hd Hrid En Hlen)
    as (Hi' & Hp & Hlow & _ & Hnr & Hns & Hnd & Hph & _ & Es & Ed).
  pose proof (regime_wf_mono _ _ _ Hp Hr) as [[_ Hl] Hw]. split_and!; [done|done|].
  pose proof Ea as (_ & _ & Er)%add_candidate_Some. split; [split|].
  - by rewrite Er.
  - intros h c Hc. cbn [offers] in Hc. apply (add_candidate_offers _ _ _ _ _ Ea) in Hc.
    cbn [regime_id]. rewrite Er. cbn [finite_regime_id]. destruct Hc as [Hc|[-> ->]]; [by apply Hl|done].
  - intros h l m Hm Hin. rewrite Er in Hm |- *. cbn [candidates_by_src finite_regime_id all_candidates] in *.
    assert (m ∈ default [] (candidates_by_src r !! h) ∨ h = nc_src_handle nc ∧ m = nc) as [Hold|[-> ->]].
    { apply lookup_insert_Some in Hm as [[<- <-]|[_ Hm]].
      - apply elem_of_app in Hin as [?|?%list_elem_of_singleton]; [by left|by right].
      - left. by rewrite Hm. }
    + destruct (candidates_by_src r !! h) as [l'|] eqn:El; [|by apply elem_of_nil in Hold]. cbn in Hold.
      destruct (Hw h l' m El Hold) as (? & ? & ? & ? & ? & ?). split_and!; try done. set_solver.
    + rewrite Hns, Hnd. split_and!; try done. set_solver.
Qed.

Lemma elem_list_insert {A} (l : list A) n x y : y ∈ <[n:=x]> l → y = x ∨ y ∈ l.
Proof.
  intros (m & Hm)%list_elem_of_lookup. apply list_lookup_insert_Some in Hm as [(_ & -> & _)|[_ Hm]]; [by left|].
  right. by eapply list_elem_of_lookup_2.
Qed.

Lemma regimes_built_wf i rs : regimes_built i rs → interner_inv i ∧ ∀ r, r ∈ rs → regime_wf i r.
Proof.
  assert (∀ i i' (rs : list Regime) n x, (interner_inv i ∧ ∀ r, r ∈ rs → regime_wf i r) →
    interner_inv i' ∧ by_handle i `prefix_of` by_handle i' ∧ regime_wf i' x →
    interner_inv i' ∧ ∀ r, r ∈ <[n:=x]> rs → regime_wf i' r) as Hstep.
  { intros j j' rs' n x [_ Hrs] (Hj & Hp & Hx). split; [done|].
    intros r [->|Hr]%elem_list_insert; [done|]. eapply regime_wf_mono; [done|by apply Hrs]. }
  induction 1 as [i Hi|i rs d _ [Hi Hrs] Hlen|i rs _ [Hi Hrs]|i rs rid _ [Hi Hrs] Hid
    |i rs n r config r' i' _ IH Hn Hu Hok Hreg Hlen|i rs n r config h r' i' _ IH Hn Hreg Hlen
    |i rs n r name src dst priority nc r' i' _ IH Hn Hs Hd Hreg Hlen].
  - split; [by apply interner_reachable_inv|]. by intros r ?%elem_of_nil.
  - destruct (intern_grows i d Hi Hlen) as (Hi' & _ & _ & Hp). split; [done|].
    intros r Hr. eapply regime_wf_mono; [done|by apply Hrs].
  - split; [done|]. intros r [Hr| ->%list_elem_of_singleton]%elem_of_app; [by apply Hrs|]. split; [split|].
    + apply from_canon_ok.
    + intros h c (k & Hk & _)%elem_literal_offers. done.
    + by intros h k Hk.
  - split; [done|]. intros r [Hr| ->%list_elem_of_singleton]%elem_of_app; [by apply Hrs|]. split; [split|].
    + done.
    + intros h c (l & m & Hl & _)%elem_finite_offers. done.
    + by intros h l m Hl.
  - apply (Hstep i i' rs n); [done|]. destruct IH as [Hi Hrs].
    apply (literal_register_wf i r config r' i'); try done. by eapply Hrs, list_elem_of_lookup_2.
  - apply (Hstep i i' rs n); [done|]. destruct IH as [Hi Hrs]. unfold register_config in Hreg.
    pose proof (intern_grows i (digest config) Hi) as Hgrow. destruct (intern _ _) as [h1 i1]. simplify_eq.
    destruct (Hgrow Hlen) as (Hi' & _ & _ & Hp). split_and!; [done|done|].
    assert (regime_wf i (RFinite r)) as Hr by (by eapply Hrs, list_elem_of_lookup_2).
    exact (regime_wf_mono _ _ _ Hp Hr).
  - apply (Hstep i i' rs n); [done|]. destruct IH as [Hi Hrs].
    apply (register_named_wf i r name src dst priority nc r' i'); try done. by eapply Hrs, list_elem_of_lookup_2.
Qed.

(** ** Canonical candidates *)

(** The messages hashed for the witnesses of two offered candidates never collide. *)
Definition collision_free (i : Interner) (rs : list Regime) : Prop :=
  ∀ r1 h1 c1 r2 h2 c2, r1 ∈ rs → r2 ∈ rs → c1 ∈ offers r1 h1 → c2 ∈ offers r2 h2 →
    ¬ collision (message (canon_bytes (lowered_witness i (regime_id r1) h1 c1)))
                (message (canon_bytes (lowered_witness i (regime_id r2) h2 c2))).

Lemma witness_bytes_inj (x y : WitnessRec) :
  id_ok (Witness.src x) → id_ok (Witness.dst x) → id_ok (regime x) →
  id_ok (Witness.src y) → id_ok (Witness.dst y) → id_ok (regime y) →
  canon_bytes x = canon_bytes y → x = y.
Proof.
  intros Hs Hd Hr Hs' Hd' Hr' Heq. unfold canon_bytes, canon_write, Canonical_Witness in Heq.
  rewrite !canon_appends, !canon_bytes_Id in Heq. cbn [app] in Heq. rewrite <-!app_assoc in Heq.
  apply id_frame_inj in Heq as [Es Heq]; [|done..]. apply id_frame_inj in Heq as [Ed Heq]; [|done..].
  rewrite <-(app_nil_r (frame (as_bytes (digest (regime x))))), <-(app_nil_r (frame (as_bytes (digest (regime y))))) in Heq.
  apply id_frame_inj in Heq as [Er _]; [|done..]. destruct x, y; cbn in *. congruence.
Qed.

(** One witness handle stands for one source and one regime. *)
Lemma offered_once i rs r1 h1 r2 h2 c :
  interner_inv i → (∀ r, r ∈ rs → regime_wf i r) → collision_free i rs → r1 ∈ rs → r2 ∈ rs →
  c ∈ offers r1 h1 → c ∈ offers r2 h2 → h1 = h2 ∧ regime_id r1 = regime_id r2.
Proof.
  intros Hi Hwf Hfree Hr1 Hr2 Hc1 Hc2.
  destruct (Hwf r1 Hr1) as [[_ Hl1] _], (Hwf r2 Hr2) as [[_ Hl2] _].
  destruct (Hl1 h1 c Hc1) as (U1 & [d1 E1] & S1 & Os1 & Od1 & Or1 & W1).
  destruct (Hl2 h2 c Hc2) as (U2 & [d2 E2] & S2 & Os2 & Od2 & Or2 & W2).
  rewrite W1 in W2. apply (inj Some), (inj digest), from_canon_inj in W2.
  destruct W2 as [W2|W2]; [|by destruct (Hfree r1 h1 c r2 h2 c)].
  apply witness_bytes_inj in W2; [|done..]. pose proof (f_equal Witness.src W2) as Hs. pose proof (f_equal regime W2) as Hr.
  cbn [Witness.src regime lowered_witness] in Hs, Hr. split; [|done].
  apply (resolve_inj i h1 h2 d1); [done..|]. rewrite (resolved_Some _ _ _ E1), (resolved_Some _ _ _ E2) in Hs.
  congruence.
Qed.
End built.

(** * Properties *)

(** C7: The regimes realize the incremental contract. Regimes registered over one shared
    interner offer only canonically lowered candidates: the witness handle resolves
    to the identity of [Witness(src, dst, regime)]. When their regime identities are
    distinct and the messages of these witnesses do not collide, every stream of
    deltas leaves the engine with exactly the naive union over the configurations
    presented. *)
Theorem regimes_match_naive `{Blake3Laws} (i : Interner) (rs : list Regime) policy history ds :
  regimes_built i rs →
  (∀ r h c, r ∈ rs → c ∈ offers r h → lowered i (regime_id r) h c) ∧
  (NoDup (regime_id <$> rs) → collision_free i rs →
   ∃ e, engine_steps (engine_new rs) ds = Some e ∧
     view e = naive_view_over (naive_of <$> rs) AdmAll (fold_left present ds ∅) policy history).
Proof.
  intros Hb. destruct (regimes_built_wf i rs Hb) as [Hi Hwf]. split.
  { intros r h c Hr Hc. by destruct (Hwf r Hr) as [[_ Hl] _]; apply Hl. }
  intros Hnd Hfree. assert (HonestIndex (naive_of <$> rs) AdmAll policy history (table_tracks rs)) as Hh.
  { apply (table_honest naive_of offers). intros r Hr h1 h2 c Hc1 Hc2.
    by apply (offered_once i rs r h1 r h2 c). }
  apply (engine_view_naive (naive_of <$> rs) AdmAll policy history (table_tracks rs)); [| by rewrite length_fmap|done].
  intros m n W W' c (p & w & Hp & _ & Hc)%(table_contributes naive_of offers) (q & w' & Hq & _ & Hc')%(table_contributes naive_of offers).
  apply (NoDup_lookup _ m n (regime_id p) Hnd); [by rewrite list_lookup_fmap, Hp|].
  rewrite list_lookup_fmap, Hq. cbn. f_equal. symmetry.
  by apply (offered_once i rs p w q w' c); try done; eapply list_elem_of_lookup_2.
Qed.

(** A settlement provider that presents the literal regime (its decomposition at a
    configuration the regime would panic at is left open). *)
Definition presents_literal `{Blake3} (r : LiteralEqualityRegime) (p : SettlementWitnessProvider) : Prop :=
  candidates p = literal_candidates r ∧
  ∀ e c d, literal_try_decompose r e c = Some d → try_decompose p e c = d.

(** The decomposition of a reflexive step. *)
Definition reflexive_chain `{Blake3} (x : ConfigId) : Decomposition :=
  mkDecomposition [named LITERAL_GENERATOR_NAME] [x; x] Recorded.

Lemma literal_decomposes `{Blake3} r e c k :
  known r !! world e = Some k → literal_try_decompose r e c = Some (Ok (reflexive_chain (known_config k))).
Proof. intros Hk. unfold literal_try_decompose. by rewrite Hk. Qed.

Lemma reflexive_chain_replays `{Blake3} x :
  verify_replay (reflexive_chain x) {[named LITERAL_GENERATOR_NAME]} literal_equality_semantics =
    Some (Ok (mkDecomposition (generators (reflexive_chain x)) (configs (reflexive_chain x)) ReplayVerified)).
Proof.
  apply verify_replay_Ok; [done|]. split_and!; [done| |done]. constructor; [|constructor]. split; [by apply elem_of_singleton|].
  unfold realizes, literal_equality_semantics, declare_diagonal, declare. cbn [relations].
  rewrite lookup_insert_eq. cbn. by rewrite bool_decide_eq_true_2.
Qed.

(** The literal vertical slice. A tick over the literal regime is quiescent at an
    unregistered world; at a registered one it always commits, and what it commits is
    the reflexive step of that configuration: the world stays, the recorded chain is
    the one generator from the configuration to itself, and its replay against the
    regime's declared semantics verifies. *)
Theorem literal_settles `{Blake3Laws} `{UnicodeNfc} {K} (keyer : K → Candidate → Z → Key * K) κ
    i rs r p e ctx phase ks :
  regimes_built i rs → RLiteral r ∈ rs → presents_literal r p → (∀ ks c, (keyer ks c phase).1 = κ c) →
  ∃ ks', match known r !! world e with
  | None => try_commit_tick keyer [p] AdmAll i e ctx phase ks = Some (Ok (QuiescentC, None, Steps 1), ks')
  | Some k => let x := known_config k in ∃ o e' s,
    try_commit_tick keyer [p] AdmAll i e ctx phase ks = Some (Ok (Step o e', Some s, Steps 2), ks') ∧
    try_resolve i (world e) = Some (digest x) ∧ world e' = world e ∧
    step_src s = x ∧ step_dst s = x ∧ decomposition s = reflexive_chain x ∧
    step_witness s = witness_id (named LITERAL_GENERATOR_NAME) ∧ outcome_class o = Derived ∧
    verify_replay (decomposition s) {[named LITERAL_GENERATOR_NAME]} literal_equality_semantics =
      Some (Ok (mkDecomposition [named LITERAL_GENERATOR_NAME] [x; x] ReplayVerified))
  end.
Proof.
  intros Hb Hr [Hc Hd] Hκ. destruct (regimes_built_wf i rs Hb) as [Hi Hwf]. destruct (Hwf _ Hr) as [_ Hw].
  assert (∀ c, c ∈ cand (candidates <$> [p]) AdmAll e ↔ c ∈ literal_offers r (world e)) as Hcand.
  { intros c. rewrite cand_elem. setoid_rewrite list_elem_of_singleton. rewrite Hc. naive_solver. }
  assert (scan_work (candidates <$> [p]) e = (1 + Z.of_nat (length (literal_offers r (world e))))%Z) as Hwork.
  { cbn. rewrite Hc. unfold literal_candidates. lia. }
  destruct (tick_cases keyer [p] AdmAll i e ctx phase ks κ Hκ) as
    [ks' [(k & c1 & c2 & _ & Hc1 & Hc2 & Hne & _)|(_ & [[HC E]|(c & q & Hs & E)])]]; exists ks'.
  - exfalso. apply Hcand, elem_literal_offers in Hc1 as (k1 & Hk1 & ->), Hc2 as (k2 & Hk2 & ->). congruence.
  - rewrite Hwork in E. destruct (known r !! world e) as [k|] eqn:Ek.
    + exfalso. assert (mkCandidate (known_witness k) (world e) ∈ cand (candidates <$> [p]) AdmAll e) as Hin
        by (apply Hcand, elem_literal_offers; eauto). rewrite HC in Hin. by apply elem_of_empty in Hin.
    + rewrite E. unfold literal_offers, candidate_for. by rewrite Ek.
  - destruct Hs as (Hin & _ & n & Hq & _). assert (q = p) as -> by (destruct n as [|[|]]; by simplify_eq/=).
    apply Hcand, elem_literal_offers in Hin as (k & Ek & ->). rewrite Ek. cbv zeta.
    pose proof (Hw _ _ Ek) as Ex. rewrite Hwork in E. unfold literal_offers, candidate_for in E. rewrite Ek in E. cbn in E.
    set (c := mkCandidate (known_witness k) (world e)) in *. set (st := committed_step (κ c) (reflexive_chain (known_config k)) (known_config k)
      (known_config k) (witness_id (named LITERAL_GENERATOR_NAME)) ctx).
    assert (try_commit_selected (κ c) c p i e ctx = Ok (Step (observation st) (apply e c), st)) as Es.
    { apply try_commit_selected_Ok. exists (reflexive_chain (known_config k)), (digest (known_config k)),
        (digest (known_config k)), (witness_id (named LITERAL_GENERATOR_NAME)).
      split_and!; try done; [by apply Hd, literal_decomposes|]. unfold st. by destruct (known_config k). }
    rewrite Es in E. eexists _, _, st. split_and!; [exact E|done..|]. apply reflexive_chain_replays.
Qed.

(** One configuration, registered with the literal regime. *)
Definition demo_config : Digest := mkDigest (replicate 32 7%Z).
Definition demo_started : Interner := (intern interner_new demo_config).2.
Definition demo_registered : LiteralEqualityRegime * Interner :=
  default (@literal_new demo_hash, demo_started)
    (@literal_register demo_hash (@literal_new demo_hash) demo_started (mkHandle 0)).
Definition demo_regimes : list Regime := [RLiteral demo_registered.1].

Lemma demo_built : @regimes_built demo_hash demo_registered.2 demo_regimes.
Proof.
  apply (@built_register demo_hash demo_started [RLiteral (@literal_new demo_hash)] 0 (@literal_new demo_hash) (mkHandle 0)).
  - apply (@built_literal demo_hash _ []). apply built_start. constructor; [constructor|vm_compute; done].
  - done.
  - split; vm_compute; [intros ?; discriminate|reflexivity].
  - by apply (@demo_id_ok KConfig 7).
  - vm_compute. reflexivity.
  - vm_compute. intros ?; discriminate.
Qed.

Lemma regimes_match_naive_witness :
  ∃ e, engine_steps (engine_new demo_regimes) [of_added [mkHandle 0]] = Some e ∧ size (view e) = 1 ∧
    view e = naive_view_over (naive_of <$> demo_regimes) AdmAll
      (fold_left present [of_added [mkHandle 0]] ∅) (mkHandle 9) demo_config.
Proof.
  destruct (proj2 (@regimes_match_naive demo_hash demo_hash_laws demo_registered.2 demo_regimes (mkHandle 9) demo_config
    [of_added [mkHandle 0]] demo_built)) as (e & E & Hv).
  - apply NoDup_singleton.
  - intros r1 h1 c1 r2 h2 c2 H1 H2 Hc1 Hc2. apply list_elem_of_singleton in H1 as ->, H2 as ->.
    assert (∀ h c, c ∈ offers (RLiteral demo_registered.1) h → h = mkHandle 0 ∧ c = mkCandidate (mkHandle 1) (mkHandle 0)) as Hone.
    { intros h c (k & Hk & ->)%elem_literal_offers. change (known demo_registered.1) with
        ({[mkHandle 0 := mkKnown (mkHandle 1) (mkId demo_config)]} : gmap Handle Known) in Hk.
      by apply lookup_singleton_Some in Hk as [<- <-]. }
    apply Hone in Hc1 as [-> ->], Hc2 as [-> ->]. intros [Hne _]. by apply Hne.
  - exists e. split_and!; [exact E| |exact Hv]. vm_compute in E. injection E as <-. reflexivity.
Defined.

Definition demo_literal_provider : SettlementWitnessProvider :=
  mkProvider (literal_candidates demo_registered.1)
    (λ e c, default (Err CandidateMismatch) (@literal_try_decompose demo_hash demo_registered.1 e c)).

Lemma literal_settles_witness :
  let e := mkExec (mkHandle 0) (mkHandle 0) demo_config in
  ∃ o e' s, @try_commit_tick demo_hash (λ s, s) unit demo_keyer [demo_literal_provider] AdmAll demo_registered.2 e
      (demo_id 1) 0 tt = Some (Ok (Step o e', Some s, Steps 2), tt) ∧
    world e' = world e ∧ step_src s = step_dst s.
Proof.
  intros e. destruct (@literal_settles demo_hash demo_hash_laws (λ s, s) unit demo_keyer (demo_key 0) demo_registered.2 demo_regimes
    demo_registered.1 demo_literal_provider e (demo_id 1) 0 tt demo_built) as (ks' & Ht).
  - constructor.
  - split; [reflexivity|]. intros e0 c d Hd. cbn. by rewrite Hd.
  - done.
  - destruct ks'. change (known demo_registered.1 !! world e) with (Some (mkKnown (mkHandle 1) (mkId demo_config : ConfigId))) in Ht.
    destruct Ht as (o & e' & s & E & _ & Hw & Hs & Hd & _). exists o, e', s. split_and!; [exact E|exact Hw|congruence].
Defined.
