(* ===== verification/Deliberation.v ===== *)
(** Finite deliberation (src/crates/soc-regimes/src/finite_frontier.rs).

    A pool of named candidates is judged by an admission policy, the admitted ones are
    keyed canonically into a unique-key frontier, and the least key is selected unless
    something faulted. Policies are functions; resolving a handle the interner does not
    hold panics ([None]). *)
From S2P Require Import Prelude IntCodec Canon CanonLaws Witness Encoding Calendar Outcome.
From S2P Require Import Derivation Publication Settlement Journal Commit Engine Regimes.

Definition CANONICAL_TIEBREAK_TAG : string := "brix.regimes.NamedCandidate.tiebreak@1".
Definition CANONICAL_CANDIDATE_TAG : string := "brix.regimes.CanonicalCandidate@1".

Record CanonicalCandidateV1 : Type := mkCanonicalCandidate {
  cc_regime_id : RegimeId;
  cc_witness : Digest;
  cc_successor : Digest
}.

#[export] Instance Canonical_CanonicalCandidateV1 : Canonical CanonicalCandidateV1 := λ c w,
  w |> write_tag CANONICAL_CANDIDATE_TAG |> canon_write (cc_regime_id c)
    |> write_bytes (as_bytes (cc_witness c)) |> write_bytes (as_bytes (cc_successor c)).

Definition canonical_identity (self : NamedCandidate) (interner : Interner) : option CanonicalCandidateV1 :=
  witness ← try_resolve interner (nc_witness_handle self);
  successor ← try_resolve interner (nc_successor_handle self);
  Some (mkCanonicalCandidate (nc_regime_id self) witness successor).

Definition tiebreak_bytes (id : CanonicalCandidateV1) : bytes :=
  [] |> write_tag CANONICAL_TIEBREAK_TAG |> canon_write id.

Definition canonical_tiebreak `{Blake3} (self : NamedCandidate) (interner : Interner) : option Digest :=
  id ← canonical_identity self interner; Some (digest_of Value (tiebreak_bytes id)).

Definition canonical_key `{Blake3} (self : NamedCandidate) (interner : Interner) : option Key :=
  tiebreak ← canonical_tiebreak self interner; Some (mkKey (nc_phase self) (nc_priority self) tiebreak).

(** * Admission *)

Inductive ReasonCode : Type :=
  | GuardFalse
  | Custom (code detail : string).

Definition category (r : ReasonCode) : string :=
  match r with GuardFalse => "guard_false@1" | Custom code _ => code end.

#[export] Instance Canonical_ReasonCode : Canonical ReasonCode := λ r,
  match r with
  | GuardFalse => write_enum 0 id
  | Custom code detail => write_enum 1 (λ w, w |> write_string code |> write_string detail)
  end.

Inductive CandidateStatus : Type :=
  | StSelected
  | StAdmittedNotSelected
  | StRejectedGuardFalse
  | StRejected (r : ReasonCode).

Definition status_rejection_reason (s : CandidateStatus) : option ReasonCode :=
  match s with
  | StRejectedGuardFalse => Some GuardFalse
  | StRejected r => Some r
  | _ => None
  end.

Inductive AdmissionDecision : Type :=
  | AdAdmitted
  | AdRejected (r : ReasonCode)
  | AdError (detail : string).

Definition is_admitted (d : AdmissionDecision) : bool := match d with AdAdmitted => true | _ => false end.
Definition decision_rejection_reason (d : AdmissionDecision) : option ReasonCode :=
  match d with AdRejected r => Some r | _ => None end.
Definition rejected_guard_false : AdmissionDecision := AdRejected GuardFalse.

(** [trait AdmissionPolicy]. *)
Definition AdmissionPolicy : Type := ExecConfig → NamedCandidate → AdmissionDecision.
Definition AdmitAllPolicy : AdmissionPolicy := λ _ _, AdAdmitted.
Definition DenyAllPolicy : AdmissionPolicy := λ _ _, rejected_guard_false.
Definition GuardPolicy (f : ExecConfig → NamedCandidate → bool) : AdmissionPolicy := λ e c,
  if f e c then AdAdmitted else rejected_guard_false.

(** * The evaluated frontier *)

Inductive EvaluationFault : Type :=
  | KeyConflictF (c : KeyConflict NamedCandidate)
  | CandidateKeyConflictF (c : KeyConflict Candidate)
  | AdmissionErrorF (candidate : NamedCandidate) (detail : string)
  | EvaluationErrorF (detail : string)
  | InvalidPhaseF (candidate : NamedCandidate) (phase : Z).

Inductive DeliberationOutcome : Type :=
  | DoSelected (key : Key) (candidate : NamedCandidate)
  | DoQuiescent.

Record EvaluatedFrontier : Type := mkEvaluated {
  ev_config : ExecConfig;
  ev_admitted : gmap Key NamedCandidate;
  ev_rejected : gmap NamedCandidate ReasonCode;
  ev_frontier : Frontier NamedCandidate;
  ev_candidate_frontier : Frontier Candidate;
  ev_selected : option (Key * NamedCandidate);
  ev_key_conflicts : list (KeyConflict NamedCandidate);
  ev_candidate_key_conflicts : list (KeyConflict Candidate);
  ev_evaluation_faults : list EvaluationFault
}.

Definition evaluated_new (e : ExecConfig) : EvaluatedFrontier :=
  mkEvaluated e ∅ ∅ frontier_new frontier_new None [] [] [].

Section evaluate.
Context `{Blake3} (policy : AdmissionPolicy) (e : ExecConfig) (interner : Interner).

(** The conflict an insertion reports, if any. *)
Definition conflict_of {V} (r : result (KeyConflict V) bool) : list (KeyConflict V) :=
  match r with Ok _ => [] | Err conflict => [conflict] end.

(** One iteration; [ev_selected] is only set after the loop. *)
Definition evaluate_one (s : EvaluatedFrontier) (c : NamedCandidate) : option EvaluatedFrontier :=
  let fault f := mkEvaluated (ev_config s) (ev_admitted s) (ev_rejected s) (ev_frontier s) (ev_candidate_frontier s)
    (ev_selected s) (ev_key_conflicts s) (ev_candidate_key_conflicts s) (ev_evaluation_faults s ++ [f]) in
  if decide (nc_phase c ≠ 0%Z) then Some (fault (InvalidPhaseF c (nc_phase c))) else
  match policy e c with
  | AdError detail => Some (fault (AdmissionErrorF c detail))
  | AdRejected reason =>
    Some (mkEvaluated (ev_config s) (ev_admitted s) (<[c:=reason]> (ev_rejected s)) (ev_frontier s)
      (ev_candidate_frontier s) (ev_selected s) (ev_key_conflicts s) (ev_candidate_key_conflicts s)
      (ev_evaluation_faults s))
  | AdAdmitted =>
    key ← canonical_key c interner;
    let admitted := match ev_admitted s !! key with
      | Some _ => ev_admitted s | None => <[key:=c]> (ev_admitted s) end in
    let '(r, frontier) := insert (ev_frontier s) key c in
    let '(r', candidate_frontier) := insert (ev_candidate_frontier s) key (to_candidate c) in
    Some (mkEvaluated (ev_config s) admitted (ev_rejected s) frontier candidate_frontier (ev_selected s)
      (ev_key_conflicts s ++ conflict_of r) (ev_candidate_key_conflicts s ++ conflict_of r')
      (ev_evaluation_faults s))
  end.

Fixpoint evaluate_each (s : EvaluatedFrontier) (l : list NamedCandidate) : option EvaluatedFrontier :=
  match l with
  | [] => Some s
  | c :: l' => s' ← evaluate_one s c; evaluate_each s' l'
  end.

Definition is_nil {A} (l : list A) : bool := match l with [] => true | _ => false end.

Definition evaluate (candidates : list NamedCandidate) : option EvaluatedFrontier :=
  let ordered : gset NamedCandidate := list_to_set candidates in
  s ← evaluate_each (evaluated_new e) (set_iter ordered);
  let selected :=
    if is_nil (ev_key_conflicts s) && is_nil (ev_candidate_key_conflicts s) && is_nil (ev_evaluation_faults s)
    then peek_least (ev_frontier s) else None in
  Some (mkEvaluated e (ev_admitted s) (ev_rejected s) (ev_frontier s) (ev_candidate_frontier s) selected
    (ev_key_conflicts s) (ev_candidate_key_conflicts s) (ev_evaluation_faults s)).

Definition fault (self : EvaluatedFrontier) : option EvaluationFault :=
  match ev_evaluation_faults self with
  | f :: _ => Some f
  | [] => match ev_key_conflicts self with
    | c :: _ => Some (KeyConflictF c)
    | [] => CandidateKeyConflictF <$> head (ev_candidate_key_conflicts self)
    end
  end.

Definition try_evaluate (candidates : list NamedCandidate) : option (result EvaluationFault EvaluatedFrontier) :=
  evaluated ← evaluate candidates;
  Some (match fault evaluated with Some f => Err f | None => Ok evaluated end).

Definition deliberation_outcome (self : EvaluatedFrontier) : result EvaluationFault DeliberationOutcome :=
  match fault self with
  | Some f => Err f
  | None => match ev_selected self with
    | Some (key, candidate) => Ok (DoSelected key candidate)
    | None => Ok DoQuiescent
    end
  end.

Definition selection_outcome (self : EvaluatedFrontier) :
    result EvaluationFault (option (Key * NamedCandidate)) :=
  match fault self with Some f => Err f | None => Ok (ev_selected self) end.

Definition status_of (self : EvaluatedFrontier) (c : NamedCandidate) : option CandidateStatus :=
  if match ev_selected self with Some (_, sel) => bool_decide (sel = c) | None => false end
  then Some StSelected else
  if existsb (λ '(_, cand), bool_decide (cand = c)) (btree_iter (ev_admitted self))
  then Some StAdmittedNotSelected else
  match ev_rejected self !! c with
  | Some GuardFalse => Some StRejectedGuardFalse
  | Some custom => Some (StRejected custom)
  | None => None
  end.

Definition is_quiescent (self : EvaluatedFrontier) : bool :=
  bool_decide (ev_selected self = None) && match fault self with None => true | Some _ => false end.

Definition admitted_count (self : EvaluatedFrontier) : nat := size (ev_admitted self).
Definition rejected_count (self : EvaluatedFrontier) : nat := size (ev_rejected self).
Definition total_count (self : EvaluatedFrontier) : nat := size (ev_admitted self) + size (ev_rejected self).

(** * Explanations *)

Inductive WhyExplanation : Type :=
  | WhySelected (key : Key) (candidate : NamedCandidate)
  | WhyAdmittedNotSelected (key : Key) (candidate : NamedCandidate) (selected_key : Key)
      (selected_candidate : NamedCandidate)
  | WhyNotAdmitted (candidate : NamedCandidate) (reason : ReasonCode)
  | WhyCandidateNotFound
  | WhyEvaluationFaulted (candidate : NamedCandidate) (fault : EvaluationFault)
  | WhyNoCandidateAdmitted.

Inductive WhyNotExplanation : Type :=
  | RejectedByPolicy (candidate : NamedCandidate) (reason : ReasonCode)
  | Overshadowed (candidate : NamedCandidate) (key : Key) (selected_key : Key)
      (selected_candidate : NamedCandidate)
  | ActuallySelected (candidate : NamedCandidate) (key : Key)
  | WhyNotCandidateNotFound
  | WhyNotEvaluationFaulted (candidate : NamedCandidate) (fault : EvaluationFault)
  | NoCandidateSelected.

Definition explain_why (candidates : list NamedCandidate) (target : NamedCandidate) : option WhyExplanation :=
  if decide (target ∉ candidates) then Some WhyCandidateNotFound else
  frontier ← evaluate candidates;
  match fault frontier with
  | Some f => Some (WhyEvaluationFaulted target f)
  | None =>
    match policy e target with
    | AdError detail => Some (WhyEvaluationFaulted target (AdmissionErrorF target detail))
    | AdRejected reason => Some (WhyNotAdmitted target reason)
    | AdAdmitted =>
      target_key ← canonical_key target interner;
      Some (match ev_selected frontier with
        | Some (sel_key, sel_cand) =>
          if decide (sel_key = target_key ∧ sel_cand = target) then WhySelected target_key target
          else WhyAdmittedNotSelected target_key target sel_key sel_cand
        | None => WhyNoCandidateAdmitted
        end)
    end
  end.

Definition explain_why_not (candidates : list NamedCandidate) (target : NamedCandidate) : option WhyNotExplanation :=
  if decide (target ∉ candidates) then Some WhyNotCandidateNotFound else
  frontier ← evaluate candidates;
  match fault frontier with
  | Some f => Some (WhyNotEvaluationFaulted target f)
  | None =>
    match policy e target with
    | AdError detail => Some (WhyNotEvaluationFaulted target (AdmissionErrorF target detail))
    | AdRejected reason => Some (RejectedByPolicy target reason)
    | AdAdmitted =>
      target_key ← canonical_key target interner;
      Some (match ev_selected frontier with
        | Some (sel_key, sel_cand) =>
          if decide (sel_key = target_key ∧ sel_cand = target) then ActuallySelected target target_key
          else Overshadowed target target_key sel_key sel_cand
        | None => NoCandidateSelected
        end)
    end
  end.

(** [PolicyToAdmAdapter::new], whose map keeps the last candidate of a witness, and its [admits]. *)
Definition candidates_by_witness (candidates : list NamedCandidate) : gmap Handle NamedCandidate :=
  fold_left (λ map nc, <[nc_witness_handle nc := nc]> map) candidates ∅.

Definition PolicyToAdmAdapter (candidates : list NamedCandidate) : Adm := λ e c,
  match candidates_by_witness candidates !! c_witness c with
  | Some nc => is_admitted (policy e nc)
  | None => false
  end.
End evaluate.

(** * The loop *)

Section evaluation.
Context `{Blake3} (policy : AdmissionPolicy) (e : ExecConfig) (interner : Interner) (κ : NamedCandidate → Key).

(** [c] reaches the frontier. *)
Definition admits (c : NamedCandidate) : Prop := nc_phase c = 0%Z ∧ policy e c = AdAdmitted.
#[export] Instance admits_dec c : Decision (admits c).
Proof.
  unfold admits. destruct (policy e c); [|right; by intros [_ ?]|right; by intros [_ ?]].
  destruct (decide (nc_phase c = 0%Z)) as [?|?]; [by left|right; by intros [? _]].
Defined.

(** What [c] alone contributes to the faults. *)
Definition fault_of (c : NamedCandidate) : option EvaluationFault :=
  if decide (nc_phase c ≠ 0%Z) then Some (InvalidPhaseF c (nc_phase c)) else
  match policy e c with AdError detail => Some (AdmissionErrorF c detail) | _ => None end.

Definition keyed (l : list NamedCandidate) : Prop :=
  ∀ c, c ∈ l → admits c → canonical_key c interner = Some (κ c).

(** The admitted candidate that holds a key, the first one of the list. *)
Definition holder (l : list NamedCandidate) (k : Key) : option NamedCandidate :=
  head (filter (λ c, admits c ∧ κ c = k) l).

Definition clash_free (l : list NamedCandidate) : Prop :=
  ∀ c1 c2, c1 ∈ l → c2 ∈ l → admits c1 → admits c2 → κ c1 = κ c2 → c1 = c2.

(** The loop's state after the candidates [l]. *)
Record evaluated (l : list NamedCandidate) (s : EvaluatedFrontier) : Prop := {
  evd_config : ev_config s = e;
  evd_selected : ev_selected s = None;
  evd_admitted : ev_admitted s = entries (ev_frontier s);
  evd_frontier k : entries (ev_frontier s) !! k = holder l k;
  evd_candidate k : entries (ev_candidate_frontier s) !! k = to_candidate <$> holder l k;
  evd_rejected c r : ev_rejected s !! c = Some r ↔ c ∈ l ∧ nc_phase c = 0%Z ∧ policy e c = AdRejected r;
  evd_faults : ev_evaluation_faults s = omap fault_of l;
  evd_conflict k x y : mkConflict k x y ∈ ev_key_conflicts s →
    x ∈ l ∧ y ∈ l ∧ admits x ∧ admits y ∧ x ≠ y ∧ κ x = k ∧ κ y = k;
  evd_clash_free : ev_key_conflicts s = [] → clash_free l;
  evd_candidate_conflict : ev_key_conflicts s = [] → ev_candidate_key_conflicts s = []
}.

Lemma holder_snoc l c k :
  holder (l ++ [c]) k = match holder l k with
    | Some x => Some x
    | None => if decide (admits c ∧ κ c = k) then Some c else None
    end.
Proof. unfold holder. rewrite filter_app, (filter_cons _ c), filter_nil. destruct (filter _ l); [|done]. cbn. by case_decide. Qed.

Lemma holder_Some l k c : holder l k = Some c → c ∈ l ∧ admits c ∧ κ c = k.
Proof.
  unfold holder. intros Hc. assert (c ∈ filter (λ c, admits c ∧ κ c = k) l) as Hin
    by (destruct (filter _ l); [done|]; injection Hc as ->; constructor).
  apply list_elem_of_filter in Hin. tauto.
Qed.

Lemma holder_None l k c : holder l k = None → c ∈ l → admits c → κ c ≠ k.
Proof.
  unfold holder. intros Hn Hin Ha Hk. assert (c ∈ filter (λ c, admits c ∧ κ c = k) l) as Hf
    by (by apply list_elem_of_filter). destruct (filter _ l); [by apply elem_of_nil in Hf|done].
Qed.

Lemma holder_unique l k c : clash_free l → holder l k = Some c ↔ c ∈ l ∧ admits c ∧ κ c = k.
Proof.
  intros Hu. split; [apply holder_Some|]. intros (Hin & Ha & Hk).
  destruct (holder l k) as [x|] eqn:E; [|by destruct (holder_None l k c E Hin Ha)].
  apply holder_Some in E as (Hx & Hax & Hkx). f_equal. apply Hu; [done..|congruence].
Qed.

(** A candidate that does not reach the frontier leaves it alone. *)
Lemma holder_skip l c k : ¬ admits c → holder (l ++ [c]) k = holder l k.
Proof. intros Hc. rewrite holder_snoc. destruct (holder l k); [done|]. by rewrite decide_False by tauto. Qed.

Lemma clash_free_skip l c : ¬ admits c → clash_free l → clash_free (l ++ [c]).
Proof.
  intros Hc Hl c1 c2 [H1| ->%list_elem_of_singleton]%elem_of_app [H2| ->%list_elem_of_singleton]%elem_of_app; try tauto.
  by apply Hl.
Qed.

Lemma omap_fault_snoc l c : omap fault_of (l ++ [c]) = omap fault_of l ++ option_list (fault_of c).
Proof. rewrite omap_app. cbn. by destruct (fault_of c). Qed.

Lemma conflict_mono l c k x y :
  x ∈ l ∧ y ∈ l ∧ admits x ∧ admits y ∧ x ≠ y ∧ κ x = k ∧ κ y = k →
  x ∈ l ++ [c] ∧ y ∈ l ++ [c] ∧ admits x ∧ admits y ∧ x ≠ y ∧ κ x = k ∧ κ y = k.
Proof. rewrite !elem_of_app. tauto. Qed.

(** One that does is not rejected and does not fault. *)
Lemma admitted_rejects l c x r : admits c →
  (x ∈ l ++ [c] ∧ nc_phase x = 0%Z ∧ policy e x = AdRejected r) ↔
  (x ∈ l ∧ nc_phase x = 0%Z ∧ policy e x = AdRejected r).
Proof.
  intros [_ Hc]. rewrite elem_of_app, list_elem_of_singleton.
  split; [intros [[?| ->] [? ?]]; [done|congruence]|tauto].
Qed.

Lemma admitted_faults l c : admits c → omap fault_of (l ++ [c]) = omap fault_of l.
Proof.
  intros [Hp Hc]. rewrite omap_fault_snoc. unfold fault_of. rewrite decide_False by tauto. by rewrite Hc, app_nil_r.
Qed.

Lemma evaluated_skip l c s rejected faults :
  ¬ admits c → evaluated l s →
  (∀ x r, rejected !! x = Some r ↔ x ∈ l ++ [c] ∧ nc_phase x = 0%Z ∧ policy e x = AdRejected r) →
  faults = omap fault_of (l ++ [c]) →
  evaluated (l ++ [c]) (mkEvaluated (ev_config s) (ev_admitted s) rejected (ev_frontier s) (ev_candidate_frontier s)
    (ev_selected s) (ev_key_conflicts s) (ev_candidate_key_conflicts s) faults).
Proof.
  intros Hc [Hcfg Hsel Hadm Hfr Hcf Hrej Hf Hcon Hcl Hcc] Hr Hfs.
  split; cbn; try done; try (intros k; by rewrite holder_skip).
  - intros k x y Hin. by apply conflict_mono, Hcon.
  - intros Hn. by apply clash_free_skip, Hcl.
Qed.

Lemma evaluated_key_free l c s k :
  evaluated l s → admits c → κ c = k → holder l k = None →
  evaluated (l ++ [c]) (mkEvaluated (ev_config s) (<[k:=c]> (ev_admitted s)) (ev_rejected s)
    (mkFrontier (<[k:=c]> (entries (ev_frontier s))))
    (mkFrontier (<[k:=to_candidate c]> (entries (ev_candidate_frontier s))))
    (ev_selected s) (ev_key_conflicts s) (ev_candidate_key_conflicts s) (ev_evaluation_faults s)).
Proof.
  intros [Hcfg Hsel Hadm Hfr Hcf Hrej Hf Hcon Hcl Hcc] Ha <- Ex.
  assert (∀ k, k ≠ κ c → holder (l ++ [c]) k = holder l k) as Hother.
  { intros k Hk. rewrite holder_snoc. destruct (holder l k); [done|]. rewrite decide_False; [done|]. by intros [_ ?]. }
  assert (holder (l ++ [c]) (κ c) = Some c) as Hself by (rewrite holder_snoc, Ex; by rewrite decide_True).
  split; cbn; try done.
  - by rewrite Hadm.
  - intros k. destruct (decide (k = κ c)) as [->|Hne]; [by rewrite lookup_insert_eq|].
    by rewrite lookup_insert_ne, Hfr, Hother by done.
  - intros k. destruct (decide (k = κ c)) as [->|Hne]; [by rewrite lookup_insert_eq, Hself|].
    by rewrite lookup_insert_ne, Hcf, Hother by done.
  - intros x r. by rewrite Hrej, admitted_rejects.
  - by rewrite Hf, admitted_faults.
  - intros k x y Hin. by apply conflict_mono, Hcon.
  - intros Hn c1 c2 [H1| ->%list_elem_of_singleton]%elem_of_app [H2| ->%list_elem_of_singleton]%elem_of_app Ha1 Ha2 Heq.
    + by apply Hcl.
    + by destruct (holder_None _ _ c1 Ex H1 Ha1).
    + by destruct (holder_None _ _ c2 Ex H2 Ha2).
    + done.
Qed.

Lemma evaluated_key_taken l c x s extra :
  evaluated l s → admits c → holder l (κ c) = Some x → x ≠ c →
  evaluated (l ++ [c]) (mkEvaluated (ev_config s) (ev_admitted s) (ev_rejected s) (ev_frontier s)
    (ev_candidate_frontier s) (ev_selected s) (ev_key_conflicts s ++ [mkConflict (κ c) x c])
    (ev_candidate_key_conflicts s ++ extra) (ev_evaluation_faults s)).
Proof.
  intros [Hcfg Hsel Hadm Hfr Hcf Hrej Hf Hcon Hcl Hcc] Ha Ex Hxc.
  assert (∀ k, holder (l ++ [c]) k = holder l k) as Hsame.
  { intros k. rewrite holder_snoc. destruct (holder l k) eqn:E; [done|]. rewrite decide_False; [done|].
    intros [_ <-]. congruence. }
  apply holder_Some in Ex as (Hx & Hax & Hkx). split; cbn; try done; try (intros k; by rewrite Hsame).
  - intros y r. by rewrite Hrej, admitted_rejects.
  - by rewrite Hf, admitted_faults.
  - intros k y z [Hin|[= -> -> ->]%list_elem_of_singleton]%elem_of_app; [by apply conflict_mono, Hcon|].
    rewrite !elem_of_app, !list_elem_of_singleton. split_and!; auto.
  - by destruct (ev_key_conflicts s).
  - by destruct (ev_key_conflicts s).
Qed.

Lemma evaluate_one_spec l c s :
  c ∉ l → keyed (l ++ [c]) → evaluated l s →
  ∃ s', evaluate_one policy e interner s c = Some s' ∧ evaluated (l ++ [c]) s'.
Proof.
  intros Hc Hk Hs. unfold evaluate_one. pose proof (evd_rejected _ _ Hs) as Hrej. pose proof (evd_faults _ _ Hs) as Hf.
  destruct (decide (nc_phase c ≠ 0%Z)) as [Hp|Hp%dec_stable].
  { eexists. split; [done|]. apply evaluated_skip; [by intros [? _]|done|..].
    - intros x r. rewrite Hrej, elem_of_app, list_elem_of_singleton. naive_solver.
    - rewrite omap_fault_snoc, Hf. f_equal. unfold fault_of. by rewrite decide_True. }
  destruct (policy e c) as [|r|d] eqn:Ep.
  - assert (admits c) as Ha by done. rewrite (Hk c) by (done || (apply elem_of_app; right; constructor)). cbn [mbind option_bind].
    assert (ev_admitted s !! κ c = holder l (κ c)) as Hl by (rewrite (evd_admitted _ _ Hs); apply Hs).
    unfold insert. rewrite Hl, (evd_frontier _ _ Hs), (evd_candidate _ _ Hs).
    destruct (holder l (κ c)) as [x|] eqn:Ex; cbn [fmap option_fmap option_map].
    + pose proof (holder_Some _ _ _ Ex) as (Hx & _). assert (x ≠ c) as Hxc by (by intros ->).
      rewrite decide_False by done.
      destruct (decide (to_candidate x = to_candidate c)); eexists; (split; [done|]); by apply evaluated_key_taken.
    + cbn [conflict_of]. rewrite !app_nil_r. eexists. split; [done|].
      by apply evaluated_key_free.
  - eexists. split; [done|]. apply evaluated_skip; [by intros [_ ?]; congruence|done|..].
    + intros x r'. rewrite elem_of_app, list_elem_of_singleton. destruct (decide (x = c)) as [->|Hne].
      * rewrite lookup_insert_eq, Ep. split; [intros [= ->]; by auto|by intros (_ & _ & [= ->])].
      * rewrite lookup_insert_ne by done. rewrite Hrej. tauto.
    + rewrite omap_fault_snoc, Hf. unfold fault_of at 3. rewrite decide_False by tauto. by rewrite Ep, app_nil_r.
  - eexists. split; [done|]. apply evaluated_skip; [by intros [_ ?]; congruence|done|..].
    + intros x r'. rewrite Hrej, elem_of_app, list_elem_of_singleton.
      split; [tauto|]. intros [[?| ->] [? ?]]; [done|congruence].
    + rewrite omap_fault_snoc, Hf. f_equal. unfold fault_of. rewrite decide_False by tauto. by rewrite Ep.
Qed.

Lemma evaluate_each_spec l0 l s :
  NoDup (l0 ++ l) → keyed (l0 ++ l) → evaluated l0 s →
  ∃ s', evaluate_each policy e interner s l = Some s' ∧ evaluated (l0 ++ l) s'.
Proof.
  revert l0 s. induction l as [|c l IH]; intros l0 s Hnd Hk Hs; cbn [evaluate_each].
  - exists s. by rewrite app_nil_r.
  - assert (NoDup ((l0 ++ [c]) ++ l) ∧ keyed ((l0 ++ [c]) ++ l)) as [Hnd' Hk'] by (by rewrite <-app_assoc).
    destruct (evaluate_one_spec l0 c s) as (s1 & -> & Hs1); [..|done|].
    + apply NoDup_app in Hnd as (_ & Hno & _). intros Hin. apply (Hno c Hin). constructor.
    + intros x Hx. apply Hk'. apply elem_of_app. by left.
    + cbn. destruct (IH _ _ Hnd' Hk' Hs1) as (s' & E & Hs'). exists s'. split; [done|]. by rewrite <-app_assoc in Hs'.
Qed.

Lemma evaluated_start : evaluated [] (evaluated_new e).
Proof.
  split; cbn; try done.
  - intros c r. rewrite lookup_empty, elem_of_nil. naive_solver.
  - by intros k x y ?%elem_of_nil.
  - by intros _ c1 c2 ?%elem_of_nil.
Qed.

(** ** What an evaluation promises *)

(** Nothing in the pool faults: every phase is zero, no policy error, one candidate per key. *)
Definition clean (pool : list NamedCandidate) : Prop := (∀ c, c ∈ pool → fault_of c = None) ∧ clash_free pool.

(** The admitted candidate of least key. *)
Definition wins (pool : list NamedCandidate) (c : NamedCandidate) : Prop :=
  c ∈ pool ∧ admits c ∧ ∀ c', c' ∈ pool → admits c' → c' = c ∨ lt_of (κ c) (κ c').

(** The fault names a candidate, or a pair of candidates, that is at fault. *)
Definition blamed (pool : list NamedCandidate) (f : EvaluationFault) : Prop :=
  match f with
  | InvalidPhaseF c p => c ∈ pool ∧ p = nc_phase c ∧ p ≠ 0%Z
  | AdmissionErrorF c d => c ∈ pool ∧ nc_phase c = 0%Z ∧ policy e c = AdError d
  | KeyConflictF (mkConflict k x y) => (∀ c, c ∈ pool → fault_of c = None) ∧
      x ∈ pool ∧ y ∈ pool ∧ admits x ∧ admits y ∧ x ≠ y ∧ κ x = k ∧ κ y = k
  | CandidateKeyConflictF _ | EvaluationErrorF _ => False
  end.

(** The status of a candidate of a clean pool. *)
Definition expected_status (selected : option (Key * NamedCandidate)) (c : NamedCandidate) : option CandidateStatus :=
  match policy e c with
  | AdAdmitted => Some (if decide (snd <$> selected = Some c) then StSelected else StAdmittedNotSelected)
  | AdRejected GuardFalse => Some StRejectedGuardFalse
  | AdRejected r => Some (StRejected r)
  | AdError _ => None
  end.

Lemma fault_of_blamed pool c f : c ∈ pool → fault_of c = Some f → blamed pool f.
Proof.
  intros Hc. unfold fault_of. destruct (decide (nc_phase c ≠ 0%Z)) as [Hp|Hp%dec_stable]; [by intros [= <-]|].
  destruct (policy e c) eqn:E; [done|done|]. by intros [= <-].
Qed.

Lemma blamed_not_clean pool f : blamed pool f → ¬ clean pool.
Proof.
  intros Hb [Hf Hu]. destruct f as [[k x y]|c|c d|d|c p]; cbn in Hb; try done.
  - destruct Hb as (_ & Hx & Hy & Hax & Hay & Hne & Hkx & Hky). apply Hne, Hu; [done..|congruence].
  - destruct Hb as (Hc & Hp & Hd). specialize (Hf c Hc). unfold fault_of in Hf.
    rewrite decide_False in Hf by tauto. by rewrite Hd in Hf.
  - destruct Hb as (Hc & -> & Hp). specialize (Hf c Hc). unfold fault_of in Hf. by rewrite decide_True in Hf.
Qed.

Lemma clean_faultless pool c : clean pool → c ∈ pool → nc_phase c = 0%Z ∧ ∀ d, policy e c ≠ AdError d.
Proof.
  intros [Hf _] Hc. specialize (Hf c Hc). unfold fault_of in Hf.
  destruct (decide (nc_phase c ≠ 0%Z)) as [|Hp%dec_stable]; [done|]. by destruct (policy e c).
Qed.

Lemma omap_fault_nil l : omap fault_of l = [] ↔ ∀ c, c ∈ l → fault_of c = None.
Proof.
  induction l as [|c l IH]; cbn.
  - split; [|done]. intros _ c. by intros ?%elem_of_nil.
  - setoid_rewrite elem_of_cons. destruct (fault_of c) eqn:E; [|rewrite IH; naive_solver].
    split; [done|]. intros Hf. rewrite (Hf c) in E by (by left). done.
Qed.

Lemma evaluate_spec pool : keyed pool →
  ∃ ev, evaluate policy e interner pool = Some ev ∧ 
  match fault ev with
  | Some f => blamed pool f ∧ ev_selected ev = None
  | None => clean pool ∧
    ev_selected ev = peek_least (ev_frontier ev) ∧
    (∀ k c, entries (ev_frontier ev) !! k = Some c ↔ c ∈ pool ∧ admits c ∧ κ c = k) ∧
    ev_admitted ev = entries (ev_frontier ev) ∧
    (∀ c r, ev_rejected ev !! c = Some r ↔ c ∈ pool ∧ nc_phase c = 0%Z ∧ policy e c = AdRejected r)
  end.
Proof.
  intros Hk. set (L := set_iter (list_to_set pool : gset NamedCandidate)).
  assert (∀ c, c ∈ L ↔ c ∈ pool) as HL by (intros c; unfold L; by rewrite elem_set_iter, elem_of_list_to_set).
  destruct (evaluate_each_spec [] L (evaluated_new e)) as (s & E & Hs); [apply set_iter_nodup| |apply evaluated_start|].
  { intros c Hc%HL. by apply Hk. }
  unfold evaluate. fold L. rewrite E. cbn [mbind option_bind app] in *. eexists. split; [reflexivity|].
  destruct Hs as [_ _ Hadm Hfr _ Hrej Hf Hcon Hcl Hcc]. unfold fault. cbn [ev_evaluation_faults ev_key_conflicts
    ev_candidate_key_conflicts ev_selected ev_frontier ev_admitted ev_rejected].
  assert (∀ x y k, x ∈ L ∧ y ∈ L ∧ admits x ∧ admits y ∧ x ≠ y ∧ κ x = k ∧ κ y = k →
    x ∈ pool ∧ y ∈ pool ∧ admits x ∧ admits y ∧ x ≠ y ∧ κ x = k ∧ κ y = k) as HLc by (intros x y k; by rewrite !HL).
  destruct (ev_evaluation_faults s) as [|f fs] eqn:Ef.
  - symmetry in Hf. rewrite omap_fault_nil in Hf.
    assert (∀ c, c ∈ pool → fault_of c = None) as Hnf by (intros c Hc; by apply Hf, HL).
    destruct (ev_key_conflicts s) as [|[k x y] ks] eqn:Ek.
    + rewrite Hcc by done. cbn [is_nil andb head fmap option_fmap option_map]. specialize (Hcl eq_refl).
      assert (clash_free pool) as Hu by (intros c1 c2 H1 H2; apply Hcl; by apply HL).
      split_and!; [done|done| |done|].
      * intros k c. rewrite Hfr, (holder_unique L k c Hcl). by rewrite HL.
      * intros c r. by rewrite Hrej, HL.
    + cbn. split; [|done]. split; [done|]. apply HLc, Hcon. constructor.
  - rewrite andb_false_r. split; [|done]. assert (f ∈ omap fault_of L) as Hin by (rewrite <-Hf; constructor).
    apply list_elem_of_omap in Hin as (c & Hc%HL & Hfc). by eapply fault_of_blamed.
Qed.
End evaluation.

Lemma deliberation_spec `{Blake3} policy e interner κ pool :
  keyed policy e interner κ pool →
  ∃ ev, evaluate policy e interner pool = Some ev ∧
  (fault ev = None ↔ clean policy e κ pool) ∧
  match fault ev with
  | Some f => blamed policy e κ pool f ∧ ev_selected ev = None ∧
      deliberation_outcome ev = Err f ∧ selection_outcome ev = Err f ∧
      try_evaluate policy e interner pool = Some (Err f)
  | None =>
      selection_outcome ev = Ok (ev_selected ev) ∧
      match ev_selected ev with
      | Some (k, c) => k = κ c ∧ wins policy e κ pool c ∧ deliberation_outcome ev = Ok (DoSelected k c)
      | None => (∀ c, c ∈ pool → ¬ admits policy e c) ∧ deliberation_outcome ev = Ok DoQuiescent
      end ∧
      (∀ c, status_of ev c = if decide (c ∈ pool) then expected_status policy e (ev_selected ev) c else None)
  end.
Proof.
  intros Hk. destruct (evaluate_spec policy e interner κ pool Hk) as (ev & E & Hev). exists ev. split; [done|].
  unfold deliberation_outcome, selection_outcome, try_evaluate. rewrite E. cbn [mbind option_bind].
  destruct (fault ev) as [f|] eqn:Ef.
  { destruct Hev as [Hb Hs]. split; [|by split_and!]. split; [done|]. intros Hc. by apply blamed_not_clean in Hb. }
  destruct Hev as (Hcl & Hsel & Hfr & Hadm & Hrej). split; [done|]. split; [done|]. split.
  - rewrite Hsel. destruct (peek_least (ev_frontier ev)) as [[k c]|] eqn:Ep.
    + apply peek_least_Some in Ep as [Hc Hmin]. apply Hfr in Hc as (Hc & Ha & <-). split; [done|]. split; [|done].
      split; [done|]. split; [done|]. intros c' Hc' Ha'. destruct (Hmin (κ c') c') as [Heq|?]; [by apply Hfr| |by right].
      left. by apply (proj2 Hcl).
    + apply peek_least_None in Ep. split; [|done]. intros c Hc Ha.
      assert (entries (ev_frontier ev) !! κ c = Some c) as Hin by (by apply Hfr). by rewrite Ep in Hin.
  - intros c. unfold status_of, expected_status.
    assert (existsb (λ '(_, cand), bool_decide (cand = c)) (btree_iter (ev_admitted ev)) = true ↔
      c ∈ pool ∧ admits policy e c) as Hex.
    { rewrite existsb_exists. split.
      - intros ([k x] & Hin%list_elem_of_In & Hx%bool_decide_eq_true). subst x.
        apply btree_iter_elem in Hin. rewrite Hadm in Hin. apply Hfr in Hin. tauto.
      - intros [Hc Ha]. exists (κ c, c). split; [|by apply bool_decide_eq_true].
        apply list_elem_of_In, btree_iter_elem. rewrite Hadm. by apply Hfr. }
    assert (match ev_selected ev with Some (_, sel) => bool_decide (sel = c) | None => false end = true ↔
      snd <$> ev_selected ev = Some c) as Hs by (destruct (ev_selected ev) as [[k x]|]; cbn;
        [rewrite bool_decide_eq_true; split; congruence|done]).
    assert (snd <$> ev_selected ev = Some c → c ∈ pool ∧ admits policy e c) as Hwin.
    { rewrite Hsel. destruct (peek_least (ev_frontier ev)) as [[k x]|] eqn:Ep; [|done]. intros [= ->].
      apply peek_least_Some in Ep as [Hc _]. apply Hfr in Hc. tauto. }
    pose proof (clean_faultless policy e κ pool c Hcl) as Hok.
    destruct (match ev_selected ev with Some (_, sel) => bool_decide (sel = c) | None => false end) eqn:Eb.
    { pose proof (proj1 Hs eq_refl) as Eb'. destruct (Hwin Eb') as [Hc [_ Ha]]. rewrite decide_True by done. rewrite Ha.
      by rewrite decide_True. }
    assert (snd <$> ev_selected ev ≠ Some c) as Hns by (by intros ?%Hs).
    destruct (existsb _ _) eqn:Ee.
    { destruct (proj1 Hex eq_refl) as [Hc [_ Ha]]. rewrite decide_True by done. by rewrite Ha, decide_False. }
    destruct (ev_rejected ev !! c) as [r|] eqn:Er.
    { apply Hrej in Er as (Hc & _ & Hr). rewrite decide_True by done. rewrite Hr. by destruct r. }
    destruct (decide (c ∈ pool)) as [Hc|]; [|done]. destruct (Hok Hc) as [Hp Hd].
    destruct (policy e c) as [|r|d] eqn:Ed; [|exfalso|by destruct (Hd d)].
    + exfalso. assert (c ∈ pool ∧ admits policy e c) as Hin by done. by apply Hex in Hin.
    + assert (ev_rejected ev !! c = Some r) as Hin by (by apply Hrej). congruence.
Qed.

(** The explanations an evaluation determines. *)
Definition why_of (κ : NamedCandidate → Key) (ev : EvaluatedFrontier) (t : NamedCandidate) : option WhyExplanation :=
  match fault ev with
  | Some f => Some (WhyEvaluationFaulted t f)
  | None => match status_of ev t with
    | Some StSelected => Some (WhySelected (κ t) t)
    | Some StAdmittedNotSelected => '(k, c) ← ev_selected ev; Some (WhyAdmittedNotSelected (κ t) t k c)
    | Some s => r ← status_rejection_reason s; Some (WhyNotAdmitted t r)
    | None => None
    end
  end.
Definition why_not_of (κ : NamedCandidate → Key) (ev : EvaluatedFrontier) (t : NamedCandidate) : option WhyNotExplanation :=
  match fault ev with
  | Some f => Some (WhyNotEvaluationFaulted t f)
  | None => match status_of ev t with
    | Some StSelected => Some (ActuallySelected t (κ t))
    | Some StAdmittedNotSelected => '(k, c) ← ev_selected ev; Some (Overshadowed t (κ t) k c)
    | Some s => r ← status_rejection_reason s; Some (RejectedByPolicy t r)
    | None => None
    end
  end.

Lemma explanations_spec `{Blake3} policy e interner κ pool :
  keyed policy e interner κ pool →
  ∃ ev, evaluate policy e interner pool = Some ev ∧
  ∀ t, if decide (t ∈ pool)
    then explain_why policy e interner pool t = why_of κ ev t ∧ is_Some (why_of κ ev t) ∧
         explain_why_not policy e interner pool t = why_not_of κ ev t ∧ is_Some (why_not_of κ ev t)
    else explain_why policy e interner pool t = Some WhyCandidateNotFound ∧
         explain_why_not policy e interner pool t = Some WhyNotCandidateNotFound.
Proof.
  intros Hk. destruct (deliberation_spec policy e interner κ pool Hk) as (ev & E & Hcl & Hev). exists ev. split; [done|].
  intros t. unfold explain_why, explain_why_not, why_of, why_not_of. rewrite E. cbn [mbind option_bind].
  destruct (decide (t ∈ pool)) as [Ht|Ht]; [|by rewrite !decide_True by done].
  rewrite !(decide_False (P := t ∉ pool)) by (intros Hn; by apply Hn).
  destruct (fault ev) as [f|]; [by split_and!|].
  destruct (clean_faultless policy e κ pool t (proj1 Hcl eq_refl) Ht) as [Hp Hd].
  destruct Hev as (_ & Hsel & Hst). rewrite (Hst t), decide_True by done. unfold expected_status.
  destruct (policy e t) as [|r|d] eqn:Ep; [|destruct r; cbn; eauto 10|by destruct (Hd d)].
  rewrite (Hk t) by done. cbn [mbind option_bind].
  destruct (ev_selected ev) as [[k c]|]; [|by destruct (proj1 Hsel t Ht)].
  destruct Hsel as (-> & _). cbn [fmap option_fmap option_map snd].
  destruct (decide (Some c = Some t)) as [[= ->]|Hne].
  - rewrite !decide_True by done. by split_and!.
  - rewrite !decide_False by (intros [_ ->]; by apply Hne). by split_and!.
Qed.

(** ** Canonical keys *)

Definition identity_ok (c : CanonicalCandidateV1) : Prop :=
  id_ok (cc_regime_id c) ∧ digest_ok (cc_witness c) ∧ digest_ok (cc_successor c).

Lemma tiebreak_frames id : tiebreak_bytes id =
  frame (bytes_of_string CANONICAL_TIEBREAK_TAG) ++ frame (bytes_of_string CANONICAL_CANDIDATE_TAG) ++
  canon_bytes (cc_regime_id id) ++ frame (as_bytes (cc_witness id)) ++ frame (as_bytes (cc_successor id)) ++ [].
Proof.
  rewrite canon_bytes_Id. unfold tiebreak_bytes, canon_write, Canonical_CanonicalCandidateV1, canon_write, Canonical_Id, write_tag.
  rewrite !write_bytes_app. cbn [app]. by rewrite <-!app_assoc, app_nil_r.
Qed.

Lemma tiebreak_bytes_inj x y : identity_ok x → identity_ok y → tiebreak_bytes x = tiebreak_bytes y → x = y.
Proof.
  intros (Hr & [Hw _] & [Hs _]) (Hr' & [Hw' _] & [Hs' _]) Heq. rewrite !tiebreak_frames in Heq.
  apply app_inv_head, app_inv_head in Heq. rewrite !canon_bytes_Id in Heq.
  apply id_frame_inj in Heq as [Er Heq]; [|done..].
  apply prefix_free_frame in Heq as [Ew Heq]; [|unfold len_ok; rewrite ?Hw, ?Hw'; int_lia..].
  apply prefix_free_frame in Heq as [Es _]; [|unfold len_ok; rewrite ?Hs, ?Hs'; int_lia..].
  apply (inj as_bytes) in Ew, Es. destruct x, y; cbn in *. congruence.
Qed.

Lemma canonical_key_Some `{Blake3} c interner k :
  canonical_key c interner = Some k ↔ ∃ id, canonical_identity c interner = Some id ∧
    k = mkKey (nc_phase c) (nc_priority c) (digest_of Value (tiebreak_bytes id)).
Proof.
  unfold canonical_key, canonical_tiebreak. destruct (canonical_identity c interner) as [id|]; cbn; naive_solver.
Qed.

(** * Settlement of a deliberation *)

Section settle.
Context `{Blake3Laws} `{UnicodeNfc} (i : Interner) (rs : list Regime) (r : FiniteCandidateRegime) (e : ExecConfig).
Context (built : regimes_built i rs) (present_r : RFinite r ∈ rs).

(** The pool of a world. *)
Definition pool_at : list NamedCandidate := default [] (candidates_by_src r !! world e).

Lemma pool_wf n : n ∈ pool_at →
  lowered i (finite_regime_id r) (world e) (to_candidate n) ∧ nc_regime_id n = finite_regime_id r ∧
  nc_phase n = 0%Z ∧ try_resolve i (world e) = Some (digest (nc_src n)) ∧
  try_resolve i (nc_successor_handle n) = Some (digest (nc_dst n)).
Proof.
  unfold pool_at. destruct (candidates_by_src r !! world e) as [l|] eqn:El; [|by intros ?%elem_of_nil].
  cbn. intros Hn. destruct (regimes_built_wf i rs built) as [_ Hwf]. destruct (Hwf _ present_r) as [[_ Hl] Hw].
  destruct (Hw _ l n El Hn) as (_ & Hr & Hp & _ & Hs & Hd). split_and!; try done.
  apply Hl, elem_finite_offers. eauto.
Qed.

(** The canonical key of a candidate of the pool. *)
Definition key_at (n : NamedCandidate) : Key :=
  default (mkKey 0 0 (mkDigest [])) (canonical_key n i).

Lemma pool_keyed policy : keyed policy e i key_at pool_at.
Proof.
  intros n Hn _. destruct (pool_wf n Hn) as ((_ & _ & [d Hs] & _ & _ & _ & Hw) & _).
  unfold key_at, canonical_key, canonical_tiebreak, canonical_identity. cbn [c_witness c_successor to_candidate] in *.
  by rewrite Hw, Hs.
Qed.

(** The pool's witnesses are its candidates' own. *)
Definition distinct_witnesses : Prop :=
  ∀ n1 n2, n1 ∈ pool_at → n2 ∈ pool_at → nc_witness_handle n1 = nc_witness_handle n2 → n1 = n2.

Lemma elem_candidates_by_witness l h n :
  (∀ n1 n2, n1 ∈ l → n2 ∈ l → nc_witness_handle n1 = nc_witness_handle n2 → n1 = n2) →
  candidates_by_witness l !! h = Some n ↔ n ∈ l ∧ nc_witness_handle n = h.
Proof.
  unfold candidates_by_witness. induction l as [|x l IH] using rev_ind; intros Hd.
  - cbn [fold_left]. rewrite lookup_empty, elem_of_nil. naive_solver.
  - rewrite fold_left_app. cbn [fold_left]. setoid_rewrite elem_of_app in Hd. setoid_rewrite list_elem_of_singleton in Hd.
    rewrite elem_of_app, list_elem_of_singleton. destruct (decide (h = nc_witness_handle x)) as [->|Hne].
    + rewrite lookup_insert_eq. split; [intros [= ->]; auto|]. intros [Hin Hw]. f_equal. symmetry.
      apply Hd; tauto.
    + rewrite lookup_insert_ne by done. rewrite IH by (intros; apply Hd; tauto). naive_solver.
Qed.

Context (policy : AdmissionPolicy) (distinct : distinct_witnesses).

Lemma adapter_admits n : n ∈ pool_at →
  PolicyToAdmAdapter policy pool_at e (to_candidate n) = is_admitted (policy e n).
Proof.
  intros Hn. unfold PolicyToAdmAdapter.
  assert (candidates_by_witness pool_at !! c_witness (to_candidate n) = Some n) as -> by (by apply elem_candidates_by_witness).
  done.
Qed.

Lemma elem_cand c :
  c ∈ cand (candidates <$> [finite_provider r]) (PolicyToAdmAdapter policy pool_at) e ↔
  ∃ n, n ∈ pool_at ∧ admits policy e n ∧ c = to_candidate n.
Proof.
  rewrite cand_elem. setoid_rewrite list_elem_of_singleton. cbn [candidates finite_provider].
  assert (c ∈ finite_candidates r e ↔ ∃ n, n ∈ pool_at ∧ c = to_candidate n) as Hin.
  { unfold finite_candidates, finite_offers, pool_at. destruct (candidates_by_src r !! world e); cbn.
    - rewrite list_elem_of_fmap. naive_solver.
    - setoid_rewrite elem_of_nil. naive_solver. }
  split.
  - intros [(p & -> & Hc) Ha]. apply Hin in Hc as (n & Hn & ->). rewrite adapter_admits in Ha by done.
    exists n. split_and!; [done| |done]. split; [by apply pool_wf|]. by destruct (policy e n).
  - intros (n & Hn & [_ Ha] & ->). split; [|rewrite adapter_admits by done; by rewrite Ha].
    exists (candidates (finite_provider r)). split; [done|]. apply Hin. eauto.
Qed.

(** The decomposition of a named step. *)
Definition named_chain (n : NamedCandidate) : Decomposition :=
  mkDecomposition [named FINITE_FRONTIER_GENERATOR_NAME] [nc_src n; nc_dst n] Recorded.

Lemma finite_decomposes n : n ∈ pool_at → finite_try_decompose r e (to_candidate n) = Ok (named_chain n).
Proof.
  intros Hn. destruct (pool_wf n Hn) as (_ & Hr & _). unfold finite_try_decompose.
  destruct (candidates_by_src r !! world e) as [l|] eqn:El; [|unfold pool_at in Hn; rewrite El in Hn; by apply elem_of_nil in Hn].
  assert (∀ m, m ∈ pool_at ↔ m ∈ l) as Hl by (intros m; unfold pool_at; by rewrite El).
  cbn [mbind option_bind]. destruct (list_find (λ c, to_candidate c = to_candidate n) l) as [[j m]|] eqn:Ef.
  - apply list_find_Some in Ef as (Hm & Heq & _). assert (m = n) as ->.
    { apply distinct; [by eapply Hl, list_elem_of_lookup_2|done|by injection Heq]. }
    cbn. by rewrite decide_False by tauto.
  - apply list_find_None in Ef. rewrite Forall_forall in Ef. by destruct (Ef n); [apply Hl|].
Qed.

Lemma named_commits n k ctx : n ∈ pool_at →
  try_commit_selected k (to_candidate n) (finite_provider r) i e ctx =
    Ok (Step (observation (committed_step k (named_chain n) (nc_src n) (nc_dst n) (witness_id (named FINITE_FRONTIER_GENERATOR_NAME)) ctx))
         (apply e (to_candidate n)),
        committed_step k (named_chain n) (nc_src n) (nc_dst n) (witness_id (named FINITE_FRONTIER_GENERATOR_NAME)) ctx).
Proof.
  intros Hn. apply try_commit_selected_Ok. destruct (pool_wf n Hn) as (_ & _ & _ & Hs & Hd).
  exists (named_chain n), (digest (nc_src n)), (digest (nc_dst n)), (witness_id (named FINITE_FRONTIER_GENERATOR_NAME)).
  split_and!; try done; [by apply finite_decomposes|]. by destruct (nc_src n), (nc_dst n).
Qed.
End settle.

(** * Properties *)

(** C5: Deliberation is exact and fails closed. When every admitted candidate's handles
    resolve, the evaluation never panics. It faults exactly when the pool is not clean, names
    a candidate or a pair that is at fault, and then selects nothing and withholds both outcomes.
    On a clean pool the selected candidate is the admitted one of least key, quiescence means
    that none is admitted, and the status of every candidate is the policy's verdict. *)
Theorem deliberation_exact `{Blake3} policy e interner κ pool :
  keyed policy e interner κ pool →
  ∃ ev, evaluate policy e interner pool = Some ev ∧
  (fault ev = None ↔ clean policy e κ pool) ∧
  match fault ev with
  | Some f => blamed policy e κ pool f ∧ ev_selected ev = None ∧
      deliberation_outcome ev = Err f ∧ selection_outcome ev = Err f ∧
      try_evaluate policy e interner pool = Some (Err f)
  | None =>
      selection_outcome ev = Ok (ev_selected ev) ∧
      match ev_selected ev with
      | Some (k, c) => k = κ c ∧ wins policy e κ pool c ∧ deliberation_outcome ev = Ok (DoSelected k c)
      | None => (∀ c, c ∈ pool → ¬ admits policy e c) ∧ deliberation_outcome ev = Ok DoQuiescent
      end ∧
      (∀ c, status_of ev c = if decide (c ∈ pool) then expected_status policy e (ev_selected ev) c else None)
  end.
Proof. apply deliberation_spec. Qed.

(** Explanations are re-derivations. [explain_why] and [explain_why_not] say of every
    candidate of the pool what the evaluation's outcome, selection and statuses determine, the
    same fault when it faulted; the branches for a policy error and for an empty selection are
    never reached; of any other candidate they say that it was not found. *)
Theorem explanations_agree `{Blake3} policy e interner κ pool :
  keyed policy e interner κ pool →
  ∃ ev, evaluate policy e interner pool = Some ev ∧
  ∀ t, if decide (t ∈ pool)
    then explain_why policy e interner pool t = why_of κ ev t ∧ is_Some (why_of κ ev t) ∧
         explain_why_not policy e interner pool t = why_not_of κ ev t ∧ is_Some (why_not_of κ ev t)
    else explain_why policy e interner pool t = Some WhyCandidateNotFound ∧
         explain_why_not policy e interner pool t = Some WhyNotCandidateNotFound.
Proof. apply explanations_spec. Qed.

(** Canonical keys bind the lowered candidate. Two candidates of one key have the same phase
    and priority and lower to the same regime, witness and successor, whatever their names, unless
    the two messages hashed for them collide. *)
Theorem canonical_keys_bind `{Blake3} c1 c2 id1 id2 i k :
  canonical_identity c1 i = Some id1 → canonical_identity c2 i = Some id2 → identity_ok id1 → identity_ok id2 →
  canonical_key c1 i = Some k → canonical_key c2 i = Some k →
  (nc_phase c1 = nc_phase c2 ∧ nc_priority c1 = nc_priority c2 ∧ id1 = id2) ∨
  collision (message (tiebreak_bytes id1)) (message (tiebreak_bytes id2)).
Proof.
  intros E1 E2 H1 H2 (x & Ex & ->)%canonical_key_Some (y & Ey & Hk)%canonical_key_Some.
  assert (x = id1) as -> by congruence. assert (y = id2) as -> by congruence.
  pose proof (f_equal Calendar.phase Hk) as Hp. pose proof (f_equal priority Hk) as Hpr. apply (f_equal tiebreak) in Hk.
  cbn [Calendar.phase priority tiebreak] in Hp, Hpr, Hk. apply digest_of_binds in Hk as [[_ Hb]|?]; [left|by right].
  split_and!; try done. by apply tiebreak_bytes_inj.
Qed.

(** C6: Settlement follows deliberation. For a finite regime registered over an interner, a pool
    whose candidates have distinct witnesses, a policy that never errs, and a keyer that gives lowered
    candidates their canonical keys, the settlement loop's tick over the regime and the policy's
    adapter does what the deliberation decided: it commits the selected candidate at its key, as the
    recorded one-generator step from its source to its destination; it is quiescent when
    the deliberation is; and it reports a key conflict when the deliberation faults. *)
Theorem deliberation_commits `{Blake3Laws} `{UnicodeNfc} {K} (keyer : K → Candidate → Z → Key * K) κ'
    i rs r e policy ctx phase ks :
  regimes_built i rs → RFinite r ∈ rs → distinct_witnesses r e →
  (∀ n d, n ∈ pool_at r e → policy e n ≠ AdError d) →
  (∀ ks c, (keyer ks c phase).1 = κ' c) → (∀ n, n ∈ pool_at r e → κ' (to_candidate n) = key_at i n) →
  ∃ ev ks', evaluate policy e i (pool_at r e) = Some ev ∧
  match deliberation_outcome ev with
  | Ok (DoSelected k n) => ∃ o s cost,
      try_commit_tick keyer [finite_provider r] (PolicyToAdmAdapter policy (pool_at r e)) i e ctx phase ks =
        Some (Ok (Step o (apply e (to_candidate n)), Some s, cost), ks') ∧
      key s = k ∧ step_src s = nc_src n ∧ step_dst s = nc_dst n ∧ decomposition s = named_chain n ∧
      outcome_class o = Derived
  | Ok DoQuiescent => ∃ cost,
      try_commit_tick keyer [finite_provider r] (PolicyToAdmAdapter policy (pool_at r e)) i e ctx phase ks =
        Some (Ok (QuiescentC, None, cost), ks')
  | Err _ => ∃ conflict,
      try_commit_tick keyer [finite_provider r] (PolicyToAdmAdapter policy (pool_at r e)) i e ctx phase ks =
        Some (Err (KeyConflictE conflict), ks')
  end.
Proof.
  intros Hb Hr Hd Hpol Hκ Hk. pose proof (pool_keyed i rs r e Hb Hr policy) as Hkeyed.
  pose proof (elem_cand i rs r e Hb Hr policy Hd) as Hcand.
  destruct (deliberation_spec policy e i (key_at i) _ Hkeyed) as (ev & E & Hcl & Hev).
  destruct (tick_cases keyer [finite_provider r] (PolicyToAdmAdapter policy (pool_at r e)) i e ctx phase ks κ' Hκ)
    as [ks' Ht]. exists ev, ks'. split; [done|].
  assert (∀ n1 n2, n1 ∈ pool_at r e → n2 ∈ pool_at r e → to_candidate n1 = to_candidate n2 → n1 = n2) as Hinj
    by (intros n1 n2 Hn1 Hn2 [= Hw _]; by apply Hd).
  assert (deliberation_outcome ev = match fault ev with Some f => Err f | None =>
    match ev_selected ev with Some (k, c) => Ok (DoSelected k c) | None => Ok DoQuiescent end end) as -> by done.
  destruct Ht as [(k & c1 & c2 & Et & Hc1 & Hc2 & Hne & Hk1 & Hk2)|(Hu & Ht)].
  - apply Hcand in Hc1 as (n1 & Hn1 & Ha1 & ->), Hc2 as (n2 & Hn2 & Ha2 & ->).
    destruct (fault ev) as [f|]; [by exists (mkConflict k (to_candidate n1) (to_candidate n2))|].
    exfalso. apply Hne. f_equal. apply (proj2 (proj1 Hcl eq_refl)); try done. rewrite <-!Hk by done. congruence.
  - assert (fault ev = None) as Hf.
    { apply Hcl. split.
      - intros n Hn. destruct (pool_wf i rs r e Hb Hr n Hn) as (_ & _ & Hp & _). unfold fault_of.
        rewrite decide_False by tauto. destruct (policy e n) eqn:Ep; [done..|]. by destruct (Hpol n detail).
      - intros n1 n2 Hn1 Hn2 Ha1 Ha2 Heq. apply Hinj; [done..|].
        apply Hu; [apply Hcand; eauto..|]. by rewrite !Hk. }
    rewrite Hf in Hev |- *. destruct Hev as (_ & Hsel & _). destruct Ht as [[HC Et]|(c & p & Hs & Et)].
    + destruct (ev_selected ev) as [[k n]|]; [|by eexists]. exfalso. destruct Hsel as (_ & (Hn & Ha & _) & _).
      assert (to_candidate n ∈ cand (candidates <$> [finite_provider r]) (PolicyToAdmAdapter policy (pool_at r e)) e) as Hin
        by (apply Hcand; eauto). rewrite HC in Hin. by apply elem_of_empty in Hin.
    + destruct Hs as (Hin & Hmin & j & Hp & _). assert (p = finite_provider r) as -> by (destruct j as [|[|]]; by simplify_eq/=).
      apply Hcand in Hin as (n & Hn & Ha & ->).
      destruct (ev_selected ev) as [[k w]|]; [|by destruct (proj1 Hsel n Hn)].
      destruct Hsel as (-> & (Hw & Haw & Hwin) & _).
      assert (w = n) as ->.
      { destruct (Hwin n Hn Ha) as [->|Hlt]; [done|]. exfalso.
        destruct (Hmin (to_candidate w)) as [Heq|Hlt']; [apply Hcand; eauto| |].
        - apply Hinj in Heq as ->; [|done..]. by apply cmp_lt_irrefl in Hlt.
        - rewrite !Hk in Hlt' by done. apply (cmp_lt_irrefl (key_at i w)). by eapply cmp_lt_trans. }
      rewrite (named_commits i rs r e Hb Hr Hd) in Et by done. rewrite Hk in Et by done.
      eexists _, _, _. split_and!; [exact Et|done..].
Qed.

(** A hash that depends on every byte, for examples with several messages. *)
Definition mix_hash : Blake3 := λ m, to_be_bytes 32 (foldl (λ a b, (a * 257 + b + 1) mod 2^48)%Z 0%Z m).

#[export] Instance mix_hash_laws : @Blake3Laws mix_hash.
Proof. split; intros m; [apply length_to_be_bytes|apply to_be_bytes_are_bytes]. Qed.

(** Three named candidates of one world; the guard rejects the second. *)
Definition demo_register (s : FiniteCandidateRegime * Interner) (name : string) (dst : ConfigId) (priority : Z) :
    FiniteCandidateRegime * Interner :=
  default s ((λ '(_, r, i), (r, i)) <$> @register_named_candidate mix_hash s.1 s.2 name (demo_id 1) dst priority).
Definition demo_frontier0 : FiniteCandidateRegime * Interner := (@default_regime mix_hash, interner_new).
Definition demo_frontier1 := demo_register demo_frontier0 "later" (demo_id 2) 7.
Definition demo_frontier2 := demo_register demo_frontier1 "closed" (demo_id 3) 1.
Definition demo_frontier := demo_register demo_frontier2 "sooner" (demo_id 4) 2.
Definition demo_guard : AdmissionPolicy := GuardPolicy (λ _ n, negb (String.eqb (nc_name n) "closed")).
Definition demo_at : ExecConfig := mkExec (mkHandle 0) (mkHandle 0) (mkDigest []).
Definition demo_pool : list NamedCandidate := pool_at demo_frontier.1 demo_at.
Definition demo_key_of (c : Candidate) : Key :=
  match list_find (λ n, to_candidate n = c) demo_pool with
  | Some (_, n) => @key_at mix_hash demo_frontier.2 n | None => mkKey 0 0 (mkDigest []) end.
Definition demo_named_keyer (ks : unit) (c : Candidate) (phase : Z) : Key * unit := (demo_key_of c, ks).

Lemma demo_register_built s name dst priority :
  id_ok dst → @regimes_built mix_hash s.2 [RFinite s.1] →
  (Z.of_nat (interner_len (demo_register s name dst priority).2) ≤ 2^32)%Z →
  @regimes_built mix_hash (demo_register s name dst priority).2 [RFinite (demo_register s name dst priority).1].
Proof.
  intros Hok Hb. unfold demo_register.
  destruct (register_named_candidate s.1 s.2 name (demo_id 1) dst priority) as [[[nc r1] i1]|] eqn:E; [|done].
  cbn. intros Hlen.
  apply (@built_candidate mix_hash s.2 [RFinite s.1] 0 s.1 name (demo_id 1) dst priority nc); try done. by apply demo_id_ok.
Qed.

Lemma demo_frontier_built : @regimes_built mix_hash demo_frontier.2 [RFinite demo_frontier.1].
Proof.
  do 3 (apply demo_register_built; [by apply demo_id_ok| |vm_compute; intros Hc; discriminate Hc]).
  apply (@built_finite mix_hash interner_new []); [apply built_start; constructor|].
  apply (@from_canon_ok mix_hash mix_hash_laws).
Qed.

Lemma deliberation_exact_witness :
  ∃ ev c, @evaluate mix_hash demo_guard demo_at demo_frontier.2 demo_pool = Some ev ∧
    deliberation_outcome ev = Ok (DoSelected (@key_at mix_hash demo_frontier.2 c) c) ∧ nc_name c = "sooner".
Proof.
  destruct (@deliberation_exact mix_hash demo_guard demo_at demo_frontier.2 (@key_at mix_hash demo_frontier.2) demo_pool)
    as (ev & E & _ & Hev).
  - apply (@pool_keyed mix_hash mix_hash_laws demo_frontier.2 [RFinite demo_frontier.1]);
      [exact demo_frontier_built|constructor].
  - assert (match @evaluate mix_hash demo_guard demo_at demo_frontier.2 demo_pool with
      | Some ev => match ev_selected ev, fault ev with
        | Some (_, c), None => String.eqb (nc_name c) "sooner" | _, _ => false end
      | None => false end = true) as Hc by (vm_compute; reflexivity).
    rewrite E in Hc. destruct (ev_selected ev) as [[k c]|]; [|discriminate Hc].
    destruct (fault ev); [discriminate Hc|]. destruct Hev as (_ & (Hk & _ & Ho) & _).
    exists ev, c. split_and!; [exact E|rewrite <-Hk; exact Ho|by apply String.eqb_eq].
Defined.

Lemma deliberation_commits_witness :
  ∃ s cost ks' o e', @try_commit_tick mix_hash (λ s, s) unit demo_named_keyer [@finite_provider mix_hash demo_frontier.1]
      (PolicyToAdmAdapter demo_guard demo_pool) demo_frontier.2 demo_at (demo_id 9) 0 tt = Some (Ok (Step o e', Some s, cost), ks') ∧
    step_dst s = demo_id 4.
Proof.
  destruct (@deliberation_commits mix_hash mix_hash_laws (λ s, s) unit demo_named_keyer demo_key_of demo_frontier.2
    [RFinite demo_frontier.1] demo_frontier.1 demo_at demo_guard (demo_id 9) 0 tt) as (ev & ks' & E & Ht).
  - exact demo_frontier_built.
  - constructor.
  - intros n1 n2 H1%list_elem_of_In H2%list_elem_of_In Heq. change (pool_at demo_frontier.1 demo_at) with demo_pool in H1, H2.
    assert (forallb (λ n1, forallb (λ n2, negb (bool_decide (nc_witness_handle n1 = nc_witness_handle n2)) ||
      bool_decide (n1 = n2)) demo_pool) demo_pool = true) as Hd by (vm_compute; reflexivity).
    rewrite forallb_forall in Hd. specialize (Hd n1 H1). rewrite forallb_forall in Hd. specialize (Hd n2 H2).
    rewrite bool_decide_eq_true_2 in Hd by exact Heq. by apply bool_decide_eq_true in Hd.
  - intros n d _. unfold demo_guard, GuardPolicy. by destruct (negb _).
  - done.
  - intros n Hn%list_elem_of_In. change (pool_at demo_frontier.1 demo_at) with demo_pool in Hn.
    assert (forallb (λ n, bool_decide (demo_key_of (to_candidate n) = @key_at mix_hash demo_frontier.2 n)) demo_pool = true)
      as Hd by (vm_compute; reflexivity).
    rewrite forallb_forall in Hd. specialize (Hd n Hn). by apply bool_decide_eq_true in Hd.
  - assert (match @evaluate mix_hash demo_guard demo_at demo_frontier.2 demo_pool with
      | Some ev => match deliberation_outcome ev with
        | Ok (DoSelected _ c) => bool_decide (nc_dst c = demo_id 4) | _ => false end
      | None => false end = true) as Hc by (vm_compute; reflexivity).
    change (pool_at demo_frontier.1 demo_at) with demo_pool in E, Ht. rewrite E in Hc.
    destruct (deliberation_outcome ev) as [[k c|]|]; [|discriminate Hc|discriminate Hc].
    destruct Ht as (o & s & cost & Ht & _ & _ & Hd & _). exists s, cost, ks', o. eexists. split; [exact Ht|].
    rewrite Hd. by apply bool_decide_eq_true in Hc.
Defined.

Lemma canonical_keys_bind_witness :
  let c := with_handles "a" (demo_id 0) (demo_id 1) (demo_id 2) (mkHandle 0) (mkHandle 1) (mkHandle 0) 3 in
  let d := with_handles "b" (demo_id 0) (demo_id 1) (demo_id 2) (mkHandle 0) (mkHandle 1) (mkHandle 0) 3 in
  let id := mkCanonicalCandidate (demo_id 0) demo_config demo_config in
  (nc_phase c = nc_phase d ∧ nc_priority c = nc_priority d ∧ id = id) ∨
  @collision demo_hash (message (tiebreak_bytes id)) (message (tiebreak_bytes id)).
Proof.
  intros c d id.
  set (i := mkInterner ∅ [demo_config; demo_config]).
  apply (@canonical_keys_bind demo_hash c d id id i
    (mkKey 0 3 (@digest_of demo_hash Value (tiebreak_bytes id)))); try reflexivity.
  all: split; [by apply demo_id_ok|split; apply (@demo_id_ok KConfig 7); done].
Defined.
