(* ===== verification/Auditing.v ===== *)
(** The audit checker and its receipts (src/crates/soc-core/src/: audit.rs,
    audit_receipt.rs).

    [audit_step] replays a committed step against the log and publishes [Audited];
    the receipt records the environment of the replay, and its checks, on values and
    on bytes, rerun the audit and compare. *)
From S2P Require Import Prelude IntCodec Canon CanonLaws Witness Encoding Calendar Outcome.
From S2P Require Import Derivation Publication Settlement Journal Commit.

Definition AUDIT_RECEIPT_MARKER_V1 : string := "brix.soc.audit-receipt".
Definition AUDIT_RECEIPT_VERSION_V1 : Z := 1.
Definition AUDIT_PROFILE_V1 : string := "brix.soc.audit-factorization@1".

Record SettlementAuditReceiptV1 : Type := mkReceipt {
  rc_context : ContextId;
  rc_committed_step : Digest;
  rc_verified_decomposition : Id KDecomposition;
  rc_registry : GeneratorRegistryId;
  rc_semantics : Id KGeneratorSemanticsV1
}.
#[export] Instance SettlementAuditReceiptV1_eq_dec : EqDecision SettlementAuditReceiptV1.
Proof. solve_decision. Defined.

#[export] Instance Canonical_Receipt : Canonical SettlementAuditReceiptV1 := λ r w,
  w |> write_bytes (bytes_of_string AUDIT_RECEIPT_MARKER_V1) |> write_uint AUDIT_RECEIPT_VERSION_V1
    |> write_str (bytes_of_string AUDIT_PROFILE_V1) |> canon_write (rc_context r)
    |> write_bytes (as_bytes (rc_committed_step r)) |> canon_write (rc_verified_decomposition r)
    |> canon_write (rc_registry r) |> canon_write (rc_semantics r).

(** [SettlementAuditReceiptIdV1::of]. *)
Definition receipt_id `{Blake3} (r : SettlementAuditReceiptV1) : Digest := digest_of Value (canon_bytes r).

Record AuditedStep : Type := mkAudited {
  audited : Judgement;
  audited_id : Id KJudgement;
  derived_id : Id KJudgement;
  link : Dependency;
  verified : Decomposition;
  receipt : SettlementAuditReceiptV1
}.

Inductive AuditResult : Type :=
  | ResAudited (a : AuditedStep)
  | ResUnknown (reason : string).

Section audit.
Context `{Blake3}.

Definition committed_step_digest (step : CommittedStep) : Digest := digest_of Value (canon_bytes step).

Definition issue_receipt (step : CommittedStep) (context : ContextId) (registry : GeneratorRegistry)
    (semantics : GeneratorSemanticsV1) (verified : Id KDecomposition) : SettlementAuditReceiptV1 :=
  mkReceipt context (committed_step_digest step) verified (registry_id registry) (semantics_id semantics).

(** [None] is a panic of the replay (an index out of range). *)
Definition audit_step (step : CommittedStep) (context : ContextId) (registry : GeneratorRegistry)
    (semantics : GeneratorSemanticsV1) : option AuditResult :=
  let d := decomposition step in
  if decide (verification d ≠ Recorded) then
    Some (ResUnknown "decomposition is not in recorded form") else
  let proposition :=
    realizes_proposition (mkRealizes (step_witness step) (step_src step) (step_dst step)) in
  let derived_evidence := evidence_id_of (SettlementReplay (digest (decomposition_id d))) in
  let derived_id := recompute context proposition Derived derived_evidence in
  if decide (outcome_class (observation step) ≠ Derived ∨
             judgement_digest (observation step) ≠ digest derived_id) then
    Some (ResUnknown "log integrity: recorded observation does not match the Derived judgement") else
  if decide (head (configs d) ≠ Some (step_src step) ∨ last (configs d) ≠ Some (step_dst step)) then
    Some (ResUnknown "decomposition endpoints do not match the committed step") else
  replayed ← verify_replay d registry semantics;
  match replayed with
  | Err (GeneratorNotInRegistry _ _) =>
    Some (ResUnknown "decomposition cites a generator outside 𝒢")
  | Err (RelationNotRealized _ _ _ _) =>
    Some (ResUnknown "relational composition failed: an intermediate configuration is not realized by its generator")
  | Err (NotRecorded _) => Some (ResUnknown "decomposition is not in recorded form")
  | Err (Semantics _ _) =>
    Some (ResUnknown "declared semantics does not cover a cited generator")
  | Ok verified =>
    match publish AuditChecker context proposition Audited (SSettlement verified) with
    | Err _ => Some (ResUnknown "audited publication refused by the authority fence")
    | Ok audited =>
      Some (ResAudited (mkAudited audited (judgement_id audited) derived_id
        (mkDependency Premise (digest derived_id)) verified
        (issue_receipt step context registry semantics (decomposition_id verified))))
    end
  end.

Definition audit_journal (journal : Journal) (context : ContextId) (registry : GeneratorRegistry)
    (semantics : GeneratorSemanticsV1) : option (list AuditResult) :=
  mapM (λ step, audit_step step context registry semantics) (steps journal).

(** ** Receipts *)

Inductive ReceiptError : Type :=
  | UnexpectedSemantics (expected found : Id KGeneratorSemanticsV1)
  | UnexpectedRegistry (expected found : GeneratorRegistryId)
  | SemanticsRegistryDisagreement
  | ReplayFailed (reason : string)
  | FieldMismatch (field : string)
  | BadMarker
  | UnknownVersion (v : Z)
  | UnknownProfile
  | TrailingBytes
  | ReceiptBytesTooLarge (limit found : nat)
  | MalformedReceipt (reason : string).

(** The checks on a claim's fields up to and including the rerun of the audit: what
    [check_audit_receipt_v1] and [check_audit_receipt_bytes_v1] share. *)
Definition check_claim (claimed : SettlementAuditReceiptV1) (step : CommittedStep)
    (context : ContextId) (registry : GeneratorRegistry) (semantics : GeneratorSemanticsV1) :
    option (result ReceiptError SettlementAuditReceiptV1) :=
  if decide (rc_semantics claimed ≠ semantics_id semantics) then
    Some (Err (UnexpectedSemantics (semantics_id semantics) (rc_semantics claimed))) else
  if decide (rc_registry claimed ≠ registry_id registry) then
    Some (Err (UnexpectedRegistry (registry_id registry) (rc_registry claimed))) else
  if negb (is_ok (require_matches_registry semantics registry)) then
    Some (Err SemanticsRegistryDisagreement) else
  if decide (rc_context claimed ≠ context) then Some (Err (FieldMismatch "context")) else
  if decide (rc_committed_step claimed ≠ committed_step_digest step) then
    Some (Err (FieldMismatch "committed_step")) else
  res ← audit_step step context registry semantics;
  match res with
  | ResUnknown reason => Some (Err (ReplayFailed reason))
  | ResAudited a =>
    if decide (rc_verified_decomposition claimed ≠ decomposition_id (verified a)) then
      Some (Err (FieldMismatch "verified_decomposition")) else
    Some (Ok (issue_receipt step context registry semantics (decomposition_id (verified a))))
  end.

Definition check_audit_receipt_v1 (receipt : SettlementAuditReceiptV1) (step : CommittedStep)
    (context : ContextId) (registry : GeneratorRegistry) (semantics : GeneratorSemanticsV1) :
    option (result ReceiptError Digest) :=
  rederived ← check_claim receipt step context registry semantics;
  Some (rederived ← rederived;
        if decide (rederived ≠ receipt) then Err (FieldMismatch "receipt") else Ok (receipt_id receipt)).

(** [r.read_bytes().map_err(|_| MalformedReceipt(reason))]. *)
Definition claim_read {A} (rd : Reader A) (reason : string) : ST CanonReader ReceiptError A := λ r,
  let '(res, r') := rd r in (map_err (λ _, MalformedReceipt reason) res, r').

Definition claim_digest (reason short : string) : ST CanonReader ReceiptError Digest :=
  b ← claim_read read_bytes reason;
  if decide (length b = 32) then mret (mkDigest b) else ST_throw (MalformedReceipt short).

(** [ClaimedReceiptV1::decode]; the claimed view has the receipt's fields. *)
Definition claim_decode (b : bytes) (max_receipt_bytes : nat) :
    result ReceiptError SettlementAuditReceiptV1 :=
  if decide (max_receipt_bytes < length b) then Err (ReceiptBytesTooLarge max_receipt_bytes (length b)) else
  ((marker ← claim_read read_bytes "cannot read marker";
    if decide (marker ≠ bytes_of_string AUDIT_RECEIPT_MARKER_V1) then ST_throw BadMarker else
    version ← claim_read read_uint "cannot read version";
    if decide (version ≠ AUDIT_RECEIPT_VERSION_V1) then ST_throw (UnknownVersion version) else
    profile ← claim_read read_bytes "cannot read profile";
    if decide (profile ≠ bytes_of_string AUDIT_PROFILE_V1) then ST_throw UnknownProfile else
    context ← claim_digest "cannot read context" "context digest not 32 bytes";
    committed_step ← claim_digest "cannot read committed_step" "committed_step digest not 32 bytes";
    verified_decomposition ← claim_digest "cannot read verified_decomposition"
      "verified_decomposition digest not 32 bytes";
    registry ← claim_digest "cannot read registry" "registry digest not 32 bytes";
    semantics ← claim_digest "cannot read semantics" "semantics digest not 32 bytes";
    at_end ← (λ r, (Ok (reader_is_empty r), r));
    if negb at_end then ST_throw TrailingBytes else
    mret (mkReceipt (mkId context) committed_step (mkId verified_decomposition) (mkId registry) (mkId semantics)))
   (reader_new b)).1.

Definition check_audit_receipt_bytes_v1 (receipt_bytes : bytes) (step : CommittedStep)
    (context : ContextId) (registry : GeneratorRegistry) (semantics : GeneratorSemanticsV1)
    (max_receipt_bytes : nat) : option (result ReceiptError Digest) :=
  if decide (max_receipt_bytes < length receipt_bytes) then
    Some (Err (ReceiptBytesTooLarge max_receipt_bytes (length receipt_bytes))) else
  match claim_decode receipt_bytes max_receipt_bytes with
  | Err e => Some (Err e)
  | Ok claimed =>
    reissued ← check_claim claimed step context registry semantics;
    Some (reissued ← reissued;
          if decide (canon_bytes reissued ≠ receipt_bytes) then Err (FieldMismatch "receipt")
          else Ok (receipt_id reissued))
  end.
End audit.

(** * What the audit accepts *)

Lemma not_or_ne {A B} `{EqDecision A} `{EqDecision B} (x y : A) (z w : B) :
  ¬ (x ≠ y ∨ z ≠ w) → x = y ∧ z = w.
Proof. destruct (decide (x = y)), (decide (z = w)); tauto. Qed.


(** The judgement the log must carry for a step. *)
Definition derived_judgement `{Blake3} (step : CommittedStep) (context : ContextId) : Judgement :=
  mkJudgement context
    (realizes_proposition (mkRealizes (step_witness step) (step_src step) (step_dst step))) Derived
    (evidence_id_of (SettlementReplay (digest (decomposition_id (decomposition step))))).

(** The artifacts of a successful audit. *)
Definition audit_artifacts `{Blake3} (step : CommittedStep) (context : ContextId)
    (registry : GeneratorRegistry) (semantics : GeneratorSemanticsV1) : AuditedStep :=
  let d := decomposition step in
  let v := mkDecomposition (generators d) (configs d) ReplayVerified in
  let j := mkJudgement context
    (realizes_proposition (mkRealizes (step_witness step) (step_src step) (step_dst step))) Audited
    (support_evidence_id (SSettlement v)) in
  mkAudited j (judgement_id j) (judgement_id (derived_judgement step context))
    (mkDependency Premise (digest (judgement_id (derived_judgement step context)))) v
    (issue_receipt step context registry semantics (decomposition_id v)).

Definition auditable `{Blake3} (step : CommittedStep) (context : ContextId)
    (registry : GeneratorRegistry) (semantics : GeneratorSemanticsV1) : Prop :=
  verification (decomposition step) = Recorded ∧
  observation step = mkObservation Derived (digest (judgement_id (derived_judgement step context))) ∧
  head (configs (decomposition step)) = Some (step_src step) ∧
  last (configs (decomposition step)) = Some (step_dst step) ∧
  factors registry semantics (generators (decomposition step)) (configs (decomposition step)).

Lemma audit_step_spec `{Blake3} step context registry semantics :
  chain_ok (decomposition step) →
  (auditable step context registry semantics ∧
     audit_step step context registry semantics =
       Some (ResAudited (audit_artifacts step context registry semantics))) ∨
  (¬ auditable step context registry semantics ∧
     ∃ reason, audit_step step context registry semantics = Some (ResUnknown reason)).
Proof.
  intros Hd. unfold audit_step, auditable.
  case_decide as Hv; [right; split; [tauto|by eexists]|].
  assert (verification (decomposition step) = Recorded) as Hv' by (by destruct (verification _); [|destruct Hv]).
  case_decide as Ho.
  { right. split; [|by eexists]. intros (_ & Hobs & _). rewrite Hobs in Ho. cbn in Ho.
    by destruct Ho as [Ho|Ho]; apply Ho. }
  case_decide as He; [right; split; [tauto|by eexists]|].
  pose proof (verify_replay_Ok (decomposition step) registry semantics
    (mkDecomposition (generators (decomposition step)) (configs (decomposition step)) ReplayVerified) Hd) as HOk.
  destruct (verify_replay_total (decomposition step) registry semantics Hd) as [[v|e] E]; rewrite E in *; cbn.
  - apply verify_replay_Ok in E as E'; [|done]. destruct E' as (_ & Hf & ->).
    left. split.
    + apply not_or_ne in Ho as [Ho1 Ho2], He as [He1 He2]. split_and!; [done| |done..].
      destruct (observation step) as [o dg]. cbn in Ho1, Ho2. by f_equal.
    + done.
  - right. split; [|by destruct e; eexists]. intros (_ & _ & _ & _ & Hf).
    destruct HOk as [_ HOk]. by discriminate HOk.
Qed.

(** * Receipts *)

Lemma check_claim_spec `{Blake3} claimed step context registry semantics r :
  check_claim claimed step context registry semantics = Some (Ok r) ↔
  ∃ a, audit_step step context registry semantics = Some (ResAudited a) ∧
    require_matches_registry semantics registry = Ok tt ∧
    r = issue_receipt step context registry semantics (decomposition_id (verified a)) ∧ claimed = r.
Proof.
  unfold check_claim. split.
  - case_decide as H1; [done|]. case_decide as H2; [done|].
    destruct (require_matches_registry semantics registry) as [[]|] eqn:H3; cbn; [|done].
    case_decide as H4; [done|]. case_decide as H5; [done|].
    destruct (audit_step step context registry semantics) as [[a|reason]|]; cbn; [|done..].
    case_decide as H6; [done|]. intros [= <-]. exists a. split_and!; [done..|].
    destruct claimed. unfold issue_receipt.
    cbn [rc_context rc_committed_step rc_verified_decomposition rc_registry rc_semantics] in *. by f_equal.
  - intros (a & Ha & Hm & -> & ->). rewrite Hm, Ha. cbn.
    do 5 (rewrite decide_False by (intros Hn; by apply Hn)). done.
Qed.

Lemma receipt_bytes r :
  canon_bytes r = frame (bytes_of_string AUDIT_RECEIPT_MARKER_V1) ++ encode_uint AUDIT_RECEIPT_VERSION_V1 ++
    frame (bytes_of_string AUDIT_PROFILE_V1) ++ frame (as_bytes (digest (rc_context r))) ++
    frame (as_bytes (rc_committed_step r)) ++ frame (as_bytes (digest (rc_verified_decomposition r))) ++
    frame (as_bytes (digest (rc_registry r))) ++ frame (as_bytes (digest (rc_semantics r))) ++ [].
Proof.
  unfold canon_bytes at 1, canon_write at 1, Canonical_Receipt, write_str, write_uint.
  rewrite ?canon_appends, ?canon_bytes_Id, ?write_bytes_app, ?canon_appends, ?canon_bytes_Id, ?write_bytes_app.
  by rewrite app_nil_l, app_nil_r, <-!app_assoc.
Qed.

Definition receipt_ok (r : SettlementAuditReceiptV1) : Prop :=
  id_ok (rc_context r) ∧ digest_ok (rc_committed_step r) ∧ id_ok (rc_verified_decomposition r) ∧
  id_ok (rc_registry r) ∧ id_ok (rc_semantics r).

Lemma length_frame_digest d : digest_ok d → length (frame (as_bytes d)) ≤ 49.
Proof.
  intros [Hl _]. unfold frame. rewrite length_app, Hl.
  pose proof (length_encode_uint (Z.of_nat 32)). lia.
Qed.

Lemma digest_frame_bytes d : digest_ok d → are_bytes (frame (as_bytes d)).
Proof. intros [Hl Hb]. apply frame_are_bytes; [done|]. unfold len_ok. rewrite Hl. int_lia. Qed.

Lemma receipt_reader_ok r : receipt_ok r → reader_ok (reader_new (canon_bytes r)).
Proof.
  intros (H1 & H2 & H3 & H4 & H5). apply reader_new_ok.
  - rewrite receipt_bytes. rewrite !Forall_app. split_and!; try (by apply digest_frame_bytes);
      [apply frame_are_bytes|apply encode_uint_are_bytes|apply frame_are_bytes|constructor];
      first [apply bytes_of_string_are_bytes | apply tag_len_ok; cbn; lia | split; done].
  - unfold len_ok. rewrite receipt_bytes, !length_app.
    pose proof (length_frame_digest _ H1). pose proof (length_frame_digest _ H2).
    pose proof (length_frame_digest _ H3). pose proof (length_frame_digest _ H4).
    pose proof (length_frame_digest _ H5).
    assert (length (frame (bytes_of_string AUDIT_RECEIPT_MARKER_V1)) +
      length (encode_uint AUDIT_RECEIPT_VERSION_V1) +
      length (frame (bytes_of_string AUDIT_PROFILE_V1)) ≤ 1000) by (vm_compute; lia).
    simpl. int_lia.
Qed.

Lemma claim_read_reads {A} (rd : Reader A) enc r (a : A) rest reason :
  reads rd enc a → reader_ok r → remaining r = enc ++ rest →
  ∃ r', claim_read rd reason r = (Ok a, r') ∧ reader_ok r' ∧ remaining r' = rest.
Proof.
  intros Hr Hok Hrem. destruct (reads_advance _ _ _ _ _ Hr Hok Hrem) as (r' & E & ? & ? & _).
  exists r'. unfold claim_read. by rewrite E.
Qed.

Lemma claim_digest_reads r d rest reason short :
  digest_ok d → reader_ok r → remaining r = frame (as_bytes d) ++ rest →
  ∃ r', claim_digest reason short r = (Ok d, r') ∧ reader_ok r' ∧ remaining r' = rest.
Proof.
  intros [Hl _] Hok Hrem.
  destruct (claim_read_reads read_bytes (frame (as_bytes d)) r (as_bytes d) rest reason) as (r' & E & ? & ?); [|done..|].
  - apply read_bytes_reads. rewrite Hl. int_lia.
  - exists r'. unfold claim_digest, mbind, ST_bind. rewrite E, decide_True by done. by destruct d.
Qed.

Lemma claim_decode_complete r max :
  receipt_ok r → length (canon_bytes r) ≤ max → claim_decode (canon_bytes r) max = Ok r.
Proof.
  intros Hr Hmax. pose proof (receipt_reader_ok r Hr) as Hok0. destruct Hr as (H1 & H2 & H3 & H4 & H5).
  unfold claim_decode. rewrite decide_False by lia. unfold mbind, ST_bind.
  assert (remaining (reader_new (canon_bytes r)) = canon_bytes r) as R0 by apply drop_0.
  rewrite receipt_bytes in R0 at 2.
  assert (∀ s, String.length s < 1000 → reads read_bytes (frame (bytes_of_string s)) (bytes_of_string s)) as Htag.
  { intros s Hs. apply read_bytes_reads. pose proof (tag_len_ok s Hs) as Hl. unfold len_ok in Hl. int_lia. }
  edestruct (claim_read_reads read_bytes) as (r1 & -> & Hok1 & R1); [apply Htag|exact Hok0|exact R0|]; [cbn; lia|].
  rewrite decide_False by (intros Hn; by apply Hn).
  edestruct (claim_read_reads read_uint) as (r2 & -> & Hok2 & R2); [apply read_uint_reads|exact Hok1|exact R1|]; [split; done|].
  rewrite decide_False by (intros Hn; by apply Hn).
  edestruct (claim_read_reads read_bytes) as (r3 & -> & Hok3 & R3); [apply Htag|exact Hok2|exact R2|]; [cbn; lia|].
  rewrite decide_False by (intros Hn; by apply Hn).
  edestruct claim_digest_reads as (r4 & -> & Hok4 & R4); [exact H1|exact Hok3|exact R3|].
  edestruct claim_digest_reads as (r5 & -> & Hok5 & R5); [exact H2|exact Hok4|exact R4|].
  edestruct claim_digest_reads as (r6 & -> & Hok6 & R6); [exact H3|exact Hok5|exact R5|].
  edestruct claim_digest_reads as (r7 & -> & Hok7 & R7); [exact H4|exact Hok6|exact R6|].
  edestruct claim_digest_reads as (r8 & -> & Hok8 & R8); [exact H5|exact Hok7|exact R7|].
  rewrite (proj2 (reader_empty_iff r8 Hok8) R8). cbn.
  by destruct r as [[] ? [] [] []].
Qed.

Lemma issued_receipt_ok `{Blake3Laws} step context registry semantics d :
  id_ok context → receipt_ok (issue_receipt step context registry semantics (decomposition_id d)).
Proof. intros Hc. split_and!; [exact Hc|apply digest_of_ok|apply from_canon_ok..]. Qed.

Lemma audit_artifacts_unique `{Blake3} step context registry semantics a :
  chain_ok (decomposition step) →
  audit_step step context registry semantics = Some (ResAudited a) ↔
  auditable step context registry semantics ∧ a = audit_artifacts step context registry semantics.
Proof.
  intros Hd. destruct (audit_step_spec step context registry semantics Hd) as [[Ha ->]|[Ha [reason ->]]].
  - split; [by intros [= <-]|by intros [_ ->]].
  - split; [done|by intros [? _]].
Qed.

Lemma receipt_bytes_inj r1 r2 : receipt_ok r1 → receipt_ok r2 → canon_bytes r1 = canon_bytes r2 → r1 = r2.
Proof.
  intros H1 H2 Heq.
  pose proof (claim_decode_complete r1 _ H1 (le_n _)) as E1.
  pose proof (claim_decode_complete r2 _ H2 (le_n _)) as E2. rewrite Heq in E1. congruence.
Qed.

(** The check of a receipt's bytes reproduces them. *)
Lemma check_receipt_bytes_Ok `{Blake3Laws} b step context registry semantics max id : id_ok context →
  check_audit_receipt_bytes_v1 b step context registry semantics max = Some (Ok id) ↔
  length b ≤ max ∧ ∃ a r, audit_step step context registry semantics = Some (ResAudited a) ∧
    require_matches_registry semantics registry = Ok tt ∧
    r = issue_receipt step context registry semantics (decomposition_id (verified a)) ∧
    b = canon_bytes r ∧ id = receipt_id r.
Proof.
  intros Hc. unfold check_audit_receipt_bytes_v1. split.
  - case_decide as Hlen; [done|]. destruct (claim_decode b max) as [claimed|]; [|done].
    destruct (check_claim claimed step context registry semantics) as [[r'|e]|] eqn:E; cbn; [|done..].
    case_decide as Hr; [done|]. intros [= <-]. split; [lia|].
    apply check_claim_spec in E as (a & Ha & Hm & -> & _). by eexists a, _.
  - intros (Hlen & a & r & Ha & Hm & -> & -> & ->). rewrite decide_False by lia.
    rewrite claim_decode_complete; [|by apply issued_receipt_ok|done].
    rewrite (proj2 (check_claim_spec _ step context registry semantics _)) by eauto. cbn -[canon_bytes].
    by rewrite decide_False by (intros Hn; by apply Hn).
Qed.

Lemma check_receipt_bytes_total `{Blake3} b step context registry semantics max : chain_ok (decomposition step) →
  ∃ r, check_audit_receipt_bytes_v1 b step context registry semantics max = Some r.
Proof.
  intros Hd. unfold check_audit_receipt_bytes_v1, check_claim. case_decide; [by eexists|].
  destruct (claim_decode b max) as [c|]; [|by eexists].
  destruct (audit_step_spec step context registry semantics Hd) as [[_ ->]|[_ [reason ->]]]; cbn;
    repeat case_match; cbn; eauto.
Qed.

(** * Properties *)

(** C2: the audit is exact and sound. It never panics on a decomposition its
    constructor accepts; it publishes [Audited] precisely for a recorded
    decomposition that runs between the step's endpoints, whose links are all
    registered and declared, and whose [Derived] judgement is the one the log
    carries; then the endpoints are in the composed relation [ρ_gn ∘ … ∘ ρ_g1], the
    judgement passes the fence, and a premise edge names the [Derived] judgement.
    Everything else is [Unknown]. *)
Theorem audit_exact `{Blake3} step context registry semantics :
  chain_ok (decomposition step) →
  (∃ r, audit_step step context registry semantics = Some r) ∧
  (∀ a, audit_step step context registry semantics = Some (ResAudited a) ↔
     auditable step context registry semantics ∧ a = audit_artifacts step context registry semantics) ∧
  (∀ a, audit_step step context registry semantics = Some (ResAudited a) →
     composed registry semantics (generators (decomposition step)) (step_src step) (step_dst step) ∧
     publish AuditChecker context (proposition (audited a)) Audited (SSettlement (verified a)) = Ok (audited a) ∧
     is_ok (audited_source_verify (audited a) (SSettlement (verified a))) = true ∧
     edge_kind (link a) = Premise ∧ target (link a) = judgement_digest (observation step)).
Proof.
  intros Hd. split_and!.
  - destruct (audit_step_spec step context registry semantics Hd) as [[_ E]|[_ [reason E]]]; rewrite E; by eexists.
  - intros a. by apply audit_artifacts_unique.
  - intros a [(Hv & Hobs & Hs & Ht & Hf) ->]%audit_artifacts_unique; [|done].
    assert (publish AuditChecker context (proposition (audited (audit_artifacts step context registry semantics)))
      Audited (SSettlement (verified (audit_artifacts step context registry semantics))) =
      Ok (audited (audit_artifacts step context registry semantics))) as Hp
      by (apply publish_Ok; split_and!; [done|left; by eexists|done]).
    split_and!; [apply composed_factors; by exists (configs (decomposition step))|exact Hp| |done|by rewrite Hobs].
    unfold audited_source_verify. rewrite decide_False by (intros Hn; by apply Hn).
    unfold publish in Hp. destruct (check_route AuditChecker Audited _) as [r|e]; [|discriminate Hp].
    cbn -[decide support_evidence_id]. by rewrite decide_False by (intros Hn; by apply Hn).
Qed.

Definition demo_committed `{Blake3} : CommittedStep :=
  committed_step (mkKey 0 0 (mkDigest [])) demo_chain (demo_id 2) (demo_id 3) (demo_id 1) (demo_id 4).

Lemma audit_exact_witness :
  composed {[ demo_id 1 ]} demo_semantics [demo_id 1] (demo_id 2) (demo_id 3).
Proof.
  destruct (@audit_exact demo_hash (@demo_committed demo_hash) (demo_id 4) {[ demo_id 1 ]} demo_semantics eq_refl)
    as (_ & Hiff & Hs).
  apply (Hs (@audit_artifacts demo_hash (@demo_committed demo_hash) (demo_id 4) {[ demo_id 1 ]} demo_semantics)).
  apply Hiff. split; [|reflexivity]. split_and!; [reflexivity..|].
  constructor; [|constructor]. split; [by apply elem_of_singleton|vm_compute; reflexivity].
Defined.

(** What the commit boundary records, the audit accepts up to replay. For a step
    the committed loop built, the log-integrity check always passes: the audit in
    the same context succeeds exactly when the recorded chain runs between the
    resolved endpoints and every link replays, and then the audited witness is the
    composition of the chain's generators. *)
Theorem committed_step_audits `{Blake3} `{UnicodeNfc} k c p i e ctx cm st registry semantics :
  try_commit_selected k c p i e ctx = Ok (cm, st) → chain_ok (decomposition st) →
  ((∃ a, audit_step st ctx registry semantics = Some (ResAudited a)) ↔
     head (configs (decomposition st)) = Some (step_src st) ∧
     last (configs (decomposition st)) = Some (step_dst st) ∧
     factors registry semantics (generators (decomposition st)) (configs (decomposition st))) ∧
  compose_chain (generators (decomposition st)) = Some (step_witness st).
Proof.
  intros (d & src & dst & w & _ & _ & _ & Hw & Hv & -> & _)%try_commit_selected_Ok Hd.
  split; [|exact Hw]. split.
  - intros [a [(_ & _ & Hs & Ht & Hf) _]%audit_artifacts_unique]; [done|exact Hd].
  - intros (Hs & Ht & Hf). eexists. apply audit_artifacts_unique; [exact Hd|]. split; [|reflexivity].
    split_and!; [exact Hv|reflexivity|done..].
Qed.

Lemma committed_step_audits_witness :
  compose_chain (H := demo_hash) [demo_id 1] = Some (mkId (digest (demo_id (k := KGenerator) 1))).
Proof.
  assert (@try_commit_selected demo_hash (λ s, s) (mkKey 0 0 (mkDigest [])) (mkCandidate (mkHandle 5) (mkHandle 1))
    demo_provider demo_interner demo_exec (demo_id 4) =
    Ok (Step (observation (@demo_committed demo_hash)) (@apply demo_hash (λ s, s) demo_exec (mkCandidate (mkHandle 5) (mkHandle 1))),
        @demo_committed demo_hash)) as Hc by (vm_compute; reflexivity).
  exact (proj2 (@committed_step_audits demo_hash (λ s, s) _ _ _ _ _ _ _ _ {[ demo_id 1 ]} demo_semantics Hc eq_refl)).
Defined.

(** The audit does not look at the witness. Take any step the audit accepts and
    any other witness identity: with the log digest recomputed for it, the step is
    accepted again, and an [Audited] judgement that passes the elaboration gate is
    published for a witness that is not the composition of the replayed generators. *)
Theorem audit_ignores_witness `{Blake3} step context registry semantics (w : WitnessId) :
  chain_ok (decomposition step) → auditable step context registry semantics →
  let d := decomposition step in
  let forged := committed_step (key step) d (step_src step) (step_dst step) w context in
  ∃ a, audit_step forged context registry semantics = Some (ResAudited a) ∧
    step_witness forged = w ∧
    proposition (audited a) = realizes_proposition (mkRealizes w (step_src step) (step_dst step)) ∧
    is_ok (audited_source_verify (audited a) (SSettlement (verified a))) = true.
Proof.
  intros Hd (Hv & _ & Hs & Ht & Hf) d forged.
  exists (audit_artifacts forged context registry semantics).
  split; [apply audit_artifacts_unique; [exact Hd|]; split; [|done]; by split_and!|].
  split_and!; [done|done|].
  unfold audited_source_verify. rewrite decide_False by (intros Hn; by apply Hn).
  destruct (check_route_spec AuditChecker Audited
    (SSettlement (verified (audit_artifacts forged context registry semantics))))
    as [[? _]|[(_ & _ & r & ->)|(_ & Hb & _)]]; [done| |destruct Hb; left; by eexists].
  cbn -[decide support_evidence_id]. by rewrite decide_False by (intros Hn; by apply Hn).
Qed.

Lemma audit_ignores_witness_witness :
  ∃ a, @audit_step demo_hash
    (@committed_step demo_hash (mkKey 0 0 (mkDigest [])) demo_chain (demo_id 2) (demo_id 3) (demo_id 99) (demo_id 4))
    (demo_id 4) {[ demo_id 1 ]} demo_semantics = Some (ResAudited a).
Proof.
  destruct (@audit_ignores_witness demo_hash (@demo_committed demo_hash) (demo_id 4) {[ demo_id 1 ]} demo_semantics
    (demo_id 99) eq_refl) as (a & Ha & _).
  - split_and!; [reflexivity..|]. constructor; [|constructor].
    split; [by apply elem_of_singleton|vm_compute; reflexivity].
  - exists a. exact Ha.
Defined.

(** A receipt is accepted only by reproducing it. On values and on bytes alike,
    the check succeeds exactly when the declared semantics agrees with the registry,
    the audit of the step succeeds here and now, and the presented receipt is, byte
    for byte, the one that audit issues; the identity returned is that receipt's.
    It names, unless the messages hashed collide, one context, step, decomposition, registry
    and semantics. *)
Theorem receipt_check_exact `{Blake3Laws} step context registry semantics :
  id_ok context →
  (∀ r id, check_audit_receipt_v1 r step context registry semantics = Some (Ok id) ↔
     ∃ a, audit_step step context registry semantics = Some (ResAudited a) ∧
       require_matches_registry semantics registry = Ok tt ∧
       r = issue_receipt step context registry semantics (decomposition_id (verified a)) ∧ id = receipt_id r) ∧
  (∀ b max id, check_audit_receipt_bytes_v1 b step context registry semantics max = Some (Ok id) ↔
     length b ≤ max ∧ ∃ a r, audit_step step context registry semantics = Some (ResAudited a) ∧
       require_matches_registry semantics registry = Ok tt ∧
       r = issue_receipt step context registry semantics (decomposition_id (verified a)) ∧
       b = canon_bytes r ∧ id = receipt_id r) ∧
  (∀ r1 r2, receipt_ok r1 → receipt_ok r2 → receipt_id r1 = receipt_id r2 → 
     r1 = r2 ∨ collision (message (canon_bytes r1)) (message (canon_bytes r2))).
Proof.
  intros Hc. split_and!.
  - intros r id. unfold check_audit_receipt_v1. split.
    + destruct (check_claim r step context registry semantics) as [[r'|e]|] eqn:E; cbn; [|done..].
      case_decide as Hr; [done|]. intros [= <-]. apply check_claim_spec in E as (a & Ha & Hm & -> & _).
      exists a. split_and!; done.
    + intros (a & Ha & Hm & -> & ->).
      rewrite (proj2 (check_claim_spec _ step context registry semantics _)) by eauto. cbn.
      by rewrite decide_False by (intros Hn; by apply Hn).
  - intros b max id. by apply check_receipt_bytes_Ok.
  - intros r1 r2 H1 H2 Heq. apply digest_of_binds in Heq as [[_ Heq]|?]; [left|by right].
    by apply receipt_bytes_inj.
Qed.

Definition demo_receipt `{Blake3} : SettlementAuditReceiptV1 :=
  receipt (audit_artifacts demo_committed (demo_id 4) {[ demo_id 1 ]} demo_semantics).

Lemma receipt_check_exact_witness :
  @check_audit_receipt_bytes_v1 demo_hash (canon_bytes (@demo_receipt demo_hash)) (@demo_committed demo_hash)
    (demo_id 4) {[ demo_id 1 ]} demo_semantics 1000 =
  Some (Ok (@receipt_id demo_hash (@demo_receipt demo_hash))).
Proof.
  destruct (@receipt_check_exact demo_hash demo_hash_laws (@demo_committed demo_hash) (demo_id 4)
    {[ demo_id 1 ]} demo_semantics) as (_ & Hb & _); [by apply demo_id_ok|].
  apply Hb. split; [apply Nat.leb_le; vm_compute; reflexivity|].
  exists (@audit_artifacts demo_hash (@demo_committed demo_hash) (demo_id 4) {[ demo_id 1 ]} demo_semantics),
    (@demo_receipt demo_hash).
  split_and!; [|vm_compute; reflexivity|reflexivity..].
  apply audit_artifacts_unique; [reflexivity|]. split; [|reflexivity].
  split_and!; [reflexivity..|]. constructor; [|constructor].
  split; [by apply elem_of_singleton|vm_compute; reflexivity].
Defined.
