(* ===== verification/AuditBundle.v ===== *)
(** The settlement audit-input bundle (src/crates/soc-core/src/audit_bundle.rs).

    A bundle carries a journal and its receipts to a verifier. Decoding runs under
    [AuditDecodeLimits], whose cumulative counters ([&mut usize] in the code) are passed
    in and returned; [charge] is their checked addition and bound. A reader of a nested
    frame is a reader of its own. Lengths and counts are [Z], a [usize] has 64 bits. *)
From S2P Require Import Prelude IntCodec Canon CanonLaws Witness Encoding Parsing Calendar Outcome.
From S2P Require Import Derivation Publication Settlement Journal Commit Auditing.

Definition BUNDLE_MARKER_V1 : string := "brix.soc.audit-input-bundle".
Definition BUNDLE_VERSION_V1 : Z := 1.
Definition BUNDLE_PROFILE_V1 : string := "brix.soc.audit-input-bundle@1".

Definition usize_max : Z := 2^64 - 1.

Record AuditDecodeLimits : Type := mkLimits {
  max_total_bundle_bytes : Z;
  max_steps : Z;
  max_entry_bytes : Z;
  max_receipt_bytes : Z;
  max_generators_per_step : Z;
  max_configs_per_step : Z;
  max_cumulative_links : Z;
  max_cumulative_framed_bytes : Z
}.

(** [AuditDecodeLimits::strict], the default. *)
Definition strict : AuditDecodeLimits := {|
  max_total_bundle_bytes := 64 * 1024 * 1024;
  max_steps := 100000;
  max_entry_bytes := 1024 * 1024;
  max_receipt_bytes := 1024 * 1024;
  max_generators_per_step := 4096;
  max_configs_per_step := 4097;
  max_cumulative_links := 1000000;
  max_cumulative_framed_bytes := 64 * 1024 * 1024
|}.

(** * Errors *)

Inductive BundleDecodeError : Type :=
  | TotalBundleBytesExceeded (limit found : Z)
  | StepsExceeded (limit found : Z)
  | EntryBytesExceeded (limit found : Z)
  | ReceiptBytesExceeded (limit found : Z)
  | GeneratorsPerStepExceeded (limit found : Z)
  | ConfigsPerStepExceeded (limit found : Z)
  | CumulativeLinksExceeded (limit found : Z)
  | CumulativeFramedBytesExceeded (limit found : Z)
  | CumulativeLinksOverflow
  | CumulativeFramedBytesOverflow
  | CountOverflow
  | BundleBadMarker
  | BundleUnknownVersion (v : Z)
  | BundleUnknownProfile
  | BadDigestLength (n : Z)
  | ObservationNotDerived (found : Z)
  | ConfigGeneratorMismatch (generators configs : Z)
  | OrdinalMismatch (expected found : Z)
  | TrailingBytesInEntry
  | BundleTrailingBytes
  | BundleUnexpectedEof
  | BundleNonMinimalInt
  | BundleBadLength.

(** [From<CanonError>]. *)
Definition from_canon (e : CanonError) : BundleDecodeError :=
  match e with
  | UnexpectedEof => BundleUnexpectedEof
  | NonMinimalInt => BundleNonMinimalInt
  | BadLength => BundleBadLength
  end.

Inductive SnapshotValidationError : Type :=
  | SnapshotOrdinalMismatch (expected found : Z)
  | PrefixDigestMismatch (ordinal : Z) (expected found : Digest)
  | FinalChainDigestMismatch (expected found : Digest)
  | SnapshotDecomposition (e : DecompositionError).

Inductive BundleProducerError : Type :=
  | StepAuditUnknown (ordinal : Z) (reason : string)
  | ProducerObservationNotDerived (ordinal : Z) (found : Outcome)
  | ChainDigestMismatch (expected recomputed : Digest)
  | ProducerLimitExceeded (e : BundleDecodeError).

Inductive BundleCheckError : Type :=
  | SnapshotValidation (e : SnapshotValidationError)
  | CheckReceipt (ordinal : Z) (error : ReceiptError)
  | CheckDecomposition (ordinal : Z) (error : DecompositionError)
  | CheckLimitExceeded (e : BundleDecodeError).

(** * The bundle *)

(** The transport projection of a committed step: no verification tag. *)
Record RecordedStepMaterialV1 : Type := mkMaterial {
  m_key : Key;
  m_observation : Observation;
  m_generators : list GeneratorId;
  m_configs : list ConfigId;
  m_src : ConfigId;
  m_dst : ConfigId;
  m_witness : WitnessId
}.

Definition to_committed_step (m : RecordedStepMaterialV1) : result DecompositionError CommittedStep :=
  d ← recorded (m_generators m) (m_configs m);
  Ok (mkCommitted (m_key m) (m_observation m) d (m_src m) (m_dst m) (m_witness m)).

(** [From<&CommittedStep>]. *)
Definition material_of (step : CommittedStep) : RecordedStepMaterialV1 :=
  mkMaterial (key step) (observation step) (generators (decomposition step)) (configs (decomposition step))
    (step_src step) (step_dst step) (step_witness step).

#[export] Instance Canonical_Material : Canonical RecordedStepMaterialV1 := λ m w,
  w |> canon_write (m_key m) |> canon_write (m_observation m)
    |> write_list (canon_bytes <$> m_generators m) |> write_list (canon_bytes <$> m_configs m)
    |> canon_write (m_src m) |> canon_write (m_dst m) |> canon_write (m_witness m).

Record Entry : Type := mkEntry {
  e_ordinal : Z;
  prefix_digest : Digest;
  step_material : RecordedStepMaterialV1;
  e_receipt_bytes : bytes
}.

#[export] Instance Canonical_Entry : Canonical Entry := λ e w,
  w |> write_uint (e_ordinal e) |> write_bytes (as_bytes (prefix_digest e))
    |> canon_write (step_material e) |> write_bytes (e_receipt_bytes e).

Record SettlementAuditInputBundleV1 : Type := mkBundle {
  b_context : ContextId;
  b_entries : list Entry;
  final_chain_digest : Digest
}.

#[export] Instance Canonical_Bundle : Canonical SettlementAuditInputBundleV1 := λ b w,
  w |> write_bytes (bytes_of_string BUNDLE_MARKER_V1) |> write_uint BUNDLE_VERSION_V1
    |> write_str (bytes_of_string BUNDLE_PROFILE_V1) |> canon_write (b_context b)
    |> write_list (canon_bytes <$> b_entries b) |> write_bytes (as_bytes (final_chain_digest b)).

(** [SettlementAuditInputBundleIdV1::of]. *)
Definition bundle_id `{Blake3} (b : SettlementAuditInputBundleV1) : Digest := digest_of Value (canon_bytes b).

(** * Decoding *)

Abbreviation BundleReader := (ST CanonReader BundleDecodeError).

(** [checked_add] on a counter, then its bound. *)
Definition charge (overflow : BundleDecodeError) (exceeded : Z → Z → BundleDecodeError) (max counter n : Z) :
    result BundleDecodeError Z :=
  let total := (counter + n)%Z in
  if decide (usize_max < total)%Z then Err overflow
  else if decide (max < total)%Z then Err (exceeded max total)
  else Ok total.

Definition charge_framed : Z → Z → Z → result BundleDecodeError Z :=
  charge CumulativeFramedBytesOverflow CumulativeFramedBytesExceeded.
Definition charge_links : Z → Z → Z → result BundleDecodeError Z :=
  charge CumulativeLinksOverflow CumulativeLinksExceeded.

Definition blen (b : bytes) : Z := Z.of_nat (length b).

(** [bytes.try_into()] of a digest. *)
Definition to_array (b : bytes) : result BundleDecodeError Digest :=
  if decide (length b = 32) then Ok (mkDigest b) else Err (BadDigestLength (blen b)).

(** A frame, charged to the framed bytes before anything else. *)
Definition read_framed (max framed : Z) : BundleReader (bytes * Z) :=
  b ← read_as from_canon read_bytes;
  framed ← ST_lift (charge_framed max framed (blen b));
  mret (b, framed).

Definition read_digest_framed (framed max : Z) : BundleReader (Digest * Z) :=
  '(b, framed) ← read_framed max framed;
  d ← ST_lift (to_array b);
  mret (d, framed).

(** The item is itself a frame within a frame. *)
Definition read_id_from_list_item (framed max : Z) : BundleReader (Digest * Z) :=
  '(item, framed) ← read_framed max framed;
  '(b, framed) ← ST_lift (read_all (read_framed max framed) TrailingBytesInEntry item);
  d ← ST_lift (to_array b);
  mret (d, framed).

(** The loop over [count] items, with the counter. *)
Fixpoint read_ids (max : Z) (count : nat) (framed : Z) : BundleReader (list Digest * Z) :=
  match count with
  | O => mret ([], framed)
  | S n =>
    '(d, framed) ← read_id_from_list_item framed max;
    '(l, framed) ← read_ids max n framed;
    mret (d :: l, framed)
  end.

(** [usize::try_from] of a [u64] count. *)
Definition read_count : BundleReader Z :=
  n ← read_as from_canon read_uint;
  if decide (usize_max < n)%Z then ST_throw CountOverflow else mret n.

Section limits.
Context (limits : AuditDecodeLimits).
Abbreviation framed_max := (max_cumulative_framed_bytes limits).

(** [RecordedStepMaterialV1::decode]: the material and the two counters. *)
Definition decode_material (links framed : Z) : BundleReader (RecordedStepMaterialV1 * Z * Z) :=
  phase ← read_as from_canon read_uint;
  priority ← read_as from_canon read_uint;
  '(tiebreak, framed) ← read_digest_framed framed framed_max;
  outcome_ordinal ← read_as from_canon read_uint;
  if decide (outcome_ordinal ≠ 2)%Z then ST_throw (ObservationNotDerived outcome_ordinal) else
  '(judgement, framed) ← read_digest_framed framed framed_max;
  g_count ← read_count;
  if decide (max_generators_per_step limits < g_count)%Z
  then ST_throw (GeneratorsPerStepExceeded (max_generators_per_step limits) g_count) else
  links ← ST_lift (charge_links (max_cumulative_links limits) links g_count);
  '(gs, framed) ← read_ids framed_max (Z.to_nat g_count) framed;
  c_count ← read_count;
  if decide (max_configs_per_step limits < c_count)%Z
  then ST_throw (ConfigsPerStepExceeded (max_configs_per_step limits) c_count) else
  if decide (c_count ≠ g_count + 1)%Z then ST_throw (ConfigGeneratorMismatch g_count c_count) else
  '(cs, framed) ← read_ids framed_max (Z.to_nat c_count) framed;
  '(src, framed) ← read_digest_framed framed framed_max;
  '(dst, framed) ← read_digest_framed framed framed_max;
  '(witness, framed) ← read_digest_framed framed framed_max;
  mret (mkMaterial (mkKey phase priority tiebreak) (mkObservation Derived judgement)
          (mkId <$> gs) (mkId <$> cs) (mkId src) (mkId dst) (mkId witness), links, framed).

(** The fields of an entry, inside its frame. *)
Definition decode_entry_fields (expected links framed : Z) : BundleReader (Entry * Z * Z) :=
  ordinal ← read_as from_canon read_uint;
  if decide (ordinal ≠ expected)%Z then ST_throw (OrdinalMismatch expected ordinal) else
  '(prefix, framed) ← read_digest_framed framed framed_max;
  '(m, links, framed) ← decode_material links framed;
  receipt ← read_as from_canon read_bytes;
  if decide (max_receipt_bytes limits < blen receipt)%Z
  then ST_throw (ReceiptBytesExceeded (max_receipt_bytes limits) (blen receipt)) else
  framed ← ST_lift (charge_framed framed_max framed (blen receipt));
  mret (mkEntry ordinal prefix m receipt, links, framed).

(** [Entry::decode]. *)
Definition decode_entry (expected links framed : Z) : BundleReader (Entry * Z * Z) :=
  frame ← read_as from_canon read_bytes;
  if decide (max_entry_bytes limits < blen frame)%Z
  then ST_throw (EntryBytesExceeded (max_entry_bytes limits) (blen frame)) else
  framed ← ST_lift (charge_framed framed_max framed (blen frame));
  ST_lift (read_all (decode_entry_fields expected links framed) TrailingBytesInEntry frame).

Fixpoint decode_entries (count : nat) (i links framed : Z) : BundleReader (list Entry * Z * Z) :=
  match count with
  | O => mret ([], links, framed)
  | S n =>
    '(e, links, framed) ← decode_entry i links framed;
    '(l, links, framed) ← decode_entries n (i + 1) links framed;
    mret (e :: l, links, framed)
  end.

Definition decode_bundle_fields : BundleReader SettlementAuditInputBundleV1 :=
  '(marker, framed) ← read_framed framed_max 0;
  if decide (marker ≠ bytes_of_string BUNDLE_MARKER_V1) then ST_throw BundleBadMarker else
  version ← read_as from_canon read_uint;
  if decide (version ≠ BUNDLE_VERSION_V1) then ST_throw (BundleUnknownVersion version) else
  '(profile, framed) ← read_framed framed_max framed;
  if decide (profile ≠ bytes_of_string BUNDLE_PROFILE_V1) then ST_throw BundleUnknownProfile else
  '(context, framed) ← read_digest_framed framed framed_max;
  steps_count ← read_count;
  if decide (max_steps limits < steps_count)%Z
  then ST_throw (StepsExceeded (max_steps limits) steps_count) else
  '(entries, _, framed) ← decode_entries (Z.to_nat steps_count) 0 0 framed;
  '(final, _) ← read_digest_framed framed framed_max;
  mret (mkBundle (mkId context) entries final).

Definition decode_audit_input_bundle_v1 (b : bytes) : result BundleDecodeError SettlementAuditInputBundleV1 :=
  if decide (max_total_bundle_bytes limits < blen b)%Z
  then Err (TotalBundleBytesExceeded (max_total_bundle_bytes limits) (blen b))
  else read_all decode_bundle_fields BundleTrailingBytes b.

(** * Limits on a typed bundle *)

(** The loop body of [validate_bundle_limits]: the counters after an entry. *)
Definition validate_entry (links framed : Z) (entry : Entry) : result BundleDecodeError (Z * Z) :=
  let m := step_material entry in
  if decide (outcome_class (m_observation m) ≠ Derived)
  then Err (ObservationNotDerived (ordinal (outcome_class (m_observation m)))) else
  let g_count := Z.of_nat (length (m_generators m)) in
  if decide (max_generators_per_step limits < g_count)%Z
  then Err (GeneratorsPerStepExceeded (max_generators_per_step limits) g_count) else
  links ← charge_links (max_cumulative_links limits) links g_count;
  let c_count := Z.of_nat (length (m_configs m)) in
  if decide (max_configs_per_step limits < c_count)%Z
  then Err (ConfigsPerStepExceeded (max_configs_per_step limits) c_count) else
  if decide (c_count ≠ g_count + 1)%Z then Err (ConfigGeneratorMismatch g_count c_count) else
  if decide (max_receipt_bytes limits < blen (e_receipt_bytes entry))%Z
  then Err (ReceiptBytesExceeded (max_receipt_bytes limits) (blen (e_receipt_bytes entry))) else
  let entry_len := blen (canon_bytes entry) in
  if decide (max_entry_bytes limits < entry_len)%Z
  then Err (EntryBytesExceeded (max_entry_bytes limits) entry_len) else
  framed ← charge_framed framed_max framed entry_len;
  framed ← charge_framed framed_max framed 32;
  framed ← charge_framed framed_max framed 32;
  framed ← charge_framed framed_max framed 32;
  if decide (usize_max < g_count * (34 + 32))%Z then Err CumulativeFramedBytesOverflow else
  framed ← charge_framed framed_max framed (g_count * (34 + 32));
  if decide (usize_max < c_count * (34 + 32))%Z then Err CumulativeFramedBytesOverflow else
  framed ← charge_framed framed_max framed (c_count * (34 + 32));
  framed ← charge_framed framed_max framed 96;
  framed ← charge_framed framed_max framed (blen (e_receipt_bytes entry));
  Ok (links, framed).

Fixpoint validate_entries (links framed : Z) (entries : list Entry) : result BundleDecodeError (Z * Z) :=
  match entries with
  | [] => Ok (links, framed)
  | e :: l => '(links, framed) ← validate_entry links framed e; validate_entries links framed l
  end.

Definition validate_bundle_limits (b : SettlementAuditInputBundleV1) : result BundleDecodeError unit :=
  let n := Z.of_nat (length (b_entries b)) in
  if decide (max_steps limits < n)%Z then Err (StepsExceeded (max_steps limits) n) else
  framed ← charge_framed framed_max 0 (blen (bytes_of_string BUNDLE_MARKER_V1));
  framed ← charge_framed framed_max framed (blen (bytes_of_string BUNDLE_PROFILE_V1));
  framed ← charge_framed framed_max framed 32;
  '(_, framed) ← validate_entries 0 framed (b_entries b);
  framed ← charge_framed framed_max framed 32;
  let total := blen (canon_bytes b) in
  if decide (max_total_bundle_bytes limits < total)%Z
  then Err (TotalBundleBytesExceeded (max_total_bundle_bytes limits) total) else
  Ok tt.

Definition encode_audit_input_bundle_v1 (b : SettlementAuditInputBundleV1) : result BundleDecodeError bytes :=
  _ ← validate_bundle_limits b; Ok (canon_bytes b).
End limits.
