(* ===== verification/BundleCodec.v ===== *)
(** The bundle's codec is exact (src/crates/soc-core/src/audit_bundle.rs).

    The grammar the decoder accepts, frame by frame, with the work each field is charged:
    decoding under limits accepts the encodings of the bundles that [validate_bundle_limits]
    admits under the same limits, and no others. *)
From S2P Require Import Prelude IntCodec Canon CanonLaws Witness Encoding Parsing Calendar Outcome.
From S2P Require Import Derivation Publication Settlement Journal Commit Auditing AuditBundle.

(** * Readers with a counter *)

Section readers.
Context {E : Type}.

Lemma parses_are_bytes {A} (rd : ST CanonReader E A) P : parses rd P → parses rd (λ a b, P a b ∧ are_bytes b).
Proof.
  intros [H1 H2]. split.
  - intros r a r' Hok Hr. destruct (H1 r a r' Hok Hr) as (b & Hp & Hrem & Hok'). exists b. split_and!; try done.
    pose proof (remaining_are_bytes r Hok) as Hb. rewrite Hrem in Hb. by apply Forall_app in Hb as [? _].
  - intros r a b rest [Hp _]. by apply H2.
Qed.

(** The continuation may use what the field satisfies. *)
Lemma parses_then {A B} (rd : ST CanonReader E A) (f : A → ST CanonReader E B) P Q :
  parses rd P → (∀ a b, P a b → parses (f a) (Q a)) →
  parses (rd ≫= f) (λ c b, ∃ a b1 b2, P a b1 ∧ Q a c b2 ∧ b = b1 ++ b2).
Proof.
  intros [H1 H2] Hf. split.
  - intros r c r' Hok (a & r1 & Ha & Hc)%ST_bind_Ok.
    destruct (H1 _ _ _ Hok Ha) as (b1 & Hb1 & Hrem1 & Hok1).
    destruct (proj1 (Hf a b1 Hb1) _ _ _ Hok1 Hc) as (b2 & Hb2 & Hrem2 & Hok2).
    exists (b1 ++ b2). rewrite Hrem1, Hrem2, <-app_assoc. split_and!; [by eexists _, _, _|done..].
  - intros r c b rest (a & b1 & b2 & Hb1 & Hb2 & ->) Hok [Hby1 Hby2]%Forall_app Hrem.
    rewrite <-app_assoc in Hrem.
    destruct (H2 _ _ _ _ Hb1 Hok Hby1 Hrem) as (r1 & Ha & Hok1 & Hrem1).
    destruct (proj2 (Hf a b1 Hb1) _ _ _ _ Hb2 Hok1 Hby2 Hrem1) as (r2 & Hc & Hok2 & Hrem2).
    exists r2. unfold mbind, ST_bind. by rewrite Ha.
Qed.

Lemma parses_uint_then {B} conv (f : Z → ST CanonReader E B) Q :
  (∀ v, u64_ok v → parses (f v) (Q v)) →
  parses (v ← read_as conv read_uint; f v) (λ c b, ∃ v b2, u64_ok v ∧ Q v c b2 ∧ b = encode_uint v ++ b2).
Proof.
  intros Hf. eapply parses_ext.
  { eapply parses_then; [apply parses_uint|]. intros v b [Hv _]. by apply Hf. }
  intros c b. simpl. naive_solver.
Qed.

Definition payload_wf (v : bytes) : Prop := are_bytes v ∧ len_ok v.

Lemma parses_frame_then {B} conv (f : bytes → ST CanonReader E B) Q :
  (∀ v, payload_wf v → parses (f v) (Q v)) →
  parses (v ← read_as conv read_bytes; f v) (λ c b, ∃ v b2, payload_wf v ∧ Q v c b2 ∧ b = frame v ++ b2).
Proof.
  intros Hf. eapply parses_ext.
  { eapply parses_then; [apply parses_are_bytes, parses_bytes|]. intros v b [[Hl ->] Hb]. apply Hf.
    unfold frame in Hb. apply Forall_app in Hb as [_ Hb]. by split. }
  intros c b. simpl. split.
  - intros (v & b1 & b2 & [[Hl ->] Hb] & Hq & ->). unfold frame in Hb. apply Forall_app in Hb as [_ Hb].
    exists v, b2. split_and!; done.
  - intros (v & b2 & [Hb Hl] & Hq & ->). exists v, (frame v), b2. split_and!; try done. by apply frame_are_bytes.
Qed.

Lemma parses_lift_then {A B} (m : result E A) (f : A → ST CanonReader E B) Q :
  (∀ a, m = Ok a → parses (f a) (Q a)) →
  parses (a ← ST_lift m; f a) (λ c b, ∃ a, m = Ok a ∧ Q a c b).
Proof.
  intros Hf. eapply parses_ext.
  { eapply parses_then; [apply parses_lift|]. intros a b [Ha _]. by apply Hf. }
  intros c b. simpl. split; [intros (a & ? & b2 & [Ha ->] & Hq & ->); eauto|].
  intros (a & Ha & Hq). by eexists a, [], b.
Qed.

Lemma parses_guard_then {B} (C : Prop) `{Decision C} (e : E) (rd : ST CanonReader E B) P :
  (¬ C → parses rd P) → parses (if decide C then ST_throw e else rd) (λ a b, ¬ C ∧ P a b).
Proof. apply parses_guard. Qed.

(** A reader in a frame of its own. *)
Lemma parses_inner {A} (rd : ST CanonReader E A) trailing v P : payload_wf v → parses rd P →
  parses (ST_lift (read_all rd trailing v)) (λ a b, P a v ∧ b = []).
Proof.
  intros [Hb Hl] Hrd. eapply parses_ext; [apply parses_lift|]. intros a b. simpl.
  by rewrite (read_all_exact rd P trailing v a Hrd Hb Hl).
Qed.
End readers.

Definition counter_ok (max c : Z) : Prop := (0 ≤ c ≤ max ∧ max ≤ usize_max)%Z.

Lemma charge_Ok o e max c n t : (max ≤ usize_max)%Z → charge o e max c n = Ok t ↔ (t = c + n ∧ c + n ≤ max)%Z.
Proof. intros Hm. unfold charge. repeat case_decide; split; intros; simplify_eq; try lia; f_equal; lia. Qed.

Lemma to_array_Ok b d : to_array b = Ok d ↔ length b = 32 ∧ d = mkDigest b.
Proof. unfold to_array. case_decide; naive_solver. Qed.

Lemma length_frame_32 b : length b = 32 → length (frame b) = 34.
Proof. intros Hl. unfold frame. rewrite length_app, Hl. reflexivity. Qed.

(** A field that charges [cost] to the counter. *)
Definition charged {A} (max : Z) (rd : Z → BundleReader (A * Z)) (ok : A → Prop) (enc : A → bytes) (cost : A → Z) : Prop :=
  ∀ f, counter_ok max f → parses (rd f) (λ r b, ok r.1 ∧ r.2 = f + cost r.1 ∧ f + cost r.1 ≤ max ∧ b = enc r.1)%Z.

(** The fields that follow a charged one. *)
Lemma charged_then {A B} max rd ok enc cost f (k : A → Z → BundleReader B) Q :
  charged max rd ok enc cost → (∀ a, ok a → 0 ≤ cost a)%Z → counter_ok max f →
  (∀ a f', ok a → f' = (f + cost a)%Z → counter_ok max f' → parses (k a f') (Q a f')) →
  parses ('(a, f') ← rd f; k a f')
    (λ c b, ∃ a b2, ok a ∧ (f + cost a ≤ max)%Z ∧ Q a (f + cost a)%Z c b2 ∧ b = enc a ++ b2).
Proof.
  intros Hrd Hcost Hf Hk. eapply parses_ext.
  { eapply (parses_then _ _ _ (λ r, Q r.1 r.2)); [by apply Hrd|]. intros [a f'] b (Ha & He & Hm & _). cbn in *.
    apply Hk; [done..|]. specialize (Hcost a Ha). unfold counter_ok in *. lia. }
  intros c b. simpl. split.
  - intros ([a f'] & b1 & b2 & (Ha & He & Hm & ->) & Hq & ->). cbn in *. subst f'. eauto 10.
  - intros (a & b2 & Ha & Hm & Hq & ->). exists (a, f + cost a)%Z, (enc a), b2. split_and!; done.
Qed.

Lemma framed_charged max : charged max (λ f, read_framed max f) payload_wf frame blen.
Proof.
  intros f Hf. unfold read_framed. eapply parses_ext.
  { eapply parses_frame_then. intros v Hv. eapply parses_lift_then. intros f' _. apply parses_ret. }
  intros [v f'] b. simpl. split.
  - intros (v' & b2 & Hv & (f1 & Hc & [= -> ->] & ->) & ->). apply charge_Ok in Hc as [-> Hm]; [|apply Hf].
    rewrite app_nil_r. split_and!; try done. all: apply Hv.
  - intros (Hv & -> & Hm & ->). exists v, []. rewrite app_nil_r. split_and!; try done; try apply Hv.
    eexists. split; [|done]. apply charge_Ok; [apply Hf|done].
Qed.

Definition digest_frame (d : Digest) : bytes := frame (as_bytes d).

Lemma digest_charged max : charged max (λ f, read_digest_framed f max) digest_ok digest_frame (λ _, 32%Z).
Proof.
  intros f Hf. unfold read_digest_framed. eapply parses_ext.
  { eapply charged_then; [apply framed_charged|intros v _; unfold blen; lia|exact Hf|].
    intros v f' _ _ _. eapply parses_lift_then. intros d _. apply parses_ret. }
  intros [d f'] b. simpl. unfold digest_ok, digest_frame. split.
  - intros (v & b2 & [Hv _] & Hm & (d' & [Hl ->]%to_array_Ok & [= -> ->] & ->) & ->).
    unfold blen in *. rewrite Hl, app_nil_r in *. by split_and!.
  - intros ([Hl Hb] & -> & Hm & ->). exists (as_bytes d), []. rewrite app_nil_r.
    unfold blen. rewrite Hl. split_and!; try done; [split; [done|unfold len_ok; rewrite Hl; lia]|].
    exists d. split; [|done]. apply to_array_Ok. split; [done|by destruct d].
Qed.

(** A charged reader in a frame of its own. *)
Lemma inner_charged {A} max rd (ok : A → Prop) enc cost trailing v : payload_wf v → charged max rd ok enc cost →
  charged max (λ f, ST_lift (read_all (rd f) trailing v)) (λ a, ok a ∧ v = enc a) (λ _, []) cost.
Proof.
  intros Hv Hrd f Hf. eapply parses_ext; [eapply parses_inner; [exact Hv|by apply Hrd]|].
  intros r b. simpl. naive_solver.
Qed.

Definition id_frame (d : Digest) : bytes := frame (digest_frame d).

Lemma id_charged max : charged max (λ f, read_id_from_list_item f max) digest_ok id_frame (λ _, 66%Z).
Proof.
  intros f Hf. unfold read_id_from_list_item. eapply parses_ext.
  { eapply charged_then; [apply framed_charged|intros v _; unfold blen; lia|exact Hf|].
    intros v f1 Hv _ Hf1.
    eapply (charged_then max (λ f, ST_lift (read_all (read_framed max f) TrailingBytesInEntry v)));
      [apply inner_charged; [exact Hv|apply framed_charged]|intros w _; unfold blen; lia|exact Hf1|].
    intros b f2 _ _ _. eapply parses_lift_then. intros d _. apply parses_ret. }
  intros [d f'] b. simpl. unfold digest_ok, id_frame, digest_frame. split.
  - intros (v & b2 & _ & Hm & (w & b3 & [Hw ->] & Hm2 & (d' & [Hl ->]%to_array_Ok & [= -> ->] & ->) & ->) & ->).
    unfold blen in *. rewrite (length_frame_32 w Hl), Hl in *. rewrite app_nil_r.
    split_and!; try done; [apply Hw|lia..].
  - intros ([Hl Hb] & -> & Hm & ->). pose proof (length_frame_32 _ Hl) as Hl2.
    assert (payload_wf (as_bytes d)) as Hd by (split; [done|unfold len_ok; rewrite Hl; lia]).
    assert (payload_wf (frame (as_bytes d))) as Hfd.
    { split; [apply frame_are_bytes; apply Hd|unfold len_ok; rewrite Hl2; lia]. }
    exists (frame (as_bytes d)), []. rewrite app_nil_r. unfold blen. rewrite Hl2.
    split; [done|]. split; [lia|]. split; [|done].
    exists (as_bytes d), []. rewrite Hl. split; [done|]. split; [lia|]. split; [|done].
    exists d. split; [apply to_array_Ok; split; [done|by destruct d]|]. split; [f_equal; lia|done].
Qed.

Definition id_frames (l : list Digest) : bytes := concat (id_frame <$> l).

Lemma ids_charged max n : charged max (read_ids max n) (λ l, length l = n ∧ Forall digest_ok l) id_frames (λ l, 66 * Z.of_nat (length l))%Z.
Proof.
  induction n as [|n IH]; intros f Hf; cbn [read_ids]; eapply parses_ext.
  - apply parses_ret.
  - intros [l f'] b. simpl. split.
    + intros [[= -> ->] ->]. unfold counter_ok in Hf. split_and!; try done; cbn; lia.
    + intros ([->%nil_length_inv _] & -> & _ & ->). cbn. split; [f_equal; lia|done].
  - eapply (charged_then _ _ _ _ _ _ _ _ (id_charged max)); [done|exact Hf|]. intros d f1 _ _ Hf1.
    eapply (charged_then _ _ _ _ _ _ _ _ IH); [intros; lia|exact Hf1|]. intros l f2 _ _ _. apply parses_ret.
  - intros [l f'] b. simpl. split.
    + intros (d & ? & Hd & Hm & (l' & ? & [Hl Hds] & Hm' & [[= -> ->] ->] & ->) & ->). cbn [length].
      split_and!; [lia|by constructor|lia|lia|]. unfold id_frames. cbn. by rewrite app_nil_r.
    + intros ([Hl Hds] & -> & Hm & ->). destruct l as [|d l]; [done|]. apply Forall_cons in Hds as [Hd Hds].
      cbn [length] in *. exists d, (id_frames l). split_and!; try done; [lia|].
      exists l, []. rewrite app_nil_r. split_and!; try done; [lia|lia|]. f_equal. lia.
Qed.

Lemma parses_count : parses read_count (λ n b, u64_ok n ∧ b = encode_uint n).
Proof.
  unfold read_count. eapply parses_ext.
  { eapply parses_uint_then. intros v _. apply parses_guard_then. intros _. apply parses_ret. }
  intros v b. simpl. split.
  - intros (v' & b2 & Hv & (_ & -> & ->) & ->). by rewrite app_nil_r.
  - intros [Hv ->]. exists v, []. rewrite app_nil_r. split; [done|]. split; [|done].
    split; [unfold u64_ok, usize_max in *; lia|done].
Qed.

Lemma parses_count_then {B} (f : Z → BundleReader B) Q :
  (∀ v, u64_ok v → parses (f v) (Q v)) →
  parses (v ← read_count; f v) (λ c b, ∃ v b2, u64_ok v ∧ Q v c b2 ∧ b = encode_uint v ++ b2).
Proof.
  intros Hf. eapply parses_ext.
  { eapply parses_then; [apply parses_count|]. intros v b [Hv _]. by apply Hf. }
  intros c b. simpl. naive_solver.
Qed.

(** * The grammar of a bundle *)

(** Every limit is a [usize]. *)
Definition limits_ok (l : AuditDecodeLimits) : Prop :=
  Forall (λ n, 0 ≤ n ≤ usize_max)%Z [max_total_bundle_bytes l; max_steps l; max_entry_bytes l; max_receipt_bytes l;
    max_generators_per_step l; max_configs_per_step l; max_cumulative_links l; max_cumulative_framed_bytes l].

Definition material_ok (m : RecordedStepMaterialV1) : Prop :=
  key_ok (m_key m) ∧ observation_ok (m_observation m) ∧ Forall id_ok (m_generators m) ∧ Forall id_ok (m_configs m) ∧
  id_ok (m_src m) ∧ id_ok (m_dst m) ∧ id_ok (m_witness m).

Definition g_count (m : RecordedStepMaterialV1) : Z := Z.of_nat (length (m_generators m)).
Definition c_count (m : RecordedStepMaterialV1) : Z := Z.of_nat (length (m_configs m)).

Lemma frames_ids {k} (l : list (Id k)) :
  frames (canon_bytes <$> l) = encode_uint (Z.of_nat (length l)) ++ id_frames (digest <$> l).
Proof.
  unfold frames, id_frames. rewrite length_fmap, <-!list_fmap_compose. by repeat f_equal.
Qed.

Lemma material_bytes m : canon_bytes m =
  encode_uint (phase (m_key m)) ++ encode_uint (priority (m_key m)) ++ digest_frame (tiebreak (m_key m)) ++
  encode_uint (ordinal (outcome_class (m_observation m))) ++ digest_frame (judgement_digest (m_observation m)) ++
  encode_uint (g_count m) ++ id_frames (digest <$> m_generators m) ++
  encode_uint (c_count m) ++ id_frames (digest <$> m_configs m) ++
  digest_frame (digest (m_src m)) ++ digest_frame (digest (m_dst m)) ++ digest_frame (digest (m_witness m)).
Proof.
  unfold canon_bytes at 1, canon_write at 1, Canonical_Material. rewrite !canon_appends, !write_list_app, ?canon_appends.
  rewrite !frames_ids, !canon_bytes_Id, key_bytes, observation_bytes, app_nil_l, <-!app_assoc. done.
Qed.

(** A reader with the two counters of the decoder. *)
Definition charged2 {A} (lmax fmax : Z) (rd : Z → Z → BundleReader (A * Z * Z)) (ok : A → Prop) (enc : A → bytes)
    (lcost fcost : A → Z) : Prop := ∀ l f, counter_ok lmax l → counter_ok fmax f →
  parses (rd l f) (λ r b, ok r.1.1 ∧ r.1.2 = l + lcost r.1.1 ∧ l + lcost r.1.1 ≤ lmax ∧
    r.2 = f + fcost r.1.1 ∧ f + fcost r.1.1 ≤ fmax ∧ b = enc r.1.1)%Z.

Lemma charged2_then {A B} lmax fmax rd ok enc lcost fcost l f (k : A → Z → Z → BundleReader B) Q :
  charged2 lmax fmax rd ok enc lcost fcost → (∀ a, 0 ≤ lcost a ∧ 0 ≤ fcost a)%Z → counter_ok lmax l → counter_ok fmax f →
  (∀ a l' f', ok a → counter_ok lmax l' → counter_ok fmax f' → parses (k a l' f') (Q a l' f')) →
  parses ('(a, l', f') ← rd l f; k a l' f')
    (λ c b, ∃ a b2, ok a ∧ (l + lcost a ≤ lmax)%Z ∧ (f + fcost a ≤ fmax)%Z ∧
       Q a (l + lcost a)%Z (f + fcost a)%Z c b2 ∧ b = enc a ++ b2).
Proof.
  intros Hrd Hcost Hl Hf Hk. eapply parses_ext.
  { eapply (parses_then _ _ _ (λ r, Q r.1.1 r.1.2 r.2)); [by apply Hrd|]. intros [[a l'] f'] b (Ha & Hl' & ? & Hf' & ? & _). cbn in *.
    specialize (Hcost a). unfold counter_ok in *. apply Hk; [done|lia..]. }
  intros c b. simpl. split.
  - intros ([[a l'] f'] & b1 & b2 & (Ha & Hl' & ? & Hf' & ? & ->) & Hq & ->). cbn in *. subst. eauto 10.
  - intros (a & b2 & Ha & ? & ? & Hq & ->). exists (a, l + lcost a, f + fcost a)%Z, (enc a), b2. split_and!; done.
Qed.

(** What the decoder demands of an entry, beside its counters. *)
Definition material_fits (l : AuditDecodeLimits) (m : RecordedStepMaterialV1) : Prop :=
  outcome_class (m_observation m) = Derived ∧ (g_count m ≤ max_generators_per_step l)%Z ∧
  (c_count m ≤ max_configs_per_step l)%Z ∧ c_count m = (g_count m + 1)%Z.

(** The bytes of the frames in a material: two digests, the identities, three digests. *)
Definition material_cost (m : RecordedStepMaterialV1) : Z := 66 * g_count m + 66 * c_count m + 160.

Definition entry_ok (e : Entry) : Prop :=
  u64_ok (e_ordinal e) ∧ digest_ok (prefix_digest e) ∧ material_ok (step_material e) ∧ payload_wf (e_receipt_bytes e).

#[export] Instance CanonAppends_Material : CanonAppends RecordedStepMaterialV1.
Proof.
  intros m w. rewrite material_bytes. unfold canon_write, Canonical_Material.
  rewrite !canon_appends, !write_list_app, ?canon_appends.
  by rewrite !frames_ids, !canon_bytes_Id, key_bytes, observation_bytes, <-!app_assoc.
Qed.

Lemma entry_bytes e : canon_bytes e = encode_uint (e_ordinal e) ++ digest_frame (prefix_digest e) ++
  canon_bytes (step_material e) ++ frame (e_receipt_bytes e).
Proof.
  unfold canon_bytes at 1, canon_write at 1, Canonical_Entry, write_uint.
  by rewrite write_bytes_app, canon_appends, write_bytes_app, app_nil_l, <-!app_assoc.
Qed.

(** What is charged inside an entry's frame, and for the entry. *)
Definition inner_cost (e : Entry) : Z := 32 + material_cost (step_material e) + blen (e_receipt_bytes e).
Definition entry_cost (e : Entry) : Z := blen (canon_bytes e) + inner_cost e.
Definition entry_links (e : Entry) : Z := g_count (step_material e).

Definition entry_fits (l : AuditDecodeLimits) (e : Entry) : Prop :=
  material_fits l (step_material e) ∧ (blen (e_receipt_bytes e) ≤ max_receipt_bytes l)%Z ∧
  (blen (canon_bytes e) ≤ max_entry_bytes l)%Z.

Definition total (cost : Entry → Z) (l : list Entry) : Z := foldr (λ e t, cost e + t)%Z 0%Z l.

(** The ordinals count from [i]. *)
Fixpoint ordered (i : Z) (l : list Entry) : Prop :=
  match l with [] => True | e :: l' => e_ordinal e = i ∧ ordered (i + 1) l' end.

Lemma material_cost_pos m : (0 ≤ material_cost m)%Z.
Proof. unfold material_cost, g_count, c_count. lia. Qed.

Lemma entry_cost_pos e : (0 ≤ inner_cost e ≤ entry_cost e)%Z.
Proof. pose proof (material_cost_pos (step_material e)). unfold entry_cost, inner_cost, blen. lia. Qed.

Lemma total_pos cost l : (∀ e, 0 ≤ cost e)%Z → (0 ≤ total cost l)%Z.
Proof. intros Hc. unfold total. induction l as [|e l IH]; cbn [foldr]; [done|]. specialize (Hc e). lia. Qed.

Section grammar.
Context (limits : AuditDecodeLimits) (Hlim : limits_ok limits).
Abbreviation fmax := (max_cumulative_framed_bytes limits).
Abbreviation lmax := (max_cumulative_links limits).

Lemma ids_of_digests {k} (l : list Digest) : digest <$> (mkId (k := k) <$> l) = l.
Proof. rewrite <-list_fmap_compose. apply list_fmap_id. Qed.

Lemma ids_of_ids {k} (l : list (Id k)) : mkId <$> (digest <$> l) = l.
Proof. rewrite <-list_fmap_compose. rewrite <-(list_fmap_id l) at 2. apply list_fmap_ext. by intros i [d] _. Qed.

Lemma parses_material : charged2 lmax fmax (decode_material limits) (λ m, material_ok m ∧ material_fits limits m)
  canon_bytes g_count material_cost.
Proof.
  intros links f Hl Hf. unfold decode_material. eapply parses_ext.
  { eapply parses_uint_then. intros phase _. eapply parses_uint_then. intros priority _.
    eapply (charged_then _ _ _ _ _ _ _ _ (digest_charged fmax)); [done|exact Hf|]. intros tb f1 _ _ Hf1.
    eapply parses_uint_then. intros o _. apply parses_guard_then. intros _.
    eapply (charged_then _ _ _ _ _ _ _ _ (digest_charged fmax)); [done|exact Hf1|]. intros j f2 _ _ Hf2.
    eapply parses_count_then. intros g _. apply parses_guard_then. intros _.
    eapply parses_lift_then. intros links' _.
    eapply (charged_then _ _ _ _ _ _ _ _ (ids_charged fmax _)); [intros; lia|exact Hf2|]. intros gs f3 _ _ Hf3.
    eapply parses_count_then. intros c _. apply parses_guard_then. intros _. apply parses_guard_then. intros _.
    eapply (charged_then _ _ _ _ _ _ _ _ (ids_charged fmax _)); [intros; lia|exact Hf3|]. intros cs f4 _ _ Hf4.
    eapply (charged_then _ _ _ _ _ _ _ _ (digest_charged fmax)); [done|exact Hf4|]. intros s f5 _ _ Hf5.
    eapply (charged_then _ _ _ _ _ _ _ _ (digest_charged fmax)); [done|exact Hf5|]. intros d f6 _ _ Hf6.
    eapply (charged_then _ _ _ _ _ _ _ _ (digest_charged fmax)); [done|exact Hf6|]. intros w f7 _ _ _.
    apply parses_ret. }
  intros [[m links'] f'] b. simpl. split.
  - intros (ph & ? & Hph & (pr & ? & Hpr & (tb & ? & Htb & _ & (o & ? & _ & (Ho & (j & ? & Hj & _ & (g & ? & Hg & (Hgm & (l1 &
      Hl1 & (gs & ? & [Hgl Hgs] & _ & (c & ? & Hc & (Hcm & Hcg & (cs & ? & [Hcl Hcs] & _ & (s & ? & Hs & _ & (d & ? & Hd & _ &
      (w & ? & Hw & Hm & [E ->] & ->) & ->) & ->) & ->)) & ->) & ->)) ) & ->) & ->)) & ->) & ->) & ->) & ->).
    injection E as -> -> ->. apply charge_Ok in Hl1 as [-> Hl1]; [|apply Hl].
    assert (g = Z.of_nat (length gs) ∧ c = Z.of_nat (length cs)) as [-> ->] by (unfold u64_ok in Hg, Hc; lia).
    unfold material_ok, material_fits, material_cost, g_count, c_count.
    cbn [m_key m_observation m_generators m_configs m_src m_dst m_witness outcome_class fst snd]. rewrite !length_fmap.
    split; [split; [split_and!; try done; by rewrite Forall_fmap|split_and!; [done|lia..]]|].
    do 4 (split; [lia|]). rewrite material_bytes. unfold g_count, c_count.
    cbn [m_key m_observation m_generators m_configs m_src m_dst m_witness outcome_class judgement_digest phase priority
      tiebreak digest]. rewrite !ids_of_digests, !length_fmap, app_nil_r. assert (o = 2%Z) as -> by lia. done.
  - intros ((Hm & Hder & Hgm & Hcm & Hcg) & -> & Hl1 & -> & Hf1 & ->).
    destruct m as [[ph pr tb] [oc j] gs cs [s] [d] [w]]. unfold material_cost, g_count, c_count in *.
    cbn [m_key m_observation m_generators m_configs m_src m_dst m_witness outcome_class] in *. subst oc.
    destruct Hm as ((Hph & Hpr & Htb) & Hj & Hgs & Hcs & Hs & Hd & Hw).
    cbn [m_key m_observation m_generators m_configs m_src m_dst m_witness phase priority tiebreak] in *.
    unfold counter_ok in Hl, Hf. pose proof Hlim as Hlim'. unfold limits_ok in Hlim'. rewrite !Forall_cons in Hlim'.
    rewrite material_bytes. unfold g_count, c_count.
    cbn [m_key m_observation m_generators m_configs m_src m_dst m_witness outcome_class judgement_digest phase priority
      tiebreak digest].
    exists ph; eexists; split; [done|]; split; [|reflexivity].
    exists pr; eexists; split; [done|]; split; [|reflexivity].
    exists tb; eexists; split; [done|]; split; [lia|]; split; [|reflexivity].
    eexists 2%Z, _; split; [done|]; split; [split; [lia|]|reflexivity].
    exists j; eexists; split; [done|]; split; [lia|]; split; [|reflexivity].
    eexists (Z.of_nat (length gs)), _; split; [unfold u64_ok, usize_max in *; lia|]; split; [split; [lia|]|reflexivity].
    eexists; split; [apply charge_Ok; [lia|split; [reflexivity|lia]]|].
    eexists (digest <$> gs), _; split; [by split; [rewrite length_fmap; lia|rewrite Forall_fmap]|].
    rewrite length_fmap. split; [lia|]; split; [|reflexivity].
    eexists (Z.of_nat (length cs)), _; split; [unfold u64_ok, usize_max in *; lia|].
    split; [split; [lia|]; split; [lia|]|reflexivity].
    eexists (digest <$> cs), _; split; [by split; [rewrite length_fmap; lia|rewrite Forall_fmap]|].
    rewrite length_fmap. split; [lia|]; split; [|reflexivity].
    exists s; eexists; split; [done|]; split; [lia|]; split; [|reflexivity].
    exists d; eexists; split; [done|]; split; [lia|]; split; [|reflexivity].
    exists w, []; split; [done|]; split; [lia|]; split; [|by rewrite app_nil_r].
    split; [|done]. rewrite !ids_of_ids. apply (f_equal2 pair); [done|lia].
Qed.
Definition fields_fit (e : Entry) : Prop :=
  material_fits limits (step_material e) ∧ (blen (e_receipt_bytes e) ≤ max_receipt_bytes limits)%Z.

Lemma parses_entry_fields i : charged2 lmax fmax (decode_entry_fields limits i)
  (λ e, entry_ok e ∧ e_ordinal e = i ∧ fields_fit e) canon_bytes entry_links inner_cost.
Proof.
  intros links f Hl Hf. unfold decode_entry_fields. eapply parses_ext.
  { eapply parses_uint_then. intros o _. apply parses_guard_then. intros _.
    eapply (charged_then _ _ _ _ _ _ _ _ (digest_charged fmax)); [done|exact Hf|]. intros p f1 _ _ Hf1.
    eapply (charged2_then _ _ _ _ _ _ _ _ _ _ _ parses_material);
      [intros m; pose proof (material_cost_pos m); unfold g_count; lia|exact Hl|exact Hf1|]. intros m l2 f2 _ _ _.
    eapply parses_frame_then. intros v _. apply parses_guard_then. intros _.
    eapply parses_lift_then. intros f3 _. apply parses_ret. }
  assert (fmax ≤ usize_max)%Z as Hmax by apply Hf.
  intros [[e links'] f'] b. simpl. unfold fields_fit, entry_links, inner_cost. split.
  - intros (o & ? & Ho & (Hoi & (p & ? & Hp & _ & (m & ? & [Hm Hmf] & Hl2 & Hf2 & (v & ? & Hv & (Hvm & (f3 & Hf3 & [E ->])) & ->) & ->) & ->)) & ->).
    injection E as -> -> ->. apply charge_Ok in Hf3 as [-> Hf3]; [|done]. apply dec_stable in Hoi as ->.
    cbn [e_ordinal prefix_digest step_material e_receipt_bytes fst snd].
    split; [split; [by split_and!|split; [done|split; [done|lia]]]|]. do 4 (split; [lia|]).
    rewrite entry_bytes, app_nil_r. done.
  - intros (((Ho & Hp & Hm & Hv) & <- & Hmf & Hvm) & -> & Hl1 & -> & Hf1 & ->). destruct e as [o p m v].
    cbn [e_ordinal prefix_digest step_material e_receipt_bytes] in *. pose proof (material_cost_pos m).
    rewrite entry_bytes. cbn [e_ordinal prefix_digest step_material e_receipt_bytes].
    unfold blen in *.
    exists o; eexists; split; [done|]; split; [split; [by intros Hn; apply Hn|]|reflexivity].
    exists p; eexists; split; [done|]; split; [lia|]; split; [|reflexivity].
    exists m; eexists; split; [done|]; split; [done|]; split; [lia|]; split; [|reflexivity].
    exists v, []; split; [done|]; split; [|by rewrite app_nil_r].
    split; [lia|]. eexists. split; [apply charge_Ok; [done|split; [reflexivity|unfold blen; lia]]|].
    split; [|done]. apply (f_equal2 pair); [done|unfold blen; lia].
Qed.
Definition entry_frame (e : Entry) : bytes := frame (canon_bytes e).

Lemma parses_bundle_entry i : charged2 lmax fmax (decode_entry limits i)
  (λ e, payload_wf (canon_bytes e) ∧ entry_ok e ∧ e_ordinal e = i ∧ entry_fits limits e) entry_frame entry_links entry_cost.
Proof.
  intros links f Hl Hf. unfold decode_entry. assert (fmax ≤ usize_max)%Z as Hmax by apply Hf. eapply parses_ext.
  { eapply parses_frame_then. intros v Hv. apply parses_guard_then. intros _. eapply parses_lift_then. intros f1 Hf1.
    eapply parses_inner; [exact Hv|]. apply parses_entry_fields; [exact Hl|].
    apply charge_Ok in Hf1 as [-> Hf1]; [|done]. unfold counter_ok, blen in *. lia. }
  intros [[e links'] f'] b. simpl. unfold fields_fit, entry_fits, entry_frame, entry_cost. split.
  - intros (v & ? & Hv & (Hvm & (f1 & Hf1 & ((Hok & Ho & Hmf & Hr) & -> & Hl2 & -> & Hf2 & ->) & ->)) & ->).
    apply charge_Ok in Hf1 as [-> Hf1]; [|done]. cbn [fst snd] in *. rewrite app_nil_r.
    split; [split; [done|split; [done|split; [done|split; [done|split; [done|lia]]]]]|]. do 4 (split; [lia|]). done.
  - intros ((Hv & Hok & Ho & Hmf & Hr & Hlen) & -> & Hl1 & -> & Hf1 & ->). pose proof (entry_cost_pos e).
    exists (canon_bytes e), []. rewrite app_nil_r. split; [done|]. split; [|done]. split; [lia|].
    eexists; split; [apply charge_Ok; [done|split; [reflexivity|lia]]|]. split; [|done].
    split; [done|]. do 4 (split; [lia|]). done.
Qed.

Definition entries_ok (l : list Entry) : Prop := Forall (λ e, payload_wf (canon_bytes e) ∧ entry_ok e) l.

Lemma parses_entries n i : charged2 lmax fmax (decode_entries limits n i)
  (λ l, length l = n ∧ entries_ok l ∧ ordered i l ∧ Forall (entry_fits limits) l)
  (λ l, concat (entry_frame <$> l)) (total entry_links) (total entry_cost).
Proof.
  revert i. induction n as [|n IH]; intros i links f Hl Hf; cbn [decode_entries].
  - eapply parses_ext; [apply parses_ret|]. intros [[l l'] f'] b. simpl. unfold counter_ok in *. split.
    + intros [[= -> -> ->] ->]. split_and!; try done; try constructor; cbn; lia.
    + intros ((->%nil_length_inv & _) & -> & _ & -> & _ & ->). cbn. split; [|done]. f_equal; [f_equal|]; lia.
  - eapply parses_ext.
    { eapply (charged2_then _ _ _ _ _ _ _ _ _ _ _ (parses_bundle_entry i)); [|exact Hl|exact Hf|].
      { intros e. pose proof (entry_cost_pos e). unfold entry_links, g_count. lia. }
      intros e l1 f1 _ Hl1 Hf1. eapply (charged2_then _ _ _ _ _ _ _ _ _ _ _ (IH (i + 1)%Z)); [|exact Hl1|exact Hf1|].
      { intros l. split; apply total_pos; intros e'; pose proof (entry_cost_pos e'); unfold entry_links, g_count; lia. }
      intros l l2 f2 _ _ _. apply parses_ret. }
    intros [[l l'] f'] b. simpl. unfold entries_ok. split.
    + intros (e & ? & (Hb & He & Ho & Hfit) & ? & ? & (l1 & ? & (Hlen & Hok & Hord & Hfits) & ? & ? & [E ->] & ->) & ->).
      injection E as -> -> ->. cbn [length total foldr ordered fmap list_fmap concat fst snd] in *. unfold total in *.
      cbn [foldr]. rewrite app_nil_r. split; [split; [lia|split; [by constructor|split; [done|by constructor]]]|].
      do 4 (split; [lia|]). done.
    + intros ((Hlen & Hok & Hord & Hfits) & -> & ? & -> & ? & ->). destruct l as [|e l]; [done|].
      apply Forall_cons in Hok as [[Hb He] Hok], Hfits as [Hfit Hfits]. destruct Hord as [Ho Hord].
      unfold total in *. cbn [length foldr fmap list_fmap concat] in *.
      pose proof (total_pos entry_links l ltac:(intros; unfold entry_links, g_count; lia)).
      pose proof (total_pos entry_cost l ltac:(intros e'; pose proof (entry_cost_pos e'); lia)). unfold total in *.
      exists e; eexists; split; [done|]; split; [lia|]; split; [lia|]; split; [|reflexivity].
      exists l, []; split; [split; [lia|done]|]; split; [lia|]; split; [lia|]; split; [|by rewrite app_nil_r].
      split; [|done]. f_equal; [f_equal|]; lia.
Qed.

(** ** The whole bundle *)

Definition marker : bytes := bytes_of_string BUNDLE_MARKER_V1.
Definition profile : bytes := bytes_of_string BUNDLE_PROFILE_V1.

Definition bundle_cost (b : SettlementAuditInputBundleV1) : Z :=
  blen marker + blen profile + 32 + total entry_cost (b_entries b) + 32.

Definition bundle_ok (b : SettlementAuditInputBundleV1) : Prop :=
  id_ok (b_context b) ∧ entries_ok (b_entries b) ∧ digest_ok (final_chain_digest b).

(** The work of a bundle is within the limits, its total length aside. *)
Definition fields_within (b : SettlementAuditInputBundleV1) : Prop :=
  (Z.of_nat (length (b_entries b)) ≤ max_steps limits)%Z ∧ Forall (entry_fits limits) (b_entries b) ∧
  (total entry_links (b_entries b) ≤ lmax)%Z ∧ (bundle_cost b ≤ fmax)%Z.

Definition bundle_fits (b : SettlementAuditInputBundleV1) : Prop :=
  fields_within b ∧ (blen (canon_bytes b) ≤ max_total_bundle_bytes limits)%Z.

Lemma bundle_bytes b : canon_bytes b = frame marker ++ encode_uint BUNDLE_VERSION_V1 ++ frame profile ++
  digest_frame (digest (b_context b)) ++ encode_uint (Z.of_nat (length (b_entries b))) ++
  concat (entry_frame <$> b_entries b) ++ digest_frame (final_chain_digest b).
Proof.
  unfold canon_bytes at 1, canon_write at 1, Canonical_Bundle, write_str, write_uint.
  rewrite write_bytes_app, write_list_app, canon_appends, !write_bytes_app, canon_bytes_Id, app_nil_l.
  unfold frames. rewrite length_fmap, <-list_fmap_compose, <-!app_assoc. done.
Qed.

Lemma tags_wf : payload_wf marker ∧ payload_wf profile.
Proof. split; split; first [apply bytes_of_string_are_bytes|apply tag_len_ok; cbn; lia]. Qed.

Lemma parses_bundle : parses (decode_bundle_fields limits)
  (λ b v, bundle_ok b ∧ ordered 0 (b_entries b) ∧ fields_within b ∧ v = canon_bytes b).
Proof.
  pose proof Hlim as Hlim'. unfold limits_ok in Hlim'. rewrite !Forall_cons in Hlim'.
  destruct tags_wf as [Hmw Hpw]. unfold decode_bundle_fields. fold marker profile. eapply parses_ext.
  { eapply (charged_then _ _ _ _ _ _ _ _ (framed_charged fmax)); [intros v _; unfold blen; lia|unfold counter_ok; lia|].
    intros m f1 _ _ Hf1. apply parses_guard_then. intros _.
    eapply parses_uint_then. intros v _. apply parses_guard_then. intros _.
    eapply (charged_then _ _ _ _ _ _ _ _ (framed_charged fmax)); [intros w _; unfold blen; lia|exact Hf1|].
    intros p f2 _ _ Hf2. apply parses_guard_then. intros _.
    eapply (charged_then _ _ _ _ _ _ _ _ (digest_charged fmax)); [done|exact Hf2|]. intros c f3 _ _ Hf3.
    eapply parses_count_then. intros n _. apply parses_guard_then. intros _.
    eapply (charged2_then _ _ _ _ _ _ _ _ _ _ _ (parses_entries _ _)); [|unfold counter_ok; lia|exact Hf3|].
    { intros l. split; apply total_pos; intros e'; pose proof (entry_cost_pos e'); unfold entry_links, g_count; lia. }
    intros l l4 f4 _ _ Hf4.
    eapply (charged_then _ _ _ _ _ _ _ _ (digest_charged fmax)); [done|exact Hf4|]. intros d f5 _ _ _. apply parses_ret. }
  intros b w. simpl. unfold bundle_ok, fields_within, bundle_cost. split.
  - intros (m & ? & _ & _ & (Hm & (v & ? & _ & (Hv & (p & ? & _ & _ & (Hp & (c & ? & Hc & _ & (n & ? & Hn & (Hnm & (l & ? &
      (Hl & Hok & Ho & Hfit) & Hlk & _ & (d & ? & Hd & Hf & [-> ->] & ->) & ->)) & ->) & ->)) & ->)) & ->)) & ->).
    apply dec_stable in Hm as ->, Hv as ->, Hp as ->. unfold u64_ok in Hn. assert (n = Z.of_nat (length l)) as -> by lia.
    cbn [b_context b_entries final_chain_digest]. split; [done|]. split; [done|]. split; [split; [lia|split; [done|lia]]|].
    rewrite bundle_bytes, app_nil_r. done.
  - intros ((Hc & Hok & Hd) & Ho & (Hn & Hfit & Hlk & Hf) & ->). destruct b as [[c] l d].
    cbn [b_context b_entries final_chain_digest] in *. rewrite bundle_bytes. cbn [b_context b_entries final_chain_digest digest].
    pose proof (total_pos entry_cost l ltac:(intros e'; pose proof (entry_cost_pos e'); lia)).
    assert (0 ≤ blen marker ∧ 0 ≤ blen profile)%Z by (unfold blen; lia).
    exists marker; eexists; split; [done|]; split; [lia|]; split; [split; [by intros Hx; apply Hx|]|reflexivity].
    exists BUNDLE_VERSION_V1; eexists; split; [done|]; split; [split; [by intros Hx; apply Hx|]|reflexivity].
    exists profile; eexists; split; [done|]; split; [lia|]; split; [split; [by intros Hx; apply Hx|]|reflexivity].
    exists c; eexists; split; [done|]; split; [lia|]; split; [|reflexivity].
    eexists (Z.of_nat (length l)), _; split; [unfold u64_ok, usize_max in *; lia|]; split; [split; [lia|]|reflexivity].
    exists l; eexists; split; [split; [lia|done]|]; split; [lia|]; split; [lia|]; split; [|reflexivity].
    exists d, []; split; [done|]; split; [lia|]; split; [done|]. by rewrite app_nil_r.
Qed.

Lemma decode_bundle_exact buf b : payload_wf buf →
  decode_audit_input_bundle_v1 limits buf = Ok b ↔
  bundle_ok b ∧ ordered 0 (b_entries b) ∧ bundle_fits b ∧ buf = canon_bytes b.
Proof.
  intros [Hb Hl]. unfold decode_audit_input_bundle_v1, bundle_fits.
  pose proof (read_all_exact _ _ BundleTrailingBytes buf b parses_bundle Hb Hl) as Hex.
  case_decide as Ht; [|rewrite Hex]; split; try done.
  - intros (_ & _ & [_ Hlen] & ->). lia.
  - intros (? & ? & ? & ->). repeat (split; [done|]). split; [|done]. split; [done|lia].
  - intros (? & ? & [? ?] & ->). done.
Qed.

(** ** The limits on a typed bundle are the decoder's *)

Lemma result_bind_iff {E A B} (m : result E A) (f : A → result E B) b : m ≫= f = Ok b ↔ ∃ a, m = Ok a ∧ f a = Ok b.
Proof. split; [apply result_bind_Ok|]. by intros (a & -> & ?). Qed.

(** Walk the checks of an accepting run, and build one. *)
Ltac pass_limits :=
  repeat lazymatch goal with
  | |- (if decide _ then Err _ else _) = _ → _ => case_decide; [done|]
  | |- (charge _ _ _ _ _ ≫= _) = _ → _ =>
    let Hc := fresh "Hc" in let Hr := fresh "Hr" in
    intros (? & Hc & Hr)%result_bind_Ok; apply charge_Ok in Hc as [-> Hc]; [|lia]; revert Hr; cbv beta
  end.
Ltac run_limits :=
  repeat lazymatch goal with
  | |- (if decide _ then Err _ else _) = _ => rewrite decide_False by (done || lia || (intros Hn; by apply Hn))
  | |- (charge ?o ?e ?m ?c ?n ≫= _) = _ =>
    rewrite (proj2 (charge_Ok o e m c n (c + n)%Z ltac:(lia))) by lia; cbn [mbind result_bind]
  end.

Lemma validate_entry_Ok l f e r : counter_ok lmax l → counter_ok fmax f →
  validate_entry limits l f e = Ok r ↔
  entry_fits limits e ∧ r = (l + entry_links e, f + entry_cost e)%Z ∧ (l + entry_links e ≤ lmax)%Z ∧ (f + entry_cost e ≤ fmax)%Z.
Proof.
  intros Hl Hf. unfold counter_ok in Hl, Hf. unfold validate_entry, charge_framed, charge_links.
  pose proof (entry_cost_pos e). set (m := step_material e).
  change (Z.of_nat (length (m_generators m))) with (g_count m). change (Z.of_nat (length (m_configs m))) with (c_count m).
  assert (0 ≤ g_count m ∧ 0 ≤ c_count m)%Z by (unfold g_count, c_count; lia).
  assert (0 ≤ blen (e_receipt_bytes e) ∧ 0 ≤ blen (canon_bytes e))%Z by (unfold blen; lia).
  unfold entry_fits, material_fits, entry_cost, inner_cost, material_cost, entry_links in *. fold m in H |- *.
  cbv zeta. split.
  - pass_limits. intros [= <-]. destruct (outcome_class (m_observation m)) eqn:Eo; try (exfalso; naive_solver).
    split_and!; try done; try lia. f_equal; lia.
  - intros (((Ho & ? & ? & ?) & ? & ?) & -> & ? & ?). run_limits. f_equal. f_equal; lia.
Qed.

Lemma validate_entries_Ok l f es r : counter_ok lmax l → counter_ok fmax f →
  validate_entries limits l f es = Ok r ↔
  Forall (entry_fits limits) es ∧ r = (l + total entry_links es, f + total entry_cost es)%Z ∧
  (l + total entry_links es ≤ lmax)%Z ∧ (f + total entry_cost es ≤ fmax)%Z.
Proof.
  revert l f. induction es as [|e es IH]; intros l f Hl Hf; cbn [validate_entries].
  - unfold counter_ok in *. cbn. rewrite !Z.add_0_r. split; [intros [= <-]; split_and!; [constructor|done|lia..]|by intros (_ & -> & _)].
  - pose proof (total_pos entry_links es ltac:(intros; unfold entry_links, g_count; lia)).
    pose proof (total_pos entry_cost es ltac:(intros e'; pose proof (entry_cost_pos e'); lia)).
    assert (0 ≤ entry_links e)%Z by (unfold entry_links, g_count; lia). pose proof (entry_cost_pos e).
    unfold total in *. cbn [foldr]. rewrite result_bind_iff, Forall_cons. split.
    + intros ([l' f'] & (Hfit & [= -> ->] & ? & ?)%validate_entry_Ok & Hr); [|done..].
      apply IH in Hr as (Hfits & -> & ? & ?); [|unfold counter_ok in *; lia..]. unfold total in *.
      split_and!; try done; try lia. f_equal; lia.
    + intros ([Hfit Hfits] & -> & ? & ?). exists (l + entry_links e, f + entry_cost e)%Z.
      split; [apply validate_entry_Ok; [done..|]; split_and!; try done; lia|].
      apply IH; [unfold counter_ok in *; lia..|]. unfold total. split_and!; try done; try lia. f_equal; lia.
Qed.

Lemma validate_bundle_limits_Ok b : validate_bundle_limits limits b = Ok tt ↔ bundle_fits b.
Proof.
  pose proof Hlim as Hlim'. unfold limits_ok in Hlim'. rewrite !Forall_cons in Hlim'.
  unfold validate_bundle_limits, bundle_fits, fields_within, bundle_cost. fold marker profile.
  pose proof (total_pos entry_cost (b_entries b) ltac:(intros e'; pose proof (entry_cost_pos e'); lia)).
  assert (0 ≤ blen marker ∧ 0 ≤ blen profile)%Z by (unfold blen; lia).
  unfold charge_framed. cbv zeta. split.
  - pass_limits. intros ([l f] & (Hfit & [= -> ->] & ? & ?)%validate_entries_Ok & Hr)%result_bind_Ok; [|unfold counter_ok; lia..].
    revert Hr. pass_limits. intros _. split_and!; try done; lia.
  - intros ((? & Hfit & ? & ?) & ?). run_limits.
    assert (validate_entries limits 0 (0 + blen marker + blen profile + 32) (b_entries b) =
      Ok (0 + total entry_links (b_entries b), 0 + blen marker + blen profile + 32 + total entry_cost (b_entries b))%Z) as ->.
    { apply validate_entries_Ok; [unfold counter_ok; lia..|]. split_and!; [done..|lia|lia]. }
    cbn [mbind result_bind]. by run_limits.
Qed.

Lemma encode_bundle_Ok b v : encode_audit_input_bundle_v1 limits b = Ok v ↔ bundle_fits b ∧ v = canon_bytes b.
Proof.
  unfold encode_audit_input_bundle_v1. rewrite result_bind_iff. rewrite <-validate_bundle_limits_Ok.
  split; [intros ([] & ? & [= <-]); done|intros [? ->]; by exists tt].
Qed.
End grammar.

(** * The codec *)

Lemma bundle_bytes_inj limits b1 b2 : limits_ok limits → payload_wf (canon_bytes b1) →
  bundle_ok b1 → bundle_ok b2 → ordered 0 (b_entries b1) → ordered 0 (b_entries b2) →
  bundle_fits limits b1 → bundle_fits limits b2 → canon_bytes b1 = canon_bytes b2 → b1 = b2.
Proof.
  intros Hlim Hw H1 H2 O1 O2 F1 F2 Heq.
  pose proof (proj2 (decode_bundle_exact limits Hlim (canon_bytes b1) b1 Hw)) as D1.
  pose proof (proj2 (decode_bundle_exact limits Hlim (canon_bytes b1) b2 Hw)) as D2.
  rewrite D1 in D2 by done. by injection D2 as ->.
Qed.

(** C27: The bundle codec is exact under its limits. Decoding accepts a byte string exactly
    when it is the encoding, under the same limits, of a bundle whose ordinals count from
    zero, and returns that bundle: no work the limits forbid is accepted, nothing they
    allow is refused, and there is one encoding. Unless the messages hashed collide, the
    bundle's identity names it. *)
Theorem bundle_codec_exact `{Blake3Laws} limits (Hlim : limits_ok limits) :
  (∀ buf b, payload_wf buf →
     decode_audit_input_bundle_v1 limits buf = Ok b ↔
     bundle_ok b ∧ ordered 0 (b_entries b) ∧ encode_audit_input_bundle_v1 limits b = Ok buf) ∧
  (∀ b, is_ok (encode_audit_input_bundle_v1 limits b) = true ↔ bundle_fits limits b) ∧
  (∀ buf1 buf2 b1 b2, payload_wf buf1 → payload_wf buf2 →
     decode_audit_input_bundle_v1 limits buf1 = Ok b1 → decode_audit_input_bundle_v1 limits buf2 = Ok b2 →
     bundle_id b1 = bundle_id b2 → (buf1 = buf2 ∧ b1 = b2) ∨ collision (message (canon_bytes b1)) (message (canon_bytes b2))).
Proof.
  split_and!.
  - intros buf b Hw. rewrite encode_bundle_Ok by done. rewrite decode_bundle_exact by done. tauto.
  - intros b. pose proof (encode_bundle_Ok limits Hlim b) as He.
    destruct (encode_audit_input_bundle_v1 limits b) as [v|e]; cbn; split; try done.
    + intros _. by apply (He v).
    + intros Hf. by discriminate (proj2 (He (canon_bytes b)) (conj Hf eq_refl)).
  - intros buf1 buf2 b1 b2 W1 W2 (K1 & O1 & F1 & ->)%decode_bundle_exact (K2 & O2 & F2 & ->)%decode_bundle_exact; [|done..].
    intros [[_ Heq]|?]%digest_of_binds; [left|by right]. split; [done|]. by apply (bundle_bytes_inj limits).
Qed.

Definition demo_material : RecordedStepMaterialV1 :=
  mkMaterial (mkKey 3 1 (digest (demo_id (k := KConfig) 7))) (mkObservation Derived (digest (demo_id (k := KConfig) 8)))
    [demo_id 1] [demo_id 2; demo_id 3] (demo_id 2) (demo_id 3) (demo_id 1).
Definition demo_bundle : SettlementAuditInputBundleV1 :=
  mkBundle (demo_id 4) [mkEntry 0 (digest (demo_id (k := KConfig) 5)) demo_material [1; 2; 3]%Z] (digest (demo_id (k := KConfig) 6)).

Lemma strict_ok : limits_ok strict.
Proof. unfold limits_ok. repeat constructor; vm_compute; discriminate. Qed.

Lemma bundle_codec_exact_witness :
  decode_audit_input_bundle_v1 strict (canon_bytes demo_bundle) = Ok demo_bundle.
Proof.
  apply (proj1 (@bundle_codec_exact demo_hash demo_hash_laws strict strict_ok)).
  - split; [apply (bool_decide_unpack _); vm_compute; exact I|vm_compute; reflexivity].
  - split; [|split; [done|vm_compute; reflexivity]].
    split; [by apply demo_id_ok|split; [|by apply (demo_id_ok (k := KConfig))]].
    constructor; [|constructor]. split; [split; [apply (bool_decide_unpack _); vm_compute; exact I|vm_compute; reflexivity]|].
    split; [done|]. split; [by apply (demo_id_ok (k := KConfig))|]. split.
    + unfold material_ok, key_ok, observation_ok. cbn [demo_material m_key m_observation m_generators m_configs m_src m_dst
        m_witness phase priority tiebreak judgement_digest].
      split_and!; try done; try by apply demo_id_ok.
      all: try (by apply (demo_id_ok (k := KConfig))).
      all: repeat (constructor; [by apply demo_id_ok|]); constructor.
    + split; [apply (bool_decide_unpack _); vm_compute; exact I|vm_compute; reflexivity].
Defined.
