(* ===== verification/BundleCheck.v ===== *)
(** Snapshots, verification and production of audit-input bundles
    (src/crates/soc-core/src/audit_bundle.rs).

    A snapshot is valid when it folds from the empty history to its final digest; a bundle
    is accepted when every receipt is reproduced by the audit; the producer emits the bundle
    of a journal whose every step audits. *)
From S2P Require Import Prelude IntCodec Canon CanonLaws Witness Encoding Parsing Calendar Outcome.
From S2P Require Import Derivation Publication Settlement Journal Commit Auditing AuditBundle BundleCodec.

Section bundle.
Context `{Blake3}.
Implicit Types (b : SettlementAuditInputBundleV1) (limits : AuditDecodeLimits).

(** The loop of [validate_audit_input_bundle_snapshot_v1]. *)
Fixpoint snapshot_from (i : Z) (chain : History) (entries : list Entry) : result SnapshotValidationError History :=
  match entries with
  | [] => Ok chain
  | e :: l =>
    if decide (e_ordinal e ≠ i) then Err (SnapshotOrdinalMismatch i (e_ordinal e)) else
    if decide (prefix_digest e ≠ h_digest chain)
    then Err (PrefixDigestMismatch (e_ordinal e) (h_digest chain) (prefix_digest e)) else
    step ← map_err SnapshotDecomposition (to_committed_step (step_material e));
    snapshot_from (i + 1) (append chain step) l
  end.

Definition validate_audit_input_bundle_snapshot_v1 b : result SnapshotValidationError History :=
  chain ← snapshot_from 0 history_empty (b_entries b);
  if decide (h_digest chain ≠ final_chain_digest b)
  then Err (FinalChainDigestMismatch (h_digest chain) (final_chain_digest b)) else Ok chain.

(** The receipts of [check_audit_input_bundle_v1]; [None] is a panic of the replay. *)
Fixpoint check_receipts (context : ContextId) (registry : GeneratorRegistry) (semantics : GeneratorSemanticsV1)
    limits (entries : list Entry) : option (result BundleCheckError (list Digest)) :=
  match entries with
  | [] => Some (Ok [])
  | e :: l =>
    match to_committed_step (step_material e) with
    | Err err => Some (Err (CheckDecomposition (e_ordinal e) err))
    | Ok step =>
      r ← check_audit_receipt_bytes_v1 (e_receipt_bytes e) step context registry semantics
            (Z.to_nat (max_receipt_bytes limits));
      match r with
      | Err err => Some (Err (CheckReceipt (e_ordinal e) err))
      | Ok id => ids ← check_receipts context registry semantics limits l; Some (ids ← ids; Ok (id :: ids))
      end
    end
  end.

Definition check_audit_input_bundle_v1 b (expected_registry : GeneratorRegistry)
    (expected_semantics : GeneratorSemanticsV1) limits : option (result BundleCheckError (list Digest)) :=
  match map_err CheckLimitExceeded (validate_bundle_limits limits b) with
  | Err e => Some (Err e)
  | Ok _ =>
    match map_err SnapshotValidation (validate_audit_input_bundle_snapshot_v1 b) with
    | Err e => Some (Err e)
    | Ok _ => check_receipts (b_context b) expected_registry expected_semantics limits (b_entries b)
    end
  end.

(** The first loop of the producer: what it can refuse before auditing. *)
Fixpoint produce_precheck limits (i links : Z) (steps : list CommittedStep) : result BundleProducerError unit :=
  match steps with
  | [] => Ok tt
  | s :: l =>
    if decide (outcome_class (observation s) ≠ Derived)
    then Err (ProducerObservationNotDerived i (outcome_class (observation s))) else
    let g_count := Z.of_nat (length (generators (decomposition s))) in
    if decide (max_generators_per_step limits < g_count)%Z
    then Err (ProducerLimitExceeded (GeneratorsPerStepExceeded (max_generators_per_step limits) g_count)) else
    links ← map_err ProducerLimitExceeded (charge_links (max_cumulative_links limits) links g_count);
    let c_count := Z.of_nat (length (configs (decomposition s))) in
    if decide (max_configs_per_step limits < c_count)%Z
    then Err (ProducerLimitExceeded (ConfigsPerStepExceeded (max_configs_per_step limits) c_count)) else
    if decide (c_count ≠ g_count + 1)%Z then Err (ProducerLimitExceeded (ConfigGeneratorMismatch g_count c_count)) else
    produce_precheck limits (i + 1) links l
  end.

(** The second loop: the entries and the history they reach. *)
Fixpoint produce_entries (context : ContextId) (registry : GeneratorRegistry) (semantics : GeneratorSemanticsV1)
    limits (i : Z) (chain : History) (steps : list CommittedStep) :
    option (result BundleProducerError (list Entry * History)) :=
  match steps with
  | [] => Some (Ok ([], chain))
  | s :: l =>
    res ← audit_step s context registry semantics;
    match res with
    | ResUnknown reason => Some (Err (StepAuditUnknown i reason))
    | ResAudited a =>
      let receipt_bytes := canon_bytes (receipt a) in
      if decide (max_receipt_bytes limits < blen receipt_bytes)%Z
      then Some (Err (ProducerLimitExceeded (ReceiptBytesExceeded (max_receipt_bytes limits) (blen receipt_bytes)))) else
      let entry := mkEntry i (h_digest chain) (material_of s) receipt_bytes in
      if decide (max_entry_bytes limits < blen (canon_bytes entry))%Z
      then Some (Err (ProducerLimitExceeded (EntryBytesExceeded (max_entry_bytes limits) (blen (canon_bytes entry))))) else
      rest ← produce_entries context registry semantics limits (i + 1) (append chain s) l;
      Some ('(entries, chain) ← rest; Ok (entry :: entries, chain))
    end
  end.

Definition produce_audit_input_bundle_with_limits_v1 (journal : Journal) (context : ContextId)
    (registry : GeneratorRegistry) (semantics : GeneratorSemanticsV1) limits :
    option (result BundleProducerError SettlementAuditInputBundleV1) :=
  let n := Z.of_nat (length (steps journal)) in
  if decide (max_steps limits < n)%Z then Some (Err (ProducerLimitExceeded (StepsExceeded (max_steps limits) n))) else
  match produce_precheck limits 0 0 (steps journal) with
  | Err e => Some (Err e)
  | Ok _ =>
    res ← produce_entries context registry semantics limits 0 history_empty (steps journal);
    Some ('(entries, chain) ← res;
          if decide (h_digest chain ≠ chain_digest journal)
          then Err (ChainDigestMismatch (chain_digest journal) (h_digest chain)) else
          let bundle := mkBundle context entries (h_digest chain) in
          _ ← map_err ProducerLimitExceeded (validate_bundle_limits limits bundle);
          Ok bundle)
  end.

Definition produce_audit_input_bundle_v1 (journal : Journal) (context : ContextId)
    (registry : GeneratorRegistry) (semantics : GeneratorSemanticsV1) :=
  produce_audit_input_bundle_with_limits_v1 journal context registry semantics strict.
End bundle.

(** * Snapshots *)

Lemma to_committed_step_Ok m s : to_committed_step m = Ok s ↔
  m = material_of s ∧ verification (decomposition s) = Recorded ∧ chain_ok (decomposition s).
Proof.
  unfold to_committed_step, chain_ok. split.
  - intros (d & [-> Hl]%recorded_ok & [= <-])%result_bind_Ok. by destruct m.
  - intros (-> & Hv & Hc). rewrite result_bind_iff. exists (decomposition s). split.
    + apply recorded_ok. cbn. destruct (decomposition s); cbn in *. by subst.
    + by destruct s.
Qed.

Section snapshot.
Context `{Blake3}.

(** The entries record the steps, from the [i]th on, after the history. *)
Fixpoint records (i : Z) (chain : History) (entries : list Entry) (l : list CommittedStep) : Prop :=
  match entries, l with
  | [], [] => True
  | e :: entries', s :: l' =>
    e_ordinal e = i ∧ prefix_digest e = h_digest chain ∧ to_committed_step (step_material e) = Ok s ∧
    records (i + 1) (append chain s) entries' l'
  | _, _ => False
  end.

Lemma snapshot_from_Ok i chain entries c :
  snapshot_from i chain entries = Ok c ↔ ∃ l, records i chain entries l ∧ c = fold_left append l chain.
Proof.
  revert i chain. induction entries as [|e entries IH]; intros i chain; cbn [snapshot_from].
  - split; [intros [= <-]; by exists []|]. by intros ([] & ? & ->).
  - split.
    + case_decide as Ho; [done|]. case_decide as Hp; [done|]. intros (s & Hs & Hr)%result_bind_Ok.
      apply IH in Hr as (l & Hl & ->). destruct (to_committed_step (step_material e)) as [s'|] eqn:E; [|done].
      injection Hs as ->. exists (s :: l). split; [|done]. cbn. by rewrite E.
    + intros ([|s l] & Hrec & ->); [done|]. cbn in Hrec. destruct Hrec as (Ho & Hp & Hs & Hrec).
      do 2 (rewrite decide_False by (intros Hn; by apply Hn)). rewrite Hs. cbn. apply IH. eauto.
Qed.

Lemma records_ordered i chain entries l : records i chain entries l → ordered i entries.
Proof.
  revert i chain l. induction entries as [|e entries IH]; intros i chain [|s l]; cbn; try done.
  intros (? & _ & _ & ?). eauto.
Qed.

Lemma records_materials i chain entries l : records i chain entries l → step_material <$> entries = material_of <$> l.
Proof.
  revert i chain l. induction entries as [|e entries IH]; intros i chain [|s l]; cbn; try done.
  intros (_ & _ & [-> _]%to_committed_step_Ok & ?). f_equal. eauto.
Qed.

(** A bundle's entries are determined by the steps they record and their receipts. *)
Lemma records_inj i chain e1 e2 l : records i chain e1 l → records i chain e2 l →
  e_receipt_bytes <$> e1 = e_receipt_bytes <$> e2 → e1 = e2.
Proof.
  revert i chain e2 l. induction e1 as [|x e1 IH]; intros i chain [|y e2] [|s l]; cbn; try done.
  intros (O1 & P1 & [M1 _]%to_committed_step_Ok & R1) (O2 & P2 & [M2 _]%to_committed_step_Ok & R2) [= Hr Hrs].
  f_equal; [|by eapply IH]. destruct x, y; cbn in *. congruence.
Qed.

Definition snapshot_of (b : SettlementAuditInputBundleV1) (l : list CommittedStep) : Prop :=
  records 0 history_empty (b_entries b) l ∧ final_chain_digest b = h_digest (fold_history l).

Lemma snapshot_Ok b c : validate_audit_input_bundle_snapshot_v1 b = Ok c ↔ ∃ l, snapshot_of b l ∧ c = fold_history l.
Proof.
  unfold validate_audit_input_bundle_snapshot_v1, snapshot_of. rewrite result_bind_iff. split.
  - intros (c' & (l & Hl & ->)%snapshot_from_Ok & Hc). case_decide as Hd; [done|]. injection Hc as <-.
    exists l. by split_and!.
  - intros (l & [Hl Hf] & ->). exists (fold_history l). split; [apply snapshot_from_Ok; by exists l|].
    by rewrite decide_False by (intros Hn; by apply Hn).
Qed.

End snapshot.

(** A snapshot binds its journal. Validation succeeds exactly when the entries, numbered
    from zero, record a list of steps each of whose prefix digests is the history's, and the
    last history has the final digest; it returns that history, and a journal it was taken
    from has the bundle's digest. Two valid snapshots with one final digest record the same
    steps, unless two of the messages hashed for them collide: no step can be dropped,
    changed or reordered, nor a suffix cut. *)
Theorem snapshot_exact `{Blake3Laws} :
  (∀ b c, validate_audit_input_bundle_snapshot_v1 b = Ok c ↔ ∃ l, snapshot_of b l ∧ c = fold_history l) ∧
  (∀ b l j, snapshot_of b l → journal_reachable j → steps j = l → chain_digest j = final_chain_digest b) ∧
  (∀ b1 b2 l1 l2, snapshot_of b1 l1 → snapshot_of b2 l2 → Forall step_ok l1 → Forall step_ok l2 →
     final_chain_digest b1 = final_chain_digest b2 →
     (l1 = l2 ∧ step_material <$> b_entries b1 = step_material <$> b_entries b2 ∧
        prefix_digest <$> b_entries b1 = prefix_digest <$> b_entries b2) ∨
     collision_among (message <$> history_payloads l1 ++ history_payloads l2)).
Proof.
  split_and!.
  - apply snapshot_Ok.
  - intros b l j [_ Hf] Hj <-. unfold chain_digest. by rewrite (journal_reachable_chain j Hj).
  - intros b1 b2 l1 l2 [R1 F1] [R2 F2] W1 W2 Heq. rewrite F1, F2 in Heq.
    destruct (fold_history_binds l1 l2 W1 W2 Heq) as [<-|?]; [left|by right]. split; [done|]. split.
    + by rewrite (records_materials _ _ _ _ R1), (records_materials _ _ _ _ R2).
    + clear -R1 R2. revert R1 R2. generalize 0%Z history_empty (b_entries b1) (b_entries b2). clear.
      induction l1 as [|s l IH]; intros i c [|x e1] [|y e2]; cbn; try done.
      intros (_ & -> & _ & ?) (_ & -> & _ & ?). f_equal. eauto.
Qed.

(** * Verification *)

Section verify.
Context `{Blake3Laws} (context : ContextId) (registry : GeneratorRegistry) (semantics : GeneratorSemanticsV1).
Context (limits : AuditDecodeLimits) (Hlim : limits_ok limits) (Hctx : id_ok context).

(** The receipt the audit of a step issues. *)
Definition receipt_of (s : CommittedStep) : SettlementAuditReceiptV1 :=
  receipt (audit_artifacts s context registry semantics).

Definition audits (s : CommittedStep) : Prop := auditable s context registry semantics.

Lemma check_receipt_of b s max id : chain_ok (decomposition s) →
  check_audit_receipt_bytes_v1 b s context registry semantics max = Some (Ok id) ↔
  length b ≤ max ∧ audits s ∧ require_matches_registry semantics registry = Ok tt ∧
  b = canon_bytes (receipt_of s) ∧ id = receipt_id (receipt_of s).
Proof.
  intros Hs. rewrite check_receipt_bytes_Ok by done. split.
  - intros (Hl & a & r & [Ha ->]%audit_artifacts_unique & Hm & -> & -> & ->); done.
  - intros (Hl & Ha & Hm & -> & ->). split; [done|]. eexists _, _. split; [by apply audit_artifacts_unique|]. done.
Qed.

Lemma records_chain_ok i c entries l : records i c entries l → Forall (λ s, chain_ok (decomposition s)) l.
Proof using Type.
  revert i c l. induction entries as [|e entries IH]; intros i c [|s l]; cbn; try done.
  intros (_ & _ & (_ & _ & ?)%to_committed_step_Ok & ?). constructor; eauto.
Qed.

Lemma check_receipts_total i c entries l : records i c entries l →
  ∃ r, check_receipts context registry semantics limits entries = Some r.
Proof using Type.
  revert i c l. induction entries as [|e entries IH]; intros i c [|s l]; cbn [records check_receipts]; try done; [by eexists|].
  intros (_ & _ & Hs & Hr). rewrite Hs. apply to_committed_step_Ok in Hs as (_ & _ & Hs).
  destruct (check_receipt_bytes_total (e_receipt_bytes e) s context registry semantics (Z.to_nat (max_receipt_bytes limits)) Hs)
    as [[id|err] ->]; cbn; [|by eexists]. destruct (IH _ _ _ Hr) as [r ->]. by eexists.
Qed.

Lemma check_receipts_Ok i c entries l ids : records i c entries l →
  Forall (λ e, blen (e_receipt_bytes e) ≤ max_receipt_bytes limits)%Z entries →
  check_receipts context registry semantics limits entries = Some (Ok ids) ↔
  Forall audits l ∧ (l = [] ∨ require_matches_registry semantics registry = Ok tt) ∧
  e_receipt_bytes <$> entries = (λ s, canon_bytes (receipt_of s)) <$> l ∧ ids = receipt_id ∘ receipt_of <$> l.
Proof.
  revert i c l ids. induction entries as [|e entries IH]; intros i c [|s l] ids; cbn [records check_receipts]; try done.
  - intros _ _. split; [intros [= <-]; split_and!; [constructor|by left|done..]|by intros (_ & _ & _ & ->)].
  - intros (_ & _ & Hs & Hr) [He Hes]%Forall_cons. rewrite Hs. apply to_committed_step_Ok in Hs as (_ & _ & Hs).
    rewrite Forall_cons, !fmap_cons. pose proof (λ ids, IH _ _ _ ids Hr Hes) as HI. split.
    + intros Hc. destruct (check_audit_receipt_bytes_v1 _ s _ _ _ _) as [[id|err]|] eqn:E; cbn in Hc; [|done..].
      destruct (check_receipts _ _ _ _ entries) as [[ids'|err]|] eqn:E2; cbn in Hc; [|done..]. injection Hc as <-.
      apply (check_receipt_of _ _ _ _ Hs) in E as (_ & Ha & Hm & -> & ->).
      destruct (proj1 (HI ids') eq_refl) as (Has & _ & -> & ->). split_and!; try done. by right.
    + intros ([Ha Has] & [?|Hm] & [= Hb Hbs] & ->); [done|].
      rewrite (proj2 (check_receipt_of (e_receipt_bytes e) s _ (receipt_id (receipt_of s)) Hs)).
      * cbn. rewrite (proj2 (HI (receipt_id ∘ receipt_of <$> l))); [done|]. split_and!; try done. by right.
      * split_and!; try done. unfold blen in He. lia.
Qed.
End verify.

Lemma check_bundle_spec `{Blake3Laws} b registry semantics limits
    (Hlim : limits_ok limits) (Hctx : id_ok (b_context b)) :
  let audited_by := λ s, auditable s (b_context b) registry semantics in
  let receipt_for := receipt_of (b_context b) registry semantics in
  (∃ r, check_audit_input_bundle_v1 b registry semantics limits = Some r) ∧
  (∀ ids, check_audit_input_bundle_v1 b registry semantics limits = Some (Ok ids) ↔
     bundle_fits limits b ∧ ∃ l, snapshot_of b l ∧ Forall audited_by l ∧
       (l = [] ∨ require_matches_registry semantics registry = Ok tt) ∧
       e_receipt_bytes <$> b_entries b = (λ s, canon_bytes (receipt_for s)) <$> l ∧
       ids = receipt_id ∘ receipt_for <$> l).
Proof.
  intros audited_by receipt_for. unfold check_audit_input_bundle_v1.
  pose proof (validate_bundle_limits_Ok limits Hlim b) as Hv.
  destruct (validate_bundle_limits limits b) as [[]|e] eqn:Ev; cbn [map_err].
  2: { split; [by eexists|]. intros ids. split; [done|]. intros [Hf _]. by apply Hv in Hf. }
  pose proof (proj1 Hv eq_refl) as Hfit. pose proof (snapshot_Ok b) as Hs.
  destruct (validate_audit_input_bundle_snapshot_v1 b) as [c|e] eqn:Es; cbn [map_err].
  2: { split; [by eexists|]. intros ids. split; [done|]. intros (_ & l & Hl & _).
       by discriminate (proj2 (Hs (fold_history l)) ltac:(eauto)). }
  destruct (proj1 (Hs c) eq_refl) as (l & Hl & _). split; [eapply check_receipts_total, Hl|].
  assert (Forall (λ e, blen (e_receipt_bytes e) ≤ max_receipt_bytes limits)%Z (b_entries b)) as Hr.
  { destruct Hfit as [(_ & Hf & _) _]. eapply Forall_impl; [exact Hf|]. intros e (_ & ? & _). done. }
  pose proof (λ l ids Hl, check_receipts_Ok _ registry semantics limits Hctx 0 history_empty (b_entries b) l ids Hl Hr) as Hiff. intros ids. split.
  - intros Hc. split; [done|]. exists l. split; [done|]. exact (proj1 (Hiff l ids (proj1 Hl)) Hc).
  - intros (_ & l' & Hl' & Hc). exact (proj2 (Hiff l' ids (proj1 Hl')) Hc).
Qed.

(** * Production *)

Section produce.
Context `{Blake3} (context : ContextId) (registry : GeneratorRegistry) (semantics : GeneratorSemanticsV1).
Context (limits : AuditDecodeLimits).
Abbreviation receipt_for := (receipt_of context registry semantics).

Fixpoint entries_of (i : Z) (chain : History) (l : list CommittedStep) : list Entry :=
  match l with
  | [] => []
  | s :: l' => mkEntry i (h_digest chain) (material_of s) (canon_bytes (receipt_for s)) :: entries_of (i + 1) (append chain s) l'
  end.

(** The bundle of a journal. *)
Definition bundle_of (j : Journal) : SettlementAuditInputBundleV1 :=
  mkBundle context (entries_of 0 history_empty (steps j)) (h_digest (fold_history (steps j))).

Lemma entries_of_records i chain l : Forall (λ s, verification (decomposition s) = Recorded ∧ chain_ok (decomposition s)) l →
  records i chain (entries_of i chain l) l.
Proof.
  revert i chain. induction l as [|s l IH]; intros i chain; [done|]. intros [[Hv Hc] Hl]%Forall_cons. cbn.
  split_and!; try done; [by apply to_committed_step_Ok|by apply IH].
Qed.

Lemma entries_of_receipts i chain l :
  e_receipt_bytes <$> entries_of i chain l = (λ s, canon_bytes (receipt_for s)) <$> l.
Proof. revert i chain. induction l as [|s l IH]; intros i chain; cbn; [done|]. f_equal. apply IH. Qed.

Lemma entries_of_materials i chain l : step_material <$> entries_of i chain l = material_of <$> l.
Proof. revert i chain. induction l as [|s l IH]; intros i chain; cbn; [done|]. f_equal. apply IH. Qed.

Lemma entries_of_length i chain l : length (entries_of i chain l) = length l.
Proof. revert i chain. induction l as [|s l IH]; intros i chain; cbn; [done|]. f_equal. apply IH. Qed.

Lemma produce_entries_spec i chain l : Forall (λ s, chain_ok (decomposition s)) l →
  ∃ r, produce_entries context registry semantics limits i chain l = Some r ∧ ∀ es c, r = Ok (es, c) ↔
    Forall (λ s, auditable s context registry semantics) l ∧ es = entries_of i chain l ∧ c = fold_left append l chain ∧
    Forall (λ e, blen (e_receipt_bytes e) ≤ max_receipt_bytes limits ∧ blen (canon_bytes e) ≤ max_entry_bytes limits)%Z es.
Proof.
  revert i chain. induction l as [|s l IH]; intros i chain Hl; cbn [produce_entries].
  { eexists. split; [done|]. intros es c. cbn. split; [intros [= <- <-]|intros (_ & -> & -> & _)]; done. }
  apply Forall_cons in Hl as [Hs Hl].
  destruct (audit_step_spec s context registry semantics Hs) as [[Ha ->]|[Ha [reason ->]]]; cbn [mbind option_bind].
  2: { eexists. split; [done|]. intros es c. split; [done|]. by intros ([? _]%Forall_cons & _). }
  change (receipt (audit_artifacts s context registry semantics)) with (receipt_for s). cbv zeta.
  set (e := mkEntry i (h_digest chain) (material_of s) (canon_bytes (receipt_for s))).
  case_decide as Hr; [eexists; split; [done|]; intros es c; split; [done|]|].
  { intros (_ & -> & _ & [[? _] _]%Forall_cons). cbn in *. lia. }
  case_decide as He; [eexists; split; [done|]; intros es c; split; [done|]|].
  { intros (_ & -> & _ & [[_ ?] _]%Forall_cons). fold e in H0. lia. }
  destruct (IH (i + 1)%Z (append chain s) Hl) as (r & -> & Hiff). cbn [mbind option_bind]. eexists. split; [done|].
  intros es c. rewrite Forall_cons. destruct r as [[es' c']|err]; cbn.
  - destruct (proj1 (Hiff es' c') eq_refl) as (Has & -> & -> & Hfit). split.
    + intros [= <- <-]. split_and!; try done. constructor; [|done].
      split; [change (e_receipt_bytes e) with (canon_bytes (receipt_for s))|]; lia.
    + intros (_ & -> & -> & _). done.
  - split; [done|]. intros ([_ Has] & -> & -> & [_ Hfit]%Forall_cons). cbn in *.
    by discriminate (proj2 (Hiff _ _) (conj Has (conj eq_refl (conj eq_refl Hfit)))).
Qed.

Lemma precheck_fits i links l k chain : counter_ok (max_cumulative_links limits) links →
  Forall (material_fits limits) (material_of <$> l) →
  (links + total entry_links (entries_of k chain l) ≤ max_cumulative_links limits)%Z →
  produce_precheck limits i links l = Ok tt.
Proof.
  revert i links k chain. induction l as [|s l IH]; intros i links k chain Hc Hm Ht; [done|].
  rewrite fmap_cons, Forall_cons in Hm. destruct Hm as [(Ho & Hg & Hcm & Hgc) Hm].
  unfold g_count, c_count, total in *. cbn [entries_of foldr] in Ht. unfold entry_links at 1, g_count at 1 in Ht.
  cbn [step_material material_of m_generators m_configs m_observation outcome_class] in *.
  pose proof (total_pos entry_links (entries_of (k + 1) (append chain s) l) ltac:(intros; unfold entry_links, g_count; lia)).
  unfold total, counter_ok in *. cbn [produce_precheck]. cbv zeta. unfold charge_links.
  rewrite decide_False by (rewrite Ho; intros Hn; by apply Hn). rewrite decide_False by lia.
  rewrite (proj2 (charge_Ok _ _ (max_cumulative_links limits) links (Z.of_nat (length (generators (decomposition s)))) _ ltac:(lia)))
    by (split; [reflexivity|lia]).
  cbn [map_err mbind result_bind]. do 2 (rewrite decide_False by lia). eapply IH; [lia|exact Hm|]. unfold total.
  instantiate (1 := append chain s). instantiate (1 := (k + 1)%Z). lia.
Qed.

Lemma produce_spec (Hlim : limits_ok limits) j : Forall (λ s, chain_ok (decomposition s)) (steps j) →
  (∃ r, produce_audit_input_bundle_with_limits_v1 j context registry semantics limits = Some r) ∧
  (∀ b, produce_audit_input_bundle_with_limits_v1 j context registry semantics limits = Some (Ok b) ↔
     Forall (λ s, auditable s context registry semantics) (steps j) ∧
     h_digest (fold_history (steps j)) = chain_digest j ∧ b = bundle_of j ∧ bundle_fits limits b).
Proof.
  intros Hj. unfold produce_audit_input_bundle_with_limits_v1. cbv zeta. unfold bundle_fits, fields_within.
  case_decide as Hn.
  { split; [by eexists|]. intros b. split; [done|]. intros (_ & _ & -> & [(Hl & _) _]). cbn in Hl. rewrite entries_of_length in Hl. lia. }
  destruct (produce_precheck limits 0 0 (steps j)) as [[]|err] eqn:Ep.
  2: { split; [by eexists|]. intros b. split; [done|]. intros (_ & _ & -> & [(_ & Hf & Hl & _) _]). exfalso.
       rewrite (precheck_fits 0 0 (steps j) 0 history_empty) in Ep; [done| | |exact Hl].
       - unfold limits_ok in Hlim. rewrite !Forall_cons in Hlim. unfold counter_ok. lia.
       - cbn in Hf. rewrite <-(entries_of_materials 0 history_empty), Forall_fmap. eapply Forall_impl; [exact Hf|].
         by intros e [? _]. }
  destruct (produce_entries_spec 0 history_empty (steps j) Hj) as (r & -> & Hr). cbn [mbind option_bind].
  split; [by eexists|]. intros b. split.
  - destruct r as [[es c]|err]; [|done]. cbn [mbind result_bind]. destruct (proj1 (Hr es c) eq_refl) as (Ha & -> & -> & _).
    case_decide as Hd; [done|]. intros [=Hb]. apply result_bind_Ok in Hb as ([] & Hv & [= <-]).
    destruct (validate_bundle_limits limits _) as [[]|] eqn:Ev in Hv; [|done].
    apply (validate_bundle_limits_Ok limits Hlim) in Ev. done.
  - intros (Ha & Hd & -> & Hf). pose proof Hf as [(_ & Hfe & _) _].
    rewrite (proj2 (Hr (entries_of 0 history_empty (steps j)) (fold_history (steps j)))).
    + cbn [mbind result_bind]. rewrite decide_False by (intros Hx; by apply Hx). fold (bundle_of j).
      by rewrite (proj2 (validate_bundle_limits_Ok limits Hlim (bundle_of j)) Hf).
    + split_and!; try done. eapply Forall_impl; [exact Hfe|]. intros e (_ & ? & ?). done.
Qed.
End produce.

(** ** What is produced can be transported *)

Lemma concat_in {A} (f : A → bytes) x l : x ∈ l → ∃ l1 l2, concat (f <$> l) = l1 ++ f x ++ l2.
Proof.
  intros (l1 & l2 & ->)%list_elem_of_split. exists (concat (f <$> l1)), (concat (f <$> l2)).
  by rewrite fmap_app, concat_app.
Qed.

Lemma payload_part w l v r : w = l ++ frame v ++ r → payload_wf w → payload_wf v.
Proof.
  intros ->. unfold payload_wf, len_ok, frame. rewrite !Forall_app, !length_app. intros [(_ & [_ ?] & _) ?]. split; [done|lia].
Qed.

Lemma entries_of_ok `{Blake3Laws} context registry semantics i c l :
  Forall (λ e, payload_wf (canon_bytes e)) (entries_of context registry semantics i c l) →
  digest_ok (h_digest c) → (0 ≤ i ∧ i + Z.of_nat (length l) < 2^63)%Z → Forall step_ok l →
  entries_ok (entries_of context registry semantics i c l).
Proof.
  unfold entries_ok. revert i c.
  induction l as [|s l IH]; intros i c Hp Hd Hi Hs; [constructor|]. cbn [entries_of] in *.
  apply Forall_cons in Hp as [Hp Hps], Hs as [Hs Hss]. cbn [length] in Hi. constructor.
  - split; [done|]. unfold entry_ok. cbn [e_ordinal prefix_digest step_material e_receipt_bytes].
    split; [unfold u64_ok; lia|]. split; [done|]. split.
    + destruct Hs as (? & ? & (_ & ? & _ & ?) & ? & ? & ? & _). by split_and!.
    + rewrite entry_bytes in Hp. revert Hp. cbn [e_ordinal prefix_digest step_material e_receipt_bytes].
      generalize (encode_uint i) (digest_frame (h_digest c)) (canon_bytes (material_of s)). intros a1 a2 a3.
      apply (payload_part _ (a1 ++ a2 ++ a3) _ []). by rewrite app_nil_r, <-!app_assoc.
  - apply IH; [done|apply digest_of_ok|lia|done].
Qed.

Lemma bundle_of_ok `{Blake3Laws} context registry semantics j :
  id_ok context → Forall step_ok (steps j) → payload_wf (canon_bytes (bundle_of context registry semantics j)) →
  bundle_ok (bundle_of context registry semantics j).
Proof.
  intros Hc Hs Hw. split; [done|]. split; [|apply fold_history_ok]. cbn [b_entries bundle_of].
  assert (Forall (λ e, payload_wf (canon_bytes e)) (entries_of context registry semantics 0 history_empty (steps j))) as Hp.
  { apply Forall_forall. intros e He. rewrite bundle_bytes in Hw. cbn [b_entries bundle_of] in Hw.
    destruct (concat_in entry_frame e _ He) as (l1 & l2 & Hcat). rewrite Hcat in Hw. revert Hw.
    generalize (frame marker) (encode_uint BUNDLE_VERSION_V1) (frame profile) (digest_frame (digest (b_context (bundle_of context registry semantics j)))).
    generalize (encode_uint (Z.of_nat (length (entries_of context registry semantics 0 history_empty (steps j))))).
    generalize (digest_frame (final_chain_digest (bundle_of context registry semantics j))). intros f a1 a2 a3 a4 a5.
    apply (payload_part _ (a2 ++ a3 ++ a4 ++ a5 ++ a1 ++ l1) _ (l2 ++ f)). unfold entry_frame. by rewrite <-!app_assoc. }
  assert (len_ok (entries_of context registry semantics 0 history_empty (steps j))) as Hlen.
  { destruct Hw as [_ Hw]. rewrite bundle_bytes in Hw. cbn [b_entries bundle_of] in Hw. unfold len_ok in *. rewrite !length_app in Hw.
    assert (∀ l : list Entry, length l ≤ length (concat (entry_frame <$> l))) as Hcl.
    { induction l as [|e l IH]; cbn; [lia|]. rewrite length_app. unfold entry_frame at 1, frame at 1. rewrite length_app.
      assert (0 < length (encode_uint (Z.of_nat (length (canon_bytes e))))) by (unfold encode_uint; case_decide; cbn; lia). lia. }
    specialize (Hcl (entries_of context registry semantics 0 history_empty (steps j))). lia. }
  unfold len_ok in Hlen. rewrite entries_of_length in Hlen.
  assert (digest_ok (h_digest history_empty)) as Hd by apply digest_of_ok.
  assert (0 ≤ 0 ∧ 0 + Z.of_nat (length (steps j)) < 2^63)%Z as Hi by lia.
  revert Hp Hd Hi Hs. apply entries_of_ok. Qed.

(** C28: Verification is exact. It never panics, and accepts a bundle exactly when the bundle
    is within the limits, its snapshot is valid, every step it records audits here and now,
    every receipt is, byte for byte, the one that audit issues, and (unless there is no step)
    the semantics declares exactly the registry's generators; it returns those receipts' identities. Nothing the bundle
    says is taken on trust. *)
Theorem bundle_check_exact `{Blake3Laws} b registry semantics limits
    (Hlim : limits_ok limits) (Hctx : id_ok (b_context b)) :
  let audited_by := λ s, auditable s (b_context b) registry semantics in
  let receipt_for := receipt_of (b_context b) registry semantics in
  (∃ r, check_audit_input_bundle_v1 b registry semantics limits = Some r) ∧
  (∀ ids, check_audit_input_bundle_v1 b registry semantics limits = Some (Ok ids) ↔
     bundle_fits limits b ∧ ∃ l, snapshot_of b l ∧ Forall audited_by l ∧
       (l = [] ∨ require_matches_registry semantics registry = Ok tt) ∧
       e_receipt_bytes <$> b_entries b = (λ s, canon_bytes (receipt_for s)) <$> l ∧
       ids = receipt_id ∘ receipt_for <$> l).
Proof. by apply check_bundle_spec. Qed.

(** C29: The producer and the verifier agree. Production never panics and emits a bundle
    exactly when every step of the journal audits, the history of the steps has the journal's
    digest, and the bundle of those steps is within the limits. What is emitted survives
    transport: its encoding is admitted by the same limits and decodes to it, it is a
    snapshot of the journal's steps, and the verifier accepts it with the receipts of those
    steps; except that the verifier also requires the semantics to declare exactly the
    registry's generators, which the producer does not check. *)
Theorem bundle_produce_exact `{Blake3Laws} j context registry semantics limits
    (Hlim : limits_ok limits) (Hctx : id_ok context) (Hj : Forall step_ok (steps j))
    (Hchain : Forall (λ s, chain_ok (decomposition s)) (steps j)) :
  let produce := produce_audit_input_bundle_with_limits_v1 j context registry semantics limits in
  (∃ r, produce = Some r) ∧
  (∀ b, produce = Some (Ok b) ↔
     Forall (λ s, auditable s context registry semantics) (steps j) ∧ h_digest (fold_history (steps j)) = chain_digest j ∧
     b = bundle_of context registry semantics j ∧ bundle_fits limits b) ∧
  (∀ b, produce = Some (Ok b) →
     encode_audit_input_bundle_v1 limits b = Ok (canon_bytes b) ∧
     (payload_wf (canon_bytes b) → decode_audit_input_bundle_v1 limits (canon_bytes b) = Ok b) ∧
     snapshot_of b (steps j) ∧ final_chain_digest b = chain_digest j ∧
     (check_audit_input_bundle_v1 b registry semantics limits =
        Some (Ok (receipt_id ∘ receipt_of context registry semantics <$> steps j)) ↔
      steps j = [] ∨ require_matches_registry semantics registry = Ok tt)).
Proof.
  intros produce. destruct (produce_spec context registry semantics limits Hlim j Hchain) as [Htot Hiff].
  split; [exact Htot|]. split; [exact Hiff|]. intros b (Ha & Hd & -> & Hf)%Hiff.
  assert (Forall (λ s, verification (decomposition s) = Recorded ∧ chain_ok (decomposition s)) (steps j)) as Hv.
  { apply Forall_forall. intros s Hs. rewrite !Forall_forall in *. split; [by apply (Ha s)|by apply Hchain]. }
  pose proof (entries_of_records context registry semantics 0 history_empty (steps j) Hv) as Hrec.
  split_and!; try done.
  - by apply encode_bundle_Ok.
  - intros Hw. apply decode_bundle_exact; [done..|]. split; [by apply bundle_of_ok|]. split; [|done].
    by eapply records_ordered.
  - destruct (check_bundle_spec (bundle_of context registry semantics j) registry semantics limits Hlim Hctx) as [_ Hc].
    rewrite Hc. split.
    + intros (_ & l & [Hl _] & _ & Hm & Hr & _). destruct Hm as [->|?]; [left|by right].
      cbn in Hl. by destruct (steps j).
    + intros Hm. split; [done|]. exists (steps j). split_and!; try done. apply entries_of_receipts.
Qed.

(** ** A journal of one step *)

#[local] Existing Instance demo_hash.

Definition logged : CommittedStep :=
  committed_step (mkKey 0 0 (mkDigest (replicate 32 1%Z))) demo_chain (demo_id 2) (demo_id 3) (demo_id 1) (demo_id 4).
Definition logged_journal : Journal := journal_append journal_new logged.
Definition logged_bundle : SettlementAuditInputBundleV1 := bundle_of (demo_id 4) {[ demo_id 1 ]} demo_semantics logged_journal.

Lemma logged_ok : step_ok logged.
Proof.
  unfold step_ok, logged, committed_step, key_ok, observation_ok, decomposition_ok.
  cbn [key observation decomposition step_src step_dst step_witness phase priority tiebreak
    judgement_digest demo_chain generators configs].
  split_and!; try by apply demo_id_ok.
  all: try (by apply (demo_id_ok (k := KConfig))).
  all: try (by repeat (constructor; [by apply demo_id_ok|])).
  all: try (apply digest_of_ok).
  all: try (apply from_canon_ok).
  all: vm_compute; done.
Qed.

Lemma logged_audits : auditable logged (demo_id 4) {[ demo_id 1 ]} demo_semantics.
Proof.
  split; [reflexivity|]. split; [reflexivity|]. split; [reflexivity|]. split; [reflexivity|].
  constructor; [|constructor]. split; [by apply elem_of_singleton|vm_compute; reflexivity].
Qed.

Lemma logged_fits : bundle_fits strict logged_bundle.
Proof. apply (validate_bundle_limits_Ok strict strict_ok). vm_compute. reflexivity. Qed.

Lemma logged_snapshot : snapshot_of logged_bundle [logged].
Proof.
  split; [|reflexivity]. apply entries_of_records. constructor; [|constructor]. split; reflexivity.
Qed.

Lemma snapshot_exact_witness :
  validate_audit_input_bundle_snapshot_v1 logged_bundle = Ok (fold_history [logged]).
Proof. apply (proj1 (@snapshot_exact demo_hash demo_hash_laws)). exists [logged]. split; [apply logged_snapshot|reflexivity]. Defined.

Lemma bundle_check_exact_witness :
  check_audit_input_bundle_v1 logged_bundle {[ demo_id 1 ]} demo_semantics strict =
  Some (Ok [receipt_id (receipt_of (demo_id 4) {[ demo_id 1 ]} demo_semantics logged)]).
Proof.
  refine (proj2 (proj2 (@bundle_check_exact demo_hash demo_hash_laws logged_bundle {[ demo_id 1 ]} demo_semantics strict
    strict_ok _) _) _); [by apply demo_id_ok|]. split; [exact logged_fits|]. exists [logged]. split; [exact logged_snapshot|].
  split; [constructor; [exact logged_audits|constructor]|]. split; [right; vm_compute; reflexivity|]. split; reflexivity.
Defined.

Lemma bundle_produce_exact_witness :
  produce_audit_input_bundle_v1 logged_journal (demo_id 4) {[ demo_id 1 ]} demo_semantics = Some (Ok logged_bundle) ∧
  decode_audit_input_bundle_v1 strict (canon_bytes logged_bundle) = Ok logged_bundle ∧
  snapshot_of logged_bundle [logged].
Proof.
  destruct (@bundle_produce_exact demo_hash demo_hash_laws logged_journal (demo_id 4) {[ demo_id 1 ]} demo_semantics strict
    strict_ok) as (_ & Hiff & Hb).
  - by apply demo_id_ok.
  - constructor; [exact logged_ok|constructor].
  - constructor; [reflexivity|constructor].
  - assert (produce_audit_input_bundle_with_limits_v1 logged_journal (demo_id 4) {[ demo_id 1 ]} demo_semantics strict =
      Some (Ok logged_bundle)) as Hp.
    { apply Hiff. split; [constructor; [exact logged_audits|constructor]|]. split; [reflexivity|]. split; [reflexivity|exact logged_fits]. }
    split; [exact Hp|]. destruct (Hb logged_bundle Hp) as (_ & Hd & Hs & _). split; [apply Hd|exact Hs].
    split; [apply (bool_decide_unpack _); vm_compute; exact I|vm_compute; reflexivity].
Defined.

(** The producer does not check the semantics against the registry: with a generator the
    semantics does not declare, it emits a bundle that the verifier refuses. *)
Definition small : AuditDecodeLimits := mkLimits 10000 10 10000 10000 10 10 10 10000.

Lemma produced_bundle_refused :
  let registry : GeneratorRegistry := {[ demo_id 1; demo_id 5 ]} in
  let bundle := bundle_of (demo_id 4) registry demo_semantics logged_journal in
  produce_audit_input_bundle_with_limits_v1 logged_journal (demo_id 4) registry demo_semantics small = Some (Ok bundle) ∧
  check_audit_input_bundle_v1 bundle registry demo_semantics small = Some (Err (CheckReceipt 0 SemanticsRegistryDisagreement)).
Proof. vm_compute. split; reflexivity. Qed.
