(* ===== verification/Trie.v ===== *)
(** The persistent map (src/crates/soc-core/src/store.rs, up to the node store).

    [TrieMap] is a 16-way radix trie over the nibbles of a 256-bit key hash, with path
    compression, collision buckets and Merkle digests; [ArcMap] is the reference
    snapshot map. [Arc] is the identity, the memoised digest of a node is the function
    [node_digest], and [None] is a panic. TrieLaws.v has what the trie promises. *)
From S2P Require Import Prelude IntCodec Canon CanonLaws.

(** * Hashes and nibbles *)

(** [get_nibble]; an index of 64 or more is out of bounds. *)
Definition get_nibble (hash : bytes) (index : nat) : option Z :=
  byte ← hash !! (index `div` 2);
  Some (if Nat.even index then Z.land (Z.shiftr byte 4) 15 else Z.land byte 15).

(** The loop of [common_prefix_len]; 64 iterations are all it can make. *)
Fixpoint common_prefix_loop (h1 h2 : bytes) (start len fuel : nat) : option nat :=
  match fuel with
  | O => Some len
  | S fuel' =>
    if decide (start + len < 64) then
      n1 ← get_nibble h1 (start + len);
      n2 ← get_nibble h2 (start + len);
      if decide (n1 = n2) then common_prefix_loop h1 h2 start (S len) fuel' else Some len
    else Some len
  end.

Definition common_prefix_len (h1 h2 : bytes) (start : nat) : option nat :=
  common_prefix_loop h1 h2 start 0 64.

(** The trait [KeyHasher]. *)
Definition KeyHasher (K : Type) : Type := K → bytes.

Definition CanonHasher `{Blake3} {K} `{Canonical K} : KeyHasher K := λ key,
  as_bytes (canon_digest key Value).

(** [ModuloHasher { modulus }]. *)
Definition ModuloHasher `{Blake3} {K} `{Canonical K} (modulus : Z) : KeyHasher K := λ key,
  let full := canon_digest key Value in
  let val := from_be_bytes 0 (take 8 (as_bytes full)) in
  let rem := if decide (modulus > 0)%Z then (val mod modulus)%Z else 0%Z in
  to_be_bytes 8 rem ++ replicate 24 0%Z.

(** * Bitmaps *)

(** [1u16 << nibble]. *)
Definition bit (nibble : Z) : Z := Z.shiftl 1 nibble.

(** The positions of the bits of a [u16], least first. *)
Definition slots (bitmap : Z) : list Z :=
  filter (λ n, Z.testbit bitmap n = true) (seqZ 0 16).

(** [u16::count_ones], [u16::trailing_zeros]. *)
Definition count_ones (bitmap : Z) : nat := length (slots bitmap).
Definition trailing_zeros (bitmap : Z) : Z := default 16%Z (head (slots bitmap)).

(** * Cost counters *)

Record TrieOpStats : Type := mkStats {
  nodes_allocated : nat;
  nodes_visited : nat;
  nodes_hashed : nat;
  key_comparisons : nat
}.

Definition stats_default : TrieOpStats := mkStats 0 0 0 0.
Definition visit (s : TrieOpStats) : TrieOpStats :=
  mkStats (nodes_allocated s) (S (nodes_visited s)) (nodes_hashed s) (key_comparisons s).
Definition compared (n : nat) (s : TrieOpStats) : TrieOpStats :=
  mkStats (nodes_allocated s) (nodes_visited s) (nodes_hashed s) (key_comparisons s + n).
(** [stats.nodes_allocated += n; stats.nodes_hashed += n]. *)
Definition built (n : nat) (s : TrieOpStats) : TrieOpStats :=
  mkStats (nodes_allocated s + n) (nodes_visited s) (nodes_hashed s + n) (key_comparisons s).

(** * Nodes *)

Record LeafNode (K V : Type) : Type := mkLeaf { leaf_key : K; leaf_value : V; leaf_hash : bytes }.
Arguments mkLeaf {K V} _ _ _.
Arguments leaf_key {K V} _.
Arguments leaf_value {K V} _.
Arguments leaf_hash {K V} _.

Record CollisionNode (K V : Type) : Type := mkColl { coll_hash : bytes; coll_entries : list (K * V) }.
Arguments mkColl {K V} _ _.
Arguments coll_hash {K V} _.
Arguments coll_entries {K V} _.

#[local] Unset Elimination Schemes.

(** [Node]; the fields of [BranchNode] are the arguments of its constructor. *)
Inductive TrieNode (K V : Type) : Type :=
  | Leaf (leaf : LeafNode K V)
  | Collision (coll : CollisionNode K V)
  | Branch (prefix : list Z) (bitmap : Z) (children : list (TrieNode K V))
  | Lazy (d : Digest).
Arguments Leaf {K V} _.
Arguments Collision {K V} _.
Arguments Branch {K V} _ _ _.
Arguments Lazy {K V} _.

#[local] Set Elimination Schemes.

(** Induction with the hypothesis for every child. *)
Section node_ind.
Context {K V : Type} (P : TrieNode K V → Prop).
Hypothesis HL : ∀ l, P (Leaf l).
Hypothesis HC : ∀ c, P (Collision c).
Hypothesis HB : ∀ pre bm cs, Forall P cs → P (Branch pre bm cs).
Hypothesis HZ : ∀ d, P (Lazy d).

Fixpoint TrieNode_rect' (n : TrieNode K V) : P n :=
  match n with
  | Leaf l => HL l
  | Collision c => HC c
  | Branch pre bm cs => HB pre bm cs
      ((fix go (l : list (TrieNode K V)) : Forall P l :=
          match l with [] => Forall_nil_2 P | c :: l' => Forall_cons_2 P c l' (TrieNode_rect' c) (go l') end) cs)
  | Lazy d => HZ d
  end.
End node_ind.

(** [child_index]: the number of children below the nibble's. *)
Definition child_index (bitmap nibble : Z) : option nat :=
  let mask := bit nibble in
  if decide (Z.land bitmap mask = 0%Z) then None
  else Some (count_ones (Z.land bitmap (mask - 1))).

(** [for (i, &nib) in prefix.iter().enumerate() { if get_nibble(hash, depth + i) != nib
    { return } }]: whether all match. *)
Fixpoint prefix_matches (hash : bytes) (depth : nat) (prefix : list Z) : option bool :=
  match prefix with
  | [] => Some true
  | nib :: rest =>
    n ← get_nibble hash depth;
    if decide (n = nib) then prefix_matches hash (S depth) rest else Some false
  end.

(** The [while] loop of the insertion: how much of the prefix matches. *)
Fixpoint match_len (hash : bytes) (depth : nat) (prefix : list Z) : option nat :=
  match prefix with
  | [] => Some 0
  | nib :: rest =>
    n ← get_nibble hash depth;
    if decide (n = nib) then S <$> match_len hash (S depth) rest else Some 0
  end.

(** [Vec::insert], [Vec::remove]. *)
Definition vec_insert {A} (pos : nat) (x : A) (l : list A) : option (list A) :=
  if decide (pos ≤ length l) then Some (take pos l ++ x :: drop pos l) else None.
Definition vec_remove {A} (pos : nat) (l : list A) : option (list A) :=
  if decide (pos < length l) then Some (delete pos l) else None.

Section trie.
Context `{Blake3} {K V : Type} `{EqDecision K} `{Ord K} `{Canonical K} `{Canonical V}.
Abbreviation TNode := (TrieNode K V).

(** [CollisionNode::new]. *)
Definition collision_new (hash : bytes) (entries : list (K * V)) : CollisionNode K V :=
  mkColl hash (sort_by (cmp_on fst) entries).

(** ** Digests *)

Definition leaf_digest (l : LeafNode K V) : Digest :=
  digest_of Value ([] |> write_tag "brix:trie:leaf:v1" |> write_bytes (leaf_hash l)
    |> canon_write (leaf_key l) |> canon_write (leaf_value l)).

Definition collision_digest (c : CollisionNode K V) : Digest :=
  digest_of Value ([] |> write_tag "brix:trie:collision:v1" |> write_bytes (coll_hash c)
    |> write_uint (Z.of_nat (length (coll_entries c)))
    |> write_each (λ e w, w |> canon_write e.1 |> canon_write e.2) (coll_entries c)).

Definition branch_digest (prefix : list Z) (bitmap : Z) (children : list Digest) : Digest :=
  digest_of Value ([] |> write_tag "brix:trie:branch:v1" |> write_uint (Z.of_nat (length prefix))
    |> write_each write_uint prefix |> write_uint bitmap
    |> write_each (λ d, write_bytes (as_bytes d)) children).

(** [Node::digest]. *)
Fixpoint node_digest (node : TNode) : Digest :=
  match node with
  | Leaf l => leaf_digest l
  | Collision c => collision_digest c
  | Branch prefix bitmap children => branch_digest prefix bitmap (node_digest <$> children)
  | Lazy d => d
  end.

(** ** Lookup *)

(** The scan of a bucket: the value, and how many keys were compared. *)
Fixpoint bucket_get (key : K) (entries : list (K * V)) (n : nat) : option V * nat :=
  match entries with
  | [] => (None, n)
  | (k, v) :: rest => if decide (k = key) then (Some v, S n) else bucket_get key rest (S n)
  end.

Fixpoint get_recursive (node : TNode) : K → bytes → nat → TrieOpStats →
    option (option V * TrieOpStats) := λ key hash depth stats,
  let stats := visit stats in
  match node with
  | Leaf leaf =>
    if decide (leaf_hash leaf = hash) then
      let stats := compared 1 stats in
      if decide (leaf_key leaf = key) then Some (Some (leaf_value leaf), stats) else Some (None, stats)
    else Some (None, stats)
  | Collision coll =>
    if decide (coll_hash coll = hash) then
      let '(v, n) := bucket_get key (coll_entries coll) 0 in Some (v, compared n stats)
    else Some (None, stats)
  | Branch prefix bitmap children =>
    if decide (64 < depth + length prefix) then Some (None, stats) else
    m ← prefix_matches hash depth prefix;
    if negb m then Some (None, stats) else
    let branch_point := depth + length prefix in
    if decide (64 ≤ branch_point) then Some (None, stats) else
    nibble ← get_nibble hash branch_point;
    match child_index bitmap nibble with
    | None => Some (None, stats)
    | Some idx =>
      child ← (get_recursive <$> children) !! idx;
      child key hash (S branch_point) stats
    end
  | Lazy _ => None
  end.

(** ** Insertion *)

(** The bucket loop of the insertion: the first entry with the key gets the value. *)
Fixpoint bucket_put (key : K) (value : V) (entries : list (K * V)) (n : nat) :
    list (K * V) * bool * nat :=
  match entries with
  | [] => ([], false, n)
  | (k, v) :: rest =>
    if decide (k = key) then ((k, value) :: rest, true, S n)
    else let '(rest', found, n') := bucket_put key value rest (S n) in ((k, v) :: rest', found, n')
  end.

(** A leaf or bucket makes room for a key with another hash: a branch at the first
    nibble where the hashes differ. *)
Definition branch_off (node : TNode) (node_hash : bytes) (key : K) (value : V) (hash : bytes)
    (depth : nat) (stats : TrieOpStats) : option (TNode * bool * TrieOpStats) :=
  lcp ← common_prefix_len node_hash hash depth;
  let branch_point := depth + lcp in
  nibble_existing ← get_nibble node_hash branch_point;
  nibble_new ← get_nibble hash branch_point;
  let stats := built 2 stats in
  let new_leaf := Leaf (mkLeaf key value hash) in
  prefix ← mapM (get_nibble hash) (seq depth lcp);
  let bitmap := Z.lor (bit nibble_existing) (bit nibble_new) in
  let children := if decide (nibble_existing < nibble_new)%Z then [node; new_leaf] else [new_leaf; node] in
  Some (Branch prefix bitmap children, true, stats).

(** A branch whose prefix the hash leaves after [len] nibbles is split there. *)
Definition branch_split (prefix : list Z) (bitmap : Z) (children : list TNode) (len : nat)
    (key : K) (value : V) (hash : bytes) (depth : nat) (stats : TrieOpStats) :
    option (TNode * bool * TrieOpStats) :=
  branch_nibble ← prefix !! len;
  new_nibble ← get_nibble hash (depth + len);
  let stats := built 3 stats in
  let lower_branch := Branch (drop (S len) prefix) bitmap children in
  let new_leaf := Leaf (mkLeaf key value hash) in
  let upper_bitmap := Z.lor (bit branch_nibble) (bit new_nibble) in
  let upper_children := if decide (branch_nibble < new_nibble)%Z
    then [lower_branch; new_leaf] else [new_leaf; lower_branch] in
  Some (Branch (take len prefix) upper_bitmap upper_children, true, stats).

Fixpoint insert_recursive (node : TNode) : K → V → bytes → nat → TrieOpStats →
    option (TNode * bool * TrieOpStats) := λ key value hash depth stats,
  let stats := visit stats in
  match node with
  | Leaf leaf =>
    if decide (leaf_hash leaf = hash) then
      let stats := compared 1 stats in
      if decide (leaf_key leaf = key) then
        Some (Leaf (mkLeaf key value hash), false, built 1 stats)
      else
        Some (Collision (collision_new hash [(leaf_key leaf, leaf_value leaf); (key, value)]), true,
              built 1 stats)
    else branch_off node (leaf_hash leaf) key value hash depth stats
  | Collision coll =>
    if decide (coll_hash coll = hash) then
      let '(entries, found, n) := bucket_put key value (coll_entries coll) 0 in
      let stats := compared n stats in
      let entries := if found : bool then entries
                     else sort_by (cmp_on fst) (entries ++ [(key, value)]) in
      Some (Collision (collision_new hash entries), negb found, built 1 stats)
    else branch_off node (coll_hash coll) key value hash depth stats
  | Branch prefix bitmap children =>
    len ← match_len hash depth prefix;
    if decide (len < length prefix) then
      branch_split prefix bitmap children len key value hash depth stats
    else
      let branch_point := depth + length prefix in
      nibble ← get_nibble hash branch_point;
      match child_index bitmap nibble with
      | None =>
        let stats := built 2 stats in
        let insert_pos := count_ones (Z.land bitmap (bit nibble - 1)) in
        new_children ← vec_insert insert_pos (Leaf (mkLeaf key value hash)) children;
        Some (Branch prefix (Z.lor bitmap (bit nibble)) new_children, true, stats)
      | Some idx =>
        child ← (insert_recursive <$> children) !! idx;
        '(new_child, added, stats) ← child key value hash (S branch_point) stats;
        Some (Branch prefix bitmap (<[idx := new_child]> children), added, built 1 stats)
      end
  | Lazy _ => None
  end.

(** ** Removal *)

(** The bucket loop of the removal. *)
Fixpoint bucket_remove (key : K) (entries : list (K * V)) (n : nat) : list (K * V) * bool * nat :=
  match entries with
  | [] => ([], false, n)
  | (k, v) :: rest =>
    if decide (k = key) then (rest, true, S n)
    else let '(rest', removed, n') := bucket_remove key rest (S n) in ((k, v) :: rest', removed, n')
  end.

(** The contraction of a branch left with one child. *)
Definition contract (prefix : list Z) (new_bitmap : Z) (single_child : TNode) (stats : TrieOpStats) :
    TNode * TrieOpStats :=
  match single_child with
  | Leaf _ | Collision _ | Lazy _ => (single_child, stats)
  | Branch child_prefix child_bitmap grandchildren =>
    (Branch (prefix ++ [trailing_zeros new_bitmap] ++ child_prefix) child_bitmap grandchildren,
     built 1 stats)
  end.

(** The bucket without its key, contracted. *)
Definition shrink_bucket (hash : bytes) (entries : list (K * V)) (stats : TrieOpStats) :
    option TNode * TrieOpStats :=
  match entries with
  | [] => (None, stats)
  | [(k, v)] => (Some (Leaf (mkLeaf k v hash)), built 1 stats)
  | _ => (Some (Collision (collision_new hash entries)), built 1 stats)
  end.

Fixpoint remove_recursive (node : TNode) : K → bytes → nat → TrieOpStats →
    option (option TNode * bool * TrieOpStats) := λ key hash depth stats,
  let stats := visit stats in
  match node with
  | Leaf leaf =>
    if decide (leaf_hash leaf = hash) then
      let stats := compared 1 stats in
      if decide (leaf_key leaf = key) then Some (None, true, stats) else Some (Some node, false, stats)
    else Some (Some node, false, stats)
  | Collision coll =>
    if decide (coll_hash coll = hash) then
      let '(entries, removed, n) := bucket_remove key (coll_entries coll) 0 in
      let stats := compared n stats in
      if negb removed then Some (Some node, false, stats)
      else let '(n', stats) := shrink_bucket (coll_hash coll) entries stats in Some (n', true, stats)
    else Some (Some node, false, stats)
  | Branch prefix bitmap children =>
    m ← prefix_matches hash depth prefix;
    if negb m then Some (Some node, false, stats) else
    let branch_point := depth + length prefix in
    if decide (64 ≤ branch_point) then Some (Some node, false, stats) else
    nibble ← get_nibble hash branch_point;
    match child_index bitmap nibble with
    | None => Some (Some node, false, stats)
    | Some idx =>
      child ← (remove_recursive <$> children) !! idx;
      '(opt_child, removed, stats) ← child key hash (S branch_point) stats;
      if negb removed then Some (Some node, false, stats) else
      match opt_child with
      | Some new_child =>
        Some (Some (Branch prefix bitmap (<[idx := new_child]> children)), true, built 1 stats)
      | None =>
        let new_bitmap := Z.land bitmap (Z.lnot (bit nibble)) in
        new_children ← vec_remove idx children;
        if decide (2 ≤ length new_children) then
          Some (Some (Branch prefix new_bitmap new_children), true, built 1 stats)
        else
          single_child ← last new_children;
          let '(n', stats) := contract prefix new_bitmap single_child stats in
          Some (Some n', true, stats)
      end
    end
  | Lazy _ => None
  end.

(** ** Iteration *)

Fixpoint collect_entries (node : TNode) (out : list (K * V)) : option (list (K * V)) :=
  match node with
  | Leaf leaf => Some (out ++ [(leaf_key leaf, leaf_value leaf)])
  | Collision coll => Some (out ++ coll_entries coll)
  | Branch _ _ children =>
    fold_left (λ acc child, out ← acc; child out) (collect_entries <$> children) (Some out)
  | Lazy _ => None
  end.
End trie.
