(* ===== verification/TrieLaws.v ===== *)
(** What the persistent map promises (src/crates/soc-core/src/store.rs).

    [trie_ok] is the shape of a trie: compressed prefixes, at least two children, sorted
    buckets, every entry under the path of its hash. A trie in this shape is determined
    by its bindings, insertion and removal keep it, and so equal maps have equal roots.
    [PersistentMap] is the trait; [ArcMap] and the trie both keep its laws. *)
From S2P Require Import Prelude IntCodec Canon CanonLaws Encoding Trie.

(** * Nibbles *)

Definition nibs (h : bytes) : list Z := h ≫= λ b, [Z.land (Z.shiftr b 4) 15; Z.land b 15].

Lemma get_nibble_nibs h i : get_nibble h i = nibs h !! i.
Proof.
  revert i. induction h as [|b h IH]; intros i; [unfold get_nibble; by rewrite !lookup_nil|].
  destruct i as [|[|i]]; [reflexivity..|].
  change (nibs (b :: h) !! S (S i)) with (nibs h !! i). rewrite <-IH. unfold get_nibble.
    replace (S (S i) `div` 2) with (S (i `div` 2)); [done|].
    change (S (S i)) with (2 + i). rewrite Nat.add_comm.
  replace (i + 2) with (i + 1 * 2) by lia. rewrite Nat.div_add; lia.
Qed.

Lemma length_nibs h : length (nibs h) = 2 * length h.
Proof. induction h as [|b h IH]; [done|]. cbn [nibs mbind list_bind app length]. unfold nibs in IH. simpl in *. lia. Qed.

Lemma nibs_range h : Forall (λ n, 0 ≤ n < 16)%Z (nibs h).
Proof.
  induction h as [|b h IH]; [constructor|]. change 15%Z with (Z.ones 4).
  constructor; [|constructor; [|exact IH]].
  all: change 15%Z with (Z.ones 4); rewrite Z.land_ones by lia; apply Z.mod_pos_bound; lia.
Qed.

Lemma nibs_byte b : is_byte b → b = (16 * Z.land (Z.shiftr b 4) 15 + Z.land b 15)%Z.
Proof.
  intros Hb. unfold is_byte in Hb. change 15%Z with (Z.ones 4). rewrite !Z.land_ones, Z.shiftr_div_pow2 by lia.
  change (2^4)%Z with 16%Z. rewrite (Z.mod_small (b / 16)).
  - pose proof (Z.div_mod b 16). lia.
  - split; [apply Z.div_pos; lia|apply Z.div_lt_upper_bound; lia].
Qed.

(** The order of hashes is the order of their nibbles. *)
Lemma nibs_compare a b : are_bytes a → are_bytes b → lex_compare (nibs a) (nibs b) = lex_compare a b.
Proof.
  intros Ha. revert b. induction Ha as [|x a Hx Ha IH]; intros [|y b] Hb; try done.
  apply Forall_cons in Hb as [Hy Hb].
  change (nibs (x :: a)) with (Z.land (Z.shiftr x 4) 15 :: Z.land x 15 :: nibs a).
  change (nibs (y :: b)) with (Z.land (Z.shiftr y 4) 15 :: Z.land y 15 :: nibs b).
  cbn [lex_compare]. rewrite IH by done. unfold cmp, Ord_Z.
  pose proof (nibs_byte x Hx). pose proof (nibs_byte y Hy).
  pose proof (nibs_range [x]) as Rx. pose proof (nibs_range [y]) as Ry. cbn in Rx, Ry.
  rewrite !Forall_cons in Rx, Ry. destruct Rx as (? & ? & _), Ry as (? & ? & _).
  generalize dependent (Z.land (Z.shiftr x 4) 15). generalize dependent (Z.land (Z.shiftr y 4) 15).
  generalize dependent (Z.land x 15). generalize dependent (Z.land y 15). intros.
  destruct (Z.compare_spec z2 z1); destruct (Z.compare_spec z0 z), (Z.compare_spec x y); done || lia.
Qed.

Lemma nibs_inj a b : are_bytes a → are_bytes b → nibs a = nibs b → a = b.
Proof.
  intros Ha Hb He. apply (cmp_eq a b). change (lex_compare a b = Eq).
  rewrite <-nibs_compare, He by done. apply (cmp_refl (A := list Z)).
Qed.

(** The path of a prefix in a hash. *)
Lemma prefix_matches_spec h d pre : d + length pre ≤ length (nibs h) →
  prefix_matches h d pre = Some (bool_decide (pre `prefix_of` drop d (nibs h))).
Proof.
  revert d. induction pre as [|x pre IH]; intros d Hd; cbn [prefix_matches length] in *.
  { rewrite bool_decide_true; [done|]. apply prefix_nil. }
  rewrite get_nibble_nibs. destruct (nibs h !! d) as [n|] eqn:En.
  2: { apply lookup_ge_None in En. lia. }
  cbn [mbind option_bind]. rewrite (drop_S _ _ _ En). case_decide as Hn.
  - subst. rewrite IH by lia. f_equal. apply bool_decide_ext.
    split; [apply prefix_cons|apply prefix_cons_inv_2].
  - rewrite bool_decide_false; [done|]. intros Hp. by apply prefix_cons_inv_1 in Hp.
Qed.

Lemma match_len_spec h d pre : d + length pre ≤ length (nibs h) →
  ∃ len, match_len h d pre = Some len ∧ len ≤ length pre ∧ take len pre = take len (drop d (nibs h)) ∧
    (len < length pre → ∃ x y, pre !! len = Some x ∧ nibs h !! (d + len) = Some y ∧ x ≠ y).
Proof.
  revert d. induction pre as [|x pre IH]; intros d Hd; cbn [match_len length] in *.
  { exists 0. split_and!; [done..|lia]. }
  rewrite get_nibble_nibs. destruct (nibs h !! d) as [n|] eqn:En.
  2: { apply lookup_ge_None in En. lia. }
  cbn [mbind option_bind]. rewrite (drop_S _ _ _ En). case_decide as Hn.
  - subst. destruct (IH (S d)) as (len & -> & Hl & Ht & Hx); [lia|]. exists (S len). cbn [fmap option_fmap option_map].
    split_and!; [done|lia|cbn [take]; by rewrite Ht|]. intros Hlt. destruct Hx as (y & z & ? & ? & ?); [lia|].
    exists y, z. by rewrite Nat.add_succ_r.
  - exists 0. split_and!; [done|lia|done|]. intros _. exists x, n. rewrite Nat.add_0_r. naive_solver.
Qed.

Lemma common_prefix_loop_spec h1 h2 d len fuel :
  length (nibs h1) = 64 → length (nibs h2) = 64 → 64 ≤ d + len + fuel →
  (∀ i, d ≤ i < d + len → nibs h1 !! i = nibs h2 !! i) → (∃ i, d ≤ i < 64 ∧ nibs h1 !! i ≠ nibs h2 !! i) →
  ∃ n, common_prefix_loop h1 h2 d len fuel = Some n ∧ d + n < 64 ∧
    (∀ i, d ≤ i < d + n → nibs h1 !! i = nibs h2 !! i) ∧ nibs h1 !! (d + n) ≠ nibs h2 !! (d + n).
Proof.
  intros H1 H2. revert len. induction fuel as [|fuel IH]; intros len Hf Heq Hne; cbn [common_prefix_loop].
  { exfalso. destruct Hne as (i & Hi & Hne). apply Hne, Heq. lia. }
  case_decide as Hd.
  2: { exfalso. destruct Hne as (i & Hi & Hne). apply Hne, Heq. lia. }
  rewrite !get_nibble_nibs.
  destruct (lookup_lt_is_Some_2 (nibs h1) (d + len)) as [n1 E1]; [lia|].
  destruct (lookup_lt_is_Some_2 (nibs h2) (d + len)) as [n2 E2]; [lia|].
  rewrite E1, E2. cbn [mbind option_bind]. case_decide as Hn.
  - apply IH; [lia| |done]. intros i Hi. destruct (decide (i = d + len)) as [->|]; [congruence|].
    apply Heq. lia.
  - exists len. rewrite E1, E2. split_and!; [done|lia|done|congruence].
Qed.

Lemma common_prefix_len_spec h1 h2 d :
  length (nibs h1) = 64 → length (nibs h2) = 64 →
  take d (nibs h1) = take d (nibs h2) → nibs h1 ≠ nibs h2 → d ≤ 64 →
  ∃ n x y, common_prefix_len h1 h2 d = Some n ∧ d + n < 64 ∧ take (d + n) (nibs h1) = take (d + n) (nibs h2) ∧
    nibs h1 !! (d + n) = Some x ∧ nibs h2 !! (d + n) = Some y ∧ x ≠ y.
Proof.
  intros H1 H2 Ht Hne Hd.
  assert (∀ i, i < d → nibs h1 !! i = nibs h2 !! i) as Hlow.
  { intros i Hi. rewrite <-(lookup_take_lt (nibs h1) d), <-(lookup_take_lt (nibs h2) d) by done. by rewrite Ht. }
  destruct (common_prefix_loop_spec h1 h2 d 0 64 H1 H2) as (n & Hn & Hlt & Heq & Hx); [lia|lia| |].
  { destruct (decide (Forall (λ i, nibs h1 !! i = nibs h2 !! i) (seq d (64 - d)))) as [Hall|Hex].
    - exfalso. apply Hne, list_eq. intros i. destruct (decide (i < d)); [auto|].
      destruct (decide (i < 64)).
      + rewrite Forall_forall in Hall. apply Hall, elem_of_seq. lia.
      + rewrite !lookup_ge_None_2 by lia. done.
    - apply not_Forall_Exists in Hex; [|apply _]. apply Exists_exists in Hex as (i & Hi & Hne').
      apply elem_of_seq in Hi. exists i. split; [lia|done]. }
  destruct (lookup_lt_is_Some_2 (nibs h1) (d + n)) as [x Ex]; [lia|].
  destruct (lookup_lt_is_Some_2 (nibs h2) (d + n)) as [y Ey]; [lia|].
  exists n, x, y. split_and!; [done|done| |done|done|congruence].
  apply list_eq. intros i. destruct (decide (i < d + n)).
  - rewrite !lookup_take_lt by done. destruct (decide (i < d)); [auto|]. apply Heq. lia.
  - rewrite !lookup_take_ge by lia. done.
Qed.

Lemma mapM_nibbles h d n : d + n ≤ length (nibs h) →
  mapM (get_nibble h) (seq d n) = Some (take n (drop d (nibs h))).
Proof.
  revert d. induction n as [|n IH]; intros d Hd; [done|]. cbn [seq mapM].
  rewrite get_nibble_nibs. destruct (nibs h !! d) as [x|] eqn:En.
  2: { apply lookup_ge_None in En. lia. }
  cbn [mbind option_bind]. rewrite IH by lia. rewrite (drop_S _ _ _ En). done.
Qed.

(** * Bitmaps *)

Definition nibble_ok (n : Z) : Prop := (0 ≤ n < 16)%Z.
Definition bitmap_ok (bm : Z) : Prop := (0 ≤ bm < 2^16)%Z.

Definition low (bm n : Z) : list Z := filter (λ i, Z.testbit bm i = true) (seqZ 0 n).
Definition high (bm n : Z) : list Z := filter (λ i, Z.testbit bm i = true) (seqZ (n + 1) (15 - n)).

Lemma seqZ_split n : nibble_ok n → seqZ 0 16 = seqZ 0 n ++ n :: seqZ (n + 1) (15 - n).
Proof.
  unfold nibble_ok. intros Hn. replace 16%Z with (n + (16 - n))%Z at 1 by lia. rewrite seqZ_app by lia.
  f_equal. rewrite Z.add_0_l, seqZ_cons by lia. f_equal. f_equal; lia.
Qed.

Lemma slots_split bm n : nibble_ok n →
  slots bm = low bm n ++ (if Z.testbit bm n then [n] else []) ++ high bm n.
Proof.
  intros Hn. unfold slots, low, high. rewrite (seqZ_split n Hn), filter_app, filter_cons.
  by destruct (Z.testbit bm n).
Qed.

Lemma filter_ext {A} (P Q : A → Prop) `{∀ x, Decision (P x)} `{∀ x, Decision (Q x)} (l : list A) :
  (∀ x, x ∈ l → P x ↔ Q x) → filter P l = filter Q l.
Proof.
  induction l as [|x l IH]; intros Heq; [done|]. rewrite !filter_cons, IH by (intros; apply Heq; set_solver).
  pose proof (Heq x ltac:(set_solver)). repeat case_decide; naive_solver.
Qed.

Lemma filter_none {A} (P : A → Prop) `{∀ x, Decision (P x)} (l : list A) :
  (∀ x, x ∈ l → ¬ P x) → filter P l = [].
Proof.
  induction l as [|x l IH]; intros Hn; [done|]. rewrite filter_cons, decide_False by (apply Hn; set_solver).
  apply IH. set_solver.
Qed.

Lemma filter_all {A} (P : A → Prop) `{∀ x, Decision (P x)} (l : list A) :
  (∀ x, x ∈ l → P x) → filter P l = l.
Proof.
  induction l as [|x l IH]; intros Hn; [done|]. rewrite filter_cons, decide_True by (apply Hn; by left).
  f_equal. apply IH. intros; apply Hn; by right.
Qed.

Lemma testbit_bit n i : (0 ≤ n)%Z → Z.testbit (bit n) i = bool_decide (i = n).
Proof.
  intros Hn. unfold bit. rewrite Z.shiftl_1_l. case_bool_decide as He.
  - subst. by rewrite Z.pow2_bits_true.
  - by rewrite Z.pow2_bits_false.
Qed.

Lemma testbit_mask n i : (0 ≤ n)%Z → Z.testbit (bit n - 1) i = bool_decide (0 ≤ i < n)%Z.
Proof.
  intros Hn. unfold bit. rewrite Z.shiftl_1_l. replace (2 ^ n - 1)%Z with (Z.ones n) by (rewrite Z.ones_equiv; lia).
  rewrite Z.testbit_ones by done. apply eq_bool_prop_intro. rewrite bool_decide_spec, andb_True, !Is_true_true.
  rewrite Z.leb_le, Z.ltb_lt. done.
Qed.

Lemma low_mask bm n : nibble_ok n → count_ones (Z.land bm (bit n - 1)) = length (low bm n).
Proof.
  intros Hn. unfold count_ones. rewrite (slots_split _ n Hn).
  assert (∀ i, Z.testbit (Z.land bm (bit n - 1)) i = Z.testbit bm i && bool_decide (0 ≤ i < n)%Z) as Ht.
  { intros i. rewrite Z.land_spec, testbit_mask; [done|apply Hn]. }
  rewrite (Ht n), (bool_decide_false (0 ≤ n < n)%Z), andb_false_r by lia. unfold low, high.
  rewrite (filter_none _ (seqZ (n + 1) _)).
  - rewrite app_nil_r. cbn [app]. f_equal. apply filter_ext. intros i Hi%elem_of_seqZ.
    rewrite Ht, bool_decide_true, andb_true_r by lia. done.
  - intros i Hi%elem_of_seqZ. rewrite Ht, bool_decide_false, andb_false_r by lia. done.
Qed.

Lemma land_bit_zero bm n : nibble_ok n → Z.land bm (bit n) = 0%Z ↔ Z.testbit bm n = false.
Proof.
  intros Hn. split.
  - intros Hz. assert (Z.testbit (Z.land bm (bit n)) n = false) as Ht by by rewrite Hz, Z.bits_0.
    rewrite Z.land_spec, testbit_bit, bool_decide_true, andb_true_r in Ht by (done || apply Hn). done.
  - intros Ht. apply Z.bits_inj_0. intros i. rewrite Z.land_spec, testbit_bit by apply Hn.
    case_bool_decide; [subst; by rewrite Ht|apply andb_false_r].
Qed.

Lemma child_index_spec bm n : nibble_ok n →
  child_index bm n = if Z.testbit bm n then Some (length (low bm n)) else None.
Proof.
  intros Hn. unfold child_index. rewrite low_mask by done. pose proof (land_bit_zero bm n Hn) as Hz.
  destruct (Z.testbit bm n); case_decide; naive_solver.
Qed.

(** Setting and clearing a bit. *)
Lemma slots_set bm n : nibble_ok n → slots (Z.lor bm (bit n)) = low bm n ++ n :: high bm n.
Proof.
  intros Hn. rewrite (slots_split _ n Hn).
  assert (∀ i, Z.testbit (Z.lor bm (bit n)) i = Z.testbit bm i || bool_decide (i = n)) as Ht.
  { intros i. rewrite Z.lor_spec, testbit_bit; [done|apply Hn]. }
  rewrite (Ht n), bool_decide_true, orb_true_r by done. unfold low, high. cbn [app].
  f_equal; [|f_equal]; apply filter_ext; intros i Hi%elem_of_seqZ;
    rewrite Ht, bool_decide_false, orb_false_r by lia; done.
Qed.

Lemma slots_clear bm n : nibble_ok n → slots (Z.land bm (Z.lnot (bit n))) = low bm n ++ high bm n.
Proof.
  intros Hn. rewrite (slots_split _ n Hn).
  assert (∀ i, (0 ≤ i)%Z → Z.testbit (Z.land bm (Z.lnot (bit n))) i = Z.testbit bm i && negb (bool_decide (i = n))) as Ht.
  { intros i Hi. rewrite Z.land_spec, Z.lnot_spec, testbit_bit by (done || apply Hn). done. }
  rewrite (Ht n), bool_decide_true, andb_false_r by (done || apply Hn). unfold low, high, nibble_ok in *. cbn [app].
  f_equal; apply filter_ext; intros i Hi%elem_of_seqZ;
    rewrite Ht, bool_decide_false, andb_true_r by lia; done.
Qed.

Lemma slots_two a b : nibble_ok a → nibble_ok b → (a < b)%Z → slots (Z.lor (bit a) (bit b)) = [a; b].
Proof.
  unfold nibble_ok. intros Ha Hb Hab.
  assert (∀ i, Z.testbit (Z.lor (bit a) (bit b)) i = bool_decide (i = a ∨ i = b)) as Ht.
  { intros i. rewrite Z.lor_spec, !testbit_bit by lia. by rewrite <-bool_decide_or. }
  unfold slots. rewrite (filter_ext _ (λ i, i = a ∨ i = b)).
  - replace 16%Z with (a + ((b - a) + (16 - b)))%Z by lia. rewrite !seqZ_app by lia.
    rewrite (seqZ_cons (0 + a) (b - a)), (seqZ_cons (0 + a + (b - a)) (16 - b)) by lia.
    rewrite !filter_app, !filter_cons.
    rewrite !decide_True by lia.
    rewrite (filter_none _ (seqZ 0 a)) by (intros i Hi%elem_of_seqZ; lia).
    rewrite (filter_none _ (seqZ (Z.succ (0 + a)) _)) by (intros i Hi%elem_of_seqZ; lia).
    rewrite (filter_none _ (seqZ (Z.succ (0 + a + (b - a))) _)) by (intros i Hi%elem_of_seqZ; lia).
    cbn [app]. repeat f_equal; lia.
  - intros i _. rewrite Ht. apply bool_decide_eq_true.
Qed.

Lemma slots_range bm : Forall nibble_ok (slots bm).
Proof. apply Forall_forall. unfold slots, nibble_ok. intros n [_ Hn%elem_of_seqZ]%list_elem_of_filter. lia. Qed.

Lemma seqZ_sorted m l : strictly_sorted (seqZ m l).
Proof.
  destruct (decide (0 ≤ l)%Z) as [Hl|]; [|rewrite seqZ_nil by lia; constructor]. revert m.
  pattern l. apply natlike_ind; [..|done]; clear l Hl.
  - intros m. rewrite seqZ_nil by lia. constructor.
  - intros l Hl IH m. rewrite seqZ_cons by lia. replace (Z.pred (Z.succ l)) with l by lia. constructor; [done|].
    apply Forall_forall. intros i Hi%elem_of_seqZ. unfold lt_of, cmp, Ord_Z. apply Z.compare_lt_iff. lia.
Qed.

Lemma slots_sorted bm : strictly_sorted (slots bm).
Proof.
  unfold slots. generalize (seqZ_sorted 0 16). generalize (seqZ 0 16). intros l.
  induction 1 as [|x l Hl IH Hx]; [constructor|]. rewrite filter_cons. case_decide; [|done].
  constructor; [done|]. rewrite Forall_forall in *. intros y [_ Hy]%list_elem_of_filter. auto.
Qed.

Lemma bitmap_lor_ok a n : bitmap_ok a → nibble_ok n → bitmap_ok (Z.lor a (bit n)).
Proof.
  unfold bitmap_ok, bit, nibble_ok. rewrite Z.shiftl_1_l. intros Ha Hn.
  assert (0 < 2 ^ n)%Z by (apply Z.pow_pos_nonneg; lia). split; [apply Z.lor_nonneg; split; lia|].
  apply Z.log2_lt_cancel. rewrite (Z.log2_pow2 16), Z.log2_lor, (Z.log2_pow2 n) by lia.
  apply Z.max_lub_lt; [|lia]. destruct (decide (a = 0)%Z) as [->|]; [simpl; lia|apply Z.log2_lt_pow2; lia].
Qed.

Lemma bitmap_bit_ok n : nibble_ok n → bitmap_ok (bit n).
Proof. intros Hn. rewrite <-(Z.lor_0_l (bit n)). apply bitmap_lor_ok; [unfold bitmap_ok; lia|done]. Qed.

(** A bitmap is its slots. *)
Lemma slots_inj a b : bitmap_ok a → bitmap_ok b → slots a = slots b → a = b.
Proof.
  unfold bitmap_ok. intros Ha Hb Hs. apply Z.bits_inj'. intros i Hi.
  destruct (decide (i < 16)%Z).
  - assert (i ∈ slots a ↔ i ∈ slots b) as Hin by by rewrite Hs. unfold slots in Hin.
    rewrite !list_elem_of_filter, !elem_of_seqZ in Hin.
    destruct (Z.testbit a i), (Z.testbit b i); naive_solver lia.
  - assert (∀ c, (0 ≤ c < 2^16)%Z → Z.testbit c i = false) as Hc.
    { intros c Hc. destruct (decide (c = 0)%Z) as [->|]; [apply Z.bits_0|].
      apply Z.bits_above_log2; [lia|]. apply Z.lt_le_trans with 16%Z; [|lia]. apply Z.log2_lt_pow2; lia. }
    by rewrite !Hc.
Qed.

(** * The shape of a trie *)

(** Strictly sorted blocks in strictly increasing order. *)
Lemma strictly_sorted_app {A} `{OrdLaws A} (l1 l2 : list A) :
  strictly_sorted l1 → strictly_sorted l2 → (∀ x y, x ∈ l1 → y ∈ l2 → lt_of x y) → strictly_sorted (l1 ++ l2).
Proof.
  induction 1 as [|x l1 Hl IH Hx]; intros H2 Hlt; [done|]. cbn [app]. constructor.
  - apply IH; [done|]. intros; apply Hlt; set_solver.
  - apply Forall_app. split; [done|]. apply Forall_forall. intros y Hy. apply Hlt; set_solver.
Qed.

Lemma strictly_sorted_nodup {A} `{OrdLaws A} (l : list A) : strictly_sorted l → NoDup l.
Proof.
  induction 1 as [|x l Hl IH Hx]; constructor; [|done]. intros Hin. rewrite Forall_forall in Hx.
  by apply (cmp_lt_irrefl x), Hx.
Qed.

Lemma lex_lt_branch (q x y : list Z) (a b : Z) :
  (q ++ [a]) `prefix_of` x → (q ++ [b]) `prefix_of` y → (a < b)%Z → lex_compare x y = Lt.
Proof.
  intros [x' ->] [y' ->] Hab. rewrite <-!app_assoc, lex_compare_app. cbn. unfold cmp, Ord_Z.
  by apply Z.compare_lt_iff in Hab as ->.
Qed.

(** What an update does to the bindings. *)
Definition put_spec {K V} (k : K) (v : V) (l l' : list (K * V)) : Prop := ∀ k' v',
  (k', v') ∈ l' ↔ (k' = k ∧ v' = v) ∨ (k' ≠ k ∧ (k', v') ∈ l).
Definition del_spec {K V} (k : K) (l l' : list (K * V)) : Prop := ∀ k' v',
  (k', v') ∈ l' ↔ k' ≠ k ∧ (k', v') ∈ l.

Lemma put_spec_mid {K V} (k : K) (v : V) l1 l l' l2 :
  k ∉ l1.*1 → k ∉ l2.*1 → put_spec k v l l' → put_spec k v (l1 ++ l ++ l2) (l1 ++ l' ++ l2).
Proof.
  intros H1 H2 Hp k' v'. specialize (Hp k' v'). rewrite !elem_of_app, Hp.
  assert (∀ l3 : list (K * V), (k', v') ∈ l3 → k ∉ l3.*1 → k' ≠ k).
  { intros l3 Hin Hk ->. by apply (list_elem_of_fmap_2 fst) in Hin. }
  naive_solver.
Qed.

Lemma del_spec_mid {K V} (k : K) (l1 l l' l2 : list (K * V)) :
  k ∉ l1.*1 → k ∉ l2.*1 → del_spec k l l' → del_spec k (l1 ++ l ++ l2) (l1 ++ l' ++ l2).
Proof.
  intros H1 H2 Hp k' v'. specialize (Hp k' v'). rewrite !elem_of_app, Hp.
  assert (∀ l3 : list (K * V), (k', v') ∈ l3 → k ∉ l3.*1 → k' ≠ k).
  { intros l3 Hin Hk ->. by apply (list_elem_of_fmap_2 fst) in Hin. }
  naive_solver.
Qed.

Section shape.
Context {K V : Type} `{EqDecision K} `{OrdLaws K}.
Context (hasher : KeyHasher K) (hasher_ok : ∀ k, length (hasher k) = 32 ∧ are_bytes (hasher k)).
Abbreviation TNode := (TrieNode K V).

Definition path (k : K) : list Z := nibs (hasher k).

(** The order of iteration: by hash, then by key. *)
Definition okey (e : K * V) : list Z * K := (path e.1, e.1).

Fixpoint entries (node : TNode) : list (K * V) :=
  match node with
  | Leaf l => [(leaf_key l, leaf_value l)]
  | Collision c => coll_entries c
  | Branch _ _ children => concat (entries <$> children)
  | Lazy _ => []
  end.

#[local] Unset Elimination Schemes.

(** A trie whose root is reached by the path [p]. *)
Inductive trie_ok : list Z → TNode → Prop :=
  | leaf_ok p k v : p `prefix_of` path k → trie_ok p (Leaf (mkLeaf k v (hasher k)))
  | collision_ok p h es :
      p `prefix_of` nibs h → 2 ≤ length es → strictly_sorted es.*1 → (∀ e, e ∈ es → hasher e.1 = h) →
      trie_ok p (Collision (mkColl h es))
  | branch_ok p pre bm cs :
      length p + length pre < 64 → bitmap_ok bm → 2 ≤ length cs →
      Forall2 (λ n c, trie_ok ((p ++ pre) ++ [n]) c) (slots bm) cs →
      trie_ok p (Branch pre bm cs).

#[local] Set Elimination Schemes.

Lemma length_path k : length (path k) = 64.
Proof. unfold path. rewrite length_nibs, (proj1 (hasher_ok k)). done. Qed.

Lemma path_inj k1 k2 : path k1 = path k2 → hasher k1 = hasher k2.
Proof. apply nibs_inj; apply hasher_ok. Qed.

(** The children of a branch, cut at a nibble. *)
Lemma branch_cut bm n (P : Z → TNode → Prop) cs : nibble_ok n → Forall2 P (slots bm) cs →
  ∃ cl cm ch, cs = cl ++ cm ++ ch ∧ length cl = length (low bm n) ∧
    Forall2 P (low bm n) cl ∧ Forall2 P (high bm n) ch ∧
    (if Z.testbit bm n then ∃ c, cm = [c] ∧ P n c else cm = []).
Proof.
  intros Hn HF. rewrite (slots_split bm n Hn) in HF.
  apply Forall2_app_inv_l in HF as (cl & c2 & Hl & HF & ->).
  apply Forall2_app_inv_l in HF as (cm & ch & Hm & Hh & ->).
  exists cl, cm, ch. split_and!; try done.
  - symmetry. by eapply Forall2_length.
  - destruct (Z.testbit bm n); inversion Hm as [|? c ? ? ? Hm']; subst; [|done].
    inversion Hm'; subst. eauto.
Qed.

Lemma elem_of_concat_entries (e : K * V) cs : e ∈ concat (entries <$> cs) ↔ ∃ c, c ∈ cs ∧ e ∈ entries c.
Proof using Type.
  induction cs as [|c cs IH]; cbn; [split; [by intros ?%not_elem_of_nil|by intros (c & ?%not_elem_of_nil & _)]|].
  rewrite elem_of_app, IH. split.
  - intros [?|(c' & ? & ?)]; [exists c|exists c']; (split; [|done]); [by left|by right].
  - intros (c' & [ -> |?]%elem_of_cons & ?); eauto.
Qed.

(** What holds of the entries of a node reached by the path [p]. *)
Definition entries_ok (p : list Z) (l : list (K * V)) : Prop :=
  (∀ e, e ∈ l → p `prefix_of` path e.1) ∧ l ≠ [] ∧ strictly_sorted (okey <$> l).

Lemma entries_concat q ms cs : strictly_sorted ms →
  Forall2 (λ m c, entries_ok (q ++ [m]) (entries c)) ms cs →
  (∀ e, e ∈ concat (entries <$> cs) → ∃ m, m ∈ ms ∧ (q ++ [m]) `prefix_of` path e.1) ∧
  strictly_sorted (okey <$> concat (entries <$> cs)).
Proof.
  intros Hs HF. induction HF as [|m c ms cs (Hp & _ & Hc) HF IH]; [split; [set_solver|constructor]|].
  apply StronglySorted_inv in Hs as [Hs Hm]. destruct (IH Hs) as [Hin Hcs]. cbn [fmap list_fmap concat]. split.
  - intros e [He|He]%elem_of_app; [exists m; set_solver|]. destruct (Hin e He) as (m' & ? & ?). exists m'. set_solver.
  - rewrite fmap_app. apply strictly_sorted_app; [done..|].
    intros ? ? (e1 & -> & He1)%list_elem_of_fmap (e2 & -> & He2)%list_elem_of_fmap.
    destruct (Hin e2 He2) as (m2 & Hm2 & Hp2). rewrite Forall_forall in Hm. specialize (Hm m2 Hm2).
    unfold lt_of, cmp, Ord_pair, pair_compare, okey. cbn.
    unfold cmp at 1, Ord_list. erewrite lex_lt_branch; [done|by apply Hp|done|]. by apply Z.compare_lt_iff.
Qed.

(** Entries lie under the path of their node, there is one, and they are sorted. *)
Lemma trie_ok_entries n p : trie_ok p n → entries_ok p (entries n).
Proof.
  revert p. induction n as [l|c|pre bm cs IH|d] using TrieNode_rect'; intros p Hok; inversion Hok as [? k v Hp|? h es Hp Hl Hs Hh|? ? ? ? Hd Hb Hl HF]; subst; cbn [entries coll_entries leaf_key leaf_value].
  - split_and!; [|done|repeat constructor]. intros e ->%list_elem_of_singleton. done.
  - split_and!.
    + intros e He. unfold path. by rewrite (Hh e He).
    + by destruct es; [simpl in *; lia|].
    + clear Hp Hl Hok. induction es as [|e es IH]; [constructor|]. rewrite !fmap_cons in *.
      apply StronglySorted_inv in Hs as [Hs Hx]. constructor; [apply IH; [done|set_solver]|].
      rewrite Forall_fmap in Hx. rewrite Forall_fmap. rewrite Forall_forall in *. intros e' He'. specialize (Hx e' He'). revert Hx.
      unfold compose, lt_of, cmp, Ord_pair, pair_compare, okey, path. cbn [fst snd].
      rewrite (Hh e), (Hh e') by set_solver. by rewrite (cmp_refl (A := list Z)).
  - assert (Forall2 (λ m c, entries_ok ((p ++ pre) ++ [m]) (entries c)) (slots bm) cs) as HG.
    { clear Hl Hok. induction HF as [|m c ms cs Hc HF IHF]; [constructor|].
      apply Forall_cons in IH as [IHc IH]. constructor; [|auto]. by apply IHc. }
    destruct (entries_concat _ _ _ (slots_sorted bm) HG) as [Hin Hs]. split_and!; [|  |done].
    + intros e He. destruct (Hin e He) as (m & _ & Hm). etrans; [|exact Hm].
      rewrite <-app_assoc. by apply prefix_app_r.
    + destruct HG as [|m c ms cs' (_ & Hne & _) _]; [simpl in Hl; lia|]. cbn. intros [? _]%app_eq_nil. done.
Qed.

Lemma trie_ok_forall_entries q bm cs : Forall2 (λ n c, trie_ok (q ++ [n]) c) (slots bm) cs →
  Forall2 (λ m c, entries_ok (q ++ [m]) (entries c)) (slots bm) cs.
Proof. intros HF. eapply Forall2_impl; [exact HF|]. intros. by apply trie_ok_entries. Qed.

(** * One trie per map *)

Lemma prefix_nibble (q l : list Z) m : (q ++ [m]) `prefix_of` l → l !! length q = Some m.
Proof. intros [l' ->]. rewrite <-app_assoc, lookup_app_r by lia. by rewrite Nat.sub_diag. Qed.

(** A child's entries are the branch's entries with its nibble. *)
Lemma children_filter q ms cs : NoDup ms →
  Forall2 (λ m c, entries_ok (q ++ [m]) (entries c)) ms cs →
  (∀ m, m ∈ ms ↔ ∃ e, e ∈ concat (entries <$> cs) ∧ path e.1 !! length q = Some m) ∧
  Forall2 (λ m c, entries c = filter (λ e, path e.1 !! length q = Some m) (concat (entries <$> cs))) ms cs.
Proof.
  intros Hnd HF. induction HF as [|m c ms cs (Hp & Hne & _) HF IH]; [split; [set_solver|constructor]|].
  apply NoDup_cons in Hnd as [Hm Hnd]. destruct (IH Hnd) as [Hin Hfl]. cbn [fmap list_fmap concat].
  assert (∀ e, e ∈ entries c → path e.1 !! length q = Some m) as Hc by (intros; by apply prefix_nibble, Hp).
  split.
  - intros m'. rewrite elem_of_cons, Hin. split.
    + intros [->|(e & He & Hn)]; [|exists e; rewrite elem_of_app; eauto].
      destruct (entries c) as [|e l]; [done|]. exists e. split; [by left|]. apply Hc. by left.
    + intros (e & [He|He]%elem_of_app & Hn); [|eauto]. left. specialize (Hc e He). congruence.
  - constructor.
    + rewrite filter_app, (filter_none _ (concat _)).
      * rewrite app_nil_r. symmetry. by apply filter_all.
      * intros e He Hn. apply Hm, Hin. eauto.
    + clear IH.
      assert (∀ m', m' ∈ ms → filter (λ e, path e.1 !! length q = Some m') (entries c) = []) as Hz.
      { intros m' Hm'. apply filter_none. intros e He Hn. rewrite (Hc e He) in Hn. naive_solver. }
      clear Hin HF Hm Hnd. revert Hfl Hz. generalize (concat (entries <$> cs)). intros L Hfl Hz.
      induction Hfl as [|m' c' ms' cs' Hc' Hfl IHf]; [constructor|]. constructor.
      * rewrite filter_app, Hz by (by left). done.
      * apply IHf. intros; apply Hz; by right.
Qed.

Lemma branch_two_nibbles q bm cs : 2 ≤ length cs →
  Forall2 (λ m c, entries_ok (q ++ [m]) (entries c)) (slots bm) cs →
  ∃ e1 e2, e1 ∈ concat (entries <$> cs) ∧ e2 ∈ concat (entries <$> cs) ∧
    path e1.1 !! length q ≠ path e2.1 !! length q.
Proof.
  intros Hl HF. pose proof (strictly_sorted_nodup _ (slots_sorted bm)) as Hnd.
  destruct (children_filter q _ _ Hnd HF) as [Hin _]. apply Forall2_length in HF.
  destruct (slots bm) as [|a [|b ms]] eqn:Es; [simpl in *; lia..|].
  destruct (proj1 (Hin a)) as (e1 & H1 & Ha); [by left|].
  destruct (proj1 (Hin b)) as (e2 & H2 & Hb); [right; by left|].
  exists e1, e2. split_and!; [done..|]. rewrite Ha, Hb. apply NoDup_cons in Hnd as [Hab _].
  intros [= ->]. apply Hab. by left.
Qed.

Lemma prefix_length_le (q1 q2 : list Z) bm cs :
  2 ≤ length cs → Forall2 (λ m c, entries_ok (q1 ++ [m]) (entries c)) (slots bm) cs →
  (∀ e, e ∈ concat (entries <$> cs) → q2 `prefix_of` path e.1) → length q2 ≤ length q1.
Proof.
  intros Hl HF Hp. destruct (branch_two_nibbles _ _ _ Hl HF) as (e1 & e2 & H1 & H2 & Hne).
  destruct (decide (length q2 ≤ length q1)) as [|Hgt]; [done|]. exfalso. apply Hne.
  destruct (Hp e1 H1) as [l1 ->], (Hp e2 H2) as [l2 ->]. rewrite !lookup_app_l by lia. done.
Qed.

Lemma prefix_same_length (l q1 q2 : list Z) :
  q1 `prefix_of` l → q2 `prefix_of` l → length q1 = length q2 → q1 = q2.
Proof. intros [l1 ->] [l2 Heq] Hl. by apply app_inj_1 in Heq as [? _]. Qed.

Lemma branch_many_paths p pre bm cs : trie_ok p (Branch pre bm cs) →
  ¬ (∃ l, ∀ e, e ∈ concat (entries <$> cs) → path e.1 = l).
Proof.
  intros Hok (l & Hl). inversion Hok as [| |? ? ? ? Hd Hb Hlen HF]; subst. apply trie_ok_forall_entries in HF.
  destruct (branch_two_nibbles _ _ _ Hlen HF) as (e1 & e2 & H1 & H2 & Hne). apply Hne. by rewrite !Hl.
Qed.

(** Two branches with the same entries have the same prefix and the same slots. *)
Lemma branch_determined p pre1 bm1 cs1 pre2 bm2 cs2 :
  trie_ok p (Branch pre1 bm1 cs1) → trie_ok p (Branch pre2 bm2 cs2) →
  concat (entries <$> cs1) = concat (entries <$> cs2) → pre1 = pre2 ∧ bm1 = bm2.
Proof.
  intros H1 H2 He. pose proof (trie_ok_entries _ _ H1) as (_ & Hne & _). cbn [entries] in Hne.
  inversion H1 as [| |? ? ? ? Hd Hb Hl HF]; inversion H2 as [| |? ? ? ? Hd' Hb' Hl' HF']; subst.
  apply trie_ok_forall_entries in HF, HF'.
  pose proof (entries_concat _ _ _ (slots_sorted bm1) HF) as [Hi1 _].
  pose proof (entries_concat _ _ _ (slots_sorted bm2) HF') as [Hi2 _].
  assert (∀ e, e ∈ concat (entries <$> cs1) → (p ++ pre1) `prefix_of` path e.1) as Hp1.
  { intros e Hin. destruct (Hi1 e Hin) as (m & _ & Hm). etrans; [|exact Hm]. by apply prefix_app_r. }
  assert (∀ e, e ∈ concat (entries <$> cs1) → (p ++ pre2) `prefix_of` path e.1) as Hp2.
  { rewrite He. intros e Hin. destruct (Hi2 e Hin) as (m & _ & Hm). etrans; [|exact Hm]. by apply prefix_app_r. }
  assert (length (p ++ pre1) = length (p ++ pre2)) as Hlen.
  { apply Nat.le_antisymm; [eapply (prefix_length_le _ _ bm2 cs2)|eapply (prefix_length_le _ _ bm1 cs1)]; eauto.
    by rewrite <-He. }
  assert (p ++ pre1 = p ++ pre2) as Hpp.
  { destruct (concat (entries <$> cs1)) as [|e L] eqn:E; [done|].
    apply (prefix_same_length (path e.1)); [apply Hp1; by left|apply Hp2; by left|done]. }
  split; [by apply app_inv_head in Hpp|]. rewrite <-Hpp in HF'.
  apply slots_inj; [done..|]. apply strictly_sorted_unique; [apply slots_sorted..|]. intros m.
  destruct (children_filter _ _ _ (strictly_sorted_nodup _ (slots_sorted bm1)) HF) as [-> _].
  destruct (children_filter _ _ _ (strictly_sorted_nodup _ (slots_sorted bm2)) HF') as [-> _]. by rewrite He.
Qed.

Lemma trie_ok_unique n1 p n2 : trie_ok p n1 → trie_ok p n2 → entries n1 = entries n2 → n1 = n2.
Proof.
  revert p n2. induction n1 as [l|c|pre bm cs IH|d] using TrieNode_rect'; intros p n2 H1 H2 He;
    inversion H1 as [? k v Hp|? h es Hp Hl Hs Hh|? ? ? ? Hd Hb Hl HF]; subst;
    inversion H2 as [? k' v' Hp'|? h' es' Hp' Hl' Hs' Hh'|? pre' bm' cs' Hd' Hb' Hl' HF']; subst;
    cbn [entries coll_entries leaf_key leaf_value] in He; try (subst; simpl in *; lia).
  - by simplify_eq.
  - exfalso. eapply branch_many_paths; [exact H2|]. rewrite <-He. exists (path k). by intros e ->%list_elem_of_singleton.
  - subst. destruct es' as [|e es']; [simpl in *; lia|]. rewrite <-(Hh e), <-(Hh' e) by (by left). done.
  - exfalso. eapply branch_many_paths; [exact H2|]. rewrite <-He. exists (nibs h). intros e Hin. unfold path. by rewrite Hh.
  - exfalso. eapply branch_many_paths; [exact H1|]. rewrite He. exists (path k'). by intros e ->%list_elem_of_singleton.
  - exfalso. eapply branch_many_paths; [exact H1|]. rewrite He. exists (nibs h'). intros e Hin. unfold path. by rewrite Hh'.
  - destruct (branch_determined _ _ _ _ _ _ _ H1 H2 He) as [<- <-]. f_equal.
    pose proof (strictly_sorted_nodup _ (slots_sorted bm)) as Hnd.
    destruct (children_filter _ _ _ Hnd (trie_ok_forall_entries _ _ _ HF)) as [_ Hf].
    destruct (children_filter _ _ _ Hnd (trie_ok_forall_entries _ _ _ HF')) as [_ Hf'].
    rewrite <-He in Hf'. revert Hf Hf'. generalize (concat (entries <$> cs)). intros L Hf Hf'.
    clear H1 H2 He Hl Hl'. revert cs' HF' Hf'. induction HF as [|m c ms cs Hc HF IHF]; intros cs' HF' Hf'.
    + by inversion HF'.
    + inversion HF' as [|? c' ? cs'' Hc' HF'']; subst. apply Forall_cons in IH as [IHc IH].
      apply Forall2_cons_1 in Hf as [Hfc Hf]. apply Forall2_cons_1 in Hf' as [Hfc' Hf'].
      apply NoDup_cons in Hnd as [_ Hnd]. f_equal; [|by apply IHF]. eapply IHc; [done..|]. by rewrite Hfc, Hfc'.
Qed.

(** * Navigation *)

Lemma entries_keys_nodup p n : trie_ok p n → NoDup (entries n).*1.
Proof.
  intros (_ & _ & Hs)%trie_ok_entries. apply strictly_sorted_nodup in Hs.
  apply (NoDup_fmap_1 (λ k, (path k, k))). by rewrite <-list_fmap_compose.
Qed.

Lemma keys_under p l k : entries_ok p l → k ∈ l.*1 → p `prefix_of` path k.
Proof. intros (Hp & _) (e & -> & He)%list_elem_of_fmap. by apply Hp. Qed.

Lemma prefix_split (q pre l : list Z) : q `prefix_of` l → pre `prefix_of` drop (length q) l ↔ (q ++ pre) `prefix_of` l.
Proof.
  intros [r ->]. rewrite drop_app_length. split; [apply prefix_app|apply prefix_app_inv].
Qed.

Lemma prefix_snoc_lookup (q l : list Z) x : q `prefix_of` l → l !! length q = Some x → (q ++ [x]) `prefix_of` l.
Proof.
  intros [r ->] Hx. rewrite lookup_app_r, Nat.sub_diag in Hx by lia. destruct r as [|y r]; simplify_eq/=.
  exists r. by rewrite <-app_assoc.
Qed.

Lemma get_nibble_path k i : get_nibble (hasher k) i = path k !! i.
Proof. apply get_nibble_nibs. Qed.

(** Where a branch sends a key whose path its prefix matches. *)
Lemma branch_nav p pre bm cs k : trie_ok p (Branch pre bm cs) → (p ++ pre) `prefix_of` path k →
  ∃ n cl cm ch, get_nibble (hasher k) (length p + length pre) = Some n ∧ nibble_ok n ∧
    cs = cl ++ cm ++ ch ∧ length cl = length (low bm n) ∧ ((p ++ pre) ++ [n]) `prefix_of` path k ∧
    (k ∉ (concat (entries <$> cl)).*1) ∧ (k ∉ (concat (entries <$> ch)).*1) ∧
    Forall2 (λ n c, trie_ok ((p ++ pre) ++ [n]) c) (low bm n) cl ∧
    Forall2 (λ n c, trie_ok ((p ++ pre) ++ [n]) c) (high bm n) ch ∧
    (if Z.testbit bm n then ∃ c, cm = [c] ∧ trie_ok ((p ++ pre) ++ [n]) c else cm = []).
Proof.
  intros Hok Hq. inversion Hok as [| |? ? ? ? Hd Hb Hl HF]; subst.
  rewrite get_nibble_path, <-length_app. destruct (path k !! length (p ++ pre)) as [n|] eqn:En.
  2: { apply lookup_ge_None in En. rewrite length_path, length_app in En. lia. }
  assert (nibble_ok n) as Hn.
  { pose proof (nibs_range (hasher k)) as Hr. rewrite Forall_forall in Hr. apply Hr. by eapply list_elem_of_lookup_2. }
  destruct (branch_cut bm n _ cs Hn HF) as (cl & cm & ch & -> & Hlen & Hlow & Hhigh & Hm).
  assert (∀ ms l, (∀ m, m ∈ ms → m ≠ n) → Forall2 (λ n c, trie_ok ((p ++ pre) ++ [n]) c) ms l →
    k ∉ (concat (entries <$> l)).*1) as Hnot.
  { intros ms l Hms HF2 (e & -> & (c & Hc & He)%elem_of_concat_entries)%list_elem_of_fmap.
    apply list_elem_of_lookup in Hc as [i Hc].
    destruct (Forall2_lookup_r _ _ _ _ _ HF2 Hc) as (m & Hm1 & Hc').
    apply trie_ok_entries in Hc' as (Hp & _). specialize (Hp e He). apply prefix_nibble in Hp.
    apply (Hms m); [by eapply list_elem_of_lookup_2|]. congruence. }
  exists n, cl, cm, ch. split_and!; try done.
  - by apply prefix_snoc_lookup.
  - eapply Hnot; [|exact Hlow]. unfold low. intros m [_ Hm'%elem_of_seqZ]%list_elem_of_filter. lia.
  - eapply Hnot; [|exact Hhigh]. unfold high. intros m [_ Hm'%elem_of_seqZ]%list_elem_of_filter. lia.
Qed.

Lemma branch_off_path p pre bm cs k : trie_ok p (Branch pre bm cs) → ¬ ((p ++ pre) `prefix_of` path k) →
  k ∉ (concat (entries <$> cs)).*1.
Proof.
  intros Hok Hq (e & -> & (c & Hc & He)%elem_of_concat_entries)%list_elem_of_fmap. apply Hq.
  inversion Hok as [| |? ? ? ? Hd Hb Hl HF]; subst. apply list_elem_of_lookup in Hc as [i Hc].
  destruct (Forall2_lookup_r _ _ _ _ _ HF Hc) as (m & _ & Hc'). apply trie_ok_entries in Hc' as (Hp & _).
  etrans; [|by apply Hp]. by apply prefix_app_r.
Qed.

Lemma branch_prefix_matches p pre bm cs k : trie_ok p (Branch pre bm cs) → p `prefix_of` path k →
  prefix_matches (hasher k) (length p) pre = Some (bool_decide ((p ++ pre) `prefix_of` path k)).
Proof.
  intros Hok Hp. inversion Hok as [| |? ? ? ? Hd Hb Hl HF]; subst. rewrite prefix_matches_spec.
  - f_equal. apply bool_decide_ext. by apply prefix_split.
  - pose proof (length_path k) as Hk. unfold path in Hk. lia.
Qed.

(** * Lookup *)

Lemma bucket_get_spec k (es : list (K * V)) n : NoDup es.*1 → ∀ v,
  (bucket_get k es n).1 = Some v ↔ (k, v) ∈ es.
Proof.
  revert n. induction es as [|[k0 v0] es IH]; intros n Hnd v; cbn [bucket_get fst]; [set_solver|].
  rewrite fmap_cons in Hnd. apply NoDup_cons in Hnd as [Hk Hnd]. rewrite elem_of_cons. case_decide as Hd; cbn [fst].
  - subst. split; [intros [= ->]; by left|]. intros [[= ->]|Hin]; [done|].
    by apply (list_elem_of_fmap_2 fst) in Hin.
  - rewrite IH by done. naive_solver.
Qed.

Lemma concat_cut (cl cm ch : list TNode) :
  concat (entries <$> cl ++ cm ++ ch) =
  concat (entries <$> cl) ++ concat (entries <$> cm) ++ concat (entries <$> ch).
Proof. by rewrite !fmap_app, !concat_app. Qed.

Lemma lookup_mid {A B} (f : A → B) (cl : list A) c ch : (f <$> cl ++ [c] ++ ch) !! length cl = Some (f c).
Proof. rewrite list_lookup_fmap. change ([c] ++ ch) with (c :: ch). by rewrite list_lookup_middle. Qed.

Lemma get_recursive_spec n p k st : trie_ok p n → p `prefix_of` path k →
  ∃ r st', get_recursive n k (hasher k) (length p) st = Some (r, st') ∧
    (∀ v, r = Some v ↔ (k, v) ∈ entries n) ∧
    nodes_visited st < nodes_visited st' ≤ nodes_visited st + (65 - length p) ∧
    nodes_allocated st' = nodes_allocated st ∧ nodes_hashed st' = nodes_hashed st.
Proof.
  revert p st. induction n as [l|c|pre bm cs IH|d] using TrieNode_rect'; intros p st Hok Hp;
    pose proof (entries_keys_nodup _ _ Hok) as Hnd;
    inversion Hok as [? k0 v0 Hp0|? h es Hp0 Hl Hs Hh|? ? ? ? Hd Hb Hl HF]; subst;
    cbn [get_recursive entries leaf_hash leaf_key leaf_value coll_hash coll_entries] in *.
  1,2: pose proof (prefix_length _ _ Hp) as Hlen; rewrite length_path in Hlen.
  - repeat case_decide; eexists _, _; (split; [reflexivity|]); cbn; (split; [|lia]); intros v;
      rewrite list_elem_of_singleton; naive_solver.
  - case_decide as Hd.
    + destruct (bucket_get k es 0) as [r m] eqn:E. eexists _, _. split; [reflexivity|]. cbn. split; [|lia].
      intros v. change r with (r, m).1. rewrite <-E. by apply bucket_get_spec.
    + eexists _, _. split; [reflexivity|]. cbn. split; [|lia]. intros v. split; [done|]. intros Hin.
      specialize (Hh _ Hin). cbn in Hh. congruence.
  - rewrite decide_False by lia. rewrite (branch_prefix_matches _ _ _ _ _ Hok Hp). cbn [mbind option_bind].
    case_bool_decide as Hq; cbn [negb].
    2: { eexists _, _. split; [reflexivity|]. cbn. split; [|lia]. intros v. split; [done|]. intros Hin. exfalso.
         apply (list_elem_of_fmap_2 fst) in Hin. by apply (branch_off_path _ _ _ _ _ Hok Hq). }
    rewrite decide_False by lia.
    destruct (branch_nav _ _ _ _ _ Hok Hq) as (n & cl & cm & ch & -> & Hn & -> & Hcl & Hqn & Hkl & Hkh & _ & _ & Hm).
    cbn [mbind option_bind]. rewrite child_index_spec by done. rewrite concat_cut. destruct (Z.testbit bm n).
    + destruct Hm as (c & -> & Hc). rewrite <-Hcl, lookup_mid.
      cbn [mbind option_bind]. cbn [fmap list_fmap concat]. rewrite app_nil_r.
      rewrite !Forall_app, Forall_singleton in IH. destruct IH as (_ & IH & _).
      destruct (IH ((p ++ pre) ++ [n]) (visit st) Hc Hqn) as (r & st' & Hg & Hr & Hv & Ha & Hh).
      rewrite !length_app in Hg. cbn [length] in Hg. replace (S (length p + length pre)) with (length p + length pre + 1) by lia.
      rewrite Hg. eexists _, _. split; [reflexivity|]. split.
      * intros v. rewrite Hr, !elem_of_app.
        assert (∀ l : list (K * V), k ∉ l.*1 → (k, v) ∉ l) as Hno.
        { intros l Hl' Hin. by apply (list_elem_of_fmap_2 fst) in Hin. }
        specialize (Hno _ Hkl) as H1'. specialize (Hno _ Hkh) as H2'. naive_solver.
      * cbn [visit nodes_visited nodes_allocated nodes_hashed] in *. rewrite !length_app in Hv. cbn [length] in Hv. lia.
    + subst cm. eexists _, _. split; [reflexivity|]. cbn. split; [|lia]. intros v. split; [done|].
      rewrite elem_of_app. intros [Hin|Hin]; apply (list_elem_of_fmap_2 fst) in Hin; done.
Qed.

(** * Insertion *)

Lemma sorted_strict {A} `{OrdLaws A} (l : list A) : sorted l → NoDup l → strictly_sorted l.
Proof.
  induction 1 as [|x l Hl IH Hx]; [constructor|]. intros [Hn Hnd]%NoDup_cons. constructor; [by apply IH|].
  rewrite Forall_forall in *. intros y Hy. destruct (proj1 (le_of_cases x y) (Hx y Hy)) as [?| ->]; done.
Qed.

Lemma collision_new_ok p h es : p `prefix_of` nibs h → 2 ≤ length es → NoDup es.*1 →
  (∀ e, e ∈ es → hasher e.1 = h) →
  trie_ok p (Collision (collision_new h es)) ∧ entries (Collision (collision_new h es)) ≡ₚ es.
Proof.
  intros Hp Hl Hnd Hh. unfold collision_new. split; [|apply sort_by_perm]. constructor; [done| | |].
  - by rewrite sort_by_perm.
  - apply sorted_strict; [apply sort_by_sorted|]. by rewrite sort_by_perm.
  - intros e. rewrite sort_by_perm. apply Hh.
Qed.

Lemma put_spec_perm (k : K) (v : V) l l1 l2 : l1 ≡ₚ l2 → put_spec k v l l2 → put_spec k v l l1.
Proof. intros Hp Hs k' v'. rewrite Hp. apply Hs. Qed.

Lemma put_spec_new (k : K) (v : V) l : k ∉ l.*1 → put_spec k v l ((k, v) :: l).
Proof.
  intros Hk k' v'. rewrite elem_of_cons. split; [|naive_solver]. intros [[= -> ->]|Hin]; [by left|].
  right. split; [|done]. intros ->. by apply (list_elem_of_fmap_2 fst) in Hin.
Qed.

Lemma bucket_put_spec k v (es : list (K * V)) n es' found n' :
  bucket_put k v es n = (es', found, n') → NoDup es.*1 →
  (found = true → es'.*1 = es.*1 ∧ put_spec k v es es' ∧ k ∈ es.*1) ∧ (found = false → es' = es ∧ k ∉ es.*1).
Proof.
  revert n es' found n'. induction es as [|[k0 v0] es IH]; intros n es' found n' Hb Hnd; cbn [bucket_put] in Hb.
  { simplify_eq. split; [done|]. intros _. split; [done|apply not_elem_of_nil]. }
  rewrite fmap_cons in Hnd. apply NoDup_cons in Hnd as [Hk Hnd]. case_decide as Hd.
  - simplify_eq. cbn. split; [|done]. intros _. split_and!; [done| |by left]. intros k' v'. rewrite !elem_of_cons.
    assert ((k, v') ∉ es) by (intros Hin; by apply (list_elem_of_fmap_2 fst) in Hin).
    destruct (decide (k' = k)) as [->|]; naive_solver.
  - destruct (bucket_put k v es (S n)) as [[es0 f0] n0] eqn:E. simplify_eq.
    destruct (IH _ _ _ _ E Hnd) as [Ht Hf]. split; intros Hfd.
    + destruct (Ht Hfd) as (Hkeys & Hput & Hin). cbn. rewrite Hkeys. split_and!; [done| |by right].
      intros k' v'. specialize (Hput k' v'). rewrite !elem_of_cons. naive_solver.
    + destruct (Hf Hfd) as [-> Hn]. split; [done|]. rewrite fmap_cons, not_elem_of_cons. done.
Qed.

(** A branch over two subtries. *)
Lemma two_branch_ok p pre x y a b :
  nibble_ok x → nibble_ok y → x ≠ y → length p + length pre < 64 →
  trie_ok ((p ++ pre) ++ [x]) a → trie_ok ((p ++ pre) ++ [y]) b →
  let n := Branch pre (Z.lor (bit x) (bit y)) (if decide (x < y)%Z then [a; b] else [b; a]) in
  trie_ok p n ∧ entries n ≡ₚ entries a ++ entries b.
Proof.
  intros Hx Hy Hne Hd Ha Hb n.
  assert (bitmap_ok (Z.lor (bit x) (bit y))) as Hbm by (apply bitmap_lor_ok; [by apply bitmap_bit_ok|done]).
  subst n. split.
  - case_decide; (constructor; [done|done|simpl; lia|]).
    + rewrite slots_two by done. by repeat constructor.
    + rewrite Z.lor_comm, slots_two by (done || lia). by repeat constructor.
  - case_decide; cbn; rewrite app_nil_r; [done|apply Permutation_app_comm].
Qed.

(** What an insertion costs: at most two nodes beyond those it visits. *)
Definition insert_cost (depth : nat) (st st' : TrieOpStats) : Prop :=
  nodes_visited st < nodes_visited st' ≤ nodes_visited st + (65 - depth) ∧
  nodes_allocated st' + nodes_visited st ≤ nodes_allocated st + nodes_visited st' + 2 ∧
  nodes_hashed st' + nodes_allocated st = nodes_hashed st + nodes_allocated st'.

(** What an insertion into a subtrie does. *)
Definition insert_ok (p : list Z) (n : TNode) (k : K) (v : V) (st : TrieOpStats) : Prop :=
  ∃ n' added st', insert_recursive n k v (hasher k) (length p) st = Some (n', added, st') ∧
    trie_ok p n' ∧ put_spec k v (entries n) (entries n') ∧
    (added = true ↔ k ∉ (entries n).*1) ∧ insert_cost (length p) st st'.

Lemma leaf_at p k v : p `prefix_of` path k → trie_ok p (Leaf (mkLeaf k v (hasher k))).
Proof. apply leaf_ok. Qed.

Lemma branch_off_ok p n h k v st :
  trie_ok p n → (∀ e, e ∈ entries n → path e.1 = nibs h) → length h = 32 → hasher k ≠ h → are_bytes h →
  (∀ q, q `prefix_of` nibs h → trie_ok q n) → p `prefix_of` nibs h → p `prefix_of` path k →
  ∃ n' st', branch_off n h k v (hasher k) (length p) (visit st) = Some (n', true, st') ∧
    trie_ok p n' ∧ put_spec k v (entries n) (entries n') ∧ (k ∉ (entries n).*1) ∧ insert_cost (length p) st st'.
Proof.
  intros Hok He Hlen Hne Hby Hre Hph Hpk. unfold branch_off.
  pose proof (length_path k) as Hlk. assert (length (nibs h) = 64) as Hlh by (rewrite length_nibs; lia).
  assert (nibs h ≠ path k) as Hnp by (intros Heq; apply Hne; symmetry; by apply nibs_inj; [|apply hasher_ok|]).
  pose proof (prefix_length _ _ Hpk) as Hpl. rewrite Hlk in Hpl.
  destruct (common_prefix_len_spec h (hasher k) (length p)) as (m & x & y & -> & Hm & Ht & Hx & Hy & Hxy); try done.
  { destruct Hph as [r1 ->]. unfold path in Hpk. destruct Hpk as [r2 ->]. by rewrite !take_app_length. }
  cbn [mbind option_bind]. rewrite !get_nibble_nibs, Hx, Hy. cbn [mbind option_bind].
  change (nibs (hasher k)) with (path k) in *. rewrite mapM_nibbles by (change (nibs (hasher k)) with (path k); lia).
  cbn [mbind option_bind]. change (nibs (hasher k)) with (path k).
  assert (p ++ take m (drop (length p) (path k)) = take (length p + m) (path k)) as Hpre.
  { destruct Hpk as [r ->]. rewrite drop_app_length, take_app_add. done. }
  assert (length (take m (drop (length p) (path k))) = m) as Hlm by (rewrite length_take, length_drop; lia).
  pose proof (nibs_range h) as Rh. pose proof (nibs_range (hasher k)) as Rk. rewrite Forall_forall in Rh, Rk.
  assert ((take (length p + m) (path k) ++ [y]) `prefix_of` path k) as Pk.
  { rewrite <-(take_S_r _ _ _ Hy). apply prefix_take. }
  assert ((take (length p + m) (path k) ++ [x]) `prefix_of` nibs h) as Ph.
  { rewrite <-Ht, <-(take_S_r _ _ _ Hx). apply prefix_take. }
  destruct (two_branch_ok p (take m (drop (length p) (path k))) x y n (Leaf (mkLeaf k v (hasher k)))) as [Hok' Hent].
  { apply Rh. by eapply list_elem_of_lookup_2. } { apply Rk. by eapply list_elem_of_lookup_2. } { done. } { lia. }
  { rewrite Hpre. by apply Hre. } { rewrite Hpre. by constructor. }
  assert (k ∉ (entries n).*1) as Hk.
  { intros (e & -> & Hin)%list_elem_of_fmap. apply Hnp. by rewrite <-(He e Hin). }
  eexists _, _. split; [reflexivity|]. split_and!; [exact Hok'| |done|unfold insert_cost; cbn; lia].
  eapply put_spec_perm; [|by apply put_spec_new]. rewrite Hent. cbn. symmetry. apply Permutation_cons_append.
Qed.

Lemma branch_split_ok p pre bm cs k v len st :
  trie_ok p (Branch pre bm cs) → p `prefix_of` path k → len < length pre →
  take len pre = take len (drop (length p) (path k)) →
  (∃ x y, pre !! len = Some x ∧ path k !! (length p + len) = Some y ∧ x ≠ y) →
  ∃ n' st', branch_split pre bm cs len k v (hasher k) (length p) (visit st) = Some (n', true, st') ∧
    trie_ok p n' ∧ put_spec k v (concat (entries <$> cs)) (entries n') ∧
    (k ∉ (concat (entries <$> cs)).*1) ∧ insert_cost (length p) st st'.
Proof.
  intros Hok Hpk Hlen Ht (x & y & Hx & Hy & Hxy). unfold branch_split.
  rewrite Hx. cbn [mbind option_bind]. rewrite get_nibble_path, Hy. cbn [mbind option_bind].
  inversion Hok as [| |? ? ? ? Hd Hb Hl HF]; subst.
  pose proof (trie_ok_entries _ _ Hok) as Hent. cbn [entries] in Hent.
  assert (length (take len pre) = len) as Hlt by (rewrite length_take; lia).
  assert ((p ++ take len pre) `prefix_of` path k) as Hpt.
  { rewrite Ht. destruct Hpk as [r ->]. rewrite drop_app_length. apply prefix_app, prefix_take. }
  assert (((p ++ take len pre) ++ [y]) `prefix_of` path k) as Pk.
  { apply prefix_snoc_lookup; [done|]. by rewrite length_app, Hlt. }
  assert (nibble_ok y) as Hyn.
  { pose proof (nibs_range (hasher k)) as Hr. rewrite Forall_forall in Hr. apply Hr. by eapply list_elem_of_lookup_2. }
  assert (p ++ pre = ((p ++ take len pre) ++ [x]) ++ drop (S len) pre) as Hpp.
  { rewrite <-!app_assoc. f_equal. by rewrite <-(take_drop_middle pre len x Hx) at 1. }
  assert (nibble_ok x) as Hxn.
  { destruct Hent as (Hp & Hne & _). destruct (concat (entries <$> cs)) as [|e L] eqn:E; [done|].
    destruct (entries_concat _ _ _ (slots_sorted bm) (trie_ok_forall_entries _ _ _ HF)) as [Hin _].
    destruct (Hin e) as (m & _ & Hm); [rewrite E; by left|].
    pose proof (nibs_range (hasher e.1)) as Hr. rewrite Forall_forall in Hr. apply Hr.
    apply list_elem_of_lookup_2 with (i := length (p ++ take len pre)). apply prefix_nibble.
    change (nibs (hasher e.1)) with (path e.1). etrans; [|exact Hm]. rewrite Hpp. by do 2 apply prefix_app_r. }
  assert (trie_ok ((p ++ take len pre) ++ [x]) (Branch (drop (S len) pre) bm cs)) as Hlow.
  { constructor; [rewrite !length_app, length_drop, Hlt; cbn; lia|done|done|]. by rewrite <-Hpp. }
  destruct (two_branch_ok p (take len pre) x y (Branch (drop (S len) pre) bm cs) (Leaf (mkLeaf k v (hasher k)))) as [Hok' He];
    [done|done|done|lia|done|by constructor|].
  assert (k ∉ (concat (entries <$> cs)).*1) as Hk.
  { apply (branch_off_path _ _ _ _ _ Hok). intros Hq. apply Hxy. rewrite Hpp in Hq.
    assert (((p ++ take len pre) ++ [x]) `prefix_of` path k) as Px by (etrans; [|exact Hq]; by apply prefix_app_r).
    apply prefix_nibble in Px, Pk. congruence. }
  eexists _, _. split; [reflexivity|]. split_and!; [exact Hok'| |done|].
  - eapply put_spec_perm; [|by apply put_spec_new]. rewrite He. cbn. symmetry. apply Permutation_cons_append.
  - pose proof (prefix_length _ _ Hpk) as Hpl. rewrite length_path in Hpl. unfold insert_cost; cbn; lia.
Qed.

Lemma insert_at_slot p pre bm cl ch n k v :
  length p + length pre < 64 → bitmap_ok bm → 2 ≤ length (cl ++ ch) → nibble_ok n → Z.testbit bm n = false →
  ((p ++ pre) ++ [n]) `prefix_of` path k →
  Forall2 (λ n c, trie_ok ((p ++ pre) ++ [n]) c) (low bm n) cl →
  Forall2 (λ n c, trie_ok ((p ++ pre) ++ [n]) c) (high bm n) ch →
  trie_ok p (Branch pre (Z.lor bm (bit n)) (cl ++ Leaf (mkLeaf k v (hasher k)) :: ch)).
Proof.
  intros Hd Hb Hl Hn Ht Hq Hlow Hhigh. constructor; [done| | |].
  - by apply bitmap_lor_ok.
  - rewrite length_app in *. cbn. lia.
  - rewrite slots_set by done. apply Forall2_app; [done|]. constructor; [by constructor|done].
Qed.

Lemma insert_recursive_spec n p k v st : trie_ok p n → p `prefix_of` path k → insert_ok p n k v st.
Proof.
  revert p st. induction n as [l|c|pre bm cs IH|d] using TrieNode_rect'; intros p st Hok Hp; unfold insert_ok;
    pose proof (entries_keys_nodup _ _ Hok) as Hnd; pose proof (prefix_length _ _ Hp) as Hlen; rewrite length_path in Hlen;
    inversion Hok as [? k0 v0 Hp0|? h es Hp0 Hl Hs Hh|? ? ? ? Hd Hb Hl HF]; subst;
    cbn [insert_recursive entries leaf_hash leaf_key leaf_value coll_hash coll_entries] in *.
  - case_decide as Hh; [case_decide as Hk|].
    + subst. eexists _, _, _. split; [reflexivity|]. split_and!; [by constructor| |set_solver|unfold insert_cost; cbn; lia].
      intros k' v'. cbn. rewrite !list_elem_of_singleton. naive_solver.
    + destruct (collision_new_ok p (hasher k) [(k0, v0); (k, v)]) as [Hok' He]; [done|done| | |].
      { cbn. apply NoDup_cons. split; [set_solver|]. apply NoDup_singleton. }
      { intros e [ -> | ->%list_elem_of_singleton]%elem_of_cons; done. }
      assert (k ∉ [(k0, v0)].*1) as Hnk by set_solver.
      eexists _, _, _. split; [reflexivity|]. split_and!; [done| |done|unfold insert_cost; cbn; lia].
      eapply put_spec_perm; [|by apply put_spec_new]. rewrite He. apply perm_swap.
    + destruct (branch_off_ok p (Leaf (mkLeaf k0 v0 (hasher k0))) (hasher k0) k v st) as (n' & st' & -> & ? & ? & ? & ?);
        [done|by intros e ->%list_elem_of_singleton|apply hasher_ok|congruence|apply hasher_ok|by constructor|done|done|].
      eexists _, _, _. by split_and!.
  - assert (∃ e, e ∈ es) as [e0 He0] by (destruct es as [|e es]; [simpl in *; lia|exists e; by left]).
    case_decide as Hd.
    + destruct (bucket_put k v es 0) as [[es' found] m] eqn:E.
      destruct (bucket_put_spec _ _ _ _ _ _ _ E Hnd) as [Ht Hf]. destruct found; cbn [negb].
      * destruct (Ht eq_refl) as (Hkeys & Hput & Hin). destruct (collision_new_ok p (hasher k) es') as [Hok' He'].
        { by subst. } { by rewrite <-(length_fmap fst), Hkeys, length_fmap. } { by rewrite Hkeys. }
        { intros e He. apply (list_elem_of_fmap_2 fst) in He. rewrite Hkeys in He.
          apply list_elem_of_fmap in He as (e' & -> & He'). rewrite <-Hd. by apply Hh. }
        eexists _, _, _. split; [reflexivity|]. split_and!; [done|by eapply put_spec_perm|done|unfold insert_cost; cbn; lia].
      * destruct (Hf eq_refl) as [-> Hk]. assert (sort_by (cmp_on fst) (es ++ [(k, v)]) ≡ₚ (k, v) :: es) as Hperm.
        { rewrite sort_by_perm. symmetry. apply Permutation_cons_append. }
        destruct (collision_new_ok p (hasher k) (sort_by (cmp_on fst) (es ++ [(k, v)]))) as [Hok' He'].
        { by subst. } { rewrite Hperm. cbn. lia. } { rewrite Hperm. by apply NoDup_cons. }
        { intros e. rewrite Hperm, elem_of_cons. intros [ -> |He]; [done|]. rewrite <-Hd. by apply Hh. }
        eexists _, _, _. split; [reflexivity|]. split_and!; [done| |done|unfold insert_cost; cbn; lia].
        eapply put_spec_perm; [|by apply put_spec_new]. by rewrite He', Hperm.
    + destruct (hasher_ok e0.1) as [Hl1 Hl2]. rewrite (Hh e0 He0) in Hl1, Hl2.
      destruct (branch_off_ok p (Collision (mkColl h es)) h k v st) as (n' & st' & -> & ? & ? & ? & ?);
        [done|intros e He; unfold path; by rewrite Hh|done|congruence|done|by constructor|done|done|].
      eexists _, _, _. by split_and!.
  - destruct (match_len_spec (hasher k) (length p) pre) as (len & -> & Hle & Ht & Hx).
    { change (nibs (hasher k)) with (path k). rewrite length_path. lia. }
    cbn [mbind option_bind]. change (nibs (hasher k)) with (path k) in *. case_decide as Hlt.
    + destruct (branch_split_ok p pre bm cs k v len st) as (n' & st' & -> & ? & ? & ? & ?); [done|done|done|done|by apply Hx|].
      eexists _, _, _. by split_and!.
    + assert (len = length pre) as -> by lia.
      assert ((p ++ pre) `prefix_of` path k) as Hq.
      { apply prefix_split; [done|]. rewrite firstn_all in Ht. rewrite Ht. apply prefix_take. }
      destruct (branch_nav _ _ _ _ _ Hok Hq) as (n & cl & cm & ch & -> & Hn & -> & Hcl & Hqn & Hkl & Hkh & Hlow & Hhigh & Hm).
      cbn [mbind option_bind]. rewrite child_index_spec, low_mask by done. rewrite concat_cut.
      destruct (Z.testbit bm n) eqn:Etb.
      * destruct Hm as (c & -> & Hc). rewrite <-Hcl, lookup_mid. cbn [mbind option_bind]. cbn [fmap list_fmap concat]. rewrite app_nil_r.
        rewrite !Forall_app, Forall_singleton in IH. destruct IH as (_ & IH & _).
        destruct (IH ((p ++ pre) ++ [n]) (visit st) Hc Hqn) as (c' & added & st' & Hi & Hc' & Hput & Hadd & Hcost).
        rewrite !length_app in Hi. cbn [length] in Hi. replace (S (length p + length pre)) with (length p + length pre + 1) by lia.
        rewrite Hi. cbn [mbind option_bind]. eexists _, _, _. split; [reflexivity|].
        assert (<[length cl:=c']> (cl ++ [c] ++ ch) = cl ++ [c'] ++ ch) as Hins.
        { rewrite insert_app_r_alt by lia. by rewrite Nat.sub_diag. }
        rewrite Hins. split_and!.
        -- constructor; [done|done|rewrite !length_app in *; cbn in *; lia|]. rewrite (slots_split bm n Hn), Etb.
           apply Forall2_app; [done|]. apply Forall2_app; [by repeat constructor|done].
        -- cbn [entries]. rewrite concat_cut. cbn [fmap list_fmap concat]. rewrite app_nil_r. by apply put_spec_mid.
        -- rewrite Hadd, !fmap_app, !not_elem_of_app. naive_solver.
        -- unfold insert_cost in *. cbn [visit built nodes_visited nodes_allocated nodes_hashed] in *.
           rewrite !length_app in Hcost. cbn [length] in Hcost. lia.
      * subst cm. unfold vec_insert. cbn [app] in *. rewrite decide_True by (rewrite length_app; lia).
        cbn [mbind option_bind]. rewrite <-Hcl, take_app_length, drop_app_length.
        eexists _, _, _. split; [reflexivity|]. cbn [fmap list_fmap concat app]. split_and!.
        -- by apply insert_at_slot.
        -- cbn [entries]. change (cl ++ Leaf (mkLeaf k v (hasher k)) :: ch) with (cl ++ [Leaf (mkLeaf k v (hasher k))] ++ ch).
           rewrite concat_cut. change (concat (entries <$> cl) ++ concat (entries <$> ch)) with
             (concat (entries <$> cl) ++ [] ++ concat (entries <$> ch)).
           apply put_spec_mid; [done..|]. cbn. apply put_spec_new. apply not_elem_of_nil.
        -- split; [intros _|done]. rewrite fmap_app, not_elem_of_app. done.
        -- unfold insert_cost. cbn. lia.
Qed.

(** * Removal *)

Lemma bucket_remove_spec k (es : list (K * V)) n es' removed n' :
  bucket_remove k es n = (es', removed, n') → NoDup es.*1 →
  (removed = true → (∃ v, es ≡ₚ (k, v) :: es') ∧ es'.*1 `sublist_of` es.*1) ∧ (removed = false → k ∉ es.*1).
Proof.
  revert n es' removed n'. induction es as [|[k0 v0] es IH]; intros n es' removed n' Hb Hnd; cbn [bucket_remove] in Hb.
  { simplify_eq. split; [done|]. intros _. apply not_elem_of_nil. }
  rewrite fmap_cons in Hnd. apply NoDup_cons in Hnd as [Hk Hnd]. case_decide as Hd.
  - simplify_eq. split; [|done]. intros _. split; [by exists v0|]. cbn. by constructor.
  - destruct (bucket_remove k es (S n)) as [[es0 f0] n0] eqn:E. simplify_eq.
    destruct (IH _ _ _ _ E Hnd) as [Ht Hf]. split; intros Hr.
    + destruct (Ht Hr) as ((v & Hp) & Hs). split; [|cbn; by constructor]. exists v. rewrite Hp. apply perm_swap.
    + rewrite fmap_cons, not_elem_of_cons. auto.
Qed.

Lemma del_spec_perm (k : K) l l1 l2 : l1 ≡ₚ l2 → del_spec (V := V) k l l2 → del_spec k l l1.
Proof. intros Hp Hs k' v'. rewrite Hp. apply Hs. Qed.

Lemma del_spec_cons (k : K) (v : V) l l' : l ≡ₚ (k, v) :: l' → k ∉ l'.*1 → del_spec k l l'.
Proof.
  intros Hp Hk k' v'. rewrite Hp, elem_of_cons. split; [|naive_solver]. intros Hin. split; [|by right].
  intros ->. by apply (list_elem_of_fmap_2 fst) in Hin.
Qed.

(** What a removal costs: at most one node for each it visits. *)
Definition remove_cost (depth : nat) (st st' : TrieOpStats) : Prop :=
  nodes_visited st < nodes_visited st' ≤ nodes_visited st + (65 - depth) ∧
  nodes_allocated st' + nodes_visited st ≤ nodes_allocated st + nodes_visited st' ∧
  nodes_hashed st' + nodes_allocated st = nodes_hashed st + nodes_allocated st'.

(** The subtrie that is left, if any. *)
Definition remains (p : list Z) (k : K) (l : list (K * V)) (n : option TNode) : Prop :=
  match n with
  | Some n' => trie_ok p n' ∧ del_spec k l (entries n')
  | None => del_spec k l []
  end.

Definition remove_ok (p : list Z) (n : TNode) (k : K) (st : TrieOpStats) : Prop :=
  ∃ n' removed st', remove_recursive n k (hasher k) (length p) st = Some (n', removed, st') ∧
    (removed = true → remains p k (entries n) n' ∧ k ∈ (entries n).*1) ∧
    (removed = false → n' = Some n ∧ (k ∉ (entries n).*1)) ∧ remove_cost (length p) st st'.

Lemma shrink_bucket_ok p h (es : list (K * V)) k v es' st :
  p `prefix_of` nibs h → NoDup es.*1 → (∀ e, e ∈ es → hasher e.1 = h) → es ≡ₚ (k, v) :: es' →
  ∃ n' st', shrink_bucket h es' st = (n', st') ∧ remains p k es n' ∧
    nodes_visited st' = nodes_visited st ∧ nodes_allocated st' ≤ nodes_allocated st + 1 ∧
    nodes_hashed st' + nodes_allocated st = nodes_hashed st + nodes_allocated st'.
Proof.
  intros Hp Hnd Hh Hperm. rewrite Hperm in Hnd. cbn in Hnd. apply NoDup_cons in Hnd as [Hk Hnd].
  assert (∀ e, e ∈ es' → hasher e.1 = h) as Hh' by (intros e He; apply Hh; rewrite Hperm; by right).
  pose proof (del_spec_cons _ _ _ _ Hperm Hk) as Hdel. unfold shrink_bucket.
  destruct es' as [|[k1 v1] [|e es']]; (eexists _, _; split; [reflexivity|]); cbn [remains]; cbn; split_and!; try lia.
  - done.
  - rewrite <-(Hh' (k1, v1)) by (by left). constructor. unfold path. rewrite Hh'; [done|by left].
  - done.
  - apply (collision_new_ok p h ((k1, v1) :: e :: es')); [done|cbn; lia|done|done].
  - eapply del_spec_perm; [apply (sort_by_perm (cmp_on fst) ((k1, v1) :: e :: es'))|done].
Qed.

Lemma contract_ok p pre r c bm st :
  trie_ok ((p ++ pre) ++ [r]) c → slots bm = [r] →
  ∃ n' st', contract pre bm c st = (n', st') ∧ trie_ok p n' ∧ entries n' = entries c ∧
    nodes_visited st' = nodes_visited st ∧ nodes_allocated st' ≤ nodes_allocated st + 1 ∧
    nodes_hashed st' + nodes_allocated st = nodes_hashed st + nodes_allocated st'.
Proof.
  intros Hc Hr. assert (trailing_zeros bm = r) as Htz by (unfold trailing_zeros; by rewrite Hr).
  unfold contract. inversion Hc as [? k v Hp|? h es Hp Hl Hs Hh|? cpre cbm cs Hd Hb Hl HF]; subst;
    (eexists _, _; split; [reflexivity|]); cbn; split_and!; try lia; try done.
  - constructor. etrans; [|exact Hp]. by do 2 apply prefix_app_r.
  - constructor; [|done..]. etrans; [|exact Hp]. by do 2 apply prefix_app_r.
  - constructor; [rewrite !length_app in *; cbn in *; lia|done|done|].
    replace (p ++ pre ++ trailing_zeros bm :: cpre) with (((p ++ pre) ++ [trailing_zeros bm]) ++ cpre)
      by (by rewrite <-!app_assoc). done.
Qed.

Lemma bitmap_clear_ok bm n : bitmap_ok bm → bitmap_ok (Z.land bm (Z.lnot (bit n))).
Proof.
  unfold bitmap_ok. intros Hb. set (c := Z.lnot (bit n)).
  assert (Z.land bm c = Z.land bm c mod 2^16)%Z as ->; [|apply Z.mod_pos_bound; lia].
  rewrite <-Z.land_ones by lia. rewrite <-Z.land_assoc, (Z.land_comm c), Z.land_assoc, Z.land_ones by lia.
  by rewrite Z.mod_small.
Qed.

Lemma remove_child_gone p pre bm cl c ch n k st :
  trie_ok p (Branch pre bm (cl ++ [c] ++ ch)) → nibble_ok n → Z.testbit bm n = true → length cl = length (low bm n) →
  Forall2 (λ n c, trie_ok ((p ++ pre) ++ [n]) c) (low bm n) cl →
  Forall2 (λ n c, trie_ok ((p ++ pre) ++ [n]) c) (high bm n) ch →
  del_spec k (entries c) [] → (k ∉ (concat (entries <$> cl)).*1) → (k ∉ (concat (entries <$> ch)).*1) →
  ∃ n' st', (if decide (2 ≤ length (cl ++ ch))
      then Some (Some (Branch pre (Z.land bm (Z.lnot (bit n))) (cl ++ ch)), true, built 1 st)
      else single_child ← last (cl ++ ch);
           let '(n', st) := contract pre (Z.land bm (Z.lnot (bit n))) single_child st in Some (Some n', true, st)) =
      Some (Some n', true, st') ∧
    trie_ok p n' ∧ del_spec k (concat (entries <$> cl ++ [c] ++ ch)) (entries n') ∧
    nodes_visited st' = nodes_visited st ∧ nodes_allocated st' ≤ nodes_allocated st + 1 ∧
    nodes_hashed st' + nodes_allocated st = nodes_hashed st + nodes_allocated st'.
Proof.
  intros Hok Hn Htb Hcl Hlow Hhigh Hdel Hkl Hkh. inversion Hok as [| |? ? ? ? Hd Hb Hl HF]; subst.
  assert (del_spec k (concat (entries <$> cl ++ [c] ++ ch)) (concat (entries <$> cl ++ ch))) as Hdel'.
  { change (cl ++ ch) with (cl ++ [] ++ ch). rewrite !concat_cut. cbn [fmap list_fmap concat]. rewrite app_nil_r.
    by apply del_spec_mid. }
  pose proof (slots_clear bm n Hn) as Hs.
  assert (Forall2 (λ n c, trie_ok ((p ++ pre) ++ [n]) c) (slots (Z.land bm (Z.lnot (bit n)))) (cl ++ ch)) as HF2.
  { rewrite Hs. by apply Forall2_app. }
  case_decide as H2.
  - eexists _, _. split; [reflexivity|]. cbn. split_and!; try lia; [|done].
    constructor; [done|by apply bitmap_clear_ok|done|done].
  - rewrite !length_app in Hl, H2. cbn in Hl. destruct (cl ++ ch) as [|c' [|? ?]] eqn:E;
      [apply (f_equal length) in E; rewrite length_app in E; simpl in E; lia| |
       apply (f_equal length) in E; rewrite length_app in E; simpl in E; lia].
    cbn [last mbind option_bind]. inversion HF2 as [|r ? ms ? Hc' Hn2 Hsl]; subst. inversion Hn2; subst.
    destruct (contract_ok p pre r c' _ st Hc' (eq_sym Hsl)) as (n' & st' & -> & Hok' & He & ? & ? & ?).
    eexists _, _. split; [reflexivity|]. rewrite He. cbn in Hdel'. rewrite app_nil_r in Hdel'. by split_and!.
Qed.

Lemma remove_recursive_spec n p k st : trie_ok p n → p `prefix_of` path k → remove_ok p n k st.
Proof.
  revert p st. induction n as [l|c|pre bm cs IH|d] using TrieNode_rect'; intros p st Hok Hp; unfold remove_ok;
    pose proof (entries_keys_nodup _ _ Hok) as Hnd; pose proof (prefix_length _ _ Hp) as Hlen; rewrite length_path in Hlen;
    inversion Hok as [? k0 v0 Hp0|? h es Hp0 Hl Hs Hh|? ? ? ? Hd Hb Hl HF]; subst;
    cbn [remove_recursive entries leaf_hash leaf_key leaf_value coll_hash coll_entries] in *.
  - repeat case_decide; (eexists _, _, _; split; [reflexivity|]);
      (split_and!; [intros Hr|intros Hr|unfold remove_cost; cbn; lia]); try done.
    + subst. split; [|set_solver]. intros k' v'. cbn. rewrite list_elem_of_singleton.
      split; [by intros ?%not_elem_of_nil|naive_solver].
    + split; [done|]. set_solver.
    + split; [done|]. cbn. rewrite list_elem_of_singleton. congruence.
  - case_decide as Hd.
    + destruct (bucket_remove k es 0) as [[es' removed] m] eqn:E.
      destruct (bucket_remove_spec _ _ _ _ _ _ E Hnd) as [Ht Hf]. destruct removed; cbn [negb].
      * destruct (Ht eq_refl) as ((v & Hperm) & _).
        destruct (shrink_bucket_ok p h es k v es' (compared m (visit st)) Hp0 Hnd Hh Hperm) as (n' & st' & -> & ? & Hv & Ha & Hc).
        eexists _, _, _. split; [reflexivity|]. split_and!; [|done|unfold remove_cost; cbn in *; lia].
        intros _. split; [done|]. rewrite Hperm. by left.
      * eexists _, _, _. split; [reflexivity|]. split_and!; [done|auto|unfold remove_cost; cbn; lia].
    + eexists _, _, _. split; [reflexivity|]. split_and!; [done| |unfold remove_cost; cbn; lia].
      intros _. split; [done|]. intros (e & -> & He)%list_elem_of_fmap. by rewrite (Hh e He) in Hd.
  - rewrite (branch_prefix_matches _ _ _ _ _ Hok Hp). cbn [mbind option_bind].
    case_bool_decide as Hq; cbn [negb].
    2: { eexists _, _, _. split; [reflexivity|]. split_and!; [done| |unfold remove_cost; cbn; lia].
         intros _. split; [done|]. by apply (branch_off_path _ _ _ _ _ Hok Hq). }
    rewrite decide_False by lia.
    destruct (branch_nav _ _ _ _ _ Hok Hq) as (n & cl & cm & ch & -> & Hn & -> & Hcl & Hqn & Hkl & Hkh & Hlow & Hhigh & Hm).
    cbn [mbind option_bind]. rewrite child_index_spec by done. destruct (Z.testbit bm n) eqn:Etb.
    2: { subst cm. eexists _, _, _. split; [reflexivity|]. split_and!; [done| |unfold remove_cost; cbn; lia].
         intros _. split; [done|]. cbn [app]. rewrite fmap_app, concat_app, fmap_app, not_elem_of_app. done. }
    destruct Hm as (c & -> & Hc). rewrite <-Hcl, lookup_mid. cbn [mbind option_bind].
    rewrite !Forall_app, Forall_singleton in IH. destruct IH as (_ & IH & _).
    destruct (IH ((p ++ pre) ++ [n]) (visit st) Hc Hqn) as (c' & removed & st' & Hi & Hrem & Hno & Hcost).
    rewrite !length_app in Hi. cbn [length] in Hi. replace (S (length p + length pre)) with (length p + length pre + 1) by lia.
    rewrite Hi. cbn [mbind option_bind]. unfold remove_cost in Hcost. cbn in Hcost. rewrite !length_app in Hcost. cbn in Hcost.
    assert (k ∈ (concat (entries <$> cl ++ [c] ++ ch)).*1 ↔ k ∈ (entries c).*1) as Hkeys.
    { rewrite concat_cut, !fmap_app, !elem_of_app. cbn [fmap list_fmap concat]. rewrite app_nil_r. naive_solver. }
    destruct removed; cbn [negb].
    2: { eexists _, _, _. split; [reflexivity|]. split_and!; [done| |unfold remove_cost; cbn in *; lia].
         intros _. split; [done|]. rewrite Hkeys. by apply Hno. }
    destruct (Hrem eq_refl) as [Hrem' Hin]. destruct c' as [c'|]; cbn [remains] in Hrem'.
    + destruct Hrem' as [Hc' Hdel]. assert (<[length cl:=c']> (cl ++ [c] ++ ch) = cl ++ [c'] ++ ch) as ->.
      { rewrite insert_app_r_alt by lia. by rewrite Nat.sub_diag. }
      eexists _, _, _. split; [reflexivity|]. split_and!; [|done|unfold remove_cost; cbn in *; lia].
      intros _. split; [|by apply Hkeys]. cbn [remains]. split.
      * constructor; [done|done|rewrite !length_app in *; cbn in *; lia|]. rewrite (slots_split bm n Hn), Etb.
        apply Forall2_app; [done|]. apply Forall2_app; [by repeat constructor|done].
      * cbn [entries]. rewrite !concat_cut. cbn [fmap list_fmap concat]. rewrite !app_nil_r. by apply del_spec_mid.
    + unfold vec_remove. rewrite decide_True by (rewrite !length_app; cbn; lia). cbn [mbind option_bind].
      change ([c] ++ ch) with (c :: ch). rewrite delete_middle.
      destruct (remove_child_gone p pre bm cl c ch n k st' Hok Hn Etb Hcl Hlow Hhigh Hrem' Hkl Hkh)
        as (n' & st2 & -> & Hok' & Hdel & Hv & Ha & Hh).
      eexists _, _, _. split; [reflexivity|]. split_and!; [|done|unfold remove_cost; cbn in *; lia].
      intros _. split; [|by apply Hkeys]. by split.
Qed.
End shape.
