(* ===== verification/TrieMap.v ===== *)
(** Persistent maps against their contract (src/crates/soc-core/src/store.rs).

    [PersistentMap] is the trait; a [PersistentMapLaws] instance relates a map to the
    finite map it stands for. [ArcMap] is a snapshot map, [TrieMap] the trie; both keep
    the laws, so they agree on every history. The root digest is a function of the
    bindings, and determines them. *)
From S2P Require Import Prelude IntCodec Canon CanonLaws Witness Encoding Trie TrieLaws.

(** * The trait *)

(** [None] is a panic. *)
Class PersistentMap (M K V : Type) := {
  pm_new : M;
  pm_get : M → K → option (option V);
  pm_insert : M → K → V → option M;
  pm_remove : M → K → option M;
  pm_len : M → nat;
}.
#[export] Hint Mode PersistentMap ! - - : typeclass_instances.

Definition pm_is_empty {M K V} `{PersistentMap M K V} (m : M) : bool := bool_decide (pm_len m = 0).

Class PersistentMapLaws (M K V : Type) `{Countable K} `{!PersistentMap M K V}
    (valid : M → Prop) (model : M → gmap K V) : Prop := {
  pm_new_spec : valid pm_new ∧ model pm_new = ∅;
  pm_get_spec m k : valid m → pm_get m k = Some (model m !! k);
  pm_insert_spec m k v : valid m → ∃ m', pm_insert m k v = Some m' ∧ valid m' ∧ model m' = <[k:=v]> (model m);
  pm_remove_spec m k : valid m → ∃ m', pm_remove m k = Some m' ∧ valid m' ∧ model m' = delete k (model m);
  pm_len_spec m : valid m → pm_len m = size (model m)
}.

(** * Histories *)

Inductive map_op (K V : Type) : Type := Put (k : K) (v : V) | Del (k : K).
Arguments Put {K V} _ _.
Arguments Del {K V} _.

Definition pm_apply {M K V} `{PersistentMap M K V} (m : M) (o : map_op K V) : option M :=
  match o with Put k v => pm_insert m k v | Del k => pm_remove m k end.

Fixpoint pm_run {M K V} `{PersistentMap M K V} (m : M) (os : list (map_op K V)) : option M :=
  match os with
  | [] => Some m
  | o :: os' => m' ← pm_apply m o; pm_run m' os'
  end.

(** The finite map a history leaves. *)
Definition model_apply {K V} `{Countable K} (m : gmap K V) (o : map_op K V) : gmap K V :=
  match o with Put k v => <[k:=v]> m | Del k => delete k m end.
Definition model_run {K V} `{Countable K} (m : gmap K V) (os : list (map_op K V)) : gmap K V :=
  fold_left model_apply os m.

Lemma pm_run_spec {M K V} `{PersistentMapLaws M K V valid model} (m : M) os : valid m →
  ∃ m', pm_run m os = Some m' ∧ valid m' ∧ model m' = model_run (model m) os.
Proof.
  revert m. induction os as [|o os IH]; intros m Hm; cbn [pm_run model_run fold_left]; [eauto|].
  assert (∃ m', pm_apply m o = Some m' ∧ valid m' ∧ model m' = model_apply (model m) o) as (m' & -> & Hm' & Heq).
  { destruct o as [k v|k]; [by apply pm_insert_spec|by apply pm_remove_spec]. }
  cbn [mbind option_bind]. rewrite <-Heq. by apply IH.
Qed.

(** * The snapshot map *)

Record ArcMap (K V : Type) `{Countable K} : Type := mkArcMap { arc_map : gmap K V }.
Arguments mkArcMap {K V _ _} _.
Arguments arc_map {K V _ _} _.

#[export] Instance PersistentMap_ArcMap {K V} `{Countable K} : PersistentMap (ArcMap K V) K V := {
  pm_new := mkArcMap ∅;
  pm_get m k := Some (arc_map m !! k);
  pm_insert m k v := Some (mkArcMap (<[k:=v]> (arc_map m)));
  pm_remove m k := Some (mkArcMap (delete k (arc_map m)));
  pm_len m := size (arc_map m)
}.

#[export] Instance ArcMap_laws {K V} `{Countable K} : PersistentMapLaws (ArcMap K V) K V (λ _, True) arc_map.
Proof. split; intros; cbn; eauto. Qed.

(** * The trie *)

Record TrieMap (K V : Type) : Type := mkTrie {
  root : option (TrieNode K V);
  len : nat;
  hasher : KeyHasher K
}.
Arguments mkTrie {K V} _ _ _.
Arguments root {K V} _.
Arguments len {K V} _.
Arguments hasher {K V} _.

Section ops.
Context `{Blake3} {K V : Type} `{EqDecision K} `{Ord K} `{Canonical K} `{Canonical V}.

Definition with_hasher (h : KeyHasher K) : TrieMap K V := mkTrie None 0 h.

(** [is_empty] of the type itself; the trait's is [pm_is_empty]. *)
Definition trie_is_empty (m : TrieMap K V) : bool := match root m with None => true | Some _ => false end.

(** [ptr_eq]; [same] compares two allocations. *)
Definition ptr_eq (same : TrieNode K V → TrieNode K V → bool) (m1 m2 : TrieMap K V) : bool :=
  match root m1, root m2 with
  | None, None => true
  | Some a, Some b => same a b
  | _, _ => false
  end.

Definition empty_digest : Digest := digest_of Value (bytes_of_string "brix:trie:empty:v1").

Definition root_digest (m : TrieMap K V) : Digest :=
  match root m with None => empty_digest | Some node => node_digest node end.

Definition get_with_stats (m : TrieMap K V) (key : K) (stats : TrieOpStats) :
    option (option V * TrieOpStats) :=
  match root m with
  | None => Some (None, stats)
  | Some r => get_recursive r key (hasher m key) 0 stats
  end.

Definition trie_get (m : TrieMap K V) (key : K) : option (option V) :=
  fst <$> get_with_stats m key stats_default.

Definition contains_key (m : TrieMap K V) (key : K) : option bool :=
  (λ o, match o with Some _ => true | None => false end) <$> trie_get m key.

Definition insert_with_stats (m : TrieMap K V) (key : K) (value : V) : option (TrieMap K V * TrieOpStats) :=
  let hash := hasher m key in
  match root m with
  | None => Some (mkTrie (Some (Leaf (mkLeaf key value hash))) 1 (hasher m), built 1 stats_default)
  | Some r =>
    '(new_root, added, stats) ← insert_recursive r key value hash 0 stats_default;
    Some (mkTrie (Some new_root) (if added : bool then S (len m) else len m) (hasher m), stats)
  end.

Definition trie_insert (m : TrieMap K V) (key : K) (value : V) : option (TrieMap K V) :=
  fst <$> insert_with_stats m key value.

(** [self.len - 1] underflows on an inconsistent length. *)
Definition remove_with_stats (m : TrieMap K V) (key : K) : option (TrieMap K V * TrieOpStats) :=
  match root m with
  | None => Some (m, stats_default)
  | Some r =>
    '(new_root, removed, stats) ← remove_recursive r key (hasher m key) 0 stats_default;
    if negb removed then Some (m, stats) else
    len' ← (match len m with O => None | S n => Some n end);
    Some (mkTrie new_root len' (hasher m), stats)
  end.

Definition trie_remove (m : TrieMap K V) (key : K) : option (TrieMap K V) :=
  fst <$> remove_with_stats m key.

Definition iter (m : TrieMap K V) : option (list (K * V)) :=
  match root m with None => Some [] | Some r => collect_entries r [] end.

(** [PartialEq]. *)
Definition trie_eq (same : TrieNode K V → TrieNode K V → bool) (m1 m2 : TrieMap K V) : bool :=
  if ptr_eq same m1 m2 then true
  else if decide (len m1 ≠ len m2) then false
  else bool_decide (root_digest m1 = root_digest m2).

(** [FromIterator]. *)
Definition from_iter (h : KeyHasher K) (l : list (K * V)) : option (TrieMap K V) :=
  fold_left (λ acc '(k, v), m ← acc; trie_insert m k v) l (Some (with_hasher h)).
End ops.

#[export] Instance Canonical_TrieMap `{Blake3} {K V} `{Canonical K} `{Canonical V} :
  Canonical (TrieMap K V) := λ m, write_bytes (as_bytes (root_digest m)).

(** The trait for the hasher [h], its type's [Default]. *)
Definition PersistentMap_TrieMap {K V} `{EqDecision K} `{Ord K} (h : KeyHasher K) :
  PersistentMap (TrieMap K V) K V := {|
    pm_new := with_hasher h; pm_get := trie_get; pm_insert := trie_insert;
    pm_remove := trie_remove; pm_len := len
  |}.

(** * The trie keeps the laws *)

Section laws.
Context {K V : Type} `{Countable K} `{OrdLaws K}.
Context (h : KeyHasher K) (h_ok : ∀ k, length (h k) = 32 ∧ are_bytes (h k)).
Implicit Types m : TrieMap K V.

(** The bindings in the order of iteration. *)
Definition bindings m : list (K * V) := match root m with None => [] | Some n => entries n end.

Definition tm_valid m : Prop :=
  hasher m = h ∧ len m = length (bindings m) ∧ match root m with None => True | Some n => trie_ok h [] n end.

Definition tm_model m : gmap K V := list_to_map (bindings m).

Lemma valid_nodup m : tm_valid m → NoDup (bindings m).*1.
Proof.
  intros (_ & _ & Hr). unfold bindings. destruct (root m); [|constructor]. by apply (entries_keys_nodup h h_ok) with (p := []).
Qed.

Lemma model_elem m k v : tm_valid m → tm_model m !! k = Some v ↔ (k, v) ∈ bindings m.
Proof. intros Hm. symmetry. apply elem_of_list_to_map. by apply valid_nodup. Qed.

Lemma model_size m : tm_valid m → size (tm_model m) = len m.
Proof. intros Hm. unfold tm_model. rewrite map_size_list_to_map by by apply valid_nodup. by destruct Hm as (_ & -> & _). Qed.

Lemma model_put (l l' : list (K * V)) k v : NoDup l.*1 → NoDup l'.*1 → put_spec k v l l' →
  (list_to_map l' : gmap K V) = <[k:=v]> (list_to_map l).
Proof.
  intros Hl Hl' Hp. apply map_eq. intros k'. apply option_eq. intros v'.
  rewrite <-elem_of_list_to_map by done. rewrite (Hp k' v'), lookup_insert_Some.
  rewrite <-elem_of_list_to_map by done. naive_solver.
Qed.

Lemma model_del (l l' : list (K * V)) k : NoDup l.*1 → NoDup l'.*1 → del_spec k l l' →
  (list_to_map l' : gmap K V) = delete k (list_to_map l).
Proof.
  intros Hl Hl' Hp. apply map_eq. intros k'. apply option_eq. intros v'.
  rewrite <-elem_of_list_to_map by done. rewrite (Hp k' v'), lookup_delete_Some.
  rewrite <-elem_of_list_to_map by done. naive_solver.
Qed.

Lemma not_key_model (l : list (K * V)) k : k ∉ l.*1 → (list_to_map l : gmap K V) !! k = None.
Proof. apply not_elem_of_list_to_map. Qed.

Lemma get_with_stats_spec m k : tm_valid m →
  ∃ st, get_with_stats m k stats_default = Some (tm_model m !! k, st) ∧
    nodes_visited st ≤ 65 ∧ nodes_allocated st = 0 ∧ nodes_hashed st = 0.
Proof.
  intros Hm. pose proof (λ v, model_elem m k v Hm) as Hmod. destruct Hm as (Hh & _ & Hr). unfold get_with_stats. rewrite Hh.
  unfold tm_model, bindings in *. destruct (root m) as [n|].
  - destruct (get_recursive_spec h h_ok n [] k stats_default Hr (prefix_nil _)) as (r & st & Hg & Hv & Hc & Ha & Hs).
    cbn [length] in Hg. rewrite Hg. exists st. split; [|cbn in *; lia]. repeat f_equal. apply option_eq. intros v. by rewrite Hv, Hmod.
  - exists stats_default. cbn. split; [done|lia].
Qed.

Lemma insert_with_stats_spec m k v : tm_valid m →
  ∃ m' st, insert_with_stats m k v = Some (m', st) ∧ tm_valid m' ∧ tm_model m' = <[k:=v]> (tm_model m) ∧
    nodes_visited st ≤ 65 ∧ nodes_allocated st ≤ nodes_visited st + 2 ∧ nodes_hashed st = nodes_allocated st.
Proof.
  intros Hm. pose proof (valid_nodup m Hm) as Hnd. pose proof (model_size m Hm) as Hsize.
  destruct Hm as (Hh & Hl & Hr). unfold insert_with_stats. rewrite Hh.
  unfold tm_model, bindings in *. destruct (root m) as [n|].
  - destruct (insert_recursive_spec h h_ok n [] k v stats_default Hr (prefix_nil _))
      as (n' & added & st & Hi & Hok & Hput & Hadd & Hc & Ha & Hs).
    cbn [length] in Hi. rewrite Hi. cbn [mbind option_bind].
    assert (NoDup (entries n').*1) as Hnd' by (by eapply entries_keys_nodup). pose proof (model_put _ _ _ _ Hnd Hnd' Hput) as Heq.
    eexists _, _. split; [reflexivity|]. split; [|split; [exact Heq|cbn in *; lia]].
    split; [done|]. split; [|done]. unfold bindings. cbn [root len].
    rewrite <-(map_size_list_to_map (M := gmap K) (entries n')), Heq by done. rewrite <-Hsize in *. destruct added.
    + rewrite map_size_insert_None; [done|]. apply not_key_model. by apply Hadd.
    + assert (k ∈ (entries n).*1) as Hk by (destruct (decide (k ∈ (entries n).*1)); [done|]; destruct Hadd as [_ Hadd]; by discriminate Hadd).
      apply list_elem_of_fmap in Hk as ([k' v'] & -> & Hin). cbn. rewrite map_size_insert_Some; [done|].
      exists v'. by apply elem_of_list_to_map.
  - eexists _, _. split; [reflexivity|]. split; [|cbn; split; [done|lia]].
    split; [done|]. split; [done|]. cbn. apply leaf_ok, prefix_nil.
Qed.

Lemma remove_with_stats_spec m k : tm_valid m →
  ∃ m' st, remove_with_stats m k = Some (m', st) ∧ tm_valid m' ∧ tm_model m' = delete k (tm_model m) ∧
    nodes_visited st ≤ 65 ∧ nodes_allocated st ≤ nodes_visited st ∧ nodes_hashed st = nodes_allocated st.
Proof.
  intros Hm. pose proof (valid_nodup m Hm) as Hnd. pose proof (model_size m Hm) as Hsize.
  pose proof Hm as (Hh & Hl & Hr). unfold remove_with_stats. rewrite Hh.
  unfold tm_model, bindings in *. destruct (root m) as [n|] eqn:Er.
  - destruct (remove_recursive_spec h h_ok n [] k stats_default Hr (prefix_nil _))
      as (n' & removed & st & Hi & Hyes & Hno & Hc & Ha & Hs).
    cbn [length] in Hi. rewrite Hi. cbn [mbind option_bind]. destruct removed; cbn [negb].
    + destruct (Hyes eq_refl) as [Hrem Hk]. apply list_elem_of_fmap in Hk as ([k' v'] & -> & Hin). cbn [fst] in *.
      rewrite Hl. destruct (length (entries n)) as [|len'] eqn:El.
      { apply nil_length_inv in El. rewrite El in Hin. by apply not_elem_of_nil in Hin. }
      cbn [mbind option_bind]. eexists _, _. split; [reflexivity|].
      assert (NoDup (match n' with None => [] | Some n0 => entries n0 end).*1 ∧
        del_spec k' (entries n) (match n' with None => [] | Some n0 => entries n0 end) ∧
        match n' with None => True | Some n0 => trie_ok h [] n0 end) as (Hnd' & Hdel & Hok').
      { destruct n' as [n'|]; cbn [remains] in Hrem; [|split_and!; [constructor|done|done]].
        destruct Hrem as [Hok' Hdel]. split_and!; [by eapply entries_keys_nodup|done|done]. }
      pose proof (model_del _ _ _ Hnd Hnd' Hdel) as Heq. split; [|split; [exact Heq|cbn in *; lia]].
      split; [done|]. split; [|done]. unfold bindings. cbn [root len].
      rewrite <-(map_size_list_to_map (M := gmap K) (match n' with None => [] | Some n0 => entries n0 end)), Heq by done.
      rewrite map_size_delete_Some by (exists v'; by apply elem_of_list_to_map). rewrite Hsize. lia.
    + destruct (Hno eq_refl) as [_ Hk]. eexists _, _. split; [reflexivity|]. split; [done|]. rewrite Er.
      split; [|cbn in *; lia]. symmetry. apply delete_id. by apply not_key_model.
  - eexists _, _. split; [reflexivity|]. split; [done|]. rewrite Er. cbn. split; [by rewrite delete_empty|lia].
Qed.

#[export] Instance TrieMap_laws :
  @PersistentMapLaws (TrieMap K V) K V _ _ (PersistentMap_TrieMap h) tm_valid tm_model.
Proof.
  split; cbn.
  - split; [|done]. by split_and!.
  - intros m k Hm. unfold trie_get. by destruct (get_with_stats_spec m k Hm) as (st & -> & _).
  - intros m k v Hm. unfold trie_insert.
    destruct (insert_with_stats_spec m k v Hm) as (m' & st & -> & ? & ? & _). exists m'. by split_and!.
  - intros m k Hm. unfold trie_remove.
    destruct (remove_with_stats_spec m k Hm) as (m' & st & -> & ? & ? & _). exists m'. by split_and!.
  - intros m Hm. symmetry. by apply model_size.
Qed.

(** Iteration returns the bindings. *)
Lemma collect_entries_spec (n : TrieNode K V) p out : trie_ok h p n → collect_entries n out = Some (out ++ entries n).
Proof.
  revert p out. induction n as [l|c|pre bm cs IH|d] using TrieNode_rect'; intros p out Hok; [done|done| |by inversion Hok].
  cbn [collect_entries entries]. inversion Hok as [| |? ? ? ? Hd Hb Hl HF]; subst. clear Hok Hd Hb Hl.
  revert out. induction HF as [|m c ms cs Hc HF IHF]; intros out; [cbn; by rewrite app_nil_r|].
  apply Forall_cons in IH as [IHc IH]. cbn [fmap list_fmap fold_left mbind option_bind concat].
  rewrite (IHc _ _ Hc), app_assoc. by apply IHF.
Qed.

Lemma iter_spec m : tm_valid m → iter m = Some (bindings m).
Proof.
  intros (_ & _ & Hr). unfold iter, bindings. destruct (root m) as [n|]; [|done]. by rewrite (collect_entries_spec n []).
Qed.

(** Equal maps have one trie. *)
Lemma model_root m1 m2 : tm_valid m1 → tm_valid m2 → tm_model m1 = tm_model m2 → m1 = m2.
Proof.
  intros Hm1 Hm2 Heq. assert (bindings m1 = bindings m2) as Hb.
  { assert (∀ m, tm_valid m → strictly_sorted (okey h <$> bindings m)) as Hs.
    { intros m (_ & _ & Hr). unfold bindings. destruct (root m); [|constructor]. by apply (trie_ok_entries h h_ok) in Hr as (_ & _ & ?). }
    assert (okey h <$> bindings m1 = okey h <$> bindings m2) as Ho.
    { apply strictly_sorted_unique; [by apply Hs..|]. intros x. rewrite !list_elem_of_fmap.
      split; intros ([k v] & -> & Hin); exists (k, v); (split; [done|]);
        apply model_elem in Hin; try done; apply model_elem; [done|congruence|done|congruence]. }
    assert ((bindings m1).*1 = (bindings m2).*1) as Hf.
    { apply (f_equal (fmap snd)) in Ho. rewrite <-!list_fmap_compose in Ho. exact Ho. }
    apply list_eq_same_length with (n := length (bindings m1)); [|done|].
    - by rewrite <-(length_fmap fst), <-Hf, length_fmap.
    - intros i [k v] [k' v'] _ H1' H2'.
      assert (k = k') as <-.
      { apply (f_equal (λ l, l !! i)) in Hf. rewrite !list_lookup_fmap, H1', H2' in Hf. by simplify_eq/=. }
      apply list_elem_of_lookup_2 in H1', H2'. apply model_elem in H1', H2'; [|done..]. congruence. }
  destruct Hm1 as (Hh1 & Hl1 & Hr1), Hm2 as (Hh2 & Hl2 & Hr2). destruct m1 as [r1 l1 h1], m2 as [r2 l2 h2].
  unfold bindings in *. cbn in *. subst. f_equal; [|by rewrite Hb].
  destruct r1 as [n1|], r2 as [n2|]; [| | |done].
  - f_equal. by eapply trie_ok_unique.
  - apply (trie_ok_entries h h_ok) in Hr1 as (_ & Hne & _). done.
  - apply (trie_ok_entries h h_ok) in Hr2 as (_ & Hne & _). by symmetry in Hb.
Qed.
End laws.

(** * The root digest determines the bindings *)

Section digests.
Context `{Blake3Laws} {K V : Type} `{CanonAppends K} `{CanonAppends V} `{OrdLaws K}.
Context (wfK : K → Prop) (wfV : V → Prop).
Context `{!PrefixFree wfK (canon_bytes (A := K))} `{!PrefixFree wfV (canon_bytes (A := V))}.
Context (h : KeyHasher K) (h_ok : ∀ k, length (h k) = 32 ∧ are_bytes (h k)).
Abbreviation TNode := (TrieNode K V).

Definition is_lazy (n : TNode) : bool := match n with Lazy _ => true | _ => false end.

(** The node with its children by digest, as it is stored and cached. *)
Definition shallow (n : TNode) : TNode :=
  match n with
  | Branch prefix bitmap children => Branch prefix bitmap ((λ c, Lazy (node_digest c)) <$> children)
  | _ => n
  end.

Definition node_payload (n : TNode) : bytes :=
  match n with
  | Leaf l => frame (bytes_of_string "brix:trie:leaf:v1") ++ frame (leaf_hash l) ++
      canon_bytes (leaf_key l) ++ canon_bytes (leaf_value l)
  | Collision c => frame (bytes_of_string "brix:trie:collision:v1") ++ frame (coll_hash c) ++
      enc_list (λ e, canon_bytes e.1 ++ canon_bytes e.2) (coll_entries c)
  | Branch pre bm cs => frame (bytes_of_string "brix:trie:branch:v1") ++ enc_list encode_uint pre ++
      encode_uint bm ++ concat ((λ c, frame (as_bytes (node_digest c))) <$> cs)
  | Lazy _ => []
  end.

Lemma payload_digest n : is_lazy n = false → node_digest n = digest_of Value (node_payload n).
Proof.
  intros Hz. destruct n as [l|c|pre bm cs|d]; [| | |done]; cbn [node_digest node_payload];
    unfold leaf_digest, collision_digest, branch_digest, write_tag; f_equal.
  - rewrite !canon_appends, !write_bytes_app. by rewrite <-!app_assoc.
  - rewrite (write_each_app _ (λ e, canon_bytes e.1 ++ canon_bytes e.2)).
    + rewrite !write_bytes_app. unfold write_uint, enc_list. by rewrite <-!app_assoc.
    + intros e w. by rewrite !canon_appends, app_assoc.
  - rewrite (write_each_app _ (λ d, frame (as_bytes d))) by (intros; apply write_bytes_app).
    rewrite (write_each_app write_uint encode_uint) by done.
    rewrite !write_bytes_app. unfold write_uint, enc_list. rewrite <-list_fmap_compose. by rewrite <-!app_assoc.
Qed.

Lemma node_digest_payload p n : trie_ok h p n → node_digest n = digest_of Value (node_payload n).
Proof. intros Hok. apply payload_digest. by inversion Hok. Qed.

Definition node_wf (n : TNode) : Prop :=
  len_ok (entries n) ∧ ∀ e, e ∈ entries n → wfK e.1 ∧ wfV e.2.

Lemma branch_nibbles p pre bm (cs : list TNode) : trie_ok h p (Branch pre bm cs) → Forall nibble_ok pre.
Proof.
  intros Hok. inversion Hok as [| |? ? ? ? Hd Hb Hl HF]; subst.
  pose proof (trie_ok_entries h h_ok _ _ Hok) as (Hp & Hne & _). cbn [entries] in *.
  destruct (concat (entries <$> cs)) as [|e L] eqn:E; [done|].
  destruct (entries_concat h h_ok _ _ _ (slots_sorted bm) (trie_ok_forall_entries h h_ok _ _ _ HF)) as [Hin _].
  destruct (Hin e) as (m & _ & Hm); [rewrite E; by left|].
  apply Forall_forall. intros x Hx. pose proof (nibs_range (h e.1)) as Hr. rewrite Forall_forall in Hr.
  apply Hr. change (nibs (h e.1)) with (path h e.1). destruct Hm as [r ->]. set_solver.
Qed.

Lemma prefix_nibbles p pre bm (cs : list TNode) : trie_ok h p (Branch pre bm cs) → len_ok pre ∧ Forall u64_ok pre.
Proof.
  intros Hok. pose proof (branch_nibbles _ _ _ _ Hok) as Hn. inversion Hok; subst. split; [unfold len_ok; lia|].
  eapply Forall_impl; [exact Hn|]. intros x Hx. unfold nibble_ok in Hx. unfold u64_ok. int_lia.
Qed.

Lemma child_wf pre bm cs c : node_wf (Branch pre bm cs) → c ∈ cs → node_wf c.
Proof.
  intros [Hl Hw] Hc. split.
  - unfold len_ok in *. cbn [entries] in Hl. apply list_elem_of_split in Hc as (c1 & c2 & ->).
    rewrite fmap_app, concat_app, length_app in Hl. cbn in Hl. rewrite length_app in Hl. lia.
  - intros e He. apply Hw. change (e ∈ concat (entries <$> cs)). apply elem_of_concat_entries. eauto.
Qed.

Lemma frame_tag_inj (s1 s2 : string) r1 r2 :
  len_ok (bytes_of_string s1) → len_ok (bytes_of_string s2) →
  frame (bytes_of_string s1) ++ r1 = frame (bytes_of_string s2) ++ r2 → s1 = s2 ∧ r1 = r2.
Proof.
  intros Ht1 Ht2 He. apply prefix_free_frame in He as [He ->]; [|done..]. by apply (inj bytes_of_string) in He.
Qed.

Lemma hash_len_ok k : len_ok (h k).
Proof. unfold len_ok. rewrite (proj1 (h_ok k)). lia. Qed.

(** What a node writes can be read back: its fields fit their encodings. *)
Definition payload_ok (n : TNode) : Prop :=
  match n with
  | Leaf l => len_ok (leaf_hash l) ∧ wfK (leaf_key l) ∧ wfV (leaf_value l)
  | Collision c => len_ok (coll_hash c) ∧ len_ok (coll_entries c) ∧ Forall (λ e, wfK e.1 ∧ wfV e.2) (coll_entries c)
  | Branch pre bm cs => (len_ok pre ∧ Forall u64_ok pre) ∧ u64_ok bm ∧ length cs = count_ones bm ∧
      Forall (λ c, len_ok (as_bytes (node_digest c))) cs
  | Lazy _ => False
  end.

Lemma trie_payload_ok p n : trie_ok h p n → node_wf n → payload_ok n.
Proof.
  intros Hok [Hl Hw]. destruct n as [l|c|pre bm cs|d]; [| | |by inversion Hok]; cbn.
  - inversion Hok; subst. split; [apply hash_len_ok|]. apply (Hw (k, v)). by left.
  - inversion Hok as [|? hh es ? Hl2 Hs Hh|]; subst. cbn in *. split_and!; [|done|by apply Forall_forall].
    destruct es as [|e es]; [simpl in *; lia|]. rewrite <-(Hh e) by by left. apply hash_len_ok.
  - split; [by eapply prefix_nibbles|]. inversion Hok as [| |? ? ? ? Hd Hb Hl2 HF]; subst.
    split_and!; [unfold bitmap_ok in *; int_lia|symmetry; by eapply Forall2_length|].
    apply Forall_forall. intros c Hc. apply list_elem_of_lookup in Hc as [i Hi].
    destruct (Forall2_lookup_r _ _ _ _ _ HF Hi) as (m & _ & Hm).
    rewrite (node_digest_payload _ _ Hm). unfold len_ok. rewrite (proj1 (digest_of_ok _ _)). lia.
Qed.

Lemma digest_frames_inj (cs1 cs2 : list TNode) :
  length cs1 = length cs2 → Forall (λ c, len_ok (as_bytes (node_digest c))) cs1 →
  Forall (λ c, len_ok (as_bytes (node_digest c))) cs2 →
  concat ((λ c, frame (as_bytes (node_digest c))) <$> cs1) = concat ((λ c, frame (as_bytes (node_digest c))) <$> cs2) →
  node_digest <$> cs1 = node_digest <$> cs2.
Proof.
  revert cs2. induction cs1 as [|c1 cs1 IH]; intros [|c2 cs2] Hl F1 F2 He; [done..|].
  apply Forall_cons in F1 as [? F1], F2 as [? F2]. cbn in *. apply prefix_free_frame in He as [Hd He]; [|done..].
  apply (inj as_bytes) in Hd. f_equal; [done|]. apply IH; [lia|done..].
Qed.

Lemma payload_inj n1 n2 : payload_ok n1 → payload_ok n2 → node_payload n1 = node_payload n2 → shallow n1 = shallow n2.
Proof.
  intros O1 O2 He. destruct n1 as [[k v hh]|[hh es]|pre bm cs|d], n2 as [[k' v' hh']|[hh' es']|pre' bm' cs'|d'];
    try done; cbn [node_payload payload_ok shallow leaf_hash leaf_key leaf_value coll_hash coll_entries] in *;
    apply frame_tag_inj in He as [Htag He]; try done.
  - destruct O1 as (? & ? & ?), O2 as (? & ? & ?). apply prefix_free_frame in He as [-> He]; [|done..].
    apply prefix_free in He as [-> He]; [|done..]. by apply (prefix_free_inj wfV canon_bytes) in He as ->.
  - destruct O1 as (? & ? & ?), O2 as (? & ? & ?). apply prefix_free_frame in He as [-> He]; [|done..].
    by apply (prefix_free_inj (λ l, len_ok l ∧ Forall (λ e, wfK e.1 ∧ wfV e.2) l) _) in He as ->.
  - destruct O1 as (Hp & Hb & Hl & Hd), O2 as (Hp' & Hb' & Hl' & Hd').
    apply (prefix_free (wf := λ l, len_ok l ∧ Forall u64_ok l) (enc := enc_list encode_uint)) in He as [<- He]; [|done..].
    apply prefix_free_uint64 in He as [<- He]; [|done..].
    apply digest_frames_inj in He; [|congruence|done..]. f_equal.
    change ((Lazy ∘ node_digest <$> cs : list TNode) = Lazy ∘ node_digest <$> cs').
    by rewrite !list_fmap_compose, He.
Qed.

(** The message hashed for a node, and for every node of a trie. *)
Definition preimage (n : TNode) : bytes := domain_message Value (node_payload n).

Fixpoint preimages (n : TNode) : list bytes :=
  match n with
  | Leaf _ | Collision _ => [preimage n]
  | Branch _ _ cs => preimage n :: concat (preimages <$> cs)
  | Lazy _ => []
  end.

Lemma payload_lazy n : payload_ok n → is_lazy n = false.
Proof. by destruct n. Qed.

Lemma digest_shallow n1 n2 : payload_ok n1 → payload_ok n2 → node_digest n1 = node_digest n2 →
  shallow n1 = shallow n2 ∨ collision (preimage n1) (preimage n2).
Proof.
  intros O1 O2 He. rewrite !payload_digest in He by by apply payload_lazy.
  apply digest_of_binds in He as [[_ He]|He]; [left; by apply payload_inj|by right].
Qed.

Lemma preimage_in p n : trie_ok h p n → preimage n ∈ preimages n.
Proof. intros Hok. destruct n; [by left..|by inversion Hok]. Qed.

Lemma preimages_child c pre bm cs : c ∈ cs → preimages c ⊆ preimages (Branch pre bm cs).
Proof.
  intros Hc m Hm. right. apply list_elem_of_In, in_concat. exists (preimages c).
  split; apply list_elem_of_In; [|done]. apply list_elem_of_fmap. eauto.
Qed.

Lemma node_digest_inj n1 p1 n2 p2 : trie_ok h p1 n1 → trie_ok h p2 n2 → node_wf n1 → node_wf n2 →
  node_digest n1 = node_digest n2 → n1 = n2 ∨ collision_among (preimages n1 ++ preimages n2).
Proof.
  revert p1 n2 p2. induction n1 as [l|c|pre bm cs IH|d] using TrieNode_rect'; intros p1 n2 p2 O1 O2 W1 W2 He.
  all: pose proof (trie_payload_ok _ _ O1 W1) as Y1; pose proof (trie_payload_ok _ _ O2 W2) as Y2.
  all: destruct (digest_shallow _ _ Y1 Y2 He) as [Hs|Hc];
    [|right; eexists _, _; split_and!; [| |exact Hc]; apply elem_of_app; eauto using preimage_in].
  1-2: destruct n2; cbn in Hs; simplify_eq; by left.
  2: done.
  destruct n2 as [| |pre' bm' cs'|]; cbn in Hs; simplify_eq. rename select (_ <$> _ = _ <$> _) into Hcs.
  inversion O1 as [| |? ? ? ? _ _ _ HF]; inversion O2 as [| |? ? ? ? _ _ _ HF']; subst. clear He Y1 Y2.
  assert (cs = cs' ∨ ∃ c c', c ∈ cs ∧ c' ∈ cs' ∧ collision_among (preimages c ++ preimages c')) as [->|Hcol]; [|by left|].
  - assert (∀ c, c ∈ cs → node_wf c) as Wc by (intros; by eauto using child_wf).
    assert (∀ c, c ∈ cs' → node_wf c) as Wc' by (intros; by eauto using child_wf). clear O1 O2 W1 W2.
    revert cs' HF' Hcs Wc'. induction HF as [|m c ms cs Hc HF IHF]; intros cs' HF' Hcs Wc'.
    { inversion HF'; subst. by left. }
    inversion HF' as [|? c' ? cs'' Hc' HF'']; subst. apply Forall_cons in IH as [IHc IH]. injection Hcs as Hd Hcs.
    destruct (IHc _ _ _ Hc Hc') as [<-|?]; [apply Wc; by left|apply Wc'; by left|done| |].
    + destruct (IHF IH) with (cs' := cs'') as [<-|(c1 & c2 & ? & ? & ?)]; [set_solver|done|done|set_solver|by left|].
      right. exists c1, c2. set_solver.
    + right. exists c, c'. set_solver.
  - right. destruct Hcol as (c & c' & Hc & Hc' & m1 & m2 & M1 & M2 & Hcol).
    assert (preimages c ++ preimages c' ⊆ preimages (Branch pre' bm' cs) ++ preimages (Branch pre' bm' cs')) as Hsub.
    { pose proof (preimages_child c pre' bm' cs Hc). pose proof (preimages_child c' pre' bm' cs' Hc').
      intros m Hm. apply elem_of_app in Hm. apply elem_of_app. set_solver. }
    exists m1, m2. split_and!; [by apply Hsub..|done].
Qed.
End digests.

(** * The properties *)

(** The trie a history of insertions and removals builds from the empty map. *)
Definition trie_run {K V} `{EqDecision K} `{Ord K} (h : KeyHasher K) (os : list (map_op K V)) :
    option (TrieMap K V) :=
  @pm_run _ K V (PersistentMap_TrieMap h) (with_hasher h) os.

(** A 32-byte hash for every key: the type of [hash_key]. *)
Definition hasher_ok {K} (h : KeyHasher K) : Prop := ∀ k, length (h k) = 32 ∧ are_bytes (h k).

Section histories.
Context {K V : Type} `{Countable K} `{OrdLaws K}.
Context (h : KeyHasher K) (h_ok : hasher_ok h).
Abbreviation result os := (model_run (∅ : gmap K V) os).

Lemma trie_run_spec os : ∃ m, trie_run h os = Some m ∧ tm_valid h m ∧ tm_model m = result os.
Proof.
  destruct (@pm_run_spec _ K V _ _ _ _ _ (TrieMap_laws h h_ok) (with_hasher h) os) as (m & Hr & Hm & Heq).
  { by split_and!. }
  exists m. split_and!; [done|done|]. rewrite Heq. done.
Qed.

Lemma trie_run_valid os m : trie_run h os = Some m → tm_valid h m ∧ tm_model m = result os.
Proof. intros Hr. destruct (trie_run_spec os) as (m' & Hr' & ? & ?). naive_solver. Qed.

Lemma bindings_perm (m : TrieMap K V) : tm_valid h m → bindings m ≡ₚ map_to_list (tm_model m).
Proof.
  intros Hm. apply NoDup_Permutation; [eapply NoDup_fmap_1, (valid_nodup h h_ok), Hm|apply NoDup_map_to_list|].
  intros [k v]. rewrite elem_of_map_to_list. symmetry. by apply (model_elem h h_ok).
Qed.

Lemma bindings_sorted (m : TrieMap K V) : tm_valid h m → strictly_sorted (okey h <$> bindings m).
Proof.
  intros (_ & _ & Hr). unfold bindings. destruct (root m); [|constructor].
  by apply (trie_ok_entries h h_ok) in Hr as (_ & _ & ?).
Qed.

Lemma root_none (m : TrieMap K V) : tm_valid h m → root m = None ↔ tm_model m = ∅.
Proof.
  intros Hm. rewrite <-map_size_empty_iff, (model_size h h_ok) by done. destruct Hm as (_ & Hl & Hr). rewrite Hl.
  unfold bindings in *. destruct (root m) as [n|]; [|done].
  apply (trie_ok_entries h h_ok) in Hr as (_ & Hne & _). split; [done|]. by intros ?%nil_length_inv.
Qed.
End histories.

(** C33: The trie implements the map. Any history of insertions and removals runs without
    a panic on the trie and on the snapshot map, and leaves both with the same bindings:
    lookup, membership, length and emptiness are those of the finite map, and iteration
    returns each binding once, in the order of the hashes and of the keys within a
    collision. *)
Theorem trie_refines_map {K V} `{Countable K} `{OrdLaws K} (h : KeyHasher K) (os : list (map_op K V))
    (h_ok : hasher_ok h) :
  ∃ m a l, trie_run h os = Some m ∧ pm_run (pm_new : ArcMap K V) os = Some a ∧
    (∀ k, trie_get m k = Some (arc_map a !! k) ∧ pm_get a k = trie_get m k ∧
       contains_key m k = Some (bool_decide (is_Some (arc_map a !! k)))) ∧
    len m = size (arc_map a) ∧ trie_is_empty m = bool_decide (arc_map a = ∅) ∧
    iter m = Some l ∧ l ≡ₚ map_to_list (arc_map a) ∧ strictly_sorted (okey h <$> l).
Proof.
  destruct (trie_run_spec h h_ok os) as (m & Hr & Hm & Heq).
  destruct (pm_run_spec (M := ArcMap K V) (valid := λ _, True) (model := arc_map) pm_new os I) as (a & Ha & _ & Hma).
  assert (arc_map a = tm_model m) as Hsame by (rewrite Hma, Heq; done).
  assert (∀ k, trie_get m k = Some (arc_map a !! k)) as Hget.
  { intros k. rewrite Hsame. unfold trie_get. by destruct (get_with_stats_spec h h_ok m k Hm) as (st & -> & _). }
  exists m, a, (bindings m). split_and!; [done|done| | | | | |].
  - intros k. split_and!; [done|by rewrite Hget|]. unfold contains_key. rewrite Hget. cbn [fmap option_fmap option_map]. f_equal.
    destruct (arc_map a !! k); symmetry; [by apply bool_decide_eq_true_2|by apply bool_decide_eq_false_2; intros [? ?]].
  - rewrite Hsame. symmetry. by apply (model_size h h_ok).
  - rewrite Hsame. pose proof (root_none h h_ok m Hm) as Hn. unfold trie_is_empty.
    destruct (root m); symmetry; [apply bool_decide_eq_false_2|apply bool_decide_eq_true_2]; naive_solver.
  - by apply (iter_spec h).
  - rewrite Hsame. by apply (bindings_perm h h_ok).
  - by apply (bindings_sorted h h_ok).
Qed.

(** The keys and hash function of the examples. *)
Definition demo_hasher : KeyHasher NodeId := @CanonHasher demo_hash NodeId _.
Lemma demo_hasher_ok : hasher_ok demo_hasher.
Proof. intros k. apply (@digest_of_ok demo_hash demo_hash_laws). Qed.
Definition demo_ops : list (map_op NodeId NodeId) :=
  [Put (demo_id 1) (demo_id 1); Put (demo_id 2) (demo_id 2); Put (demo_id 18) (demo_id 3);
   Del (demo_id 2); Put (demo_id 1) (demo_id 4)].

Lemma trie_refines_map_witness :
  ∃ m : TrieMap NodeId NodeId, trie_run demo_hasher demo_ops = Some m ∧ len m = 2 ∧
    trie_get m (demo_id 1) = Some (Some (demo_id 4)).
Proof.
  destruct (trie_refines_map demo_hasher demo_ops demo_hasher_ok) as (m & a & l & Hm & Ha & Hg & Hl & _).
  assert (arc_map a = model_run ∅ demo_ops) as He.
  { destruct (pm_run_spec (M := ArcMap NodeId NodeId) (valid := λ _, True) (model := arc_map) pm_new demo_ops I)
      as (a' & Ha' & _ & Hm'). rewrite Ha in Ha'. injection Ha' as <-. exact Hm'. }
  exists m. split_and!; [exact Hm| |].
  - rewrite Hl, He. vm_compute. reflexivity.
  - rewrite (proj1 (Hg (demo_id 1))), He. vm_compute. reflexivity.
Defined.

(** The bindings of a map can be written and told apart. *)
Definition map_wf {K V} `{Countable K} (wfK : K → Prop) (wfV : V → Prop) (M : gmap K V) : Prop :=
  (Z.of_nat (size M) < 2^63)%Z ∧ ∀ k v, M !! k = Some v → wfK k ∧ wfV v.

Section roots.
Context `{Blake3Laws} {K V : Type} `{Countable K} `{CanonAppends K} `{CanonAppends V} `{OrdLaws K}.
Context (wfK : K → Prop) (wfV : V → Prop).
Context `{!PrefixFree wfK (canon_bytes (A := K))} `{!PrefixFree wfV (canon_bytes (A := V))}.
Context (h : KeyHasher K) (h_ok : hasher_ok h).
Implicit Types m : TrieMap K V.

Lemma root_wf m n : tm_valid h m → map_wf wfK wfV (tm_model m) → root m = Some n → node_wf wfK wfV n.
Proof.
  intros Hm [Hl Hw] Hr. rewrite (model_size h h_ok m Hm) in Hl. pose proof Hm as (_ & Hlen & _).
  rewrite Hlen in Hl. unfold bindings in *. rewrite Hr in *. split; [exact Hl|].
  intros [k v] He. apply Hw. apply (model_elem h h_ok m k v Hm). unfold bindings. by rewrite Hr.
Qed.

(** The messages hashed for a root digest. *)
Definition root_preimages m : list bytes :=
  match root m with
  | None => [domain_message Value (bytes_of_string "brix:trie:empty:v1")]
  | Some n => preimages n
  end.

Lemma empty_digest_distinct p (n : TrieNode K V) : trie_ok h p n → empty_digest = node_digest n →
  collision (domain_message Value (bytes_of_string "brix:trie:empty:v1")) (preimage n).
Proof.
  intros Hok He. rewrite (node_digest_payload h p n Hok) in He. unfold empty_digest in He.
  apply digest_of_binds in He as [[_ He]|He]; [|done]. exfalso.
  destruct n as [l|c|pre bm cs|d]; [| | |by inversion Hok]; apply (f_equal head) in He;
    vm_compute in He; discriminate He.
Qed.

Lemma root_digest_binds m1 m2 : tm_valid h m1 → tm_valid h m2 →
  map_wf wfK wfV (tm_model m1) → map_wf wfK wfV (tm_model m2) →
  root_digest m1 = root_digest m2 → tm_model m1 = tm_model m2 ∨ collision_among (root_preimages m1 ++ root_preimages m2).
Proof.
  intros Hm1 Hm2 W1 W2 He. pose proof (λ n, root_wf m1 n Hm1 W1) as R1. pose proof (λ n, root_wf m2 n Hm2 W2) as R2.
  destruct Hm1 as (_ & _ & O1), Hm2 as (_ & _ & O2). unfold root_digest in He. unfold tm_model, bindings, root_preimages.
  destruct (root m1) as [n1|], (root m2) as [n2|].
  - destruct (node_digest_inj wfK wfV h h_ok n1 [] n2 []) as [->|?]; auto.
  - right. symmetry in He. apply (empty_digest_distinct _ _ O1) in He. eexists _, _.
    split_and!; [..|exact He]; apply elem_of_app; [by right; left|left; by eapply preimage_in].
  - right. apply (empty_digest_distinct _ _ O2) in He. eexists _, _.
    split_and!; [..|exact He]; apply elem_of_app; [by left; left|right; by eapply preimage_in].
  - by left.
Qed.
End roots.

(** C39: The root digest is the map. Two histories that leave the same bindings build the
    same trie, node for node, whatever the order of insertions, overwritten values and
    removed keys; and when two tries have one root digest, or [==] says they are equal,
    their bindings are the same, or two of the messages hashed for the tries collide. *)
Theorem trie_root_canonical `{Blake3Laws} {K V} `{Countable K} `{CanonAppends K} `{CanonAppends V} `{OrdLaws K}
    (wfK : K → Prop) (wfV : V → Prop)
    `{!PrefixFree wfK (canon_bytes (A := K))} `{!PrefixFree wfV (canon_bytes (A := V))}
    (h : KeyHasher K) (same : TrieNode K V → TrieNode K V → bool) (os1 os2 : list (map_op K V)) (m1 m2 : TrieMap K V)
    (h_ok : hasher_ok h) (same_sound : ∀ a b, same a b = true → a = b)
    (Hm1 : trie_run h os1 = Some m1) (Hm2 : trie_run h os2 = Some m2)
    (W1 : map_wf wfK wfV (model_run ∅ os1)) (W2 : map_wf wfK wfV (model_run ∅ os2)) :
  (model_run (∅ : gmap K V) os1 = model_run ∅ os2 → m1 = m2 ∧ trie_eq same m1 m2 = true) ∧
  (root_digest m1 = root_digest m2 → model_run (∅ : gmap K V) os1 = model_run ∅ os2 ∨ collision_among (root_preimages m1 ++ root_preimages m2)) ∧
  (trie_eq same m1 m2 = true → model_run (∅ : gmap K V) os1 = model_run ∅ os2 ∨ collision_among (root_preimages m1 ++ root_preimages m2)).
Proof.
  apply (trie_run_valid h h_ok) in Hm1 as [Hm1 He1], Hm2 as [Hm2 He2]. rewrite <-He1, <-He2 in *.
  assert (root_digest m1 = root_digest m2 → tm_model m1 = tm_model m2 ∨ collision_among (root_preimages m1 ++ root_preimages m2)) as Hdig
    by (by apply (root_digest_binds wfK wfV h h_ok)).
  split_and!; [|exact Hdig|].
  - intros Heq. assert (m1 = m2) as <- by by apply (model_root h h_ok). split; [done|].
    unfold trie_eq. destruct (ptr_eq same m1 m1); [done|]. rewrite decide_False by (intros Hn; by apply Hn). by apply bool_decide_eq_true_2.
  - unfold trie_eq. destruct (ptr_eq same m1 m2) eqn:Ep.
    + intros _. left. unfold ptr_eq in Ep. destruct Hm1 as (_ & _ & O1), Hm2 as (_ & _ & O2). unfold tm_model, bindings.
      destruct (root m1), (root m2); try done. by apply same_sound in Ep as ->.
    + case_decide; [done|]. rewrite bool_decide_eq_true. exact Hdig.
Qed.

#[export] Instance id_ok_dec k (i : Id k) : Decision (id_ok i).
Proof. unfold id_ok, digest_ok. apply _. Defined.

Lemma map_wf_of_list {K V} `{Countable K} (wfK : K → Prop) (wfV : V → Prop) (M : gmap K V) :
  (Z.of_nat (size M) < 2^63)%Z → Forall (λ e, wfK e.1 ∧ wfV e.2) (map_to_list M) → map_wf wfK wfV M.
Proof.
  intros Hs Hf. split; [done|]. intros k v Hk. rewrite Forall_forall in Hf.
  apply (Hf (k, v)). by apply elem_of_map_to_list.
Qed.

Lemma trie_root_canonical_witness :
  ∃ m1 m2 : TrieMap NodeId NodeId, trie_run demo_hasher demo_ops = Some m1 ∧
    trie_run demo_hasher [Put (demo_id 18) (demo_id 3); Put (demo_id 1) (demo_id 4)] = Some m2 ∧ m1 = m2.
Proof.
  destruct (trie_run_spec (V := NodeId) demo_hasher demo_hasher_ok demo_ops) as (m1 & E1 & _).
  destruct (trie_run_spec (V := NodeId) demo_hasher demo_hasher_ok [Put (demo_id 18) (demo_id 3); Put (demo_id 1) (demo_id 4)])
    as (m2 & E2 & _).
  exists m1, m2. split; [exact E1|split; [exact E2|]].
  refine (proj1 (proj1 (@trie_root_canonical demo_hash demo_hash_laws NodeId NodeId _ _ _ _ _ _ _ _ id_ok id_ok _ _
    demo_hasher (λ _ _, false) _ _ m1 m2 demo_hasher_ok _ E1 E2 _ _) _)).
  - intros a b Hf. discriminate Hf.
  - apply map_wf_of_list; [vm_compute; reflexivity|apply (bool_decide_unpack _); vm_compute; exact I].
  - apply map_wf_of_list; [vm_compute; reflexivity|apply (bool_decide_unpack _); vm_compute; exact I].
  - apply (bool_decide_unpack _). vm_compute. exact I.
Defined.

(** What an operation costs. On a trie of any size built by any history, a lookup
    visits at most 65 nodes and builds none, an insertion builds at most two more nodes
    than it visits and a removal no more than it visits; the counters report exactly one
    hashing per node built. *)
Theorem trie_costs {K V} `{Countable K} `{OrdLaws K} (h : KeyHasher K) (os : list (map_op K V))
    (m : TrieMap K V) (k : K) (v : V) (h_ok : hasher_ok h) (Hm : trie_run h os = Some m) :
  ∃ r st m' st' m'' st'',
    get_with_stats m k stats_default = Some (r, st) ∧
    nodes_visited st ≤ 65 ∧ nodes_allocated st = 0 ∧ nodes_hashed st = 0 ∧
    insert_with_stats m k v = Some (m', st') ∧
    nodes_visited st' ≤ 65 ∧ nodes_allocated st' ≤ nodes_visited st' + 2 ∧ nodes_hashed st' = nodes_allocated st' ∧
    remove_with_stats m k = Some (m'', st'') ∧
    nodes_visited st'' ≤ 65 ∧ nodes_allocated st'' ≤ nodes_visited st'' ∧ nodes_hashed st'' = nodes_allocated st''.
Proof.
  apply (trie_run_valid h h_ok) in Hm as [Hm _].
  destruct (get_with_stats_spec h h_ok m k Hm) as (st & Hg & ? & ? & ?).
  destruct (insert_with_stats_spec h h_ok m k v Hm) as (m' & st' & Hi & _ & _ & ? & ? & ?).
  destruct (remove_with_stats_spec h h_ok m k Hm) as (m'' & st'' & Hr & _ & _ & ? & ? & ?).
  eexists _, _, _, _, _, _. by split_and!.
Qed.

Lemma trie_costs_witness :
  ∃ m : TrieMap NodeId NodeId, trie_run demo_hasher demo_ops = Some m ∧
    ∃ r st, get_with_stats m (demo_id 1) stats_default = Some (r, st) ∧ nodes_visited st ≤ 65.
Proof.
  destruct (trie_run_spec (V := NodeId) demo_hasher demo_hasher_ok demo_ops) as (m & E & _).
  exists m. split; [exact E|].
  destruct (trie_costs demo_hasher demo_ops m (demo_id 1) (demo_id 1) demo_hasher_ok E)
    as (r & st & _ & _ & _ & _ & Hg & Hv & _). exists r, st. split; [exact Hg|exact Hv].
Defined.
