(* ===== verification/DecodedCache.v ===== *)
(** The cache of decoded nodes (src/crates/soc-core/src/store.rs, [DecodedNodeCache]).

    A byte-bounded second-chance cache for the nodes of one type. The eviction loop is
    [iterate] over the cache; each round drops a queue slot or clears a reference flag, so
    the slots and the entries together are enough fuel. Sequence numbers and the decode
    counter are unbounded here: they are incremented once per insertion. *)
From S2P Require Import Prelude IntCodec Canon.

Section cache.
Context {N : Type}.

Record DecodedEntry : Type := mkEntry { node : N; cost : Z; seq : Z; referenced : bool }.

(** [DecodedInner], under the lock. *)
Record DecodedNodeCache : Type := mkCache {
  cap : Z;
  used : Z;
  next_seq : Z;
  decodes : Z;
  slots_map : gmap Digest DecodedEntry;
  queue : list (Digest * Z)
}.

Definition DECODED_COST_FACTOR : Z := 8.

(** [usize::saturating_mul]. *)
Definition saturating_mul (a b : Z) : Z := Z.min (a * b) (2^64 - 1).

Definition with_map (c : DecodedNodeCache) (m : gmap Digest DecodedEntry) (u : Z) (q : list (Digest * Z)) :
    DecodedNodeCache := mkCache (cap c) u (next_seq c) (decodes c) m q.

(** One round of [while self.used > self.cap]; [None]: the accounting underflows. *)
Definition evict_iter (c : DecodedNodeCache) : option (DecodedNodeCache + DecodedNodeCache) :=
  if decide (cap c < used c)%Z then
    match queue c with
    | [] => Some (inl c)
    | (key, s) :: q =>
      match slots_map c !! key with
      | Some e =>
        if decide (seq e = s) then
          if referenced e then
            Some (inr (with_map c (<[key := mkEntry (node e) (cost e) (seq e) false]> (slots_map c))
                         (used c) (q ++ [(key, s)])))
          else if decide (used c < cost e)%Z then None
          else Some (inr (with_map c (delete key (slots_map c)) (used c - cost e) q))
        else Some (inr (with_map c (slots_map c) (used c) q))
      | None => Some (inr (with_map c (slots_map c) (used c) q))
      end
    end
  else Some (inl c).

(** Whether a queue slot is its entry's. *)
Definition live (m : gmap Digest DecodedEntry) (ks : Digest * Z) : bool :=
  match m !! ks.1 with Some e => bool_decide (seq e = ks.2) | None => false end.

(** Stale queue slots are dropped when they pile up. *)
Definition compact (c : DecodedNodeCache) : DecodedNodeCache :=
  if decide (2 * size (slots_map c) + 1024 < length (queue c)) then
    with_map c (slots_map c) (used c)
      (filter (λ ks, live (slots_map c) ks = true) (queue c))
  else c.

Definition evict_to_cap (c : DecodedNodeCache) : outcome DecodedNodeCache :=
  match iterate evict_iter (S (length (queue c) + size (slots_map c))) c with
  | Done c' => Done (compact c')
  | Panicked => Panicked
  | OutOfFuel => OutOfFuel
  end.

Definition cache_new (cap_bytes : Z) : DecodedNodeCache := mkCache cap_bytes 0 0 0 ∅ [].

Definition cache_clear (c : DecodedNodeCache) : DecodedNodeCache := with_map c ∅ 0 [].

Definition set_capacity (c : DecodedNodeCache) (cap_bytes : Z) : outcome DecodedNodeCache :=
  evict_to_cap (mkCache cap_bytes (used c) (next_seq c) (decodes c) (slots_map c) (queue c)).

(** A hit only sets the flag. *)
Definition cache_get (c : DecodedNodeCache) (d : Digest) : option N * DecodedNodeCache :=
  match slots_map c !! d with
  | None => (None, c)
  | Some e =>
    (Some (node e), with_map c (<[d := mkEntry (node e) (cost e) (seq e) true]> (slots_map c)) (used c) (queue c))
  end.

Definition cache_contains (c : DecodedNodeCache) (d : Digest) : bool := bool_decide (is_Some (slots_map c !! d)).

Definition cache_insert (c : DecodedNodeCache) (d : Digest) (n : N) (encoded_len : Z) :
    outcome DecodedNodeCache :=
  let entry_cost := saturating_mul encoded_len DECODED_COST_FACTOR in
  let c := mkCache (cap c) (used c) (next_seq c) (decodes c + 1) (slots_map c) (queue c) in
  if decide (cap c < entry_cost)%Z then Done c else
  let s := (next_seq c + 1)%Z in
  let released := match slots_map c !! d with Some old => cost old | None => 0%Z end in
  if decide (used c < released)%Z then Panicked else
  evict_to_cap (mkCache (cap c) (used c - released + entry_cost) s (decodes c)
    (<[d := mkEntry n entry_cost s false]> (slots_map c)) (queue c ++ [(d, s)])).

Definition used_bytes (c : DecodedNodeCache) : Z := used c.
Definition decode_count (c : DecodedNodeCache) : Z := decodes c.

(** * The bound *)

(** The accounted cost of the entries. *)
Definition total (m : gmap Digest DecodedEntry) : Z := map_fold (λ _ e t, (cost e + t)%Z) 0%Z m.

(** The entries still referenced. *)
Definition flagged (m : gmap Digest DecodedEntry) : nat :=
  map_fold (λ _ e t, (if referenced e then 1 else 0) + t) 0 m.

(** The accounting is exact, and every entry has its slot in the queue. *)
Definition accounted (c : DecodedNodeCache) : Prop :=
  used c = total (slots_map c) ∧ (0 ≤ cap c)%Z ∧
  (∀ d e, slots_map c !! d = Some e → (0 ≤ cost e)%Z ∧ (d, seq e) ∈ queue c).

Definition cache_ok (c : DecodedNodeCache) : Prop := accounted c ∧ (used c ≤ cap c)%Z.

Lemma total_insert m d e : m !! d = None → total (<[d:=e]> m) = (cost e + total m)%Z.
Proof. intros Hd. apply (map_fold_insert_L (λ _ e t, (cost e + t)%Z)); [lia|done]. Qed.

Lemma total_lookup m d e : m !! d = Some e → total m = (cost e + total (delete d m))%Z.
Proof.
  intros Hd. rewrite <-(insert_delete_id m d e) at 1 by done. apply total_insert. apply lookup_delete_eq.
Qed.

Lemma total_update m d e : total (<[d:=e]> m) = (cost e + total (delete d m))%Z.
Proof. rewrite <-insert_delete_eq. apply total_insert, lookup_delete_eq. Qed.

Lemma total_nonneg m : (∀ d e, m !! d = Some e → 0 ≤ cost e)%Z → (0 ≤ total m)%Z.
Proof.
  induction m as [|d e m Hd IH] using map_ind; intros Hc; [done|]. rewrite total_insert by done.
  specialize (Hc d e (lookup_insert_eq _ _ _)) as He. enough (0 ≤ total m)%Z by lia. apply IH.
  intros d' e' Hd'. apply (Hc d'). rewrite lookup_insert_ne; [done|]. intros ->. congruence.
Qed.

Lemma flagged_insert m d e : m !! d = None → flagged (<[d:=e]> m) = (if referenced e then 1 else 0) + flagged m.
Proof. intros Hd. apply (map_fold_insert_L (λ _ e t, (if referenced e then 1 else 0) + t)); [lia|done]. Qed.

Lemma flagged_update m d e : flagged (<[d:=e]> m) = (if referenced e then 1 else 0) + flagged (delete d m).
Proof. rewrite <-insert_delete_eq. apply flagged_insert, lookup_delete_eq. Qed.

Lemma flagged_lookup m d e : m !! d = Some e → flagged m = (if referenced e then 1 else 0) + flagged (delete d m).
Proof. intros Hd. rewrite <-(insert_delete_id m d e) at 1 by done. rewrite insert_delete_eq. apply flagged_update. Qed.

Lemma flagged_size m : flagged m ≤ size m.
Proof.
  induction m as [|d e m Hd IH] using map_ind; [done|]. rewrite flagged_insert, map_size_insert_None by done.
  destruct (referenced e); lia.
Qed.

(** What eviction leaves of the entries: some of them, with the same nodes. *)
Definition keeps (m m' : gmap Digest DecodedEntry) : Prop :=
  ∀ d e, m' !! d = Some e → ∃ e0, m !! d = Some e0 ∧ node e0 = node e ∧ seq e0 = seq e.

Lemma keeps_refl m : keeps m m.
Proof. intros d e Hd. eauto. Qed.
Lemma keeps_trans m1 m2 m3 : keeps m1 m2 → keeps m2 m3 → keeps m1 m3.
Proof. intros H1 H2 d e Hd. destruct (H2 d e Hd) as (e2 & ? & ? & ?). destruct (H1 d e2) as (e1 & ? & ? & ?); [done|]. exists e1. split_and!; congruence. Qed.

Lemma evict_iter_spec c : accounted c →
  match evict_iter c with
  | None => False
  | Some (inl c') => c' = c ∧ (used c ≤ cap c)%Z
  | Some (inr c') => accounted c' ∧ cap c' = cap c ∧ decodes c' = decodes c ∧ next_seq c' = next_seq c ∧
      keeps (slots_map c) (slots_map c') ∧
      length (queue c') + flagged (slots_map c') < length (queue c) + flagged (slots_map c)
  end.
Proof.
  intros (Hu & Hc & He). unfold evict_iter. case_decide as Hcap; [|split; [done|lia]].
  destruct (queue c) as [|[key s] q] eqn:Eq.
  { split; [done|]. rewrite Hu in Hcap. destruct (decide (slots_map c = ∅)) as [Hm|Hm].
    - rewrite Hm in Hcap. unfold total in Hcap. rewrite map_fold_empty in Hcap. lia.
    - apply map_choose in Hm as (d & e & Hd). destruct (He d e Hd) as [_ Hin]. by apply not_elem_of_nil in Hin. }
  assert (∀ m' : gmap Digest DecodedEntry, (∀ d e, m' !! d = Some e → slots_map c !! d = Some e) →
    (∀ d e, m' !! d = Some e → (d, seq e) ≠ (key, s)) → ∀ d e, m' !! d = Some e → (0 ≤ cost e)%Z ∧ (d, seq e) ∈ q) as Hq.
  { intros m' Hsub Hne d e Hd. destruct (He d e (Hsub _ _ Hd)) as [? [Hin|Hin]%elem_of_cons]; [|done].
    by apply Hne in Hin. }
  destruct (slots_map c !! key) as [e|] eqn:Ek.
  2: { unfold accounted. cbn. split_and!; try done; [|apply keeps_refl|lia]. apply (Hq (slots_map c)); [done|].
       intros d e Hd [= -> _]. congruence. }
  case_decide as Hs; [destruct (referenced e) eqn:Er; [|case_decide as Hlt]|].
  - unfold accounted. cbn. destruct (He key e Ek) as [Hce _]. split_and!; try done.
    + rewrite total_update. rewrite Hu. exact (total_lookup _ _ _ Ek).
    + intros d e' Hd. apply lookup_insert_Some in Hd as [[<- <-]|[Hne Hd]]; cbn.
      * split; [done|]. apply elem_of_app. right. rewrite Hs. by apply list_elem_of_singleton.
      * destruct (He d e' Hd) as [? [Hin|Hin]%elem_of_cons]; [congruence|]. split; [done|]. apply elem_of_app. by left.
    + intros d e' Hd. apply lookup_insert_Some in Hd as [[<- <-]|[Hne Hd]]; [exists e|exists e']; done.
    + rewrite flagged_update, (flagged_lookup (slots_map c) key e Ek), Er, length_app. cbn. lia.
  - destruct (He key e Ek) as [Hce _]. rewrite (total_lookup _ _ _ Ek) in Hu.
    assert (0 ≤ total (delete key (slots_map c)))%Z; [|lia]. apply total_nonneg.
    intros d e' Hd. apply lookup_delete_Some in Hd as [_ Hd]. by apply (He d).
  - unfold accounted. cbn. rewrite (total_lookup _ _ _ Ek) in Hu. split_and!; try done.
    + lia.
    + apply (Hq (delete key (slots_map c))); intros d e' Hd; apply lookup_delete_Some in Hd as [Hne Hd]; [done|congruence].
    + intros d e' Hd. apply lookup_delete_Some in Hd as [_ Hd]. eauto.
    + rewrite (flagged_lookup (slots_map c) key e Ek), Er. cbn. lia.
  - unfold accounted. cbn. split_and!; try done; [|apply keeps_refl|lia]. apply (Hq (slots_map c)); [done|].
    intros d e' Hd [= -> Hs']. congruence.
Qed.

Lemma compact_ok c : cache_ok c → cache_ok (compact c) ∧ slots_map (compact c) = slots_map c ∧
  cap (compact c) = cap c ∧ decodes (compact c) = decodes c ∧ used (compact c) = used c ∧ next_seq (compact c) = next_seq c.
Proof.
  intros ((Hu & Hc & He) & Hb). unfold compact. case_decide; [|done]. cbn. split; [|done].
  split; [|done]. split_and!; [done|done|]. cbn. intros d e Hd. destruct (He d e Hd) as [? Hin]. split; [done|].
  apply list_elem_of_filter. split; [|done]. unfold live. cbn. rewrite Hd. by apply bool_decide_eq_true_2.
Qed.

(** Eviction always ends, within the bound. *)
Lemma evict_to_cap_spec c : accounted c → ∃ c', evict_to_cap c = Done c' ∧ cache_ok c' ∧ cap c' = cap c ∧
  decodes c' = decodes c ∧ next_seq c' = next_seq c ∧ keeps (slots_map c) (slots_map c') ∧
  ((used c ≤ cap c)%Z → slots_map c' = slots_map c).
Proof.
  intros Hacc. unfold evict_to_cap.
  destruct (iterate_spec evict_iter
    (λ t, accounted t ∧ cap t = cap c ∧ decodes t = decodes c ∧ next_seq t = next_seq c ∧ keeps (slots_map c) (slots_map t) ∧
      ((used c ≤ cap c)%Z → t = c))
    (λ t, length (queue t) + flagged (slots_map t)) (S (length (queue c) + size (slots_map c))) c)
    as (t & (Ha & Hc & Hd & Hn & Hk & Hsame) & Hres).
  - split_and!; [done..|apply keeps_refl|done].
  - pose proof (flagged_size (slots_map c)). lia.
  - intros s s' (Ha & Hc & Hd & Hn & Hk & Hsame) Hs. pose proof (evict_iter_spec s Ha) as Hi. rewrite Hs in Hi.
    destruct Hi as (Ha' & Hc' & Hd' & Hn' & Hk' & Hm). split; [|done].
    split_and!; [done|congruence|congruence|congruence|by eapply keeps_trans|].
    intros Hle. rewrite (Hsame Hle) in Hs. unfold evict_iter in Hs. rewrite decide_False in Hs by lia. discriminate Hs.
  - pose proof (evict_iter_spec t Ha) as Hi. destruct Hres as [(a & Ht & ->)|[Ht _]]; rewrite Ht in Hi; [|done].
    destruct Hi as [-> Hle]. destruct (compact_ok t (conj Ha Hle)) as (Hok & Hm & Hcc & Hdd & _ & Hnn).
    exists (compact t). split_and!; [done|done|congruence|congruence|congruence|by rewrite Hm|]. intros Hle'. by rewrite Hm, Hsame.
Qed.

Lemma insert_ok c d n len : cache_ok c → (0 ≤ len)%Z → ∃ c', cache_insert c d n len = Done c' ∧ cache_ok c' ∧
  cap c' = cap c ∧ decodes c' = (decodes c + 1)%Z ∧
  (∀ d' e, slots_map c' !! d' = Some e →
     (d' = d ∧ node e = n) ∨ ∃ e0, slots_map c !! d' = Some e0 ∧ node e0 = node e) ∧
  ((used c + 8 * len ≤ cap c)%Z → (8 * len < 2^64)%Z → ∃ e, slots_map c' !! d = Some e ∧ node e = n).
Proof.
  intros ((Hu & Hc & He) & Hb) Hlen. unfold cache_insert. cbn.
  assert (saturating_mul len DECODED_COST_FACTOR = Z.min (8 * len) (2^64 - 1)) as Hsm
    by (unfold saturating_mul, DECODED_COST_FACTOR; f_equal; lia).
  assert (∀ d0 e, slots_map c !! d0 = Some e → 0 ≤ cost e)%Z as Hcost by (intros d0 e Hd0; by apply (He d0)).
  pose proof (total_nonneg (slots_map c) Hcost) as Htot.
  case_decide as Hbig.
  { eexists. split; [done|]. cbn. split; [done|]. split_and!; [done|done| |].
    - intros d' e Hd. eauto.
    - intros Hfit Hw. lia. }
  set (released := match slots_map c !! d with Some old => cost old | None => 0%Z end).
  assert (total (slots_map c) = released + total (delete d (slots_map c)))%Z as Hrel.
  { unfold released. destruct (slots_map c !! d) as [old|] eqn:Ed; [by apply total_lookup|]. by rewrite delete_id. }
  assert (0 ≤ total (delete d (slots_map c)))%Z as Hrest.
  { apply total_nonneg. intros d' e Hd. apply lookup_delete_Some in Hd as [_ Hd]. by eapply Hcost. }
  assert (0 ≤ released)%Z as Hpos by (unfold released; destruct (slots_map c !! d) eqn:Ed; [by eapply Hcost|done]).
  rewrite decide_False by lia.
  set (e0 := mkEntry n (saturating_mul len DECODED_COST_FACTOR) (next_seq c + 1) false).
  edestruct (evict_to_cap_spec (mkCache (cap c) (used c - released + saturating_mul len DECODED_COST_FACTOR)
    (next_seq c + 1) (decodes c + 1) (<[d:=e0]> (slots_map c)) (queue c ++ [(d, (next_seq c + 1)%Z)])))
    as (c' & -> & Hok & Hc1 & Hd1 & Hn1 & Hk & Hsame).
  { split_and!; cbn; [rewrite total_update; cbn; lia|done|]. intros d' e Hd.
    apply lookup_insert_Some in Hd as [[<- <-]|[Hne Hd]]; cbn.
    - split; [lia|]. apply elem_of_app. right. by apply list_elem_of_singleton.
    - destruct (He d' e Hd). split; [done|]. apply elem_of_app. by left. }
  exists c'. cbn in *. split_and!; [done|done|done|done| |].
  - intros d' e Hd. destruct (Hk d' e Hd) as (e1 & He1 & Hn & _). apply lookup_insert_Some in He1 as [[<- <-]|[Hne He1]].
    + left. by rewrite <-Hn.
    + right. eauto.
  - intros Hfit Hw. exists e0. rewrite Hsame by lia. split; [apply lookup_insert_eq|done].
Qed.

Lemma get_ok c d : cache_ok c → cache_ok (cache_get c d).2 ∧ keeps (slots_map c) (slots_map (cache_get c d).2) ∧
  (cache_get c d).1 = node <$> slots_map c !! d.
Proof.
  intros Hok. pose proof Hok as ((Hu & Hc & He) & Hb). unfold cache_get. destruct (slots_map c !! d) as [e|] eqn:Ed; cbn.
  2: { split_and!; [done|apply keeps_refl|done]. }
  split_and!; [|  |done].
  - split; [|done]. split_and!; [|done|]; cbn.
    + rewrite total_update. cbn. rewrite Hu. exact (total_lookup _ _ _ Ed).
    + intros d' e' Hd. apply lookup_insert_Some in Hd as [[<- <-]|[Hne Hd]]; [exact (He d e Ed)|by apply He].
  - intros d' e' Hd. apply lookup_insert_Some in Hd as [[<- <-]|[Hne Hd]]; [exists e|exists e']; done.
Qed.

(** * Histories *)

Inductive cache_op : Type :=
  | COGet (d : Digest)
  | COInsert (d : Digest) (n : N) (encoded_len : Z)
  | COSetCapacity (cap_bytes : Z)
  | COClear.

Definition cache_apply (c : DecodedNodeCache) (o : cache_op) : outcome DecodedNodeCache :=
  match o with
  | COGet d => Done (cache_get c d).2
  | COInsert d n len => cache_insert c d n len
  | COSetCapacity cap_bytes => set_capacity c cap_bytes
  | COClear => Done (cache_clear c)
  end.

Fixpoint cache_run (c : DecodedNodeCache) (os : list cache_op) : outcome DecodedNodeCache :=
  match os with
  | [] => Done c
  | o :: os' => match cache_apply c o with Done c' => cache_run c' os' | Panicked => Panicked | OutOfFuel => OutOfFuel end
  end.

(** The type [usize] of the arguments. *)
Definition op_ok (o : cache_op) : Prop :=
  match o with
  | COInsert _ _ len => (0 ≤ len < 2^64)%Z
  | COSetCapacity cap_bytes => (0 ≤ cap_bytes < 2^64)%Z
  | _ => True
  end.

(** The nodes of [m] were inserted by [os] or are [m0]'s. *)
Definition from_ops (m0 m : gmap Digest DecodedEntry) (os : list cache_op) : Prop :=
  ∀ d e, m !! d = Some e → (∃ len, COInsert d (node e) len ∈ os) ∨ ∃ e0, m0 !! d = Some e0 ∧ node e0 = node e.

Lemma apply_ok c o : cache_ok c → op_ok o → ∃ c', cache_apply c o = Done c' ∧ cache_ok c' ∧
  from_ops (slots_map c) (slots_map c') [o].
Proof.
  intros Hc Ho. destruct o as [d|d n len|cap_bytes|]; cbn [cache_apply op_ok] in *.
  - destruct (get_ok c d Hc) as (Hok & Hk & _). eexists. split; [reflexivity|]. split; [done|].
    intros d' e Hd. right. destruct (Hk d' e Hd) as (e0 & ? & ? & _). eauto.
  - destruct (insert_ok c d n len Hc) as (c' & Hi & Hok & _ & _ & Hk & _); [lia|]. exists c'. split_and!; [done..|].
    intros d' e Hd. destruct (Hk d' e Hd) as [[-> <-]|(e0 & ? & ?)]; [|eauto]. left. exists len. by left.
  - destruct Hc as ((Hu & Hcc & He) & Hb). unfold set_capacity.
    edestruct (evict_to_cap_spec (mkCache cap_bytes (used c) (next_seq c) (decodes c) (slots_map c) (queue c)))
      as (c' & Hi & Hok & _ & _ & _ & Hk & _); [split_and!; cbn; [done|lia|done]|].
    exists c'. split_and!; [done|done|]. intros d' e Hd. right. destruct (Hk d' e Hd) as (e0 & ? & ? & _). eauto.
  - eexists. split; [reflexivity|]. destruct Hc as ((Hu & Hcc & He) & Hb). split.
    + repeat split; cbn; try done; lia.
    + intros d' e Hd. cbn in Hd. by rewrite lookup_empty in Hd.
Qed.

(** The decoded-node cache is bounded and transparent. Whatever is looked up, inserted,
    resized or cleared, eviction ends, the accounting never underflows and is the sum of
    the entries' costs, and it stays within the capacity; every node held under a digest
    was inserted under it, and a node that fits beside what is held is found again. *)
Theorem cache_bounded (capacity : Z) (os : list cache_op) (Hcap : (0 ≤ capacity)%Z) (Hos : Forall op_ok os) :
  ∃ c, cache_run (cache_new capacity) os = Done c ∧
    used_bytes c = total (slots_map c) ∧ (used_bytes c ≤ cap c)%Z ∧
    (∀ d n, (cache_get c d).1 = Some n → ∃ len, COInsert d n len ∈ os) ∧
    (∀ d n len, (0 ≤ len)%Z → (used_bytes c + 8 * len ≤ cap c)%Z → (8 * len < 2^64)%Z →
       ∃ c', cache_insert c d n len = Done c' ∧ (cache_get c' d).1 = Some n).
Proof.
  assert (∀ c, cache_ok c → Forall op_ok os → ∃ c', cache_run c os = Done c' ∧ cache_ok c' ∧
    from_ops (slots_map c) (slots_map c') os) as Hrun.
  { clear. induction os as [|o os IH]; intros c Hc Ho; cbn [cache_run].
    { exists c. split_and!; [done|done|]. intros d e Hd. right. eauto. }
    apply Forall_cons in Ho as [Ho Hos]. destruct (apply_ok c o Hc Ho) as (c1 & -> & Hc1 & Hf1).
    destruct (IH c1 Hc1 Hos) as (c2 & Hr & Hc2 & Hf2). exists c2. split_and!; [done|done|].
    intros d e Hd. destruct (Hf2 d e Hd) as [(len & Hin)|(e1 & He1 & Hn1)]; [left; exists len; by right|].
    destruct (Hf1 d e1 He1) as [(len & Hin%list_elem_of_singleton)|(e0 & He0 & Hn0)].
    - left. exists len. rewrite <-Hn1, Hin. by left.
    - right. exists e0. split; [done|congruence]. }
  destruct (Hrun (cache_new capacity)) as (c & Hr & Hok & Hf); [by repeat split|done|].
  exists c. split_and!; [done|apply Hok|apply Hok| |].
  - intros d n Hg. rewrite (proj2 (proj2 (get_ok c d Hok))) in Hg. apply fmap_Some in Hg as (e & He & ->).
    destruct (Hf d e He) as [?|(e0 & He0 & _)]; [done|]. cbn in He0. by rewrite lookup_empty in He0.
  - intros d n len Hlen Hfit Hw. destruct (insert_ok c d n len Hok Hlen) as (c' & Hi & Hok' & _ & _ & _ & Hget).
    exists c'. split; [done|]. rewrite (proj2 (proj2 (get_ok c' d Hok'))).
    destruct (Hget Hfit Hw) as (e & -> & <-). done.
Qed.
End cache.
Arguments DecodedEntry N : clear implicits.
Arguments DecodedNodeCache N : clear implicits.
Arguments cache_op N : clear implicits.

Lemma cache_bounded_witness :
  ∃ c : DecodedNodeCache nat,
    cache_run (cache_new 100) [COInsert (mkDigest [1%Z]) 1 10; COGet (mkDigest [1%Z]); COInsert (mkDigest [2%Z]) 2 5] = Done c ∧
    (used_bytes c ≤ cap c)%Z.
Proof.
  destruct (cache_bounded (N := nat) 100
    [COInsert (mkDigest [1%Z]) 1 10; COGet (mkDigest [1%Z]); COInsert (mkDigest [2%Z]) 2 5])
    as (c & Hc & _ & Hb & _).
  - lia.
  - repeat constructor; cbn; lia.
  - exists c. split; [exact Hc|exact Hb].
Defined.
