(* ===== verification/TrieStore.v ===== *)
(** The node store and the store-aware trie (src/crates/soc-core/src/store.rs, from
    [NodeStore]).

    [encode_node] and [decode_node] are the durable form of a node, whose children are
    digests. A store-aware operation resolves the [Lazy] nodes on its path through a
    [NodeStore] and the optional decoded-node cache; it is a computation in [SM], over the
    cache, that may fail with a [StorageError] or panic. A resolved branch consumes at
    least a nibble of the 64-nibble path, so [STORE_FUEL] levels are enough. Debug
    assertions are compiled out. *)
From S2P Require Import Prelude IntCodec Canon CanonLaws Witness Encoding Parsing Trie DecodedCache TrieMap.

(** * Errors and stores *)

Inductive StorageError : Type :=
  | MissingNode (d : Digest)
  | CorruptedNode (d : Digest)
  | DecodeError (e : CanonError)
  | Io (s : string).

(** The trait [NodeStore]; the cache it may carry is the state of [SM], and [note_touch]
    never affects results. *)
Class NodeStore (S : Type) := {
  get_node : S → Digest → result StorageError (option bytes);
  get_node_scan : S → Digest → result StorageError (option bytes);
  put_node : S → Digest → bytes → S;
  put_new_node : S → Digest → bytes → S
}.
#[export] Hint Mode NodeStore ! : typeclass_instances.

(** [contains]. *)
Definition store_contains {S} `{NodeStore S} (s : S) (d : Digest) : bool :=
  match get_node s d with Ok (Some _) => true | _ => false end.

Record MemoryNodeStore : Type := mkMemoryStore { nodes : gmap Digest bytes }.

Definition memory_new : MemoryNodeStore := mkMemoryStore ∅.
Definition memory_len (s : MemoryNodeStore) : nat := size (nodes s).

#[export] Instance NodeStore_Memory : NodeStore MemoryNodeStore := {
  get_node s d := Ok (nodes s !! d);
  get_node_scan s d := Ok (nodes s !! d);
  put_node s d b := mkMemoryStore (<[d:=b]> (nodes s));
  put_new_node s d b := mkMemoryStore (<[d:=b]> (nodes s))
}.

(** The trait [CanonDecode]. *)
Class CanonDecode (A : Type) := canon_read : Reader A.
#[export] Hint Mode CanonDecode ! : typeclass_instances.

Section codec.
Context `{Blake3} {K V : Type} `{EqDecision K} `{Ord K} `{Canonical K} `{Canonical V}.
Context `{CanonDecode K} `{CanonDecode V}.
Abbreviation TNode := (TrieNode K V).

Definition encode_node (n : TNode) : bytes :=
  match n with
  | Leaf leaf => [] |> write_uint 1 |> write_bytes (leaf_hash leaf)
      |> write_bytes (canon_bytes (leaf_key leaf)) |> write_bytes (canon_bytes (leaf_value leaf))
  | Collision coll => [] |> write_uint 2 |> write_bytes (coll_hash coll)
      |> write_uint (Z.of_nat (length (coll_entries coll)))
      |> write_each (λ e w, w |> write_bytes (canon_bytes e.1) |> write_bytes (canon_bytes e.2)) (coll_entries coll)
  | Branch prefix bitmap children => [] |> write_uint 3 |> write_uint (Z.of_nat (length prefix))
      |> write_each write_uint prefix |> write_uint bitmap
      |> write_uint (Z.of_nat (length children))
      |> write_each (λ c, write_bytes (as_bytes (node_digest c))) children
  | Lazy d => [] |> write_uint 4 |> write_bytes (as_bytes d)
  end.

(** A 32-byte frame. *)
Definition read_array32 : Reader bytes :=
  b ← read_bytes; if decide (length b ≠ 32) then ST_throw BadLength else mret b.

Definition read_value {A} `{CanonDecode A} : Reader A :=
  b ← read_bytes; ST_lift (from_canon_bytes canon_read b).

Definition read_entry : Reader (K * V) := k ← read_value; v ← read_value; mret (k, v).

Definition read_nibble : Reader Z :=
  nib ← read_uint; if decide (15 < nib)%Z then ST_throw BadLength else mret nib.

Definition decode_leaf : Reader TNode :=
  hash ← read_array32; key ← read_value; value ← read_value;
  mret (Leaf (mkLeaf key value hash)).

Definition decode_collision : Reader TNode :=
  hash ← read_array32; count ← read_uint;
  if decide (65536 < count)%Z then ST_throw BadLength else
  entries ← read_many read_entry (Z.to_nat count);
  mret (Collision (collision_new hash entries)).

(** The bitmap is cast to [u16]. *)
Definition decode_branch : Reader TNode :=
  prefix_len ← read_uint;
  if decide (64 < prefix_len)%Z then ST_throw BadLength else
  prefix ← read_many read_nibble (Z.to_nat prefix_len);
  wide ← read_uint;
  let bitmap := (wide mod 2^16)%Z in
  child_count ← read_uint;
  if decide (16 < child_count ∨ child_count ≠ Z.of_nat (count_ones bitmap))%Z then ST_throw BadLength else
  children ← read_many read_array32 (Z.to_nat child_count);
  mret (Branch prefix bitmap ((λ b, Lazy (mkDigest b)) <$> children)).

Definition decode_lazy : Reader TNode := b ← read_array32; mret (Lazy (mkDigest b)).

Definition read_node : Reader TNode :=
  tag ← read_uint;
  if decide (tag = 1)%Z then decode_leaf
  else if decide (tag = 2)%Z then decode_collision
  else if decide (tag = 3)%Z then decode_branch
  else if decide (tag = 4)%Z then decode_lazy
  else ST_throw BadLength.

(** Every arm ends with [if !r.is_empty() { return Err(BadLength) }]. *)
Definition decode_node (buf : bytes) : result CanonError TNode := read_all read_node BadLength buf.

Definition decode_node_verified (buf : bytes) (expected_digest : Digest) : result CanonError TNode :=
  n ← decode_node buf;
  if decide (node_digest n ≠ expected_digest) then Err BadLength else Ok n.

(** * Store-aware computations *)

Definition SM (A : Type) : Type :=
  option (DecodedNodeCache TNode) → outcome (result StorageError A * option (DecodedNodeCache TNode)).

#[export] Instance SM_ret : MRet SM := λ A a c, Done (Ok a, c).
#[export] Instance SM_bind : MBind SM := λ A B f m c,
  match m c with
  | Done (Ok a, c') => f a c'
  | Done (Err e, c') => Done (Err e, c')
  | Panicked => Panicked
  | OutOfFuel => OutOfFuel
  end.
Definition SM_err {A} (e : StorageError) : SM A := λ c, Done (Err e, c).
Definition SM_panic {A} : SM A := λ _, Panicked.
Definition SM_out_of_fuel {A} : SM A := λ _, OutOfFuel.
(** A step that may panic. *)
Definition SM_opt {A} (o : option A) : SM A := λ c,
  match o with Some a => Done (Ok a, c) | None => Panicked end.
Definition SM_res {A} (r : result StorageError A) : SM A := λ c, Done (r, c).

Context {S : Type} `{NodeStore S}.

Definition SCAN_ADMIT_DEPTH : nat := 3.

Definition is_branch (n : TNode) : bool := match n with Branch _ _ _ => true | _ => false end.

(** Whether a node read at this depth of a scan, or by a point operation, is cached. *)
Definition admits (scan_depth : option nat) (decoded : TNode) : bool :=
  match scan_depth with
  | None => true
  | Some depth => bool_decide (depth < SCAN_ADMIT_DEPTH) && is_branch decoded
  end.

Definition admit_node (d : Digest) (decoded : TNode) (encoded_len : Z) (scan_depth : option nat) : SM TNode :=
  λ cache, match cache with
  | Some c =>
    if admits scan_depth decoded then
      match cache_insert c d decoded encoded_len with
      | Done c' => Done (Ok decoded, Some c')
      | Panicked => Panicked
      | OutOfFuel => OutOfFuel
      end
    else Done (Ok decoded, cache)
  | None => Done (Ok decoded, None)
  end.

(** The read of an uncached node. *)
Definition load_node (store : S) (d : Digest) (scan_depth : option nat) : SM TNode :=
  found ← SM_res (match scan_depth with None => get_node store d | Some _ => get_node_scan store d end);
  buf ← SM_res (ok_or found (MissingNode d));
  decoded ← SM_res (map_err (λ _, CorruptedNode d) (decode_node_verified buf d));
  admit_node d decoded (Z.of_nat (length buf)) scan_depth.

Definition resolve_node_mode (n : TNode) (store : S) (scan_depth : option nat) : SM TNode :=
  match n with
  | Lazy d => λ cache,
    match cache with
    | Some c =>
      let '(hit, c') := cache_get c d in
      match hit with
      | Some n' => Done (Ok n', Some c')
      | None => load_node store d scan_depth (Some c')
      end
    | None => load_node store d scan_depth None
    end
  | _ => mret n
  end.

Definition resolve_node (n : TNode) (store : S) : SM TNode := resolve_node_mode n store None.

(** ** Lookup *)

Definition STORE_FUEL : nat := 66.

Fixpoint get_store_loop (store : S) (key : K) (hash : bytes) (fuel : nat) (current : TNode) (depth : nat) :
    SM (option V) :=
  match fuel with
  | O => SM_out_of_fuel
  | Datatypes.S fuel' =>
    n ← resolve_node current store;
    match n with
    | Leaf leaf =>
      if decide (leaf_hash leaf = hash ∧ leaf_key leaf = key) then mret (Some (leaf_value leaf)) else mret None
    | Collision coll =>
      if decide (coll_hash coll = hash) then mret (bucket_get key (coll_entries coll) 0).1 else mret None
    | Branch prefix bitmap children =>
      m ← SM_opt (prefix_matches hash depth prefix);
      if negb m then mret None else
      let branch_point := depth + length prefix in
      if decide (64 ≤ branch_point) then mret None else
      nibble ← SM_opt (get_nibble hash branch_point);
      match child_index bitmap nibble with
      | None => mret None
      | Some idx =>
        child ← SM_opt (children !! idx);
        get_store_loop store key hash fuel' child (Datatypes.S branch_point)
      end
    | Lazy _ => SM_panic
    end
  end.

Definition get_with_store (m : TrieMap K V) (key : K) (store : S) : SM (option V) :=
  match root m with
  | None => mret None
  | Some r => get_store_loop store key (hasher m key) STORE_FUEL r 0
  end.

(** ** Insertion *)

Fixpoint insert_recursive_store (store : S) (key : K) (value : V) (hash : bytes) (fuel : nat)
    (n : TNode) (depth : nat) (stats : TrieOpStats) : SM (TNode * bool * TrieOpStats) :=
  match fuel with
  | O => SM_out_of_fuel
  | Datatypes.S fuel' =>
    resolved ← resolve_node n store;
    let stats := visit stats in
    match resolved with
    | Leaf leaf =>
      if decide (leaf_hash leaf = hash) then
        let stats := compared 1 stats in
        if decide (leaf_key leaf = key) then mret (Leaf (mkLeaf key value hash), false, built 1 stats)
        else mret (Collision (collision_new hash [(leaf_key leaf, leaf_value leaf); (key, value)]), true, built 1 stats)
      else SM_opt (branch_off resolved (leaf_hash leaf) key value hash depth stats)
    | Collision coll =>
      if decide (coll_hash coll = hash) then
        let '(entries, found, c) := bucket_put key value (coll_entries coll) 0 in
        let stats := compared c stats in
        let entries := if found : bool then entries else sort_by (cmp_on fst) (entries ++ [(key, value)]) in
        mret (Collision (collision_new hash entries), negb found, built 1 stats)
      else SM_opt (branch_off resolved (coll_hash coll) key value hash depth stats)
    | Branch prefix bitmap children =>
      len ← SM_opt (match_len hash depth prefix);
      if decide (len < length prefix) then
        SM_opt (branch_split prefix bitmap children len key value hash depth stats)
      else
        let branch_point := depth + length prefix in
        nibble ← SM_opt (get_nibble hash branch_point);
        match child_index bitmap nibble with
        | None =>
          let stats := built 2 stats in
          let insert_pos := count_ones (Z.land bitmap (bit nibble - 1)) in
          new_children ← SM_opt (vec_insert insert_pos (Leaf (mkLeaf key value hash)) children);
          mret (Branch prefix (Z.lor bitmap (bit nibble)) new_children, true, stats)
        | Some idx =>
          child ← SM_opt (children !! idx);
          '(new_child, added, stats) ←
            insert_recursive_store store key value hash fuel' child (Datatypes.S branch_point) stats;
          mret (Branch prefix bitmap (<[idx := new_child]> children), added, built 1 stats)
        end
    | Lazy _ => SM_panic
    end
  end.

Definition insert_with_store (m : TrieMap K V) (key : K) (value : V) (store : S) : SM (TrieMap K V * TrieOpStats) :=
  let hash := hasher m key in
  match root m with
  | None => mret (mkTrie (Some (Leaf (mkLeaf key value hash))) 1 (hasher m), built 1 stats_default)
  | Some r =>
    '(new_root, added, stats) ← insert_recursive_store store key value hash STORE_FUEL r 0 stats_default;
    mret (mkTrie (Some new_root) (if added : bool then Datatypes.S (len m) else len m) (hasher m), stats)
  end.

(** ** Removal *)

Fixpoint remove_recursive_store (store : S) (key : K) (hash : bytes) (fuel : nat)
    (n : TNode) (depth : nat) (stats : TrieOpStats) : SM (option TNode * bool * TrieOpStats) :=
  match fuel with
  | O => SM_out_of_fuel
  | Datatypes.S fuel' =>
    resolved ← resolve_node n store;
    let stats := visit stats in
    match resolved with
    | Leaf leaf =>
      if decide (leaf_hash leaf = hash) then
        let stats := compared 1 stats in
        if decide (leaf_key leaf = key) then mret (None, true, stats) else mret (Some resolved, false, stats)
      else mret (Some resolved, false, stats)
    | Collision coll =>
      if decide (coll_hash coll = hash) then
        let '(entries, removed, c) := bucket_remove key (coll_entries coll) 0 in
        let stats := compared c stats in
        if negb removed then mret (Some resolved, false, stats)
        else let '(n', stats) := shrink_bucket (coll_hash coll) entries stats in mret (n', true, stats)
      else mret (Some resolved, false, stats)
    | Branch prefix bitmap children =>
      m ← SM_opt (prefix_matches hash depth prefix);
      if negb m then mret (Some resolved, false, stats) else
      let branch_point := depth + length prefix in
      if decide (64 ≤ branch_point) then mret (Some resolved, false, stats) else
      nibble ← SM_opt (get_nibble hash branch_point);
      match child_index bitmap nibble with
      | None => mret (Some resolved, false, stats)
      | Some idx =>
        child ← SM_opt (children !! idx);
        '(opt_child, removed, stats) ←
          remove_recursive_store store key hash fuel' child (Datatypes.S branch_point) stats;
        if negb removed then mret (Some resolved, false, stats) else
        match opt_child with
        | Some new_child =>
          mret (Some (Branch prefix bitmap (<[idx := new_child]> children)), true, built 1 stats)
        | None =>
          let new_bitmap := Z.land bitmap (Z.lnot (bit nibble)) in
          new_children ← SM_opt (vec_remove idx children);
          if decide (2 ≤ length new_children) then
            mret (Some (Branch prefix new_bitmap new_children), true, built 1 stats)
          else
            single_child ← SM_opt (last new_children);
            resolved_single ← resolve_node single_child store;
            let '(n', stats) := contract prefix new_bitmap resolved_single stats in
            mret (Some n', true, stats)
        end
      end
    | Lazy _ => SM_panic
    end
  end.

(** [len.saturating_sub(1)]. *)
Definition remove_with_store (m : TrieMap K V) (key : K) (store : S) : SM (TrieMap K V * TrieOpStats) :=
  match root m with
  | None => mret (m, stats_default)
  | Some r =>
    '(opt_root, removed, stats) ← remove_recursive_store store key (hasher m key) STORE_FUEL r 0 stats_default;
    if negb removed then mret (m, stats)
    else mret (mkTrie opt_root (pred (len m)) (hasher m), stats)
  end.

(** ** Pages *)

(** Whether an entry is not after the cursor. *)
Definition before (cursor : option (bytes * K)) (hash : bytes) (key : K) : bool :=
  match cursor with
  | None => false
  | Some (cur_hash, cur_key) =>
    match cmp hash cur_hash with
    | Lt => true
    | Eq => match cmp key cur_key with Gt => false | _ => true end
    | Gt => false
    end
  end.

(** The loop over a bucket: the page so far and whether it is full. *)
Fixpoint page_bucket (cursor : option (bytes * K)) (limit : nat) (hash : bytes) (entries : list (K * V))
    (out : list (K * V)) : list (K * V) * bool :=
  match entries with
  | [] => (out, false)
  | e :: rest =>
    if before cursor hash e.1 then page_bucket cursor limit hash rest out
    else
      let out := out ++ [e] in
      if decide (limit ≤ length out) then (out, true) else page_bucket cursor limit hash rest out
  end.

(** The comparison of a branch's prefix with the cursor's path. *)
Fixpoint page_prefix (hash : bytes) (depth : nat) (prefix : list Z) : option comparison :=
  match prefix with
  | [] => Some Eq
  | nib :: rest =>
    n ← get_nibble hash depth;
    match cmp nib n with
    | Lt => Some Lt
    | Gt => Some Gt
    | Eq => page_prefix hash (Datatypes.S depth) rest
    end
  end.

(** The cursor for the child at [nibble]: [None] to skip it. *)
Definition child_cursor (cursor : option (bytes * K)) (depth : nat) (nibble : Z) : option (option (option (bytes * K))) :=
  match cursor with
  | None => Some (Some None)
  | Some (hash, _) =>
    n ← get_nibble hash depth;
    match cmp nibble n with
    | Lt => Some None
    | Gt => Some (Some None)
    | Eq => Some (Some cursor)
    end
  end.

Section page_children.
Context (page : option (bytes * K) → TNode → list (K * V) → SM (list (K * V) * bool)).

(** The loop over the 16 nibbles; a set bit without a child is a panic. *)
Fixpoint page_children (cursor : option (bytes * K)) (depth : nat) (bitmap : Z) (nibbles : list Z)
    (children : list TNode) (out : list (K * V)) : SM (list (K * V) * bool) :=
  match nibbles with
  | [] => mret (out, false)
  | nibble :: rest =>
    if decide (Z.land bitmap (bit nibble) = 0%Z) then page_children cursor depth bitmap rest children out
    else
      match children with
      | [] => SM_panic
      | child :: children' =>
        next ← SM_opt (child_cursor cursor depth nibble);
        match next with
        | None => page_children cursor depth bitmap rest children' out
        | Some next_cursor =>
          '(out, full) ← page next_cursor child out;
          if full : bool then mret (out, true) else page_children cursor depth bitmap rest children' out
        end
      end
  end.
End page_children.

(** [iter_page_recursive]; [done] is the flag returned. *)
Fixpoint iter_page_recursive (store : S) (limit : nat) (fuel depth : nat) (cursor : option (bytes * K))
    (n : TNode) (out : list (K * V)) : SM (list (K * V) * bool) :=
  match fuel with
  | O => SM_out_of_fuel
  | Datatypes.S fuel' =>
    resolved ← resolve_node_mode n store (Some depth);
    match resolved with
    | Leaf leaf =>
      if before cursor (leaf_hash leaf) (leaf_key leaf) then mret (out, false)
      else let out := out ++ [(leaf_key leaf, leaf_value leaf)] in
           mret (out, bool_decide (limit ≤ length out))
    | Collision coll => mret (page_bucket cursor limit (coll_hash coll) (coll_entries coll) out)
    | Branch prefix bitmap children =>
      order ← SM_opt (match cursor with None => Some Eq | Some (hash, _) => page_prefix hash depth prefix end);
      match order with
      | Lt => mret (out, false)
      | o =>
        let cursor := match o with Gt => None | _ => cursor end in
        let branch_depth := depth + length prefix in
        page_children (iter_page_recursive store limit fuel' (Datatypes.S branch_depth))
          cursor branch_depth bitmap (seqZ 0 16) children out
      end
    | Lazy _ => mret (out, false)
    end
  end.

(** [limit + 1] does not saturate: no page has [usize::MAX] entries. *)
Definition iter_page_with_store (m : TrieMap K V) (cursor : option (bytes * K)) (limit : nat) (store : S) :
    SM (list (K * V) * option (bytes * K)) :=
  if decide (limit = 0) then mret ([], None) else
  match root m with
  | None => mret ([], None)
  | Some r =>
    '(out, _) ← iter_page_recursive store (Datatypes.S limit) STORE_FUEL 0 cursor r [];
    if decide (limit < length out) then
      let out := take (pred (length out)) out in
      mret (out, (λ e, (hasher m e.1, e.1)) <$> last out)
    else mret (out, None)
  end.

(** * Persistence *)

(** What [persist_node_recursive] changes. *)
Record PersistState : Type := mkPersist {
  pstore : S;
  pcache : option (DecodedNodeCache TNode);
  pcount : nat
}.

(** The write of one node, after its children. *)
Definition persist_write (n : TNode) (s : PersistState) : outcome PersistState :=
  let buf := encode_node n in
  let store := put_new_node (pstore s) (node_digest n) buf in
  match pcache s with
  | None => Done (mkPersist store None (Datatypes.S (pcount s)))
  | Some c =>
    match cache_insert c (node_digest n) (shallow n) (Z.of_nat (length buf)) with
    | Done c' => Done (mkPersist store (Some c') (Datatypes.S (pcount s)))
    | Panicked => Panicked
    | OutOfFuel => OutOfFuel
    end
  end.

Definition persisted (d : Digest) (s : PersistState) : bool :=
  match pcache s with Some c => cache_contains c d | None => false end || store_contains (pstore s) d.

Definition outcome_bind {A B} (o : outcome A) (f : A → outcome B) : outcome B :=
  match o with Done a => f a | Panicked => Panicked | OutOfFuel => OutOfFuel end.

Fixpoint persist_node_recursive (n : TNode) (s : PersistState) : outcome PersistState :=
  match n with
  | Lazy _ => Done s
  | Branch _ _ children =>
    if persisted (node_digest n) s then Done s
    else outcome_bind (fold_left (λ acc f, outcome_bind acc f) (persist_node_recursive <$> children) (Done s))
           (persist_write n)
  | _ => if persisted (node_digest n) s then Done s else persist_write n s
  end.

Definition persist_to_store (m : TrieMap K V) (store : S) (cache : option (DecodedNodeCache TNode)) :
    outcome PersistState :=
  match root m with
  | None => Done (mkPersist store cache 0)
  | Some r => persist_node_recursive r (mkPersist store cache 0)
  end.

(** [from_root_digest]. *)
Definition from_root_digest (h : KeyHasher K) (d : Digest) (n : nat) : TrieMap K V :=
  mkTrie (if decide (d = empty_digest) then None else Some (Lazy d)) n h.
End codec.
Arguments SM K V A : clear implicits.
