(* ===== verification/NodeCodec.v ===== *)
(** The durable form of trie nodes (src/crates/soc-core/src/store.rs, [encode_node],
    [decode_node]).

    The grammar [decode_node] accepts, reader by reader: a node is written so that reading
    it returns the node with its children by digest, and what is read can be hashed and
    told apart from any other node. *)
From S2P Require Import Prelude IntCodec Canon CanonLaws Witness Encoding Parsing Trie TrieLaws.
From S2P Require Import DecodedCache TrieMap TrieStore.

(** What [CanonDecode] owes: it reads what [Canonical] writes, and nothing else. *)
Class CanonCodec (A : Type) `{Canonical A} `{CanonDecode A} (wf : A → Prop) : Prop := {
  canon_codec b a : are_bytes b → len_ok b → from_canon_bytes canon_read b = Ok a ↔ wf a ∧ b = canon_bytes a;
  canon_codec_bytes a : wf a → are_bytes (canon_bytes a) ∧ len_ok (canon_bytes a)
}.

(** * Reading nodes *)

Lemma parses_raw {A} (rd : Reader A) P : parses (read_as id rd) P → parses rd P.
Proof.
  assert (∀ r, read_as id rd r = rd r) as Heq.
  { intros r. unfold read_as. destruct (rd r) as [[a|e] r']; done. }
  intros [H1 H2]. split.
  - intros r a r' Hok Hr. apply (H1 r a r' Hok). by rewrite Heq.
  - intros r a b rest Hp Hok Hb Hrem. destruct (H2 r a b rest Hp Hok Hb Hrem) as (r' & Hr & ?). exists r'. by rewrite <-Heq.
Qed.

Lemma parses_frame : parses read_bytes (λ v b, are_bytes v ∧ len_ok v ∧ b = frame v).
Proof.
  destruct (parses_raw _ _ (parses_bytes id)) as [H1 H2]. split.
  - intros r a r' Hok Hr. destruct (H1 r a r' Hok Hr) as (b & [Hl ->] & Hrem & Hok'). exists (frame a). split_and!; try done.
    pose proof (remaining_are_bytes r Hok) as Hb. rewrite Hrem in Hb. unfold frame in Hb.
    apply Forall_app in Hb as [Hb _]. by apply Forall_app in Hb as [_ Hb].
  - intros r a b rest (_ & Hl & ->). by apply H2.
Qed.

Definition array32_ok (b : bytes) : Prop := are_bytes b ∧ length b = 32.

Lemma array32_len b : array32_ok b → len_ok b.
Proof. intros [_ Hl]. unfold len_ok. rewrite Hl. lia. Qed.

Lemma parses_array32 : parses read_array32 (λ v b, array32_ok v ∧ b = frame v).
Proof.
  eapply parses_ext.
  { eapply parses_bind; [apply parses_frame|]. intros v. apply parses_guard. intros _. apply parses_ret. }
  intros v b. simpl. split.
  - intros (v' & b1 & b2 & (Hb & Hl & ->) & (Hn & -> & ->) & ->). apply dec_stable in Hn. by rewrite app_nil_r.
  - intros [Ha ->]. exists v, (frame v), []. rewrite app_nil_r. pose proof (array32_len _ Ha). destruct Ha.
    split_and!; try done. by intros ?.
Qed.

Lemma parses_nibble : parses read_nibble (λ n b, nibble_ok n ∧ b = encode_uint n).
Proof.
  eapply parses_ext.
  { eapply parses_bind; [apply parses_raw, parses_uint|]. intros v. apply parses_guard. intros _. apply parses_ret. }
  intros v b. simpl. unfold nibble_ok. split.
  - intros (v' & b1 & b2 & [Hv ->] & (Hn & -> & ->) & ->). rewrite app_nil_r. split; [unfold u64_ok in Hv; lia|done].
  - intros [Hn ->]. exists v, (encode_uint v), []. rewrite app_nil_r. split_and!; try done; [unfold u64_ok; int_lia|lia].
Qed.

Lemma parses_value {A} `{CanonCodec A wf} : parses (read_value (A := A)) (λ a b, wf a ∧ b = frame (canon_bytes a)).
Proof.
  eapply parses_ext.
  { eapply parses_bind; [apply parses_frame|]. intros v. apply parses_lift. }
  intros a b. simpl. split.
  - intros (v & b1 & b2 & (Hb & Hl & ->) & [Hv ->] & ->). apply (canon_codec v a Hb Hl) in Hv as [Hw ->]. by rewrite app_nil_r.
  - intros [Hw ->]. destruct (canon_codec_bytes a Hw) as [Hb Hl]. exists (canon_bytes a), (frame (canon_bytes a)), [].
    rewrite app_nil_r. split_and!; try done. by apply canon_codec.
Qed.

Lemma parses_if {E A} (C : Prop) `{Decision C} (r1 r2 : ST CanonReader E A) P Q :
  parses r1 P → parses r2 Q → parses (if decide C then r1 else r2) (λ a b, (C ∧ P a b) ∨ (¬ C ∧ Q a b)).
Proof.
  intros H1 H2. case_decide; (eapply parses_ext; [first [exact H1|exact H2]|]); naive_solver.
Qed.

Section codec.
Context `{Blake3Laws} {K V : Type} `{EqDecision K} `{OrdLaws K} `{CanonAppends K} `{CanonAppends V}.
Context `{CanonDecode K} `{CanonDecode V} (wfK : K → Prop) (wfV : V → Prop).
Context `{!CanonCodec K wfK} `{!CanonCodec V wfV}.
Abbreviation TNode := (TrieNode K V).

Definition entry_wf (e : K * V) : Prop := wfK e.1 ∧ wfV e.2.
Definition entry_bytes (e : K * V) : bytes := frame (canon_bytes e.1) ++ frame (canon_bytes e.2).

Lemma parses_leaf : parses decode_leaf (λ n b, ∃ h k v, n = Leaf (mkLeaf k v h) ∧ array32_ok h ∧ wfK k ∧ wfV v ∧
  b = frame h ++ entry_bytes (k, v)).
Proof.
  unfold decode_leaf, entry_bytes. eapply parses_ext.
  { parses_tac ltac:(first [apply parses_array32|apply parses_value]). }
  intros n b. simpl. split.
  - intros Hp. parse_inv. subst. eexists _, _, _. split_and!; [reflexivity|done..|]. by rewrite app_nil_r.
  - intros (h & k & v & -> & Hh & Hk & Hv & ->). parse_build. all: parse_close. all: try done.
    all: by rewrite ?app_nil_r.
Qed.

Lemma parses_entry : parses (read_entry (K := K) (V := V)) (λ e b, entry_wf e ∧ b = entry_bytes e).
Proof.
  unfold read_entry, entry_bytes, entry_wf. eapply parses_ext.
  { parses_tac ltac:(apply parses_value). }
  intros [k v] b. simpl. split.
  - intros Hp. parse_inv. simplify_eq. split; [done|]. by rewrite app_nil_r.
  - intros ([Hk Hv] & ->). parse_build. all: parse_close. all: try done. all: by rewrite ?app_nil_r.
Qed.

(** A counted loop of exact readers. *)
Lemma parses_many_of {E A} (rd : ST CanonReader E A) (wf : A → Prop) (enc : A → bytes) n :
  parses rd (λ a b, wf a ∧ b = enc a) →
  parses (read_many rd n) (λ l b, length l = n ∧ Forall wf l ∧ b = concat (enc <$> l)).
Proof.
  intros Hrd. eapply parses_ext; [by apply parses_many|]. intros l b. cbn. split.
  - intros (Hl & bs & HF & ->). split; [done|]. clear Hl. induction HF as [|a b l bs [Ha ->] HF IH]; [done|].
    destruct IH as [Hw Hc]. split; [by constructor|]. cbn. by rewrite Hc.
  - intros (Hl & Hw & ->). split; [done|]. exists (enc <$> l). split; [|done]. clear Hl.
    induction Hw as [|a l Ha Hw IH]; constructor; done.
Qed.

Lemma parses_collision : parses decode_collision (λ n b, ∃ h es, n = Collision (collision_new h es) ∧ array32_ok h ∧
  Forall entry_wf es ∧ (Z.of_nat (length es) ≤ 65536)%Z ∧ b = frame h ++ encode_uint (Z.of_nat (length es)) ++ concat (entry_bytes <$> es)).
Proof.
  unfold decode_collision. eapply parses_ext.
  { parses_tac ltac:(first [apply parses_array32|apply (parses_raw _ _ (parses_uint id))
      |apply (parses_many_of _ entry_wf entry_bytes), parses_entry]). }
  intros n b. simpl. split.
  - intros (h & ? & ? & [Hh ->] & (count & ? & ? & [Hc ->] & (Hle & es & ? & ? & (Hl & Hes & ->) & [-> ->] & ->) & ->) & ->).
    unfold u64_ok in Hc. assert (count = Z.of_nat (length es)) as -> by lia.
    exists h, es. split_and!; [done..|lia|]. by rewrite app_nil_r.
  - intros (h & es & -> & Hh & Hes & Hl & ->). eexists h, _, _. split_and!; [done|reflexivity| |reflexivity].
    eexists (Z.of_nat (length es)), _, _. split_and!; [int_lia|reflexivity|lia| |reflexivity].
    eexists es, _, []. split_and!; [lia|done|reflexivity|done|done|]. by rewrite app_nil_r.
Qed.

Lemma parses_branch : parses decode_branch (λ n b, ∃ pre wide ds,
  n = Branch (K := K) (V := V) pre (wide mod 2^16) ((λ b, Lazy (mkDigest b)) <$> ds) ∧ length pre ≤ 64 ∧ Forall nibble_ok pre ∧
  u64_ok wide ∧ length ds ≤ 16 ∧ length ds = count_ones (wide mod 2^16) ∧ Forall array32_ok ds ∧
  b = encode_uint (Z.of_nat (length pre)) ++ concat (encode_uint <$> pre) ++ encode_uint wide ++
      encode_uint (Z.of_nat (length ds)) ++ concat (frame <$> ds)).
Proof.
  unfold decode_branch. eapply parses_ext.
  { cbv zeta. parses_tac ltac:(first [apply (parses_raw _ _ (parses_uint id))
      |apply (parses_many_of _ nibble_ok encode_uint), parses_nibble
      |apply (parses_many_of _ array32_ok frame), parses_array32]). }
  intros n b. simpl. split.
  - intros (plen & ? & ? & [Hp ->] & (Hple & pre & ? & ? & (Hl & Hn & ->) & (wide & ? & ? & [Hw ->] &
      (count & ? & ? & [Hc ->] & (Hcn & ds & ? & ? & (Hds & Hda & ->) & [-> ->] & ->) & ->) & ->) & ->) & ->).
    unfold u64_ok in Hp, Hc. assert (plen = Z.of_nat (length pre)) as -> by lia.
    assert (count ≤ 16 ∧ count = Z.of_nat (count_ones (wide mod 2^16)))%Z as [Hc16 Hcount] by lia.
    assert (count = Z.of_nat (length ds)) as -> by lia.
    exists pre, wide, ds. split_and!; [done|lia|done|done|lia|lia|done|]. by rewrite app_nil_r.
  - intros (pre & wide & ds & -> & Hpl & Hn & Hw & Hd16 & Hdc & Hda & ->).
    eexists (Z.of_nat (length pre)), _, _. split_and!; [int_lia|reflexivity|lia| |reflexivity].
    eexists pre, _, _. split_and!; [lia|done|reflexivity| |reflexivity].
    eexists wide, _, _. split_and!; [done|reflexivity| |reflexivity].
    eexists (Z.of_nat (length ds)), _, _. split_and!; [int_lia|reflexivity|lia| |reflexivity].
    eexists ds, _, []. split_and!; [lia|done|reflexivity|done|done|]. by rewrite app_nil_r.
Qed.

Lemma parses_lazy : parses decode_lazy (λ n b, ∃ h, n = Lazy (K := K) (V := V) (mkDigest h) ∧ array32_ok h ∧ b = frame h).
Proof.
  unfold decode_lazy. eapply parses_ext.
  { parses_tac ltac:(apply parses_array32). }
  intros n b. simpl. split.
  - intros (h & ? & ? & [Hh ->] & [-> ->] & ->). exists h. by rewrite app_nil_r.
  - intros (h & -> & Hh & ->). parse_build. all: parse_close. all: try done. all: by rewrite ?app_nil_r.
Qed.
(** ** The node *)

Definition lazy_child (b : bytes) : TNode := Lazy (mkDigest b).

(** What a stored string of bytes means. *)
Definition node_grammar (n : TNode) (b : bytes) : Prop :=
  (∃ h k v, n = Leaf (mkLeaf k v h) ∧ array32_ok h ∧ wfK k ∧ wfV v ∧
     b = encode_uint 1 ++ frame h ++ entry_bytes (k, v)) ∨
  (∃ h es, n = Collision (collision_new h es) ∧ array32_ok h ∧ Forall entry_wf es ∧ (Z.of_nat (length es) ≤ 65536)%Z ∧
     b = encode_uint 2 ++ frame h ++ encode_uint (Z.of_nat (length es)) ++ concat (entry_bytes <$> es)) ∨
  (∃ pre wide ds, n = Branch pre (wide mod 2^16) (lazy_child <$> ds) ∧ length pre ≤ 64 ∧ Forall nibble_ok pre ∧
     u64_ok wide ∧ length ds ≤ 16 ∧ length ds = count_ones (wide mod 2^16) ∧ Forall array32_ok ds ∧
     b = encode_uint 3 ++ encode_uint (Z.of_nat (length pre)) ++ concat (encode_uint <$> pre) ++ encode_uint wide ++
      encode_uint (Z.of_nat (length ds)) ++ concat (frame <$> ds)) ∨
  (∃ h, n = Lazy (mkDigest h) ∧ array32_ok h ∧ b = encode_uint 4 ++ frame h).

Lemma parses_node : parses read_node node_grammar.
Proof.
  unfold read_node. eapply parses_ext.
  { eapply parses_bind; [apply parses_raw, parses_uint|]. intros tag.
    repeat (eapply parses_if; [first [apply parses_leaf|apply parses_collision|apply parses_branch|apply parses_lazy]|]).
    apply parses_throw. }
  intros n b. simpl. unfold node_grammar. split.
  - intros (tag & ? & ? & [Htag ->] & Hn & ->).
    destruct Hn as [[-> Hn]|[_ [[-> Hn]|[_ [[-> Hn]|[_ [[-> Hn]|[_ []]]]]]]]]; parse_inv; subst; naive_solver.
  - intros [Hn|[Hn|[Hn|Hn]]]; parse_inv; subst;
      [exists 1%Z|exists 2%Z|exists 3%Z|exists 4%Z]; eexists _, _;
      (split_and!; [done|reflexivity| |reflexivity]).
    all: naive_solver.
Qed.

Lemma decode_node_exact b n : are_bytes b → len_ok b → decode_node b = Ok n ↔ node_grammar n b.
Proof. apply read_all_exact, parses_node. Qed.

(** ** Reading back *)

Lemma digest_array32 d : digest_ok d ↔ array32_ok (as_bytes d).
Proof. unfold digest_ok, array32_ok. tauto. Qed.

Definition stored_hash (n : TNode) : bytes :=
  match n with Leaf l => leaf_hash l | Collision c => coll_hash c | _ => [] end.

(** A node the decoder can read back from [encode_node]. *)
Definition storable (n : TNode) : Prop :=
  len_ok (encode_node n) ∧
  match n with
  | Leaf l => array32_ok (leaf_hash l) ∧ wfK (leaf_key l) ∧ wfV (leaf_value l)
  | Collision c => array32_ok (coll_hash c) ∧ Forall entry_wf (coll_entries c) ∧ sorted (coll_entries c).*1 ∧
      (Z.of_nat (length (coll_entries c)) ≤ 65536)%Z
  | Branch pre bm cs => length pre ≤ 64 ∧ Forall nibble_ok pre ∧ bitmap_ok bm ∧ length cs = count_ones bm ∧
      Forall (λ c, digest_ok (node_digest c)) cs
  | Lazy _ => False
  end.

Lemma encode_leaf (l : LeafNode K V) : encode_node (Leaf l) =
  encode_uint 1 ++ frame (leaf_hash l) ++ entry_bytes (leaf_key l, leaf_value l).
Proof. unfold entry_bytes. cbn [encode_node]. by rewrite !write_bytes_app, <-!app_assoc. Qed.

Lemma encode_collision (c : CollisionNode K V) : encode_node (Collision c) =
  encode_uint 2 ++ frame (coll_hash c) ++ encode_uint (Z.of_nat (length (coll_entries c))) ++
  concat (entry_bytes <$> coll_entries c).
Proof.
  cbn [encode_node]. rewrite (write_each_app _ entry_bytes).
  - unfold write_uint. by rewrite !write_bytes_app, <-!app_assoc.
  - intros e w. unfold entry_bytes. by rewrite !write_bytes_app, app_assoc.
Qed.

Lemma encode_branch pre bm (cs : list TNode) : encode_node (Branch pre bm cs) =
  encode_uint 3 ++ encode_uint (Z.of_nat (length pre)) ++ concat (encode_uint <$> pre) ++ encode_uint bm ++
  encode_uint (Z.of_nat (length cs)) ++ concat (frame <$> (as_bytes ∘ node_digest <$> cs)).
Proof.
  cbn [encode_node]. rewrite (write_each_app _ (λ c, frame (as_bytes (node_digest c)))) by (intros; apply write_bytes_app).
  rewrite (write_each_app write_uint encode_uint) by done.
  unfold write_uint. rewrite <-list_fmap_compose. by rewrite <-!app_assoc.
Qed.

Lemma sorted_entries (h : bytes) (es : list (K * V)) : sorted es.*1 → collision_new h es = mkColl h es.
Proof. intros Hs. unfold collision_new. by rewrite (sort_by_id fst). Qed.

Lemma bitmap_count bm : count_ones bm ≤ 16.
Proof. unfold count_ones, slots. etrans; [apply length_filter|]. done. Qed.

Lemma uint_bytes v : u64_ok v → are_bytes (encode_uint v).
Proof. intros Hv. apply encode_uint_are_bytes. unfold u64_ok in Hv. int_lia. Qed.

Lemma array32_frame b : array32_ok b → are_bytes (frame b).
Proof. intros Hb. apply frame_are_bytes; [apply Hb|by apply array32_len]. Qed.

Lemma entry_are_bytes e : entry_wf e → are_bytes (entry_bytes e).
Proof.
  intros [Hk Hv]. destruct (canon_codec_bytes _ Hk), (canon_codec_bytes _ Hv).
  apply Forall_app. split; by apply frame_are_bytes.
Qed.

Lemma concat_are_bytes {A} (P : A → Prop) (enc : A → bytes) l :
  (∀ a, P a → are_bytes (enc a)) → Forall P l → are_bytes (concat (enc <$> l)).
Proof. intros He. induction 1; cbn; [constructor|]. apply Forall_app. auto. Qed.

Lemma grammar_are_bytes n b : node_grammar n b → are_bytes b.
Proof.
  assert (∀ (t : Z), u64_ok t → ∀ b', are_bytes b' → are_bytes (encode_uint t ++ b')) as Hu
    by (intros; apply Forall_app; auto using uint_bytes).
  assert (∀ h b', array32_ok h → are_bytes b' → are_bytes (frame h ++ b')) as Hf
    by (intros; apply Forall_app; auto using array32_frame).
  intros [Hn|[Hn|[Hn|Hn]]]; parse_inv; subst; (apply Hu; [done|]).
  - apply Hf; [done|]. by apply entry_are_bytes.
  - apply Hf; [done|]. apply Hu; [int_lia|]. by eapply concat_are_bytes; [apply entry_are_bytes|].
  - apply Hu; [int_lia|]. apply Forall_app. split.
    + eapply concat_are_bytes; [|done]. intros n Hn. apply uint_bytes. unfold nibble_ok in Hn. int_lia.
    + apply Hu; [done|]. apply Hu; [int_lia|]. by eapply concat_are_bytes; [apply array32_frame|].
  - by apply array32_frame.
Qed.

Lemma encode_grammar n : storable n → node_grammar (shallow n) (encode_node n).
Proof.
  intros [_ Hs]. destruct n as [[k v h]|[h es]|pre bm cs|d]; [| | |done].
  - rewrite encode_leaf. left. exists h, k, v. cbn in *. naive_solver.
  - rewrite encode_collision. right; left. exists h, es. cbn in *. destruct Hs as (? & ? & Hsort & ?).
    rewrite sorted_entries by done. naive_solver.
  - rewrite encode_branch. right; right; left. exists pre, bm, (as_bytes ∘ node_digest <$> cs).
    destruct Hs as (? & ? & Hb & Hl & Hd). pose proof (bitmap_count bm). unfold bitmap_ok in Hb.
    rewrite length_fmap, Z.mod_small by done. split_and!; [|done|done|int_lia|lia|done| |done].
    + cbn. f_equal. rewrite <-list_fmap_compose. apply list_fmap_ext. intros i c _. cbn. unfold lazy_child. by destruct (node_digest c).
    + rewrite Forall_fmap. eapply Forall_impl; [exact Hd|]. intros c. apply digest_array32.
Qed.

Lemma decode_encode n : storable n → decode_node (encode_node n) = Ok (shallow n).
Proof.
  intros Hs. pose proof (encode_grammar n Hs). apply decode_node_exact; [by eapply grammar_are_bytes|apply Hs|done].
Qed.

(** What is read can be hashed. *)
Lemma decoded_payload_ok b n : are_bytes b → len_ok b → decode_node b = Ok n → is_lazy n = false →
  payload_ok wfK wfV n.
Proof.
  intros Hb Hl Hd Hz. apply decode_node_exact in Hd; [|done..].
  destruct Hd as [(h & k & v & -> & Hh & ? & ? & _)|[(h & es & -> & Hh & Hes & Hn & _)|[(pre & wide & ds & -> & Hp & Hnib & Hw & Hd16 & Hdc & Hds & _)|(h & -> & _)]]];
    [..|done]; cbn.
  - split_and!; [by apply array32_len|done|done].
  - split_and!; [by apply array32_len| |].
    + unfold len_ok. rewrite sort_by_perm. lia.
    + by rewrite sort_by_perm.
  - pose proof (bitmap_count (wide mod 2^16)). split_and!; [unfold len_ok; lia| | | |].
    + eapply Forall_impl; [exact Hnib|]. intros x Hx. unfold nibble_ok in Hx. int_lia.
    + pose proof (Z.mod_pos_bound wide (2^16)). int_lia.
    + by rewrite length_fmap.
    + rewrite Forall_fmap. eapply Forall_impl; [exact Hds|]. intros x. apply array32_len.
Qed.

(** ** Authenticated reads *)

Context `{!PrefixFree wfK (canon_bytes (A := K))} `{!PrefixFree wfV (canon_bytes (A := V))}.

Lemma shallow_digest (n : TNode) : node_digest (shallow n) = node_digest n.
Proof.
  destruct n as [l|c|pre bm cs|d]; [done..| |done]. cbn [shallow node_digest]. f_equal. by rewrite <-list_fmap_compose.
Qed.

Lemma storable_payload_ok n : storable n → payload_ok wfK wfV n.
Proof.
  intros [_ Hs]. destruct n as [l|c|pre bm cs|d]; cbn; [| | |done].
  - destruct Hs as (? & ? & ?). split_and!; [by apply array32_len|done|done].
  - destruct Hs as (? & ? & ? & ?). split_and!; [by apply array32_len|unfold len_ok; lia|done].
  - destruct Hs as (Hp & Hn & Hb & Hl & Hd). split_and!; [unfold len_ok; lia| | |done|].
    + eapply Forall_impl; [exact Hn|]. intros x Hx. unfold nibble_ok in Hx. int_lia.
    + unfold bitmap_ok in Hb. int_lia.
    + eapply Forall_impl; [exact Hd|]. intros c Hc. by apply array32_len, digest_array32.
Qed.

Lemma verified_inv b d (m : TNode) : decode_node_verified b d = Ok m → decode_node b = Ok m ∧ node_digest m = d.
Proof.
  unfold decode_node_verified. destruct (decode_node b) as [n|e]; [|done]. cbn.
  destruct (decide (node_digest n = d)) as [Hd|Hd]; [|by rewrite decide_True].
  rewrite decide_False by auto. by intros [= <-].
Qed.

(** What verifies against a node's digest is the node, or a stub, or collides with it. *)
Lemma verified_node b (m n : TNode) : are_bytes b → len_ok b → payload_ok wfK wfV n →
  decode_node_verified b (node_digest n) = Ok m → is_lazy m = false →
  m = shallow n ∨ collision (preimage m) (preimage n).
Proof.
  intros Hb Hl Hn [Hd Hm]%verified_inv Hz. pose proof (decoded_payload_ok b m Hb Hl Hd Hz) as Hp.
  destruct (digest_shallow wfK wfV m n Hp Hn Hm) as [Hs|Hc]; [left|by right]. rewrite <-Hs.
  apply decode_node_exact in Hd; [|done..].
  destruct Hd as [?|[?|[(pre & wide & ds & -> & _)|?]]]; [parse_inv; by subst..| |parse_inv; by subst].
  cbn. f_equal. rewrite <-list_fmap_compose. apply list_fmap_ext. done.
Qed.

Lemma verified_encoding (n : TNode) : storable n → decode_node_verified (encode_node n) (node_digest n) = Ok (shallow n).
Proof.
  intros Hs. unfold decode_node_verified. rewrite (decode_encode n Hs). cbn. rewrite decide_False; [done|].
  intros Hne. apply Hne, shallow_digest.
Qed.
End codec.

(** * Values that are integers *)

(** [impl Canonical for u64], [impl CanonDecode for u64]. *)
#[export] Instance Canonical_u64 : Canonical Z := write_uint.
#[export] Instance CanonDecode_u64 : CanonDecode Z := read_uint.

#[export] Instance CanonAppends_u64 : CanonAppends Z.
Proof. intros v w. done. Qed.

#[export] Instance PrefixFree_u64 : PrefixFree u64_ok (canon_bytes (A := Z)).
Proof. exact prefix_free_uint64. Qed.

Lemma from_canon_bytes_exact {A} (rd : Reader A) P buf a : parses rd P → are_bytes buf → len_ok buf →
  from_canon_bytes rd buf = Ok a ↔ P a buf.
Proof.
  intros Hp Hb Hl. rewrite <-(read_all_exact rd P BadLength buf a Hp Hb Hl). unfold from_canon_bytes, read_all, mbind, ST_bind.
  destruct (rd (reader_new buf)) as [[c|e] r]; [|done]. by destruct (reader_is_empty r).
Qed.

#[export] Instance CanonCodec_u64 : CanonCodec Z u64_ok.
Proof.
  split.
  - intros b a Hb Hl. apply (from_canon_bytes_exact read_uint (λ v b, u64_ok v ∧ b = encode_uint v)); [|done..].
    apply parses_raw, parses_uint.
  - intros a Ha. split; [by apply uint_bytes|]. unfold len_ok. pose proof (length_encode_uint a). cbn. int_lia.
Qed.

(** The durable form of a node is exact and tamper-evident. Reading what [encode_node]
    writes returns the node with its children by digest, and it verifies against the
    node's digest; bytes that verify against that digest, wherever they come from, are
    read as the same node, unless they are a stub of that digest or hash to it as a
    different message. *)
Theorem node_codec_exact `{Blake3Laws} {K V} `{EqDecision K} `{OrdLaws K} `{CanonAppends K} `{CanonAppends V}
    `{CanonDecode K} `{CanonDecode V} (wfK : K → Prop) (wfV : V → Prop)
    `{!CanonCodec K wfK} `{!CanonCodec V wfV}
    `{!PrefixFree wfK (canon_bytes (A := K))} `{!PrefixFree wfV (canon_bytes (A := V))}
    (n : TrieNode K V) (Hn : storable wfK wfV n) :
  decode_node (encode_node n) = Ok (shallow n) ∧
  decode_node_verified (encode_node n) (node_digest n) = Ok (shallow n) ∧
  ∀ b m, are_bytes b → len_ok b → decode_node_verified b (node_digest n) = Ok m →
    m = shallow n ∨ m = Lazy (node_digest n) ∨ collision (preimage m) (preimage n).
Proof.
  split_and!; [by eapply decode_encode|by eapply verified_encoding|].
  intros b m Hb Hl Hm. destruct (is_lazy m) eqn:Hz.
  - right; left. apply verified_inv in Hm as [_ Hd]. destruct m; try done. cbn in Hd. by subst.
  - destruct (verified_node wfK wfV b m n Hb Hl) as [?|?]; auto. by eapply storable_payload_ok.
Qed.

(** A branch of two leaves. *)
Definition demo_leaf (v : Z) : TrieNode Z Z := Leaf (mkLeaf v v (replicate 31 0%Z ++ [v])).
Definition demo_node : TrieNode Z Z := Branch [] 3 [demo_leaf 1; demo_leaf 17].

Lemma node_codec_exact_witness :
  decode_node (K := Z) (V := Z) (@encode_node demo_hash Z Z _ _ demo_node) = Ok (@shallow demo_hash Z Z _ _ demo_node).
Proof.
  refine (proj1 (@node_codec_exact demo_hash demo_hash_laws Z Z _ _ _ _ _ _ _ _ _ u64_ok u64_ok _ _ _ _ demo_node _)).
  split; [vm_compute; reflexivity|]. split_and!; [cbn; lia|constructor|split; lia|reflexivity|].
  apply Forall_cons. split; [|apply Forall_singleton]; apply (@digest_of_ok demo_hash demo_hash_laws).
Defined.

(** ** Stubs *)

(** A stub stored under the digest it names verifies. *)
Lemma stub_verifies `{Blake3Laws} {K V} `{EqDecision K} `{OrdLaws K} `{CanonAppends K} `{CanonAppends V}
    `{CanonDecode K} `{CanonDecode V} (wfK : K → Prop) (wfV : V → Prop)
    `{!CanonCodec K wfK} `{!CanonCodec V wfV} (d : Digest) :
  digest_ok d → decode_node_verified (K := K) (V := V) (encode_node (K := K) (V := V) (Lazy d)) d = Ok (Lazy d).
Proof.
  intros Hd. assert (node_grammar wfK wfV (Lazy d) (encode_node (K := K) (V := V) (Lazy d))) as Hg.
  { right; right; right. exists (as_bytes d). split; [by destruct d|]. split; [by apply digest_array32|].
    cbn [encode_node]. rewrite write_bytes_app. done. }
  assert (len_ok (encode_node (K := K) (V := V) (Lazy d))) as Hl.
  { cbn [encode_node]. rewrite write_bytes_app. unfold frame, len_ok. rewrite !length_app, (proj1 Hd).
    pose proof (length_encode_uint 4). pose proof (length_encode_uint (Z.of_nat 32)). unfold write_uint. cbn [app]. int_lia. }
  unfold decode_node_verified. rewrite (proj2 (decode_node_exact wfK wfV _ (Lazy d) (grammar_are_bytes wfK wfV _ _ Hg) Hl) Hg).
  cbn. rewrite decide_False; [done|]. intros Hn. by apply Hn.
Qed.
