(* ===== verification/TrieLazy.v ===== *)
(** What the store-aware trie promises (src/crates/soc-core/src/store.rs, the
    [*_with_store] operations).

    A partly loaded trie [denotes] the trie it stands for. Whatever a node store returns,
    an operation on it does what the plain operation does on the trie it denotes, or
    reports a storage error; when the store holds the trie, it reports none. [runs] is
    this claim for a computation in [SM], against a store that [serves] a trie. *)
From S2P Require Import Prelude IntCodec Canon CanonLaws Witness Encoding Parsing Trie TrieLaws.
From S2P Require Import DecodedCache TrieMap TrieStore NodeCodec.

Section lazy.
Context `{Blake3Laws} {K V : Type} `{EqDecision K} `{OrdLaws K} `{CanonAppends K} `{CanonAppends V}.
Context `{CanonDecode K} `{CanonDecode V} (wfK : K → Prop) (wfV : V → Prop).
Context `{!CanonCodec K wfK} `{!CanonCodec V wfV}.
Context `{!PrefixFree wfK (canon_bytes (A := K))} `{!PrefixFree wfV (canon_bytes (A := V))}.
Abbreviation TNode := (TrieNode K V).

(** * The nodes of a trie *)

Fixpoint subnodes (n : TNode) : list TNode :=
  n :: match n with Branch _ _ cs => concat (subnodes <$> cs) | _ => [] end.

Lemma subnodes_self n : n ∈ subnodes n.
Proof. destruct n; left. Qed.

Lemma elem_of_subnodes_branch n pre bm cs :
  n ∈ subnodes (Branch pre bm cs) ↔ n = Branch pre bm cs ∨ ∃ c, c ∈ cs ∧ n ∈ subnodes c.
Proof.
  cbn [subnodes]. rewrite elem_of_cons. f_equiv. rewrite list_elem_of_In, in_concat. split.
  - intros (l & Hl & Hn). apply list_elem_of_In in Hl, Hn. apply list_elem_of_fmap in Hl as (c & -> & Hc). eauto.
  - intros (c & Hc & Hn). exists (subnodes c). split; apply list_elem_of_In; [|done]. apply list_elem_of_fmap. eauto.
Qed.

Lemma subnodes_child pre bm cs c : c ∈ cs → subnodes c ⊆ subnodes (Branch pre bm cs).
Proof. intros Hc n Hn. apply elem_of_subnodes_branch. eauto. Qed.

(** Branches stay within the 64 nibbles of a hash. *)
Fixpoint shaped (depth : nat) (n : TNode) : Prop :=
  match n with
  | Branch pre _ cs => depth + length pre < 64 ∧ Forall id (shaped (S (depth + length pre)) <$> cs)
  | Lazy _ => False
  | _ => True
  end.

Lemma shaped_child depth pre bm cs c : shaped depth (Branch pre bm cs) → c ∈ cs → shaped (S (depth + length pre)) c.
Proof. intros [_ Hf] Hc. rewrite Forall_fmap, Forall_forall in Hf. by apply Hf. Qed.

Lemma trie_shaped h p n : trie_ok h p n → shaped (length p) n.
Proof.
  revert p. induction n as [l|c|pre bm cs IH|d] using TrieNode_rect'; intros p Hok; [done..| |by inversion Hok].
  inversion Hok as [| |? ? ? ? Hd Hb Hl HF]; subst. cbn. split; [done|]. rewrite Forall_fmap. clear Hok Hl Hb.
  induction HF as [|m c ms cs Hc HF IHF]; [constructor|]. apply Forall_cons in IH as [IHc IH]. constructor; [|by apply IHF].
  specialize (IHc _ Hc). rewrite !length_app in IHc. cbn in *. by replace (S (length p + length pre)) with (length p + length pre + 1) by lia.
Qed.

(** * Stores *)

Section store.
Context {St : Type} `{NodeStore St} (store : St).

Definition reads (d : Digest) (b : bytes) : Prop :=
  get_node store d = Ok (Some b) ∨ get_node_scan store d = Ok (Some b).

(** Buffers are vectors of bytes, and none is a stub of the digest it is stored under. *)
Record store_ok : Prop := {
  store_bytes d b : reads d b → are_bytes b ∧ len_ok b;
  store_stubs d b (m : TNode) : reads d b → decode_node_verified b d = Ok m → is_lazy m = false
}.

(** The store passes off another message as a node of the trie. *)
Definition forged (n : TNode) : Prop := ∃ d b (m : TNode) n',
  reads d b ∧ decode_node_verified b d = Ok m ∧ n' ∈ subnodes n ∧ collision (preimage m) (preimage n').

(** The store returns a verifying encoding of the node. *)
Definition returns_node (n : TNode) (r : result StorageError (option bytes)) : Prop :=
  ∃ b, r = Ok (Some b) ∧ decode_node_verified b (node_digest n) = Ok (shallow n).
Definition holds (n : TNode) : Prop :=
  returns_node n (get_node store (node_digest n)) ∧ returns_node n (get_node_scan store (node_digest n)).

(** What the store owes every node of a trie; [fail] allows it to lose nodes. *)
Definition served (fail : Prop) (n : TNode) : Prop := ∀ n', n' ∈ subnodes n →
  payload_ok wfK wfV n' ∧ (fail ∨ holds n') ∧
  ∀ d b (m : TNode), reads d b → decode_node_verified b d = Ok m → ¬ collision (preimage m) (preimage n').

Lemma served_child fail pre bm cs c : served fail (Branch pre bm cs) → c ∈ cs → served fail c.
Proof. intros Hs Hc n' Hn. apply Hs. by eapply subnodes_child. Qed.

(** ** The trie a partly loaded one stands for *)

#[local] Unset Elimination Schemes.

Inductive denotes (fail : Prop) : TNode → TNode → Prop :=
  | denotes_leaf l : denotes fail (Leaf l) (Leaf l)
  | denotes_collision c : denotes fail (Collision c) (Collision c)
  | denotes_branch pre bm ts cs :
      Forall2 (denotes fail) ts cs → denotes fail (Branch pre bm ts) (Branch pre bm cs)
  | denotes_lazy n : served fail n → denotes fail (Lazy (node_digest n)) n.

#[local] Set Elimination Schemes.

Lemma denotes_digest fail t n : denotes fail t n → node_digest t = node_digest n.
Proof.
  revert t. induction n as [l|c|pre bm cs IH|d] using TrieNode_rect'; intros t Hd; inversion Hd as [| |? ? ts ? HF|]; subst; try done.
  cbn [node_digest]. f_equal. clear Hd. induction HF as [|t c ts cs Ht HF IHF]; [done|].
  apply Forall_cons in IH as [IHc IH]. cbn. by rewrite (IHc _ Ht), IHF.
Qed.

(** A trie in memory. *)
Fixpoint full (n : TNode) : Prop :=
  match n with Lazy _ => False | Branch _ _ cs => Forall id (full <$> cs) | _ => True end.

Lemma denotes_refl fail n : full n → denotes fail n n.
Proof.
  induction n as [l|c|pre bm cs IH|d] using TrieNode_rect'; intros Hf; [constructor..| |done].
  constructor. cbn in Hf. rewrite Forall_fmap in Hf. induction IH; [constructor|].
  apply Forall_cons in Hf as [? ?]. constructor; auto.
Qed.

Lemma denotes_shallow fail n : is_lazy n = false → served fail n → denotes fail (shallow n) n.
Proof.
  intros Hz Hs. destruct n as [l|c|pre bm cs|d]; [constructor..| |done]. constructor.
  apply Forall2_fmap_l, Forall_Forall2_diag, Forall_forall. intros c Hc. constructor. by eapply served_child.
Qed.

(** Every cached node was read from the store. *)
Definition cache_from (oc : option (DecodedNodeCache TNode)) : Prop :=
  match oc with
  | None => True
  | Some c => cache_ok c ∧ ∀ d e, slots_map c !! d = Some e →
      ∃ b, reads d b ∧ decode_node_verified b d = Ok (node e)
  end.

(** * Computations *)

(** It does not panic or run out of fuel; what it returns satisfies [P], and it fails only
    when [fail] allows it. *)
Definition runs (fail : Prop) {A} (P : A → Prop) (m : SM K V A) : Prop := ∀ oc, cache_from oc →
  ∃ r oc', m oc = Done (r, oc') ∧ cache_from oc' ∧ match r with Ok a => P a | Err _ => fail end.

Lemma sm_ret_runs fail {A} (P : A → Prop) a : P a → runs fail P (mret a).
Proof. intros Ha oc Hc. exists (Ok a), oc. done. Qed.

Lemma sm_bind_runs fail {A B} (Q : A → Prop) (P : B → Prop) (m : SM K V A) f :
  runs fail Q m → (∀ a, Q a → runs fail P (f a)) → runs fail P (m ≫= f).
Proof.
  intros Hm Hf oc Hc. destruct (Hm oc Hc) as ([a|e] & oc' & He & Hc' & Hr).
  - destruct (Hf a Hr oc' Hc') as (r & oc'' & Hfe & ? & ?). exists r, oc''. unfold mbind, SM_bind. by rewrite He.
  - exists (Err e), oc'. unfold mbind, SM_bind. by rewrite He.
Qed.

Lemma runs_opt fail {A} (P : A → Prop) a (o : option A) : o = Some a → P a → runs fail P (SM_opt o).
Proof. intros -> Ha. by apply sm_ret_runs. Qed.

Lemma runs_opt_bind fail {A B} (P : B → Prop) a (o : option A) (f : A → SM K V B) :
  o = Some a → runs fail P (f a) → runs fail P (SM_opt o ≫= f).
Proof. intros -> Hf. eapply sm_bind_runs; [by apply (runs_opt _ (eq a) a)|]. by intros ? <-. Qed.

Lemma runs_mono fail {A} (P Q : A → Prop) m : runs fail P m → (∀ a, P a → Q a) → runs fail Q m.
Proof.
  intros Hm HPQ oc Hc. destruct (Hm oc Hc) as (r & oc' & ? & ? & ?). exists r, oc'. split_and!; [done..|].
  destruct r; auto.
Qed.

(** ** Reads *)

Context (Hstore : store_ok).

Lemma admit_runs fail d b (m : TNode) len sd : reads d b → decode_node_verified b d = Ok m → (0 ≤ len)%Z →
  runs fail (eq m) (admit_node (K := K) (V := V) d m len sd).
Proof.
  intros Hb Hm Hlen [c|] Hc; unfold admit_node; [|by eexists _, _].
  destruct (admits sd m); [|by eexists _, _].
  destruct Hc as [Hok Hfrom]. destruct (insert_ok c d m len Hok Hlen) as (c' & -> & Hok' & _ & _ & Hnew & _).
  eexists _, _. split; [done|]. split; [|done]. split; [done|]. intros d' e He.
  destruct (Hnew d' e He) as [[-> <-]|(e0 & He0 & <-)]; eauto.
Qed.

Lemma verified_reads fail n d b (m : TNode) : served fail n → d = node_digest n → reads d b → decode_node_verified b d = Ok m →
  m = shallow n.
Proof.
  intros Hs -> Hb Hm. destruct (Hs n (subnodes_self n)) as (Hp & _ & Hcol).
  destruct (store_bytes Hstore _ _ Hb). pose proof (store_stubs Hstore _ _ _ Hb Hm).
  destruct (verified_node wfK wfV b m n) as [|Hc]; try done. by destruct (Hcol _ _ _ Hb Hm Hc).
Qed.

Lemma load_runs fail n sd : served fail n →
  runs fail (eq (shallow n)) (load_node (K := K) (V := V) store (node_digest n) sd).
Proof.
  intros Hs. unfold load_node. set (d := node_digest n).
  set (found := match sd with None => get_node store d | Some _ => get_node_scan store d end).
  assert (∀ b, found = Ok (Some b) → reads d b) as Hr.
  { intros b Hf. unfold found in Hf. destruct sd; [by right|by left]. }
  assert (fail ∨ returns_node n found) as Hfail.
  { destruct (Hs n (subnodes_self n)) as (_ & [?|[? ?]] & _); [by left|right]. unfold found. by destruct sd. }
  eapply (sm_bind_runs _ (λ o, found = Ok o)).
  { intros oc Hc. exists found, oc. split_and!; [done|done|]. destruct found eqn:Ef; [done|]. by destruct Hfail as [?|(? & ? & _)]. }
  intros o Ho. eapply (sm_bind_runs _ (λ b, o = Some b)).
  { intros oc Hc. exists (ok_or o (MissingNode d)), oc. split_and!; [done|done|]. destruct o; [done|].
    destruct Hfail as [?|(? & ? & _)]; [done|congruence]. }
  intros b ->. pose proof (Hr b Ho) as Hb. eapply (sm_bind_runs _ (λ m, decode_node_verified b d = Ok m)).
  { intros oc Hc. eexists _, oc. split; [done|]. split; [done|]. destruct (decode_node_verified b d) eqn:Ed; [done|]. cbn.
    destruct Hfail as [?|(b' & Hf & Hv)]; [done|]. assert (b' = b) as -> by congruence.
    unfold d in Ed. by rewrite Hv in Ed. }
  intros m Hm. eapply runs_mono; [eapply admit_runs; [exact Hb|exact Hm|lia]|]. intros ? <-.
  symmetry. by eapply verified_reads.
Qed.

(** A resolved node is the plain one, its children loaded or not. *)
Inductive resolves (fail : Prop) : TNode → TNode → Prop :=
  | resolves_leaf l : resolves fail (Leaf l) (Leaf l)
  | resolves_collision c : resolves fail (Collision c) (Collision c)
  | resolves_branch pre bm ts cs :
      Forall2 (denotes fail) ts cs → resolves fail (Branch pre bm ts) (Branch pre bm cs).

Lemma denotes_resolves fail m n : denotes fail m n → is_lazy m = false → resolves fail m n.
Proof. intros [] Hz; [by constructor..|done]. Qed.

Lemma resolve_runs fail t n sd : is_lazy n = false → denotes fail t n →
  runs fail (λ m, resolves fail m n) (resolve_node_mode t store sd).
Proof.
  intros Hz Ht. unfold resolve_node_mode.
  destruct t as [l|c|pre bm cs|d]; [by apply sm_ret_runs, denotes_resolves..|].
  assert (d = node_digest n ∧ served fail n) as [-> Hs] by (inversion Ht; by subst).
  assert (resolves fail (shallow n) n) as Hsh by (apply denotes_resolves; [by apply denotes_shallow|by destruct n]).
  assert (runs fail (λ m, resolves fail m n) (load_node store (node_digest n) sd)) as Hload.
  { eapply runs_mono; [by apply load_runs|]. by intros ? <-. }
  intros [c|] Hc; [|by apply Hload].
  destruct Hc as [Hok Hfrom]. destruct (get_ok c (node_digest n) Hok) as (Hok' & Hkeeps & Hhit).
  assert (cache_from (Some (cache_get c (node_digest n)).2)) as Hc'.
  { split; [done|]. intros d e He. destruct (Hkeeps d e He) as (e0 & He0 & <- & _). eauto. }
  destruct (cache_get c (node_digest n)) as [hit c'] eqn:Eg. cbn [fst snd] in *. destruct hit as [m|]; [|by apply Hload].
  eexists _, _. split; [done|]. split; [done|].
  symmetry in Hhit. apply fmap_Some in Hhit as (e & He & ->). destruct (Hfrom _ _ He) as (b & Hb & Hm).
  by rewrite (verified_reads fail n _ b (node e) Hs eq_refl Hb Hm).
Qed.

Lemma shaped_not_lazy depth n : shaped depth n → is_lazy n = false.
Proof. by destruct n. Qed.

(** A child of a branch, on both sides. *)
Lemma branch_child fail depth pre bm ts cs idx c :
  shaped depth (Branch pre bm cs) → Forall2 (denotes fail) ts cs → cs !! idx = Some c →
  ∃ t, ts !! idx = Some t ∧ denotes fail t c ∧ shaped (S (depth + length pre)) c.
Proof.
  intros Hn HF Hc. destruct (Forall2_lookup_r _ _ _ _ _ HF Hc) as (t & ? & ?).
  apply list_elem_of_lookup_2 in Hc. exists t. split_and!; eauto using shaped_child.
Qed.

(** * Lookup *)

Lemma get_runs fail fuel n t depth key hash st r st' :
  shaped depth n → denotes fail t n → depth ≤ 64 → 64 < fuel + depth →
  get_recursive n key hash depth st = Some (r, st') →
  runs fail (eq r) (get_store_loop store key hash fuel t depth).
Proof.
  revert n t depth st. induction fuel as [|fuel IH]; intros n t depth st Hn Ht Hd Hf Hg; [lia|].
  cbn [get_store_loop]. eapply sm_bind_runs; [eapply resolve_runs; [by eapply shaped_not_lazy|exact Ht]|]. intros m Hm.
  destruct Hm as [l|c|pre bm ts cs HF]; cbn [get_recursive] in Hg.
  - case_decide; case_decide; try case_decide; simplify_eq; try (by apply sm_ret_runs); naive_solver.
  - case_decide; [|simplify_eq; by apply sm_ret_runs].
    destruct (bucket_get key (coll_entries c) 0); simplify_eq. by apply sm_ret_runs.
  - pose proof Hn as [Hpl _]. rewrite decide_False in Hg by lia.
    destruct (prefix_matches hash depth pre) as [ok|] eqn:Ep; [|done]. cbn [mbind option_bind] in Hg.
    eapply runs_opt_bind; [reflexivity|]. destruct ok; cbn [negb] in *; [|simplify_eq; by apply sm_ret_runs].
    rewrite decide_False in Hg by lia. rewrite decide_False by lia.
    destruct (get_nibble hash (depth + length pre)) as [nib|] eqn:En; [|done]. cbn [mbind option_bind] in Hg.
    eapply runs_opt_bind; [reflexivity|]. destruct (child_index bm nib) as [idx|]; [|simplify_eq; by apply sm_ret_runs].
    rewrite list_lookup_fmap in Hg. destruct (cs !! idx) as [c|] eqn:Ec; [|done]. cbn in Hg.
    destruct (branch_child _ _ _ _ _ _ _ _ Hn HF Ec) as (t' & Ht' & ? & ?).
    eapply runs_opt_bind; [exact Ht'|]. eapply IH; [done..|lia|lia|exact Hg].
Qed.

(** * Insertion *)

Definition same_insert (fail : Prop) (r : TNode * bool * TrieOpStats) (r' : TNode * bool * TrieOpStats) : Prop :=
  denotes fail r'.1.1 r.1.1 ∧ r'.1.2 = r.1.2 ∧ r'.2 = r.2.

Lemma same_insert_refl fail r : full r.1.1 → same_insert fail r r.
Proof. intros Hr. split; [by apply denotes_refl|done]. Qed.

Lemma branch_off_full n h key value hash depth st r : full n →
  branch_off n h key value hash depth st = Some r → full r.1.1.
Proof.
  intros Hn. unfold branch_off. destruct (common_prefix_len h hash depth) as [lcp|]; [|done]. cbn.
  destruct (get_nibble h (depth + lcp)); [|done]. cbn. destruct (get_nibble hash (depth + lcp)); [|done]. cbn.
  destruct (mapM _ _); [|done]. cbn. intros [= <-]. cbn. case_decide; by repeat constructor.
Qed.

Lemma branch_split_denotes fail pre bm ts cs len key value hash depth st r : Forall2 (denotes fail) ts cs →
  branch_split pre bm cs len key value hash depth st = Some r →
  ∃ r', branch_split pre bm ts len key value hash depth st = Some r' ∧ same_insert fail r r'.
Proof.
  intros HF. unfold branch_split. destruct (pre !! len) as [bn|]; [|done]. cbn.
  destruct (get_nibble hash (depth + len)) as [nn|]; [|done]. cbn. intros [= <-]. eexists. split; [done|].
  split; [|done]. cbn. constructor. case_decide; repeat constructor; done.
Qed.

Lemma insert_runs fail fuel n t depth key value hash st r :
  shaped depth n → denotes fail t n → depth ≤ 64 → 64 < fuel + depth →
  insert_recursive n key value hash depth st = Some r →
  runs fail (same_insert fail r) (insert_recursive_store store key value hash fuel t depth st).
Proof.
  revert n t depth st r. induction fuel as [|fuel IH]; intros n t depth st r Hn Ht Hd Hf Hg; [lia|].
  cbn [insert_recursive_store]. eapply sm_bind_runs; [eapply resolve_runs; [by eapply shaped_not_lazy|exact Ht]|]. intros m Hm.
  destruct Hm as [l|c|pre bm ts cs HF]; cbn [insert_recursive] in Hg.
  - case_decide; [case_decide; simplify_eq; by apply sm_ret_runs, same_insert_refl|].
    eapply runs_opt; [exact Hg|]. eapply same_insert_refl, branch_off_full; [|exact Hg]. done.
  - case_decide; [|eapply runs_opt; [exact Hg|]; eapply same_insert_refl, branch_off_full; [|exact Hg]; done].
    destruct (bucket_put key value (coll_entries c) 0) as [[es found] cmps]. simplify_eq. by apply sm_ret_runs, same_insert_refl.
  - destruct (match_len hash depth pre) as [len|] eqn:El; [|done]. cbn [mbind option_bind] in Hg.
    eapply runs_opt_bind; [reflexivity|]. case_decide.
    { destruct (branch_split_denotes _ _ _ _ _ _ _ _ _ _ _ _ HF Hg) as (r' & ? & ?). by eapply runs_opt. }
    destruct (get_nibble hash (depth + length pre)) as [nib|] eqn:En; [|done]. cbn [mbind option_bind] in Hg.
    eapply runs_opt_bind; [reflexivity|]. destruct (child_index bm nib) as [idx|].
    + rewrite list_lookup_fmap in Hg. destruct (cs !! idx) as [c|] eqn:Ec; [|done]. cbn in Hg.
      destruct (branch_child _ _ _ _ _ _ _ _ Hn HF Ec) as (t' & Ht' & Hd' & ?).
      destruct (insert_recursive c key value hash (S (depth + length pre)) (visit st)) as [[[nc added] st']|] eqn:Ei; [|done].
      cbn in Hg. simplify_eq. eapply runs_opt_bind; [exact Ht'|].
      destruct Hn. eapply sm_bind_runs; [eapply IH; [done..|lia|lia|exact Ei]|].
      intros [[nt added'] st''] (Hnt & Ha & Hst). cbn in Hnt, Ha, Hst. subst. apply sm_ret_runs. split; [|done]. cbn. constructor.
      by apply Forall2_insert.
    + destruct (vec_insert (count_ones (Z.land bm (bit nib - 1))) (Leaf (mkLeaf key value hash)) cs) as [cs'|] eqn:Ev; [|done].
      cbn in Hg. simplify_eq. unfold vec_insert in *. pose proof (Forall2_length _ _ _ HF) as Hlen.
      case_decide; [|done]. simplify_eq.
      eapply runs_opt_bind; [apply decide_True; lia|]. apply sm_ret_runs. split; [|done]. cbn. constructor.
      apply Forall2_app; [by apply Forall2_take|]. constructor; [constructor|by apply Forall2_drop].
Qed.

(** * Removal *)

Definition same_remove (fail : Prop) (r : option TNode * bool * TrieOpStats) (r' : option TNode * bool * TrieOpStats) : Prop :=
  option_Forall2 (denotes fail) r'.1.1 r.1.1 ∧ r'.1.2 = r.1.2 ∧ r'.2 = r.2.

Lemma same_remove_some fail n' n b st : denotes fail n' n → same_remove fail (Some n, b, st) (Some n', b, st).
Proof. intros Hd. split; [by constructor|done]. Qed.

Lemma contract_denotes fail pre bm m c st : resolves fail m c →
  ∃ n', contract pre bm m st = (n', (contract pre bm c st).2) ∧ denotes fail n' (contract pre bm c st).1.
Proof. destruct 1; cbn; eexists; (split; [reflexivity|by constructor]). Qed.

Lemma shrink_bucket_denotes fail h es st n st' : shrink_bucket h es st = (n, st') → option_Forall2 (denotes fail) n n.
Proof. destruct es as [|[k v] [|e es]]; cbn; intros [= <- <-]; repeat constructor. Qed.

Lemma child_deleted (idx : nat) (cs : list TNode) c : c ∈ delete idx cs → c ∈ cs.
Proof.
  rewrite delete_take_drop, elem_of_app. intros [Hc|Hc].
  - rewrite <-(take_drop idx cs). apply elem_of_app. by left.
  - rewrite <-(take_drop (S idx) cs). apply elem_of_app. by right.
Qed.

(** The branch without its child [idx], contracted if one child is left. *)
Lemma remove_last_runs fail depth pre bm bm' ts cs idx st r :
  shaped depth (Branch pre bm cs) → Forall2 (denotes fail) ts cs →
  (new_children ← vec_remove idx cs;
   if decide (2 ≤ length new_children) then Some (Some (Branch pre bm' new_children), true, built 1 st)
   else single_child ← last new_children;
        let '(n', st) := contract pre bm' single_child st in Some (Some n', true, st)) = Some r →
  runs fail (same_remove fail r)
    (new_children ← SM_opt (vec_remove idx ts);
     if decide (2 ≤ length new_children) then mret (Some (Branch pre bm' new_children), true, built 1 st)
     else single_child ← SM_opt (last new_children);
          resolved_single ← resolve_node single_child store;
          let '(n', st) := contract pre bm' resolved_single st in mret (Some n', true, st)).
Proof.
  intros Hn HF Hg. pose proof (Forall2_length _ _ _ HF) as Hlen. unfold vec_remove in *.
  case_decide as Hi; [|done]. cbn [mbind option_bind] in Hg. eapply runs_opt_bind; [apply decide_True; lia|].
  assert (Forall2 (denotes fail) (delete idx ts) (delete idx cs)) as HFd by by apply Forall2_delete.
  rewrite (Forall2_length _ _ _ HFd). case_decide.
  - simplify_eq. apply sm_ret_runs, same_remove_some. by constructor.
  - destruct (last (delete idx cs)) as [c|] eqn:El; [|done]. cbn in Hg. rewrite last_lookup in El.
    destruct (Forall2_lookup_r _ _ _ _ _ HFd El) as (t & Ht & Hd).
    eapply runs_opt_bind; [by rewrite last_lookup, (Forall2_length _ _ _ HFd)|].
    apply list_elem_of_lookup_2, child_deleted in El.
    pose proof (shaped_child _ _ _ _ _ Hn El) as Hnc.
    eapply sm_bind_runs; [eapply resolve_runs; [by eapply shaped_not_lazy|exact Hd]|].
    intros m Hm. destruct (contract_denotes fail pre bm' m c st Hm) as (n' & -> & Hn').
    destruct (contract pre bm' c st) as [nc st'] eqn:Ec. cbn in *. simplify_eq. by apply sm_ret_runs, same_remove_some.
Qed.

Lemma remove_runs fail fuel n t depth key hash st r :
  shaped depth n → denotes fail t n → depth ≤ 64 → 64 < fuel + depth →
  remove_recursive n key hash depth st = Some r →
  runs fail (same_remove fail r) (remove_recursive_store store key hash fuel t depth st).
Proof.
  revert n t depth st r. induction fuel as [|fuel IH]; intros n t depth st r Hn Ht Hd Hf Hg; [lia|].
  cbn [remove_recursive_store]. eapply sm_bind_runs; [eapply resolve_runs; [by eapply shaped_not_lazy|exact Ht]|]. intros m Hm.
  destruct Hm as [l|c|pre bm ts cs HF]; cbn [remove_recursive] in Hg.
  - case_decide; [case_decide|]; simplify_eq; apply sm_ret_runs; (split; [|done]); repeat constructor.
  - case_decide; [|simplify_eq; apply sm_ret_runs; (split; [|done]); repeat constructor].
    destruct (bucket_remove key (coll_entries c) 0) as [[es removed] cmps].
    destruct removed; cbn [negb] in *; [|simplify_eq; apply sm_ret_runs; (split; [|done]); repeat constructor].
    destruct (shrink_bucket (coll_hash c) es (compared cmps (visit st))) as [n' st'] eqn:Esb. simplify_eq. apply sm_ret_runs.
    split; [|done]. cbn. by eapply shrink_bucket_denotes.
  - destruct (prefix_matches hash depth pre) as [ok|] eqn:Ep; [|done]. cbn [mbind option_bind] in Hg.
    assert (denotes fail (Branch pre bm ts) (Branch pre bm cs)) as Hsame by by constructor.
    eapply runs_opt_bind; [reflexivity|]. destruct ok; cbn [negb] in *; [|simplify_eq; by apply sm_ret_runs, same_remove_some].
    case_decide; [simplify_eq; by apply sm_ret_runs, same_remove_some|].
    destruct (get_nibble hash (depth + length pre)) as [nib|] eqn:En; [|done]. cbn [mbind option_bind] in Hg.
    eapply runs_opt_bind; [reflexivity|]. destruct (child_index bm nib) as [idx|]; [|simplify_eq; by apply sm_ret_runs, same_remove_some].
    rewrite list_lookup_fmap in Hg. destruct (cs !! idx) as [c|] eqn:Ec; [|done]. cbn in Hg.
    destruct (branch_child _ _ _ _ _ _ _ _ Hn HF Ec) as (t' & Ht' & Hd' & ?).
    destruct (remove_recursive c key hash (S (depth + length pre)) (visit st)) as [[[oc removed] st']|] eqn:Ei; [|done].
    cbn in Hg. eapply runs_opt_bind; [exact Ht'|].
    pose proof Hn as [Hpl _]. eapply sm_bind_runs; [eapply IH; [done..|lia|lia|exact Ei]|].
    intros [[ot removed'] st''] (Hot & Hr & Hst). cbn in Hot, Hr, Hst. subst removed' st''.
    destruct removed; cbn [negb] in *; [|simplify_eq; by apply sm_ret_runs, same_remove_some].
    inversion Hot as [nt nc Hnt|]; subst.
    + simplify_eq. apply sm_ret_runs, same_remove_some. constructor. by apply Forall2_insert.
    + by eapply remove_last_runs.
Qed.
(** * Maps *)

#[local] Arguments get_store_loop : simpl never.
#[local] Arguments insert_recursive_store : simpl never.
#[local] Arguments remove_recursive_store : simpl never.

(** A partly loaded map and the map it stands for. *)
Definition stands (fail : Prop) (t m : TrieMap K V) : Prop :=
  hasher t = hasher m ∧ len t = len m ∧ option_Forall2 (denotes fail) (root t) (root m).

Definition map_shaped (m : TrieMap K V) : Prop := from_option (shaped 0) True (root m).

Lemma get_with_store_runs fail t m k r st' : stands fail t m → map_shaped m →
  get_with_stats m k stats_default = Some (r, st') →
  runs fail (eq r) (get_with_store t k store).
Proof.
  destruct t as [tr tl th], m as [mr ml mh]. intros (Hh & Hl & Hr) Hm. cbn in *. subst.
  unfold get_with_stats, get_with_store. cbn. destruct Hr as [tn n Hd|]; cbn in *.
  - intros Hg. eapply get_runs; [exact Hm|exact Hd|lia|unfold STORE_FUEL; lia|exact Hg].
  - intros [= <- <-]. by apply sm_ret_runs.
Qed.

Definition same_map (fail : Prop) (r : TrieMap K V * TrieOpStats) (r' : TrieMap K V * TrieOpStats) : Prop :=
  stands fail r'.1 r.1 ∧ r'.2 = r.2.

Lemma insert_with_store_runs fail t m k v r : stands fail t m → map_shaped m →
  insert_with_stats m k v = Some r → runs fail (same_map fail r) (insert_with_store t k v store).
Proof.
  destruct t as [tr tl th], m as [mr ml mh]. intros (Hh & Hl & Hr) Hm. cbn in *. subst.
  unfold insert_with_stats, insert_with_store. cbn. destruct Hr as [tn n Hd|]; cbn in *.
  - destruct (insert_recursive n k v (mh k) 0 stats_default) as [[[n' added] st]|] eqn:Ei; [|done]. cbn. intros [= <-].
    eapply sm_bind_runs; [eapply insert_runs; [exact Hm|exact Hd|lia|unfold STORE_FUEL; lia|exact Ei]|].
    intros [[tn' added'] st'] (Hn' & Ha & Hst). cbn in *. subst. apply sm_ret_runs. split; [|done]. split_and!; [done..|]. by constructor.
  - intros [= <-]. apply sm_ret_runs. split; [|done]. split_and!; [done..|]. repeat constructor.
Qed.

Lemma remove_with_store_runs fail t m k r : stands fail t m → map_shaped m →
  remove_with_stats m k = Some r → runs fail (same_map fail r) (remove_with_store t k store).
Proof.
  destruct t as [tr tl th], m as [mr ml mh]. intros (Hh & Hl & Hr) Hm. cbn in *. subst.
  unfold remove_with_stats, remove_with_store. cbn. destruct Hr as [tn n Hd|]; cbn in *.
  - destruct (remove_recursive n k (mh k) 0 stats_default) as [[[n' removed] st]|] eqn:Ei; [|done]. cbn. intros Hg.
    eapply sm_bind_runs; [eapply remove_runs; [exact Hm|exact Hd|lia|unfold STORE_FUEL; lia|exact Ei]|].
    intros [[tn' removed'] st'] (Hn' & Ha & Hst). cbn in *. subst.
    destruct removed; cbn [negb] in *; simplify_eq; [|apply sm_ret_runs; split; [|done]; split_and!; [done..|]; by constructor].
    destruct ml as [|ml]; [done|]. cbn in Hg. simplify_eq. apply sm_ret_runs. split; [|done]. by split_and!.
  - intros [= <-]. apply sm_ret_runs. split; [|done]. split_and!; [done..|]. constructor.
Qed.

(** ** What a store must hold *)

Definition map_subnodes (m : TrieMap K V) : list TNode := from_option subnodes [] (root m).

Definition complete (m : TrieMap K V) : Prop := ∀ n, n ∈ map_subnodes m → holds n.

(** Nothing else the store returns, nor the empty map, hashes to a node of the map. *)
Definition untampered (m : TrieMap K V) : Prop :=
  match root m with
  | None => True
  | Some n => ¬ forged n ∧ ¬ collision (domain_message Value (bytes_of_string "brix:trie:empty:v1")) (preimage n)
  end.

(** A history on a store-aware map. *)
Definition store_apply (t : TrieMap K V) (o : map_op K V) : SM K V (TrieMap K V) :=
  match o with
  | Put k v => '(t', _) ← insert_with_store t k v store; mret t'
  | Del k => '(t', _) ← remove_with_store t k store; mret t'
  end.

Fixpoint store_run (t : TrieMap K V) (os : list (map_op K V)) : SM K V (TrieMap K V) :=
  match os with [] => mret t | o :: os' => t' ← store_apply t o; store_run t' os' end.
End store.

Context (h : KeyHasher K) (h_ok : hasher_ok h).

Lemma subnode_ok p n n' : trie_ok h p n → node_wf wfK wfV n → n' ∈ subnodes n →
  ∃ p', trie_ok h p' n' ∧ node_wf wfK wfV n'.
Proof.
  revert p. induction n as [l|c|pre bm cs IH|d] using TrieNode_rect'; intros p Hok Hw Hn;
    try (apply list_elem_of_singleton in Hn as ->; by exists p).
  apply elem_of_subnodes_branch in Hn as [->|(c & Hc & Hn)]; [by exists p|]. inversion Hok as [| |? ? ? ? _ _ _ HF]; subst.
  pose proof Hc as Hcw. apply list_elem_of_lookup in Hc as [i Hi].
  destruct (Forall2_lookup_r _ _ _ _ _ HF Hi) as (x & _ & Hx). rewrite Forall_lookup in IH.
  eapply (IH i c Hi); [exact Hx| |exact Hn]. by eapply child_wf.
Qed.

Section histories.
Context `{!Countable K} {St : Type} `{NodeStore St} (store : St) (Hstore : store_ok store).

Lemma valid_shaped (m : TrieMap K V) : tm_valid h m → map_shaped m.
Proof. intros (_ & _ & Hr). unfold map_shaped. destruct (root m); [|done]. exact (trie_shaped h [] _ Hr). Qed.

Lemma served_root fail (m : TrieMap K V) n : tm_valid h m → map_wf wfK wfV (tm_model m) → root m = Some n →
  ¬ forged store n → fail ∨ complete store m → served store fail n.
Proof.
  intros Hm Hw Hr Hu Hf n' Hn. pose proof (root_wf wfK wfV h h_ok m n Hm Hw Hr) as Hwn.
  destruct Hm as (_ & _ & Hok). rewrite Hr in Hok. destruct (subnode_ok [] n n' Hok Hwn Hn) as (p' & Hok' & Hw').
  split_and!; [by eapply trie_payload_ok| |].
  - destruct Hf as [?|Hc]; [by left|right]. apply Hc. unfold map_subnodes. rewrite Hr. exact Hn.
  - intros d b x Hb Hx Hcol. apply Hu. by exists d, b, x, n'.
Qed.

Lemma reopened_stands fail (m : TrieMap K V) : tm_valid h m → map_wf wfK wfV (tm_model m) →
  untampered store m → fail ∨ complete store m →
  stands store fail (from_root_digest h (root_digest m) (len m)) m.
Proof.
  intros Hm Hw Hu Hf. pose proof Hm as (Hh & _ & Hok). split_and!; [by symmetry|done|].
  unfold from_root_digest, root_digest. cbn [root]. unfold untampered in Hu. destruct (root m) as [n|] eqn:Hr; [|rewrite decide_True by done; constructor].
  destruct Hu as [Hu Hne]. rewrite decide_False; [constructor; constructor; by apply (served_root fail m)|].
  intros He. by apply Hne, (empty_digest_distinct h _ _ Hok).
Qed.

Lemma store_apply_runs fail t m o : stands store fail t m → tm_valid h m →
  ∃ m', @pm_apply _ K V (PersistentMap_TrieMap h) m o = Some m' ∧ tm_valid h m' ∧ tm_model m' = model_apply (tm_model m) o ∧
    runs store fail (λ t', stands store fail t' m') (store_apply store t o).
Proof.
  intros Ht Hm. pose proof (valid_shaped m Hm) as Hs. destruct o as [k v|k]; cbn [pm_apply pm_insert pm_remove PersistentMap_TrieMap store_apply].
  - destruct (insert_with_stats_spec h h_ok m k v Hm) as (m' & st & Hi & Hv & Hmod & _). exists m'.
    unfold trie_insert. rewrite Hi. split_and!; [done..|].
    eapply sm_bind_runs; [by eapply insert_with_store_runs|]. intros [t' st'] [Ht' _]. by apply sm_ret_runs.
  - destruct (remove_with_stats_spec h h_ok m k Hm) as (m' & st & Hi & Hv & Hmod & _). exists m'.
    unfold trie_remove. rewrite Hi. split_and!; [done..|].
    eapply sm_bind_runs; [by eapply remove_with_store_runs|]. intros [t' st'] [Ht' _]. by apply sm_ret_runs.
Qed.

Lemma store_run_runs fail t m m' os : stands store fail t m → tm_valid h m →
  @pm_run _ K V (PersistentMap_TrieMap h) m os = Some m' →
  runs store fail (λ t', stands store fail t' m') (store_run store t os).
Proof.
  revert t m. induction os as [|o os IH]; intros t m Ht Hm; cbn [pm_run store_run].
  { intros [= <-]. by apply sm_ret_runs. }
  destruct (store_apply_runs fail t m o Ht Hm) as (m1 & Ha & Hm1 & _ & Hr). rewrite Ha. cbn [mbind option_bind]. intros Hrun.
  eapply sm_bind_runs; [exact Hr|]. intros t1 Ht1. by apply (IH t1 m1).
Qed.

Lemma stands_digest fail t m : stands store fail t m → root_digest t = root_digest m.
Proof.
  intros (_ & _ & Hr). unfold root_digest. destruct Hr as [t' n Hd|]; [|done]. by eapply denotes_digest.
Qed.
End histories.
End lazy.

Lemma pm_run_app {M K V} `{PersistentMap M K V} (m : M) os1 os2 :
  pm_run m (os1 ++ os2) = (m' ← pm_run m os1; pm_run m' os2).
Proof.
  revert m. induction os1 as [|o os1 IH]; intros m; [done|]. cbn [pm_run app].
  destruct (pm_apply m o) as [m1|]; [|done]. cbn. by rewrite IH.
Qed.

(** C30: A trie reopened from its root digest is the trie. Take any history, forget its
    trie but for the root digest and the length, and go on with any further history against
    a node store and an optional cache read from it: each operation succeeds or reports a
    storage error, without a panic and within the fuel, and the map reached has the
    bindings, length and root digest of the one reached in memory. Errors are excluded when
    the store holds the trie's nodes. The store is not trusted beyond having no stub and no
    second preimage of a node. *)
Theorem store_ops_faithful `{Blake3Laws} {K V} `{Countable K} `{OrdLaws K} `{CanonAppends K} `{CanonAppends V}
    `{CanonDecode K} `{CanonDecode V} (wfK : K → Prop) (wfV : V → Prop)
    `{!CanonCodec K wfK} `{!CanonCodec V wfV}
    `{!PrefixFree wfK (canon_bytes (A := K))} `{!PrefixFree wfV (canon_bytes (A := V))}
    {St} `{NodeStore St} (store : St) (h : KeyHasher K) (os1 os2 : list (map_op K V)) (m : TrieMap K V)
    (fail : Prop) (cache : option (DecodedNodeCache (TrieNode K V))) (k : K)
    (h_ok : hasher_ok h) (Hm : trie_run h os1 = Some m) (Hwf : map_wf wfK wfV (model_run ∅ os1))
    (Hstore : store_ok (K := K) (V := V) store) (Hcache : cache_from store cache)
    (Huntampered : untampered store m) (Hfail : fail ∨ complete store m) :
  ∃ m', trie_run h (os1 ++ os2) = Some m' ∧
    let reopened := from_root_digest h (root_digest m) (len m) in
    (∃ r cache', store_run store reopened os2 cache = Done (r, cache') ∧ cache_from store cache' ∧
       match r with
       | Ok t' => root_digest t' = root_digest m' ∧ len t' = len m' ∧ hasher t' = h
       | Err _ => fail
       end) ∧
    (∃ r cache', (t' ← store_run store reopened os2; get_with_store t' k store) cache = Done (r, cache') ∧
       match r with Ok v => v = model_run (∅ : gmap K V) (os1 ++ os2) !! k | Err _ => fail end).
Proof.
  destruct (trie_run_spec (V := V) h h_ok (os1 ++ os2)) as (m' & Hm' & Hv' & Hmod'). exists m'. split; [done|].
  apply (trie_run_valid h h_ok) in Hm as Hv. destruct Hv as [Hv Hmod]. rewrite <-Hmod in Hwf.
  pose proof (reopened_stands wfK wfV h h_ok store fail m Hv Hwf Huntampered Hfail) as Hst.
  assert (runs store fail (λ t', stands wfK wfV store fail t' m')
    (store_run store (from_root_digest h (root_digest m) (len m)) os2)) as Hrun.
  { eapply store_run_runs; [done..|]. unfold trie_run in *. rewrite pm_run_app, Hm in Hm'. exact Hm'. }
  split.
  - destruct (Hrun cache Hcache) as (r & c' & He & Hc' & Hr). exists r, c'. split_and!; [done..|].
    destruct r as [t'|e]; [|done]. split_and!; [by eapply stands_digest|apply Hr|]. destruct Hr as [-> _]. apply Hv'.
  - destruct (get_with_stats_spec h h_ok m' k Hv') as (st & Hg & _).
    assert (runs store fail (eq (tm_model m' !! k)) (t' ← store_run store (from_root_digest h (root_digest m) (len m)) os2;
      get_with_store t' k store)) as Hget.
    { eapply sm_bind_runs; [exact Hrun|]. intros t' Ht'. eapply (get_with_store_runs wfK wfV); [exact Hstore|exact Ht'|exact (valid_shaped h m' Hv')|exact Hg]. }
    destruct (Hget cache Hcache) as (r & c' & He & _ & Hr). exists r, c'. split; [done|]. rewrite <-Hmod'. by destruct r.
Qed.

(** A store with one leaf. *)
#[local] Existing Instance demo_hash.

Definition byte_hasher : KeyHasher Z := λ k, replicate 31 0%Z ++ [(k mod 256)%Z].

Lemma byte_hasher_ok : hasher_ok byte_hasher.
Proof.
  intros k. split; [done|]. apply Forall_app. split; [by apply Forall_replicate|]. apply Forall_singleton.
  unfold is_byte. pose proof (Z.mod_pos_bound k 256). lia.
Qed.

Definition one_leaf : TrieNode Z Z := Leaf (mkLeaf 1%Z 1%Z (byte_hasher 1%Z)).
Definition one_map : TrieMap Z Z := mkTrie (Some one_leaf) 1 byte_hasher.
Definition one_store : MemoryNodeStore :=
  mkMemoryStore {[node_digest one_leaf := encode_node one_leaf]}.

Lemma one_reads d b : reads one_store d b →
  d = node_digest one_leaf ∧ b = encode_node one_leaf.
Proof. intros [[= Hb]|[= Hb]]; by apply lookup_singleton_Some in Hb as [<- <-]. Qed.

Lemma one_verified d b (x : TrieNode Z Z) : reads one_store d b → decode_node_verified b d = Ok x →
  x = one_leaf.
Proof. intros [-> ->]%one_reads. vm_compute. by intros [= <-]. Qed.

Lemma one_store_ok : store_ok (K := Z) (V := Z) one_store.
Proof.
  split.
  - intros d b [-> ->]%one_reads. split; [|vm_compute; reflexivity]. apply (bool_decide_unpack _). vm_compute. exact I.
  - intros d b x Hb Hx. by rewrite (one_verified d b x Hb Hx).
Qed.

Lemma store_ops_faithful_witness :
  ∃ r cache', (t' ← store_run one_store
      (from_root_digest byte_hasher (root_digest one_map) 1) [Put 2%Z 5%Z; Del 1%Z];
      get_with_store t' 2%Z one_store) None = Done (r, cache') ∧ r = Ok (Some 5%Z).
Proof.
  destruct (@store_ops_faithful demo_hash demo_hash_laws Z Z _ _ _ _ _ _ _ _ _ _ u64_ok u64_ok _ _ _ _ _ _ one_store byte_hasher
    [Put 1%Z 1%Z] [Put 2%Z 5%Z; Del 1%Z] one_map False None 2%Z byte_hasher_ok) as (m' & _ & _ & r & c & He & Hr).
  - reflexivity.
  - apply map_wf_of_list; [vm_compute; reflexivity|apply (bool_decide_unpack _); vm_compute; exact I].
  - exact one_store_ok.
  - exact I.
  - split.
    + intros (d & b & x & n' & Hb & Hx & Hn & Hne & _). apply Hne. rewrite (one_verified d b x Hb Hx).
      apply list_elem_of_singleton in Hn as ->. reflexivity.
    + intros [_ Hc]. vm_compute in Hc. discriminate Hc.
  - right. intros n' ->%list_elem_of_singleton. split; (eexists; split; [reflexivity|vm_compute; reflexivity]).
  - exists r, c. split; [exact He|]. destruct r as [v|e]; [|destruct Hr]. rewrite Hr. vm_compute. reflexivity.
Defined.
