(* ===== verification/TriePersist.v ===== *)
(** Persisting a trie (src/crates/soc-core/src/store.rs, [persist_to_store]).

    The writer of a trie stops at a node the cache or the store already knows, so what it
    leaves is complete only when every known node has its children in the store: [sound] is
    that invariant, kept by every write because children are written first. A persisted
    trie is reopened from its root digest with the same bindings. *)
From S2P Require Import Prelude IntCodec Canon CanonLaws Witness Encoding Parsing Trie TrieLaws.
From S2P Require Import DecodedCache TrieMap TrieStore NodeCodec TrieLazy.

Section persist.
Context `{Blake3Laws} {K V : Type} `{EqDecision K} `{OrdLaws K} `{CanonAppends K} `{CanonAppends V}.
Context `{CanonDecode K} `{CanonDecode V} (wfK : K → Prop) (wfV : V → Prop).
Context `{!CanonCodec K wfK} `{!CanonCodec V wfV}.
Context `{!PrefixFree wfK (canon_bytes (A := K))} `{!PrefixFree wfV (canon_bytes (A := V))}.
Context (h : KeyHasher K) (h_ok : hasher_ok h).
Abbreviation TNode := (TrieNode K V).
Implicit Types st : MemoryNodeStore.
Implicit Types s : PersistState (K := K) (V := V) (S := MemoryNodeStore).

(** * The store's invariant *)

Definition children (n : TNode) : list TNode := match n with Branch _ _ cs => cs | _ => [] end.

Definition contains_digest st (d : Digest) : Prop := is_Some (nodes st !! d).

(** Every entry verifies, none is a stub, and the children of each are in the store. *)
Definition sound st : Prop := ∀ d b, nodes st !! d = Some b →
  are_bytes b ∧ len_ok b ∧ ∃ m : TNode, decode_node_verified b d = Ok m ∧ is_lazy m = false ∧
    ∀ c, c ∈ children m → contains_digest st (node_digest c).

Lemma memory_reads st d b : reads st d b ↔ nodes st !! d = Some b.
Proof. unfold reads. cbn. split; [by intros [[= ?]|[= ?]]|intros ->; by left]. Qed.

Lemma sound_store_ok st : sound st → store_ok (K := K) (V := V) st.
Proof.
  intros Hs. split.
  - intros d b Hb%memory_reads. by destruct (Hs d b Hb) as (? & ? & _).
  - intros d b m Hb%memory_reads Hm. destruct (Hs d b Hb) as (_ & _ & m' & Hm' & ? & _). congruence.
Qed.

Lemma sound_empty : sound memory_new.
Proof. intros d b Hd. cbn in Hd. apply lookup_empty_Some in Hd as []. Qed.

(** * The nodes of a trie *)

Lemma child_smaller pre bm (cs : list TNode) c : c ∈ cs → length (subnodes c) < length (subnodes (Branch pre bm cs)).
Proof.
  intros Hc. cbn [subnodes length]. apply list_elem_of_split in Hc as (c1 & c2 & ->).
  rewrite fmap_app, concat_app, length_app. cbn. rewrite length_app. lia.
Qed.

Lemma subnode_subnodes (n n' : TNode) : n' ∈ subnodes n →
  subnodes n' ⊆ subnodes n ∧ length (subnodes n') ≤ length (subnodes n) ∧ preimages n' ⊆ preimages n.
Proof.
  induction n as [l|c|pre bm cs IH|d] using TrieNode_rect'; intros Hn; try (apply list_elem_of_singleton in Hn as ->; done).
  apply elem_of_subnodes_branch in Hn as [->|(c & Hc & Hn)]; [done|]. rewrite Forall_forall in IH.
  destruct (IH c Hc Hn) as (Hs & Hl & Hp). pose proof (child_smaller pre bm cs c Hc).
  pose proof (subnodes_child pre bm cs c Hc). pose proof (preimages_child c pre bm cs Hc).
  split_and!; [by etrans|lia|by etrans].
Qed.

(** The nodes of a trie that can be written. *)
Definition readable (n : TNode) : Prop :=
  len_ok (encode_node n) ∧ match n with Collision c => (Z.of_nat (length (coll_entries c)) ≤ 65536)%Z | _ => True end.

Lemma strictly_sorted_sorted {A} `{OrdLaws A} (l : list A) : strictly_sorted l → sorted l.
Proof.
  induction 1 as [|x l Hs IH Hx]; constructor; [done|]. eapply Forall_impl; [exact Hx|]. intros y. apply lt_le_of.
Qed.

Lemma trie_storable p n : trie_ok h p n → node_wf wfK wfV n → readable n → storable wfK wfV n.
Proof.
  intros Hok Hw [Hl Hc]. pose proof (trie_payload_ok wfK wfV h h_ok _ _ Hok Hw) as Hp. split; [done|].
  assert (∀ k, array32_ok (h k)) as Hh by (intros k; split; apply h_ok).
  destruct n as [l|c|pre bm cs|d]; [| | |done]; cbn in Hp.
  - inversion Hok; subst. destruct Hp as (? & ? & ?). split_and!; [apply Hh|done..].
  - inversion Hok as [|? hh es ? Hl2 Hs Hhe|]; subst. destruct Hp as (? & ? & ?). cbn in *. split_and!; [|done| |done].
    + destruct es as [|e es]; [simpl in *; lia|]. rewrite <-(Hhe e) by (by left). apply Hh.
    + by apply strictly_sorted_sorted.
  - pose proof (branch_nibbles wfK wfV h h_ok _ _ _ _ Hok). inversion Hok as [| |? ? ? ? Hd Hb Hl2 HF]; subst.
    split_and!; [lia|done|done|symmetry; by eapply Forall2_length|].
    apply Forall_forall. intros c Hin. apply list_elem_of_lookup in Hin as [i Hi].
    destruct (Forall2_lookup_r _ _ _ _ _ HF Hi) as (x & _ & Hx).
    rewrite (node_digest_payload _ _ _ Hx). apply digest_of_ok.
Qed.


(** A node's digest is not one of its descendants'. *)
Lemma child_digest p pre bm cs c n' : trie_ok h p (Branch pre bm cs) → node_wf wfK wfV (Branch pre bm cs) →
  ¬ collision_among (preimages (Branch pre bm cs)) → c ∈ cs → n' ∈ subnodes c →
  node_digest n' ≠ node_digest (Branch pre bm cs).
Proof.
  intros Hok Hw Hcol Hc Hn He. pose proof (subnodes_child pre bm cs c Hc _ Hn) as Hn'.
  destruct (subnode_ok wfK wfV h _ _ _ Hok Hw Hn') as (p' & Hok' & Hw').
  destruct (subnode_subnodes _ _ Hn) as (_ & Hl & _). pose proof (child_smaller pre bm cs c Hc).
  destruct (node_digest_inj wfK wfV h h_ok _ _ _ _ Hok' Hok Hw' Hw He) as [->|(m1 & m2 & M1 & M2 & Hm)]; [lia|].
  apply Hcol. exists m1, m2. destruct (subnode_subnodes _ _ Hn') as (_ & _ & Hp).
  split_and!; [..|done]; [apply elem_of_app in M1 as [M1|M1]|apply elem_of_app in M2 as [M2|M2]]; auto.
Qed.

Lemma verified_holds st (n : TNode) b : nodes st !! node_digest n = Some b →
  decode_node_verified b (node_digest n) = Ok (shallow n) → holds st n.
Proof. intros Hb Hm. split; exists b; (split; [by rewrite <-Hb|exact Hm]). Qed.

(** A sound store that knows the root holds the trie. *)
Lemma sound_holds st p n : sound st → trie_ok h p n → node_wf wfK wfV n → ¬ forged st n →
  contains_digest st (node_digest n) → ∀ n', n' ∈ subnodes n → holds st n'.
Proof.
  intros Hs. revert p. induction n as [l|c|pre bm cs IH|d] using TrieNode_rect'; intros p Hok Hw Hf [b Hb] n' Hn.
  all: destruct (Hs _ _ Hb) as (Hbb & Hbl & m & Hm & Hz & Hcs).
  all: pose proof (trie_payload_ok wfK wfV h h_ok _ _ Hok Hw) as Hp.
  all: destruct (verified_node wfK wfV b m _ Hbb Hbl Hp Hm Hz) as [->|Hcol];
    [|destruct Hf; eexists _, b, m, _; split_and!; [by apply memory_reads|exact Hm|apply subnodes_self|exact Hcol]].
  all: pose proof (verified_holds _ _ _ Hb Hm) as Hh.
  1-2: by apply list_elem_of_singleton in Hn as ->.
  2: by inversion Hok.
  apply elem_of_subnodes_branch in Hn as [->|(c & Hc & Hn)]; [done|]. rewrite Forall_forall in IH.
  destruct (subnode_ok wfK wfV h _ _ c Hok Hw) as (p' & Hok' & Hw').
  { by eapply subnodes_child, subnodes_self. }
  eapply (IH c Hc p'); [done|done| | |done].
  - intros (d & b' & m & n1 & ? & ? & Hn1 & ?). apply Hf. exists d, b', m, n1. split_and!; [done..| |done].
    by eapply subnodes_child.
  - apply (Hcs (Lazy (node_digest c))). apply list_elem_of_fmap. eauto.
Qed.

(** * Writing *)

(** The state of a persist: a sound store, and a cache read from it. *)
Definition good s : Prop := sound (pstore s) ∧ cache_from (pstore s) (pcache s).

(** A run adds encodings of the nodes [M] to the store and counts them. *)
Definition wrote (M : list TNode) s s' : Prop :=
  nodes (pstore s) ⊆ nodes (pstore s') ∧
  (∀ d b, nodes (pstore s') !! d = Some b → nodes (pstore s) !! d = Some b ∨
     ∃ n, n ∈ M ∧ d = node_digest n ∧ b = encode_node n) ∧
  size (nodes (pstore s')) + pcount s = size (nodes (pstore s)) + pcount s'.

Lemma wrote_refl M s : wrote M s s.
Proof. split_and!; [done|by left|done]. Qed.

Lemma wrote_trans M1 M2 M s1 s2 s3 : wrote M1 s1 s2 → wrote M2 s2 s3 → M1 ⊆ M → M2 ⊆ M → wrote M s1 s3.
Proof.
  intros (Hi1 & Hn1 & Hs1) (Hi2 & Hn2 & Hs2) HM1 HM2. split_and!; [by etrans| |lia].
  intros d b Hb. destruct (Hn2 d b Hb) as [Hb2|(n & Hn & Hd)]; [|right; eauto].
  destruct (Hn1 d b Hb2) as [?|(n & Hn & ?)]; [by left|right; eauto].
Qed.

Lemma wrote_contains M s s' d : wrote M s s' → contains_digest (pstore s) d → contains_digest (pstore s') d.
Proof. intros (Hi & _) [b Hb]. exists b. by eapply lookup_weaken. Qed.

Lemma persisted_spec s d : good s → persisted d s = true ↔ contains_digest (pstore s) d.
Proof.
  intros [_ Hc]. unfold persisted, store_contains, contains_digest. cbn. rewrite orb_true_iff. split.
  - intros [Hp|Hp]; [|destruct (nodes (pstore s) !! d); [eauto|done]].
    destruct (pcache s) as [c|]; [|done]. unfold cache_contains in Hp. apply bool_decide_eq_true in Hp as [e He].
    destruct Hc as [_ Hc]. destruct (Hc d e He) as (b & Hb%memory_reads & _). eauto.
  - intros [b ->]. by right.
Qed.

Lemma unpersisted s d : good s → persisted d s = false → nodes (pstore s) !! d = None.
Proof.
  intros Hg Hp. destruct (nodes (pstore s) !! d) as [b|] eqn:Eb; [|done].
  assert (persisted d s = true) by (apply persisted_spec; [done|by exists b]). congruence.
Qed.

(** The write of a node whose children are known. *)
Lemma write_good n s : good s → storable wfK wfV n → nodes (pstore s) !! node_digest n = None →
  (∀ c, c ∈ children n → contains_digest (pstore s) (node_digest c)) →
  ∃ s', persist_write n s = Done s' ∧ good s' ∧ wrote [n] s s' ∧ contains_digest (pstore s') (node_digest n).
Proof.
  intros [Hs Hc] Hst Hnone Hch. set (b := encode_node n). set (d := node_digest n).
  pose proof (verified_encoding wfK wfV n Hst) as Hver.
  set (st' := mkMemoryStore (<[d:=b]> (nodes (pstore s)))).
  assert (nodes (pstore s) ⊆ nodes st') as Hsub by by apply insert_subseteq.
  assert (sound st') as Hs'.
  { assert (∀ d', contains_digest (pstore s) d' → contains_digest st' d') as Hmono.
    { intros d' [b' Hb']. exists b'. by eapply lookup_weaken. }
    intros d' b' Hb'. cbn in Hb'. apply lookup_insert_Some in Hb' as [[<- <-]|[_ Hb']].
    - split_and!; [by eapply grammar_are_bytes, encode_grammar|apply Hst|]. exists (shallow n).
      split_and!; [exact Hver|destruct n; [done..|by destruct Hst]|].
      intros c Hin. destruct n as [| |pre bm cs|]; cbn in Hin; try by apply not_elem_of_nil in Hin.
      apply list_elem_of_fmap in Hin as (c' & -> & Hin). apply Hmono, (Hch c' Hin).
    - destruct (Hs d' b' Hb') as (? & ? & m & ? & ? & Hm). split_and!; [done..|]. exists m. split_and!; eauto. }
  assert (∀ oc : option (DecodedNodeCache TNode), cache_from (pstore s) oc → cache_from st' oc) as Hcm.
  { intros [c|]; [|done]. intros [Hok Hf]. split; [done|]. intros d' e He. destruct (Hf d' e He) as (b' & Hb'%memory_reads & ?).
    exists b'. split; [|done]. apply memory_reads. by eapply lookup_weaken. }
  assert (∀ oc, wrote [n] s (mkPersist st' oc (S (pcount s))) ∧ contains_digest st' d) as Hw.
  { intros oc. split; [|exists b; apply lookup_insert_eq]. split_and!; [done| |].
    - intros d' b' Hb'. cbn in Hb'. apply lookup_insert_Some in Hb' as [[<- <-]|[_ Hb']]; [right|by left].
      exists n. split; [by left|done].
    - cbn. rewrite map_size_insert_None by done. lia. }
  unfold persist_write. fold b d. destruct (pcache s) as [c|] eqn:Ec.
  - destruct Hc as [Hok Hf]. destruct (insert_ok c d (shallow n) (Z.of_nat (length b)) Hok) as (c' & -> & Hok' & _ & _ & Hnew & _); [lia|].
    eexists. split; [done|]. split; [|by apply Hw]. split; [done|]. split; [done|]. intros d' e He.
    destruct (Hnew d' e He) as [[-> ->]|(e0 & He0 & <-)].
    + exists b. split; [|done]. apply memory_reads, lookup_insert_eq.
    + by apply (Hcm (Some c)).
  - eexists. split; [done|]. split; [|by apply Hw]. by split.
Qed.

Definition persists (n : TNode) : Prop := ∀ s, good s →
  ∃ s', persist_node_recursive n s = Done s' ∧ good s' ∧ wrote (subnodes n) s s' ∧
    contains_digest (pstore s') (node_digest n).

Lemma persists_children (cs : list TNode) s : Forall persists cs → good s →
  ∃ s', fold_left (λ acc f, outcome_bind acc f) (persist_node_recursive <$> cs) (Done s) = Done s' ∧ good s' ∧
    wrote (concat (subnodes <$> cs)) s s' ∧ ∀ c, c ∈ cs → contains_digest (pstore s') (node_digest c).
Proof.
  intros HF. revert s. induction HF as [|c cs Hc HF IH]; intros s Hg; cbn [fmap list_fmap fold_left outcome_bind].
  { exists s. split_and!; [done..|apply wrote_refl|]. intros c Hin. by apply not_elem_of_nil in Hin. }
  destruct (Hc s Hg) as (s1 & He & Hg1 & Hw1 & Hd1). rewrite He. destruct (IH s1 Hg1) as (s2 & He2 & Hg2 & Hw2 & Hd2).
  exists s2. split_and!; [done..| |].
  - eapply wrote_trans; [exact Hw1|exact Hw2|..]; cbn; set_solver.
  - intros c' [->|Hin]%elem_of_cons; [by eapply wrote_contains|by apply Hd2].
Qed.

Lemma persist_node_spec p n : trie_ok h p n → node_wf wfK wfV n → (∀ n', n' ∈ subnodes n → readable n') →
  ¬ collision_among (preimages n) → persists n.
Proof.
  revert p. induction n as [l|c|pre bm cs IH|d] using TrieNode_rect'; intros p Hok Hw Hr Hcol s Hg.
  4: by inversion Hok.
  all: pose proof (trie_storable _ _ Hok Hw (Hr _ (subnodes_self _))) as Hst.
  all: cbn [persist_node_recursive]; destruct (persisted _ s) eqn:Hp;
    [exists s; split_and!; [done..|apply wrote_refl|by apply persisted_spec]|].
  all: pose proof (unpersisted _ _ Hg Hp) as Hnone.
  1-2: apply write_good; try done; intros c0 Hc0; by apply not_elem_of_nil in Hc0.
  assert (Forall persists cs) as HF.
  { rewrite Forall_forall in IH |- *. intros c Hc. pose proof (subnodes_child pre bm cs c Hc) as Hsub.
    destruct (subnode_ok wfK wfV h _ _ c Hok Hw) as (p' & Hok' & Hw'); [apply Hsub, subnodes_self|].
    apply (IH c Hc p'); [done|done|auto|]. intros (m1 & m2 & M1 & M2 & Hm). apply Hcol. exists m1, m2.
    pose proof (preimages_child c pre bm cs Hc). split_and!; auto. }
  destruct (persists_children cs s HF Hg) as (s1 & -> & Hg1 & Hw1 & Hcs). cbn [outcome_bind].
  destruct (write_good (Branch pre bm cs) s1) as (s2 & He & Hg2 & Hw2 & Hd2); [done..| |exact Hcs|].
  - destruct (nodes (pstore s1) !! node_digest (Branch pre bm cs)) as [b|] eqn:Eb; [|done].
    destruct Hw1 as (_ & Hnew & _). destruct (Hnew _ _ Eb) as [Hb|(n' & Hn & Hd & _)]; [congruence|].
    apply list_elem_of_In, in_concat in Hn as (l & Hl & Hn). apply list_elem_of_In in Hl, Hn.
    apply list_elem_of_fmap in Hl as (c & -> & Hc). by destruct (child_digest _ _ _ _ _ _ Hok Hw Hcol Hc Hn).
  - exists s2. split_and!; [done..| |done]. eapply wrote_trans; [exact Hw1|exact Hw2|..]; cbn; set_solver.
Qed.

(** The writes of a trie pass nothing off as its nodes. *)
Lemma preimage_shallow (n : TNode) : preimage (shallow n) = preimage n.
Proof.
  unfold preimage. f_equal. destruct n as [l|c|pre bm cs|d]; [done..| |done]. cbn [shallow node_payload].
  by rewrite <-list_fmap_compose.
Qed.

Lemma wrote_unforged p n s s' : trie_ok h p n → node_wf wfK wfV n → (∀ n', n' ∈ subnodes n → readable n') →
  ¬ collision_among (preimages n) → ¬ forged (pstore s) n → wrote (subnodes n) s s' → ¬ forged (pstore s') n.
Proof.
  intros Hok Hw Hr Hcol Hf (_ & Hnew & _) (d & b & m & n1 & Hb%memory_reads & Hm & Hn1 & Hc).
  destruct (Hnew d b Hb) as [Hold|(n' & Hn' & -> & ->)].
  - apply Hf. exists d, b, m, n1. split_and!; [by apply memory_reads|done..].
  - destruct (subnode_ok wfK wfV h _ _ _ Hok Hw Hn') as (p' & Hok' & Hw').
    destruct (subnode_ok wfK wfV h _ _ _ Hok Hw Hn1) as (p1 & Hok1 & _).
    pose proof (verified_encoding wfK wfV n' (trie_storable _ _ Hok' Hw' (Hr _ Hn'))) as Hv.
    assert (m = shallow n') as -> by congruence. rewrite preimage_shallow in Hc. apply Hcol.
    exists (preimage n'), (preimage n1). split_and!; [| |done].
    + apply (subnode_subnodes _ _ Hn'). by eapply preimage_in.
    + apply (subnode_subnodes _ _ Hn1). by eapply preimage_in.
Qed.
End persist.

(** C31: Persisting a trie makes it durable. From any sound store, and any cache read from
    it, the trie of a history is written without a panic: nothing stored is lost, the count
    returned is the number of nodes added, the store stays sound, and persisting again
    writes nothing. The trie reopened from the root digest then answers every lookup as the
    map the history leaves, through any cache, with no storage error. This holds of tries
    whose nodes the reader can read: every encoding shorter than 2^64 bytes, and no collision bucket
    of more than 65536 entries (a larger one is written, and then refused:
    [large_bucket_corrupted]); where the hash does not collide on the messages of the trie's
    nodes and of the empty trie; and in a store that holds, for no node of the trie, another
    verifying message of the same digest. *)
Theorem persist_reopens `{Blake3Laws} {K V} `{Countable K} `{OrdLaws K} `{CanonAppends K} `{CanonAppends V}
    `{CanonDecode K} `{CanonDecode V} (wfK : K → Prop) (wfV : V → Prop)
    `{!CanonCodec K wfK} `{!CanonCodec V wfV}
    `{!PrefixFree wfK (canon_bytes (A := K))} `{!PrefixFree wfV (canon_bytes (A := V))}
    (store : MemoryNodeStore) (h : KeyHasher K) (os : list (map_op K V)) (m : TrieMap K V)
    (cache : option (DecodedNodeCache (TrieNode K V)))
    (h_ok : hasher_ok h) (Hm : trie_run h os = Some m) (Hwf : map_wf wfK wfV (model_run ∅ os))
    (Hread : ∀ n, n ∈ map_subnodes m → readable n)
    (Hcol : ¬ collision_among (domain_message Value (bytes_of_string "brix:trie:empty:v1") :: root_preimages m))
    (Hsound : sound (K := K) (V := V) store) (Hcache : cache_from store cache)
    (Huntampered : untampered store m) :
  ∃ s, persist_to_store m store cache = Done s ∧
    nodes store ⊆ nodes (pstore s) ∧ memory_len (pstore s) = memory_len store + pcount s ∧
    sound (K := K) (V := V) (pstore s) ∧ cache_from (pstore s) (pcache s) ∧
    persist_to_store m (pstore s) (pcache s) = Done (mkPersist (pstore s) (pcache s) 0) ∧
    ∀ k cache', cache_from (pstore s) cache' → ∃ cache'',
      get_with_store (from_root_digest h (root_digest m) (len m)) k (pstore s) cache' =
        Done (Ok (model_run (∅ : gmap K V) os !! k), cache'').
Proof.
  apply (trie_run_valid h h_ok) in Hm as [Hv Hmod]. rewrite <-Hmod in Hwf |- *.
  assert (∃ s, persist_to_store m store cache = Done s ∧ good s ∧ wrote (map_subnodes m) (mkPersist store cache 0) s ∧
    untampered (pstore s) m ∧ from_option (λ n, contains_digest (pstore s) (node_digest n)) True (root m))
    as (s & Hp & Hgood & Hw & Hu & Hc).
  { unfold persist_to_store, untampered, map_subnodes, root_preimages in *. pose proof (root_wf wfK wfV h h_ok m) as Hrw.
    pose proof Hv as (_ & _ & Hok). destruct (root m) as [n|]; [|by eexists; split_and!; [..|apply wrote_refl|done|done]].
    destruct Huntampered as [Hf Hne]. cbn [from_option] in *.
    assert (¬ collision_among (preimages n)) as Hcn.
    { intros (m1 & m2 & M1 & M2 & Hm). apply Hcol. exists m1, m2. split_and!; [by right..|done]. }
    destruct (persist_node_spec wfK wfV h h_ok [] n) with (s := mkPersist store cache 0) as (s & -> & Hg & Hw & Hd); try done.
    { by apply Hrw. }
    exists s. split_and!; [done|done|done| |exact Hne|done]. eapply (wrote_unforged wfK wfV h h_ok [] n (mkPersist store cache 0)); try done. by apply Hrw. }
  destruct Hgood as [Hs Hcf]. exists s. pose proof Hw as (Hi & _ & Hsize). cbn in Hi, Hsize.
  split_and!; [done..|unfold memory_len; lia|done|done| |].
  - unfold persist_to_store. destruct (root m) as [n|]; [|done]. cbn in Hc.
    assert (persisted (node_digest n) (mkPersist (pstore s) (pcache s) 0) = true) as Hper
      by (apply persisted_spec; [by split|exact Hc]).
    destruct n; cbn [persist_node_recursive]; [by rewrite Hper..|done].
  - intros k cache' Hc'. pose proof (sound_store_ok _ Hs) as Hst.
    assert (complete (pstore s) m) as Hcomp.
    { intros n' Hn'. unfold map_subnodes, untampered in *. pose proof (root_wf wfK wfV h h_ok m) as Hrw.
      pose proof Hv as (_ & _ & Hok). destruct (root m) as [n|]; [|by apply not_elem_of_nil in Hn'].
      eapply (sound_holds wfK wfV h h_ok (pstore s) [] n); [done|done|by apply Hrw|apply Hu|done|done]. }
    pose proof (reopened_stands wfK wfV h h_ok (pstore s) False m Hv Hwf Hu (or_intror Hcomp)) as Hstands.
    destruct (get_with_stats_spec h h_ok m k Hv) as (st & Hg & _).
    destruct (get_with_store_runs wfK wfV (pstore s) Hst False _ _ _ _ _ Hstands (valid_shaped h m Hv) Hg cache' Hc')
      as ([v|e] & c'' & He & _ & Hr); [|done]. exists c''. by subst.
Qed.

#[local] Existing Instance demo_hash.

Lemma persist_reopens_witness :
  ∃ s c, persist_to_store one_map memory_new None = Done s ∧
    get_with_store (from_root_digest byte_hasher (root_digest one_map) 1) 1%Z (pstore s) None = Done (Ok (Some 1%Z), c).
Proof.
  destruct (@persist_reopens demo_hash demo_hash_laws Z Z _ _ _ _ _ _ _ _ _ _ u64_ok u64_ok _ _ _ _ memory_new byte_hasher
    [Put 1%Z 1%Z] one_map None byte_hasher_ok) as (s & Hp & _ & _ & _ & _ & _ & Hget).
  - reflexivity.
  - apply map_wf_of_list; [vm_compute; reflexivity|apply (bool_decide_unpack _); vm_compute; exact I].
  - intros n ->%list_elem_of_singleton. split; [vm_compute; reflexivity|exact I].
  - intros (m1 & m2 & M1 & M2 & Hne & He).
    apply elem_of_cons in M1 as [->|M1%list_elem_of_singleton], M2 as [->|M2%list_elem_of_singleton]; subst.
    + by apply Hne.
    + vm_compute in He. discriminate He.
    + vm_compute in He. discriminate He.
    + by apply Hne.
  - apply sound_empty.
  - exact I.
  - split.
    + intros (d & b & x & n' & Hb%memory_reads & _). cbn in Hb. by apply lookup_empty_Some in Hb.
    + intros [_ Hc]. vm_compute in Hc. discriminate Hc.
  - destruct (Hget 1%Z None I) as (c & Hc). exists s, c. split; [exact Hp|]. exact Hc.
Defined.

(** * Where the code falls short of its documentation *)

(** A stub stored under the digest it names verifies, so a lookup that reads it panics
    where a corrupted node is to be reported. *)
Lemma stub_panics `{Blake3Laws} {K V} `{EqDecision K} `{OrdLaws K} `{CanonAppends K} `{CanonAppends V}
    `{CanonDecode K} `{CanonDecode V} (wfK : K → Prop) (wfV : V → Prop)
    `{!CanonCodec K wfK} `{!CanonCodec V wfV} (h : KeyHasher K) (d : Digest) (k : K) :
  digest_ok d → d ≠ empty_digest →
  get_with_store (V := V) (from_root_digest h d 1) k
    (mkMemoryStore {[d := encode_node (K := K) (V := V) (Lazy d)]}) None = Panicked.
Proof.
  intros Hd Hne. unfold get_with_store, from_root_digest. cbn [root]. rewrite decide_False by done.
  unfold STORE_FUEL. cbn [get_store_loop]. unfold mbind at 1, SM_bind at 1, resolve_node, resolve_node_mode, load_node.
  unfold mbind, SM_bind, SM_res. cbn [get_node NodeStore_Memory nodes]. rewrite lookup_singleton_eq. cbn [ok_or].
  by rewrite (stub_verifies wfK wfV d Hd).
Qed.

(** A bucket of more than 65536 entries is written as any other, but not decoded. *)
Lemma large_bucket_unreadable `{Blake3Laws} {K V} `{EqDecision K} `{OrdLaws K} `{CanonAppends K} `{CanonAppends V}
    `{CanonDecode K} `{CanonDecode V} (wfK : K → Prop) (wfV : V → Prop)
    `{!CanonCodec K wfK} `{!CanonCodec V wfV} (c : CollisionNode K V) (n : TrieNode K V) :
  array32_ok (coll_hash c) → Forall (entry_wf wfK wfV) (coll_entries c) → len_ok (encode_node (Collision c)) →
  (65536 < Z.of_nat (length (coll_entries c)) < 2^64)%Z → decode_node (encode_node (Collision c)) ≠ Ok n.
Proof.
  intros Hh He Hlen Hc Hd.
  assert (are_bytes (encode_node (Collision c))) as Hb.
  { rewrite encode_collision. apply Forall_app. split; [apply uint_bytes; int_lia|]. apply Forall_app. split; [by apply array32_frame|].
    apply Forall_app. split; [apply uint_bytes; unfold u64_ok; lia|]. eapply concat_are_bytes; [|exact He]. intros e. by apply (entry_are_bytes wfK wfV). }
  apply (decode_node_exact wfK wfV _ _ Hb Hlen) in Hd. rewrite encode_collision in Hd.
  destruct Hd as [(h & k & v & -> & _ & _ & _ & Eq)|[(h & es & -> & Hh' & Hes & Hl & Eq)|[(pre & wide & ds & -> & _ & _ & _ & _ & _ & _ & Eq)|(h & -> & _ & Eq)]]];
    apply prefix_free_uint64 in Eq as [Etag Eq]; try int_lia.
  apply prefix_free_frame in Eq as [_ Eq]; [|by apply array32_len..].
  apply prefix_free_uint64 in Eq as [Ecount _]; [|unfold u64_ok; lia..]. lia.
Qed.

(** A trie of one such bucket is persisted, and every lookup of the reopened trie reports a
    corrupted node. *)
Lemma large_bucket_corrupted `{Blake3Laws} {K V} `{EqDecision K} `{OrdLaws K} `{CanonAppends K} `{CanonAppends V}
    `{CanonDecode K} `{CanonDecode V} (wfK : K → Prop) (wfV : V → Prop)
    `{!CanonCodec K wfK} `{!CanonCodec V wfV} (h : KeyHasher K) (c : CollisionNode K V) (l : nat) (k : K) :
  let m := mkTrie (Some (Collision c)) l h in
  array32_ok (coll_hash c) → Forall (entry_wf wfK wfV) (coll_entries c) → len_ok (encode_node (Collision c)) →
  (65536 < Z.of_nat (length (coll_entries c)) < 2^64)%Z → root_digest m ≠ empty_digest →
  ∃ s, persist_to_store m memory_new None = Done s ∧
    get_with_store (V := V) (from_root_digest h (root_digest m) l) k (pstore s) None = Done (Err (CorruptedNode (root_digest m)), None).
Proof.
  intros m Hh He Hlen Hc Hne. eexists. split; [reflexivity|]. unfold get_with_store, from_root_digest. cbn [root]. rewrite decide_False by done.
  unfold STORE_FUEL. cbn [get_store_loop]. unfold mbind at 1, SM_bind at 1, resolve_node, resolve_node_mode, load_node.
  unfold mbind, SM_bind, SM_res. cbn [get_node put_new_node NodeStore_Memory nodes memory_new pstore root_digest root m]. rewrite lookup_insert_eq. cbn [ok_or].
  assert (∃ e, decode_node_verified (encode_node (Collision c)) (node_digest (Collision c)) = Err e) as [e ->]; [|done].
  unfold decode_node_verified. destruct (decode_node (encode_node (Collision c))) as [n|e] eqn:E; [|by exists e].
  by apply (large_bucket_unreadable wfK wfV c n) in E.
Qed.

(** The last 32 bytes of a message: it tells the nodes of a small trie apart. *)
Definition tail_hash : Blake3 := λ m, drop (length m) (replicate 32 0%Z ++ m).

(** The keys 1, 17 and 18 share 62 nibbles; 17 and 18 share one more. *)
Definition drop_ops : list (map_op Z Z) := [Put 1%Z 1%Z; Put 17%Z 2%Z; Put 18%Z 3%Z].

(** The branch over 17 and 18 by digest, as a store-aware insertion leaves it. *)
Definition unload_last (m : TrieMap Z Z) : TrieMap Z Z :=
  match root m with
  | Some (Branch pre bm [a; b]) => mkTrie (Some (Branch pre bm [a; Lazy (@node_digest tail_hash Z Z _ _ b)])) (len m) (hasher m)
  | _ => m
  end.

(** The plain removal of 1 contracts the root onto the unloaded branch without merging its
    prefix, and the map loses the key 17 although the store holds every node. *)
Lemma plain_remove_drops_prefix :
  match trie_run byte_hasher drop_ops with
  | Some m =>
    (m' ← trie_remove m 1%Z; trie_get m' 17%Z) = Some (Some 2%Z) ∧
    match @persist_to_store tail_hash Z Z _ _ _ _ m memory_new None, trie_remove (unload_last m) 1%Z with
    | Done s, Some t' =>
      @get_with_store tail_hash Z Z _ _ _ _ _ _ _ _ t' 17%Z (pstore s) None = Done (Ok None, None)
    | _, _ => False
    end
  | None => False
  end.
Proof. vm_compute. split; reflexivity. Qed.
