(* ===== verification/TriePage.v ===== *)
(** Pages of a trie (src/crates/soc-core/src/store.rs, [iter_page_with_store]).

    A page is what a reference definition on lists says it is: the first entries after the
    cursor in the order of hashes and keys. The recursive reader, with its cursor pushed down
    the branches and its cached or missing nodes, computes it. *)
From S2P Require Import Prelude IntCodec Canon CanonLaws Witness Encoding Parsing Trie TrieLaws.
From S2P Require Import DecodedCache TrieMap TrieStore NodeCodec TrieLazy.

(** * The order of a page and the paths of a trie *)

Definition cursor_ok {K} (cursor : option (bytes * K)) : Prop :=
  match cursor with Some (hash, _) => length hash = 32 ∧ are_bytes hash | None => True end.

Section page.
Context `{Blake3Laws} {K V : Type} `{EqDecision K} `{OrdLaws K} `{CanonAppends K} `{CanonAppends V}.
Context `{CanonDecode K} `{CanonDecode V} (wfK : K → Prop) (wfV : V → Prop).
Context `{!CanonCodec K wfK} `{!CanonCodec V wfV}.
Context `{!PrefixFree wfK (canon_bytes (A := K))} `{!PrefixFree wfV (canon_bytes (A := V))}.
Context (h : KeyHasher K) (h_ok : hasher_ok h).
Abbreviation TNode := (TrieNode K V).
Implicit Types (cursor : option (bytes * K)) (e : K * V) (p q : list Z).

(** The entry is after the cursor. *)
Definition after cursor e : bool := negb (before cursor (h e.1) e.1).

Definition rest cursor (l : list (K * V)) : list (K * V) := filter (λ e, after cursor e = true) l.

(** The reference: what reading a list after the cursor adds to a page. *)
Definition page_spec (limit : nat) cursor (out l : list (K * V)) : list (K * V) * bool :=
  let all := out ++ rest cursor l in (take limit all, bool_decide (limit ≤ length all)).

(** The path of the cursor's hash. *)
Definition under q cursor : Prop :=
  match cursor with Some (hash, _) => q `prefix_of` nibs hash | None => True end.

Lemma under_nil cursor : under [] cursor.
Proof. destruct cursor as [[hash key]|]; [apply prefix_nil|done]. Qed.

Lemma rest_none l : rest None l = l.
Proof. apply filter_all. by intros. Qed.

Lemma rest_app cursor l1 l2 : rest cursor (l1 ++ l2) = rest cursor l1 ++ rest cursor l2.
Proof. apply filter_app. Qed.

Lemma page_spec_nil limit cursor out l : length out < limit → rest cursor l = [] →
  page_spec limit cursor out l = (out, false).
Proof.
  intros Hl Hr. unfold page_spec. rewrite Hr, app_nil_r. rewrite take_ge by lia. f_equal. apply bool_decide_eq_false_2. lia.
Qed.

(** Reading one list and then another. *)
Lemma page_spec_app limit cursor out l1 l2 :
  page_spec limit cursor out (l1 ++ l2) =
  (let '(out', full) := page_spec limit cursor out l1 in
   if full then (out', true) else page_spec limit cursor out' l2).
Proof.
  unfold page_spec. rewrite rest_app, app_assoc. generalize (out ++ rest cursor l1). intros l.
  destruct (decide (limit ≤ length l)) as [Hf|Hf].
  - rewrite (bool_decide_eq_true_2 (limit ≤ length l)) by done. rewrite take_app_le by lia. f_equal.
    apply bool_decide_eq_true_2. rewrite length_app. lia.
  - rewrite (bool_decide_eq_false_2 (limit ≤ length l)) by done. by rewrite (take_ge l) by lia.
Qed.

Lemma page_spec_ext limit c1 c2 out l : rest c1 l = rest c2 l → page_spec limit c1 out l = page_spec limit c2 out l.
Proof. unfold page_spec. by intros ->. Qed.

(** A branch of the paths decides the order. *)
Lemma before_lt q x y (hash : bytes) (key k : K) : length hash = 32 ∧ are_bytes hash →
  (q ++ [x]) `prefix_of` path h k → (q ++ [y]) `prefix_of` nibs hash → (x < y)%Z →
  before (Some (hash, key)) (h k) k = true.
Proof.
  intros [_ Hb] Hx Hy Hlt. unfold before. pose proof (lex_lt_branch _ _ _ _ _ Hx Hy Hlt) as Hc.
  unfold path in Hc. rewrite nibs_compare in Hc by (done || apply h_ok). unfold cmp, Ord_list. by rewrite Hc.
Qed.

Lemma before_gt q x y (hash : bytes) (key k : K) : length hash = 32 ∧ are_bytes hash →
  (q ++ [x]) `prefix_of` path h k → (q ++ [y]) `prefix_of` nibs hash → (y < x)%Z →
  before (Some (hash, key)) (h k) k = false.
Proof.
  intros [_ Hb] Hx Hy Hlt. unfold before. pose proof (lex_lt_branch _ _ _ _ _ Hy Hx Hlt) as Hc.
  unfold path in Hc. rewrite nibs_compare in Hc by (done || apply h_ok).
  assert (cmp (h k) hash = Gt) as ->; [|done]. apply cmp_gt_lt. exact Hc.
Qed.

Lemma rest_before q x y hash key l : length hash = 32 ∧ are_bytes hash →
  (∀ e, e ∈ l → (q ++ [x]) `prefix_of` path h e.1) → (q ++ [y]) `prefix_of` nibs hash → (x < y)%Z →
  rest (Some (hash, key)) l = [].
Proof.
  intros Hh Hl Hy Hlt. apply filter_none. intros e He. unfold after. by rewrite (before_lt q x y) by auto.
Qed.

Lemma rest_after q x y hash key l : length hash = 32 ∧ are_bytes hash →
  (∀ e, e ∈ l → (q ++ [x]) `prefix_of` path h e.1) → (q ++ [y]) `prefix_of` nibs hash → (y < x)%Z →
  rest (Some (hash, key)) l = l.
Proof.
  intros Hh Hl Hy Hlt. apply filter_all. intros e He. unfold after. by rewrite (before_gt q x y) by auto.
Qed.
Lemma page_prefix_spec hash d pre : length hash = 32 → d + length pre ≤ 64 →
  ∃ o, page_prefix hash d pre = Some o ∧
    match o with
    | Eq => pre `prefix_of` drop d (nibs hash)
    | _ => ∃ pre1 x pre2 y, pre = pre1 ++ x :: pre2 ∧ (pre1 ++ [y]) `prefix_of` drop d (nibs hash) ∧ cmp x y = o
    end.
Proof.
  intros Hh. revert d. induction pre as [|x pre IH]; intros d Hd; cbn [page_prefix].
  { exists Eq. split; [done|]. apply prefix_nil. }
  rewrite get_nibble_nibs. destruct (nibs hash !! d) as [y|] eqn:Ey.
  2: { apply lookup_ge_None in Ey. rewrite length_nibs, Hh in Ey. cbn in Hd. lia. }
  cbn [mbind option_bind]. rewrite (drop_S _ _ _ Ey). destruct (cmp x y) eqn:Exy.
  - apply cmp_eq in Exy as ->. destruct (IH (S d)) as (o & -> & Ho); [cbn in Hd; lia|]. exists o. split; [done|].
    assert (∀ pre1 x pre2 y', pre = pre1 ++ x :: pre2 → (pre1 ++ [y']) `prefix_of` drop (S d) (nibs hash) → cmp x y' = o →
      ∃ pre1 x pre2 y', y :: pre = pre1 ++ x :: pre2 ∧ (pre1 ++ [y']) `prefix_of` y :: drop (S d) (nibs hash) ∧ cmp x y' = o) as Hcons.
    { intros pre1 x pre2 y' -> Hp Hc. exists (y :: pre1), x, pre2, y'. split_and!; [done| |done]. by apply prefix_cons. }
    destruct o; [by apply prefix_cons|destruct Ho as (? & ? & ? & ? & ? & ? & ?); eauto..].
  - exists Lt. split; [done|]. exists [], x, pre, y. split_and!; [done| |done]. by apply prefix_cons, prefix_nil.
  - exists Gt. split; [done|]. exists [], x, pre, y. split_and!; [done| |done]. by apply prefix_cons, prefix_nil.
Qed.

Lemma page_bucket_spec cursor limit hash es out : (∀ e, e ∈ es → h e.1 = hash) → length out < limit →
  page_bucket cursor limit hash es out = page_spec limit cursor out es.
Proof.
  revert out. induction es as [|e es IH]; intros out Hh Hl; cbn [page_bucket].
  { by rewrite page_spec_nil. }
  change (e :: es) with ([e] ++ es). rewrite page_spec_app. rewrite <-(Hh e) by by left.
  assert (∀ e, e ∈ es → h e.1 = hash) as Hes by (intros; apply Hh; by right).
  assert (h e.1 = hash) as He by (apply Hh; by left). rewrite He in *.
  unfold page_spec at 1, rest. rewrite filter_cons, filter_nil. unfold after. rewrite He.
  destruct (before cursor hash e.1); cbn [negb].
  - rewrite decide_False by done. rewrite app_nil_r, take_ge by lia. rewrite bool_decide_eq_false_2 by lia. by apply IH.
  - rewrite (decide_True (P := true = true)) by done. assert (length (out ++ [e]) = S (length out)) as Hlen by (rewrite length_app; cbn; lia).
    rewrite take_ge by lia. case_decide.
    + by rewrite bool_decide_eq_true_2.
    + rewrite bool_decide_eq_false_2 by done. apply IH; [done|lia].
Qed.

Lemma prefix_of_snoc q l y : q `prefix_of` l → l !! length q = Some y → (q ++ [y]) `prefix_of` l.
Proof.
  intros [r ->] Hy. rewrite lookup_app_r, Nat.sub_diag in Hy by lia. destruct r as [|z r]; simplify_eq/=.
  exists r. by rewrite <-app_assoc.
Qed.

(** The cursor passed to a child reads the child's entries as the whole cursor does. *)
Lemma child_cursor_spec cursor q x l : cursor_ok cursor → under q cursor → length q < 64 →
  (∀ e, e ∈ l → (q ++ [x]) `prefix_of` path h e.1) →
  ∃ o, child_cursor cursor (length q) x = Some o ∧
    match o with
    | None => rest cursor l = []
    | Some c => rest c l = rest cursor l ∧ cursor_ok c ∧ under (q ++ [x]) c
    end.
Proof.
  intros Hc Hu Hq Hl. destruct cursor as [[hash key]|]; cbn [child_cursor]; [|by eexists].
  destruct (lookup_lt_is_Some_2 (nibs hash) (length q)) as [y Ey].
  { rewrite length_nibs. destruct Hc as [-> _]. lia. }
  pose proof (prefix_of_snoc q _ y Hu Ey) as Hy. rewrite get_nibble_nibs, Ey. cbn [mbind option_bind].
  destruct (cmp x y) eqn:Exy; (eexists; split; [reflexivity|cbv beta iota]).
  - apply cmp_eq in Exy as ->. done.
  - apply Z.compare_lt_iff in Exy. by apply (rest_before q x y).
  - apply Z.compare_gt_iff in Exy. rewrite rest_none. split; [|done]. symmetry. by apply (rest_after q x y).
Qed.

Lemma under_app p pre hash : p `prefix_of` nibs hash → pre `prefix_of` drop (length p) (nibs hash) →
  (p ++ pre) `prefix_of` nibs hash.
Proof. intros [r ->]. rewrite drop_app_length. intros [r' ->]. exists r'. by rewrite app_assoc. Qed.

Lemma under_snoc p pre y hash : p `prefix_of` nibs hash → (pre ++ [y]) `prefix_of` drop (length p) (nibs hash) →
  ((p ++ pre) ++ [y]) `prefix_of` nibs hash.
Proof. rewrite <-app_assoc. apply under_app. Qed.

Lemma prefix_mid p pre1 x pre2 : ((p ++ pre1) ++ [x]) `prefix_of` p ++ pre1 ++ x :: pre2.
Proof. exists pre2. by rewrite <-!app_assoc. Qed.

(** The entries of a branch are under its path. *)
Lemma branch_entries q bm cs : Forall2 (λ n c, trie_ok h (q ++ [n]) c) (slots bm) cs →
  ∀ e, e ∈ concat (entries <$> cs) → q `prefix_of` path h e.1.
Proof.
  intros HF%(trie_ok_forall_entries h h_ok) e He. destruct (entries_concat h h_ok _ _ _ (slots_sorted bm) HF) as [Hin _].
  destruct (Hin e He) as (m & _ & Hm). etrans; [|exact Hm]. by apply prefix_app_r.
Qed.

Lemma seqZ_nibbles : Forall nibble_ok (seqZ 0 16).
Proof. apply Forall_forall. intros n Hn%elem_of_seqZ. unfold nibble_ok. lia. Qed.

(** A page that is not full. *)
Lemma page_spec_room limit cursor out l out' : page_spec limit cursor out l = (out', false) → length out' < limit.
Proof.
  unfold page_spec. intros [= <- Hf]. apply bool_decide_eq_false_1 in Hf. rewrite length_take. lia.
Qed.

(** * The reader *)

Context {St : Type} `{NodeStore St} (store : St) (Hstore : store_ok (K := K) (V := V) store).
Abbreviation stands_for fail := (denotes wfK wfV store fail).

Lemma children_runs fail limit q bm ns ts cs cursor out
    (page : option (bytes * K) → TNode → list (K * V) → SM K V (list (K * V) * bool)) :
  (∀ x c t cursor out, trie_ok h (q ++ [x]) c → stands_for fail t c → cursor_ok cursor → under (q ++ [x]) cursor →
     length out < limit → runs store fail (eq (page_spec limit cursor out (entries c))) (page cursor t out)) →
  Forall nibble_ok ns → length q < 64 →
  Forall2 (λ x c, trie_ok h (q ++ [x]) c) (filter (λ n, Z.testbit bm n = true) ns) cs →
  Forall2 (stands_for fail) ts cs → cursor_ok cursor → under q cursor → length out < limit →
  runs store fail (eq (page_spec limit cursor out (concat (entries <$> cs)))) (page_children page cursor (length q) bm ns ts out).
Proof.
  intros Hpage. revert ts cs out. induction ns as [|x ns IH]; intros ts cs out Hns Hq HF Ht Hc Hu Hl; cbn [page_children].
  { inversion HF; subst. apply sm_ret_runs. by rewrite page_spec_nil. }
  apply Forall_cons in Hns as [Hx Hns]. rewrite filter_cons in HF.
  destruct (decide (Z.land bm (bit x) = 0%Z)) as [Hz|Hz].
  { rewrite decide_False in HF by (rewrite (land_bit_zero bm x Hx) in Hz; by rewrite Hz). by apply IH. }
  rewrite decide_True in HF by (rewrite (land_bit_zero bm x Hx) in Hz; by destruct (Z.testbit bm x)).
  inversion HF as [|? c ? cs' Hxc HF']; subst. inversion Ht as [|t ? ts' ? Htc Ht']; subst. cbn [fmap list_fmap concat].
  destruct (child_cursor_spec cursor q x (entries c) Hc Hu Hq) as (o & Ho & Hspec).
  { intros e He. by apply (trie_ok_entries h h_ok) in Hxc as [? _]; auto. }
  eapply runs_opt_bind; [exact Ho|]. rewrite page_spec_app. destruct o as [c'|].
  - destruct Hspec as (He & Hc' & Hu'). rewrite <-(page_spec_ext limit c' cursor out (entries c) He).
    eapply sm_bind_runs; [by apply (Hpage x c)|]. intros [out' full] Ep. rewrite Ep.
    destruct full; [by apply sm_ret_runs|]. apply IH; try done. by eapply page_spec_room.
  - rewrite page_spec_nil by done. by apply IH.
Qed.

Lemma page_runs fail limit fuel cursor p n t out : trie_ok h p n → stands_for fail t n → cursor_ok cursor →
  under p cursor → length out < limit → 64 < fuel + length p → length p ≤ 64 →
  runs store fail (eq (page_spec limit cursor out (entries n))) (iter_page_recursive store limit fuel (length p) cursor t out).
Proof.
  revert cursor p n t out. induction fuel as [|fuel IH]; intros cursor p n t out Hn Ht Hc Hu Hl Hf Hp; [lia|].
  cbn [iter_page_recursive]. pose proof (trie_shaped h p n Hn) as Hsh.
  eapply (sm_bind_runs store); [eapply (resolve_runs wfK wfV); [exact Hstore|by eapply shaped_not_lazy|exact Ht]|]. intros m Hm.
  destruct Hm as [l|c|pre bm ts cs HF].
  - inversion Hn; subst. cbn [entries leaf_key leaf_value leaf_hash].
    rewrite <-(page_bucket_spec cursor limit (h k)) by (done || by intros e ->%list_elem_of_singleton).
    cbn [page_bucket fst]. destruct (before cursor (h k) k); [by apply sm_ret_runs|].
    apply sm_ret_runs. case_decide; [by rewrite bool_decide_eq_true_2|by rewrite bool_decide_eq_false_2].
  - apply sm_ret_runs. inversion Hn; subst. cbn. by rewrite page_bucket_spec.
  - inversion Hn as [| |? ? ? ? Hd Hb Hlen HFn]; subst.
    pose proof (branch_entries _ _ _ HFn) as Hbr. change (concat (entries <$> cs)) with (entries (Branch pre bm cs)) in Hbr.
    assert (∀ c, rest c (entries (Branch pre bm cs)) = rest cursor (entries (Branch pre bm cs)) → cursor_ok c → under (p ++ pre) c →
      runs store fail (eq (page_spec limit cursor out (entries (Branch pre bm cs))))
        (page_children (iter_page_recursive store limit fuel (S (length p + length pre))) c (length p + length pre) bm (seqZ 0 16) ts out)) as Hgo.
    { intros c He Hc' Hu'. rewrite <-(page_spec_ext limit c cursor out _ He), <-length_app.
      apply children_runs; [|apply seqZ_nibbles|rewrite length_app; lia|exact HFn|done..].
      intros x c1 t1 cu out1 Hx Ht1 Hcu Hux Ho1. rewrite <-(Nat.add_1_r (length (p ++ pre))). 
      replace (length (p ++ pre) + 1) with (length ((p ++ pre) ++ [x])) by (rewrite length_app; done).
      apply IH; try done; rewrite !length_app; cbn; lia. }
    destruct cursor as [[hash key]|]; [|by eapply runs_opt_bind; [reflexivity|apply Hgo]].
    destruct (page_prefix_spec hash (length p) pre) as (o & Ho & Hspec); [apply Hc|lia|].
    eapply runs_opt_bind; [exact Ho|]. destruct o.
    + apply Hgo; [done..|]. by apply under_app.
    + destruct Hspec as (pre1 & x & pre2 & y & -> & Hy & Hxy). apply Z.compare_lt_iff in Hxy.
      rewrite page_spec_nil; [by apply sm_ret_runs|done|]. apply (rest_before (p ++ pre1) x y); [done| |by apply under_snoc|done].
      intros e He. etrans; [|by apply Hbr]. apply prefix_mid.
    + destruct Hspec as (pre1 & x & pre2 & y & -> & Hy & Hxy). apply Z.compare_gt_iff in Hxy.
      apply Hgo; [|done..]. rewrite rest_none. symmetry. apply (rest_after (p ++ pre1) x y); [done| |by apply under_snoc|done].
      intros e He. etrans; [|by apply Hbr]. apply prefix_mid.
Qed.
End page.

(** * Following a cursor *)

Lemma sorted_filter {A B} `{Ord B} (f : A → B) (P : A → Prop) `{∀ x, Decision (P x)} l :
  strictly_sorted (f <$> l) → strictly_sorted (f <$> filter P l).
Proof.
  induction l as [|x l IH]; [done|]. rewrite fmap_cons. intros [Hl Hx]%StronglySorted_inv.
  rewrite filter_cons. case_decide; [|by apply IH]. rewrite fmap_cons. constructor; [by apply IH|].
  rewrite Forall_fmap, Forall_forall in *. intros y [_ Hy]%list_elem_of_filter. by apply Hx.
Qed.

Section follow.
Context {K V : Type} `{EqDecision K} `{OrdLaws K} (h : KeyHasher K) (h_ok : hasher_ok h).
Implicit Types (e : K * V) (l : list (K * V)).

(** The cursor of an entry. *)
Definition cursor_of e : bytes * K := (h e.1, e.1).

Lemma after_lt hash key e : are_bytes hash →
  after h (Some (hash, key)) e = true ↔ lt_of (nibs hash, key) (okey h e).
Proof.
  intros Hb. unfold after, before, lt_of, okey, path, cmp at 3, Ord_pair, pair_compare. cbn [fst snd].
  change (cmp (nibs hash) (nibs (h e.1))) with (lex_compare (nibs hash) (nibs (h e.1))).
  rewrite nibs_compare by (done || apply h_ok). change (lex_compare hash (h e.1)) with (cmp hash (h e.1)).
  rewrite (cmp_antisym hash (h e.1)), (cmp_antisym key e.1). by destruct (cmp hash (h e.1)), (cmp key e.1).
Qed.

Lemma after_mono cursor e1 e2 : cursor_ok cursor →
  after h cursor e1 = true → lt_of (okey h e1) (okey h e2) → after h cursor e2 = true.
Proof.
  destruct cursor as [[hash key]|]; [|done]. intros [_ Hb]. rewrite !after_lt by done. by apply cmp_lt_trans.
Qed.

(** What is after an entry that is after the cursor, in a sorted list. *)
Lemma rest_cursor_of cursor l l1 e l2 : cursor_ok cursor → strictly_sorted (okey h <$> l) →
  rest h cursor l = l1 ++ e :: l2 → rest h (Some (cursor_of e)) l = l2.
Proof.
  intros Hc Hs Hr. assert (∀ e', after h (Some (cursor_of e)) e' = true ↔ lt_of (okey h e) (okey h e')) as Ha.
  { intros e'. unfold cursor_of. rewrite after_lt by apply h_ok. done. }
  assert (after h cursor e = true) as He.
  { assert (e ∈ rest h cursor l) as Hin by (rewrite Hr; set_solver). by apply list_elem_of_filter in Hin as [? _]. }
  assert (rest h (Some (cursor_of e)) l = rest h (Some (cursor_of e)) (rest h cursor l)) as ->.
  { unfold rest. rewrite list_filter_filter_l; [done|]. intros e' He'. eapply after_mono; [done..|]. by apply Ha. }
  assert (strictly_sorted (okey h <$> rest h cursor l)) as Hsr by by apply sorted_filter.
  rewrite Hr in *. rewrite fmap_app, fmap_cons in Hsr. apply StronglySorted_app in Hsr as (Hlt & _ & Hs2).
  apply StronglySorted_inv in Hs2 as [_ Hs2]. rewrite Forall_fmap, Forall_forall in Hs2.
  rewrite rest_app. unfold rest at 1. rewrite filter_none.
  - unfold rest. rewrite filter_cons, decide_False, filter_all; [done| |].
    + intros e' He'. by apply Ha, Hs2.
    + rewrite Ha. apply cmp_lt_irrefl.
  - intros e' He' Haf. apply Ha in Haf. apply (cmp_lt_irrefl (okey h e)). eapply cmp_lt_trans; [exact Haf|].
    apply Hlt; [by apply list_elem_of_fmap_2|by left].
Qed.
End follow.

(** What a page answers: the first [limit] entries after the cursor, and the cursor of the
    last of them when others follow. *)
Definition page_answer {K V} `{Ord K} (h : KeyHasher K) (limit : nat) (cursor : option (bytes * K)) (l : list (K * V))
    (page : list (K * V)) (next : option (bytes * K)) : Prop :=
  page = take limit (rest h cursor l) ∧
  match next with
  | None => limit = 0 ∨ drop limit (rest h cursor l) = []
  | Some c => cursor_ok (Some c) ∧ cursor_of h <$> last page = Some c ∧
      drop limit (rest h cursor l) ≠ [] ∧ rest h (Some c) l = drop limit (rest h cursor l)
  end.

(** The page cut from what the reader collected, one entry past the limit. *)
Lemma page_cut {K V} `{EqDecision K} `{OrdLaws K} (h : KeyHasher K) (h_ok : hasher_ok h) limit cursor (l : list (K * V)) :
  0 < limit → cursor_ok cursor → strictly_sorted (okey h <$> l) →
  let out := take (S limit) (rest h cursor l) in
  if decide (limit < length out)
  then let page := take (pred (length out)) out in
       page_answer h limit cursor l page (cursor_of h <$> last page)
  else page_answer h limit cursor l out None.
Proof.
  intros Hl Hc Hs out. assert (length out = S limit `min` length (rest h cursor l)) as Hlen by apply length_take.
  case_decide as Hd.
  - assert (take (pred (length out)) out = take limit (rest h cursor l)) as ->.
    { assert (length out = S limit) as -> by lia. unfold out. rewrite take_take. f_equal. cbn. lia. }
    intros page. destruct limit as [|n]; [lia|].
    destruct (lookup_lt_is_Some_2 (rest h cursor l) n) as [e He]; [lia|].
    assert (page = take n (rest h cursor l) ++ [e]) as Hp by (unfold page; by apply take_S_r).
    assert (last page = Some e) as Hlast by (rewrite Hp; apply last_snoc). rewrite Hlast. cbn [fmap option_fmap option_map].
    split; [done|]. split; [apply h_ok|]. split; [by rewrite Hlast|]. split.
    + intros Hd0%(f_equal length). rewrite length_drop in Hd0. cbn in Hd0. lia.
    + apply (rest_cursor_of h h_ok cursor l (take n (rest h cursor l)) e); [done..|].
      rewrite <-(take_drop (S n) (rest h cursor l)) at 1. change (take (S n) (rest h cursor l)) with page.
      rewrite Hp. by rewrite <-app_assoc.
  - assert (length (rest h cursor l) ≤ limit) by lia. unfold out. split; [by rewrite !take_ge by lia|].
    right. by apply drop_ge.
Qed.

(** C32: Pages enumerate the map. Reopen any trie from its root digest and read a page of it
    from a node store: the reader collects, in the order of iteration, the first [limit]
    bindings after the cursor, and, when the limit is not zero, returns a cursor exactly when
    others follow; what is after that cursor is exactly what the page left, so following the
    cursors enumerates the bindings without a gap or a repetition. A page of limit zero is
    empty and has no cursor, whatever follows. The cursor need not name a key of the map.
    The reader reports a storage error only if the store may lack nodes, and does not panic. The
    store is not trusted beyond having no stub (a node that only names its own digest, which the
    reader would pass over: [stub_page_is_silent]) and, for no node of the trie, another verifying
    message of the same digest. *)
Theorem page_exact `{Blake3Laws} {K V} `{Countable K} `{OrdLaws K} `{CanonAppends K} `{CanonAppends V}
    `{CanonDecode K} `{CanonDecode V} (wfK : K → Prop) (wfV : V → Prop)
    `{!CanonCodec K wfK} `{!CanonCodec V wfV}
    `{!PrefixFree wfK (canon_bytes (A := K))} `{!PrefixFree wfV (canon_bytes (A := V))}
    {St} `{NodeStore St} (store : St) (h : KeyHasher K) (os : list (map_op K V)) (m : TrieMap K V)
    (fail : Prop) (cache : option (DecodedNodeCache (TrieNode K V))) (cursor : option (bytes * K)) (limit : nat)
    (h_ok : hasher_ok h) (Hm : trie_run h os = Some m) (Hwf : map_wf wfK wfV (model_run ∅ os))
    (Hstore : store_ok (K := K) (V := V) store) (Hcache : cache_from store cache)
    (Huntampered : untampered store m) (Hfail : fail ∨ complete store m) (Hcursor : cursor_ok cursor) :
  ∃ l, iter m = Some l ∧ l ≡ₚ map_to_list (model_run (∅ : gmap K V) os) ∧
    ∃ r cache', iter_page_with_store (from_root_digest h (root_digest m) (len m)) cursor limit store cache = Done (r, cache') ∧
      cache_from store cache' ∧
      match r with
      | Ok (page, next) => page_answer h limit cursor l page next
      | Err _ => fail
      end.
Proof.
  apply (trie_run_valid h h_ok) in Hm as [Hv Hmod]. rewrite <-Hmod in *.
  exists (bindings m). split; [by apply (iter_spec h)|]. split; [by apply (bindings_perm h h_ok)|].
  pose proof (bindings_sorted h h_ok m Hv) as Hs.
  destruct (reopened_stands wfK wfV h h_ok store fail m Hv Hwf Huntampered Hfail) as (_ & _ & Hr).
  assert (runs store fail (λ r, page_answer h limit cursor (bindings m) r.1 r.2)
    (iter_page_with_store (from_root_digest h (root_digest m) (len m)) cursor limit store)) as Hrun.
  { unfold iter_page_with_store. case_decide as Hl; [subst; apply sm_ret_runs; split; [done|by left]|].
    unfold bindings in *. destruct Hv as (_ & _ & Hok). destruct Hr as [t n Ht|].
    - eapply sm_bind_runs; [apply (page_runs wfK wfV h h_ok store Hstore fail (S limit) STORE_FUEL cursor [] n t []); try done; [apply under_nil|unfold STORE_FUEL; cbn [length]; lia..]|].
      unfold page_spec. cbn [app]. intros [out full] [= <- _].
      pose proof (page_cut h h_ok limit cursor (entries n) ltac:(lia) Hcursor Hs) as Hcut. cbv zeta in Hcut.
      case_decide; by apply sm_ret_runs.
    - apply sm_ret_runs. unfold page_answer, rest. rewrite filter_nil. split; cbn [fst snd]; [by rewrite take_nil|right; by rewrite drop_nil]. }
  destruct (Hrun cache Hcache) as (r & c' & ? & ? & ?). exists r, c'. by destruct r as [[]|].
Qed.

#[local] Existing Instance demo_hash.

Lemma page_exact_witness :
  ∃ page cache', iter_page_with_store (from_root_digest byte_hasher (root_digest one_map) 1) (Some (byte_hasher 0%Z, 0%Z)) 1
    one_store None = Done (Ok (page, None), cache') ∧ page = [(1%Z, 1%Z)].
Proof.
  destruct (@page_exact demo_hash demo_hash_laws Z Z _ _ _ _ _ _ _ _ _ _ u64_ok u64_ok _ _ _ _ _ _ one_store byte_hasher
    [Put 1%Z 1%Z] one_map False None (Some (byte_hasher 0%Z, 0%Z)) 1 byte_hasher_ok) as (l & Hi & _ & r & c & He & _ & Hr).
  - reflexivity.
  - apply map_wf_of_list; [vm_compute; reflexivity|apply (bool_decide_unpack _); vm_compute; exact I].
  - exact one_store_ok.
  - exact I.
  - split.
    + intros (d & b & x & n' & Hb & Hx & Hn & Hne & _). apply Hne. rewrite (one_verified d b x Hb Hx).
      apply list_elem_of_singleton in Hn as ->. reflexivity.
    + intros [_ Hc]. vm_compute in Hc. discriminate Hc.
  - right. intros n' ->%list_elem_of_singleton. split; (eexists; split; [reflexivity|vm_compute; reflexivity]).
  - apply byte_hasher_ok.
  - injection Hi as <-. destruct r as [[page next]|e]; [|destruct Hr]. destruct Hr as [Hp Hn].
    destruct next as [c'|]; [destruct Hn as (_ & _ & Hn & _); exfalso; apply Hn; vm_compute; reflexivity|].
    exists page, c. split; [exact He|]. rewrite Hp. vm_compute. reflexivity.
Defined.

(** * Where the reader falls short of an enumeration *)

(** With a limit of zero the reader says that nothing follows. *)
Lemma empty_page_ends `{Blake3} {K V} `{EqDecision K} `{Ord K} `{Canonical K} `{Canonical V} `{CanonDecode K} `{CanonDecode V}
    {St} `{NodeStore St} (store : St) (m : TrieMap K V) cursor cache :
  iter_page_with_store m cursor 0 store cache = Done (Ok ([], None), cache).
Proof. reflexivity. Qed.

(** A stub stored under the digest it names verifies, and the page is empty and the last, with
    no error, whatever map the digest is the root of. *)
Lemma stub_page_is_silent `{Blake3Laws} {K V} `{EqDecision K} `{OrdLaws K} `{CanonAppends K} `{CanonAppends V}
    `{CanonDecode K} `{CanonDecode V} (wfK : K → Prop) (wfV : V → Prop)
    `{!CanonCodec K wfK} `{!CanonCodec V wfV} (h : KeyHasher K) (d : Digest) (n limit : nat) cursor :
  digest_ok d →
  iter_page_with_store (V := V) (from_root_digest h d n) cursor limit
    (mkMemoryStore {[d := encode_node (K := K) (V := V) (Lazy d)]}) None = Done (Ok ([], None), None).
Proof.
  intros Hd. unfold iter_page_with_store, from_root_digest. cbn [root]. case_decide; [done|]. case_decide; [done|].
  assert (∃ f, STORE_FUEL = S f) as [f ->] by (eexists; reflexivity). cbn [iter_page_recursive]. unfold mbind, SM_bind, resolve_node_mode, load_node, SM_res. cbn [get_node_scan NodeStore_Memory nodes].
  unfold mbind, SM_bind. rewrite lookup_singleton_eq. cbn [ok_or]. by rewrite (stub_verifies wfK wfV d Hd).
Qed.
