(* ===== verification/L3Value.v ===== *)
(** The values of a lowered program, their schemas and patterns, and the operations on numbers
    (src/crates/brix-lower/src/l3_v2.rs).

    An [i64] is a [Z] in its range, a name a string, a [BTreeMap] of names a [gmap]. *)
From S2P Require Import Prelude Text IntCodec Canon CanonLaws Encoding Decimal DecimalMath Values FloatMath.

(** [iter.find(f)]. *)
Fixpoint iter_find {A} (f : A → bool) (l : list A) : option A :=
  match l with [] => None | x :: l' => if f x then Some x else iter_find f l' end.

(** * Operators *)

Inductive NumericBuiltinV2 : Type := BF64 | BDecimal | F64FromInt | DecimalFromInt | DecimalDiv | F64Neg | DecimalNeg.
Inductive FoldOpV2 : Type := Sum | Count | All | Any | Min | Max.
Inductive DivModOpV2 : Type := DivFloor | DivCeil | DivHalfEven | ModEuclid.
Inductive ArithOpV2 : Type := Add | Sub | Mul | Div.
Inductive CmpOpV2 : Type := CLt | CLe | CGt | CGe | CEq | CNe.

#[export] Instance NumericBuiltinV2_eq_dec : EqDecision NumericBuiltinV2.
Proof. solve_decision. Defined.
#[export] Instance FoldOpV2_eq_dec : EqDecision FoldOpV2.
Proof. solve_decision. Defined.
#[export] Instance DivModOpV2_eq_dec : EqDecision DivModOpV2.
Proof. solve_decision. Defined.
#[export] Instance ArithOpV2_eq_dec : EqDecision ArithOpV2.
Proof. solve_decision. Defined.
#[export] Instance CmpOpV2_eq_dec : EqDecision CmpOpV2.
Proof. solve_decision. Defined.

Definition builtin_all : list NumericBuiltinV2 := [BF64; BDecimal; F64FromInt; DecimalFromInt; DecimalDiv; F64Neg; DecimalNeg].
Definition builtin_name (op : NumericBuiltinV2) : string :=
  match op with
  | BF64 => "f64" | BDecimal => "decimal" | F64FromInt => "f64_from_int" | DecimalFromInt => "decimal_from_int"
  | DecimalDiv => "decimal_div" | F64Neg => "f64_neg" | DecimalNeg => "decimal_neg"
  end.
Definition builtin_from_name (name : string) : option NumericBuiltinV2 :=
  iter_find (λ op, bool_decide (builtin_name op = name)) builtin_all.
Definition arity (op : NumericBuiltinV2) : nat := match op with DecimalDiv => 4 | _ => 1 end.

Definition fold_all : list FoldOpV2 := [Sum; Count; All; Any; Min; Max].
Definition fold_name (op : FoldOpV2) : string :=
  match op with Sum => "sum" | Count => "count" | All => "all" | Any => "any" | Min => "min" | Max => "max" end.
Definition fold_from_name (name : string) : option FoldOpV2 :=
  iter_find (λ op, bool_decide (fold_name op = name)) fold_all.

Definition div_mod_all : list DivModOpV2 := [DivFloor; DivCeil; DivHalfEven; ModEuclid].
Definition div_mod_name (op : DivModOpV2) : string :=
  match op with DivFloor => "div_floor" | DivCeil => "div_ceil" | DivHalfEven => "div_half_even" | ModEuclid => "mod_euclid" end.
Definition div_mod_from_name (name : string) : option DivModOpV2 :=
  iter_find (λ op, bool_decide (div_mod_name op = name)) div_mod_all.

Definition is_reserved_list_operation_name (name : string) : bool :=
  bool_decide (is_Some (fold_from_name name)) || bool_decide (name ∈ ["filter"; "map"; "len"; "distinct"; "only"]%string).

Definition MAX_DERIVED_LIST_LEN : nat := Z.to_nat 4096.

(** * Values *)

Inductive L3ValueV2 : Type :=
  | VInt (n : Z)
  | VStr (s : string)
  | VBool (b : bool)
  | VCtor (nominal_sum variant : string) (args : list L3ValueV2)
  | VRecord (nominal_config : string) (fields : list (string * L3ValueV2))
  | VList (items : list L3ValueV2)
  | VF64 (x : FiniteF64)
  | VDecimal (d : Decimal).

(** Why an evaluation could not produce a value. *)
Inductive EvalFault : Type :=
  | FOverflow (op : ArithOpV2)
  | Unbound (name : string)
  | NoSuchField (field : string)
  | NoMatchingArm
  | OperandShape (detail : string)
  | FDivisionByZero (op : DivModOpV2)
  | DivisionOverflow (op : DivModOpV2)
  | CallDepthExceeded (limit : Z) (func : string)
  | ResourceExhausted (limit : Z) (detail : string)
  | ContractViolation (func : string) (param : option string) (expected found : string) (path : option string)
  | EmptyAggregate (op : FoldOpV2)
  | NotSingleton (found : nat)
  | FNumeric (detail : string).

(** ** Exact integer division *)

Definition eval_div_mod (op : DivModOpV2) (a b : Z) : result EvalFault Z :=
  if decide (b = 0%Z) then Err (FDivisionByZero op) else
  let q := Z.quot a b in
  let r := Z.rem a b in
  let out := (match op with
    | ModEuclid => if bool_decide (r < 0) then r + Z.abs b else r
    | DivFloor => if bool_decide (r ≠ 0) && negb (Bool.eqb (bool_decide (a < 0)) (bool_decide (b < 0))) then q - 1 else q
    | DivCeil => if bool_decide (r ≠ 0) && Bool.eqb (bool_decide (a < 0)) (bool_decide (b < 0)) then q + 1 else q
    | DivHalfEven =>
      if decide (r = 0) then q else
      let step := if negb (Bool.eqb (bool_decide (a < 0)) (bool_decide (b < 0))) then -1 else 1 in
      let twice := 2 * Z.abs r in
      let mag := Z.abs b in
      if decide (mag < twice) then q + step
      else if decide (twice < mag) then q
      else if decide (Z.rem q 2 = 0) then q
      else q + step
    end)%Z in
  ok_or (checked i64_ok out) (DivisionOverflow op).

(** ** Numbers *)

(** [NumericError]'s [Display]. *)
Definition numeric_error_text (e : NumericError) : string :=
  match e with
  | InvalidNumber => "invalid numeric text"
  | NonFinite => "F64 requires a finite result"
  | Overflow => "decimal arithmetic overflow"
  | ScaleOutOfRange => "decimal scale exceeds 18"
  | DivisionByZero => "division by zero"
  | InexactDivision => "division is not exact at scale <= 18; use decimal_div with explicit rounding"
  | InvalidRoundingMode => "rounding must be floor, ceil, half_even, or trunc"
  end.
Definition numeric_fault (e : NumericError) : EvalFault := FNumeric (numeric_error_text e).

Definition eval_numeric_arith (op : ArithOpV2) (x y : L3ValueV2) : result EvalFault L3ValueV2 :=
  match x, y with
  | VInt x, VInt y =>
    let out v := r ← ok_or (checked i64_ok v) (FOverflow op); Ok (VInt r) in
    match op with
    | Add => out (x + y)%Z
    | Sub => out (x - y)%Z
    | Mul => out (x * y)%Z
    | Div => Err (OperandShape "Int division requires div_floor, div_ceil, or div_half_even")
    end
  | VF64 x, VF64 y =>
    r ← map_err numeric_fault (match op with
      | Add => checked_add x y | Sub => checked_sub x y | Mul => checked_mul x y | Div => checked_div x y end);
    Ok (VF64 r)
  | VDecimal x, VDecimal y =>
    r ← map_err numeric_fault (match op with
      | Add => decimal_add x y | Sub => decimal_sub x y | Mul => decimal_mul x y | Div => decimal_div_exact x y end);
    Ok (VDecimal r)
  | _, _ => Err (OperandShape "arithmetic requires operands of the same numeric type")
  end.

Definition numeric_order (x y : L3ValueV2) : result EvalFault comparison :=
  match x, y with
  | VInt x, VInt y => Ok (Z.compare x y)
  | VF64 x, VF64 y => Ok (cmp x y)
  | VDecimal x, VDecimal y => Ok (cmp x y)
  | _, _ => Err (OperandShape "ordering requires operands of the same numeric type")
  end.

Definition eval_numeric_builtin (op : NumericBuiltinV2) (args : list L3ValueV2) : result EvalFault L3ValueV2 :=
  match op, args with
  | BF64, [VStr text] => r ← map_err numeric_fault (finite_from_str (bytes_of_string text)); Ok (VF64 r)
  | BDecimal, [VStr text] => r ← map_err numeric_fault (decimal_parse (bytes_of_string text)); Ok (VDecimal r)
  | F64FromInt, [VInt value] => Ok (VF64 (from_i64 value))
  | DecimalFromInt, [VInt value] => Ok (VDecimal (decimal_from_i64 value))
  | DecimalDiv, [VDecimal a; VDecimal b; VInt scale; VStr mode] =>
    if decide (0 ≤ scale ≤ 18)%Z
    then r ← map_err numeric_fault (decimal_div_round a b scale mode); Ok (VDecimal r)
    else Err (FNumeric "decimal scale must be in 0..=18")
  | F64Neg, [VF64 value] => r ← map_err numeric_fault (checked_neg value); Ok (VF64 r)
  | DecimalNeg, [VDecimal value] => r ← map_err numeric_fault (decimal_neg value); Ok (VDecimal r)
  | _, _ => Err (OperandShape "invalid numeric builtin argument types or arity")
  end.

(** * Types and schemas *)

Inductive L3ValueType : Type := TInt | TStr | TBool | TSum (s : string) | TRecord (r : string) | TList | TF64 | TDecimal.
#[export] Instance L3ValueType_eq_dec : EqDecision L3ValueType.
Proof. solve_decision. Defined.

Inductive L3SchemaType : Type := SInt | SBool | SStr | SNamed (name : string) | SF64 | SDecimal | SList (element : L3SchemaType).
Inductive L3SchemaBody : Type :=
  | BodySum (variants : list (string * list L3SchemaType))
  | BodyRecord (fields : gmap string L3SchemaType).
Record L3Schema : Type := mkSchema { schema_name : string; schema_body : L3SchemaBody }.
Abbreviation Schemas := (gmap string L3Schema).

Fixpoint display_name (t : L3SchemaType) : string :=
  match t with
  | SInt => "Int" | SBool => "Bool" | SStr => "Str" | SNamed name => name | SF64 => "F64" | SDecimal => "Decimal"
  | SList element => "List<" +:+ display_name element +:+ ">"
  end.

Definition type_of_value (v : L3ValueV2) : L3ValueType :=
  match v with
  | VInt _ => TInt | VStr _ => TStr | VBool _ => TBool
  | VCtor nominal_sum _ _ => TSum nominal_sum
  | VRecord nominal_config _ => TRecord nominal_config
  | VList _ => TList | VF64 _ => TF64 | VDecimal _ => TDecimal
  end.
Definition type_text (t : L3ValueType) : string :=
  match t with
  | TInt => "Int" | TStr => "Str" | TBool => "Bool"
  | TSum s => "Sum(" +:+ s +:+ ")" | TRecord r => "Record(" +:+ r +:+ ")"
  | TList => "List" | TF64 => "F64" | TDecimal => "Decimal"
  end.

(** ** Nominal names *)

Definition nominal_base (name : string) : string :=
  match split_at_first "<" name with Some (base, _) => trim base | None => name end.

Definition nominal_matches (actual expected : string) : bool :=
  if bool_decide (actual = expected) then true else
  if negb (bool_decide (nominal_base actual = nominal_base expected)) then false else
  if contains "<" actual && contains "<" expected then bool_decide (actual = expected)
  else true.

(** [s.split(',')]. *)
Fixpoint split_commas (s : string) : list string :=
  match s with
  | EmptyString => [EmptyString]
  | String c s' =>
    match split_commas s' with
    | seg :: segs => if decide (c = Ascii.ascii_of_nat 44) then EmptyString :: seg :: segs else String c seg :: segs
    | [] => []
    end
  end.

(** A type argument is shorter than the name it is an argument of, so the length of the name is
    fuel enough. *)
Fixpoint protected_fuel (fuel : nat) (nominal : string) : bool :=
  match fuel with
  | O => false
  | S fuel' =>
    let base := nominal_base nominal in
    let unqualified := trim (last_segment "::" base) in
    if bool_decide (unqualified ∈ ["DocumentedStep"; "RuntimeOutcome"; "ValidationOutcome"]%string) then true else
    match split_at_first "<" nominal with
    | None => false
    | Some (_, rest) =>
      match split_at_last ">" rest with
      | None => false
      | Some (inner, _) => existsb (λ arg, protected_fuel fuel' (trim arg)) (split_commas inner)
      end
    end
  end.
Definition is_protected_authority_type (nominal : string) : bool := protected_fuel (S (String.length nominal)) nominal.

(** ** Specialization *)

Definition specialize_name (nominal name : string) : string :=
  if negb (contains "<" nominal) && bool_decide (nominal = nominal_base name) then name else nominal.

(** The values of [args], those that have a payload type with it. *)
Section zip_apply.
Context {A B : Type} (f : A → B → A).
Fixpoint zip_apply (args : list A) (payloads : list B) : list A :=
  match args, payloads with
  | arg :: args', p_ty :: payloads' => f arg p_ty :: zip_apply args' payloads'
  | _, _ => args
  end.
End zip_apply.

Definition variant_payloads (schemas : Schemas) (name variant : string) : list L3SchemaType :=
  match schemas !! name with
  | Some (mkSchema _ (BodySum variants)) => default [] (snd <$> iter_find (λ v, bool_decide (v.1 = variant)) variants)
  | _ => []
  end.
Definition record_fields (schemas : Schemas) (name : string) : gmap string L3SchemaType :=
  match schemas !! name with Some (mkSchema _ (BodyRecord expected_fields)) => expected_fields | _ => ∅ end.

Section specialize.
Context (schemas : Schemas).

Fixpoint specialize_nominal_value (val : L3ValueV2) (expected : L3SchemaType) {struct val} : L3ValueV2 :=
  match val, expected with
  | VCtor nominal_sum variant args, SNamed name =>
    VCtor (specialize_name nominal_sum name) variant
      (zip_apply specialize_nominal_value args (variant_payloads schemas name variant))
  | VRecord nominal_config fields, SNamed name =>
    VRecord (specialize_name nominal_config name)
      (List.map (λ f, (f.1, match record_fields schemas name !! f.1 with
        | Some f_ty => specialize_nominal_value f.2 f_ty
        | None => f.2
        end)) fields)
  | VList items, SList element => VList (List.map (λ item, specialize_nominal_value item element) items)
  | _, _ => val
  end.

(** ** Validation *)

Definition MAX_INPUT_LIST_LEN : nat := Z.to_nat 256.

(** [schemas.get(name).or_else(..)]: the schema of the name or of its last segment. *)
Definition find_schema (name : string) : option L3Schema :=
  match schemas !! name with Some s => Some s | None => schemas !! last_segment "::" name end.

Definition index_path (path : string) (i : nat) : string := path +:+ "[" +:+ pretty i +:+ "]".
Definition arg_path (path : string) (i : nat) : string := path +:+ ".args[" +:+ pretty i +:+ "]".
Definition field_path (path field : string) : string := path +:+ "." +:+ field.

(** A check per element, in order. *)
Fixpoint check_all {A} (f : nat → A → result string ()) (i : nat) (l : list A) : result string () :=
  match l with [] => Ok () | x :: l' => _ ← f i x; check_all f (S i) l' end.

Fixpoint validate_l3_value (value : L3ValueV2) (expected : L3SchemaType) (path : string) {struct value} : result string () :=
  match value, expected with
  | VList items, SList element =>
    if decide (MAX_INPUT_LIST_LEN < length items) then
      Err (path +:+ ": list has " +:+ pretty (length items) +:+ " element(s), exceeding maximum of 256")
    else check_all (λ index check, check element (index_path path index)) 0 (List.map validate_l3_value items)
  | VInt _, SInt | VBool _, SBool | VStr _, SStr | VF64 _, SF64 | VDecimal _, SDecimal => Ok ()
  | (VInt _ | VBool _ | VStr _ | VF64 _ | VDecimal _), _ =>
    Err (path +:+ ": expected " +:+ display_name expected +:+ ", found primitive")
  | VCtor nominal_sum variant args, SNamed name =>
    match find_schema name with
    | None => Err (path +:+ ": unknown schema '" +:+ name +:+ "'")
    | Some (mkSchema _ (BodyRecord _)) => Err (path +:+ ": expected record '" +:+ name +:+ "', found sum")
    | Some (mkSchema _ (BodySum variants)) =>
      if negb (bool_decide (nominal_sum = name)) then Err (path +:+ ": expected nominal '" +:+ name +:+ "', found '" +:+ nominal_sum +:+ "'") else
      match iter_find (λ v, bool_decide (v.1 = variant)) variants with
      | None => Err (path +:+ ": unknown variant '" +:+ variant +:+ "' of '" +:+ name +:+ "'")
      | Some (_, payloads) =>
        if negb (bool_decide (length payloads = length args)) then
          Err (path +:+ ": variant '" +:+ variant +:+ "' expects " +:+ pretty (length payloads) +:+ " payload(s), found " +:+ pretty (length args))
        else check_all (λ index p, p.1 p.2 (arg_path path index)) 0 (zip (List.map validate_l3_value args) payloads)
      end
    end
  | VRecord nominal_config fields, SNamed name =>
    match find_schema name with
    | None => Err (path +:+ ": unknown schema '" +:+ name +:+ "'")
    | Some (mkSchema _ (BodySum _)) => Err (path +:+ ": expected sum '" +:+ name +:+ "', found record")
    | Some (mkSchema _ (BodyRecord expected_fields)) =>
      if negb (bool_decide (nominal_config = name)) then Err (path +:+ ": expected nominal '" +:+ name +:+ "', found '" +:+ nominal_config +:+ "'") else
      if negb (bool_decide (length fields = size expected_fields)) then
        Err (path +:+ ": record '" +:+ name +:+ "' expects " +:+ pretty (size expected_fields) +:+ " field(s), found " +:+ pretty (length fields))
      else
        let checks := List.map (λ f, (f.1, validate_l3_value f.2)) fields in
        _ ← check_all (λ _ e, match iter_find (λ f, bool_decide (f.1 = e.1)) checks with
          | None => Err (field_path path e.1 +:+ ": missing field")
          | Some (_, check) => check e.2 (field_path path e.1)
          end) 0 (btree_iter expected_fields);
        check_all (λ _ f, if bool_decide (is_Some (expected_fields !! f.1)) then Ok () else Err (field_path path f.1 +:+ ": unknown field")) 0 fields
    end
  | (VCtor nominal_sum _ _ | VRecord nominal_sum _), _ =>
    Err (path +:+ ": expected " +:+ display_name expected +:+ ", found '" +:+ nominal_sum +:+ "'")
  | VList _, _ => Err (path +:+ ": expected " +:+ display_name expected +:+ ", found list")
  end.
End specialize.

(** * Patterns *)

Inductive L3PatternV2 : Type :=
  | PCtor (nominal_sum : option string) (variant : string) (binders : list (option string))
  | PWildcard.

(** [pv.rsplit_once("::")]. *)
Definition owner_of (variant : string) : option string := fst <$> split_at_last "::" variant.
Definition simple_of (variant : string) : string := last_segment "::" variant.

Definition matches_value (p : L3PatternV2) (v : L3ValueV2) : bool :=
  match p with
  | PCtor expected_nom pv _ =>
    match v with
    | VCtor nominal_sum variant _ =>
      match (match expected_nom with Some n => Some n | None => owner_of pv end) with
      | Some n => if nominal_matches nominal_sum n then bool_decide (variant = simple_of pv) else false
      | None => bool_decide (variant = simple_of pv)
      end
    | VBool b =>
      match expected_nom with
      | Some n => if bool_decide (n = "Bool"%string) then bool_decide (simple_of pv = if b then "true" else "false")%string else false
      | None => bool_decide (simple_of pv = if b then "true" else "false")%string
      end
    | _ => false
    end
  | PWildcard => true
  end.

(** * Equality and order of values *)

(** Structural induction with the hypotheses for the elements. *)
Section value_ind.
Context (P : L3ValueV2 → Prop).
Context (HInt : ∀ n, P (VInt n)) (HStr : ∀ s, P (VStr s)) (HBool : ∀ b, P (VBool b)).
Context (HCtor : ∀ n v args, Forall P args → P (VCtor n v args)).
Context (HRecord : ∀ n fields, Forall (λ f, P f.2) fields → P (VRecord n fields)).
Context (HList : ∀ items, Forall P items → P (VList items)).
Context (HF64 : ∀ x, P (VF64 x)) (HDecimal : ∀ d, P (VDecimal d)).

Fixpoint value_induction (v : L3ValueV2) : P v :=
  match v with
  | VInt n => HInt n
  | VStr s => HStr s
  | VBool b => HBool b
  | VCtor n c args => HCtor n c args
      ((fix go l := match l return Forall P l with [] => Forall_nil_2 P | x :: l' => Forall_cons_2 P x l' (value_induction x) (go l') end) args)
  | VRecord n fields => HRecord n fields
      ((fix go l := match l return Forall (λ f, P f.2) l with [] => Forall_nil_2 _ | x :: l' => Forall_cons_2 _ x l' (value_induction x.2) (go l') end) fields)
  | VList items => HList items
      ((fix go l := match l return Forall P l with [] => Forall_nil_2 P | x :: l' => Forall_cons_2 P x l' (value_induction x) (go l') end) items)
  | VF64 x => HF64 x
  | VDecimal d => HDecimal d
  end.
End value_ind.

#[export] Instance FiniteF64_eq_dec : EqDecision FiniteF64.
Proof. solve_decision. Defined.

(** The derived [==]. *)
Section eqb.
Context {A : Type} (f : A → A → bool).
Fixpoint list_eqb (l1 l2 : list A) : bool :=
  match l1, l2 with [], [] => true | x :: l1', y :: l2' => f x y && list_eqb l1' l2' | _, _ => false end.
Fixpoint fields_eqb (l1 l2 : list (string * A)) : bool :=
  match l1, l2 with
  | [], [] => true
  | (n, x) :: l1', (m, y) :: l2' => bool_decide (n = m) && f x y && fields_eqb l1' l2'
  | _, _ => false
  end.
End eqb.
Fixpoint value_eqb (x y : L3ValueV2) : bool :=
  match x, y with
  | VInt a, VInt b => bool_decide (a = b)
  | VStr a, VStr b => bool_decide (a = b)
  | VBool a, VBool b => Bool.eqb a b
  | VCtor n1 v1 a1, VCtor n2 v2 a2 => bool_decide (n1 = n2) && bool_decide (v1 = v2) && list_eqb value_eqb a1 a2
  | VRecord n1 f1, VRecord n2 f2 => bool_decide (n1 = n2) && fields_eqb value_eqb f1 f2
  | VList l1, VList l2 => list_eqb value_eqb l1 l2
  | VF64 a, VF64 b => bool_decide (a = b)
  | VDecimal a, VDecimal b => bool_decide (a = b)
  | _, _ => false
  end.

(** The derived [Ord]: by constructor, then by the fields in order. *)
Definition value_tag (v : L3ValueV2) : Z :=
  match v with
  | VInt _ => 0 | VStr _ => 1 | VBool _ => 2 | VCtor _ _ _ => 3 | VRecord _ _ => 4 | VList _ => 5 | VF64 _ => 6 | VDecimal _ => 7
  end.
Section compare.
Context {A : Type} (f : A → A → comparison).
Fixpoint list_compare (l1 l2 : list A) : comparison :=
  match l1, l2 with
  | [], [] => Eq | [], _ => Lt | _, [] => Gt
  | x :: l1', y :: l2' => match f x y with Eq => list_compare l1' l2' | c => c end
  end.
Fixpoint fields_compare (l1 l2 : list (string * A)) : comparison :=
  match l1, l2 with
  | [], [] => Eq | [], _ => Lt | _, [] => Gt
  | (n, x) :: l1', (m, y) :: l2' =>
    match cmp n m with Eq => match f x y with Eq => fields_compare l1' l2' | c => c end | c => c end
  end.
End compare.
Definition bool_number (b : bool) : Z := if b then 1 else 0.
Fixpoint value_compare (x y : L3ValueV2) : comparison :=
  match x, y with
  | VInt a, VInt b => Z.compare a b
  | VStr a, VStr b => cmp a b
  | VBool a, VBool b => Z.compare (bool_number a) (bool_number b)
  | VCtor n1 v1 a1, VCtor n2 v2 a2 =>
    match cmp n1 n2 with Eq => match cmp v1 v2 with Eq => list_compare value_compare a1 a2 | c => c end | c => c end
  | VRecord n1 f1, VRecord n2 f2 => match cmp n1 n2 with Eq => fields_compare value_compare f1 f2 | c => c end
  | VList l1, VList l2 => list_compare value_compare l1 l2
  | VF64 a, VF64 b => cmp a b
  | VDecimal a, VDecimal b => cmp a b
  | _, _ => Z.compare (value_tag x) (value_tag y)
  end.

(** ** Well-formed values *)

(** The values a program holds: integers at their width, floats finite with one zero, decimals in
    normal form, lists within the bound of a derived list. *)
Inductive value_ok : L3ValueV2 → Prop :=
  | ok_int n : i64_ok n → value_ok (VInt n)
  | ok_str s : value_ok (VStr s)
  | ok_bool b : value_ok (VBool b)
  | ok_ctor n v args : Forall value_ok args → value_ok (VCtor n v args)
  | ok_record n fields : Forall (λ f, value_ok f.2) fields → value_ok (VRecord n fields)
  | ok_list items : length items ≤ MAX_DERIVED_LIST_LEN → Forall value_ok items → value_ok (VList items)
  | ok_f64 x : finite_ok x → value_ok (VF64 x)
  | ok_decimal d : decimal_ok d → value_ok (VDecimal d).
#[export] Hint Constructors value_ok : core.

Lemma value_ok_inv v : value_ok v →
  match v with
  | VInt n => i64_ok n
  | VCtor _ _ args => Forall value_ok args
  | VRecord _ fields => Forall (λ f, value_ok f.2) fields
  | VList items => length items ≤ MAX_DERIVED_LIST_LEN ∧ Forall value_ok items
  | VF64 x => finite_ok x
  | VDecimal d => decimal_ok d
  | VStr _ | VBool _ => True
  end.
Proof. by inversion 1. Qed.

Lemma list_eqb_spec {A} (f : A → A → bool) l1 : Forall (λ x, ∀ y, f x y = true ↔ x = y) l1 → ∀ l2, list_eqb f l1 l2 = true ↔ l1 = l2.
Proof.
  induction 1 as [|x l1 Hx _ IH]; intros [|y l2]; cbn; [done..|]. rewrite andb_true_iff, Hx, IH. split; [by intros [-> ->]|by intros [= -> ->]].
Qed.
Lemma fields_eqb_spec {A} (f : A → A → bool) l1 : Forall (λ p, ∀ y, f p.2 y = true ↔ p.2 = y) l1 → ∀ l2, fields_eqb f l1 l2 = true ↔ l1 = l2.
Proof.
  induction 1 as [|[n x] l1 Hx _ IH]; intros [|[m y] l2]; cbn in *; [done..|]. rewrite !andb_true_iff, bool_decide_eq_true, Hx, IH.
  split; [by intros [[-> ->] ->]|by intros [= -> -> ->]].
Qed.
Lemma value_eqb_spec x : ∀ y, value_eqb x y = true ↔ x = y.
Proof.
  induction x as [n|s|b|n v args IH|n fields IH|items IH|a|d] using value_induction; intros []; cbn; try done;
    rewrite ?andb_true_iff, ?bool_decide_eq_true, ?Bool.eqb_true_iff; try (split; congruence).
  - rewrite (list_eqb_spec _ _ IH). naive_solver.
  - rewrite (fields_eqb_spec _ _ IH). naive_solver.
  - rewrite (list_eqb_spec _ _ IH). naive_solver.
Qed.
#[export] Instance L3ValueV2_eq_dec : EqDecision L3ValueV2.
Proof. intros x y. destruct (value_eqb x y) eqn:E; [left; by apply value_eqb_spec|right; intros H%value_eqb_spec; congruence]. Defined.

Lemma list_compare_eq {A} (f : A → A → comparison) (ok : A → Prop) l1 : Forall (λ x, ∀ y, ok x → ok y → f x y = Eq ↔ x = y) l1 →
  ∀ l2, Forall ok l1 → Forall ok l2 → list_compare f l1 l2 = Eq ↔ l1 = l2.
Proof.
  induction 1 as [|x l1 Hx _ IH]; intros [|y l2] H1 H2; cbn; try done. apply Forall_cons in H1 as [O1 H1], H2 as [O2 H2].
  specialize (Hx y O1 O2). specialize (IH l2 H1 H2). destruct (f x y) eqn:E.
  - rewrite IH. assert (x = y) as -> by by apply Hx. split; [by intros ->|by intros [= ->]].
  - split; [done|]. intros [= -> _]. by destruct Hx as [_ Hx]; specialize (Hx eq_refl).
  - split; [done|]. intros [= -> _]. by destruct Hx as [_ Hx]; specialize (Hx eq_refl).
Qed.
Lemma fields_compare_eq {A} (f : A → A → comparison) (ok : A → Prop) l1 : Forall (λ p, ∀ y, ok p.2 → ok y → f p.2 y = Eq ↔ p.2 = y) l1 →
  ∀ l2, Forall (λ p, ok p.2) l1 → Forall (λ p, ok p.2) l2 → fields_compare f l1 l2 = Eq ↔ l1 = l2.
Proof.
  induction 1 as [|[n x] l1 Hx _ IH]; intros [|[m y] l2] H1 H2; cbn in *; try done. apply Forall_cons in H1 as [O1 H1], H2 as [O2 H2]. cbn in *.
  specialize (Hx y O1 O2). specialize (IH l2 H1 H2). pose proof (cmp_eq n m) as Hn. destruct (cmp n m).
  - assert (n = m) as -> by by apply Hn. destruct (f x y).
    + rewrite IH. assert (x = y) as -> by by apply Hx. split; [by intros ->|by intros [= ->]].
    + split; [done|]. intros [= -> _]. by destruct Hx as [_ Hx]; specialize (Hx eq_refl).
    + split; [done|]. intros [= -> _]. by destruct Hx as [_ Hx]; specialize (Hx eq_refl).
  - split; [done|]. intros [= -> _ _]. by destruct Hn as [_ Hn]; specialize (Hn eq_refl).
  - split; [done|]. intros [= -> _ _]. by destruct Hn as [_ Hn]; specialize (Hn eq_refl).
Qed.

(** The order tells well-formed values apart exactly as equality does: a [BTreeSet] of values
    keeps each value once. *)
Lemma value_compare_eq x : ∀ y, value_ok x → value_ok y → value_compare x y = Eq ↔ x = y.
Proof.
  induction x as [n|s|b|n v args IH|n fields IH|items IH|a|d] using value_induction; intros [m|t|c|m w args'|m fields'|items'|a'|d'] Hx%value_ok_inv Hy%value_ok_inv; cbn; try done.
  - rewrite Z.compare_eq_iff. split; congruence.
  - rewrite cmp_eq. split; congruence.
  - destruct b, c; done.
  - pose proof (list_compare_eq _ _ _ IH _ Hx Hy) as Hl. pose proof (cmp_eq n m) as Hn. pose proof (cmp_eq v w) as Hv.
    destruct Hn as [Hn1 Hn2], Hv as [Hv1 Hv2].
    destruct (cmp n m); [|split; [done|intros [= En _ _]; by specialize (Hn2 En)]..].
    destruct (cmp v w); [|split; [done|intros [= _ Ev _]; by specialize (Hv2 Ev)]..].
    rewrite Hl, (Hn1 eq_refl), (Hv1 eq_refl). split; congruence.
  - pose proof (fields_compare_eq _ _ _ IH _ Hx Hy) as Hl. pose proof (cmp_eq n m) as Hn.
    destruct Hn as [Hn1 Hn2]. destruct (cmp n m); [|split; [done|intros [= En _]; by specialize (Hn2 En)]..].
    rewrite Hl, (Hn1 eq_refl). split; congruence.
  - rewrite (list_compare_eq _ _ _ IH _ (proj2 Hx) (proj2 Hy)). split; congruence.
  - pose proof float_total_order as (_ & _ & _ & _ & _ & Hf). destruct (Hf a a' Hx Hy) as (Hc & He & _). split; [intros H; by rewrite (He H)|].
    intros [= ->]. exact (eq_trans Hc (Z.compare_refl _)).
  - assert (cmp d d' = Eq ↔ canon_bytes d = canon_bytes d') as -> by apply (cmp_eq (A := list Z)).
    split; [|by intros [= ->]]. intros H. f_equal. apply (prefix_free d d' [] []); [done|done|]. by rewrite H.
Qed.

(** * Integer division *)

(** What each rounding selects, for either sign of the divisor. *)
Definition div_mod_spec (op : DivModOpV2) (a b out : Z) : Prop :=
  match op with
  | DivFloor => 0 ≤ Z.sgn b * (a - b * out) < Z.abs b
  | DivCeil => 0 ≤ Z.sgn b * (b * out - a) < Z.abs b
  | DivHalfEven => 2 * Z.abs (a - b * out) ≤ Z.abs b ∧ (2 * Z.abs (a - b * out) = Z.abs b → Z.even out = true)
  | ModEuclid => 0 ≤ out < Z.abs b ∧ ∃ k, a = b * k + out
  end%Z.

Lemma rem_two q : Z.rem q 2 = 0%Z ↔ Z.even q = true.
Proof. rewrite Z.even_spec. split; [|intros [k ->]; rewrite Z.mul_comm; by apply Z.rem_mul]. intros H. exists (Z.quot q 2). pose proof (Z.quot_rem q 2 ltac:(lia)). lia. Qed.

Lemma quotient_facts a b : b ≠ 0%Z →
  let q := Z.quot a b in let r := Z.rem a b in
  (a = b * q + r ∧ Z.abs r < Z.abs b ∧ (r ≠ 0 → a ≠ 0) ∧ (0 ≤ a → 0 ≤ r) ∧ (a ≤ 0 → r ≤ 0))%Z.
Proof.
  intros Hb. cbn zeta. pose proof (Z.quot_rem a b Hb). pose proof (Z.rem_bound_abs a b Hb). split; [done|]. split; [done|].
  split; [intros Hr ->; by rewrite Z.rem_0_l in Hr|]. split; intros Ha; [by apply Z.rem_nonneg|by apply Z.rem_nonpos].
Qed.

Lemma eval_div_mod_cases op a b :
  match eval_div_mod op a b with
  | Ok out => b ≠ 0%Z ∧ i64_ok out ∧ div_mod_spec op a b out
  | Err f => (f = FDivisionByZero op ∧ b = 0%Z) ∨ (f = DivisionOverflow op ∧ b ≠ 0%Z ∧ ∃ out, div_mod_spec op a b out ∧ ¬ i64_ok out)
  end.
Proof.
  unfold eval_div_mod. case_decide as Hb; [by left|]. destruct (quotient_facts a b Hb) as (E & Hr & Ha0 & Hp & Hn).
  set (q := Z.quot a b) in *. set (r := Z.rem a b) in *. set (out := match op with DivFloor => _ | _ => _ end).
  assert (div_mod_spec op a b out) as Hs; [|by destruct (checked_cases i64_ok out) as [[-> ?]|[-> ?]]; cbn; eauto 7].
  assert (a - b * q = r)%Z as Er by lia. assert (b * q - a = - r)%Z as Er' by lia.
  destruct op; unfold out, div_mod_spec; clear out.
  - destruct (bool_decide_reflect (r ≠ 0)%Z); cbn [andb]; [|rewrite Er; lia].
    case_bool_decide; case_bool_decide; cbn [Bool.eqb negb]; rewrite ?Z.mul_sub_distr_l, ?Z.sub_sub_distr, ?Er; lia.
  - destruct (bool_decide_reflect (r ≠ 0)%Z); cbn [andb]; [|rewrite Er'; lia].
    case_bool_decide; case_bool_decide; cbn [Bool.eqb negb]; rewrite ?Z.mul_add_distr_l; lia.
  - case_decide as H0; [rewrite Er; lia|]. set (step := if negb _ then _ else _).
    assert (Z.abs (a - b * (q + step)) = Z.abs b - Z.abs r)%Z as Es.
    { rewrite Z.mul_add_distr_l, Z.sub_add_distr, Er. unfold step. case_bool_decide; case_bool_decide; cbn [Bool.eqb negb]; lia. }
    assert (Z.even (q + step) = negb (Z.even q)) as Ev.
    { rewrite Z.even_add. assert (Z.even step = false) as -> by (unfold step; by destruct (negb _)). by destruct (Z.even q). }
    case_decide; [rewrite Es; lia|]. case_decide; [rewrite Er; lia|]. case_decide as H2.
    + rewrite Er. split; [lia|]. intros _. by apply rem_two.
    + rewrite Es. split; [lia|]. intros _. rewrite Ev. rewrite rem_two in H2. by destruct (Z.even q).
  - case_bool_decide; (split; [lia|]); [exists (q - Z.sgn b)%Z|exists q]; lia.
Qed.

(** On operands of the width, the one quotient that does not fit. *)
Lemma div_mod_overflows op a b out : i64_ok a → i64_ok b → b ≠ 0%Z → div_mod_spec op a b out → ¬ i64_ok out →
  (a = - 2 ^ 63 ∧ b = -1 ∧ op ≠ ModEuclid)%Z.
Proof.
  intros Ha Hb Hb0 Hs Ho. unfold i64_ok in *. destruct op; cbn in Hs; cycle 3; [lia|..].
  all: assert (b = -1 → out = - a)%Z as H1 by (intros ->; cbn in Hs; lia).
  all: assert (b = 1 → out = a)%Z as H2 by (intros ->; cbn in Hs; lia).
  all: destruct (decide (b = -1)%Z) as [->|]; [specialize (H1 eq_refl); (split; [lia|done])|].
  all: destruct (decide (b = 1)%Z) as [->|]; [specialize (H2 eq_refl); lia|].
  all: exfalso; apply Ho; assert (2 ≤ Z.abs b)%Z as H3 by lia; clear -Hs H3 Ha; eval_pows; nia.
Qed.

(** * Numbers keep their width *)

Lemma decimal_of_i64_ok v : i64_ok v → decimal_ok (decimal_from_i64 v).
Proof. intros Hv. apply decimal_new_spec; [int_lia|split; [done|reflexivity]]. Qed.

Lemma arith_ok op x y v : value_ok x → value_ok y → eval_numeric_arith op x y = Ok v → value_ok v.
Proof.
  intros Hx%value_ok_inv Hy%value_ok_inv H. destruct x as [a|t1|c1|n1 v1 l1|n1 l1|l1|a|a], y as [b|t2|c2|n2 v2 l2|n2 l2|l2|b|b]; try discriminate H.
  - assert (∀ w, (r ← ok_or (checked i64_ok w) (FOverflow op); Ok (VInt r)) = Ok v → value_ok v) as Hout.
    { intros w (r & [-> Hr]%ok_or_Ok%checked_Some & [= <-])%result_bind_Ok. auto. }
    destruct op; [by eapply Hout..|done].
  - destruct (float_operations a b 0 Hx Hy) as (Ha & Hs & Hm & Hd & _); [done|].
    assert (∀ r p q c, rounds_exact r p q → r = Ok c → finite_ok c) as Hr.
    { intros r p q c [[_ ->]|(_ & d & -> & Hd' & _)]; [done|]. by intros [= <-]. }
    cbn in H. apply result_bind_Ok in H as (c & Hc & [= <-]). constructor.
    assert (match op with Add => checked_add a b | Sub => checked_sub a b | Mul => checked_mul a b | Div => checked_div a b end = Ok c) as Hc'
      by (destruct (match op with Add => _ | _ => _ end); [by injection Hc as ->|done]).
    destruct op; [exact (Hr _ _ _ _ Ha Hc')|exact (Hr _ _ _ _ Hs Hc')|exact (Hr _ _ _ _ Hm Hc')|]. destruct Hd as [[Hd _]|[_ Hd]]; [by rewrite Hd in Hc'|exact (Hr _ _ _ _ Hd Hc')].
  - pose proof (aligned_computes a b Z.add Hx Hy ltac:(intros; ring)) as Ha. pose proof (aligned_computes a b Z.sub Hx Hy ltac:(intros; ring)) as Hs.
    pose proof (mul_computes a b Hx Hy) as Hm. pose proof (div_exact_spec a b Hx Hy) as Hd.
    assert (∀ r adm fits u s c, computes r adm fits u s → r = Ok c → decimal_ok c) as Hr by (intros r ????? Hc ->; apply Hc).
    cbn in H. apply result_bind_Ok in H as (c & Hc & [= <-]). constructor.
    assert (match op with Add => decimal_add a b | Sub => decimal_sub a b | Mul => decimal_mul a b | Div => decimal_div_exact a b end = Ok c) as Hc'
      by (destruct (match op with Add => _ | _ => _ end); [by injection Hc as ->|done]).
    destruct op; [exact (Hr _ _ _ _ _ _ Ha Hc')|exact (Hr _ _ _ _ _ _ Hs Hc')|exact (Hr _ _ _ _ _ _ Hm Hc')|]. rewrite Hc' in Hd. apply Hd.
Qed.

Lemma builtin_ok op args v : Forall value_ok args → eval_numeric_builtin op args = Ok v → value_ok v.
Proof.
  intros Hargs H. assert (∀ (A : Type) (r : result NumericError A) (f : A → L3ValueV2), (c ← map_err numeric_fault r; Ok (f c)) = Ok v → ∃ c, r = Ok c ∧ v = f c) as Hb.
  { intros A r f (c & Hc & [= <-])%result_bind_Ok. exists c. by destruct r; [injection Hc as ->|]. }
  destruct op, args as [|x args]; try discriminate H; apply Forall_cons in Hargs as [Hx%value_ok_inv Hargs];
    destruct x as [n|t|c1|n1 v1 l1|n1 l1|l1|a|a]; try discriminate H; destruct args as [|y args]; try discriminate H.
  - apply (Hb FiniteF64) in H as (c & Hc & ->). constructor. by eapply finite_from_str_ok.
  - apply (Hb Decimal) in H as (c & Hc & ->). constructor. by apply decimal_parse_spec in Hc as [? _].
  - injection H as <-. constructor. by apply (float_operations (mkFiniteF64 0) (mkFiniteF64 0) n).
  - injection H as <-. constructor. by apply decimal_of_i64_ok.
  - apply Forall_cons in Hargs as [Hy%value_ok_inv _]. destruct y as [n2|t2|c2|n2 v2 l2|n2 l2|l2|x2|b]; try discriminate H.
    destruct args as [|[s| | | | | | |] [|[|mode| | | | | |] [|]]]; try discriminate H. cbn in H. case_decide as Hs; [|done].
    apply (Hb Decimal) in H as (c & Hc & ->). constructor. pose proof (div_round_spec a b s mode Hx Hy (proj1 Hs)) as Hd. rewrite Hc in Hd. apply Hd.
  - apply (Hb FiniteF64) in H as (c & Hc & ->). constructor. destruct (float_operations a a 0 Hx Hx ltac:(done)) as (_ & _ & _ & _ & (d & Hd & Hok & _) & _).
    rewrite Hd in Hc. by injection Hc as <-.
  - apply (Hb Decimal) in H as (c & Hc & ->). constructor. pose proof (neg_computes a Hx) as Hn. rewrite Hc in Hn. apply Hn.
Qed.

(** * Conformance *)

Section conformance.
Context (schemas : Schemas).

(** A value is of a closed type. The fields of a record are the declared ones, once each. *)
Inductive conforms : L3ValueV2 → L3SchemaType → Prop :=
  | conforms_int n : conforms (VInt n) SInt
  | conforms_bool b : conforms (VBool b) SBool
  | conforms_str s : conforms (VStr s) SStr
  | conforms_f64 x : conforms (VF64 x) SF64
  | conforms_decimal d : conforms (VDecimal d) SDecimal
  | conforms_list items element :
      length items ≤ MAX_INPUT_LIST_LEN → Forall (λ item, conforms item element) items → conforms (VList items) (SList element)
  | conforms_ctor name variant args s variants v payloads :
      find_schema schemas name = Some (mkSchema s (BodySum variants)) →
      iter_find (λ p, bool_decide (p.1 = variant)) variants = Some (v, payloads) →
      Forall2 conforms args payloads → conforms (VCtor name variant args) (SNamed name)
  | conforms_record name fields s expected :
      find_schema schemas name = Some (mkSchema s (BodyRecord expected)) →
      NoDup fields.*1 → (∀ n, n ∈ fields.*1 ↔ is_Some (expected !! n)) →
      Forall (λ f, ∀ ty, expected !! f.1 = Some ty → conforms f.2 ty) fields → conforms (VRecord name fields) (SNamed name).

Lemma check_all_Ok {A} (f : nat → A → result string ()) l : ∀ i,
  check_all f i l = Ok () ↔ ∀ j x, l !! j = Some x → f (i + j) x = Ok ().
Proof.
  induction l as [|x l IH]; intros i; cbn [check_all]; [done|]. split.
  - intros ([] & H1 & H2)%result_bind_Ok [|j] y Hy; cbn in Hy; [injection Hy as <-; by rewrite Nat.add_0_r|].
    rewrite IH in H2. rewrite Nat.add_succ_r. by apply H2.
  - intros H. pose proof (H 0 x eq_refl) as H0. rewrite Nat.add_0_r in H0. rewrite H0. cbn. apply IH. intros j y Hy.
    replace (S i + j) with (i + S j) by lia. by apply H.
Qed.

Lemma result_unit_bind {E} (m n : result E ()) : (_ ← m; n) = Ok () ↔ m = Ok () ∧ n = Ok ().
Proof. destruct m as [[]|e]; cbn; naive_solver. Qed.

Lemma iter_find_fmap {A B} (g : A → B) (f : B → bool) l : iter_find f (List.map g l) = g <$> iter_find (λ x, f (g x)) l.
Proof. induction l as [|x l IH]; cbn; [done|]. by destruct (f (g x)). Qed.
Lemma iter_find_Some {A} (f : A → bool) l x : iter_find f l = Some x → x ∈ l ∧ f x = true.
Proof. induction l as [|y l IH]; cbn; [done|]. destruct (f y) eqn:E; [intros [= ->]; by split; [left|]|]. intros [? ?]%IH. by split; [right|]. Qed.
Lemma iter_find_None {A} (f : A → bool) l : iter_find f l = None ↔ ∀ x, x ∈ l → f x = false.
Proof.
  induction l as [|y l IH]; cbn; [by split; [intros _ x Hx; inversion Hx|]|]. destruct (f y) eqn:E.
  - split; [done|]. intros H. rewrite H in E by left. done.
  - rewrite IH. split; [intros H x [->|Hx]%elem_of_cons; auto|intros H x Hx; apply H; by right].
Qed.
Lemma iter_find_assoc {A} (l : list (string * A)) k x : NoDup l.*1 → (k, x) ∈ l → iter_find (λ f, bool_decide (f.1 = k)) l = Some (k, x).
Proof.
  induction l as [|[m y] l IH]; [by intros _ Hx%elem_of_nil|]. cbn. intros [Hm Hl]%NoDup_cons [[= -> ->]|Hx]%elem_of_cons; [by rewrite bool_decide_true|].
  rewrite bool_decide_false; [by apply IH|]. intros ->. apply Hm. by apply (list_elem_of_fmap_2' _ _ (k, x)).
Qed.

(** As many names as there are fields, each of them declared and each declaration met: the
    declared names once each. *)
Lemma names_exact {A} (names : list string) (m : gmap string A) :
  length names = size m → (∀ n, is_Some (m !! n) → n ∈ names) → NoDup names.
Proof.
  intros Hlen Hsub. assert (elements (dom m) ⊆+ names) as Hs.
  { apply NoDup_submseteq; [apply NoDup_elements|]. intros n Hn%elem_of_elements%elem_of_dom. auto. }
  rewrite <-(submseteq_length_Permutation _ _ Hs); [apply NoDup_elements|]. rewrite Hlen. by rewrite <-size_dom.
Qed.

Lemma elem_fmap_names {A} (fields : list (string * A)) n : n ∈ fields.*1 ↔ ∃ v, (n, v) ∈ fields.
Proof.
  rewrite list_elem_of_fmap. split; [intros ([m v] & -> & Hin); by exists v|intros [v Hv]; by exists (n, v)].
Qed.

(** Validation decides conformance, whatever path it reports errors at. *)
Lemma validate_conforms v : ∀ ty path, validate_l3_value schemas v ty path = Ok () ↔ conforms v ty.
Proof.
  induction v as [n|s|b|n variant args IH|n fields IH|items IH|x|d] using value_induction; intros ty path.
  1,2,3,7,8: destruct ty; cbn; (split; [try discriminate; constructor|by inversion 1]).
  all: rewrite Forall_forall in IH.
  - destruct ty as [| | |name| | |]; try (split; [discriminate|by inversion 1]). cbn [validate_l3_value].
    destruct (find_schema schemas name) as [[s [variants|]]|] eqn:Hs; [|split; [done|inversion 1; congruence]..].
    destruct (bool_decide_reflect (n = name)) as [->|Hn]; cbn [negb]; [|split; [done|by inversion 1]].
    destruct (iter_find _ variants) as [[w payloads]|] eqn:Hv; [|split; [done|inversion 1; congruence]].
    destruct (bool_decide_reflect (length payloads = length args)) as [Hl|Hl]; cbn [negb].
    2:{ split; [done|]. inversion 1 as [| | | | | |? ? ? ? ? ? ? Hs' Hv' HF|]. rewrite Hs' in Hs. injection Hs as -> ->. rewrite Hv' in Hv. injection Hv as -> ->.
        by apply Forall2_length in HF. }
    assert (check_all (λ index p, p.1 p.2 (arg_path path index)) 0 (zip (List.map (validate_l3_value schemas) args) payloads) = Ok () ↔ Forall2 conforms args payloads) as ->.
    { rewrite check_all_Ok, Forall2_same_length_lookup. split.
      - intros H. split; [done|]. intros i x t Hx Ht. apply (IH x (list_elem_of_lookup_2 _ _ _ Hx) t (arg_path path i)).
        apply (H i (validate_l3_value schemas x, t)). rewrite lookup_zip_with. change (List.map ?f ?l) with (f <$> l). by rewrite list_lookup_fmap, Hx, Ht.
      - intros [_ H] i [c t] Hct. rewrite lookup_zip_with in Hct. change (List.map ?f ?l) with (f <$> l) in Hct. rewrite list_lookup_fmap in Hct.
        destruct (args !! i) as [x|] eqn:Hx; [|done]. destruct (payloads !! i) as [t'|] eqn:Ht; [|done]. cbn in Hct. injection Hct as <- <-. cbn.
        apply IH; [by eapply list_elem_of_lookup_2|]. by apply (H i). }
    split; [intros HF; by econstructor|]. inversion 1 as [| | | | | |? ? ? ? ? ? ? Hs' Hv' HF|]. rewrite Hs' in Hs. injection Hs as -> ->. rewrite Hv' in Hv. by injection Hv as -> ->.
  - destruct ty as [| | |name| | |]; try (split; [discriminate|by inversion 1]). cbn [validate_l3_value].
    destruct (find_schema schemas name) as [[s [|expected]]|] eqn:Hs; [split; [done|inversion 1; congruence]| |split; [done|inversion 1; congruence]].
    destruct (bool_decide_reflect (n = name)) as [->|Hn]; cbn [negb]; [|split; [done|by inversion 1]].
    destruct (bool_decide_reflect (length fields = size expected)) as [Hl|Hl]; cbn [negb].
    2:{ split; [done|]. inversion 1 as [| | | | | | |? ? ? ? Hs' Hnd Hdom HF]. rewrite Hs' in Hs. injection Hs as -> ->. exfalso. apply Hl.
        rewrite <-size_dom, <-(length_fmap fst fields). unfold size, set_size. apply Permutation_length, NoDup_Permutation; [done|apply NoDup_elements|].
        intros m. by rewrite Hdom, elem_of_elements, elem_of_dom. }
    rewrite result_unit_bind, !check_all_Ok. split.
    + intros [H1 H2]. assert (∀ m t, expected !! m = Some t → ∃ v, (m, v) ∈ fields ∧ iter_find (λ f, bool_decide (f.1 = m)) fields = Some (m, v) ∧ conforms v t) as Hf.
      { intros m t Hm. apply btree_iter_elem, list_elem_of_lookup in Hm as [i Hi]. specialize (H1 i (m, t) Hi). cbn [fst snd] in H1.
        rewrite iter_find_fmap in H1. cbn [fst] in H1. destruct (iter_find _ fields) as [[m' v]|] eqn:Hfind; [|done]. cbn in H1.
        pose proof (iter_find_Some _ _ _ Hfind) as [Hin Heq]. apply bool_decide_eq_true in Heq. cbn in Heq. subst m'. exists v. split; [done|]. split; [done|].
        by apply (IH (m, v) Hin t (field_path path m)). }
      assert (NoDup fields.*1) as Hnd.
      { apply (names_exact _ expected); [by rewrite length_fmap|]. intros m [t Hm]. destruct (Hf m t Hm) as (v & Hin & _). apply elem_fmap_names. eauto. }
      econstructor; [done|done| |].
      * intros m. split; [|intros [t Hm]; destruct (Hf m t Hm) as (v & Hin & _); apply elem_fmap_names; eauto].
        intros (v & [i Hi]%list_elem_of_lookup)%elem_fmap_names. specialize (H2 i (m, v) Hi). cbn in H2. by case_bool_decide.
      * apply Forall_forall. intros [m v] Hin t Hm. cbn in Hm. destruct (Hf m t Hm) as (w & Hw & Hfind & Hc). rewrite (iter_find_assoc _ _ _ Hnd Hin) in Hfind.
        by injection Hfind as ->.
    + inversion 1 as [| | | | | | |? ? ? ? Hs' Hnd Hdom HF]; subst. rewrite Hs' in Hs. injection Hs as -> ->. rewrite Forall_forall in HF. split.
      * intros i [m t] Hi%list_elem_of_lookup_2%btree_iter_elem. cbn. rewrite iter_find_fmap. cbn [fst].
        destruct (proj1 (elem_fmap_names fields m)) as [v Hv]; [by apply Hdom|]. rewrite (iter_find_assoc _ _ _ Hnd Hv). cbn.
        apply (IH (m, v) Hv). exact (HF (m, v) Hv t Hi).
      * intros i [m v] Hi%list_elem_of_lookup_2. cbn. rewrite bool_decide_true; [done|]. apply Hdom, elem_fmap_names. eauto.
  - destruct ty as [| | | | | |element]; try (split; [discriminate|by inversion 1]). cbn [validate_l3_value]. case_decide as Hl; [split; [done|inversion 1; lia]|].
    rewrite check_all_Ok. split.
    + intros H. constructor; [lia|]. apply Forall_forall. intros x [i Hi]%list_elem_of_lookup. apply (IH x (list_elem_of_lookup_2 _ _ _ Hi) element (index_path path i)).
      apply (H i (validate_l3_value schemas x)). change (List.map ?f ?l) with (f <$> l). by rewrite list_lookup_fmap, Hi.
    + inversion 1 as [| | | | |? ? _ HF| |]; subst. intros i c Hc. change (List.map ?f ?l) with (f <$> l) in Hc. rewrite list_lookup_fmap in Hc.
      destruct (items !! i) as [x|] eqn:Hi; [|done]. injection Hc as <-. rewrite Forall_forall in HF. pose proof (list_elem_of_lookup_2 _ _ _ Hi). by apply IH, HF.
Qed.
End conformance.

(** * Specialization *)

Section specialization.
Context (schemas : Schemas).

Lemma zip_apply_Forall {A B} (f : A → B → A) (P : A → Prop) args payloads :
  Forall (λ x, P x ∧ ∀ t, P (f x t)) args → Forall P (zip_apply f args payloads).
Proof.
  revert payloads. induction args as [|x args IH]; intros [|t payloads] H; cbn; [done|done| |]; apply Forall_cons in H as [[H1 H2] H3].
  - constructor; [done|]. eapply Forall_impl; [exact H3|]. by intros y [].
  - constructor; [done|]. by apply IH.
Qed.

Lemma specialize_ok v : ∀ ty, value_ok v → value_ok (specialize_nominal_value schemas v ty).
Proof.
  induction v as [n|s|b|n variant args IH|n fields IH|items IH|x|d] using value_induction; intros ty Hv; try (by destruct ty);
    pose proof (value_ok_inv _ Hv) as H; destruct ty as [| | |name| | |element]; try exact Hv; cbn [specialize_nominal_value]; constructor.
  - apply zip_apply_Forall. rewrite Forall_forall in IH, H |- *. intros y Hy. split; [by apply H|]. intros t. by apply IH, H.
  - apply Forall_forall. intros f ([m y] & -> & Hy)%list_elem_of_fmap. cbn. rewrite Forall_forall in IH, H. pose proof (H _ Hy). cbn in *.
    destruct (record_fields schemas name !! m); [|done]. by apply (IH (m, y) Hy).
  - change (List.map ?f ?l) with (f <$> l). rewrite length_fmap. apply H.
  - apply Forall_forall. intros f (y & -> & Hy)%list_elem_of_fmap. destruct H as [_ H]. rewrite Forall_forall in IH, H. by apply IH, H.
Qed.

(** A value of a type is left as it is. *)
Lemma specialize_conforming v : ∀ ty, conforms schemas v ty → specialize_nominal_value schemas v ty = v.
Proof.
  assert (∀ name, specialize_name name name = name) as Hn by (intros name; unfold specialize_name; by destruct (_ && _)).
  induction v as [n|s|b|n variant args IH|n fields IH|items IH|x|d] using value_induction; intros ty Hc; try (by destruct ty);
    rewrite Forall_forall in IH; destruct ty as [| | |name| | |element]; try reflexivity; cbn [specialize_nominal_value].
  - inversion Hc as [| | | | | |? ? ? s variants w payloads Hs Hv HF|]; subst. rewrite Hn. f_equal. unfold variant_payloads, find_schema in *.
    assert (Forall2 (conforms schemas) args payloads → zip_apply (specialize_nominal_value schemas) args payloads = args) as Hz.
    { clear -IH. intros HF. induction HF as [|x t args payloads Hx _ IHF]; cbn; [done|]. rewrite IHF by (intros y Hy; apply IH; by right).
      by rewrite (IH x) by (done || by left). }
    destruct (schemas !! name) as [s'|]; [|by destruct args]. injection Hs as ->. rewrite Hv. cbn. by apply Hz.
  - inversion Hc as [| | | | | | |? ? s expected Hs Hnd Hdom HF]; subst. rewrite Hn. f_equal. unfold record_fields, find_schema in *. rewrite Forall_forall in HF.
    rewrite <-(list_fmap_id fields) at 2. change (List.map ?f ?l) with (f <$> l). apply list_fmap_ext. intros i [m y] Hi%list_elem_of_lookup_2. cbn. f_equal.
    destruct (schemas !! name) as [s'|]; [|by rewrite lookup_empty]. injection Hs as ->. destruct (expected !! m) as [t|] eqn:Ht; [|done].
    apply (IH (m, y) Hi). by apply (HF (m, y) Hi).
  - inversion Hc as [| | | | |? ? _ HF| |]; subst. f_equal. rewrite Forall_forall in HF. rewrite <-(list_fmap_id items) at 2. change (List.map ?f ?l) with (f <$> l).
    apply list_fmap_ext. intros i y Hi%list_elem_of_lookup_2. cbn. by apply IH, HF.
Qed.
End specialization.

(** * Properties *)

(** Integer division is exact. On operands of the width, [div_floor], [div_ceil] and
    [div_half_even] return the floor, the ceiling and the nearest integer (a tie to the even one)
    of the rational quotient for every combination of signs, and [mod_euclid] the remainder
    between zero and the divisor's magnitude; a zero divisor is reported as such, and the one
    other fault is the quotient [i64::MIN / -1], which [mod_euclid] never reports. *)
Theorem div_mod_exact op a b : i64_ok a → i64_ok b →
  match eval_div_mod op a b with
  | Ok out => b ≠ 0%Z ∧ i64_ok out ∧ div_mod_spec op a b out
  | Err f => (f = FDivisionByZero op ∧ b = 0%Z) ∨ (f = DivisionOverflow op ∧ a = - 2 ^ 63 ∧ b = -1 ∧ op ≠ ModEuclid)%Z
  end.
Proof.
  intros Ha Hb. pose proof (eval_div_mod_cases op a b) as H. destruct (eval_div_mod op a b) as [out|f]; [done|].
  destruct H as [H|(Hf & Hb0 & out & Hs & Ho)]; [by left|right]. split; [done|]. by eapply div_mod_overflows.
Qed.

Lemma div_mod_exact_witness :
  eval_div_mod DivHalfEven (-7) 2 = Ok (-4)%Z ∧ eval_div_mod DivFloor 7 (-2) = Ok (-4)%Z ∧ eval_div_mod ModEuclid (-7) (-3) = Ok 2%Z ∧
  div_mod_spec DivHalfEven (-7) 2 (-4).
Proof.
  split; [reflexivity|]. split; [reflexivity|]. split; [reflexivity|].
  refine (proj2 (proj2 (div_mod_exact DivHalfEven (-7) 2 _ _))); split; discriminate || reflexivity.
Defined.

(** C20: Contract checks decide the types. Validating a value against a closed schema type
    succeeds, at any path, exactly when the value is of that type: constructor payloads and
    record fields are checked against the declaration, a record has the declared fields once
    each, and a list at most 256 elements; and specialization, which every contract check
    runs first, leaves a value that is of its type as it is and any other value well formed. *)
Theorem validation_decides_types schemas v ty path :
  (validate_l3_value schemas v ty path = Ok () ↔ conforms schemas v ty) ∧
  (conforms schemas v ty → specialize_nominal_value schemas v ty = v) ∧
  (value_ok v → value_ok (specialize_nominal_value schemas v ty)).
Proof. split; [apply validate_conforms|]. split; [apply specialize_conforming|apply specialize_ok]. Qed.

Definition ship_schemas : Schemas :=
  {[ "Ship"%string := mkSchema "Ship" (BodyRecord {[ "deck"%string := SInt; "crew"%string := SList (SNamed "Rank") ]});
     "Rank"%string := mkSchema "Rank" (BodySum [("Mate", []); ("Captain", [SStr])]%string) ]}.
Definition ship : L3ValueV2 :=
  VRecord "Ship" [("crew", VList [VCtor "Rank" "Captain" [VStr "Ada"]; VCtor "Rank" "Mate" []]); ("deck", VInt 3)]%string.

Lemma validation_decides_types_witness :
  conforms ship_schemas ship (SNamed "Ship") ∧
  specialize_nominal_value ship_schemas ship (SNamed "Ship") = ship ∧
  validate_l3_value ship_schemas (VRecord "Ship" [("deck", VInt 3)]%string) (SNamed "Ship") "<root>"
    = Err "<root>: record 'Ship' expects 2 field(s), found 1"%string.
Proof.
  assert (conforms ship_schemas ship (SNamed "Ship")) as H.
  { apply (proj1 (validation_decides_types ship_schemas ship (SNamed "Ship") "<root>")). vm_compute. reflexivity. }
  split; [exact H|]. split; [|vm_compute; reflexivity].
  exact (proj1 (proj2 (validation_decides_types ship_schemas ship (SNamed "Ship") "<root>")) H).
Defined.
