(* ===== verification/Evidence.v ===== *)
(** The documentary and runtime evidence a program may be given authority by
    (src/crates/brix-lower/src/l3_v2.rs, and the claim of src/crates/brix-lower/src/evidence.rs).

    A [DocumentarySnapshot]'s entries are a [gmap] by evidence identifier, a registry's runtime
    claims the sorted vector. The [Debug] format of the standard library, which two diagnostics
    use, is the class [DebugText]. *)
From S2P Require Import Prelude Text IntCodec Canon CanonLaws Encoding Decimal DecimalMath Values FloatMath L3Value.

(** [format!("{:?}", ..)] of a caller and of a list of grants. *)
Class DebugText := { debug_caller : option string → string; debug_grants : list string → string }.

Definition quote (s : string) : string := "'" +:+ s +:+ "'".

(** * Snapshots *)

Inductive DocumentaryDisposition : Type :=
  | Satisfied
  | Violated (reason : string)
  | Unknown (reason : string).

Record DocumentaryEntry : Type := mkEntry {
  evidence_id : string;
  content_digest : Digest;
  evidence_kind : string;
  authority_scope : string;
  disposition : DocumentaryDisposition
}.


Record DocumentarySnapshot : Type := mkSnapshot { entries : gmap string DocumentaryEntry }.

Definition snapshot_new : DocumentarySnapshot := mkSnapshot ∅.
Definition insert_entry (s : DocumentarySnapshot) (entry : DocumentaryEntry) : DocumentarySnapshot :=
  mkSnapshot (<[evidence_id entry := entry]> (entries s)).
Definition get_entry (s : DocumentarySnapshot) (id : string) : option DocumentaryEntry := entries s !! id.

Definition write_disposition (d : DocumentaryDisposition) (w : CanonWriter) : CanonWriter :=
  match d with
  | Satisfied => w |> write_uint 0
  | Violated reason => w |> write_uint 1 |> write_string reason
  | Unknown reason => w |> write_uint 2 |> write_string reason
  end.
Definition write_entry (e : string * DocumentaryEntry) (w : CanonWriter) : CanonWriter :=
  w |> write_string e.1
    |> write_string (evidence_id e.2)
    |> write_bytes (as_bytes (content_digest e.2))
    |> write_string (evidence_kind e.2)
    |> write_string (authority_scope e.2)
    |> write_disposition (disposition e.2).
Definition snapshot_payload (s : DocumentarySnapshot) : bytes :=
  []
    |> write_tag "brix.evidence.documentary-snapshot@1"
    |> write_uint (Z.of_nat (size (entries s)))
    |> write_each write_entry (btree_iter (entries s)).
Definition snapshot_digest `{Blake3} (s : DocumentarySnapshot) : Digest := digest_of Snapshot (snapshot_payload s).

(** ** Admitted kinds and scopes *)

Definition ADMITTED_DOCUMENTED_STEP_KINDS : list string :=
  ["documentary"; "documented-step"; "policy-clause"; "standard-clause"; "regulatory-clause"; "specification"; "audit-record";
   "attestation"; "checklist-item"; "certification"; "approval"; "sign-off"].

Definition is_admitted_documented_step_kind (kind : string) : bool :=
  let k := to_ascii_lowercase kind in
  if contains "runtime" k || contains "decision" k || contains "outcome" k then false
  else bool_decide (k ∈ ADMITTED_DOCUMENTED_STEP_KINDS).

Definition is_admitted_documented_step_scope (scope : string) : bool :=
  let s := to_ascii_lowercase scope in
  negb (bool_decide (s ∈ [""; "any"; "*"; "none"]) || contains "runtime" s || contains "decision" s || contains "outcome" s).

(** ** Hexadecimal digests *)

(** [char::to_digit(16)]. *)
Definition to_digit (b : Z) : option Z :=
  if decide (48 ≤ b ≤ 57)%Z then Some (b - 48)%Z
  else if decide (97 ≤ b ≤ 102)%Z then Some (b - 87)%Z
  else if decide (65 ≤ b ≤ 70)%Z then Some (b - 55)%Z
  else None.
Fixpoint hex_bytes (n : nat) (s : bytes) : option bytes :=
  match n, s with
  | O, _ => Some []
  | S n', h :: l :: s' =>
    hi ← to_digit h; lo ← to_digit l; out ← hex_bytes n' s'; Some (Z.lor (Z.shiftl hi 4) lo :: out)
  | S _, _ => None
  end.
Definition parse_digest_hex (hex : string) : option Digest :=
  let s := bytes_of_string hex in
  if negb (bool_decide (length s = 64)) || negb (is_ascii_string hex) then None else mkDigest <$> hex_bytes 32 s.

(** * Runtime claims *)

Record VerifiedDecisionClaim : Type := mkClaim {
  c_world : Digest;
  c_program : Digest;
  c_revision : Z;
  c_revision_digest : Digest;
  c_decide : string;
  c_entity : string;
  c_candidate : string;
  c_value_digest : Digest;
  c_caller : option string;
  c_grants : list string;
  c_release : string
}.
#[export] Instance VerifiedDecisionClaim_eq_dec : EqDecision VerifiedDecisionClaim.
Proof. solve_decision. Defined.

Record RuntimeClaimQuery : Type := mkQuery {
  q_decide : string;
  q_entity : string;
  q_world : Digest;
  q_program : option Digest;
  q_revision : Z;
  q_revision_digest : option Digest;
  q_candidate : string;
  q_result : Digest;
  q_caller : option string;
  q_release : string;
  q_grants : list string
}.

(** The derived order of claims. *)
#[export] Instance Ord_option_string : Ord (option string) := λ x y,
  match x, y with None, None => Eq | None, Some _ => Lt | Some _, None => Gt | Some a, Some b => cmp a b end.
#[export] Instance Ord_claim : Ord VerifiedDecisionClaim :=
  cmp_on (λ c, (c_world c, (c_program c, (c_revision c, (c_revision_digest c, (c_decide c, (c_entity c, (c_candidate c,
    (c_value_digest c, (c_caller c, (c_grants c, c_release c))))))))))).

(** * The registry *)

Record DocumentaryRegistry : Type := mkRegistry {
  snapshot : option (DocumentarySnapshot * Digest);
  runtime_claims : list VerifiedDecisionClaim
}.

Definition registry_new : DocumentaryRegistry := mkRegistry None [].

Definition admit_trusted_runtime_provider (claim : VerifiedDecisionClaim) (r : DocumentaryRegistry) : DocumentaryRegistry :=
  if decide (claim ∈ runtime_claims r) then r
  else mkRegistry (snapshot r) (sort_by cmp (runtime_claims r ++ [claim])).

Definition with_verified_snapshot `{Blake3} (s : DocumentarySnapshot) (expected : Digest) (r : DocumentaryRegistry) :
    result string () * DocumentaryRegistry :=
  let actual := snapshot_digest s in
  if decide (actual ≠ expected) then
    (Err ("documentary snapshot digest mismatch: expected " +:+ to_hex expected +:+ ", found " +:+ to_hex actual), r)
  else (Ok (), mkRegistry (Some (s, expected)) (runtime_claims r)).

Definition from_snapshot `{Blake3} (s : DocumentarySnapshot) (expected : Digest) : result string DocumentaryRegistry :=
  match with_verified_snapshot s expected registry_new with
  | (Ok _, r) => Ok r
  | (Err e, _) => Err e
  end.

(** The retired admission: [VerifiedDecisionEvidence::authentic] answers [false]. *)
Definition admit_runtime_evidence (claim : VerifiedDecisionClaim) (r : DocumentaryRegistry) : result string () * DocumentaryRegistry :=
  let authentic := false in
  if negb authentic then (Err "unauthentic or non-runtime decision evidence rejected", r)
  else (Ok (), mkRegistry (snapshot r) (runtime_claims r ++ [claim])).

Definition write_claim (c : VerifiedDecisionClaim) (w : CanonWriter) : CanonWriter :=
  w |> write_bytes (as_bytes (c_world c))
    |> write_bytes (as_bytes (c_program c))
    |> write_uint (c_revision c)
    |> write_bytes (as_bytes (c_revision_digest c))
    |> write_string (c_decide c)
    |> write_string (c_entity c)
    |> write_string (c_candidate c)
    |> write_bytes (as_bytes (c_value_digest c))
    |> (λ w, match c_caller c with Some caller => w |> write_uint 1 |> write_string caller | None => w |> write_uint 0 end)
    |> write_string (c_release c)
    |> write_uint (Z.of_nat (length (c_grants c)))
    |> write_each write_string (c_grants c).
Definition environment_payload (r : DocumentaryRegistry) : bytes :=
  []
    |> write_tag "brix.evidence.environment@1"
    |> (λ w, match snapshot r with Some (_, d) => w |> write_uint 1 |> write_bytes (as_bytes d) | None => w |> write_uint 0 end)
    |> write_uint (Z.of_nat (length (runtime_claims r)))
    |> write_each write_claim (runtime_claims r).
Definition environment_digest `{Blake3} (r : DocumentaryRegistry) : option Digest :=
  if bool_decide (snapshot r = None) && bool_decide (runtime_claims r = []) then None
  else Some (digest_of Snapshot (environment_payload r)).

(** ** Lookups *)

Definition lookup_documentary (r : DocumentaryRegistry) (uri : string) (expected_kind expected_scope : option string) :
    result DocumentaryDisposition DocumentaryEntry :=
  if negb (starts_with "doc://" uri) then Err (Unknown ("invalid or untrusted documentary uri scheme: " +:+ uri)) else
  match snapshot r with
  | None => Err (Unknown ("no verified documentary registry snapshot loaded while resolving " +:+ uri))
  | Some (s, _) =>
  match get_entry s uri with
  | None => Err (Unknown ("documentary evidence uri not found in verified snapshot: " +:+ uri))
  | Some entry =>
  match disposition entry with
  | Unknown reason => Err (Unknown reason)
  | Violated reason => Err (Violated reason)
  | Satisfied =>
  if bool_decide (evidence_kind entry = "") || bool_decide (authority_scope entry = "") then
    Err (Violated ("documentary snapshot entry " +:+ quote uri +:+ " has empty kind or authority scope")) else
  if negb (is_admitted_documented_step_kind (evidence_kind entry)) || negb (is_admitted_documented_step_scope (authority_scope entry)) then
    Err (Violated ("documentary snapshot entry " +:+ quote uri +:+ " kind " +:+ quote (evidence_kind entry) +:+ " / scope "
      +:+ quote (authority_scope entry) +:+ " is not admitted as DocumentedStep authority")) else
  match expected_kind with
  | None => Err (Violated ("documentary evidence reference for " +:+ quote uri +:+ " is missing required evidence kind"))
  | Some kind =>
  if negb (is_admitted_documented_step_kind kind) then
    Err (Violated ("evidence kind " +:+ quote kind +:+ " is not admitted as DocumentedStep authority")) else
  if negb (bool_decide (kind = evidence_kind entry)) then
    Err (Violated ("documentary evidence kind mismatch for " +:+ quote uri +:+ ": expected " +:+ quote (evidence_kind entry) +:+ ", found " +:+ quote kind)) else
  match expected_scope with
  | None => Err (Violated ("documentary evidence reference for " +:+ quote uri +:+ " is missing required authority scope"))
  | Some scope =>
  if negb (is_admitted_documented_step_scope scope) then
    Err (Violated ("authority scope " +:+ quote scope +:+ " is not admitted as DocumentedStep authority")) else
  if negb (bool_decide (scope = authority_scope entry)) then
    Err (Violated ("documentary authority scope mismatch for " +:+ quote uri +:+ ": expected " +:+ quote (authority_scope entry) +:+ ", found " +:+ quote scope)) else
  Ok entry
  end end end end end.

Definition about (decide entity : string) : string := "(" +:+ decide +:+ ", " +:+ entity +:+ ")".
Definition admitted_claimed (admitted claimed : string) : string := ": admitted " +:+ admitted +:+ ", claimed " +:+ claimed.

Definition same_subject (query : RuntimeClaimQuery) (c : VerifiedDecisionClaim) : bool :=
  bool_decide (c_decide c = q_decide query ∧ c_entity c = q_entity query ∧ c_world c = q_world query ∧ c_revision c = q_revision query).

Definition lookup_runtime_claim `{DebugText} (r : DocumentaryRegistry) (query : RuntimeClaimQuery) :
    result DocumentaryDisposition VerifiedDecisionClaim :=
  if negb (contains "::" (q_decide query)) then
    Err (Unknown ("runtime decision name " +:+ quote (q_decide query) +:+ " must be fully qualified")) else
  match iter_find (same_subject query) (runtime_claims r) with
  | None => Err (Unknown ("runtime decision evidence for (" +:+ q_decide query +:+ ", entity=" +:+ q_entity query +:+ ", world="
      +:+ to_hex (q_world query) +:+ ", rev=" +:+ pretty (q_revision query) +:+ ") not found in verified registry"))
  | Some admitted =>
  let at_subject := about (q_decide query) (q_entity query) in
  match q_program query with
  | None => Err (Unknown "runtime decision claim query is missing required program digest pin")
  | Some expected_prog =>
  if negb (bool_decide (c_program admitted = expected_prog)) then
    Err (Violated ("runtime program digest mismatch for " +:+ at_subject +:+ admitted_claimed (to_hex (c_program admitted)) (to_hex expected_prog))) else
  match q_revision_digest query with
  | None => Err (Unknown "runtime decision claim query is missing required revision digest pin")
  | Some expected_rev_digest =>
  if negb (bool_decide (c_revision_digest admitted = expected_rev_digest)) then
    Err (Violated ("runtime revision digest mismatch for " +:+ at_subject +:+ admitted_claimed (to_hex (c_revision_digest admitted)) (to_hex expected_rev_digest))) else
  if negb (bool_decide (c_candidate admitted = q_candidate query)) then
    Err (Violated ("runtime candidate mismatch for " +:+ at_subject +:+ admitted_claimed (quote (c_candidate admitted)) (quote (q_candidate query)))) else
  if negb (bool_decide (c_value_digest admitted = q_result query)) then
    Err (Violated ("runtime result digest mismatch for " +:+ at_subject +:+ admitted_claimed (to_hex (c_value_digest admitted)) (to_hex (q_result query)))) else
  if negb (bool_decide (c_caller admitted = q_caller query)) then
    Err (Violated ("runtime caller mismatch for " +:+ at_subject +:+ admitted_claimed (debug_caller (c_caller admitted)) (debug_caller (q_caller query)))) else
  if negb (bool_decide (c_release admitted = q_release query)) then
    Err (Violated ("runtime release mismatch for " +:+ at_subject +:+ admitted_claimed (quote (c_release admitted)) (quote (q_release query)))) else
  if negb (bool_decide (c_grants admitted = q_grants query)) then
    Err (Violated ("runtime grants mismatch for " +:+ at_subject +:+ admitted_claimed (debug_grants (c_grants admitted)) (debug_grants (q_grants query)))) else
  Ok admitted
  end end end.

(** * [validate<T>] on an evaluated argument *)

Definition validation_outcome (variant : string) (arg : L3ValueV2) : L3ValueV2 := VCtor "ValidationOutcome" variant [arg].

(** The last field of one of the names with a value that [f] reads. *)
Definition last_field {A} (names : list string) (f : L3ValueV2 → option A) (fields : list (string * L3ValueV2)) : option A :=
  fold_left (λ acc e, if decide (e.1 ∈ names) then match f e.2 with Some a => Some a | None => acc end else acc) fields None.
Definition read_str (v : L3ValueV2) : option string := match v with VStr s => Some s | _ => None end.
Definition read_grants (v : L3ValueV2) : option (list string) := match v with VList items => mapM read_str items | _ => None end.
(** [u64::try_from(n).ok()] replaces what an earlier field set, also by nothing. *)
Definition read_revision (v : L3ValueV2) : option (option Z) := match v with VInt n => Some (if decide (0 ≤ n)%Z then Some n else None) | _ => None end.
Definition read_caller (v : L3ValueV2) : option (option string) :=
  s ← read_str v; Some (if decide (s = "") then None else Some s).

(** The fields a schema declares for a record, filled in by name. *)
Definition declared_fields (schemas : Schemas) (name : string) (fill : string → option L3ValueV2) : list (string * L3ValueV2) :=
  match schemas !! name with
  | Some (mkSchema _ (BodyRecord declared)) => omap (λ f, v ← fill f.1; Some (f.1, v)) (btree_iter declared)
  | _ => []
  end.

Definition documented_reference (arg_val : L3ValueV2) : option string * option string * option string :=
  match arg_val with
  | VRecord _ fields => (last_field ["uri"; "evidence_id"] read_str fields,
      last_field ["kind"; "evidence_kind"] read_str fields, last_field ["scope"; "authority_scope"] read_str fields)
  | VStr s => (Some s, None, None)
  | _ => (None, None, None)
  end.

Definition validate_documented_step (r : DocumentaryRegistry) (schemas : Schemas) (arg_val : L3ValueV2) : option L3ValueV2 :=
  let '(uri_opt, kind_opt, scope_opt) := documented_reference arg_val in
  match uri_opt with
  | None => Some (validation_outcome "Unknown" (VStr "missing or malformed uri in evidence reference"))
  | Some uri =>
    match lookup_documentary r uri kind_opt scope_opt with
    | Err (Violated reason) => Some (validation_outcome "Violated" (VStr reason))
    | Err (Unknown reason) => Some (validation_outcome "Unknown" (VStr reason))
    | Err Satisfied => None (* unreachable!() *)
    | Ok entry =>
      let digest_hex := to_hex (content_digest entry) in
      let fields := declared_fields schemas "DocumentedStep" (λ f_name,
        if decide (f_name ∈ ["uri"; "evidence_id"]) then Some (VStr (evidence_id entry))
        else if decide (f_name ∈ ["digest"; "content_digest"]) then Some (VStr digest_hex)
        else if decide (f_name ∈ ["kind"; "evidence_kind"]) then Some (VStr (evidence_kind entry))
        else if decide (f_name ∈ ["scope"; "authority_scope"]) then Some (VStr (authority_scope entry))
        else if decide (f_name = "status") then Some (VStr "Satisfied") else None) in
      let fields := if decide (fields = []) then
          [("digest", VStr digest_hex); ("status", VStr "Satisfied"); ("uri", VStr (evidence_id entry))] else fields in
      Some (validation_outcome "Satisfied" (VRecord "DocumentedStep" fields))
    end
  end.

(** A digest field: absent, or read, or refused with a diagnostic. *)
Definition pinned_digest (what : string) (hex : option string) : result L3ValueV2 (option Digest) :=
  match hex with
  | None => Ok None
  | Some hex =>
    match parse_digest_hex hex with
    | Some d => Ok (Some d)
    | None => Err (validation_outcome "Violated" (VStr ("invalid " +:+ what +:+ " hex in runtime claim: " +:+ hex)))
    end
  end.

Definition MISSING_FIELDS : string :=
  "runtime claim is missing required target fields (decision_name, entity, world, program, revision, revision_digest, candidate, result, caller, release, grants)".

(** The query a record spells, or the outcome that refuses it. A [status] field is not looked at. *)
Definition runtime_query (arg_val : L3ValueV2) : result L3ValueV2 RuntimeClaimQuery :=
  match arg_val with
  | VRecord _ fields =>
    world ← pinned_digest "world digest" (last_field ["world"; "world_digest"] read_str fields);
    program ← pinned_digest "program digest" (last_field ["program"; "program_digest"] read_str fields);
    revision_digest ← pinned_digest "revision_digest" (last_field ["revision_digest"] read_str fields);
    value ← pinned_digest "result digest" (last_field ["result"; "value_digest"] read_str fields);
    ok_or (
      decide' ← last_field ["decision_name"; "target"; "decide"] read_str fields;
      entity ← last_field ["entity"; "question"] read_str fields;
      world ← world;
      program ← program;
      revision ← mjoin (last_field ["revision"; "seq"] read_revision fields);
      revision_digest ← revision_digest;
      candidate ← last_field ["candidate"] read_str fields;
      value ← value;
      caller ← last_field ["caller"] read_caller fields;
      release ← last_field ["release"; "release_id"] read_str fields;
      grants ← last_field ["grants"] read_grants fields;
      Some (mkQuery decide' entity world (Some program) revision (Some revision_digest) candidate value caller release grants))
      (validation_outcome "Unknown" (VStr MISSING_FIELDS))
  | _ => Err (validation_outcome "Unknown" (VStr "unverified runtime evidence: raw value cannot establish runtime authority"))
  end.

(** [admitted.revision as i64]. *)
Definition u64_as_i64 (v : Z) : Z := if decide (v < 2 ^ 63)%Z then v else (v - 2 ^ 64)%Z.

Definition validate_runtime_outcome `{DebugText} (r : DocumentaryRegistry) (schemas : Schemas) (arg_val : L3ValueV2) : option L3ValueV2 :=
  match runtime_query arg_val with
  | Err outcome => Some outcome
  | Ok query =>
    match lookup_runtime_claim r query with
    | Err (Violated reason) => Some (validation_outcome "Violated" (VStr reason))
    | Err (Unknown reason) => Some (validation_outcome "Unknown" (VStr reason))
    | Err Satisfied => None (* unreachable!() *)
    | Ok admitted =>
      let fields := declared_fields schemas "RuntimeOutcome" (λ f_name,
        if decide (f_name = "candidate") then Some (VStr (c_candidate admitted))
        else if decide (f_name ∈ ["decision_name"; "target"; "decide"]) then Some (VStr (c_decide admitted))
        else if decide (f_name ∈ ["entity"; "question"]) then Some (VStr (c_entity admitted))
        else if decide (f_name ∈ ["world"; "world_digest"]) then Some (VStr (to_hex (c_world admitted)))
        else if decide (f_name ∈ ["program"; "program_digest"]) then Some (VStr (to_hex (c_program admitted)))
        else if decide (f_name ∈ ["revision"; "seq"]) then Some (VInt (u64_as_i64 (c_revision admitted)))
        else if decide (f_name = "revision_digest") then Some (VStr (to_hex (c_revision_digest admitted)))
        else if decide (f_name ∈ ["result"; "value_digest"]) then Some (VStr (to_hex (c_value_digest admitted)))
        else if decide (f_name = "caller") then Some (VStr (default "" (c_caller admitted)))
        else if decide (f_name ∈ ["release"; "release_id"]) then Some (VStr (c_release admitted))
        else if decide (f_name = "grants") then Some (VList (VStr <$> c_grants admitted))
        else if decide (f_name = "status") then Some (VStr "Satisfied") else None) in
      let fields := if decide (fields = []) then
          [("candidate", VStr (c_candidate admitted)); ("decision_name", VStr (c_decide admitted)); ("status", VStr "Satisfied")] else fields in
      Some (validation_outcome "Satisfied" (VRecord "RuntimeOutcome" fields))
    end
  end.

(** The value of [validate<target_type>(arg_val)]; [None] is a panic. *)
Definition validate_authority `{DebugText} (r : DocumentaryRegistry) (schemas : Schemas) (target_type : string) (arg_val : L3ValueV2) :
    option (result EvalFault L3ValueV2) :=
  let target_unqualified := last_segment "::" target_type in
  if decide (target_unqualified = "DocumentedStep") then Ok <$> validate_documented_step r schemas arg_val
  else if decide (target_unqualified = "RuntimeOutcome") then Ok <$> validate_runtime_outcome r schemas arg_val
  else Some (Err (OperandShape "unsupported validate target type")).

(** * The lookups decide *)

(** The query repeats every field of the claim. *)
Definition query_of (c : VerifiedDecisionClaim) : RuntimeClaimQuery :=
  mkQuery (c_decide c) (c_entity c) (c_world c) (Some (c_program c)) (c_revision c) (Some (c_revision_digest c)) (c_candidate c)
    (c_value_digest c) (c_caller c) (c_release c) (c_grants c).

(** Both sides of the equivalence fail. *)
Ltac refuses :=
  split; [discriminate|]; unfold query_of in *; cbn; intros;
  repeat match goal with H : _ ∧ _ |- _ => destruct H | H : ex _ |- _ => destruct H end;
  exfalso; congruence.

Lemma lookup_documentary_Ok r uri kind scope entry : lookup_documentary r uri kind scope = Ok entry ↔
  starts_with "doc://" uri = true ∧ (∃ s d, snapshot r = Some (s, d) ∧ entries s !! uri = Some entry) ∧ disposition entry = Satisfied ∧
  is_admitted_documented_step_kind (evidence_kind entry) = true ∧ is_admitted_documented_step_scope (authority_scope entry) = true ∧
  kind = Some (evidence_kind entry) ∧ scope = Some (authority_scope entry).
Proof.
  unfold lookup_documentary, get_entry. destruct (starts_with "doc://" uri); cbn [negb]; [|refuses].
  destruct (snapshot r) as [[s d]|]; [|refuses]. destruct (entries s !! uri) as [e|] eqn:He; [|refuses].
  destruct (disposition e) eqn:Hd; [|refuses..].
  destruct (bool_decide_reflect (evidence_kind e = "")) as [Hk|_]; cbn [orb].
  { split; [done|]. intros (_ & (s' & d' & [= <- <-] & He') & _ & Ha & _). rewrite He in He'. injection He' as <-. by rewrite Hk in Ha. }
  destruct (bool_decide_reflect (authority_scope e = "")) as [Hs|_]; cbn [orb].
  { split; [done|]. intros (_ & (s' & d' & [= <- <-] & He') & _ & _ & Ha & _). rewrite He in He'. injection He' as <-. by rewrite Hs in Ha. }
  destruct (is_admitted_documented_step_kind (evidence_kind e)) eqn:Hak; cbn [negb orb]; [|refuses].
  destruct (is_admitted_documented_step_scope (authority_scope e)) eqn:Has; cbn [negb orb]; [|refuses].
  destruct kind as [k|]; [|refuses]. destruct (is_admitted_documented_step_kind k) eqn:Hkk; cbn [negb]; [|refuses].
  destruct (bool_decide_reflect (k = evidence_kind e)) as [->|]; cbn [negb]; [|refuses].
  destruct scope as [sc|]; [|refuses]. destruct (is_admitted_documented_step_scope sc) eqn:Hss; cbn [negb]; [|refuses].
  destruct (bool_decide_reflect (sc = authority_scope e)) as [->|]; cbn [negb]; [|refuses].
  split; [intros [= <-]; eauto 12|]. intros (_ & (s' & d' & [= <- <-] & He') & _). congruence.
Qed.

Lemma lookup_documentary_not_satisfied r uri kind scope : lookup_documentary r uri kind scope ≠ Err Satisfied.
Proof. unfold lookup_documentary. repeat case_match; congruence. Qed.

Section claims.
Context `{DebugText}.

Lemma lookup_runtime_claim_Ok r query c : lookup_runtime_claim r query = Ok c ↔
  contains "::" (q_decide query) = true ∧ iter_find (same_subject query) (runtime_claims r) = Some c ∧ query = query_of c.
Proof.
  unfold lookup_runtime_claim. destruct (contains "::" (q_decide query)); cbn [negb]; [|refuses].
  destruct (iter_find _ _) as [a|] eqn:Hf; [|refuses]. destruct query as [qd qe qw qp qr qrd qc qv qcl qrel qg]. cbn in *.
  pose proof (iter_find_Some _ _ _ Hf) as [_ Hs%bool_decide_eq_true]. cbn in Hs. destruct Hs as (Hd & He & Hw & Hr).
  destruct qp as [p|]; [|refuses]. destruct (bool_decide_reflect (c_program a = p)) as [Hp|]; cbn [negb]; [|refuses].
  destruct qrd as [rd|]; [|refuses]. destruct (bool_decide_reflect (c_revision_digest a = rd)) as [Hrd|]; cbn [negb]; [|refuses].
  destruct (bool_decide_reflect (c_candidate a = qc)) as [Hc|]; cbn [negb]; [|refuses].
  destruct (bool_decide_reflect (c_value_digest a = qv)) as [Hv|]; cbn [negb]; [|refuses].
  destruct (bool_decide_reflect (c_caller a = qcl)) as [Hcl|]; cbn [negb]; [|refuses].
  destruct (bool_decide_reflect (c_release a = qrel)) as [Hrel|]; cbn [negb]; [|refuses].
  destruct (bool_decide_reflect (c_grants a = qg)) as [Hg|]; cbn [negb]; [|refuses].
  split; [intros [= <-]; split; [done|]; split; [done|]; unfold query_of; by subst|]. by intros (_ & [= <-] & _).
Qed.

Lemma lookup_runtime_claim_not_satisfied r query : lookup_runtime_claim r query ≠ Err Satisfied.
Proof. unfold lookup_runtime_claim. repeat case_match; congruence. Qed.

Lemma runtime_query_outcome arg o : runtime_query arg = Err o → ∃ variant reason, o = validation_outcome variant (VStr reason) ∧ variant ≠ "Satisfied".
Proof.
  assert (∀ what hex o, pinned_digest what hex = Err o → ∃ variant reason, o = validation_outcome variant (VStr reason) ∧ variant ≠ "Satisfied") as Hp.
  { intros what [hex|] o'; [|done]. cbn. destruct (parse_digest_hex hex); [done|]. intros [= <-]. by do 2 eexists. }
  unfold runtime_query. destruct arg; try (intros [= <-]; by do 2 eexists).
  destruct (pinned_digest "world digest" _) as [w|o1] eqn:E1; cbn; [|intros [= <-]; eauto].
  destruct (pinned_digest "program digest" _) as [p|o1] eqn:E2; cbn; [|intros [= <-]; eauto].
  destruct (pinned_digest "revision_digest" _) as [rd|o1] eqn:E3; cbn; [|intros [= <-]; eauto].
  destruct (pinned_digest "result digest" _) as [v|o1] eqn:E4; cbn; [|intros [= <-]; eauto].
  match goal with |- ok_or ?m _ = _ → _ => destruct m end; [done|]. intros [= <-]. by do 2 eexists.
Qed.

(** What a [validate] answers. *)
Inductive mint (r : DocumentaryRegistry) (arg_val : L3ValueV2) : L3ValueV2 → Prop :=
  | mint_refused variant reason : variant ≠ "Satisfied" → mint r arg_val (validation_outcome variant (VStr reason))
  | mint_step uri kind scope entry fields :
      documented_reference arg_val = (Some uri, kind, scope) → lookup_documentary r uri kind scope = Ok entry → mint r arg_val (validation_outcome "Satisfied" (VRecord "DocumentedStep" fields))
  | mint_outcome claim fields :
      claim ∈ runtime_claims r → runtime_query arg_val = Ok (query_of claim) → contains "::" (c_decide claim) = true →
      mint r arg_val (validation_outcome "Satisfied" (VRecord "RuntimeOutcome" fields)).

Lemma documented_step_mints r schemas arg_val : ∃ v, validate_documented_step r schemas arg_val = Some v ∧ mint r arg_val v.
Proof.
  unfold validate_documented_step. destruct (documented_reference arg_val) as [[[uri|] kind] scope] eqn:Hd.
  2:{ eexists. split; [done|by constructor]. }
  pose proof (lookup_documentary_not_satisfied r uri kind scope). destruct (lookup_documentary r uri kind scope) as [entry|[|reason|reason]] eqn:Hl; [|done|..];
    (eexists; split; [reflexivity|]); [by eapply mint_step|by constructor..].
Qed.

Lemma runtime_outcome_mints r schemas arg_val : ∃ v, validate_runtime_outcome r schemas arg_val = Some v ∧ mint r arg_val v.
Proof.
  unfold validate_runtime_outcome. destruct (runtime_query arg_val) as [query|o] eqn:Hq.
  2:{ destruct (runtime_query_outcome _ _ Hq) as (variant & reason & -> & Hv). eexists. split; [done|by constructor]. }
  pose proof (lookup_runtime_claim_not_satisfied r query). destruct (lookup_runtime_claim r query) as [c|[|reason|reason]] eqn:Hl; [|done|..];
    (eexists; split; [reflexivity|]); [|by constructor..]. apply lookup_runtime_claim_Ok in Hl as (Hc & [Hin _]%iter_find_Some & ->). by apply (mint_outcome _ _ c).
Qed.

Lemma validate_authority_total r schemas target_type arg_val :
  ∃ res, validate_authority r schemas target_type arg_val = Some res ∧
    match res with Ok v => mint r arg_val v | Err f => f = OperandShape "unsupported validate target type" end.
Proof.
  unfold validate_authority. case_decide.
  - destruct (documented_step_mints r schemas arg_val) as (v & -> & Hv). by exists (Ok v).
  - case_decide; [|by eexists]. destruct (runtime_outcome_mints r schemas arg_val) as (v & -> & Hv). by exists (Ok v).
Qed.
End claims.

(** * Digests in hexadecimal *)

Lemma from_digit_code b : (0 ≤ b < 16)%Z → Z.of_N (Ascii.N_of_ascii (from_digit b)) = (if decide (b < 10) then 48 + b else 87 + b)%Z.
Proof.
  intros Hb. unfold from_digit. set (c := if decide _ then _ else _). assert (0 ≤ c < 128)%Z as Hc by (unfold c; case_decide; lia).
  rewrite Ascii.N_ascii_embedding; [lia|]. apply N2Z.inj_lt. rewrite Z2N.id by lia. lia.
Qed.

Lemma digit_round b : (0 ≤ b < 16)%Z → to_digit (Z.of_N (Ascii.N_of_ascii (from_digit b))) = Some b.
Proof.
  intros Hb. rewrite from_digit_code by done. unfold to_digit. destruct (decide (b < 10)%Z).
  - rewrite decide_True by lia. f_equal. lia.
  - rewrite decide_False, decide_True by lia. f_equal. lia.
Qed.

Lemma hex_bytes_round l rest : are_bytes l →
  hex_bytes (length l) (bytes_of_string (fold_right (λ b s, String (from_digit (Z.shiftr b 4)) (String (from_digit (Z.land b 15)) s)) EmptyString l) ++ rest) = Some l.
Proof.
  induction 1 as [|b l Hb Hl IH]; [done|]. cbn [fold_right length hex_bytes].
  set (s := fold_right _ _ l) in *. change (bytes_of_string (String ?c (String ?d s))) with (Z.of_N (Ascii.N_of_ascii c) :: Z.of_N (Ascii.N_of_ascii d) :: bytes_of_string s).
  cbn [app hex_bytes]. unfold is_byte in Hb.
  assert (Z.shiftr b 4 = b / 16)%Z as E1 by by rewrite Z.shiftr_div_pow2. assert (Z.land b 15 = b mod 16)%Z as E2 by (change 15%Z with (Z.ones 4); by rewrite Z.land_ones).
  rewrite !digit_round by (rewrite ?E1, ?E2; first [apply Z.mod_pos_bound; lia|split; [apply Z.div_pos; lia|apply Z.div_lt_upper_bound; lia]]).
  cbn [mbind option_bind]. rewrite IH. cbn. do 2 f_equal. apply Z.bits_inj'. intros n Hn. rewrite Z.lor_spec, Z.land_spec.
  destruct (decide (n < 4)%Z).
  - rewrite Z.shiftl_spec_low by lia. change 15%Z with (Z.ones 4). by rewrite Z.ones_spec_low, andb_true_r by lia.
  - rewrite Z.shiftl_spec_high, Z.shiftr_spec by lia. change 15%Z with (Z.ones 4). rewrite Z.ones_spec_high, andb_false_r, orb_false_r by lia. f_equal. lia.
Qed.

Lemma to_hex_shape l : are_bytes l →
  let s := fold_right (λ b s, String (from_digit (Z.shiftr b 4)) (String (from_digit (Z.land b 15)) s)) EmptyString l in
  length (bytes_of_string s) = 2 * length l ∧ is_ascii_string s = true.
Proof.
  cbn zeta. induction 1 as [|b l Hb Hl [IH1 IH2]]; [done|]. cbn [fold_right length]. set (s := fold_right _ _ l) in *.
  unfold is_ascii_string in *. change (bytes_of_string (String ?c (String ?d s))) with (Z.of_N (Ascii.N_of_ascii c) :: Z.of_N (Ascii.N_of_ascii d) :: bytes_of_string s).
  cbn [length forallb]. split; [lia|]. unfold is_byte in Hb.
  assert (∀ d, 0 ≤ d < 16 → Z.of_N (Ascii.N_of_ascii (from_digit d)) < 128)%Z as Hd.
  { intros d Hd. rewrite from_digit_code by done. case_decide; lia. }
  rewrite IH2, !bool_decide_true; [done|..]; apply Hd.
  - change 15%Z with (Z.ones 4). rewrite Z.land_ones by done. apply Z.mod_pos_bound. lia.
  - rewrite Z.shiftr_div_pow2 by done. split; [apply Z.div_pos; lia|apply Z.div_lt_upper_bound; lia].
Qed.

(** What [to_hex] prints is parsed back. *)
Lemma parse_to_hex d : digest_ok d → parse_digest_hex (to_hex d) = Some d.
Proof.
  intros [Hl Hb]. unfold parse_digest_hex. destruct (to_hex_shape (as_bytes d) Hb) as [H1 H2]. fold (to_hex d) in H1, H2. rewrite Hl in H1.
  rewrite bool_decide_true, H2 by done. cbn [negb orb]. pose proof (hex_bytes_round (as_bytes d) [] Hb) as Hr. rewrite app_nil_r, Hl in Hr.
  fold (to_hex d) in Hr. rewrite Hr. by destruct d.
Qed.

(** * The identity of a snapshot *)

Definition str_frame (s : string) : bytes := frame (bytes_of_string s).
#[export] Instance prefix_free_str_frame : PrefixFree string_ok str_frame.
Proof.
  intros x y r1 r2 Hx Hy H. apply prefix_free_frame in H as [Hs ->]; [|done..]. split; [by apply (inj bytes_of_string)|done].
Qed.

Definition enc_disposition (d : DocumentaryDisposition) : bytes :=
  match d with
  | Satisfied => encode_uint 0
  | Violated reason => encode_uint 1 ++ str_frame reason
  | Unknown reason => encode_uint 2 ++ str_frame reason
  end.
Definition disposition_ok (d : DocumentaryDisposition) : Prop :=
  match d with Satisfied => True | Violated reason | Unknown reason => string_ok reason end.
#[export] Instance prefix_free_disposition : PrefixFree disposition_ok enc_disposition.
Proof.
  assert (∀ n m (a b : bytes), (0 ≤ n < 3)%Z → (0 ≤ m < 3)%Z → encode_uint n ++ a = encode_uint m ++ b → n = m ∧ a = b) as Hu.
  { intros n m a b Hn Hm H. by apply encode_uint_prefix in H; [|int_lia..]. }
  intros [|x|x] [|y|y] r1 r2 Hx Hy H; cbn in *; rewrite <-?app_assoc in H; apply Hu in H as [He H]; try done.
  - apply prefix_free in H as [-> ->]; done.
  - apply prefix_free in H as [-> ->]; done.
Qed.

Definition enc_entry (e : string * DocumentaryEntry) : bytes :=
  str_frame e.1 ++ str_frame (evidence_id e.2) ++ frame (as_bytes (content_digest e.2)) ++ str_frame (evidence_kind e.2) ++
  str_frame (authority_scope e.2) ++ enc_disposition (disposition e.2).
Definition entry_ok (e : string * DocumentaryEntry) : Prop :=
  string_ok e.1 ∧ string_ok (evidence_id e.2) ∧ digest_ok (content_digest e.2) ∧ string_ok (evidence_kind e.2) ∧
  string_ok (authority_scope e.2) ∧ disposition_ok (disposition e.2).
Lemma digest_len_ok d : digest_ok d → len_ok (as_bytes d).
Proof. intros [Hl _]. unfold len_ok. rewrite Hl. done. Qed.
#[export] Instance prefix_free_entry : PrefixFree entry_ok enc_entry.
Proof.
  intros [k1 [i1 d1 t1 s1 p1]] [k2 [i2 d2 t2 s2 p2]] r1 r2 H1 H2 H. unfold entry_ok, enc_entry in *. cbn in *.
  destruct H1 as (A1 & A2 & A3%digest_len_ok & A4 & A5 & A6), H2 as (B1 & B2 & B3%digest_len_ok & B4 & B5 & B6). rewrite <-!app_assoc in H.
  apply prefix_free_str_frame in H as [-> H]; [|done..]. apply prefix_free_str_frame in H as [-> H]; [|done..].
  apply prefix_free_frame in H as [->%(inj as_bytes) H]; [|done..]. apply prefix_free_str_frame in H as [-> H]; [|done..].
  apply prefix_free_str_frame in H as [-> H]; [|done..]. by apply prefix_free_disposition in H as [-> ->].
Qed.

Definition snapshot_ok (s : DocumentarySnapshot) : Prop :=
  len_ok (btree_iter (entries s)) ∧ Forall entry_ok (btree_iter (entries s)).

Lemma write_frame s w : write_string s w = w ++ str_frame s.
Proof. apply write_bytes_app. Qed.

Lemma snapshot_payload_enc s : snapshot_payload s =
  write_tag "brix.evidence.documentary-snapshot@1" [] ++ enc_list enc_entry (btree_iter (entries s)).
Proof.
  unfold snapshot_payload. rewrite (write_each_app write_entry enc_entry).
  2:{ intros [k e] w. unfold write_entry, enc_entry, write_disposition, enc_disposition. cbn [fst snd]. rewrite !write_frame. rewrite write_bytes_app.
      destruct (disposition e); unfold write_uint; rewrite ?write_frame, <-!app_assoc; reflexivity. }
  unfold write_uint, enc_list. rewrite <-!app_assoc. do 2 f_equal. f_equal. f_equal. unfold btree_iter. by rewrite sort_by_perm, length_map_to_list.
Qed.

Lemma snapshot_identity `{Blake3} s1 s2 : snapshot_ok s1 → snapshot_ok s2 → snapshot_digest s1 = snapshot_digest s2 →
  s1 = s2 ∨ collision (domain_message Snapshot (snapshot_payload s1)) (domain_message Snapshot (snapshot_payload s2)).
Proof.
  intros H1 H2 [[_ Hp]|Hc]%digest_of_binds; [left|by right]. rewrite !snapshot_payload_enc in Hp. apply app_inv_head in Hp.
  apply (prefix_free_inj _ (enc_list enc_entry)) in Hp; [|done..]. destruct s1, s2. f_equal. by apply btree_iter_inj.
Qed.

(** * Registries a host can build *)

Section reachable.
Context `{Blake3} (trusted : VerifiedDecisionClaim → Prop) (pinned : Digest → Prop).

(** From the empty registry, by claims of trusted providers, snapshots loaded against pinned
    digests, and the retired admission. *)
Inductive reachable : DocumentaryRegistry → Prop :=
  | reach_new : reachable registry_new
  | reach_admit c r : trusted c → reachable r → reachable (admit_trusted_runtime_provider c r)
  | reach_snapshot s d r : pinned d → reachable r → reachable (with_verified_snapshot s d r).2
  | reach_retired c r : reachable r → reachable (admit_runtime_evidence c r).2.

Lemma reachable_inv r : reachable r →
  (∀ s d, snapshot r = Some (s, d) → pinned d ∧ snapshot_digest s = d) ∧ (∀ c, c ∈ runtime_claims r → trusted c) ∧ NoDup (runtime_claims r).
Proof.
  induction 1 as [|c r Hc _ (I1 & I2 & I3)|s d r Hd _ (I1 & I2 & I3)|c r _ IH]; [split; [done|]; split; [by intros c ?%elem_of_nil|constructor]| | |exact IH].
  - unfold admit_trusted_runtime_provider. case_decide as Hin; [done|]. cbn. split; [done|]. split.
    + intros c'. rewrite sort_by_perm, elem_of_app, list_elem_of_singleton. intros [?| ->]; auto.
    + rewrite sort_by_perm. apply NoDup_app. split; [done|]. split; [intros c' Hc' Heq%list_elem_of_singleton; congruence|apply NoDup_singleton].
  - unfold with_verified_snapshot. case_decide as Hn; cbn; [done|]. split; [|done]. intros s' d' [= <- <-]. split; [done|]. destruct (decide (snapshot_digest s = d)); [done|by destruct Hn].
Qed.
End reachable.

(** * Properties *)

(** C18: Authority is only minted. For every registry a host can build, a [validate] answers,
    without a panic, a refusal or a value, and a [Satisfied] outcome is one of two things. A
    [DocumentedStep] stands for a satisfied entry, at the uri the argument names, of a snapshot
    whose digest is a pinned one; kind and scope are admitted and are those the argument states.
    A [RuntimeOutcome] stands for a claim of a trusted provider every field of which, its
    program, revision, result, caller, release and grants included, the argument repeats. *)
Theorem authority_is_minted `{Blake3, DebugText} trusted pinned r schemas target_type arg_val :
  reachable trusted pinned r →
  ∃ res, validate_authority r schemas target_type arg_val = Some res ∧
  ∀ v, res = Ok (validation_outcome "Satisfied" v) →
    (∃ uri entry s d fields, documented_reference arg_val = (Some uri, Some (evidence_kind entry), Some (authority_scope entry)) ∧
       pinned d ∧ snapshot_digest s = d ∧ entries s !! uri = Some entry ∧ disposition entry = Satisfied ∧
       is_admitted_documented_step_kind (evidence_kind entry) = true ∧ is_admitted_documented_step_scope (authority_scope entry) = true ∧
       v = VRecord "DocumentedStep" fields) ∨
    (∃ claim fields, trusted claim ∧ runtime_query arg_val = Ok (query_of claim) ∧ v = VRecord "RuntimeOutcome" fields).
Proof.
  intros (I1 & I2 & _)%reachable_inv. destruct (validate_authority_total r schemas target_type arg_val) as (res & Hres & Hm). exists res. split; [done|].
  intros v ->. cbn in Hm. inversion Hm as [variant reason Hv|uri kind scope entry fields Href Hl|claim fields Hin Hq _]; subst.
  - done.
  - left. apply lookup_documentary_Ok in Hl as (_ & (s & d & Hs & He) & Hd & Hk & Hsc & -> & ->). destruct (I1 s d Hs) as [Hp Hdig].
    by exists uri, entry, s, d, fields.
  - right. exists claim, fields. auto.
Qed.

Definition demo_debug : DebugText := {| debug_caller := default ""; debug_grants := foldr String.append "" |}.
Definition demo_claim : VerifiedDecisionClaim :=
  mkClaim (mkDigest (replicate 32 17%Z)) (mkDigest (replicate 32 34%Z)) 5 (mkDigest (replicate 32 51%Z)) "ship::launch" "odyssey" "go"
    (mkDigest (replicate 32 68%Z)) None ["fleet"] "r1".
Definition demo_reference (candidate : string) : L3ValueV2 :=
  VRecord "Ref" [("decide", VStr "ship::launch"); ("entity", VStr "odyssey"); ("world", VStr (to_hex (c_world demo_claim)));
    ("program", VStr (to_hex (c_program demo_claim))); ("revision", VInt 5); ("revision_digest", VStr (to_hex (c_revision_digest demo_claim)));
    ("candidate", VStr candidate); ("result", VStr (to_hex (c_value_digest demo_claim))); ("caller", VStr ""); ("release", VStr "r1");
    ("grants", VList [VStr "fleet"]); ("status", VStr "Satisfied")].
Definition demo_registry : DocumentaryRegistry := admit_trusted_runtime_provider demo_claim registry_new.

Lemma authority_is_minted_witness :
  (∃ v, @validate_authority demo_debug demo_registry ∅ "RuntimeOutcome" (demo_reference "go") = Some (Ok (validation_outcome "Satisfied" v)) ∧
    ((∃ uri entry s d fields, documented_reference (demo_reference "go") = (Some uri, Some (evidence_kind entry), Some (authority_scope entry)) ∧
       False ∧ @snapshot_digest demo_hash s = d ∧ entries s !! uri = Some entry ∧ disposition entry = Satisfied ∧
       is_admitted_documented_step_kind (evidence_kind entry) = true ∧ is_admitted_documented_step_scope (authority_scope entry) = true ∧
       v = VRecord "DocumentedStep" fields) ∨
     (∃ claim fields, claim = demo_claim ∧ runtime_query (demo_reference "go") = Ok (query_of claim) ∧ v = VRecord "RuntimeOutcome" fields))) ∧
  ∃ reason, @validate_authority demo_debug demo_registry ∅ "RuntimeOutcome" (demo_reference "stay") = Some (Ok (validation_outcome "Violated" reason)).
Proof.
  split; [|eexists; vm_compute; reflexivity].
  assert (reachable (H := demo_hash) (λ c, c = demo_claim) (λ _, False) demo_registry) as Hr.
  { apply reach_admit; [reflexivity|apply reach_new]. }
  destruct (@authority_is_minted demo_hash demo_debug (λ c, c = demo_claim) (λ _, False) demo_registry ∅ "RuntimeOutcome" (demo_reference "go") Hr)
    as (res & Hres & Hv).
  assert (∃ v, res = Ok (validation_outcome "Satisfied" v)) as [v Ev].
  { vm_compute in Hres. injection Hres as <-. eexists. reflexivity. }
  exists v. split; [rewrite Hres, Ev; reflexivity|exact (Hv v Ev)].
Defined.

(** A registry holds exactly what was pinned. Loading a snapshot succeeds exactly when its
    digest is the expected one; and two snapshots with one digest are the same, entry by entry,
    with every disposition and reason, unless BLAKE3 collides on their two payloads. What a
    digest prints as, a claim's query reads back. *)
Theorem snapshot_pinned `{Blake3} s1 s2 d : snapshot_ok s1 → snapshot_ok s2 → digest_ok d →
  (is_ok (from_snapshot s1 d) = true ↔ snapshot_digest s1 = d) ∧
  (snapshot_digest s1 = snapshot_digest s2 →
    s1 = s2 ∨ collision (domain_message Snapshot (snapshot_payload s1)) (domain_message Snapshot (snapshot_payload s2))) ∧
  parse_digest_hex (to_hex d) = Some d.
Proof.
  intros H1 H2 Hd. split; [|split; [by apply snapshot_identity|by apply parse_to_hex]].
  unfold from_snapshot, with_verified_snapshot. case_decide as Hn; cbn; (split; [|try done]); [done|]. intros _. destruct (decide (snapshot_digest s1 = d)); [done|by destruct Hn].
Qed.

Definition demo_snapshot : DocumentarySnapshot :=
  insert_entry snapshot_new (mkEntry "doc://a" (mkDigest (replicate 32 1%Z)) "approval" "fleet" Satisfied).

Lemma snapshot_pinned_witness :
  parse_digest_hex (to_hex (@snapshot_digest demo_hash demo_snapshot)) = Some (@snapshot_digest demo_hash demo_snapshot) ∧
  is_ok (@from_snapshot demo_hash demo_snapshot (@snapshot_digest demo_hash demo_snapshot)) = true.
Proof.
  assert (snapshot_ok demo_snapshot) as Hs.
  { split; [vm_compute; reflexivity|]. unfold demo_snapshot, insert_entry. cbn [entries]. assert (btree_iter (entries demo_snapshot) = [("doc://a", mkEntry "doc://a" (mkDigest (replicate 32 1%Z)) "approval" "fleet" Satisfied)]) as E by (vm_compute; reflexivity).
    unfold demo_snapshot, insert_entry in E. cbn [entries] in E. rewrite E. constructor; [|constructor].
    split_and!; try (vm_compute; reflexivity); try exact I. apply (bool_decide_unpack _). vm_compute. exact I. }
  assert (digest_ok (@snapshot_digest demo_hash demo_snapshot)) as Hd by apply digest_of_ok.
  destruct (@snapshot_pinned demo_hash demo_snapshot demo_snapshot (@snapshot_digest demo_hash demo_snapshot) Hs Hs Hd) as (Hiff & _ & Hhex).
  split; [exact Hhex|]. apply Hiff. reflexivity.
Defined.

(** An admitted claim that a query repeats field by field is not found when another claim of the
    same decision, entity, world and revision, here for another caller, sorts before it. *)
Definition other_claim : VerifiedDecisionClaim :=
  mkClaim (c_world demo_claim) (c_program demo_claim) 5 (c_revision_digest demo_claim) "ship::launch" "odyssey" "go"
    (c_value_digest demo_claim) (Some "ada") ["fleet"] "r1".
Lemma claim_shadowed :
  let r := admit_trusted_runtime_provider other_claim demo_registry in
  runtime_claims r = [demo_claim; other_claim] ∧ is_ok (@lookup_runtime_claim demo_debug r (query_of demo_claim)) = true ∧
  other_claim ∈ runtime_claims r ∧ is_ok (@lookup_runtime_claim demo_debug r (query_of other_claim)) = false.
Proof.
  cbn zeta. assert (runtime_claims (admit_trusted_runtime_provider other_claim demo_registry) = [demo_claim; other_claim]) as E by (vm_compute; reflexivity).
  split; [exact E|]. split; [vm_compute; reflexivity|]. split; [rewrite E; right; left|vm_compute; reflexivity].
Qed.
