(* ===== verification/L3Eval.v ===== *)
(** The evaluator of lowered expressions (src/crates/brix-lower/src/l3_v2.rs).

    An evaluation runs under an [EvalEnv] and, when helpers or lists are in scope, under an
    [EvalBudget]. [Eval] threads the budget, which a fault leaves as it is at that point, and has
    a panic and the end of the model's fuel as outcomes of their own. The fuel counts the levels
    of recursion; a [NativeStack] says where an evaluation runs and how many levels fit there, so
    that the end of the fuel is the overflow of the thread's stack, which aborts the process. The counter a whole run
    shares, [run_work], is the part of the budget that outlives the evaluation. The sizes of the
    compiler's layout are the class [ValueLayout]. *)
From S2P Require Import Prelude Text IntCodec Canon CanonLaws Encoding Decimal DecimalMath Values FloatMath L3Value Evidence.

(** [size_of::<L3ValueV2>()] and [size_of::<(String, L3ValueV2)>()]. *)
Class ValueLayout := { size_of_value : Z; size_of_field : Z }.

(** * Expressions *)

Inductive L3ExprV2 : Type :=
  | EInt (n : Z)
  | EStr (s : string)
  | EBool (b : bool)
  | ELetRef (name : string)
  | ERuleFact (rule : string)
  | ENullaryVariant (nominal_sum variant : string)
  | ECtor (nominal_sum variant : string) (args : list L3ExprV2)
  | ERecord (nominal_config : string) (fields : list (string * L3ExprV2))
  | EField (base : L3ExprV2) (field : string)
  | EArith (op : ArithOpV2) (a b : L3ExprV2)
  | ECmp (op : CmpOpV2) (a b : L3ExprV2)
  | EMatch (scrutinee : L3ExprV2) (arms : list (L3PatternV2 * L3ExprV2))
  | ECall (func : string) (args : list L3ExprV2)
  | EAnd (a b : L3ExprV2)
  | EOr (a b : L3ExprV2)
  | ENot (a : L3ExprV2)
  | EIntDivMod (op : DivModOpV2) (a b : L3ExprV2)
  | EFold (op : FoldOpV2) (list : L3ExprV2) (binder : string) (body : L3ExprV2)
  | EFilter (list : L3ExprV2) (binder : string) (cond : L3ExprV2)
  | EMap (list : L3ExprV2) (binder : string) (body : L3ExprV2)
  | EComprehension (generators : list (string * L3ExprV2)) (where_clause : option L3ExprV2) (yield_expr : L3ExprV2)
  | EListLit (items : list L3ExprV2)
  | EIn (needle haystack : L3ExprV2)
  | ELen (list : L3ExprV2)
  | EDistinct (list : L3ExprV2)
  | EOnly (list : L3ExprV2)
  | EAscribe (expr : L3ExprV2) (element : L3SchemaType)
  | ENumericBuiltin (op : NumericBuiltinV2) (args : list L3ExprV2)
  | EValidate (target_type : string) (arg : L3ExprV2).

Record L3FunctionDef : Type := mkFunction {
  f_name : string;
  params : list (string * option L3SchemaType);
  ret_contract : option L3SchemaType;
  f_schemas : Schemas;
  f_body : L3ExprV2
}.

Record EvalEnv : Type := mkEnv {
  inputs : gmap string L3ValueV2;
  lets : gmap string L3ValueV2;
  facts : gmap string L3ValueV2;
  locals : gmap string L3ValueV2;
  functions : gmap string L3FunctionDef;
  env_schemas : Schemas;
  documentary_registry : DocumentaryRegistry;
  checked_constructors : bool
}.
Definition env_new : EvalEnv := mkEnv ∅ ∅ ∅ ∅ ∅ ∅ registry_new false.
Definition with_input (name : string) (v : L3ValueV2) (e : EvalEnv) : EvalEnv :=
  mkEnv (<[name := v]> (inputs e)) (lets e) (facts e) (locals e) (functions e) (env_schemas e) (documentary_registry e) (checked_constructors e).
Definition with_let (name : string) (v : L3ValueV2) (e : EvalEnv) : EvalEnv :=
  mkEnv (inputs e) (<[name := v]> (lets e)) (facts e) (locals e) (functions e) (env_schemas e) (documentary_registry e) (checked_constructors e).
Definition with_fact (rule : string) (v : L3ValueV2) (e : EvalEnv) : EvalEnv :=
  mkEnv (inputs e) (lets e) (<[rule := v]> (facts e)) (locals e) (functions e) (env_schemas e) (documentary_registry e) (checked_constructors e).
Definition with_local (name : string) (v : L3ValueV2) (e : EvalEnv) : EvalEnv :=
  mkEnv (inputs e) (lets e) (facts e) (<[name := v]> (locals e)) (functions e) (env_schemas e) (documentary_registry e) (checked_constructors e).
Definition with_function (name : string) (def : L3FunctionDef) (e : EvalEnv) : EvalEnv :=
  mkEnv (inputs e) (lets e) (facts e) (locals e) (<[name := def]> (functions e)) (env_schemas e) (documentary_registry e) (checked_constructors e).
Definition with_functions (fs : gmap string L3FunctionDef) (e : EvalEnv) : EvalEnv :=
  mkEnv (inputs e) (lets e) (facts e) (locals e) fs (env_schemas e) (documentary_registry e) (checked_constructors e).
Definition with_schemas (s : Schemas) (e : EvalEnv) : EvalEnv :=
  mkEnv (inputs e) (lets e) (facts e) (locals e) (functions e) s (documentary_registry e) (checked_constructors e).
Definition with_documentary_registry (r : DocumentaryRegistry) (e : EvalEnv) : EvalEnv :=
  mkEnv (inputs e) (lets e) (facts e) (locals e) (functions e) (env_schemas e) r (checked_constructors e).
Definition with_checked_constructors (e : EvalEnv) : EvalEnv :=
  mkEnv (inputs e) (lets e) (facts e) (locals e) (functions e) (env_schemas e) (documentary_registry e) true.
Definition satisfies (e : EvalEnv) (deps : list string) : bool := forallb (λ d, bool_decide (is_Some (facts e !! d))) deps.

(** * Budgets *)

Definition MAX_CALL_DEPTH : Z := 1000.
Definition MAX_EVAL_RECURSION_DEPTH : Z := 20000.
Definition MAX_CALL_STEPS : Z := 2000000.
Definition MAX_RUN_STEPS : Z := 50000000.
Definition RUN_WORK_FLUSH_STEPS : Z := 4096.
Definition MAX_VALUE_DEPTH : Z := 128.
Definition MAX_EVAL_VALUE_NODES : Z := 10000.
Definition MAX_EVAL_VALUE_BYTES : Z := 1000000.
Definition EVAL_THREAD_STACK_BYTES : Z := 256 * 1024 * 1024.

Definition saturating_sub (a b : Z) : Z := Z.max 0 (a - b).
Definition saturating_mul (a b : Z) : Z := Z.min (a * b) (2 ^ 64 - 1).

Record EvalBudget : Type := mkBudget {
  steps : Z;
  max_steps : Z;
  recursion_depth : Z;
  max_recursion_depth : Z;
  call_depth : Z;
  max_call_depth : Z;
  allocated_nodes : Z;
  max_nodes : Z;
  allocated_bytes : Z;
  max_bytes : Z;
  max_value_depth : Z;
  run_work : option Z;
  unflushed_steps : Z
}.
Definition budget_default : EvalBudget :=
  mkBudget 0 MAX_CALL_STEPS 0 MAX_EVAL_RECURSION_DEPTH 0 MAX_CALL_DEPTH 0 MAX_EVAL_VALUE_NODES 0 MAX_EVAL_VALUE_BYTES MAX_VALUE_DEPTH None 0.

Definition set_work (b : EvalBudget) (s u : Z) (w : option Z) : EvalBudget :=
  mkBudget s (max_steps b) (recursion_depth b) (max_recursion_depth b) (call_depth b) (max_call_depth b) (allocated_nodes b) (max_nodes b)
    (allocated_bytes b) (max_bytes b) (max_value_depth b) w u.
Definition set_depths (b : EvalBudget) (r c : Z) : EvalBudget :=
  mkBudget (steps b) (max_steps b) r (max_recursion_depth b) c (max_call_depth b) (allocated_nodes b) (max_nodes b)
    (allocated_bytes b) (max_bytes b) (max_value_depth b) (run_work b) (unflushed_steps b).
Definition set_allocated (b : EvalBudget) (n y : Z) : EvalBudget :=
  mkBudget (steps b) (max_steps b) (recursion_depth b) (max_recursion_depth b) (call_depth b) (max_call_depth b) n (max_nodes b)
    y (max_bytes b) (max_value_depth b) (run_work b) (unflushed_steps b).

Abbreviation Charge := (ST EvalBudget EvalFault ()).

(** [counter.fetch_add(pending)] wraps; the total it is compared by saturates. *)
Definition flush_run_work : Charge := λ b,
  let pending := unflushed_steps b in
  match run_work b with
  | None => (Ok (), set_work b (steps b) 0 None)
  | Some counter =>
    let b' := set_work b (steps b) 0 (Some ((counter + pending) mod 2 ^ 64)%Z) in
    if decide (MAX_RUN_STEPS < saturating_add counter pending)%Z
    then (Err (ResourceExhausted MAX_RUN_STEPS "run step limit exceeded"), b') else (Ok (), b')
  end.

Definition tick_step : Charge := λ b,
  let b1 := set_work b (steps b + 1) (unflushed_steps b) (run_work b) in
  if decide (max_steps b1 < steps b1)%Z then (Err (ResourceExhausted (max_steps b1) "evaluation step limit exceeded"), b1) else
  let b2 := set_work b1 (steps b1) (unflushed_steps b1 + 1) (run_work b1) in
  if decide (RUN_WORK_FLUSH_STEPS ≤ unflushed_steps b2)%Z then flush_run_work b2 else (Ok (), b2).

Definition charge_clone (val : L3ValueV2) : Charge := tick_step.

Definition charge_allocation (nodes bytes : Z) : Charge := λ b,
  if decide (saturating_sub (max_nodes b) (allocated_nodes b) < nodes)%Z then (Err (ResourceExhausted (max_nodes b) "value node budget exhausted"), b) else
  if decide (saturating_sub (max_bytes b) (allocated_bytes b) < bytes)%Z then (Err (ResourceExhausted (max_bytes b) "value byte budget exhausted"), b) else
  (Ok (), set_allocated b (allocated_nodes b + nodes) (allocated_bytes b + bytes)).

Definition byte_len (s : string) : Z := Z.of_nat (String.length s).
Definition exceeds (what : string) (n limit : Z) : EvalFault :=
  ResourceExhausted limit (what +:+ " (" +:+ pretty n +:+ " > " +:+ pretty limit +:+ ")").

(** The bytes of a node, and its children. *)
Definition node_bytes (v : L3ValueV2) : Z :=
  match v with
  | VInt _ | VBool _ | VF64 _ | VDecimal _ => 8%Z
  | VStr s => 8 + byte_len s
  | VCtor nominal_sum variant _ => 16 + byte_len nominal_sum + byte_len variant
  | VRecord nominal_config fields => 16 + byte_len nominal_config + foldr Z.add 0%Z ((λ f, byte_len f.1) <$> fields)
  | VList _ => 16
  end.
Definition children (v : L3ValueV2) : list L3ValueV2 :=
  match v with
  | VCtor _ _ args => args
  | VRecord _ fields => snd <$> fields
  | VList items => items
  | _ => []
  end.

(** The walk of [charge_value]: the stack, its last pushed element first, with the counts so far
    and the greatest depth seen. *)
Definition Walk : Type := list (L3ValueV2 * Z) * Z * Z * Z.
Definition walk_step (b : EvalBudget) (w : Walk) : option (result EvalFault (Z * Z) + Walk) :=
  let '(stack, count, bytes, seen) := w in
  match stack with
  | [] => Some (inl (Ok (count, bytes)))
  | (node, depth) :: stack =>
    let seen := if decide (seen < depth)%Z then depth else seen in
    if decide (max_value_depth b < seen)%Z then Some (inl (Err (exceeds "value nesting depth limit exceeded" seen (max_value_depth b)))) else
    let count := (count + 1)%Z in
    if decide (max_nodes b < allocated_nodes b + count)%Z then
      Some (inl (Err (exceeds "value node allocation limit exceeded" (allocated_nodes b + count) (max_nodes b)))) else
    let bytes := (bytes + node_bytes node)%Z in
    let stack := fold_left (λ st v, (v, depth + 1)%Z :: st) (children node) stack in
    if decide (max_bytes b < allocated_bytes b + bytes)%Z then
      Some (inl (Err (exceeds "value byte allocation limit exceeded" (allocated_bytes b + bytes) (max_bytes b)))) else
    Some (inr (stack, count, bytes, seen))
  end.

(** The number of nodes of a value bounds the walk. *)
Fixpoint value_nodes (v : L3ValueV2) : nat :=
  match v with
  | VCtor _ _ args => S (list_sum (List.map value_nodes args))
  | VRecord _ fields => S (list_sum (List.map (λ f, value_nodes f.2) fields))
  | VList items => S (list_sum (List.map value_nodes items))
  | _ => 1
  end.

(** * Computations *)

Definition Eval (A : Type) : Type := option EvalBudget → outcome (result EvalFault A * option EvalBudget).
#[export] Instance Eval_ret : MRet Eval := λ A a b, Done (Ok a, b).
#[export] Instance Eval_bind : MBind Eval := λ A B f m b,
  match m b with
  | Done (Ok a, b') => f a b'
  | Done (Err e, b') => Done (Err e, b')
  | Panicked => Panicked
  | OutOfFuel => OutOfFuel
  end.
Definition throw {A} (e : EvalFault) : Eval A := λ b, Done (Err e, b).
Definition lift {A} (r : result EvalFault A) : Eval A := λ b, Done (r, b).
(** [if let Some(b) = budget.as_mut() { .. }]. *)
Definition charge (op : Charge) : Eval () := λ b,
  match b with None => Done (Ok (), None) | Some b => let '(r, b') := op b in Done (r, Some b') end.
Definition adjust (f : EvalBudget → EvalBudget) : Eval () := charge (λ b, (Ok (), f b)).

Definition charge_value (v : L3ValueV2) (depth : Z) : Eval () := λ b,
  match b with
  | None => Done (Ok (), None)
  | Some b =>
    match iterate (walk_step b) (S (value_nodes v)) ([(v, depth)], 0%Z, 0%Z, 1%Z) with
    | Done (Ok (count, bytes)) => Done (Ok (), Some (set_allocated b (allocated_nodes b + count) (allocated_bytes b + bytes)))
    | Done (Err e) => Done (Err e, Some b)
    | Panicked => Panicked
    | OutOfFuel => OutOfFuel
    end
  end.

(** [for x in items { f(x)?; }]. *)
Fixpoint for_each {A} (f : A → Eval ()) (l : list A) : Eval () :=
  match l with [] => mret () | x :: l' => _ ← f x; for_each f l' end.

(** * The evaluator *)

Definition is_primitive_schema (t : L3SchemaType) : bool := match t with SInt | SBool | SStr => true | _ => false end.
Definition contract_violation (func : string) (param : option string) (expected : L3SchemaType) (found : L3ValueV2) (detail : string) : EvalFault :=
  ContractViolation func param (display_name expected) (type_text (type_of_value found))
    (if is_primitive_schema expected then None else Some detail).

(** A contract is checked on the specialized value, which is what is passed on. *)
Definition check_contract (schemas : Schemas) (func : string) (param : option string) (contract : option L3SchemaType) (v : L3ValueV2) : Eval L3ValueV2 :=
  match contract with
  | None => mret v
  | Some expected =>
    let v := specialize_nominal_value schemas v expected in
    match validate_l3_value schemas v expected "<root>" with
    | Ok _ => mret v
    | Err detail => throw (contract_violation func param expected v detail)
    end
  end.

Definition check_constructor (env : EvalEnv) (nominal : string) (value : L3ValueV2) : Eval L3ValueV2 :=
  if checked_constructors env && negb (bool_decide (nominal = "")) then
    match validate_l3_value (env_schemas env) value (SNamed nominal) "<constructor>" with
    | Ok _ => mret value
    | Err detail => throw (ContractViolation nominal None "declared constructor shape" detail None)
    end
  else mret value.

Definition lookup_name (env : EvalEnv) (name : string) : option L3ValueV2 :=
  match locals env !! name with
  | Some v => Some v
  | None => match lets env !! name with Some v => Some v | None => inputs env !! name end
  end.

(** [find_map] of the nominal a constructor arm names. *)
Fixpoint expected_nominal {A} (arms : list (L3PatternV2 * A)) : option string :=
  match arms with
  | [] => None
  | (PCtor nominal_sum variant _, _) :: arms' =>
    match (match nominal_sum with Some n => Some n | None => owner_of variant end) with
    | Some n => Some n
    | None => expected_nominal arms'
    end
  | (PWildcard, _) :: arms' => expected_nominal arms'
  end.
(** Whether the scrutinee belongs to another sum than the arms. *)
Definition foreign_scrutinee (v : L3ValueV2) (expected : option string) : bool :=
  match expected, v with
  | Some n, VCtor nominal_sum _ _ => negb (nominal_matches nominal_sum n)
  | Some n, VBool _ => negb (bool_decide (n = "Bool"))
  | _, _ => false
  end.

Definition enter (current_func : option string) : Charge := λ b,
  match tick_step b with
  | (Err e, b') => (Err e, b')
  | (Ok _, b') =>
    if decide (max_recursion_depth b' < recursion_depth b' + 1)%Z
    then (Err (CallDepthExceeded (max_recursion_depth b') (default "<eval>" current_func)), b')
    else (Ok (), set_depths b' (recursion_depth b' + 1) (call_depth b'))
  end.
Definition leaving {A} (m : Eval A) : Eval A := λ b,
  match m b with
  | Done (r, Some b') => Done (r, Some (set_depths b' (saturating_sub (recursion_depth b') 1) (call_depth b')))
  | o => o
  end.
Definition enter_call (func : string) : Charge := λ b,
  if decide (max_call_depth b < call_depth b + 1)%Z then (Err (CallDepthExceeded (max_call_depth b) func), b)
  else (Ok (), set_depths b (recursion_depth b) (call_depth b + 1)).
(** [let r = m; call_depth -= 1; r?]. *)
Definition leaving_call {A} (m : Eval A) : Eval A := λ b,
  match m b with
  | Done (r, Some b') => Done (r, Some (set_depths b' (recursion_depth b') (call_depth b' - 1)))
  | o => o
  end.

Definition derived_list_limit : EvalFault := ResourceExhausted 4096 "derived list length limit exceeded".

Section evaluator.
Context `{ValueLayout, DebugText}.
Context (eval_internal : L3ExprV2 → EvalEnv → option string → Eval L3ValueV2).

Definition eval_list (shape : string) (list : L3ExprV2) (env : EvalEnv) (cf : option string) : Eval (List.list L3ValueV2) :=
  v ← eval_internal list env cf;
  match v with VList items => mret items | _ => throw (OperandShape shape) end.

(** The body of a fold, filter or map on one element. *)
Definition eval_item (binder : string) (body : L3ExprV2) (env : EvalEnv) (cf : option string) (item : L3ValueV2) : Eval L3ValueV2 :=
  _ ← charge (charge_clone item);
  eval_internal body (with_local binder item env) cf.

Definition as_int (shape : string) (v : L3ValueV2) : Eval Z := match v with VInt n => mret n | _ => throw (OperandShape shape) end.
Definition as_bool (shape : string) (v : L3ValueV2) : Eval bool := match v with VBool b => mret b | _ => throw (OperandShape shape) end.

Section items.
Context (item_value : L3ValueV2 → Eval L3ValueV2).

Fixpoint sum_items (items : list L3ValueV2) (acc : Z) : Eval Z :=
  match items with
  | [] => mret acc
  | item :: items' =>
    v ← item_value item; n ← as_int "sum body must evaluate to Int" v;
    acc ← lift (ok_or (checked i64_ok (acc + n)%Z) (FOverflow Add));
    sum_items items' acc
  end.
Fixpoint count_items (items : list L3ValueV2) (acc : Z) : Eval Z :=
  match items with
  | [] => mret acc
  | item :: items' =>
    v ← item_value item; keep ← as_bool "count body must evaluate to Bool" v;
    acc ← (if keep : bool then lift (ok_or (checked i64_ok (acc + 1)%Z) (FOverflow Add)) else mret acc);
    count_items items' acc
  end.
Fixpoint all_items (items : list L3ValueV2) : Eval bool :=
  match items with
  | [] => mret true
  | item :: items' =>
    v ← item_value item; keep ← as_bool "all body must evaluate to Bool" v;
    if keep : bool then all_items items' else mret false
  end.
Fixpoint any_items (items : list L3ValueV2) : Eval bool :=
  match items with
  | [] => mret false
  | item :: items' =>
    v ← item_value item; keep ← as_bool "any body must evaluate to Bool" v;
    if keep : bool then mret true else any_items items'
  end.
Fixpoint extremum_items (op : FoldOpV2) (items : list L3ValueV2) (acc : option Z) : Eval (option Z) :=
  match items with
  | [] => mret acc
  | item :: items' =>
    v ← item_value item; n ← as_int "min/max body must evaluate to Int" v;
    extremum_items op items' (Some (match acc with
      | None => n
      | Some cur => if decide (op = Min) then Z.min cur n else Z.max cur n
      end))
  end.
Fixpoint filter_items (items out : list L3ValueV2) : Eval (list L3ValueV2) :=
  match items with
  | [] => mret out
  | item :: items' =>
    v ← item_value item; keep ← as_bool "filter condition must evaluate to Bool" v;
    if keep : bool then
      if decide (MAX_DERIVED_LIST_LEN ≤ length out) then throw derived_list_limit else filter_items items' (out ++ [item])
    else filter_items items' out
  end.
Fixpoint map_items (items out : list L3ValueV2) : Eval (list L3ValueV2) :=
  match items with
  | [] => mret out
  | item :: items' =>
    v ← item_value item;
    if decide (MAX_DERIVED_LIST_LEN ≤ length out) then throw derived_list_limit else map_items items' (out ++ [v])
  end.
End items.

Definition eval_fold (op : FoldOpV2) (list : L3ExprV2) (binder : string) (body : L3ExprV2) (env : EvalEnv) (cf : option string) : Eval L3ValueV2 :=
  items ← eval_list "fold requires a List operand" list env cf;
  let item_value := eval_item binder body env cf in
  match op with
  | Sum => acc ← sum_items item_value items 0; mret (VInt acc)
  | Count => acc ← count_items item_value items 0; mret (VInt acc)
  | All => b ← all_items item_value items; mret (VBool b)
  | Any => b ← any_items item_value items; mret (VBool b)
  | Min | Max =>
    if decide (items = []) then throw (EmptyAggregate op) else
    acc ← extremum_items item_value op items None;
    match acc with Some n => mret (VInt n) | None => λ _, Panicked end
  end.

Definition eval_filter (list : L3ExprV2) (binder : string) (cond : L3ExprV2) (env : EvalEnv) (cf : option string) : Eval L3ValueV2 :=
  items ← eval_list "filter requires a List operand" list env cf;
  out ← filter_items (eval_item binder cond env cf) items [];
  mret (VList out).
Definition eval_map (list : L3ExprV2) (binder : string) (body : L3ExprV2) (env : EvalEnv) (cf : option string) : Eval L3ValueV2 :=
  items ← eval_list "map requires a List operand" list env cf;
  out ← map_items (eval_item binder body env cf) items [];
  mret (VList out).

Fixpoint eval_comprehension_generators (gens : list (string * L3ExprV2)) (where_clause : option L3ExprV2) (yield_expr : L3ExprV2)
    (env : EvalEnv) (cf : option string) (out : list L3ValueV2) : Eval (list L3ValueV2) :=
  match gens with
  | [] =>
    keep ← match where_clause with
      | None => mret true
      | Some w => v ← eval_internal w env cf; as_bool "comprehension 'where' must evaluate to Bool" v
      end;
    if keep : bool then
      v ← eval_internal yield_expr env cf;
      if decide (MAX_DERIVED_LIST_LEN ≤ length out) then throw derived_list_limit else mret (out ++ [v])
    else mret out
  | (binder, source) :: rest =>
    items ← eval_list "comprehension generator requires a List operand" source env cf;
    (fix loop (items out : list L3ValueV2) : Eval (list L3ValueV2) :=
      match items with
      | [] => mret out
      | item :: items' =>
        _ ← charge (charge_clone item);
        out ← eval_comprehension_generators rest where_clause yield_expr (with_local binder item env) cf out;
        loop items' out
      end) items out
  end.
Definition eval_comprehension (gens : list (string * L3ExprV2)) (where_clause : option L3ExprV2) (yield_expr : L3ExprV2)
    (env : EvalEnv) (cf : option string) : Eval L3ValueV2 :=
  out ← eval_comprehension_generators gens where_clause yield_expr env cf [];
  mret (VList out).

(** Arguments in order, each charged as part of a value being built. *)
Fixpoint eval_charged (items : list L3ExprV2) (env : EvalEnv) (cf : option string) (out : list L3ValueV2) : Eval (list L3ValueV2) :=
  match items with
  | [] => mret out
  | item :: items' => v ← eval_internal item env cf; _ ← charge_value v 2; eval_charged items' env cf (out ++ [v])
  end.
Definition eval_list_lit (items : list L3ExprV2) (env : EvalEnv) (cf : option string) : Eval L3ValueV2 :=
  if decide (MAX_DERIVED_LIST_LEN < length items) then throw derived_list_limit else
  out ← eval_charged items env cf []; mret (VList out).

Fixpoint search_items (needle : L3ValueV2) (items : list L3ValueV2) : Eval bool :=
  match items with
  | [] => mret false
  | item :: items' => _ ← charge tick_step; if decide (item = needle) then mret true else search_items needle items'
  end.
Definition eval_in (needle haystack : L3ExprV2) (env : EvalEnv) (cf : option string) : Eval L3ValueV2 :=
  needle_val ← eval_internal needle env cf;
  items ← eval_list "'in' requires a List right operand" haystack env cf;
  found ← search_items needle_val items; mret (VBool found).
Definition eval_len (list : L3ExprV2) (env : EvalEnv) (cf : option string) : Eval L3ValueV2 :=
  items ← eval_list "len requires a List operand" list env cf;
  mret (VInt (Z.of_nat (length items))).

(** The set [seen] tells values apart by their order. *)
Definition seen_before (seen : list L3ValueV2) (item : L3ValueV2) : bool := existsb (λ y, bool_decide (value_compare item y = Eq)) seen.
Fixpoint distinct_items (items seen out : list L3ValueV2) : Eval (list L3ValueV2) :=
  match items with
  | [] => mret out
  | item :: items' =>
    _ ← charge tick_step;
    _ ← charge (charge_clone item);
    if seen_before seen item then distinct_items items' seen out
    else if decide (MAX_DERIVED_LIST_LEN ≤ length out) then throw derived_list_limit
    else distinct_items items' (item :: seen) (out ++ [item])
  end.
Definition eval_distinct (list : L3ExprV2) (env : EvalEnv) (cf : option string) : Eval L3ValueV2 :=
  items ← eval_list "distinct requires a List operand" list env cf;
  out ← distinct_items items [] []; mret (VList out).

Definition eval_only (list : L3ExprV2) (env : EvalEnv) (cf : option string) : Eval L3ValueV2 :=
  items ← eval_list "only requires a List operand" list env cf;
  _ ← charge tick_step;
  match items with
  | [only] => _ ← charge (charge_clone only); mret only
  | other => throw (NotSingleton (length other))
  end.

Fixpoint ascribe_items (schemas : Schemas) (element : L3SchemaType) (items out : list L3ValueV2) : Eval (list L3ValueV2) :=
  match items with
  | [] => mret out
  | item :: items' =>
    let item := specialize_nominal_value schemas item element in
    if is_ok (validate_l3_value schemas item element "<ascribe>") then ascribe_items schemas element items' (out ++ [item])
    else throw (OperandShape "ascribed list element type mismatch")
  end.
Definition eval_ascribe (expr : L3ExprV2) (element : L3SchemaType) (env : EvalEnv) (cf : option string) : Eval L3ValueV2 :=
  items ← eval_list "ascription requires a List value" expr env cf;
  out ← ascribe_items (env_schemas env) element items []; mret (VList out).

Definition eval_validate_v2 (target_type : string) (arg : L3ExprV2) (env : EvalEnv) (cf : option string) : Eval L3ValueV2 :=
  _ ← charge tick_step;
  arg_val ← eval_internal arg env cf;
  match validate_authority (documentary_registry env) (env_schemas env) target_type arg_val with
  | Some r => lift r
  | None => λ _, Panicked
  end.

Fixpoint eval_args (args : list L3ExprV2) (env : EvalEnv) (cf : option string) (out : list L3ValueV2) : Eval (list L3ValueV2) :=
  match args with
  | [] => mret out
  | a :: args' => v ← eval_internal a env cf; eval_args args' env cf (out ++ [v])
  end.
Fixpoint eval_fields (fields : list (string * L3ExprV2)) (env : EvalEnv) (cf : option string) (out : list (string * L3ValueV2)) :
    Eval (list (string * L3ValueV2)) :=
  match fields with
  | [] => mret out
  | (name, expr) :: fields' =>
    _ ← charge (charge_allocation 0 (byte_len name));
    v ← eval_internal expr env cf; _ ← charge_value v 2;
    eval_fields fields' env cf (out ++ [(name, v)])
  end.

Definition eval_cmp (op : CmpOpV2) (x y : L3ValueV2) : result EvalFault L3ValueV2 :=
  let is_numeric v := match v with VF64 _ | VDecimal _ => true | _ => false end in
  if (is_numeric x || is_numeric y) && negb (bool_decide (type_of_value x = type_of_value y))
  then Err (OperandShape "comparison requires operands of the same numeric type") else
  match op with
  | CEq => Ok (VBool (bool_decide (x = y)))
  | CNe => Ok (VBool (negb (bool_decide (x = y))))
  | _ =>
    ordering ← numeric_order x y;
    Ok (VBool (match op, ordering with
      | CLt, Lt | CLe, Lt | CLe, Eq | CGt, Gt | CGe, Gt | CGe, Eq => true
      | _, _ => false
      end))
  end.

(** Binding the arguments of the matched constructor. *)
Fixpoint bind_arguments (binders : list (option string)) (args : list L3ValueV2) (env : EvalEnv) : Eval EvalEnv :=
  match binders, args with
  | Some name :: binders', a :: args' => _ ← charge (charge_clone a); bind_arguments binders' args' (with_local name a env)
  | None :: binders', _ :: args' => bind_arguments binders' args' env
  | _, _ => mret env
  end.
Fixpoint eval_arms (v : L3ValueV2) (args : list L3ValueV2) (arms : list (L3PatternV2 * L3ExprV2)) (env : EvalEnv) (cf : option string) : Eval L3ValueV2 :=
  match arms with
  | [] => throw NoMatchingArm
  | (PWildcard, body) :: _ => eval_internal body env cf
  | (PCtor _ _ binders as pat, body) :: arms' =>
    if negb (matches_value pat v) then eval_arms v args arms' env cf else
    if negb (bool_decide (length binders = length args)) then throw (OperandShape "constructor arity mismatch") else
    _ ← for_each (λ l, _ ← charge (charge_allocation 0 (byte_len l.1)); charge (charge_clone l.2)) (btree_iter (locals env));
    arm_env ← bind_arguments binders args env;
    eval_internal body arm_env cf
  end.

(** The contracts of the parameters, then the environment of the helper's body: its parameters and
    nothing else of the caller's. *)
Fixpoint check_params (func : string) (schemas : Schemas) (ps : list (string * option L3SchemaType)) (vals out : list L3ValueV2) : Eval (list L3ValueV2) :=
  match ps, vals with
  | (param_name, contract) :: ps', v :: vals' =>
    v ← check_contract schemas func (Some param_name) contract v; check_params func schemas ps' vals' (out ++ [v])
  | _, _ => mret (out ++ vals)
  end.
Definition fn_env (env : EvalEnv) (def : L3FunctionDef) (vals : list L3ValueV2) : EvalEnv :=
  mkEnv ∅ ∅ ∅ (fold_left (λ m p, <[p.1 := p.2]> m) (zip (params def).*1 vals) ∅) (functions env) (f_schemas def)
    (documentary_registry env) (checked_constructors env).
Definition eval_call (func : string) (args : list L3ExprV2) (env : EvalEnv) (cf : option string) : Eval L3ValueV2 :=
  match functions env !! func with
  | None => throw (Unbound func)
  | Some def =>
    if negb (bool_decide (length (params def) = length args)) then throw (OperandShape "function arity mismatch") else
    let n := Z.of_nat (length args) in
    _ ← charge (charge_allocation n (saturating_mul n size_of_value));
    vals ← eval_args args env cf [];
    vals ← check_params func (f_schemas def) (params def) vals [];
    _ ← charge (enter_call func);
    let key_bytes := fold_left (λ total p, saturating_add total (byte_len p.1)) (params def) 0%Z in
    let m := Z.of_nat (length (params def)) in
    _ ← charge (charge_allocation m (saturating_add key_bytes (saturating_mul m size_of_field)));
    ret_val ← leaving_call (eval_internal (f_body def) (fn_env env def vals) (Some func));
    check_contract (f_schemas def) func None (ret_contract def) ret_val
  end.

Definition eval_internal_body (e : L3ExprV2) (env : EvalEnv) (cf : option string) : Eval L3ValueV2 :=
  match e with
  | EInt n => mret (VInt n)
  | EStr s => _ ← charge (charge_allocation 1 (byte_len s)); mret (VStr s)
  | EBool b => mret (VBool b)
  | ELetRef name =>
    v ← lift (ok_or (lookup_name env name) (Unbound name)); _ ← charge (charge_clone v); mret v
  | ERuleFact rule =>
    v ← lift (ok_or (facts env !! rule) (Unbound rule)); _ ← charge (charge_clone v); mret v
  | ENullaryVariant nominal_sum variant =>
    _ ← charge (charge_allocation 1 (byte_len nominal_sum + byte_len variant));
    check_constructor env nominal_sum (VCtor nominal_sum variant [])
  | ECtor nominal_sum variant args =>
    _ ← charge (charge_allocation 1 (byte_len nominal_sum + byte_len variant + saturating_mul (Z.of_nat (length args)) size_of_value));
    out ← eval_charged args env cf [];
    check_constructor env nominal_sum (VCtor nominal_sum variant out)
  | ERecord nominal_config fields =>
    _ ← charge (charge_allocation 1 (byte_len nominal_config + saturating_mul (Z.of_nat (length fields)) size_of_field));
    out ← eval_fields fields env cf [];
    check_constructor env nominal_config (VRecord nominal_config out)
  | EField base field =>
    v ← eval_internal base env cf;
    match v with
    | VRecord _ fields => lift (ok_or (snd <$> iter_find (λ f, bool_decide (f.1 = field)) fields) (NoSuchField field))
    | _ => throw (NoSuchField field)
    end
  | EArith op a b => x ← eval_internal a env cf; y ← eval_internal b env cf; lift (eval_numeric_arith op x y)
  | ECmp op a b => x ← eval_internal a env cf; y ← eval_internal b env cf; lift (eval_cmp op x y)
  | EAnd a b =>
    x ← eval_internal a env cf; x ← as_bool "logical AND requires Bool operands" x;
    if negb x then mret (VBool false) else
    y ← eval_internal b env cf; y ← as_bool "logical AND requires Bool operands" y; mret (VBool y)
  | EOr a b =>
    x ← eval_internal a env cf; x ← as_bool "logical OR requires Bool operands" x;
    if x : bool then mret (VBool true) else
    y ← eval_internal b env cf; y ← as_bool "logical OR requires Bool operands" y; mret (VBool y)
  | ENumericBuiltin op args =>
    if negb (bool_decide (length args = arity op)) then throw (OperandShape "numeric builtin arity mismatch") else
    vals ← eval_args args env cf []; lift (eval_numeric_builtin op vals)
  | EIntDivMod op a b =>
    x ← eval_internal a env cf; y ← eval_internal b env cf;
    match x, y with
    | VInt x, VInt y => r ← lift (eval_div_mod op x y); mret (VInt r)
    | _, _ => throw (OperandShape "integer division requires Int operands")
    end
  | ENot a => x ← eval_internal a env cf; x ← as_bool "logical NOT requires Bool operand" x; mret (VBool (negb x))
  | EMatch scrutinee arms =>
    v ← eval_internal scrutinee env cf;
    args ← match v with
      | VCtor _ _ args => mret args
      | VBool _ => mret []
      | _ => throw (OperandShape "match requires a sum value")
      end;
    if foreign_scrutinee v (expected_nominal arms) then throw (OperandShape "match scrutinee belongs to a different sum than its arms") else
    eval_arms v args arms env cf
  | ECall func args => eval_call func args env cf
  | EFold op list binder body => eval_fold op list binder body env cf
  | EFilter list binder cond => eval_filter list binder cond env cf
  | EMap list binder body => eval_map list binder body env cf
  | EComprehension gens where_clause yield_expr => eval_comprehension gens where_clause yield_expr env cf
  | EListLit items => eval_list_lit items env cf
  | EIn needle haystack => eval_in needle haystack env cf
  | ELen list => eval_len list env cf
  | EDistinct list => eval_distinct list env cf
  | EOnly list => eval_only list env cf
  | EAscribe expr element => eval_ascribe expr element env cf
  | EValidate target_type arg => eval_validate_v2 target_type arg env cf
  end.
End evaluator.

(** [fuel] is the number of levels of recursion there is stack for. *)
Fixpoint eval_internal `{ValueLayout, DebugText} (fuel : nat) (e : L3ExprV2) (env : EvalEnv) (cf : option string) : Eval L3ValueV2 :=
  match fuel with
  | O => λ _, OutOfFuel
  | S fuel' => _ ← charge (enter cf); leaving (eval_internal_body (eval_internal fuel') e env cf)
  end.

(** Whether a list form occurs anywhere in an expression. *)
Fixpoint expr_has_list_form (e : L3ExprV2) : bool :=
  match e with
  | EFold _ _ _ _ | EFilter _ _ _ | EMap _ _ _ | EComprehension _ _ _ | EListLit _ | EIn _ _ | ELen _ | EDistinct _ | EOnly _ | EAscribe _ _ => true
  | EInt _ | EStr _ | EBool _ | ELetRef _ | ERuleFact _ | ENullaryVariant _ _ => false
  | ECtor _ _ args | ECall _ args | ENumericBuiltin _ args => existsb expr_has_list_form args
  | ERecord _ fields => existsb (λ f, expr_has_list_form f.2) fields
  | EField base _ | ENot base | EValidate _ base => expr_has_list_form base
  | EArith _ a b | ECmp _ a b | EIntDivMod _ a b | EAnd a b | EOr a b => expr_has_list_form a || expr_has_list_form b
  | EMatch scrutinee arms => expr_has_list_form scrutinee || existsb (λ a, expr_has_list_form a.2) arms
  end.

(** The nesting of an expression, which bounds the recursion of an evaluation without helpers. *)
Fixpoint height (e : L3ExprV2) : nat :=
  let all l := foldr Nat.max 0 (List.map height l) in
  S (match e with
  | EInt _ | EStr _ | EBool _ | ELetRef _ | ERuleFact _ | ENullaryVariant _ _ => 0
  | ECtor _ _ args | ECall _ args | ENumericBuiltin _ args | EListLit args => all args
  | ERecord _ fields => foldr Nat.max 0 (List.map (λ f, height f.2) fields)
  | EField a _ | ENot a | EValidate _ a | ELen a | EDistinct a | EOnly a | EAscribe a _ => height a
  | EArith _ a b | ECmp _ a b | EIntDivMod _ a b | EAnd a b | EOr a b | EIn a b | EFold _ a _ b | EFilter a _ b | EMap a _ b => Nat.max (height a) (height b)
  | EMatch scrutinee arms => Nat.max (height scrutinee) (foldr Nat.max 0 (List.map (λ a, height a.2) arms))
  | EComprehension gens where_clause yield_expr =>
    Nat.max (foldr Nat.max 0 (List.map (λ g, height g.2) gens)) (Nat.max (match where_clause with Some w => height w | None => 0 end) (height yield_expr))
  end).

(** Every level of recursion the budget allows, and the level that is refused. *)
Definition eval_fuel : nat := S (Z.to_nat MAX_EVAL_RECURSION_DEPTH).

(** Where an evaluation is called from: whether the system grants a thread, whether the calling
    thread is an evaluation thread already ([ON_EVAL_STACK]), how much stack it has left, and the
    most that one level of recursion takes, with the functions it calls. *)
Record NativeStack : Type := mkStack { thread_granted : bool; on_eval_stack : bool; stack_left : Z; level_bytes : Z }.
(** A stack on which a level takes nothing. *)
Definition ample : NativeStack := mkStack true false 0 0.
(** How many of [need] levels fit into [bytes]. *)
Definition levels (s : NativeStack) (bytes : Z) (need : nat) : nat :=
  if decide (level_bytes s = 0%Z) then need else Nat.min (Z.to_nat (bytes / level_bytes s)) need.

(** [f], on the stack it is given: inline on an evaluation thread, on a new one otherwise. A panic
    there is caught by [join]; an overflow is not. *)
Definition with_eval_stack {A} (s : NativeStack) (f : Z → outcome A) : outcome (option A) :=
  if on_eval_stack s then match f (stack_left s) with Done a => Done (Some a) | Panicked => Panicked | OutOfFuel => OutOfFuel end
  else if thread_granted s then match f EVAL_THREAD_STACK_BYTES with Done a => Done (Some a) | Panicked => Done None | OutOfFuel => OutOfFuel end
  else Done None.

Section top.
Context `{ValueLayout, DebugText}.

(** A budgeted evaluation: the value and the steps spent, and the run's counter afterwards. *)
Definition budgeted (fuel : nat) (e : L3ExprV2) (env : EvalEnv) (max : Z) (counter : option Z) : outcome (result EvalFault (L3ValueV2 * Z) * option Z) :=
  let budget := mkBudget 0 max 0 MAX_EVAL_RECURSION_DEPTH 0 MAX_CALL_DEPTH 0 MAX_EVAL_VALUE_NODES 0 MAX_EVAL_VALUE_BYTES MAX_VALUE_DEPTH counter 0 in
  match eval_internal fuel e env None (Some budget) with
  | Done (Ok value, Some b) =>
    match flush_run_work b with
    | (Ok _, b') => Done (Ok (value, steps b), run_work b')
    | (Err f, b') => Done (Err f, run_work b')
    end
  | Done (Err f, Some b) => Done (Err f, run_work b)
  | Done (_, None) | Panicked => Panicked
  | OutOfFuel => OutOfFuel
  end.

(** Without helpers a budgeted evaluation runs on the caller's thread. *)
Definition eval_with_budget (s : NativeStack) (e : L3ExprV2) (env : EvalEnv) (max_steps : option Z) (counter : option Z) :
    outcome (result EvalFault (L3ValueV2 * Z) * option Z) :=
  let max := default MAX_CALL_STEPS max_steps in
  let run bytes := budgeted (levels s bytes eval_fuel) e env max counter in
  if decide (functions env = ∅) then run (stack_left s)
  else match with_eval_stack s run with
    | Done (Some r) => Done r
    | Done None => Done (Err (ResourceExhausted EVAL_THREAD_STACK_BYTES "the bounded evaluation thread could not run"), counter)
    | Panicked => Panicked
    | OutOfFuel => OutOfFuel
    end.

(** The search for list forms, too, recurs on the caller's thread; it is taken to go through the
    whole height of the expression, with levels as large as the evaluator's. *)
Definition eval (s : NativeStack) (e : L3ExprV2) (env : EvalEnv) (counter : option Z) : outcome (result EvalFault L3ValueV2 * option Z) :=
  let bare := bool_decide (functions env = ∅) && bool_decide (env_schemas env = ∅) in
  if bare && bool_decide (levels s (stack_left s) (height e) < height e) then OutOfFuel
  else if bare && negb (expr_has_list_form e) then
    match eval_internal (levels s (stack_left s) (height e)) e env None None with
    | Done (r, _) => Done (r, counter)
    | Panicked => Panicked
    | OutOfFuel => OutOfFuel
    end
  else
    match eval_with_budget s e env None counter with
    | Done (r, counter') => Done (p ← r; Ok p.1, counter')
    | Panicked => Panicked
    | OutOfFuel => OutOfFuel
    end.
End top.
