(* ===== verification/L3Laws.v ===== *)
(** Laws of the evaluator (src/crates/brix-lower/src/l3_v2.rs): one closure lemma, that the body of
    the evaluator preserves every relation of computations that its primitives preserve, and its
    instances: the fuel, the bounds, the agreement of budgeted and unbudgeted evaluations, and
    the well-formedness of values. *)
From S2P Require Import Prelude Text IntCodec Canon CanonLaws Encoding Decimal DecimalMath Values FloatMath L3Value Evidence L3Eval.

(** * Relations of computations *)

Section laws.
Context `{VL : ValueLayout, DT : DebugText}.

(** [R A Q m m'] relates two computations whose common result satisfies [Q]. Where [ub] does not
    hold, names are to be bound. *)
Definition relation : Type := ∀ A : Type, (A → Prop) → Eval A → Eval A → Prop.

Definition unbound (e : EvalFault) : Prop := match e with Unbound _ => True | _ => False end.

Class Closed (ub : Prop) (R : relation) : Prop := {
  closed_ret A (Q : A → Prop) a : Q a → R A Q (mret a) (mret a);
  closed_throw A (Q : A → Prop) e : (unbound e → ub) → R A Q (throw e) (throw e);
  closed_bind A B (Q : A → Prop) (Q' : B → Prop) m m' f f' :
    R A Q m m' → (∀ a, Q a → R B Q' (f a) (f' a)) → R B Q' (m ≫= f) (m' ≫= f');
  closed_weaken A (Q Q' : A → Prop) m m' : R A Q m m' → (∀ a, Q a → Q' a) → R A Q' m m';
  closed_tick : R unit (λ _, True) (charge tick_step) (charge tick_step);
  closed_allocation n y : R unit (λ _, True) (charge (charge_allocation n y)) (charge (charge_allocation n y));
  closed_value v d : R unit (λ _, True) (charge_value v d) (charge_value v d);
  closed_call A B (Q : A → Prop) (Q' : B → Prop) func n y m m' f :
    R A Q m m' → (∀ a, Q a → R B Q' (f a) (f a)) →
    R B Q' (_ ← charge (enter_call func); _ ← charge (charge_allocation n y); leaving_call m ≫= f)
           (_ ← charge (enter_call func); _ ← charge (charge_allocation n y); leaving_call m' ≫= f)
}.

(** A fault that is no unbound name. *)
Ltac throws := apply closed_throw; intros [].

(** ** Pure results *)

(** A result whose fault, if it is one, is no unbound name. *)
Definition bound {A} (r : result EvalFault A) : Prop := ∀ e, r = Err e → ¬ unbound e.
Lemma bound_ok {A} (a : A) : bound (Ok a).
Proof. done. Qed.
Lemma bound_err {A} e : ¬ unbound e → bound (Err e : result EvalFault A).
Proof. by intros He e' [= <-]. Qed.
Lemma bound_or {A} (o : option A) e : ¬ unbound e → bound (ok_or o e).
Proof. intros He. destruct o; [apply bound_ok|by apply bound_err]. Qed.
Lemma bound_numeric {A} (r : result NumericError A) : bound (map_err numeric_fault r).
Proof. destruct r; [apply bound_ok|apply bound_err; by intros []]. Qed.
Lemma bound_bind {A B} (r : result EvalFault A) (f : A → result EvalFault B) : bound r → (∀ a, bound (f a)) → bound (a ← r; f a).
Proof. intros Hr Hf. destruct r as [a|e]; [apply Hf|apply bound_err, (Hr e eq_refl)]. Qed.
Create HintDb bound.
#[local] Hint Resolve bound_ok bound_or bound_numeric bound_bind : bound.
#[local] Hint Extern 1 (bound (Err _)) => apply bound_err; intros [] : bound.
#[local] Hint Extern 1 (¬ unbound _) => intros [] : bound.

Lemma arith_bound op x y : bound (eval_numeric_arith op x y).
Proof. unfold eval_numeric_arith. destruct x, y; eauto with bound; destruct op; eauto with bound. Qed.
Lemma cmp_bound op x y : bound (eval_cmp op x y).
Proof. unfold eval_cmp. destruct (_ && _); [eauto with bound|]. unfold numeric_order. destruct op; eauto with bound; apply bound_bind; eauto with bound; destruct x, y; eauto with bound. Qed.
Lemma div_mod_bound op x y : bound (eval_div_mod op x y).
Proof. unfold eval_div_mod. case_decide; eauto with bound. Qed.
Lemma builtin_bound op args : bound (eval_numeric_builtin op args).
Proof. unfold eval_numeric_builtin. repeat (match goal with |- bound (match ?x with _ => _ end) => destruct x end; eauto with bound). Qed.
Lemma validate_bound r schemas target arg res : validate_authority r schemas target arg = Some res → bound res.
Proof.
  unfold validate_authority. intros H. repeat case_match; try (apply fmap_Some in H as (v & _ & ->)); try (injection H as <-); eauto with bound.
Qed.

(** ** Sub-expressions and scopes *)

Definition subexprs (e : L3ExprV2) : list L3ExprV2 :=
  match e with
  | EInt _ | EStr _ | EBool _ | ELetRef _ | ERuleFact _ | ENullaryVariant _ _ => []
  | ECtor _ _ args | ECall _ args | ENumericBuiltin _ args | EListLit args => args
  | ERecord _ fields => fields.*2
  | EField a _ | ENot a | EValidate _ a | ELen a | EDistinct a | EOnly a | EAscribe a _ => [a]
  | EArith _ a b | ECmp _ a b | EIntDivMod _ a b | EAnd a b | EOr a b | EIn a b | EFold _ a _ b | EFilter a _ b | EMap a _ b => [a; b]
  | EMatch scrutinee arms => scrutinee :: arms.*2
  | EComprehension gens where_clause yield_expr => gens.*2 ++ option_list where_clause ++ [yield_expr]
  end.

(** The sub-expressions with the names their form binds in them. *)
Definition plain (l : list L3ExprV2) : list (gset string * L3ExprV2) := (λ e, (∅, e)) <$> l.
Definition arm_names (p : L3PatternV2) : gset string := match p with PCtor _ _ binders => list_to_set (omap id binders) | PWildcard => ∅ end.
Fixpoint generated (gens : list (string * L3ExprV2)) (where_clause : option L3ExprV2) (yield_expr : L3ExprV2) (names : gset string) : list (gset string * L3ExprV2) :=
  match gens with
  | [] => (λ e, (names, e)) <$> (option_list where_clause ++ [yield_expr])
  | (binder, source) :: gens' => (names, source) :: generated gens' where_clause yield_expr ({[binder]} ∪ names)
  end.
Definition subterms (e : L3ExprV2) : list (gset string * L3ExprV2) :=
  match e with
  | EFold _ a x b | EFilter a x b | EMap a x b => [(∅, a); ({[x]}, b)]
  | EMatch scrutinee arms => (∅, scrutinee) :: ((λ a, (arm_names a.1, a.2)) <$> arms)
  | EComprehension gens where_clause yield_expr => generated gens where_clause yield_expr ∅
  | e => plain (subexprs e)
  end.
Lemma elem_of_plain bs e l : (bs, e) ∈ plain l ↔ bs = ∅ ∧ e ∈ l.
Proof. unfold plain. rewrite list_elem_of_fmap. split; [intros (e' & [= -> ->] & He); done|intros [-> He]; by exists e]. Qed.
Lemma generated_subexprs gens w y names bs e : (bs, e) ∈ generated gens w y names → e ∈ gens.*2 ++ option_list w ++ [y].
Proof.
  revert names. induction gens as [|[b s] gens IH]; intros names; cbn.
  - intros (e' & [= -> ->] & He)%list_elem_of_fmap. done.
  - intros [[= -> ->]|He]%elem_of_cons; [by left|right; by eapply IH].
Qed.
Lemma subterms_subexprs bs e e0 : (bs, e) ∈ subterms e0 → e ∈ subexprs e0.
Proof.
  destruct e0; cbn [subterms subexprs]; try (by intros [_ ?]%elem_of_plain); try (by intros [[= -> ->]|[[= -> ->]|[]%elem_of_nil]%elem_of_cons]%elem_of_cons; [left|right; left]).
  - intros [[= -> ->]|(a & [= -> ->] & Ha)%list_elem_of_fmap]%elem_of_cons; [by left|right]. by apply list_elem_of_fmap_2.
  - apply generated_subexprs.
Qed.
(** What an expression reads of its environment is there. *)
Definition reads_bound (e : L3ExprV2) (env : EvalEnv) : Prop :=
  match e with
  | ELetRef name => is_Some (lookup_name env name)
  | ERuleFact rule => is_Some (facts env !! rule)
  | ECall func _ => is_Some (functions env !! func)
  | _ => True
  end.

Section closure.
Context (ub : Prop) (R : relation) `{!Closed ub R}.
(** What is known of values: nothing, or that they are well formed. *)
Context (wf : Prop).
Definition vok (v : L3ValueV2) : Prop := wf → value_ok v.
Definition map_vok (m : gmap string L3ValueV2) : Prop := ∀ k v, m !! k = Some v → vok v.

(** The environments of the sub-expressions: more locals. *)
Definition scope (env env' : EvalEnv) : Prop :=
  inputs env' = inputs env ∧ lets env' = lets env ∧ facts env' = facts env ∧ functions env' = functions env ∧ env_schemas env' = env_schemas env ∧
  documentary_registry env' = documentary_registry env ∧ checked_constructors env' = checked_constructors env ∧ dom (locals env) ⊆ dom (locals env') ∧ (map_vok (locals env) → map_vok (locals env')).

Lemma scope_refl env : scope env env.
Proof. by split_and!. Qed.
Lemma scope_local env env' name v : scope env env' → vok v → scope env (with_local name v env').
Proof.
  intros (?&?&?&?&?&?&?&Hd&Hl) Hv. split_and!; try done; [cbn; set_solver|]. intros Hm k w. cbn. rewrite lookup_insert_Some. intros [[_ <-]|[_ Hk]]; [done|]. by apply (Hl Hm k).
Qed.

Context (rec rec' : L3ExprV2 → EvalEnv → option string → Eval L3ValueV2).
Abbreviation related e env cf := (R L3ValueV2 vok (rec e env cf) (rec' e env cf)).

Lemma closed_ret_true {A} (a : A) : R A (λ _, True) (mret a) (mret a).
Proof. by apply closed_ret. Qed.

Lemma closed_lift {A} (Q : A → Prop) (r : result EvalFault A) : bound r → (∀ a, r = Ok a → Q a) → R A Q (lift r) (lift r).
Proof. intros He Hr. destruct r as [a|e]; [by apply (closed_ret A Q a), Hr|apply (closed_throw A Q e)]. intros Hu. by destruct (He e eq_refl). Qed.

Lemma closed_read {A} (Q : A → Prop) (o : option A) name : ub ∨ is_Some o → (∀ a, ok_or o (Unbound name) = Ok a → Q a) → R A Q (lift (ok_or o (Unbound name))) (lift (ok_or o (Unbound name))).
Proof. intros Ho Hr. destruct o as [a|]; [by apply (closed_ret A Q a), Hr|]. apply (closed_throw A Q). by destruct Ho as [|[? ?]]. Qed.

Lemma closed_then {A B} (Q : A → Prop) (Q' : B → Prop) m f f' :
  R A Q m m → (∀ a, Q a → R B Q' (f a) (f' a)) → R B Q' (m ≫= f) (m ≫= f').
Proof. apply closed_bind. Qed.

Lemma closed_charged {B} (Q' : B → Prop) (m : Eval ()) n n' : R unit (λ _, True) m m → R B Q' n n' → R B Q' (_ ← m; n) (_ ← m; n').
Proof. intros Hm Hn. eapply closed_bind; [exact Hm|]. by intros [] _. Qed.

Lemma closed_for_each {A} (f : A → Eval ()) l : (∀ x, R unit (λ _, True) (f x) (f x)) → R unit (λ _, True) (for_each f l) (for_each f l).
Proof. intros Hf. induction l as [|x l IH]; cbn; [apply closed_ret_true|]. by apply closed_charged. Qed.

Lemma closed_as_bool shape v : R bool (λ _, True) (as_bool shape v) (as_bool shape v).
Proof. destruct v; try throws. by apply closed_ret. Qed.
Lemma closed_as_int shape v : vok v → R Z (λ n, wf → i64_ok n) (as_int shape v) (as_int shape v).
Proof. intros Hv. destruct v; try throws. apply closed_ret. intros W. apply (value_ok_inv _ (Hv W)). Qed.

(** ** The loops *)

Definition voks (l : list L3ValueV2) : Prop := Forall vok l.
Lemma voks_snoc l v : voks l → vok v → voks (l ++ [v]).
Proof. intros. apply Forall_app. by split; [|constructor]. Qed.
Lemma vok_list items : length items ≤ MAX_DERIVED_LIST_LEN → voks items → vok (VList items).
Proof. intros Hl Hi W. constructor; [done|]. eapply Forall_impl; [exact Hi|]. intros v Hv. by apply Hv. Qed.
Lemma list_vok items : vok (VList items) → voks items ∧ (wf → length items ≤ MAX_DERIVED_LIST_LEN).
Proof.
  intros Hv. split; [|intros W; apply (value_ok_inv _ (Hv W))]. apply Forall_forall. intros v Hin W.
  destruct (value_ok_inv _ (Hv W)) as [_ Hf]. rewrite Forall_forall in Hf. by apply Hf.
Qed.

Section items.
Context (item_value item_value' : L3ValueV2 → Eval L3ValueV2).
Context (Hitem : ∀ item, vok item → R L3ValueV2 vok (item_value item) (item_value' item)).

(** The next element's value, and what is done with it. *)
Lemma closed_item {B} (Q : B → Prop) item f f' : vok item → (∀ v, vok v → R B Q (f v) (f' v)) → R B Q (item_value item ≫= f) (item_value' item ≫= f').
Proof. intros Hv Hf. eapply closed_bind; [by apply Hitem|exact Hf]. Qed.

Lemma closed_checked acc : R Z (λ n, wf → i64_ok n) (lift (ok_or (checked i64_ok acc) (FOverflow Add))) (lift (ok_or (checked i64_ok acc) (FOverflow Add))).
Proof. apply closed_lift; [apply bound_or; by intros []|]. intros a [-> Ha]%ok_or_Ok%checked_Some. done. Qed.

Lemma closed_sum items : voks items → ∀ acc, (wf → i64_ok acc) → R Z (λ n, wf → i64_ok n) (sum_items item_value items acc) (sum_items item_value' items acc).
Proof.
  induction 1 as [|item items Hv Hi IH]; intros acc Ha; cbn; [by apply closed_ret|]. apply closed_item; [done|]. intros v Hv'.
  eapply closed_then; [by apply closed_as_int|]. intros n _. eapply closed_then; [apply closed_checked|]. exact IH.
Qed.
Lemma closed_count items : voks items → ∀ acc, (wf → i64_ok acc) → R Z (λ n, wf → i64_ok n) (count_items item_value items acc) (count_items item_value' items acc).
Proof.
  induction 1 as [|item items Hv Hi IH]; intros acc Ha; cbn; [by apply closed_ret|]. apply closed_item; [done|]. intros v Hv'.
  eapply closed_then; [apply closed_as_bool|]. intros [] _; (eapply closed_then; [|exact IH]); [apply closed_checked|by apply closed_ret].
Qed.
Lemma closed_all items : voks items → R bool (λ _, True) (all_items item_value items) (all_items item_value' items).
Proof.
  induction 1 as [|item items Hv Hi IH]; cbn; [by apply closed_ret|]. apply closed_item; [done|]. intros v Hv'.
  eapply closed_then; [apply closed_as_bool|]. intros [] _; [done|by apply closed_ret].
Qed.
Lemma closed_any items : voks items → R bool (λ _, True) (any_items item_value items) (any_items item_value' items).
Proof.
  induction 1 as [|item items Hv Hi IH]; cbn; [by apply closed_ret|]. apply closed_item; [done|]. intros v Hv'.
  eapply closed_then; [apply closed_as_bool|]. intros [] _; [by apply closed_ret|done].
Qed.
Lemma closed_extremum op items : voks items → ∀ acc, (∀ n, acc = Some n → wf → i64_ok n) →
  R (option Z) (λ o, (acc ≠ None ∨ items ≠ [] → o ≠ None) ∧ ∀ n, o = Some n → wf → i64_ok n) (extremum_items item_value op items acc) (extremum_items item_value' op items acc).
Proof.
  induction 1 as [|item items Hv Hi IH]; intros acc Ha; cbn; [apply closed_ret; split; [by intros [?|?]|done]|]. apply closed_item; [done|]. intros v Hv'.
  eapply closed_then; [by apply closed_as_int|]. intros n Hn. eapply closed_weaken; [apply IH|].
  - intros m [= <-] W. specialize (Hn W). destruct acc as [cur|]; [|done]. specialize (Ha cur eq_refl W). case_decide; [destruct (Z.min_spec cur n) as [[_ ->]|[_ ->]]|destruct (Z.max_spec cur n) as [[_ ->]|[_ ->]]]; done.
  - intros o [Ho Hok]. split; [|done]. intros _. apply Ho. by left.
Qed.
Lemma closed_filter items : voks items → ∀ out, voks out → length out ≤ MAX_DERIVED_LIST_LEN →
  R (list L3ValueV2) (λ l, voks l ∧ length l ≤ MAX_DERIVED_LIST_LEN) (filter_items item_value items out) (filter_items item_value' items out).
Proof.
  induction 1 as [|item items Hv Hi IH]; intros out Ho Hl; cbn; [by apply closed_ret|]. apply closed_item; [done|]. intros v Hv'.
  eapply closed_then; [apply closed_as_bool|]. intros [] _; [|by apply IH]. case_decide; [throws|].
  apply IH; [by apply voks_snoc|rewrite length_app; cbn; lia].
Qed.
Lemma closed_map items : voks items → ∀ out, voks out → length out ≤ MAX_DERIVED_LIST_LEN →
  R (list L3ValueV2) (λ l, voks l ∧ length l ≤ MAX_DERIVED_LIST_LEN) (map_items item_value items out) (map_items item_value' items out).
Proof.
  induction 1 as [|item items Hv Hi IH]; intros out Ho Hl; cbn; [by apply closed_ret|]. apply closed_item; [done|]. intros v Hv'.
  case_decide; [throws|]. apply IH; [by apply voks_snoc|rewrite length_app; cbn; lia].
Qed.
End items.

Lemma closed_search needle items : R bool (λ _, True) (search_items needle items) (search_items needle items).
Proof.
  induction items as [|item items IH]; cbn; [by apply closed_ret|]. apply closed_charged; [apply closed_tick|]. case_decide; [by apply closed_ret|done].
Qed.
Lemma closed_distinct items : voks items → ∀ seen out, voks out → length out ≤ MAX_DERIVED_LIST_LEN →
  R (list L3ValueV2) (λ l, voks l ∧ length l ≤ MAX_DERIVED_LIST_LEN) (distinct_items items seen out) (distinct_items items seen out).
Proof.
  induction 1 as [|item items Hv Hi IH]; intros seen out Ho Hl; cbn; [by apply closed_ret|]. do 2 (apply closed_charged; [apply closed_tick|]).
  destruct (seen_before seen item); [by apply IH|]. case_decide; [throws|]. apply IH; [by apply voks_snoc|rewrite length_app; cbn; lia].
Qed.
Lemma closed_ascribe schemas element items : voks items → ∀ out, voks out →
  R (list L3ValueV2) (λ l, voks l ∧ length l ≤ length out + length items) (ascribe_items schemas element items out) (ascribe_items schemas element items out).
Proof.
  induction 1 as [|item items Hv Hi IH]; intros out Ho; cbn; [apply closed_ret; split; [done|lia]|].
  destruct (is_ok _); [|throws]. eapply closed_weaken; [apply IH, voks_snoc; [done|intros W; by apply specialize_ok, Hv]|].
  intros l [? Hl]. split; [done|]. rewrite length_app in Hl. cbn in Hl. lia.
Qed.

(** ** The body *)

Definition registry_ok (r : DocumentaryRegistry) : Prop :=
  Forall (λ c, length (c_grants c) ≤ MAX_DERIVED_LIST_LEN ∧ u64_ok (c_revision c)) (runtime_claims r).
Definition env_vok (env : EvalEnv) : Prop :=
  map_vok (inputs env) ∧ map_vok (lets env) ∧ map_vok (facts env) ∧ map_vok (locals env) ∧ (wf → registry_ok (documentary_registry env)).

Lemma scope_vok env env' : scope env env' → env_vok env → env_vok env'.
Proof. intros (E1&E2&E3&_&_&E6&_&_&Hl) (H1&H2&H3&H4&H5). split_and!; rewrite ?E1, ?E2, ?E3, ?E6; auto. Qed.

Lemma validate_vok r schemas target arg v : (wf → registry_ok r) → validate_authority r schemas target arg = Some (Ok v) → vok v.
Proof.
  intros Hr Hv W. specialize (Hr W).
  assert (∀ variant x, value_ok x → value_ok (validation_outcome variant x)) as Ho by (intros; constructor; by constructor).
  assert (∀ name fill, (∀ f x, fill f = Some x → value_ok x) → Forall (λ f, value_ok f.2) (declared_fields schemas name fill)) as Hd.
  { intros name fill Hf. unfold declared_fields. destruct (schemas !! name) as [[s [|declared]]|]; [constructor| |constructor]. apply Forall_forall. intros [k x] Hin.
    apply list_elem_of_omap in Hin as ([k' t] & _ & (y & Hy & [= <- <-])%bind_Some). by eapply Hf. }
  assert (∀ (fields dflt : list (string * L3ValueV2)), Forall (λ f, value_ok f.2) fields → Forall (λ f, value_ok f.2) dflt →
    value_ok (VRecord "" (if decide (fields = []) then dflt else fields))) as Hrec by (intros; constructor; by case_decide).
  unfold validate_authority in Hv. case_decide; [|case_decide; [|done]].
  - apply fmap_Some in Hv as (w & Hw & [= ->]). unfold validate_documented_step in Hw. destruct (documented_reference arg) as [[[uri|] kind] scp]; [|injection Hw as <-; by apply Ho].
    destruct (lookup_documentary r uri kind scp) as [entry|[|reason|reason]]; [|done|injection Hw as <-; by apply Ho..]. injection Hw as <-. apply Ho. constructor.
    case_decide; [by repeat constructor|]. apply Hd. intros f x. repeat (case_decide; [by intros [= <-]|]). done.
  - apply fmap_Some in Hv as (w & Hw & [= ->]). unfold validate_runtime_outcome in Hw. destruct (runtime_query arg) as [query|o] eqn:Hq.
    2:{ destruct (runtime_query_outcome _ _ Hq) as (variant & reason & -> & _). injection Hw as <-. by apply Ho. }
    destruct (lookup_runtime_claim r query) as [c|[|reason|reason]] eqn:Hl; [|done|injection Hw as <-; by apply Ho..]. injection Hw as <-. apply Ho. constructor.
    apply lookup_runtime_claim_Ok in Hl as (_ & [Hin _]%iter_find_Some & _). unfold registry_ok in Hr. rewrite Forall_forall in Hr. destruct (Hr c Hin) as [Hg Hrev].
    case_decide; [by repeat constructor|]. apply Hd. intros f x. do 5 (case_decide; [by intros [= <-]|]). case_decide.
    + intros [= <-]. constructor. unfold u64_as_i64. case_decide; int_lia.
    + do 4 (case_decide; [by intros [= <-]|]). case_decide; [|case_decide; [by intros [= <-]|done]]. intros [= <-]. constructor; [by rewrite length_fmap|].
      apply Forall_fmap, Forall_true. intros s. constructor.
Qed.

Context (e0 : L3ExprV2) (env0 : EvalEnv).
Context (Hsub : ∀ bs e env cf, (bs, e) ∈ subterms e0 → scope env0 env → bs ⊆ dom (locals env) → related e env cf).
Context (Hfun : ∀ func def vals cf, functions env0 !! func = Some def → voks vals → length vals = length (params def) →
  related (f_body def) (fn_env env0 def vals) cf).
Context (Hread : ub ∨ reads_bound e0 env0).
Context (Henv : env_vok env0) (Hlit : wf → match e0 with EInt n => i64_ok n | _ => True end).

Lemma Hsub0 e env cf : (∅, e) ∈ subterms e0 → scope env0 env → related e env cf.
Proof. intros He Hs. eapply Hsub; [exact He|done|]. apply empty_subseteq. Qed.
Lemma plain_inv e l : plain (e :: l) ⊆ subterms e0 → (∅, e) ∈ subterms e0 ∧ plain l ⊆ subterms e0.
Proof. intros Hl. split; [apply Hl; by left|intros x Hx; apply Hl; by right]. Qed.

Lemma closed_list shape bs e env cf : (bs, e) ∈ subterms e0 → bs ⊆ dom (locals env) → scope env0 env →
  R (list L3ValueV2) (λ l, voks l ∧ (wf → length l ≤ MAX_DERIVED_LIST_LEN)) (eval_list rec shape e env cf) (eval_list rec' shape e env cf).
Proof.
  intros He Hb Hs. eapply closed_bind; [by eapply Hsub|]. intros v Hv. destruct v; try throws. apply closed_ret. by apply list_vok.
Qed.

Lemma closed_item_value binder body env cf item : ({[binder]}, body) ∈ subterms e0 → scope env0 env → vok item →
  R L3ValueV2 vok (eval_item rec binder body env cf item) (eval_item rec' binder body env cf item).
Proof. intros Hb Hs Hv. apply closed_charged; [apply closed_tick|]. eapply Hsub; [exact Hb|by apply scope_local|]. cbn. set_solver. Qed.

Lemma closed_eval_charged l env cf : plain l ⊆ subterms e0 → scope env0 env → ∀ out, voks out →
  R (list L3ValueV2) (λ o, voks o ∧ length o = length out + length l) (eval_charged rec l env cf out) (eval_charged rec' l env cf out).
Proof.
  intros Hl Hs. induction l as [|e l IH]; intros out Ho; cbn; [apply closed_ret; split; [done|lia]|]. apply plain_inv in Hl as [He Hl].
  eapply closed_bind; [by apply Hsub0|]. intros v Hv. apply closed_charged; [apply closed_value|].
  eapply closed_weaken; [by apply IH, voks_snoc|]. intros o [? Hlen]. split; [done|]. rewrite length_app in Hlen. cbn in Hlen. lia.
Qed.
Lemma closed_eval_args l env cf : plain l ⊆ subterms e0 → scope env0 env → ∀ out, voks out →
  R (list L3ValueV2) (λ o, voks o ∧ length o = length out + length l) (eval_args rec l env cf out) (eval_args rec' l env cf out).
Proof.
  intros Hl Hs. induction l as [|e l IH]; intros out Ho; cbn; [apply closed_ret; split; [done|lia]|]. apply plain_inv in Hl as [He Hl].
  eapply closed_bind; [by apply Hsub0|]. intros v Hv.
  eapply closed_weaken; [by apply IH, voks_snoc|]. intros o [? Hlen]. split; [done|]. rewrite length_app in Hlen. cbn in Hlen. lia.
Qed.
Lemma closed_eval_fields l env cf : plain l.*2 ⊆ subterms e0 → scope env0 env → ∀ out, Forall (λ f, vok f.2) out →
  R (list (string * L3ValueV2)) (λ o, Forall (λ f, vok f.2) o) (eval_fields rec l env cf out) (eval_fields rec' l env cf out).
Proof.
  intros Hl Hs. induction l as [|[name e] l IH]; intros out Ho; cbn; [by apply closed_ret|]. apply plain_inv in Hl as [He Hl]. apply closed_charged; [apply closed_allocation|].
  eapply closed_bind; [by apply Hsub0|]. intros v Hv. apply closed_charged; [apply closed_value|].
  apply IH; [done|]. apply Forall_app. by split; [|constructor].
Qed.

Lemma closed_generators gens w y cf : ∀ names, generated gens w y names ⊆ subterms e0 → ∀ env out, scope env0 env → names ⊆ dom (locals env) → voks out → length out ≤ MAX_DERIVED_LIST_LEN →
  R (list L3ValueV2) (λ l, voks l ∧ length l ≤ MAX_DERIVED_LIST_LEN) (eval_comprehension_generators rec gens w y env cf out) (eval_comprehension_generators rec' gens w y env cf out).
Proof.
  induction gens as [|[binder source] gens IH]; intros names Hg env out Hs Hn Ho Hl; cbn [eval_comprehension_generators generated] in *.
  - assert (∀ e, e ∈ option_list w ++ [y] → related e env cf) as Hw by (intros e He; eapply Hsub; [apply Hg; by apply (list_elem_of_fmap_2 (λ e, (names, e)))|done..]).
    eapply (closed_bind _ _ (λ _, True)).
    + destruct w as [w|]; [|by apply closed_ret]. eapply closed_bind; [apply Hw; by left|]. intros v _. apply closed_as_bool.
    + intros [] _; [|by apply closed_ret]. eapply closed_bind; [apply Hw, elem_of_app; right; by left|]. intros v Hv. case_decide; [throws|]. apply closed_ret.
      split; [by apply voks_snoc|rewrite length_app; cbn; lia].
  - eapply closed_bind; [by apply (closed_list _ names); [apply Hg; left|..]|]. intros items [Hi _]. revert out Ho Hl.
    induction Hi as [|item items Hv Hi IHi]; intros out Ho Hl; [by apply closed_ret|]. apply closed_charged; [apply closed_tick|].
    eapply closed_bind; [apply (IH ({[binder]} ∪ names)); [intros x Hx; apply Hg; by right|by apply scope_local|cbn; set_solver|done..]|]. intros out' [Ho' Hl']. by apply IHi.
Qed.

Lemma closed_bind_arguments binders args : voks args → length binders = length args → ∀ env, scope env0 env →
  R EvalEnv (λ env', scope env0 env' ∧ dom (locals env) ∪ list_to_set (omap id binders) ⊆ dom (locals env')) (bind_arguments binders args env) (bind_arguments binders args env).
Proof.
  intros Ha. revert binders. induction Ha as [|a args Hv Ha IH]; intros [|[name|] binders] Hl env Hs; try done; cbn; try (apply closed_ret; split; [done|set_solver]).
  - apply closed_charged; [apply closed_tick|]. eapply closed_weaken; [apply IH; [by injection Hl|by apply scope_local]|]. intros env' [? Hd]. split; [done|]. cbn in Hd. set_solver.
  - apply IH; [by injection Hl|done].
Qed.
Lemma closed_arms v args arms cf : ((λ a, (arm_names a.1, a.2)) <$> arms) ⊆ subterms e0 → voks args →
  R L3ValueV2 vok (eval_arms rec v args arms env0 cf) (eval_arms rec' v args arms env0 cf).
Proof.
  intros Hsb Ha. induction arms as [|[pat body] arms IH]; cbn; [throws|].
  assert ((arm_names pat, body) ∈ subterms e0 ∧ ((λ a, (arm_names a.1, a.2)) <$> arms) ⊆ subterms e0) as [Hb Hr] by (split; [apply Hsb; by left|intros x Hx; apply Hsb; by right]).
  destruct pat as [nom variant binders|]; [|apply Hsub0; [done|apply scope_refl]]. destruct (negb (matches_value _ _)); [by apply IH|].
  destruct (bool_decide_reflect (length binders = length args)) as [Hlen|]; cbn [negb]; [|throws].
  apply closed_charged; [apply closed_for_each; intros x; apply closed_charged; [apply closed_allocation|apply closed_tick]|].
  eapply closed_bind; [apply closed_bind_arguments; [done..|apply scope_refl]|]. intros env [Hs Hd]. eapply Hsub; [exact Hb|done|]. cbn. set_solver.
Qed.

Lemma closed_contract schemas func param contract v : vok v →
  R L3ValueV2 vok (check_contract schemas func param contract v) (check_contract schemas func param contract v).
Proof.
  intros Hv. unfold check_contract. destruct contract as [t|]; [|by apply closed_ret]. destruct (validate_l3_value _ _ _ _); [|throws].
  apply closed_ret. intros W. by apply specialize_ok, Hv.
Qed.
Lemma closed_params func schemas ps vals : voks vals → ∀ out, voks out →
  R (list L3ValueV2) (λ o, voks o ∧ length o = length out + length vals) (check_params func schemas ps vals out) (check_params func schemas ps vals out).
Proof.
  intros Hv. revert ps. induction Hv as [|v vals Hv Hvs IH]; intros ps out Ho.
  - destruct ps as [|[] ?]; cbn; apply closed_ret; rewrite app_nil_r; (split; [done|lia]).
  - destruct ps as [|[name contract] ps]; cbn; [apply closed_ret; split; [apply Forall_app; split; [done|by constructor]|rewrite length_app; cbn; lia]|].
    eapply closed_then; [by apply closed_contract|]. intros v' Hv'. eapply closed_weaken; [by apply IH, voks_snoc|]. intros o [? Hlen]. split; [done|]. rewrite length_app in Hlen. cbn in Hlen. lia.
Qed.
Lemma closed_constructor nominal v : vok v → R L3ValueV2 vok (check_constructor env0 nominal v) (check_constructor env0 nominal v).
Proof. intros Hv. unfold check_constructor. destruct (_ && _); [|by apply closed_ret]. destruct (validate_l3_value _ _ _ _); [by apply closed_ret|throws]. Qed.

Lemma closed_eval_call func args cf : e0 = ECall func args → R L3ValueV2 vok (eval_call rec func args env0 cf) (eval_call rec' func args env0 cf).
Proof.
  intros E. unfold eval_call. destruct (functions env0 !! func) as [def|] eqn:Hf; [|apply closed_throw; destruct Hread as [|Hr]; [done|]; rewrite E in Hr; cbn in Hr; rewrite Hf in Hr; by destruct Hr].
  destruct (bool_decide_reflect (length (params def) = length args)) as [Hlen|]; cbn [negb]; [|throws].
  apply closed_charged; [apply closed_allocation|]. eapply closed_bind; [apply closed_eval_args; [by rewrite E|apply scope_refl|constructor]|].
  intros vals [Hv Hl]. eapply closed_then; [apply closed_params; [done|constructor]|]. intros vals' [Hv' Hl']. cbn in *.
  eapply closed_call; [apply (Hfun func def vals' (Some func)); [done..|lia]|]. intros r Hr. by apply closed_contract.
Qed.

Lemma closed_bool b : R L3ValueV2 vok (mret (VBool b)) (mret (VBool b)).
Proof. apply closed_ret. intros _. constructor. Qed.
Lemma closed_int n : (wf → i64_ok n) → R L3ValueV2 vok (mret (VInt n)) (mret (VInt n)).
Proof. intros Hn. apply closed_ret. intros W. constructor. auto. Qed.

Lemma vok_cmp op x y v : eval_cmp op x y = Ok v → vok v.
Proof.
  unfold eval_cmp. destruct (_ && _); [done|]. intros Hv _.
  destruct op; try (injection Hv as <-; constructor); apply result_bind_Ok in Hv as (o & _ & [= <-]); constructor.
Qed.

Lemma closed_fold op list binder body cf : e0 = EFold op list binder body →
  R L3ValueV2 vok (eval_fold rec op list binder body env0 cf) (eval_fold rec' op list binder body env0 cf).
Proof.
  intros E. unfold eval_fold. eapply closed_bind; [apply (closed_list _ ∅); [rewrite E; by left|apply empty_subseteq|apply scope_refl]|]. intros items [Hi Hlen].
  assert (∀ item, vok item → R L3ValueV2 vok (eval_item rec binder body env0 cf item) (eval_item rec' binder body env0 cf item)) as Hitem.
  { intros item Hv. apply closed_item_value; [rewrite E; right; by left|apply scope_refl|done]. }
  assert (wf → i64_ok 0) as H0 by (intros _; done).
  assert (op = Min ∨ op = Max → R L3ValueV2 vok
    (if decide (items = []) then throw (EmptyAggregate op) else acc ← extremum_items (eval_item rec binder body env0 cf) op items None; match acc with Some n => mret (VInt n) | None => λ _, Panicked end)
    (if decide (items = []) then throw (EmptyAggregate op) else acc ← extremum_items (eval_item rec' binder body env0 cf) op items None; match acc with Some n => mret (VInt n) | None => λ _, Panicked end)) as Hm.
  { intros _. case_decide as Hne; [throws|]. eapply closed_bind; [by apply closed_extremum|]. intros [n|] [H1 H2]; [apply closed_int; by apply H2|].
    by destruct H1; [right|]. }
  destruct op; try (apply Hm; auto).
  - eapply closed_bind; [by apply closed_sum|]. intros n Hn. by apply closed_int.
  - eapply closed_bind; [by apply closed_count|]. intros n Hn. by apply closed_int.
  - eapply closed_bind; [by apply closed_all|]. intros b _. apply closed_bool.
  - eapply closed_bind; [by apply closed_any|]. intros b _. apply closed_bool.
Qed.

(** Whatever the primitives preserve, the body of the evaluator preserves. *)
Lemma closed_body cf : R L3ValueV2 vok (eval_internal_body rec e0 env0 cf) (eval_internal_body rec' e0 env0 cf).
Proof.
  pose proof Henv as (Hin & Hlet & Hfact & Hloc & Hreg).
  enough (∀ e, e0 = e → R L3ValueV2 vok (eval_internal_body rec e env0 cf) (eval_internal_body rec' e env0 cf)) as Hgo by by apply Hgo.
  intros e E0. destruct e as [n|s|b|name|rule|nom variant|nom variant args|nom fields|base field|op a b|op a b|scr arms|func args|a b|a b|a|op a b|op l binder body|l binder cond|l binder body|gens w y|items|a b|a|a|a|a element|op args|target a]; cbn [eval_internal_body].
  - apply closed_int. intros W. specialize (Hlit W). by rewrite E0 in Hlit.
  - apply closed_charged; [apply closed_allocation|]. apply closed_ret. intros _. constructor.
  - apply closed_bool.
  - eapply (closed_then vok); [apply closed_read; [by rewrite E0 in Hread|]|].
    + intros v Hv%ok_or_Ok. unfold lookup_name in Hv. destruct (locals env0 !! name) eqn:H1; [injection Hv as <-; by eapply Hloc|].
      destruct (lets env0 !! name) eqn:H2; [injection Hv as <-; by eapply Hlet|by eapply Hin].
    + intros v Hv. apply closed_charged; [apply closed_tick|by apply closed_ret].
  - eapply (closed_then vok); [apply closed_read; [by rewrite E0 in Hread|]; intros v Hv%ok_or_Ok; by eapply Hfact|]. intros v Hv. apply closed_charged; [apply closed_tick|by apply closed_ret].
  - apply closed_charged; [apply closed_allocation|]. apply closed_constructor. intros _. by repeat constructor.
  - apply closed_charged; [apply closed_allocation|]. eapply closed_bind; [apply closed_eval_charged; [by rewrite E0|apply scope_refl|constructor]|].
    intros out [Ho _]. apply closed_constructor. intros W. constructor. eapply Forall_impl; [exact Ho|]. intros v Hv. by apply Hv.
  - apply closed_charged; [apply closed_allocation|]. eapply closed_bind; [apply closed_eval_fields; [by rewrite E0|apply scope_refl|constructor]|].
    intros out Ho. apply closed_constructor. intros W. constructor. eapply Forall_impl; [exact Ho|]. intros v Hv. by apply Hv.
  - eapply closed_bind; [apply Hsub0; [rewrite E0; by left|apply scope_refl]|]. intros v Hv. destruct v as [| | | |nom fields| | |]; try throws. apply closed_lift; [apply bound_or; by intros []|].
    intros x Hx%ok_or_Ok W. apply fmap_Some in Hx as (f & [Hf _]%iter_find_Some & ->). pose proof (value_ok_inv _ (Hv W)) as HF. cbn in HF. rewrite Forall_forall in HF. by apply HF.
  - eapply closed_bind; [apply Hsub0; [rewrite E0; by left|apply scope_refl]|]. intros x Hx. eapply closed_bind; [apply Hsub0; [rewrite E0; right; by left|apply scope_refl]|]. intros y Hy.
    apply closed_lift; [apply arith_bound|]. intros v Hv W. eapply arith_ok; [by apply Hx|by apply Hy|done].
  - eapply closed_bind; [apply Hsub0; [rewrite E0; by left|apply scope_refl]|]. intros x Hx. eapply closed_bind; [apply Hsub0; [rewrite E0; right; by left|apply scope_refl]|]. intros y Hy.
    apply closed_lift; [apply cmp_bound|]. intros v Hv. by eapply vok_cmp.
  - eapply closed_bind; [apply Hsub0; [rewrite E0; by left|apply scope_refl]|]. intros v Hv.
    eapply (closed_then voks).
    + destruct v; try throws; apply closed_ret; [constructor|]. apply Forall_forall. intros x Hx W. pose proof (value_ok_inv _ (Hv W)) as HF. cbn in HF. rewrite Forall_forall in HF. by apply HF.
    + intros args Ha. destruct (foreign_scrutinee _ _); [throws|]. apply closed_arms; [rewrite E0; cbn; intros x Hx; by right|done].
  - by apply closed_eval_call.
  - eapply closed_bind; [apply Hsub0; [rewrite E0; by left|apply scope_refl]|]. intros x _. eapply closed_then; [apply closed_as_bool|]. intros [] _; [|apply closed_bool].
    cbn [negb]. eapply closed_bind; [apply Hsub0; [rewrite E0; right; by left|apply scope_refl]|]. intros y _. eapply closed_then; [apply closed_as_bool|]. intros c _. apply closed_bool.
  - eapply closed_bind; [apply Hsub0; [rewrite E0; by left|apply scope_refl]|]. intros x _. eapply closed_then; [apply closed_as_bool|]. intros [] _; [apply closed_bool|].
    eapply closed_bind; [apply Hsub0; [rewrite E0; right; by left|apply scope_refl]|]. intros y _. eapply closed_then; [apply closed_as_bool|]. intros c _. apply closed_bool.
  - eapply closed_bind; [apply Hsub0; [rewrite E0; by left|apply scope_refl]|]. intros x _. eapply closed_then; [apply closed_as_bool|]. intros c _. apply closed_bool.
  - eapply closed_bind; [apply Hsub0; [rewrite E0; by left|apply scope_refl]|]. intros x Hx. eapply closed_bind; [apply Hsub0; [rewrite E0; right; by left|apply scope_refl]|]. intros y Hy.
    destruct x; try throws. destruct y; try throws. eapply (closed_then (λ r, i64_ok r)); [|intros r Hr; apply closed_int; auto].
    apply closed_lift; [apply div_mod_bound|]. intros r Hr. pose proof (eval_div_mod_cases op n n0) as Hc. rewrite Hr in Hc. apply Hc.
  - by apply closed_fold.
  - unfold eval_filter. eapply closed_bind; [apply (closed_list _ ∅); [rewrite E0; by left|apply empty_subseteq|apply scope_refl]|]. intros items [Hi _].
    eapply closed_bind; [apply closed_filter; [|done|constructor|cbn; lia]|intros out [? ?]; apply closed_ret; by apply vok_list].
    intros item Hv. apply closed_item_value; [rewrite E0; right; by left|apply scope_refl|done].
  - unfold eval_map. eapply closed_bind; [apply (closed_list _ ∅); [rewrite E0; by left|apply empty_subseteq|apply scope_refl]|]. intros items [Hi _].
    eapply closed_bind; [apply closed_map; [|done|constructor|cbn; lia]|intros out [? ?]; apply closed_ret; by apply vok_list].
    intros item Hv. apply closed_item_value; [rewrite E0; right; by left|apply scope_refl|done].
  - unfold eval_comprehension. eapply closed_bind; [apply (closed_generators _ _ _ _ ∅); [by rewrite E0|apply scope_refl|apply empty_subseteq|constructor|cbn; lia]|].
    intros out [? ?]. apply closed_ret. by apply vok_list.
  - unfold eval_list_lit. case_decide as Hl; [throws|]. eapply closed_bind; [apply closed_eval_charged; [by rewrite E0|apply scope_refl|constructor]|].
    intros out [? Hlen]. apply closed_ret. apply vok_list; [cbn in Hlen; lia|done].
  - unfold eval_in. eapply closed_bind; [apply Hsub0; [rewrite E0; by left|apply scope_refl]|]. intros x _.
    eapply closed_bind; [apply (closed_list _ ∅); [rewrite E0; right; by left|apply empty_subseteq|apply scope_refl]|]. intros items _. eapply closed_then; [apply closed_search|]. intros c _. apply closed_bool.
  - unfold eval_len. eapply closed_bind; [apply (closed_list _ ∅); [rewrite E0; by left|apply empty_subseteq|apply scope_refl]|]. intros items [_ Hl]. apply closed_int. intros W. specialize (Hl W).
    unfold MAX_DERIVED_LIST_LEN in Hl. int_lia.
  - unfold eval_distinct. eapply closed_bind; [apply (closed_list _ ∅); [rewrite E0; by left|apply empty_subseteq|apply scope_refl]|]. intros items [Hi _].
    eapply closed_then; [apply closed_distinct; [done|constructor|cbn; lia]|]. intros out [? ?]. apply closed_ret. by apply vok_list.
  - unfold eval_only. eapply closed_bind; [apply (closed_list _ ∅); [rewrite E0; by left|apply empty_subseteq|apply scope_refl]|]. intros items [Hi _]. apply closed_charged; [apply closed_tick|].
    destruct items as [|x [|]]; try throws. apply Forall_cons in Hi as [Hx _]. apply closed_charged; [apply closed_tick|by apply closed_ret].
  - unfold eval_ascribe. eapply (closed_bind _ _ (λ l, voks l ∧ (wf → length l ≤ MAX_DERIVED_LIST_LEN))); [apply (closed_list _ ∅); [rewrite E0; by left|apply empty_subseteq|apply scope_refl]|]. intros items [Hi Hl].
    eapply closed_then; [apply closed_ascribe; [done|constructor]|]. intros out [Ho Hlen]. cbn in Hlen. apply closed_ret. intros W. apply vok_list; [specialize (Hl W); lia|done|done].
  - destruct (negb _); [throws|]. eapply closed_bind; [apply closed_eval_args; [by rewrite E0|apply scope_refl|constructor]|]. intros vals [Hv _].
    apply closed_lift; [apply builtin_bound|]. intros v Hb W. eapply builtin_ok; [|done]. eapply Forall_impl; [exact Hv|]. intros x Hx. by apply Hx.
  - unfold eval_validate_v2. apply closed_charged; [apply closed_tick|]. eapply closed_bind; [apply Hsub0; [rewrite E0; by left|apply scope_refl]|]. intros x _.
    destruct (validate_authority_total (documentary_registry env0) (env_schemas env0) target x) as (res & Hres & _). rewrite Hres. apply closed_lift; [by eapply validate_bound|].
    intros v ->. by eapply validate_vok.
Qed.
End closure.

(** * Fuel *)

(** More fuel gives the same outcome. *)
Definition R_fuel : relation := λ A Q m m',
  ∀ b, m b = OutOfFuel ∨ (m b = m' b ∧ match m b with Done (Ok a, _) => Q a | _ => True end).

#[local] Instance R_fuel_closed : Closed True R_fuel.
Proof.
  assert (∀ A (Q : A → Prop) (m : Eval A), (∀ b, match m b with Done (Ok a, _) => Q a | _ => True end) → R_fuel A Q m m) as Hsame by (intros A Q m Hm b; right; split; [done|apply Hm]).
  assert (∀ A B (Q : A → Prop) (Q' : B → Prop) m m' f f', R_fuel A Q m m' → (∀ a, Q a → R_fuel B Q' (f a) (f' a)) → R_fuel B Q' (m ≫= f) (m' ≫= f')) as Hbind.
  { intros A B Q Q' m m' f f' Hm Hf b. unfold mbind, Eval_bind. destruct (Hm b) as [->|[<- Ha]]; [by left|]. destruct (m b) as [[[a|e] b']| |]; [by apply Hf|right..]; done. }
  split; [by intros A Q a Ha; apply Hsame|by intros; apply Hsame|exact Hbind| | | | |].
  - intros A Q Q' m m' Hm Hq b. destruct (Hm b) as [?|[? Ha]]; [by left|right]. split; [done|]. destruct (m b) as [[[a|e] b']| |]; auto.
  - apply Hsame. intros b. by repeat case_match.
  - intros n y. apply Hsame. intros b. by repeat case_match.
  - intros v d. apply Hsame. intros b. by repeat case_match.
  - intros A B Q Q' func n y m m' f Hm Hf. eapply (Hbind _ _ (λ _, True)); [apply Hsame; intros b; by repeat case_match|]. intros _ _.
    eapply (Hbind _ _ (λ _, True)); [apply Hsame; intros b; by repeat case_match|]. intros _ _. eapply (Hbind _ _ Q); [|exact Hf]. intros b. unfold leaving_call.
    destruct (Hm b) as [->|[<- Ha]]; [by left|right]. split; [done|]. by destruct (m b) as [[[a|e] [b'|]]| |].
Qed.

Lemma eval_internal_S fuel e env cf :
  eval_internal (S fuel) e env cf = (_ ← charge (enter cf); leaving (eval_internal_body (eval_internal fuel) e env cf)).
Proof. done. Qed.

Lemma env_vok_false env : env_vok False env.
Proof. split_and!; try (by intros k v _ []); intros []. Qed.

Lemma eval_internal_step fuel e env cf : R_fuel _ (λ _, True) (eval_internal fuel e env cf) (eval_internal (S fuel) e env cf).
Proof.
  revert e env cf. induction fuel as [|fuel IH]; intros e env cf; [by left|]. rewrite !eval_internal_S.
  eapply (closed_bind _ _ (λ _, True)); [intros b; right; split; [done|]; by repeat case_match|]. intros _ _ b.
  assert (R_fuel _ (vok False) (eval_internal_body (eval_internal fuel) e env cf) (eval_internal_body (eval_internal (S fuel)) e env cf)) as Hb.
  { apply (closed_body True R_fuel False); [intros; eapply closed_weaken; [apply IH|by intros ? _ []]..|by left|apply env_vok_false|done]. }
  unfold leaving. destruct (Hb b) as [->|[<- _]]; [by left|right]. split; [done|]. by repeat case_match.
Qed.

Lemma eval_internal_mono n m e env cf b : eval_internal n e env cf b ≠ OutOfFuel → n ≤ m → eval_internal m e env cf b = eval_internal n e env cf b.
Proof.
  intros Hn Hm. induction Hm as [|m Hm IH]; [done|]. destruct (eval_internal_step m e env cf b) as [Ho|[<- _]]; [by rewrite IH in Ho|done].
Qed.

(** * Budgets only refuse *)

Definition budget_fault (f : EvalFault) : Prop :=
  match f with ResourceExhausted _ _ | CallDepthExceeded _ _ => True | _ => False end.

Definition R_budget : relation := λ A Q m m', ∀ b,
  match m (Some b) with
  | Done (Ok a, Some _) => m' None = Done (Ok a, None) ∧ Q a
  | Done (Err f, Some _) => budget_fault f ∨ m' None = Done (Err f, None)
  | Done (_, None) => False
  | Panicked => m' None = Panicked
  | OutOfFuel => True
  end.

Lemma tick_fault b f b' : tick_step b = (Err f, b') → budget_fault f.
Proof. unfold tick_step, flush_run_work. intros H. repeat case_match; simplify_eq/=; done. Qed.
Lemma allocation_fault n y b f b' : charge_allocation n y b = (Err f, b') → budget_fault f.
Proof. unfold charge_allocation. intros H. repeat case_match; simplify_eq/=; done. Qed.

Lemma R_budget_charge (op : Charge) : (∀ b f b', op b = (Err f, b') → budget_fault f) → R_budget unit (λ _, True) (charge op) (charge op).
Proof. intros Hop b. unfold charge. destruct (op b) as [[[]|f] b'] eqn:E; [done|]. left. by eapply Hop. Qed.

Lemma walk_fault b w r : walk_step b w = Some (inl (Err r)) → budget_fault r.
Proof. destruct w as [[[stack count] bytes] seen]. cbn. intros H. repeat case_match; simplify_eq/=; done. Qed.
Lemma walk_total b w : walk_step b w ≠ None.
Proof. destruct w as [[[[|[] ?] count] bytes] seen]; cbn; repeat case_match; done. Qed.
Lemma iterate_final {S A} (body : S → option (A + S)) fuel s a : iterate body fuel s = Done a → ∃ t, body t = Some (inl a).
Proof. revert s. induction fuel as [|fuel IH]; intros s; cbn; [done|]. destruct (body s) as [[x|t]|] eqn:E; [intros [= <-]; by exists s|apply IH|done]. Qed.
Lemma iterate_panic {S A} (body : S → option (A + S)) fuel s : (∀ t, body t ≠ None) → iterate body fuel s ≠ Panicked.
Proof. intros Hb. revert s. induction fuel as [|fuel IH]; intros s; cbn; [done|]. specialize (Hb s). destruct (body s) as [[x|t]|]; done || apply IH. Qed.

#[local] Instance R_budget_closed : Closed True R_budget.
Proof.
  assert (∀ A B (Q : A → Prop) (Q' : B → Prop) m m' f f', R_budget A Q m m' → (∀ a, Q a → R_budget B Q' (f a) (f' a)) → R_budget B Q' (m ≫= f) (m' ≫= f')) as Hbind.
  { intros A B Q Q' m m' f f' Hm Hf b. specialize (Hm b). unfold mbind, Eval_bind. destruct (m (Some b)) as [[[a|e] [b'|]]| |]; try done.
    - destruct Hm as [-> Ha]. apply (Hf a Ha b').
    - destruct Hm as [?| ->]; [by left|by right].
    - by rewrite Hm. }
  split; [done|by right|exact Hbind| | | | |].
  - intros A Q Q' m m' Hm Hq b. specialize (Hm b). destruct (m (Some b)) as [[[a|e] [b'|]]| |]; try done. destruct Hm. auto.
  - apply R_budget_charge, tick_fault.
  - intros n y. apply R_budget_charge, allocation_fault.
  - intros v d b. unfold charge_value. pose proof (iterate_panic (walk_step b) (S (value_nodes v)) ([(v, d)], 0%Z, 0%Z, 1%Z) (walk_total b)).
    destruct (iterate _ _ _) as [[[count bytes]|f]| |] eqn:E; [done| |done|done]. left. apply iterate_final in E as [t Ht]. by eapply walk_fault.
  - intros A B Q Q' func n y m m' f Hm Hf. eapply (Hbind _ _ (λ _, True)).
    { apply R_budget_charge. intros b g b'. unfold enter_call. by case_decide; intros [= <- _]. }
    intros _ _. eapply (Hbind _ _ (λ _, True)); [apply R_budget_charge, allocation_fault|]. intros _ _. eapply (Hbind _ _ Q); [|exact Hf].
    intros b. specialize (Hm b). unfold leaving_call. destruct (m (Some b)) as [[[a|e] [b'|]]| |]; try done.
    + by destruct Hm as [-> ?].
    + destruct Hm as [?| ->]; [by left|by right].
    + by rewrite Hm.
Qed.

Lemma enter_fault cf b f b' : enter cf b = (Err f, b') → budget_fault f.
Proof. unfold enter. destruct (tick_step b) as [[[]|g] b1] eqn:E; [case_decide; intros [= <- _]; done|]. intros [= <- _]. by eapply tick_fault. Qed.

Lemma budget_only_refuses fuel e env cf : R_budget _ (λ _, True) (eval_internal fuel e env cf) (eval_internal fuel e env cf).
Proof.
  revert e env cf. induction fuel as [|fuel IH]; intros e env cf; [done|]. rewrite !eval_internal_S.
  eapply (closed_bind _ _ (λ _, True)); [apply R_budget_charge, enter_fault|]. intros _ _ b.
  assert (R_budget _ (vok False) (eval_internal_body (eval_internal fuel) e env cf) (eval_internal_body (eval_internal fuel) e env cf)) as Hb.
  { apply (closed_body True R_budget False); [intros; eapply closed_weaken; [apply IH|by intros ? _ []]..|by left|apply env_vok_false|done]. }
  specialize (Hb b). unfold leaving. destruct (eval_internal_body _ e env cf (Some b)) as [[[a|f] [b'|]]| |]; try done.
  - by destruct Hb as [-> ?].
  - destruct Hb as [?| ->]; [by left|by right].
  - by rewrite Hb.
Qed.

(** * What a value is charged *)

Fixpoint value_bytes (v : L3ValueV2) : Z :=
  (node_bytes v + match v with
  | VCtor _ _ args => foldr Z.add 0 (List.map value_bytes args)
  | VRecord _ fields => foldr Z.add 0 (List.map (λ f, value_bytes f.2) fields)
  | VList items => foldr Z.add 0 (List.map value_bytes items)
  | _ => 0
  end)%Z.
Fixpoint value_depth (v : L3ValueV2) : Z :=
  (1 + match v with
  | VCtor _ _ args => foldr Z.max 0 (List.map value_depth args)
  | VRecord _ fields => foldr Z.max 0 (List.map (λ f, value_depth f.2) fields)
  | VList items => foldr Z.max 0 (List.map value_depth items)
  | _ => 0
  end)%Z.

Lemma value_nodes_children v : value_nodes v = S (list_sum (value_nodes <$> children v)).
Proof. destruct v; cbn; try done. f_equal. f_equal. by rewrite <-list_fmap_compose. Qed.
Lemma value_bytes_children v : value_bytes v = (node_bytes v + foldr Z.add 0 (value_bytes <$> children v))%Z.
Proof. destruct v; cbn [value_bytes children fmap list_fmap foldr]; try done. f_equal. by rewrite <-list_fmap_compose. Qed.
Lemma value_depth_children v : value_depth v = (1 + foldr Z.max 0 (value_depth <$> children v))%Z.
Proof. destruct v; cbn [value_depth children fmap list_fmap foldr]; try done. f_equal. by rewrite <-list_fmap_compose. Qed.

Lemma max_nonneg (l : list Z) : (0 ≤ foldr Z.max 0 l)%Z.
Proof. induction l; cbn; lia. Qed.

(** What is on the stack. *)
Definition stack_nodes (st : list (L3ValueV2 * Z)) : nat := list_sum ((λ p, value_nodes p.1) <$> st).
Definition stack_bytes (st : list (L3ValueV2 * Z)) : Z := foldr Z.add 0%Z ((λ p, value_bytes p.1) <$> st).
Definition stack_fits (b : EvalBudget) (st : list (L3ValueV2 * Z)) : Prop := Forall (λ p, p.2 + value_depth p.1 - 1 ≤ max_value_depth b)%Z st.

Lemma push_nodes l d st : stack_nodes (fold_left (λ st v, (v, d) :: st) l st) = list_sum (value_nodes <$> l) + stack_nodes st.
Proof. revert st. induction l as [|v l IH]; intros st; cbn [fold_left]; [done|]. rewrite IH. unfold stack_nodes. cbn [fmap list_fmap fst list_sum fold_right]. unfold list_sum. lia. Qed.
Lemma push_bytes l d st : stack_bytes (fold_left (λ st v, (v, d) :: st) l st) = (foldr Z.add 0 (value_bytes <$> l) + stack_bytes st)%Z.
Proof. revert st. induction l as [|v l IH]; intros st; cbn [fold_left]; [done|]. rewrite IH. unfold stack_bytes. cbn. lia. Qed.
Lemma push_fits b l d st : stack_fits b (fold_left (λ st v, (v, d) :: st) l st) ↔ (d + foldr Z.max 0 (value_depth <$> l) - 1 ≤ max_value_depth b ∨ l = [])%Z ∧ stack_fits b st.
Proof.
  assert (∀ v, 1 ≤ value_depth v)%Z as Hpos.
  { intros v. rewrite value_depth_children. pose proof (max_nonneg (value_depth <$> children v)). lia. }
  revert st. induction l as [|v l IH]; intros st; cbn [fold_left]; [by split; [auto|intros []]|]. rewrite IH. cbn [fmap list_fmap foldr]. unfold stack_fits. rewrite Forall_cons. cbn.
  specialize (Hpos v). destruct l as [|w l]; cbn in *; intuition (try lia; try done); left; lia.
Qed.
Lemma node_bytes_nonneg v : (0 ≤ node_bytes v)%Z.
Proof. destruct v; cbn; unfold byte_len; try lia. induction fields as [|f fields IH]; cbn; lia. Qed.
Lemma sum_nonneg (l : list Z) : Forall (λ z, 0 ≤ z)%Z l → (0 ≤ foldr Z.add 0 l)%Z.
Proof. induction 1; cbn; lia. Qed.
Lemma value_bytes_nonneg v : (0 ≤ value_bytes v)%Z.
Proof.
  induction v as [n|s|b|n variant args IH|n fields IH|items IH|x|d] using value_induction; rewrite value_bytes_children;
    (apply Z.add_nonneg_nonneg; [apply node_bytes_nonneg|]); apply sum_nonneg, Forall_fmap; cbn [children]; try constructor; [done| |done].
  by apply Forall_fmap.
Qed.
Lemma stack_bytes_nonneg st : (0 ≤ stack_bytes st)%Z.
Proof. apply sum_nonneg, Forall_fmap, Forall_true. intros [v d]. apply value_bytes_nonneg. Qed.

Lemma walk_spec b fuel : ∀ stack count bytes seen, stack_nodes stack < fuel →
  (seen ≤ max_value_depth b → allocated_nodes b + count ≤ max_nodes b → allocated_bytes b + bytes ≤ max_bytes b →
  (∃ f, iterate (walk_step b) fuel (stack, count, bytes, seen) = Done (Err f) ∧
     ¬ (stack_fits b stack ∧ allocated_nodes b + count + Z.of_nat (stack_nodes stack) ≤ max_nodes b ∧ allocated_bytes b + bytes + stack_bytes stack ≤ max_bytes b)) ∨
  (iterate (walk_step b) fuel (stack, count, bytes, seen) = Done (Ok (count + Z.of_nat (stack_nodes stack), bytes + stack_bytes stack)) ∧
     stack_fits b stack ∧ allocated_nodes b + count + Z.of_nat (stack_nodes stack) ≤ max_nodes b ∧ allocated_bytes b + bytes + stack_bytes stack ≤ max_bytes b))%Z.
Proof.
  induction fuel as [|fuel IH]; intros stack count bytes seen Hf; [lia|]. intros Hs Hn Hy.
  destruct stack as [|[v d] stack]; cbn [iterate walk_step].
  { right. unfold stack_nodes, stack_bytes, stack_fits. cbn. rewrite !Z.add_0_r. split; [done|]. split; [constructor|lia]. }
  assert (stack_nodes ((v, d) :: stack) = S (list_sum (value_nodes <$> children v)) + stack_nodes stack) as En by (unfold stack_nodes; cbn; by rewrite value_nodes_children).
  assert (stack_bytes ((v, d) :: stack) = node_bytes v + foldr Z.add 0 (value_bytes <$> children v) + stack_bytes stack)%Z as Ey by (unfold stack_bytes; cbn; by rewrite value_bytes_children).
  assert (stack_fits b ((v, d) :: stack) ↔ (d + foldr Z.max 0 (value_depth <$> children v) ≤ max_value_depth b)%Z ∧ stack_fits b stack) as Ed.
  { unfold stack_fits. rewrite Forall_cons. cbn [fst snd]. rewrite value_depth_children. f_equiv. lia. }
  assert (0 ≤ foldr Z.max 0 (value_depth <$> children v))%Z as Hd0 by apply max_nonneg.
  assert (0 ≤ foldr Z.add 0 (value_bytes <$> children v))%Z as Hy0 by (rewrite <-(Z.add_0_r (foldr _ _ _)); pose proof (stack_bytes_nonneg (fold_left (λ st v, (v, 0%Z) :: st) (children v) [])) as Hp; by rewrite push_bytes in Hp).
  pose proof (stack_bytes_nonneg stack) as Hy1. setoid_rewrite Ed. rewrite En, Ey. rewrite En in Hf.
  set (seen' := if decide (seen < d)%Z then d else seen). assert (seen ≤ seen' ∧ d ≤ seen' ∧ (seen' = d ∨ seen' = seen))%Z as (S1 & S2 & S3) by (unfold seen'; case_decide; lia).
  destruct (decide (max_value_depth b < seen')%Z); [left; eexists; split; [done|]; intros ((? & _) & ? & ?); lia|].
  destruct (decide (max_nodes b < allocated_nodes b + (count + 1))%Z); [left; eexists; split; [done|]; intros ((? & _) & ? & ?); lia|].
  destruct (decide (max_bytes b < allocated_bytes b + (bytes + node_bytes v))%Z); [left; eexists; split; [done|]; intros ((? & _) & ? & ?); lia|].
  destruct (IH (fold_left (λ st v, (v, d + 1)%Z :: st) (children v) stack) (count + 1)%Z (bytes + node_bytes v)%Z seen') as [(f & -> & Hno)|(-> & Hfit & Hn' & Hy')];
    rewrite ?push_nodes, ?push_bytes, ?push_fits in *; [lia|lia|lia|lia| |].
  - left. exists f. split; [done|]. intros ((H1 & H2) & H3 & H4). apply Hno. split; [split; [left; lia|done]|]. lia.
  - right. destruct Hfit as [Hd Hfit]. split; [do 3 f_equal; lia|]. split; [split; [destruct Hd as [Hd|Hd]; [lia|rewrite Hd; cbn; lia]|done]|]. lia.
Qed.

(** The budget afterwards is the one before plus the value's nodes and bytes, or the value does
    not fit. *)
Definition value_fits (b : EvalBudget) (v : L3ValueV2) (d : Z) : Prop :=
  (d + value_depth v - 1 ≤ max_value_depth b ∧ allocated_nodes b + Z.of_nat (value_nodes v) ≤ max_nodes b ∧
   allocated_bytes b + value_bytes v ≤ max_bytes b)%Z.
Lemma charge_value_spec v d b : (1 ≤ max_value_depth b → allocated_nodes b ≤ max_nodes b → allocated_bytes b ≤ max_bytes b →
  (value_fits b v d ∧ charge_value v d (Some b) = Done (Ok (), Some (set_allocated b (allocated_nodes b + Z.of_nat (value_nodes v)) (allocated_bytes b + value_bytes v)))) ∨
  (¬ value_fits b v d ∧ ∃ f, charge_value v d (Some b) = Done (Err f, Some b)))%Z.
Proof.
  intros H1 H2 H3. unfold charge_value, value_fits. destruct (walk_spec b (S (value_nodes v)) [(v, d)] 0 0 1) as [(f & -> & Hno)|(-> & Hfit & Hn & Hy)];
    unfold stack_nodes, stack_bytes, stack_fits in *; cbn [fmap list_fmap list_sum foldr fst snd] in *; rewrite ?Nat.add_0_r, ?Z.add_0_r, ?Z.add_0_l, ?Forall_singleton in *; cbn [fst snd] in *; [lia|lia|lia|lia| |].
  - right. split; [|by exists f]. intros (? & ? & ?). by apply Hno.
  - by left.
Qed.

(** * Every budgeted evaluation returns, within its limits *)

Definition same_limits (b b' : EvalBudget) : Prop :=
  max_steps b' = max_steps b ∧ max_recursion_depth b' = max_recursion_depth b ∧ max_call_depth b' = max_call_depth b ∧
  max_nodes b' = max_nodes b ∧ max_bytes b' = max_bytes b ∧ max_value_depth b' = max_value_depth b.
Definition within (b : EvalBudget) : Prop :=
  (steps b ≤ max_steps b ∧ recursion_depth b ≤ max_recursion_depth b ∧ call_depth b ≤ max_call_depth b ∧
   allocated_nodes b ≤ max_nodes b ∧ allocated_bytes b ≤ max_bytes b ∧ 1 ≤ max_value_depth b)%Z.
(** What a budget looks like after a fault: the step that was refused is counted. *)
Definition spent (b : EvalBudget) : Prop :=
  (steps b ≤ max_steps b + 1 ∧ allocated_nodes b ≤ max_nodes b ∧ allocated_bytes b ≤ max_bytes b)%Z.

Definition ran {A} (Q : A → Prop) (b : EvalBudget) (o : outcome (result EvalFault A * option EvalBudget)) : Prop :=
  ∃ r b', o = Done (r, Some b') ∧ same_limits b b' ∧ (steps b ≤ steps b')%Z ∧
    match r with
    | Ok a => Q a ∧ within b' ∧ recursion_depth b' = recursion_depth b ∧ call_depth b' = call_depth b
    | Err _ => spent b'
    end.
(** The recursion may go [M - d] deeper. *)
Definition R_run (M d : Z) : relation := λ A Q m _, ∀ b,
  max_recursion_depth b = M → recursion_depth b = d → within b → ran Q b (m (Some b)).

Lemma within_spent b : within b → spent b.
Proof. unfold within, spent. lia. Qed.
Lemma same_limits_trans b1 b2 b3 : same_limits b1 b2 → same_limits b2 b3 → same_limits b1 b3.
Proof. unfold same_limits. intros (?&?&?&?&?&?) (?&?&?&?&?&?). split_and!; congruence. Qed.

Lemma ran_bind {A B} (Q : A → Prop) (Q' : B → Prop) b (m : Eval A) (f : A → Eval B) :
  ran Q b (m (Some b)) →
  (∀ a b', Q a → same_limits b b' → within b' → recursion_depth b' = recursion_depth b → call_depth b' = call_depth b → ran Q' b' (f a (Some b'))) →
  ran Q' b ((m ≫= f) (Some b)).
Proof.
  intros (r & b' & E & Hl & Hs & Hr) Hf. unfold mbind, Eval_bind. rewrite E. destruct r as [a|e]; [|by exists (Err e), b'].
  destruct Hr as (Ha & Hw & Hd & Hc). destruct (Hf a b' Ha Hl Hw Hd Hc) as (r & b2 & E2 & Hl2 & Hs2 & Hr). exists r, b2. split; [done|].
  split; [by eapply same_limits_trans|]. split; [lia|]. destruct r as [c|e]; [|done]. destruct Hr as (?&?&?&?). split_and!; congruence.
Qed.

Lemma ran_here {A} (Q : A → Prop) b r : within b → match r with Ok a => Q a | Err _ => True end → ran Q b (Done (r, Some b)).
Proof. intros Hw Hr. exists r, b. split; [done|]. split; [by split_and!|]. split; [lia|]. destruct r; [done|by apply within_spent]. Qed.

(** A charge that moves the counters of work and allocation only. *)
Definition counts (b b' : EvalBudget) : Prop := same_limits b b' ∧ (steps b ≤ steps b')%Z ∧ recursion_depth b' = recursion_depth b ∧ call_depth b' = call_depth b.
Lemma ran_charge b (op : Charge) r b' : op b = (r, b') → counts b b' → spent b' → (r = Ok () → (steps b' ≤ max_steps b')%Z) → within b →
  ran (λ _, True) b (charge op (Some b)).
Proof.
  intros E (Hl & Hs & Hd & Hc) Hsp Hok Hw. unfold charge. rewrite E. exists r, b'. split; [done|]. split; [done|]. split; [done|]. destruct r as [[]|]; [|done].
  specialize (Hok eq_refl). unfold spent, within, same_limits in *. split_and!; try done; lia.
Qed.

Lemma flush_counts b : ∃ r u w, flush_run_work b = (r, set_work b (steps b) u w).
Proof. unfold flush_run_work. destruct (run_work b); [case_decide|]; repeat eexists. Qed.

Lemma tick_spec b : within b → ∃ r s u w, tick_step b = (r, set_work b s u w) ∧ s = (steps b + 1)%Z ∧ (r = Ok () → s ≤ max_steps b)%Z.
Proof.
  intros Hw. unfold tick_step. cbn. case_decide as H1; cbn; [by repeat eexists|]. case_decide as H2; cbn; [|repeat eexists; lia].
  match goal with |- context [flush_run_work ?x] => destruct (flush_counts x) as (r & u & w & ->) end. cbn. repeat eexists. lia.
Qed.

Lemma run_tick b : within b → ran (λ _, True) b (charge tick_step (Some b)).
Proof.
  intros Hw. destruct (tick_spec b Hw) as (r & s & u & w & E & -> & Hr). eapply ran_charge; [exact E| | |done|done]; unfold counts, same_limits, spent, within in *; cbn; split_and?; try done; lia.
Qed.

Lemma run_allocation n y b : within b → ran (λ _, True) b (charge (charge_allocation n y) (Some b)).
Proof.
  intros Hw. destruct (charge_allocation n y b) as [r b'] eqn:E. pose proof E as E'. unfold charge_allocation, saturating_sub in E'. unfold within in Hw.
  eapply ran_charge; [exact E|..]; clear E; unfold counts, same_limits, spent, within; repeat case_decide; simplify_eq/=; split_and?; try done; lia.
Qed.

Lemma run_enter_call func b : within b →
  ∃ r b', charge (enter_call func) (Some b) = Done (r, Some b') ∧ same_limits b b' ∧ steps b' = steps b ∧
  match r with Ok _ => within b' ∧ recursion_depth b' = recursion_depth b ∧ call_depth b' = (call_depth b + 1)%Z | Err _ => spent b' end.
Proof.
  intros Hw. unfold charge, enter_call. case_decide; repeat eexists; try done; try apply Hw; try (unfold within in Hw; cbn; lia). 
Qed.

#[local] Instance R_run_closed M d : Closed True (R_run M d).
Proof.
  split.
  - intros A Q a Ha b _ _ Hw. by apply ran_here.
  - intros A Q e _ b _ _ Hw. by apply ran_here.
  - intros A B Q Q' m m' f f' Hm Hf b HM Hd Hw. eapply ran_bind; [by apply Hm|]. intros a b' Ha (?&?&?) Hw' Hd' _. apply (Hf a Ha); [congruence..|done].
  - intros A Q Q' m m' Hm Hq b HM Hd Hw. destruct (Hm b HM Hd Hw) as (r & b' & E & Hl & Hs & Hr). exists r, b'. do 3 (split; [done|]). destruct r; [|done]. destruct Hr. auto.
  - intros b _ _. apply run_tick.
  - intros n y b _ _. apply run_allocation.
  - intros v k b _ _ Hw. pose proof Hw as (_&_&_&?&?&?). destruct (charge_value_spec v k b) as [[(_&?&?) ->]|[_ [f ->]]]; [done..| |by apply ran_here].
    eexists _, _. split; [done|]. unfold same_limits, within in *. cbn. split_and!; try done; lia.
  - intros A B Q Q' func n y m m' f Hm Hf b HM Hd Hw. unfold mbind, Eval_bind. destruct (run_enter_call func b Hw) as (r & b1 & -> & Hl1 & Hs1 & Hr1).
    destruct r as [[]|e]; [|exists (Err e), b1; split_and!; try apply Hl1; try done; lia]. destruct Hr1 as (Hw1 & Hd1 & Hc1).
    destruct (run_allocation n y b1 Hw1) as (r & b2 & -> & Hl2 & Hs2 & Hr2). pose proof (same_limits_trans _ _ _ Hl1 Hl2) as Hl12.
    destruct r as [[]|e]; [|exists (Err e), b2; split_and!; try apply Hl12; try done; lia]. destruct Hr2 as (_ & Hw2 & Hd2 & Hc2).
    destruct (Hm b2) as (r & b3 & E3 & Hl3 & Hs3 & Hr3); [destruct Hl12 as (?&?&?); congruence|congruence|done|]. unfold leaving_call. rewrite E3.
    pose proof (same_limits_trans _ _ _ Hl12 Hl3) as Hl13. set (b4 := set_depths b3 (recursion_depth b3) (call_depth b3 - 1)).
    assert (same_limits b b4) as Hl14 by apply Hl13.
    destruct r as [a|e]; [|exists (Err e), b4; split_and!; try apply Hl14; try apply Hr3; cbn; lia || done]. destruct Hr3 as (Ha & Hw3 & Hd3 & Hc3).
    destruct (Hf a Ha b4) as (r & b5 & E5 & Hl5 & Hs5 & Hr5); [destruct Hl13 as (?&?&?); cbn; congruence|cbn; congruence|unfold within in *; cbn in *; lia|].
    exists r, b5. split; [done|]. split; [by eapply same_limits_trans|]. cbn in *. split; [lia|]. destruct r; [|done]. destruct Hr5 as (?&?&?&?). split_and!; try done; lia.
Qed.

Lemma run_enter cf b : within b →
  ∃ r b', charge (enter cf) (Some b) = Done (r, Some b') ∧ same_limits b b' ∧ (steps b ≤ steps b')%Z ∧
  match r with Ok _ => within b' ∧ recursion_depth b' = (recursion_depth b + 1)%Z ∧ call_depth b' = call_depth b | Err _ => spent b' end.
Proof.
  intros Hw. unfold charge, enter. destruct (tick_spec b Hw) as (r & s & u & w & -> & -> & Hr). unfold within in Hw. destruct r as [[]|e].
  - specialize (Hr eq_refl). case_decide; cbn in *; repeat eexists; cbn; lia || done.
  - repeat eexists; cbn; lia || done.
Qed.

Lemma foldr_max_elem x l : x ∈ l → x ≤ foldr Nat.max 0 l.
Proof. induction 1; cbn; lia. Qed.
Lemma height_subexprs e e' : e' ∈ subexprs e → height e' < height e.
Proof.
  assert (∀ l, e' ∈ l → height e' ≤ foldr Nat.max 0 (List.map height l)) as Hl by (intros l Hin; by apply foldr_max_elem, (list_elem_of_fmap_2 height)).
  assert (∀ A (l : list (A * L3ExprV2)), e' ∈ l.*2 → height e' ≤ foldr Nat.max 0 (List.map (λ f, height f.2) l)) as Hp.
  { intros A l Hin. specialize (Hl _ Hin). change (List.map (λ f, height f.2) l) with ((height ∘ snd) <$> l). by rewrite list_fmap_compose. }
  intros He. destruct e; cbn [subexprs height] in *; rewrite ?elem_of_app, ?elem_of_cons, ?elem_of_nil in He; try done; try (apply Hl in He; lia); try (apply Hp in He; lia).
  all: try (repeat destruct He as [He|He]; subst; lia || done).
  - destruct He as [He|He]; [subst; lia|]. apply Hp in He. lia.
  - destruct He as [He|[He|[He|He]]]; [apply Hp in He; lia| |subst; lia|done]. destruct where_clause; cbn in He; [|by apply elem_of_nil in He]. apply list_elem_of_singleton in He; subst; lia.
Qed.

(** With more fuel than the recursion has levels left, or than the expression is high where there are
    no helpers, an evaluation returns. *)
Definition fuel_suffices (fuel : nat) (M d : Z) (e : L3ExprV2) (env : EvalEnv) : Prop :=
  (M - d < Z.of_nat fuel)%Z ∨ functions env = ∅ ∧ height e ≤ fuel.
Lemma run_internal fuel : ∀ M d e env cf, (0 ≤ d)%Z → fuel_suffices fuel M d e env → R_run M d _ (λ _, True) (eval_internal fuel e env cf) (eval_internal fuel e env cf).
Proof.
  induction fuel as [|fuel IH]; intros M d e env cf Hd0 Hf b HM Hd Hw; [unfold within in Hw; destruct Hf as [?|[_ ?]]; [lia|destruct e; cbn in *; lia]|]. rewrite eval_internal_S. unfold mbind, Eval_bind.
  destruct (run_enter cf b Hw) as (r & b1 & -> & Hl1 & Hs1 & Hr1). destruct r as [[]|e1]; [|by exists (Err e1), b1]. destruct Hr1 as (Hw1 & Hd1 & Hc1).
  assert (R_run M (d + 1) _ (vok False) (eval_internal_body (eval_internal fuel) e env cf) (eval_internal_body (eval_internal fuel) e env cf)) as Hb.
  { apply (closed_body True (R_run M (d + 1)) False); [| |by left|apply env_vok_false|done].
    - intros bs e' env' cf' He'%subterms_subexprs%height_subexprs (_&_&_&Hs&_) _. eapply closed_weaken; [apply IH; [lia|]|by intros ? _ []].
      destruct Hf as [?|[??]]; [left; lia|right; split; [congruence|lia]].
    - intros func def vals cf' Hfn _ _. eapply closed_weaken; [apply IH; [lia|]|by intros ? _ []]. destruct Hf as [?|[He _]]; [left; lia|by rewrite He in Hfn]. }
  destruct (Hb b1) as (r & b2 & E2 & Hl2 & Hs2 & Hr2); [destruct Hl1 as (?&?&?); congruence|congruence|done|]. unfold leaving. rewrite E2.
  exists r, (set_depths b2 (saturating_sub (recursion_depth b2) 1) (call_depth b2)). split; [done|]. split; [by eapply same_limits_trans|]. cbn. split; [lia|].
  destruct r; [|done]. destruct Hr2 as (_ & Hw2 & Hd2 & Hc2). unfold within, saturating_sub in *. cbn. split_and!; try done; lia.
Qed.

(** * Evaluation without a budget *)

Definition R_none : relation := λ A Q m _, ∃ r, m None = Done (r, None) ∧ match r with Ok a => Q a | Err _ => True end.

#[local] Instance R_none_closed : Closed True R_none.
Proof.
  split.
  - intros A Q a Ha. by exists (Ok a).
  - intros A Q e. by exists (Err e).
  - intros A B Q Q' m m' f f' [r [E Hr]] Hf. unfold R_none, mbind, Eval_bind. rewrite E. destruct r as [a|e]; [by apply Hf|by exists (Err e)].
  - intros A Q Q' m m' [r [E Hr]] Hq. exists r. split; [done|]. destruct r; auto.
  - by exists (Ok ()).
  - by exists (Ok ()).
  - by exists (Ok ()).
  - intros A B Q Q' func n y m m' f [r [E Hr]] Hf. unfold R_none, mbind, Eval_bind, leaving_call. cbn. rewrite E. destruct r as [a|e]; [by apply Hf|by exists (Err e)].
Qed.

Lemma none_internal fuel : ∀ e env cf, functions env = ∅ → height e ≤ fuel → R_none _ (λ _, True) (eval_internal fuel e env cf) (eval_internal fuel e env cf).
Proof.
  induction fuel as [|fuel IH]; intros e env cf Hf Hh; [destruct e; cbn in Hh; lia|]. rewrite eval_internal_S. unfold R_none, mbind, Eval_bind, charge, leaving.
  assert (R_none _ (vok False) (eval_internal_body (eval_internal fuel) e env cf) (eval_internal_body (eval_internal fuel) e env cf)) as (r & -> & _).
  { apply (closed_body True R_none False); [| |by left|apply env_vok_false|done].
    - intros bs e' env' cf' He'%subterms_subexprs (_&_&_&Hs&_) _. eapply closed_weaken; [apply IH; [congruence|apply height_subexprs in He'; lia]|by intros ? _ []].
    - intros func def vals cf' Hfn. by rewrite Hf in Hfn. }
  exists r. split; [done|]. by destruct r.
Qed.

(** * Values *)

(** Whatever is returned satisfies the postcondition. *)
Definition R_value : relation := λ A Q m _, ∀ b, match m b with Done (Ok a, _) => Q a | _ => True end.
#[local] Instance R_value_closed : Closed True R_value.
Proof.
  assert (∀ A B (Q : A → Prop) (Q' : B → Prop) m m' f f', R_value A Q m m' → (∀ a, Q a → R_value B Q' (f a) (f' a)) → R_value B Q' (m ≫= f) (m' ≫= f')) as Hbind.
  { intros A B Q Q' m m' f f' Hm Hf b. specialize (Hm b). unfold mbind, Eval_bind. destruct (m b) as [[[a|e] b']| |]; [by apply Hf|done..]. }
  split; [by intros A Q a Ha b|by intros A Q e b|exact Hbind| |by intros b; repeat case_match|by intros n y b; repeat case_match|by intros v d b; repeat case_match|].
  - intros A Q Q' m m' Hm Hq b. specialize (Hm b). destruct (m b) as [[[a|e] b']| |]; auto.
  - intros A B Q Q' func n y m m' f Hm Hf. eapply (Hbind _ _ (λ _, True)); [intros b; by repeat case_match|]. intros _ _.
    eapply (Hbind _ _ (λ _, True)); [intros b; by repeat case_match|]. intros _ _. eapply (Hbind _ _ Q _ _ m'); [|exact Hf].
    intros b. specialize (Hm b). unfold leaving_call. destruct (m b) as [[[a|e] [b'|]]| |]; done.
Qed.

Inductive expr_ok : L3ExprV2 → Prop :=
  expr_ok_intro e : match e with EInt n => i64_ok n | _ => True end → Forall expr_ok (subexprs e) → expr_ok e.
Lemma expr_ok_inv e : expr_ok e → match e with EInt n => i64_ok n | _ => True end ∧ Forall expr_ok (subexprs e).
Proof. by inversion 1. Qed.
(** The helpers' bodies are well formed, and so are the values in scope. *)
Definition functions_ok (env : EvalEnv) : Prop := ∀ func def, functions env !! func = Some def → expr_ok (f_body def).
Definition env_ok (env : EvalEnv) : Prop := env_vok True env ∧ functions_ok env.

Lemma zip_locals_ok ks vals m : map_vok True m → voks True vals → map_vok True (fold_left (λ m p, <[p.1 := p.2]> m) (zip ks vals) m).
Proof.
  revert vals m. induction ks as [|k ks IH]; intros [|v vals] m Hm Hv; try done. apply Forall_cons in Hv as [Hv Hvs]. cbn. apply IH; [|done].
  intros k' w. rewrite lookup_insert_Some. intros [[_ <-]|[_ Hk]]; [done|by eapply Hm].
Qed.

Lemma value_internal fuel : ∀ e env cf, expr_ok e → env_ok env → R_value _ (vok True) (eval_internal fuel e env cf) (eval_internal fuel e env cf).
Proof.
  induction fuel as [|fuel IH]; intros e env cf He [Henv Hfn] b; [done|]. rewrite eval_internal_S. unfold mbind, Eval_bind.
  destruct (charge (enter cf) b) as [[[[]|f] b1]| |]; try done.
  assert (R_value _ (vok True) (eval_internal_body (eval_internal fuel) e env cf) (eval_internal_body (eval_internal fuel) e env cf)) as Hb.
  { apply expr_ok_inv in He as [Hlit Hsub]. rewrite Forall_forall in Hsub. apply (closed_body True R_value True); [| |by left|done|by intros _].
    - intros bs e' env' cf' He'%subterms_subexprs Hs _. apply IH; [by apply Hsub|]. split; [by eapply scope_vok|]. destruct Hs as (_&_&_&Hs&_). intros func def. rewrite Hs. apply Hfn.
    - intros func def vals cf' Hdef Hv _. apply IH; [by eapply Hfn|]. split; [|exact Hfn]. destruct Henv as (_&_&_&_&Hr).
      split_and!; try (intros k v; cbn; by rewrite lookup_empty); [|done]. by apply zip_locals_ok. }
  specialize (Hb b1). unfold leaving. destruct (eval_internal_body _ e env cf b1) as [[[a|f] [b'|]]| |]; done.
Qed.

(** * The step limit *)

Definition raise (s : Z) (b : EvalBudget) : EvalBudget :=
  mkBudget (steps b) s (recursion_depth b) (max_recursion_depth b) (call_depth b) (max_call_depth b) (allocated_nodes b) (max_nodes b)
    (allocated_bytes b) (max_bytes b) (max_value_depth b) (run_work b) (unflushed_steps b).

(** A computation that succeeds does the same under every limit that allows its steps. *)
Definition R_steps : relation := λ A Q m m', ∀ b s,
  match m (Some b) with
  | Done (Ok a, Some c) => Q a ∧ (steps b ≤ steps c)%Z ∧ ((steps c ≤ s)%Z → m' (Some (raise s b)) = Done (Ok a, Some (raise s c)))
  | Done (Ok _, None) => False
  | _ => True
  end.

Lemma flush_raise s b : flush_run_work (raise s b) = let '(r, b') := flush_run_work b in (r, raise s b').
Proof. unfold flush_run_work. cbn. destruct (run_work b); [|done]. by case_decide. Qed.
Lemma tick_steps b c : tick_step b = (Ok (), c) → steps c = (steps b + 1)%Z.
Proof. unfold tick_step, flush_run_work. intros H. repeat case_match; simplify_eq/=; done. Qed.
Lemma tick_raise s b c : tick_step b = (Ok (), c) → (steps c ≤ s)%Z → tick_step (raise s b) = (Ok (), raise s c).
Proof.
  intros H Hs. pose proof (tick_steps _ _ H) as E. unfold tick_step in *. cbn in *. rewrite decide_False by lia. case_decide; [done|]. case_decide; [|by injection H as <-].
  match type of H with flush_run_work ?x = _ => change (flush_run_work (raise s x) = (Ok (), raise s c)) end. by rewrite flush_raise, H.
Qed.

Lemma R_steps_charge (op : Charge) :
  (∀ b c, op b = (Ok (), c) → (steps b ≤ steps c)%Z ∧ ∀ s, (steps c ≤ s)%Z → op (raise s b) = (Ok (), raise s c)) → R_steps unit (λ _, True) (charge op) (charge op).
Proof. intros Hop b s. unfold charge. destruct (op b) as [[[]|f] c] eqn:E; [|done]. destruct (Hop b c E) as [Hc Hr]. split; [done|]. split; [done|]. intros Hs. by rewrite (Hr s Hs). Qed.
Lemma allocation_steps n y b c : charge_allocation n y b = (Ok (), c) → (steps b ≤ steps c)%Z ∧ ∀ s, (steps c ≤ s)%Z → charge_allocation n y (raise s b) = (Ok (), raise s c).
Proof. unfold charge_allocation. cbn. intros H. repeat case_decide; simplify_eq/=. done. Qed.
Lemma enter_call_steps func b c : enter_call func b = (Ok (), c) → (steps b ≤ steps c)%Z ∧ ∀ s, (steps c ≤ s)%Z → enter_call func (raise s b) = (Ok (), raise s c).
Proof. unfold enter_call. cbn. intros H. repeat case_decide; simplify_eq/=. done. Qed.
Lemma enter_steps cf b c : enter cf b = (Ok (), c) → (steps b ≤ steps c)%Z ∧ ∀ s, (steps c ≤ s)%Z → enter cf (raise s b) = (Ok (), raise s c).
Proof.
  unfold enter. destruct (tick_step b) as [[[]|f] b1] eqn:E; [|done]. pose proof (tick_steps _ _ E). case_decide as Hd; [done|]. intros [= <-]. cbn. split; [lia|].
  intros s Hs. rewrite (tick_raise s _ _ E Hs). cbn. by rewrite decide_False.
Qed.
Lemma tick_charge_steps b c : tick_step b = (Ok (), c) → (steps b ≤ steps c)%Z ∧ ∀ s, (steps c ≤ s)%Z → tick_step (raise s b) = (Ok (), raise s c).
Proof. intros E. split; [rewrite (tick_steps _ _ E); lia|]. intros s. by apply tick_raise. Qed.

Lemma R_steps_bind {A B} (Q : A → Prop) (Q' : B → Prop) m m' f f' :
  R_steps A Q m m' → (∀ a, Q a → R_steps B Q' (f a) (f' a)) → R_steps B Q' (m ≫= f) (m' ≫= f').
Proof.
  intros Hm Hf b s. specialize (Hm b s). unfold mbind, Eval_bind. destruct (m (Some b)) as [[[a|e] [c|]]| |]; try done. destruct Hm as (Ha & H1 & H2).
  specialize (Hf a Ha c s). destruct (f a (Some c)) as [[[x|e] [c'|]]| |]; try done. destruct Hf as (Hx & H3 & H4). split; [done|]. split; [lia|]. intros Hs. rewrite H2 by lia. auto.
Qed.

#[local] Instance R_steps_closed : Closed True R_steps.
Proof.
  split; [by intros A Q a Ha b s|by intros A Q e b s|intros A B Q Q' m m' f f'; apply R_steps_bind| |apply R_steps_charge, tick_charge_steps| | |].
  - intros A Q Q' m m' Hm Hq b s. specialize (Hm b s). destruct (m (Some b)) as [[[a|e] [c|]]| |]; try done. destruct Hm as (?&?&?). auto.
  - intros n y. apply R_steps_charge, allocation_steps.
  - intros v d b s. unfold charge_value. change (walk_step (raise s b)) with (walk_step b). by destruct (iterate _ _ _) as [[[count bytes]|f]| |].
  - intros A B Q Q' func n y m m' f Hm Hf. eapply (R_steps_bind (λ _, True)); [apply R_steps_charge, enter_call_steps|]. intros _ _.
    eapply (R_steps_bind (λ _, True)); [apply R_steps_charge, allocation_steps|]. intros _ _. eapply (R_steps_bind Q); [|exact Hf].
    intros b s. specialize (Hm b s). unfold leaving_call. destruct (m (Some b)) as [[[a|e] [c|]]| |]; try done. destruct Hm as (?&?&Hr).
    split; [done|]. split; [done|]. intros Hs. by rewrite (Hr Hs).
Qed.

Lemma steps_internal fuel e env cf : R_steps _ (λ _, True) (eval_internal fuel e env cf) (eval_internal fuel e env cf).
Proof.
  revert e env cf. induction fuel as [|fuel IH]; intros e env cf; [done|]. rewrite !eval_internal_S.
  eapply (R_steps_bind (λ _, True)); [apply R_steps_charge, enter_steps|]. intros _ _ b s.
  assert (R_steps _ (vok False) (eval_internal_body (eval_internal fuel) e env cf) (eval_internal_body (eval_internal fuel) e env cf)) as Hb.
  { apply (closed_body True R_steps False); [intros; eapply closed_weaken; [apply IH|by intros ? _ []]..|by left|apply env_vok_false|done]. }
  specialize (Hb b s). unfold leaving. destruct (eval_internal_body _ e env cf (Some b)) as [[[a|f] [c|]]| |]; try done. destruct Hb as (_ & H1 & H2).
  split; [done|]. split; [done|]. intros Hs. by rewrite (H2 Hs).
Qed.

(** A lower limit does not make the recursion deeper: where it ends for want of stack, so does a
    higher one. *)
Definition R_lower : relation := λ A Q m m', ∀ b s, (max_steps b ≤ s)%Z →
  match m (Some b) with
  | Done (Ok a, Some c) => Q a ∧ max_steps c = max_steps b ∧ m' (Some (raise s b)) = Done (Ok a, Some (raise s c))
  | Done (Ok _, None) => False
  | OutOfFuel => m' (Some (raise s b)) = OutOfFuel
  | _ => True
  end.

Lemma R_lower_charge (op : Charge) :
  (∀ b c s, op b = (Ok (), c) → (max_steps b ≤ s)%Z → max_steps c = max_steps b ∧ op (raise s b) = (Ok (), raise s c)) → R_lower unit (λ _, True) (charge op) (charge op).
Proof. intros Hop b s Hs. unfold charge. destruct (op b) as [[[]|f] c] eqn:E; [|done]. destruct (Hop b c s E Hs) as [Hc ->]. done. Qed.
Lemma tick_lower b c s : tick_step b = (Ok (), c) → (max_steps b ≤ s)%Z → max_steps c = max_steps b ∧ tick_step (raise s b) = (Ok (), raise s c).
Proof.
  intros H Hs. assert (max_steps c = max_steps b ∧ (steps c ≤ max_steps b)%Z) as [Hm Hc].
  { unfold tick_step, flush_run_work in H. cbn in H. repeat (case_decide || case_match); simplify_eq/=; lia. }
  split; [done|]. apply tick_raise; [done|lia].
Qed.
Lemma R_lower_bind {A B} (Q : A → Prop) (Q' : B → Prop) m m' f f' :
  R_lower A Q m m' → (∀ a, Q a → R_lower B Q' (f a) (f' a)) → R_lower B Q' (m ≫= f) (m' ≫= f').
Proof.
  intros Hm Hf b s Hs. specialize (Hm b s Hs). unfold mbind, Eval_bind. destruct (m (Some b)) as [[[a|e] [c|]]| |]; try done; [|by rewrite Hm].
  destruct Hm as (Ha & H1 & ->). specialize (Hf a Ha c s ltac:(lia)). destruct (f a (Some c)) as [[[x|e] [c'|]]| |]; try done.
  destruct Hf as (Hx & H2 & H3). split; [done|]. split; [lia|done].
Qed.

#[local] Instance R_lower_closed : Closed True R_lower.
Proof.
  split; [by intros A Q a Ha b s|by intros A Q e b s|intros A B Q Q' m m' f f'; apply R_lower_bind| |apply R_lower_charge, tick_lower| | |].
  - intros A Q Q' m m' Hm Hq b s Hs. specialize (Hm b s Hs). destruct (m (Some b)) as [[[a|e] [c|]]| |]; try done. destruct Hm as (?&?&?). auto.
  - intros n y. apply R_lower_charge. unfold charge_allocation. cbn. intros b c s H _. repeat case_decide; by simplify_eq/=.
  - intros v d b s Hs. unfold charge_value. change (walk_step (raise s b)) with (walk_step b). by destruct (iterate _ _ _) as [[[count bytes]|f]| |].
  - intros A B Q Q' func n y m m' f Hm Hf. eapply (R_lower_bind (λ _, True)).
    { apply R_lower_charge. unfold enter_call. cbn. intros b c s H _. repeat case_decide; by simplify_eq/=. }
    intros _ _. eapply (R_lower_bind (λ _, True)); [apply R_lower_charge; unfold charge_allocation; cbn; intros b c s H _; repeat case_decide; by simplify_eq/=|]. intros _ _.
    eapply (R_lower_bind Q); [|exact Hf]. intros b s Hs. specialize (Hm b s Hs). unfold leaving_call. destruct (m (Some b)) as [[[a|e] [c|]]| |]; try done; [|by rewrite Hm].
    by destruct Hm as (?&?&->).
Qed.

Lemma lower_internal fuel e env cf : R_lower _ (λ _, True) (eval_internal fuel e env cf) (eval_internal fuel e env cf).
Proof.
  revert e env cf. induction fuel as [|fuel IH]; intros e env cf; [done|]. rewrite !eval_internal_S.
  eapply (R_lower_bind (λ _, True)).
  { apply R_lower_charge. unfold enter. intros b c s H Hs. destruct (tick_step b) as [[[]|f] b1] eqn:E; [|done]. destruct (tick_lower _ _ s E Hs) as [Hm ->]. cbn. case_decide; [done|]. by injection H as <-. }
  intros _ _ b s Hs.
  assert (R_lower _ (vok False) (eval_internal_body (eval_internal fuel) e env cf) (eval_internal_body (eval_internal fuel) e env cf)) as Hb.
  { apply (closed_body True R_lower False); [intros; eapply closed_weaken; [apply IH|by intros ? _ []]..|by left|apply env_vok_false|done]. }
  specialize (Hb b s Hs). unfold leaving. destruct (eval_internal_body _ e env cf (Some b)) as [[[a|f] [c|]]| |]; try done; [|by rewrite Hb]. by destruct Hb as (_ & ? & ->).
Qed.

(** * The entry points *)

(** The budget an evaluation starts with. *)
Definition start (max : Z) (counter : option Z) : EvalBudget :=
  mkBudget 0 max 0 MAX_EVAL_RECURSION_DEPTH 0 MAX_CALL_DEPTH 0 MAX_EVAL_VALUE_NODES 0 MAX_EVAL_VALUE_BYTES MAX_VALUE_DEPTH counter 0.
Lemma eval_fuel_enough : (MAX_EVAL_RECURSION_DEPTH - 0 < Z.of_nat eval_fuel)%Z.
Proof. unfold eval_fuel. rewrite Nat2Z.inj_succ, Z2Nat.id by done. lia. Qed.
#[local] Opaque eval_fuel.

Definition enough (fuel : nat) (e : L3ExprV2) (env : EvalEnv) : Prop := fuel = eval_fuel ∨ functions env = ∅ ∧ height e ≤ fuel.
Lemma start_ran fuel e env max counter : (0 ≤ max)%Z → enough fuel e env →
  ran (λ _, True) (start max counter) (eval_internal fuel e env None (Some (start max counter))).
Proof. intros Hm Hf. eapply (run_internal fuel MAX_EVAL_RECURSION_DEPTH 0); [done| |done..]. destruct Hf as [->|?]; [left; apply eval_fuel_enough|by right]. Qed.

(** A budgeted evaluation returns, and spends what its limit allows. *)
Lemma budgeted_returns fuel e env max counter : (0 ≤ max)%Z → enough fuel e env →
  ∃ r counter', budgeted fuel e env max counter = Done (r, counter') ∧ ∀ v n, r = Ok (v, n) → (0 ≤ n ≤ max)%Z.
Proof.
  intros Hm Hf. unfold budgeted. fold (start max counter). destruct (start_ran fuel e env max counter Hm Hf) as (r & b & -> & Hl & Hs & Hr). destruct r as [v|f]; [|by repeat eexists].
  destruct (flush_run_work b) as [[[]|f] b'] eqn:E; [|by repeat eexists]. eexists _, _. split; [done|]. intros v' n [= <- <-].
  destruct Hr as (_ & (Hw & _) & _). destruct Hl as (Hl & _). cbn in *. lia.
Qed.

(** Less stack may end an evaluation, and changes nothing else. *)
Lemma budgeted_fits fuel e env max counter : fuel ≤ eval_fuel → budgeted fuel e env max counter = OutOfFuel ∨ budgeted fuel e env max counter = budgeted eval_fuel e env max counter.
Proof.
  intros Hf. unfold budgeted. fold (start max counter). destruct (eval_internal fuel e env None (Some (start max counter))) as [[r b]| |] eqn:E; [right|right|by left].
  all: by rewrite (eval_internal_mono fuel eval_fuel), E by (done || by rewrite E).
Qed.

(** Its result is the unbudgeted one, or a refusal. *)
Definition refused {A} (r : result EvalFault A) : Prop := ∃ f, r = Err f ∧ budget_fault f.
Definition pure_value (e : L3ExprV2) (env : EvalEnv) (r : result EvalFault L3ValueV2) : Prop := eval_internal eval_fuel e env None None = Done (r, None).
Lemma budgeted_value e env max counter r counter' : (0 ≤ max)%Z → budgeted eval_fuel e env max counter = Done (r, counter') → refused r ∨ pure_value e env (p ← r; Ok p.1).
Proof.
  intros Hm. unfold budgeted. fold (start max counter). destruct (start_ran eval_fuel e env max counter Hm ltac:(by left)) as (r' & b & E & _). rewrite E.
  pose proof (budget_only_refuses eval_fuel e env None (start max counter)) as Hb. rewrite E in Hb. destruct r' as [v|f].
  - destruct Hb as [Hv _]. destruct (flush_run_work b) as [[[]|f] b'] eqn:Ef; intros [= <- <-]; [by right|]. left. exists f. split; [done|].
    unfold flush_run_work in Ef. repeat case_match; by simplify_eq/=.
  - intros [= <- <-]. destruct Hb as [Hb|Hb]; [left; by exists f|by right].
Qed.

Lemma budgeted_raise fuel e env max max' counter v n counter' : budgeted fuel e env max counter = Done (Ok (v, n), counter') → (n ≤ max')%Z → budgeted fuel e env max' counter = Done (Ok (v, n), counter').
Proof.
  unfold budgeted. fold (start max counter). fold (start max' counter). intros H Hn. change (start max' counter) with (raise max' (start max counter)).
  pose proof (steps_internal fuel e env None (start max counter) max') as Hs. destruct (eval_internal _ e env None (Some (start max counter))) as [[[a|f] [b|]]| |]; try done.
  destruct Hs as (_ & _ & Hs). destruct (flush_run_work b) as [[[]|f] b'] eqn:E; [|done]. injection H as <- <- <-. rewrite (Hs Hn), flush_raise, E. done.
Qed.
Lemma budgeted_lower fuel e env max max' counter : (max' ≤ max)%Z → budgeted fuel e env max' counter = OutOfFuel → budgeted fuel e env max counter = OutOfFuel.
Proof.
  unfold budgeted. fold (start max counter). fold (start max' counter). intros Hn. change (start max counter) with (raise max (start max' counter)).
  pose proof (lower_internal fuel e env None (start max' counter) max Hn) as Hs. destruct (eval_internal _ e env None (Some (start max' counter))) as [[[a|f] [b|]]| |]; try done; [|by rewrite Hs].
  by destruct (flush_run_work b) as [[[]|f] b'].
Qed.

(** ** Stacks *)

Lemma levels_le s bytes need : levels s bytes need ≤ need.
Proof. unfold levels. case_decide; lia. Qed.
Lemma levels_enough s bytes need : (0 ≤ level_bytes s)%Z → (level_bytes s * Z.of_nat need ≤ bytes)%Z → levels s bytes need = need.
Proof.
  intros H0 Hb. unfold levels. case_decide as H1; [done|]. assert (Z.of_nat need ≤ bytes / level_bytes s)%Z; [|lia]. apply Z.div_le_lower_bound; lia.
Qed.
Lemma levels_min s bytes n m : levels s bytes (Nat.min n m) = Nat.min n (levels s bytes m).
Proof. unfold levels. case_decide; lia. Qed.

(** The levels a budgeted evaluation has, if it runs at all. *)
Definition budget_levels (s : NativeStack) (env : EvalEnv) : nat :=
  levels s (if bool_decide (functions env = ∅) || on_eval_stack s then stack_left s else EVAL_THREAD_STACK_BYTES) eval_fuel.
Lemma with_budget_cases s e env max counter :
  let o := budgeted (budget_levels s env) e env (default MAX_CALL_STEPS max) counter in
  eval_with_budget s e env max counter = o ∧ (functions env = ∅ ∨ on_eval_stack s = true ∨ thread_granted s = true) ∨
  functions env ≠ ∅ ∧ on_eval_stack s = false ∧ (thread_granted s = false ∨ o = Panicked) ∧
    ∃ f, budget_fault f ∧ eval_with_budget s e env max counter = Done (Err f, counter).
Proof.
  unfold eval_with_budget, budget_levels, with_eval_stack. case_decide as Hf; [rewrite bool_decide_eq_true_2 by done; left; auto|]. rewrite bool_decide_eq_false_2 by done. cbn.
  destruct (on_eval_stack s); [left; split; [by destruct (budgeted _ _ _ _ _)|auto]|]. destruct (thread_granted s).
  - destruct (budgeted _ _ _ _ _) as [o| |] eqn:E; [left; auto|right|left; auto]. split_and!; [done|done|auto|]. eexists. by split; [|done].
  - right. split_and!; [done|done|auto|]. eexists. by split; [|done].
Qed.
(** With any stack, the outcome is an overflow, the one of an ample stack, or the refusal of a thread. *)
Lemma with_budget_ample s e env max counter :
  eval_with_budget s e env max counter = OutOfFuel ∨
  eval_with_budget s e env max counter = budgeted eval_fuel e env (default MAX_CALL_STEPS max) counter ∨
  functions env ≠ ∅ ∧ on_eval_stack s = false ∧ ∃ f, budget_fault f ∧ eval_with_budget s e env max counter = Done (Err f, counter).
Proof.
  destruct (with_budget_cases s e env max counter) as [[-> _]|(?&?&_&?)]; [|by right; right].
  destruct (budgeted_fits (budget_levels s env) e env (default MAX_CALL_STEPS max) counter) as [->| ->]; [apply levels_le|by left|by right; left].
Qed.

Lemma pure_mono n m e env r : eval_internal n e env None None = Done (r, None) → n ≤ m → eval_internal m e env None None = Done (r, None).
Proof. intros E Hm. rewrite (eval_internal_mono n m); [done|by rewrite E|done]. Qed.

(** The result an evaluation has when nothing refuses it. *)
Lemma reference_result e env : ∃ ρ : result EvalFault L3ValueV2, ∀ n r, (n ≤ Nat.max (height e) eval_fuel) → eval_internal n e env None None = Done (r, None) → r = ρ.
Proof.
  set (m := Nat.max (height e) eval_fuel). exists (match eval_internal m e env None None with Done (r, _) => r | _ => Err (Unbound "") end).
  intros n r Hn E. by rewrite (pure_mono n m e env r E Hn).
Qed.

Lemma eval_cases stack e env counter r counter' : eval stack e env counter = Done (r, counter') →
  eval_internal (height e) e env None None = Done (r, None) ∧ functions env = ∅ ∨ (∃ r', eval_with_budget stack e env None counter = Done (r', counter') ∧ r = (p ← r'; Ok p.1)).
Proof.
  unfold eval. destruct (bool_decide (functions env = ∅) && _) eqn:E; cbn [andb].
  - destruct (bool_decide (levels _ _ _ < _)) eqn:Hl; [done|]. apply bool_decide_eq_false in Hl. replace (levels stack (stack_left stack) (height e)) with (height e) by (pose proof (levels_le stack (stack_left stack) (height e)); lia).
    apply andb_prop in E as [E%bool_decide_eq_true _]. destruct (negb (expr_has_list_form e)).
    + destruct (none_internal (height e) e env None) as (r' & -> & _); [done..|]. intros [= <- <-]; by left.
    + destruct (eval_with_budget stack e env None counter) as [[r' c]| |]; [|done..]. intros [= <- <-]. right. by exists r'.
  - destruct (eval_with_budget stack e env None counter) as [[r' c]| |]; [|done..]. intros [= <- <-]. right. by exists r'.
Qed.

(** ** List forms as functions of lists *)

Section pure.
Context (item_value : L3ValueV2 → Eval L3ValueV2) (value : L3ValueV2 → L3ValueV2).
Abbreviation gives l := (∀ item, item ∈ l → item_value item None = Done (Ok (value item), None)).

Lemma gives_cons item items : gives (item :: items) → item_value item None = Done (Ok (value item), None) ∧ gives items.
Proof. intros Hl. split; [apply Hl; by left|]. intros x Hx. apply Hl. by right. Qed.

Definition sum_checked (acc n : Z) : result EvalFault Z := ok_or (checked i64_ok (acc + n)%Z) (FOverflow Add).
Fixpoint sum_all (l : list Z) (acc : Z) : result EvalFault Z := match l with [] => Ok acc | n :: l' => acc ← sum_checked acc n; sum_all l' acc end.

Lemma pure_sum f items : gives items → (∀ item, item ∈ items → value item = VInt (f item)) → ∀ acc, sum_items item_value items acc None = Done (sum_all (f <$> items) acc, None).
Proof.
  induction items as [|item items IH]; intros Hg Hf acc; [done|]. apply gives_cons in Hg as [Hi Hg]. cbn. unfold mbind, Eval_bind. rewrite Hi, (Hf item) by by left.
  unfold sum_checked. cbn. destruct (checked i64_ok (acc + f item)%Z); cbn; [|done]. apply IH; [done|]. intros x Hx. apply Hf. by right.
Qed.
Lemma pure_count p items : gives items → (∀ item, item ∈ items → value item = VBool (p item)) →
  ∀ acc, (0 ≤ acc)%Z → (acc + Z.of_nat (length items) < 2 ^ 63)%Z → count_items item_value items acc None = Done (Ok (acc + Z.of_nat (length (filter p items)))%Z, None).
Proof.
  induction items as [|item items IH]; intros Hg Hf acc Ha Hl; [cbn; by rewrite Z.add_0_r|]. apply gives_cons in Hg as [Hi Hg]. rewrite length_cons, Nat2Z.inj_succ in Hl. cbn [count_items]. unfold mbind, Eval_bind.
  rewrite Hi, (Hf item) by by left. assert (∀ x, x ∈ items → value x = VBool (p x)) as Hf' by (intros x Hx; apply Hf; by right).
  rewrite filter_cons. destruct (decide (p item)) as [Ep|Ep]; [apply Is_true_true in Ep|apply Is_true_false in Ep]; rewrite Ep; cbn.
  - unfold checked. rewrite decide_True by (unfold i64_ok; lia). cbn. rewrite IH; [|done|done|lia|lia]. do 3 f_equal. lia.
  - by rewrite IH by (done || lia).
Qed.
Lemma pure_all p items : gives items → (∀ item, item ∈ items → value item = VBool (p item)) → all_items item_value items None = Done (Ok (forallb p items), None).
Proof.
  induction items as [|item items IH]; intros Hg Hf; [done|]. apply gives_cons in Hg as [Hi Hg]. cbn. unfold mbind, Eval_bind. rewrite Hi, (Hf item) by by left.
  cbn. destruct (p item); cbn; [|done]. apply IH; [done|]. intros x Hx. apply Hf. by right.
Qed.
Lemma pure_any p items : gives items → (∀ item, item ∈ items → value item = VBool (p item)) → any_items item_value items None = Done (Ok (existsb p items), None).
Proof.
  induction items as [|item items IH]; intros Hg Hf; [done|]. apply gives_cons in Hg as [Hi Hg]. cbn. unfold mbind, Eval_bind. rewrite Hi, (Hf item) by by left.
  cbn. destruct (p item); cbn; [done|]. apply IH; [done|]. intros x Hx. apply Hf. by right.
Qed.
Definition pick (op : FoldOpV2) : Z → Z → Z := if decide (op = Min) then Z.min else Z.max.
Lemma pure_extremum op f items : gives items → (∀ item, item ∈ items → value item = VInt (f item)) →
  ∀ acc, extremum_items item_value op items (Some acc) None = Done (Ok (Some (fold_left (pick op) (f <$> items) acc)), None).
Proof.
  induction items as [|item items IH]; intros Hg Hf acc; [done|]. apply gives_cons in Hg as [Hi Hg]. cbn. unfold mbind, Eval_bind. rewrite Hi, (Hf item) by by left.
  cbn. rewrite IH; [|done|intros x Hx; apply Hf; by right]. do 4 f_equal. unfold pick. by case_decide.
Qed.
Lemma pure_filter p items : gives items → (∀ item, item ∈ items → value item = VBool (p item)) →
  ∀ out, length out + length items ≤ MAX_DERIVED_LIST_LEN → filter_items item_value items out None = Done (Ok (out ++ filter p items), None).
Proof.
  induction items as [|item items IH]; intros Hg Hf out Hl; [cbn; by rewrite app_nil_r|]. apply gives_cons in Hg as [Hi Hg]. cbn [filter_items]. unfold mbind, Eval_bind.
  rewrite Hi, (Hf item) by by left. assert (∀ x, x ∈ items → value x = VBool (p x)) as Hf' by (intros x Hx; apply Hf; by right). cbn [length] in Hl.
  rewrite filter_cons. destruct (decide (p item)) as [Ep|Ep]; [apply Is_true_true in Ep|apply Is_true_false in Ep]; rewrite Ep; cbn.
  - rewrite decide_False by lia. rewrite IH; [by rewrite <-app_assoc|done|done|rewrite length_app; cbn; lia].
  - by rewrite IH by (done || lia).
Qed.
Lemma pure_map items : gives items → ∀ out, length out + length items ≤ MAX_DERIVED_LIST_LEN → map_items item_value items out None = Done (Ok (out ++ (value <$> items)), None).
Proof.
  induction items as [|item items IH]; intros Hg out Hl; [cbn; by rewrite app_nil_r|]. apply gives_cons in Hg as [Hi Hg]. cbn [length] in Hl. cbn [map_items]. unfold mbind, Eval_bind.
  rewrite Hi. cbn. rewrite decide_False by lia. rewrite IH; [by rewrite <-app_assoc|done|rewrite length_app; cbn; lia].
Qed.
End pure.

Lemma pure_search needle items : search_items needle items None = Done (Ok (bool_decide (needle ∈ items)), None).
Proof.
  induction items as [|item items IH]; cbn; [by rewrite bool_decide_eq_false_2 by apply not_elem_of_nil|]. unfold Eval_bind. cbn. destruct (decide (item = needle)) as [->|Hne].
  - by rewrite bool_decide_eq_true_2 by by left.
  - change ((charge tick_step ≫= λ _ : (), search_items needle items) None) with (search_items needle items None). rewrite IH. do 3 f_equal. apply bool_decide_ext. rewrite elem_of_cons. split; [by right|]. intros [?|?]; [congruence|done].
Qed.

(** The first occurrences of a list's elements. *)
Fixpoint firsts (seen items : list L3ValueV2) : list L3ValueV2 :=
  match items with
  | [] => []
  | item :: items' => if decide (item ∈ seen) then firsts seen items' else item :: firsts (item :: seen) items'
  end.
Lemma seen_before_ok seen item : Forall value_ok seen → value_ok item → seen_before seen item = bool_decide (item ∈ seen).
Proof.
  intros Hs Hi. induction Hs as [|y seen Hy Hs IH]; cbn; [by rewrite bool_decide_eq_false_2 by apply not_elem_of_nil|]. unfold seen_before in IH. rewrite IH.
  rewrite (bool_decide_ext (value_compare item y = Eq) (item = y)) by by apply value_compare_eq. rewrite <-bool_decide_or. apply bool_decide_ext. by rewrite elem_of_cons.
Qed.
Lemma pure_distinct items : Forall value_ok items → ∀ seen out, Forall value_ok seen → length out + length items ≤ MAX_DERIVED_LIST_LEN →
  distinct_items items seen out None = Done (Ok (out ++ firsts seen items), None).
Proof.
  induction 1 as [|item items Hv Hi IH]; intros seen out Hs Hl; cbn; [by rewrite app_nil_r|]. cbn [length] in Hl. unfold mbind, Eval_bind. cbn. rewrite seen_before_ok by done.
  destruct (decide (item ∈ seen)) as [Hin|Hin]; [rewrite bool_decide_eq_true_2 by done; by rewrite IH by (done || lia)|rewrite bool_decide_eq_false_2 by done].
  rewrite decide_False by lia. rewrite IH; [by rewrite <-app_assoc|by constructor|rewrite length_app; cbn; lia].
Qed.
Lemma firsts_spec items : ∀ seen, NoDup (firsts seen items) ∧ (∀ x, x ∈ firsts seen items ↔ x ∈ items ∧ x ∉ seen) ∧ firsts seen items `sublist_of` items.
Proof.
  induction items as [|item items IH]; intros seen; cbn; [split; [constructor|]; split; [intros x; rewrite elem_of_nil; tauto|constructor]|]. case_decide as Hin.
  - destruct (IH seen) as (H1 & H2 & H3). split; [done|]. split; [|by constructor]. intros x. rewrite H2, elem_of_cons. split; [tauto|]. intros [[->|?] ?]; tauto.
  - destruct (IH (item :: seen)) as (H1 & H2 & H3). split; [constructor; [rewrite H2, elem_of_cons; tauto|done]|]. split; [|by constructor]. intros x.
    rewrite !elem_of_cons, H2, elem_of_cons. split; [intros [->|[? ?]]; tauto|]. intros [[->|?] ?]; [by left|]. destruct (decide (x = item)); tauto.
Qed.

(** ** One step of an unbudgeted evaluation of a list form *)

Lemma run_unbudgeted fuel e env cf r : eval_internal_body (eval_internal fuel) e env cf None = Done (r, None) → eval_internal (S fuel) e env cf None = Done (r, None).
Proof. intros H. rewrite eval_internal_S. unfold mbind, Eval_bind. cbn [charge]. unfold leaving. by rewrite H. Qed.

Section forms.
Context (fuel : nat) (list : L3ExprV2) (binder : string) (body : L3ExprV2) (env : EvalEnv) (cf : option string) (items : List.list L3ValueV2) (value : L3ValueV2 → L3ValueV2).
Context (Hlist : eval_internal fuel list env cf None = Done (Ok (VList items), None)).
Context (Hlen : length items ≤ MAX_DERIVED_LIST_LEN).
Abbreviation body_gives e v := (∀ item, item ∈ items → eval_internal fuel e (with_local binder item env) cf None = Done (Ok (v item), None)).
Context (Hbody : body_gives body value).
Abbreviation on_item := (eval_item (eval_internal fuel) binder body env cf).
Abbreviation run e := (eval_internal (S fuel) e env cf None).

Lemma items_of shape : eval_list (eval_internal fuel) shape list env cf None = Done (Ok items, None).
Proof. unfold eval_list, mbind, Eval_bind. by rewrite Hlist. Qed.
Lemma bind_None {A B} (m : Eval A) (f : A → Eval B) a : m None = Done (Ok a, None) → (m ≫= f) None = f a None.
Proof. intros H. unfold mbind, Eval_bind. by rewrite H. Qed.
Lemma bind_None_err {A B} (m : Eval A) (f : A → Eval B) e : m None = Done (Err e, None) → (m ≫= f) None = Done (Err e, None).
Proof. intros H. unfold mbind, Eval_bind. by rewrite H. Qed.
Lemma bind_None_result {A B} (m : Eval A) (f : A → B) r : m None = Done (r, None) → (a ← m; mret (f a)) None = Done (a ← r; Ok (f a), None).
Proof. intros H. unfold mbind at 1, Eval_bind. rewrite H. by destruct r. Qed.

Lemma sum_form f : (∀ item, item ∈ items → value item = VInt (f item)) → run (EFold Sum list binder body) = Done (n ← sum_all (f <$> items) 0; Ok (VInt n), None).
Proof.
  intros Hf. apply run_unbudgeted. cbn [eval_internal_body]. unfold eval_fold. rewrite (bind_None _ _ _ (items_of _)). apply bind_None_result.
  by apply (pure_sum _ value).
Qed.
Lemma extremum_form op f : op = Min ∨ op = Max → (∀ item, item ∈ items → value item = VInt (f item)) →
  run (EFold op list binder body) = Done (match f <$> items with [] => Err (EmptyAggregate op) | n :: l => Ok (VInt (fold_left (pick op) l n)) end, None).
Proof.
  intros Hop Hf. apply run_unbudgeted. cbn [eval_internal_body]. unfold eval_fold. rewrite (bind_None _ _ _ (items_of _)).
  assert (∀ T (a b c d e : T), match op with Sum => a | Count => b | All => c | Any => d | Min | Max => e end = e) as Hm by (destruct Hop as [-> | ->]; done). rewrite Hm.
  destruct items as [|item items']; [done|]. rewrite decide_False by done. pose proof (gives_cons on_item value _ _ Hbody) as [Hi Hg].
  cbn [extremum_items]. assert (∀ k : Z → Eval (option Z), (v ← eval_item (eval_internal fuel) binder body env cf item; n ← as_int "min/max body must evaluate to Int" v; k n) None = k (f item) None) as Hk.
  { intros k. rewrite (bind_None _ _ (value item)) by exact Hi. rewrite (Hf item) by by left. done. }
  rewrite (bind_None _ _ (Some (fold_left (pick op) (f <$> items') (f item)))); [done|]. rewrite Hk. apply (pure_extremum _ value); [exact Hg|]. intros x Hx. apply Hf. by right.
Qed.
Lemma predicate_forms p : (∀ item, item ∈ items → value item = VBool (p item)) →
  run (EFold Count list binder body) = Done (Ok (VInt (Z.of_nat (length (filter p items)))), None) ∧
  run (EFold All list binder body) = Done (Ok (VBool (forallb p items)), None) ∧
  run (EFold Any list binder body) = Done (Ok (VBool (existsb p items)), None) ∧
  run (EFilter list binder body) = Done (Ok (VList (filter p items)), None).
Proof.
  intros Hf. assert (0 + Z.of_nat (length items) < 2 ^ 63)%Z as Hl by (unfold MAX_DERIVED_LIST_LEN in Hlen; int_lia).
  split_and!; apply run_unbudgeted; cbn [eval_internal_body]; unfold eval_fold, eval_filter; rewrite (bind_None _ _ _ (items_of _)).
  - by rewrite (bind_None _ _ _ (pure_count on_item value p items Hbody Hf 0 ltac:(lia) Hl)).
  - by rewrite (bind_None _ _ _ (pure_all on_item value p items Hbody Hf)).
  - by rewrite (bind_None _ _ _ (pure_any on_item value p items Hbody Hf)).
  - by rewrite (bind_None _ _ _ (pure_filter on_item value p items Hbody Hf [] Hlen)).
Qed.
Lemma map_form : run (EMap list binder body) = Done (Ok (VList (value <$> items)), None).
Proof.
  apply run_unbudgeted; cbn [eval_internal_body]. unfold eval_map. rewrite (bind_None _ _ _ (items_of _)). by rewrite (bind_None _ _ _ (pure_map on_item value items Hbody [] Hlen)).
Qed.

(** A comprehension over one list maps what a filter keeps. *)
Lemma comprehension_form w p : body_gives w (λ item, VBool (p item)) → run (EComprehension [(binder, list)] (Some w) body) = Done (Ok (VList (value <$> filter p items)), None).
Proof.
  intros Hw. apply run_unbudgeted; cbn [eval_internal_body]. unfold eval_comprehension. cbn [eval_comprehension_generators].
  set (loop := fix loop (items out : List.list L3ValueV2) {struct items} : Eval (List.list L3ValueV2) := _).
  assert (∀ l out, (∀ x, x ∈ l → x ∈ items) → length out + length l ≤ MAX_DERIVED_LIST_LEN → loop l out None = Done (Ok (out ++ (value <$> filter p l)), None)) as Hloop.
  { intros l. induction l as [|item l IH]; intros out Hin Hl; [cbn; by rewrite app_nil_r|]. cbn [length] in Hl. rewrite filter_cons. cbn [loop]. unfold mbind, Eval_bind. cbn [charge].
    rewrite (Hw item) by (apply Hin; by left). destruct (decide (p item)) as [Ep|Ep]; [apply Is_true_true in Ep|apply Is_true_false in Ep]; rewrite Ep; cbn.
    - rewrite (Hbody item) by (apply Hin; by left). rewrite decide_False by lia. cbn. rewrite IH; [by rewrite <-app_assoc|intros x Hx; apply Hin; by right|rewrite length_app; cbn; lia].
    - cbn. apply IH; [intros x Hx; apply Hin; by right|lia]. }
  rewrite (bind_None _ _ (value <$> filter p items)); [done|]. rewrite (bind_None _ _ _ (items_of _)). by apply (Hloop items []).
Qed.

Lemma plain_forms needle v : eval_internal fuel needle env cf None = Done (Ok v, None) →
  run (ELen list) = Done (Ok (VInt (Z.of_nat (length items))), None) ∧
  run (EIn needle list) = Done (Ok (VBool (bool_decide (v ∈ items))), None) ∧
  (Forall value_ok items → run (EDistinct list) = Done (Ok (VList (firsts [] items)), None)) ∧
  run (EOnly list) = Done (match items with [x] => Ok x | _ => Err (NotSingleton (length items)) end, None).
Proof.
  intros Hv. split_and!; [apply run_unbudgeted..|intros Hok; apply run_unbudgeted|apply run_unbudgeted]; cbn [eval_internal_body]; unfold eval_len, eval_in, eval_distinct, eval_only.
  - by rewrite (bind_None _ _ _ (items_of _)).
  - rewrite (bind_None _ _ _ Hv), (bind_None _ _ _ (items_of _)). by rewrite (bind_None _ _ _ (pure_search _ _)).
  - rewrite (bind_None _ _ _ (items_of _)). by rewrite (bind_None _ _ _ (pure_distinct items Hok [] [] ltac:(constructor) Hlen)).
  - rewrite (bind_None _ _ _ (items_of _)). by destruct items as [|x [|]].
Qed.
End forms.
End laws.

(** * The evaluator's contract *)

(** A computation comes to an end with a result, of which [P] holds. *)
Definition returns {A} (P : A → Prop) (o : outcome (result EvalFault A * option Z)) : Prop :=
  ∃ r counter', o = Done (r, counter') ∧ match r with Ok a => P a | Err _ => True end.

(** The stack of the thread an evaluation runs on, and the levels of recursion it takes at most:
    the budget's where there are helpers, the height of the expression otherwise. *)
Definition stack_of (s : NativeStack) (env : EvalEnv) : Z :=
  if bool_decide (functions env = ∅) || on_eval_stack s then stack_left s else EVAL_THREAD_STACK_BYTES.
Definition depth_of (e : L3ExprV2) (env : EvalEnv) : nat := if bool_decide (functions env = ∅) then height e else eval_fuel.
Definition fits (s : NativeStack) (env : EvalEnv) (n : nat) : Prop := (level_bytes s * Z.of_nat n ≤ stack_of s env)%Z.

Section returns.
Context `{ValueLayout, DebugText} (s : NativeStack) (env : EvalEnv).
Hypothesis nonnegative : (0 ≤ level_bytes s)%Z.

Lemma with_budget_returns e max counter : (0 ≤ default MAX_CALL_STEPS max)%Z → fits s env (Nat.min (depth_of e env) eval_fuel) →
  returns (λ p, 0 ≤ p.2 ≤ default MAX_CALL_STEPS max)%Z (eval_with_budget s e env max counter).
Proof.
  intros Hm Hf. destruct (with_budget_cases s e env max counter) as [[-> _]|(_ & _ & _ & f & _ & ->)]; [|by exists (Err f), counter].
  assert (enough (budget_levels s env) e env) as He.
  { unfold fits, depth_of, stack_of in Hf. unfold budget_levels, enough. case_bool_decide as E; cbn [orb] in *.
    - destruct (decide (eval_fuel ≤ height e)) as [Hh|Hh]; [left; apply levels_enough; [done|by rewrite Nat.min_r in Hf by done]|].
      right. split; [done|]. rewrite Nat.min_l in Hf by lia. pose proof (levels_min s (stack_left s) (height e) eval_fuel) as Hl.
      rewrite (Nat.min_l (height e) eval_fuel) in Hl by lia. rewrite levels_enough in Hl by done. lia.
    - left. apply levels_enough; [done|]. by rewrite Nat.min_id in Hf. }
  destruct (budgeted_returns (budget_levels s env) e env (default MAX_CALL_STEPS max) counter Hm He) as (r & c & -> & Hr).
  exists r, c. split; [done|]. destruct r as [[v n]|]; [by apply (Hr v)|done].
Qed.
Lemma eval_returns e counter : fits s env (depth_of e env) → returns (λ _, True) (eval s e env counter).
Proof.
  intros Hf. assert (returns (λ _, True) (match eval_with_budget s e env None counter with
      | Done (r, counter') => Done (p ← r; Ok p.1, counter') | Panicked => Panicked | OutOfFuel => OutOfFuel end)) as Hb.
  { destruct (with_budget_returns e None counter) as (r & c & -> & _); [done| |exists (p ← r; Ok p.1), c; by destruct r]. unfold fits in *. nia. }
  unfold eval. destruct (bool_decide (functions env = ∅) && _) eqn:E; [|exact Hb]. apply andb_prop in E as [E _].
  unfold fits, depth_of, stack_of in Hf. rewrite E in Hf. cbn [orb andb] in *. rewrite !levels_enough by done. rewrite bool_decide_eq_false_2 by lia.
  destruct (negb _); [|exact Hb]. apply bool_decide_eq_true in E. destruct (none_internal (height e) e env None) as (r & -> & _); [done..|]. exists r, counter. by destruct r.
Qed.

Lemma helpers_fit : functions env ≠ ∅ → on_eval_stack s = false → (level_bytes s ≤ 13421)%Z → fits s env eval_fuel.
Proof.
  intros Hf Ho Hb. unfold fits, stack_of. rewrite bool_decide_eq_false_2 by done. rewrite Ho. cbn [orb].
  replace (Z.of_nat eval_fuel) with 20001%Z by (vm_compute; reflexivity). unfold EVAL_THREAD_STACK_BYTES. lia.
Qed.

(** What a stack can do to an evaluation: end it by an overflow, or be refused a thread. *)
Definition same_but_aborted {A} (counter : option Z) (o ample : outcome (result EvalFault A * option Z)) : Prop :=
  o = OutOfFuel ∨ o = ample ∨ functions env ≠ ∅ ∧ on_eval_stack s = false ∧ ∃ f, budget_fault f ∧ o = Done (Err f, counter).
Lemma with_budget_same e max counter : (0 ≤ default MAX_CALL_STEPS max)%Z →
  same_but_aborted counter (eval_with_budget s e env max counter) (eval_with_budget ample e env max counter).
Proof.
  intros Hm. unfold same_but_aborted.
  assert (eval_with_budget ample e env max counter = budgeted eval_fuel e env (default MAX_CALL_STEPS max) counter) as ->; [|apply with_budget_ample].
  assert (budget_levels ample env = eval_fuel) as Hl by done.
  destruct (with_budget_cases ample e env max counter) as [[-> _]|(_ & _ & [Hg|Ho] & _)]; [by rewrite Hl|done|]. rewrite Hl in Ho.
  destruct (budgeted_returns eval_fuel e env (default MAX_CALL_STEPS max) counter Hm ltac:(by left)) as (r & c & E & _). by rewrite E in Ho.
Qed.
Lemma eval_same e counter : same_but_aborted counter (eval s e env counter) (eval ample e env counter).
Proof.
  assert (same_but_aborted counter
    (match eval_with_budget s e env None counter with Done (r, counter') => Done (p ← r; Ok p.1, counter') | Panicked => Panicked | OutOfFuel => OutOfFuel end)
    (match eval_with_budget ample e env None counter with Done (r, counter') => Done (p ← r; Ok p.1, counter') | Panicked => Panicked | OutOfFuel => OutOfFuel end)) as Hb.
  { destruct (with_budget_same e None counter) as [->|[->|(?&?&f&?&->)]]; [done|by left|right; by left|right; right]. split; [done|]. split; [done|]. by exists f. }
  unfold eval. destruct (bool_decide (functions env = ∅) && _); [|exact Hb]. cbn [andb].
  change (levels ample (stack_left ample) (height e)) with (height e). rewrite (bool_decide_eq_false_2 (height e < height e)) by lia.
  destruct (bool_decide (levels _ _ _ < _)) eqn:Hl; [by left|]. apply bool_decide_eq_false in Hl.
  replace (levels s (stack_left s) (height e)) with (height e) by (pose proof (levels_le s (stack_left s) (height e)); lia).
  destruct (negb _); [right; by left|exact Hb].
Qed.
End returns.
Lemma eval_ample_returns `{ValueLayout, DebugText} e env counter : returns (λ _, True) (eval ample e env counter).
Proof. apply eval_returns; [done|]. unfold fits, stack_of. by case_match. Qed.

(** C14: Every evaluation returns, on a stack that fits it. Neither entry point panics or runs on,
    whatever the program, its helpers (which may call one another) and the environment; a budgeted
    evaluation that returns a value spent between none and all of the steps it was allowed. Without
    helpers an evaluation runs on its caller's thread, whose stack must fit as many levels of
    recursion as the expression is high, or as the budget allows if these are fewer; with helpers
    it runs on a thread of its own, and returns from whatever stack it is called on provided a
    level takes at most 13,421 bytes of the evaluation thread's 256 MiB (on an evaluation
    thread it runs inline, and what is left must fit the budget's levels). A smaller
    stack can only abort an evaluation: else it gives what it gives on an ample one. *)
Theorem evaluation_returns `{ValueLayout, DebugText} s e env counter : (0 ≤ level_bytes s)%Z →
  (fits s env (depth_of e env) → returns (λ _, True) (eval s e env counter)) ∧
  (∀ max, (0 ≤ max)%Z → fits s env (Nat.min (depth_of e env) eval_fuel) → returns (λ p, 0 ≤ p.2 ≤ max)%Z (eval_with_budget s e env (Some max) counter)) ∧
  (functions env ≠ ∅ → on_eval_stack s = false → (level_bytes s ≤ 13421)%Z →
    returns (λ _, True) (eval s e env counter) ∧
    ∀ max, (0 ≤ max)%Z → returns (λ p, 0 ≤ p.2 ≤ max)%Z (eval_with_budget s e env (Some max) counter)) ∧
  same_but_aborted s env counter (eval s e env counter) (eval ample e env counter) ∧
  ∀ max, (0 ≤ max)%Z → same_but_aborted s env counter (eval_with_budget s e env (Some max) counter) (eval_with_budget ample e env (Some max) counter).
Proof.
  intros Hn. split; [by apply eval_returns|]. split; [intros max Hm Hf; by apply (with_budget_returns s env Hn e (Some max) counter Hm)|].
  split; [|split; [apply eval_same|intros max Hm; by apply (with_budget_same s env e (Some max))]].
  intros Hh Ho Hb. assert (depth_of e env = eval_fuel) as Hd by (unfold depth_of; by rewrite bool_decide_eq_false_2).
  pose proof (helpers_fit s env Hh Ho Hb) as Hf. split; [apply eval_returns; [done|by rewrite Hd]|].
  intros max Hm. apply (with_budget_returns s env Hn e (Some max) counter Hm). by rewrite Hd, Nat.min_id.
Qed.

(** A helper that calls itself, a list fold, and a division. *)
#[local] Instance demo_layout : ValueLayout := {| size_of_value := 56; size_of_field := 80 |}.
#[local] Instance demo_text : DebugText := {| debug_caller _ := ""; debug_grants _ := "" |}.
Definition demo_countdown : L3FunctionDef :=
  mkFunction "down" [("n", Some SInt)] (Some SInt) ∅
    (EMatch (ECmp CLe (ELetRef "n") (EInt 0)) [(PCtor None "true" [], EInt 0); (PWildcard, ECall "down" [EArith Sub (ELetRef "n") (EInt 1)])]).
Definition demo_env : EvalEnv := with_function "down" demo_countdown env_new.
Definition demo_total : L3ExprV2 := EFold Sum (EMap (EListLit [EInt 3; EInt 4; EInt 3]) "x" (EIntDivMod DivCeil (ELetRef "x") (EInt 2))) "y" (ELetRef "y").

(** A caller with 64 KiB left and levels of 12 KiB, which would not fit the recursion itself. *)
Definition demo_stack : NativeStack := mkStack true false 65536 12288.
Lemma evaluation_returns_witness :
  returns (λ p, 0 ≤ p.2 ≤ 200)%Z (eval_with_budget demo_stack (ECall "down" [EInt 5]) demo_env (Some 200%Z) None) ∧
  eval_with_budget demo_stack (ECall "down" [EInt 5]) demo_env (Some 200%Z) None = Done (Ok (VInt 0, 59%Z), None).
Proof.
  split; [|vm_compute; reflexivity].
  apply (evaluation_returns demo_stack (ECall "down" [EInt 5]) demo_env None); [cbn; lia|intros Hf; vm_compute in Hf; discriminate Hf|reflexivity|cbn; lia|lia].
Defined.

(** [not (not (.. true))]. *)
Definition nested (n : nat) : L3ExprV2 := Nat.iter n ENot (EBool true).
Lemma nested_height n : height (nested n) = S n.
Proof. induction n as [|n IH]; [done|]. change (S (height (nested n)) = S (S n)). by rewrite IH. Qed.
(** On no stack whose levels take anything does every expression return: without helpers, a deep one
    overflows the stack of the thread it is evaluated on, an evaluation thread too, and
    with a budget it does so on any thread with less than the budget's levels. *)
Lemma deep_expression_overflows `{ValueLayout, DebugText} s counter : (0 < level_bytes s)%Z → ∃ e, eval s e env_new counter = OutOfFuel.
Proof.
  intros Hb. set (n := Z.to_nat (stack_left s / level_bytes s)). exists (nested n). unfold eval. cbn [functions env_schemas env_new].
  rewrite !bool_decide_eq_true_2; [done| |done..]. rewrite nested_height. unfold levels. rewrite decide_False by lia. lia.
Qed.
Lemma budgeted_overflows :
  eval_with_budget (mkStack true false (1024 * 1024) 4096) (nested 300) env_new None None = OutOfFuel ∧
  eval_with_budget ample (nested 300) env_new None None = Done (Ok (VBool true, 301%Z), None).
Proof. split; vm_compute; reflexivity. Qed.

(** C15: Budgets only refuse. An expression and an environment have one result: every entry point,
    with any step limit, any state of the run's counter, on any stack that it does not overflow,
    gives that value or that fault, or refuses with a resource or recursion fault. *)
Theorem budgets_only_refuse `{ValueLayout, DebugText} e env : ∃ ρ : result EvalFault L3ValueV2,
  (∀ stack counter r counter', eval stack e env counter = Done (r, counter') → refused r ∨ r = ρ) ∧
  ∀ stack max counter r counter', (0 ≤ default MAX_CALL_STEPS max)%Z →
    eval_with_budget stack e env max counter = Done (r, counter') → refused r ∨ (p ← r; Ok p.1) = ρ.
Proof.
  destruct (reference_result e env) as [ρ Hρ]. exists ρ.
  assert (∀ stack max counter r counter', (0 ≤ default MAX_CALL_STEPS max)%Z →
    eval_with_budget stack e env max counter = Done (r, counter') → refused r ∨ (p ← r; Ok p.1) = ρ) as Hb.
  { intros stack max counter r counter' Hm. destruct (with_budget_ample stack e env max counter) as [->|[->|(_ & _ & f & Hf & ->)]]; [done| |].
    - intros Hb. apply budgeted_value in Hb as [?|Hp]; [by left|right|done]. eapply Hρ; [|exact Hp]. lia.
    - intros [= <- _]. left. by exists f. }
  split; [|exact Hb]. intros stack counter r counter' He. apply eval_cases in He as [[He _]|(r' & He & ->)]; [right; eapply Hρ; [|exact He]; lia|].
  destruct (Hb stack None counter r' counter') as [(f & -> & Hf)|Hr]; [done|done|left; by exists f|by right].
Qed.

Lemma budgets_only_refuse_witness : ∃ ρ, ρ = Ok (VInt 6) ∧
  ∀ stack max counter r counter', (0 ≤ default MAX_CALL_STEPS max)%Z →
    eval_with_budget stack demo_total demo_env max counter = Done (r, counter') → refused r ∨ (p ← r; Ok p.1) = ρ.
Proof.
  destruct (budgets_only_refuse demo_total demo_env) as (ρ & H1 & H2). exists ρ. split; [|exact H2].
  destruct (H1 ample None (Ok (VInt 6)) None) as [(f & [=] & _)|H]; [vm_compute; reflexivity|symmetry; exact H].
Defined.

(** C17: The steps reported are the least limit. When a budgeted evaluation returns a value and a
    number of steps, it returns the same under every limit that allows these steps, and is
    refused under every smaller one. *)
Theorem steps_are_the_least_limit `{ValueLayout, DebugText} stack e env max counter v n counter' : (0 ≤ max)%Z →
  eval_with_budget stack e env (Some max) counter = Done (Ok (v, n), counter') →
  (∀ max', (n ≤ max')%Z → eval_with_budget stack e env (Some max') counter = Done (Ok (v, n), counter')) ∧
  ∀ max', (0 ≤ max' < n)%Z → ∃ r c, eval_with_budget stack e env (Some max') counter = Done (r, c) ∧ refused r.
Proof.
  intros Hm H1. set (fuel := budget_levels stack env).
  assert (∀ m, (0 ≤ m)%Z → eval_with_budget stack e env (Some m) counter = budgeted fuel e env m counter) as Eb.
  { intros m Hm'. destruct (with_budget_cases stack e env (Some m) counter) as [[-> _]|(? & ? & [Hg|Hp] & _)]; [done| |].
    - destruct (with_budget_cases stack e env (Some max) counter) as [[_ [?|[?|?]]]|(_ & _ & _ & f & _ & Hr)]; congruence.
    - change (budgeted fuel e env m counter = Panicked) in Hp. destruct (budgeted_fits fuel e env m counter) as [E|E]; [apply levels_le|congruence|].
      destruct (budgeted_returns eval_fuel e env m counter Hm' ltac:(by left)) as (r & c & Er & _). congruence. }
  rewrite Eb in H1 by done. assert (0 ≤ n ≤ max)%Z as Hn0.
  { destruct (budgeted_fits fuel e env max counter) as [E|E]; [apply levels_le|congruence|]. destruct (budgeted_returns eval_fuel e env max counter Hm ltac:(by left)) as (r0 & c0 & E0 & Hr0).
    apply (Hr0 v n). congruence. }
  split; [intros max' Hn; rewrite Eb by lia; by eapply budgeted_raise|]. intros max' Hn. rewrite Eb by lia.
  destruct (budgeted_fits fuel e env max counter) as [E0|E0]; [apply levels_le|congruence|]. rewrite H1 in E0. symmetry in E0.
  destruct (budgeted_fits fuel e env max' counter) as [E|E]; [apply levels_le|apply (budgeted_lower _ _ _ max) in E; [congruence|lia]|]. rewrite E.
  destruct (budgeted_returns eval_fuel e env max' counter ltac:(lia) ltac:(by left)) as (r & c & E' & Hr). exists r, c. split; [done|].
  destruct (budgeted_value e env max' counter r c ltac:(lia) E') as [?|Hp]; [done|].
  destruct (budgeted_value e env max counter _ _ Hm E0) as [(f & [=] & _)|Hp0]. unfold pure_value in *. rewrite Hp0 in Hp. destruct r as [[v' n']|f]; [|done].
  specialize (Hr v' n' eq_refl). rewrite (budgeted_raise eval_fuel e env max' max counter v' n' c E') in E0 by lia. injection E0 as -> -> ->. lia.
Qed.

Lemma steps_are_the_least_limit_witness :
  eval_with_budget ample demo_total demo_env (Some 1000%Z) None = Done (Ok (VInt 6, 30%Z), None) ∧
  eval_with_budget ample demo_total demo_env (Some 30%Z) None = Done (Ok (VInt 6, 30%Z), None) ∧
  ∃ r c, eval_with_budget ample demo_total demo_env (Some 29%Z) None = Done (r, c) ∧ refused r.
Proof.
  assert (eval_with_budget ample demo_total demo_env (Some 1000%Z) None = Done (Ok (VInt 6, 30%Z), None)) as E by (vm_compute; reflexivity).
  destruct (steps_are_the_least_limit ample demo_total demo_env 1000 None (VInt 6) 30 None ltac:(lia) E) as [H1 H2].
  split; [exact E|]. split; [apply H1; lia|apply H2; lia].
Defined.

Lemma eval_ok `{ValueLayout, DebugText} stack e env : expr_ok e → env_ok env →
  (∀ counter v counter', eval stack e env counter = Done (Ok v, counter') → value_ok v) ∧
  ∀ max counter v n counter', eval_with_budget stack e env max counter = Done (Ok (v, n), counter') → value_ok v.
Proof.
  intros He Henv.
  assert (∀ max counter v n counter', eval_with_budget stack e env max counter = Done (Ok (v, n), counter') → value_ok v) as Hb.
  { intros max counter v n counter'. destruct (with_budget_ample stack e env max counter) as [->|[->|(_ & _ & f & _ & ->)]]; [done| |done]. unfold budgeted.
    match goal with |- context [eval_internal _ _ _ _ (Some ?b)] => pose proof (value_internal eval_fuel e env None He Henv (Some b)) as Hv; destruct (eval_internal _ e env None (Some b)) as [[[a|f] [b'|]]| |] end; try done.
    destruct (flush_run_work b') as [[[]|f] b2]; [|done]. intros [= <- _ _]. by apply Hv. }
  split; [|exact Hb]. intros counter v counter' Hv. apply eval_cases in Hv as [[Hv _]|([[v' n]|f] & Hr & [=])].
  - pose proof (value_internal (height e) e env None He Henv None) as Hi. rewrite Hv in Hi. by apply Hi.
  - subst v'. by eapply Hb.
Qed.

(** C16: Values stay well formed. From well-formed inputs, lets and facts, and programs whose
    literals are 64-bit integers, an evaluation returns well-formed values only: every integer in
    it is in range, every list at most [MAX_DERIVED_LIST_LEN] long, every float finite, every
    decimal normalized, at any depth, whatever helpers, contracts, validations or list forms the
    value went through. *)
Theorem values_well_formed `{ValueLayout, DebugText} stack e env : expr_ok e → env_ok env →
  (∀ counter v counter', eval stack e env counter = Done (Ok v, counter') → value_ok v) ∧
  ∀ max counter v n counter', eval_with_budget stack e env max counter = Done (Ok (v, n), counter') → value_ok v.
Proof. apply eval_ok. Qed.

Ltac exprs_ok := repeat constructor; cbn; unfold i64_ok; try done; lia.

Lemma demo_env_ok : env_ok demo_env.
Proof.
  assert (map_vok True ∅) as He by (intros k v; by rewrite lookup_empty). split; [split_and!; [exact He..|intros _; constructor]|]. intros func def. cbn. rewrite lookup_insert_Some. intros [[_ <-]|[_ H]]; [|by rewrite lookup_empty in H].
  exprs_ok.
Qed.
Lemma demo_total_ok : expr_ok demo_total.
Proof. exprs_ok. Qed.
Lemma values_well_formed_witness : eval ample demo_total demo_env None = Done (Ok (VInt 6), None) ∧ value_ok (VInt 6).
Proof.
  assert (eval ample demo_total demo_env None = Done (Ok (VInt 6), None)) as E by (vm_compute; reflexivity). split; [exact E|].
  apply (proj1 (values_well_formed ample demo_total demo_env demo_total_ok demo_env_ok) None (VInt 6) None E).
Defined.

(** C19: The list forms are the list functions they are named after. For a list expression that
    gives [items] and a body that gives [value item] on each: a sum is the left-to-right checked
    sum, min and max the extremum of a non-empty list, a filter keeps the elements the predicate
    holds of in order, all, any and count decide and count it, a map maps, a comprehension maps
    what its filter keeps, [in] is membership, [only] the element of a singleton, and [distinct]
    the first occurrences: without duplicates, with the same elements, in the list's order. *)
Theorem list_forms_are_list_functions `{ValueLayout, DebugText} fuel list binder body env cf items value :
  eval_internal fuel list env cf None = Done (Ok (VList items), None) → length items ≤ MAX_DERIVED_LIST_LEN → Forall value_ok items →
  (∀ item, item ∈ items → eval_internal fuel body (with_local binder item env) cf None = Done (Ok (value item), None)) →
  let run e := eval_internal (S fuel) e env cf None in
  (∀ f, (∀ item, item ∈ items → value item = VInt (f item)) →
    run (EFold Sum list binder body) = Done (n ← sum_all (f <$> items) 0; Ok (VInt n), None) ∧
    ∀ op, op = Min ∨ op = Max →
      run (EFold op list binder body) = Done (match f <$> items with [] => Err (EmptyAggregate op) | n :: l => Ok (VInt (fold_left (pick op) l n)) end, None)) ∧
  (∀ p, (∀ item, item ∈ items → value item = VBool (p item)) →
    run (EFold Count list binder body) = Done (Ok (VInt (Z.of_nat (length (filter p items)))), None) ∧
    run (EFold All list binder body) = Done (Ok (VBool (forallb p items)), None) ∧
    run (EFold Any list binder body) = Done (Ok (VBool (existsb p items)), None) ∧
    run (EFilter list binder body) = Done (Ok (VList (filter p items)), None)) ∧
  run (EMap list binder body) = Done (Ok (VList (value <$> items)), None) ∧
  (∀ w p, (∀ item, item ∈ items → eval_internal fuel w (with_local binder item env) cf None = Done (Ok (VBool (p item)), None)) →
    run (EComprehension [(binder, list)] (Some w) body) = Done (Ok (VList (value <$> filter p items)), None)) ∧
  (∀ needle v, eval_internal fuel needle env cf None = Done (Ok v, None) → run (EIn needle list) = Done (Ok (VBool (bool_decide (v ∈ items))), None)) ∧
  run (ELen list) = Done (Ok (VInt (Z.of_nat (length items))), None) ∧
  run (EOnly list) = Done (match items with [x] => Ok x | _ => Err (NotSingleton (length items)) end, None) ∧
  ∃ l, run (EDistinct list) = Done (Ok (VList l), None) ∧ NoDup l ∧ (∀ x, x ∈ l ↔ x ∈ items) ∧ l `sublist_of` items.
Proof.
  intros Hlist Hlen Hok Hbody. cbn zeta. pose proof (plain_forms fuel list binder body env cf items value Hlist Hlen Hbody list (VList items) Hlist) as (H1 & _ & H3 & H4). split_and!.
  - intros f Hf. split; [by apply (sum_form fuel list binder body env cf items value)|]. intros op Hop. by apply (extremum_form fuel list binder body env cf items value).
  - intros p. by apply (predicate_forms fuel list binder body env cf items value).
  - by apply map_form.
  - intros w p. by apply comprehension_form.
  - intros needle v Hv. by apply (plain_forms fuel list binder body env cf items value Hlist Hlen Hbody needle v Hv).
  - exact H1.
  - exact H4.
  - exists (firsts [] items). split; [by apply H3|]. destruct (firsts_spec items []) as (Hn & Hi & Hs). split; [done|]. split; [|done].
    intros x. rewrite Hi. split; [tauto|]. intros ?. split; [done|]. apply not_elem_of_nil.
Qed.

Lemma list_forms_are_list_functions_witness :
  let list := EListLit [EInt 3; EInt 4; EInt 3] in
  eval_internal 3 (EFold Sum list "x" (ELetRef "x")) env_new None None = Done (Ok (VInt 10), None) ∧
  ∃ l, eval_internal 3 (EDistinct list) env_new None None = Done (Ok (VList l), None) ∧ NoDup l ∧ (∀ x, x ∈ l ↔ x ∈ [VInt 3; VInt 4; VInt 3]) ∧ l `sublist_of` [VInt 3; VInt 4; VInt 3].
Proof.
  cbn zeta. assert (∀ item, item ∈ [VInt 3; VInt 4; VInt 3] → eval_internal 2 (ELetRef "x") (with_local "x" item env_new) None None = Done (Ok item, None)) as Hb.
  { intros item [->|[->|[->|[]%elem_of_nil]%elem_of_cons]%elem_of_cons]%elem_of_cons; vm_compute; reflexivity. }
  destruct (list_forms_are_list_functions 2 (EListLit [EInt 3; EInt 4; EInt 3]) "x" (ELetRef "x") env_new None [VInt 3; VInt 4; VInt 3] (λ v, v)) as (Hs & _ & _ & _ & _ & _ & _ & Hd).
  - vm_compute. reflexivity.
  - vm_compute. lia.
  - repeat constructor; done.
  - exact Hb.
  - split; [|exact Hd]. destruct (Hs (λ v, match v with VInt n => n | _ => 0%Z end)) as [-> _]; [|reflexivity].
    intros item [->|[->|[->|[]%elem_of_nil]%elem_of_cons]%elem_of_cons]%elem_of_cons; reflexivity.
Defined.
