(* ===== verification/Syntax.v ===== *)
(** The surface syntax tree (src/crates/brix-syntax/src/ast.rs), which the lowering reads.

    The tree is what was written: literals are text, annotations are optional. The parser that
    builds it is not modelled. *)
From S2P Require Import Prelude.

(** * Types and expressions *)

Inductive Grade : Type := GDerived | GAudited | GProven.

Inductive BinOp : Type :=
  | OpAdd | OpSub | OpMul | OpDiv | OpThen | OpAnd | OpLt | OpLe | OpGt | OpGe | OpEq | OpNe | OpAndAnd | OpOrOr | OpIn.
Definition is_comparison (op : BinOp) : bool := match op with OpLt | OpLe | OpGt | OpGe | OpEq | OpNe => true | _ => false end.
Definition is_logical (op : BinOp) : bool := match op with OpAndAnd | OpOrOr => true | _ => false end.

Inductive Pattern : Type :=
  | AWildcard
  | AVar (name : string)
  | ACtor (name : string) (args : list Pattern).

(** A field of a record type is its name and its type, an arm of a match its pattern and its
    body. *)
Inductive Ty : Type :=
  | TNamed (name : string)
  | TGraded (ty : Ty) (grade : Grade)
  | TRecord (fields : list (string * Ty))
  | TApp (name : string) (args : list Ty)
  | TRefine (binder : string) (base : Ty) (predicate : Expr)
  | TScalar (n : Z)
  | TGiven (inner : Ty) (assumptions : list string)
with Expr : Type :=
  | XNum (s : string)
  | XStr (s : string)
  | XBool (b : bool)
  | XVar (name : string)
  | XRecord (config : string) (fields : list (string * Expr))
  | XField (base : Expr) (field : string)
  | XCall (func : string) (args : list Expr)
  | XBin (op : BinOp) (lhs rhs : Expr)
  | XMatch (scrutinee : Expr) (arms : list (Pattern * Expr)) (proving_exhaustive : bool)
  | XProve (e : Expr)
  | XWhy (e : Expr)
  | XAudit (e : Expr)
  | XNot (e : Expr)
  | XLambda (param : string) (body : Expr)
  | XListLit (items : list Expr)
  | XComprehension (generators : list (string * Expr)) (where_clause : option Expr) (yield_expr : Expr)
  | XAnonRecord (fields : list (string * Expr))
  | XValidate (ty : Ty) (arg : Expr)
  | XAscribe (expr : Expr) (ty : Ty).

(** * Declarations *)

Record Param : Type := mkParam { p_name : string; p_ty : option Ty }.
Record Callable : Type := mkCallable {
  k_name : string; k_params : list Param; k_ret : option Ty; k_type_params : list string; k_requires : option Expr; k_ensures : option Expr;
  k_converts : option string; k_body : Expr; k_params_declared : bool
}.
Record Variant : Type := mkVariant { v_name : string; v_params : list Ty }.
Inductive ConfigBody : Type := CSum (variants : list Variant) | CRecord (fields : list (string * Ty)).
Record ConfigDecl : Type := mkConfig { cfg_name : string; cfg_params : list string; cfg_body : ConfigBody }.
Record RegimeDecl : Type := mkRegime { rg_name : string; rg_gens : list Callable }.
Record LetDecl : Type := mkLet { let_name : string; let_ty : option Ty; let_value : Expr }.
Record ProposeDecl : Type := mkPropose {
  pr_name : string; pr_deps : list string; pr_priority : Z; pr_guard : Expr; pr_value : Expr; pr_deps_declared : bool; pr_otherwise : bool
}.
Record CommitDecl : Type := mkCommitDecl { cm_name : string; cm_candidates : list string }.
Record InputDecl : Type := mkInput { in_name : string; in_ty : Ty; in_list_max : option Z }.
Record DecideDecl : Type := mkDecide { d_name : string; d_binder : string; d_list : Expr; d_per : option string; d_proposals : list ProposeDecl }.
Record NewtypeDecl : Type := mkNewtype { nt_name : string; nt_params : list string; nt_repr : Ty }.
Record IndexParam : Type := mkIndexParam { ip_name : string; ip_sort : option Ty }.
Record TypeDefDecl : Type := mkTypeDef { td_name : string; td_params : list IndexParam; td_body : Ty }.
Record RelInputDecl : Type := mkRelInput { ri_name : string; ri_ty : Ty; ri_key_fields : list string }.
Record RelBinding : Type := mkRelBinding { rb_var : string; rb_relation : string }.
Record RelNotExists : Type := mkNotExists { ne_binding : RelBinding; ne_predicate : Expr }.
Record RelQuery : Type := mkRelQuery {
  rq_union_keys : option (list string); rq_select : Expr; rq_from : list RelBinding; rq_where : option Expr; rq_not_exists : option RelNotExists;
  rq_group_by : list Expr
}.
Record RelDerivedDecl : Type := mkRelDerived { rd_name : string; rd_query : RelQuery }.

Inductive Item : Type :=
  | IUse (package : string)
  | IConfig (c : ConfigDecl)
  | IRegime (r : RegimeDecl)
  | IRule (c : Callable)
  | ILet (l : LetDecl)
  | IFn (c : Callable)
  | IShow (e : Expr)
  | IWitness (name : string) (value : Expr)
  | IPropose (p : ProposeDecl)
  | ICommit (c : CommitDecl)
  | IInput (i : InputDecl)
  | IDecide (d : DecideDecl)
  | IExport (i : Item)
  | IRelInput (r : RelInputDecl)
  | IRelDerived (r : RelDerivedDecl)
  | INewtype (n : NewtypeDecl)
  | ITypeDef (t : TypeDefDecl)
  | IAssume (name : string).
(** [Module]. *)
Record SyntaxModule : Type := mkSyntaxModule { m_items : list Item }.

(** * Induction on expressions *)

(** Types occur in expressions under [validate] and ascription only; what is proved of
    expressions here says nothing of them. *)
Section expr_induction.
Context (P : Expr → Prop).
Context (Hnum : ∀ s, P (XNum s)) (Hstr : ∀ s, P (XStr s)) (Hbool : ∀ b, P (XBool b)) (Hvar : ∀ name, P (XVar name)).
Context (Hrecord : ∀ config fields, Forall (λ f, P f.2) fields → P (XRecord config fields)).
Context (Hfield : ∀ base field, P base → P (XField base field)).
Context (Hcall : ∀ func args, Forall (λ a, P a ∧ match a with XLambda _ body => P body | _ => True end) args → P (XCall func args)).
Context (Hbin : ∀ op lhs rhs, P lhs → P rhs → P (XBin op lhs rhs)).
Context (Hmatch : ∀ scrutinee arms b, P scrutinee → Forall (λ a, P a.2) arms → P (XMatch scrutinee arms b)).
Context (Hprove : ∀ e, P e → P (XProve e)) (Hwhy : ∀ e, P e → P (XWhy e)) (Haudit : ∀ e, P e → P (XAudit e)) (Hnot : ∀ e, P e → P (XNot e)).
Context (Hlambda : ∀ param body, P body → P (XLambda param body)).
Context (Hlist : ∀ items, Forall P items → P (XListLit items)).
Context (Hcomp : ∀ gens w y, Forall (λ g, P g.2) gens → (∀ e, w = Some e → P e) → P y → P (XComprehension gens w y)).
Context (Hanon : ∀ fields, P (XAnonRecord fields)) (Hvalidate : ∀ ty arg, P arg → P (XValidate ty arg)) (Hascribe : ∀ e ty, P e → P (XAscribe e ty)).

Fixpoint expr_induction (e : Expr) : P e.
Proof.
  destruct e as [s|s|b|name|config fields|base field|func args|op lhs rhs|scrutinee arms b|e|e|e|e|param body|items|gens w y|fields|ty arg|e ty].
  - apply Hnum.
  - apply Hstr.
  - apply Hbool.
  - apply Hvar.
  - apply Hrecord. induction fields as [|f fields IH]; constructor; [apply expr_induction|exact IH].
  - apply Hfield, expr_induction.
  - apply Hcall. induction args as [|a args IH]; constructor; [|exact IH]. split; [apply expr_induction|]. destruct a; try exact I. apply expr_induction.
  - apply Hbin; apply expr_induction.
  - apply Hmatch; [apply expr_induction|]. induction arms as [|a arms IH]; constructor; [apply expr_induction|exact IH].
  - apply Hprove, expr_induction.
  - apply Hwhy, expr_induction.
  - apply Haudit, expr_induction.
  - apply Hnot, expr_induction.
  - apply Hlambda, expr_induction.
  - apply Hlist. induction items as [|e items IH]; constructor; [apply expr_induction|exact IH].
  - apply Hcomp; [|intros e' He'; destruct w as [e''|]; [injection He' as <-; apply expr_induction|discriminate He']|apply expr_induction].
    induction gens as [|g gens IH]; constructor; [apply expr_induction|exact IH].
  - apply Hanon.
  - apply Hvalidate, expr_induction.
  - apply Hascribe, expr_induction.
Defined.
End expr_induction.
