(* ===== verification/L3Lower.v ===== *)
(** Lowering of a module to a plan (src/crates/brix-lower/src/l3_v2.rs, Stage A), and the check that
    matches are exhaustive (Stage B).

    Sub-expressions are lowered before they are put together: [lower_expr_v2_impl] gives, for an
    expression, the function of the names in scope, so that every form passes the scope on as the
    code does. The texts of the derived [Debug] of types are the class [DebugTy]. *)
From S2P Require Import Prelude Text IntCodec Canon CanonLaws Encoding Decimal DecimalMath Values FloatMath L3Value Evidence L3Eval L3Laws Syntax.

Class DebugTy := { debug_ty : Ty → string }.

(** * Plans *)

Inductive L3ConfigBodyV2 : Type :=
  | LSum (variants : list (string * nat))
  | LRecord (fields : list string).
Record L3ConfigDeclV2 : Type := mkL3Config { lc_name : string; lc_body : L3ConfigBodyV2 }.

Definition L3_PROFILE_MARKER_V2 : string := "brix.l3.rule-agenda-derived@2".
Definition L3_PLAN_FORMAT_V2 : Z := 2.

Inductive L3PlanItemV2 : Type :=
  | LConfig (c : L3ConfigDeclV2)
  | LLet (name : string) (value : L3ExprV2)
  | LRule (name : string) (body : L3ExprV2) (depends_on : list string).
Record L3PlanV2 : Type := mkPlan { plan_profile : string; plan_format : Z; plan_items : list L3PlanItemV2 }.

Inductive L3V2LowerError : Type :=
  | ProfileMismatch (expected found : string)
  | ItemNotAllowed (item : string)
  | UndeclaredDependency (rule param : string)
  | UndeclaredFactRead (rule fact : string)
  | ForwardOrSelfDependency (rule depends_on : string)
  | UnresolvedReference (name : string)
  | NonExhaustiveMatch (sum : string) (missing : list string)
  | DefaultArmNotAllowed
  | WildcardArmNotLast
  | UnreachableWildcardArm (sum : string)
  | AscriptionMismatch (expected found : string)
  | NestedPatternNotAllowed
  | DivisionNotAllowed
  | FloatLiteralNotAllowed (lit : string)
  | LIntegerOverflow (lit : string)
  | Unsupported (feature : string)
  | FunctionArityMismatch (func : string) (expected found : nat)
  | DuplicateMatchBinder (name : string)
  | ListFormShape (form detail : string)
  | AmbiguousConstructor (name : string) (alternatives : list string)
  | LambdaNotAllowed
  | ProtectedAuthorityType (name : string).

Abbreviation Lower := (result L3V2LowerError).

(** * Literals and types *)

(** [s.parse::<i64>()]. *)
Definition parse_i64 (s : string) : option Z :=
  let '(neg, ds) := split_sign (bytes_of_string s) in
  v ← digits_value ds; checked i64_ok (if neg then - v else v)%Z.
Definition parses_as_f64 (s : string) : bool := bool_decide (is_Some (f64_from_str (bytes_of_string s))).
Definition lower_num (s : string) : Lower L3ExprV2 :=
  match parse_i64 s with
  | Some n => Ok (EInt n)
  | None => if parses_as_f64 s then Err (FloatLiteralNotAllowed s) else Err (LIntegerOverflow s)
  end.

(** [l.join(sep)]. *)
Fixpoint join (sep : string) (l : list string) : string :=
  match l with [] => "" | [s] => s | s :: l' => s +:+ sep +:+ join sep l' end.

Section types.
Context `{DebugTy}.

Fixpoint ast_ty_to_schema_type (ty : Ty) : Lower L3SchemaType :=
  match ty with
  | TNamed name =>
    Ok (if decide (name = "Int") then SInt else if decide (name = "Bool") then SBool else if decide (name = "Str") then SStr
        else if decide (name = "F64") then SF64 else if decide (name = "Decimal") then SDecimal else SNamed name)
  | TApp name args =>
    let resolved := List.map ast_ty_to_schema_type args in
    if decide (name = "List") then
      match resolved with
      | [r] => inner ← r; Ok (SList inner)
      | _ => Err (AscriptionMismatch "List requires 1 type argument" ("List with " +:+ pretty (length args) +:+ " arguments"))
      end
    else
      resolved_args ← mapM id resolved;
      Ok (SNamed (name +:+ "<" +:+ join ", " (display_name <$> resolved_args) +:+ ">"))
  | other => Err (AscriptionMismatch "a named or generic type" (debug_ty other))
  end.

(** The type a list element shows by its form. *)
Definition literal_type (item : L3ExprV2) : option L3SchemaType :=
  match item with
  | EInt _ => Some SInt
  | EStr _ => Some SStr
  | EBool _ => Some SBool
  | ENumericBuiltin BDecimal _ => Some SDecimal
  | ENumericBuiltin BF64 _ => Some SF64
  | ENullaryVariant nominal_sum _ | ECtor nominal_sum _ _ => Some (SNamed nominal_sum)
  | ERecord nominal_config _ => Some (SNamed nominal_config)
  | _ => None
  end.
Fixpoint schema_eqb (a b : L3SchemaType) : bool :=
  match a, b with
  | SInt, SInt | SBool, SBool | SStr, SStr | SF64, SF64 | SDecimal, SDecimal => true
  | SNamed x, SNamed y => bool_decide (x = y)
  | SList x, SList y => schema_eqb x y
  | _, _ => false
  end.
Definition element_matches (found element : L3SchemaType) : bool :=
  match found, element with
  | SNamed a, SNamed b => nominal_matches a b
  | a, b => schema_eqb a b
  end.

Definition list_of (t : string) : string := "List<" +:+ t +:+ ">".
Definition mismatch {A} (element : L3SchemaType) (found : string) : Lower A := Err (AscriptionMismatch (list_of (display_name element)) found).
Fixpoint check_elements (items : list L3ExprV2) (element : L3SchemaType) : Lower () :=
  match items with
  | [] => Ok ()
  | item :: items' =>
    match literal_type item with
    | Some found => if element_matches found element then check_elements items' element else mismatch element (list_of (display_name found))
    | None => check_elements items' element
    end
  end.
(** Whether the annotation is redundant. *)
Definition check_list_ascription (inner : L3ExprV2) (element : L3SchemaType) : Lower bool :=
  match inner with
  | EListLit items => if decide (items = []) then Ok true else _ ← check_elements items element; Ok false
  | EInt _ => mismatch element "Int"
  | EStr _ => mismatch element "Str"
  | EBool _ => mismatch element "Bool"
  | EArith _ _ _ | EIntDivMod _ _ _ | ECmp _ _ _ | EAnd _ _ | EOr _ _ | ENot _ | ELen _ | EIn _ _ | EFold _ _ _ _ | ENumericBuiltin _ _ =>
    mismatch element "a non-list value"
  | ENullaryVariant nominal_sum _ | ECtor nominal_sum _ _ => mismatch element nominal_sum
  | ERecord nominal_config _ => mismatch element nominal_config
  | _ => Ok false
  end.
End types.

(** [parse_schema_type_from_str], which recurs into what ["List<"] and [">"] enclose. *)
Fixpoint parse_schema_type_fuel (fuel : nat) (s : string) : L3SchemaType :=
  let s := trim s in
  if decide (s = "Int") then SInt else if decide (s = "Bool") then SBool else if decide (s = "Str") then SStr
  else if decide (s = "F64") then SF64 else if decide (s = "Decimal") then SDecimal else
  match fuel, (r ← strip_prefix "List<" s; strip_suffix ">" r) with
  | S fuel', Some inner => SList (parse_schema_type_fuel fuel' inner)
  | _, _ => SNamed s
  end.
Definition parse_schema_type_from_str (s : string) : L3SchemaType := parse_schema_type_fuel (String.length s) s.

(** * Expressions *)

Definition simple_name (name : string) : string := last_segment "::" name.
Definition is_protected_outcome (func : string) : bool :=
  is_protected_authority_type func || bool_decide (func ∈ ["Satisfied"; "Violated"; "Unknown"]%string) ||
  existsb (λ v, bool_decide (is_Some (strip_suffix ("::" +:+ v) func))) ["Satisfied"; "Violated"; "Unknown"]%string.

(** [form(list, binder => body)]: the form's arguments, or why they are not. *)
Definition expect_list_form {A} (form : string) (args : list Expr) (k : Expr → string → Expr → Lower A) : Lower A :=
  match args with
  | [list_expr; XLambda param body] => k list_expr param body
  | [_; _] => Err (ListFormShape form "expected a binder of the form `x => expr` as the second argument")
  | _ => Err (FunctionArityMismatch form 2 (length args))
  end.
Definition expect_arity (func : string) (expected found : nat) : Lower () :=
  if decide (found = expected) then Ok () else Err (FunctionArityMismatch func expected found).

Section lowering.
Context `{DebugTy}.
(** What is visible beside the locals. *)
Context (lets rules : gset string) (nullary variants_of : gmap string string) (functions : gmap string nat) (in_rule helper_enabled : bool)
  (ambiguous_ctors : gmap string (list string)).

Definition nullary_variant (name nominal : string) : Lower L3ExprV2 :=
  if is_protected_authority_type nominal || is_protected_authority_type name then Err (ProtectedAuthorityType name)
  else Ok (ENullaryVariant nominal (simple_name name)).
Definition lower_fact (name : string) : Lower L3ExprV2 :=
  if decide (name ∈ rules) then (if in_rule then Ok (ERuleFact name) else Err (UnresolvedReference name)) else Err (UnresolvedReference name).
Definition lower_var (name : string) (locals : gset string) : Lower L3ExprV2 :=
  if helper_enabled && bool_decide (name ∈ locals) then Ok (ELetRef name) else
  match ambiguous_ctors !! name with
  | Some alts => Err (AmbiguousConstructor name alts)
  | None =>
    match nullary !! name with
    | Some nominal => nullary_variant name nominal
    | None =>
      if (negb helper_enabled && bool_decide (name ∈ locals)) || bool_decide (name ∈ lets) then Ok (ELetRef name) else lower_fact name
    end
  end.

(** A constructor pattern's binders. *)
Fixpoint lower_binders (args : list Pattern) (seen : gset string) : Lower (list (option string)) :=
  match args with
  | [] => Ok []
  | AWildcard :: args' => out ← lower_binders args' seen; Ok (None :: out)
  | AVar x :: args' =>
    if helper_enabled && bool_decide (x ∈ seen) then Err (DuplicateMatchBinder x)
    else out ← lower_binders args' ({[x]} ∪ seen); Ok (Some x :: out)
  | ACtor _ _ :: _ => Err NestedPatternNotAllowed
  end.
Definition lower_pattern (is_last : bool) (p : Pattern) : Lower L3PatternV2 :=
  match p with
  | ACtor name args =>
    match ambiguous_ctors !! name with
    | Some alts => Err (AmbiguousConstructor name alts)
    | None =>
      binders ← lower_binders args ∅;
      let nominal :=
        if decide (name = "true" ∨ name = "false") then Some "Bool"%string
        else match nullary !! name with Some n => Some n | None => variants_of !! name end in
      variant ← (if contains "::" name
                 then nom ← ok_or nominal (UnresolvedReference name); Ok (nom +:+ "::" +:+ simple_name name)
                 else Ok (simple_name name));
      Ok (PCtor nominal variant binders)
    end
  | AWildcard => if is_last then Ok PWildcard else Err WildcardArmNotLast
  | AVar _ => Err DefaultArmNotAllowed
  end.
Definition pattern_binders (p : L3PatternV2) : list string := match p with PCtor _ _ binders => omap id binders | PWildcard => [] end.

(** A sub-expression, lowered under the names in scope. *)
Abbreviation Lowered := (gset string → Lower L3ExprV2).

Fixpoint lower_arms (arms : list (Pattern * Lowered)) (locals : gset string) : Lower (list (L3PatternV2 * L3ExprV2)) :=
  match arms with
  | [] => Ok []
  | (pattern, body) :: arms' =>
    pat ← lower_pattern (bool_decide (arms' = [])) pattern;
    b ← body (list_to_set (pattern_binders pat) ∪ locals);
    out ← lower_arms arms' locals; Ok ((pat, b) :: out)
  end.
(** The generators, and the names in scope after them. *)
Fixpoint lower_generators (gens : list (string * Lowered)) (locals : gset string) : Lower (list (string * L3ExprV2) * gset string) :=
  match gens with
  | [] => Ok ([], locals)
  | (binder, source) :: gens' =>
    s ← source locals;
    '(out, gen_locals) ← lower_generators gens' ({[binder]} ∪ locals); Ok ((binder, s) :: out, gen_locals)
  end.
Fixpoint lower_fields (fields : list (string * Lowered)) (locals : gset string) : Lower (list (string * L3ExprV2)) :=
  match fields with
  | [] => Ok []
  | (name, value) :: fields' => v ← value locals; out ← lower_fields fields' locals; Ok ((name, v) :: out)
  end.
Definition lower_all (l : list Lowered) (locals : gset string) : Lower (list L3ExprV2) := mapM (λ f, f locals) l.

Definition lower_bin (op : BinOp) (l r : L3ExprV2) : Lower L3ExprV2 :=
  match op with
  | OpAdd => Ok (EArith Add l r) | OpSub => Ok (EArith Sub l r) | OpMul => Ok (EArith Mul l r)
  | OpDiv => match l, r with EInt _, EInt _ => Err DivisionNotAllowed | _, _ => Ok (EArith Div l r) end
  | OpLt => Ok (ECmp CLt l r) | OpLe => Ok (ECmp CLe l r) | OpGt => Ok (ECmp CGt l r) | OpGe => Ok (ECmp CGe l r)
  | OpEq => Ok (ECmp CEq l r) | OpNe => Ok (ECmp CNe l r)
  | OpAndAnd => Ok (EAnd l r) | OpOrOr => Ok (EOr l r) | OpIn => Ok (EIn l r)
  | OpThen | OpAnd => Err (Unsupported "witness composition has no executable meaning in v2")
  end.

(** A call whose callee is no builtin: a constructor, or a helper. *)
Definition lower_call (func : string) (args : list Lowered) (locals : gset string) : Lower L3ExprV2 :=
  match ambiguous_ctors !! func with
  | Some alts => Err (AmbiguousConstructor func alts)
  | None =>
    if is_protected_outcome func then Err (ProtectedAuthorityType func) else
    match variants_of !! func with
    | Some nominal =>
      if is_protected_authority_type nominal then Err (ProtectedAuthorityType func) else
      out ← lower_all args locals; Ok (ECtor nominal (simple_name func) out)
    | None =>
      match functions !! func with
      | Some expected => _ ← expect_arity func expected (length args); out ← lower_all args locals; Ok (ECall func out)
      | None => Err (UnresolvedReference func)
      end
    end
  end.

Definition validate_target (ty : Ty) : Lower string :=
  match ty with
  | TNamed target_name | TApp target_name _ =>
    let unqualified := last_segment "::" target_name in
    if decide (unqualified ≠ "DocumentedStep" ∧ unqualified ≠ "RuntimeOutcome")
    then Err (Unsupported ("validate<" +:+ target_name +:+ ">: only DocumentedStep and RuntimeOutcome are admitted"))
    else Ok unqualified
  | other => Err (Unsupported ("validate<" +:+ debug_ty other +:+ ">"))
  end.
Definition ascribed_element (ty : Ty) : Lower L3SchemaType :=
  match ty with
  | TApp name [element] => if decide (name = "List") then ast_ty_to_schema_type element else Err (AscriptionMismatch "List<T>" (debug_ty ty))
  | other => Err (AscriptionMismatch "List<T>" (debug_ty other))
  end.

Fixpoint lower_expr_v2_impl (e : Expr) (locals : gset string) {struct e} : Lower L3ExprV2 :=
  match e with
  | XNum s => lower_num s
  | XStr s => Ok (EStr s)
  | XBool b => Ok (EBool b)
  | XVar name => lower_var name locals
  | XField base field => b ← lower_expr_v2_impl base locals; Ok (EField b field)
  | XRecord config fields =>
    if is_protected_authority_type config then Err (ProtectedAuthorityType config) else
    out ← lower_fields (List.map (λ f, (f.1, lower_expr_v2_impl f.2)) fields) locals;
    Ok (ERecord config (sort_by (cmp_on fst) out))
  | XCall func args =>
    match builtin_from_name func with
    | Some op =>
      _ ← expect_arity func (arity op) (length args);
      out ← lower_all (List.map lower_expr_v2_impl args) locals; Ok (ENumericBuiltin op out)
    | None =>
    match fold_from_name func with
    | Some op =>
      expect_list_form (fold_name op) args (λ list_expr binder body_expr,
        list ← lower_expr_v2_impl list_expr locals; body ← lower_expr_v2_impl body_expr ({[binder]} ∪ locals); Ok (EFold op list binder body))
    | None =>
    if decide (func = "filter") then
      expect_list_form "filter" args (λ list_expr binder body_expr,
        list ← lower_expr_v2_impl list_expr locals; body ← lower_expr_v2_impl body_expr ({[binder]} ∪ locals); Ok (EFilter list binder body))
    else if decide (func = "map") then
      expect_list_form "map" args (λ list_expr binder body_expr,
        list ← lower_expr_v2_impl list_expr locals; body ← lower_expr_v2_impl body_expr ({[binder]} ∪ locals); Ok (EMap list binder body))
    else if decide (func ∈ ["len"; "distinct"; "only"]%string) then
      match List.map lower_expr_v2_impl args with
      | [arg] =>
        inner ← arg locals;
        Ok (if decide (func = "len") then ELen inner else if decide (func = "distinct") then EDistinct inner else EOnly inner)
      | _ => Err (FunctionArityMismatch func 1 (length args))
      end
    else
    match div_mod_from_name func with
    | Some op =>
      match List.map lower_expr_v2_impl args with
      | [lhs; rhs] => l ← lhs locals; r ← rhs locals; Ok (EIntDivMod op l r)
      | _ => Err (FunctionArityMismatch func 2 (length args))
      end
    | None => lower_call func (List.map lower_expr_v2_impl args) locals
    end end end
  | XBin op lhs rhs => l ← lower_expr_v2_impl lhs locals; r ← lower_expr_v2_impl rhs locals; lower_bin op l r
  | XMatch scrutinee arms _ =>
    s ← lower_expr_v2_impl scrutinee locals;
    out ← lower_arms (List.map (λ a, (a.1, lower_expr_v2_impl a.2)) arms) locals; Ok (EMatch s out)
  | XNot inner => x ← lower_expr_v2_impl inner locals; Ok (ENot x)
  | XProve _ => Err (Unsupported "prove")
  | XWhy _ => Err (Unsupported "why")
  | XAudit _ => Err (Unsupported "audit")
  | XLambda _ _ => Err LambdaNotAllowed
  | XListLit items => out ← lower_all (List.map lower_expr_v2_impl items) locals; Ok (EListLit out)
  | XComprehension generators where_clause yield_expr =>
    '(gens, gen_locals) ← lower_generators (List.map (λ g, (g.1, lower_expr_v2_impl g.2)) generators) locals;
    w ← match where_clause with Some w => x ← lower_expr_v2_impl w gen_locals; Ok (Some x) | None => Ok None end;
    y ← lower_expr_v2_impl yield_expr gen_locals; Ok (EComprehension gens w y)
  | XAnonRecord _ => Err (Unsupported "anonymous record")
  | XValidate ty arg => target ← validate_target ty; a ← lower_expr_v2_impl arg locals; Ok (EValidate target a)
  | XAscribe expr ty =>
    element_schema ← ascribed_element ty;
    inner ← lower_expr_v2_impl expr locals;
    is_redundant ← check_list_ascription inner element_schema;
    Ok (if is_redundant : bool then inner else EAscribe inner element_schema)
  end.
End lowering.

(** * Modules *)

(** Pass 0: what is not admitted, by name. *)
Definition item_name (i : Item) : option string :=
  match i with
  | IConfig _ | ILet _ | IRule _ => None
  | IFn c => Some ("fn " +:+ k_name c)
  | IRegime r => Some ("regime " +:+ rg_name r)
  | IShow _ => Some "show"%string
  | IUse path => Some ("use " +:+ path)
  | IWitness name _ => Some ("witness " +:+ name)
  | IPropose p => Some ("propose " +:+ pr_name p)
  | ICommit c => Some ("commit " +:+ cm_name c)
  | IInput i => Some ("input " +:+ in_name i)
  | IDecide d => Some ("decide " +:+ d_name d)
  | IExport _ => Some "export"%string
  | IRelInput r => Some ("rel input " +:+ ri_name r)
  | IRelDerived r => Some ("rel derived " +:+ rd_name r)
  | INewtype n => Some ("newtype " +:+ nt_name n)
  | ITypeDef t => Some ("type " +:+ td_name t)
  | IAssume name => Some ("assume " +:+ name)
  end.
Fixpoint admit_items (items : list Item) : Lower () :=
  match items with
  | [] => Ok ()
  | i :: items' => match item_name i with Some name => Err (ItemNotAllowed name) | None => admit_items items' end
  end.

(** The names declared so far, and the items lowered. *)
Record LowerState : Type := mkLower {
  s_lets : gset string;
  s_rules : gset string;
  s_variants_of : gmap string string;
  s_nullary : gmap string string;
  s_items : list L3PlanItemV2
}.

Fixpoint declare_variants (config : string) (variants : list Variant) (variants_of nullary : gmap string string) : Lower (gmap string string * gmap string string) :=
  match variants with
  | [] => Ok (variants_of, nullary)
  | v :: variants' =>
    match builtin_from_name (v_name v) with
    | Some _ => Err (Unsupported ("constructor '" +:+ v_name v +:+ "' shadows a reserved numeric builtin"))
    | None =>
      declare_variants config variants' (<[v_name v := config]> variants_of)
        (if decide (v_params v = []) then <[v_name v := config]> nullary else nullary)
    end
  end.
Definition lower_config_body (body : ConfigBody) : L3ConfigBodyV2 :=
  match body with
  | CSum variants => LSum ((λ v, (v_name v, length (v_params v))) <$> variants)
  | CRecord fields => LRecord fields.*1
  end.

Fixpoint lower_params (rule : string) (ps : list Param) (rules_so_far : gset string) (depends_on : list string) : Lower (list string) :=
  match ps with
  | [] => Ok depends_on
  | param :: ps' =>
    if decide (p_name param = rule) then Err (ForwardOrSelfDependency rule (p_name param)) else
    if decide (p_name param ∉ rules_so_far) then Err (UndeclaredDependency rule (p_name param)) else
    lower_params rule ps' rules_so_far (if decide (p_name param ∈ depends_on) then depends_on else depends_on ++ [p_name param])
  end.

Section modules.
Context `{DebugTy}.

Definition lower_item (s : LowerState) (i : Item) : Lower LowerState :=
  match i with
  | IConfig c =>
    '(variants_of, nullary) ← match cfg_body c with
      | CSum variants => declare_variants (cfg_name c) variants (s_variants_of s) (s_nullary s)
      | CRecord _ => Ok (s_variants_of s, s_nullary s)
      end;
    Ok (mkLower (s_lets s) (s_rules s) variants_of nullary (s_items s ++ [LConfig (mkL3Config (cfg_name c) (lower_config_body (cfg_body c)))]))
  | ILet l =>
    value ← lower_expr_v2_impl (s_lets s) (s_rules s) (s_nullary s) (s_variants_of s) ∅ false false ∅ (let_value l) ∅;
    Ok (mkLower ({[let_name l]} ∪ s_lets s) (s_rules s) (s_variants_of s) (s_nullary s) (s_items s ++ [LLet (let_name l) value]))
  | IRule r =>
    depends_on ← lower_params (k_name r) (k_params r) (s_rules s) [];
    body ← map_err (λ e, match e with
        | UnresolvedReference n => if decide (n ∈ s_rules s) then UndeclaredFactRead (k_name r) n else e
        | _ => e
        end)
      (lower_expr_v2_impl (s_lets s) (list_to_set depends_on) (s_nullary s) (s_variants_of s) ∅ true false ∅ (k_body r) ∅);
    Ok (mkLower (s_lets s) ({[k_name r]} ∪ s_rules s) (s_variants_of s) (s_nullary s) (s_items s ++ [LRule (k_name r) body depends_on]))
  | _ => Ok s (* not admitted by pass 0 *)
  end.
Fixpoint lower_items (items : list Item) (s : LowerState) : Lower LowerState :=
  match items with [] => Ok s | i :: items' => s' ← lower_item s i; lower_items items' s' end.

Definition lower_l3_plan_v2 (m : SyntaxModule) (profile : string) : Lower L3PlanV2 :=
  if decide (profile ≠ L3_PROFILE_MARKER_V2) then Err (ProfileMismatch L3_PROFILE_MARKER_V2 profile) else
  _ ← admit_items (m_items m);
  s ← lower_items (m_items m) (mkLower ∅ ∅ ∅ ∅ []);
  Ok (mkPlan profile L3_PLAN_FORMAT_V2 (s_items s)).
End modules.

(** * Exhaustiveness *)

Definition bare_variant (variant : string) : string := last_segment "::" variant.
Definition covered (arms : list (L3PatternV2 * L3ExprV2)) : gset string :=
  list_to_set (omap (λ a, match a.1 with PCtor _ variant _ => Some (bare_variant variant) | PWildcard => None end) arms).
Definition has_wildcard (arms : list (L3PatternV2 * L3ExprV2)) : bool := existsb (λ a, match a.1 with PWildcard => true | _ => false end) arms.

Section exhaustive.
Context (sum_of_variant : gmap string string) (variants_of_sum : gmap string (list string)).

(** A match whose sub-expressions have been checked. *)
Definition check_arms (arms : list (L3PatternV2 * L3ExprV2)) : Lower () :=
  match arms with
  | [] => Err (NonExhaustiveMatch "<empty match>" [])
  | (PWildcard, _) :: _ => Ok ()
  | (PCtor _ variant _, _) :: _ =>
    match sum_of_variant !! variant with
    | None => Ok ()
    | Some sum =>
      match variants_of_sum !! sum with
      | None => Ok ()
      | Some all =>
        let missing := filter (λ v, v ∉ covered arms) all in
        if has_wildcard arms then (if decide (missing = []) then Err (UnreachableWildcardArm sum) else Ok ())
        else if decide (missing = []) then Ok () else Err (NonExhaustiveMatch sum missing)
      end
    end
  end.

Fixpoint check_exhaustive_expr (e : L3ExprV2) : Lower () :=
  let all l := fold_left (λ acc r, _ ← acc; r) (List.map check_exhaustive_expr l) (Ok ()) in
  match e with
  | EMatch scrutinee arms =>
    _ ← check_exhaustive_expr scrutinee;
    _ ← fold_left (λ acc r, _ ← acc; r) (List.map (λ a, check_exhaustive_expr a.2) arms) (Ok ());
    check_arms arms
  | ECtor _ _ args | ECall _ args | ENumericBuiltin _ args | EListLit args => all args
  | ERecord _ fields => fold_left (λ acc r, _ ← acc; r) (List.map (λ f, check_exhaustive_expr f.2) fields) (Ok ())
  | EField b _ | ENot b | ELen b | EDistinct b | EOnly b | EAscribe b _ | EValidate _ b => check_exhaustive_expr b
  | EArith _ a b | ECmp _ a b | EIntDivMod _ a b | EAnd a b | EOr a b | EIn a b | EFold _ a _ b | EFilter a _ b | EMap a _ b =>
    _ ← check_exhaustive_expr a; check_exhaustive_expr b
  | EComprehension gens where_clause yield_expr =>
    _ ← fold_left (λ acc r, _ ← acc; r) (List.map (λ g, check_exhaustive_expr g.2) gens) (Ok ());
    _ ← match where_clause with Some w => check_exhaustive_expr w | None => Ok () end;
    check_exhaustive_expr yield_expr
  | EInt _ | EStr _ | EBool _ | ELetRef _ | ERuleFact _ | ENullaryVariant _ _ => Ok ()
  end.
End exhaustive.

(** The variants of each sum, and the sum each variant names: the last declared. *)
Definition variant_tables (items : list L3PlanItemV2) : gmap string string * gmap string (list string) :=
  let add '(sum_of_variant, variants_of_sum) item := match item with
    | LConfig (mkL3Config name (LSum variants)) =>
      (fold_left (λ m v, <[v.1 := name]> m) variants sum_of_variant, <[name := variants.*1]> variants_of_sum)
    | _ => (sum_of_variant, variants_of_sum)
    end in
  let '(sum_of_variant, variants_of_sum) := fold_left add items (∅, ∅) in
  (<["false" := "Bool"]> (<["true" := "Bool"]> sum_of_variant), <["Bool" := ["false"; "true"]]> variants_of_sum)%string.
Definition item_body (i : L3PlanItemV2) : option L3ExprV2 :=
  match i with LLet _ value => Some value | LRule _ body _ => Some body | LConfig _ => None end.
Definition check_exhaustive (p : L3PlanV2) : Lower () :=
  let '(sum_of_variant, variants_of_sum) := variant_tables (plan_items p) in
  fold_left (λ acc body, _ ← acc; check_exhaustive_expr sum_of_variant variants_of_sum body) (omap item_body (plan_items p)) (Ok ()).

(** * What lowering produces *)

Section scoping.
Context (lets rules functions : gset string).

(** Literals are in range, names are bound: a reference is to a [let] or a local of its scope, a
    fact to a rule, a call to a helper. *)
Fixpoint scoped (locals : gset string) (e : L3ExprV2) {struct e} : bool :=
  match e with
  | EInt n => bool_decide (i64_ok n)
  | ELetRef name => bool_decide (name ∈ locals) || bool_decide (name ∈ lets)
  | ERuleFact rule => bool_decide (rule ∈ rules)
  | ECall func args => bool_decide (func ∈ functions) && forallb (scoped locals) args
  | EStr _ | EBool _ | ENullaryVariant _ _ => true
  | ECtor _ _ args | ENumericBuiltin _ args | EListLit args => forallb (scoped locals) args
  | ERecord _ fields => forallb (λ f, scoped locals f.2) fields
  | EField a _ | ENot a | EValidate _ a | ELen a | EDistinct a | EOnly a | EAscribe a _ => scoped locals a
  | EArith _ a b | ECmp _ a b | EIntDivMod _ a b | EAnd a b | EOr a b | EIn a b => scoped locals a && scoped locals b
  | EFold _ list binder body | EFilter list binder body | EMap list binder body => scoped locals list && scoped ({[binder]} ∪ locals) body
  | EMatch scrutinee arms =>
    scoped locals scrutinee && forallb (λ a, scoped (list_to_set (pattern_binders a.1) ∪ locals) a.2) arms
  | EComprehension gens where_clause yield_expr =>
    (fix go (gens : list (string * L3ExprV2)) (locals : gset string) : bool :=
      match gens with
      | [] => match where_clause with Some w => scoped locals w | None => true end && scoped locals yield_expr
      | (binder, source) :: gens' => scoped locals source && go gens' ({[binder]} ∪ locals)
      end) gens locals
  end.
End scoping.

Lemma lower_num_scoped lets rules functions locals s e : lower_num s = Ok e → scoped lets rules functions locals e = true.
Proof.
  unfold lower_num. destruct (parse_i64 s) as [n|] eqn:E; [|by destruct (parses_as_f64 s)]. intros [= <-]. cbn. apply bool_decide_eq_true.
  unfold parse_i64 in E. destruct (split_sign _) as [neg ds]. apply bind_Some in E as (v & _ & [-> Hv]%checked_Some). done.
Qed.

Section lowered.
Context `{DebugTy}.
Context (lets rules : gset string) (nullary variants_of : gmap string string) (functions : gmap string nat) (in_rule helper_enabled : bool)
  (ambiguous_ctors : gmap string (list string)).
Abbreviation lower := (lower_expr_v2_impl lets rules nullary variants_of functions in_rule helper_enabled ambiguous_ctors).
Abbreviation ok := (scoped lets (if in_rule then rules else ∅) (dom functions)).

(** A sub-expression that lowers to scoped expressions only. *)
Definition lowers (f : gset string → Lower L3ExprV2) : Prop := ∀ locals e, f locals = Ok e → ok locals e = true.

Lemma lower_all_scoped l locals out : Forall lowers l → lower_all l locals = Ok out → forallb (ok locals) out = true.
Proof.
  intros Hl. revert out. induction Hl as [|f l Hf Hl IH]; intros out; cbn; [by intros [= <-]|].
  intros (e & He & Hout)%result_bind_Ok. apply result_bind_Ok in Hout as (es & Hes & [= <-]). cbn. by rewrite (Hf _ _ He), (IH _ Hes).
Qed.
Lemma lower_fields_scoped fields locals out : Forall (λ f, lowers f.2) fields → lower_fields fields locals = Ok out → forallb (λ f, ok locals f.2) out = true.
Proof.
  intros Hl. revert out. induction Hl as [|[name f] l Hf Hl IH]; intros out; cbn; [by intros [= <-]|].
  intros (e & He & Hout)%result_bind_Ok. apply result_bind_Ok in Hout as (es & Hes & [= <-]). cbn. by rewrite (Hf _ _ He), (IH _ Hes).
Qed.
Lemma lower_arms_scoped arms locals out : Forall (λ a, lowers a.2) arms → lower_arms nullary variants_of helper_enabled ambiguous_ctors arms locals = Ok out →
  forallb (λ a, ok (list_to_set (pattern_binders a.1) ∪ locals) a.2) out = true.
Proof.
  intros Hl. revert out. induction Hl as [|[p f] l Hf Hl IH]; intros out; cbn; [by intros [= <-]|].
  intros (pat & _ & Hout)%result_bind_Ok. apply result_bind_Ok in Hout as (e & He & Hout). apply result_bind_Ok in Hout as (es & Hes & [= <-]). cbn.
  by rewrite (Hf _ _ He), (IH _ Hes).
Qed.
(** The names in scope after generators. *)
Lemma lower_generators_scoped gens locals out locals' w y : Forall (λ g, lowers g.2) gens → lower_generators gens locals = Ok (out, locals') →
  match w with Some w => ok locals' w | None => true end && ok locals' y = true → ok locals (EComprehension out w y) = true.
Proof.
  intros Hl. revert locals out. induction Hl as [|[binder f] l Hf Hl IH]; intros locals out; cbn; [by intros [= <- <-]|].
  intros (e & He & Hout)%result_bind_Ok Hwy. apply result_bind_Ok in Hout as ([es l'] & Hes & [= <- <-]). cbn. rewrite (Hf _ _ He). by apply (IH _ _ Hes).
Qed.
Lemma forallb_perm {A} (f : A → bool) l l' : l ≡ₚ l' → forallb f l = forallb f l'.
Proof. induction 1; cbn; [done|by f_equal|by rewrite !andb_assoc, (andb_comm (f y))|congruence]. Qed.
Lemma lower_var_scoped name locals e : lower_var lets rules nullary in_rule helper_enabled ambiguous_ctors name locals = Ok e → ok locals e = true.
Proof.
  unfold lower_var, nullary_variant, lower_fact. destruct (helper_enabled && _) eqn:E1; [intros [= <-]|].
  { apply andb_prop in E1 as [_ E1]. cbn. by rewrite E1. }
  destruct (ambiguous_ctors !! name); [done|]. destruct (nullary !! name); [by destruct (_ || _); [|intros [= <-]]|].
  destruct (_ || _) eqn:E2; [intros [= <-]|].
  { cbn. apply orb_prop in E2 as [E2|E2]; [apply andb_prop in E2 as [_ E2]|]; rewrite E2; [done|apply orb_true_r]. }
  destruct (decide (name ∈ rules)) as [E3|E3]; [|done]. destruct in_rule; [|done]. intros [= <-]. cbn. by apply bool_decide_eq_true.
Qed.
Lemma lower_bin_scoped op l r e locals : lower_bin op l r = Ok e → ok locals l = true → ok locals r = true → ok locals e = true.
Proof.
  intros He Hl Hr. assert (ok locals l && ok locals r = true) as Hlr by by rewrite Hl, Hr.
  destruct op; cbn in He; try (injection He as <-; exact Hlr); try discriminate He. destruct l; try (injection He as <-; exact Hlr). destruct r; try (injection He as <-; exact Hlr). done.
Qed.
Lemma lower_call_scoped func args locals e : Forall lowers args → lower_call variants_of functions ambiguous_ctors func args locals = Ok e → ok locals e = true.
Proof.
  intros Hargs. unfold lower_call. destruct (ambiguous_ctors !! func); [done|]. destruct (is_protected_outcome func); [done|]. destruct (variants_of !! func) as [nominal|].
  - destruct (is_protected_authority_type nominal); [done|]. intros (out & Hout & [= <-])%result_bind_Ok. by apply lower_all_scoped in Hout.
  - destruct (functions !! func) as [n|] eqn:Ef; [|done]. intros ([] & _ & He)%result_bind_Ok. apply result_bind_Ok in He as (out & Hout & [= <-]).
    apply lower_all_scoped in Hout; [|done]. cbn. rewrite Hout, andb_true_r. apply bool_decide_eq_true, elem_of_dom. by exists n.
Qed.
Lemma expect_list_form_Ok {A} form args k (a : A) : expect_list_form form args k = Ok a → ∃ l binder body, args = [l; XLambda binder body] ∧ k l binder body = Ok a.
Proof. unfold expect_list_form. intros Hk. repeat case_match; simplify_eq/=. by repeat eexists. Qed.
Lemma map_Forall {A} (P : Expr → Prop) (g : A → Expr) (l : list A) : Forall (λ a, P (g a)) l → ∀ f : Expr → gset string → Lower L3ExprV2,
  (∀ a, P a → lowers (f a)) → Forall (λ p, lowers p.2) (List.map (λ a, (a, f (g a))) l).
Proof. intros Hl f Hf. apply Forall_fmap. eapply Forall_impl; [exact Hl|]. intros a Ha. by apply Hf. Qed.

Lemma lower_scoped e : lowers (lower e).
Proof.
  induction e as [s|s|b|name|config fields IH|base field IH|func args IH|op lhs rhs IH1 IH2|scrutinee arms b IHs IHa|e IH|e IH|e IH|e IH|param body IH|items IH|gens w y IHg IHw IHy|fields|ty arg IH|e ty IH]
    using expr_induction; intros locals out; cbn [lower_expr_v2_impl]; try done; try (by intros [= <-]).
  - apply lower_num_scoped.
  - apply lower_var_scoped.
  - destruct (is_protected_authority_type config); [done|]. intros (fs & Hfs & [= <-])%result_bind_Ok. cbn.
    rewrite (forallb_perm _ _ _ (sort_by_perm _ fs)). eapply lower_fields_scoped; [|exact Hfs]. apply Forall_fmap. eapply Forall_impl; [exact IH|]. by intros f Hf.
  - intros (b & Hb & [= <-])%result_bind_Ok. cbn. by eapply IH.
  - assert (Forall lowers (List.map lower args)) as Hargs by (apply Forall_fmap; eapply Forall_impl; [exact IH|]; by intros a [Ha _]).
    destruct (builtin_from_name func) as [bop|].
    { intros ([] & _ & Ho)%result_bind_Ok. apply result_bind_Ok in Ho as (es & Hes & [= <-]). by apply lower_all_scoped in Hes. }
    assert (∀ form (k : string → L3ExprV2 → L3ExprV2 → L3ExprV2), (∀ binder l b, ok locals l = true → ok ({[binder]} ∪ locals) b = true → ok locals (k binder l b) = true) →
      expect_list_form form args (λ list_expr binder body_expr, list ← lower list_expr locals; body ← lower body_expr ({[binder]} ∪ locals); Ok (k binder list body)) = Ok out → ok locals out = true) as Hform.
    { intros form k Hk (l & binder & body & -> & Ho)%expect_list_form_Ok. apply result_bind_Ok in Ho as (le & Hle & Ho). apply result_bind_Ok in Ho as (be & Hbe & [= <-]).
      apply Forall_cons in IH as [[IHl _] [[_ IHb] _]%Forall_cons]. apply Hk; [by apply IHl|by apply IHb]. }
    assert (∀ l b binder, ok locals l = true → ok ({[binder]} ∪ locals) b = true → ok locals l && ok ({[binder]} ∪ locals) b = true) as Hand by (by intros l b binder -> ->).
    destruct (fold_from_name func) as [fop|]; [apply (Hform _ (λ binder l b, EFold fop l binder b)); intros binder l b; apply Hand|].
    destruct (decide (func = "filter")); [apply (Hform _ (λ binder l b, EFilter l binder b)); intros binder l b; apply Hand|].
    destruct (decide (func = "map")); [apply (Hform _ (λ binder l b, EMap l binder b)); intros binder l b; apply Hand|].
    destruct (decide (func ∈ _)).
    { destruct args as [|a [|]]; cbn [List.map]; try done. intros (inner & Hi & [= <-])%result_bind_Ok. apply Forall_cons in IH as [[IHa _] _]. specialize (IHa _ _ Hi).
      repeat case_decide; exact IHa. }
    destruct (div_mod_from_name func) as [dop|]; [|by apply lower_call_scoped].
    destruct args as [|a [|b [|]]]; cbn [List.map]; try done. intros (l & Hl & Ho)%result_bind_Ok. apply result_bind_Ok in Ho as (r & Hr & [= <-]).
    apply Forall_cons in IH as [[IHa _] [[IHb _] _]%Forall_cons]. cbn. by rewrite (IHa _ _ Hl), (IHb _ _ Hr).
  - intros (l & Hl & Ho)%result_bind_Ok. apply result_bind_Ok in Ho as (r & Hr & Ho). eapply lower_bin_scoped; [exact Ho|by apply IH1|by apply IH2].
  - intros (s & Hs & Ho)%result_bind_Ok. apply result_bind_Ok in Ho as (out' & Ha & [= <-]). cbn. rewrite (IHs _ _ Hs). cbn.
    eapply lower_arms_scoped; [|exact Ha]. apply Forall_fmap. eapply Forall_impl; [exact IHa|]. by intros a Hx.
  - intros (x & Hx & [= <-])%result_bind_Ok. cbn. by eapply IH.
  - intros (es & Hes & [= <-])%result_bind_Ok. eapply lower_all_scoped; [|exact Hes]. apply Forall_fmap. eapply Forall_impl; [exact IH|]. by intros a Ha.
  - intros ([gs locals'] & Hgs & Ho)%result_bind_Ok. apply result_bind_Ok in Ho as (w' & Hw & Ho). apply result_bind_Ok in Ho as (y' & Hy & [= <-]).
    eapply lower_generators_scoped; [|exact Hgs|]; [apply Forall_fmap; eapply Forall_impl; [exact IHg|]; by intros a Ha|].
    rewrite (IHy _ _ Hy), andb_true_r. destruct w as [w|]; [|by injection Hw as <-]. apply result_bind_Ok in Hw as (x & Hx & [= <-]). by apply (IHw w eq_refl).
  - intros (t & _ & Ho)%result_bind_Ok. apply result_bind_Ok in Ho as (a & Ha & [= <-]). cbn. by eapply IH.
  - intros (t & _ & Ho)%result_bind_Ok. apply result_bind_Ok in Ho as (i & Hi & Ho). apply result_bind_Ok in Ho as (r & _ & [= <-]). destruct r; cbn; by eapply IH.
Qed.
End lowered.

(** ** Plans *)

(** In a plan, a [let] reads earlier [let]s and a rule earlier [let]s and the facts it declares,
    which are of earlier rules and not its own. *)
Fixpoint items_ok (items : list L3PlanItemV2) (lets rules : gset string) : Prop :=
  match items with
  | [] => True
  | LConfig _ :: items' => items_ok items' lets rules
  | LLet name value :: items' => scoped lets ∅ ∅ ∅ value = true ∧ items_ok items' ({[name]} ∪ lets) rules
  | LRule name body deps :: items' =>
    (NoDup deps ∧ (name ∉ deps) ∧ ∀ d, d ∈ deps → d ∈ rules) ∧ scoped lets (list_to_set deps) ∅ ∅ body = true ∧ items_ok items' lets ({[name]} ∪ rules)
  end.

Definition dependencies_ok (rule : string) (rules : gset string) (deps : list string) : Prop := NoDup deps ∧ (rule ∉ deps) ∧ ∀ d, d ∈ deps → d ∈ rules.
Lemma lower_params_ok rule ps rules deps out : lower_params rule ps rules deps = Ok out → dependencies_ok rule rules deps → dependencies_ok rule rules out.
Proof.
  revert deps. induction ps as [|p ps IH]; intros deps; cbn; [by intros [= ->]|]. case_decide as H1; [done|]. case_decide as H2; [done|]. intros Ho (Hn & Hr & Hd). eapply IH; [exact Ho|].
  case_decide as H3; [done|]. split_and!.
  - apply NoDup_app. split; [done|]. split; [|apply NoDup_singleton]. by intros d Hx ->%list_elem_of_singleton.
  - rewrite elem_of_app, list_elem_of_singleton. intros [?|?]; [done|congruence].
  - intros d [Hx| ->%list_elem_of_singleton]%elem_of_app; [by apply Hd|done].
Qed.

Section plans.
Context `{DebugTy}.

Lemma lower_item_ok i s s' : lower_item s i = Ok s' → ∃ out, s_items s' = s_items s ++ out ∧
  ∀ more, items_ok more (s_lets s') (s_rules s') → items_ok (out ++ more) (s_lets s) (s_rules s).
Proof.
  destruct i as [|c| |r|l| | | | | | | | | | | | |]; cbn; try (intros [= <-]; exists []; split; [by rewrite app_nil_r|done]).
  - intros ([vs ns] & _ & [= <-])%result_bind_Ok. by eexists.
  - intros (deps & Hd & Hs)%result_bind_Ok. apply result_bind_Ok in Hs as (body & Hb & [= <-]). eexists. split; [done|]. intros more Hmore. cbn.
    apply lower_params_ok in Hd; [|split; [constructor|]; split; [apply not_elem_of_nil|by intros d ?%elem_of_nil]]. split; [exact Hd|]. split; [|exact Hmore].
    destruct (lower_expr_v2_impl _ _ _ _ _ _ _ _ _ _) as [b|] eqn:E; [|done]. injection Hb as <-. apply lower_scoped in E. by rewrite dom_empty_L in E.
  - intros (v & Hv & [= <-])%result_bind_Ok. eexists. split; [done|]. intros more Hmore. cbn. split; [|exact Hmore]. apply lower_scoped in Hv. by rewrite dom_empty_L in Hv.
Qed.
Lemma lower_items_ok items s s' : lower_items items s = Ok s' → ∃ out, s_items s' = s_items s ++ out ∧ items_ok out (s_lets s) (s_rules s).
Proof.
  revert s. induction items as [|i items IH]; intros s; cbn; [intros [= <-]; exists []; by rewrite app_nil_r|]. intros (s1 & H1 & H2)%result_bind_Ok.
  apply lower_item_ok in H1 as (o1 & E1 & Ho1). apply IH in H2 as (o2 & E2 & Ho2). exists (o1 ++ o2). rewrite E2, E1, app_assoc. split; [done|]. by apply Ho1.
Qed.
Lemma lower_plan_ok m profile plan : lower_l3_plan_v2 m profile = Ok plan → items_ok (plan_items plan) ∅ ∅.
Proof.
  unfold lower_l3_plan_v2. case_decide; [done|]. intros ([] & _ & Hs)%result_bind_Ok. apply result_bind_Ok in Hs as (s & Hs & [= <-]).
  apply lower_items_ok in Hs as (out & E & Ho). cbn in *. by rewrite E.
Qed.
End plans.

(** ** Exhaustive matches *)

(** [x] is [e] or occurs in it. *)
Inductive inside (x : L3ExprV2) : L3ExprV2 → Prop :=
  | inside_here : inside x x
  | inside_sub e e' : e' ∈ subexprs e → inside x e' → inside x e.

Section matches.
Context (sum_of_variant : gmap string string) (variants_of_sum : gmap string (list string)).
Abbreviation check_expr := (check_exhaustive_expr sum_of_variant variants_of_sum).
Abbreviation check := (check_arms sum_of_variant variants_of_sum).
Abbreviation passes l := (fold_left (λ acc r : Lower (), _ ← acc; r) l (Ok ())).

Lemma fold_err l e : fold_left (λ acc r : Lower (), _ ← acc; r) l (Err e) = Err e.
Proof. by induction l. Qed.
Lemma passes_iff l : passes l = Ok () ↔ Forall (λ r, r = Ok ()) l.
Proof.
  induction l as [|[[]|e] l IH]; [done| |]; cbn; rewrite Forall_cons; [rewrite IH; naive_solver|]. rewrite fold_err. split; [done|]. by intros [? _].
Qed.
Lemma passes_map {A} (f : A → L3ExprV2) l : passes (List.map (λ a, check_expr (f a)) l) = Ok () ↔ ∀ e, e ∈ f <$> l → check_expr e = Ok ().
Proof.
  rewrite passes_iff. change (List.map _ l) with ((check_expr ∘ f) <$> l). rewrite list_fmap_compose, Forall_fmap, Forall_forall. done.
Qed.
Lemma then_Ok {A} (m : Lower ()) (k : Lower A) a : (_ ← m; k) = Ok a ↔ m = Ok () ∧ k = Ok a.
Proof. destruct m as [[]|]; cbn; [tauto|]. split; [done|]. by intros [? _]. Qed.

(** The check of an expression is the check of its sub-expressions and, of a match, of its arms. *)
Lemma check_level e : check_expr e = Ok () ↔ (∀ e', e' ∈ subexprs e → check_expr e' = Ok ()) ∧ match e with EMatch _ arms => check arms = Ok () | _ => True end.
Proof.
  assert (∀ P : Prop, P ↔ P ∧ True) as HT by tauto. assert (∀ a, (∀ e', e' ∈ [a] → check_expr e' = Ok ()) ↔ check_expr a = Ok ()) as H1.
  { intros a. split; [intros Ha; apply Ha; by left|]. by intros Ha e' ->%list_elem_of_singleton. }
  assert (∀ a b, (∀ e', e' ∈ [a; b] → check_expr e' = Ok ()) ↔ check_expr a = Ok () ∧ check_expr b = Ok ()) as H2.
  { intros a b. split; [intros Ha; split; apply Ha; [by left|right; by left]|]. intros [Ha Hb] e' [->|[->|[]%elem_of_nil]%elem_of_cons]%elem_of_cons; done. }
  assert (∀ l, passes (List.map check_expr l) = Ok () ↔ ∀ e', e' ∈ l → check_expr e' = Ok ()) as Hl by (intros l; pose proof (passes_map id l) as Hp; by rewrite list_fmap_id in Hp).
  destruct e as [n|s|b|name|rule|nom var|nom var args|nom fields|a field|op a b|op a b|s arms|func args|a b|a b|a|op a b|op a binder b|a binder b|a binder b|gens w y|args|a b|a|a|a|a element|op args|target a];
    cbn [check_exhaustive_expr subexprs]; rewrite <-?HT, ?H1, ?H2, ?Hl, ?then_Ok; try done; try (by split; [intros _ e' ?%elem_of_nil|]).
  - apply (passes_map snd).
  - rewrite (passes_map snd arms). setoid_rewrite elem_of_cons. split; [intros (Hs & Ha & Hc); split; [|done]; intros e' [->|He']; auto|].
    intros [Hs Hc]. split_and!; auto.
  - rewrite (passes_map snd gens). setoid_rewrite elem_of_app. setoid_rewrite elem_of_app. setoid_rewrite list_elem_of_singleton. destruct w as [w|]; cbn [option_list].
    + setoid_rewrite list_elem_of_singleton. split; [intros (Hg & Hw & Hy) e' [?|[->| ->]]; auto|]. intros Ha. split_and!; auto.
    + split; [intros (Hg & _ & Hy) e' [?|[[]%elem_of_nil| ->]]; auto|]. intros Ha. split_and!; auto.
Qed.

Lemma check_inside e : check_expr e = Ok () ↔ ∀ s arms, inside (EMatch s arms) e → check arms = Ok ().
Proof.
  split.
  - intros He s arms Hin. revert He. induction Hin as [|e e' Hsub Hin IH]; intros He%check_level; [apply He|]. apply IH. by apply (proj1 He).
  - remember (height e) as n eqn:En. assert (height e ≤ n) as Hh by lia. clear En. revert e Hh. induction n as [|n IH]; intros e Hh Hin; [destruct e; cbn in Hh; lia|].
    apply check_level. split; [|destruct e; try done; by apply (Hin _ _ (inside_here _))]. intros e' He'. apply IH; [apply height_subexprs in He'; lia|].
    intros s arms Hs. apply (Hin s arms). by eapply inside_sub.
Qed.

(** The arms are of the sum the value belongs to. *)
Definition arms_of (sum : string) (arms : list (L3PatternV2 * L3ExprV2)) : Prop :=
  ∀ nom variant binders body, (PCtor nom variant binders, body) ∈ arms →
    match nom with Some n => nominal_matches sum n = true | None => match owner_of variant with Some n => nominal_matches sum n = true | None => True end end.
Definition some_arm (arms : list (L3PatternV2 * L3ExprV2)) (v : L3ValueV2) : Prop := ∃ arm, arm ∈ arms ∧ matches_value arm.1 v = true.

Lemma covered_iff arms v : v ∈ covered arms ↔ ∃ nom variant binders body, (PCtor nom variant binders, body) ∈ arms ∧ bare_variant variant = v.
Proof.
  unfold covered. rewrite elem_of_list_to_set, list_elem_of_omap. split.
  - intros ([[nom variant binders|] body] & Hin & Hv); [|done]. injection Hv as <-. by repeat eexists.
  - intros (nom & variant & binders & body & Hin & <-). by exists (PCtor nom variant binders, body).
Qed.
Lemma has_wildcard_iff arms : has_wildcard arms = true ↔ ∃ body, (PWildcard, body) ∈ arms.
Proof.
  unfold has_wildcard. rewrite existsb_exists. setoid_rewrite <-list_elem_of_In. split; [|intros [body Hb]; by exists (PWildcard, body)].
  intros ([[| ] body] & Hin & Hv); [done|by exists body].
Qed.
Lemma arm_matches arms sum variant args : arms_of sum arms → some_arm arms (VCtor sum variant args) ↔ variant ∈ covered arms ∨ has_wildcard arms = true.
Proof.
  intros Ha. rewrite covered_iff, has_wildcard_iff. split.
  - intros ([[nom pv binders|] body] & Hin & Hm); [left|right; by exists body]. exists nom, pv, binders, body. split; [done|]. cbn in Hm. repeat case_match; try done; by apply bool_decide_eq_true in Hm.
  - intros [(nom & pv & binders & body & Hin & <-)|[body Hin]]; [|by exists (PWildcard, body)]. exists (PCtor nom pv binders, body). split; [done|]. specialize (Ha _ _ _ _ Hin). cbn.
    destruct nom as [n|]; [rewrite Ha; by apply bool_decide_eq_true|]. destruct (owner_of pv) as [n|]; [rewrite Ha|]; by apply bool_decide_eq_true.
Qed.
End matches.

Definition known_sum (sum_of_variant : gmap string string) (variants_of_sum : gmap string (list string)) (arms : list (L3PatternV2 * L3ExprV2)) (sum : string) (all : list string) : Prop :=
  ∃ nom variant binders body rest, arms = (PCtor nom variant binders, body) :: rest ∧ sum_of_variant !! variant = Some sum ∧ variants_of_sum !! sum = Some all.

Lemma check_arms_exact sov vos arms sum all : known_sum sov vos arms sum all → arms_of sum arms →
  (check_arms sov vos arms = Ok () ↔ (∀ v args, v ∈ all → some_arm arms (VCtor sum v args)) ∧ (has_wildcard arms = true → ∃ v, v ∈ all ∧ v ∉ covered arms)) ∧
  ∀ s missing, check_arms sov vos arms = Err (NonExhaustiveMatch s missing) →
    s = sum ∧ missing ≠ [] ∧ ∀ v, v ∈ missing ↔ v ∈ all ∧ ∀ args, ¬ some_arm arms (VCtor sum v args).
Proof.
  intros (nom & variant & binders & body & rest & -> & Hs & Hv) Ha. set (arms := (PCtor nom variant binders, body) :: rest) in *.
  assert (∀ v args, some_arm arms (VCtor sum v args) ↔ v ∈ covered arms ∨ has_wildcard arms = true) as Harm by (intros; by apply arm_matches).
  set (missing := filter (λ v, v ∉ covered arms) all).
  assert (check_arms sov vos arms = if has_wildcard arms then (if decide (missing = []) then Err (UnreachableWildcardArm sum) else Ok ())
    else if decide (missing = []) then Ok () else Err (NonExhaustiveMatch sum missing)) as -> by (cbn; by rewrite Hs, Hv).
  assert (∀ v, v ∈ missing ↔ (v ∉ covered arms) ∧ v ∈ all) as Hm by (intros v; unfold missing; by rewrite list_elem_of_filter). setoid_rewrite Harm.
  assert (missing = [] ↔ ∀ v, v ∈ all → v ∈ covered arms) as Hnil.
  { split; [intros Hn v Hin; destruct (decide (v ∈ covered arms)); [done|]; assert (v ∈ missing) as Hx by (by apply Hm); rewrite Hn in Hx; by apply elem_of_nil in Hx|].
    intros Hc. destruct missing as [|v l]; [done|]. destruct (proj1 (Hm v)) as [Hx Hy]; [by left|]. by specialize (Hc v Hy). }
  destruct (has_wildcard arms) eqn:Ew; destruct (decide (missing = [])) as [En|En].
  - split; [|done]. split; [done|]. intros [_ (v & Hin & Hc)]; [done|]. exfalso. by apply Hc, Hnil.
  - split; [|done]. split; [intros _|done]. split; [by right|]. intros _. destruct missing as [|v l]; [done|]. exists v. destruct (proj1 (Hm v)) as [? ?]; [by left|done].
  - split; [|done]. split; [intros _|done]. split; [|done]. intros v args Hin. left. by apply Hnil.
  - split; [|intros s m [= <- <-]; split; [done|]; split; [done|]; intros v; rewrite Hm; split; [intros [? ?]; split; [done|]; by intros _ [?|?]|intros [? Hx]; split; [|done]; intros ?; apply (Hx []); by left]].
    split; [done|]. intros [Hall _]. destruct En. apply Hnil. intros v Hin. by destruct (Hall v [] Hin).
Qed.

Lemma check_plan p : check_exhaustive p = Ok () ↔
  ∀ body s arms, body ∈ omap item_body (plan_items p) → inside (EMatch s arms) body → check_arms (variant_tables (plan_items p)).1 (variant_tables (plan_items p)).2 arms = Ok ().
Proof.
  unfold check_exhaustive. destruct (variant_tables (plan_items p)) as [sov vos]. cbn [fst snd].
  assert (∀ l, fold_left (λ (acc : Lower ()) body, _ ← acc; check_exhaustive_expr sov vos body) l (Ok ()) = fold_left (λ acc r : Lower (), _ ← acc; r) (List.map (λ a, check_exhaustive_expr sov vos (id a)) l) (Ok ())) as Hl.
  { intros l. generalize (Ok () : Lower ()). induction l as [|x l IH]; intros acc; [done|]. cbn. by rewrite IH. }
  rewrite Hl, passes_map, list_fmap_id. setoid_rewrite check_inside. split; eauto.
Qed.

(** C13: Exhaustiveness is what it says. A plan passes [check_exhaustive] exactly when every match of
    every body, at any depth, passes the check of its arms; and where the first arm names a sum
    of the plan and the arms are of that sum, the arms pass exactly when every variant of the sum,
    with any payload, is matched by some arm, and a wildcard arm has something left to match. The
    variants reported missing are exactly those no arm matches. *)
Theorem exhaustiveness_exact p :
  (check_exhaustive p = Ok () ↔
    ∀ body s arms, body ∈ omap item_body (plan_items p) → inside (EMatch s arms) body →
      check_arms (variant_tables (plan_items p)).1 (variant_tables (plan_items p)).2 arms = Ok ()) ∧
  ∀ sov vos arms sum all, known_sum sov vos arms sum all → arms_of sum arms →
    (check_arms sov vos arms = Ok () ↔
      (∀ v args, v ∈ all → some_arm arms (VCtor sum v args)) ∧ (has_wildcard arms = true → ∃ v, v ∈ all ∧ v ∉ covered arms)) ∧
    ∀ s missing, check_arms sov vos arms = Err (NonExhaustiveMatch s missing) →
      s = sum ∧ missing ≠ [] ∧ ∀ v, v ∈ missing ↔ v ∈ all ∧ ∀ args, ¬ some_arm arms (VCtor sum v args).
Proof. split; [apply check_plan|]. intros sov vos arms sum all. apply check_arms_exact. Qed.

Definition demo_match (arms : list (L3PatternV2 * L3ExprV2)) : L3PlanV2 :=
  mkPlan L3_PROFILE_MARKER_V2 L3_PLAN_FORMAT_V2 [LConfig (mkL3Config "Light" (LSum [("Red", 0); ("Green", 0); ("Off", 0)])); LLet "x" (ENot (EMatch (ELetRef "light") arms))].
Definition demo_arm (variant : string) : L3PatternV2 * L3ExprV2 := (PCtor (Some "Light"%string) variant [], EBool true).
Lemma exhaustiveness_exact_witness :
  check_exhaustive (demo_match [demo_arm "Red"; demo_arm "Off"]) = Err (NonExhaustiveMatch "Light" ["Green"]%string) ∧
  ¬ some_arm [demo_arm "Red"; demo_arm "Off"] (VCtor "Light" "Green" []) ∧
  check_exhaustive (demo_match [demo_arm "Red"; (PWildcard, EBool false)]) = Ok () ∧ some_arm [demo_arm "Red"; (PWildcard, EBool false)] (VCtor "Light" "Green" []).
Proof.
  set (vt := variant_tables (plan_items (demo_match []))).
  assert (∀ rest, known_sum vt.1 vt.2 (demo_arm "Red" :: rest) "Light" ["Red"; "Green"; "Off"]%string) as Hk.
  { intros rest. exists (Some "Light"%string), "Red"%string, [], (EBool true), rest. split; [reflexivity|]. split; vm_compute; reflexivity. }
  assert (∀ rest, (∀ arm, arm ∈ rest → arm = demo_arm "Off" ∨ arm = (PWildcard, EBool false)) → arms_of "Light" (demo_arm "Red" :: rest)) as Ha.
  { intros rest Hr nom variant binders body [E|Hin]%elem_of_cons; [injection E as -> -> -> ->; vm_compute; reflexivity|].
    destruct (Hr _ Hin) as [E|E]; [injection E as -> -> -> ->; vm_compute; reflexivity|discriminate E]. }
  destruct (exhaustiveness_exact (demo_match [])) as [_ He]. split; [vm_compute; reflexivity|]. split; [|split; [vm_compute; reflexivity|]].
  - destruct (He _ _ _ _ _ (Hk [demo_arm "Off"])) as [_ Hmiss]; [apply Ha; intros arm ->%list_elem_of_singleton; by left|].
    destruct (Hmiss "Light"%string ["Green"%string]) as (_ & _ & Hm); [vm_compute; reflexivity|]. destruct (proj1 (Hm "Green"%string)) as [_ Hn]; [by left|apply Hn].
  - destruct (He _ _ _ _ _ (Hk [(PWildcard, EBool false)])) as [Hok _]; [apply Ha; intros arm ->%list_elem_of_singleton; by right|].
    apply Hok; [vm_compute; reflexivity|right; left].
Defined.

(** * Plans of modules *)

(** The plan item of a module item: its kind and its name. *)
Definition item_of (i : Item) (p : L3PlanItemV2) : Prop :=
  match i, p with
  | IConfig c, LConfig d => lc_name d = cfg_name c ∧ lc_body d = lower_config_body (cfg_body c)
  | ILet l, LLet name _ => name = let_name l
  | IRule r, LRule name _ _ => name = k_name r
  | _, _ => False
  end.

Section plan_items.
Context `{DebugTy}.

Lemma admit_items_Ok items : admit_items items = Ok () ↔ ∀ i, i ∈ items → item_name i = None.
Proof.
  induction items as [|i items IH]; cbn; [split; [by intros _ i ?%elem_of_nil|done]|]. destruct (item_name i) eqn:E.
  - split; [done|]. intros Hi. specialize (Hi i). rewrite E in Hi. discriminate Hi. by left.
  - rewrite IH. split; [intros Hi j [->|Hj]%elem_of_cons; auto|]. intros Hi j Hj. apply Hi. by right.
Qed.
Lemma lower_items_of items s s' : (∀ i, i ∈ items → item_name i = None) → lower_items items s = Ok s' → ∃ out, s_items s' = s_items s ++ out ∧ Forall2 item_of items out.
Proof.
  revert s. induction items as [|i items IH]; intros s Hadm; cbn; [intros [= <-]; exists []; by rewrite app_nil_r|]. intros (s1 & H1 & H2)%result_bind_Ok.
  apply IH in H2 as (out & E2 & Hout); [|intros j Hj; apply Hadm; by right].
  assert (∃ p, s_items s1 = s_items s ++ [p] ∧ item_of i p) as (p & E1 & Hp).
  { specialize (Hadm i). destruct i as [|c| |r|l| | | | | | | | | | | | |]; try by (discriminate Hadm; left).
    - apply result_bind_Ok in H1 as ([vs ns] & _ & [= <-]). by eexists.
    - apply result_bind_Ok in H1 as (deps & _ & H1). apply result_bind_Ok in H1 as (body & _ & [= <-]). by eexists.
    - apply result_bind_Ok in H1 as (v & _ & [= <-]). by eexists. }
  exists (p :: out). rewrite E2, E1, <-app_assoc. split; [done|by constructor].
Qed.
Lemma plan_of_module m profile plan : lower_l3_plan_v2 m profile = Ok plan →
  plan_profile plan = L3_PROFILE_MARKER_V2 ∧ plan_format plan = L3_PLAN_FORMAT_V2 ∧ Forall2 item_of (m_items m) (plan_items plan).
Proof.
  unfold lower_l3_plan_v2. case_decide as Hp; [done|]. subst profile. intros ([] & Hadm & Hs)%result_bind_Ok. apply result_bind_Ok in Hs as (s & Hs & [= <-]).
  split; [done|]. split; [done|]. apply lower_items_of in Hs as (out & E & Ho); [|by apply admit_items_Ok]. cbn in *. by rewrite E.
Qed.

(** C12: Plans are well scoped. A plan that lowering makes has the profile and format of this version
    and one item for each of the module, in its order; every name its expressions read is a local,
    an earlier [let], or a fact the rule declares; every dependency of a rule is an earlier rule,
    once, never itself; no expression calls a helper; and integer literals are in range. *)
Theorem lowered_plan_scoped m profile plan : lower_l3_plan_v2 m profile = Ok plan →
  (plan_profile plan = L3_PROFILE_MARKER_V2 ∧ plan_format plan = L3_PLAN_FORMAT_V2 ∧ Forall2 item_of (m_items m) (plan_items plan)) ∧
  items_ok (plan_items plan) ∅ ∅.
Proof. intros Hp. split; [by apply (plan_of_module m profile)|by apply (lower_plan_ok m profile)]. Qed.
End plan_items.

#[local] Instance demo_debug : DebugTy := {| debug_ty _ := "" |}.
Definition demo_callable (name : string) (params : list string) (body : Expr) : Callable :=
  mkCallable name ((λ p, mkParam p None) <$> params) None [] None None None body true.
Definition demo_module (deps : list string) : SyntaxModule := mkSyntaxModule [
  IConfig (mkConfig "Light" [] (CSum [mkVariant "Red" []; mkVariant "Green" []]));
  ILet (mkLet "limit" None (XBin OpAdd (XNum "40") (XNum "2")));
  IRule (demo_callable "first" [] (XMatch (XVar "Red") [(ACtor "Red" [], XVar "limit"); (ACtor "Green" [], XNum "0")] true));
  IRule (demo_callable "second" deps (XBin OpMul (XVar "first") (XNum "2")))].
Definition demo_plan : L3PlanV2 := mkPlan L3_PROFILE_MARKER_V2 L3_PLAN_FORMAT_V2 [
  LConfig (mkL3Config "Light" (LSum [("Red", 0); ("Green", 0)]));
  LLet "limit" (EArith Add (EInt 40) (EInt 2));
  LRule "first" (EMatch (ENullaryVariant "Light" "Red") [(PCtor (Some "Light") "Red" [], ELetRef "limit"); (PCtor (Some "Light") "Green" [], EInt 0)]) [];
  LRule "second" (EArith Mul (ERuleFact "first") (EInt 2)) ["first"]]%string.
Lemma lowered_plan_scoped_witness : lower_l3_plan_v2 (demo_module ["first"]) L3_PROFILE_MARKER_V2 = Ok demo_plan ∧ items_ok (plan_items demo_plan) ∅ ∅ ∧
  lower_l3_plan_v2 (demo_module []) L3_PROFILE_MARKER_V2 = Err (UndeclaredFactRead "second" "first").
Proof.
  assert (lower_l3_plan_v2 (demo_module ["first"%string]) L3_PROFILE_MARKER_V2 = Ok demo_plan) as E by (vm_compute; reflexivity).
  split; [exact E|]. split; [apply (proj2 (lowered_plan_scoped _ _ _ E))|vm_compute; reflexivity].
Defined.

(** An integer literal past [i64] reads as a float, and is refused as one. *)
Lemma literal_overflow_is_float : lower_num "9223372036854775808" = Err (FloatLiteralNotAllowed "9223372036854775808").
Proof. vm_compute. reflexivity. Qed.
(** A redundant annotation is kept, but on the empty list. *)
Lemma ascription_kept : lower_expr_v2_impl ∅ ∅ ∅ ∅ ∅ false false ∅ (XAscribe (XListLit [XNum "1"]) (TApp "List" [TNamed "Int"])) ∅ = Ok (EAscribe (EListLit [EInt 1]) SInt).
Proof. vm_compute. reflexivity. Qed.
