(* ===== verification/L3Scope.v ===== *)
(** Names and evaluation: what the scopes of lowering (src/crates/brix-lower/src/l3_v2.rs, Stage A)
    promise the evaluator. An expression whose names are in scope never meets an unbound one,
    whatever its budget, with helpers or without. *)
From S2P Require Import Prelude Text IntCodec Canon CanonLaws Encoding Decimal DecimalMath Values FloatMath L3Value Evidence L3Eval L3Laws Syntax L3Lower.

(** * Scopes of sub-expressions *)

Section scopes.
Context (lets rules functions : gset string).
Abbreviation ok := (scoped lets rules functions).

Definition reads_scoped (locals : gset string) (e : L3ExprV2) : Prop :=
  match e with
  | EInt n => i64_ok n
  | ELetRef name => name ∈ locals ∨ name ∈ lets
  | ERuleFact rule => rule ∈ rules
  | ECall func _ => func ∈ functions
  | _ => True
  end.

Lemma forallb_plain locals l : forallb (ok locals) l = true ↔ ∀ bs e, (bs, e) ∈ plain l → ok (bs ∪ locals) e = true.
Proof.
  rewrite forallb_forall. setoid_rewrite <-list_elem_of_In. split; [intros H bs e [-> He]%elem_of_plain; rewrite union_empty_l_L; by apply H|].
  intros H e He. rewrite <-(union_empty_l_L locals). apply H. by apply elem_of_plain.
Qed.
Lemma generated_scoped gens w y names locals :
  ok (names ∪ locals) (EComprehension gens w y) = true ↔ ∀ bs e, (bs, e) ∈ generated gens w y names → ok (bs ∪ locals) e = true.
Proof.
  revert names. induction gens as [|[b s] gens IH]; intros names; cbn [scoped generated].
  - rewrite andb_true_iff. split.
    + intros [Hw Hy] bs e (e' & [= -> ->] & He)%list_elem_of_fmap. apply elem_of_app in He as [He|He]; [destruct w as [w|]; [|by apply elem_of_nil in He]|]; by apply list_elem_of_singleton in He as ->.
    + intros H. split; [destruct w as [w|]; [|done]|]; apply H; apply (list_elem_of_fmap_2 (λ e, (names, e))); [by left|apply elem_of_app; right; by left].
  - rewrite andb_true_iff. specialize (IH ({[b]} ∪ names)). cbn [scoped] in IH. rewrite <-(assoc_L (∪)) in IH. rewrite IH. setoid_rewrite elem_of_cons. split.
    + intros [Hs H] bs e [[= -> ->]|He]; [done|by apply H].
    + intros H. split; [apply H; by left|]. intros bs e He. apply H. by right.
Qed.
Lemma scoped_unfold locals e : ok locals e = true ↔ reads_scoped locals e ∧ ∀ bs e', (bs, e') ∈ subterms e → ok (bs ∪ locals) e' = true.
Proof.
  assert (∀ b (P : Prop), (b = true ↔ P) → b = true ↔ True ∧ P) as Htrue by (intros b P ->; tauto).
  assert (∀ l, forallb (λ f : string * L3ExprV2, ok locals f.2) l = true ↔ ∀ bs e', (bs, e') ∈ plain l.*2 → ok (bs ∪ locals) e' = true) as Hfields.
  { intros l. rewrite <-forallb_plain. induction l as [|a l IH]; cbn; [done|]. by rewrite !andb_true_iff, IH. }
  assert (∀ a, ok locals a = true ↔ ∀ bs e', (bs, e') ∈ plain [a] → ok (bs ∪ locals) e' = true) as H1 by (intros a; rewrite <-forallb_plain; cbn; by rewrite andb_true_r).
  assert (∀ a b, ok locals a && ok locals b = true ↔ ∀ bs e', (bs, e') ∈ plain [a; b] → ok (bs ∪ locals) e' = true) as H2 by (intros a b; rewrite <-forallb_plain; cbn; by rewrite andb_true_r).
  assert (∀ a x b, ok locals a && ok ({[x]} ∪ locals) b = true ↔ ∀ bs e', (bs, e') ∈ [(∅, a); ({[x]}, b)] → ok (bs ∪ locals) e' = true) as H3.
  { intros a x b. rewrite andb_true_iff. setoid_rewrite elem_of_cons. setoid_rewrite list_elem_of_singleton. split.
    - intros [Ha Hb] bs e' [[= -> ->]|[= -> ->]]; [by rewrite union_empty_l_L|done].
    - intros H. split; [rewrite <-(union_empty_l_L locals); apply H; by left|apply H; by right]. }
  assert (∀ b (P : Prop), (b = true ↔ P) → b = true ↔ P ∧ ∀ bs e', (bs, e') ∈ plain [] → ok (bs ∪ locals) e' = true) as Hleaf.
  { intros b P ->. split; [|by intros [? _]]. intros ?. split; [done|]. by intros bs e' ?%elem_of_nil. }
  destruct e; cbn [scoped subterms reads_scoped subexprs]; try (apply Htrue; first [apply forallb_plain|apply Hfields|apply H1|apply H2|apply H3]);
    try (apply Hleaf; first [apply bool_decide_eq_true|tauto]).
  - apply Hleaf. by rewrite orb_true_iff, !bool_decide_eq_true.
  - apply Htrue. rewrite andb_true_iff, forallb_forall. setoid_rewrite elem_of_cons. setoid_rewrite list_elem_of_fmap. split.
    + intros [Hs Ha] bs e' [[= -> ->]|(a & [= -> ->] & Hin)]; [by rewrite union_empty_l_L|]. specialize (Ha a). rewrite <-list_elem_of_In in Ha. specialize (Ha Hin). by destruct (a.1).
    + intros H. split; [rewrite <-(union_empty_l_L locals); apply H; by left|]. intros a Hin%list_elem_of_In. specialize (H (arm_names a.1) a.2). destruct (a.1) eqn:E; apply H; right; exists a; by rewrite E.
  - by rewrite andb_true_iff, bool_decide_eq_true, forallb_plain.
  - apply Htrue. pose proof (generated_scoped generators where_clause e ∅ locals) as Hg. rewrite union_empty_l_L in Hg. exact Hg.
Qed.

End scopes.

(** More names in scope do no harm. *)
Lemma scoped_more lets rules functions lets' rules' functions' e : lets ⊆ lets' → rules ⊆ rules' → functions ⊆ functions' →
  ∀ locals locals', locals ⊆ locals' → scoped lets rules functions locals e = true → scoped lets' rules' functions' locals' e = true.
Proof.
  intros H1 H2 H3. remember (height e) as n eqn:E. revert e E. induction (lt_wf n) as [n _ IH]. intros e -> locals locals' Hl.
  rewrite (scoped_unfold lets), (scoped_unfold lets'). intros [Hr Hs]. split.
  - destruct e; try exact Hr; cbn in *; [|by apply H2|by apply H3]. destruct Hr as [?|?]; [left; by apply Hl|right; by apply H1].
  - intros bs e' He. eapply (IH (height e')); [by eapply height_subexprs, subterms_subexprs|done| |by apply Hs]. set_solver.
Qed.

(** * Evaluation *)

Section bound_evaluation.
Context `{ValueLayout, DebugText}.

(** No fault is an unbound name, and what is returned satisfies the postcondition. *)
Definition R_bound : relation := λ A Q m _, ∀ b, match m b with Done (Ok a, _) => Q a | Done (Err e, _) => ¬ unbound e | _ => True end.

Lemma budget_fault_bound f : budget_fault f → ¬ unbound f.
Proof. destruct f; cbn; tauto. Qed.
Lemma R_bound_charge (op : Charge) : (∀ b f b', op b = (Err f, b') → budget_fault f) → R_bound unit (λ _, True) (charge op) (charge op).
Proof. intros Hop [b|]; [|done]. unfold charge. destruct (op b) as [[[]|f] b'] eqn:E; [done|]. by eapply budget_fault_bound, Hop. Qed.

#[local] Instance R_bound_closed : Closed False R_bound.
Proof.
  assert (∀ A B (Q : A → Prop) (Q' : B → Prop) m m' f f', R_bound A Q m m' → (∀ a, Q a → R_bound B Q' (f a) (f' a)) → R_bound B Q' (m ≫= f) (m' ≫= f')) as Hbind.
  { intros A B Q Q' m m' f f' Hm Hf b. specialize (Hm b). unfold mbind, Eval_bind. destruct (m b) as [[[a|e] b']| |]; [by apply Hf|done..]. }
  split; [by intros A Q a Ha b|by intros A Q e He b Hu; apply He|exact Hbind| | | | |].
  - intros A Q Q' m m' Hm Hq b. specialize (Hm b). destruct (m b) as [[[a|e] b']| |]; auto.
  - apply R_bound_charge, tick_fault.
  - intros n y. apply R_bound_charge, allocation_fault.
  - intros v d [b|]; [|done]. unfold charge_value. destruct (iterate _ _ _) as [[[count bytes]|f]| |] eqn:E; [done| |done|done].
    apply iterate_final in E as [t Ht]. by eapply budget_fault_bound, walk_fault.
  - intros A B Q Q' func n y m m' f Hm Hf. eapply (Hbind _ _ (λ _, True)).
    { apply R_bound_charge. intros b g b'. unfold enter_call. by case_decide; intros [= <- _]. }
    intros _ _. eapply (Hbind _ _ (λ _, True)); [apply R_bound_charge, allocation_fault|]. intros _ _. eapply (Hbind _ _ Q _ _ m'); [|exact Hf].
    intros b. specialize (Hm b). unfold leaving_call. destruct (m b) as [[[a|e] [b'|]]| |]; done.
Qed.

(** An expression whose names an environment has, with helpers whose bodies read their parameters. *)
Definition covers (env : EvalEnv) (e : L3ExprV2) : Prop :=
  scoped (dom (lets env) ∪ dom (inputs env)) (dom (facts env)) (dom (functions env)) (dom (locals env)) e = true.
Definition helpers_closed (env : EvalEnv) : Prop :=
  ∀ func def, functions env !! func = Some def → scoped ∅ ∅ (dom (functions env)) (list_to_set (params def).*1) (f_body def) = true.

Lemma dom_zip_locals {A} (ks : list string) (vs : list A) (m : gmap string A) : length vs = length ks →
  dom (fold_left (λ m p, <[p.1 := p.2]> m) (zip ks vs) m) = list_to_set ks ∪ dom m.
Proof.
  revert vs m. induction ks as [|k ks IH]; intros [|v vs] m Hl; try done; cbn; [set_solver|]. rewrite IH by (by injection Hl). rewrite dom_insert_L. set_solver.
Qed.
Lemma covers_reads env e : covers env e → reads_bound e env.
Proof.
  intros [Hr _]%scoped_unfold. destruct e; try done; cbn in *; [|by apply elem_of_dom in Hr..]. unfold lookup_name.
  destruct (locals env !! name) eqn:E1; [by eexists|]. destruct (lets env !! name) eqn:E2; [by eexists|].
  apply not_elem_of_dom in E1, E2. destruct Hr as [?|[?|?]%elem_of_union]; [done|done|by apply elem_of_dom].
Qed.
Lemma covers_sub env e0 env' bs e : covers env e0 → (bs, e) ∈ subterms e0 → scope False env env' → bs ⊆ dom (locals env') → covers env' e.
Proof.
  intros [_ Hs]%scoped_unfold He (E1 & E2 & E3 & E4 & _ & _ & _ & Hd & _) Hb. unfold covers. rewrite E1, E2, E3, E4.
  eapply scoped_more; [done..| |by apply Hs]. set_solver.
Qed.

Lemma bound_internal fuel : ∀ e env cf, covers env e → helpers_closed env → R_bound _ (λ _, True) (eval_internal fuel e env cf) (eval_internal fuel e env cf).
Proof.
  induction fuel as [|fuel IH]; intros e env cf He Hh b; [done|]. rewrite eval_internal_S. unfold mbind, Eval_bind.
  pose proof (R_bound_charge (enter cf) (enter_fault cf) b) as Hc. destruct (charge (enter cf) b) as [[[[]|f] b1]| |]; try done.
  assert (R_bound _ (vok False) (eval_internal_body (eval_internal fuel) e env cf) (eval_internal_body (eval_internal fuel) e env cf)) as Hb.
  { apply (closed_body False R_bound False); [| |right; by apply covers_reads|apply env_vok_false|done].
    - intros bs e' env' cf' Hin Hs Hbs. eapply closed_weaken; [apply IH; [by eapply covers_sub|]|by intros ? _ []].
      destruct Hs as (_ & _ & _ & Hs & _). unfold helpers_closed. by rewrite Hs.
    - intros func def vals cf' Hdef Hv Hl. eapply closed_weaken; [apply IH; [|exact Hh]|by intros ? _ []].
      unfold covers. cbn. rewrite dom_zip_locals by (by rewrite length_fmap). rewrite !dom_empty_L, !union_empty_r_L. by eapply Hh. }
  specialize (Hb b1). unfold leaving. destruct (eval_internal_body _ e env cf b1) as [[[a|f] [b'|]]| |]; done.
Qed.

Lemma flush_fault b f b' : flush_run_work b = (Err f, b') → budget_fault f.
Proof. unfold flush_run_work. intros H1. repeat case_match; simplify_eq/=; done. Qed.
Lemma budgeted_bound fuel e env max counter r c : covers env e → helpers_closed env → budgeted fuel e env max counter = Done (r, c) → bound r.
Proof.
  intros He Hh. unfold budgeted. match goal with |- context [eval_internal fuel e env None ?b] => pose proof (bound_internal fuel e env None He Hh b) as Hb end.
  destruct (eval_internal _ _ _ _ _) as [[[v|f] [b|]]| |]; try done; [|intros [= <- _]; by apply bound_err].
  destruct (flush_run_work b) as [[[]|f] b'] eqn:E; intros [= <- _]; [done|]. by eapply bound_err, budget_fault_bound, flush_fault.
Qed.
Lemma with_budget_bound stack e env max counter r c : covers env e → helpers_closed env → eval_with_budget stack e env max counter = Done (r, c) → bound r.
Proof.
  intros He Hh. destruct (with_budget_ample stack e env max counter) as [->|[->|(_ & _ & f & Hf & ->)]]; [done|by apply budgeted_bound|].
  intros [= <- _]. by apply bound_err, budget_fault_bound.
Qed.
Lemma eval_bound stack e env counter r c : covers env e → helpers_closed env → eval stack e env counter = Done (r, c) → bound r.
Proof.
  intros He Hh [[E _]|(r' & E & ->)]%eval_cases.
  - pose proof (bound_internal (height e) e env None He Hh None) as Hb. rewrite E in Hb. destruct r as [v|f]; [done|by apply bound_err].
  - apply with_budget_bound in E; [|done..]. apply bound_bind; [done|by intros ? ?].
Qed.

(** C9: Names in scope are never unbound. Where the environment has every name an expression reads
    (its [let]s, inputs and locals, facts, helpers), and each helper's body reads its parameters and
    calls helpers only, no evaluation, with any budget and any stack, ends in an unbound name:
    binders of list forms, of comprehensions and of match arms are in scope where they are read. *)
Theorem scoped_evaluation_bound e env : covers env e → helpers_closed env →
  (∀ stack counter r c, eval stack e env counter = Done (r, c) → ∀ name, r ≠ Err (Unbound name)) ∧
  (∀ stack max counter r c, eval_with_budget stack e env max counter = Done (r, c) → ∀ name, r ≠ Err (Unbound name)).
Proof.
  intros He Hh. split; intros; intros ->; [by eapply (eval_bound stack e env)|by eapply (with_budget_bound stack e env)].
Qed.
End bound_evaluation.

#[local] Instance demo_scope_layout : ValueLayout := demo_layout.
#[local] Instance demo_scope_text : DebugText := demo_text.
Definition demo_pairs : L3ExprV2 :=
  EComprehension [("x", EListLit [EInt 1; EInt 2]); ("y", EListLit [ELetRef "x"; EInt 5])]%string (Some (ECmp CLt (ELetRef "x") (ELetRef "y")))
    (ECall "down" [ELetRef "x"]).
Lemma scoped_evaluation_bound_witness : eval ample demo_pairs demo_env None = Done (Ok (VList [VInt 0; VInt 0]), None) ∧
  eval ample (ELetRef "z") demo_env None = Done (Err (Unbound "z"), None) ∧ ∀ name, Ok (VList [VInt 0; VInt 0]) ≠ Err (Unbound name).
Proof.
  assert (eval ample demo_pairs demo_env None = Done (Ok (VList [VInt 0; VInt 0]), None)) as E by (vm_compute; reflexivity).
  split; [exact E|]. split; [vm_compute; reflexivity|].
  assert (covers demo_env demo_pairs) as Hc by (vm_compute; reflexivity).
  assert (helpers_closed demo_env) as Hh.
  { intros func def Hf. change (functions demo_env) with (<["down"%string := demo_countdown]> ∅ : gmap string L3FunctionDef) in Hf. apply lookup_insert_Some in Hf as [[<- <-]|[_ Hf]]; [vm_compute; reflexivity|by rewrite lookup_empty in Hf]. }
  apply (proj1 (scoped_evaluation_bound demo_pairs demo_env Hc Hh) ample None _ None E).
Defined.
