(* ===== verification/L3Run.v ===== *)
(** The runner of plans (src/crates/brix-lower/src/l3_v2.rs, Stage C), and the composition of
    lowering, evaluation and running.

    A plan's [let]s are evaluated once; then rules commit one at a time, the earliest declared of
    those whose dependencies have committed. The environment of a plan has no helpers, so that its
    expressions are evaluated on the thread that runs it; the model gives it an ample stack, and
    [plan_expression_fits] is what a stack needs for an expression to be evaluated alike. *)
From S2P Require Import Prelude Text IntCodec Canon CanonLaws Encoding Decimal DecimalMath Values FloatMath L3Value Evidence L3Eval L3Laws Syntax L3Lower L3Scope.

Record CommittedFactV2 : Type := mkFact { ordinal : Z; fact_rule : string; fact_value : L3ValueV2; fact_depends_on : list string }.
Inductive RunStopV2 : Type :=
  | AllRulesCommitted
  | NoEligibleRule (pending : list string)
  | Faulted (rule : string) (fault : EvalFault).
Record L3RunV2 : Type := mkRun { run_facts : list CommittedFactV2; run_stop : RunStopV2 }.

Abbreviation Rule := (string * L3ExprV2 * list string)%type.
Definition rules_of (items : list L3PlanItemV2) : list Rule :=
  omap (λ i, match i with LRule name body depends_on => Some (name, body, depends_on) | _ => None end) items.

Section runner.
Context `{ValueLayout, DebugText}.

(** [eval] under an environment of a run, which has no helpers and no shared counter. *)
Definition eval_plan (e : L3ExprV2) (env : EvalEnv) : outcome (result EvalFault L3ValueV2) :=
  match eval ample e env None with Done (r, _) => Done r | Panicked => Panicked | OutOfFuel => OutOfFuel end.

(** The [let]s, in order: the environment, or the run that one of them ends. *)
Fixpoint eval_lets (items : list L3PlanItemV2) (env : EvalEnv) : outcome (L3RunV2 + EvalEnv) :=
  match items with
  | [] => Done (inr env)
  | LLet name value :: items' =>
    match eval_plan value env with
    | Done (Ok v) => eval_lets items' (with_let name v env)
    | Done (Err fault) => Done (inl (mkRun [] (Faulted name fault)))
    | Panicked => Panicked
    | OutOfFuel => OutOfFuel
    end
  | _ :: items' => eval_lets items' env
  end.

Record RunState : Type := mkRunState { r_env : EvalEnv; committed : gset string; r_facts : list CommittedFactV2 }.
Definition eligible (committed : gset string) (r : Rule) : bool :=
  let '(name, _, deps) := r in negb (bool_decide (name ∈ committed)) && forallb (λ d, bool_decide (d ∈ committed)) deps.
Definition run_step (rules : list Rule) (s : RunState) : option (L3RunV2 + RunState) :=
  match iter_find (eligible (committed s)) rules with
  | None =>
    let pending := (λ r : Rule, r.1.1) <$> (filter (λ r : Rule, r.1.1 ∉ committed s) rules) in
    Some (inl (mkRun (r_facts s) (if decide (pending = []) then AllRulesCommitted else NoEligibleRule pending)))
  | Some (name, body, deps) =>
    match eval_plan body (r_env s) with
    | Done (Ok value) =>
      let fact := mkFact (Z.of_nat (length (r_facts s))) name value deps in
      Some (inr (mkRunState (with_fact name value (r_env s)) ({[name]} ∪ committed s) (r_facts s ++ [fact])))
    | Done (Err fault) => Some (inl (mkRun (r_facts s) (Faulted name fault)))
    | Panicked | OutOfFuel => None
    end
  end.
(** The loop commits a rule each time but the last, and no name twice. *)
Definition run_l3_plan_v2 (plan : L3PlanV2) : outcome L3RunV2 :=
  let rules := rules_of (plan_items plan) in
  match eval_lets (plan_items plan) env_new with
  | Done (inl run) => Done run
  | Done (inr env) => iterate (run_step rules) (S (length rules)) (mkRunState env ∅ [])
  | Panicked => Panicked
  | OutOfFuel => OutOfFuel
  end.
End runner.

(** * Runs as derivations *)

Section derivations.
Context `{ValueLayout, DebugText}.
Context (rules : list Rule) (env0 : EvalEnv).

Abbreviation names facts := (fact_rule <$> facts).
Definition ready (facts : list CommittedFactV2) (r : Rule) : Prop := (r.1.1 ∉ names facts) ∧ ∀ d, d ∈ r.2 → d ∈ names facts.
(** The earliest declared of the rules that are ready. *)
Definition next_rule (facts : list CommittedFactV2) (r : Rule) : Prop :=
  ∃ before after, rules = before ++ r :: after ∧ ready facts r ∧ ∀ r', r' ∈ before → ¬ ready facts r'.

(** What can be committed, in order, and the environment it leaves. *)
Inductive derives : list CommittedFactV2 → EvalEnv → Prop :=
  | derives_start : derives [] env0
  | derives_commit facts env name body deps value :
    derives facts env → next_rule facts (name, body, deps) → eval_plan body env = Done (Ok value) →
    derives (facts ++ [mkFact (Z.of_nat (length facts)) name value deps]) (with_fact name value env).

Definition stops (facts : list CommittedFactV2) (env : EvalEnv) (stop : RunStopV2) : Prop :=
  match stop with
  | AllRulesCommitted => ∀ r, r ∈ rules → r.1.1 ∈ names facts
  | NoEligibleRule pending =>
    pending ≠ [] ∧ (∀ name, name ∈ pending ↔ name ∈ rules.*1.*1 ∧ name ∉ names facts) ∧ ∀ r, r ∈ rules → ¬ ready facts r
  | Faulted rule fault => ∃ body deps, next_rule facts (rule, body, deps) ∧ eval_plan body env = Done (Err fault)
  end.

(** Facts are numbered in order, of different rules, each of a rule of the plan and after what it
    depends on. *)
Definition in_sequence (facts : list CommittedFactV2) : Prop :=
  NoDup (names facts) ∧ ∀ i f, facts !! i = Some f →
    ordinal f = Z.of_nat i ∧ (∃ body, (fact_rule f, body, fact_depends_on f) ∈ rules) ∧ ∀ d, d ∈ fact_depends_on f → d ∈ names (take i facts).

Lemma next_rule_elem facts r : next_rule facts r → r ∈ rules ∧ ready facts r.
Proof. intros (l1 & l2 & -> & Hr & _). split; [|done]. apply elem_of_app. right. by left. Qed.

Lemma derives_in_sequence facts env : derives facts env → in_sequence facts.
Proof.
  induction 1 as [|facts env name body deps value Hd [Hnd Hf] [Hin [Hn Hdeps]]%next_rule_elem Hv]; [split; [constructor|done]|]. split.
  - rewrite fmap_app. apply NoDup_app. split; [done|]. split; [|apply NoDup_singleton]. intros x Hx Hx'. apply list_elem_of_singleton in Hx' as ->. done.
  - intros i f [Hi|[Hi Hf']]%lookup_app_Some.
    + destruct (Hf i f Hi) as (? & ? & Hb). pose proof (lookup_lt_Some _ _ _ Hi). split_and!; [done..|]. intros d Hx. rewrite take_app_le by lia. by apply Hb.
    + apply list_lookup_singleton_Some in Hf' as [Hi0 <-]. assert (i = length facts) as -> by lia. split_and!; [done|by exists body|]. intros d Hx. rewrite take_app_length. by apply Hdeps.
Qed.
Lemma derives_length facts env : derives facts env → length facts ≤ length rules.
Proof.
  intros [Hnd Hf]%derives_in_sequence. rewrite <-(length_fmap fact_rule facts), <-(length_fmap (λ r : Rule, r.1.1) rules). apply submseteq_length, NoDup_submseteq; [done|].
  intros x (f & -> & Hx)%list_elem_of_fmap. apply list_elem_of_lookup in Hx as [i Hi]. destruct (Hf i f Hi) as (_ & (body & Hr) & _). by apply (list_elem_of_fmap_2 (λ r : Rule, r.1.1)) in Hr.
Qed.
Lemma derives_facts fs env : derives fs env → ∀ f, f ∈ fs → facts env !! fact_rule f = Some (fact_value f).
Proof.
  induction 1 as [|fs env name body deps value Hd IH [_ [Hn _]]%next_rule_elem Hv]; intros f Hf; [by apply elem_of_nil in Hf|].
  cbn. apply elem_of_app in Hf as [Hf|Hf]; [|by apply list_elem_of_singleton in Hf as ->; rewrite lookup_insert_eq].
  rewrite lookup_insert_ne; [by apply IH|]. intros E. apply Hn. cbn. rewrite E. by apply list_elem_of_fmap_2.
Qed.

(** The state of the loop describes a derivation. *)
Definition state_ok (s : RunState) : Prop := committed s = list_to_set (names (r_facts s)) ∧ derives (r_facts s) (r_env s).
Lemma eligible_ready s r : state_ok s → eligible (committed s) r = true ↔ ready (r_facts s) r.
Proof.
  intros [-> _]. destruct r as [[name body] deps]. unfold eligible, ready. cbn. rewrite andb_true_iff, negb_true_iff, bool_decide_eq_false, elem_of_list_to_set, forallb_forall.
  f_equiv. split; intros Hd d Hx.
  - apply list_elem_of_In in Hx. specialize (Hd d Hx). apply bool_decide_eq_true in Hd. by apply elem_of_list_to_set in Hd.
  - apply list_elem_of_In in Hx. apply bool_decide_eq_true. apply elem_of_list_to_set. by apply Hd.
Qed.
Lemma iter_find_first {A} (f : A → bool) l x : iter_find f l = Some x → ∃ l1 l2, l = l1 ++ x :: l2 ∧ f x = true ∧ ∀ y, y ∈ l1 → f y = false.
Proof.
  induction l as [|y l IH]; cbn; [done|]. destruct (f y) eqn:E.
  - intros [= ->]. exists [], l. split; [done|]. split; [done|]. by intros z ?%elem_of_nil.
  - intros (l1 & l2 & -> & Hx & Hl)%IH. exists (y :: l1), l2. split; [done|]. split; [done|]. intros z [->|Hz]%elem_of_cons; [done|auto].
Qed.
Lemma eval_plan_returns e env : ∃ r, eval_plan e env = Done r.
Proof. unfold eval_plan. destruct (eval_ample_returns e env None) as (r & c & -> & _). by exists r. Qed.
(** On a stack with room for as many levels as the expression is high the result is the same. *)
Lemma plan_expression_fits s e env counter : functions env = ∅ → (0 ≤ level_bytes s)%Z → (level_bytes s * Z.of_nat (height e) ≤ stack_left s)%Z →
  eval s e env counter = eval ample e env counter.
Proof.
  intros Hf H0' Hs. assert (fits s env (depth_of e env)) as Hfit by (unfold fits, depth_of, stack_of; by rewrite bool_decide_eq_true_2).
  destruct (eval_returns s env H0' e counter Hfit) as (r & c & E & _).
  destruct (eval_same s env e counter) as [Ho|[?|(? & _)]]; [congruence|done|done].
Qed.

Lemma run_step_spec s : state_ok s →
  (∃ s', run_step rules s = Some (inr s') ∧ state_ok s' ∧ length (r_facts s') = S (length (r_facts s))) ∨
  (∃ stop, run_step rules s = Some (inl (mkRun (r_facts s) stop)) ∧ stops (r_facts s) (r_env s) stop).
Proof.
  intros Hs. pose proof Hs as [Hc Hd]. unfold run_step. destruct (iter_find (eligible (committed s)) rules) as [[[name body] deps]|] eqn:E.
  - apply iter_find_first in E as (l1 & l2 & Hl & He & Hb). apply (eligible_ready s) in He; [|done].
    assert (next_rule (r_facts s) (name, body, deps)) as Hnext.
    { exists l1, l2. split; [done|]. split; [done|]. intros r' Hr' Hready. apply (eligible_ready s) in Hready; [|done]. by rewrite Hb in Hready. }
    destruct (eval_plan_returns body (r_env s)) as [[v|f] Ev]; rewrite Ev; [left|right].
    + eexists. split; [done|]. cbn. split; [|rewrite length_app; cbn; lia]. split; cbn; [|by econstructor].
      rewrite Hc, fmap_app, list_to_set_app_L. cbn. apply set_eq. set_solver.
    + exists (Faulted name f). split; [done|]. cbn. eauto.
  - right. eexists. split; [done|]. assert (∀ r, r ∈ rules → ¬ ready (r_facts s) r) as Hnone.
    { intros r Hr Hready. apply (eligible_ready s) in Hready; [|done]. by rewrite (proj1 (iter_find_None _ _) E r Hr) in Hready. }
    set (pending := _ <$> filter _ rules). assert (∀ name, name ∈ pending ↔ name ∈ rules.*1.*1 ∧ name ∉ names (r_facts s)) as Hp.
    { intros name. unfold pending. rewrite list_elem_of_fmap. setoid_rewrite list_elem_of_filter. rewrite <-list_fmap_compose, list_elem_of_fmap. setoid_rewrite Hc. setoid_rewrite not_elem_of_list_to_set.
      split; [intros (r & -> & Hn & Hr)|intros [(r & -> & Hr) Hn]; exists r; done]. split; [by exists r|done]. }
    case_decide as Hnil; cbn; [|done]. intros r Hr. destruct (decide (r.1.1 ∈ names (r_facts s))); [done|]. exfalso.
    assert (r.1.1 ∈ pending) as Hin; [|rewrite Hnil in Hin; by apply elem_of_nil in Hin]. apply Hp. split; [|done]. rewrite <-list_fmap_compose. by apply (list_elem_of_fmap_2 (λ r : Rule, r.1.1)).
Qed.

Lemma run_loop_spec fuel s : state_ok s → length rules < fuel + length (r_facts s) →
  ∃ run env, iterate (run_step rules) fuel s = Done run ∧ derives (run_facts run) env ∧ stops (run_facts run) env (run_stop run).
Proof.
  revert s. induction fuel as [|fuel IH]; intros s Hs Hf; [pose proof (derives_length _ _ (proj2 Hs)); lia|]. cbn [iterate].
  destruct (run_step_spec s Hs) as [(s' & -> & Hs' & Hl)|(stop & -> & Hstop)].
  - apply IH; [done|lia].
  - eexists _, (r_env s). split; [done|]. split; [apply Hs|done].
Qed.
End derivations.

(** * Runs of plans *)

(** A dependency is declared before the rule it is of. *)
Fixpoint ordered (rules : list Rule) (before : gset string) : Prop :=
  match rules with
  | [] => True
  | (name, _, deps) :: rules' => (∀ d, d ∈ deps → d ∈ before) ∧ ordered rules' ({[name]} ∪ before)
  end.
Lemma items_ok_ordered items lets rules : items_ok items lets rules → ordered (rules_of items) rules.
Proof.
  revert lets rules. induction items as [|[c|name value|name body deps] items IH]; intros lets rules; cbn; [done|apply IH| |].
  - intros [_ Hi]. by eapply IH.
  - intros ((_ & _ & Hd) & _ & Hi). split; [done|]. by eapply IH.
Qed.

Section plan_runs.
Context `{ValueLayout, DebugText}.

(** The rules in the order declared, each committed once; a rule whose name has committed is passed
    over. *)
Fixpoint in_order (rules : list Rule) (s : RunState) : outcome L3RunV2 :=
  match rules with
  | [] => Done (mkRun (r_facts s) AllRulesCommitted)
  | (name, body, deps) :: rules' =>
    if decide (name ∈ committed s) then in_order rules' s else
    match eval_plan body (r_env s) with
    | Done (Ok value) =>
      in_order rules' (mkRunState (with_fact name value (r_env s)) ({[name]} ∪ committed s) (r_facts s ++ [mkFact (Z.of_nat (length (r_facts s))) name value deps]))
    | Done (Err fault) => Done (mkRun (r_facts s) (Faulted name fault))
    | Panicked => Panicked
    | OutOfFuel => OutOfFuel
    end
  end.

Lemma iter_find_app {A} (f : A → bool) l1 x l2 : (∀ y, y ∈ l1 → f y = false) → f x = true → iter_find f (l1 ++ x :: l2) = Some x.
Proof. intros Hl Hx. induction l1 as [|y l1 IH]; cbn; [by rewrite Hx|]. rewrite (Hl y); [|by left]. apply IH. intros z Hz. apply Hl. by right. Qed.

Lemma run_in_order fuel done rules s : (∀ r, r ∈ done → r.1.1 ∈ committed s) → ordered rules (committed s) → length rules < fuel →
  iterate (run_step (done ++ rules)) fuel s = in_order rules s.
Proof.
  revert fuel done s. induction rules as [|[[name body] deps] rules IH]; intros fuel done s Hdone Ho Hf.
  - destruct fuel as [|fuel]; [cbn in Hf; lia|]. cbn [iterate in_order]. unfold run_step. rewrite app_nil_r.
    assert (iter_find (eligible (committed s)) done = None) as ->.
    { apply iter_find_None. intros [[n b] d] Hr. cbn. by rewrite bool_decide_eq_true_2 by (apply (Hdone _ Hr)). }
    assert (filter (λ r : Rule, r.1.1 ∉ committed s) done = []) as ->; [|done].
    destruct (filter _ done) as [|r l] eqn:E; [done|]. exfalso. assert (r ∈ filter (λ r : Rule, r.1.1 ∉ committed s) done) as Hr by (rewrite E; by left).
    apply list_elem_of_filter in Hr as [Hn Hr]. by apply Hn, Hdone.
  - cbn in Ho, Hf. destruct Ho as [Hd Ho]. cbn [in_order]. assert (done ++ (name, body, deps) :: rules = (done ++ [(name, body, deps)]) ++ rules) as Happ by by rewrite <-app_assoc.
    destruct (decide (name ∈ committed s)) as [Hc|Hc].
    + rewrite Happ. apply IH; [|by replace ({[name]} ∪ committed s) with (committed s) in Ho by set_solver|lia].
      intros r [Hr|Hr]%elem_of_app; [by apply Hdone|]. by apply list_elem_of_singleton in Hr as ->.
    + destruct fuel as [|fuel]; [lia|]. cbn [iterate]. unfold run_step at 1. rewrite iter_find_app.
      * destruct (eval_plan_returns body (r_env s)) as [[v|f] ->]; [|done]. rewrite Happ. apply IH; cbn; [|done|lia].
        intros r [Hr|Hr]%elem_of_app; [apply elem_of_union_r; by apply Hdone|]. apply list_elem_of_singleton in Hr as ->. cbn. apply elem_of_union_l. by apply elem_of_singleton.
      * intros [[n b] d] Hr. cbn. by rewrite bool_decide_eq_true_2 by (apply (Hdone _ Hr)).
      * cbn. rewrite bool_decide_eq_false_2 by done. cbn. apply forallb_forall. intros d Hx%list_elem_of_In. by apply bool_decide_eq_true, Hd.
Qed.

Lemma eval_lets_returns items env : (∃ env', eval_lets items env = Done (inr env')) ∨
  ∃ name value fault, LLet name value ∈ items ∧ eval_lets items env = Done (inl (mkRun [] (Faulted name fault))).
Proof.
  revert env. induction items as [|[c|name value|name body deps] items IH]; intros env; cbn; [left; by eexists| | |].
  1,3: destruct (IH env) as [(env' & ->)|(n & v & f & Hin & ->)]; [left; by eexists|right; exists n, v, f; split; [by right|done]].
  destruct (eval_plan_returns value env) as [[v|f] ->]; [|right; exists name, value, f; split; [by left|done]].
  destruct (IH (with_let name v env)) as [(env' & ->)|(n & v' & f & Hin & ->)]; [left; by eexists|right; exists n, v', f; split; [by right|done]].
Qed.

(** What a run of a plan is. *)
Definition run_of (plan : L3PlanV2) (run : L3RunV2) : Prop :=
  match eval_lets (plan_items plan) env_new with
  | Done (inr env) =>
    in_sequence (rules_of (plan_items plan)) (run_facts run) ∧
    ∃ env', derives (rules_of (plan_items plan)) env (run_facts run) env' ∧ stops (rules_of (plan_items plan)) (run_facts run) env' (run_stop run)
  | Done (inl failed) => run = failed ∧ run_facts run = [] ∧ ∃ name value fault, LLet name value ∈ plan_items plan ∧ run_stop run = Faulted name fault
  | _ => False
  end.
Lemma run_is_run plan : ∃ run, run_l3_plan_v2 plan = Done run ∧ run_of plan run.
Proof.
  unfold run_l3_plan_v2, run_of. destruct (eval_lets_returns (plan_items plan) env_new) as [(env & ->)|(n & v & f & Hin & ->)]; [|eexists; split; [done|]; cbn; naive_solver].
  destruct (run_loop_spec (rules_of (plan_items plan)) env (S (length (rules_of (plan_items plan)))) (mkRunState env ∅ [])) as (run & env' & Hr & Hd & Hs).
  - split; [done|constructor].
  - cbn. lia.
  - exists run. split; [done|]. split; [by eapply derives_in_sequence|]. by exists env'.
Qed.
Lemma ordered_run plan lets : items_ok (plan_items plan) lets ∅ → ∀ env, eval_lets (plan_items plan) env_new = Done (inr env) →
  run_l3_plan_v2 plan = in_order (rules_of (plan_items plan)) (mkRunState env ∅ []).
Proof.
  intros Ho%items_ok_ordered env He. unfold run_l3_plan_v2. rewrite He. apply (run_in_order _ []); [by intros r ?%elem_of_nil|done|lia].
Qed.
Lemma in_order_stop rules s run : in_order rules s = Done run → ∀ pending, run_stop run ≠ NoEligibleRule pending.
Proof.
  revert s. induction rules as [|[[name body] deps] rules IH]; intros s; cbn; [by intros [= <-]|]. case_decide; [apply IH|].
  destruct (eval_plan body (r_env s)) as [[v|f]| |]; [apply IH|by intros [= <-]|done|done].
Qed.
End plan_runs.

Section run_claims.
Context `{ValueLayout, DebugText}.

(** C11: Runs are derivations. Every plan, whatever its rules, is run to an end: either a [let] faults
    and nothing commits, or the facts are derived from the values of the [let]s one at a time, each
    of the earliest declared rule whose dependencies have committed, numbered from zero, of
    different rules; and the run says why it stopped: every rule's name has committed, or none of
    those pending, which it lists, is eligible, or the next rule's body faulted. *)
Theorem run_exact plan : ∃ run, run_l3_plan_v2 plan = Done run ∧ run_of plan run.
Proof. apply run_is_run. Qed.

(** C10: Lowered plans run in order. The run of a plan that lowering makes evaluates its rules in the
    order the module declares them, one pass, each seeing the facts before it; so it never stops
    for want of an eligible rule. *)
Theorem lowered_plan_runs_in_order `{DebugTy} m profile plan : lower_l3_plan_v2 m profile = Ok plan →
  (∀ env, eval_lets (plan_items plan) env_new = Done (inr env) →
    run_l3_plan_v2 plan = in_order (rules_of (plan_items plan)) (mkRunState env ∅ [])) ∧
  ∃ run, run_l3_plan_v2 plan = Done run ∧ ∀ pending, run_stop run ≠ NoEligibleRule pending.
Proof.
  intros Hi%lower_plan_ok. pose proof (ordered_run plan ∅ Hi) as Ho. split; [exact Ho|].
  destruct (run_is_run plan) as (run & Hr & Hof). exists run. split; [exact Hr|]. intros pending.
  destruct (eval_lets_returns (plan_items plan) env_new) as [(env & He)|(n & v & f & _ & He)].
  - rewrite (Ho env He) in Hr. by eapply in_order_stop.
  - unfold run_of in Hof. rewrite He in Hof. by destruct Hof as [-> _].
Qed.
End run_claims.

(** ** Names in runs *)

Section names_in_runs.
Context `{ValueLayout, DebugText}.

Lemma eval_plan_bound e env lets rules : scoped lets rules ∅ ∅ e = true → lets ⊆ dom (L3Eval.lets env) → rules ⊆ dom (facts env) → functions env = ∅ →
  ∀ f, eval_plan e env = Done (Err f) → ¬ unbound f.
Proof.
  intros Hs Hl Hr Hf f. unfold eval_plan. destruct (eval ample e env None) as [[r c]| |] eqn:E; try done. intros [= ->].
  apply eval_bound in E; [by apply E| |intros func def; by rewrite Hf, lookup_empty].
  eapply scoped_more; [| |apply empty_subseteq|apply empty_subseteq|exact Hs]; [set_solver|done].
Qed.

(** A rule whose body reads the [let]s of an environment and the facts it declares. *)
Definition rule_scoped (env : EvalEnv) (r : Rule) : Prop := scoped (dom (L3Eval.lets env)) (list_to_set r.2) ∅ ∅ r.1.2 = true.

Lemma eval_lets_bound items env lets rules : items_ok items lets rules → lets ⊆ dom (L3Eval.lets env) → functions env = ∅ →
  (∀ run, eval_lets items env = Done (inl run) → ∀ name f, run_stop run = Faulted name f → ¬ unbound f) ∧
  (∀ env', eval_lets items env = Done (inr env') → functions env' = ∅ ∧ dom (L3Eval.lets env) ⊆ dom (L3Eval.lets env') ∧ Forall (rule_scoped env') (rules_of items)).
Proof.
  revert env lets rules. induction items as [|[c|name value|name body deps] items IH]; intros env lets rules Hi Hl Hf; cbn in Hi |- *.
  - split; [done|]. by intros env' [= <-].
  - by eapply IH.
  - destruct Hi as [Hv Hi]. destruct (eval_plan value env) as [[v|f]| |] eqn:E; try done.
    + destruct (IH (with_let name v env) _ _ Hi) as [H1 H2]; [cbn; rewrite dom_insert_L; set_solver|done|]. split; [exact H1|].
      intros env' He. destruct (H2 env' He) as (? & Hd & ?). split; [done|]. split; [|done]. cbn in Hd. rewrite dom_insert_L in Hd. set_solver.
    + split; [|done]. intros run [= <-] n g [= <- <-]. eapply eval_plan_bound; [exact Hv|done|apply empty_subseteq|done|exact E].
  - destruct Hi as (_ & Hb & Hi). destruct (IH env _ _ Hi Hl Hf) as [H1 H2]. split; [exact H1|].
    intros env' He. destruct (H2 env' He) as (? & Hd & ?). split; [done|]. split; [done|]. constructor; [|done].
    eapply scoped_more; [|done..|exact Hb]. set_solver.
Qed.

Lemma derives_env rules env0 fs env : derives rules env0 fs env → L3Eval.lets env = L3Eval.lets env0 ∧ functions env = functions env0 ∧ list_to_set (fact_rule <$> fs) ⊆ dom (facts env).
Proof.
  induction 1 as [|fs env name body deps value Hd (IH1 & IH2 & IH3) Hn Hv]; [split_and!; [done..|apply empty_subseteq]|]. split_and!; [done..|].
  rewrite fmap_app, list_to_set_app_L. cbn. rewrite dom_insert_L. set_solver.
Qed.

Lemma run_bound plan : items_ok (plan_items plan) ∅ ∅ → ∀ run, run_l3_plan_v2 plan = Done run → ∀ name f, run_stop run = Faulted name f → ¬ unbound f.
Proof.
  intros Hi run Hr name f Hstop. destruct (run_is_run plan) as (run' & Hr' & Hof). rewrite Hr in Hr'. injection Hr' as <-. unfold run_of in Hof.
  destruct (eval_lets_bound (plan_items plan) env_new ∅ ∅ Hi (empty_subseteq _) eq_refl) as [H1 H2].
  destruct (eval_lets (plan_items plan) env_new) as [[failed|env]| |]; [destruct Hof as (-> & _ & _); by eapply H1| |done|done].
  destruct (H2 env eq_refl) as (Hf & _ & Hrules). destruct Hof as (_ & env' & Hd & Hs). rewrite Hstop in Hs. destruct Hs as (body & deps & Hnext & Ev).
  destruct (derives_env _ _ _ _ Hd) as (E1 & E2 & E3). apply next_rule_elem in Hnext as [Hin [_ Hdeps]]. rewrite Forall_forall in Hrules. specialize (Hrules _ Hin). cbn in Hdeps.
  eapply (eval_plan_bound body env'); [exact Hrules|by rewrite E1| |congruence|exact Ev].
  intros d Hx. apply E3. apply elem_of_list_to_set, Hdeps. by apply elem_of_list_to_set in Hx.
Qed.

(** C8: Lowering resolves names for good. However a run of a plan that lowering makes ends, it is not
    for a name: no [let] and no rule faults for a [let], a local, a fact or a helper that is not
    there. *)
Theorem lowered_plan_never_unbound `{DebugTy} m profile plan run : lower_l3_plan_v2 m profile = Ok plan → run_l3_plan_v2 plan = Done run →
  ∀ rule name, run_stop run ≠ Faulted rule (Unbound name).
Proof. intros Hi%lower_plan_ok Hr rule name Hs. by eapply (run_bound plan Hi run Hr). Qed.
End names_in_runs.

#[local] Instance demo_run_layout : ValueLayout := demo_layout.
#[local] Instance demo_run_text : DebugText := demo_text.
#[local] Instance demo_run_debug : DebugTy := demo_debug.
Definition demo_facts : list CommittedFactV2 := [mkFact 0 "first" (VInt 42) []; mkFact 1 "second" (VInt 84) ["first"%string]].
Lemma lowered_plan_runs_in_order_witness : run_l3_plan_v2 demo_plan = Done (mkRun demo_facts AllRulesCommitted) ∧
  in_order (rules_of (plan_items demo_plan)) (mkRunState (with_let "limit" (VInt 42) env_new) ∅ []) = Done (mkRun demo_facts AllRulesCommitted).
Proof.
  assert (lower_l3_plan_v2 (demo_module ["first"%string]) L3_PROFILE_MARKER_V2 = Ok demo_plan) as E by (vm_compute; reflexivity).
  destruct (lowered_plan_runs_in_order _ _ _ E) as [Ho _]. rewrite <-Ho by (vm_compute; reflexivity). split; vm_compute; reflexivity.
Defined.

Lemma lowered_plan_never_unbound_witness : run_l3_plan_v2 demo_plan = Done (mkRun demo_facts AllRulesCommitted) ∧
  (∀ rule name, AllRulesCommitted ≠ Faulted rule (Unbound name)) ∧
  run_l3_plan_v2 (mkPlan L3_PROFILE_MARKER_V2 L3_PLAN_FORMAT_V2 [LRule "a" (ERuleFact "b") []]%string) = Done (mkRun [] (Faulted "a" (Unbound "b"))).
Proof.
  assert (lower_l3_plan_v2 (demo_module ["first"%string]) L3_PROFILE_MARKER_V2 = Ok demo_plan) as E by (vm_compute; reflexivity).
  assert (run_l3_plan_v2 demo_plan = Done (mkRun demo_facts AllRulesCommitted)) as Hr by (vm_compute; reflexivity).
  split; [exact Hr|]. split; [apply (lowered_plan_never_unbound _ _ _ _ E Hr)|vm_compute; reflexivity].
Defined.

(** A plan that lowering does not make can stop for want of an eligible rule. *)
Lemma stuck_plan : run_l3_plan_v2 (mkPlan L3_PROFILE_MARKER_V2 L3_PLAN_FORMAT_V2 [LRule "a" (EInt 1) ["b"]; LRule "b" (EInt 1) ["a"]; LRule "c" (EInt 7) []]%string) =
  Done (mkRun [mkFact 0 "c" (VInt 7) []] (NoEligibleRule ["a"; "b"]%string)).
Proof. vm_compute. reflexivity. Qed.
(** Two rules of one name: the second never commits, and the run says that all rules did. *)
Lemma same_name_never_commits : run_l3_plan_v2 (mkPlan L3_PROFILE_MARKER_V2 L3_PLAN_FORMAT_V2 [LRule "a" (EInt 1) []; LRule "a" (EInt 2) []]%string) =
  Done (mkRun [mkFact 0 "a" (VInt 1) []] AllRulesCommitted).
Proof. vm_compute. reflexivity. Qed.
